(* ===== verification/_CoqProject ===== *)
-Q . S2P
Prelude.v
BTree.v
Seq.v
StreamWire.v
StreamRx.v
StreamRxInv.v
StreamRxAccept.v
StreamRxRuns.v
StreamTx.v
StreamEngine.v
StreamTxInv.v
StreamSender.v
StreamRobust.v
StreamShape.v
StreamNet.v
Crypto.v
RatchetTree.v
RatchetTreeInv.v
Ratchet.v
RatchetKeys.v
RatchetAgree.v
RatchetRobust.v
RatchetSession.v
RatchetDelivery.v
RatchetState.v
Pqxdh.v
OMap.v
Decimal.v
Bencode.v
Inet.v
Krpc.v
Lookup.v
Rendezvous.v
Abuse.v
FrameCodec.v
IpText.v
Float.v
Kademlia.v
KademliaProps.v
Onion.v
CircuitData.v
CircuitReplay.v
CircuitSetup.v
CircuitTable.v
CircuitTableInv.v
CircuitRegister.v
ServiceBudget.v
Relay.v
RelayInv.v
RelayPath.v
RelayStream.v
RelayBuild.v
RelayNet.v
RelayReplay.v
Datagram.v
DatagramInv.v
DatagramLane.v
DatagramBurst.v
DatagramFlows.v
DatagramFlowsInv.v
DatagramFlowsNet.v
LossyWork.v
PriorityQueue.v
PriorityQueueInv.v
PriorityQueueRuns.v
PriorityQueueFair.v
SessionCipher.v
Rekey.v
RekeyNet.v
RekeyInv.v
RekeyRuns.v
RekeySafe.v
