(* ===== verification/Prelude.v ===== *)
(** * Verification of the Veil (OVL1) node

    Veil is an overlay network node in Rust (crates/ under src/).  Nodes keep sessions with their
    peers, carry byte streams over onion circuits, exchange end-to-end encrypted messages with a
    post-quantum Double Ratchet, meet through relays that know neither party, find their first peers
    through the Mainline DHT, and defend
    themselves against abusive peers.  This development models, as executable functions, the parts
    in which correctness is a matter of algorithm rather than of plumbing, and proves what makes
    them correct.  Every definition is translated from the source; the modules that perform I/O
    around these parts (sockets, tasks, files, configuration, bindings) are not modelled.

    ** Conventions.  A [w]-bit integer is a [Z], and every operation that can leave the range wraps,
    saturates or is checked as in the source.  A function that can panic returns an option, [None]
    being the panic; fallible code returns a sum.  [&mut self] is explicit state passing, with
    [r <| field := v |>] for an assignment.  Times are integers, and an operation takes the instant
    it reads as an argument.  BTreeMap is a list in key order ([BTree] for integer keys, [OMap] for
    any ordered key), HashMap a [gmap].  A value that several holders share (an [Arc]) is a
    reference into a store.  Code outside src/ is a parameter: HKDF, X25519, ML-KEM, the AEAD,
    ChaCha20, BLAKE3, Ed25519 and the random source are type classes with their documented laws
    ([Crypto]), the network and the clock of a lookup are one in [Lookup]; every theorem that assumes
    a law has a witness with a concrete instance.

    ** Shared files.  [Prelude]: tactics, machine integers, bytes, lists, record update.  [BTree],
    [OMap]: ordered maps.  [Seq]: 32-bit serial numbers (veil-onion-stream/src/seq.rs).  [Decimal]:
    decimal text and UTF-8.  [Inet]: addresses, and which are internal
    (veil-mainline/src/endpoint.rs).  [Crypto]: the primitives.

    ** The onion stream (crates/veil-onion-stream), a reliable byte stream over lossy circuits.
    - [StreamWire]: wire.rs, frames and their codec; [decode_spec] says exactly which cells decode.
    - [StreamRx], [StreamRxInv], [StreamRxAccept], [StreamRxRuns]: RxState of engine.rs (reassembly,
      acknowledgement blocks, window): in-order delivery, exact acknowledgement blocks, bounds
      against hostile segments, progress.
    - [StreamTx], [StreamTxInv], [StreamSender], [StreamShape]: TxState (segments, retransmission,
      RACK, BBR, timers): a segment always carries the application's bytes at its position.
    - [StreamEngine], [StreamRobust]: StreamEngine, its handlers, scheduler and timers; no operation
      of an orderly run panics; four defects are proved by runs of the model.
    - [StreamNet]: two engines and a network that loses, repeats and reorders: end-to-end integrity.
    Two loops of the receive side need fuel: draining the reorder buffer has one more than its
    entries, accepting a segment one more than its bytes; running out would be [None], and the
    theorems show that no operation returns it.  The other recursions are structural.

    ** The ratchet (crates/veil-ratchet), end-to-end encryption of messages.
    - [RatchetTree], [RatchetTreeInv]: tree.rs, the key tree; it refines a set of unused leaves.  Its
      recursions go down the levels that are left, at most 32.
    - [Ratchet], [RatchetKeys], [RatchetAgree]: kdf.rs, pq.rs, ratchet.rs; a conversation is a step
      relation over two ends and the headers sent, and the invariant by induction over it gives the
      agreement theorem: the receiver derives the sender's key for every message of it.
    - [RatchetRobust]: no sequence of hostile headers breaks the state or exceeds the key bounds.
    - [RatchetSession], [RatchetDelivery], [RatchetState]: session.rs, frames, sealed delivery and the
      stored state with its three versions; one reachable state that cannot be restored.
    - [Pqxdh]: pqxdh.rs, first contact: both ends derive one root, and the sessions that result are
      the ends of a conversation as above.

    ** Mainline (crates/veil-mainline), finding peers on the BitTorrent DHT.
    - [Bencode]: bencode.rs; the parser accepts exactly the canonical encodings within its bounds and
      returns on every input.  Its fuel is one more than twice the length of the input: an item
      consumes at least a byte and costs at most two calls.  [bencode_terminates] shows it suffices.
    - [Krpc]: krpc.rs, the messages: round trip, and typing of what is received.
    - [Lookup]: lookup.rs, the iterative lookup over any network: where it may send, how much it may
      keep, what it returns; two defects.
    - [Rendezvous]: rendezvous.rs, the daily meeting points.

    ** The DHT of Veil itself (crates/veil-dht).
    - [IpText]: the transport addresses of routing.rs and the subnets it takes from them, with the
      address parser of the standard library.
    - [Kademlia], [KademliaProps]: routing.rs, the routing table (buckets, token buckets in IEEE
      double arithmetic, diversity quotas, stated preferences, nearest contacts): the table stays
      consistent under any run, lookups are exact, preferences are kept; the quotas can be evaded.

    ** Circuits (crates/veil-anonymity, and the dispatcher and runtime that use it), by which a sender
    and a receiver meet at a relay that knows neither.
    - [Onion]: cell.rs, onion.rs, circuit.rs, packet.rs; a cell sent through any hops is peeled by each
      of them and only the last one finds the payload.
    - [CircuitData], [CircuitReplay], [CircuitSetup]: circuit_data.rs, circuit_wire.rs,
      circuit_setup.rs, circuit_origin.rs; the cells of an established circuit, the bitmap against
      replays (it answers as the list of accepted numbers would), the setup onion and the originator.
      Clearing a stretch of the bitmap has one step of fuel per bit.
    - [CircuitTable], [CircuitTableInv], [CircuitRegister]: circuit_table.rs, circuit_flow.rs,
      circuit_register.rs; the indexes of a relay agree and stay within their limits, an installation
      does exactly what it says, and a registration is one the owner of the cookie signed.
    - [ServiceBudget]: rate_limiter.rs of veil-abuse and service_budget.rs of veil-dispatcher.
    - [Relay], [RelayInv]: the circuit messages of veil-dispatcher/src/anonymity.rs and the sealing
      side of veil-node-runtime; any sequence of messages, from any link and with any body, is handled
      without a panic and keeps the node consistent.
    - [RelayPath], [RelayStream], [RelayBuild], [RelayNet]: many such nodes, a message being handled by
      the node it is sent to.  A circuit comes up over any path ([circuit_established]), and two of
      them that end at one relay carry every message of the sender to the receiver, in order and
      unchanged ([rendezvous_stream]).  [carry] has one step of fuel per handler a message passes: the
      number of relays on the path, or on both paths for a stream.
    - [RelayReplay]: a replayed setup gives a circuit the keystream of its former life.

    ** Datagrams of a session (crates/veil-session), frames that may be lost.
    - [Datagram]: realtime_datagram.rs; a frame is cut into sealed fragments, and the receiver
      authenticates them, refuses replays and puts frames together within bounds.  Making room has
      one step of fuel per assembly and one more.  The order in which a HashMap is iterated is a
      parameter, any permutation of its entries.
    - [DatagramInv], [DatagramLane], [DatagramBurst]: the receiver stays within its limits and never
      panics; over a network that loses, repeats and reorders, what comes out was sent, once
      ([lane_integrity]); and a burst that fits comes through completely ([burst_delivered]).
    - [DatagramFlows], [DatagramFlowsInv], [DatagramFlowsNet]: datagram_flows.rs; many lanes under one
      session, with their handles bound and rebound: no nonce is used twice, the sizes announced are
      those sent, sixteen flows at most, and no frame changes its flow ([flows_integrity]).  Drawing an
      identifier has fuel, since a random source may repeat itself; the theorems hold for any fuel.

    ** The queue of outgoing frames of a session (crates/veil-session, with crates/veil-types).
    - [LossyWork]: local_lossy_work.rs; a frame sent in several cells is one item of work, whose cells
      are paid for at once or not at all ([work_reserved_once]) and released in order over a span of
      time ([release_schedule]).
    - [PriorityQueue]: priority_queue.rs; seven queues served in weighted rounds, with lifetimes,
      budgets and shedding, over a store of the work items that producers share.
    - [PriorityQueueInv], [PriorityQueueRuns], [PriorityQueueFair]: the counters are exact and nothing
      panics ([queue_robust]), the frames of a class keep their order and a reliable one is not lost
      ([queue_in_order]), and it comes out after a bounded number of pops ([durable_not_starved]); the
      node's own signaling is shed first, against the documentation.

    ** The keys of a session (crates/veil-crypto, crates/veil-session).
    - [SessionCipher]: session_cipher.rs, kex.rs and session_kdf.rs; the AEAD of a direction, driven by
      a counter, and the keys of both ends from a shared secret, which mirror each other.
    - [Rekey]: rekey_context.rs, rekey_rx_grace_buffer.rs and the handlers of runner.rs that seal and
      open frames and replace the keys of a live session.  What a handler does to the writer, the
      queue, the registries and the datagram lane is the list of its effects.
    - [RekeyNet], [RekeyInv], [RekeyRuns], [RekeySafe]: two runners over an ordered connection of
      bounded delay.  By an invariant on the phase of the exchange, rekeys (two at once included)
      neither lose frames nor end the session ([session_survives_rekeys]), and every attempt leads to
      new keys ([rekey_completes]), provided that a side does not start again within a round trip and
      that an attempt is written at once.  The code ensures neither: runs of the model in which an
      attempt outlives the state it belongs to end the session ([forgotten_attempt_ends_session]).

    ** Sessions and abuse control.
    - [FrameCodec]: veil-proto/src/header.rs and codec.rs, the frame header and its associated data.
    - [Abuse]: veil-abuse/src/ban_list.rs, violation_tracker.rs, replay_window.rs: consistency under
      any run, who is banned and until when, the replay window as a specification; two defects.

    ** Not modelled.  The asynchronous drivers around these parts, transports, the session handshake,
    its runner apart from the rekey handlers, the rotation of the ML-KEM key, the derivations of keys for
    resumed and hybrid sessions, the ordered lanes, the message bodies of veil-proto, the per-peer limiters
    of veil-abuse, storage and walks of veil-dht, route discovery, gateways, mailboxes, configuration, IPC
    and bindings.
    Secrecy is not stated: the primitives are known by their functional laws only. *)

From Stdlib Require Export ZArith Lia.
From Stdlib Require Export Init.Byte Strings.Byte.
From stdpp Require Export base numbers gmap option sorting list.
From stdpp Require Import strings.

Declare Scope veil_scope.
Delimit Scope veil_scope with veil.
#[global] Open Scope Z_scope.

(** ** Automation shared by the development *)

Create HintDb veil.
Create Rewrite HintDb veil.

(** [lia] after turning every division and remainder into its equations. *)
Ltac mlia := Z.div_mod_to_equations; lia.

(** Case analysis on every boolean comparison the goal or a hypothesis branches on. *)
Ltac case_bool :=
  match goal with
  | |- context [if ?b then _ else _] =>
      lazymatch type of b with bool => let H := fresh "Hb" in destruct b eqn:H end
  | H : context [if ?b then _ else _] |- _ =>
      lazymatch type of b with bool => let H' := fresh "Hb" in destruct b eqn:H' end
  end.

(** Turn boolean comparisons in the hypotheses into propositions. *)
Ltac to_prop :=
  repeat match goal with
  | H : (_ && _)%bool = true |- _ => apply andb_true_iff in H; destruct H
  | H : (_ || _)%bool = false |- _ => apply orb_false_iff in H; destruct H
  | H : negb _ = true |- _ => apply negb_true_iff in H
  | H : negb _ = false |- _ => apply negb_false_iff in H
  | H : (_ <? _)%Z = true |- _ => apply Z.ltb_lt in H
  | H : (_ <? _)%Z = false |- _ => apply Z.ltb_ge in H
  | H : (_ <=? _)%Z = true |- _ => apply Z.leb_le in H
  | H : (_ <=? _)%Z = false |- _ => apply Z.leb_gt in H
  | H : (_ =? _)%Z = true |- _ => apply Z.eqb_eq in H
  | H : (_ =? _)%Z = false |- _ => apply Z.eqb_neq in H
  end.

(** ** Machine integers

    A [w]-bit unsigned integer is a [Z] in [0, 2^w).  Wrap-around is written out at every
    operation that can leave the range. *)

Abbreviation M8 := 256 (only parsing).
Abbreviation M16 := 65536 (only parsing).
Abbreviation M31 := 2147483648 (only parsing).
Abbreviation M32 := 4294967296 (only parsing).
Abbreviation M64 := 18446744073709551616 (only parsing).

Definition is_u8 (x : Z) : Prop := 0 <= x < M8.
Definition is_u16 (x : Z) : Prop := 0 <= x < M16.
Definition is_u32 (x : Z) : Prop := 0 <= x < M32.
Definition is_u64 (x : Z) : Prop := 0 <= x < M64.

Definition wrap8 (x : Z) : Z := x mod M8.
Definition wrap16 (x : Z) : Z := x mod M16.
Definition wrap32 (x : Z) : Z := x mod M32.
Definition wrap64 (x : Z) : Z := x mod M64.

(** [u32::wrapping_add], [u32::wrapping_sub]; also plain [+] and [-] as compiled with overflow
    checks off (the release profile). *)
Definition add32 (a b : Z) : Z := wrap32 (a + b).
Definition sub32 (a b : Z) : Z := wrap32 (a - b).
Definition mul32 (a b : Z) : Z := wrap32 (a * b).
Definition add64 (a b : Z) : Z := wrap64 (a + b).
Definition sub64 (a b : Z) : Z := wrap64 (a - b).
Definition mul64 (a b : Z) : Z := wrap64 (a * b).

Definition U8_MAX : Z := 255.
Definition U32_MAX : Z := 4294967295.
Definition U64_MAX : Z := 18446744073709551615.

Definition sat_add8 (a b : Z) : Z := Z.min (a + b) U8_MAX.
Definition sat_add32 (a b : Z) : Z := Z.min (a + b) U32_MAX.
Definition sat_mul32 (a b : Z) : Z := Z.min (a * b) U32_MAX.
Definition sat_add64 (a b : Z) : Z := Z.min (a + b) U64_MAX.
Definition sat_mul64 (a b : Z) : Z := Z.min (a * b) U64_MAX.
(** [saturating_sub] of any unsigned width. *)
Definition sat_sub (a b : Z) : Z := Z.max 0 (a - b).

(** [x as i32] for a [u32]. *)
Definition as_i32 (x : Z) : Z := if x <? M31 then x else x - M32.

(** [Ord::clamp]. *)
Definition clamp (x lo hi : Z) : Z := if x <? lo then lo else if hi <? x then hi else x.

(** [div_ceil] on unsigned integers, for a non-zero divisor. *)
Definition div_ceil (a b : Z) : Z := a / b + (if 0 <? a mod b then 1 else 0).

Lemma wrap32_range x : is_u32 (wrap32 x).
Proof. unfold is_u32, wrap32. mlia. Qed.

Lemma wrap32_id x : is_u32 x -> wrap32 x = x.
Proof. unfold is_u32, wrap32. intros. apply Z.mod_small. lia. Qed.

Lemma wrap32_idem x : wrap32 (wrap32 x) = wrap32 x.
Proof. apply wrap32_id, wrap32_range. Qed.

Lemma Forall_snoc {A} (P : A -> Prop) l x : Forall P (l ++ [x]) <-> Forall P l /\ P x.
Proof. by rewrite Forall_app, Forall_singleton. Qed.

Lemma add32_range a b : is_u32 (add32 a b).
Proof. apply wrap32_range. Qed.

Lemma sub32_range a b : is_u32 (sub32 a b).
Proof. apply wrap32_range. Qed.

Lemma add32_wrap a b : add32 (wrap32 a) b = wrap32 (a + b).
Proof. unfold add32, wrap32. rewrite Zplus_mod_idemp_l. done. Qed.

Lemma add32_wrap2 a b : add32 (wrap32 a) (wrap32 b) = wrap32 (a + b).
Proof. rewrite add32_wrap. unfold wrap32. rewrite Zplus_mod_idemp_r. done. Qed.

Lemma sub32_wrap a b : sub32 (wrap32 a) (wrap32 b) = wrap32 (a - b).
Proof. unfold sub32, wrap32. rewrite <- Zminus_mod. done. Qed.

#[export] Hint Resolve wrap32_range add32_range sub32_range : veil.

(** ** Lists indexed by machine integers *)

(** [len()] as an integer. *)
Definition zlen {A} (l : list A) : Z := Z.of_nat (length l).

Definition ztake {A} (n : Z) (l : list A) : list A := take (Z.to_nat n) l.
Definition zdrop {A} (n : Z) (l : list A) : list A := drop (Z.to_nat n) l.

(** [l[a..b]]; [None] where the source panics. *)
Definition slice {A} (l : list A) (a b : Z) : option (list A) :=
  if (0 <=? a) && (a <=? b) && (b <=? zlen l) then Some (ztake (b - a) (zdrop a l)) else None.

Lemma zlen_nonneg {A} (l : list A) : 0 <= zlen l.
Proof. unfold zlen. lia. Qed.

Lemma zlen_nil {A} : zlen (@nil A) = 0.
Proof. done. Qed.

Lemma zlen_cons {A} (x : A) l : zlen (x :: l) = 1 + zlen l.
Proof. unfold zlen. simpl. lia. Qed.

Lemma zlen_app {A} (l k : list A) : zlen (l ++ k) = zlen l + zlen k.
Proof. unfold zlen. rewrite length_app. lia. Qed.

Lemma zlen_ztake {A} n (l : list A) : 0 <= n -> zlen (ztake n l) = Z.min n (zlen l).
Proof. unfold zlen, ztake. rewrite length_take. lia. Qed.

Lemma zlen_zdrop {A} n (l : list A) : 0 <= n -> zlen (zdrop n l) = Z.max 0 (zlen l - n).
Proof. unfold zlen, zdrop. rewrite length_drop. lia. Qed.

Lemma zlen_repeat {A} (x : A) n : zlen (repeat x n) = Z.of_nat n.
Proof. unfold zlen. by rewrite repeat_length. Qed.

Lemma ztake_app_len {A} n (l k : list A) : zlen l = n -> ztake n (l ++ k) = l.
Proof. intros <-. unfold ztake, zlen. by rewrite Nat2Z.id, take_app_length. Qed.

Lemma zdrop_app_len {A} n (l k : list A) : zlen l = n -> zdrop n (l ++ k) = k.
Proof. intros <-. unfold zdrop, zlen. by rewrite Nat2Z.id, drop_app_length. Qed.

Lemma ztake_zdrop {A} n (l : list A) : ztake n l ++ zdrop n l = l.
Proof. apply take_drop. Qed.

#[export] Hint Rewrite @zlen_nil @zlen_cons @zlen_app : veil.

Lemma slice_Some {A} (l : list A) a b :
  0 <= a <= b -> b <= zlen l -> slice l a b = Some (ztake (b - a) (zdrop a l)).
Proof.
  intros. unfold slice.
  rewrite (proj2 (Z.leb_le 0 a)), (proj2 (Z.leb_le a b)), (proj2 (Z.leb_le b _)) by lia. done.
Qed.

Lemma slice_length {A} (l : list A) a b s : slice l a b = Some s -> zlen s = b - a.
Proof.
  unfold slice. case_bool; [|done]. to_prop. intros [= <-].
  rewrite zlen_ztake, zlen_zdrop by lia. lia.
Qed.

(** ** Bytes and big-endian integers *)

Definition byte_val (b : byte) : Z := Z.of_N (Byte.to_N b).

(** [x as u8]. *)
Definition byte_of (x : Z) : byte :=
  match Byte.of_N (Z.to_N (wrap8 x)) with Some b => b | None => x00 end.

Lemma byte_val_range b : 0 <= byte_val b < 256.
Proof. unfold byte_val. pose proof (Byte.to_N_bounded b). lia. Qed.

Lemma byte_val_of x : byte_val (byte_of x) = wrap8 x.
Proof.
  unfold byte_of, byte_val, wrap8.
  destruct (Byte.of_N _) as [b|] eqn:E.
  - apply Byte.to_of_N in E. rewrite E. mlia.
  - apply Byte.of_N_None_iff in E. mlia.
Qed.

Lemma byte_of_val b : byte_of (byte_val b) = b.
Proof.
  unfold byte_of, wrap8. rewrite Z.mod_small by apply byte_val_range.
  unfold byte_val. rewrite N2Z.id, Byte.of_to_N. done.
Qed.

Lemma byte_val_inj a b : byte_val a = byte_val b -> a = b.
Proof. intros H. rewrite <- (byte_of_val a), <- (byte_of_val b), H. done. Qed.

#[global] Instance byte_eq_dec : EqDecision byte := Byte.byte_eq_dec.
#[global] Instance byte_countable : Countable byte := inj_countable Byte.to_N Byte.of_N Byte.of_to_N.

(** [to_be_bytes] of an [n]-byte integer. *)
Fixpoint be_bytes (n : nat) (x : Z) : list byte :=
  match n with
  | O => []
  | S n' => byte_of (x / 256 ^ Z.of_nat n') :: be_bytes n' x
  end.

(** [from_be_bytes]. *)
Fixpoint from_be (l : list byte) : Z :=
  match l with
  | [] => 0
  | b :: l' => byte_val b * 256 ^ zlen l' + from_be l'
  end.

Lemma length_be_bytes n x : length (be_bytes n x) = n.
Proof. induction n; simpl; congruence. Qed.

Lemma zlen_be_bytes n x : zlen (be_bytes n x) = Z.of_nat n.
Proof. unfold zlen. rewrite length_be_bytes. done. Qed.

Lemma from_be_bytes n x : from_be (be_bytes n x) = x mod 256 ^ Z.of_nat n.
Proof.
  induction n as [|n IH]; simpl be_bytes; simpl from_be.
  - rewrite Z.mod_1_r. done.
  - rewrite IH, byte_val_of, zlen_be_bytes. unfold wrap8.
    rewrite Nat2Z.inj_succ, Z.pow_succ_r by lia.
    rewrite (Z.mul_comm 256), Z.rem_mul_r by lia. lia.
Qed.

Lemma from_be_range l : 0 <= from_be l < 256 ^ zlen l.
Proof.
  induction l as [|b l IH]; [done|].
  simpl from_be. rewrite zlen_cons, Z.pow_add_r by (pose proof (zlen_nonneg l); lia).
  pose proof (byte_val_range b). nia.
Qed.

Lemma be_bytes_mod n m x :
  (n <= m)%nat -> be_bytes n (x mod 256 ^ Z.of_nat m) = be_bytes n x.
Proof.
  induction n as [|n IH]; [done|]. intros Hle. simpl. rewrite IH by lia. f_equal.
  apply byte_val_inj. rewrite !byte_val_of. unfold wrap8.
  replace (Z.of_nat m) with (Z.of_nat n + 1 + (Z.of_nat m - Z.of_nat n - 1)) by lia.
  rewrite !Z.pow_add_r by lia. rewrite <- Z.mul_assoc.
  rewrite Z.rem_mul_r by lia.
  rewrite (Z.mul_comm (256 ^ Z.of_nat n) ((_ / _) mod _)), Z.div_add by lia.
  rewrite Z.div_small by (apply Z.mod_pos_bound; lia). simpl Z.add.
  change (256 ^ 1) with 256.
  rewrite Z.rem_mul_r by lia.
  rewrite Z.add_0_l, (Z.mul_comm 256), Z.mod_add by lia. apply Z.mod_mod. lia.
Qed.

Lemma be_bytes_from_be l : be_bytes (length l) (from_be l) = l.
Proof.
  induction l as [|b l IH]; [done|]. simpl. pose proof (from_be_range l) as Hr.
  unfold zlen in *. f_equal.
  - rewrite Z.add_comm, Z.div_add, Z.div_small by lia. apply byte_of_val.
  - rewrite <- (be_bytes_mod _ (length l)) by lia.
    rewrite Z.add_comm, Z.mod_add, Z.mod_small by lia. apply IH.
Qed.

(** [x] fits an [n]-byte field, so encoding then decoding gives it back. *)
Lemma from_be_bytes_id n x : 0 <= x < 256 ^ Z.of_nat n -> from_be (be_bytes n x) = x.
Proof. intros. rewrite from_be_bytes. apply Z.mod_small. lia. Qed.

(** [b".."] *)
Definition ascii (s : string) : list byte := String.list_byte_of_string s.

#[global] Arguments be_bytes : simpl never.
#[global] Arguments from_be : simpl never.

(** *** Slices *)

(** [l[a..b]] where the source has checked the length. *)
Definition range (a b : Z) (l : list byte) : list byte := ztake (b - a) (zdrop a l).
(** [l[i]] as an integer, within the length. *)
Definition byte_at (l : list byte) (i : Z) : Z :=
  match zdrop i l with b :: _ => byte_val b | [] => 0 end.

Lemma range_skip l l' a b : zlen l <= a -> range a b (l ++ l') = range (a - zlen l) (b - zlen l) l'.
Proof.
  unfold range, zlen. intros Hle. replace (b - Z.of_nat (length l) - (a - Z.of_nat (length l))) with (b - a) by lia.
  f_equal. unfold zdrop. rewrite drop_app_ge by lia. f_equal. lia.
Qed.

Lemma range_here l l' b : zlen l = b -> range 0 b (l ++ l') = l.
Proof.
  intros <-. unfold range, ztake, zdrop, zlen. change (Z.to_nat 0) with 0%nat.
  rewrite drop_0, Z.sub_0_r, Nat2Z.id. by rewrite take_app_length.
Qed.

Lemma range_mid l l' l'' a b : zlen l = a -> zlen l' = b - a -> range a b (l ++ l' ++ l'') = l'.
Proof.
  intros <- Hl. rewrite range_skip, Z.sub_diag by lia. by apply range_here.
Qed.

Lemma range_tail l l' a b : zlen l = a -> zlen l' = b - a -> range a b (l ++ l') = l'.
Proof. intros Ha Hl. rewrite <- (app_nil_r l') at 1. by apply range_mid. Qed.

Lemma range_length a b l : 0 <= a <= b -> b <= zlen l -> zlen (range a b l) = b - a.
Proof. intros ? ?. unfold range. rewrite zlen_ztake, zlen_zdrop by lia. lia. Qed.

(** A prefix grows by the next range. *)
Lemma ztake_range a b l : 0 <= a <= b -> ztake b l = ztake a l ++ range a b l.
Proof.
  intros Hab. unfold range, ztake, zdrop. rewrite <- (take_drop (Z.to_nat a) l) at 1.
  rewrite take_app. f_equal; [by rewrite take_take, Nat.min_r by lia|].
  destruct (decide (Z.to_nat a <= length l)%nat).
  - rewrite length_take, Nat.min_l by lia. f_equal. lia.
  - rewrite (drop_ge l) by lia. by rewrite !take_nil.
Qed.

Lemma byte_at_range l i : 0 <= i < zlen l -> range i (i + 1) l = [byte_of (byte_at l i)].
Proof.
  intros Hi. unfold range, byte_at. replace (i + 1 - i) with 1 by lia.
  destruct (zdrop i l) as [|b t] eqn:E.
  - pose proof (zlen_zdrop i l ltac:(lia)) as Hl. rewrite E, zlen_nil in Hl. lia.
  - cbn. by rewrite byte_of_val.
Qed.

Lemma byte_at_skip l l' i : zlen l <= i -> byte_at (l ++ l') i = byte_at l' (i - zlen l).
Proof.
  intros Hi. unfold byte_at, zdrop, zlen in *. rewrite drop_app_ge by lia.
  by replace (Z.to_nat i - length l)%nat with (Z.to_nat (i - Z.of_nat (length l))) by lia.
Qed.

Lemma byte_at_bound l i : 0 <= byte_at l i < 256.
Proof. unfold byte_at. destruct (zdrop i l); [lia|]. apply byte_val_range. Qed.

Lemma range_be l a b : 0 <= a <= b -> b <= zlen l ->
  be_bytes (Z.to_nat (b - a)) (from_be (range a b l)) = range a b l.
Proof.
  intros Ha Hb. replace (Z.to_nat (b - a)) with (length (range a b l)); [apply be_bytes_from_be|].
  pose proof (range_length a b l Ha Hb) as Hl. unfold zlen in Hl. lia.
Qed.

(** *** Exclusive or *)

Definition xor_byte (a b : byte) : byte := byte_of (Z.lxor (byte_val a) (byte_val b)).

Lemma log2_byte x : 0 <= x < 256 -> 0 <= Z.log2 x < 8.
Proof.
  intros H. split; [apply Z.log2_nonneg|]. destruct (decide (x = 0)) as [->|]; [done|].
  apply Z.log2_lt_pow2; lia.
Qed.

Lemma xor_byte_val a b : byte_val (xor_byte a b) = Z.lxor (byte_val a) (byte_val b).
Proof.
  pose proof (byte_val_range a) as Ha. pose proof (byte_val_range b) as Hb.
  pose proof (log2_byte _ Ha). pose proof (log2_byte _ Hb).
  pose proof (Z.log2_lxor (byte_val a) (byte_val b) ltac:(lia) ltac:(lia)) as Hl.
  assert (0 <= Z.lxor (byte_val a) (byte_val b)) as Hn by (apply Z.lxor_nonneg; lia).
  assert (Z.lxor (byte_val a) (byte_val b) < 2 ^ 8) as Hr.
  { destruct (decide (Z.lxor (byte_val a) (byte_val b) = 0)) as [->|Hne]; [done|].
    apply Z.log2_lt_pow2; lia. }
  unfold xor_byte. rewrite byte_val_of. unfold wrap8. by rewrite Z.mod_small by lia.
Qed.

Lemma xor_byte_zero a b : byte_val (xor_byte a b) = 0 -> a = b.
Proof. rewrite xor_byte_val. intros E%Z.lxor_eq. by apply byte_val_inj. Qed.

Lemma xor_byte_cancel a k : xor_byte (xor_byte a k) k = a.
Proof.
  apply byte_val_inj. by rewrite !xor_byte_val, Z.lxor_assoc, Z.lxor_nilpotent, Z.lxor_0_r.
Qed.

Lemma xor_byte_swap a k k' : xor_byte (xor_byte a k) k' = xor_byte (xor_byte a k') k.
Proof. apply byte_val_inj. by rewrite !xor_byte_val, !Z.lxor_assoc, (Z.lxor_comm (byte_val k)). Qed.

(** ** Idioms of the standard library *)

(** [Option::is_some_and], [Option::is_none_or]. *)
Definition is_some_and {A} (o : option A) (p : A -> bool) : bool :=
  match o with Some x => p x | None => false end.
Definition is_none_or {A} (o : option A) (p : A -> bool) : bool :=
  match o with Some x => p x | None => true end.
Definition is_some {A} (o : option A) : bool := is_some_and o (fun _ => true).
Definition is_none {A} (o : option A) : bool := negb (is_some o).

(** [Some(o.map_or(x, |old| old.min(x)))] and its maximum twin. *)
Definition opt_min (o : option Z) (x : Z) : option Z :=
  Some (match o with Some old => Z.min old x | None => x end).
Definition opt_max (o : option Z) (x : Z) : option Z :=
  Some (match o with Some old => Z.max old x | None => x end).

Definition is_nil {A} (l : list A) : bool := match l with [] => true | _ => false end.

(** [iter().min()] and [iter().max()]. *)
Definition list_min (l : list Z) : option Z := fold_left opt_min l None.
Definition list_max (l : list Z) : option Z := fold_left opt_max l None.

(** [if let Some(x) = it.iter_mut().find(p) { f(x) }]: the first element that satisfies [p] is
    updated in place. *)
Fixpoint update_first {A} (p : A -> bool) (f : A -> A) (l : list A) : list A :=
  match l with
  | [] => []
  | x :: l => if p x then f x :: l else x :: update_first p f l
  end.

(** [while front satisfies p { pop_front }] *)
Fixpoint drop_front {A} (p : A -> bool) (l : list A) : list A :=
  match l with
  | x :: l' => if p x then drop_front p l' else l
  | [] => []
  end.

(** Replace the last element ([back_mut]). *)
Definition update_back {A} (f : A -> A) (l : list A) : list A :=
  match last l with Some x => removelast l ++ [f x] | None => l end.

(** ** Functional record update

    [r <| field := v |>] is the record [r] with one field replaced, the way the source assigns
    to a field of [self].  A record declares its eta expansion once; the setter of a field is
    found from it. *)

Class Settable (R : Type) := eta_expand : R -> R.

Class Setter {R T : Type} (proj : R -> T) := set_field : (T -> T) -> R -> R.

Ltac find_setter proj :=
  lazymatch type of proj with
  | ?R -> ?T =>
      let body := eval hnf in (eta_expand (R := R)) in
      let abs := eval pattern proj in body in
      lazymatch abs with
      | ?F _ =>
          let s := eval cbv beta in (fun (h : T -> T) (r : R) => F (fun r0 => h (proj r0)) r) in
          exact s
      end
  end.

#[export] Hint Extern 1 (@Setter _ _ ?proj) => find_setter proj : typeclass_instances.

#[warnings="-postfix-notation-not-level-1"]
Notation "r <| p := v |>" := (set_field (proj := p) (fun _ => v) r)
  (at level 12, left associativity, p at level 9, v at level 200,
   format "r  <| p  :=  v |>") : veil_scope.
#[warnings="-postfix-notation-not-level-1"]
Notation "r <| p ::= f |>" := (set_field (proj := p) f r)
  (at level 12, left associativity, p at level 9, f at level 200,
   format "r  <| p  ::=  f |>") : veil_scope.
#[global] Open Scope veil_scope.
