(* ===== verification/BTree.v ===== *)
(** * Ordered maps

    The standard library's [BTreeMap] with integer keys, as the sources use it: a list of
    key/value pairs in strictly increasing key order, with the lookups, updates and range
    iterators of the library, and the facts about cyclic searches ("first key from [x], else the
    first key of all") that the code performs on 32-bit sequence numbers. *)

From S2P Require Import Prelude.

Lemma StronglySorted_impl_elem {A} (R1 R2 : A -> A -> Prop) l :
  (forall x y, x ∈ l -> y ∈ l -> R1 x y -> R2 x y) -> StronglySorted R1 l -> StronglySorted R2 l.
Proof.
  induction l as [|a l IH]; intros H Hs; [constructor|].
  apply StronglySorted_inv in Hs as [Hs Hf]. constructor.
  - apply IH; [|done]. intros x y Hx Hy. apply H; by right.
  - rewrite Forall_forall in Hf |- *. intros x Hx. apply H; [left|by right|by apply Hf].
Qed.

Section btree.
Context {V : Type}.
Implicit Types (m : list (Z * V)) (k : Z) (v : V).

(** ** Operations *)

Fixpoint bt_insert k v m : list (Z * V) :=
  match m with
  | [] => [(k, v)]
  | (k', v') :: m' =>
      if k <? k' then (k, v) :: m
      else if k =? k' then (k, v) :: m'
      else (k', v') :: bt_insert k v m'
  end.

Fixpoint bt_get k m : option V :=
  match m with
  | [] => None
  | (k', v') :: m' => if k =? k' then Some v' else bt_get k m'
  end.

Fixpoint bt_remove k m : list (Z * V) :=
  match m with
  | [] => []
  | (k', v') :: m' => if k =? k' then m' else (k', v') :: bt_remove k m'
  end.

(** [range(lo..)], [range(..hi)] and [range(lo..hi)]. *)
Definition bt_from (lo : Z) m : list (Z * V) := List.filter (fun e => lo <=? e.1) m.
Definition bt_below (hi : Z) m : list (Z * V) := List.filter (fun e => e.1 <? hi) m.
Definition bt_range (lo hi : Z) m : list (Z * V) :=
  List.filter (fun e => (lo <=? e.1) && (e.1 <? hi)) m.

(** ** The order invariant *)

Definition bt_sorted m : Prop := StronglySorted (fun a b => a.1 < b.1) m.

Lemma elem_of_bfilter (f : Z * V -> bool) m e :
  e ∈ List.filter f m <-> e ∈ m /\ f e = true.
Proof. rewrite !list_elem_of_In. apply filter_In. Qed.

Lemma elem_of_bt_insert k v m k0 v0 :
  bt_sorted m -> (forall v', (k, v') ∉ m) ->
  (k0, v0) ∈ bt_insert k v m <-> (k0 = k /\ v0 = v) \/ (k0, v0) ∈ m.
Proof.
  induction m as [|[k' v'] m IH]; intros Hs Hn; simpl.
  - rewrite list_elem_of_singleton. split; [intros [= -> ->]; auto | intros [[-> ->]|H]; [done|]].
    by apply elem_of_nil in H.
  - apply StronglySorted_inv in Hs as [Hs _].
    destruct (k <? k') eqn:E1; [|destruct (k =? k') eqn:E2].
    + rewrite elem_of_cons. naive_solver.
    + apply Z.eqb_eq in E2 as ->. exfalso. apply (Hn v'). left.
    + rewrite !elem_of_cons, IH; [naive_solver|done|].
      intros w Hw. apply (Hn w). by right.
Qed.

Lemma bt_insert_perm k v m :
  (forall v', (k, v') ∉ m) -> bt_insert k v m ≡ₚ (k, v) :: m.
Proof.
  induction m as [|[k' v'] m IH]; intros Hn; simpl; [done|].
  destruct (k <? k') eqn:E1; [done|]. destruct (k =? k') eqn:E2.
  - apply Z.eqb_eq in E2 as ->. exfalso. apply (Hn v'). left.
  - rewrite IH by (intros w Hw; apply (Hn w); by right). constructor.
Qed.

Lemma bt_insert_sorted k v m : bt_sorted m -> bt_sorted (bt_insert k v m).
Proof.
  induction m as [|[k' v'] m IH]; intros Hs; simpl; [repeat constructor|].
  pose proof Hs as Hs0. apply StronglySorted_inv in Hs as [Hs Hf].
  destruct (k <? k') eqn:E1; [|destruct (k =? k') eqn:E2]; to_prop.
  - constructor; [done|]. constructor; [done|].
    eapply List.Forall_impl; [|exact Hf]. simpl. intros [] ?; simpl in *; lia.
  - subst. constructor; [done|]. done.
  - constructor; [by apply IH|]. rewrite List.Forall_forall in Hf |- *.
    intros [k0 v0] Hin. simpl.
    assert (k0 = k \/ In (k0, v0) m) as [->|Hin'].
    { clear - Hin. induction m as [|[a b] m IH]; simpl in *; [naive_solver|].
      destruct (k <? a); [simpl in Hin; naive_solver|].
      destruct (k =? a); simpl in Hin; naive_solver. }
    + lia.
    + by apply (Hf (k0, v0)).
Qed.

Lemma bt_sorted_functional m k v v' :
  bt_sorted m -> (k, v) ∈ m -> (k, v') ∈ m -> v = v'.
Proof.
  induction m as [|[a b] m IH]; intros Hs H1 H2; [by apply elem_of_nil in H1|].
  apply StronglySorted_inv in Hs as [Hs Hf]. rewrite List.Forall_forall in Hf.
  apply elem_of_cons in H1 as [E1|H1]; apply elem_of_cons in H2 as [E|H2].
  - congruence.
  - injection E1 as -> ->. apply list_elem_of_In in H2. apply Hf in H2. simpl in H2. lia.
  - injection E as -> ->. apply list_elem_of_In in H1. apply Hf in H1. simpl in H1. lia.
  - eauto.
Qed.

Lemma bt_get_Some k v m : bt_sorted m -> bt_get k m = Some v <-> (k, v) ∈ m.
Proof.
  intros Hs. split.
  - induction m as [|[a b] m IH]; simpl; [done|].
    apply StronglySorted_inv in Hs as [Hs _]. case_bool; to_prop.
    + intros [= ->]. subst. left.
    + right. auto.
  - induction m as [|[a b] m IH]; intros Hin; [by apply elem_of_nil in Hin|].
    pose proof Hs as Hs0. apply StronglySorted_inv in Hs as [Hs _]. simpl. case_bool; to_prop.
    + subst a. f_equal. eapply bt_sorted_functional; [exact Hs0|left|done].
    + apply elem_of_cons in Hin as [[= -> ->]|Hin]; [done|auto].
Qed.

Lemma bt_remove_perm k v m :
  bt_sorted m -> (k, v) ∈ m -> m ≡ₚ (k, v) :: bt_remove k m.
Proof.
  induction m as [|[a b] m IH]; intros Hs Hin; [by apply elem_of_nil in Hin|].
  pose proof Hs as Hs0. apply StronglySorted_inv in Hs as [Hs _]. simpl. case_bool; to_prop.
  - subst a. rewrite (bt_sorted_functional _ _ _ _ Hs0 Hin (list_elem_of_here _ _)). done.
  - apply elem_of_cons in Hin as [[= -> ->]|Hin]; [done|].
    rewrite (IH Hs Hin) at 1. constructor.
Qed.

Lemma bt_remove_sorted k m : bt_sorted m -> bt_sorted (bt_remove k m).
Proof.
  induction m as [|[a b] m IH]; intros Hs; [done|].
  apply StronglySorted_inv in Hs as [Hs Hf]. simpl. case_bool; [done|].
  constructor; [by apply IH|]. rewrite List.Forall_forall in Hf |- *. intros e Hin. apply Hf.
  clear - Hin. induction m as [|[c d] m IH]; simpl in *; [done|].
  destruct (k =? c); simpl in *; tauto.
Qed.

Lemma elem_of_bt_remove k m e : e ∈ bt_remove k m -> e ∈ m.
Proof.
  induction m as [|[c d] m IH]; simpl; [done|].
  destruct (k =? c); rewrite ?elem_of_cons; naive_solver.
Qed.

Lemma elem_of_bt_remove_iff k m k0 v0 :
  bt_sorted m -> (k0, v0) ∈ bt_remove k m <-> k0 <> k /\ (k0, v0) ∈ m.
Proof.
  induction m as [|[c d] m IH]; intros Hs; simpl; [by rewrite elem_of_nil; tauto|].
  apply StronglySorted_inv in Hs as [Hs Hf]. case_bool; to_prop.
  - subst c. rewrite elem_of_cons. split; [|naive_solver]. intros Hin. split; [|by right]. intros ->.
    rewrite List.Forall_forall in Hf. apply list_elem_of_In in Hin. apply Hf in Hin. simpl in Hin. lia.
  - rewrite !elem_of_cons, IH by done. naive_solver.
Qed.

Lemma length_bt_insert k v m : (length (bt_insert k v m) <= S (length m))%nat.
Proof.
  induction m as [|[c d] m IH]; simpl; [done|].
  destruct (k <? c); [simpl; lia|]. destruct (k =? c); simpl; lia.
Qed.

(** ** Iterators *)

Lemma bfilter_sorted (f : Z * V -> bool) m : bt_sorted m -> bt_sorted (List.filter f m).
Proof.
  induction m as [|a m IH]; intros Hs; [done|].
  apply StronglySorted_inv in Hs as [Hs Hf]. simpl. destruct (f a); [|by apply IH].
  constructor; [by apply IH|]. rewrite List.Forall_forall in Hf |- *.
  intros e He. apply Hf. apply filter_In in He. tauto.
Qed.

Lemma bt_sorted_head k v m k' v' :
  bt_sorted m -> head m = Some (k, v) -> (k', v') ∈ m -> k <= k'.
Proof.
  destruct m as [|[a b] m]; [done|]. intros Hs [= -> ->] Hin.
  apply StronglySorted_inv in Hs as [_ Hf]. rewrite List.Forall_forall in Hf.
  apply elem_of_cons in Hin as [[= -> ->]|Hin]; [lia|].
  apply list_elem_of_In in Hin. apply Hf in Hin. simpl in Hin. lia.
Qed.

Lemma head_elem_of {A} (l : list A) x : head l = Some x -> x ∈ l.
Proof. destruct l; [done|]. intros [= ->]. left. Qed.

Lemma last_elem_of {A} (l : list A) x : last l = Some x -> x ∈ l.
Proof. intros [l' ->]%last_Some. apply elem_of_app. right. left. Qed.

Lemma bt_sorted_last k v m k' v' :
  bt_sorted m -> last m = Some (k, v) -> (k', v') ∈ m -> k' <= k.
Proof.
  intros Hs [l ->]%last_Some Hin. apply elem_of_app in Hin as [Hin|[= -> ->]%list_elem_of_singleton].
  - clear -Hs Hin. induction l as [|[a b] l IH]; [by apply elem_of_nil in Hin|].
    simpl in Hs. apply StronglySorted_inv in Hs as [Hs Hf].
    apply elem_of_cons in Hin as [[= -> ->]|Hin]; [|auto].
    rewrite List.Forall_forall in Hf. specialize (Hf (k, v)). simpl in Hf.
    assert (In (k, v) (l ++ [(k, v)])) as H by (apply in_or_app; right; by left).
    apply Hf in H. lia.
  - lia.
Qed.

(** ** Cyclic searches

    [dist x k] is how far the 32-bit number [k] lies ahead of [x] on the circle. *)

Definition dist (x k : Z) : Z := sub32 k x.

(** [range(x..).next().or_else(|| first_key_value())] *)
Definition cyc_first (x : Z) m : option (Z * V) :=
  match head (bt_from x m) with Some e => Some e | None => head m end.

(** [range(..x).next_back().or_else(|| last_key_value())] *)
Definition cyc_last (x : Z) m : option (Z * V) :=
  match last (bt_below x m) with Some e => Some e | None => last m end.

(** [range(x..).chain(range(..x))] *)
Definition cyc_iter (x : Z) m : list (Z * V) := bt_from x m ++ bt_below x m.

Definition keys_u32 m : Prop := forall k v, (k, v) ∈ m -> is_u32 k.

Lemma head_filter_none (f : Z * V -> bool) m e :
  head (List.filter f m) = None -> e ∈ m -> f e = false.
Proof.
  intros H Hin. destruct (f e) eqn:E; [|done].
  assert (e ∈ List.filter f m) as He by (apply elem_of_bfilter; auto).
  destruct (List.filter f m); [by apply elem_of_nil in He|done].
Qed.

Lemma last_filter_none (f : Z * V -> bool) m e :
  last (List.filter f m) = None -> e ∈ m -> f e = false.
Proof.
  intros H%last_None Hin. destruct (f e) eqn:E; [|done].
  assert (e ∈ List.filter f m) as He by (apply elem_of_bfilter; auto).
  rewrite H in He. by apply elem_of_nil in He.
Qed.

(** The cyclic search from [x] finds the entry least far ahead of [x]. *)
Lemma cyc_first_spec x m k v :
  bt_sorted m -> keys_u32 m -> is_u32 x -> cyc_first x m = Some (k, v) ->
  (k, v) ∈ m /\ forall k' v', (k', v') ∈ m -> dist x k <= dist x k'.
Proof.
  unfold cyc_first, dist, sub32, wrap32, is_u32. intros Hs Hu Hx.
  destruct (head (bt_from x m)) as [e|] eqn:E.
  - intros [= ->]. pose proof (head_elem_of _ _ E) as [Hin Hk]%elem_of_bfilter.
    simpl in Hk. apply Z.leb_le in Hk. split; [done|]. intros k' v' Hin'.
    pose proof (Hu _ _ Hin). pose proof (Hu _ _ Hin'). unfold is_u32 in *.
    destruct (decide (x <= k')).
    + assert (k <= k').
      { eapply bt_sorted_head; [apply bfilter_sorted, Hs|exact E|].
        apply elem_of_bfilter. split; [done|]. simpl. apply Z.leb_le. lia. }
      mlia.
    + mlia.
  - intros E'. pose proof (head_elem_of _ _ E') as Hin. split; [done|]. intros k' v' Hin'.
    pose proof (bt_sorted_head _ _ _ _ _ Hs E' Hin').
    pose proof (head_filter_none _ _ _ E Hin). pose proof (head_filter_none _ _ _ E Hin').
    simpl in *. to_prop. pose proof (Hu _ _ Hin). pose proof (Hu _ _ Hin').
    unfold is_u32 in *. mlia.
Qed.

Lemma cyc_first_None x m : cyc_first x m = None <-> m = [].
Proof.
  unfold cyc_first. split; [|by intros ->].
  destruct (head (bt_from x m)) eqn:E; [done|]. destruct m; [done|by intros].
Qed.

(** The backward cyclic search from [x] finds the entry least far behind [x] (a full turn
    behind, for [x] itself). *)
Lemma cyc_last_spec x m k v :
  bt_sorted m -> keys_u32 m -> is_u32 x -> cyc_last x m = Some (k, v) ->
  (k, v) ∈ m /\ forall k' v', (k', v') ∈ m -> (x - k - 1) mod M32 <= (x - k' - 1) mod M32.
Proof.
  unfold cyc_last, is_u32. intros Hs Hu Hx.
  destruct (last (bt_below x m)) as [e|] eqn:E.
  - intros [= ->]. pose proof (last_elem_of _ _ E) as [Hin Hk]%elem_of_bfilter.
    simpl in Hk. apply Z.ltb_lt in Hk. split; [done|]. intros k' v' Hin'.
    pose proof (Hu _ _ Hin). pose proof (Hu _ _ Hin'). unfold is_u32 in *.
    destruct (decide (k' < x)).
    + assert (k' <= k).
      { eapply bt_sorted_last; [apply bfilter_sorted, Hs|exact E|].
        apply elem_of_bfilter. split; [done|]. simpl. apply Z.ltb_lt. lia. }
      mlia.
    + mlia.
  - intros E'. pose proof (last_elem_of _ _ E') as Hin. split; [done|]. intros k' v' Hin'.
    pose proof (bt_sorted_last _ _ _ _ _ Hs E' Hin').
    pose proof (last_filter_none _ _ _ E Hin). pose proof (last_filter_none _ _ _ E Hin').
    simpl in *. to_prop. pose proof (Hu _ _ Hin). pose proof (Hu _ _ Hin').
    unfold is_u32 in *. mlia.
Qed.

Lemma cyc_last_None x m : cyc_last x m = None <-> m = [].
Proof.
  unfold cyc_last. split; [|by intros ->].
  destruct (last (bt_below x m)) eqn:E; [done|]. intros ->%last_None. done.
Qed.

(** The cyclic iterator visits every entry once, in order of distance ahead of [x]. *)
Lemma elem_of_cyc_iter x m e : e ∈ cyc_iter x m <-> e ∈ m.
Proof.
  unfold cyc_iter, bt_from, bt_below. rewrite elem_of_app, !elem_of_bfilter.
  split; [tauto|]. intros H. destruct (x <=? e.1) eqn:E; [tauto|]. right. split; [done|].
  to_prop. apply Z.ltb_lt. lia.
Qed.

Lemma cyc_iter_sorted x m :
  bt_sorted m -> keys_u32 m -> is_u32 x ->
  StronglySorted (fun a b => dist x a.1 < dist x b.1) (cyc_iter x m).
Proof.
  intros Hs Hu Hx. unfold cyc_iter.
  assert (Hpart : forall f, (forall a b, (f a = true /\ f b = true) -> is_u32 a.1 -> is_u32 b.1 ->
      a.1 < b.1 -> dist x a.1 < dist x b.1) ->
      StronglySorted (fun a b => dist x a.1 < dist x b.1) (List.filter f m)).
  { intros f Hf. clear Hx. induction m as [|a m IH]; [constructor|].
    apply StronglySorted_inv in Hs as [Hs Ha]. simpl.
    assert (keys_u32 m) by (intros k v ?; apply (Hu k v); by right).
    destruct (f a) eqn:E; [|auto]. constructor; [auto|].
    rewrite List.Forall_forall in Ha |- *. intros b Hb. apply filter_In in Hb as [Hb Hfb].
    apply Hf; [auto| | |auto].
    - destruct a as [k v]. apply (Hu k v). left.
    - destruct b as [k v]. apply (Hu k v). right. by apply list_elem_of_In. }
  unfold dist, sub32, wrap32, is_u32 in *.
  apply StronglySorted_app_2; [|apply Hpart|apply Hpart].
  - intros [k v] [k' v'] [H1 E1]%elem_of_bfilter [H2 E2]%elem_of_bfilter.
    simpl in *. to_prop. pose proof (Hu _ _ H1). pose proof (Hu _ _ H2). unfold is_u32 in *. mlia.
  - intros a b [Ea Eb] ? ? ?. to_prop. mlia.
  - intros a b [Ea Eb] ? ? ?. to_prop. mlia.
Qed.

End btree.

(** Sum of the lengths of the stored values. *)
Definition bt_bytes {A} (m : list (Z * list A)) : Z := foldr (fun e s => zlen e.2 + s) 0 m.

Lemma bt_bytes_cons {A} k (v : list A) m : bt_bytes ((k, v) :: m) = zlen v + bt_bytes m.
Proof. done. Qed.

Lemma bt_bytes_perm {A} (m m' : list (Z * list A)) : m ≡ₚ m' -> bt_bytes m = bt_bytes m'.
Proof. induction 1; simpl; lia. Qed.

Lemma bt_bytes_nonneg {A} (m : list (Z * list A)) : 0 <= bt_bytes m.
Proof. induction m as [|[k v] m IH]; simpl; [lia|]. pose proof (zlen_nonneg v). lia. Qed.

#[global] Arguments bt_bytes : simpl never.
