(* ===== verification/Seq.v ===== *)
(** * Sequence numbers

    Modular [u32] sequence arithmetic of the onion stream protocol
    (crates/veil-onion-stream/src/seq.rs), and its meaning on absolute stream positions:
    the comparisons decide the order of any two positions less than 2^31 apart. *)

From S2P Require Import Prelude.

Module seq.

Definition lt (a b : Z) : bool := as_i32 (sub32 a b) <? 0.
Definition leq (a b : Z) : bool := as_i32 (sub32 a b) <=? 0.
Definition gt (a b : Z) : bool := lt b a.
Definition geq (a b : Z) : bool := leq b a.
Definition min (a b : Z) : Z := if lt a b then a else b.
Definition max (a b : Z) : Z := if lt a b then b else a.

End seq.

(** ** Order of absolute positions *)

Section absolute.
Implicit Types A B : Z.

Lemma seq_lt_abs A B : - M31 <= A - B < M31 -> seq.lt (wrap32 A) (wrap32 B) = (A <? B).
Proof.
  intros H. unfold seq.lt, as_i32. rewrite sub32_wrap. unfold wrap32.
  apply Bool.eq_iff_eq_true. rewrite !Z.ltb_lt.
  destruct (_ <? M31) eqn:E; to_prop; mlia.
Qed.

Lemma seq_leq_abs A B : - M31 <= A - B < M31 -> seq.leq (wrap32 A) (wrap32 B) = (A <=? B).
Proof.
  intros H. unfold seq.leq, as_i32. rewrite sub32_wrap. unfold wrap32.
  apply Bool.eq_iff_eq_true. rewrite !Z.leb_le.
  destruct (_ <? M31) eqn:E; to_prop; mlia.
Qed.

Lemma seq_gt_abs A B : Z.abs (A - B) < M31 -> seq.gt (wrap32 A) (wrap32 B) = (B <? A).
Proof. intros. unfold seq.gt. apply seq_lt_abs. lia. Qed.

Lemma seq_geq_abs A B : Z.abs (A - B) < M31 -> seq.geq (wrap32 A) (wrap32 B) = (B <=? A).
Proof. intros. unfold seq.geq. apply seq_leq_abs. lia. Qed.

Lemma seq_min_abs A B :
  Z.abs (A - B) < M31 -> seq.min (wrap32 A) (wrap32 B) = wrap32 (Z.min A B).
Proof.
  intros. unfold seq.min. rewrite seq_lt_abs by lia.
  destruct (A <? B) eqn:E; to_prop; f_equal; lia.
Qed.

Lemma seq_max_abs A B :
  Z.abs (A - B) < M31 -> seq.max (wrap32 A) (wrap32 B) = wrap32 (Z.max A B).
Proof.
  intros. unfold seq.max. rewrite seq_lt_abs by lia.
  destruct (A <? B) eqn:E; to_prop; f_equal; lia.
Qed.

Lemma wrap32_eqb_abs A B : Z.abs (A - B) < M32 -> (wrap32 A =? wrap32 B) = (A =? B).
Proof.
  intros. apply Bool.eq_iff_eq_true. rewrite !Z.eqb_eq. unfold wrap32. mlia.
Qed.

Lemma wrap32_inj_abs A B : Z.abs (A - B) < M32 -> wrap32 A = wrap32 B -> A = B.
Proof. unfold wrap32. intros. mlia. Qed.

End absolute.

(** Serial-number comparison is faithful: for any two stream positions less than 2^31 apart
    (however many times the 32-bit counter has wrapped), [lt], [leq], [gt] and [geq] on their
    wire representations decide the true order, and [min] and [max] pick the true minimum and
    maximum. *)
Theorem seq_order_embedding (A B : Z) (H : Z.abs (A - B) < 2147483648) :
  let a := wrap32 A in let b := wrap32 B in
  (seq.lt a b = true <-> A < B) /\ (seq.leq a b = true <-> A <= B) /\
  (seq.gt a b = true <-> A > B) /\ (seq.geq a b = true <-> A >= B) /\
  seq.min a b = wrap32 (Z.min A B) /\ seq.max a b = wrap32 (Z.max A B).
Proof.
  cbv zeta. rewrite seq_lt_abs, seq_leq_abs, seq_gt_abs, seq_geq_abs by lia.
  rewrite seq_min_abs, seq_max_abs by done.
  rewrite !Z.ltb_lt, !Z.leb_le. intuition lia.
Qed.

Lemma seq_order_embedding_witness :
  seq.lt (wrap32 4294967290) (wrap32 4294967300) = true /\ wrap32 4294967300 = 4.
Proof.
  split; [|reflexivity].
  apply (seq_order_embedding 4294967290 4294967300); lia.
Defined.
