(* ===== verification/StreamWire.v ===== *)
(** * Stream frames

    The cell format of the onion stream protocol
    (crates/veil-onion-stream/src/wire.rs): the six frame types, their encoder and decoder, and
    the cursor the decoder reads with. *)

From S2P Require Import Prelude Seq.

(** ** Data *)

Definition PROTO_VER : Z := 1.
Definition MAX_CELL : Z := 16382.
Definition DATA_OVERHEAD : Z := 16.
Definition MSS : Z := MAX_CELL - DATA_OVERHEAD.
Definition MAX_SACKS : Z := 8.

Module ty.
Definition SYN : Z := 1.
Definition SYN_ACK : Z := 2.
Definition DATA : Z := 3.
Definition ACK : Z := 4.
Definition FIN : Z := 5.
Definition RST : Z := 6.
End ty.

Module reset_reason.
Definition APP : Z := 0.
Definition TIMED_OUT : Z := 1.
Definition REFUSED : Z := 2.
Definition PROTOCOL : Z := 3.
End reset_reason.

Record SackRange := mkSackRange { sr_start : Z; sr_end : Z }.

#[global] Instance SackRange_eq_dec : EqDecision SackRange.
Proof. solve_decision. Defined.

(** A [SackVec] is the slice of ranges it holds ([as_slice]); its spare array slots are never
    read. *)
Definition SackVec : Type := list SackRange.

Definition sack_push (v : SackVec) (r : SackRange) : SackVec * bool :=
  if MAX_SACKS <=? zlen v then (v, false) else (v ++ [r], true).

Inductive Frame :=
| Syn (stream_id isn win : Z)
| SynAck (stream_id isn win ack : Z)
| Data (stream_id sq win : Z) (payload : list byte)
| Ack (stream_id ack win : Z) (sacks : SackVec)
| Fin (stream_id sq : Z)
| Rst (stream_id reason : Z).

#[global] Instance Frame_eq_dec : EqDecision Frame.
Proof. solve_decision. Defined.

Definition frame_stream_id (f : Frame) : Z :=
  match f with
  | Syn s _ _ | SynAck s _ _ _ | Data s _ _ _ | Ack s _ _ _ | Fin s _ | Rst s _ => s
  end.

(** ** Encoder *)

Definition put_u16 (out : list byte) (v : Z) : list byte := out ++ be_bytes 2 v.
Definition put_u32 (out : list byte) (v : Z) : list byte := out ++ be_bytes 4 v.
Definition put_u8 (out : list byte) (v : Z) : list byte := out ++ [byte_of v].

Definition encode_sacks (out : list byte) (l : list SackRange) : list byte :=
  fold_left (fun out r => put_u32 (put_u32 out (sr_start r)) (sr_end r)) l out.

Definition encode (f : Frame) : list byte :=
  let out := put_u8 [] PROTO_VER in
  match f with
  | Syn stream_id isn win =>
      let out := put_u8 out ty.SYN in
      put_u32 (put_u32 (put_u32 out stream_id) isn) win
  | SynAck stream_id isn win ack =>
      let out := put_u8 out ty.SYN_ACK in
      put_u32 (put_u32 (put_u32 (put_u32 out stream_id) isn) win) ack
  | Data stream_id sq win payload =>
      let out := put_u8 out ty.DATA in
      let out := put_u32 (put_u32 (put_u32 out stream_id) sq) win in
      put_u16 out (zlen payload) ++ payload
  | Ack stream_id ack win sacks =>
      let out := put_u8 out ty.ACK in
      let out := put_u32 (put_u32 (put_u32 out stream_id) ack) win in
      encode_sacks (put_u8 out (zlen sacks)) sacks
  | Fin stream_id sq =>
      let out := put_u8 out ty.FIN in
      put_u32 (put_u32 out stream_id) sq
  | Rst stream_id reason =>
      let out := put_u8 out ty.RST in
      put_u8 (put_u32 out stream_id) reason
  end.

(** ** Decoder *)

Record Reader := mkReader { rd_b : list byte; rd_i : Z }.

Definition reader_new (b : list byte) : Reader := mkReader b 0.

Definition reader_take (r : Reader) (n : Z) : option (list byte * Reader) :=
  s ← slice (rd_b r) (rd_i r) (rd_i r + n);
  Some (s, mkReader (rd_b r) (rd_i r + n)).

Definition reader_u8 (r : Reader) : option (Z * Reader) :=
  v ← rd_b r !! Z.to_nat (rd_i r);
  Some (byte_val v, mkReader (rd_b r) (rd_i r + 1)).

Definition reader_u16 (r : Reader) : option (Z * Reader) :=
  s ← slice (rd_b r) (rd_i r) (rd_i r + 2);
  Some (from_be s, mkReader (rd_b r) (rd_i r + 2)).

Definition reader_u32 (r : Reader) : option (Z * Reader) :=
  s ← slice (rd_b r) (rd_i r) (rd_i r + 4);
  Some (from_be s, mkReader (rd_b r) (rd_i r + 4)).

Fixpoint decode_sacks (n : nat) (r : Reader) (sacks : SackVec) : option (SackVec * Reader) :=
  match n with
  | O => Some (sacks, r)
  | S n' =>
      '(s, r) ← reader_u32 r;
      '(e, r) ← reader_u32 r;
      decode_sacks n' r (sack_push sacks (mkSackRange s e)).1
  end.

Definition decode (buf : list byte) : option Frame :=
  let r := reader_new buf in
  '(ver, r) ← reader_u8 r;
  if negb (ver =? PROTO_VER) then None else
  '(t, r) ← reader_u8 r;
  '(stream_id, r) ← reader_u32 r;
  if t =? ty.SYN then
    '(isn, r) ← reader_u32 r;
    '(win, r) ← reader_u32 r;
    Some (Syn stream_id isn win)
  else if t =? ty.SYN_ACK then
    '(isn, r) ← reader_u32 r;
    '(win, r) ← reader_u32 r;
    '(ack, r) ← reader_u32 r;
    Some (SynAck stream_id isn win ack)
  else if t =? ty.DATA then
    '(s, r) ← reader_u32 r;
    '(win, r) ← reader_u32 r;
    '(len, r) ← reader_u16 r;
    if MSS <? len then None else
    '(payload, r) ← reader_take r len;
    Some (Data stream_id s win payload)
  else if t =? ty.ACK then
    '(ack, r) ← reader_u32 r;
    '(win, r) ← reader_u32 r;
    '(n, r) ← reader_u8 r;
    if MAX_SACKS <? n then None else
    '(sacks, r) ← decode_sacks (Z.to_nat n) r [];
    Some (Ack stream_id ack win sacks)
  else if t =? ty.FIN then
    '(s, r) ← reader_u32 r;
    Some (Fin stream_id s)
  else if t =? ty.RST then
    '(reason, r) ← reader_u8 r;
    Some (Rst stream_id reason)
  else None.

(** Whether a SACK range is non-empty and lies at or above the cumulative ack. *)
Definition sack_above (ack : Z) (r : SackRange) : bool :=
  seq.lt (sr_start r) (sr_end r) && seq.geq (sr_start r) ack.

(** ** Well-formed frames *)

Definition wf_sack (r : SackRange) : Prop := is_u32 (sr_start r) /\ is_u32 (sr_end r).

Definition wf_frame (f : Frame) : Prop :=
  match f with
  | Syn s i w => is_u32 s /\ is_u32 i /\ is_u32 w
  | SynAck s i w a => is_u32 s /\ is_u32 i /\ is_u32 w /\ is_u32 a
  | Data s q w p => is_u32 s /\ is_u32 q /\ is_u32 w /\ zlen p <= MSS
  | Ack s a w k => is_u32 s /\ is_u32 a /\ is_u32 w /\ zlen k <= MAX_SACKS /\ Forall wf_sack k
  | Fin s q => is_u32 s /\ is_u32 q
  | Rst s r => is_u32 s /\ is_u8 r
  end.

(** ** The cursor *)

(** [r] stands before the suffix [t] of its buffer. *)
Definition before (r : Reader) (t : list byte) : Prop :=
  0 <= rd_i r <= zlen (rd_b r) /\ zdrop (rd_i r) (rd_b r) = t.

Lemma before_advance r s t :
  before r (s ++ t) -> before (mkReader (rd_b r) (rd_i r + zlen s)) t.
Proof.
  intros [Hi Hd]. unfold before; simpl.
  assert (zlen (rd_b r) - rd_i r = zlen s + zlen t) as Hl.
  { rewrite <- zlen_app, <- Hd, zlen_zdrop by lia. lia. }
  pose proof (zlen_nonneg s). pose proof (zlen_nonneg t). split; [lia|].
  unfold zdrop in *. rewrite Z2Nat.inj_add, <- drop_drop, Hd by lia.
  unfold zlen. rewrite Nat2Z.id. apply drop_app_length.
Qed.

Lemma slice_before r s t n :
  before r (s ++ t) -> zlen s = n -> slice (rd_b r) (rd_i r) (rd_i r + n) = Some s.
Proof.
  intros [Hi Hd] <-.
  assert (zlen (rd_b r) - rd_i r = zlen s + zlen t) as Hl.
  { rewrite <- zlen_app, <- Hd, zlen_zdrop by lia. lia. }
  pose proof (zlen_nonneg s). pose proof (zlen_nonneg t).
  rewrite slice_Some by lia. rewrite Hd. f_equal.
  replace (rd_i r + zlen s - rd_i r) with (zlen s) by lia.
  unfold ztake, zlen. rewrite Nat2Z.id. apply take_app_length.
Qed.

Lemma slice_before_inv r n s :
  0 <= n -> slice (rd_b r) (rd_i r) (rd_i r + n) = Some s ->
  before r (s ++ zdrop (rd_i r + n) (rd_b r)) /\ zlen s = n.
Proof.
  intros Hn Hs. pose proof (slice_length _ _ _ _ Hs). split; [|lia].
  unfold slice in Hs. case_bool; [|done]. to_prop. injection Hs as <-. split; [lia|].
  unfold ztake, zdrop. rewrite Z2Nat.inj_add, <- drop_drop by lia.
  replace (rd_i r + n - rd_i r) with n by lia. by rewrite take_drop.
Qed.

Lemma reader_take_before r s t n :
  before r (s ++ t) -> zlen s = n -> exists r', reader_take r n = Some (s, r') /\ before r' t.
Proof.
  intros H <-. unfold reader_take. rewrite (slice_before _ _ _ _ H eq_refl). simpl.
  eauto using before_advance.
Qed.

Lemma reader_u32_before r x t :
  is_u32 x -> before r (be_bytes 4 x ++ t) ->
  exists r', reader_u32 r = Some (x, r') /\ before r' t.
Proof.
  intros Hx H. unfold reader_u32. rewrite (slice_before _ _ _ 4 H) by done. simpl.
  rewrite from_be_bytes_id by (unfold is_u32 in Hx; simpl; lia).
  eexists. split; [done|]. exact (before_advance _ _ _ H).
Qed.

Lemma reader_u16_before r x t :
  is_u16 x -> before r (be_bytes 2 x ++ t) ->
  exists r', reader_u16 r = Some (x, r') /\ before r' t.
Proof.
  intros Hx H. unfold reader_u16. rewrite (slice_before _ _ _ 2 H) by done. simpl.
  rewrite from_be_bytes_id by (unfold is_u16 in Hx; simpl; lia).
  eexists. split; [done|]. exact (before_advance _ _ _ H).
Qed.

Lemma reader_u8_before r x t :
  is_u8 x -> before r (byte_of x :: t) -> exists r', reader_u8 r = Some (x, r') /\ before r' t.
Proof.
  intros Hx H. pose proof (before_advance r [byte_of x] t H) as H'.
  destruct H as [Hi Hd]. unfold reader_u8.
  assert (rd_b r !! Z.to_nat (rd_i r) = Some (byte_of x)) as ->.
  { unfold zdrop in Hd. rewrite <- (Nat.add_0_r (Z.to_nat _)), <- lookup_drop, Hd. done. }
  simpl. rewrite byte_val_of. unfold wrap8, is_u8 in *. rewrite Z.mod_small by lia. eauto.
Qed.

Lemma reader_u32_inv r x r' t :
  before r t -> reader_u32 r = Some (x, r') ->
  is_u32 x /\ exists t', t = be_bytes 4 x ++ t' /\ before r' t'.
Proof.
  unfold reader_u32. intros Ht. destruct (slice _ _ _) as [s|] eqn:E; [|done].
  intros [= <- <-]. apply slice_before_inv in E as [E Hl]; [|lia].
  pose proof (from_be_range s) as Hr. rewrite Hl in Hr. change (256 ^ 4) with M32 in Hr.
  split; [done|]. eexists. pose proof (before_advance _ _ _ E) as E'. rewrite Hl in E'.
  split; [|exact E']. rewrite (proj2 Ht) in E || destruct Ht as [_ <-]; destruct E as [_ ->].
  f_equal. change 4%nat with (Z.to_nat 4). rewrite <- Hl. unfold zlen. rewrite Nat2Z.id.
  symmetry. apply be_bytes_from_be.
Qed.

Lemma reader_u16_inv r x r' t :
  before r t -> reader_u16 r = Some (x, r') ->
  is_u16 x /\ exists t', t = be_bytes 2 x ++ t' /\ before r' t'.
Proof.
  unfold reader_u16. intros Ht. destruct (slice _ _ _) as [s|] eqn:E; [|done].
  intros [= <- <-]. apply slice_before_inv in E as [E Hl]; [|lia].
  pose proof (from_be_range s) as Hr. rewrite Hl in Hr. change (256 ^ 2) with M16 in Hr.
  split; [done|]. eexists. pose proof (before_advance _ _ _ E) as E'. rewrite Hl in E'.
  split; [|exact E']. destruct Ht as [_ <-]; destruct E as [_ ->].
  f_equal. change 2%nat with (Z.to_nat 2). rewrite <- Hl. unfold zlen. rewrite Nat2Z.id.
  symmetry. apply be_bytes_from_be.
Qed.

Lemma reader_u8_inv r x r' t :
  before r t -> reader_u8 r = Some (x, r') ->
  is_u8 x /\ exists t', t = byte_of x :: t' /\ before r' t'.
Proof.
  unfold reader_u8. intros [Hi Hd]. destruct (_ !! _) as [b|] eqn:E; [|done].
  intros [= <- <-]. pose proof (byte_val_range b). split; [done|].
  unfold zdrop in Hd.
  assert (t !! 0%nat = Some b) as Hb by (rewrite <- Hd, lookup_drop, Nat.add_0_r; done).
  destruct t as [|b' t]; [done|]. injection Hb as ->.
  exists t. rewrite byte_of_val. split; [done|].
  apply (before_advance r [b] t). split; [done|exact Hd].
Qed.

Lemma reader_take_inv r n s r' t :
  0 <= n -> before r t -> reader_take r n = Some (s, r') ->
  zlen s = n /\ exists t', t = s ++ t' /\ before r' t'.
Proof.
  unfold reader_take. intros Hn Ht. destruct (slice _ _ _) as [s'|] eqn:E; [|done].
  intros [= -> <-]. apply slice_before_inv in E as [E Hl]; [|lia].
  split; [done|]. eexists. pose proof (before_advance _ _ _ E) as E'. rewrite Hl in E'.
  split; [|exact E']. destruct Ht as [_ <-]; destruct E as [_ ->]. done.
Qed.

(** ** Encoder equations *)

Definition sack_bytes (l : list SackRange) : list byte :=
  flat_map (fun r => be_bytes 4 (sr_start r) ++ be_bytes 4 (sr_end r)) l.

Lemma encode_sacks_app out l : encode_sacks out l = out ++ sack_bytes l.
Proof.
  revert out. induction l as [|r l IH]; intros out; simpl; [by rewrite app_nil_r|].
  rewrite IH. unfold put_u32. by rewrite <- !(assoc_L (++)).
Qed.

Lemma zlen_sack_bytes l : zlen (sack_bytes l) = 8 * zlen l.
Proof.
  induction l as [|r l IH]; [done|]. unfold sack_bytes. cbn [flat_map]. fold (sack_bytes l).
  rewrite !zlen_app, !zlen_be_bytes, zlen_cons. lia.
Qed.

(** The wire image of a frame after its version byte. *)
Lemma encode_shape f :
  encode f = byte_of PROTO_VER ::
  match f with
  | Syn s i w => byte_of ty.SYN :: be_bytes 4 s ++ be_bytes 4 i ++ be_bytes 4 w
  | SynAck s i w a =>
      byte_of ty.SYN_ACK :: be_bytes 4 s ++ be_bytes 4 i ++ be_bytes 4 w ++ be_bytes 4 a
  | Data s q w p =>
      byte_of ty.DATA :: be_bytes 4 s ++ be_bytes 4 q ++ be_bytes 4 w ++ be_bytes 2 (zlen p) ++ p
  | Ack s a w k =>
      byte_of ty.ACK :: be_bytes 4 s ++ be_bytes 4 a ++ be_bytes 4 w ++
        byte_of (zlen k) :: sack_bytes k
  | Fin s q => byte_of ty.FIN :: be_bytes 4 s ++ be_bytes 4 q
  | Rst s r => byte_of ty.RST :: be_bytes 4 s ++ [byte_of r]
  end.
Proof.
  destruct f; unfold encode; rewrite ?encode_sacks_app; unfold put_u8, put_u16, put_u32;
    rewrite <- ?(assoc_L (++)); done.
Qed.

(** Every well-formed frame fits one onion cell. *)
Lemma encode_fits_cell (f : Frame) (H : wf_frame f) : zlen (encode f) <= MAX_CELL.
Proof.
  rewrite encode_shape.
  destruct f; unfold wf_frame in H; destruct_and?;
    repeat rewrite ?zlen_cons, ?zlen_app, ?zlen_be_bytes, ?zlen_sack_bytes, ?zlen_nil;
    unfold MSS, MAX_CELL, MAX_SACKS, DATA_OVERHEAD in *; lia.
Qed.

(** ** Round trips *)

(** Reads one field in a decoding goal whose cursor stands before the encoded field. *)
Ltac read_field :=
  match goal with
  | Hb : before ?r (byte_of ?x :: _) |- context [reader_u8 ?r] =>
      let r' := fresh "r" in let E := fresh "E" in let Hb' := fresh "Hb" in
      destruct (reader_u8_before r x _ ltac:(done) Hb) as (r' & E & Hb');
      rewrite E; clear E Hb; cbn [mbind option_bind]
  | Hb : before ?r (be_bytes 4 ?x ++ _) |- context [reader_u32 ?r] =>
      let r' := fresh "r" in let E := fresh "E" in let Hb' := fresh "Hb" in
      destruct (reader_u32_before r x _ ltac:(done) Hb) as (r' & E & Hb');
      rewrite E; clear E Hb; cbn [mbind option_bind]
  end.

Lemma decode_sacks_before k : forall r acc t,
  Forall wf_sack k -> zlen acc + zlen k <= MAX_SACKS -> before r (sack_bytes k ++ t) ->
  exists r', decode_sacks (length k) r acc = Some (acc ++ k, r') /\ before r' t.
Proof.
  induction k as [|[a b] k IH]; intros r acc t Hw Hl Hb.
  - exists r. simpl. rewrite app_nil_r. auto.
  - apply Forall_cons in Hw as [[Ha Hb'] Hw]. simpl in Ha, Hb'.
    unfold sack_bytes in Hb. cbn [flat_map sr_start sr_end] in Hb. fold (sack_bytes k) in Hb.
    rewrite <- !(assoc_L (++)) in Hb. cbn [decode_sacks length].
    do 2 read_field. rewrite zlen_cons in Hl. pose proof (zlen_nonneg k).
    unfold sack_push. replace (MAX_SACKS <=? zlen acc) with false
      by (symmetry; apply Z.leb_gt; lia).
    cbn [fst]. edestruct IH as (r' & -> & Ht); [done| |done|].
    + rewrite zlen_app, zlen_cons, zlen_nil. lia.
    + exists r'. by rewrite <- (assoc_L (++)).
Qed.

Lemma decode_encode_frame (f : Frame) (rest : list byte) (H : wf_frame f) :
  decode (encode f ++ rest) = Some f.
Proof.
  assert (before (reader_new (encode f ++ rest)) (encode f ++ rest)) as Hb.
  { split; [|done]. simpl. pose proof (zlen_nonneg (encode f ++ rest)). lia. }
  unfold decode. cbv zeta. generalize dependent (reader_new (encode f ++ rest)). intros r Hb.
  rewrite encode_shape in Hb.
  destruct f; unfold wf_frame in H; destruct_and?; cbn [app] in Hb; rewrite <- ?(assoc_L (++)) in Hb;
    do 3 (read_field; cbn [negb PROTO_VER ty.SYN ty.SYN_ACK ty.DATA ty.ACK ty.FIN ty.RST
      Z.eqb Pos.eqb]); repeat read_field; try done; cbn [app] in *.
  - pose proof (zlen_nonneg payload) as Hl0. unfold MSS, MAX_CELL, DATA_OVERHEAD in *.
    match goal with Hb : before ?r _ |- context [reader_u16 ?r] =>
      destruct (reader_u16_before r (zlen payload) _ ltac:(unfold is_u16; lia) Hb)
        as (r' & -> & Hb') end.
    cbn [mbind option_bind]. rewrite (proj2 (Z.ltb_ge _ _)) by lia.
    destruct (reader_take_before _ _ _ _ Hb' eq_refl) as (r'' & -> & _). done.
  - pose proof (zlen_nonneg sacks) as Hl0. unfold MAX_SACKS in *.
    match goal with Hb : before ?r _ |- context [reader_u8 ?r] =>
      destruct (reader_u8_before r (zlen sacks) _ ltac:(unfold is_u8; lia) Hb)
        as (r' & -> & Hb') end.
    cbn [mbind option_bind]. rewrite (proj2 (Z.ltb_ge _ _)) by lia.
    unfold zlen at 1. rewrite Nat2Z.id.
    destruct (decode_sacks_before sacks r' [] rest) as (r'' & -> & _); [done| |done|done].
    rewrite zlen_nil. unfold MAX_SACKS. lia.
  - read_field. done.
Qed.

(** Inverts the read of one field in a hypothesis. *)
Ltac unread_field H :=
  lazymatch type of H with
  | (reader_u8 ?r ≫= _) = Some _ =>
      let E := fresh "E" in destruct (reader_u8 r) as [[? ?]|] eqn:E; [|done];
      match goal with Hb : before r ?t |- _ =>
        apply (reader_u8_inv r _ _ t Hb) in E as (? & ? & -> & ?); clear Hb end
  | (reader_u16 ?r ≫= _) = Some _ =>
      let E := fresh "E" in destruct (reader_u16 r) as [[? ?]|] eqn:E; [|done];
      match goal with Hb : before r ?t |- _ =>
        apply (reader_u16_inv r _ _ t Hb) in E as (? & ? & -> & ?); clear Hb end
  | (reader_u32 ?r ≫= _) = Some _ =>
      let E := fresh "E" in destruct (reader_u32 r) as [[? ?]|] eqn:E; [|done];
      match goal with Hb : before r ?t |- _ =>
        apply (reader_u32_inv r _ _ t Hb) in E as (? & ? & -> & ?); clear Hb end
  end; cbn [mbind option_bind] in H.

Lemma decode_sacks_inv n : forall r acc t k r',
  Z.of_nat n + zlen acc <= MAX_SACKS -> before r t ->
  decode_sacks n r acc = Some (k, r') ->
  exists k' t', k = acc ++ k' /\ length k' = n /\ Forall wf_sack k' /\
    t = sack_bytes k' ++ t' /\ before r' t'.
Proof.
  induction n as [|n IH]; intros r acc t k r' Hl Hb H; cbn [decode_sacks] in H.
  - injection H as <- <-. exists [], t. rewrite app_nil_r. auto.
  - do 2 unread_field H. unfold sack_push in H.
    replace (MAX_SACKS <=? zlen acc) with false in H by (symmetry; apply Z.leb_gt; lia).
    cbn [fst] in H.
    match type of H with decode_sacks _ ?r ?a = _ =>
      assert (Z.of_nat n + zlen a <= MAX_SACKS) as Hl'
        by (rewrite zlen_app, zlen_cons, zlen_nil; lia);
      match goal with Hb : before r ?t |- _ =>
        destruct (IH r a t _ _ Hl' Hb H) as (k' & t' & -> & Hk & Hw & -> & Hb') end
    end.
    eexists (_ :: k'), t'. rewrite <- (assoc_L (++)). split; [done|].
    split; [simpl; congruence|]. split; [by constructor|].
    unfold sack_bytes. cbn [flat_map sr_start sr_end]. by rewrite <- !(assoc_L (++)).
Qed.

Lemma decode_inv (b : list byte) (f : Frame) (H : decode b = Some f) :
  wf_frame f /\ exists rest, b = encode f ++ rest.
Proof.
  assert (before (reader_new b) b) as Hb.
  { split; [|done]. simpl. pose proof (zlen_nonneg b). lia. }
  unfold decode in H. cbv zeta in H. generalize dependent (reader_new b). intros r H Hb.
  unread_field H. destruct (negb _) eqn:Ev; [done|]. to_prop. subst.
  do 2 unread_field H.
  repeat match type of H with
  | (if (?t =? ?c) then _ else _) = _ => destruct (t =? c) eqn:?; to_prop; subst
  end; [.. | done].
  - do 2 unread_field H. injection H as <-. split; [done|]. rewrite encode_shape.
    eexists. cbn [app]. by rewrite <- !(assoc_L (++)).
  - do 3 unread_field H. injection H as <-. split; [done|]. rewrite encode_shape.
    eexists. cbn [app]. by rewrite <- !(assoc_L (++)).
  - do 3 unread_field H. destruct (MSS <? _) eqn:El; [done|]. to_prop.
    destruct (reader_take _ _) as [[p r']|] eqn:E; [|done].
    match goal with Hb : before ?r ?t, E : reader_take ?r ?n = _ |- _ =>
      apply (reader_take_inv r n _ _ t) in E as (Hl & t' & -> & _);
        [|unfold is_u16 in *; lia|done] end.
    injection H as <-. split; [unfold wf_frame; rewrite Hl; done|]. rewrite encode_shape, Hl.
    eexists. cbn [app]. by rewrite <- !(assoc_L (++)).
  - do 3 unread_field H. destruct (MAX_SACKS <? _) eqn:El; [done|]. to_prop.
    destruct (decode_sacks _ _ _) as [[k r']|] eqn:E; [|done]. unfold is_u8 in *.
    match goal with Hb : before ?r ?t, E : decode_sacks ?n ?r _ = _ |- _ =>
      apply (decode_sacks_inv n r [] t) in E as (k' & t' & -> & Hk & Hw & -> & _);
        [|rewrite zlen_nil; lia|done] end.
    injection H as <-. cbn [app]. assert (zlen k' = z2) as Hz by (unfold zlen; lia).
    split; [unfold wf_frame; rewrite Hz; done|]. rewrite encode_shape, Hz.
    eexists. cbn [app]. rewrite <- !(assoc_L (++)). done.
  - unread_field H. injection H as <-. split; [done|]. rewrite encode_shape.
    eexists. cbn [app]. by rewrite <- !(assoc_L (++)).
  - unread_field H. injection H as <-. split; [done|]. rewrite encode_shape.
    eexists. cbn [app]. rewrite <- !(assoc_L (++)). done.
Qed.

(** C15. Decoding inverts encoding, exactly: a cell decodes to a frame if and only if the frame is
    well formed and the cell starts with its encoding (the bytes after it are padding).  So every
    frame a conforming peer encodes is read back as it was sent, no two frames share an encoding,
    and anything else is rejected. *)
Theorem decode_spec (b : list byte) (f : Frame) :
  decode b = Some f <-> wf_frame f /\ exists rest, b = encode f ++ rest.
Proof.
  split; [apply decode_inv|]. intros [H [rest ->]]. by apply decode_encode_frame.
Qed.
