(* ===== verification/StreamRx.v ===== *)
(** * Receive side of a stream

    [RxState] of the onion stream engine (crates/veil-onion-stream/src/engine.rs): in-order
    delivery, storage of out-of-order data under the advertised window, the FIN, and the
    selective acknowledgements reported to the peer.  The functions return [None] exactly where
    the source would panic (a slice or an [unwrap] out of range) or where a loop has not finished
    within its fuel; the theorems show that neither ever happens. *)

From S2P Require Import Prelude BTree Seq StreamWire.

(** ** State *)

Definition MAX_REORDERED_SEGMENTS : Z := 8192.
Definition MAX_INFLIGHT_BYTES : Z := 2147483647.

Record RxState := mkRxState {
  rcv_nxt : Z;
  rx_window : Z;
  last_ack_window : Z;
  read_buf : list byte;
  oo : list (Z * list byte);
  oo_bytes : Z;
  peer_fin_seq : option Z;
  rx_eof : bool
}.

#[global] Instance RxState_settable : Settable RxState := fun r =>
  mkRxState (rcv_nxt r) (rx_window r) (last_ack_window r) (read_buf r) (oo r) (oo_bytes r)
    (peer_fin_seq r) (rx_eof r).

(** ** Operations *)

Definition advertised (rx : RxState) : Z :=
  let used := wrap64 (zlen (read_buf rx) + oo_bytes rx) in
  sat_sub (rx_window rx) (wrap32 used).

Fixpoint drain_oo_loop (fuel : nat) (rx : RxState) : option RxState :=
  match fuel with
  | O => None
  | S fuel =>
      let floor := sub32 (rcv_nxt rx) M31 in
      match match head (bt_from floor (oo rx)) with
            | Some e => Some e
            | None => head (bt_below floor (oo rx))
            end with
      | None => Some rx
      | Some (k, _) =>
          if seq.leq k (rcv_nxt rx) then
            v ← bt_get k (oo rx);
            let rx := rx <| oo := bt_remove k (oo rx) |>
                         <| oo_bytes := sub64 (oo_bytes rx) (zlen v) |> in
            let rx :=
              if seq.lt k (rcv_nxt rx) then
                let skip := sub32 (rcv_nxt rx) k in
                if skip <? zlen v then
                  rx <| read_buf := read_buf rx ++ zdrop skip v |>
                     <| rcv_nxt := add32 (rcv_nxt rx) (wrap32 (zlen v - skip)) |>
                else rx
              else
                rx <| read_buf := read_buf rx ++ v |>
                   <| rcv_nxt := add32 (rcv_nxt rx) (wrap32 (zlen v)) |> in
            drain_oo_loop fuel rx
          else Some rx
      end
  end.

Definition drain_oo (rx : RxState) : option RxState := drain_oo_loop (S (length (oo rx))) rx.

Definition try_consume_fin (rx : RxState) : RxState :=
  match peer_fin_seq rx with
  | Some fin =>
      if negb (rx_eof rx) && (rcv_nxt rx =? fin) then
        rx <| rcv_nxt := add32 (rcv_nxt rx) 1 |> <| rx_eof := true |>
      else rx
  | None => rx
  end.

(** The gaps of [seq_no .. end_] not covered by the stored entries [it] visits. *)
Fixpoint store_gaps (it : list (Z * list byte)) (slots end_ cursor : Z) (gaps : list (Z * Z)) :
    Z * list (Z * Z) :=
  match it with
  | [] => (cursor, gaps)
  | (start, data) :: it =>
      let gap := seq.gt start cursor in
      let gaps := if gap then gaps ++ [(cursor, sub32 start cursor)] else gaps in
      if gap && (zlen gaps =? slots) then (cursor, gaps)
      else
        let cursor := seq.max cursor (add32 start (wrap32 (zlen data))) in
        if seq.geq cursor end_ then (cursor, gaps)
        else store_gaps it slots end_ cursor gaps
  end.

Fixpoint insert_gaps (seq_no : Z) (payload : list byte) (gaps : list (Z * Z)) (rx : RxState) :
    option RxState :=
  match gaps with
  | [] => Some rx
  | (start, len) :: gaps =>
      let from := sub32 start seq_no in
      data ← slice payload from (from + len);
      insert_gaps seq_no payload gaps
        (rx <| oo := bt_insert start data (oo rx) |> <| oo_bytes := wrap64 (oo_bytes rx + len) |>)
  end.

Definition store_oo (rx : RxState) (seq_no : Z) (payload : list byte) : option RxState :=
  let slots := sat_sub MAX_REORDERED_SEGMENTS (zlen (oo rx)) in
  if slots =? 0 then Some rx
  else
    let end_ := add32 seq_no (wrap32 (zlen payload)) in
    let preceding :=
      match cyc_last seq_no (oo rx) with
      | Some (start, data) => if seq.lt start seq_no then [(start, data)] else []
      | None => []
      end in
    let inside :=
      if seq_no <? end_ then bt_range seq_no end_ (oo rx)
      else bt_from seq_no (oo rx) ++ bt_below end_ (oo rx) in
    let '(cursor, gaps) := store_gaps (preceding ++ inside) slots end_ seq_no [] in
    let gaps :=
      if (zlen gaps <? slots) && seq.lt cursor end_ then gaps ++ [(cursor, sub32 end_ cursor)]
      else gaps in
    insert_gaps seq_no payload gaps rx.

Fixpoint accept_loop (fuel : nat) (seg_seq end_ : Z) (payload : list byte) (rx : RxState) :
    option RxState :=
  match fuel with
  | O => None
  | S fuel =>
      if seq.lt (rcv_nxt rx) end_ then
        let next :=
          match cyc_first (rcv_nxt rx) (oo rx) with
          | Some (start, _) => if seq.lt start end_ then start else end_
          | None => end_
          end in
        let from := sub32 (rcv_nxt rx) seg_seq in
        let count := sub32 next (rcv_nxt rx) in
        chunk ← slice payload from (from + count);
        let rx := rx <| read_buf := read_buf rx ++ chunk |> <| rcv_nxt := next |> in
        rx ← drain_oo rx;
        accept_loop fuel seg_seq end_ payload rx
      else Some rx
  end.

(** The part of a segment at or after [rcv_nxt], or [None] when all of it is duplicate. *)
Definition trim_duplicate (rx : RxState) (seg_seq : Z) (payload : list byte) :
    option (Z * list byte) :=
  if seq.lt seg_seq (rcv_nxt rx) then
    let skip := sub32 (rcv_nxt rx) seg_seq in
    if zlen payload <=? skip then None else Some (rcv_nxt rx, zdrop skip payload)
  else Some (seg_seq, payload).

Definition accept (rx : RxState) (seg_seq : Z) (payload : list byte) : option (RxState * bool) :=
  match trim_duplicate rx seg_seq payload with
  | None => Some (rx, false)
  | Some (seg_seq, payload) =>
      let space := sat_sub (rx_window rx) (wrap32 (zlen (read_buf rx))) in
      let offset := sub32 seg_seq (rcv_nxt rx) in
      if space <=? offset then Some (rx, false)
      else
        let payload := ztake (Z.min (zlen payload) (space - offset)) payload in
        if seg_seq =? rcv_nxt rx then
          let end_ := add32 seg_seq (wrap32 (zlen payload)) in
          rx ← accept_loop (S (length payload)) seg_seq end_ payload rx;
          Some (try_consume_fin rx, true)
        else
          rx ← store_oo rx seg_seq payload;
          Some (rx, false)
  end.

Definition stored_end (rx : RxState) (point : Z) : option Z :=
  match match last (bt_below (point + 1) (oo rx)) with
        | Some e => Some e
        | None => last (oo rx)
        end with
  | Some (start, bytes) =>
      let end_ := add32 start (wrap32 (zlen bytes)) in
      if seq.geq point start && seq.lt point end_ then Some end_ else None
  | None => None
  end.

Definition push_block (blocks : list (Z * Z)) (e : Z * list byte) : list (Z * Z) :=
  let '(start, v) := e in
  let end_ := add32 start (wrap32 (zlen v)) in
  match last blocks with
  | Some (s, e') =>
      if e' =? start then removelast blocks ++ [(s, end_)] else blocks ++ [(start, end_)]
  | None => blocks ++ [(start, end_)]
  end.

Definition sack_blocks (rx : RxState) : list (Z * Z) :=
  fold_left push_block (cyc_iter (rcv_nxt rx) (oo rx)) [].

(** [read] into a buffer of [n] bytes: the bytes delivered and the state after. *)
Definition rx_read (n : Z) (rx : RxState) : list byte * RxState :=
  let n := Z.min n (zlen (read_buf rx)) in
  (ztake n (read_buf rx), rx <| read_buf := zdrop n (read_buf rx) |>).

Definition rx_new (recv_window : Z) : RxState :=
  {| rcv_nxt := 0;
     rx_window := Z.min recv_window MAX_INFLIGHT_BYTES;
     last_ack_window := Z.min recv_window MAX_INFLIGHT_BYTES;
     read_buf := []; oo := []; oo_bytes := 0; peer_fin_seq := None; rx_eof := false |}.

(** A FIN frame ([on_peer_fin], its effect on the receive side). *)
Definition rx_on_fin (rx : RxState) (fin_seq : Z) : RxState :=
  try_consume_fin (rx <| peer_fin_seq := Some fin_seq |>).
