(* ===== verification/StreamRxInv.v ===== *)
(** * Invariant of the receive side

    Sequence numbers are lifted to absolute stream positions; [oo_inv] and [rx_inv] say what the
    receive side of StreamRx.v keeps true of its store.  This file proves that draining the store
    and consuming an in-order segment keep it, and deliver exactly the next bytes. *)

From S2P Require Import Prelude BTree Seq StreamWire StreamRx.

(** ** Absolute positions

    The proofs read every 32-bit sequence number as the stream position it stands for.  [R] is
    the absolute position of [rcv_nxt]; a stored key [k] stands for the first position at or
    after [R] with that residue. *)

Definition apos (R k : Z) : Z := R + (k - R) mod M32.

Lemma apos_range R k : R <= apos R k < R + M32.
Proof. unfold apos. mlia. Qed.

Lemma apos_wrap R K : R <= K < R + M32 -> apos R (wrap32 K) = K.
Proof. unfold apos, wrap32. intros. mlia. Qed.

Lemma wrap_apos R k : is_u32 k -> wrap32 (apos R k) = k.
Proof. unfold apos, wrap32, is_u32. intros. mlia. Qed.

Lemma apos_dist R k : apos R k = R + dist (wrap32 R) k.
Proof. unfold apos, dist, sub32, wrap32. mlia. Qed.

Lemma apos_rebase R R' k : R <= R' <= apos R k -> apos R' k = apos R k.
Proof. unfold apos. intros. mlia. Qed.

(** Comparisons between a stored key and a position. *)
Lemma key_lt R k B :
  is_u32 k -> - M31 <= apos R k - B < M31 -> seq.lt k (wrap32 B) = (apos R k <? B).
Proof. intros Hk H. rewrite <- (wrap_apos R k) by done. by rewrite seq_lt_abs, wrap_apos. Qed.

Lemma key_leq R k B :
  is_u32 k -> - M31 <= apos R k - B < M31 -> seq.leq k (wrap32 B) = (apos R k <=? B).
Proof. intros Hk H. rewrite <- (wrap_apos R k) by done. by rewrite seq_leq_abs, wrap_apos. Qed.

(** [holds P A l]: the bytes [l] satisfy [P] at the positions from [A] on. *)
Definition holds (P : Z -> byte -> Prop) (A : Z) (l : list byte) : Prop :=
  forall i b, l !! i = Some b -> P (A + Z.of_nat i) b.

Lemma holds_nil P A : holds P A [].
Proof. intros i b H. done. Qed.

Lemma holds_app P A l k : holds P A (l ++ k) <-> holds P A l /\ holds P (A + zlen l) k.
Proof.
  unfold holds, zlen. split.
  - intros H. split; intros i b Hi.
    + apply H. by apply lookup_app_l_Some.
    + replace (A + _ + _) with (A + Z.of_nat (length l + i)) by lia. apply H.
      rewrite lookup_app_r by lia. rewrite <- Hi. f_equal. lia.
  - intros [H1 H2] i b [Hi|[Hle Hi]]%lookup_app_Some; [auto|].
    replace (A + _) with (A + Z.of_nat (length l) + Z.of_nat (i - length l)) by lia. auto.
Qed.

Lemma holds_zdrop P A n l : 0 <= n -> holds P A l -> holds P (A + n) (zdrop n l).
Proof.
  intros Hn H i b Hi. unfold zdrop in Hi. rewrite lookup_drop in Hi. apply H in Hi.
  replace (A + n + _) with (A + Z.of_nat (Z.to_nat n + i)) by lia. done.
Qed.

Lemma holds_ztake P A n l : holds P A l -> holds P A (ztake n l).
Proof. intros H i b Hi. apply lookup_take_Some in Hi as [Hi _]. auto. Qed.

Lemma holds_slice P A l a b s : holds P A l -> slice l a b = Some s -> holds P (A + a) s.
Proof.
  intros H Hs. unfold slice in Hs. case_bool; [|done]. to_prop. injection Hs as <-.
  apply holds_ztake, holds_zdrop; [lia|done].
Qed.

Lemma holds_mono (P Q : Z -> byte -> Prop) A l :
  (forall i b, P i b -> Q i b) -> holds P A l -> holds Q A l.
Proof. intros HPQ H i b Hi. auto. Qed.

(** ** Invariant of the out-of-order store *)

(** Entries are non-empty, lie in the [space] positions from [R] on, do not overlap, and their
    bytes satisfy [P]. *)
Record oo_inv (P : Z -> byte -> Prop) (R space : Z) (m : list (Z * list byte)) : Prop := {
  oo_sorted : bt_sorted m;
  oo_keys : keys_u32 m;
  oo_entry : forall k v, (k, v) ∈ m ->
    v <> [] /\ apos R k + zlen v <= R + space /\ holds P (apos R k) v;
  oo_disjoint : forall k v k' v', (k, v) ∈ m -> (k', v') ∈ m ->
    apos R k < apos R k' -> apos R k + zlen v <= apos R k'
}.

Lemma zlen_pos {A} (l : list A) : l <> [] -> 0 < zlen l.
Proof. destruct l; [done|]. rewrite zlen_cons. pose proof (zlen_nonneg l). lia. Qed.

Lemma zlen_pos_inv {A} (l : list A) : 0 < zlen l -> l <> [].
Proof. by intros H ->. Qed.

Section oo_inv.
Context (P : Z -> byte -> Prop).

Lemma oo_inv_nil R space : oo_inv P R space [].
Proof. split; [constructor|..]; unfold keys_u32; intros; by match goal with H : _ ∈ [] |- _ => apply elem_of_nil in H end. Qed.

Lemma oo_inv_apos_inj R sp m k v k' v' :
  oo_inv P R sp m -> (k, v) ∈ m -> (k', v') ∈ m -> apos R k = apos R k' -> k = k' /\ v = v'.
Proof.
  intros Hi H1 H2 He.
  assert (k = k') as ->.
  { rewrite <- (wrap_apos R k), <- (wrap_apos R k'), He by (eapply oo_keys; eauto). done. }
  split; [done|]. eapply bt_sorted_functional; eauto using oo_sorted.
Qed.

Lemma oo_inv_advance R R' sp m :
  oo_inv P R sp m -> R <= R' -> (forall k v, (k, v) ∈ m -> R' <= apos R k) ->
  oo_inv P R' (sp - (R' - R)) m.
Proof.
  intros Hi Hle Hall.
  assert (forall k v, (k, v) ∈ m -> apos R' k = apos R k) as Heq
    by (intros; apply apos_rebase; eauto).
  split; [apply Hi|apply Hi| |].
  - intros k v H. rewrite (Heq _ _ H). pose proof (oo_entry _ _ _ _ Hi _ _ H) as (?&?&?).
    split_and!; [done|lia|done].
  - intros k v k' v' H H'. rewrite (Heq _ _ H), (Heq _ _ H'). by eapply (oo_disjoint _ _ _ _ Hi).
Qed.

Lemma oo_inv_grow R sp sp' m : oo_inv P R sp m -> sp <= sp' -> oo_inv P R sp' m.
Proof.
  intros Hi Hle. split; [apply Hi|apply Hi| |apply Hi].
  intros k v H. pose proof (oo_entry _ _ _ _ Hi _ _ H) as (?&?&?). split_and!; [done|lia|done].
Qed.

Lemma oo_inv_remove R sp m k : oo_inv P R sp m -> oo_inv P R sp (bt_remove k m).
Proof.
  intros Hi. split.
  - apply bt_remove_sorted, Hi.
  - intros k' v' H%elem_of_bt_remove. eapply oo_keys; eauto.
  - intros k' v' H%elem_of_bt_remove. eapply oo_entry; eauto.
  - intros ???? H1%elem_of_bt_remove H2%elem_of_bt_remove. eapply oo_disjoint; eauto.
Qed.

(** [K .. K + len] does not meet any stored entry. *)
Definition free (R : Z) (m : list (Z * list byte)) (K len : Z) : Prop :=
  forall k v, (k, v) ∈ m -> apos R k + zlen v <= K \/ K + len <= apos R k.

Lemma free_fresh R sp m K (v : list byte) :
  oo_inv P R sp m -> R <= K < R + M32 -> v <> [] -> free R m K (zlen v) ->
  forall v', (wrap32 K, v') ∉ m.
Proof.
  intros Hi HK Hv Hf v' Hin. pose proof (oo_entry _ _ _ _ Hi _ _ Hin) as (Hv' & _ & _).
  pose proof (Hf _ _ Hin) as H. rewrite apos_wrap in H by done.
  pose proof (zlen_pos _ Hv). pose proof (zlen_pos _ Hv'). lia.
Qed.

Lemma oo_inv_insert R sp m K (v : list byte) :
  oo_inv P R sp m -> sp < M32 -> R <= K -> v <> [] -> K + zlen v <= R + sp -> holds P K v ->
  free R m K (zlen v) -> oo_inv P R sp (bt_insert (wrap32 K) v m).
Proof.
  intros Hi Hsp HK Hv Hend Hh Hf. pose proof (zlen_pos _ Hv).
  assert (apos R (wrap32 K) = K) as HA by (apply apos_wrap; lia).
  assert (forall v', (wrap32 K, v') ∉ m) as Hfresh
    by (eapply free_fresh; [exact Hi|lia|done|done]).
  pose proof (elem_of_bt_insert (wrap32 K) v m) as Hel.
  assert (forall k0 v0, (k0, v0) ∈ bt_insert (wrap32 K) v m ->
    (k0 = wrap32 K /\ v0 = v) \/ (k0, v0) ∈ m) as Hel'
    by (intros; apply Hel; [apply Hi|done|done]).
  split.
  - apply bt_insert_sorted, Hi.
  - intros k0 v0 [[-> _]|H0]%Hel'; [apply wrap32_range|]. by eapply oo_keys.
  - intros k0 v0 [[-> ->]|H0]%Hel'; [|by eapply oo_entry]. rewrite HA. auto.
  - intros k1 v1 k2 v2 [[-> ->]|H1]%Hel' [[-> ->]|H2]%Hel' Hlt; rewrite ?HA in *.
    + lia.
    + destruct (Hf _ _ H2); [|lia]. pose proof (zlen_nonneg v2). lia.
    + destruct (Hf _ _ H1); lia.
    + by eapply oo_disjoint.
Qed.

(** Stored bytes are bounded by the space they lie in. *)
Lemma bt_bytes_bound (m : list (Z * list byte)) : forall lo hi R,
  (forall k v, (k, v) ∈ m -> lo <= apos R k /\ apos R k + zlen v <= hi) ->
  StronglySorted (fun a b => apos R a.1 + zlen a.2 <= apos R b.1) m -> lo <= hi ->
  bt_bytes m <= hi - lo.
Proof.
  induction m as [|[k v] m IH]; intros lo hi R Hb Hs Hle; [unfold bt_bytes; simpl; lia|].
  rewrite bt_bytes_cons.
  apply StronglySorted_inv in Hs as [Hs Hf].
  destruct (Hb k v) as [Hk1 Hk2]; [left|].
  assert (bt_bytes m <= hi - (apos R k + zlen v)); [|lia].
  apply (IH _ _ R); [|done|lia]. intros k' v' Hin. destruct (Hb k' v') as [_ ?]; [by right|].
  rewrite List.Forall_forall in Hf. apply list_elem_of_In in Hin. apply Hf in Hin. simpl in Hin. lia.
Qed.

(** The entries in stream order do not overlap. *)
Lemma oo_iter_disjoint R sp m :
  oo_inv P R sp m ->
  StronglySorted (fun a b => apos R a.1 + zlen a.2 <= apos R b.1) (cyc_iter (wrap32 R) m).
Proof.
  intros Hi.
  pose proof (cyc_iter_sorted (wrap32 R) m (oo_sorted _ _ _ _ Hi) (oo_keys _ _ _ _ Hi)
    (wrap32_range R)) as Hs.
  eapply StronglySorted_impl_elem; [|exact Hs]. simpl.
  intros [k v] [k' v'] H1%elem_of_cyc_iter H2%elem_of_cyc_iter Hlt. simpl in *.
  eapply oo_disjoint; eauto. rewrite !apos_dist. lia.
Qed.

Lemma oo_bytes_bound R sp m : oo_inv P R sp m -> 0 <= sp -> bt_bytes m <= sp.
Proof.
  intros Hi Hsp.
  assert (bt_bytes m = bt_bytes (cyc_iter (wrap32 R) m)) as ->.
  { apply bt_bytes_perm. unfold cyc_iter, bt_from, bt_below.
    clear. induction m as [|[k v] m IH]; [done|]. simpl.
    destruct (Z.leb_spec (wrap32 R) k), (Z.ltb_spec k (wrap32 R)); try lia.
    - simpl. by constructor.
    - rewrite <- Permutation_middle. by constructor. }
  replace sp with (R + sp - R) by lia.
  apply (bt_bytes_bound _ R (R + sp) R); [| |lia].
  - intros k v Hin%elem_of_cyc_iter. pose proof (oo_entry _ _ _ _ Hi _ _ Hin) as (_&?&_).
    pose proof (apos_range R k). lia.
  - by eapply oo_iter_disjoint.
Qed.
End oo_inv.

(** ** Invariant of the receive side *)

(** [R] is the position [rcv_nxt] stands for; bytes buffered and stored fit the window. *)
Record rx_core (P : Z -> byte -> Prop) (R : Z) (rx : RxState) : Prop := {
  rx_nxt : rcv_nxt rx = wrap32 R;
  rx_win : rx_window rx <= MAX_INFLIGHT_BYTES;
  rx_buf : zlen (read_buf rx) <= rx_window rx;
  rx_oo : oo_inv P R (rx_window rx - zlen (read_buf rx)) (oo rx);
  rx_bytes : oo_bytes rx = bt_bytes (oo rx);
  rx_slots : zlen (oo rx) <= MAX_REORDERED_SEGMENTS
}.

Definition oo_ahead (R : Z) (m : list (Z * list byte)) : Prop :=
  forall k v, (k, v) ∈ m -> R < apos R k.

(** Between operations nothing deliverable is left in the store, unless the stream has ended. *)
Definition rx_inv (P : Z -> byte -> Prop) (R : Z) (rx : RxState) : Prop :=
  rx_core P R rx /\ (rx_eof rx = false -> oo_ahead R (oo rx)).

(** [rx'] is [rx] with the bytes [new] delivered in order and nothing else changed but the
    out-of-order store. *)
Record delivers (P : Z -> byte -> Prop) (R : Z) (rx : RxState) (R' : Z) (rx' : RxState)
    (new : list byte) : Prop := {
  dl_core : rx_core P R' rx';
  dl_pos : R' = R + zlen new;
  dl_buf : read_buf rx' = read_buf rx ++ new;
  dl_holds : holds P R new;
  dl_window : rx_window rx' = rx_window rx;
  dl_last : last_ack_window rx' = last_ack_window rx;
  dl_fin : peer_fin_seq rx' = peer_fin_seq rx;
  dl_eof : rx_eof rx' = rx_eof rx;
  dl_keep : forall k v, (k, v) ∈ oo rx ->
    ((k, v) ∈ oo rx' /\ R' <= apos R k) \/ apos R k + zlen v <= R'
}.

Lemma delivers_refl P R rx : rx_core P R rx -> delivers P R rx R rx [].
Proof.
  intros H. split; rewrite ?zlen_nil, ?app_nil_r; auto using holds_nil; [lia|].
  intros k v Hin. left. pose proof (apos_range R k). split; [done|lia].
Qed.

Lemma delivers_trans P R1 R2 R3 a b c n1 n2 :
  delivers P R1 a R2 b n1 -> delivers P R2 b R3 c n2 -> delivers P R1 a R3 c (n1 ++ n2).
Proof.
  intros [] []. subst. split; try congruence.
  - rewrite zlen_app. lia.
  - rewrite dl_buf1, dl_buf0, (assoc_L (++)). done.
  - apply holds_app. auto.
  - intros k v Hin. destruct (dl_keep0 _ _ Hin) as [[Hin' Hle]|Hle].
    + destruct (dl_keep1 _ _ Hin') as [[? ?]|?].
      * left. split; [done|]. rewrite <- (apos_rebase R1 (R1 + zlen n1)); [done|].
        pose proof (zlen_nonneg n1). lia.
      * right. rewrite <- (apos_rebase R1 (R1 + zlen n1)); [done|].
        pose proof (zlen_nonneg n1). lia.
    + right. pose proof (zlen_nonneg n2). lia.
Qed.

Lemma cyc_first_below {V} x (m : list (Z * V)) :
  match head (bt_from x m) with Some e => Some e | None => head (bt_below x m) end =
  cyc_first x m.
Proof.
  unfold cyc_first. destruct (head (bt_from x m)) eqn:E; [done|]. f_equal.
  assert (forall e, e ∈ m -> (e.1 <? x) = true) as Hall.
  { intros e Hin. pose proof (head_filter_none _ _ _ E Hin). simpl in *. to_prop.
    apply Z.ltb_lt. lia. }
  clear E. unfold bt_below. induction m as [|e m IH]; [done|]. simpl.
  rewrite (Hall e) by left. f_equal. apply IH. intros e' He'. apply Hall. by right.
Qed.

(** The entry a forward search finds is the one at the least position. *)
Lemma cyc_first_apos P R sp m x k v :
  oo_inv P R sp m -> sp < M31 -> R - M31 <= x <= R -> cyc_first (wrap32 x) m = Some (k, v) ->
  (k, v) ∈ m /\ forall k' v', (k', v') ∈ m -> apos R k <= apos R k'.
Proof.
  intros Hi Hsp Hx Hc.
  apply cyc_first_spec in Hc as [Hin Hmin]; [|apply Hi|apply Hi|apply wrap32_range].
  split; [done|]. intros k' v' Hin'. specialize (Hmin _ _ Hin').
  pose proof (oo_entry _ _ _ _ Hi _ _ Hin) as (H1 & ? & _). apply zlen_pos in H1.
  pose proof (oo_entry _ _ _ _ Hi _ _ Hin') as (H2 & ? & _). apply zlen_pos in H2.
  pose proof (apos_range R k). pose proof (apos_range R k').
  assert (forall a, apos R a < R + M31 -> dist (wrap32 x) a = apos R a - x) as Hd.
  { intros a Ha. unfold apos, dist, sub32, wrap32 in *. mlia. }
  rewrite !Hd in Hmin by lia. lia.
Qed.

Section drain.
Context (P : Z -> byte -> Prop).

(** Delivering the entry that starts exactly at [rcv_nxt]. *)
Lemma drain_entry R rx k v :
  rx_core P R rx -> (k, v) ∈ oo rx -> apos R k = R ->
  delivers P R rx (R + zlen v)
    (rx <| oo := bt_remove k (oo rx) |> <| oo_bytes := sub64 (oo_bytes rx) (zlen v) |>
        <| read_buf := read_buf rx ++ v |>
        <| rcv_nxt := add32 (rcv_nxt rx) (wrap32 (zlen v)) |>) v.
Proof.
  intros Hc Hin HR. pose proof (rx_oo _ _ _ Hc) as Hi.
  pose proof (oo_entry _ _ _ _ Hi _ _ Hin) as (Hne & Hend & Hh). rewrite HR in *.
  pose proof (zlen_pos _ Hne) as Hpos.
  pose proof (bt_remove_perm _ _ _ (oo_sorted _ _ _ _ Hi) Hin) as Hperm.
  assert (forall k' v', (k', v') ∈ oo rx -> k' <> k -> R + zlen v <= apos R k') as Hrest.
  { intros k' v' Hin'' Hkk.
    assert (apos R k' <> R) as Hne'.
    { intros E. destruct (oo_inv_apos_inj _ _ _ _ _ _ _ _ Hi Hin'' Hin) as [-> _]; [|done]. lia. }
    pose proof (apos_range R k').
    pose proof (oo_disjoint _ _ _ _ Hi _ _ _ _ Hin Hin''). lia. }
  split; cbn; try done; cycle 1.
  { intros k' v' Hin'. destruct (decide (k' = k)) as [->|Hkk].
    - right. rewrite (bt_sorted_functional _ _ _ _ (oo_sorted _ _ _ _ Hi) Hin' Hin). lia.
    - left. split; [|by eapply Hrest]. rewrite Hperm in Hin'.
      apply elem_of_cons in Hin' as [[= -> ->]|Hin']; done. }
  split; cbn.
  - rewrite (rx_nxt _ _ _ Hc). unfold add32, wrap32. mlia.
  - apply Hc.
  - rewrite zlen_app. lia.
  - replace (rx_window rx - zlen (read_buf rx ++ v)) with
      (rx_window rx - zlen (read_buf rx) - (R + zlen v - R)) by (rewrite zlen_app; lia).
    apply oo_inv_advance; [by apply oo_inv_remove|lia|].
    intros k' v' Hin'. pose proof (elem_of_bt_remove _ _ _ Hin') as Hin''.
    assert (k' <> k) as Hkk.
    { intros ->. pose proof (oo_sorted _ _ _ _ Hi) as Hs. clear -Hin' Hs.
      induction (oo rx) as [|[a b] m IH]; [by apply elem_of_nil in Hin'|].
      apply StronglySorted_inv in Hs as [Hs Hf]. simpl in Hin'. case_bool; to_prop.
      - subst. rewrite Forall_forall in Hf. apply Hf in Hin'. simpl in Hin'. lia.
      - apply elem_of_cons in Hin' as [[= -> ->]|Hin']; [done|by apply IH]. }
    by eapply Hrest.
  - rewrite (rx_bytes _ _ _ Hc), (bt_bytes_perm _ _ Hperm), bt_bytes_cons.
    pose proof (bt_bytes_nonneg (bt_remove k (oo rx))).
    pose proof (oo_bytes_bound _ _ _ _ Hi ltac:(pose proof (rx_buf _ _ _ Hc); lia)) as Hb.
    rewrite (bt_bytes_perm _ _ Hperm), bt_bytes_cons in Hb.
    pose proof (rx_win _ _ _ Hc). unfold MAX_INFLIGHT_BYTES in *.
    pose proof (zlen_nonneg (read_buf rx)).
    unfold sub64, wrap64. rewrite Z.mod_small by lia. lia.
  - pose proof (rx_slots _ _ _ Hc). apply Permutation_length in Hperm. simpl in Hperm.
    unfold zlen in *. lia.
Qed.

Lemma drain_oo_loop_spec fuel : forall R rx,
  rx_core P R rx -> (length (oo rx) < fuel)%nat ->
  exists R' rx' new, drain_oo_loop fuel rx = Some rx' /\ delivers P R rx R' rx' new /\
    oo_ahead R' (oo rx').
Proof.
  induction fuel as [|fuel IH]; intros R rx Hc Hfuel; [lia|].
  cbn [drain_oo_loop]. rewrite cyc_first_below.
  pose proof (rx_oo _ _ _ Hc) as Hi. pose proof (rx_win _ _ _ Hc). unfold MAX_INFLIGHT_BYTES in *.
  pose proof (zlen_nonneg (read_buf rx)).
  replace (sub32 (rcv_nxt rx) M31) with (wrap32 (R - M31))
    by (rewrite (rx_nxt _ _ _ Hc); unfold sub32, wrap32; mlia).
  destruct (cyc_first _ _) as [[k v]|] eqn:E.
  - apply (cyc_first_apos P R _ _ _ _ _ Hi) in E as [Hin Hmin]; [|lia|lia].
    pose proof (oo_entry _ _ _ _ Hi _ _ Hin) as (Hne & Hend & _). apply zlen_pos in Hne.
    pose proof (apos_range R k).
    assert (is_u32 k) as Hk by (eapply oo_keys; eauto).
    rewrite (rx_nxt _ _ _ Hc), (key_leq R) by (done || lia).
    destruct (apos R k <=? R) eqn:El; to_prop.
    + rewrite (proj2 (bt_get_Some k v _ (oo_sorted _ _ _ _ Hi)) Hin). cbn [mbind option_bind].
      cbn [rcv_nxt set_field]. rewrite (rx_nxt _ _ _ Hc), (key_lt R) by (done || lia).
      rewrite (proj2 (Z.ltb_ge _ _)) by lia.
      pose proof (drain_entry R rx k v Hc Hin ltac:(lia)) as Hd.
      rewrite (rx_nxt _ _ _ Hc) in Hd. cbn in Hd |- *.
      edestruct (IH _ _ (dl_core _ _ _ _ _ _ Hd)) as (R' & rx' & new & Hrun & Hd' & Ha).
      { cbn. pose proof (Permutation_length (bt_remove_perm _ _ _ (oo_sorted _ _ _ _ Hi) Hin)) as Hl.
        simpl in Hl. lia. }
      cbn in Hrun. exists R', rx', (v ++ new). split; [exact Hrun|].
      split; [eapply delivers_trans; eauto|done].
    + exists R, rx, []. split; [done|]. split; [by apply delivers_refl|].
      intros k' v' Hin'. specialize (Hmin _ _ Hin'). lia.
  - apply cyc_first_None in E. exists R, rx, []. split; [done|].
    split; [by apply delivers_refl|]. rewrite E. intros k v Hin. by apply elem_of_nil in Hin.
Qed.

Lemma drain_oo_spec R rx :
  rx_core P R rx ->
  exists R' rx' new, drain_oo rx = Some rx' /\ delivers P R rx R' rx' new /\
    oo_ahead R' (oo rx').
Proof. intros. apply drain_oo_loop_spec; [done|lia]. Qed.
End drain.

(** ** In-order segments *)

Section accept_loop.
Context (P : Z -> byte -> Prop) (S0 : Z) (payload : list byte).
Hypothesis Hpayload : holds P S0 payload.

(** Where a turn of the accept loop stops: at the first stored byte or the end of the segment. *)
Lemma accept_next R rx E0 :
  rx_core P R rx -> R < E0 <= R + (rx_window rx - zlen (read_buf rx)) ->
  exists N,
    (match cyc_first (rcv_nxt rx) (oo rx) with
     | Some (start, _) => if seq.lt start (wrap32 E0) then start else wrap32 E0
     | None => wrap32 E0
     end) = wrap32 N /\ R <= N <= E0 /\
    (forall k v, (k, v) ∈ oo rx -> N <= apos R k) /\
    (N = R -> exists k v, (k, v) ∈ oo rx /\ apos R k = R).
Proof.
  intros Hc HE. pose proof (rx_oo _ _ _ Hc) as Hi. pose proof (rx_win _ _ _ Hc).
  pose proof (zlen_nonneg (read_buf rx)). unfold MAX_INFLIGHT_BYTES in *.
  destruct (cyc_first _ _) as [[k v]|] eqn:E.
  - rewrite (rx_nxt _ _ _ Hc) in E.
    apply (cyc_first_apos P R _ _ _ _ _ Hi) in E as [Hin Hmin]; [|lia|lia].
    pose proof (oo_entry _ _ _ _ Hi _ _ Hin) as (Hne & Hend & _). apply zlen_pos in Hne.
    pose proof (apos_range R k). assert (is_u32 k) as Hk by (eapply oo_keys; eauto).
    rewrite (key_lt R) by (done || lia). destruct (apos R k <? _) eqn:El; to_prop.
    + exists (apos R k). rewrite wrap_apos by done. split_and!; eauto; lia.
    + exists E0. split_and!; [done|lia|lia| |lia].
      intros k' v' Hin'. specialize (Hmin _ _ Hin'). lia.
  - apply cyc_first_None in E. exists E0. split_and!; [done|lia|lia| |lia].
    rewrite E. intros ? ? H'. by apply elem_of_nil in H'.
Qed.

(** One turn of the loop: deliver the payload up to the next stored entry, then drain. *)
Lemma accept_turn R rx :
  rx_core P R rx -> S0 <= R -> R - zlen (read_buf rx) <= S0 -> R < S0 + zlen payload ->
  S0 + zlen payload <= R + (rx_window rx - zlen (read_buf rx)) ->
  let end_ := wrap32 (S0 + zlen payload) in
  let next :=
    match cyc_first (rcv_nxt rx) (oo rx) with
    | Some (start, _) => if seq.lt start end_ then start else end_
    | None => end_
    end in
  let from := sub32 (rcv_nxt rx) (wrap32 S0) in
  let count := sub32 next (rcv_nxt rx) in
  exists chunk R' rx' new,
    slice payload from (from + count) = Some chunk /\
    drain_oo (rx <| read_buf := read_buf rx ++ chunk |> <| rcv_nxt := next |>) = Some rx' /\
    delivers P R rx R' rx' new /\ oo_ahead R' (oo rx') /\ R < R'.
Proof.
  intros Hc HS Hbase HR Hroom end_ next from count. pose proof (rx_buf _ _ _ Hc).
  pose proof (rx_oo _ _ _ Hc) as Hi. pose proof (rx_win _ _ _ Hc). unfold MAX_INFLIGHT_BYTES in *.
  pose proof (zlen_nonneg (read_buf rx)). pose proof (zlen_nonneg payload).
  destruct (accept_next R rx (S0 + zlen payload) Hc) as (N & HN & HNr & Hall & Hstart); [lia|].
  fold end_ in HN. fold next in HN.
  assert (from = R - S0) as Hfrom
    by (subst from; rewrite (rx_nxt _ _ _ Hc), sub32_wrap; apply Z.mod_small; lia).
  assert (count = N - R) as Hcount
    by (subst count; rewrite HN, (rx_nxt _ _ _ Hc), sub32_wrap; apply Z.mod_small; lia).
  destruct (slice payload from (from + count)) as [chunk|] eqn:Hslice; cycle 1.
  { rewrite slice_Some in Hslice by lia. done. }
  pose proof (slice_length _ _ _ _ Hslice) as Hl.
  pose proof (holds_slice _ _ _ _ _ _ Hpayload Hslice) as Hh.
  replace (S0 + from) with R in Hh by lia.
  set (rx1 := rx <| read_buf := read_buf rx ++ chunk |> <| rcv_nxt := next |>).
  assert (delivers P R rx N rx1 chunk) as Hd1.
  { split; cbn; try done; try lia.
    - split; cbn; [done|apply Hc|rewrite zlen_app; lia| |apply Hc|apply Hc].
      replace (rx_window rx - zlen (read_buf rx ++ chunk)) with
        (rx_window rx - zlen (read_buf rx) - (N - R)) by (rewrite zlen_app; lia).
      apply oo_inv_advance; [done|lia|done].
    - intros k v Hin. left. eauto. }
  destruct (drain_oo_spec P N rx1 (dl_core _ _ _ _ _ _ Hd1)) as (R' & rx' & new & Hrun & Hd2 & Ha).
  pose proof (delivers_trans _ _ _ _ _ _ _ _ _ Hd1 Hd2) as Hd.
  exists chunk, R', rx', (chunk ++ new). split_and!; try done.
  pose proof (dl_pos _ _ _ _ _ _ Hd2). pose proof (zlen_nonneg new).
  destruct (decide (N = R)) as [->|]; [|lia].
  destruct (Hstart eq_refl) as (k & v & Hin & Hk).
  pose proof (oo_entry _ _ _ _ Hi _ _ Hin) as (Hne & _ & _). apply zlen_pos in Hne.
  destruct (dl_keep _ _ _ _ _ _ Hd _ _ Hin) as [[Hin' Hle]|Hle]; [|lia].
  apply Ha in Hin'. rewrite (apos_rebase R) in Hin' by lia. lia.
Qed.

Lemma accept_loop_spec fuel : forall R rx,
  rx_core P R rx -> S0 <= R -> R - zlen (read_buf rx) <= S0 ->
  S0 + zlen payload <= R + (rx_window rx - zlen (read_buf rx)) ->
  Z.max 0 (S0 + zlen payload - R) < Z.of_nat fuel ->
  exists R' rx' new,
    accept_loop fuel (wrap32 S0) (wrap32 (S0 + zlen payload)) payload rx = Some rx' /\
    delivers P R rx R' rx' new /\ S0 + zlen payload <= R' /\
    (R < S0 + zlen payload \/ oo_ahead R (oo rx) -> oo_ahead R' (oo rx')).
Proof.
  induction fuel as [|fuel IH]; intros R rx Hc HS Hbase Hroom Hfuel; [lia|].
  pose proof (rx_win _ _ _ Hc). unfold MAX_INFLIGHT_BYTES in *.
  pose proof (zlen_nonneg (read_buf rx)). pose proof (zlen_nonneg payload).
  pose proof (rx_buf _ _ _ Hc).
  cbn [accept_loop]. rewrite (rx_nxt _ _ _ Hc), seq_lt_abs by lia. rewrite <- (rx_nxt _ _ _ Hc).
  destruct (R <? S0 + zlen payload) eqn:E; to_prop.
  - destruct (accept_turn R rx Hc HS Hbase E Hroom) as (chunk & R1 & rx1 & n1 & Hsl & Hdr & Hd1 & Ha1 & Hlt).
    rewrite Hsl. cbn [mbind option_bind]. rewrite Hdr. cbn [mbind option_bind].
    destruct (IH R1 rx1) as (R' & rx' & new & Hrun & Hd2 & Hend & Ha).
    + apply Hd1.
    + lia.
    + rewrite (dl_buf _ _ _ _ _ _ Hd1), zlen_app. pose proof (dl_pos _ _ _ _ _ _ Hd1). lia.
    + rewrite (dl_buf _ _ _ _ _ _ Hd1), (dl_window _ _ _ _ _ _ Hd1), zlen_app.
      pose proof (dl_pos _ _ _ _ _ _ Hd1). lia.
    + lia.
    + exists R', rx', (n1 ++ new). split_and!; [done|by eapply delivers_trans|done|]. auto.
  - exists R, rx, []. split_and!; [done|by apply delivers_refl|done|]. intros [?|?]; [lia|done].
Qed.
End accept_loop.
