(* ===== verification/StreamRxAccept.v ===== *)
(** * One received segment

    Storing a segment that arrived ahead of its turn (the gap scan of [store_oo]), trimming a
    duplicate prefix, and the whole of [accept]: total under the invariant, and a receiver step
    that keeps it. *)

From S2P Require Import Prelude BTree Seq StreamWire StreamRx StreamRxInv.

(** ** Out-of-order segments *)

Section store.
Context (P : Z -> byte -> Prop) (R sp : Z) (m : list (Z * list byte)).
Hypothesis Hi : oo_inv P R sp m.
Hypothesis Hsp : sp < M31.

Lemma oo_entry_range k v : (k, v) ∈ m -> R <= apos R k /\ 0 < zlen v /\ apos R k + zlen v <= R + sp.
Proof.
  intros Hin. pose proof (oo_entry _ _ _ _ Hi _ _ Hin) as (Hne & ? & _).
  apply zlen_pos in Hne. pose proof (apos_range R k). lia.
Qed.

Context (S0 E0 : Z).
Hypothesis HS : R < S0.
Hypothesis HE : S0 < E0 <= R + sp.

(** What the range iterators of [store_oo] visit: the entries that start inside the segment. *)
Definition inside : list (Z * list byte) :=
  if wrap32 S0 <? wrap32 E0 then bt_range (wrap32 S0) (wrap32 E0) m
  else bt_from (wrap32 S0) m ++ bt_below (wrap32 E0) m.

Lemma elem_of_inside k v : (k, v) ∈ inside <-> (k, v) ∈ m /\ S0 <= apos R k < E0.
Proof.
  assert ((k, v) ∈ m -> is_u32 k) as Hk by (apply (oo_keys _ _ _ _ Hi)). unfold is_u32 in Hk.
  unfold inside. destruct (wrap32 S0 <? wrap32 E0) eqn:El; to_prop.
  - unfold bt_range. rewrite elem_of_bfilter. simpl. rewrite andb_true_iff, Z.leb_le, Z.ltb_lt.
    split; intros [Hin H]; (split; [done|]); specialize (Hk Hin);
      unfold apos, wrap32 in *; mlia.
  - unfold bt_from, bt_below. rewrite elem_of_app, !elem_of_bfilter. simpl.
    rewrite Z.leb_le, Z.ltb_lt.
    split.
    + intros [[Hin H]|[Hin H]]; (split; [done|]); specialize (Hk Hin);
        unfold apos, wrap32 in *; mlia.
    + intros [Hin H]. specialize (Hk Hin).
      destruct (decide (wrap32 S0 <= k)); [left|right]; (split; [done|]);
        unfold apos, wrap32 in *; mlia.
Qed.

Lemma inside_sorted : StronglySorted (fun a b => apos R a.1 < apos R b.1) inside.
Proof.
  pose proof (oo_sorted _ _ _ _ Hi) as Hs. pose proof (oo_keys _ _ _ _ Hi) as Hk.
  pose proof elem_of_inside as Hel. unfold inside in *.
  destruct (wrap32 S0 <? wrap32 E0) eqn:El; to_prop.
  - eapply StronglySorted_impl_elem; [|by apply bfilter_sorted].
    intros [k v] [k' v'] H1 H2 Hlt. apply Hel in H1 as [H1 ?]. apply Hel in H2 as [H2 ?].
    apply Hk in H1, H2. unfold is_u32, apos, wrap32 in *. simpl in *. mlia.
  - assert (forall e, e ∈ bt_from (wrap32 S0) m \/ e ∈ bt_below (wrap32 E0) m ->
      is_u32 e.1 /\ S0 <= apos R e.1 < E0) as Hr.
    { intros [k v] H. rewrite <- elem_of_app in H. apply Hel in H as [H ?]. split; [|done].
      by apply (Hk k v). }
    assert (forall x y, S0 <= apos R x < E0 -> S0 <= apos R y < E0 -> is_u32 x -> is_u32 y ->
      ((wrap32 S0 <= x /\ y < wrap32 E0) \/ (wrap32 S0 <= x < y) \/ (x < y < wrap32 E0)) ->
      apos R x < apos R y) as Hord
      by (clear Hr Hel Hk Hs; unfold is_u32, apos, wrap32 in *; intros; mlia).
    apply StronglySorted_app_2;
      [|eapply StronglySorted_impl_elem; [|by apply bfilter_sorted]..].
    + intros x y Hx Hy. pose proof (Hr x ltac:(auto)). pose proof (Hr y ltac:(auto)).
      apply elem_of_bfilter in Hx as [_ ?], Hy as [_ ?]. to_prop. apply Hord; tauto.
    + intros x y Hx Hy Hlt. pose proof (Hr x ltac:(auto)). pose proof (Hr y ltac:(auto)).
      apply elem_of_bfilter in Hx as [_ ?], Hy as [_ ?]. to_prop. apply Hord; tauto || lia.
    + intros x y Hx Hy Hlt. pose proof (Hr x ltac:(auto)). pose proof (Hr y ltac:(auto)).
      apply elem_of_bfilter in Hx as [_ ?], Hy as [_ ?]. to_prop. apply Hord; tauto || lia.
Qed.

(** The entry that may reach into the segment from below. *)
Definition preceding : list (Z * list byte) :=
  match cyc_last (wrap32 S0) m with
  | Some (start, data) => if seq.lt start (wrap32 S0) then [(start, data)] else []
  | None => []
  end.

Lemma elem_of_preceding k v : (k, v) ∈ preceding -> (k, v) ∈ m /\ apos R k < S0.
Proof.
  unfold preceding. destruct (cyc_last _ _) as [[k0 v0]|] eqn:E; [|by intros H%elem_of_nil].
  apply cyc_last_spec in E as [Hin _]; [|apply Hi|apply Hi|apply wrap32_range].
  pose proof (oo_entry_range _ _ Hin).
  rewrite (key_lt R) by (solve [eapply oo_keys; eauto] || lia).
  destruct (_ <? _) eqn:El; to_prop; [|by intros H'%elem_of_nil].
  intros [= -> ->]%list_elem_of_singleton. done.
Qed.

Lemma preceding_complete k v :
  (k, v) ∈ m -> apos R k < S0 -> (k, v) ∈ preceding \/ apos R k + zlen v <= S0.
Proof.
  intros Hin Hlt. unfold preceding.
  destruct (cyc_last _ _) as [[k0 v0]|] eqn:E; cycle 1.
  { apply cyc_last_None in E. rewrite E in Hin. by apply elem_of_nil in Hin. }
  apply cyc_last_spec in E as [Hin0 Hmin]; [|apply Hi|apply Hi|apply wrap32_range].
  specialize (Hmin _ _ Hin). pose proof (oo_entry_range _ _ Hin0).
  pose proof (oo_entry_range _ _ Hin).
  assert (apos R k <= apos R k0 < S0) as Hle.
  { clear -Hmin Hlt HS HE H H0 Hsp. unfold apos, wrap32 in *. mlia. }
  rewrite (key_lt R) by (solve [eapply oo_keys; eauto] || lia).
  rewrite (proj2 (Z.ltb_lt _ _)) by lia.
  destruct (decide (apos R k = apos R k0)) as [He|].
  - destruct (oo_inv_apos_inj _ _ _ _ _ _ _ _ Hi Hin Hin0 He) as [-> ->]. left. left.
  - right. pose proof (oo_disjoint _ _ _ _ Hi _ _ _ _ Hin Hin0). lia.
Qed.

Lemma preceding_single : preceding = [] \/ exists e, preceding = [e].
Proof. unfold preceding. destruct (cyc_last _ _) as [[? ?]|]; [case_bool|]; eauto. Qed.

Lemma visited_sorted :
  StronglySorted (fun a b => apos R a.1 < apos R b.1) (preceding ++ inside).
Proof.
  apply StronglySorted_app_2; [| |apply inside_sorted].
  - intros [k v] [k' v'] [_ ?]%elem_of_preceding [_ ?]%elem_of_inside. simpl. lia.
  - destruct preceding_single as [->|[e ->]]; repeat constructor.
Qed.

(** Entries the iteration does not visit do not meet the segment. *)
Lemma visited_complete k v :
  (k, v) ∈ m ->
  (k, v) ∈ preceding ++ inside \/ apos R k + zlen v <= S0 \/ E0 <= apos R k.
Proof.
  intros Hin. destruct (decide (E0 <= apos R k)); [auto|].
  rewrite elem_of_app, elem_of_inside.
  destruct (decide (S0 <= apos R k)); [left; right; split; [done|lia]|].
  destruct (preceding_complete k v Hin); [lia|auto|auto].
Qed.

(** *** The gap scan *)

(** Gaps in absolute positions: ascending, non-empty, clear of every stored entry. *)
Record gaps_ok (C : Z) (ags : list (Z * Z)) : Prop := {
  gaps_each : forall c l, (c, l) ∈ ags -> S0 <= c /\ 0 < l /\ c + l <= C /\ free R m c l;
  gaps_sorted : StronglySorted (fun a b => a.1 + a.2 <= b.1) ags
}.

Definition wire_gaps (ags : list (Z * Z)) : list (Z * Z) := map (fun g => (wrap32 g.1, g.2)) ags.

Lemma zlen_wire_gaps ags : zlen (wire_gaps ags) = zlen ags.
Proof. unfold zlen, wire_gaps. by rewrite length_map. Qed.

Lemma gaps_ok_snoc C ags l :
  gaps_ok C ags -> S0 <= C -> 0 < l -> free R m C l -> gaps_ok (C + l) (ags ++ [(C, l)]).
Proof.
  intros [He Hs] HC Hl Hf. split.
  - intros c l' [Hin|[= -> ->]%list_elem_of_singleton]%elem_of_app; [|auto with lia].
    apply He in Hin as (?&?&?&?). split_and!; auto; lia.
  - apply StronglySorted_app_2; [|done|repeat constructor].
    intros [c l1] [c2 l2] Hin [= -> ->]%list_elem_of_singleton. simpl.
    apply He in Hin. lia.
Qed.

Lemma gaps_ok_weaken C C' ags : gaps_ok C ags -> C <= C' -> gaps_ok C' ags.
Proof.
  intros [He Hs] Hle. split; [|done]. intros c l Hin. apply He in Hin as (?&?&?&?).
  split_and!; auto; lia.
Qed.

(** Position [x] is stored already or lies in one of the gaps. *)
Definition covered (ags : list (Z * Z)) (x : Z) : Prop :=
  (exists k v, (k, v) ∈ m /\ apos R k <= x < apos R k + zlen v) \/
  (exists c l, (c, l) ∈ ags /\ c <= x < c + l).

Lemma covered_app ags ags' x : covered ags x -> covered (ags ++ ags') x.
Proof.
  intros [?|(c & l & Hin & ?)]; [by left|]. right. exists c, l. rewrite elem_of_app. auto.
Qed.

(** What the scan establishes when it stops at position [C]. *)
Definition scan_done (slots C : Z) (ags : list (Z * Z)) : Prop :=
  S0 <= C <= R + sp /\ gaps_ok E0 ags /\ zlen ags <= slots /\
  (zlen ags = slots \/
   (forall x, S0 <= x < Z.min C E0 -> covered ags x) /\
   (E0 <= C \/ (gaps_ok C ags /\
     forall k v, (k, v) ∈ m -> apos R k + zlen v <= C \/ E0 <= apos R k))).

(** One turn of the scan in absolute positions. *)
Lemma store_gaps_cons slots start data it C ags :
  (start, data) ∈ m -> S0 <= C < E0 ->
  store_gaps ((start, data) :: it) slots (wrap32 E0) (wrap32 C) (wire_gaps ags) =
  (let gap := C <? apos R start in
   let ags := if gap then ags ++ [(C, apos R start - C)] else ags in
   if gap && (zlen ags =? slots) then (wrap32 C, wire_gaps ags)
   else
     let C := Z.max C (apos R start + zlen data) in
     if E0 <=? C then (wrap32 C, wire_gaps ags)
     else store_gaps it slots (wrap32 E0) (wrap32 C) (wire_gaps ags)).
Proof.
  intros Hin HC. pose proof (oo_entry_range _ _ Hin) as (HK & Hd & HKe).
  assert (start = wrap32 (apos R start)) as Hw
    by (symmetry; apply wrap_apos; eapply oo_keys; eauto).
  cbn [store_gaps]. unfold seq.gt.
  assert (seq.lt (wrap32 C) start = (C <? apos R start)) as ->
    by (rewrite Hw, seq_lt_abs, <- Hw by lia; done).
  assert (seq.max (wrap32 C) (add32 start (wrap32 (zlen data))) =
    wrap32 (Z.max C (apos R start + zlen data))) as ->.
  { rewrite Hw at 1. rewrite add32_wrap2, seq_max_abs by lia. done. }
  rewrite seq_geq_abs by lia. destruct (C <? apos R start) eqn:Hgap; to_prop; cbn [andb]; [|done].
  assert (sub32 start (wrap32 C) = apos R start - C) as ->
    by (rewrite Hw at 1; rewrite sub32_wrap; apply Z.mod_small; lia).
  replace (wire_gaps ags ++ [(wrap32 C, apos R start - C)]) with
    (wire_gaps (ags ++ [(C, apos R start - C)])) by (unfold wire_gaps; by rewrite map_app).
  by rewrite zlen_wire_gaps.
Qed.

(** The state of the scan at position [C] with the entries [it] to come. *)
Record scanning (it : list (Z * list byte)) (C : Z) (ags : list (Z * Z)) : Prop := {
  sc_sorted : StronglySorted (fun a b => apos R a.1 < apos R b.1) it;
  sc_sub : forall e, e ∈ it -> e ∈ m /\ apos R e.1 < E0;
  sc_comp : forall k v, (k, v) ∈ m -> (k, v) ∈ it \/ apos R k + zlen v <= C \/ E0 <= apos R k;
  sc_gaps : gaps_ok C ags;
  sc_cov : forall x, S0 <= x < C -> covered ags x
}.

(** A gap in front of the next entry. *)
Lemma scanning_gap start data it C ags :
  scanning ((start, data) :: it) C ags -> S0 <= C < apos R start ->
  scanning ((start, data) :: it) (apos R start) (ags ++ [(C, apos R start - C)]).
Proof.
  intros [Hs Hsub Hcomp Hg Hcov] HC. split; [done|done| | |].
  - intros k v Hin. destruct (Hcomp k v Hin) as [?|[?|?]]; [auto|right; left; lia|auto].
  - eapply gaps_ok_weaken; [apply gaps_ok_snoc; eauto; try lia|lia].
    intros k v Hin. destruct (Hcomp k v Hin) as [Hc|[?|?]]; [|lia|].
    + apply elem_of_cons in Hc as [[= -> ->]|Hc]; [lia|].
      apply StronglySorted_inv in Hs as [_ Hhd]. rewrite Forall_forall in Hhd.
      apply Hhd in Hc. simpl in Hc. lia.
    + destruct (Hsub (start, data)) as [_ Hlt]; [left|]. simpl in Hlt. lia.
  - intros x Hx. destruct (decide (x < C)); [apply covered_app, Hcov; lia|].
    right. exists C, (apos R start - C). rewrite elem_of_app, list_elem_of_singleton.
    split; [auto|lia].
Qed.

(** Past an entry that starts at or below the position. *)
Lemma scanning_next start data it C ags :
  scanning ((start, data) :: it) C ags -> apos R start <= C ->
  scanning it (Z.max C (apos R start + zlen data)) ags.
Proof.
  intros [Hs Hsub Hcomp Hg Hcov] HC. apply StronglySorted_inv in Hs as [Hs _]. split; [done| | | |].
  - intros e He. apply Hsub. by right.
  - intros k v Hin. destruct (Hcomp k v Hin) as [Hc|[?|?]]; [|right; left; lia|auto].
    apply elem_of_cons in Hc as [[= -> ->]|Hc]; [right; left; lia|auto].
  - eapply gaps_ok_weaken; eauto; lia.
  - intros x Hx. destruct (decide (x < C)); [apply Hcov; lia|]. left. exists start, data.
    split; [apply (Hsub (start, data)); left|lia].
Qed.

Lemma store_gaps_spec slots it : forall C ags,
  0 < slots -> scanning it C ags -> S0 <= C < E0 -> zlen ags < slots ->
  exists C' ags',
    store_gaps it slots (wrap32 E0) (wrap32 C) (wire_gaps ags) = (wrap32 C', wire_gaps ags') /\
    scan_done slots C' ags'.
Proof.
  induction it as [|[start data] it IH]; intros C ags Hslots Hsc HC Hn.
  - destruct Hsc as [_ _ Hcomp Hg Hcov]. exists C, ags. cbn [store_gaps]. split; [done|].
    split_and!; try lia; [eapply gaps_ok_weaken; eauto; lia|].
    right. split; [intros; apply Hcov; lia|]. right. split; [done|]. intros k v Hin.
    destruct (Hcomp k v Hin) as [[]%elem_of_nil|?]; done.
  - destruct (sc_sub _ _ _ Hsc (start, data)) as [Hin Hlt]; [left|]. simpl in Hlt.
    pose proof (oo_entry_range _ _ Hin) as (HK & Hd & HKe). rewrite store_gaps_cons by done.
    cbv zeta. set (ags1 := if C <? apos R start then _ else ags).
    assert (scanning ((start, data) :: it) (Z.max C (apos R start)) ags1 /\
            zlen ags1 <= zlen ags + 1 /\ (apos R start <= C -> zlen ags1 < slots)) as (Hsc1 & Hn1 & Hn2).
    { subst ags1. destruct (C <? apos R start) eqn:E; to_prop.
      - rewrite Z.max_r, zlen_app, zlen_cons, zlen_nil by lia.
        split; [apply scanning_gap; [done|lia]|lia].
      - rewrite Z.max_l by lia. split; [done|lia]. }
    assert (gaps_ok E0 ags1) as Hg1 by (eapply gaps_ok_weaken; [apply Hsc1|lia]).
    destruct ((C <? apos R start) && _) eqn:Hfull; to_prop.
    + exists C, ags1. split; [done|]. split_and!; [lia|lia|done|lia|by left].
    + apply andb_false_iff in Hfull. rewrite Z.ltb_ge, Z.eqb_neq in Hfull.
      apply scanning_next in Hsc1; [|lia]. set (C1 := Z.max C (apos R start + zlen data)).
      replace (Z.max (Z.max _ _) _) with C1 in Hsc1 by lia.
      destruct (E0 <=? C1) eqn:El; to_prop; [|apply IH; auto; lia].
      exists C1, ags1. split; [done|]. split_and!; [lia|lia|done|lia|].
      right. split; [intros; apply Hsc1; lia|by left].
Qed.

Lemma gaps_ok_nil C : gaps_ok C [].
Proof. split; [|constructor]. intros ?? H. by apply elem_of_nil in H. Qed.

(** The whole scan, the final gap included. *)
Lemma store_scan_spec slots :
  0 < slots ->
  exists ags,
    (let '(cursor, gaps) :=
       store_gaps (preceding ++ inside) slots (wrap32 E0) (wrap32 S0) [] in
     if (zlen gaps <? slots) && seq.lt cursor (wrap32 E0)
     then gaps ++ [(cursor, sub32 (wrap32 E0) cursor)] else gaps) = wire_gaps ags /\
    gaps_ok E0 ags /\ zlen ags <= slots /\
    (zlen ags = slots \/ forall x, S0 <= x < E0 -> covered ags x).
Proof.
  intros Hslots.
  destruct (store_gaps_spec slots (preceding ++ inside) S0 []) as (C & ags & Hrun & HC & Hg & Hn & Hd).
  - done.
  - split; [apply visited_sorted| |apply visited_complete|apply gaps_ok_nil|lia].
    intros [k v] [[? ?]%elem_of_preceding|[? ?]%elem_of_inside]%elem_of_app; simpl; split; auto; lia.
  - lia.
  - done.
  - change (wire_gaps []) with (@nil (Z * Z)) in Hrun. rewrite Hrun, zlen_wire_gaps.
    rewrite seq_lt_abs by lia. destruct ((zlen ags <? slots) && (C <? E0)) eqn:E; to_prop.
    + destruct Hd as [?|[Hcov [?|[Hg' Hall]]]]; [lia..|].
      exists (ags ++ [(C, E0 - C)]).
      split_and!.
      * rewrite sub32_wrap. unfold wire_gaps. rewrite map_app. simpl. do 3 f_equal.
        apply Z.mod_small. lia.
      * replace E0 with (C + (E0 - C)) at 1 by lia. apply gaps_ok_snoc; auto; try lia.
        intros k v Hin. destruct (Hall k v Hin); lia.
      * rewrite zlen_app, zlen_cons, zlen_nil. lia.
      * right. intros x Hx. destruct (decide (x < C)); [apply covered_app, Hcov; lia|].
        right. exists C, (E0 - C). rewrite elem_of_app, list_elem_of_singleton. split; [auto|lia].
    + exists ags. split_and!; try done. apply andb_false_iff in E.
      destruct Hd as [?|[Hcov H']]; [auto|]. destruct E; to_prop; [left; lia|].
      right. intros x Hx. apply Hcov. lia.
Qed.
End store.

(** *** Inserting the gaps *)

(** [rx'] is [rx] with more bytes stored out of order, all of them after position [S0]. *)
Record stores (P : Z -> byte -> Prop) (R S0 : Z) (rx rx' : RxState) : Prop := {
  st_core : rx_core P R rx';
  st_nxt : rcv_nxt rx' = rcv_nxt rx;
  st_window : rx_window rx' = rx_window rx;
  st_last : last_ack_window rx' = last_ack_window rx;
  st_buf : read_buf rx' = read_buf rx;
  st_fin : peer_fin_seq rx' = peer_fin_seq rx;
  st_eof : rx_eof rx' = rx_eof rx;
  st_keep : forall e, e ∈ oo rx -> e ∈ oo rx';
  st_new : forall k v, (k, v) ∈ oo rx' -> (k, v) ∈ oo rx \/ S0 <= apos R k
}.

Lemma stores_refl P R S0 rx : rx_core P R rx -> stores P R S0 rx rx.
Proof. intros H. split; auto. Qed.

Lemma stores_trans P R S0 a b c : stores P R S0 a b -> stores P R S0 b c -> stores P R S0 a c.
Proof.
  intros [] []. split; try congruence; try done; [naive_solver|].
  intros k v [H|H]%st_new1; [|auto]. by apply st_new0 in H.
Qed.

Lemma stores_ahead P R S0 rx rx' :
  stores P R S0 rx rx' -> R < S0 -> oo_ahead R (oo rx) -> oo_ahead R (oo rx').
Proof. intros Hst HS Ha k v [H|H]%(st_new _ _ _ _ _ Hst); [by eapply Ha|lia]. Qed.

Section insert.
Context (P : Z -> byte -> Prop) (R S0 : Z) (payload : list byte).
Hypothesis Hpayload : holds P S0 payload.
Hypothesis HS : R < S0.

Lemma insert_gap rx c l :
  rx_core P R rx -> zlen (oo rx) < MAX_REORDERED_SEGMENTS ->
  S0 <= c -> 0 < l -> c + l <= S0 + zlen payload ->
  S0 + zlen payload <= R + (rx_window rx - zlen (read_buf rx)) -> free R (oo rx) c l ->
  exists data, slice payload (sub32 (wrap32 c) (wrap32 S0)) (sub32 (wrap32 c) (wrap32 S0) + l)
      = Some data /\ zlen data = l /\
    stores P R S0 rx (rx <| oo := bt_insert (wrap32 c) data (oo rx) |>
                         <| oo_bytes := wrap64 (oo_bytes rx + l) |>) /\
    bt_insert (wrap32 c) data (oo rx) ≡ₚ (wrap32 c, data) :: oo rx /\ apos R (wrap32 c) = c.
Proof.
  intros Hc Hslots Hc0 Hl Hend Hroom Hfree.
  pose proof (rx_oo _ _ _ Hc) as Hi. pose proof (rx_win _ _ _ Hc). unfold MAX_INFLIGHT_BYTES in *.
  pose proof (zlen_nonneg (read_buf rx)). pose proof (zlen_nonneg payload).
  rewrite sub32_wrap, (wrap32_id (c - S0)) by (unfold is_u32; lia).
  destruct (slice payload (c - S0) (c - S0 + l)) as [data|] eqn:E; cycle 1.
  { rewrite slice_Some in E by lia. done. }
  pose proof (slice_length _ _ _ _ E) as Hdl. replace (c - S0 + l - (c - S0)) with l in Hdl by lia.
  pose proof (holds_slice _ _ _ _ _ _ Hpayload E) as Hh.
  replace (S0 + (c - S0)) with c in Hh by lia.
  assert (data <> []) as Hne by (apply zlen_pos_inv; lia). rewrite <- Hdl in Hfree.
  assert (oo_inv P R (rx_window rx - zlen (read_buf rx)) (bt_insert (wrap32 c) data (oo rx))) as Hi'
    by (apply oo_inv_insert; auto; lia).
  assert (forall v', (wrap32 c, v') ∉ oo rx) as Hfresh
    by (eapply free_fresh; [exact Hi|lia|done|done]).
  pose proof (bt_insert_perm (wrap32 c) data _ Hfresh) as Hperm.
  pose proof (length_bt_insert (wrap32 c) data (oo rx)) as Hlen.
  exists data. split_and!; [done|done| |done|apply apos_wrap; lia].
  split; cbn; try done.
  - split; cbn; try apply Hc; [done| |unfold zlen in *; lia].
    pose proof (oo_bytes_bound _ _ _ _ Hi' ltac:(lia)) as Hb.
    rewrite (bt_bytes_perm _ _ Hperm), bt_bytes_cons in Hb |- *.
    pose proof (bt_bytes_nonneg (oo rx)). rewrite (rx_bytes _ _ _ Hc).
    unfold wrap64. rewrite Z.mod_small by lia. lia.
  - intros e He. rewrite Hperm. by right.
  - intros k v Hin. rewrite Hperm in Hin. apply elem_of_cons in Hin as [[= -> ->]|Hin]; [|auto].
    right. rewrite apos_wrap by lia. lia.
Qed.

Lemma insert_gaps_spec ags : forall rx,
  rx_core P R rx -> zlen (oo rx) + zlen ags <= MAX_REORDERED_SEGMENTS ->
  S0 + zlen payload <= R + (rx_window rx - zlen (read_buf rx)) ->
  gaps_ok R (oo rx) S0 (S0 + zlen payload) ags ->
  exists rx', insert_gaps (wrap32 S0) payload (wire_gaps ags) rx = Some rx' /\
    stores P R S0 rx rx' /\ zlen (oo rx') = zlen (oo rx) + zlen ags /\
    (forall c l x, (c, l) ∈ ags -> c <= x < c + l ->
      exists k v, (k, v) ∈ oo rx' /\ apos R k <= x < apos R k + zlen v).
Proof.
  induction ags as [|[c l] ags IH]; intros rx Hc Hslots Hroom [He Hs].
  - exists rx. split_and!; [done|by apply stores_refl|rewrite zlen_nil; lia|]. intros ??? H. by apply elem_of_nil in H.
  - apply StronglySorted_inv in Hs as [Hs Hhd]. rewrite Forall_forall in Hhd.
    destruct (He c l) as (Hc0 & Hl & Hend & Hfree); [left|]. rewrite zlen_cons in Hslots.
    pose proof (zlen_nonneg ags).
    destruct (insert_gap rx c l Hc ltac:(lia) Hc0 Hl Hend Hroom Hfree)
      as (data & Hsl & Hdl & Hst & Hperm & Hpos).
    cbn [wire_gaps map insert_gaps fst snd]. rewrite Hsl. cbn [mbind option_bind].
    edestruct (IH _ (st_core _ _ _ _ _ Hst)) as (rx' & Hrun & Hst' & Hlen & Hcov).
    + cbn. apply Permutation_length in Hperm. simpl in Hperm. unfold zlen in *. lia.
    + cbn. done.
    + split; [|done]. cbn. intros c' l' Hin.
      destruct (He c' l') as (?&?&?&Hf'); [by right|]. split_and!; try done.
      apply Hhd in Hin. simpl in Hin. intros k v Hkv. rewrite Hperm in Hkv.
      apply elem_of_cons in Hkv as [[= -> ->]|Hkv]; [|by apply Hf'].
      left. lia.
    + exists rx'. split_and!; [exact Hrun|by eapply stores_trans| |].
      { cbn in Hlen. apply Permutation_length in Hperm. simpl in Hperm. rewrite zlen_cons.
        unfold zlen in *. lia. }
      intros c' l' x [[= -> ->]|Hin]%elem_of_cons Hx; [|by eapply Hcov].
      exists (wrap32 c), data. split; [|lia]. apply (st_keep _ _ _ _ _ Hst'). cbn.
      rewrite Hperm. left.
Qed.
End insert.

(** [store_oo] keeps the invariant and everything stored before; unless the table of entries
    is full, every byte of the segment is stored afterwards. *)
Lemma store_oo_spec P R S0 payload rx :
  rx_core P R rx -> R < S0 -> payload <> [] -> holds P S0 payload ->
  S0 + zlen payload <= R + (rx_window rx - zlen (read_buf rx)) ->
  exists rx', store_oo rx (wrap32 S0) payload = Some rx' /\ stores P R S0 rx rx' /\
    (zlen (oo rx') < MAX_REORDERED_SEGMENTS ->
      forall x, S0 <= x < S0 + zlen payload ->
      exists k v, (k, v) ∈ oo rx' /\ apos R k <= x < apos R k + zlen v).
Proof.
  intros Hc HS Hne Hh Hroom. apply zlen_pos in Hne as Hpos.
  pose proof (rx_oo _ _ _ Hc) as Hi. pose proof (rx_win _ _ _ Hc). unfold MAX_INFLIGHT_BYTES in *.
  pose proof (zlen_nonneg (read_buf rx)). pose proof (rx_slots _ _ _ Hc).
  pose proof (zlen_nonneg (oo rx)).
  unfold store_oo. unfold sat_sub. rewrite Z.max_r by lia.
  destruct (_ =? 0) eqn:Hz; to_prop.
  { exists rx. split_and!; [done|by apply stores_refl|]. lia. }
  rewrite add32_wrap2.
  fold (preceding (oo rx) S0). fold (inside (oo rx) S0 (S0 + zlen payload)).
  destruct (store_scan_spec P R _ _ Hi ltac:(lia) S0 (S0 + zlen payload) HS ltac:(lia)
    (MAX_REORDERED_SEGMENTS - zlen (oo rx)) ltac:(lia)) as (ags & Hscan & Hg & Hn & Hcov).
  destruct (store_gaps _ _ _ _ _) as [cursor gaps]. rewrite Hscan.
  destruct (insert_gaps_spec P R S0 payload Hh HS ags rx Hc ltac:(lia) Hroom Hg)
    as (rx' & Hrun & Hst & Hlen & Hins).
  exists rx'. split_and!; [done|done|]. intros Hlt x Hx.
  destruct Hcov as [?|Hcov]; [lia|]. destruct (Hcov x Hx) as [(k & v & Hin & ?)|(c & l & Hin & ?)].
  - exists k, v. split; [|done]. by apply (st_keep _ _ _ _ _ Hst).
  - by eapply Hins.
Qed.

(** ** One received segment or FIN *)

(** [rx'] follows [rx] by delivering the bytes [new] and, possibly, the FIN after them. *)
Record rx_step (P : Z -> byte -> Prop) (R : Z) (rx : RxState) (R' : Z) (rx' : RxState)
    (new : list byte) : Prop := {
  rs_inv : rx_inv P R' rx';
  rs_buf : read_buf rx' = read_buf rx ++ new;
  rs_holds : holds P R new;
  rs_window : rx_window rx' = rx_window rx;
  rs_last : last_ack_window rx' = last_ack_window rx;
  rs_fin : peer_fin_seq rx' = peer_fin_seq rx;
  rs_pos : (R' = R + zlen new /\ rx_eof rx' = rx_eof rx) \/
    (R' = R + zlen new + 1 /\ rx_eof rx = false /\ rx_eof rx' = true /\
     peer_fin_seq rx = Some (wrap32 (R + zlen new)))
}.

Lemma rx_step_refl P R rx : rx_inv P R rx -> rx_step P R rx R rx [].
Proof.
  intros H. split; rewrite ?app_nil_r, ?zlen_nil; auto using holds_nil. left. split; [lia|done].
Qed.

(** Consuming the FIN: one position further, nothing delivered. *)
Lemma try_consume_fin_step P R rx :
  rx_core P R rx -> (rx_eof rx = false -> oo_ahead R (oo rx)) ->
  exists R', rx_step P R rx R' (try_consume_fin rx) [].
Proof.
  intros Hc Ha. unfold try_consume_fin.
  destruct (peer_fin_seq rx) as [fin|] eqn:Ef; [|exists R; by apply rx_step_refl].
  destruct (_ && _) eqn:E; [|exists R; by apply rx_step_refl]. to_prop.
  exists (R + 1). specialize (Ha H). pose proof (rx_oo _ _ _ Hc) as Hi.
  split; cbn; rewrite ?app_nil_r, ?zlen_nil; auto using holds_nil.
  - split; [|done]. split; cbn; try apply Hc.
    + rewrite (rx_nxt _ _ _ Hc), add32_wrap. done.
    + apply (oo_inv_grow _ _ (rx_window rx - zlen (read_buf rx) - (R + 1 - R))); [|lia].
      apply oo_inv_advance; [done|lia|]. intros k v Hin. apply Ha in Hin. lia.
  - right. split_and!; auto; [lia|]. rewrite Ef, <- H0, (rx_nxt _ _ _ Hc), Z.add_0_r. done.
Qed.

Lemma delivers_then_step P R rx R1 rx1 n1 R' rx' :
  delivers P R rx R1 rx1 n1 -> rx_step P R1 rx1 R' rx' [] -> rx_step P R rx R' rx' n1.
Proof.
  intros [? -> ? ? ? ? Hfin Heof ?] [? ? ? ? ? ? Hpos]. rewrite zlen_nil, app_nil_r in *.
  split; try congruence; try done.
  rewrite Heof, Hfin in *. destruct Hpos as [[? ?]|(?&?&?&?)].
  - left. split; [lia|done].
  - right. rewrite Z.add_0_r in *. auto.
Qed.

(** The segment after trimming what lies before [R]. *)
Lemma trim_duplicate_spec P R rx S0 payload :
  rx_core P R rx -> - M31 <= S0 - R < M31 -> zlen payload < M31 -> holds P S0 payload ->
  match trim_duplicate rx (wrap32 S0) payload with
  | None => S0 + zlen payload <= R
  | Some (s, p) =>
      s = wrap32 (Z.max S0 R) /\ holds P (Z.max S0 R) p /\
      Z.max S0 R + zlen p = S0 + zlen payload /\ (payload <> [] -> p <> [])
  end.
Proof.
  intros Hc HS Hlen Hh. unfold trim_duplicate. rewrite (rx_nxt _ _ _ Hc), seq_lt_abs by lia.
  destruct (S0 <? R) eqn:E; to_prop.
  - rewrite sub32_wrap, (wrap32_id (R - S0)) by (unfold is_u32; lia).
    destruct (zlen payload <=? R - S0) eqn:El; to_prop; [lia|].
    rewrite Z.max_r by lia. pose proof (zlen_zdrop (R - S0) payload ltac:(lia)) as Hl.
    split_and!; [done| |lia|intros _; apply zlen_pos_inv; lia].
    replace R with (S0 + (R - S0)) at 1 by lia. apply holds_zdrop; [lia|done].
  - rewrite Z.max_l by lia. auto.
Qed.

(** Processing any segment: total, invariant-preserving, and it delivers exactly the bytes of
    the stream that became contiguous. *)
Lemma accept_spec P R rx S0 payload :
  rx_inv P R rx -> - M31 <= S0 - R < M31 -> payload <> [] -> zlen payload < M31 ->
  holds P S0 payload ->
  exists R' rx' new adv,
    accept rx (wrap32 S0) payload = Some (rx', adv) /\ rx_step P R rx R' rx' new /\
    (S0 <= R < S0 + zlen payload -> zlen (read_buf rx) < rx_window rx -> adv = true /\
      Z.min (S0 + zlen payload) (R + (rx_window rx - zlen (read_buf rx))) <= R + zlen new) /\
    (adv = false -> new = [] /\ rx_eof rx' = rx_eof rx).
Proof.
  intros Hinv HS Hne Hlen Hh. pose proof Hinv as [Hc Ha].
  pose proof (rx_win _ _ _ Hc). unfold MAX_INFLIGHT_BYTES in *. pose proof (rx_buf _ _ _ Hc).
  pose proof (zlen_nonneg (read_buf rx)).
  pose proof (trim_duplicate_spec P R rx S0 payload Hc HS Hlen Hh) as Htrim.
  unfold accept. destruct (trim_duplicate _ _ _) as [[s p]|]; cycle 1.
  { exists R, rx, [], false. split_and!; [done|by apply rx_step_refl|lia|done]. }
  destruct Htrim as (-> & Hhp & Hend & Hpne). specialize (Hpne Hne). apply zlen_pos in Hpne.
  unfold sat_sub. rewrite (wrap32_id (zlen _)) by (unfold is_u32; lia). rewrite Z.max_r by lia.
  rewrite (rx_nxt _ _ _ Hc), sub32_wrap, (wrap32_id (Z.max S0 R - R)) by (unfold is_u32; lia).
  destruct (_ <=? _) eqn:Esp; to_prop.
  { exists R, rx, [], false. split_and!; [done|by apply rx_step_refl|lia|done]. }
  set (n := Z.min (zlen p) _). pose proof (zlen_ztake n p ltac:(lia)) as Hn.
  rewrite Z.min_l in Hn by lia.
  rewrite wrap32_eqb_abs by lia. destruct (_ =? R) eqn:Eq; to_prop.
  - rewrite Eq in *. rewrite add32_wrap2.
    destruct (accept_loop_spec P R (ztake n p) ltac:(by apply holds_ztake)
      (S (length (ztake n p))) R rx Hc) as (R1 & rx1 & n1 & Hrun & Hd & He & Ha1);
      [lia|lia|lia|unfold zlen; lia|].
    rewrite Hrun. cbn [mbind option_bind].
    destruct (try_consume_fin_step P R1 rx1) as [R' Hst]; [apply Hd|intros _; apply Ha1; lia|].
    exists R', (try_consume_fin rx1), n1, true. split_and!; [done|by eapply delivers_then_step| |done].
    intros Hcov Hspace. split; [done|]. pose proof (dl_pos _ _ _ _ _ _ Hd). lia.
  - destruct (store_oo_spec P R (Z.max S0 R) (ztake n p) rx Hc) as (rx' & Hrun & Hst & _);
      [lia|apply zlen_pos_inv; lia|by apply holds_ztake|lia|].
    rewrite Hrun. cbn [mbind option_bind]. exists R, rx', [], false.
    split_and!; [done| |lia|intros _; split; [done|apply Hst]].
    split; rewrite ?app_nil_r, ?zlen_nil; try apply Hst; auto using holds_nil.
    + split; [apply Hst|]. rewrite (st_eof _ _ _ _ _ Hst). intros He.
      eapply stores_ahead; eauto. lia.
    + left. split; [lia|apply Hst].
Qed.
