(* ===== verification/StreamRxRuns.v ===== *)
(** * Runs of a receiver

    The properties of the receive side over whole runs: in-order exact delivery from a peer that
    sends one stream, robustness against a peer that sends anything at all, progress, and the
    exactness of the selective acknowledgements. *)

From S2P Require Import Prelude BTree Seq StreamWire StreamRx StreamRxInv StreamRxAccept.

(** ** Runs of a receiver

    The peer's stream is the byte list [stream], its first byte at position [R0].  A run applies
    segments of that stream (in any order, duplicated, overlapping, cut anywhere), FINs at or
    after its end, and reads by the application.  [out] is what the application has read so far. *)

Section run.
Context (stream : list byte) (R0 : Z).

(** The position [rcv_nxt] stands for, from what has been delivered. *)
Definition rpos (rx : RxState) (out : list byte) : Z :=
  R0 + zlen out + zlen (read_buf rx) + (if rx_eof rx then 1 else 0).

(** [b] is byte [i] of the stream. *)
Definition genuine (i : Z) (b : byte) : Prop := R0 <= i /\ stream !! Z.to_nat (i - R0) = Some b.

Inductive rx_run_step : RxState * list byte -> RxState * list byte -> Prop :=
| run_data rx out S0 payload rx' adv :
    Z.abs (S0 - rpos rx out) < M31 -> payload <> [] -> zlen payload <= MSS ->
    holds genuine S0 payload ->
    accept rx (wrap32 S0) payload = Some (rx', adv) ->
    rx_run_step (rx, out) (rx', out)
| run_fin rx out Q :
    R0 + zlen stream <= Q -> Z.abs (Q - rpos rx out) < M31 ->
    rx_run_step (rx, out) (rx_on_fin rx (wrap32 Q), out)
| run_read rx out n :
    0 <= n -> rx_run_step (rx, out) ((rx_read n rx).2, out ++ (rx_read n rx).1).

(** What holds between operations. *)
Record run_inv (s : RxState * list byte) : Prop := {
  ri_inv : rx_inv genuine (rpos s.1 s.2) s.1;
  ri_genuine : holds genuine R0 (s.2 ++ read_buf s.1);
  ri_fin : forall fin, peer_fin_seq s.1 = Some fin -> rx_eof s.1 = false ->
    exists Q, fin = wrap32 Q /\ R0 + zlen stream <= Q < rpos s.1 s.2 + M31;
  ri_eof : rx_eof s.1 = true -> s.2 ++ read_buf s.1 = stream
}.

Lemma genuine_below i b : genuine i b -> i < R0 + zlen stream.
Proof. intros [Hi Hb]. apply lookup_lt_Some in Hb. unfold zlen. lia. Qed.

Lemma holds_genuine_prefix l : holds genuine R0 l -> l `prefix_of` stream.
Proof.
  intros H. exists (drop (length l) stream).
  rewrite <- (take_drop (length l) stream) at 1. f_equal.
  apply list_eq. intros i. destruct (decide (i < length l)%nat).
  - rewrite lookup_take_lt by lia.
    destruct (lookup_lt_is_Some_2 l i ltac:(lia)) as [b Hb]. rewrite Hb.
    apply H in Hb as [_ Hb]. rewrite <- Hb. f_equal. lia.
  - rewrite lookup_take_ge, lookup_ge_None_2 by lia. done.
Qed.

Lemma prefix_zlen_eq (l k : list byte) : l `prefix_of` k -> zlen k <= zlen l -> l = k.
Proof.
  intros [t ->] H. rewrite zlen_app in H. destruct t as [|b t]; [by rewrite app_nil_r|].
  rewrite zlen_cons in H. pose proof (zlen_nonneg t). lia.
Qed.

(** The facts about positions that one delivery step preserves. *)
Lemma run_inv_deliver rx out R' rx' new :
  run_inv (rx, out) -> rx_step genuine (rpos rx out) rx R' rx' new -> run_inv (rx', out).
Proof.
  intros [[Hc Ha] Hg Hf He] Hst. simpl in *. pose proof (zlen_nonneg new).
  pose proof (rx_win _ _ _ (proj1 (rs_inv _ _ _ _ _ _ Hst))) as Hw.
  pose proof (rx_buf _ _ _ (proj1 (rs_inv _ _ _ _ _ _ Hst))) as Hb.
  unfold MAX_INFLIGHT_BYTES in *. rewrite (rs_buf _ _ _ _ _ _ Hst), zlen_app in Hb.
  pose proof (zlen_nonneg (read_buf rx)).
  assert (rx_eof rx = true -> new = []) as Hnil.
  { intros E. destruct new as [|b new]; [done|].
    pose proof (rs_holds _ _ _ _ _ _ Hst 0%nat b eq_refl) as Hgen%genuine_below.
    specialize (He E). apply (f_equal zlen) in He. rewrite zlen_app in He.
    unfold rpos in Hgen. rewrite E in Hgen. lia. }
  assert (rpos rx' out = R') as HR.
  { unfold rpos. rewrite (rs_buf _ _ _ _ _ _ Hst), zlen_app.
    destruct (rs_pos _ _ _ _ _ _ Hst) as [[-> ->]|(-> & E & -> & _)]; unfold rpos; [|rewrite E]; lia. }
  assert (holds genuine R0 (out ++ read_buf rx')) as Hg'.
  { rewrite (rs_buf _ _ _ _ _ _ Hst), (assoc_L (++)). apply holds_app. split; [done|].
    destruct (rx_eof rx) eqn:E; [rewrite Hnil by done; apply holds_nil|].
    pose proof (rs_holds _ _ _ _ _ _ Hst) as Hn. unfold rpos in Hn. rewrite E in Hn.
    rewrite zlen_app. replace (R0 + (zlen out + _)) with (R0 + zlen out + zlen (read_buf rx) + 0)
      by lia. done. }
  assert (zlen (out ++ read_buf rx') <= zlen stream) as Hlen.
  { pose proof (holds_genuine_prefix _ Hg') as [t Ht]. rewrite Ht, (zlen_app _ t).
    pose proof (zlen_nonneg t). lia. }
  rewrite (rs_buf _ _ _ _ _ _ Hst), !zlen_app in Hlen.
  split; simpl; [rewrite HR; apply Hst|done| |].
  - intros fin Hfin E'. rewrite (rs_fin _ _ _ _ _ _ Hst) in Hfin.
    destruct (rs_pos _ _ _ _ _ _ Hst) as [[HR' Ee]|(_&_&?&_)]; [|congruence].
    rewrite Ee in E'. destruct (Hf _ Hfin E') as (Q & -> & HQ). exists Q. split; [done|]. lia.
  - intros E'. destruct (rs_pos _ _ _ _ _ _ Hst) as [[HR' Ee]|(HR' & E & _ & Hfin)].
    + rewrite (rs_buf _ _ _ _ _ _ Hst), Hnil, app_nil_r by congruence. apply He. congruence.
    + apply prefix_zlen_eq; [by apply holds_genuine_prefix|].
      destruct (Hf _ Hfin E) as (Q & Hw' & HQ). unfold rpos in *. rewrite E in *.
      apply wrap32_inj_abs in Hw'; [|lia].
      rewrite (rs_buf _ _ _ _ _ _ Hst), !zlen_app. lia.
Qed.

Lemma run_inv_fin rx out Q :
  run_inv (rx, out) -> R0 + zlen stream <= Q -> Z.abs (Q - rpos rx out) < M31 ->
  run_inv (rx_on_fin rx (wrap32 Q), out).
Proof.
  intros [[Hc Ha] Hg Hf He] HQ HF. simpl in *.
  set (rx1 := rx <| peer_fin_seq := Some (wrap32 Q) |>).
  assert (run_inv (rx1, out)) as Hinv.
  { split; simpl; [|done| |done].
    - split; [|exact Ha]. destruct Hc. split; done.
    - intros fin [= <-] E. exists Q. split; [done|].
      change (rpos rx1 out) with (rpos rx out). lia. }
  destruct (try_consume_fin_step genuine (rpos rx1 out) rx1) as [R' Hst];
    [apply Hinv|apply Hinv|].
  by eapply run_inv_deliver.
Qed.

Lemma run_inv_read rx out n :
  run_inv (rx, out) -> 0 <= n -> run_inv ((rx_read n rx).2, out ++ (rx_read n rx).1).
Proof.
  intros [[Hc Ha] Hg Hf He] Hn. unfold rx_read. simpl in *.
  set (m := Z.min n (zlen (read_buf rx))). pose proof (zlen_nonneg (read_buf rx)).
  assert (ztake m (read_buf rx) ++ zdrop m (read_buf rx) = read_buf rx) as Happ
    by (unfold ztake, zdrop; apply take_drop).
  pose proof (zlen_zdrop m (read_buf rx) ltac:(lia)) as Hl1.
  pose proof (zlen_ztake m (read_buf rx) ltac:(lia)) as Hl2.
  set (rx1 := rx <| read_buf := zdrop m (read_buf rx) |>).
  assert (rpos rx1 (out ++ ztake m (read_buf rx)) = rpos rx out) as HR.
  { unfold rpos, rx1; cbn. rewrite zlen_app. lia. }
  split; simpl.
  - fold rx1. rewrite HR. split; [|exact Ha]. destruct Hc. split; cbn; try done; [lia|].
    eapply oo_inv_grow; [done|]. lia.
  - rewrite <- (assoc_L (++)), Happ. done.
  - intros fin Hfin E. fold rx1. rewrite HR. auto.
  - rewrite <- (assoc_L (++)), Happ. done.
Qed.

Lemma run_inv_step s s' : run_inv s -> rx_run_step s s' -> run_inv s'.
Proof.
  intros Hinv Hstep. destruct Hstep as [rx out S0 payload rx' adv Hd Hne Hl Hh Hrun|rx out Q HQ HF|rx out n Hn].
  - unfold MSS, MAX_CELL, DATA_OVERHEAD in *.
    destruct (accept_spec genuine _ rx S0 payload (ri_inv _ Hinv)) as (R' & rx1 & new & adv1 & Hrun' & Hst & _);
      simpl in *; try lia; [done|done|].
    rewrite Hrun in Hrun'. injection Hrun' as <- <-. by eapply run_inv_deliver.
  - by apply run_inv_fin.
  - by apply run_inv_read.
Qed.

(** A receiver as the handshake leaves it. *)
Definition rx_start (w : Z) : RxState := rx_new w <| rcv_nxt := wrap32 R0 |>.

Lemma run_inv_start w : 0 <= w -> run_inv (rx_start w, []).
Proof.
  intros Hw. split; simpl; [|apply holds_nil|done|done].
  unfold rpos; simpl. rewrite zlen_nil, !Z.add_0_r. split.
  - split; simpl; try done; [unfold MAX_INFLIGHT_BYTES; lia|unfold zlen, MAX_INFLIGHT_BYTES; simpl; lia|].
    apply oo_inv_nil.
  - intros _ k v H. by apply elem_of_nil in H.
Qed.

Lemma run_inv_reach w s : 0 <= w -> rtc rx_run_step (rx_start w, []) s -> run_inv s.
Proof.
  intros Hw Hrun. pose proof (run_inv_start w Hw) as Hinv.
  induction Hrun; [done|]. apply IHHrun. by eapply run_inv_step.
Qed.
End run.

(** In-order exactly-once delivery.  Whatever order the segments of the peer's stream arrive
    in, however they overlap, repeat or are cut, and however reads interleave with them, the
    bytes handed to the application followed by those waiting to be read are a prefix of the
    peer's stream; and once the end of stream is reported they are all of it. *)
Theorem delivery_in_order (stream : list byte) (R0 w : Z) (rx : RxState) (out : list byte)
    (Hw : 0 <= w) (Hrun : rtc (rx_run_step stream R0) (rx_start R0 w, []) (rx, out)) :
  (out ++ read_buf rx) `prefix_of` stream /\
  (rx_eof rx = true -> out ++ read_buf rx = stream).
Proof.
  apply run_inv_reach in Hrun as [_ Hg _ He]; [|done].
  split; [by eapply holds_genuine_prefix|done].
Qed.

(** Segment "cd" first, then "ab" joined by a stale duplicate, then the FIN, over a counter
    about to wrap. *)
Lemma delivery_in_order_witness :
  let R0 := 4294967294 in
  let s := [x61; x62; x63; x64] in
  exists rx, rtc (rx_run_step s R0) (rx_start R0 100, []) (rx, s) /\
    rx_eof rx = true /\ (s ++ read_buf rx) `prefix_of` s.
Proof.
  intros R0 s.
  assert (exists rx, rtc (rx_run_step s R0) (rx_start R0 100, []) (rx, s) /\ rx_eof rx = true)
    as (rx & Hrun & He).
  { eexists. split.
    - eapply rtc_l.
      { eapply (run_data s R0 _ _ (R0 + 2) [x63; x64]);
          [vm_compute; reflexivity|done|vm_compute; congruence| |vm_compute; reflexivity].
        intros [|[|i]] b [= <-]; split; lia || reflexivity. }
      eapply rtc_l.
      { eapply (run_data s R0 _ _ R0 [x61; x62; x63]);
          [vm_compute; reflexivity|done|vm_compute; congruence| |vm_compute; reflexivity].
        intros [|[|[|i]]] b [= <-]; split; lia || reflexivity. }
      eapply rtc_l; [apply (run_fin s R0 _ _ (R0 + 4)); [vm_compute; congruence|vm_compute; reflexivity]|].
      eapply rtc_l; [apply (run_read s R0 _ _ 4); lia|]. vm_compute. apply rtc_refl.
    - reflexivity. }
  exists rx. split; [done|]. split; [done|].
  apply (delivery_in_order s R0 100 rx s); [lia|done].
Defined.

(** ** Any peer at all

    The same operations with nothing assumed of the peer: arbitrary sequence numbers, arbitrary
    bytes, FINs anywhere. *)

Inductive rx_any_step : RxState -> RxState -> Prop :=
| any_data rx s payload rx' adv :
    is_u32 s -> payload <> [] -> zlen payload <= MSS ->
    accept rx s payload = Some (rx', adv) -> rx_any_step rx rx'
| any_fin rx fin : is_u32 fin -> rx_any_step rx (rx_on_fin rx fin)
| any_read rx n : 0 <= n -> rx_any_step rx (rx_read n rx).2.

Definition anything (_ : Z) (_ : byte) : Prop := True.

(** The position of an arbitrary sequence number: the one nearest to [R]. *)
Lemma nearest_position R s :
  is_u32 s -> exists S0, wrap32 S0 = s /\ - M31 <= S0 - R < M31.
Proof.
  intros Hs. exists (R + as_i32 (sub32 s (wrap32 R))).
  unfold is_u32, as_i32, sub32, wrap32 in *. destruct (_ <? _) eqn:E; to_prop; mlia.
Qed.

Lemma holds_anything A l : holds anything A l.
Proof. intros i b _. exact I. Qed.

Lemma any_accept R rx s payload :
  rx_inv anything R rx -> is_u32 s -> payload <> [] -> zlen payload <= MSS ->
  exists R' rx' new adv, accept rx s payload = Some (rx', adv) /\
    rx_step anything R rx R' rx' new.
Proof.
  intros Hinv Hs Hne Hl. destruct (nearest_position R s Hs) as (S0 & <- & HS).
  unfold MSS, MAX_CELL, DATA_OVERHEAD in *.
  destruct (accept_spec anything R rx S0 payload Hinv HS Hne ltac:(lia) (holds_anything _ _))
    as (R' & rx' & new & adv & Hrun & Hst & _). eauto 10.
Qed.

Lemma any_step_inv R rx rx' :
  rx_inv anything R rx -> rx_any_step rx rx' ->
  exists R', rx_inv anything R' rx' /\ rx_window rx' = rx_window rx.
Proof.
  intros Hinv Hstep. destruct Hstep as [rx s payload rx' adv Hs Hne Hl Hrun|rx fin Hf|rx n Hn].
  - destruct (any_accept R rx s payload Hinv Hs Hne Hl) as (R' & rx1 & new & adv1 & Hrun' & Hst).
    rewrite Hrun in Hrun'. injection Hrun' as <- <-. exists R'. split; apply Hst.
  - destruct Hinv as [Hc Ha].
    destruct (try_consume_fin_step anything R (rx <| peer_fin_seq := Some fin |>)) as [R' Hst].
    + destruct Hc. split; done.
    + exact Ha.
    + exists R'. split; apply Hst.
  - destruct Hinv as [Hc Ha]. exists R. split; [|done]. split; [|exact Ha].
    pose proof (zlen_nonneg (read_buf rx)). destruct Hc. unfold rx_read; simpl.
    set (m := Z.min n (zlen (read_buf rx))).
    pose proof (zlen_zdrop m (read_buf rx) ltac:(lia)) as Hl1.
    split; cbn; try done; [lia|]. eapply oo_inv_grow; [done|]. lia.
Qed.

Lemma any_reach w R0 rx :
  0 <= w -> rtc rx_any_step (rx_start R0 w) rx ->
  exists R, rx_inv anything R rx /\ rx_window rx = Z.min w MAX_INFLIGHT_BYTES.
Proof.
  intros Hw Hrun.
  assert (exists R, rx_inv anything R (rx_start R0 w) /\
    rx_window (rx_start R0 w) = Z.min w MAX_INFLIGHT_BYTES) as H.
  { exists R0. split; [|done]. pose proof (ri_inv _ _ _ (run_inv_start [] R0 w Hw)) as Hi.
    unfold rpos in Hi; simpl in Hi. rewrite zlen_nil, !Z.add_0_r in Hi.
    destruct Hi as [[] Ha]. split; [|done]. split; try done. simpl. apply oo_inv_nil. }
  induction Hrun as [|rx1 rx2 rx3 Hs _ IH]; [done|]. apply IH. destruct H as (R & Hi & Hwin).
  destruct (any_step_inv R rx1 rx2 Hi Hs) as (R' & Hi' & ->). eauto.
Qed.

Lemma rx_core_usage P R rx :
  rx_core P R rx -> zlen (read_buf rx) + oo_bytes rx <= rx_window rx /\ 0 <= oo_bytes rx.
Proof.
  intros Hc. pose proof (rx_buf _ _ _ Hc). rewrite (rx_bytes _ _ _ Hc).
  pose proof (oo_bytes_bound _ _ _ _ (rx_oo _ _ _ Hc) ltac:(lia)).
  pose proof (bt_bytes_nonneg (oo rx)). lia.
Qed.

Lemma advertised_exact P R rx :
  rx_core P R rx -> advertised rx = rx_window rx - (zlen (read_buf rx) + oo_bytes rx).
Proof.
  intros Hc. pose proof (rx_core_usage _ _ _ Hc). pose proof (rx_win _ _ _ Hc).
  pose proof (zlen_nonneg (read_buf rx)). unfold MAX_INFLIGHT_BYTES in *.
  unfold advertised, wrap64. rewrite (Z.mod_small _ M64) by lia.
  rewrite wrap32_id by (unfold is_u32; lia). unfold sat_sub. lia.
Qed.



(** The receiver makes progress: with any free space, a segment that covers the next
    expected byte is accepted and advances the stream to the end of the segment or of the
    window, whichever comes first (further, when stored data follows). *)
Theorem receiver_progress (w R0 : Z) (rx : RxState) (payload : list byte) (Hw : 0 <= w)
    (Hrun : rtc rx_any_step (rx_start R0 w) rx) (Hne : payload <> [])
    (Hl : zlen payload <= MSS) (Hroom : zlen (read_buf rx) < rx_window rx) :
  exists rx', accept rx (rcv_nxt rx) payload = Some (rx', true) /\
    Z.min (zlen payload) (rx_window rx - zlen (read_buf rx)) <=
      zlen (read_buf rx') - zlen (read_buf rx).
Proof.
  destruct (any_reach w R0 rx Hw Hrun) as (R & Hi & _). pose proof Hi as [Hc _].
  unfold MSS, MAX_CELL, DATA_OVERHEAD in *.
  rewrite (rx_nxt _ _ _ Hc).
  destruct (accept_spec anything R rx R payload Hi ltac:(lia) Hne ltac:(lia) (holds_anything _ _))
    as (R' & rx' & new & adv & Hacc & Hst & Hprog & _).
  apply zlen_pos in Hne. destruct Hprog as [-> Hend]; [lia|done|].
  exists rx'. split; [done|]. rewrite (rs_buf _ _ _ _ _ _ Hst), zlen_app. lia.
Qed.

Lemma receiver_progress_witness :
  exists rx', accept (rx_start 5 100) 5 [x41; x42] = Some (rx', true) /\
    Z.min 2 100 <= zlen (read_buf rx') - 0.
Proof.
  apply (receiver_progress 100 5 (rx_start 5 100) [x41; x42]);
    [lia|apply rtc_refl|done|vm_compute; congruence|vm_compute; reflexivity].
Defined.

(** ** Selective acknowledgements *)

Section sack.
Context (R sp : Z).
Hypothesis Hsp : sp < M31.

Definition in_entries (it : list (Z * list byte)) (x : Z) : Prop :=
  exists k v, (k, v) ∈ it /\ apos R k <= x < apos R k + zlen v.

Definition in_blocks (bs : list (Z * Z)) (x : Z) : Prop := exists a b, (a, b) ∈ bs /\ a <= x < b.

(** Non-empty, ascending and separated by at least one missing byte. *)
Record blocks_ok (lo hi : Z) (bs : list (Z * Z)) : Prop := {
  blocks_each : forall a b, (a, b) ∈ bs -> lo <= a < b /\ b <= hi;
  blocks_sorted : StronglySorted (fun x y => x.2 < y.1) bs
}.

Definition wire_blocks (bs : list (Z * Z)) : list (Z * Z) :=
  map (fun b => (wrap32 b.1, wrap32 b.2)) bs.

Lemma in_blocks_snoc bs a b x : in_blocks (bs ++ [(a, b)]) x <-> in_blocks bs x \/ a <= x < b.
Proof.
  unfold in_blocks. setoid_rewrite elem_of_app. setoid_rewrite list_elem_of_singleton. split.
  - intros (a' & b' & [Hin|[= -> ->]] & Hx); eauto 10.
  - intros [(a' & b' & Hin & Hx)|Hx]; eauto 10.
Qed.

Lemma in_blocks_nil x : ~ in_blocks [] x.
Proof. intros (a & b & H & _). by apply elem_of_nil in H. Qed.

Lemma blocks_mono lo hi hi' bs : blocks_ok lo hi bs -> hi <= hi' -> blocks_ok lo hi' bs.
Proof. intros [He Hs] Hle. split; [|done]. intros a b H. apply He in H. lia. Qed.

Lemma blocks_snoc lo hi bs a b :
  blocks_ok lo hi bs -> (forall c d, (c, d) ∈ bs -> d < a) -> lo <= a < b -> hi <= b ->
  blocks_ok lo b (bs ++ [(a, b)]).
Proof.
  intros [He Hs] Hlt Hab Hhi. split.
  - intros c d [Hin|[= -> ->]%list_elem_of_singleton]%elem_of_app; [|lia].
    apply He in Hin. lia.
  - apply StronglySorted_app_2; [|done|repeat constructor].
    intros [c d] [c' d'] Hin [= -> ->]%list_elem_of_singleton. simpl. by eapply Hlt.
Qed.

Lemma blocks_snoc_inv lo hi bs a b :
  blocks_ok lo hi (bs ++ [(a, b)]) ->
  blocks_ok lo hi bs /\ (forall c d, (c, d) ∈ bs -> d < a) /\ lo <= a < b /\ b <= hi.
Proof.
  intros [He Hs]. split_and!.
  - split; [intros c d H; apply He, elem_of_app; auto|by eapply StronglySorted_app_1_l].
  - intros c d H.
    by apply (StronglySorted_app_1_elem_of _ bs [(a, b)] (c, d) (a, b) Hs H ltac:(left)).
  - apply (He a b). apply elem_of_app. right. left.
  - apply (He a b). apply elem_of_app. right. left.
  - apply (He a b). apply elem_of_app. right. left.
Qed.

Lemma wire_blocks_snoc bs a b : wire_blocks (bs ++ [(a, b)]) = wire_blocks bs ++ [(wrap32 a, wrap32 b)].
Proof. unfold wire_blocks. by rewrite map_app. Qed.

Lemma push_block_spec bs k v :
  blocks_ok R (apos R k) bs -> is_u32 k -> 0 < zlen v -> apos R k + zlen v <= R + sp ->
  exists bs', push_block (wire_blocks bs) (k, v) = wire_blocks bs' /\
    blocks_ok R (apos R k + zlen v) bs' /\
    (forall x, in_blocks bs' x <-> in_blocks bs x \/ apos R k <= x < apos R k + zlen v).
Proof.
  intros Hok Hk Hv Hend. pose proof (apos_range R k) as HK.
  assert (add32 k (wrap32 (zlen v)) = wrap32 (apos R k + zlen v)) as Hadd
    by (rewrite <- add32_wrap2, wrap_apos; done).
  unfold push_block. rewrite Hadd. destruct (last bs) as [[a b]|] eqn:El.
  - apply last_Some in El as [bs0 ->].
    destruct (blocks_snoc_inv _ _ _ _ _ Hok) as (Hok0 & Hlt & Hab & Hb).
    rewrite wire_blocks_snoc, last_snoc.
    assert ((wrap32 b =? k) = (b =? apos R k)) as ->.
    { rewrite <- (wrap32_eqb_abs b (apos R k)) by lia. by rewrite wrap_apos. }
    destruct (b =? apos R k) eqn:E; to_prop.
    + exists (bs0 ++ [(a, apos R k + zlen v)]). rewrite removelast_last, wire_blocks_snoc.
      split_and!; [done|eapply blocks_snoc; eauto; lia|].
      intros x. rewrite !in_blocks_snoc.
      destruct (decide (x < b)); intuition lia.
    + exists ((bs0 ++ [(a, b)]) ++ [(apos R k, apos R k + zlen v)]).
      rewrite !wire_blocks_snoc, wrap_apos by done.
      split_and!; [done| |intros; apply in_blocks_snoc].
      eapply blocks_snoc; [done| |lia|lia].
      intros c d [Hin|[= -> ->]%list_elem_of_singleton]%elem_of_app; [|lia].
      apply Hlt in Hin. lia.
  - apply last_None in El as ->. exists ([] ++ [(apos R k, apos R k + zlen v)]).
    rewrite wire_blocks_snoc, wrap_apos by done.
    split_and!; [done| |intros; apply in_blocks_snoc].
    eapply blocks_snoc; [done| |lia|lia]. intros ?? H. by apply elem_of_nil in H.
Qed.

Lemma push_blocks_spec it : forall bs lo,
  blocks_ok R lo bs -> (forall k v, (k, v) ∈ it -> is_u32 k /\ 0 < zlen v /\ lo <= apos R k /\
    apos R k + zlen v <= R + sp) ->
  StronglySorted (fun a b => apos R a.1 + zlen a.2 <= apos R b.1) it ->
  exists bs', fold_left push_block it (wire_blocks bs) = wire_blocks bs' /\
    blocks_ok R (Z.max lo (R + sp)) bs' /\
    (forall x, in_blocks bs' x <-> in_blocks bs x \/ in_entries it x).
Proof.
  induction it as [|[k v] it IH]; intros bs lo Hok Hit Hs.
  - exists bs. split_and!; [done| |].
    + eapply blocks_mono; [done|lia].
    + intros x. split; [auto|]. intros [?|(k & v & H & _)]; [done|by apply elem_of_nil in H].
  - apply StronglySorted_inv in Hs as [Hs Hhd]. rewrite Forall_forall in Hhd.
    destruct (Hit k v) as (Hk & Hv & Hlo & Hend); [left|].
    destruct (push_block_spec bs k v) as (bs1 & Hp & Hok1 & Hx1); [by eapply blocks_mono|done|done|done|].
    cbn [fold_left]. rewrite Hp.
    destruct (IH bs1 (apos R k + zlen v) Hok1) as (bs' & Hf & Hok' & Hx').
    + intros k' v' Hin. destruct (Hit k' v') as (?&?&?&?); [by right|].
      apply Hhd in Hin. simpl in Hin. auto.
    + done.
    + exists bs'. split_and!; [done| |].
      * eapply blocks_mono; [done|lia].
      * intros x. rewrite Hx', Hx1. unfold in_entries. setoid_rewrite elem_of_cons. split.
        -- intros [[?|?]|(k' & v' & ? & ?)]; [auto|right; exists k, v; auto|right; exists k', v'; auto].
        -- intros [?|(k' & v' & [[= -> ->]|?] & ?)]; eauto 10.
Qed.
End sack.

(** Selective acknowledgements are truthful and complete.  After any sequence of operations
    the blocks reported to the peer, read as stream positions, cover exactly the bytes held out
    of order, lie above the cumulative acknowledgement, and are non-empty, ascending and
    separated (so no fewer blocks could describe them). *)
Theorem sack_blocks_exact (w R0 : Z) (rx : RxState) (Hw : 0 <= w)
    (Hrun : rtc rx_any_step (rx_start R0 w) rx) :
  exists R bs, rcv_nxt rx = wrap32 R /\ sack_blocks rx = wire_blocks bs /\
    (forall x, in_blocks bs x <-> in_entries R (oo rx) x) /\
    (forall a b, (a, b) ∈ bs -> R <= a < b) /\
    StronglySorted (fun x y => x.2 < y.1) bs.
Proof.
  destruct (any_reach w R0 rx Hw Hrun) as (R & [Hc _] & _). pose proof (rx_oo _ _ _ Hc) as Hi.
  pose proof (rx_win _ _ _ Hc). unfold MAX_INFLIGHT_BYTES in *.
  pose proof (zlen_nonneg (read_buf rx)).
  destruct (push_blocks_spec R (rx_window rx - zlen (read_buf rx)) ltac:(lia)
    (cyc_iter (rcv_nxt rx) (oo rx)) [] R) as (bs & Hf & [He Hs] & Hx).
  - split; [|constructor]. intros ?? H'. by apply elem_of_nil in H'.
  - intros k v Hin%elem_of_cyc_iter. pose proof (oo_entry_range _ _ _ _ Hi _ _ Hin).
    split_and!; try lia. by eapply oo_keys.
  - rewrite (rx_nxt _ _ _ Hc). eapply oo_iter_disjoint; eauto.
  - exists R, bs. split_and!; [apply Hc|exact Hf| |intros a b Hab; apply He in Hab; lia|done].
    intros x. rewrite Hx. unfold in_entries. setoid_rewrite elem_of_cyc_iter.
    split; [|auto]. intros [?%in_blocks_nil|?]; done.
Qed.

Lemma sack_blocks_exact_witness :
  exists rx, rtc rx_any_step (rx_start 5 100) rx /\
    sack_blocks rx = [(9, 12)] /\
    exists R bs, rcv_nxt rx = wrap32 R /\ sack_blocks rx = wire_blocks bs.
Proof.
  assert (exists rx, rtc rx_any_step (rx_start 5 100) rx /\ sack_blocks rx = [(9, 12)])
    as (rx & Hrun & Hb).
  { eexists. split.
    - eapply rtc_l.
      { eapply (any_data _ 11 [x43]);
          [split; lia|done|vm_compute; congruence|vm_compute; reflexivity]. }
      eapply rtc_l.
      { eapply (any_data _ 9 [x41; x42]);
          [split; lia|done|vm_compute; congruence|vm_compute; reflexivity]. }
      apply rtc_refl.
    - reflexivity. }
  exists rx. split; [done|]. split; [done|].
  destruct (sack_blocks_exact 100 5 rx ltac:(lia) Hrun) as (R & bs & H1 & H2 & _). eauto.
Defined.
