(* ===== verification/StreamTx.v ===== *)
(** * Send side of a stream: data and estimators

    [Config], [Seg], [LocalTransmit] and [TxState] of the onion stream engine
    (crates/veil-onion-stream/src/engine.rs) and every method of [TxState]: RACK loss detection
    (reordering window, duplicate-SACK feedback), the BBR bandwidth and RTT model, the
    retransmission timer and the bookkeeping of a flight rewound after a timeout.

    Times are [u64] milliseconds, sequence numbers and byte counts [u32]; the unchecked [+], [-]
    and [*] of the source wrap, as they do in the release profile. *)

From stdpp Require Import countable.
From S2P Require Import Prelude BTree Seq StreamWire StreamRx.

(** ** Constants *)

Definition BBR_RATE_WINDOW_MS : Z := 2000.
Definition BBR_SAMPLE_SPACING_MS : Z := 20.
Definition BBR_MIN_SPAN_MS : Z := 300.
Definition BBR_MIN_DELIVERED : Z := 64 * 1024.
Definition BBR_BW_WINDOW_MS : Z := 10000.
Definition BBR_BW_SAMPLE_SPACING_MS : Z := 100.
Definition BBR_MIN_RTT_WINDOW_MS : Z := 30000.
Definition BBR_PROBE_RTT_HOLD_MS : Z := 200.
Definition SACK_LOSS_THRESHOLD : Z := 3.
Definition RACK_SAMPLE_WINDOW_MS : Z := 30000.
Definition RACK_REORDER_BUCKET_MS : Z := 1000.
Definition RACK_REPAIR_HISTORY_LIMIT : Z := 128.

(** ** Data *)

Record Config := mkConfig {
  mss : Z;
  init_cwnd : Z;
  init_ssthresh : Z;
  recv_window : Z;
  init_rto_ms : Z;
  min_rto_ms : Z;
  max_rto_ms : Z;
  max_retransmits : Z;
  handshake_rto_ms : Z;
  max_pacing_batch : Z;
  rto_rewind_no_sack : bool;
  loss_decrease_per_mille : Z;
  bbr : bool;
  ack_every : Z;
  ack_delay_ms : Z;
  warm_btl_bw : Z;
  warm_rtt_min_ms : Z;
  debug_summary_ms : Z;
  close_linger_ms : Z;
  rack : bool;
  rack_reo_floor_ms : Z
}.

#[global] Instance Config_settable : Settable Config := fun c =>
  mkConfig (mss c) (init_cwnd c) (init_ssthresh c) (recv_window c) (init_rto_ms c) (min_rto_ms c)
    (max_rto_ms c) (max_retransmits c) (handshake_rto_ms c) (max_pacing_batch c)
    (rto_rewind_no_sack c) (loss_decrease_per_mille c) (bbr c) (ack_every c) (ack_delay_ms c)
    (warm_btl_bw c) (warm_rtt_min_ms c) (debug_summary_ms c) (close_linger_ms c) (rack c)
    (rack_reo_floor_ms c).

Definition Config_default : Config :=
  {| mss := MSS;
     init_cwnd := wrap32 (10 * MSS);
     init_ssthresh := U32_MAX;
     recv_window := wrap32 (1024 * MSS);
     init_rto_ms := 1000;
     min_rto_ms := 200;
     max_rto_ms := 30000;
     max_retransmits := 12;
     handshake_rto_ms := 1000;
     max_pacing_batch := 4;
     rto_rewind_no_sack := false;
     loss_decrease_per_mille := 500;
     bbr := false;
     ack_every := 2;
     ack_delay_ms := 5;
     warm_btl_bw := 0;
     warm_rtt_min_ms := 0;
     debug_summary_ms := 0;
     close_linger_ms := 0;
     rack := false;
     rack_reo_floor_ms := 0 |}.

Record Seg := mkSeg {
  seg_seq : Z;
  seg_data : list byte;
  is_fin : bool;
  sent_ms : Z;
  retransmitted : bool;
  sacked : bool;
  needs_resend : bool;
  local_pending : bool;
  handed_off : bool;
  sack_repair_deadline : option Z;
  sack_first_rtt_ms : option Z
}.

#[global] Instance Seg_settable : Settable Seg := fun s =>
  mkSeg (seg_seq s) (seg_data s) (is_fin s) (sent_ms s) (retransmitted s) (sacked s)
    (needs_resend s) (local_pending s) (handed_off s) (sack_repair_deadline s)
    (sack_first_rtt_ms s).

Definition seg_span (s : Seg) : Z := if is_fin s then 1 else wrap32 (zlen (seg_data s)).
Definition seg_end (s : Seg) : Z := add32 (seg_seq s) (seg_span s).

Inductive TransmitKind := TkData | TkFin | TkSyn | TkSynAck.

Record LocalTransmit := mkLocalTransmit { lt_seq : Z; lt_span : Z; lt_kind : TransmitKind }.

#[global] Instance TransmitKind_eq_dec : EqDecision TransmitKind.
Proof. solve_decision. Defined.
#[global] Instance LocalTransmit_eq_dec : EqDecision LocalTransmit.
Proof. solve_decision. Defined.

#[global] Instance TransmitKind_countable : Countable TransmitKind.
Proof.
  refine (inj_countable'
    (fun k => match k with TkData => 0 | TkFin => 1 | TkSyn => 2 | TkSynAck => 3 end)
    (fun n => if n =? 0 then TkData else if n =? 1 then TkFin else if n =? 2 then TkSyn
              else TkSynAck) _).
  by intros [].
Defined.

#[global] Instance LocalTransmit_countable : Countable LocalTransmit.
Proof.
  refine (inj_countable' (fun t => (lt_seq t, lt_span t, lt_kind t))
    (fun p => mkLocalTransmit p.1.1 p.1.2 p.2) _).
  by intros [].
Defined.

(** [LocalTransmit::from_cell] *)
Definition lt_from_cell (cell : list byte) : option LocalTransmit :=
  f ← decode cell;
  match f with
  | Data _ seq _ payload => Some (mkLocalTransmit seq (wrap32 (zlen payload)) TkData)
  | Fin _ seq => Some (mkLocalTransmit seq 1 TkFin)
  | Syn _ isn _ => Some (mkLocalTransmit isn 0 TkSyn)
  | SynAck _ isn _ _ => Some (mkLocalTransmit isn 0 TkSynAck)
  | _ => None
  end.

(** [LocalTransmit::for_segment] *)
Definition lt_for_segment (s : Seg) : LocalTransmit :=
  mkLocalTransmit (seg_seq s) (seg_span s) (if is_fin s then TkFin else TkData).

Record RtoBackoff := mkRtoBackoff { started_ms : Z; flight_end : Z }.
Record PersistProbe := mkPersistProbe { pp_seq : Z; pp_replied : bool }.
Record RttProbe := mkRttProbe {
  rp_started_ms : Z; rp_drained_at_ms : option Z; rp_sample_ms : option Z
}.
Record RackRepair := mkRackRepair {
  rr_start : Z; rr_end : Z; rr_original_ms : Z; rr_handed_off_ms : option Z
}.

Record TxState := mkTxState {
  iss : Z;
  snd_una : Z;
  snd_nxt : Z;
  pending : list byte;
  segs : list Seg;
  cwnd : Z;
  ssthresh : Z;
  rwnd : Z;
  window_hint_probe_used : bool;
  persist_probe : option PersistProbe;
  dup_acks : Z;
  in_recovery : bool;
  recover : Z;
  srtt : option Z;
  rttvar : Z;
  rto_ms : Z;
  rto_deadline : option Z;
  rto_backoff : option RtoBackoff;
  rto_fresh_sack_updates : Z;
  rto_sacked_segments_skipped : Z;
  next_sack_repair_ms : option Z;
  consec_rto : Z;
  pace_next_ms : Z;
  pace_budget : Z;
  rewind_high : option Z;
  rewind_fin : bool;
  fin_requested : bool;
  fin_sent : bool;
  fin_acked : bool;
  delivered : Z;
  rate_samples : list (Z * Z);
  bbr_last_app_limited_ms : option Z;
  bw_samples : list (Z * Z);
  btl_bw : Z;
  bbr_startup : bool;
  bbr_bw_at_probe : Z;
  bbr_stall_rounds : Z;
  bbr_probe_checked_ms : Z;
  rtt_min : option (Z * Z);
  bbr_rtt_probe : option RttProbe;
  bbr_probe_retry_after_ms : Z;
  rack_xmit_ms : Z;
  rack_end_seq : Z;
  rack_rtt_ms : Z;
  rack_reo_max_ms : Z;
  rack_reo_samples : list (Z * Z);
  rack_deadline : option Z;
  rack_min_rtt : option (Z * Z);
  rack_dsack_round : option Z;
  rack_reo_persist : Z;
  rack_repairs : list RackRepair;
  rack_dsack_reo_ms : Z
}.

#[global] Instance TxState_settable : Settable TxState := fun t =>
  mkTxState (iss t) (snd_una t) (snd_nxt t) (pending t) (segs t) (cwnd t) (ssthresh t) (rwnd t)
    (window_hint_probe_used t) (persist_probe t) (dup_acks t) (in_recovery t) (recover t)
    (srtt t) (rttvar t) (rto_ms t) (rto_deadline t) (rto_backoff t) (rto_fresh_sack_updates t)
    (rto_sacked_segments_skipped t) (next_sack_repair_ms t) (consec_rto t) (pace_next_ms t)
    (pace_budget t) (rewind_high t) (rewind_fin t) (fin_requested t) (fin_sent t) (fin_acked t)
    (delivered t) (rate_samples t) (bbr_last_app_limited_ms t) (bw_samples t) (btl_bw t)
    (bbr_startup t) (bbr_bw_at_probe t) (bbr_stall_rounds t) (bbr_probe_checked_ms t) (rtt_min t)
    (bbr_rtt_probe t) (bbr_probe_retry_after_ms t) (rack_xmit_ms t) (rack_end_seq t)
    (rack_rtt_ms t) (rack_reo_max_ms t) (rack_reo_samples t) (rack_deadline t) (rack_min_rtt t)
    (rack_dsack_round t) (rack_reo_persist t) (rack_repairs t) (rack_dsack_reo_ms t).

(** ** Flight bookkeeping *)

Definition window_probe_handed_off (t : TxState) : bool :=
  is_some_and (persist_probe t) (fun probe =>
    (pp_seq probe =? snd_una t) && (zlen (segs t) =? 1) &&
    is_some_and (head (segs t)) (fun s =>
      (seg_seq s =? pp_seq probe) && negb (is_fin s) && (zlen (seg_data s) =? 1) &&
      handed_off s && negb (local_pending s) && negb (sacked s))).

Definition refresh_sack_repair_deadline (t : TxState) : TxState :=
  t <| next_sack_repair_ms := list_min (omap sack_repair_deadline (segs t)) |>.

(** The loop of [ack_limit] stops at the first segment never handed off. *)
Fixpoint ack_limit_loop (t : TxState) (l : list Seg) (limit : Z) : Z :=
  match l with
  | [] => limit
  | segment :: l =>
      if negb (handed_off segment) then
        let known := seq.max (seg_seq segment) (snd_una t) in
        let known := match rewind_high t with
                     | Some high => seq.max known (seq.min high (seg_end segment))
                     | None => known
                     end in
        seq.min limit known
      else ack_limit_loop t l limit
  end.

Definition ack_limit (t : TxState) : Z :=
  let limit := match rewind_high t with
               | Some h => seq.max (snd_nxt t) h
               | None => snd_nxt t
               end in
  ack_limit_loop t (segs t) limit.

Definition refresh_local_rto (t : TxState) (now : Z) : TxState :=
  match List.find (fun s => negb (sacked s) && negb (local_pending s)) (segs t) with
  | None => t <| rto_deadline := None |>
  | Some first =>
      let age_bound := sat_add64 (sent_ms first) (rto_ms t) in
      let base := match rto_deadline t with
                  | Some d => d
                  | None => sat_add64 now (rto_ms t)
                  end in
      t <| rto_deadline := Some (Z.max base age_bound) |>
  end.

Definition trim_rewound_pending_after_ack (t : TxState) (ack : Z) : TxState :=
  match rewind_high t with
  | None => t
  | Some high =>
      let t :=
        if seq.gt ack (snd_nxt t) then
          let drop_bytes := sub32 ack (snd_nxt t) in
          let drop_bytes :=
            if rewind_fin t && seq.geq ack high then sat_sub drop_bytes 1 else drop_bytes in
          let n := Z.min drop_bytes (zlen (pending t)) in
          t <| pending := zdrop n (pending t) |> <| snd_nxt := ack |>
        else t in
      if seq.geq ack high then
        let t := if rewind_fin t then t <| fin_acked := true |> else t in
        t <| rewind_high := None |> <| rewind_fin := false |>
      else t
  end.

Definition arm_or_clear_rto (t : TxState) (now : Z) : TxState :=
  if is_nil (segs t) then t <| rto_deadline := None |>
  else t <| rto_deadline := Some (add64 now (rto_ms t)) |>.

(** ** Retransmission timeout *)

Definition update_rto (t : TxState) (r_ms : Z) (cfg : Config) : TxState :=
  let '(srtt', rttvar') :=
    match srtt t with
    | None => (r_ms, r_ms / 2)
    | Some srtt =>
        let delta := Z.abs (srtt - r_ms) in
        (add32 (mul32 srtt 7) r_ms / 8, add32 (mul32 (rttvar t) 3) delta / 4)
    end in
  let rto := add64 srtt' (mul32 4 (Z.max rttvar' 1)) in
  t <| srtt := Some srtt' |> <| rttvar := rttvar' |>
    <| rto_ms := clamp rto (min_rto_ms cfg) (max_rto_ms cfg) |>.

Definition raise_rto_from_deferred_sample (t : TxState) (r_ms : Z) (cfg : Config) : TxState :=
  let t' := update_rto t r_ms cfg in
  let t' := t' <| rto_ms := Z.max (rto_ms t')
                    (clamp (sat_mul64 r_ms 3) (min_rto_ms cfg) (max_rto_ms cfg)) |> in
  if rto_ms t' <=? rto_ms t then
    t' <| srtt := srtt t |> <| rttvar := rttvar t |> <| rto_ms := rto_ms t |>
  else t'.

(** ** RACK loss detection *)

Definition rack_repair_find (start end_ : Z) (r : RackRepair) : bool :=
  (rr_start r =? start) && (rr_end r =? end_).

Definition rack_repair_handed_off (at_ : option Z) (r : RackRepair) : RackRepair :=
  mkRackRepair (rr_start r) (rr_end r) (rr_original_ms r) at_.

Definition record_rack_repair (t : TxState) (start end_ original_ms : Z)
    (handed_off_ms : option Z) (now : Z) : TxState :=
  let t := t <| rack_repairs ::= List.filter (fun r =>
    sat_sub now (default (rr_original_ms r) (rr_handed_off_ms r)) <=? RACK_SAMPLE_WINDOW_MS) |> in
  if existsb (rack_repair_find start end_) (rack_repairs t) then
    if is_some handed_off_ms then
      t <| rack_repairs ::= update_first (rack_repair_find start end_)
             (rack_repair_handed_off handed_off_ms) |>
    else t
  else
    let t := if zlen (rack_repairs t) =? RACK_REPAIR_HISTORY_LIMIT
             then t <| rack_repairs ::= tail |> else t in
    t <| rack_repairs := rack_repairs t ++ [mkRackRepair start end_ original_ms handed_off_ms] |>.

(** The [retain] of [note_dsack]: the repairs kept, and the smallest span of those reported. *)
Fixpoint dsack_retain (first : SackRange) (minimum now : Z) (l : list RackRepair)
    (observation : option Z) : list RackRepair * option Z :=
  match l with
  | [] => ([], observation)
  | r :: l =>
      match rr_handed_off_ms r with
      | None => let '(kept, o) := dsack_retain first minimum now l observation in (r :: kept, o)
      | Some at_ =>
          if RACK_SAMPLE_WINDOW_MS <? sat_sub now at_ then dsack_retain first minimum now l observation
          else if seq.leq (sr_start first) (rr_start r) && seq.geq (sr_end first) (rr_end r) then
            let span := sat_sub (sat_sub now (rr_original_ms r)) minimum in
            dsack_retain first minimum now l (opt_min observation span)
          else let '(kept, o) := dsack_retain first minimum now l observation in (r :: kept, o)
      end
  end.

Definition is_dsack (ack : Z) (first : SackRange) (second : option SackRange) : bool :=
  seq.leq (sr_end first) ack ||
  is_some_and second (fun r =>
    seq.leq (sr_start r) (sr_start first) && seq.geq (sr_end r) (sr_end first)).

Definition note_dsack (t : TxState) (ack : Z) (sacks : SackVec) (now : Z) : TxState :=
  match head sacks with
  | None => t
  | Some first =>
      if negb (seq.lt (sr_start first) (sr_end first)) || seq.gt (sr_end first) (ack_limit t) then t
      else if negb (is_dsack ack first (sacks !! 1%nat)) then t
      else
        match rack_min_rtt t with
        | Some (minimum, at_) =>
            if sat_sub now at_ <=? RACK_SAMPLE_WINDOW_MS then
              let '(kept, observation) := dsack_retain first minimum now (rack_repairs t) None in
              let t := t <| rack_repairs := kept |> in
              match observation with
              | None => t
              | Some observation =>
                  let t := if is_some_and (rack_dsack_round t) (fun e => seq.geq (snd_una t) e)
                           then t <| rack_dsack_round := None |> else t in
                  if is_none (rack_dsack_round t) then
                    t <| rack_dsack_reo_ms :=
                           Z.max (rack_dsack_reo_ms t)
                                 (wrap32 (Z.min (Z.min observation (rto_ms t)) U32_MAX)) |>
                      <| rack_reo_persist := 16 |>
                      <| rack_dsack_round := Some (snd_nxt t) |>
                  else t
              end
            else t
        | None => t
        end
  end.

Definition complete_rack_recovery (t : TxState) : TxState :=
  let t := t <| rack_reo_persist := sat_sub (rack_reo_persist t) 1 |> in
  if rack_reo_persist t =? 0 then t <| rack_dsack_reo_ms := 0 |> else t.

Definition expire_rack_reordering (t : TxState) (now : Z) : TxState :=
  let oldest := sat_sub now RACK_SAMPLE_WINDOW_MS / RACK_REORDER_BUCKET_MS in
  let kept := drop_front (fun e => e.1 <? oldest) (rack_reo_samples t) in
  let removed := negb (zlen kept =? zlen (rack_reo_samples t)) in
  let t := t <| rack_reo_samples := kept |> in
  if removed then t <| rack_reo_max_ms := default 0 (list_max (map snd kept)) |> else t.

Definition observe_rack_reordering (t : TxState) (sample now : Z) : TxState :=
  let t := expire_rack_reordering t now in
  let bucket := now / RACK_REORDER_BUCKET_MS in
  let t :=
    if is_some_and (last (rack_reo_samples t)) (fun e => bucket <=? e.1) then
      t <| rack_reo_samples ::= update_back (fun e => (e.1, Z.max e.2 sample)) |>
    else t <| rack_reo_samples := rack_reo_samples t ++ [(bucket, sample)] |> in
  t <| rack_reo_max_ms := Z.max (rack_reo_max_ms t) sample |>.

(** The newest transmission known delivered. *)
Definition rack_frontier (t : TxState) (seg_sent_ms seg_end_ : Z) : TxState :=
  if (rack_xmit_ms t <? seg_sent_ms) ||
     ((seg_sent_ms =? rack_xmit_ms t) && seq.gt seg_end_ (rack_end_seq t)) then
    t <| rack_xmit_ms := seg_sent_ms |> <| rack_end_seq := seg_end_ |>
  else t.

Definition rack_on_delivery (t : TxState) (seg_sent_ms seg_end_ now prior_frontier : Z)
    (retx : bool) : TxState * option Z :=
  let rtt := Z.min (sat_sub now seg_sent_ms) U32_MAX in
  if retx then
    match rack_min_rtt t with
    | None => (t, None)
    | Some (minimum, at_) =>
        if (RACK_SAMPLE_WINDOW_MS <? sat_sub now at_) || (rtt <? minimum) then (t, None)
        else (rack_frontier t seg_sent_ms seg_end_, Some rtt)
    end
  else
    let t := if is_none_or (rack_min_rtt t) (fun m =>
                  (rtt <=? m.1) || (RACK_SAMPLE_WINDOW_MS <? sat_sub now m.2))
             then t <| rack_min_rtt := Some (Z.max rtt 1, now) |> else t in
    let t := if seg_sent_ms <? prior_frontier
             then observe_rack_reordering t (Z.min (prior_frontier - seg_sent_ms) U32_MAX) now
             else t in
    (rack_frontier t seg_sent_ms seg_end_, Some rtt).

(** ** BBR bandwidth and RTT model *)

Definition bbr_pacing_params (cfg : Config) (bandwidth : Z) (startup : bool) : Z * Z :=
  let rate := if startup then sat_mul64 bandwidth 2 else sat_mul64 bandwidth 5 / 4 in
  let m := Z.max (mss cfg) 1 in
  let cells_per_sec := Z.max (rate / m) 1 in
  let quantum := clamp (max_pacing_batch cfg) 1 32 in
  let interval := clamp (quantum * 1000 / cells_per_sec) 1 100 in
  let batch := clamp (div_ceil (sat_mul64 rate interval) (mul64 1000 m)) 1
                     (Z.max (max_pacing_batch cfg) 1) in
  (interval, batch).

Definition bbr_probe_window (cfg : Config) : Z := Z.min (sat_mul64 (mss cfg) 4) U32_MAX.

(** The scan of [bbr_seed_has_regular_delivery_clock]; [None] is its early [return false]. *)
Fixpoint clock_scan (l : list (Z * Z)) (previous : option Z) (shortest longest intervals : Z) :
    option (Z * Z * Z) :=
  match l with
  | [] => Some (shortest, longest, intervals)
  | (at_, _) :: l =>
      match previous with
      | Some before =>
          let gap := sat_sub at_ before in
          if gap =? 0 then None
          else clock_scan l (Some at_) (Z.min shortest gap) (Z.max longest gap) (intervals + 1)
      | None => clock_scan l (Some at_) shortest longest intervals
      end
  end.

Definition bbr_seed_has_regular_delivery_clock (t : TxState) : bool :=
  match match srtt t with Some r => Some r | None => fst <$> rtt_min t end with
  | None => false
  | Some rtt =>
      match clock_scan (rate_samples t) None U64_MAX 0 0 with
      | None => false
      | Some (shortest, longest, intervals) =>
          (3 <=? intervals) && (shortest <=? rtt / 2) && (longest <=? sat_mul64 shortest 4)
      end
  end.

(** [while rate_samples.len() > 2] drops samples out of the rate window. *)
Fixpoint trim_rate_samples (now : Z) (l : list (Z * Z)) : list (Z * Z) :=
  match l with
  | (t0, _) :: l' =>
      if (2 <? zlen l) && (BBR_RATE_WINDOW_MS <? sat_sub now t0) then trim_rate_samples now l' else l
  | [] => []
  end.

Fixpoint trim_bw_samples (now : Z) (l : list (Z * Z)) : list (Z * Z) :=
  match l with
  | (t0, _) :: l' =>
      if (BBR_BW_WINDOW_MS <? sat_sub now t0) && (1 <? zlen l) then trim_bw_samples now l' else l
  | [] => []
  end.

(** The startup check of [bbr_on_delivered]. *)
Definition bbr_startup_check (t : TxState) (now : Z) : TxState :=
  let round_ms := Z.max (default 0 (srtt t)) BBR_MIN_SPAN_MS in
  if sat_add64 (bbr_probe_checked_ms t) round_ms <=? now then
    let t := t <| bbr_probe_checked_ms := now |> in
    if sat_mul64 (bbr_bw_at_probe t) 5 / 4 <? btl_bw t then
      t <| bbr_bw_at_probe := btl_bw t |> <| bbr_stall_rounds := 0 |>
    else
      let t := t <| bbr_stall_rounds := sat_add8 (bbr_stall_rounds t) 1 |> in
      if 3 <=? bbr_stall_rounds t then t <| bbr_startup := false |> else t
  else t.

(** One bandwidth sample enters the windowed maximum. *)
Definition bbr_store_sample (t : TxState) (sample now : Z) (fully_backlogged : bool) : TxState :=
  let replaced_seed :=
    fully_backlogged && is_some_and (head (bw_samples t)) (fun e =>
      (e.1 =? 0) && ((e.2 <=? sample) || bbr_seed_has_regular_delivery_clock t)) in
  let t := if replaced_seed then t <| bw_samples ::= tail |> else t in
  let store := is_none_or (last (bw_samples t)) (fun e =>
    add64 e.1 BBR_BW_SAMPLE_SPACING_MS <=? now) in
  let t := if store then t <| bw_samples := bw_samples t ++ [(now, sample)] |>
           else t <| bw_samples ::= update_back (fun e => (e.1, Z.max e.2 sample)) |> in
  let t := t <| bw_samples ::= trim_bw_samples now |> in
  let t := t <| btl_bw := default 0 (list_max (map snd (bw_samples t))) |> in
  let t := if replaced_seed then
             t <| bbr_bw_at_probe := btl_bw t |> <| bbr_stall_rounds := 0 |>
               <| bbr_probe_checked_ms := now |>
           else t in
  if bbr_startup t && store then bbr_startup_check t now else t.

Definition bbr_on_delivered (t : TxState) (acked now : Z) (backlogged : bool) (mss32 : Z) : TxState :=
  let t := t <| delivered := sat_add64 (delivered t) acked |> in
  let t := if negb backlogged then t <| bbr_last_app_limited_ms := Some now |> else t in
  let push := is_none_or (last (rate_samples t)) (fun e =>
    add64 e.1 BBR_SAMPLE_SPACING_MS <=? now) in
  let t := if push then t <| rate_samples := rate_samples t ++ [(now, delivered t)] |> else t in
  let t := t <| rate_samples ::= trim_rate_samples now |> in
  match head (rate_samples t), last (rate_samples t) with
  | Some (t0, d0), Some (t1, d1) =>
      let span := sat_sub t1 t0 in
      let bytes := sat_sub d1 d0 in
      let fully_backlogged :=
        backlogged && is_none_or (bbr_last_app_limited_ms t) (fun at_ => at_ <? t0) in
      let min_bytes := if fully_backlogged then Z.min (Z.max mss32 1) BBR_MIN_DELIVERED
                       else BBR_MIN_DELIVERED in
      if (span <? BBR_MIN_SPAN_MS) || (bytes <? min_bytes) then t
      else
        let sample := sat_mul64 bytes 1000 / Z.max span 1 in
        bbr_store_sample t sample now fully_backlogged
  | _, _ => t
  end.

Definition bbr_probe_deadline (t : TxState) (cfg : Config) : option Z :=
  probe ← bbr_rtt_probe t;
  let lease := sat_add64 (rp_started_ms probe) (Z.max (max_rto_ms cfg) BBR_PROBE_RTT_HOLD_MS) in
  let done := match rp_drained_at_ms probe with
              | Some at_ => if is_some (rp_sample_ms probe)
                            then Some (sat_add64 at_ BBR_PROBE_RTT_HOLD_MS) else None
              | None => None
              end in
  Some (match done with Some at_ => Z.min at_ lease | None => lease end).

Definition advance_bbr_probe (t : TxState) (now : Z) (cfg : Config) : TxState :=
  if is_some_and (bbr_probe_deadline t cfg) (fun at_ => at_ <=? now) then
    match bbr_rtt_probe t with
    | None => t
    | Some probe =>
        let t := t <| bbr_rtt_probe := None |> in
        match rp_drained_at_ms probe, rp_sample_ms probe with
        | Some at_, Some rtt =>
            if sat_add64 at_ BBR_PROBE_RTT_HOLD_MS <=?
               sat_add64 (rp_started_ms probe) (Z.max (max_rto_ms cfg) BBR_PROBE_RTT_HOLD_MS) then
              t <| rtt_min := Some (rtt, now) |> <| bbr_probe_retry_after_ms := 0 |>
            else t <| bbr_probe_retry_after_ms := sat_add64 now BBR_MIN_RTT_WINDOW_MS |>
        | _, _ => t <| bbr_probe_retry_after_ms := sat_add64 now BBR_MIN_RTT_WINDOW_MS |>
        end
    end
  else t.

(** The second half of [bbr_on_rtt]: an RTT sample while a probe is running. *)
Definition bbr_probe_sample (t : TxState) (r_ms sent_ms_ now : Z) (cfg : Config) : TxState :=
  match bbr_rtt_probe t with
  | None => t
  | Some probe =>
      let t :=
        if sub32 (snd_nxt t) (snd_una t) <=? bbr_probe_window cfg then
          let drained_at := default now (rp_drained_at_ms probe) in
          let sample :=
            if drained_at <=? sent_ms_ then
              Some (match rp_sample_ms probe with
                    | Some r => Z.min r (Z.max r_ms 1)
                    | None => Z.max r_ms 1
                    end)
            else rp_sample_ms probe in
          t <| bbr_rtt_probe := Some (mkRttProbe (rp_started_ms probe) (Some drained_at) sample) |>
        else t in
      advance_bbr_probe t now cfg
  end.

Definition bbr_on_rtt (t : TxState) (r_ms sent_ms_ now : Z) (cfg : Config) : TxState :=
  let t := advance_bbr_probe t now cfg in
  match bbr_rtt_probe t with
  | Some _ => bbr_probe_sample t r_ms sent_ms_ now cfg
  | None =>
      let start := t <| bbr_rtt_probe := Some (mkRttProbe now None None) |> in
      match rtt_min t with
      | None => t <| rtt_min := Some (Z.max r_ms 1, now) |>
      | Some (m, stamp) =>
          if r_ms <=? m then t <| rtt_min := Some (Z.max r_ms 1, now) |>
          else if sat_sub now stamp <=? BBR_MIN_RTT_WINDOW_MS then t
          else if now <? bbr_probe_retry_after_ms t then t
          else bbr_probe_sample start r_ms sent_ms_ now cfg
      end
  end.

Definition bbr_window_cap (t : TxState) (cfg : Config) : option Z :=
  if negb (bbr cfg) || (btl_bw t =? 0) then None
  else if is_some (bbr_rtt_probe t) then Some (bbr_probe_window cfg)
  else
    m ← rtt_min t;
    let bdp := sat_mul64 (btl_bw t) m.1 / 1000 in
    let batch := (bbr_pacing_params cfg (btl_bw t) (bbr_startup t)).2 in
    let floor := Z.min (sat_mul64 (mss cfg) (Z.max (2 * batch) 4)) U32_MAX in
    let gain := if bbr_startup t then 3 else 2 in
    let cap := clamp (sat_mul64 bdp gain) floor U32_MAX in
    let m := Z.max (mss cfg) 1 in
    Some (wrap32 (cap - cap mod m)).
