(* ===== verification/StreamEngine.v ===== *)
(** * The stream engine

    [StreamEngine] of crates/veil-onion-stream/src/engine.rs: the whole sans-io state machine of
    one stream.  Every public and internal operation is here: construction, the application
    calls, the handlers of received frames, the transmit scheduler and the timers.  An operation
    takes the engine and returns the engine after it; [on_cell] is [option]-valued because the
    receive side it calls is (see StreamRx.v), and the transmit calls also return the frame they
    emit. *)

From S2P Require Import Prelude BTree Seq StreamWire StreamRx StreamTx.

(** ** State *)

Inductive Event :=
| Connected
| HandshakeRto (retries : Z)
| DataRto (consec_rto snd_una : Z) (app_limited : bool)
| PeerFinished
| Reset (reason : Z).

#[global] Instance Event_eq_dec : EqDecision Event.
Proof. solve_decision. Defined.

Inductive Phase := SynSent | Listen | Established | Closed.

#[global] Instance Phase_eq_dec : EqDecision Phase.
Proof. solve_decision. Defined.

Definition phase_eqb (a b : Phase) : bool := bool_decide (a = b).

Record StreamEngine := mkStreamEngine {
  stream_id : Z;
  cfg : Config;
  phase : Phase;
  tx : TxState;
  rx : RxState;
  send_syn : bool;
  send_synack : bool;
  syn_acked : bool;
  hs_deadline : option Z;
  hs_retries : Z;
  hs_local_pending : bool;
  hs_local_deadline : option Z;
  ack_pending : bool;
  duplicate_range : option SackRange;
  recent_sack_seq : option Z;
  sack_recent_promotions : Z;
  ack_eliciting : Z;
  ack_deadline : option Z;
  rst_to_send : option Z;
  persist_deadline : option Z;
  force_probe : bool;
  events : list Event;
  track_local_handoffs : bool
}.

#[global] Instance StreamEngine_settable : Settable StreamEngine := fun e =>
  mkStreamEngine (stream_id e) (cfg e) (phase e) (tx e) (rx e) (send_syn e) (send_synack e)
    (syn_acked e) (hs_deadline e) (hs_retries e) (hs_local_pending e) (hs_local_deadline e)
    (ack_pending e) (duplicate_range e) (recent_sack_seq e) (sack_recent_promotions e)
    (ack_eliciting e) (ack_deadline e) (rst_to_send e) (persist_deadline e) (force_probe e)
    (events e) (track_local_handoffs e).

Definition push_event (e : StreamEngine) (ev : Event) : StreamEngine :=
  e <| events := events e ++ [ev] |>.

(** ** Construction *)

Definition tx_new (c : Config) (iss0 : Z) : TxState :=
  let warm := bbr c && (0 <? warm_btl_bw c) in
  let warm_rtt := if warm && (0 <? warm_rtt_min_ms c) then Some (warm_rtt_min_ms c, 0) else None in
  let icwnd := Z.max (init_cwnd c) (wrap32 (mss c)) in
  let icwnd :=
    match warm_rtt with
    | Some (rtt_ms, _) =>
        let bdp := Z.min (Z.min (sat_mul64 (warm_btl_bw c) rtt_ms / 1000) (1024 * 1024))
                         (recv_window c) in
        Z.max icwnd (wrap32 bdp)
    | None => icwnd
    end in
  {| iss := iss0; snd_una := iss0; snd_nxt := iss0; pending := []; segs := [];
     cwnd := icwnd; ssthresh := init_ssthresh c; rwnd := wrap32 (mss c);
     window_hint_probe_used := false; persist_probe := None; dup_acks := 0;
     in_recovery := false; recover := iss0; srtt := None; rttvar := 0;
     rto_ms := init_rto_ms c; rto_deadline := None; rto_backoff := None;
     rto_fresh_sack_updates := 0; rto_sacked_segments_skipped := 0;
     next_sack_repair_ms := None; consec_rto := 0; pace_next_ms := 0; pace_budget := 0;
     rewind_high := None; rewind_fin := false; fin_requested := false; fin_sent := false;
     fin_acked := false; delivered := 0; rate_samples := [];
     bbr_last_app_limited_ms := None;
     bw_samples := if warm then [(0, warm_btl_bw c)] else [];
     btl_bw := if warm then warm_btl_bw c else 0;
     bbr_startup := true;
     bbr_bw_at_probe := if warm then warm_btl_bw c else 0;
     bbr_stall_rounds := 0; bbr_probe_checked_ms := 0;
     rtt_min := match warm_rtt with Some (r, t) => Some (Z.max r 1, t) | None => None end;
     bbr_rtt_probe := None; bbr_probe_retry_after_ms := 0; rack_xmit_ms := 0;
     rack_end_seq := 0; rack_rtt_ms := 0; rack_reo_max_ms := 0; rack_reo_samples := [];
     rack_deadline := None; rack_min_rtt := None; rack_dsack_round := None;
     rack_reo_persist := 0; rack_repairs := []; rack_dsack_reo_ms := 0 |}.

Definition engine_new (sid : Z) (c : Config) (iss0 : Z) : StreamEngine :=
  {| stream_id := sid; cfg := c; phase := Listen; tx := tx_new c iss0;
     rx := rx_new (recv_window c);
     send_syn := false; send_synack := false; syn_acked := false; hs_deadline := None;
     hs_retries := 0; hs_local_pending := false; hs_local_deadline := None;
     ack_pending := false; duplicate_range := None; recent_sack_seq := None;
     sack_recent_promotions := 0; ack_eliciting := 0; ack_deadline := None;
     rst_to_send := None; persist_deadline := None; force_probe := false; events := [];
     track_local_handoffs := false |}.

(** [StreamEngine::connect] *)
Definition engine_connect (sid : Z) (c : Config) (now iss0 : Z) : StreamEngine :=
  let e := engine_new sid c iss0 in
  e <| phase := SynSent |> <| send_syn := true |>
    <| tx := tx e <| snd_nxt := add32 iss0 1 |> |>
    <| hs_deadline := Some (add64 now (handshake_rto_ms c)) |>.

(** [StreamEngine::accept] *)
Definition engine_accept (sid : Z) (c : Config) (now iss0 : Z) : StreamEngine :=
  engine_new sid c iss0 <| phase := Listen |>.

(** ** Small helpers *)

Definition loss_decrease_window (e : StreamEngine) (basis mss32 : Z) : Z :=
  let beta := clamp (loss_decrease_per_mille (cfg e)) 1 1000 in
  Z.min (Z.max (mul64 basis beta / 1000) (mul32 2 mss32)) U32_MAX.

Definition handshake_unconfirmed (e : StreamEngine) : bool :=
  negb (syn_acked e) && (phase_eqb (phase e) SynSent || phase_eqb (phase e) Established).

Definition arm_local_handshake_limit (e : StreamEngine) (now : Z) : StreamEngine :=
  let budget := sat_mul64 (handshake_rto_ms (cfg e)) (max_retransmits (cfg e) + 1) in
  e <| hs_local_deadline := Some (sat_add64 now budget) |>.

Definition ack_now (e : StreamEngine) : StreamEngine :=
  e <| ack_pending := true |> <| ack_eliciting := 0 |> <| ack_deadline := None |>.

Definition ack_data (e : StreamEngine) (advanced : bool) (now : Z) : StreamEngine :=
  if negb advanced then ack_now e
  else
    let e := e <| ack_eliciting := sat_add8 (ack_eliciting e) 1 |> in
    if Z.max (ack_every (cfg e)) 1 <=? ack_eliciting e then ack_now e
    else if is_none (ack_deadline e) then
      e <| ack_deadline := Some (add64 now (Z.max (ack_delay_ms (cfg e)) 1)) |>
    else e.

Definition declare_dead (e : StreamEngine) : StreamEngine :=
  push_event (e <| phase := Closed |> <| rst_to_send := Some reset_reason.TIMED_OUT |>)
    (Reset reset_reason.TIMED_OUT).

Definition zero_window_blocked (e : StreamEngine) : bool :=
  phase_eqb (phase e) Established && is_nil (segs (tx e)) && (rwnd (tx e) =? 0) &&
  (negb (is_nil (pending (tx e))) || (fin_requested (tx e) && negb (fin_sent (tx e)))).

Definition effective_send_window (e : StreamEngine) : Z :=
  let window := Z.min (Z.min (cwnd (tx e)) (rwnd (tx e))) MAX_INFLIGHT_BYTES in
  match bbr_window_cap (tx e) (cfg e) with
  | Some cap => Z.min window cap
  | None => window
  end.

(** ** Calls of the driver and the application *)

(** [track_local_handoffs] *)
Definition start_tracking (e : StreamEngine) : StreamEngine :=
  e <| track_local_handoffs := true |> <| hs_deadline := None |>.

Definition accepted_some (accepted : gmap LocalTransmit Z) (k : LocalTransmit) : bool :=
  is_some_and (accepted !! k) (fun n => 0 <? n).

(** The loop of [local_handoff] over the flight. *)
Fixpoint handoff_segs (accepted : gmap LocalTransmit Z) (now : Z) (use_rack : bool)
    (l : list Seg) (repairs : list RackRepair) : list Seg * list RackRepair :=
  match l with
  | [] => ([], repairs)
  | s :: l =>
      if local_pending s && accepted_some accepted (lt_for_segment s) then
        let s := s <| local_pending := false |> <| handed_off := true |> <| sent_ms := now |>
                   <| sack_repair_deadline := None |> in
        let repairs :=
          if use_rack && retransmitted s then
            update_first (rack_repair_find (seg_seq s) (seg_end s))
              (rack_repair_handed_off (Some now)) repairs
          else repairs in
        let '(l, repairs) := handoff_segs accepted now use_rack l repairs in (s :: l, repairs)
      else
        let '(l, repairs) := handoff_segs accepted now use_rack l repairs in (s :: l, repairs)
  end.

Definition local_handoff (e : StreamEngine) (accepted : gmap LocalTransmit Z) (now : Z) :
    StreamEngine :=
  if negb (existsb (fun kv => 0 <? kv.2) (map_to_list accepted)) then e
  else
    let e :=
      if hs_local_pending e && handshake_unconfirmed e then
        let handshake := mkLocalTransmit (iss (tx e)) 0
          (if phase_eqb (phase e) SynSent then TkSyn else TkSynAck) in
        if accepted_some accepted handshake then
          e <| hs_local_pending := false |> <| hs_local_deadline := None |>
            <| hs_deadline := Some (sat_add64 now (handshake_rto_ms (cfg e))) |>
        else e
      else e in
    let '(l, repairs) :=
      handoff_segs accepted now (rack (cfg e)) (segs (tx e)) (rack_repairs (tx e)) in
    let t := tx e <| segs := l |> <| rack_repairs := repairs |> in
    let t := if is_some (next_sack_repair_ms t) then refresh_sack_repair_deadline t else t in
    e <| tx := refresh_local_rto t now |>.

Definition discard_received_cell (e : StreamEngine) (cell : list byte) : StreamEngine * bool :=
  match lt_from_cell cell with
  | None => (e, false)
  | Some token =>
      match lt_kind token with
      | TkSyn | TkSynAck => (e, false)
      | TkData | TkFin =>
          let end_ := add32 (lt_seq token) (lt_span token) in
          let covered := seq.leq end_ (snd_una (tx e)) in
          let overlaps (s : Seg) := seq.lt (seg_seq s) end_ && seq.lt (lt_seq token) (seg_end s) in
          if negb covered &&
             (negb (existsb overlaps (segs (tx e))) ||
              existsb (fun s => overlaps s && negb (sacked s)) (segs (tx e))) then (e, false)
          else
            let t := tx e
              <| segs ::= map (fun s => if overlaps s then s <| local_pending := false |> else s) |>
              <| rack_repairs ::= List.filter (fun r =>
                   is_some (rr_handed_off_ms r) || negb (rr_start r =? lt_seq token) ||
                   negb (rr_end r =? end_)) |> in
            (e <| tx := t |>, true)
      end
  end.

Definition engine_write (e : StreamEngine) (data : list byte) : StreamEngine * Z :=
  if phase_eqb (phase e) Closed || fin_requested (tx e) then (e, 0)
  else (e <| tx := tx e <| pending := pending (tx e) ++ data |> |>, zlen data).

Definition engine_finish (e : StreamEngine) : StreamEngine :=
  e <| tx := tx e <| fin_requested := true |> |>.

Definition engine_reset (e : StreamEngine) (reason : Z) : StreamEngine :=
  if negb (phase_eqb (phase e) Closed) then
    e <| rst_to_send := Some reason |> <| phase := Closed |>
  else e.

(** [read] into a buffer of [len] bytes. *)
Definition engine_read (e : StreamEngine) (len : Z) : StreamEngine * list byte :=
  let '(out, rx') := rx_read len (rx e) in
  let e := e <| rx := rx' |> in
  let threshold := Z.min (Z.max (rx_window rx' / 2) 1) (wrap32 (Z.max (mss (cfg e)) 1)) in
  let e :=
    if (0 <? zlen out) && phase_eqb (phase e) Established && negb (rx_eof rx') &&
       (last_ack_window rx' <=? threshold) &&
       (threshold <=? sat_sub (advertised rx') (last_ack_window rx')) then ack_now e
    else e in
  (e, out).

Definition poll_event (e : StreamEngine) : StreamEngine * option Event :=
  (e <| events ::= tail |>, head (events e)).

Definition is_established (e : StreamEngine) : bool := phase_eqb (phase e) Established.
Definition is_closed (e : StreamEngine) : bool := phase_eqb (phase e) Closed.
Definition is_eof (e : StreamEngine) : bool := rx_eof (rx e) && is_nil (read_buf (rx e)).
Definition readable_len (e : StreamEngine) : Z := zlen (read_buf (rx e)).
Definition send_buffer_len (e : StreamEngine) : Z := zlen (pending (tx e)).
Definition inflight_bytes (e : StreamEngine) : Z := sub32 (snd_nxt (tx e)) (snd_una (tx e)).

Definition is_send_complete (e : StreamEngine) : bool :=
  is_nil (pending (tx e)) && is_nil (segs (tx e)) &&
  (negb (fin_requested (tx e)) || fin_acked (tx e)).

Definition completed_close_ack (e : StreamEngine) : option (Z * list byte) :=
  if (close_linger_ms (cfg e) =? 0) || negb (phase_eqb (phase e) Established) ||
     negb (fin_requested (tx e)) || negb (fin_acked (tx e)) || negb (is_send_complete e) ||
     negb (is_eof e) then None
  else Some (Z.min (close_linger_ms (cfg e)) (sat_mul64 (max_rto_ms (cfg e)) 2),
             encode (Ack (stream_id e) (rcv_nxt (rx e)) 0 [])).

Definition close_handoff_timeout_ms (e : StreamEngine) : Z :=
  Z.max (sat_mul64 (max_rto_ms (cfg e)) (max_retransmits (cfg e) + 1)) 1.

Definition delivery_model (e : StreamEngine) : Z * Z * Z :=
  (btl_bw (tx e), default 0 (fst <$> rtt_min (tx e)), delivered (tx e)).

(** ** Handshake and received data *)

Definition on_syn (e : StreamEngine) (isn win now : Z) : StreamEngine :=
  match phase e with
  | Listen =>
      push_event
        (e <| rx := rx e <| rcv_nxt := add32 isn 1 |> |>
           <| tx := tx e <| rwnd := win |> |>
           <| phase := Established |> <| send_synack := true |>
           <| hs_deadline := if track_local_handoffs e then None
                             else Some (add64 now (handshake_rto_ms (cfg e))) |>
           <| hs_retries := 0 |>) Connected
  | Established => e <| send_synack := true |>
  | _ => e
  end.

Definition on_synack (e : StreamEngine) (isn win ack : Z) : StreamEngine :=
  match phase e with
  | SynSent =>
      if negb (ack =? add32 (iss (tx e)) 1) then e
      else
        let una := add32 (iss (tx e)) 1 in
        push_event
          (ack_now
             (e <| tx := tx e <| snd_una := una |> <| snd_nxt := seq.max (snd_nxt (tx e)) una |>
                              <| rwnd := win |> |>
                <| rx := rx e <| rcv_nxt := isn |> |>
                <| syn_acked := true |> <| hs_deadline := None |> <| hs_retries := 0 |>
                <| hs_local_pending := false |> <| hs_local_deadline := None |>
                <| phase := Established |>)) Connected
  | Established => ack_now e
  | _ => e
  end.

Definition note_peer_progress (e : StreamEngine) : StreamEngine :=
  if phase_eqb (phase e) Established && negb (syn_acked e) then
    e <| syn_acked := true |> <| hs_deadline := None |> <| hs_retries := 0 |>
      <| hs_local_pending := false |> <| hs_local_deadline := None |>
  else e.

Definition duplicate_of (r : RxState) (seg_seq_ end_ : Z) : option SackRange :=
  if seq.lt seg_seq_ (rcv_nxt r) then Some (mkSackRange seg_seq_ (seq.min end_ (rcv_nxt r)))
  else match stored_end r seg_seq_ with
       | Some stored => Some (mkSackRange seg_seq_ (seq.min end_ stored))
       | None => None
       end.

Definition on_data (e : StreamEngine) (seg_seq_ win : Z) (payload : list byte) (now : Z) :
    option StreamEngine :=
  if phase_eqb (phase e) Closed then Some e
  else
    let e := note_peer_progress e in
    if is_nil payload then Some e
    else
      let end_ := add32 seg_seq_ (wrap32 (zlen payload)) in
      let dup := duplicate_of (rx e) seg_seq_ end_ in
      let e := if is_some dup then e <| duplicate_range := dup |> else e in
      '(rx', advanced) ← accept (rx e) seg_seq_ payload;
      let e := e <| rx := rx' |> in
      let e := if is_some (stored_end (rx e) seg_seq_)
               then e <| recent_sack_seq := Some seg_seq_ |> else e in
      let e := ack_data e advanced now in
      Some (if (0 <? win) && zero_window_blocked e && negb (window_hint_probe_used (tx e)) then
              e <| tx := tx e <| window_hint_probe_used := true |> |> <| force_probe := true |>
            else e).

Definition on_peer_fin (e : StreamEngine) (fin_seq : Z) : StreamEngine :=
  if phase_eqb (phase e) Closed then e
  else
    let e := note_peer_progress e in
    let e := e <| rx := rx_on_fin (rx e) fin_seq |> in
    let e := if rx_eof (rx e) && negb (existsb (fun ev => bool_decide (ev = PeerFinished)) (events e))
             then push_event e PeerFinished else e in
    ack_now e.

Definition on_rst (e : StreamEngine) (reason : Z) : StreamEngine :=
  if negb (phase_eqb (phase e) Closed) then push_event (e <| phase := Closed |>) (Reset reason)
  else e.

(** ** Loss marking *)

Definition enter_fast_recovery (e : StreamEngine) : StreamEngine :=
  let m := wrap32 (mss (cfg e)) in
  let t := tx e in
  let flight := sub32 (snd_nxt t) (snd_una t) in
  let basis :=
    if rto_rewind_no_sack (cfg e) then
      let effective_cwnd := Z.max (Z.min (cwnd t) (rwnd t)) m in
      let rewind_floor := if is_some (rewind_high t) then sat_mul32 (ssthresh t) 2 else 0 in
      Z.max (Z.max flight effective_cwnd) rewind_floor
    else flight in
  let ss := loss_decrease_window e basis m in
  e <| tx := t <| ssthresh := ss |> <| cwnd := sat_add32 ss (mul32 3 m) |>
               <| in_recovery := true |> <| recover := snd_nxt t |> |>.

(** The reverse scan of [mark_holes]: the flight after it, the count of SACKed segments seen and
    whether any segment was marked. *)
Fixpoint mark_holes_scan (l : list Seg) : list Seg * Z * bool :=
  match l with
  | [] => ([], 0, false)
  | s :: l =>
      let '(l, sacked_above, any) := mark_holes_scan l in
      if sacked s then (s :: l, sacked_above + 1, any)
      else if (SACK_LOSS_THRESHOLD <=? sacked_above) && negb (local_pending s) &&
              negb (retransmitted s) && negb (needs_resend s) then
        (s <| needs_resend := true |> :: l, sacked_above, true)
      else (s :: l, sacked_above, any)
  end.

Definition mark_holes_tx (t : TxState) (fallback_oldest : bool) : TxState :=
  let '(l, _, any) := mark_holes_scan (segs t) in
  let t := t <| segs := l |> in
  if negb any && fallback_oldest then
    t <| segs ::= update_first (fun s => negb (sacked s) && negb (local_pending s) &&
                                         negb (retransmitted s) && negb (needs_resend s))
                    (fun s => s <| needs_resend := true |>) |>
  else t.

Definition mark_holes (e : StreamEngine) (fallback_oldest : bool) : StreamEngine :=
  e <| tx := mark_holes_tx (tx e) fallback_oldest |>.

Fixpoint expired_repairs_scan (now expired_rto_ms : Z) (l : list Seg) : list Seg * Z :=
  match l with
  | [] => ([], 0)
  | s :: l =>
      let '(l, sacked_above) := expired_repairs_scan now expired_rto_ms l in
      if sacked s then (s :: l, sacked_above + 1)
      else if (SACK_LOSS_THRESHOLD <=? sacked_above) && retransmitted s && handed_off s &&
              negb (local_pending s) && negb (needs_resend s) then
        let deadline := sat_add64 (sent_ms s) expired_rto_ms in
        if deadline <=? now then
          (s <| needs_resend := true |> <| sack_repair_deadline := None |> :: l, sacked_above)
        else
          (s <| sack_repair_deadline := opt_min (sack_repair_deadline s) deadline |> :: l,
           sacked_above)
      else (s :: l, sacked_above)
  end.

Definition mark_expired_sack_repairs (e : StreamEngine) (now expired_rto_ms : Z) : StreamEngine :=
  let '(l, _) := expired_repairs_scan now expired_rto_ms (segs (tx e)) in
  e <| tx := refresh_sack_repair_deadline (tx e <| segs := l |>) |>.

Definition due_repair (now : Z) (s : Seg) : Seg :=
  if is_some_and (sack_repair_deadline s) (fun d => d <=? now) then
    let s := s <| sack_repair_deadline := None |> in
    if negb (sacked s) && retransmitted s && handed_off s && negb (local_pending s)
    then s <| needs_resend := true |> else s
  else s.

Definition mark_due_sack_repairs (e : StreamEngine) (now : Z) : StreamEngine :=
  if is_none_or (next_sack_repair_ms (tx e)) (fun d => now <? d) then e
  else e <| tx := refresh_sack_repair_deadline (tx e <| segs ::= map (due_repair now) |>) |>.

Definition rack_reo_wnd (e : StreamEngine) : Z :=
  let t := tx e in
  let base := match rtt_min t with
              | Some (r, _) => r / 4
              | None => default 0 (srtt t) / 4
              end in
  Z.max (Z.max (Z.max (Z.max base (rack_dsack_reo_ms t)) (rack_reo_floor_ms (cfg e)))
               (sat_mul32 (rack_reo_max_ms t / 4) 5)) 5.

(** The scan of [rack_detect_loss]: the flight after it, whether any segment was marked, and the
    earliest deadline of those not yet due. *)
Fixpoint rack_scan (now timeout rack_xmit rack_end : Z) (l : list Seg) (any : bool)
    (next : option Z) : list Seg * bool * option Z :=
  match l with
  | [] => ([], any, next)
  | s :: l =>
      let keep any next :=
        let '(l, any, next) := rack_scan now timeout rack_xmit rack_end l any next in
        (s :: l, any, next) in
      if sacked s || local_pending s || needs_resend s then keep any next
      else if negb ((sent_ms s <? rack_xmit) ||
                    ((sent_ms s =? rack_xmit) && seq.leq (seg_end s) rack_end)) then keep any next
      else
        let deadline := add64 (sent_ms s) timeout in
        if deadline <=? now then
          let '(l, any, next) := rack_scan now timeout rack_xmit rack_end l true next in
          (s <| needs_resend := true |> :: l, any, next)
        else keep any (opt_min next deadline)
  end.

Definition rack_detect_loss (e : StreamEngine) (now : Z) : StreamEngine * bool :=
  let e := e <| tx := expire_rack_reordering (tx e) now |> in
  if (rack_xmit_ms (tx e) =? 0) || negb (phase_eqb (phase e) Established) then
    (e <| tx := tx e <| rack_deadline := None |> |>, false)
  else
    let timeout := add64 (rack_rtt_ms (tx e)) (rack_reo_wnd e) in
    let '(l, any, next) :=
      rack_scan now timeout (rack_xmit_ms (tx e)) (rack_end_seq (tx e)) (segs (tx e)) false None in
    (e <| tx := tx e <| segs := l |> <| rack_deadline := next |> |>, any).

Definition mark_oldest_unsacked (t : TxState) : TxState :=
  t <| segs ::= update_first (fun s => negb (sacked s) && negb (local_pending s))
                  (fun s => s <| needs_resend := true |>) |>.

Definition mark_oldest_unsacked_for_rto (e : StreamEngine) : StreamEngine :=
  e <| tx := mark_oldest_unsacked (tx e) |>.

(** The loss checks shared by [on_ack] and [on_timeout]. *)
Definition rack_check (e : StreamEngine) (now : Z) : StreamEngine :=
  let '(e, lost) := rack_detect_loss e now in
  if lost && negb (in_recovery (tx e)) then enter_fast_recovery e else e.

(** ** Acknowledgements

    [on_ack] in the order of the source: the peer's window, the selective acknowledgements, the
    window probe, the cumulative acknowledgement or the duplicate, then the estimators. *)

(** The locals that the phases of [on_ack] share. *)
Record AckVars := mkAckVars {
  newly_delivered : Z;
  deferred_sack_rtt : option Z;
  fresh_sack_rtt : option Z;
  rack_rtt_sample : option Z;
  rtt_sent_ms : option Z
}.

#[global] Instance AckVars_settable : Settable AckVars := fun a =>
  mkAckVars (newly_delivered a) (deferred_sack_rtt a) (fresh_sack_rtt a) (rack_rtt_sample a)
    (rtt_sent_ms a).

Definition ack_vars0 : AckVars := mkAckVars 0 None None None None.

Definition on_ack_window (e : StreamEngine) (ack win now : Z) : StreamEngine :=
  if seq.geq ack (snd_una (tx e)) then
    let t := tx e in
    let t := if bbr (cfg e) && ((win =? 0) || (rwnd t =? 0))
             then t <| rate_samples := [] |> <| bbr_last_app_limited_ms := Some now |> else t in
    let t := t <| rwnd := win |> in
    if 0 <? win then
      e <| tx := t <| window_hint_probe_used := false |> |> <| force_probe := false |>
    else e <| tx := t |>
  else e.

(** A RACK delivery during [on_ack], folded into its RTT sample. *)
Definition ack_rack_sample (st : TxState * AckVars) (sent end_ now prior : Z) (retx : bool) :
    TxState * AckVars :=
  let '(t, a) := st in
  let '(t, o) := rack_on_delivery t sent end_ now prior retx in
  match o with
  | Some rtt => (t, a <| rack_rtt_sample := opt_min (rack_rtt_sample a) rtt |>)
  | None => (t, a)
  end.

(** One segment against one SACK range. *)
Definition sack_seg (use_rack : bool) (now old_una prior : Z) (r : SackRange)
    (st : TxState * AckVars) (i : nat) : TxState * AckVars :=
  let '(t, a) := st in
  match segs t !! i with
  | None => st
  | Some s =>
      if handed_off s && negb (sacked s) && seq.geq (seg_seq s) (sr_start r) &&
         seq.leq (seg_end s) (sr_end r) then
        let end_ := seg_end s in
        let a := if negb (is_fin s) && seq.gt end_ old_una
                 then a <| newly_delivered := add32 (newly_delivered a)
                             (sub32 end_ (seq.max (seg_seq s) old_una)) |>
                 else a in
        let s' := s <| sacked := true |> <| needs_resend := false |>
                    <| sack_repair_deadline := None |> in
        let '(s', a) :=
          if negb (retransmitted s) then
            (s' <| sack_first_rtt_ms := Some (Z.min (sat_sub now (sent_ms s)) U32_MAX) |>,
             a <| rtt_sent_ms := opt_max (rtt_sent_ms a) (sent_ms s) |>)
          else (s', a) in
        let t := t <| segs := <[i := s']> (segs t) |> in
        if use_rack && negb (local_pending s)
        then ack_rack_sample (t, a) (sent_ms s) end_ now prior (retransmitted s)
        else (t, a)
      else st
  end.

Definition sack_range (use_rack : bool) (now old_una prior : Z) (st : TxState * AckVars)
    (r : SackRange) : TxState * AckVars :=
  fold_left (sack_seg use_rack now old_una prior r) (List.seq 0 (length (segs st.1))) st.

(** The zero-window probe: (engine, [probe_refused]). *)
Definition on_ack_probe (e : StreamEngine) (ack now : Z) (window_reopened : bool) :
    StreamEngine * bool :=
  let t := tx e in
  let probe_refused := (ack =? snd_una t) && (rwnd t =? 0) && window_probe_handed_off t in
  if probe_refused then
    (e <| tx := t <| persist_probe ::= fmap (fun p => mkPersistProbe (pp_seq p) true) |>
                  <| consec_rto := 0 |> |>, true)
  else if window_reopened && (ack =? snd_una t) && window_probe_handed_off t &&
          is_some_and (persist_probe t) pp_replied then
    (e <| tx := t <| segs ::= (fun l => match l with
                                        | s :: l => s <| needs_resend := true |> :: l
                                        | [] => []
                                        end) |>
                  <| rto_deadline := Some (sat_add64 now (rto_ms t)) |> |>, false)
  else (e, false).

(** What popping one acknowledged, never retransmitted segment tells the RTT estimator. *)
Definition ack_pop_rtt (c : Config) (ack now : Z) (s : Seg) (t : TxState) (a : AckVars)
    (rtt_sample : option Z) : TxState * AckVars * option Z :=
  if negb (retransmitted s) then
    let '(t, a, rtt_sample) :=
      if negb (sacked s) then (t, a, Some (wrap32 (sat_sub now (sent_ms s))))
      else
        let t := t <| rto_sacked_segments_skipped :=
                        sat_add64 (rto_sacked_segments_skipped t) 1 |> in
        match sack_first_rtt_ms s with
        | None => (t, a, rtt_sample)
        | Some rtt =>
            let a := a <| deferred_sack_rtt := opt_max (deferred_sack_rtt a) rtt |> in
            let a :=
              if is_some_and (rto_backoff t) (fun b =>
                   (started_ms b <? sent_ms s) && seq.geq ack (flight_end b) &&
                   (sat_sub now (sat_add64 (sent_ms s) rtt) <? max_rto_ms c))
              then a <| fresh_sack_rtt := opt_max (fresh_sack_rtt a) rtt |> else a in
            (t, a, rtt_sample)
        end in
    let a := if handed_off s && negb (sacked s)
             then a <| rtt_sent_ms := opt_max (rtt_sent_ms a) (sent_ms s) |> else a in
    (t, a, rtt_sample)
  else (t, a, rtt_sample).

(** The loop that pops every wholly acknowledged segment off the front of the flight. *)
Fixpoint ack_pop (c : Config) (ack now old_una prior : Z) (l : list Seg) (t : TxState)
    (a : AckVars) (sacked_overlap : Z) (rtt_sample : option Z) :
    TxState * AckVars * Z * option Z :=
  match l with
  | [] => (t, a, sacked_overlap, rtt_sample)
  | s :: l =>
      if seq.leq (seg_end s) ack then
        let t := t <| segs := l |> in
        let sacked_overlap :=
          if sacked s && negb (is_fin s) && seq.gt (seg_end s) old_una
          then add32 sacked_overlap (sub32 (seg_end s) (seq.max (seg_seq s) old_una))
          else sacked_overlap in
        let '(t, a, rtt_sample) := ack_pop_rtt c ack now s t a rtt_sample in
        let '(t, a) :=
          if rack c && handed_off s && negb (local_pending s) && negb (sacked s)
          then ack_rack_sample (t, a) (sent_ms s) (seg_end s) now prior (retransmitted s)
          else (t, a) in
        let t := if is_fin s then t <| fin_acked := true |> else t in
        ack_pop c ack now old_una prior l t a sacked_overlap rtt_sample
      else (t, a, sacked_overlap, rtt_sample)
  end.

(** Congestion window growth on new cumulative progress. *)
Definition on_ack_cwnd (e : StreamEngine) (ack acked : Z) : StreamEngine :=
  let m := wrap32 (mss (cfg e)) in
  let t := tx e in
  if in_recovery t then
    if seq.geq ack (recover t) then
      e <| tx := t <| in_recovery := false |> <| cwnd := Z.max (ssthresh t) m |> |>
    else
      let e := e <| tx := t <| cwnd := Z.max (sat_sub (cwnd t) acked) m |> |> in
      let e := if negb (rack (cfg e)) then mark_holes e true else e in
      e <| tx := tx e <| cwnd := sat_add32 (cwnd (tx e)) m |> |>
  else if cwnd t <? ssthresh t then e <| tx := t <| cwnd := sat_add32 (cwnd t) acked |> |>
  else
    let inc := wrap32 (Z.max (mul64 m acked / Z.max (cwnd t) 1) 1) in
    e <| tx := t <| cwnd := sat_add32 (cwnd t) inc |> |>.

(** RTO update after new cumulative progress. *)
Definition on_ack_rto (e : StreamEngine) (a : AckVars) (rtt_sample : option Z) (now : Z) :
    StreamEngine :=
  let t := tx e in
  let t :=
    match match rtt_sample with Some r => Some r | None => fresh_sack_rtt a end with
    | Some r =>
        let t := if is_none rtt_sample
                 then t <| rto_fresh_sack_updates := sat_add64 (rto_fresh_sack_updates t) 1 |>
                 else t in
        update_rto t r (cfg e) <| rto_backoff := None |>
    | None => t
    end in
  let t := match deferred_sack_rtt a with
           | Some r => raise_rto_from_deferred_sample t r (cfg e)
           | None => t
           end in
  let t := arm_or_clear_rto t now in
  e <| tx := if track_local_handoffs e then refresh_local_rto t now else t |>.

(** [ack] beyond [snd_una]. *)
Definition on_ack_cumulative (e : StreamEngine) (a : AckVars) (ack now old_una prior : Z) :
    StreamEngine * AckVars :=
  let fin_was_acked := fin_acked (tx e) in
  let '(t, a, sacked_overlap, rtt_sample) :=
    ack_pop (cfg e) ack now old_una prior (segs (tx e)) (tx e) a 0 None in
  let sacked_overlap :=
    match head (segs t) with
    | Some s =>
        if sacked s && negb (is_fin s) then
          let start := seq.max (seg_seq s) old_una in
          if seq.gt ack start then add32 sacked_overlap (sub32 ack start) else sacked_overlap
        else sacked_overlap
    | None => sacked_overlap
    end in
  let acked := sub32 ack (snd_una t) in
  let t := t <| snd_una := ack |> in
  let t := if is_some_and (persist_probe t) (fun p => seq.gt ack (pp_seq p))
           then t <| persist_probe := None |> else t in
  let t := trim_rewound_pending_after_ack t ack in
  let fin_delivered := if negb fin_was_acked && fin_acked t then 1 else 0 in
  let a := a <| newly_delivered := add32 (newly_delivered a)
                  (sat_sub (sat_sub acked sacked_overlap) fin_delivered) |> in
  let t := t <| dup_acks := 0 |> in
  let recovery_exited := (0 <? consec_rto t) || (in_recovery t && seq.geq ack (recover t)) in
  let e := e <| tx := t <| consec_rto := 0 |> |> in
  let e := on_ack_cwnd e ack acked in
  let e := if recovery_exited then e <| tx := complete_rack_recovery (tx e) |> else e in
  (on_ack_rto e a rtt_sample now, a).

(** A duplicate acknowledgement. *)
Definition on_ack_duplicate (e : StreamEngine) : StreamEngine :=
  let m := wrap32 (mss (cfg e)) in
  let e := e <| tx := tx e <| dup_acks := add32 (dup_acks (tx e)) 1 |> |> in
  if (dup_acks (tx e) =? 3) && negb (in_recovery (tx e)) && negb (rack (cfg e)) then
    mark_holes (enter_fast_recovery e) true
  else if in_recovery (tx e) then
    let e := e <| tx := tx e <| cwnd := sat_add32 (cwnd (tx e)) m |> |> in
    if negb (rack (cfg e)) then mark_holes e false else e
  else e.

(** The estimators at the end of [on_ack]: BBR, then RACK. *)
Definition ack_bbr (c : Config) (t : TxState) (a : AckVars) (now : Z) : TxState :=
  let t := match rtt_sent_ms a with
           | Some sent =>
               let rtt := Z.min (sat_sub now sent) U32_MAX in
               if bbr c then bbr_on_rtt t rtt sent now c else t
           | None => t
           end in
  if bbr c && (0 <? newly_delivered a)
  then bbr_on_delivered t (newly_delivered a) now (negb (is_nil (pending t))) (wrap32 (mss c))
  else t.

Definition ack_rack (c : Config) (t : TxState) (a : AckVars) (ack : Z) (sacks : SackVec)
    (now : Z) : TxState :=
  let t := match rack_rtt_sample a with
           | Some rtt => t <| rack_rtt_ms := rtt |>
           | None => t
           end in
  if rack c then note_dsack t ack sacks now else t.

Definition on_ack_tail (e : StreamEngine) (a : AckVars) (ack : Z) (sacks : SackVec) (now : Z) :
    StreamEngine :=
  let e := e <| tx := ack_rack (cfg e) (ack_bbr (cfg e) (tx e) a now) a ack sacks now |> in
  let e := if rack (cfg e) then rack_check e now else e in
  let e := if track_local_handoffs e then e <| tx := refresh_local_rto (tx e) now |> else e in
  if is_some (next_sack_repair_ms (tx e))
  then e <| tx := refresh_sack_repair_deadline (tx e) |> else e.

Definition on_ack (e : StreamEngine) (ack win : Z) (sacks : SackVec) (now : Z) : StreamEngine :=
  let e := note_peer_progress e in
  if phase_eqb (phase e) SynSent || phase_eqb (phase e) Closed then e
  else if seq.gt ack (ack_limit (tx e)) then e
  else
    let window_changed := seq.geq ack (snd_una (tx e)) && negb (rwnd (tx e) =? win) in
    let window_reopened := seq.geq ack (snd_una (tx e)) && (rwnd (tx e) =? 0) && (0 <? win) in
    let e := on_ack_window e ack win now in
    let prior := rack_xmit_ms (tx e) in
    let old_una := snd_una (tx e) in
    let '(t, a) :=
      fold_left (sack_range (rack (cfg e)) now old_una prior) sacks (tx e, ack_vars0) in
    let e := e <| tx := t |> in
    let '(e, probe_refused) := on_ack_probe e ack now window_reopened in
    let '(e, a) :=
      if seq.gt ack (snd_una (tx e)) then on_ack_cumulative e a ack now old_una prior
      else if (ack =? snd_una (tx e)) && negb probe_refused &&
              (negb window_changed || (0 <? newly_delivered a)) && negb (is_nil (segs (tx e))) &&
              (negb (track_local_handoffs e) ||
               existsb (fun s => handed_off s && negb (sacked s) && negb (local_pending s))
                 (segs (tx e)))
      then (on_ack_duplicate e, a)
      else (e, a) in
    on_ack_tail e a ack sacks now.

(** [on_cell] after the frame has been decoded. *)
Definition on_frame (e : StreamEngine) (f : Frame) (now : Z) : option StreamEngine :=
  if negb (frame_stream_id f =? stream_id e) then Some e
  else
    match f with
    | Syn _ isn win => Some (on_syn e isn win now)
    | SynAck _ isn win ack => Some (on_synack e isn win ack)
    | Data _ sq win payload => on_data e sq win payload now
    | Ack _ ack win sacks => Some (on_ack e ack win sacks now)
    | Fin _ sq => Some (on_peer_fin e sq)
    | Rst _ reason => Some (on_rst e reason)
    end.

Definition on_cell (e : StreamEngine) (cell : list byte) (now : Z) : option StreamEngine :=
  match decode cell with
  | None => Some e
  | Some f => on_frame e f now
  end.

(** ** Transmission *)

Definition pace_params (e : StreamEngine) : Z * Z :=
  let t := tx e in
  let c := cfg e in
  if bbr c && (0 <? btl_bw t) then bbr_pacing_params c (btl_bw t) (bbr_startup t)
  else
    match srtt t with
    | None => (0, U32_MAX)
    | Some srtt =>
        let win := Z.max (Z.min (cwnd t) (rwnd t)) (wrap32 (mss c)) in
        let gain := if cwnd t <? ssthresh t then 2 else 1 in
        let num := sat_mul64 win gain in
        let den := sat_mul64 (Z.max srtt 1) (mss c) in
        if den <=? num then (1, clamp (num / den) 1 (Z.max (max_pacing_batch c) 1))
        else (Z.max (div_ceil den num) 1, 1)
    end.

Definition paced_send_ready (e : StreamEngine) : bool :=
  let t := tx e in
  if existsb needs_resend (segs t) then true
  else
    let window := effective_send_window e in
    let inflight := sub32 (snd_nxt t) (snd_una t) in
    if seq.geq inflight window then false
    else negb (is_nil (pending t)) || (fin_requested t && negb (fin_sent t)).

(** A segment pushed by [create_next_segment]. *)
Definition fresh_seg (e : StreamEngine) (seq_no : Z) (data : list byte) (fin : bool) (now : Z) : Seg :=
  let span := if fin then 1 else wrap32 (zlen data) in
  {| seg_seq := seq_no; seg_data := data; is_fin := fin; sent_ms := now;
     retransmitted := track_local_handoffs e &&
                      is_some_and (rewind_high (tx e)) (fun high => seq.lt seq_no high);
     sacked := false; needs_resend := false;
     local_pending := track_local_handoffs e;
     handed_off := negb (track_local_handoffs e) ||
                   is_some_and (rewind_high (tx e)) (fun high => seq.leq (add32 seq_no span) high);
     sack_repair_deadline := None; sack_first_rtt_ms := None |}.

Definition push_seg (e : StreamEngine) (s : Seg) (now : Z) : StreamEngine :=
  let t := tx e <| segs := segs (tx e) ++ [s] |> in
  e <| tx := if negb (track_local_handoffs e) && is_none (rto_deadline t)
             then t <| rto_deadline := Some (add64 now (rto_ms t)) |> else t |>.

Definition create_next_segment (e : StreamEngine) (now : Z) : StreamEngine * bool :=
  let t := tx e in
  let m := wrap32 (mss (cfg e)) in
  let window := effective_send_window e in
  let inflight := sub32 (snd_nxt t) (snd_una t) in
  let probe := force_probe e in
  if negb probe && (window <=? inflight) then (e, false)
  else
    let room := if probe then Z.max (sub32 window inflight) 1 else sub32 window inflight in
    if negb (is_nil (pending t)) then
      let take := Z.min (Z.min m room) (wrap32 (zlen (pending t))) in
      if take =? 0 then (e, false)
      else
        let e := e <| force_probe := false |> in
        let data := ztake take (pending t) in
        let seq_no := snd_nxt t in
        let t := t <| pending := zdrop take (pending t) |> in
        let t :=
          if probe && (rwnd t =? 0) then t <| persist_probe := Some (mkPersistProbe seq_no false) |>
          else if is_some_and (persist_probe t) (fun p => pp_seq p =? seq_no)
          then t <| persist_probe := None |> else t in
        let e := e <| tx := t <| snd_nxt := add32 (snd_nxt t) take |> |> in
        (push_seg e (fresh_seg e seq_no data false now) now, true)
    else if fin_requested t && negb (fin_sent t) && (1 <=? room) then
      let seq_no := snd_nxt t in
      let e := e <| force_probe := false |>
                 <| tx := t <| snd_nxt := add32 (snd_nxt t) 1 |> <| fin_sent := true |> |> in
      (push_seg e (fresh_seg e seq_no [] true now) now, true)
    else (e, false).

(** [encode_seg_at]: the frame of a segment of the flight. *)
Definition seg_frame (e : StreamEngine) (s : Seg) : Frame :=
  if is_fin s then Fin (stream_id e) (seg_seq s)
  else Data (stream_id e) (seg_seq s) (advertised (rx e)) (seg_data s).

(** The SACK list of [make_ack] and its updated promotion counter. *)
Definition push_blocks_after (skip1 skip2 : option (Z * Z)) :
    list (Z * Z) -> SackVec -> SackVec :=
  fix go blocks sacks :=
    match blocks with
    | [] => sacks
    | b :: blocks =>
        if bool_decide (skip1 = Some b) || bool_decide (skip2 = Some b) then go blocks sacks
        else
          let '(sacks, pushed) := sack_push sacks (mkSackRange b.1 b.2) in
          if pushed then go blocks sacks else sacks
    end.

Definition make_ack (e : StreamEngine) : StreamEngine * Frame :=
  let blocks := sack_blocks (rx e) in
  let recent :=
    seq_no ← recent_sack_seq e;
    List.find (fun b => seq.geq seq_no b.1 && seq.lt seq_no b.2) blocks in
  let duplicate := duplicate_range e in
  let e := e <| duplicate_range := None |> in
  let enclosing :=
    d ← duplicate;
    if seq.geq (sr_start d) (rcv_nxt (rx e)) then
      List.find (fun b => seq.leq b.1 (sr_start d) && seq.geq b.2 (sr_end d)) blocks
    else None in
  let sacks := match duplicate with Some d => (sack_push [] d).1 | None => [] end in
  let sacks := match enclosing with
               | Some b => (sack_push sacks (mkSackRange b.1 b.2)).1
               | None => sacks
               end in
  let '(e, sacks) :=
    match recent with
    | Some b =>
        if negb (bool_decide (recent = enclosing)) then
          let old_prefix_has_recent :=
            existsb (fun b' => bool_decide (b' = b))
              (ztake (MAX_SACKS - zlen sacks)
                 (List.filter (fun b' => negb (bool_decide (Some b' = enclosing))) blocks)) in
          let e := if negb old_prefix_has_recent
                   then e <| sack_recent_promotions := sat_add64 (sack_recent_promotions e) 1 |>
                   else e in
          (e, (sack_push sacks (mkSackRange b.1 b.2)).1)
        else (e, sacks)
    | None => (e, sacks)
    end in
  let sacks := push_blocks_after enclosing recent blocks sacks in
  let e := e <| rx := rx e <| last_ack_window := advertised (rx e) |> |> in
  (e, Ack (stream_id e) (rcv_nxt (rx e)) (last_ack_window (rx e)) sacks).

Definition poll_ack (e : StreamEngine) : StreamEngine * option Frame :=
  if negb (ack_pending e) || phase_eqb (phase e) Closed then (e, None)
  else
    let e := e <| ack_pending := false |> <| ack_eliciting := 0 |> <| ack_deadline := None |> in
    let '(e, f) := make_ack e in (e, Some f).

(** The pacing refill of [poll_transmit]. *)
Definition pace_refill (e : StreamEngine) (now : Z) : StreamEngine :=
  if pace_next_ms (tx e) <=? now then
    let '(interval, batch) := pace_params e in
    let prev_refill := sat_sub (pace_next_ms (tx e)) interval in
    let elapsed := Z.max (sat_sub now prev_refill) interval in
    let ticks := clamp (elapsed / Z.max interval 1) 1 8 in
    e <| tx := tx e <| pace_budget := Z.min (sat_mul64 batch ticks)
                                            (Z.max (max_pacing_batch (cfg e)) 1) |>
                    <| pace_next_ms := add64 now interval |> |>
  else e.

Fixpoint position {A} (p : A -> bool) (l : list A) : option nat :=
  match l with
  | [] => None
  | x :: l => if p x then Some 0%nat else S <$> position p l
  end.

(** Retransmit segment [i] of the flight, [s]: its state and the frame. *)
Definition resend_seg (e : StreamEngine) (i : nat) (s : Seg) (now : Z) : StreamEngine * Frame :=
  let s := s <| needs_resend := false |> <| sack_repair_deadline := None |> in
  let t := tx e <| segs := <[i := s]> (segs (tx e)) |> in
  let t := if is_some (next_sack_repair_ms t) then refresh_sack_repair_deadline t else t in
  let t := if rack (cfg e)
           then record_rack_repair t (seg_seq s) (seg_end s) (sent_ms s)
                  (if track_local_handoffs e then None else Some now) now
           else t in
  let s := s <| retransmitted := true |> <| sent_ms := now |> in
  let t := t <| segs := <[i := s]> (segs t) |> in
  let t :=
    match persist_probe t with
    | Some probe =>
        if pp_seq probe =? seg_seq s then
          let t := t <| persist_probe := Some (mkPersistProbe (pp_seq probe) false) |> in
          if negb (track_local_handoffs e)
          then t <| rto_deadline := Some (sat_add64 now (rto_ms t)) |> else t
        else t
    | None => t
    end in
  let s := s <| local_pending := track_local_handoffs e |> in
  let t := t <| segs := <[i := s]> (segs t) |> in
  let t := if track_local_handoffs e then refresh_local_rto t now else t in
  let t := t <| pace_budget := sat_sub (pace_budget t) 1 |> in
  let e := e <| tx := t |> in
  (e, seg_frame e s).

(** Handing a handshake frame to a tracked carrier. *)
Definition track_handshake (e : StreamEngine) (now : Z) : StreamEngine :=
  if track_local_handoffs e && handshake_unconfirmed e then
    arm_local_handshake_limit (e <| hs_local_pending := true |> <| hs_deadline := None |>) now
  else e.

(** The DATA and FIN part of the scheduler: retransmissions first, then new segments. *)
Definition poll_segment (e : StreamEngine) (now : Z) (allow_new : bool) :
    StreamEngine * option Frame :=
  if phase_eqb (phase e) Established then
    let e := pace_refill e now in
    let due := if 0 <? pace_budget (tx e) then
                 i ← position (fun s => needs_resend s && negb (local_pending s)) (segs (tx e));
                 s ← segs (tx e) !! i;
                 Some (i, s)
               else None in
    match due with
    | Some (i, s) => let '(e, f) := resend_seg e i s now in (e, Some f)
    | None =>
        if allow_new && (force_probe e || (0 <? pace_budget (tx e))) then
          let '(e, created) := create_next_segment e now in
          if created then
            let e := e <| tx := tx e <| pace_budget := sat_sub (pace_budget (tx e)) 1 |> |> in
            (e, seg_frame e <$> last (segs (tx e)))
          else (e, None)
        else (e, None)
    end
  else (e, None).

Definition poll_transmit_inner (e : StreamEngine) (now : Z) (allow_new : bool) :
    StreamEngine * option Frame :=
  let e := e <| tx := advance_bbr_probe (tx e) now (cfg e) |> in
  match rst_to_send e with
  | Some reason => (e <| rst_to_send := None |>, Some (Rst (stream_id e) reason))
  | None =>
  if send_syn e then
    let e := track_handshake (e <| send_syn := false |>) now in
    (e, Some (Syn (stream_id e) (iss (tx e)) (advertised (rx e))))
  else if send_synack e then
    let e := track_handshake (e <| send_synack := false |>) now in
    (e, Some (SynAck (stream_id e) (iss (tx e)) (advertised (rx e)) (rcv_nxt (rx e))))
  else
    match (if allow_new then (e, None) else poll_ack e) with
    | (e, Some f) => (e, Some f)
    | (e, None) =>
        match poll_segment e now allow_new with
        | (e, Some f) => (e, Some f)
        | (e, None) =>
            match poll_ack e with
            | (e, Some f) => (e, Some f)
            | (e, None) =>
                (e <| persist_deadline :=
                        if zero_window_blocked e then
                          match persist_deadline e with
                          | Some d => Some d
                          | None => Some (add64 now (Z.max (rto_ms (tx e)) (min_rto_ms (cfg e))))
                          end
                        else None |>, None)
            end
        end
    end
  end.

(** [poll_transmit] and [poll_repair_transmit] append the encoded frame to [out]. *)
Definition poll_transmit (e : StreamEngine) (now : Z) (out : list byte) :
    StreamEngine * list byte * bool :=
  match poll_transmit_inner e now true with
  | (e, Some f) => (e, out ++ encode f, true)
  | (e, None) => (e, out, false)
  end.

Definition poll_repair_transmit (e : StreamEngine) (now : Z) (out : list byte) :
    StreamEngine * list byte * bool :=
  match poll_transmit_inner e now false with
  | (e, Some f) => (e, out ++ encode f, true)
  | (e, None) => (e, out, false)
  end.

(** ** Timers *)

Definition requeued_bytes (una : Z) (s : Seg) : list byte :=
  if is_fin s then []
  else zdrop (if seq.lt (seg_seq s) una then sub32 una (seg_seq s) else 0) (seg_data s).

Definition requeue_unsacked_flight_for_rto (t : TxState) : TxState :=
  let high := match rewind_high t with
              | Some high => seq.max high (snd_nxt t)
              | None => snd_nxt t
              end in
  let rewound_fin := existsb is_fin (segs t) in
  let requeued := flat_map (requeued_bytes (snd_una t)) (segs t) in
  let t := t <| segs := [] |> <| next_sack_repair_ms := None |>
             <| pending := requeued ++ pending t |> <| snd_nxt := snd_una t |>
             <| rewind_high := Some high |>
             <| rewind_fin := rewind_fin t || rewound_fin |> in
  if rewound_fin then t <| fin_sent := false |> else t.

(** The congestion response of a data timeout: (new [ssthresh], whether the flight is rewound). *)
Definition rto_response (e : StreamEngine) : Z * bool :=
  let t := tx e in
  let m := wrap32 (mss (cfg e)) in
  let flight := sub32 (snd_nxt t) (snd_una t) in
  let no_sack_rewind :=
    rto_rewind_no_sack (cfg e) && forallb (fun s => negb (sacked s)) (segs t) &&
    forallb (fun s => negb (local_pending s)) (segs t) &&
    existsb (fun s => negb (is_fin s)) (segs t) in
  let basis := if no_sack_rewind then Z.max flight (Z.max (Z.min (cwnd t) (rwnd t)) m)
               else flight in
  let ss :=
    if no_sack_rewind && (consec_rto t =? 1) then
      wrap32 (Z.max (basis * 3 / 4) (mul32 2 m))
    else if rto_rewind_no_sack (cfg e) && negb no_sack_rewind then loss_decrease_window e basis m
    else Z.max (basis / 2) (mul32 2 m) in
  (ss, no_sack_rewind).

(** The state a data timeout leaves before the flight is marked or rewound: halved threshold,
    doubled timer. *)
Definition rto_backed_off (c : Config) (t : TxState) (ss now : Z) : TxState :=
  let high := match rewind_high t with
              | Some high => seq.max high (snd_nxt t)
              | None => snd_nxt t
              end in
  t <| ssthresh := ss |> <| in_recovery := false |> <| dup_acks := 0 |>
    <| rto_backoff := Some (mkRtoBackoff now high) |>
    <| rto_ms := Z.min (mul64 (rto_ms t) 2) (max_rto_ms c) |>.

(** The rest of it: rewind the flight, repair its holes, or resend its oldest segment. *)
Definition rto_recover (e : StreamEngine) (t : TxState) (ss now expired_rto_ms : Z)
    (no_sack_rewind : bool) : StreamEngine :=
  let m := wrap32 (mss (cfg e)) in
  let rewound_cwnd := Z.max (Z.min (Z.max ss (init_cwnd (cfg e))) (rwnd t)) m in
  if no_sack_rewind then
    e <| tx := requeue_unsacked_flight_for_rto t
                 <| cwnd := rewound_cwnd |> <| pace_next_ms := now |> <| pace_budget := 0 |>
                 <| rto_deadline := None |> |>
  else if rto_rewind_no_sack (cfg e) then
    let e := mark_holes (e <| tx := t <| cwnd := rewound_cwnd |> |>) true in
    let e := mark_expired_sack_repairs e now expired_rto_ms in
    let e := mark_oldest_unsacked_for_rto e in
    e <| tx := tx e <| pace_next_ms := now |> <| pace_budget := 0 |>
                    <| rto_deadline := Some (add64 now (rto_ms (tx e))) |> |>
  else
    let t := mark_oldest_unsacked (t <| cwnd := m |>) in
    e <| tx := t <| rto_deadline := Some (add64 now (rto_ms t)) |> |>.

(** A data timeout that is neither stale nor a window probe's. *)
Definition on_data_rto (e : StreamEngine) (now : Z) : StreamEngine :=
  let e := e <| tx := tx e <| consec_rto := add32 (consec_rto (tx e)) 1 |> |> in
  if max_retransmits (cfg e) <? consec_rto (tx e) then declare_dead e
  else
    let t := tx e in
    let flight := sub32 (snd_nxt t) (snd_una t) in
    let e := push_event e (DataRto (consec_rto t) (snd_una t)
      (is_nil (pending t) && (flight <=? wrap32 (mss (cfg e))) && is_none (rewind_high t) &&
       forallb (fun s => negb (local_pending s)) (segs t))) in
    let '(ss, no_sack_rewind) := rto_response e in
    let e := rto_recover e (rto_backed_off (cfg e) t ss now) ss now (rto_ms t) no_sack_rewind in
    if track_local_handoffs e then e <| tx := refresh_local_rto (tx e) now |> else e.

(** The retransmission timer of [on_timeout]; the boolean is its early return. *)
Definition on_rto_timer (e : StreamEngine) (now : Z) : StreamEngine * bool :=
  let t := tx e in
  let no_network_flight := track_local_handoffs e &&
    negb (existsb (fun s => negb (sacked s) && negb (local_pending s)) (segs t)) in
  match rto_deadline t with
  | None => (e, false)
  | Some dl =>
      if negb (dl <=? now) then (e, false)
      else if is_nil (segs t) || no_network_flight then
        (e <| tx := t <| rto_deadline := None |> |>, false)
      else if (rwnd t =? 0) && window_probe_handed_off t &&
              is_some_and (persist_probe t) pp_replied then
        (e <| tx := t <| segs ::= (fun l => match l with
                                            | s :: l => s <| needs_resend := true |> :: l
                                            | [] => []
                                            end) |>
                      <| rto_deadline := None |> |>, false)
      else let e := on_data_rto e now in (e, phase_eqb (phase e) Closed)
  end.

Definition on_persist_timer (e : StreamEngine) (now : Z) : StreamEngine :=
  if is_some_and (persist_deadline e) (fun dl => dl <=? now) then
    if zero_window_blocked e then
      e <| force_probe := true |>
        <| persist_deadline := Some (add64 now (Z.max (rto_ms (tx e)) (min_rto_ms (cfg e)))) |>
    else e <| persist_deadline := None |>
  else e.

(** The handshake timer; the boolean is its early return. *)
Definition on_handshake_timer (e : StreamEngine) (now : Z) : StreamEngine * bool :=
  if is_some_and (hs_deadline e) (fun dl => dl <=? now) && negb (syn_acked e) then
    let e := e <| hs_retries := add32 (hs_retries e) 1 |> in
    if max_retransmits (cfg e) <? hs_retries e then (declare_dead e, true)
    else
      let e := match phase e with
               | SynSent => e <| send_syn := true |>
               | Established => e <| send_synack := true |>
               | _ => e
               end in
      let e := push_event e (HandshakeRto (hs_retries e)) in
      (e <| hs_deadline := if track_local_handoffs e then None
                           else Some (add64 now (handshake_rto_ms (cfg e))) |>, false)
  else (e, false).

Definition on_timeout (e : StreamEngine) (now : Z) : StreamEngine :=
  if phase_eqb (phase e) Closed then e
  else
    let e := e <| tx := advance_bbr_probe (tx e) now (cfg e) |> in
    if is_some_and (hs_local_deadline e) (fun dl => dl <=? now) then
      declare_dead (e <| hs_local_deadline := None |>)
    else
      let e := if is_some_and (ack_deadline e) (fun dl => dl <=? now) then ack_now e else e in
      let e := if syn_acked e then e <| hs_deadline := None |> else e in
      let '(e, dead) := on_handshake_timer e now in
      if dead then e
      else
        let e := if rack (cfg e) && is_some_and (rack_deadline (tx e)) (fun dl => dl <=? now)
                 then rack_check e now else e in
        let e := mark_due_sack_repairs e now in
        let '(e, dead) := on_rto_timer e now in
        if dead then e else on_persist_timer e now.

Definition merge_deadline (t x : option Z) : option Z :=
  match x with Some v => opt_min t v | None => t end.

Definition next_timeout_with_pacing (e : StreamEngine) (include_pacing : bool) : option Z :=
  let t := fold_left merge_deadline
    [hs_deadline e; hs_local_deadline e; rto_deadline (tx e); rack_deadline (tx e);
     persist_deadline e; ack_deadline e] None in
  let t := if phase_eqb (phase e) Established
           then merge_deadline (merge_deadline t (next_sack_repair_ms (tx e)))
                  (bbr_probe_deadline (tx e) (cfg e))
           else t in
  if include_pacing && phase_eqb (phase e) Established && paced_send_ready e
  then merge_deadline t (Some (pace_next_ms (tx e))) else t.

Definition next_timeout (e : StreamEngine) : option Z := next_timeout_with_pacing e true.

(** ** Operations as data

    Everything the driver and the application can do to an engine, and its runs: what has been
    written to it, read from it and emitted by it so far. *)

Inductive Op :=
| OpWrite (data : list byte)
| OpFinish
| OpReset (reason : Z)
| OpRead (len : Z)
| OpEvent
| OpCell (cell : list byte) (now : Z)
| OpPoll (now : Z) (allow_new : bool)
| OpTimeout (now : Z)
| OpHandoff (accepted : gmap LocalTransmit Z) (now : Z)
| OpDiscard (cell : list byte)
| OpTrack.

Record Effect := mkEffect { ef_written : list byte; ef_read : list byte; ef_sent : list Frame }.

Definition silent : Effect := mkEffect [] [] [].

Definition step (e : StreamEngine) (op : Op) : option (StreamEngine * Effect) :=
  match op with
  | OpWrite data =>
      let '(e', n) := engine_write e data in Some (e', mkEffect (ztake n data) [] [])
  | OpFinish => Some (engine_finish e, silent)
  | OpReset reason => Some (engine_reset e reason, silent)
  | OpRead len => let '(e', out) := engine_read e len in Some (e', mkEffect [] out [])
  | OpEvent => Some ((poll_event e).1, silent)
  | OpCell cell now => e' ← on_cell e cell now; Some (e', silent)
  | OpPoll now allow_new =>
      let '(e', f) := poll_transmit_inner e now allow_new in
      Some (e', mkEffect [] [] (option_list f))
  | OpTimeout now => Some (on_timeout e now, silent)
  | OpHandoff accepted now => Some (local_handoff e accepted now, silent)
  | OpDiscard cell => Some ((discard_received_cell e cell).1, silent)
  | OpTrack => Some (start_tracking e, silent)
  end.

(** [runs G e0 e w]: [e] is reached from [e0] by operations that satisfy [G] where they are
    applied, and [w] is the effect of the whole run. *)
Inductive runs (G : StreamEngine -> Op -> Prop) (e0 : StreamEngine) : StreamEngine -> Effect -> Prop :=
| runs_start : runs G e0 e0 silent
| runs_step e w op e' w' :
    runs G e0 e w -> G e op -> step e op = Some (e', w') ->
    runs G e0 e' (mkEffect (ef_written w ++ ef_written w') (ef_read w ++ ef_read w')
                           (ef_sent w ++ ef_sent w')).

Definition any_op (_ : StreamEngine) (_ : Op) : Prop := True.

(** A run by a list of operations, to evaluate. *)
Fixpoint run_ops (e : StreamEngine) (w : Effect) (ops : list Op) : option (StreamEngine * Effect) :=
  match ops with
  | [] => Some (e, w)
  | op :: ops =>
      '(e', w') ← step e op;
      run_ops e' (mkEffect (ef_written w ++ ef_written w') (ef_read w ++ ef_read w')
                           (ef_sent w ++ ef_sent w')) ops
  end.

Lemma run_ops_runs e0 ops : forall e w e' w',
  runs any_op e0 e w -> run_ops e w ops = Some (e', w') -> runs any_op e0 e' w'.
Proof.
  induction ops as [|op ops IH]; intros e w e' w' Hr; cbn [run_ops]; [by intros [= <- <-]|].
  destruct (step e op) as [[e1 w1]|] eqn:E; [|done]. cbn [mbind option_bind].
  apply IH. by eapply runs_step.
Qed.

(** [obeys g e ops]: every operation of the run passes the test [g] where it is applied. *)
Fixpoint obeys (g : StreamEngine -> Op -> bool) (e : StreamEngine) (ops : list Op) : bool :=
  match ops with
  | [] => true
  | op :: ops => g e op && match step e op with Some (e', _) => obeys g e' ops | None => false end
  end.

Lemma run_ops_obeys (G : StreamEngine -> Op -> Prop) (g : StreamEngine -> Op -> bool) e0 ops :
  (forall e op, g e op = true -> G e op) -> forall e w e' w',
  runs G e0 e w -> obeys g e ops = true -> run_ops e w ops = Some (e', w') -> runs G e0 e' w'.
Proof.
  intros Hg. induction ops as [|op ops IH]; intros e w e' w' Hr; cbn [run_ops obeys];
    [by intros _ [= <- <-]|].
  intros [H1 H2]%andb_true_iff. destruct (step e op) as [[e1 w1]|] eqn:E; [|done].
  cbn [mbind option_bind]. apply IH; [|done]. eapply runs_step; eauto.
Qed.
