(* ===== verification/StreamTxInv.v ===== *)
(** * Invariant of the send side

    What the sender keeps true of the bytes it has been given, whatever the peer acknowledges:
    the flight is a contiguous run of segments cut from the written stream, the queue is the rest
    of it, and a rewound flight stays within what was once sent.  The estimators of StreamTx.v
    and the loss marks of StreamEngine.v do not touch any of this ([tx_core] is unchanged). *)

From S2P Require Import Prelude BTree Seq StreamWire StreamRx StreamRxInv StreamRxRuns StreamTx.
From S2P Require Import StreamEngine.

(** ** What the estimators leave alone *)

Definition seg_core (s : Seg) : Z * list byte * bool := (seg_seq s, seg_data s, is_fin s).

Definition tx_core (t : TxState) :=
  (iss t, snd_una t, snd_nxt t, pending t, map seg_core (segs t), (rewind_high t, rewind_fin t),
   (fin_requested t, fin_sent t, fin_acked t)).

Create HintDb core_unchanged.
Create Rewrite HintDb core_unchanged.

(** Case analysis on whatever the goal matches on, until both sides agree by computation. *)
Ltac core_step :=
  match goal with
  | |- _ => reflexivity
  | |- context [match ?x with _ => _ end] => destruct x eqn:?
  end.
Ltac core_tac := intros; repeat core_step.

Lemma core_refresh_sack_repair_deadline t : tx_core (refresh_sack_repair_deadline t) = tx_core t.
Proof. done. Qed.

Lemma core_refresh_local_rto t now : tx_core (refresh_local_rto t now) = tx_core t.
Proof. unfold refresh_local_rto. core_tac. Qed.

Lemma core_arm_or_clear_rto t now : tx_core (arm_or_clear_rto t now) = tx_core t.
Proof. unfold arm_or_clear_rto. core_tac. Qed.

Lemma core_update_rto t r c : tx_core (update_rto t r c) = tx_core t.
Proof. unfold update_rto. core_tac. Qed.

Lemma core_raise_rto t r c : tx_core (raise_rto_from_deferred_sample t r c) = tx_core t.
Proof.
  unfold raise_rto_from_deferred_sample. case_match; apply (core_update_rto t r c).
Qed.

Lemma core_record_rack_repair t a b o h now : tx_core (record_rack_repair t a b o h now) = tx_core t.
Proof. unfold record_rack_repair. core_tac. Qed.

Lemma core_note_dsack t ack sacks now : tx_core (note_dsack t ack sacks now) = tx_core t.
Proof. unfold note_dsack. core_tac. Qed.

Lemma core_complete_rack_recovery t : tx_core (complete_rack_recovery t) = tx_core t.
Proof. unfold complete_rack_recovery. core_tac. Qed.

Lemma core_expire_rack_reordering t now : tx_core (expire_rack_reordering t now) = tx_core t.
Proof. unfold expire_rack_reordering. core_tac. Qed.

Lemma core_observe_rack_reordering t s now : tx_core (observe_rack_reordering t s now) = tx_core t.
Proof.
  unfold observe_rack_reordering. rewrite <- (core_expire_rack_reordering t now).
  case_match; done.
Qed.

Lemma core_rack_frontier t s e : tx_core (rack_frontier t s e) = tx_core t.
Proof. unfold rack_frontier. core_tac. Qed.

Lemma core_rack_on_delivery t s e now p r : tx_core (rack_on_delivery t s e now p r).1 = tx_core t.
Proof.
  unfold rack_on_delivery. destruct r.
  - destruct (rack_min_rtt t) as [[]|]; [|done]. destruct (_ || _); [done|].
    apply core_rack_frontier.
  - cbn [fst]. rewrite core_rack_frontier.
    destruct (s <? p), (is_none_or _ _); rewrite ?core_observe_rack_reordering; done.
Qed.

Lemma core_bbr_startup_check t now : tx_core (bbr_startup_check t now) = tx_core t.
Proof. unfold bbr_startup_check. core_tac. Qed.

Lemma core_bbr_store_sample t s now b : tx_core (bbr_store_sample t s now b) = tx_core t.
Proof.
  unfold bbr_store_sample. set (r := b && _). set (st := is_none_or _ _).
  destruct r, st; case_match; rewrite ?core_bbr_startup_check; done.
Qed.

Lemma core_bbr_on_delivered t a now b m : tx_core (bbr_on_delivered t a now b m) = tx_core t.
Proof.
  unfold bbr_on_delivered. set (p := is_none_or _ _).
  destruct b, p; repeat case_match; rewrite ?core_bbr_store_sample; done.
Qed.

Lemma core_advance_bbr_probe t now c : tx_core (advance_bbr_probe t now c) = tx_core t.
Proof. unfold advance_bbr_probe. core_tac. Qed.

Lemma core_bbr_probe_sample t r s now c : tx_core (bbr_probe_sample t r s now c) = tx_core t.
Proof.
  unfold bbr_probe_sample. repeat case_match; rewrite ?core_advance_bbr_probe; done.
Qed.

Lemma core_bbr_on_rtt t r s now c : tx_core (bbr_on_rtt t r s now c) = tx_core t.
Proof.
  unfold bbr_on_rtt. rewrite <- (core_advance_bbr_probe t now c).
  repeat case_match; rewrite ?core_bbr_probe_sample; done.
Qed.

#[export] Hint Rewrite core_refresh_sack_repair_deadline core_refresh_local_rto
  core_arm_or_clear_rto core_update_rto core_raise_rto core_record_rack_repair core_note_dsack
  core_complete_rack_recovery core_expire_rack_reordering core_rack_on_delivery
  core_bbr_on_delivered core_advance_bbr_probe core_bbr_on_rtt : core_unchanged.

(** ** What the loss marks leave alone *)

(** [e'] differs from [e] in the send side only, and there not in its core. *)
Definition marks (e e' : StreamEngine) : Prop :=
  e' = e <| tx := tx e' |> /\ tx_core (tx e') = tx_core (tx e).

Lemma marks_refl e : marks e e.
Proof. split; [by destruct e|done]. Qed.

Lemma marks_trans e1 e2 e3 : marks e1 e2 -> marks e2 e3 -> marks e1 e3.
Proof.
  intros [E1 H1] [E2 H2]. split; [|congruence]. rewrite E2, E1. by destruct e1.
Qed.

Lemma marks_tx e t : tx_core t = tx_core (tx e) -> marks e (e <| tx := t |>).
Proof. intros H. split; [by destruct e|exact H]. Qed.

Lemma marks_then e e1 t :
  marks e e1 -> tx_core t = tx_core (tx e1) -> marks e (e1 <| tx := t |>).
Proof. intros H Ht. eapply marks_trans; [exact H|]. by apply marks_tx. Qed.

Lemma marks_if (b : bool) e e1 e2 : marks e e1 -> marks e e2 -> marks e (if b then e1 else e2).
Proof. by destruct b. Qed.

#[export] Hint Resolve marks_refl marks_tx marks_if : core_unchanged.

Lemma update_first_core p f l :
  (forall s, seg_core (f s) = seg_core s) -> map seg_core (update_first p f l) = map seg_core l.
Proof.
  intros Hf. induction l as [|s l IH]; [done|]. simpl. destruct (p s); simpl; congruence.
Qed.

Lemma map_core f l :
  (forall s, seg_core (f s) = seg_core s) -> map seg_core (map f l) = map seg_core l.
Proof. intros Hf. rewrite map_map. by apply map_ext. Qed.

Lemma insert_core l i s s' :
  l !! i = Some s -> seg_core s' = seg_core s -> map seg_core (<[i := s']> l) = map seg_core l.
Proof.
  intros Hl Hs. rewrite (list_fmap_insert seg_core l i s' : map seg_core _ = _).
  apply list_insert_id. rewrite Hs. by apply (list_lookup_fmap_Some_2 seg_core l i s).
Qed.

(** Replacing the flight by one with the same core. *)
Lemma core_segs t l :
  map seg_core l = map seg_core (segs t) -> tx_core (t <| segs := l |>) = tx_core t.
Proof. intros H. unfold tx_core. cbn. by rewrite H. Qed.

Lemma mark_holes_scan_core l : map seg_core (mark_holes_scan l).1.1 = map seg_core l.
Proof.
  induction l as [|s l IH]; [done|]. simpl.
  destruct (mark_holes_scan l) as [[l' k] any]. simpl in *.
  repeat case_match; simpl; by rewrite IH.
Qed.

Lemma core_mark_holes_tx t b : tx_core (mark_holes_tx t b) = tx_core t.
Proof.
  unfold mark_holes_tx. pose proof (mark_holes_scan_core (segs t)) as H.
  destruct (mark_holes_scan (segs t)) as [[l k] any]. simpl in H.
  destruct (negb any && b).
  - rewrite <- (core_segs t l H). apply core_segs. by apply update_first_core.
  - by apply core_segs.
Qed.

Lemma expired_repairs_scan_core now r l : map seg_core (expired_repairs_scan now r l).1 = map seg_core l.
Proof.
  induction l as [|s l IH]; [done|]. simpl.
  destruct (expired_repairs_scan now r l) as [l' k]. simpl in *.
  repeat case_match; simpl; by rewrite IH.
Qed.

Lemma rack_scan_core now to x e l : forall any next,
  map seg_core (rack_scan now to x e l any next).1.1 = map seg_core l.
Proof.
  induction l as [|s l IH]; [done|]. intros any next. cbn [rack_scan].
  repeat case_match; simplify_eq; simpl; f_equal;
    match goal with
    | H : rack_scan _ _ _ _ l ?a ?n = _ |- _ => specialize (IH a n); by rewrite H in IH
    end.
Qed.

Lemma core_mark_oldest_unsacked t : tx_core (mark_oldest_unsacked t) = tx_core t.
Proof. apply core_segs. by apply update_first_core. Qed.

Lemma due_repair_core now s : seg_core (due_repair now s) = seg_core s.
Proof. unfold due_repair. core_tac. Qed.

#[export] Hint Rewrite core_mark_holes_tx core_mark_oldest_unsacked : core_unchanged.

Lemma marks_mark_holes e b : marks e (mark_holes e b).
Proof. apply marks_tx, core_mark_holes_tx. Qed.

Lemma marks_enter_fast_recovery e : marks e (enter_fast_recovery e).
Proof. by apply marks_tx. Qed.

Lemma marks_mark_expired e now r : marks e (mark_expired_sack_repairs e now r).
Proof.
  unfold mark_expired_sack_repairs.
  pose proof (expired_repairs_scan_core now r (segs (tx e))) as H.
  destruct (expired_repairs_scan _ _ _) as [l k]. apply marks_tx.
  rewrite core_refresh_sack_repair_deadline. by apply core_segs.
Qed.

Lemma marks_mark_due e now : marks e (mark_due_sack_repairs e now).
Proof.
  unfold mark_due_sack_repairs. case_match; [apply marks_refl|]. apply marks_tx.
  rewrite core_refresh_sack_repair_deadline. apply core_segs, map_core, due_repair_core.
Qed.

Lemma marks_rack_detect_loss e now : marks e (rack_detect_loss e now).1.
Proof.
  unfold rack_detect_loss. set (e1 := e <| tx := _ |>).
  assert (marks e e1) as H1 by apply marks_tx, core_expire_rack_reordering.
  case_match; [by eapply marks_trans; [|by apply marks_tx]|].
  pose proof (rack_scan_core now (add64 (rack_rtt_ms (tx e1)) (rack_reo_wnd e1))
    (rack_xmit_ms (tx e1)) (rack_end_seq (tx e1)) (segs (tx e1)) false None) as Hs.
  destruct (rack_scan _ _ _ _ _ _ _) as [[l any] next]. eapply marks_trans; [exact H1|].
  apply marks_tx. by rewrite <- (core_segs (tx e1) l Hs).
Qed.

Lemma marks_rack_check e now : marks e (rack_check e now).
Proof.
  unfold rack_check. pose proof (marks_rack_detect_loss e now) as H.
  destruct (rack_detect_loss e now) as [e1 lost]. simpl in H.
  destruct (lost && _); [|done]. eapply marks_trans; [done|apply marks_enter_fast_recovery].
Qed.

Lemma marks_on_ack_cwnd e ack acked : marks e (on_ack_cwnd e ack acked).
Proof.
  unfold on_ack_cwnd. set (e1 := e <| tx := tx e <| cwnd := _ `max` _ |> |>).
  assert (marks e e1) by by apply marks_tx.
  repeat apply marks_if; try by apply marks_tx.
  apply marks_then; [|done]. apply marks_if; [|done].
  eapply marks_trans; [done|apply marks_mark_holes].
Qed.

Lemma marks_on_ack_duplicate e : marks e (on_ack_duplicate e).
Proof.
  unfold on_ack_duplicate. set (e1 := e <| tx := _ |>).
  assert (marks e e1) as H1 by by apply marks_tx. repeat case_match; [| | |done].
  - eapply marks_trans; [done|]. eapply marks_trans;
      [apply marks_enter_fast_recovery|apply marks_mark_holes].
  - eapply marks_trans; [done|]. eapply marks_trans; [|apply marks_mark_holes]. by apply marks_tx.
  - by apply marks_then.
Qed.

Lemma marks_on_ack_rto e a r now : marks e (on_ack_rto e a r now).
Proof.
  assert (forall t, tx_core (t <| rto_backoff := None |>) = tx_core t) as Hb by done.
  unfold on_ack_rto. apply marks_tx.
  destruct (track_local_handoffs e); autorewrite with core_unchanged;
    (destruct (deferred_sack_rtt a); autorewrite with core_unchanged;
     (case_match; [|done]; rewrite Hb, core_update_rto; destruct (is_none r); done)).
Qed.

Lemma core_ack_bbr c t a now : tx_core (ack_bbr c t a now) = tx_core t.
Proof.
  unfold ack_bbr. case_match; rewrite ?core_bbr_on_delivered;
    (destruct (rtt_sent_ms a); [destruct (bbr c)|]; by rewrite ?core_bbr_on_rtt).
Qed.

Lemma core_ack_rack c t a ack sacks now : tx_core (ack_rack c t a ack sacks now) = tx_core t.
Proof.
  unfold ack_rack. destruct (rack c); rewrite ?core_note_dsack; by destruct (rack_rtt_sample a).
Qed.

Lemma marks_on_ack_tail e a ack sacks now : marks e (on_ack_tail e a ack sacks now).
Proof.
  unfold on_ack_tail. set (e1 := e <| tx := _ |>).
  assert (marks e e1) as H1 by (apply marks_tx; by rewrite core_ack_rack, core_ack_bbr).
  set (e2 := if rack (cfg e1) then _ else e1).
  assert (marks e e2) as H2.
  { apply marks_if; [|done]. eapply marks_trans; [done|apply marks_rack_check]. }
  clearbody e2. set (e3 := if track_local_handoffs e2 then _ else e2).
  assert (marks e e3) as H3
    by (apply marks_if; [apply marks_then; [done|apply core_refresh_local_rto]|done]).
  clearbody e3. apply marks_if; [|done]. by apply marks_then.
Qed.

(** ** Cuts of the written stream

    [W] is what the application has written so far, its first byte at position [B]. *)

Lemma genuine_app W k B i b : genuine W B i b -> genuine (W ++ k) B i b.
Proof. intros [Hi Hb]. split; [done|]. by apply lookup_app_l_Some. Qed.

Lemma genuine_split W B A d :
  B <= A -> holds (genuine W B) A d -> zdrop (A - B) W = d ++ zdrop (A - B + zlen d) W.
Proof.
  intros HA Hd. unfold zdrop, zlen in *.
  replace (Z.to_nat (A - B + Z.of_nat (length d))) with (Z.to_nat (A - B) + length d)%nat by lia.
  rewrite <- drop_drop. rewrite <- (take_drop (length d) (drop (Z.to_nat (A - B)) W)) at 1.
  f_equal. apply list_eq. intros i. destruct (decide (i < length d)%nat).
  - rewrite lookup_take_lt, lookup_drop by lia.
    destruct (lookup_lt_is_Some_2 d i ltac:(lia)) as [b Hb]. rewrite Hb.
    apply Hd in Hb as [_ Hb]. rewrite <- Hb. f_equal. lia.
  - rewrite lookup_take_ge, lookup_ge_None_2 by lia. done.
Qed.

Lemma genuine_cut W B A n : B <= A -> 0 <= n -> holds (genuine W B) A (ztake n (zdrop (A - B) W)).
Proof.
  intros HA Hn i b Hi. unfold ztake, zdrop in Hi.
  apply lookup_take_Some in Hi as [Hi _]. rewrite lookup_drop in Hi.
  split; [lia|]. rewrite <- Hi. f_equal. lia.
Qed.

Lemma genuine_fits W B A d : 0 < zlen d -> holds (genuine W B) A d -> A + zlen d <= B + zlen W.
Proof.
  intros Hd H. unfold zlen in *.
  destruct (lookup_lt_is_Some_2 d (length d - 1) ltac:(lia)) as [b Hb].
  apply H, genuine_below in Hb. unfold zlen in Hb. lia.
Qed.

(** A contiguous run of segments from [A] to [N]: data cut from the stream, and FINs only at or
    after its end. *)
Fixpoint flight (W : list byte) (B A N : Z) (l : list (Z * list byte * bool)) : Prop :=
  match l with
  | [] => A = N
  | (sq, d, fin) :: l =>
      sq = wrap32 A /\
      (if fin then B + zlen W <= A /\ d = []
       else 0 < zlen d <= MSS /\ holds (genuine W B) A d) /\
      flight W B (A + (if fin then 1 else zlen d)) N l
  end.

Definition span_of (c : Z * list byte * bool) : Z := if c.2 then 1 else zlen c.1.2.

Lemma flight_le W B N l : forall A, flight W B A N l -> A <= N.
Proof.
  induction l as [|[[sq d] fin] l IH]; intros A; [simpl; lia|].
  intros (_ & H & Hl). apply IH in Hl. destruct fin; [lia|]. pose proof (zlen_nonneg d). lia.
Qed.

Lemma flight_snoc W B N l (c : Z * list byte * bool) : forall A,
  flight W B A N l -> c.1.1 = wrap32 N ->
  (if c.2 then B + zlen W <= N /\ c.1.2 = [] else 0 < zlen c.1.2 <= MSS /\ holds (genuine W B) N c.1.2) ->
  flight W B A (N + span_of c) (l ++ [c]).
Proof.
  induction l as [|[[sq d] fin] l IH]; intros A; simpl.
  - intros -> Hs Hc. destruct c as [[sq d] fin]. simpl in *. auto.
  - intros (Hs & Hd & Hl) Hc Hn. split_and!; auto.
Qed.

Lemma flight_write W B N k l : forall A,
  N <= B + zlen W -> flight W B A N l -> flight (W ++ k) B A N l.
Proof.
  induction l as [|[[sq d] fin] l IH]; intros A HN; [done|].
  intros (Hs & Hd & Hl). pose proof (flight_le _ _ _ _ _ Hl) as Hle.
  destruct fin; [destruct Hd; lia|]. destruct Hd as [Hlen Hd]. simpl. split_and!; try lia; auto.
  eapply holds_mono; [|exact Hd]. intros; by apply genuine_app.
Qed.

(** The bytes of a flight, followed by the queue, are the stream from its start. *)
Lemma flight_bytes W B N l : forall A,
  B <= A -> flight W B A N (map seg_core l) ->
  flat_map (fun s => if is_fin s then [] else seg_data s) l ++ zdrop (N - B) W = zdrop (A - B) W.
Proof.
  induction l as [|s l IH]; intros A HA; simpl; [by intros ->|].
  intros (Hs & Hd & Hl). rewrite <- app_assoc. destruct (is_fin s).
  - rewrite (IH (A + 1)) by (lia || done). destruct Hd as [Hd _]. unfold zdrop.
    rewrite !drop_ge; [done| |]; unfold zlen in *; lia.
  - pose proof (zlen_nonneg (seg_data s)). rewrite (IH (A + zlen (seg_data s))) by (lia || done).
    destruct Hd as [_ Hd]. rewrite (genuine_split W B A (seg_data s)) by done.
    f_equal. f_equal. lia.
Qed.

(** ** The invariant *)

(** The highest position ever sent before a rewind, still unacknowledged. *)
Record rewind_ok (W : list byte) (B U : Z) (t : TxState) (H : Z) : Prop := {
  rw_high : U < H < U + M31;
  rw_req : B + zlen W < H -> fin_requested t = true;
  rw_fin : rewind_fin t = true -> B + zlen W < H
}.

Record tx_inv (W : list byte) (B U N : Z) (oh : option Z) (t : TxState) : Prop := {
  ti_una : snd_una t = wrap32 U;
  ti_nxt : snd_nxt t = wrap32 N;
  ti_order : B <= U <= N;
  ti_room : N < U + M31;
  ti_flight : exists A, B <= A <= U /\ flight W B A N (map seg_core (segs t)) /\
    (forall s, head (segs t) = Some s -> U < A + span_of (seg_core s));
  ti_pending : pending t = zdrop (N - B) W;
  ti_req : B + zlen W < N -> fin_requested t = true;
  ti_high : rewind_high t = wrap32 <$> oh;
  ti_rewind : match oh with
              | None => rewind_fin t = false
              | Some H => rewind_ok W B U t H
              end
}.

Lemma rewind_ok_ext W B U t t' H :
  fin_requested t' = fin_requested t -> rewind_fin t' = rewind_fin t ->
  rewind_ok W B U t H -> rewind_ok W B U t' H.
Proof. intros E1 E2 [H1 H2 H3]. split; rewrite ?E1, ?E2; auto. Qed.

(** The highest position an acknowledgement can name, from the rewound one. *)
Definition tx_top (N : Z) (oh : option Z) : Z := match oh with Some H => Z.max N H | None => N end.

Lemma head_core t t' s :
  map seg_core (segs t') = map seg_core (segs t) -> head (segs t') = Some s ->
  exists s0, head (segs t) = Some s0 /\ seg_core s0 = seg_core s.
Proof.
  intros H Hs. destruct (segs t') as [|s' l']; [done|]. simpl in Hs. injection Hs as ->.
  destruct (segs t) as [|s0 l]; [done|]. exists s0. split; [done|]. simpl in H. congruence.
Qed.

(** The invariant reads the core only. *)
Lemma tx_inv_core W B U N oh t t' :
  tx_core t' = tx_core t -> tx_inv W B U N oh t -> tx_inv W B U N oh t'.
Proof.
  intros Hc [H1 H2 H3 H4 (A & H5 & H6 & H7) H8 H9 Hh H10].
  unfold tx_core in Hc. injection Hc as Ei E1 E2 E3 E4 E5 E6 E7 E8 E9.
  split; rewrite ?E1, ?E2, ?E3, ?E5, ?E7; try done.
  - exists A. rewrite E4. split_and!; try done; try lia. intros s Hs.
    destruct (head_core t t' s E4 Hs) as (s0 & Hs0 & <-). by apply H7.
  - destruct oh; [|congruence]. destruct H10 as [? ? ?].
    split; [done|..]; rewrite ?E6, ?E7; auto.
Qed.

Lemma flight_nil_eq W B U N oh t : tx_inv W B U N oh t -> segs t = [] -> U = N.
Proof.
  intros [_ _ Ho _ (A & HA & Hf & _) _ _ _ _] Hs. rewrite Hs in Hf. simpl in Hf. lia.
Qed.

Lemma flight_cons_lt W B U N oh t s l : tx_inv W B U N oh t -> segs t = s :: l -> U < N.
Proof.
  intros [_ _ Ho _ (A & HA & Hf & Hh) _ _ _ _] Hs.
  specialize (Hh s). rewrite Hs in *. simpl in Hf, Hh. specialize (Hh eq_refl).
  destruct Hf as (_ & _ & Hf%flight_le). unfold span_of in Hh. simpl in Hh. lia.
Qed.

(** ** Acknowledgement limit *)

Lemma seg_end_abs s A : seg_seq s = wrap32 A -> seg_end s = wrap32 (A + span_of (seg_core s)).
Proof.
  intros Hs. unfold seg_end, seg_span, span_of. rewrite Hs. simpl.
  destruct (is_fin s); [apply add32_wrap|apply add32_wrap2].
Qed.

Lemma flight_seg_end W B A N s l :
  flight W B A N (map seg_core (s :: l)) ->
  seg_seq s = wrap32 A /\ seg_end s = wrap32 (A + span_of (seg_core s)) /\
  0 < span_of (seg_core s) <= MSS /\ flight W B (A + span_of (seg_core s)) N (map seg_core l).
Proof.
  simpl. intros (Hs & Hd & Hl). unfold MSS, MAX_CELL, DATA_OVERHEAD in *.
  split_and!; [done|by apply seg_end_abs| | |done]; unfold span_of; simpl;
    destruct (is_fin s); lia.
Qed.

Lemma ack_limit_loop_abs W B U N t oh l : forall A L,
  snd_una t = wrap32 U -> rewind_high t = wrap32 <$> oh -> tx_top N oh < U + M31 ->
  (forall H, oh = Some H -> U < H) ->
  flight W B A N (map seg_core l) ->
  (forall s, head l = Some s -> U < A + span_of (seg_core s)) -> U <= L < U + M31 ->
  exists L', ack_limit_loop t l (wrap32 L) = wrap32 L' /\ U <= L' <= L.
Proof.
  induction l as [|s l IH]; intros A L Hu Ho HT Hh Hf HA HL; [exists L; split; [done|lia]|].
  specialize (HA s eq_refl) as HAs.
  apply flight_seg_end in Hf as (Hs & He & Hsp & Hl). pose proof (flight_le _ _ _ _ _ Hl).
  cbn [ack_limit_loop]. unfold MSS, MAX_CELL, DATA_OVERHEAD in *.
  destruct (handed_off s); simpl negb; cbv iota.
  { apply (IH (A + span_of (seg_core s))); try done. intros s' Hs'. destruct l as [|s0 l]; [done|].
    injection Hs' as <-. apply flight_seg_end in Hl. lia. }
  destruct oh as [H0|]; unfold tx_top in HT; cbn in Ho; rewrite Ho, Hs, Hu, seq_max_abs by lia.
  - specialize (Hh H0 eq_refl). rewrite He, seq_min_abs, seq_max_abs, seq_min_abs by lia.
    eexists. split; [done|]. lia.
  - rewrite seq_min_abs by lia. eexists. split; [done|]. lia.
Qed.

Lemma tx_top_range W B U N oh t : tx_inv W B U N oh t -> N <= tx_top N oh < U + M31.
Proof.
  intros [_ _ Ho Hr _ _ _ _ Hw]. destruct oh as [H|]; unfold tx_top; [|lia].
  pose proof (rw_high _ _ _ _ _ Hw). lia.
Qed.

Lemma ack_limit_abs W B U N oh t :
  tx_inv W B U N oh t -> exists L, ack_limit t = wrap32 L /\ U <= L <= tx_top N oh.
Proof.
  intros Hi. pose proof Hi as [Hu Hn Hle Hr (A & HA & Hf & Hhd) _ _ Ho Hw].
  pose proof (tx_top_range _ _ _ _ _ _ Hi) as HT.
  assert (forall H, oh = Some H -> U < H) as Hh.
  { intros H ->. pose proof (rw_high _ _ _ _ _ Hw). lia. }
  assert (match rewind_high t with Some h => seq.max (snd_nxt t) h | None => snd_nxt t end
          = wrap32 (tx_top N oh)) as Htop.
  { rewrite Ho, Hn. destruct oh as [H|]; [|done]. specialize (Hh H eq_refl).
    unfold tx_top in HT. apply seq_max_abs. lia. }
  unfold ack_limit. rewrite Htop.
  destruct (ack_limit_loop_abs W B U N t oh (segs t) A (tx_top N oh)) as (L & HL & ?); try done;
    try lia. exists L. split; [done|lia].
Qed.

(** ** Cumulative acknowledgement *)

(** The core after an acknowledgement of [ack]: wholly acknowledged segments leave the flight,
    and a rewound queue drops what turns out to have arrived. *)
Definition acked_tx (t : TxState) (ack : Z) (fa : bool) : TxState :=
  trim_rewound_pending_after_ack
    (t <| segs := drop_front (fun s => seq.leq (seg_end s) ack) (segs t) |>
       <| fin_acked := fa |> <| snd_una := ack |>) ack.

Lemma core_ack_pop_rtt c ack now s t a r : tx_core (ack_pop_rtt c ack now s t a r).1.1 = tx_core t.
Proof.
  unfold ack_pop_rtt. destruct (retransmitted s), (sacked s); try done; simpl.
  destruct (sack_first_rtt_ms s); done.
Qed.

Lemma segs_ack_pop_rtt c ack now s t a r : segs (ack_pop_rtt c ack now s t a r).1.1 = segs t.
Proof.
  unfold ack_pop_rtt. destruct (retransmitted s), (sacked s); try done; simpl.
  destruct (sack_first_rtt_ms s); done.
Qed.

Lemma core_ack_rack_sample st s e now p r : tx_core (ack_rack_sample st s e now p r).1 = tx_core st.1.
Proof.
  destruct st as [t a]. unfold ack_rack_sample.
  pose proof (core_rack_on_delivery t s e now p r) as H.
  destruct (rack_on_delivery t s e now p r) as [t' [rtt|]]; done.
Qed.

(** Assignments to core fields respect the core. *)
Ltac core_congr :=
  unfold tx_core; cbn; let H := fresh in intros H; injection H; intros; congruence.

Lemma core_fin_acked t t' b :
  tx_core t = tx_core t' -> tx_core (t <| fin_acked := b |>) = tx_core (t' <| fin_acked := b |>).
Proof. core_congr. Qed.

Lemma core_set_segs t t' l :
  tx_core t = tx_core t' -> tx_core (t <| segs := l |>) = tx_core (t' <| segs := l |>).
Proof. core_congr. Qed.

Lemma core_snd_una t t' u :
  tx_core t = tx_core t' -> tx_core (t <| snd_una := u |>) = tx_core (t' <| snd_una := u |>).
Proof. core_congr. Qed.

Lemma core_trim t t' ack :
  tx_core t = tx_core t' ->
  tx_core (trim_rewound_pending_after_ack t ack) = tx_core (trim_rewound_pending_after_ack t' ack).
Proof.
  intros H. pose proof H as E. unfold tx_core in E. injection E as E0 E1 E2 E3 E4 E5 E6 E7 E8 E9.
  unfold trim_rewound_pending_after_ack. rewrite E5. destruct (rewind_high t') as [h|]; [|done].
  rewrite E2, E3, E6. destruct (seq.gt ack (snd_nxt t')), (seq.geq ack h); cbn; rewrite ?E6;
    destruct (rewind_fin t'); revert H; core_congr.
Qed.

Lemma ack_pop_core c ack now old prior l : forall t t0 a so r,
  tx_core t = tx_core (t0 <| segs := l |>) ->
  exists fa, tx_core (ack_pop c ack now old prior l t a so r).1.1.1 =
    tx_core (t0 <| segs := drop_front (fun s => seq.leq (seg_end s) ack) l |> <| fin_acked := fa |>).
Proof.
  induction l as [|s l IH]; intros t t0 a so r Ht; [by exists (fin_acked t0)|].
  cbn [ack_pop drop_front]. destruct (seq.leq (seg_end s) ack); [|by exists (fin_acked t0)].
  set (t1 := t <| segs := l |>).
  assert (tx_core t1 = tx_core (t0 <| segs := l |>)) as H1
    by (subst t1; rewrite (core_set_segs _ _ l Ht); done).
  pose proof (core_ack_pop_rtt c ack now s t1 a r) as H2.
  destruct (ack_pop_rtt c ack now s t1 a r) as [[t2 a2] r2]. cbn [fst] in H2.
  match goal with |- context [let '(_, _) := ?x in _] => set (st := x) end.
  assert (tx_core st.1 = tx_core t2) as H3.
  { subst st. case_match; [|done]. by rewrite core_ack_rack_sample. }
  destruct st as [t3 a3]. cbn [fst] in H3. destruct (is_fin s).
  - destruct (IH (t3 <| fin_acked := true |>) (t0 <| fin_acked := true |>) a3
      (if sacked s && negb true && seq.gt (seg_end s) old
       then add32 so (sub32 (seg_end s) (seq.max (seg_seq s) old)) else so) r2) as [fa Hfa].
    + change (tx_core (t3 <| fin_acked := true |>) =
              tx_core ((t0 <| segs := l |>) <| fin_acked := true |>)).
      apply core_fin_acked. congruence.
    + exists fa. exact Hfa.
  - apply IH. congruence.
Qed.

Lemma drop_front_flight W B N P l : forall A,
  flight W B A N (map seg_core l) -> A <= P -> N < P + M31 ->
  (forall s, head l = Some s -> P - M31 < A + span_of (seg_core s)) ->
  let l' := drop_front (fun s => seq.leq (seg_end s) (wrap32 P)) l in
  exists A', A <= A' <= P /\ flight W B A' N (map seg_core l') /\
    (forall s, head l' = Some s -> P < A' + span_of (seg_core s)).
Proof.
  induction l as [|s l IH]; intros A Hf HAP HN HPA; [exists A; split_and!; done|].
  specialize (HPA s eq_refl).
  apply flight_seg_end in Hf as Hf'. destruct Hf' as (Hs & He & Hsp & Hl).
  pose proof (flight_le _ _ _ _ _ Hl). cbn [drop_front].
  rewrite He, seq_leq_abs by lia. destruct (_ <=? P) eqn:E; to_prop.
  - destruct (IH (A + span_of (seg_core s))) as (A' & HA' & Hf' & Hh); try done; try lia.
    + intros s' Hs'. destruct l as [|s0 l]; [done|]. injection Hs' as <-.
      apply flight_seg_end in Hl. lia.
    + exists A'. split_and!; try done; lia.
  - exists A. split_and!; try done; try lia. intros s' [= <-]. lia.
Qed.

Lemma zdrop_zdrop {A} a b (l : list A) : 0 <= a -> 0 <= b -> zdrop a (zdrop b l) = zdrop (b + a) l.
Proof. intros. unfold zdrop. rewrite drop_drop. f_equal. lia. Qed.

Lemma zdrop_all {A} a (l : list A) : zlen l <= a -> zdrop a l = [].
Proof. intros. unfold zdrop, zlen in *. apply drop_ge. lia. Qed.

(** What is left of the queue when the acknowledgement passes [snd_nxt] of a rewound flight. *)
Lemma trim_pending {T} (W : list T) B N P (k : bool) :
  B <= N < P -> (k = true -> B + zlen W < P) ->
  let d := if k then sat_sub (P - N) 1 else P - N in
  zdrop (Z.min d (zlen (zdrop (N - B) W))) (zdrop (N - B) W) = zdrop (P - B) W.
Proof.
  intros HN Hk d. pose proof (zlen_nonneg W). rewrite zlen_zdrop by lia.
  subst d. unfold sat_sub. rewrite zdrop_zdrop by (destruct k; lia).
  destruct (decide (zlen W <= P - B)).
  - rewrite (zdrop_all (P - B)) by lia. apply zdrop_all.
    destruct k; [specialize (Hk eq_refl)|]; lia.
  - f_equal. destruct k; [specialize (Hk eq_refl)|]; lia.
Qed.

Lemma acked_tx_inv W B U N oh t P fa :
  tx_inv W B U N oh t -> U < P <= tx_top N oh ->
  exists oh', tx_inv W B P (Z.max N P) oh' (acked_tx t (wrap32 P) fa).
Proof.
  intros Hi HP. pose proof (tx_top_range _ _ _ _ _ _ Hi) as HT.
  pose proof Hi as [Hu Hn Hle Hr (A & HA & Hf & Hhd) Hp Hq Ho Hw].
  destruct (drop_front_flight W B N P (segs t) A Hf) as (A' & HA' & Hf' & Hh'); [lia..| |].
  { intros s Hs. specialize (Hhd s Hs). lia. }
  set (l' := drop_front _ _) in *.
  assert (exists A'', B <= A'' <= P /\ flight W B A'' (Z.max N P) (map seg_core l') /\
    (forall s, head l' = Some s -> P < A'' + span_of (seg_core s))) as Hfl.
  { destruct (decide (P <= N)); [exists A'; rewrite Z.max_l by lia; auto with lia|].
    exists P. split_and!; [lia..| |].
    - destruct l' as [|s l]; [simpl; lia|]. apply flight_seg_end in Hf'.
      specialize (Hh' s eq_refl). pose proof (flight_le W B N (map seg_core l)) as Hle'.
      destruct Hf' as (_ & _ & _ & Hf'%Hle'). lia.
    - intros s Hs. specialize (Hh' s Hs). destruct l' as [|s' l]; [done|].
      apply flight_seg_end in Hf' as (_ & _ & ? & Hf'%flight_le). injection Hs as <-. lia. }
  unfold acked_tx. fold l'. unfold trim_rewound_pending_after_ack.
  set (t1 := t <| segs := l' |> <| fin_acked := fa |> <| snd_una := wrap32 P |>).
  change (rewind_high t1) with (rewind_high t). change (snd_nxt t1) with (snd_nxt t).
  change (rewind_fin t1) with (rewind_fin t). change (pending t1) with (pending t).
  rewrite Ho, Hn, Hp. destruct oh as [H|]; unfold tx_top in HT, HP; cbn [fmap option_fmap option_map].
  2: { exists None. rewrite Z.max_l in * by lia. by split; cbn; auto with lia. }
  destruct Hw as [Hw1 Hw2 Hw3]. rewrite seq_gt_abs, seq_geq_abs, sub32_wrap by lia.
  assert (B + zlen W < Z.max N P -> fin_requested t = true) as Hreq.
  { intros ?. destruct (decide (B + zlen W < N)); [auto|]. apply Hw2. lia. }
  assert (P < H -> rewind_ok W B P t H) as Hrw by (intros; split; auto with lia).
  destruct (N <? P) eqn:ENP; to_prop.
  - rewrite (wrap32_id (P - N)) by (unfold is_u32; lia). rewrite Z.max_r in * by lia.
    pose proof (trim_pending W B N P (rewind_fin t && (H <=? P))) as Htrim.
    rewrite Htrim; [|lia|].
    2: { intros Hb. to_prop. specialize (Hw3 ltac:(done)). lia. }
    destruct (H <=? P) eqn:EHP; to_prop.
    + exists None. split; cbn; destruct (rewind_fin t); cbn; auto with lia.
    + exists (Some H). split; cbn; auto with lia. by destruct (Hrw ltac:(lia)).
  - rewrite Z.max_l in * by lia. destruct (H <=? P) eqn:EHP; to_prop.
    + exists None. split; cbn; destruct (rewind_fin t); cbn; auto with lia.
    + exists (Some H). split; cbn; auto with lia. by destruct (Hrw ltac:(lia)).
Qed.

Lemma on_ack_cumulative_core e a ack now old prior :
  let e' := (on_ack_cumulative e a ack now old prior).1 in
  e' = e <| tx := tx e' |> /\ exists fa, tx_core (tx e') = tx_core (acked_tx (tx e) ack fa).
Proof.
  unfold on_ack_cumulative.
  destruct (ack_pop_core (cfg e) ack now old prior (segs (tx e)) (tx e) (tx e) a 0 None)
    as [fa Hpop]; [by destruct (tx e)|].
  destruct (ack_pop _ _ _ _ _ _ _ _ _ _) as [[[t1 a1] so] r]. cbn [fst] in Hpop.
  set (t2 := if is_some_and _ _ then _ else _).
  assert (tx_core (trim_rewound_pending_after_ack t2 ack) = tx_core (acked_tx (tx e) ack fa)) as H2.
  { unfold acked_tx. apply core_trim. transitivity (tx_core (t1 <| snd_una := ack |>)).
    - subst t2. by case_match.
    - by apply core_snd_una. }
  set (t3 := trim_rewound_pending_after_ack t2 ack) in *. clearbody t2 t3.
  set (e1 := e <| tx := (t3 <| dup_acks := 0 |>) <| consec_rto := 0 |> |>).
  assert (marks (e <| tx := t3 |>) e1) as H3 by (split; [by destruct e|done]).
  set (a2 := a1 <| newly_delivered := _ |>). clearbody a2.
  match goal with |- context [on_ack_rto ?x] => set (e2 := x) end.
  assert (marks e1 e2) as H4.
  { subst e2. eapply marks_trans; [apply marks_on_ack_cwnd|]. apply marks_if; [|apply marks_refl].
    apply marks_tx, core_complete_rack_recovery. }
  clearbody e2. pose proof (marks_on_ack_rto e2 a2 r now) as H5. cbn [fst].
  destruct (marks_trans _ _ _ (marks_trans _ _ _ H3 H4) H5) as [He Hc].
  split; [by rewrite He at 1|]. exists fa. by rewrite Hc, <- H2.
Qed.

(** ** Selective acknowledgements and probes *)

Lemma core_sack_seg ur now old p r st i : tx_core (sack_seg ur now old p r st i).1 = tx_core st.1.
Proof.
  destruct st as [t a]. unfold sack_seg. destruct (segs t !! i) as [s|] eqn:Es; [|done].
  destruct (_ && seq.leq _ _); [|done].
  match goal with |- context [let '(_, _) := ?x in _] => set (sa := x) end.
  assert (seg_core sa.1 = seg_core s) as Hsa by (subst sa; by case_match).
  destruct sa as [s' a']. cbn [fst] in Hsa.
  assert (tx_core (t <| segs := <[i := s']> (segs t) |>) = tx_core t) as Ht
    by (apply core_segs; by eapply insert_core).
  destruct (_ && _); [|exact Ht]. rewrite core_ack_rack_sample. exact Ht.
Qed.

Lemma core_sack_range ur now old p st r : tx_core (sack_range ur now old p st r).1 = tx_core st.1.
Proof.
  unfold sack_range. generalize (List.seq 0 (length (segs st.1))). intros l. revert st.
  induction l as [|i l IH]; intros st; [done|]. cbn [fold_left]. by rewrite IH, core_sack_seg.
Qed.

Lemma core_sack_ranges ur now old p l st :
  tx_core (fold_left (sack_range ur now old p) l st).1 = tx_core st.1.
Proof.
  revert st. induction l as [|r l IH]; intros st; [done|].
  cbn [fold_left]. by rewrite IH, core_sack_range.
Qed.

Lemma core_mark_head t :
  tx_core (t <| segs ::= (fun l => match l with
                                   | s :: l => s <| needs_resend := true |> :: l
                                   | [] => []
                                   end) |>) = tx_core t.
Proof. unfold tx_core. cbn. by destruct (segs t). Qed.

Lemma marks_on_ack_probe e ack now b : marks e (on_ack_probe e ack now b).1.
Proof.
  unfold on_ack_probe. repeat case_match; [by apply marks_tx| |apply marks_refl].
  apply marks_tx. etrans; [|apply core_mark_head]. done.
Qed.

(** ** Local handoffs *)

Lemma handoff_segs_core acc now ur l : forall repairs,
  map seg_core (handoff_segs acc now ur l repairs).1 = map seg_core l.
Proof.
  induction l as [|s l IH]; intros repairs; [done|]. cbn [handoff_segs].
  destruct (local_pending s && _).
  - match goal with |- context [handoff_segs acc now ur l ?r] => specialize (IH r) end.
    destruct (handoff_segs _ _ _ _ _) as [l' r']. simpl in *. by rewrite IH.
  - specialize (IH repairs). destruct (handoff_segs _ _ _ _ _) as [l' r']. simpl in *.
    by rewrite IH.
Qed.

Lemma marks_discard e cell : marks e (discard_received_cell e cell).1.
Proof.
  unfold discard_received_cell. destruct (lt_from_cell cell) as [tok|]; [|apply marks_refl].
  destruct (lt_kind tok); try apply marks_refl; (case_match; [apply marks_refl|]);
    apply marks_tx; unfold tx_core; cbn; (rewrite map_core; [done|intros s; by case_match]).
Qed.

(** ** Rewinding the flight after a timeout *)

(** A segment of a flight sits at its own position. *)
Definition seg_genuine (W : list byte) (B : Z) (c : Z * list byte * bool) (P : Z) : Prop :=
  c.1.1 = wrap32 P /\
  if c.2 then B + zlen W <= P else B <= P /\ 0 < zlen c.1.2 <= MSS /\ holds (genuine W B) P c.1.2.

Lemma flight_elem W B N l c : forall A,
  B <= A -> flight W B A N l -> c ∈ l ->
  exists P, A <= P < N /\ P + span_of c <= N /\ seg_genuine W B c P.
Proof.
  induction l as [|[[sq d] fin] l IH]; intros A HA Hf Hc; [by apply elem_of_nil in Hc|].
  simpl in Hf. destruct Hf as (Hs & Hd & Hl). pose proof (flight_le _ _ _ _ _ Hl).
  apply elem_of_cons in Hc as [->|Hc].
  - exists A. unfold seg_genuine, span_of. simpl. destruct fin; intuition lia.
  - assert (B <= A + (if fin then 1 else zlen d)) as HA' by (destruct fin; lia).
    destruct (IH _ HA' Hl Hc) as (P & HP & Hsp & HcP). exists P. split_and!; [destruct fin; lia..|done].
Qed.

(** A segment of the flight ends above what is acknowledged. *)
Lemma flight_elem_above W B U N l c A :
  B <= A -> flight W B A N l -> (forall h, head l = Some h -> U < A + span_of h) -> c ∈ l ->
  exists P, A <= P < N /\ U < P + span_of c <= N /\ seg_genuine W B c P.
Proof.
  intros HA Hf Hh Hc. destruct l as [|h l]; [by apply elem_of_nil in Hc|].
  specialize (Hh h eq_refl). apply elem_of_cons in Hc as [->|Hc].
  - destruct h as [[sq d] fin]. simpl in Hf. destruct Hf as (Hs & Hd & Hl).
    pose proof (flight_le _ _ _ _ _ Hl). exists A. unfold seg_genuine, span_of in *. simpl in *.
    destruct fin; intuition lia.
  - destruct h as [[sq d] fin]. simpl in Hf. destruct Hf as (_ & Hd & Hl).
    unfold span_of in Hh. simpl in Hh.
    destruct (flight_elem W B N l c (A + if fin then 1 else zlen d)) as (P & HP & Hsp & Hg);
      [destruct fin; lia|done|done|].
    exists P. split_and!; [destruct fin; lia|lia| |lia|done].
    unfold span_of. pose proof (zlen_nonneg c.1.2). destruct fin, c.2; lia.
Qed.

Lemma flight_fin W B N l : forall A,
  B <= A -> flight W B A N (map seg_core l) -> existsb is_fin l = true -> B + zlen W < N.
Proof.
  intros A HA Hf (s & Hs & Hfin)%existsb_exists. apply list_elem_of_In in Hs.
  apply (list_elem_of_fmap_2 seg_core) in Hs.
  destruct (flight_elem _ _ _ _ _ A HA Hf Hs) as (P & HP & _ & _ & Hc). simpl in Hc.
  rewrite Hfin in Hc. lia.
Qed.

Lemma requeued_later W B U N l : forall A,
  U <= A -> N < U + M31 -> flight W B A N (map seg_core l) ->
  flat_map (requeued_bytes (wrap32 U)) l = flat_map (fun s => if is_fin s then [] else seg_data s) l.
Proof.
  induction l as [|s l IH]; intros A HA HN Hf; [done|].
  apply flight_seg_end in Hf as (Hs & _ & Hsp & Hl). pose proof (flight_le _ _ _ _ _ Hl).
  cbn [flat_map]. f_equal; [|apply (IH (A + span_of (seg_core s))); [lia..|done]].
  unfold requeued_bytes. destruct (is_fin s); [done|].
  rewrite Hs, seq_lt_abs by lia. destruct (A <? U) eqn:E; to_prop; [lia|]. done.
Qed.

Lemma requeued_bytes_flight W B U N t oh :
  tx_inv W B U N oh t ->
  flat_map (requeued_bytes (wrap32 U)) (segs t) ++ zdrop (N - B) W = zdrop (U - B) W.
Proof.
  intros Hi. pose proof Hi as [_ _ Ho Hr (A & HA & Hf & Hh) _ _ _ _].
  destruct (segs t) as [|s l] eqn:El; [simpl in Hf; simpl; do 2 f_equal; lia|].
  specialize (Hh s eq_refl). pose proof Hf as Hf0.
  apply flight_seg_end in Hf0 as (Hs & _ & Hsp & Hl).
  cbn [flat_map]. rewrite (requeued_later W B U N l (A + span_of (seg_core s))) by (done || lia).
  rewrite <- app_assoc.
  pose proof (flight_bytes W B N l (A + span_of (seg_core s)) ltac:(lia) Hl) as Hb.
  rewrite Hb. unfold requeued_bytes. destruct Hf as (_ & Hd & _). simpl in Hd.
  unfold span_of in *. simpl in Hsp, Hh |- *. destruct (is_fin s).
  - assert (A = U) as -> by lia. destruct Hd as [Hd _].
    rewrite !zdrop_all; [done|lia..].
  - destruct Hd as [Hlen Hd]. pose proof (flight_le _ _ _ _ _ Hl).
    unfold MSS, MAX_CELL, DATA_OVERHEAD in *. rewrite Hs, seq_lt_abs, sub32_wrap by lia.
    assert ((if A <? U then wrap32 (U - A) else 0) = U - A) as ->.
    { destruct (A <? U) eqn:E; to_prop; [apply wrap32_id; unfold is_u32; lia|lia]. }
    replace (zdrop (U - B) W) with (zdrop (U - A) (zdrop (A - B) W))
      by (rewrite zdrop_zdrop by lia; f_equal; lia).
    rewrite (genuine_split W B A (seg_data s)) by (done || lia).
    unfold zdrop at 3. rewrite drop_app_le by (unfold zlen in *; lia).
    unfold zdrop. do 2 f_equal. lia.
Qed.

Lemma requeue_inv W B U N t oh :
  tx_inv W B U N oh t -> segs t <> [] ->
  tx_inv W B U U (Some (tx_top N oh)) (requeue_unsacked_flight_for_rto t).
Proof.
  intros Hi Hne. pose proof (tx_top_range _ _ _ _ _ _ Hi) as HT.
  pose proof (requeued_bytes_flight _ _ _ _ _ _ Hi) as Hb.
  assert (U < N) as HUN by (destruct (segs t) eqn:E; [done|]; by eapply flight_cons_lt).
  destruct Hi as [Hu Hn Hle Hr (A & HA & Hf & Hh) Hp Hq Ho Hw].
  set (fin := existsb is_fin (segs t)).
  assert (rewind_fin t || fin = true -> B + zlen W < tx_top N oh) as Hfin.
  { intros [Hrf|Hf']%orb_true_iff; [|apply flight_fin in Hf; [lia|lia|done]].
    destruct oh as [H|]; [|congruence]. apply Hw in Hrf. unfold tx_top. lia. }
  assert (B + zlen W < tx_top N oh -> fin_requested t = true) as Hreq.
  { intros Hlt. destruct (decide (B + zlen W < N)); [auto|]. destruct oh as [H|]; [|auto].
    apply Hw. unfold tx_top in Hlt. lia. }
  assert (match rewind_high t with Some h => seq.max h (snd_nxt t) | None => snd_nxt t end
          = wrap32 (tx_top N oh)) as Htop.
  { rewrite Ho, Hn. destruct oh as [H|]; [|done]. destruct Hw as [Hw _ _].
    unfold tx_top. cbn. rewrite seq_max_abs by lia. f_equal. lia. }
  unfold requeue_unsacked_flight_for_rto. fold fin. rewrite Htop.
  destruct fin; split; cbn; rewrite ?Hu, ?Hp, ?Hb; auto with lia;
    try (exists U; split_and!; [lia..|done|done]); try (split; auto with lia); lia.
Qed.
