(* ===== verification/StreamSender.v ===== *)
(** * The sending half of an engine, over whole runs

    Every operation of the engine keeps the sender invariant of StreamTxInv.v, whatever cells it
    is given; so every DATA frame it ever emits carries the written bytes of its position, and a
    FIN comes only after all of them. *)

From S2P Require Import Prelude BTree Seq StreamWire StreamRx StreamRxInv StreamRxRuns StreamTx.
From S2P Require Import StreamEngine StreamTxInv.

(** Configurations the engine is used with: segments that fit a cell. *)
Definition cfg_ok (c : Config) : Prop := 1 <= mss c <= MSS.

(** The SYN is out and not yet acknowledged; its sequence number is [B - 1]. *)
Definition syn_sent (W : list byte) (B : Z) (t : TxState) : Prop :=
  iss t = wrap32 (B - 1) /\ snd_nxt t = wrap32 B /\ segs t = [] /\ pending t = W /\
  rewind_high t = None /\ rewind_fin t = false.

Definition tx_phase (W : list byte) (B : Z) (K : Z -> Prop) (p : Phase) (t : TxState) : Prop :=
  match p with
  | SynSent => syn_sent W B t
  | Listen | Established => exists U N oh, K U /\ tx_inv W B U N oh t
  | Closed => True
  end.

(** [K] holds of every position that has been acknowledged; [fr] is set once the application has called [finish]. *)
Record snd_inv (W : list byte) (B : Z) (K : Z -> Prop) (fr : bool) (e : StreamEngine) : Prop := {
  si_cfg : cfg_ok (cfg e);
  si_base : phase e = SynSent -> K B;
  si_req : fr = true -> fin_requested (tx e) = true;
  si_probe : force_probe e = true -> segs (tx e) = [];
  si_tx : tx_phase W B K (phase e) (tx e)
}.

(** ** Operations that leave the sender's core alone *)

Lemma core_segs_nil t t' : tx_core t' = tx_core t -> segs t = [] -> segs t' = [].
Proof.
  unfold tx_core. intros Hc Hs. injection Hc as _ _ _ _ Hm _ _ _ _ _. rewrite Hs in Hm.
  by destruct (segs t').
Qed.

Lemma tx_phase_core W B K p t t' : tx_core t' = tx_core t -> tx_phase W B K p t -> tx_phase W B K p t'.
Proof.
  intros Hc. destruct p; simpl; try done.
  2,3: intros (U & N & oh & HK & H); exists U, N, oh; (split; [done|]); by eapply tx_inv_core.
  intros (H1 & H2 & H3 & H4 & H5 & H6). pose proof (core_segs_nil _ _ Hc H3).
  unfold tx_core in Hc. injection Hc as ? ? ? ? _ ? ? _ _ _. unfold syn_sent. split_and!; congruence.
Qed.

(** What a step may do to the engine and stay within the invariant. *)
Record snd_frame (e e' : StreamEngine) : Prop := {
  sf_cfg : cfg e' = cfg e;
  sf_core : tx_core (tx e') = tx_core (tx e);
  sf_phase : phase e' = phase e \/ phase e' = Closed;
  sf_probe : force_probe e' = true -> force_probe e = true \/ segs (tx e) = []
}.

Lemma snd_frame_refl e : snd_frame e e.
Proof. split; auto. Qed.

Lemma snd_frame_trans e1 e2 e3 : snd_frame e1 e2 -> snd_frame e2 e3 -> snd_frame e1 e3.
Proof.
  intros [C1 K1 P1 F1] [C2 K2 P2 F2]. split; [congruence|congruence| |].
  - destruct P2 as [->| ->]; auto.
  - intros [H|H]%F2; [auto|]. right. by eapply core_segs_nil.
Qed.

Lemma snd_frame_marks e e' : marks e e' -> snd_frame e e'.
Proof. intros [-> H]. split; auto. Qed.

Lemma snd_frame_inv W B K fr e e' : snd_frame e e' -> snd_inv W B K fr e -> snd_inv W B K fr e'.
Proof.
  intros [Hcf Hc Hp Hf] [H1 HB Hq H2 H3]. split.
  - by rewrite Hcf.
  - destruct Hp as [->| ->]; done.
  - intros Hfr. specialize (Hq Hfr). unfold tx_core in Hc.
    injection Hc as _ _ _ _ _ _ _ Hc _ _. congruence.
  - intros Hfp. eapply core_segs_nil; [done|]. destruct (Hf Hfp); auto.
  - destruct Hp as [-> | ->]; [|done]. by eapply tx_phase_core.
Qed.

Lemma frame_ack_now e : snd_frame e (ack_now e).
Proof. split; auto. Qed.

Lemma frame_ack_data e b now : snd_frame e (ack_data e b now).
Proof. unfold ack_data. repeat case_match; split; auto. Qed.

Lemma frame_push_event e ev : snd_frame e (push_event e ev).
Proof. split; auto. Qed.

Lemma frame_declare_dead e : snd_frame e (declare_dead e).
Proof. split; auto. Qed.

Lemma frame_note_peer_progress e : snd_frame e (note_peer_progress e).
Proof. unfold note_peer_progress. case_match; split; auto. Qed.

Lemma zero_window_blocked_segs e : zero_window_blocked e = true -> segs (tx e) = [].
Proof. unfold zero_window_blocked. intros H. to_prop. by destruct (segs (tx e)). Qed.

Lemma frame_on_data e s w p now e' : on_data e s w p now = Some e' -> snd_frame e e'.
Proof.
  unfold on_data. destruct (phase_eqb _ _); [intros [= <-]; apply snd_frame_refl|].
  set (e1 := note_peer_progress e). pose proof (frame_note_peer_progress e : snd_frame e e1) as H1.
  clearbody e1. destruct (is_nil p); [by intros [= <-]|].
  match goal with |- context [accept (rx ?x)] => set (e2 := x) end.
  assert (snd_frame e1 e2) as H2 by (subst e2; case_match; split; auto).
  destruct (accept (rx e2) s p) as [[rx' adv]|]; [|done]. cbn [mbind option_bind].
  match goal with |- context [ack_data ?x] => set (e3 := x) end.
  assert (snd_frame e2 e3) as H3 by (subst e3; case_match; split; auto). clearbody e2 e3.
  pose proof (frame_ack_data e3 adv now) as H4. set (e4 := ack_data e3 adv now) in *. clearbody e4.
  intros [= <-]. eapply snd_frame_trans; [exact H1|]. eapply snd_frame_trans; [exact H2|].
  eapply snd_frame_trans; [exact H3|]. eapply snd_frame_trans; [exact H4|].
  case_match; [|apply snd_frame_refl]. split; auto. intros _. right.
  to_prop. by apply zero_window_blocked_segs.
Qed.

Lemma frame_on_peer_fin e s : snd_frame e (on_peer_fin e s).
Proof.
  unfold on_peer_fin. case_match; [apply snd_frame_refl|].
  eapply snd_frame_trans; [apply frame_note_peer_progress|].
  case_match; split; auto.
Qed.

Lemma frame_on_rst e r : snd_frame e (on_rst e r).
Proof. unfold on_rst. case_match; split; auto. Qed.

Lemma frame_engine_read e n : snd_frame e (engine_read e n).1.
Proof.
  unfold engine_read. destruct (rx_read n (rx e)) as [out rx']. cbn [fst].
  case_match; split; auto.
Qed.

Lemma frame_local_handoff e acc now : snd_frame e (local_handoff e acc now).
Proof.
  unfold local_handoff. case_match; [apply snd_frame_refl|].
  match goal with |- context [cfg ?x] => match x with e => fail 1 | _ => set (e1 := x) end end.
  assert (snd_frame e e1) as H1 by (subst e1; repeat case_match; split; auto). clearbody e1.
  pose proof (handoff_segs_core acc now (rack (cfg e1)) (segs (tx e1)) (rack_repairs (tx e1))) as Hs.
  destruct (handoff_segs _ _ _ _ _) as [l r]. cbn [fst] in Hs.
  eapply snd_frame_trans; [exact H1|]. apply snd_frame_marks, marks_tx.
  rewrite core_refresh_local_rto. etrans; [|exact (core_segs (tx e1) l Hs)]. by case_match.
Qed.

Lemma frame_poll_ack e : snd_frame e (poll_ack e).1.
Proof.
  unfold poll_ack. case_match; [apply snd_frame_refl|].
  unfold make_ack. repeat case_match; simplify_eq; cbn [fst]; split; auto.
Qed.

(** ** Acknowledgements *)

Lemma frame_on_ack_window e ack win now : snd_frame e (on_ack_window e ack win now).
Proof.
  unfold on_ack_window. destruct (seq.geq _ _); [|apply snd_frame_refl].
  destruct (_ && _), (0 <? win); split; auto; done.
Qed.

(** The position a received sequence number stands for, seen from [U]. *)
Definition near (U s : Z) : Z := U - as_i32 (sub32 (wrap32 U) s).

Lemma near_wrap U s : is_u32 s -> wrap32 (near U s) = s /\ - M31 < near U s - U <= M31.
Proof.
  intros Hs. unfold near, as_i32, sub32, wrap32, is_u32 in *. case_bool; to_prop; split; mlia.
Qed.

(** An acknowledgement that passes both checks of [on_ack] names a position the sender has
    reached. *)
Lemma ack_position W B U N oh t0 ack :
  is_u32 ack -> tx_inv W B U N oh t0 -> seq.gt ack (ack_limit t0) = false ->
  seq.gt ack (wrap32 U) = true -> exists P, ack = wrap32 P /\ U < P <= tx_top N oh.
Proof.
  intros Hu Hi Hlim Hgt. destruct (ack_limit_abs _ _ _ _ _ _ Hi) as (L & HL & HLr).
  pose proof (tx_top_range _ _ _ _ _ _ Hi). pose proof (ti_order _ _ _ _ _ _ Hi).
  destruct (near_wrap U ack Hu) as [Hw Hnear]. set (P := near U ack) in *. clearbody P.
  unfold seq.gt in *. rewrite HL, <- Hw in Hlim. rewrite <- Hw in Hgt.
  rewrite seq_lt_abs in Hgt by lia. to_prop. rewrite seq_lt_abs in Hlim by lia. to_prop.
  exists P. split; [done|lia].
Qed.

(** [ack] names no position beyond those [K] knows, whatever it is taken to mean. *)
Definition ack_known (K : Z -> Prop) (ack : Z) : Prop :=
  forall U P, K U -> ack = wrap32 P -> U < P < U + M31 -> K P.

Lemma snd_inv_acked W B K fr e e' t0 ack :
  is_u32 ack -> ack_known K ack -> snd_inv W B K fr e -> phase e <> SynSent ->
  e' = e <| tx := tx e' |> ->
  (exists fa, tx_core (tx e') = tx_core (acked_tx (tx e) ack fa)) ->
  tx_core t0 = tx_core (tx e) -> seq.gt ack (ack_limit t0) = false ->
  seq.gt ack (snd_una (tx e)) = true ->
  snd_inv W B K fr e'.
Proof.
  intros Hu Hk [Hcf HB Hq Hp Ht] Hph He [fa Hc] Hc0 Hlim Hgt. rewrite He. split; cbn; [done|done| | |].
  - intros Hfr. specialize (Hq Hfr). rewrite <- Hq.
    transitivity (fin_requested (acked_tx (tx e) ack fa)).
    { unfold tx_core in Hc. by injection Hc as _ _ _ _ _ _ _ Hc _ _. }
    unfold acked_tx, trim_rewound_pending_after_ack. repeat case_match; done.
  - intros Hfp. eapply core_segs_nil; [exact Hc|]. specialize (Hp Hfp).
    assert (segs (acked_tx (tx e) ack fa) =
      drop_front (fun s => seq.leq (seg_end s) ack) (segs (tx e))) as ->.
    { unfold acked_tx, trim_rewound_pending_after_ack. repeat case_match; done. }
    by rewrite Hp.
  - eapply tx_phase_core; [exact Hc|].
    assert (forall U N oh, K U -> tx_inv W B U N oh (tx e) ->
      exists U N oh, K U /\ tx_inv W B U N oh (acked_tx (tx e) ack fa)) as Hgo.
    { intros U N oh HU Hi. pose proof (tx_top_range _ _ _ _ _ _ Hi) as Htop. rewrite (ti_una _ _ _ _ _ _ Hi) in Hgt.
      pose proof (tx_inv_core _ _ _ _ _ _ _ Hc0 Hi) as Hi0.
      destruct (ack_position W B U N oh t0 ack Hu Hi0 Hlim Hgt) as (P & -> & HP).
      destruct (acked_tx_inv W B U N oh (tx e) P fa Hi HP) as [oh' Hi'].
      do 3 eexists. split; [|exact Hi']. apply (Hk U P); [done|done|lia]. }
    destruct (phase e); [done| | |done]; destruct Ht as (U & N & oh & HU & Hi); simpl; eauto.
Qed.

Lemma on_ack_inv W B K fr e ack win sacks now :
  is_u32 ack -> ack_known K ack -> snd_inv W B K fr e -> snd_inv W B K fr (on_ack e ack win sacks now).
Proof.
  intros Hu Hk Hi. unfold on_ack. pose proof (frame_note_peer_progress e) as H1.
  set (e1 := note_peer_progress e) in *. apply (snd_frame_inv W B K fr) in H1; [|done]. clearbody e1.
  destruct (_ || _) eqn:Eph; [done|].
  destruct (seq.gt ack (ack_limit (tx e1))) eqn:Elim; [done|].
  pose proof (frame_on_ack_window e1 ack win now) as H2.
  set (e2 := on_ack_window e1 ack win now) in *. clearbody e2.
  pose proof (core_sack_ranges (rack (cfg e2)) now (snd_una (tx e2)) (rack_xmit_ms (tx e2)) sacks
    (tx e2, ack_vars0)) as H3.
  destruct (fold_left _ _ _) as [t3 a3]. cbn [fst] in H3.
  pose proof (marks_on_ack_probe (e2 <| tx := t3 |>) ack now
    (seq.geq ack (snd_una (tx e1)) && (rwnd (tx e1) =? 0) && (0 <? win))) as H4.
  destruct (on_ack_probe _ _ _ _) as [e4 refused]. cbn [fst] in H4.
  assert (snd_frame e1 e4) as H14.
  { eapply snd_frame_trans; [exact H2|]. apply snd_frame_marks.
    eapply marks_trans; [apply marks_tx; exact H3|exact H4]. }
  pose proof (snd_frame_inv W B K fr _ _ H14 H1) as Hi4.
  match goal with |- context [let '(_, _) := ?x in _] => set (ea := x) end.
  assert (snd_inv W B K fr ea.1) as Hi5.
  { subst ea. destruct (seq.gt ack (snd_una (tx e4))) eqn:Egt.
    - destruct (on_ack_cumulative_core e4 a3 ack now (snd_una (tx e2)) (rack_xmit_ms (tx e2)))
        as [He Hfa].
      destruct H14 as [_ Hc Hph _]. eapply (snd_inv_acked W B K fr e4 _ (tx e1)); eauto.
      apply orb_false_iff in Eph as [Eph _]. unfold phase_eqb in Eph.
      apply bool_decide_eq_false in Eph. destruct Hph as [->| ->]; done.
    - case_match; [|done]. eapply snd_frame_inv; [|exact Hi4].
      apply snd_frame_marks, marks_on_ack_duplicate. }
  destruct ea as [e5 a5]. eapply snd_frame_inv; [|exact Hi5]. apply snd_frame_marks, marks_on_ack_tail.
Qed.

(** ** Received cells *)

Lemma on_syn_inv W B K fr e isn win now : snd_inv W B K fr e -> snd_inv W B K fr (on_syn e isn win now).
Proof.
  intros Hi. unfold on_syn. destruct (phase e) eqn:Ep; try done.
  - destruct Hi as [H1 HB Hq H2 H3]. rewrite Ep in H3. split; cbn; try done.
    by apply (tx_phase_core W B K Established (tx e)).
  - eapply snd_frame_inv; [|exact Hi]. split; auto.
Qed.

Lemma on_synack_inv W B K fr e isn win ack : snd_inv W B K fr e -> snd_inv W B K fr (on_synack e isn win ack).
Proof.
  intros Hi. unfold on_synack. destruct (phase e) eqn:Ep; try done.
  2: eapply snd_frame_inv; [apply frame_ack_now|exact Hi].
  destruct (negb _); [done|]. destruct Hi as [H1 HB Hq H2 H3]. rewrite Ep in H3.
  destruct H3 as (Hiss & Hn & Hs & Hp & Hr & Hf). split; cbn; try done.
  exists B, B, None. split; [by apply HB|]. rewrite Hiss, Hn, add32_wrap. replace (B - 1 + 1) with B by lia.
  pose proof (zlen_nonneg W). split; cbn; rewrite ?Hs, ?Hp, ?Hr; try done; try lia.
  - rewrite seq_max_abs by lia. f_equal. lia.
  - exists B. split_and!; try done; lia.
  - by rewrite Z.sub_diag.
Qed.

Lemma on_frame_inv W B K fr e f now e' :
  (forall s a w k, f = Ack s a w k -> is_u32 a /\ ack_known K a) ->
  snd_inv W B K fr e -> on_frame e f now = Some e' -> snd_inv W B K fr e'.
Proof.
  intros Hu Hi. unfold on_frame. destruct (negb _); [by intros [= <-]|]. destruct f.
  - intros [= <-]. by apply on_syn_inv.
  - intros [= <-]. by apply on_synack_inv.
  - intros H%frame_on_data. by eapply snd_frame_inv.
  - intros [= <-]. destruct (Hu _ _ _ _ eq_refl). by apply on_ack_inv.
  - intros [= <-]. eapply snd_frame_inv; [apply frame_on_peer_fin|done].
  - intros [= <-]. eapply snd_frame_inv; [apply frame_on_rst|done].
Qed.

(** The acknowledgement a cell carries, if it carries one, is a known one. *)
Definition cell_known (K : Z -> Prop) (cell : list byte) : Prop :=
  forall s a w k, decode cell = Some (Ack s a w k) -> ack_known K a.

Lemma on_cell_inv W B K fr e cell now e' :
  cell_known K cell -> snd_inv W B K fr e -> on_cell e cell now = Some e' -> snd_inv W B K fr e'.
Proof.
  intros Hk Hi. unfold on_cell. destruct (decode cell) as [f|] eqn:Ed; [|by intros [= <-]].
  pose proof (decode_inv _ _ Ed) as [Hwf _]. apply on_frame_inv; [|done].
  intros s a w k ->. split; [by destruct Hwf as (_ & ? & _)|by eapply Hk].
Qed.

(** ** Application calls *)

(** The bytes a [write] takes. *)
Definition write_accepts (e : StreamEngine) (data : list byte) : list byte :=
  if phase_eqb (phase e) Closed || fin_requested (tx e) then [] else data.

Lemma tx_inv_write W B U N oh t k :
  fin_requested t = false -> tx_inv W B U N oh t ->
  tx_inv (W ++ k) B U N oh (t <| pending := pending t ++ k |>).
Proof.
  intros Hfr [H1 H2 H3 H4 (A & HA & Hf & Hh) H6 H7 H8 H9].
  assert (N <= B + zlen W) as HN.
  { destruct (decide (N <= B + zlen W)); [done|]. rewrite H7 in Hfr; [done|lia]. }
  pose proof (zlen_nonneg k) as Hk. split; cbn; try done.
  - exists A. split_and!; try lia; [|done]. by apply flight_write.
  - rewrite H6. unfold zdrop, zlen in *. rewrite drop_app_le by lia. done.
  - rewrite zlen_app. lia.
  - destruct oh as [H|]; [|done]. destruct H9 as [G1 G2 G3].
    assert (H <= B + zlen W) as HH.
    { destruct (decide (H <= B + zlen W)); [done|]. rewrite G2 in Hfr; [done|lia]. }
    split; cbn; rewrite ?zlen_app; try done; [lia|]. intros Hrf. apply G3 in Hrf. lia.
Qed.

Lemma engine_write_inv W B K fr e k :
  snd_inv W B K fr e -> snd_inv (W ++ write_accepts e k) B K fr (engine_write e k).1.
Proof.
  intros Hi. unfold engine_write, write_accepts.
  destruct (_ || _) eqn:E; [by rewrite app_nil_r|].
  apply orb_false_iff in E as [_ Hfr]. destruct Hi as [H1 HB Hq H2 H3]. split; cbn; try done.
  destruct (phase e); try done; simpl in *.
  - destruct H3 as (? & ? & ? & -> & ? & ?). done.
  - destruct H3 as (U & N & oh & HU & H3). exists U, N, oh. split; [done|]. by apply tx_inv_write.
  - destruct H3 as (U & N & oh & HU & H3). exists U, N, oh. split; [done|]. by apply tx_inv_write.
Qed.

Lemma engine_finish_inv W B K fr e : snd_inv W B K fr e -> snd_inv W B K fr (engine_finish e).
Proof.
  intros [H1 HB Hq H2 H3]. split; cbn; try done.
  destruct (phase e); try done; simpl in *.
  all: destruct H3 as (U & N & oh & HU & [G1 G2 G3 G4 G5 G6 G7 G8 G9]); exists U, N, oh; (split; [done|]).
  all: split; cbn; try done; destruct oh; try done; destruct G9 as [? ? ?]; by split.
Qed.

Lemma engine_reset_inv W B K fr e r : snd_inv W B K fr e -> snd_inv W B K fr (engine_reset e r).
Proof.
  intros Hi. eapply snd_frame_inv; [|exact Hi]. unfold engine_reset. case_match; split; auto.
Qed.

(** ** Timers *)

Lemma frame_handshake_timer e now : snd_frame e (on_handshake_timer e now).1.
Proof.
  unfold on_handshake_timer. case_match; [|apply snd_frame_refl].
  case_match; [split; auto|]. destruct (phase e) eqn:Ep; split; cbn; rewrite ?Ep; auto.
Qed.

Lemma frame_persist_timer e now : snd_frame e (on_persist_timer e now).
Proof.
  unfold on_persist_timer. repeat case_match; split; auto. intros _. right.
  by apply zero_window_blocked_segs.
Qed.

(** The assignments of a data timeout before the flight is marked or rewound. *)
Lemma rto_response_rewind e ss : rto_response e = (ss, true) -> segs (tx e) <> [].
Proof.
  unfold rto_response. intros [= _ H] Hs. to_prop. rewrite Hs in *. done.
Qed.

Lemma requeue_core_congr t t' :
  tx_core t = tx_core t' ->
  tx_core (requeue_unsacked_flight_for_rto t) = tx_core (requeue_unsacked_flight_for_rto t').
Proof.
  intros H. pose proof H as E. unfold tx_core in E.
  injection E as E0 E1 E2 E3 E4 E5 E6 E7 E8 E9.
  assert (existsb is_fin (segs t) = existsb is_fin (segs t')) as Ef.
  { revert E4. generalize (segs t) (segs t'). induction l as [|s l IH]; intros [|s' l']; try done.
    intros [= ? ? Hf Hl]. simpl. rewrite Hf. f_equal. by apply IH. }
  assert (flat_map (requeued_bytes (snd_una t)) (segs t) =
          flat_map (requeued_bytes (snd_una t')) (segs t')) as Eb.
  { rewrite E1. revert E4. generalize (segs t) (segs t').
    induction l as [|s l IH]; intros [|s' l']; try done. intros [= H1 H2 H3 Hl]. simpl.
    f_equal; [|by apply IH]. unfold requeued_bytes. by rewrite H1, H2, H3. }
  unfold requeue_unsacked_flight_for_rto. rewrite E1, E2, E3, E5, E6, Ef, <- Eb, E1.
  destruct (existsb is_fin (segs t')); revert H; core_congr.
Qed.

Lemma requeue_phase W B K fr e t :
  snd_inv W B K fr e -> tx_core t = tx_core (tx e) -> segs (tx e) <> [] ->
  tx_phase W B K (phase e) (requeue_unsacked_flight_for_rto t).
Proof.
  intros [_ _ _ _ H3] Hc Hne. eapply tx_phase_core; [by apply requeue_core_congr|].
  destruct (phase e); simpl in *; try done.
  - destruct H3 as (_ & _ & Hs & _). congruence.
  - destruct H3 as (U & N & oh & HU & Hi). exists U, U, (Some (tx_top N oh)). split; [done|]. by apply requeue_inv.
  - destruct H3 as (U & N & oh & HU & Hi). exists U, U, (Some (tx_top N oh)). split; [done|]. by apply requeue_inv.
Qed.

Lemma segs_requeue t : segs (requeue_unsacked_flight_for_rto t) = [].
Proof. unfold requeue_unsacked_flight_for_rto. case_match; done. Qed.

Lemma core_rto_backed_off c t ss now : tx_core (rto_backed_off c t ss now) = tx_core t.
Proof. done. Qed.

(** The flight after a data timeout: rewound, or only marked. *)
Lemma rto_recover_inv W B K fr e t ss now r rw :
  snd_inv W B K fr e -> tx_core t = tx_core (tx e) -> (rw = true -> segs (tx e) <> []) ->
  snd_inv W B K fr (rto_recover e t ss now r rw).
Proof.
  intros Hi Ht Hrw. unfold rto_recover. destruct rw; [|destruct (rto_rewind_no_sack _)].
  - split; cbn; [apply Hi|apply Hi| |by rewrite segs_requeue|].
    + intros Hfr. apply (si_req _ _ _ _ _ Hi) in Hfr. unfold tx_core in Ht.
      injection Ht as _ _ _ _ _ _ _ Ht _ _. transitivity (fin_requested t); [|by rewrite Ht].
      unfold requeue_unsacked_flight_for_rto. by case_match.
    + eapply tx_phase_core; [|by eapply requeue_phase; eauto]. done.
  - set (e1 := e <| tx := _ |>). assert (marks e e1) as F1 by by apply marks_tx.
    set (e2 := mark_holes e1 true). pose proof (marks_mark_holes e1 true : marks e1 e2) as F2.
    clearbody e2. set (e3 := mark_expired_sack_repairs e2 now r).
    pose proof (marks_mark_expired e2 now r : marks e2 e3) as F3. clearbody e3.
    set (e4 := mark_oldest_unsacked_for_rto e3).
    assert (marks e3 e4) as F4 by apply marks_tx, core_mark_oldest_unsacked. clearbody e4.
    eapply snd_frame_inv; [|exact Hi]. apply snd_frame_marks.
    eapply marks_trans; [exact F1|]. eapply marks_trans; [exact F2|].
    eapply marks_trans; [exact F3|]. eapply marks_trans; [exact F4|]. by apply marks_tx.
  - eapply snd_frame_inv; [|exact Hi]. apply snd_frame_marks, marks_tx.
    set (t1 := t <| cwnd := _ |>). assert (tx_core t1 = tx_core t) as F1 by done. clearbody t1.
    rewrite <- Ht, <- F1, <- (core_mark_oldest_unsacked t1). done.
Qed.

Lemma on_data_rto_inv W B K fr e now : snd_inv W B K fr e -> snd_inv W B K fr (on_data_rto e now).
Proof.
  intros Hi. unfold on_data_rto. set (e1 := e <| tx := tx e <| consec_rto := _ |> |>).
  assert (snd_inv W B K fr e1) as Hi1 by (eapply snd_frame_inv; [|exact Hi]; split; auto).
  clearbody e1. destruct (max_retransmits (cfg e1) <? consec_rto (tx e1)).
  { eapply snd_frame_inv; [apply frame_declare_dead|done]. }
  match goal with |- context [push_event e1 ?x] => generalize x end. intros ev.
  set (e2 := push_event e1 ev).
  assert (snd_inv W B K fr e2) as Hi2 by (eapply snd_frame_inv; [apply frame_push_event|done]).
  assert (tx_core (tx e1) = tx_core (tx e2)) as Ht by done. clearbody e2.
  destruct (rto_response e2) as [ss rw] eqn:Er.
  set (t := rto_backed_off (cfg e2) (tx e1) ss now).
  assert (tx_core t = tx_core (tx e2)) as Ht' by (rewrite <- Ht; apply core_rto_backed_off).
  clearbody t. set (e3 := rto_recover e2 t ss now (rto_ms (tx e1)) rw).
  assert (snd_inv W B K fr e3) as Hi3.
  { apply rto_recover_inv; [done|done|]. intros ->. by eapply rto_response_rewind. }
  clearbody e3. eapply snd_frame_inv; [|exact Hi3]. apply snd_frame_marks.
  apply marks_if; [apply marks_tx, core_refresh_local_rto|apply marks_refl].
Qed.

Lemma on_rto_timer_inv W B K fr e now : snd_inv W B K fr e -> snd_inv W B K fr (on_rto_timer e now).1.
Proof.
  intros Hi. unfold on_rto_timer. destruct (rto_deadline (tx e)); [|done].
  destruct (negb _); [done|]. destruct (_ || _).
  { eapply snd_frame_inv; [|exact Hi]. by apply snd_frame_marks, marks_tx. }
  destruct (_ && is_some_and _ _); [|by apply on_data_rto_inv].
  eapply snd_frame_inv; [|exact Hi]. apply snd_frame_marks, marks_tx.
  rewrite <- (core_mark_head (tx e)). done.
Qed.

Lemma on_timeout_inv W B K fr e now : snd_inv W B K fr e -> snd_inv W B K fr (on_timeout e now).
Proof.
  intros Hi. unfold on_timeout. case_match; [done|].
  set (e1 := e <| tx := advance_bbr_probe _ _ _ |>).
  assert (snd_frame e e1) as F1 by (apply snd_frame_marks, marks_tx, core_advance_bbr_probe).
  clearbody e1. case_match.
  { eapply snd_frame_inv; [|exact Hi]. eapply snd_frame_trans; [exact F1|]. split; auto. }
  match goal with |- context [on_handshake_timer ?x] => set (e2 := x) end.
  assert (snd_frame e1 e2) as F2 by (subst e2; repeat case_match; split; auto). clearbody e2.
  pose proof (frame_handshake_timer e2 now) as F3.
  destruct (on_handshake_timer e2 now) as [e3 dead]. cbn [fst] in F3.
  assert (snd_inv W B K fr e3) as Hi3 by (do 3 (eapply snd_frame_inv; [eassumption|]); done).
  destruct dead; [done|].
  match goal with |- context [mark_due_sack_repairs ?x] => set (e4 := x) end.
  assert (snd_frame e3 e4) as F4
    by (apply snd_frame_marks, marks_if; [apply marks_rack_check|apply marks_refl]). clearbody e4.
  pose proof (snd_frame_marks _ _ (marks_mark_due e4 now)) as F5.
  assert (snd_inv W B K fr (mark_due_sack_repairs e4 now)) as Hi5
    by (do 2 (eapply snd_frame_inv; [eassumption|]); done).
  pose proof (on_rto_timer_inv W B K fr _ now Hi5) as Hi6.
  destruct (on_rto_timer _ now) as [e6 dead]. destruct dead; [done|].
  eapply snd_frame_inv; [apply frame_persist_timer|done].
Qed.

(** ** Transmission *)

Lemma position_Some {A} (p : A -> bool) l i :
  position p l = Some i -> exists x, l !! i = Some x /\ p x = true.
Proof.
  revert i. induction l as [|x l IH]; intros i; [done|]. cbn [position].
  destruct (p x) eqn:E; [intros [= <-]; by exists x|].
  destruct (position p l) as [j|]; [|done]. intros [= <-]. by apply IH.
Qed.

Lemma marks_pace_refill e now : marks e (pace_refill e now).
Proof.
  unfold pace_refill. case_match; [|apply marks_refl]. destruct (pace_params e).
  by apply marks_tx.
Qed.

(** Replacing segment [i] by one with the same core. *)
Lemma core_put_seg t i s s' l :
  segs t = l -> l !! i = Some s -> seg_core s' = seg_core s ->
  tx_core (t <| segs := <[i := s']> (segs t) |>) = tx_core t /\
  segs (t <| segs := <[i := s']> (segs t) |>) !! i = Some s'.
Proof.
  intros <- Hl Hs. split; [apply core_segs; by eapply insert_core|]. cbn.
  apply list_lookup_insert_eq. by apply lookup_lt_Some in Hl.
Qed.

Lemma segs_record_rack_repair t a b o h now : segs (record_rack_repair t a b o h now) = segs t.
Proof. unfold record_rack_repair. core_tac. Qed.

(** Retransmission changes marks only, and the frame is the segment's. *)
Lemma resend_seg_marks e i s now :
  segs (tx e) !! i = Some s ->
  marks e (resend_seg e i s now).1 /\
  exists s', seg_core s' = seg_core s /\
    (resend_seg e i s now).2 = seg_frame (resend_seg e i s now).1 s'.
Proof.
  intros Hs. unfold resend_seg.
  set (s1 := s <| needs_resend := false |> <| sack_repair_deadline := None |>).
  assert (seg_core s1 = seg_core s) as Hs1 by done. clearbody s1.
  destruct (core_put_seg (tx e) i s s1 _ eq_refl Hs Hs1) as [H1 L1].
  set (t1 := tx e <| segs := _ |>) in *. clearbody t1.
  set (t2 := if is_some (next_sack_repair_ms t1) then _ else t1).
  assert (tx_core t2 = tx_core t1 /\ segs t2 = segs t1) as [H2 L2] by (subst t2; by case_match).
  clearbody t2. rewrite <- L2 in L1.
  set (t3 := if rack (cfg e) then _ else t2).
  assert (tx_core t3 = tx_core t2 /\ segs t3 = segs t2) as [H3 L3].
  { subst t3. case_match; [|done]. split; [apply core_record_rack_repair|].
    apply segs_record_rack_repair. }
  clearbody t3. rewrite <- L3 in L1.
  set (s2 := s1 <| retransmitted := true |> <| sent_ms := now |>).
  assert (seg_core s2 = seg_core s1) as Hs2 by done. clearbody s2.
  destruct (core_put_seg t3 i s1 s2 _ eq_refl L1 Hs2) as [H4 L4].
  set (t4 := t3 <| segs := _ |>) in *. clearbody t4.
  set (t5 := match persist_probe t4 with Some _ => _ | None => t4 end).
  assert (tx_core t5 = tx_core t4 /\ segs t5 = segs t4) as [H5 L5]
    by (subst t5; repeat case_match; done).
  clearbody t5. rewrite <- L5 in L4.
  set (s3 := s2 <| local_pending := track_local_handoffs e |>).
  assert (seg_core s3 = seg_core s2) as Hs3 by done. clearbody s3.
  destruct (core_put_seg t5 i s2 s3 _ eq_refl L4 Hs3) as [H6 _].
  set (t6 := t5 <| segs := _ |>) in *. clearbody t6.
  split; [|exists s3; split; [congruence|done]]. cbn [fst]. apply marks_tx.
  transitivity (tx_core t6); [|congruence].
  destruct (track_local_handoffs e); [|done]. apply core_refresh_local_rto.
Qed.

(** A new segment extends the flight by the next bytes of the queue, or by the FIN. *)
Lemma push_seg_core e s now :
  let e' := push_seg e s now in
  e' = e <| tx := tx e' |> /\ tx_core (tx e') = tx_core (tx e <| segs := segs (tx e) ++ [s] |>).
Proof. unfold push_seg. split; [by destruct e|]. cbn. case_match; done. Qed.

Lemma tx_inv_data W B U N oh t n s t' :
  tx_inv W B U N oh t -> 0 < n <= MSS -> n <= zlen (pending t) -> N + n < U + M31 ->
  seg_core s = (snd_nxt t, ztake n (pending t), false) ->
  tx_core t' = tx_core (t <| pending := zdrop n (pending t) |>
                          <| snd_nxt := add32 (snd_nxt t) n |> <| segs := segs t ++ [s] |>) ->
  tx_inv W B U (N + n) oh t'.
Proof.
  intros [H1 H2 H3 H4 (A & HA & Hf & Hh) H6 H7 H8 H9] Hn Hle Hroom Hs Hc.
  eapply tx_inv_core; [exact Hc|]. rewrite H6 in *.
  rewrite zlen_zdrop in Hle by lia. pose proof (zlen_nonneg W).
  split; cbn; try done; try lia.
  - by rewrite H2, add32_wrap.
  - exists A. split_and!; try lia.
    + rewrite map_app. cbn [map]. rewrite Hs.
      replace (N + n) with (N + span_of (snd_nxt t, ztake n (zdrop (N - B) W), false)).
      2: { unfold span_of. cbn. rewrite zlen_ztake, zlen_zdrop by lia. lia. }
      apply flight_snoc; [done|done|]. cbn. rewrite zlen_ztake, zlen_zdrop by lia.
      split; [lia|]. apply genuine_cut; lia.
    + intros s' Hs'. destruct (segs t) as [|s0 l] eqn:El; [|by apply Hh]. simpl in Hs', Hf.
      injection Hs' as <-. rewrite Hs. unfold span_of. cbn.
      rewrite zlen_ztake, zlen_zdrop by lia. lia.
  - rewrite zdrop_zdrop by lia. f_equal. lia.
  - destruct oh; [|done]. by apply (rewind_ok_ext _ _ _ t).
Qed.

Lemma tx_inv_fin W B U N oh t s t' :
  tx_inv W B U N oh t -> pending t = [] -> fin_requested t = true -> N + 1 < U + M31 ->
  seg_core s = (snd_nxt t, [], true) ->
  tx_core t' = tx_core (t <| snd_nxt := add32 (snd_nxt t) 1 |> <| fin_sent := true |>
                          <| segs := segs t ++ [s] |>) ->
  tx_inv W B U (N + 1) oh t'.
Proof.
  intros [H1 H2 H3 H4 (A & HA & Hf & Hh) H6 H7 H8 H9] Hp Hfr Hroom Hs Hc.
  eapply tx_inv_core; [exact Hc|].
  assert (B + zlen W <= N) as Hend.
  { rewrite Hp in H6. apply (f_equal zlen) in H6. rewrite zlen_zdrop, zlen_nil in H6 by lia. lia. }
  split; cbn; try done; try lia.
  - by rewrite H2, add32_wrap.
  - exists A. split_and!; try lia.
    + rewrite map_app. cbn [map]. rewrite Hs.
      change (N + 1) with (N + span_of (snd_nxt t, [] : list byte, true)).
      apply flight_snoc; [done|done|]. cbn. split; [lia|done].
    + intros s' Hs'. destruct (segs t) as [|s0 l] eqn:El; [|by apply Hh]. simpl in Hs', Hf.
      injection Hs' as <-. rewrite Hs. unfold span_of. cbn. lia.
  - rewrite Hp. symmetry. apply zdrop_all. lia.
  - destruct oh; [|done]. by apply (rewind_ok_ext _ _ _ t).
Qed.

Lemma effective_window_le e : effective_send_window e <= MAX_INFLIGHT_BYTES.
Proof. unfold effective_send_window. case_match; lia. Qed.

(** Room left in the window, as [create_next_segment] computes it. *)
Lemma room_bound (probe : bool) window fl :
  0 <= fl -> window <= M31 - 1 -> (probe = true -> fl = 0) ->
  negb probe && (window <=? fl) = false ->
  let room := if probe then Z.max (sub32 window fl) 1 else sub32 window fl in
  1 <= room /\ (fl + Z.min MSS room < M31) /\ (probe = false -> fl + room = window).
Proof.
  intros Hfl Hw Hp Hc room. unfold MSS, MAX_CELL, DATA_OVERHEAD. subst room.
  unfold sub32, wrap32. destruct probe; simpl in Hc.
  - rewrite Hp by done. pose proof (Z.mod_pos_bound (window - 0) M32). lia.
  - to_prop. rewrite Z.mod_small by lia. lia.
Qed.

Lemma tx_inflight W B U N oh t :
  tx_inv W B U N oh t -> sub32 (snd_nxt t) (snd_una t) = N - U.
Proof.
  intros Hi. pose proof (ti_order _ _ _ _ _ _ Hi). pose proof (ti_room _ _ _ _ _ _ Hi).
  rewrite (ti_una _ _ _ _ _ _ Hi), (ti_nxt _ _ _ _ _ _ Hi), sub32_wrap.
  apply wrap32_id. unfold is_u32. lia.
Qed.

Lemma push_seg_inv W B K fr e s now U N oh :
  cfg_ok (cfg e) -> K U -> (fr = true -> fin_requested (tx e) = true) -> phase e = Established ->
  force_probe e = false ->
  tx_inv W B U N oh (tx e <| segs := segs (tx e) ++ [s] |>) ->
  snd_inv W B K fr (push_seg e s now) /\ phase (push_seg e s now) = Established /\
  exists s', last (segs (tx (push_seg e s now))) = Some s'.
Proof.
  intros Hcf HU Hq Hph Hfp Hi. split_and!.
  - split; cbn; [done|congruence|by case_match|congruence|]. rewrite Hph. exists U, N, oh. split; [done|].
    eapply tx_inv_core; [|exact Hi]. case_match; done.
  - done.
  - exists s. unfold push_seg. cbn. case_match; cbn; apply last_snoc.
Qed.

Lemma create_next_segment_inv W B K fr e now e' b :
  snd_inv W B K fr e -> phase e = Established -> create_next_segment e now = (e', b) ->
  snd_inv W B K fr e' /\ phase e' = Established /\
  (b = true -> exists s, last (segs (tx e')) = Some s).
Proof.
  intros Hsi Hph. pose proof Hsi as [Hcf HB Hq Hp Ht]. rewrite Hph in Ht.
  destruct Ht as (U & N & oh & HU & Hi).
  pose proof (ti_order _ _ _ _ _ _ Hi). pose proof (ti_room _ _ _ _ _ _ Hi).
  pose proof (effective_window_le e) as Hwin. unfold MAX_INFLIGHT_BYTES in Hwin.
  unfold create_next_segment. rewrite (tx_inflight _ _ _ _ _ _ Hi).
  destruct (negb (force_probe e) && _) eqn:Ew; [by intros [= <- <-]|].
  destruct (room_bound (force_probe e) (effective_send_window e) (N - U)) as (Hr1 & Hr2 & _);
    [lia|lia| |done|].
  { intros Hfp. specialize (Hp Hfp). pose proof (flight_nil_eq _ _ _ _ _ _ Hi Hp). lia. }
  set (room := if force_probe e then _ else _) in *. clearbody room.
  assert (wrap32 (mss (cfg e)) = mss (cfg e)) as ->.
  { apply wrap32_id. unfold cfg_ok, MSS, MAX_CELL, DATA_OVERHEAD in Hcf. unfold is_u32. lia. }
  destruct (pending (tx e)) as [|b0 p0] eqn:Ep; cbn [is_nil negb].
  - destruct (_ && (1 <=? room)) eqn:Ef; [|by intros [= <- <-]]. to_prop. intros [= <- <-].
    set (e1 := e <| force_probe := false |> <| tx := _ |>).
    set (s1 := fresh_seg e1 (snd_nxt (tx e)) [] true now).
    edestruct (push_seg_inv W B K fr e1 s1 now U (N + 1) oh)
      as (Ha & Hb & Hc); [done|done|done|done|done| |by auto].
    eapply (tx_inv_fin W B U N oh (tx e) s1); [done|done|done| |reflexivity|reflexivity].
    unfold MSS, MAX_CELL, DATA_OVERHEAD in *. lia.
  - rewrite <- Ep. set (take := Z.min _ _). destruct (take =? 0) eqn:Et; [by intros [= <- <-]|].
    to_prop. unfold cfg_ok in Hcf.
    assert (0 < take <= Z.min MSS room /\ take <= zlen (pending (tx e))) as [Htk Htp].
    { subst take. pose proof (zlen_nonneg (pending (tx e))). unfold wrap32 in *.
      pose proof (Z.mod_pos_bound (zlen (pending (tx e))) M32 ltac:(lia)).
      pose proof (Z.mod_le (zlen (pending (tx e))) M32 ltac:(lia) ltac:(lia)). lia. }
    clearbody take. intros [= <- <-]. cbv zeta.
    match goal with |- context [push_seg ?x ?y] => set (e1 := x); set (s1 := y) end.
    edestruct (push_seg_inv W B K fr e1 s1 now U (N + take) oh)
      as (Ha & Hb & Hc); [done|done| |done|done| |by auto].
    { subst e1. cbn. intros Hfr. specialize (Hq Hfr). repeat case_match; done. }
    eapply (tx_inv_data W B U N oh (tx e) take s1); [done|lia|done|lia|done|].
    subst e1. cbn. repeat case_match; done.
Qed.

(** What an emitted frame says about the written stream [W]. *)
Definition frame_ok (W : list byte) (B : Z) (K : Z -> Prop) (freq : bool) (f : Frame) : Prop :=
  match f with
  | Data _ s _ d =>
      exists U P, K U /\ s = wrap32 P /\ B <= P /\ U < P + zlen d < U + M31 /\
        0 < zlen d <= MSS /\ holds (genuine W B) P d
  | Fin _ s =>
      freq = true /\ exists U P, K U /\ s = wrap32 P /\ B + zlen W <= P < U + M31 /\ U <= P
  | _ => True
  end.

Lemma seg_frame_ok W B K fr e e' s s' :
  snd_inv W B K fr e -> phase e = Established -> s ∈ segs (tx e) -> seg_core s' = seg_core s ->
  frame_ok W B K (fin_requested (tx e)) (seg_frame e' s').
Proof.
  intros [_ _ _ _ Ht] Hph Hs Hc. rewrite Hph in Ht. destruct Ht as (U & N & oh & HU & Hi).
  pose proof (ti_room _ _ _ _ _ _ Hi) as Hroom.
  pose proof (ti_req _ _ _ _ _ _ Hi) as Hreq.
  destruct (ti_flight _ _ _ _ _ _ Hi) as (A & HA & Hf & Hh).
  apply (list_elem_of_fmap_2 seg_core) in Hs.
  destruct (flight_elem_above W B U N _ (seg_core s) A ltac:(lia) Hf) as (P & HP & Hsp & Hg); [|done|].
  { intros h Hh'. destruct (segs (tx e)) as [|s0 l]; [done|]. injection Hh' as <-. by apply Hh. }
  rewrite <- Hc in Hg, Hsp. unfold span_of in Hsp. cbn in Hsp. destruct Hg as [Hsq Hg]. cbn in Hsq, Hg.
  unfold seg_frame. destruct (is_fin s'); cbn.
  - split; [apply Hreq; lia|]. exists U, P. split_and!; try done; lia.
  - exists U, P. destruct Hg as (? & ? & ?). split_and!; try done; lia.
Qed.

Lemma marks_freq e e' : marks e e' -> fin_requested (tx e') = fin_requested (tx e).
Proof. intros [_ Hc]. unfold tx_core in Hc. by injection Hc as _ _ _ _ _ _ _ Hc _ _. Qed.

Lemma poll_segment_inv W B K fr e now b e' o :
  snd_inv W B K fr e -> poll_segment e now b = (e', o) ->
  snd_inv W B K fr e' /\ forall f, o = Some f -> frame_ok W B K (fin_requested (tx e')) f.
Proof.
  intros Hi. unfold poll_segment. destruct (phase_eqb _ _) eqn:Eph; [|by intros [= <- <-]].
  apply bool_decide_eq_true in Eph.
  pose proof (marks_pace_refill e now) as F1. set (e1 := pace_refill e now) in *.
  assert (snd_inv W B K fr e1) as Hi1 by (eapply snd_frame_inv; [by apply snd_frame_marks|done]).
  assert (phase e1 = Established) as Hph by (destruct F1 as [-> _]; done). clearbody e1.
  set (due := if 0 <? pace_budget (tx e1) then _ else None).
  assert (forall i s, due = Some (i, s) -> segs (tx e1) !! i = Some s) as Hdue.
  { intros i s. subst due. destruct (0 <? _); [|done].
    destruct (position _ _) as [j|]; [|done]. cbn [mbind option_bind].
    destruct (segs (tx e1) !! j) eqn:E; [|done]. cbn [mbind option_bind]. by intros [= <- <-]. }
  clearbody due. destruct due as [[i s]|].
  - specialize (Hdue i s eq_refl).
    destruct (resend_seg_marks e1 i s now Hdue) as (F2 & s' & Hs' & Hf).
    destruct (resend_seg e1 i s now) as [e2 f]. cbn [fst snd] in *. intros [= <- <-].
    split; [eapply snd_frame_inv; [by apply snd_frame_marks|done]|].
    intros g [= <-]. rewrite Hf, (marks_freq _ _ F2). eapply seg_frame_ok; [done|done| |done].
    by eapply list_elem_of_lookup_2.
  - destruct (b && _); [|by intros [= <- <-]].
    destruct (create_next_segment e1 now) as [e2 created] eqn:Ec.
    destruct (create_next_segment_inv W B K fr e1 now e2 created Hi1 Hph Ec) as (Hi2 & Hph2 & Hl).
    destruct created; intros [= <- <-]; [|by split].
    destruct (Hl eq_refl) as [s Hs]. cbn. rewrite Hs. cbn.
    split; [eapply snd_frame_inv; [by apply snd_frame_marks, marks_tx|done]|].
    intros g [= <-]. eapply seg_frame_ok; [done|done| |done].
    apply last_Some in Hs as [l ->]. apply elem_of_app. right. left.
Qed.

Lemma poll_ack_frame e e' f : poll_ack e = (e', Some f) -> exists s a w k, f = Ack s a w k.
Proof.
  unfold poll_ack. case_match; [done|]. unfold make_ack. repeat case_match;
    intros [= <- <-]; simplify_eq; eauto.
Qed.

Lemma poll_transmit_inv W B K fr e now b e' o :
  snd_inv W B K fr e -> poll_transmit_inner e now b = (e', o) ->
  snd_inv W B K fr e' /\ forall f, o = Some f -> frame_ok W B K (fin_requested (tx e')) f.
Proof.
  intros Hi. unfold poll_transmit_inner.
  set (e1 := e <| tx := advance_bbr_probe _ _ _ |>).
  assert (snd_inv W B K fr e1) as Hi1.
  { eapply snd_frame_inv; [|exact Hi]. apply snd_frame_marks, marks_tx, core_advance_bbr_probe. }
  clearbody e1. destruct (rst_to_send e1).
  { intros [= <- <-]. split; [eapply snd_frame_inv; [|exact Hi1]; split; auto|]. by intros ? [= <-]. }
  destruct (send_syn e1).
  { intros [= <- <-]. split; [|by intros ? [= <-]]. eapply snd_frame_inv; [|exact Hi1].
    unfold track_handshake. case_match; split; auto. }
  destruct (send_synack e1).
  { intros [= <- <-]. split; [|by intros ? [= <-]]. eapply snd_frame_inv; [|exact Hi1].
    unfold track_handshake. case_match; split; auto. }
  set (first := if b then (e1, None) else poll_ack e1).
  assert (snd_inv W B K fr first.1 /\ forall f, first.2 = Some f -> exists s a w k, f = Ack s a w k)
    as [Hi2 Hf2].
  { subst first. destruct b; [done|]. split; [eapply snd_frame_inv; [apply frame_poll_ack|done]|].
    intros f Hf. eapply poll_ack_frame. by rewrite <- Hf, <- surjective_pairing. }
  destruct first as [e2 [f|]]; cbn [fst snd] in *.
  { intros [= <- <-]. split; [done|]. intros ? [= <-]. by destruct (Hf2 f eq_refl) as (?&?&?&?&->). }
  destruct (poll_segment e2 now b) as [e3 o3] eqn:Es.
  destruct (poll_segment_inv W B K fr e2 now b e3 o3 Hi2 Es) as [Hi3 Hf3].
  destruct o3 as [f|]; [intros [= <- <-]; auto|].
  pose proof (frame_poll_ack e3) as F4. destruct (poll_ack e3) as [e4 [f|]] eqn:Ea; cbn in F4.
  - intros [= <- <-]. split; [eapply snd_frame_inv; [exact F4|done]|].
    intros ? [= <-]. by destruct (poll_ack_frame _ _ _ Ea) as (?&?&?&?&->).
  - intros [= <- <-]. split; [|done]. eapply snd_frame_inv; [|exact Hi3].
    eapply snd_frame_trans; [exact F4|]. split; auto.
Qed.

(** ** Runs *)

Lemma write_effect e data :
  ztake (engine_write e data).2 data = write_accepts e data.
Proof.
  unfold engine_write, write_accepts. case_match; [done|]. cbn.
  unfold ztake, zlen. rewrite Nat2Z.id. apply take_ge. lia.
Qed.

(** The operations whose acknowledgements are known ones. *)
Definition op_known (K : Z -> Prop) (op : Op) : Prop :=
  match op with OpCell cell _ => cell_known K cell | _ => True end.

Lemma step_inv W B K fr e op e' w :
  op_known K op -> snd_inv W B K fr e -> step e op = Some (e', w) ->
  snd_inv (W ++ ef_written w) B K fr e' /\
  Forall (frame_ok (W ++ ef_written w) B K (fin_requested (tx e'))) (ef_sent w).
Proof.
  intros Hk Hi. destruct op; cbn [step].
  - pose proof (engine_write_inv W B K fr e data Hi) as H. pose proof (write_effect e data) as Hw.
    destruct (engine_write e data) as [e1 n]. cbn [fst snd] in *. intros [= <- <-]. cbn.
    rewrite Hw. by split.
  - intros [= <- <-]. cbn. rewrite app_nil_r. split; [by apply engine_finish_inv|done].
  - intros [= <- <-]. cbn. rewrite app_nil_r. split; [by apply engine_reset_inv|done].
  - pose proof (frame_engine_read e len) as F. destruct (engine_read e len) as [e1 out].
    intros [= <- <-]. cbn in *. rewrite app_nil_r. split; [by eapply snd_frame_inv|done].
  - intros [= <- <-]. cbn. rewrite app_nil_r. split; [|done].
    eapply snd_frame_inv; [|exact Hi]. split; auto.
  - destruct (on_cell e cell now) as [e1|] eqn:E; [|done]. intros [= <- <-]. cbn.
    rewrite app_nil_r. split; [by eapply on_cell_inv|done].
  - destruct (poll_transmit_inner e now allow_new) as [e1 o] eqn:E. intros [= <- <-]. cbn.
    rewrite app_nil_r. destruct (poll_transmit_inv W B K fr e now allow_new e1 o Hi E) as [H1 H2].
    split; [done|]. destruct o as [f|]; cbn; [apply Forall_singleton; auto|constructor].
  - intros [= <- <-]. cbn. rewrite app_nil_r. split; [by apply on_timeout_inv|done].
  - intros [= <- <-]. cbn. rewrite app_nil_r. split; [|done].
    eapply snd_frame_inv; [apply frame_local_handoff|done].
  - intros [= <- <-]. cbn. rewrite app_nil_r. split; [|done].
    eapply snd_frame_inv; [apply snd_frame_marks, marks_discard|done].
  - intros [= <- <-]. cbn. rewrite app_nil_r. split; [|done].
    eapply snd_frame_inv; [|exact Hi]. split; auto.
Qed.

(** Bytes are accepted only before [finish], so frames stay right as the stream grows. *)
Lemma step_written e op e' w :
  step e op = Some (e', w) -> fin_requested (tx e) = true -> ef_written w = [].
Proof.
  intros H Hfr. destruct op; cbn [step] in H; try by injection H as <- <-.
  - pose proof (write_effect e data) as Hw. destruct (engine_write e data) as [e1 n].
    injection H as <- <-. cbn in *. rewrite Hw. unfold write_accepts. by rewrite Hfr, orb_true_r.
  - destruct (on_cell e cell now); [|done]. by injection H as <- <-.
  - destruct (poll_transmit_inner e now allow_new). by injection H as <- <-.
Qed.

Lemma frame_ok_grow W k B K fr fr' f :
  (fr = true -> k = [] /\ fr' = true) -> frame_ok W B K fr f -> frame_ok (W ++ k) B K fr' f.
Proof.
  intros Hk. destruct f; cbn; try done.
  - intros (U & P & HU & -> & HP & Hr & Hl & Hd). exists U, P. split_and!; try done; try lia.
    eapply holds_mono; [|exact Hd]. intros; by apply genuine_app.
  - intros [Hfr HP]. destruct (Hk Hfr) as [-> ->]. by rewrite app_nil_r.
Qed.

Lemma runs_inv G B K e0 e w :
  (forall e op, G e op -> op_known K op) -> snd_inv [] B K false e0 -> runs G e0 e w ->
  snd_inv (ef_written w) B K (fin_requested (tx e)) e /\
  Forall (frame_ok (ef_written w) B K (fin_requested (tx e))) (ef_sent w).
Proof.
  intros Hk H0. induction 1 as [|e w op e' w' _ [IH1 IH2] Hg Hs].
  - split; [|constructor]. destruct H0. by split.
  - destruct (step_inv _ _ _ _ _ _ _ _ (Hk _ _ Hg) IH1 Hs) as [H1 H2]. cbn. split.
    { destruct H1. by split. }
    apply Forall_app. split; [|done]. eapply Forall_impl; [exact IH2|].
    intros f Hf. eapply frame_ok_grow; [|exact Hf]. intros Hfr. split.
    + by eapply step_written.
    + by apply (si_req _ _ _ _ _ H1).
Qed.

(** Nothing is asked of the acknowledgements. *)
Definition anywhere (_ : Z) : Prop := True.

Lemma op_anywhere op : op_known anywhere op.
Proof. by destruct op. Qed.

(** The position of the first byte an engine will send: its SYN takes one sequence number when it
    opens the stream, and none when it answers. *)
Definition started (B : Z) (e0 : StreamEngine) : Prop :=
  exists sid c now iss0, cfg_ok c /\ is_u32 iss0 /\
    ((e0 = engine_connect sid c now iss0 /\ B = iss0 + 1) \/
     (e0 = engine_accept sid c now iss0 /\ B = iss0)).

Lemma started_inv B K e0 : K B -> started B e0 -> snd_inv [] B K false e0.
Proof.
  intros HK (sid & c & now & iss0 & Hc & Hu & [[-> ->]|[-> ->]]).
  - split; cbn; try done. unfold syn_sent. cbn. split_and!; try done.
    rewrite wrap32_id; unfold is_u32 in *; lia.
  - split; cbn; try done. exists iss0, iss0, None. split; [done|]. pose proof (wrap32_id iss0 Hu).
    split; cbn; try done; try lia.
    + exists iss0. split_and!; try done; lia.
    + by rewrite Z.sub_diag.
    + rewrite zlen_nil. lia.
Qed.

(** C12. An engine sends only what it was given.  Whatever cells arrive (from any peer, in any
    order) and whatever the application, the carrier and the timers do, every DATA frame the
    engine ever emits carries, at the position its sequence number names, exactly the bytes that
    were written there; and a FIN is emitted only after [finish], at or after the end of
    everything written. *)
Theorem sender_faithful (B : Z) (e0 e : StreamEngine) (w : Effect) (f : Frame)
    (Hstart : started B e0) (Hrun : runs any_op e0 e w) (Hf : f ∈ ef_sent w) :
  match f with
  | Data _ s _ d =>
      exists P, s = wrap32 P /\ B <= P /\ 0 < zlen d <= MSS /\ holds (genuine (ef_written w) B) P d
  | Fin _ s =>
      fin_requested (tx e) = true /\ exists P, s = wrap32 P /\ B + zlen (ef_written w) <= P
  | _ => True
  end.
Proof.
  destruct (runs_inv any_op B anywhere e0 e w (fun _ op _ => op_anywhere op)
    (started_inv B anywhere e0 I Hstart) Hrun) as [_ H].
  rewrite Forall_forall in H. specialize (H f Hf). destruct f; cbn in *; try done.
  - destruct H as (U & P & _ & ? & ? & _ & ?). by exists P.
  - destruct H as (? & U & P & _ & ? & [? _] & _). split; [done|]. by exists P.
Qed.

(** Two bytes written over a counter about to wrap, sent, timed out and sent again; then the FIN. *)
Lemma sender_faithful_witness :
  exists e w,
    runs any_op (engine_connect 7 Config_default 0 4294967294) e w /\
    Data 7 4294967295 16758784 [x41; x42] ∈ ef_sent w /\
    (exists P, 4294967295 = wrap32 P /\ 4294967295 <= P /\
      holds (genuine (ef_written w) 4294967295) P [x41; x42]) /\
    Fin 7 1 ∈ ef_sent w /\ exists P, 1 = wrap32 P /\ 4294967295 + zlen (ef_written w) <= P.
Proof.
  set (e0 := engine_connect 7 Config_default 0 4294967294).
  assert (started 4294967295 e0) as Hst.
  { exists 7, Config_default, 0, 4294967294. split_and!; [done|done|]. left. by split. }
  set (ops := [OpPoll 0 true; OpCell (encode (SynAck 7 500 100000 4294967295)) 1;
    OpWrite [x41; x42]; OpFinish; OpPoll 2 true; OpTimeout 5000; OpPoll 5001 true;
    OpPoll 5002 true]).
  assert (ef_sent ∘ snd <$> run_ops e0 silent ops =
    Some [Syn 7 4294967294 16758784; Data 7 4294967295 16758784 [x41; x42];
          Data 7 4294967295 16758784 [x41; x42]; Fin 7 1]) as Hs by (vm_compute; reflexivity).
  destruct (run_ops e0 silent ops) as [[e w]|] eqn:Hr; [|done]. injection Hs as Hs.
  assert (runs any_op e0 e w) as Hrun by (eapply run_ops_runs; [constructor|exact Hr]).
  clear Hr. clearbody e0. exists e, w. rewrite Hs. split_and!; [done|set_solver| |set_solver|].
  - destruct (sender_faithful _ _ _ _ (Data 7 4294967295 16758784 [x41; x42]) Hst Hrun)
      as (P & HP & HB & _ & Hh); [rewrite Hs; set_solver|eauto].
  - destruct (sender_faithful _ _ _ _ (Fin 7 1) Hst Hrun) as [_ HP]; [rewrite Hs; set_solver|exact HP].
Defined.
