(* ===== verification/StreamRobust.v ===== *)
(** * Robustness of the engine

    What an engine guarantees whoever its peer is: no operation panics once the handshake has
    preceded the data, and every frame it emits is well formed, so that it fits a cell and decodes
    at the peer to what was meant.  The last section shows what happens when data does precede
    the handshake. *)

From S2P Require Import Prelude BTree Seq StreamWire StreamRx StreamRxInv StreamRxAccept.
From S2P Require Import StreamRxRuns StreamTx StreamEngine StreamTxInv StreamSender.

(** ** What the sending operations leave alone *)

Definition handshaking (p : Phase) : bool :=
  match p with SynSent | Listen => true | _ => false end.

(** Before the handshake has completed there is nothing to acknowledge. *)
Definition quiet (e : StreamEngine) : Prop :=
  handshaking (phase e) = true -> ack_pending e = false /\ ack_deadline e = None.

(** [e'] has the receive side and the identity of [e]; at most it has closed. *)
Record keeps (e e' : StreamEngine) : Prop := {
  kp_rx : rx e' = rx e;
  kp_id : stream_id e' = stream_id e;
  kp_iss : iss (tx e') = iss (tx e);
  kp_dup : duplicate_range e' = duplicate_range e;
  kp_phase : phase e' = phase e \/ phase e' = Closed;
  kp_quiet : quiet e -> quiet e';
  kp_rst : rst_to_send e' = rst_to_send e \/ rst_to_send e' = Some reset_reason.TIMED_OUT
}.

Ltac keep := split; auto; try (by intros _ ?).

Lemma keeps_refl e : keeps e e.
Proof. split; auto. Qed.

Lemma keeps_trans e1 e2 e3 : keeps e1 e2 -> keeps e2 e3 -> keeps e1 e3.
Proof.
  intros [A1 A2 A3 A4 A5 AQ A6] [B1 B2 B3 B4 B5 BQ B6]. split; try congruence; auto.
  - destruct B5 as [->| ->]; auto.
  - destruct B6 as [->| ->]; auto.
Qed.

Lemma core_iss t t' : tx_core t' = tx_core t -> iss t' = iss t.
Proof. unfold tx_core. intros H. by injection H. Qed.

Lemma keeps_marks e e' : marks e e' -> keeps e e'.
Proof. intros [-> H]. apply core_iss in H. split; auto. Qed.

Lemma keeps_tx e t : iss t = iss (tx e) -> keeps e (e <| tx := t |>).
Proof. intros H. split; auto. Qed.

Lemma keeps_note_peer_progress e : keeps e (note_peer_progress e).
Proof. unfold note_peer_progress. case_match; split; auto. Qed.

Lemma keeps_on_ack_window e ack win now : keeps e (on_ack_window e ack win now).
Proof.
  unfold on_ack_window. destruct (seq.geq _ _); [|apply keeps_refl].
  destruct (_ && _), (0 <? win); split; auto; done.
Qed.

Lemma iss_acked_tx t ack fa : iss (acked_tx t ack fa) = iss t.
Proof. unfold acked_tx, trim_rewound_pending_after_ack. repeat case_match; done. Qed.

Lemma keeps_on_ack e ack win sacks now : keeps e (on_ack e ack win sacks now).
Proof.
  unfold on_ack. pose proof (keeps_note_peer_progress e) as H1.
  set (e1 := note_peer_progress e) in *. clearbody e1.
  destruct (_ || _); [done|]. destruct (seq.gt ack (ack_limit (tx e1))); [done|].
  pose proof (keeps_on_ack_window e1 ack win now) as H2.
  set (e2 := on_ack_window e1 ack win now) in *. clearbody e2.
  pose proof (core_sack_ranges (rack (cfg e2)) now (snd_una (tx e2)) (rack_xmit_ms (tx e2)) sacks
    (tx e2, ack_vars0)) as H3.
  destruct (fold_left _ _ _) as [t3 a3]. cbn [fst] in H3. apply core_iss in H3.
  pose proof (marks_on_ack_probe (e2 <| tx := t3 |>) ack now
    (seq.geq ack (snd_una (tx e1)) && (rwnd (tx e1) =? 0) && (0 <? win))) as H4.
  destruct (on_ack_probe _ _ _ _) as [e4 refused]. cbn [fst] in H4. apply keeps_marks in H4.
  match goal with |- context [let '(_, _) := ?x in _] => set (ea := x) end.
  assert (keeps e4 ea.1) as H5.
  { subst ea. destruct (seq.gt ack (snd_una (tx e4))).
    - destruct (on_ack_cumulative_core e4 a3 ack now (snd_una (tx e2)) (rack_xmit_ms (tx e2)))
        as [He [fa Hc]]. rewrite He. apply keeps_tx. by rewrite (core_iss _ _ Hc), iss_acked_tx.
    - case_match; [|apply keeps_refl]. apply keeps_marks, marks_on_ack_duplicate. }
  destruct ea as [e5 a5]. cbn [fst] in H5.
  eapply keeps_trans; [exact H1|]. eapply keeps_trans; [exact H2|].
  eapply keeps_trans; [apply keeps_tx, H3|]. eapply keeps_trans; [exact H4|].
  eapply keeps_trans; [exact H5|]. apply keeps_marks, marks_on_ack_tail.
Qed.

Lemma keeps_handshake_timer e now : keeps e (on_handshake_timer e now).1.
Proof.
  unfold on_handshake_timer. case_match; [|apply keeps_refl].
  set (e1 := e <| hs_retries := _ |>). assert (keeps e e1) as H1 by keep. clearbody e1.
  eapply keeps_trans; [exact H1|]. case_match; [keep|]. destruct (phase e1); keep.
Qed.

Lemma keeps_rto_recover e t ss now r rw :
  iss t = iss (tx e) -> keeps e (rto_recover e t ss now r rw).
Proof.
  intros Ht. unfold rto_recover. destruct rw; [|destruct (rto_rewind_no_sack _)].
  - apply keeps_tx. cbn. unfold requeue_unsacked_flight_for_rto. case_match; done.
  - set (e1 := e <| tx := _ |>). assert (keeps e e1) as F1 by by apply keeps_tx.
    clearbody e1. set (e2 := mark_holes e1 true).
    pose proof (keeps_marks _ _ (marks_mark_holes e1 true) : keeps e1 e2) as F2. clearbody e2.
    set (e3 := mark_expired_sack_repairs e2 now r).
    pose proof (keeps_marks _ _ (marks_mark_expired e2 now r) : keeps e2 e3) as F3. clearbody e3.
    eapply keeps_trans; [exact F1|]. eapply keeps_trans; [exact F2|].
    eapply keeps_trans; [exact F3|]. keep.
  - keep.
Qed.

Lemma keeps_on_data_rto e now : keeps e (on_data_rto e now).
Proof.
  unfold on_data_rto. set (e1 := e <| tx := tx e <| consec_rto := _ |> |>).
  assert (keeps e e1) as F1 by (keep). clearbody e1.
  case_match; [eapply keeps_trans; [exact F1|keep]|].
  match goal with |- context [push_event e1 ?x] => generalize x end. intros ev.
  set (e2 := push_event e1 ev). assert (keeps e1 e2) as F2 by (keep).
  assert (iss (tx e1) = iss (tx e2)) as Ht by done. clearbody e2.
  destruct (rto_response e2) as [ss rw].
  pose proof (keeps_rto_recover e2 (rto_backed_off (cfg e2) (tx e1) ss now) ss now
    (rto_ms (tx e1)) rw Ht) as F3.
  set (e3 := rto_recover _ _ _ _ _ _) in *. clearbody e3.
  eapply keeps_trans; [exact F1|]. eapply keeps_trans; [exact F2|].
  eapply keeps_trans; [exact F3|]. case_match; [|apply keeps_refl].
  apply keeps_tx, core_iss, core_refresh_local_rto.
Qed.

Lemma keeps_on_timeout e now : keeps e (on_timeout e now).
Proof.
  unfold on_timeout. case_match; [apply keeps_refl|].
  set (e1 := e <| tx := advance_bbr_probe _ _ _ |>).
  assert (keeps e e1) as F1 by (apply keeps_tx, core_iss, core_advance_bbr_probe).
  clearbody e1. eapply keeps_trans; [exact F1|]. case_match; [keep|].
  match goal with |- context [on_handshake_timer ?x] => set (e2 := x) end.
  assert (keeps e1 e2) as F2.
  { subst e2. destruct (is_some_and (ack_deadline e1) _) eqn:Ed; [|case_match; keep].
    destruct (syn_acked _); split; auto; intros Hq Hh; destruct (Hq Hh) as [_ Hd];
      by rewrite Hd in Ed. }
  clearbody e2. eapply keeps_trans; [exact F2|]. pose proof (keeps_handshake_timer e2 now) as F3.
  destruct (on_handshake_timer e2 now) as [e3 dead]. cbn [fst] in F3.
  eapply keeps_trans; [exact F3|]. destruct dead; [apply keeps_refl|].
  match goal with |- context [mark_due_sack_repairs ?x] => set (e4 := x) end.
  assert (keeps e3 e4) as F4
    by (apply keeps_marks, marks_if; [apply marks_rack_check|apply marks_refl]). clearbody e4.
  eapply keeps_trans; [exact F4|].
  eapply keeps_trans; [apply keeps_marks, (marks_mark_due e4 now)|].
  set (e5 := mark_due_sack_repairs e4 now). clearbody e5.
  assert (keeps e5 (on_rto_timer e5 now).1) as F6.
  { unfold on_rto_timer. destruct (rto_deadline (tx e5)); [|apply keeps_refl].
    destruct (negb _); [apply keeps_refl|]. destruct (_ || _); [keep|].
    destruct (_ && is_some_and _ _); [keep|]. apply keeps_on_data_rto. }
  destruct (on_rto_timer e5 now) as [e6 dead]. cbn [fst] in F6.
  eapply keeps_trans; [exact F6|]. destruct dead; [apply keeps_refl|].
  unfold on_persist_timer. repeat case_match; keep.
Qed.

Lemma keeps_create_next_segment e now : keeps e (create_next_segment e now).1.
Proof.
  unfold create_next_segment. cbv zeta. repeat case_match; cbn [fst]; keep;
    unfold push_seg; cbn; repeat case_match; done.
Qed.

Lemma keeps_poll_segment e now b : keeps e (poll_segment e now b).1.
Proof.
  unfold poll_segment. destruct (phase_eqb _ _); [|apply keeps_refl].
  pose proof (keeps_marks _ _ (marks_pace_refill e now)) as F1.
  set (e1 := pace_refill e now) in *. clearbody e1. eapply keeps_trans; [exact F1|].
  destruct (if 0 <? pace_budget (tx e1) then _ else None) as [[i s]|] eqn:Ed.
  - assert (segs (tx e1) !! i = Some s) as Hi.
    { destruct (0 <? _); [|done]. destruct (position _ _) as [j|]; [|done].
      cbn [mbind option_bind] in Ed. destruct (segs (tx e1) !! j) eqn:E; [|done].
      cbn [mbind option_bind] in Ed. by injection Ed as <- <-. }
    destruct (resend_seg_marks e1 i s now Hi) as [F2 _].
    destruct (resend_seg e1 i s now). by apply keeps_marks.
  - destruct (b && _); [|apply keeps_refl]. pose proof (keeps_create_next_segment e1 now) as F2.
    destruct (create_next_segment e1 now) as [e2 [|]]; cbn [fst] in *; [|done].
    eapply keeps_trans; [exact F2|]. keep.
Qed.

Lemma keeps_local_handoff e acc now : keeps e (local_handoff e acc now).
Proof.
  unfold local_handoff. case_match; [apply keeps_refl|].
  match goal with |- context [cfg ?x] => match x with e => fail 1 | _ => set (e1 := x) end end.
  assert (keeps e e1) as H1 by (subst e1; repeat case_match; keep). clearbody e1.
  eapply keeps_trans; [exact H1|]. destruct (handoff_segs _ _ _ _ _) as [l r].
  apply keeps_tx. rewrite (core_iss _ _ (core_refresh_local_rto _ _)). by case_match.
Qed.

(** ** The invariant *)

(** A receive side that has not been given any data. *)
Definition fresh_rx (r : RxState) : Prop :=
  oo r = [] /\ read_buf r = [] /\ oo_bytes r = 0 /\ 0 <= rx_window r <= MAX_INFLIGHT_BYTES /\
  is_u32 (rcv_nxt r).

Record eng_ok (e : StreamEngine) : Prop := {
  ok_id : is_u32 (stream_id e);
  ok_iss : is_u32 (iss (tx e));
  ok_rst : forall r, rst_to_send e = Some r -> is_u8 r;
  ok_dup : forall d, duplicate_range e = Some d -> wf_sack d;
  ok_rx : exists R, rx_inv anything R (rx e);
  ok_fresh : handshaking (phase e) = true -> fresh_rx (rx e)
}.

Lemma fresh_rx_inv P R r : fresh_rx r -> rcv_nxt r = wrap32 R -> rx_inv P R r.
Proof.
  intros (Ho & Hb & Hz & Hw & Hn) HR. split.
  - split; rewrite ?Ho, ?Hb, ?zlen_nil; try done; try lia. apply oo_inv_nil.
  - intros _ k v H. rewrite Ho in H. by apply elem_of_nil in H.
Qed.

Lemma fresh_rx_any r : fresh_rx r -> exists R, rx_inv anything R r.
Proof.
  intros H. exists (rcv_nxt r). apply fresh_rx_inv; [done|]. symmetry. by apply wrap32_id, H.
Qed.

Lemma keeps_ok e e' : keeps e e' -> eng_ok e -> eng_ok e'.
Proof.
  intros [K1 K2 K3 K4 K5 _ K6] [H1 H2 H3 H4 H5 H6]. split; rewrite ?K1, ?K2, ?K3, ?K4; auto.
  - destruct K6 as [->| ->]; [done|]. intros r [= <-]. unfold reset_reason.TIMED_OUT, is_u8. lia.
  - destruct K5 as [->| ->]; done.
Qed.

(** A step of the receive side alone. *)
Lemma ok_set_rx e r : eng_ok e -> (exists R, rx_inv anything R r) ->
  (handshaking (phase e) = true -> fresh_rx r) -> eng_ok (e <| rx := r |>).
Proof. intros [H1 H2 H3 H4 _ _] Hr Hf. by split. Qed.

Lemma handshaking_not_closed p : handshaking p = true -> phase_eqb p Closed = false.
Proof. by destruct p. Qed.

(** Data with bytes in it does not come before the handshake. *)
Definition no_early_data (p : Phase) (f : Frame) : Prop :=
  match f with Data _ _ _ payload => handshaking p = true -> payload = [] | _ => True end.

Lemma on_data_ok e s w p now :
  eng_ok e -> is_u32 s -> zlen p <= MSS -> (handshaking (phase e) = true -> p = []) ->
  exists e', on_data e s w p now = Some e' /\ eng_ok e'.
Proof.
  intros Hok Hs Hp Hearly. unfold on_data.
  destruct (phase_eqb (phase e) Closed) eqn:Ecl; [eauto|].
  pose proof (keeps_note_peer_progress e) as K1.
  assert (phase (note_peer_progress e) = phase e) as Hph1
    by (unfold note_peer_progress; by case_match).
  set (e1 := note_peer_progress e) in *. clearbody e1. pose proof (keeps_ok _ _ K1 Hok) as Hok1.
  destruct p as [|b p]; [eauto|]. cbn [is_nil]. set (pl := b :: p) in *.
  assert (handshaking (phase e) = false) as Hest.
  { destruct (handshaking (phase e)); [|done]. by specialize (Hearly eq_refl). }
  set (e2 := if is_some _ then _ else e1).
  assert (eng_ok e2 /\ phase e2 = phase e1 /\ rx e2 = rx e1) as (Hok2 & Hph2 & Hrx2).
  { subst e2. destruct (duplicate_of _ _ _) as [d|] eqn:Ed; cbn; [|done]. split_and!; try done.
    destruct Hok1 as [G1 G2 G3 G4 [R [Hc Ha]] G6]. split; cbn; try done; [|by exists R].
    intros d' [= <-]. unfold duplicate_of in Ed.
    assert (forall a b, is_u32 b -> is_u32 (seq.min (add32 s a) b)) as Hmin.
    { intros a b' Hb'. unfold seq.min. destruct (seq.lt (add32 s a) b'); [apply add32_range|done]. }
    destruct (seq.lt s _); [|destruct (stored_end (rx e1) s) as [x|] eqn:Ex; [|done]];
      injection Ed as <-; split; cbn; try done; apply Hmin.
    - rewrite (rx_nxt _ _ _ Hc). apply wrap32_range.
    - unfold stored_end in Ex. repeat case_match; try done; injection Ex as <-; apply add32_range. }
  destruct (ok_rx _ Hok2) as [R Hr].
  destruct (any_accept R (rx e2) s pl Hr Hs) as (R' & rx' & new & adv & Hacc & Hst); [done..|].
  rewrite Hacc. cbn [mbind option_bind]. eexists. split; [reflexivity|].
  assert (eng_ok (e2 <| rx := rx' |>)) as Hok3.
  { apply ok_set_rx; [done|exists R'; apply Hst|]. rewrite Hph2, Hph1. congruence. }
  set (e3 := e2 <| rx := rx' |>) in *.
  assert (handshaking (phase e3) = false) as Hest3 by (subst e3; cbn; congruence). clearbody e3.
  match goal with |- context [ack_data ?x] => set (e4 := x) end.
  assert (keeps e3 e4) as K4 by (subst e4; case_match; split; auto).
  assert (handshaking (phase e4) = false) as Hest4 by (subst e4; case_match; cbn; congruence).
  clearbody e4.
  assert (keeps e4 (ack_data e4 adv now)) as K5.
  { unfold ack_data; repeat case_match; split; auto; intros _ Hh; cbn in Hh; congruence. }
  set (e5 := ack_data e4 adv now) in *. clearbody e5.
  eapply keeps_ok; [|exact Hok3]. eapply keeps_trans; [exact K4|].
  eapply keeps_trans; [exact K5|]. case_match; [keep|apply keeps_refl].
Qed.

Lemma rx_on_fin_fresh r fin : fresh_rx r -> fresh_rx (rx_on_fin r fin).
Proof.
  intros (H1 & H2 & H3 & H4 & H5). unfold rx_on_fin, try_consume_fin.
  repeat case_match; unfold fresh_rx; cbn; auto 6 using add32_range.
Qed.

Lemma on_peer_fin_ok e fin : eng_ok e -> is_u32 fin -> eng_ok (on_peer_fin e fin).
Proof.
  intros Hok Hf. unfold on_peer_fin. case_match; [done|].
  pose proof (keeps_note_peer_progress e) as K1. set (e1 := note_peer_progress e) in *.
  clearbody e1. pose proof (keeps_ok _ _ K1 Hok) as Hok1.
  assert (eng_ok (e1 <| rx := rx_on_fin (rx e1) fin |>)) as Hok2.
  { destruct (ok_rx _ Hok1) as [R Hr]. apply ok_set_rx; [done| |].
    - destruct (any_step_inv R (rx e1) _ Hr (any_fin _ fin Hf)) as (R' & Hr' & _). eauto.
    - intros Hh. by apply rx_on_fin_fresh, (ok_fresh _ Hok1). }
  by case_match; destruct Hok2.
Qed.

(** ** The frames of an acknowledgement *)

Definition wf_block (b : Z * Z) : Prop := is_u32 b.1 /\ is_u32 b.2.

Lemma wf_push_block bs k v :
  is_u32 k -> Forall wf_block bs -> Forall wf_block (push_block bs (k, v)).
Proof.
  intros Hk Hb. unfold push_block. pose proof (add32_range k (wrap32 (zlen v))) as He.
  destruct (last bs) as [[s e']|] eqn:El; [|by rewrite Forall_snoc].
  apply last_Some in El as [l ->]. rewrite Forall_snoc in Hb. destruct Hb as [Hl [Hs He']].
  rewrite removelast_last. destruct (_ =? _); by rewrite !Forall_snoc.
Qed.

Lemma wf_sack_blocks P R r : rx_core P R r -> Forall wf_block (sack_blocks r).
Proof.
  intros Hc. unfold sack_blocks.
  assert (forall k v, (k, v) ∈ cyc_iter (rcv_nxt r) (oo r) -> is_u32 k) as Hk.
  { intros k v Hin%elem_of_cyc_iter. by eapply (oo_keys _ _ _ _ (rx_oo _ _ _ Hc)). }
  assert (Forall wf_block []) as Hb by constructor. revert Hb Hk. generalize (@nil (Z * Z)).
  induction (cyc_iter _ _) as [|[k v] l IH]; intros bs Hb Hk; cbn [fold_left]; [done|].
  apply IH; [|intros; eapply Hk; by right]. apply wf_push_block; [|done]. eapply Hk. by left.
Qed.

Definition wf_sacks (k : SackVec) : Prop := zlen k <= MAX_SACKS /\ Forall wf_sack k.

Lemma wf_sack_push k r : wf_sacks k -> wf_sack r -> wf_sacks (sack_push k r).1.
Proof.
  intros [H1 H2] Hr. unfold sack_push. destruct (MAX_SACKS <=? zlen k) eqn:E; [done|].
  cbn [fst]. split; [rewrite zlen_app, zlen_cons, zlen_nil; lia|]. by rewrite Forall_snoc.
Qed.

Lemma wf_push_blocks_after s1 s2 bs k :
  Forall wf_block bs -> wf_sacks k -> wf_sacks (push_blocks_after s1 s2 bs k).
Proof.
  revert k. induction bs as [|b bs IH]; intros k Hb Hk; cbn [push_blocks_after]; [done|].
  apply Forall_cons in Hb as [Hb Hbs]. destruct (_ || _); [by apply IH|].
  pose proof (wf_sack_push k (mkSackRange b.1 b.2) Hk Hb) as Hp.
  destruct (sack_push _ _) as [k' [|]]; [by apply IH|done].
Qed.

Lemma find_wf f bs b : Forall wf_block bs -> List.find f bs = Some b -> wf_block b.
Proof.
  intros Hb Hf. apply find_some in Hf as [Hin _]. rewrite Forall_forall in Hb.
  by apply Hb, list_elem_of_In.
Qed.

(** An engine whose receive side only differs in the last window it advertised. *)
Lemma ok_last_ack_window e w :
  eng_ok e -> eng_ok (e <| rx := rx e <| last_ack_window := w |> |>).
Proof.
  intros Hok. destruct (ok_rx _ Hok) as [R [Hc Ha]].
  apply ok_set_rx; [done| |exact (ok_fresh _ Hok)]. exists R. split; [by destruct Hc|done].
Qed.

Lemma ok_advertised e : eng_ok e -> is_u32 (advertised (rx e)).
Proof.
  intros Hok. destruct (ok_rx _ Hok) as [R [Hc _]]. rewrite (advertised_exact _ _ _ Hc).
  pose proof (rx_core_usage _ _ _ Hc). pose proof (rx_win _ _ _ Hc).
  pose proof (zlen_nonneg (read_buf (rx e))). unfold MAX_INFLIGHT_BYTES, is_u32 in *.
  rewrite (rx_bytes _ _ _ Hc) in *. pose proof (bt_bytes_nonneg (oo (rx e))). lia.
Qed.

Lemma ok_rcv_nxt e : eng_ok e -> is_u32 (rcv_nxt (rx e)).
Proof.
  intros Hok. destruct (ok_rx _ Hok) as [R [Hc _]]. rewrite (rx_nxt _ _ _ Hc). apply wrap32_range.
Qed.

Lemma make_ack_ok e : eng_ok e -> eng_ok (make_ack e).1 /\ wf_frame (make_ack e).2.
Proof.
  intros Hok. unfold make_ack. cbv zeta. destruct (ok_rx _ Hok) as [R [Hc _]].
  pose proof (wf_sack_blocks _ _ _ Hc) as Hb. set (blocks := sack_blocks (rx e)) in *.
  clearbody blocks.
  set (recent := (_ ← recent_sack_seq e; _)). assert (forall b, recent = Some b -> wf_block b) as Hr.
  { subst recent. intros b. destruct (recent_sack_seq e); [|done]. by apply find_wf. }
  clearbody recent.
  set (enclosing := (_ ← duplicate_range e; _)).
  assert (forall b, enclosing = Some b -> wf_block b) as He.
  { subst enclosing. intros b. destruct (duplicate_range e); [|done]. cbn [mbind option_bind].
    case_match; [|done]. by apply find_wf. }
  clearbody enclosing.
  set (k1 := match duplicate_range e with Some _ => _ | None => _ end).
  assert (wf_sacks k1) as H1.
  { subst k1. destruct (duplicate_range e) as [d|] eqn:Ed; [|split; [done|constructor]].
    apply wf_sack_push; [split; [done|constructor]|]. by apply (ok_dup _ Hok). }
  clearbody k1.
  set (k2 := match enclosing with Some _ => _ | None => _ end).
  assert (wf_sacks k2) as H2.
  { subst k2. destruct enclosing as [b|]; [|done]. apply wf_sack_push; [done|]. by apply He. }
  clearbody k2.
  set (e1 := e <| duplicate_range := None |>).
  assert (eng_ok e1) as Hok1 by (by destruct Hok). clearbody e1.
  set (p := match recent with Some _ => _ | None => _ end).
  assert (eng_ok p.1 /\ wf_sacks p.2) as [Hok2 H3].
  { subst p. destruct recent as [b|]; [|done]. destruct (negb (bool_decide _)); [|done]. cbn [fst snd].
    split; [case_match; [|done]; by destruct Hok1|]. apply wf_sack_push; [done|]. by apply Hr. }
  destruct p as [e2 k3]. cbn [fst snd] in *. split; [by apply ok_last_ack_window|].
  split_and!; cbn; [apply (ok_id _ Hok2)|by apply ok_rcv_nxt|by apply ok_advertised|..];
    by apply wf_push_blocks_after.
Qed.

(** ** Every operation keeps the engine sound *)

(** What the sending side promises of a frame: see [frame_ok]. *)
Definition tx_frame_ok (f : Frame) : Prop :=
  match f with
  | Data _ s _ d => is_u32 s /\ zlen d <= MSS
  | Fin _ s => is_u32 s
  | _ => True
  end.

Lemma seg_frame_wf e s : eng_ok e -> tx_frame_ok (seg_frame e s) -> wf_frame (seg_frame e s).
Proof.
  intros Hok. unfold seg_frame. destruct (is_fin s); cbn.
  - intros H. split; [apply (ok_id _ Hok)|done].
  - intros [H1 H2]. split_and!; try done; [apply (ok_id _ Hok)|by apply ok_advertised].
Qed.

Lemma poll_ack_ok e : eng_ok e ->
  eng_ok (poll_ack e).1 /\ forall f, (poll_ack e).2 = Some f -> wf_frame f.
Proof.
  intros Hok. unfold poll_ack. destruct (_ || _); [done|].
  match goal with |- context [make_ack ?x] => set (e1 := x) end.
  assert (eng_ok e1) as Hok1 by (by destruct Hok). clearbody e1.
  destruct (make_ack_ok e1 Hok1) as [H1 H2]. destruct (make_ack e1) as [e2 f].
  split; [done|]. by intros f' [= <-].
Qed.

Lemma resend_seg_frame e i s now :
  exists s', (resend_seg e i s now).2 = seg_frame (resend_seg e i s now).1 s'.
Proof.
  unfold resend_seg. cbv zeta. set (e' := e <| tx := _ |>). clearbody e'. eexists. reflexivity.
Qed.

Lemma poll_segment_frame e now b f :
  (poll_segment e now b).2 = Some f -> exists s, f = seg_frame (poll_segment e now b).1 s.
Proof.
  unfold poll_segment. destruct (phase_eqb _ _); [|done]. set (e1 := pace_refill e now). clearbody e1.
  destruct (if 0 <? pace_budget (tx e1) then _ else None) as [[i s]|].
  - destruct (resend_seg_frame e1 i s now) as [s' Hs]. destruct (resend_seg e1 i s now) as [e2 f2].
    cbn [fst snd] in *. intros [= <-]. eauto.
  - destruct (b && _); [|done]. destruct (create_next_segment e1 now) as [e2 [|]]; [|done].
    set (e3 := e2 <| tx := _ |>). clearbody e3. cbn [fst snd].
    destruct (last _) as [s|]; [|done]. intros [= <-]. by exists s.
Qed.

Lemma poll_segment_ok e now b : eng_ok e ->
  eng_ok (poll_segment e now b).1 /\
  forall f, (poll_segment e now b).2 = Some f -> tx_frame_ok f -> wf_frame f.
Proof.
  intros Hok. pose proof (keeps_ok _ _ (keeps_poll_segment e now b) Hok) as Hok1.
  split; [done|]. intros f Hf. apply poll_segment_frame in Hf as [s ->]. by apply seg_frame_wf.
Qed.

Lemma keeps_track_handshake e now : keeps e (track_handshake e now).
Proof. unfold track_handshake. case_match; keep. Qed.

Lemma poll_transmit_ok e now b : eng_ok e ->
  eng_ok (poll_transmit_inner e now b).1 /\
  forall f, (poll_transmit_inner e now b).2 = Some f -> tx_frame_ok f -> wf_frame f.
Proof.
  intros Hok. unfold poll_transmit_inner. cbv zeta.
  match goal with |- context [rst_to_send ?x] => set (e1 := x) end.
  assert (eng_ok e1) as Hok1.
  { eapply keeps_ok; [|exact Hok]. apply keeps_tx, core_iss, core_advance_bbr_probe. }
  clearbody e1. clear e Hok.
  destruct (rst_to_send e1) as [r|] eqn:Er.
  { split; [by destruct Hok1|]. intros f [= <-] _. split; [apply (ok_id _ Hok1)|].
    by apply (ok_rst _ Hok1). }
  assert (forall e2, keeps e1 e2 -> let e3 := track_handshake e2 now in
    eng_ok e3 /\ is_u32 (stream_id e3) /\ is_u32 (iss (tx e3)) /\ is_u32 (advertised (rx e3)) /\
    is_u32 (rcv_nxt (rx e3))) as Hh.
  { intros e2 H2. pose proof (keeps_ok _ _ (keeps_track_handshake e2 now) (keeps_ok _ _ H2 Hok1)).
    split_and!; [done|by apply ok_id|by apply ok_iss|by apply ok_advertised|by apply ok_rcv_nxt]. }
  destruct (send_syn e1).
  { destruct (Hh (e1 <| send_syn := false |>)) as (H1 & H2 & H3 & H4 & H5); [by split; auto|].
    split; [done|]. by intros f [= <-] _. }
  destruct (send_synack e1).
  { destruct (Hh (e1 <| send_synack := false |>)) as (H1 & H2 & H3 & H4 & H5); [by split; auto|].
    split; [done|]. by intros f [= <-] _. }
  clear Hh Er.
  assert (let p := if b then (e1, None) else poll_ack e1 in
    eng_ok p.1 /\ forall f, p.2 = Some f -> wf_frame f) as [H1 H2]
    by (destruct b; [done|by apply poll_ack_ok]).
  destruct (if b then _ else _) as [e2 [f|]]; cbn [fst snd] in *; [split; [done|]; auto|].
  destruct (poll_segment_ok e2 now b H1) as [H3 H4].
  destruct (poll_segment e2 now b) as [e3 [f|]]; cbn [fst snd] in *; [split; [done|]; auto|].
  destruct (poll_ack_ok e3 H3) as [H5 H6].
  destruct (poll_ack e3) as [e4 [f|]]; cbn [fst snd] in *; [split; [done|]; auto|].
  split; [by destruct H5|done].
Qed.

Lemma fresh_set_nxt r x : fresh_rx r -> is_u32 x -> fresh_rx (r <| rcv_nxt := x |>).
Proof. by intros (H1 & H2 & H3 & H4 & H5) H. Qed.

(** The receive side at the start of the stream, whatever else changed. *)
Lemma ok_connected e e' :
  eng_ok e -> fresh_rx (rx e') -> stream_id e' = stream_id e -> iss (tx e') = iss (tx e) ->
  rst_to_send e' = rst_to_send e -> duplicate_range e' = duplicate_range e ->
  eng_ok e'.
Proof.
  intros [H1 H2 H3 H4 _ _] Hf E1 E2 E3 E4. split; rewrite ?E1, ?E2, ?E3, ?E4; try done.
  eauto using fresh_rx_any.
Qed.

Lemma on_syn_ok e isn win now : eng_ok e -> is_u32 isn -> eng_ok (on_syn e isn win now).
Proof.
  intros Hok Hu. unfold on_syn. destruct (phase e) eqn:Ep; try done; [|by destruct Hok].
  eapply ok_connected; [exact Hok|..]; try done. cbn. apply fresh_set_nxt; [|apply add32_range].
  apply (ok_fresh _ Hok). by rewrite Ep.
Qed.

Lemma on_synack_ok e isn win ack : eng_ok e -> is_u32 isn -> eng_ok (on_synack e isn win ack).
Proof.
  intros Hok Hu. unfold on_synack. destruct (phase e) eqn:Ep; try done; [|by destruct Hok].
  destruct (negb _); [done|]. eapply ok_connected; [exact Hok|..]; try done. cbn.
  apply fresh_set_nxt; [|done]. apply (ok_fresh _ Hok). by rewrite Ep.
Qed.

Lemma on_frame_ok e f now :
  eng_ok e -> wf_frame f -> (frame_stream_id f = stream_id e -> no_early_data (phase e) f) ->
  exists e', on_frame e f now = Some e' /\ eng_ok e'.
Proof.
  intros Hok Hwf Hearly. unfold on_frame. destruct (frame_stream_id f =? stream_id e) eqn:Eid; [|eauto].
  apply Z.eqb_eq in Eid. specialize (Hearly Eid). destruct f; cbn in Hwf; cbn [negb].
  - destruct Hwf as (_ & ? & _). eexists. split; [done|]. by apply on_syn_ok.
  - destruct Hwf as (_ & ? & _). eexists. split; [done|]. by apply on_synack_ok.
  - destruct Hwf as (_ & ? & _ & ?). by apply on_data_ok.
  - eexists. split; [done|]. eapply keeps_ok; [apply keeps_on_ack|done].
  - destruct Hwf as [_ ?]. eexists. split; [done|]. by apply on_peer_fin_ok.
  - eexists. split; [done|]. eapply keeps_ok; [|done]. unfold on_rst. case_match; keep.
Qed.

(** The peer and the application play by the rules that the engine does not check itself: data
    comes after the handshake, and arguments are in the range of their types. *)
Definition orderly (e : StreamEngine) (op : Op) : Prop :=
  match op with
  | OpCell cell _ => forall f, decode cell = Some f -> frame_stream_id f = stream_id e ->
      no_early_data (phase e) f
  | OpReset reason => is_u8 reason
  | OpRead len => 0 <= len
  | _ => True
  end.

(** The same as a test. *)
Definition orderlyb (e : StreamEngine) (op : Op) : bool :=
  match op with
  | OpCell cell _ =>
      match decode cell with
      | Some (Data sid _ _ payload) =>
          negb ((sid =? stream_id e) && handshaking (phase e)) || is_nil payload
      | _ => true
      end
  | OpReset reason => (0 <=? reason) && (reason <? 256)
  | OpRead len => 0 <=? len
  | _ => true
  end.

Lemma orderlyb_spec e op : orderlyb e op = true -> orderly e op.
Proof.
  destruct op; cbn; try done; try (unfold is_u8; lia).
  destruct (decode cell) as [f|]; [|done]. intros H f' [= <-] Hid. destruct f; cbn in *; try done.
  intros Hh. subst. rewrite Z.eqb_refl, Hh in H. by destruct payload.
Qed.

Lemma engine_read_ok e n : eng_ok e -> 0 <= n -> eng_ok (engine_read e n).1.
Proof.
  intros Hok Hn. unfold engine_read. destruct (ok_rx _ Hok) as [R Hr].
  destruct (any_step_inv R (rx e) _ Hr (any_read _ n Hn)) as (R' & Hr' & _).
  assert (fresh_rx (rx e) -> fresh_rx (rx_read n (rx e)).2) as Hf.
  { intros (H1 & H2 & H3 & H4 & H5). unfold rx_read, zdrop. cbn. by rewrite H2, drop_nil. }
  destruct (rx_read n (rx e)) as [out r']. cbn [snd] in *.
  assert (eng_ok (e <| rx := r' |>)) as Hok1.
  { apply ok_set_rx; [done|eauto|]. intros. by apply Hf, (ok_fresh _ Hok). }
  set (e1 := e <| rx := r' |>) in *. clearbody e1. cbn [fst].
  case_match; [|done]. by destruct Hok1.
Qed.

Lemma step_ok e op : eng_ok e -> orderly e op ->
  exists e' w, step e op = Some (e', w) /\ eng_ok e' /\
    Forall (fun f => tx_frame_ok f -> wf_frame f) (ef_sent w).
Proof.
  intros Hok Hg. destruct op; cbn [step orderly] in *.
  - unfold engine_write. destruct (_ || _); (do 2 eexists; split; [done|]); (split; [|constructor]); [done|].
    by destruct Hok.
  - do 2 eexists. split; [done|]. split; [|constructor]. by destruct Hok.
  - do 2 eexists. split; [done|]. split; [|constructor]. unfold engine_reset. case_match; [|done].
    destruct Hok. split; cbn; try done. by intros r [= <-].
  - pose proof (engine_read_ok e len Hok Hg). destruct (engine_read e len).
    do 2 eexists. split; [done|]. split; [done|constructor].
  - do 2 eexists. split; [done|]. split; [|constructor]. by destruct Hok.
  - unfold on_cell. destruct (decode cell) as [f|] eqn:Ed.
    + destruct (on_frame_ok e f now Hok) as (e' & He & Hok'); [|by apply Hg|].
      { by apply decode_inv in Ed as [? _]. }
      rewrite He. do 2 eexists. split; [done|]. split; [done|constructor].
    + do 2 eexists. split; [done|]. split; [done|constructor].
  - destruct (poll_transmit_ok e now allow_new Hok) as [H1 H2].
    destruct (poll_transmit_inner e now allow_new) as [e' f]. do 2 eexists. split; [done|].
    split; [done|]. cbn [ef_sent fst snd] in *. destruct f; cbn; [|done]. constructor; auto.
  - do 2 eexists. split; [done|]. split; [|constructor]. eapply keeps_ok; [apply keeps_on_timeout|done].
  - do 2 eexists. split; [done|]. split; [|constructor]. eapply keeps_ok; [apply keeps_local_handoff|done].
  - do 2 eexists. split; [done|]. split; [|constructor]. eapply keeps_ok; [|done].
    unfold discard_received_cell. repeat case_match; keep.
  - do 2 eexists. split; [done|]. split; [|constructor]. by destruct Hok.
Qed.

(** An engine just created, with arguments in range. *)
Definition created (e0 : StreamEngine) : Prop :=
  exists sid c now iss0, is_u32 sid /\ is_u32 iss0 /\ is_u32 (recv_window c) /\ cfg_ok c /\
    (e0 = engine_connect sid c now iss0 \/ e0 = engine_accept sid c now iss0).

Lemma created_started e0 : created e0 -> exists B, started B e0.
Proof.
  intros (sid & c & now & iss0 & _ & Hi & _ & Hc & [->| ->]).
  - exists (iss0 + 1), sid, c, now, iss0. auto.
  - exists iss0, sid, c, now, iss0. auto.
Qed.

Lemma created_ok e0 : created e0 -> eng_ok e0.
Proof.
  intros (sid & c & now & iss0 & Hs & Hi & Hw & _ & He).
  assert (fresh_rx (rx_new (recv_window c))) as Hf.
  { split_and!; try done; cbn; unfold is_u32, MAX_INFLIGHT_BYTES in *; lia. }
  destruct He as [->| ->]; (split; cbn; try done; eauto using fresh_rx_any).
Qed.

Lemma runs_eng_ok e0 e w : eng_ok e0 -> runs orderly e0 e w ->
  eng_ok e /\ Forall (fun f => tx_frame_ok f -> wf_frame f) (ef_sent w).
Proof.
  intros H0. induction 1 as [|e w op e' w' _ [IH1 IH2] Hg Hs]; [split; [done|constructor]|].
  destruct (step_ok e op IH1 Hg) as (e1 & w1 & Hs1 & Hok1 & Hw1). rewrite Hs in Hs1.
  injection Hs1 as <- <-. split; [done|]. cbn. by apply Forall_app.
Qed.



(** Everything an engine emits can be read.  In an orderly run every emitted frame is well
    formed: it fits one cell, and the peer decodes from that cell exactly the frame that was
    meant. *)
Theorem engine_frames_readable (e0 e : StreamEngine) (w : Effect) (f : Frame)
    (H0 : created e0) (Hrun : runs orderly e0 e w) (Hf : f ∈ ef_sent w) :
  wf_frame f /\ zlen (encode f) <= MAX_CELL /\ decode (encode f) = Some f.
Proof.
  destruct (runs_eng_ok _ _ _ (created_ok _ H0) Hrun) as [_ Hw].
  destruct (created_started _ H0) as [B HB].
  destruct (runs_inv orderly B anywhere e0 e w (fun _ op _ => op_anywhere op)
    (started_inv B anywhere e0 I HB) Hrun) as [_ Ht].
  rewrite Forall_forall in Hw, Ht. specialize (Hw f Hf). specialize (Ht f Hf).
  assert (wf_frame f) as Hwf.
  { apply Hw. destruct f; cbn in *; try done.
    - destruct Ht as (U & P & _ & -> & _ & _ & Hl & _). split; [apply wrap32_range|lia].
    - destruct Ht as (_ & U & P & _ & -> & _). apply wrap32_range. }
  split; [done|]. split; [by apply encode_fits_cell|].
  rewrite <- (app_nil_r (encode f)). by apply decode_encode_frame.
Qed.

Lemma engine_frames_readable_witness :
  exists e w, runs orderly (engine_connect 7 Config_default 0 4294967294) e w /\
    Ack 7 500 16758783 [mkSackRange 502 503] ∈ ef_sent w /\
    decode (encode (Ack 7 500 16758783 [mkSackRange 502 503])) =
      Some (Ack 7 500 16758783 [mkSackRange 502 503]).
Proof.
  set (e0 := engine_connect 7 Config_default 0 4294967294).
  assert (created e0) as Hc.
  { exists 7, Config_default, 0, 4294967294. split_and!; try done. by left. }
  set (ops := [OpPoll 0 true; OpCell (encode (SynAck 7 500 100000 4294967295)) 1;
    OpCell (encode (Data 7 502 1000 [x43])) 2; OpPoll 3 true]).
  assert (ef_sent ∘ snd <$> run_ops e0 silent ops =
    Some [Syn 7 4294967294 16758784; Ack 7 500 16758783 [mkSackRange 502 503]]) as Hs
    by (vm_compute; reflexivity).
  destruct (run_ops e0 silent ops) as [[e w]|] eqn:Hr; [|discriminate Hs]. injection Hs as Hs.
  assert (runs orderly e0 e w) as Hrun.
  { eapply (run_ops_obeys _ _ _ _ orderlyb_spec); [constructor| |exact Hr].
    vm_compute; reflexivity. }
  clear Hr. clearbody e0.
  destruct (engine_frames_readable e0 e w (Ack 7 500 16758783 [mkSackRange 502 503]) Hc Hrun)
    as (_ & _ & Hd); [rewrite Hs; set_solver|].
  exists e, w. split_and!; [done|rewrite Hs; set_solver|done].
Defined.

(** ** Where the rules are broken

    The engine does not enforce what [orderly] asks of the peer, and its own bookkeeping of a FIN
    has two gaps.  Each is shown on a run of the code. *)

(** C33. Data before the handshake can crash the engine.  A peer that sends DATA below the initial
    sequence number it then announces leaves a stored entry the in-order path takes for the next
    one: the following segment is sliced out of range, whatever the length of the loop. *)
Theorem early_data_panics :
  exists e w,
    run_ops (engine_connect 7 Config_default 0 100) silent
      [OpPoll 0 true; OpCell (encode (Data 7 10 1000 [x41])) 1;
       OpCell (encode (SynAck 7 500 1000 101)) 2] = Some (e, w) /\
    phase e = Established /\ rcv_nxt (rx e) = 500 /\
    (forall fuel, accept_loop fuel 500 502 [x41; x42] (rx e) = None) /\
    step e (OpCell (encode (Data 7 500 1000 [x41; x42])) 3) = None.
Proof.
  do 2 eexists. split; [vm_compute; reflexivity|].
  split_and!; [done|done| |vm_compute; reflexivity]. by intros [|fuel].
Qed.

(** Data that overtakes the SYN_ACK can be delivered twice.  The engine has not yet been told
    where the peer's stream starts, so what it accepts then is measured from sequence number 0,
    and the retransmission is accepted again. *)
Theorem early_data_duplicated :
  exists e w,
    run_ops (engine_connect 7 Config_default 0 100) silent
      [OpPoll 0 true; OpCell (encode (Data 7 4294967295 1000 [x41; x42; x43])) 1;
       OpCell (encode (SynAck 7 4294967295 1000 101)) 2;
       OpCell (encode (Data 7 4294967295 1000 [x41; x42; x43])) 3] = Some (e, w) /\
    phase e = Established /\ (engine_read e 10).2 = [x42; x43; x41; x42; x43].
Proof. do 2 eexists. split; [vm_compute; reflexivity|]. by split. Qed.

(** A second FIN after the stream is complete.  With the rewinding timeout, an acknowledgement
    of the FIN that arrives after the timeout marks the stream complete, yet the next poll emits
    another FIN, one past the acknowledged one. *)
Theorem second_fin_after_completion :
  exists e w,
    run_ops (engine_connect 7 (Config_default <| rto_rewind_no_sack := true |>) 0 100) silent
      [OpPoll 0 true; OpCell (encode (SynAck 7 500 100000 101)) 1; OpWrite [x41; x42]; OpFinish;
       OpPoll 1 true; OpPoll 2 true; OpPoll 3 true; OpTimeout 5000;
       OpCell (encode (Ack 7 104 100000 [])) 5001] = Some (e, w) /\
    Fin 7 103 ∈ ef_sent w /\ is_send_complete e = true /\ fin_acked (tx e) = true /\
    (poll_transmit_inner e 5002 true).2 = Some (Fin 7 104).
Proof.
  do 2 eexists. split; [vm_compute; reflexivity|].
  split_and!; [|vm_compute; reflexivity..]. cbn [ef_sent]. set_solver.
Qed.

(** The end of the peer's stream can go unannounced.  When the FIN overtakes the last data, the
    data completes the stream without the [PeerFinished] event. *)
Theorem reordered_fin_unannounced :
  exists e w,
    run_ops (engine_connect 7 Config_default 0 100) silent
      [OpPoll 0 true; OpCell (encode (SynAck 7 500 100000 101)) 1;
       OpCell (encode (Fin 7 502)) 2; OpCell (encode (Data 7 500 1000 [x41; x42])) 3]
      = Some (e, w) /\
    rx_eof (rx e) = true /\ (engine_read e 10).2 = [x41; x42] /\
    is_eof (engine_read e 10).1 = true /\ events e = [Connected].
Proof. do 2 eexists. split; [vm_compute; reflexivity|]. by split_and!. Qed.
