(* ===== verification/StreamShape.v ===== *)
(** * The shape of a step

    What one operation of the engine does to the receive side, to the phase and to the position
    the sender has been acknowledged up to: the facts from which the two-party theorem of
    StreamNet.v is put together. *)

From S2P Require Import Prelude BTree Seq StreamWire StreamRx StreamRxInv StreamRxAccept.
From S2P Require Import StreamRxRuns StreamTx StreamEngine StreamTxInv StreamSender StreamRobust.

(** ** What one operation does to the receive side *)

(** A cell that completes the handshake, and the receive side after it. *)
Definition connects (e : StreamEngine) (op : Op) (r : RxState) : Prop :=
  exists cell now f, op = OpCell cell now /\ decode cell = Some f /\
  match f with
  | Syn _ isn _ => phase e = Listen /\ r = rx e <| rcv_nxt := add32 isn 1 |>
  | SynAck _ isn _ _ => phase e = SynSent /\ r = rx e <| rcv_nxt := isn |>
  | _ => False
  end.

(** Any other operation: the receive side after it and the bytes it returns. *)
Definition rx_after (e : StreamEngine) (op : Op) (r : RxState) (out : list byte) : Prop :=
  match op with
  | OpRead n => r = (rx_read n (rx e)).2 /\ out = (rx_read n (rx e)).1
  | OpCell cell _ =>
      out = [] /\
      match decode cell with
      | Some (Data _ s _ p) =>
          r = rx e \/ phase e <> Closed /\ p <> [] /\ exists adv, accept (rx e) s p = Some (r, adv)
      | Some (Fin _ q) => r = rx e \/ phase e <> Closed /\ r = rx_on_fin (rx e) q
      | _ => r = rx e
      end
  | _ => out = [] /\ exists x, r = rx e <| last_ack_window := x |>
  end.

Definition stays (e e' : StreamEngine) : Prop := phase e' = phase e \/ phase e' = Closed.

Lemma same_window (r : RxState) : exists x, r = r <| last_ack_window := x |>.
Proof. exists (last_ack_window r). by destruct r. Qed.

Lemma phase_eqb_false p q : phase_eqb p q = false -> p <> q.
Proof. unfold phase_eqb. by intros H%bool_decide_eq_false. Qed.

Lemma on_data_shape e s win p now e' :
  on_data e s win p now = Some e' ->
  phase e' = phase e /\
  (rx e' = rx e \/ phase e <> Closed /\ p <> [] /\ exists adv, accept (rx e) s p = Some (rx e', adv)).
Proof.
  unfold on_data. destruct (phase_eqb (phase e) Closed) eqn:Ec; [intros [= <-]; auto|].
  apply phase_eqb_false in Ec.
  assert (phase (note_peer_progress e) = phase e /\ rx (note_peer_progress e) = rx e) as [Hp Hr]
    by (unfold note_peer_progress; by case_match).
  set (e1 := note_peer_progress e) in *. clearbody e1.
  destruct p as [|b p]; [intros [= <-]; rewrite Hp, Hr; auto|]. cbn [is_nil].
  set (e2 := if is_some _ then _ else e1).
  assert (phase e2 = phase e1 /\ rx e2 = rx e1) as [Hp2 Hr2] by (subst e2; by case_match).
  clearbody e2. rewrite Hr2, Hr. destruct (accept (rx e) s (b :: p)) as [[r adv]|] eqn:Ea; [|done].
  cbn [mbind option_bind]. set (e3 := if is_some (stored_end _ _) then _ else _).
  assert (phase e3 = phase e2 /\ rx e3 = r) as [Hp3 Hr3] by (subst e3; by case_match).
  clearbody e3.
  assert (phase (ack_data e3 adv now) = phase e3 /\ rx (ack_data e3 adv now) = rx e3) as [Hp4 Hr4]
    by (unfold ack_data; by repeat case_match).
  set (e4 := ack_data e3 adv now) in *. clearbody e4. intros [= <-].
  match goal with |- phase ?x = _ /\ _ =>
    assert (phase x = phase e4 /\ rx x = rx e4) as [-> ->] by (by case_match) end.
  split; [congruence|]. right. split; [done|]. split; [done|]. exists adv. by rewrite Hr4, Hr3.
Qed.

Lemma on_peer_fin_shape e q :
  phase (on_peer_fin e q) = phase e /\
  (rx (on_peer_fin e q) = rx e \/
   phase e <> Closed /\ rx (on_peer_fin e q) = rx_on_fin (rx e) q).
Proof.
  unfold on_peer_fin. destruct (phase_eqb (phase e) Closed) eqn:Ec; [auto|].
  apply phase_eqb_false in Ec.
  assert (phase (note_peer_progress e) = phase e /\ rx (note_peer_progress e) = rx e) as [Hp Hr]
    by (unfold note_peer_progress; by case_match).
  set (e1 := note_peer_progress e) in *. clearbody e1. rewrite <- Hp, <- Hr in *.
  case_match; split; auto.
Qed.

(** ** What one operation does otherwise *)

(** [e'] differs from [e] in nothing the peer's stream depends on. *)
Record drifts (e e' : StreamEngine) : Prop := {
  dr_stays : stays e e';
  dr_iss : iss (tx e') = iss (tx e);
  dr_rx : exists x, rx e' = rx e <| last_ack_window := x |>;
  dr_quiet : quiet e -> quiet e'
}.

Lemma drifts_trans e1 e2 e3 : drifts e1 e2 -> drifts e2 e3 -> drifts e1 e3.
Proof.
  intros [[A1|A1] A2 [x A3] A4] [[B1|B1] B2 [y B3] B4]; split; try congruence; auto; unfold stays;
    try (rewrite B1, ?A1; auto); exists y; by rewrite B3, A3.
Qed.

Lemma drifts_keeps e e' : keeps e e' -> drifts e e'.
Proof. intros [H _ Hi _ Hp Hq _]. split; [done|done| |done]. rewrite H. apply same_window. Qed.

(** What a frame emitted in state [e] says. *)
Definition says (e : StreamEngine) (f : Frame) : Prop :=
  match f with
  | Syn _ i _ | SynAck _ i _ _ => i = iss (tx e)
  | Ack _ a _ _ => a = rcv_nxt (rx e) /\ (quiet e -> phase e = Established)
  | Data _ _ _ _ | Fin _ _ => phase e = Established
  | Rst _ _ => True
  end.

Lemma says_drifts e e' f : drifts e e' -> says e' f -> says e f.
Proof.
  intros [Hs Hi [x Hx] Hq]. destruct f; cbn; rewrite ?Hi, ?Hx; try done.
  2: intros [H1 H2]; split; [done|]; intros H.
  all: destruct Hs as [<-|Hs]; auto; rewrite Hs in *; try done.
  by apply Hq, H2 in H.
Qed.

Lemma make_ack_drifts e :
  drifts e (make_ack e).1 /\ exists s w k, (make_ack e).2 = Ack s (rcv_nxt (rx e)) w k.
Proof.
  unfold make_ack. cbv zeta.
  match goal with |- context [let '(_, _) := ?x in _] => set (p := x) end.
  assert (p.1 = e <| duplicate_range := None |> \/
    p.1 = e <| duplicate_range := None |> <| sack_recent_promotions :=
            sat_add64 (sack_recent_promotions (e <| duplicate_range := None |>)) 1 |>) as Hp
    by (subst p; repeat case_match; auto).
  destruct p as [e1 k]. cbn [fst snd] in *.
  assert (keeps e (e1 <| duplicate_range := duplicate_range e |>)) as Hk by (destruct Hp as [->| ->]; keep).
  split; [|do 3 eexists; destruct Hp as [->| ->]; reflexivity].
  destruct Hk as [H1 _ H2 _ H3 H4 _]. cbn in *. split; cbn; [done|done|rewrite H1; eauto|done].
Qed.

Lemma poll_ack_shape e :
  drifts e (poll_ack e).1 /\ forall f, (poll_ack e).2 = Some f -> says e f.
Proof.
  unfold poll_ack. destruct (_ || _) eqn:Ec; [split; [apply drifts_keeps, keeps_refl|done]|].
  apply orb_false_iff in Ec as [Ea Ec%phase_eqb_false]. apply negb_false_iff in Ea.
  match goal with |- context [make_ack ?x] => set (e1 := x) end.
  assert (drifts e e1) as H1.
  { apply drifts_keeps. split; auto. intros Hq Hh. destruct (Hq Hh). by split. }
  assert (rcv_nxt (rx e1) = rcv_nxt (rx e)) as Hn by done. clearbody e1.
  destruct (make_ack_drifts e1) as [H2 (s & w & k & Hf)]. destruct (make_ack e1) as [e2 f].
  cbn [fst snd] in *. split; [by eapply drifts_trans|]. intros f' [= <-]. subst f. cbn.
  split; [done|]. intros Hq. destruct (phase e) eqn:Ep; try done; unfold quiet in Hq;
    rewrite Ep in Hq; destruct (Hq eq_refl); congruence.
Qed.

Lemma poll_segment_phase e now b f :
  (poll_segment e now b).2 = Some f -> phase e = Established.
Proof.
  unfold poll_segment. destruct (phase_eqb _ _) eqn:E; [|done].
  by apply bool_decide_eq_true in E.
Qed.

Lemma poll_transmit_shape e now b :
  drifts e (poll_transmit_inner e now b).1 /\
  forall f, (poll_transmit_inner e now b).2 = Some f -> says e f.
Proof.
  unfold poll_transmit_inner. cbv zeta.
  match goal with |- context [rst_to_send ?x] => set (e1 := x) end.
  assert (drifts e e1) as H1 by (apply drifts_keeps, keeps_tx, core_iss, core_advance_bbr_probe).
  clearbody e1. match goal with |- drifts e ?x.1 /\ _ =>
    enough (drifts e1 x.1 /\ forall f, x.2 = Some f -> says e1 f) as [G1 G2] end.
  { split; [by eapply drifts_trans|]. intros f Hf. eapply says_drifts; eauto. }
  clear e H1. destruct (rst_to_send e1).
  { split; [split; auto; [by left|apply same_window]|by intros f [= <-]]. }
  destruct (send_syn e1).
  { assert (keeps e1 (track_handshake (e1 <| send_syn := false |>) now)) as Hk.
    { eapply keeps_trans; [|apply keeps_track_handshake]. keep. }
    split; [by apply drifts_keeps|]. intros f [= <-]. apply (kp_iss _ _ Hk). }
  destruct (send_synack e1).
  { assert (keeps e1 (track_handshake (e1 <| send_synack := false |>) now)) as Hk.
    { eapply keeps_trans; [|apply keeps_track_handshake]. keep. }
    split; [by apply drifts_keeps|]. intros f [= <-]. apply (kp_iss _ _ Hk). }
  assert (let p := if b then (e1, None) else poll_ack e1 in
    drifts e1 p.1 /\ forall f, p.2 = Some f -> says e1 f) as [H1 H2].
  { destruct b; [split; [apply drifts_keeps, keeps_refl|done]|apply poll_ack_shape]. }
  destruct (if b then _ else _) as [e2 [f|]]; cbn [fst snd] in *; [split; auto|].
  pose proof (drifts_keeps _ _ (keeps_poll_segment e2 now b)) as H3.
  pose proof (poll_segment_frame e2 now b) as H4. pose proof (poll_segment_phase e2 now b) as H5.
  destruct (poll_segment e2 now b) as [e3 [f|]]; cbn [fst snd] in *.
  { split; [by eapply drifts_trans|]. intros f' [= <-]. eapply says_drifts; [exact H1|].
    destruct (H4 f eq_refl) as [s ->]. unfold seg_frame. case_match; by eapply H5. }
  destruct (poll_ack_shape e3) as [H6 H7]. pose proof (drifts_trans _ _ _ H1 H3) as H8.
  destruct (poll_ack e3) as [e4 [f|]]; cbn [fst snd] in *.
  { split; [by eapply drifts_trans|]. intros f' [= <-]. eapply says_drifts; [exact H8|]. auto. }
  split; [|done]. eapply drifts_trans; [exact H8|]. by destruct H6.
Qed.

(** Neither data nor the end of the stream overtakes the handshake. *)
Definition is_payload (f : Frame) : bool :=
  match f with Data _ _ _ _ | Fin _ _ => true | _ => false end.

Definition calm (e : StreamEngine) (op : Op) : Prop :=
  match op with
  | OpCell cell _ =>
      forall f, decode cell = Some f -> is_payload f = true -> handshaking (phase e) = false
  | _ => True
  end.

Record step_facts (e : StreamEngine) (op : Op) (e' : StreamEngine) (w : Effect) : Prop := {
  sp_iss : iss (tx e') = iss (tx e);
  sp_says : Forall (says e) (ef_sent w);
  sp_rx : (connects e op (rx e') /\ phase e' = Established /\ ef_read w = []) \/
          (stays e e' /\ rx_after e op (rx e') (ef_read w));
  sp_quiet : calm e op -> quiet e -> quiet e'
}.

(** An operation of the sending side only. *)
Lemma facts_drifts e op e' sent written :
  (forall r, (exists x, r = rx e <| last_ack_window := x |>) -> rx_after e op r []) ->
  drifts e e' -> Forall (says e) sent -> step_facts e op e' (mkEffect written [] sent).
Proof. intros Ha [H1 H2 H3 H4] Hs. split; auto. Qed.

Lemma facts_keeps_cell e cell now e' :
  match decode cell with Some (Data _ _ _ _ | Fin _ _) => False | _ => True end ->
  keeps e e' -> step_facts e (OpCell cell now) e' silent.
Proof.
  intros Hc [H1 _ H2 _ H3 H4 _]. split; [done|constructor| |by auto]. right. split; [done|]. cbn.
  split; [done|]. by repeat case_match.
Qed.

Lemma keeps_read e n : let r := rx_read n (rx e) in
  rx (engine_read e n).1 = r.2 /\ (engine_read e n).2 = r.1 /\
  phase (engine_read e n).1 = phase e /\ iss (tx (engine_read e n).1) = iss (tx e) /\
  (quiet e -> quiet (engine_read e n).1).
Proof.
  unfold engine_read. destruct (rx_read n (rx e)) as [out r]. cbn zeta. cbn [fst snd].
  destruct ((_ && phase_eqb (phase (e <| rx := r |>)) Established) && _ && _ && _) eqn:E; [|done].
  split_and!; try done. unfold quiet. cbn. to_prop. cbn in *.
  unfold phase_eqb in *. destruct (bool_decide_reflect (phase e = Established)) as [->|]; done.
Qed.

Lemma facts_frame e cell f now e' :
  decode cell = Some f -> on_frame e f now = Some e' -> step_facts e (OpCell cell now) e' silent.
Proof.
  intros Hd. unfold on_frame. destruct (negb _).
  { intros [= <-]. split; [done|constructor| |by auto]. right. split; [by left|]. cbn. rewrite Hd.
    split; [done|]. destruct f; auto. }
  destruct f.
  - intros [= <-]. unfold on_syn. destruct (phase e) eqn:Ep; [| | |].
    1,3,4: apply facts_keeps_cell; [by rewrite Hd|]; keep.
    split; cbn; auto; [|by intros _ _ ?]. left. split; [|done].
    exists cell, now. eexists. split_and!; [done|exact Hd|done].
  - intros [= <-]. unfold on_synack. destruct (phase e) eqn:Ep; [destruct (negb _)| | |].
    1,3,5: apply facts_keeps_cell; [by rewrite Hd|]; keep.
    + split; cbn; auto; [|by intros _ _ ?]. left. split; [|done].
      exists cell, now. eexists. split_and!; [done|exact Hd|done].
    + apply facts_keeps_cell; [by rewrite Hd|]. split; auto. intros _ Hh. cbn in Hh. by rewrite Ep in Hh.
  - intros H. pose proof (frame_on_data _ _ _ _ _ _ H) as [_ Hc _ _].
    apply on_data_shape in H as [Hp Hr]. apply core_iss in Hc.
    split; [done|constructor| |].
    + right. split; [by left|]. cbn. by rewrite Hd.
    + intros Hcalm Hq Hh. rewrite Hp in Hh. rewrite (Hcalm _ Hd eq_refl) in Hh. done.
  - intros [= <-]. apply facts_keeps_cell; [by rewrite Hd|]. apply keeps_on_ack.
  - intros [= <-]. destruct (frame_on_peer_fin e sq) as [_ Hc _ _].
    destruct (on_peer_fin_shape e sq) as [Hp Hr]. apply core_iss in Hc.
    split; [done|constructor| |].
    + right. split; [by left|]. cbn. by rewrite Hd.
    + intros Hcalm Hq Hh. rewrite Hp in Hh. rewrite (Hcalm _ Hd eq_refl) in Hh. done.
  - intros [= <-]. apply facts_keeps_cell; [by rewrite Hd|]. unfold on_rst. case_match; keep.
Qed.

Lemma step_shape e op e' w : step e op = Some (e', w) -> step_facts e op e' w.
Proof.
  destruct op; cbn [step].
  - unfold engine_write. destruct (_ || _); intros [= <- <-]; apply facts_drifts; try done;
      apply drifts_keeps; keep.
  - intros [= <- <-]. apply facts_drifts; [done| |done]. apply drifts_keeps; keep.
  - intros [= <- <-]. apply facts_drifts; [done| |done]. unfold engine_reset.
    case_match; [|apply drifts_keeps, keeps_refl]. split; auto; [by right|apply same_window|].
    by intros _ ?.
  - destruct (keeps_read e len) as (H1 & H2 & H3 & H4 & H5).
    destruct (engine_read e len) as [e1 out]. cbn [fst snd] in *. intros [= <- <-].
    split; [done|constructor| |done]. right. split; [by left|]. by split.
  - intros [= <- <-]. apply facts_drifts; [done| |done]. apply drifts_keeps; keep.
  - unfold on_cell. destruct (decode cell) as [f|] eqn:Ed.
    + destruct (on_frame e f now) as [e1|] eqn:Ef; [|done]. intros [= <- <-]. by eapply facts_frame.
    + intros [= <- <-]. apply facts_keeps_cell; [by rewrite Ed|apply keeps_refl].
  - destruct (poll_transmit_shape e now allow_new) as [H1 H2].
    destruct (poll_transmit_inner e now allow_new) as [e1 o]. intros [= <- <-].
    apply facts_drifts; [done|done|]. destruct o; cbn; [|constructor].
    apply Forall_singleton. by apply H2.
  - intros [= <- <-]. apply facts_drifts; [done| |done]. apply drifts_keeps, keeps_on_timeout.
  - intros [= <- <-]. apply facts_drifts; [done| |done]. apply drifts_keeps, keeps_local_handoff.
  - intros [= <- <-]. apply facts_drifts; [done| |done].
    apply drifts_keeps, keeps_marks, marks_discard.
  - intros [= <- <-]. apply facts_drifts; [done| |done]. apply drifts_keeps; keep.
Qed.

(** ** Unwrapped positions of the sender *)

Lemma near_id u x : - M31 < x - u <= M31 -> near u (wrap32 x) = x.
Proof.
  intros H. unfold near, as_i32, sub32, wrap32. case_bool; to_prop; mlia.
Qed.

Lemma snd_inv_mono W B K K' fr e :
  (phase e = SynSent -> K B -> K' B) ->
  (phase e <> SynSent -> forall U N oh, tx_inv W B U N oh (tx e) -> K U -> K' U) ->
  snd_inv W B K fr e -> snd_inv W B K' fr e.
Proof.
  intros HB HU [H1 H2 H3 H4 H5]. split; auto. destruct (phase e); try done; cbn in *.
  all: destruct H5 as (U & N & oh & HK & Hi); exists U, N, oh; (split; [|done]); by eapply HU.
Qed.

(** [x] is [u], or the position above it that the acknowledgement [op] carries names. *)
Definition acked_by (op : Op) (u x : Z) : Prop :=
  x = u \/ exists cell now s a w k, op = OpCell cell now /\ decode cell = Some (Ack s a w k) /\
    a = wrap32 x /\ u < x < u + M31.

(** The acknowledgement [op] carries is of a position in the half window up to [R]. *)
Definition ack_below (R : Z) (op : Op) : Prop :=
  forall cell now s a w k, op = OpCell cell now -> decode cell = Some (Ack s a w k) ->
  exists A, a = wrap32 A /\ R - M31 < A <= R.

Lemma op_known_acked R op u :
  ack_below R op -> op_known (fun x => acked_by op u x /\ x <= R) op.
Proof.
  intros Hb. destruct op; try done. intros s a w k Hd U P [HU HR] -> HP.
  destruct (Hb _ _ _ _ _ _ eq_refl Hd) as (A & HA & HAr).
  destruct HU as [->|(cell' & now' & s' & a' & w' & k' & [= <- <-] & Hd' & Ha' & HU)].
  - split; [|unfold wrap32 in HA; mlia]. right. exists cell, now, s, (wrap32 P), w, k. done.
  - rewrite Hd in Hd'. injection Hd' as _ Ha _ _. rewrite <- Ha in Ha'. unfold wrap32 in Ha'. mlia.
Qed.

(** The unwrapped [snd_una] after a step to [e']. *)
Definition next_una (u : Z) (e' : StreamEngine) : Z :=
  if phase_eqb (phase e') SynSent then u else near u (snd_una (tx e')).

(** What a frame says when it is emitted at the position [P] by the sender of [W]. *)
Definition frame_at (W : list byte) (B : Z) (freq : bool) (R : Z) (f : Frame) (P : Z) : Prop :=
  match f with
  | Data _ s _ d =>
      s = wrap32 P /\ P + zlen d < R + M31 /\ 0 < zlen d <= MSS /\ holds (genuine W B) P d
  | Fin _ s => freq = true /\ s = wrap32 P /\ B + zlen W <= P < R + M31
  | _ => True
  end.

(** The position a frame is emitted at: of its first byte on the sender's stream, or, for an
    acknowledgement, the position on the peer's stream it has reached. *)
Definition stamp (u R : Z) (f : Frame) : Z :=
  match f with Data _ s _ _ | Fin _ s => near u s | _ => R end.

Lemma frame_ok_at W B u R fr f R' :
  frame_ok W B (fun x => x = u /\ x <= R) fr f -> frame_at W B fr R f (stamp u R' f).
Proof.
  unfold MSS, MAX_CELL, DATA_OVERHEAD. destruct f; cbn; try done.
  - intros (U & P & [-> HR] & -> & HP & Hr & Hl & Hd). unfold MSS, MAX_CELL, DATA_OVERHEAD in *.
    rewrite near_id by lia. split_and!; try done; lia.
  - intros (Hfr & U & P & [-> HR] & -> & HP & Hu). rewrite near_id by lia. split_and!; try done; lia.
Qed.

Lemma step_silent e op e' w :
  step e op = Some (e', w) -> (exists now b, op = OpPoll now b) \/ ef_sent w = [].
Proof.
  destruct op; cbn [step]; try (intros [= <- <-]; by right); eauto.
  - destruct (engine_write e data). intros [= <- <-]. by right.
  - destruct (on_cell e cell now); [|done]. intros [= <- <-]. by right.
Qed.

(** One step of the sender, with its acknowledged position [u] followed exactly and [R] the
    position the peer has reached. *)
Lemma snd_step W B u R R' e op e' w :
  snd_inv W B (fun x => x = u /\ x <= R) (fin_requested (tx e)) e -> ack_below R op ->
  step e op = Some (e', w) ->
  snd_inv (W ++ ef_written w) B (fun x => x = next_una u e' /\ x <= R) (fin_requested (tx e')) e' /\
  Forall (fun f => frame_at (W ++ ef_written w) B (fin_requested (tx e')) R f (stamp u R' f))
    (ef_sent w) /\
  (fin_requested (tx e) = true -> fin_requested (tx e') = true).
Proof.
  intros Hi Hb Hs. pose proof (step_shape _ _ _ _ Hs) as Hsh.
  assert (snd_inv W B (fun x => acked_by op u x /\ x <= R) (fin_requested (tx e)) e) as Hi1.
  { eapply snd_inv_mono; [| |exact Hi]; cbn; intros; destruct_and?; subst; split; auto; by left. }
  destruct (step_inv _ _ _ _ _ _ _ _ (op_known_acked R op u Hb) Hi1 Hs) as [Hi2 Hf].
  split_and!; [| |apply (si_req _ _ _ _ _ Hi2)].
  - assert (snd_inv (W ++ ef_written w) B (fun x => acked_by op u x /\ x <= R)
      (fin_requested (tx e')) e') as Hi3 by (destruct Hi2; by split).
    eapply snd_inv_mono; [| |exact Hi3].
    + intros Hp _. unfold next_una. rewrite Hp. cbn.
      destruct (sp_rx _ _ _ _ Hsh) as [(_ & Hp' & _)|[[Hp'|Hp'] _]]; try congruence.
      apply (si_base _ _ _ _ _ Hi). congruence.
    + cbn. intros Hp U N oh Ht [HU HR]. split; [|done]. unfold next_una.
      assert (0 <= U - u < M31) by (destruct HU as [->|(?&?&?&?&?&?&?&?&?&?)]; lia).
      rewrite (ti_una _ _ _ _ _ _ Ht), near_id by lia.
      by destruct (phase_eqb (phase e') SynSent) eqn:Ep; [apply bool_decide_eq_true in Ep|].
  - destruct (step_silent _ _ _ _ Hs) as [(now & b & ->)| ->]; [|constructor].
    eapply Forall_impl; [exact Hf|]. intros f Hok. apply frame_ok_at.
    assert (forall x, acked_by (OpPoll now b) u x /\ x <= R -> x = u /\ x <= R) as HK.
    { intros x [[->|(?&?&?&?&?&?&?&_)] ?]; done. }
    destruct f; cbn in *; try done.
    + destruct Hok as (U & P & HU & Hok). exists U, P. split; [by apply HK|done].
    + destruct Hok as (? & U & P & HU & Hok). split; [done|]. exists U, P. split; [by apply HK|done].
Qed.
