(* ===== verification/StreamNet.v ===== *)
(** * Two engines and a network

    An initiator and a responder joined by a network that may lose, repeat, delay and reorder
    their cells.  Each application then reads a prefix of what the other one wrote, and all of it
    once the end of the stream is reported. *)

From S2P Require Import Prelude BTree Seq StreamWire StreamRx StreamRxInv StreamRxAccept.
From S2P Require Import StreamRxRuns StreamTx StreamEngine StreamTxInv StreamSender StreamRobust.
From S2P Require Import StreamShape.

(** ** The network *)

(** One end: its engine, what its application wrote and read and what it sent so far, the
    unwrapped position it has been acknowledged up to, and every frame it sent with its unwrapped
    position. *)
Record Side := mkSide { eng : StreamEngine; eff : Effect; una : Z; sent : list (Frame * Z) }.

Definition written (s : Side) : list byte := ef_written (eff s).
Definition finished (s : Side) : bool := fin_requested (tx (eng s)).

(** The position reached on the peer's stream, whose first byte is at [B]. *)
Definition reached (B : Z) (s : Side) : Z := rpos B (rx (eng s)) (ef_read (eff s)).

Definition side_start (e : StreamEngine) (B : Z) : Side := mkSide e silent B [].

(** A step of the end [s], whose peer's stream starts at [Bp]. *)
Definition side_step (Bp : Z) (s : Side) (op : Op) : option Side :=
  match step (eng s) op with
  | None => None
  | Some (e', w) =>
      Some (mkSide e' (mkEffect (ef_written (eff s) ++ ef_written w) (ef_read (eff s) ++ ef_read w)
                                (ef_sent (eff s) ++ ef_sent w))
                   (next_una (una s) e')
                   (sent s ++ map (fun f => (f, stamp (una s) (reached Bp s) f)) (ef_sent w)))
  end.

(** What may happen at the end [s] (own stream from [B], peer [p] with its stream from [Bp]).  The
    cells that arrive are ones the peer has sent, at any time before and any number of times, with
    two provisos: payload does not overtake the handshake, and what arrives is not about a position
    2^31 or more behind the one the receiving end of that stream has reached. *)
Definition admissible (B Bp : Z) (s p : Side) (op : Op) : Prop :=
  match op with
  | OpCell cell _ =>
      exists f P, (f, P) ∈ sent p /\ cell = encode f /\
      match f with
      | Data _ _ _ _ | Fin _ _ => handshaking (phase (eng s)) = false /\ reached Bp s - M31 < P
      | Ack _ _ _ _ => reached B p - M31 < P
      | _ => True
      end
  | OpReset reason => is_u8 reason
  | OpRead len => 0 <= len
  | _ => True
  end.

(** The network: an initiator whose stream starts at [Bi] and a responder whose starts at [Br]. *)
Inductive net_step (Bi Br : Z) : Side * Side -> Side * Side -> Prop :=
| step_initiator i r op i' :
    admissible Bi Br i r op -> side_step Br i op = Some i' -> net_step Bi Br (i, r) (i', r)
| step_responder i r op r' :
    admissible Br Bi r i op -> side_step Bi r op = Some r' -> net_step Bi Br (i, r) (i, r').

(** ** The invariant of one direction *)

(** A receive side that has seen nothing. *)
Definition blank (r : RxState) : Prop :=
  fresh_rx r /\ rx_eof r = false /\ peer_fin_seq r = None.

Definition receives (W : list byte) (B : Z) (r : Side) : Prop :=
  (phase (eng r) <> Established /\ blank (rx (eng r)) /\ ef_read (eff r) = []) \/
  (handshaking (phase (eng r)) = false /\ run_inv W B (rx (eng r), ef_read (eff r))).

(** The initial sequence number of the end whose stream starts at [B]; the SYN takes one. *)
Definition isn_of (ini : bool) (B : Z) : Z := wrap32 (if ini then B - 1 else B).

Definition sent_ok (ini : bool) (B : Z) (W : list byte) (freq : bool) (R : Z) (fp : Frame * Z) : Prop :=
  frame_at W B freq R fp.1 fp.2 /\ wf_frame fp.1 /\
  match fp.1 with Syn _ i _ | SynAck _ i _ _ => i = isn_of ini B | _ => True end.

Definition ack_ok (R : Z) (fp : Frame * Z) : Prop :=
  match fp.1 with Ack _ a _ _ => a = wrap32 fp.2 /\ fp.2 <= R | _ => True end.

(** The direction from [s] to [r]. *)
Record dir_inv (ini : bool) (B : Z) (s r : Side) : Prop := {
  di_iss : iss (tx (eng s)) = isn_of ini B;
  di_role : phase (eng r) <> if ini then SynSent else Listen;
  di_snd : snd_inv (written s) B (fun x => x = una s /\ x <= reached B r) (finished s) (eng s);
  di_sent : Forall (sent_ok ini B (written s) (finished s) (reached B r)) (sent s);
  di_acks : Forall (ack_ok (reached B r)) (sent r);
  di_rx : receives (written s) B r;
  di_fin : rx_eof (rx (eng r)) = true \/ is_Some (peer_fin_seq (rx (eng r))) -> finished s = true
}.

(** ** Steps of the receiver of a direction *)

(** What the end [r] does with its receive side: the stream seen stays right, the position only
    grows, and the end of the stream is not made up. *)
Definition rx_good (W : list byte) (B : Z) (fin : bool) (x x' : RxState * list byte) : Prop :=
  run_inv W B x' /\ rpos B x.1 x.2 <= rpos B x'.1 x'.2 /\
  (rx_eof x'.1 = true \/ is_Some (peer_fin_seq x'.1) ->
   fin = true \/ rx_eof x.1 = true \/ is_Some (peer_fin_seq x.1)).

Lemma rx_good_data W B fin r out S0 p r' adv :
  run_inv W B (r, out) -> Z.abs (S0 - rpos B r out) < M31 -> p <> [] -> zlen p <= MSS ->
  holds (genuine W B) S0 p -> accept r (wrap32 S0) p = Some (r', adv) ->
  rx_good W B fin (r, out) (r', out).
Proof.
  intros Hinv Hd Hne Hl Hh Hrun. unfold MSS, MAX_CELL, DATA_OVERHEAD in *.
  destruct (accept_spec (genuine W B) _ r S0 p (ri_inv _ _ _ Hinv))
    as (R' & r1 & new & adv1 & Hrun' & Hst & _); simpl in *; try lia; [done|done|].
  rewrite Hrun in Hrun'. injection Hrun' as <- <-.
  split_and!; cbn; [by eapply run_inv_deliver| |].
  - unfold rpos. rewrite (rs_buf _ _ _ _ _ _ Hst), zlen_app. pose proof (zlen_nonneg new).
    destruct (rs_pos _ _ _ _ _ _ Hst) as [[_ ->]|(_ & -> & -> & _)]; lia.
  - rewrite (rs_fin _ _ _ _ _ _ Hst). right.
    destruct (rs_pos _ _ _ _ _ _ Hst) as [[_ <-]|(_ & _ & _ & ->)]; eauto.
Qed.

Lemma rx_good_fin W B r out Q :
  run_inv W B (r, out) -> B + zlen W <= Q -> Z.abs (Q - rpos B r out) < M31 ->
  rx_good W B true (r, out) (rx_on_fin r (wrap32 Q), out).
Proof.
  intros Hinv HQ HF. split_and!; [by apply run_inv_fin| |auto].
  unfold rpos, rx_on_fin, try_consume_fin. cbn. destruct (_ && _) eqn:E; cbn; [|lia].
  to_prop. destruct (rx_eof r); cbn in *; [done|lia].
Qed.

Lemma rx_good_read W B fin r out n :
  run_inv W B (r, out) -> 0 <= n ->
  rx_good W B fin (r, out) ((rx_read n r).2, out ++ (rx_read n r).1).
Proof.
  intros Hinv Hn. split_and!; [by apply run_inv_read| |by right].
  unfold rpos, rx_read. cbn. pose proof (zlen_nonneg (read_buf r)).
  rewrite zlen_app, zlen_ztake, zlen_zdrop by lia. lia.
Qed.

Lemma run_inv_window W B r out x :
  run_inv W B (r, out) -> run_inv W B (r <| last_ack_window := x |>, out).
Proof. intros [[H1 H2] H3 H4 H5]. split; [|done..]. split; [by destruct H1|done]. Qed.

Lemma rx_good_window W B fin r out x :
  run_inv W B (r, out) -> rx_good W B fin (r, out) (r <| last_ack_window := x |>, out).
Proof. intros H. split_and!; [by apply run_inv_window|done|by right]. Qed.

Lemma rx_good_refl W B fin x : run_inv W B x -> rx_good W B fin x x.
Proof. intros H. split_and!; [done|lia|by right]. Qed.

(** The stream grows as long as its end has not been announced. *)
Lemma run_inv_grow W k B r out :
  rx_eof r = false -> peer_fin_seq r = None -> run_inv W B (r, out) -> run_inv (W ++ k) B (r, out).
Proof.
  intros He Hf [[H1 H2] H3 H4 H5]. cbn in *. split; cbn; [|by eapply holds_mono; [|exact H3];
    intros; apply genuine_app|congruence|congruence].
  split; [|done]. destruct H1 as [G1 G2 G3 [O1 O2 O3 O4] G5 G6]. split; try done.
  split; try done. intros i v Hin. destruct (O3 i v Hin) as (? & ? & ?). split_and!; try done.
  eapply holds_mono; [|done]. intros; by apply genuine_app.
Qed.

Lemma blank_run W B r : blank r -> run_inv W B (r <| rcv_nxt := wrap32 B |>, []).
Proof.
  intros (Hf & He & Hp). pose proof Hf as (_ & H2 & _).
  assert (rpos B (r <| rcv_nxt := wrap32 B |>) [] = B) as HR
    by (unfold rpos, zlen; cbn; rewrite He, H2; cbn; lia).
  split; cbn [fst snd]; [|cbn; rewrite H2; apply holds_nil|cbn; congruence|cbn; congruence].
  rewrite HR. apply fresh_rx_inv; [|done]. apply fresh_set_nxt; [done|apply wrap32_range].
Qed.

Lemma blank_reached B r : blank (rx (eng r)) -> ef_read (eff r) = [] -> reached B r = B.
Proof.
  intros [(H1 & H2 & _) [He _]] Hr. unfold reached, rpos. rewrite Hr, H2, He, !zlen_nil. lia.
Qed.

Lemma receives_reached W B r : receives W B r -> phase (eng r) = Established ->
  rcv_nxt (rx (eng r)) = wrap32 (reached B r).
Proof.
  intros [[H _]|[_ H]] Hp; [done|]. destruct (ri_inv _ _ _ H) as [Hc _]. exact (rx_nxt _ _ _ Hc).
Qed.

(** The frame that arrives is the one that was sent. *)
Lemma admissible_frame B Bp s p cell now :
  Forall (fun fp => wf_frame fp.1) (sent p) -> admissible B Bp s p (OpCell cell now) ->
  exists f P, (f, P) ∈ sent p /\ decode cell = Some f /\
  match f with
  | Data _ _ _ _ | Fin _ _ => handshaking (phase (eng s)) = false /\ reached Bp s - M31 < P
  | Ack _ _ _ _ => reached B p - M31 < P
  | _ => True
  end.
Proof.
  intros Hwf (f & P & Hin & -> & Hf). exists f, P. split; [done|]. split; [|done].
  rewrite <- (app_nil_r (encode f)). apply decode_encode_frame.
  rewrite Forall_forall in Hwf. exact (Hwf _ Hin).
Qed.

Lemma admissible_orderly B Bp s p op :
  Forall (fun fp => wf_frame fp.1) (sent p) -> admissible B Bp s p op ->
  orderly (eng s) op /\ calm (eng s) op.
Proof.
  intros Hwf Ha. destruct op; try (by split; [exact Ha|]); try done.
  destruct (admissible_frame _ _ _ _ _ _ Hwf Ha) as (f & P & _ & Hd & Hf). split.
  - intros g Hg _. rewrite Hd in Hg. injection Hg as <-. destruct f; try done.
    intros Hh. destruct Hf as [Hf _]. congruence.
  - intros g Hg Hp. rewrite Hd in Hg. injection Hg as <-. destruct f; try done; by destruct Hf.
Qed.

Section receiver.
Context (ini : bool) (B Bo : Z) (s r : Side).
Context (Hdir : dir_inv ini B s r) (Hwf : Forall (fun fp => wf_frame fp.1) (sent s)).

Lemma sent_known f P : (f, P) ∈ sent s ->
  sent_ok ini B (written s) (finished s) (reached B r) (f, P).
Proof. intros H. pose proof (di_sent _ _ _ _ Hdir) as Hf. rewrite Forall_forall in Hf. by apply Hf. Qed.

(** The handshake completes: the receiver learns where the stream starts. *)
Lemma receives_connect op e' :
  admissible Bo B r s op -> connects (eng r) op (rx e') ->
  blank (rx (eng r)) /\ ef_read (eff r) = [] /\ rx e' = rx (eng r) <| rcv_nxt := wrap32 B |>.
Proof.
  intros Ha (cell & now & f & -> & Hd & Hc).
  destruct (admissible_frame _ _ _ _ _ _ Hwf Ha) as (g & P & Hin & Hd' & _).
  rewrite Hd in Hd'. injection Hd' as <-. destruct (sent_known _ _ Hin) as (_ & _ & Hi).
  pose proof (di_role _ _ _ _ Hdir) as Hrole.
  assert (handshaking (phase (eng r)) = true) as Hh by (destruct f; try done; by destruct Hc as [-> _]).
  destruct (di_rx _ _ _ _ Hdir) as [(_ & Hb & Hr)|[Hn _]]; [|congruence].
  split; [done|]. split; [done|]. destruct f; try done; destruct Hc as [Hp ->]; cbn in Hi;
    rewrite Hp in Hrole; unfold isn_of in Hi; subst; destruct ini; try done.
  rewrite add32_wrap. by replace (B - 1 + 1) with B by lia.
Qed.

(** Any other operation of a connected receiver. *)
Lemma receives_after op r' out :
  admissible Bo B r s op -> handshaking (phase (eng r)) = false ->
  run_inv (written s) B (rx (eng r), ef_read (eff r)) -> rx_after (eng r) op r' out ->
  rx_good (written s) B (finished s) (rx (eng r), ef_read (eff r)) (r', ef_read (eff r) ++ out).
Proof.
  intros Ha Hph Hinv Hr. destruct op; cbn [rx_after] in Hr;
    try (destruct Hr as [-> [x ->]]; rewrite app_nil_r; by apply rx_good_window).
  - destruct Hr as [-> ->]. by apply rx_good_read.
  - destruct Hr as [-> Hr]. rewrite app_nil_r.
    destruct (admissible_frame _ _ _ _ _ _ Hwf Ha) as (f & P & Hin & Hd & Hf).
    rewrite Hd in Hr. destruct (sent_known _ _ Hin) as (Hat & _ & _). cbn [fst snd] in Hat.
    fold (reached B r) in *.
    destruct f; try (subst r'; by apply rx_good_refl).
    + destruct Hr as [->|(_ & Hne & adv & Hacc)]; [by apply rx_good_refl|].
      destruct Hat as (-> & Hup & Hl & Hh). destruct Hf as [_ Hlow].
      unfold reached in *. eapply rx_good_data; try done; lia.
    + destruct Hr as [->|[_ ->]]; [by apply rx_good_refl|]. destruct Hat as (-> & -> & HP).
      destruct Hf as [_ Hlow]. unfold reached in *. apply rx_good_fin; [done|lia..].
Qed.

(** Nothing is received before the handshake, nor after a connection that never was. *)
Lemma blank_after op r' out :
  admissible Bo B r s op -> phase (eng r) <> Established -> blank (rx (eng r)) ->
  rx_after (eng r) op r' out ->
  blank r' /\ out = [] /\ rpos B (rx (eng r)) [] <= rpos B r' [].
Proof.
  intros Ha Hp Hb Hr. destruct op; cbn [rx_after] in Hr;
    try (by destruct Hr as [-> [x ->]]; split_and!; destruct Hb as (? & ? & ?)).
  - destruct Hr as [-> ->]. pose proof Hb as [(H1 & H2 & H3) [H4 H5]].
    unfold rx_read, rpos, zdrop, ztake. cbn. rewrite H2, drop_nil, take_nil.
    split_and!; [|done|lia]. by split_and!.
  - destruct Hr as [-> Hr].
    destruct (admissible_frame _ _ _ _ _ _ Hwf Ha) as (f & P & _ & Hd & Hf). rewrite Hd in Hr.
    assert (r' = rx (eng r)) as ->; [|split_and!; [done|done|lia]].
    destruct f; try done; destruct Hf as [Hf _]; destruct Hr as [Hr|[Hcl _]]; try done;
      by destruct (phase (eng r)).
Qed.

(** The receive side after any operation. *)
Lemma receives_step op e' w r' :
  admissible Bo B r s op -> step (eng r) op = Some (e', w) -> side_step B r op = Some r' ->
  receives (written s) B r' /\ reached B r <= reached B r' /\
  (rx_eof (rx (eng r')) = true \/ is_Some (peer_fin_seq (rx (eng r'))) -> finished s = true) /\
  phase (eng r') <> (if ini then SynSent else Listen).
Proof.
  intros Ha Hs Hr'. unfold side_step in Hr'. rewrite Hs in Hr'. injection Hr' as <-.
  unfold receives, reached. cbn. pose proof (step_shape _ _ _ _ Hs) as [_ _ Hrx _].
  destruct Hrx as [(Hc & Hp & Hrd)|[Hst Hrx]].
  - destruct (receives_connect op e' Ha Hc) as (Hb & Hnil & Hrx).
    pose proof (blank_run (written s) B _ Hb) as Hrun. rewrite <- Hrx in Hrun.
    rewrite Hnil, Hrd, Hp, app_nil_r. destruct Hb as (Hf & He & Hn).
    split_and!; [by right| | |by destruct ini]; rewrite Hrx; unfold rpos; cbn; rewrite ?He, ?Hn; [lia|].
    intros [?|[? ?]]; done.
  - assert (phase e' <> (if ini then SynSent else Listen)) as Hrole.
    { pose proof (di_role _ _ _ _ Hdir) as Hrole. destruct Hst as [->| ->]; [done|by destruct ini]. }
    pose proof (di_fin _ _ _ _ Hdir) as Hfin.
    destruct (di_rx _ _ _ _ Hdir) as [(Hp & Hb & Hrd)|[Hp Hrun]].
    + assert (blank (rx e') /\ ef_read w = [] /\ rpos B (rx (eng r)) [] <= rpos B (rx e') [])
        as (Hb' & Hw & Hle); [|rewrite Hrd, Hw; destruct Hb' as (Hf' & He' & Hn')].
      { by eapply blank_after. }
      rewrite He', Hn'. split_and!; try done; [|by intros [?|[? ?]]].
      left. split_and!; try done. by destruct Hst as [->| ->].
    + destruct (receives_after op (rx e') (ef_read w) Ha Hp Hrun Hrx) as (H1 & H2 & H3).
      cbn [fst snd] in *. split_and!; try done.
      * right. split; [|done]. by destruct Hst as [->| ->].
      * intros H. destruct (H3 H) as [?|?]; auto.
Qed.

End receiver.

(** ** Both ends of a direction *)

Lemma frame_at_mono W B fr R R' f P : R <= R' -> frame_at W B fr R f P -> frame_at W B fr R' f P.
Proof. intros HR. destruct f; cbn; try done; intros; destruct_and?; split_and!; try done; lia. Qed.

Lemma frame_at_grow W k B fr fr' R f P :
  (fr = true -> k = [] /\ fr' = true) -> frame_at W B fr R f P -> frame_at (W ++ k) B fr' R f P.
Proof.
  intros Hk. destruct f; cbn; try done.
  - intros (-> & HP & Hl & Hd). split_and!; try done; try lia.
    eapply holds_mono; [|exact Hd]. intros; by apply genuine_app.
  - intros [Hfr HP]. destruct (Hk Hfr) as [-> ->]. by rewrite app_nil_r.
Qed.

Lemma dir_receiver ini B Bo s r op r' :
  dir_inv ini B s r -> Forall (fun fp => wf_frame fp.1) (sent s) -> quiet (eng r) ->
  admissible Bo B r s op -> side_step B r op = Some r' -> dir_inv ini B s r'.
Proof.
  intros Hdir Hwf Hq Ha Hr'. destruct (step (eng r) op) as [[e' w]|] eqn:Hs;
    [|unfold side_step in Hr'; by rewrite Hs in Hr'].
  destruct (receives_step ini B Bo s r Hdir Hwf op e' w r' Ha Hs Hr') as (H1 & H2 & H3 & H4).
  destruct Hdir as [D1 D2 D3 D4 D5 D6 D7]. split; try done.
  - eapply snd_inv_mono; [| |exact D3]; cbn; intros; destruct_and?; split; try done; lia.
  - eapply Forall_impl; [exact D4|]. intros [f P] (G1 & G2 & G3). split_and!; try done.
    by eapply frame_at_mono.
  - unfold side_step in Hr'. rewrite Hs in Hr'. injection Hr' as <-. cbn.
    apply Forall_app. split.
    { eapply Forall_impl; [exact D5|]. intros [f P]. unfold ack_ok. destruct f; try done. cbn [fst snd].
      intros [-> ?]. split; [done|]. lia. }
    apply Forall_map. eapply Forall_impl; [exact (sp_says _ _ _ _ (step_shape _ _ _ _ Hs))|].
    intros f Hf. destruct f; try done. destruct Hf as [-> Hp]. split; [|exact H2].
    cbn. by apply (receives_reached (written s)); [|apply Hp].
Qed.

Lemma dir_sender ini B Bp s r op s' :
  dir_inv ini B s r -> Forall (fun fp => wf_frame fp.1) (sent r) -> eng_ok (eng s) ->
  admissible B Bp s r op -> side_step Bp s op = Some s' -> dir_inv ini B s' r.
Proof.
  intros [D1 D2 D3 D4 D5 D6 D7] Hwf Hok Ha Hs'. unfold side_step in Hs'.
  destruct (step (eng s) op) as [[e' w]|] eqn:Hs; [|done]. injection Hs' as <-.
  assert (ack_below (reached B r) op) as Hb.
  { intros cell now sid a win k -> Hd.
    destruct (admissible_frame _ _ _ _ _ _ Hwf Ha) as (f & P & Hin & Hd' & Hf).
    rewrite Hd in Hd'. injection Hd' as <-. rewrite Forall_forall in D5.
    destruct (D5 _ Hin) as [-> HP]. exists P. split; [done|]. cbn [fst snd] in HP. lia. }
  destruct (snd_step _ _ _ _ (reached Bp s) _ _ _ _ D3 Hb Hs) as (S1 & S2 & S3).
  destruct (admissible_orderly _ _ _ _ _ Hwf Ha) as [Hord _].
  destruct (step_ok _ _ Hok Hord) as (e1 & w1 & Hs1 & _ & Hw). rewrite Hs in Hs1.
  injection Hs1 as <- <-. pose proof (step_shape _ _ _ _ Hs) as [F1 F2 _ _].
  assert (finished s = true -> ef_written w = [] /\ fin_requested (tx e') = true) as Hgrow.
  { intros Hf. split; [by eapply step_written|by apply S3]. }
  split; unfold written, finished; cbn; [congruence|done|done| |done| |].
  - apply Forall_app. split.
    { eapply Forall_impl; [exact D4|]. intros [f P] (G1 & G2 & G3). split_and!; try done.
      by eapply frame_at_grow. }
    apply Forall_map. apply Forall_forall. intros f Hin. rewrite Forall_forall in S2, F2, Hw.
    specialize (S2 f Hin). specialize (F2 f Hin). specialize (Hw f Hin). split_and!; [done| |].
    + apply Hw. destruct f; cbn in *; try done.
      * destruct S2 as (-> & _ & ? & _). split; [apply wrap32_range|lia].
      * destruct S2 as (_ & -> & _). apply wrap32_range.
    + cbn. destruct f; try done; cbn in F2; congruence.
  - destruct D6 as [?|[Hp Hrun]]; [by left|]. right. split; [done|].
    destruct (finished s) eqn:Ef; [destruct (Hgrow eq_refl) as [-> _]; by rewrite app_nil_r|].
    apply run_inv_grow; [| |done].
    + destruct (rx_eof _); [|done]. discriminate D7. by left.
    + destruct (peer_fin_seq _); [|done]. discriminate D7. right. eauto.
  - intros H. apply Hgrow. by apply D7.
Qed.

(** ** The theorem *)

Record net_inv (Bi Br : Z) (n : Side * Side) : Prop := {
  ni_there : dir_inv true Bi n.1 n.2;
  ni_back : dir_inv false Br n.2 n.1;
  ni_ok : eng_ok (eng n.1) /\ eng_ok (eng n.2);
  ni_quiet : quiet (eng n.1) /\ quiet (eng n.2)
}.

Lemma sent_wf ini B s r : dir_inv ini B s r -> Forall (fun fp => wf_frame fp.1) (sent s).
Proof. intros H. eapply Forall_impl; [exact (di_sent _ _ _ _ H)|]. by intros fp (_ & ? & _). Qed.

Lemma side_step_ok B Bp s p op s' :
  Forall (fun fp => wf_frame fp.1) (sent p) -> eng_ok (eng s) -> quiet (eng s) ->
  admissible B Bp s p op -> side_step Bp s op = Some s' -> eng_ok (eng s') /\ quiet (eng s').
Proof.
  intros Hwf Hok Hq Ha Hs. destruct (admissible_orderly _ _ _ _ _ Hwf Ha) as [Hord Hcalm].
  destruct (step_ok _ _ Hok Hord) as (e' & w & Hst & Hok' & _). unfold side_step in Hs.
  rewrite Hst in Hs. injection Hs as <-. cbn. split; [done|].
  by eapply (sp_quiet _ _ _ _ (step_shape _ _ _ _ Hst)).
Qed.

Lemma net_inv_step Bi Br n n' : net_inv Bi Br n -> net_step Bi Br n n' -> net_inv Bi Br n'.
Proof.
  intros [H1 H2 [H3 H4] [H5 H6]] Hs. pose proof (sent_wf _ _ _ _ H1) as W1.
  pose proof (sent_wf _ _ _ _ H2) as W2.
  destruct Hs as [i r op i' Ha Hi|i r op r' Ha Hr]; cbn [fst snd] in *.
  - destruct (side_step_ok _ _ _ _ _ _ W2 H3 H5 Ha Hi). split; cbn; auto.
    + by eapply dir_sender.
    + by eapply dir_receiver.
  - destruct (side_step_ok _ _ _ _ _ _ W1 H4 H6 Ha Hr). split; cbn; auto.
    + by eapply dir_receiver.
    + by eapply dir_sender.
Qed.

(** An initiator and a responder that have not done anything yet. *)
Definition net_start (sid : Z) (ci cr : Config) (now issi issr : Z) : Side * Side :=
  (side_start (engine_connect sid ci now issi) (issi + 1),
   side_start (engine_accept sid cr now issr) issr).

Record net_args (sid : Z) (ci cr : Config) (issi issr : Z) : Prop := {
  na_sid : is_u32 sid;
  na_isn : is_u32 issi /\ is_u32 issr;
  na_win : is_u32 (recv_window ci) /\ is_u32 (recv_window cr);
  na_cfg : cfg_ok ci /\ cfg_ok cr
}.

Lemma blank_new w : is_u32 w -> blank (rx_new w).
Proof.
  intros Hw. split; [|done]. split_and!; try done; cbn; unfold is_u32, MAX_INFLIGHT_BYTES in *; lia.
Qed.

Lemma dir_start ini B e e' w :
  started B e -> iss (tx e) = isn_of ini B -> rx e' = rx_new w -> is_u32 w ->
  phase e' = (if ini then Listen else SynSent) -> fin_requested (tx e) = false ->
  forall u, dir_inv ini B (side_start e B) (side_start e' u).
Proof.
  intros Hst Hi Hrx Hw Hp Hf u. pose proof (blank_new w Hw) as Hb. rewrite <- Hrx in Hb.
  assert (reached B (side_start e' u) = B) as HR by by apply blank_reached.
  split; cbn; rewrite ?HR; [done|by rewrite Hp; destruct ini| |constructor|constructor| |].
  - unfold finished. cbn. rewrite Hf. apply started_inv; [|done]. by split.
  - left. cbn. rewrite Hp. split_and!; [by destruct ini|done|done].
  - rewrite Hrx. by intros [?|[? ?]].
Qed.

Lemma net_inv_start sid ci cr now issi issr :
  net_args sid ci cr issi issr -> net_inv (issi + 1) issr (net_start sid ci cr now issi issr).
Proof.
  intros [H1 [H2 H3] [H4 H5] [H6 H7]]. split; cbn.
  - eapply dir_start; try done; [|cbn; unfold isn_of].
    + exists sid, ci, now, issi. split_and!; auto.
    + rewrite wrap32_id; unfold is_u32 in *; lia.
  - eapply dir_start; try done; [|cbn; unfold isn_of].
    + exists sid, cr, now, issr. split_and!; auto.
    + by rewrite wrap32_id.
  - split; apply created_ok; [exists sid, ci, now, issi|exists sid, cr, now, issr]; split_and!; auto.
  - by split.
Qed.

Lemma net_inv_reach sid ci cr now issi issr n :
  net_args sid ci cr issi issr ->
  rtc (net_step (issi + 1) issr) (net_start sid ci cr now issi issr) n -> net_inv (issi + 1) issr n.
Proof.
  intros Ha Hr. pose proof (net_inv_start sid ci cr now issi issr Ha) as H.
  induction Hr; [done|]. apply IHHr. by eapply net_inv_step.
Qed.

(** What [r] has received of what [s] wrote. *)
Lemma dir_delivery ini B s r : dir_inv ini B s r ->
  (ef_read (eff r) ++ read_buf (rx (eng r))) `prefix_of` written s /\
  (rx_eof (rx (eng r)) = true ->
   finished s = true /\ ef_read (eff r) ++ read_buf (rx (eng r)) = written s).
Proof.
  intros [_ _ _ _ _ D6 D7]. destruct D6 as [(_ & Hb & Hr)|[_ Hrun]].
  - destruct Hb as [(H1 & H2 & _) [He _]]. rewrite Hr, H2, He. split; [apply prefix_nil|done].
  - split; [by eapply holds_genuine_prefix, Hrun|]. intros He. split; [auto|].
    by apply (ri_eof _ _ _ Hrun).
Qed.

(** C1. End-to-end integrity.  Two engines are connected by a network that loses, repeats, delays
    and reorders cells at will; the applications write, read, finish and reset and the timers fire
    at any time.  As long as payload does not overtake the handshake and no cell arrives 2^31
    positions late, what either application has read, followed by what waits in its read buffer,
    is a prefix of what the other one wrote; and once an end of stream is reported the writer has
    finished and the reader has everything, in both directions. *)
Theorem stream_integrity (sid : Z) (ci cr : Config) (now issi issr : Z) (i r : Side)
    (Hargs : net_args sid ci cr issi issr)
    (Hrun : rtc (net_step (issi + 1) issr) (net_start sid ci cr now issi issr) (i, r)) :
  ((ef_read (eff r) ++ read_buf (rx (eng r))) `prefix_of` written i /\
   (rx_eof (rx (eng r)) = true ->
    finished i = true /\ ef_read (eff r) ++ read_buf (rx (eng r)) = written i)) /\
  ((ef_read (eff i) ++ read_buf (rx (eng i))) `prefix_of` written r /\
   (rx_eof (rx (eng i)) = true ->
    finished r = true /\ ef_read (eff i) ++ read_buf (rx (eng i)) = written r)).
Proof.
  destruct (net_inv_reach _ _ _ _ _ _ _ Hargs Hrun) as [H1 H2 _ _].
  split; by eapply dir_delivery.
Qed.

(** Neither engine of a connection ever fails: in every reachable state of the network every
    admissible operation of either end returns. *)
Theorem network_total (sid : Z) (ci cr : Config) (now issi issr : Z) (i r : Side) (op : Op)
    (Hargs : net_args sid ci cr issi issr)
    (Hrun : rtc (net_step (issi + 1) issr) (net_start sid ci cr now issi issr) (i, r)) :
  (admissible (issi + 1) issr i r op -> exists i', side_step issr i op = Some i') /\
  (admissible issr (issi + 1) r i op -> exists r', side_step (issi + 1) r op = Some r').
Proof.
  destruct (net_inv_reach _ _ _ _ _ _ _ Hargs Hrun) as [H1 H2 [H3 H4] _]. cbn [fst snd] in *.
  unfold side_step. split; intros Ha.
  - destruct (admissible_orderly _ _ _ _ _ (sent_wf _ _ _ _ H2) Ha) as [Ho _].
    destruct (step_ok _ _ H3 Ho) as (e' & w & -> & _). eauto.
  - destruct (admissible_orderly _ _ _ _ _ (sent_wf _ _ _ _ H1) Ha) as [Ho _].
    destruct (step_ok _ _ H4 Ho) as (e' & w & -> & _). eauto.
Qed.

(** ** A concrete connection *)

Definition admissibleb (B Bp : Z) (s p : Side) (op : Op) : bool :=
  match op with
  | OpCell cell _ =>
      existsb (fun fp => bool_decide (cell = encode fp.1) &&
        match fp.1 with
        | Data _ _ _ _ | Fin _ _ =>
            negb (handshaking (phase (eng s))) && (reached Bp s - M31 <? fp.2)
        | Ack _ _ _ _ => reached B p - M31 <? fp.2
        | _ => true
        end) (sent p)
  | OpReset reason => (0 <=? reason) && (reason <? 256)
  | OpRead len => 0 <=? len
  | _ => true
  end.

Lemma admissibleb_spec B Bp s p op : admissibleb B Bp s p op = true -> admissible B Bp s p op.
Proof.
  destruct op; cbn; try done; try (unfold is_u8; lia).
  intros ([f P] & Hin & H)%existsb_exists. apply list_elem_of_In in Hin. cbn in H.
  apply andb_true_iff in H as [He%bool_decide_eq_true H]. exists f, P. split; [done|].
  split; [done|]. destruct f; try done; try lia; (apply andb_true_iff in H as [H1%negb_true_iff H2]; split; [done|lia]).
Qed.

(** A run by a list of operations, [true] standing for the initiator. *)
Fixpoint net_run (Bi Br : Z) (n : Side * Side) (ops : list (bool * Op)) : option (Side * Side) :=
  match ops with
  | [] => Some n
  | (b, op) :: ops =>
      if b then
        if admissibleb Bi Br n.1 n.2 op then
          i' ← side_step Br n.1 op; net_run Bi Br (i', n.2) ops
        else None
      else
        if admissibleb Br Bi n.2 n.1 op then
          r' ← side_step Bi n.2 op; net_run Bi Br (n.1, r') ops
        else None
  end.

Lemma net_run_steps Bi Br ops : forall n n',
  net_run Bi Br n ops = Some n' -> rtc (net_step Bi Br) n n'.
Proof.
  induction ops as [|[b op] ops IH]; intros [i r] n'; cbn [net_run fst snd];
    [intros [= <-]; apply rtc_refl|].
  destruct b; destruct (admissibleb _ _ _ _ _) eqn:Ea; try done; apply admissibleb_spec in Ea;
    destruct (side_step _ _ _) as [x|] eqn:Es; try done; cbn [mbind option_bind]; intros H;
    (eapply rtc_l; [|by apply IH]).
  - by eapply step_initiator.
  - by eapply step_responder.
Qed.

(** The initiator writes four bytes in two segments over a wrapping counter and finishes; the
    network reverses them, the FIN first, and repeats one. *)
Definition demo_ops : list (bool * Op) :=
  let c := encode in
  [(true, OpPoll 0 true); (false, OpCell (c (Syn 7 4294967294 16758784)) 1); (false, OpPoll 2 true);
   (true, OpCell (c (SynAck 7 500 16758784 4294967295)) 3); (true, OpWrite [x61; x62]);
   (true, OpPoll 4 true); (true, OpWrite [x63; x64]); (true, OpFinish); (true, OpPoll 5 true);
   (true, OpPoll 6 true); (false, OpCell (c (Fin 7 3)) 7);
   (false, OpCell (c (Data 7 1 16758784 [x63; x64])) 8);
   (false, OpCell (c (Data 7 4294967295 16758784 [x61; x62])) 9);
   (false, OpCell (c (Data 7 1 16758784 [x63; x64])) 10); (false, OpRead 3)].

Lemma demo_args : net_args 7 Config_default Config_default 4294967294 500.
Proof. by split. Qed.

Lemma stream_integrity_witness :
  exists i r, rtc (net_step 4294967295 500)
      (net_start 7 Config_default Config_default 0 4294967294 500) (i, r) /\
    ef_read (eff r) = [x61; x62; x63] /\ ef_read (eff r) ++ read_buf (rx (eng r)) = written i.
Proof.
  set (n0 := net_start 7 Config_default Config_default 0 4294967294 500).
  assert ((fun n : Side * Side => (ef_read (eff n.2), rx_eof (rx (eng n.2)))) <$>
    net_run 4294967295 500 n0 demo_ops = Some ([x61; x62; x63], true)) as Hv
    by (vm_compute; reflexivity).
  destruct (net_run 4294967295 500 n0 demo_ops) as [[i r]|] eqn:Hr; [|discriminate Hv].
  injection Hv as Hv He. apply net_run_steps in Hr.
  destruct (stream_integrity 7 Config_default Config_default 0 4294967294 500 i r demo_args Hr)
    as [[_ H] _].
  clearbody n0. exists i, r. split; [exact Hr|]. split; [exact Hv|]. by apply H.
Defined.

Lemma network_total_witness :
  exists i r r', rtc (net_step 4294967295 500)
      (net_start 7 Config_default Config_default 0 4294967294 500) (i, r) /\
    side_step 4294967295 r (OpCell (encode (Fin 7 3)) 11) = Some r'.
Proof.
  set (n0 := net_start 7 Config_default Config_default 0 4294967294 500).
  assert ((fun n : Side * Side => admissibleb 500 4294967295 n.2 n.1 (OpCell (encode (Fin 7 3)) 11)) <$>
    net_run 4294967295 500 n0 demo_ops = Some true) as Hv by (vm_compute; reflexivity).
  destruct (net_run 4294967295 500 n0 demo_ops) as [[i r]|] eqn:Hr; [|discriminate Hv].
  apply net_run_steps in Hr. apply (inj Some) in Hv. apply admissibleb_spec in Hv.
  destruct (network_total 7 Config_default Config_default 0 4294967294 500 i r
    (OpCell (encode (Fin 7 3)) 11) demo_args Hr) as [_ H]. destruct (H Hv) as [r' Hr'].
  clearbody n0. exists i, r, r'. split; [exact Hr|exact Hr'].
Defined.
