(* ===== verification/Crypto.v ===== *)
(** * Cryptographic primitives

    The primitives the crates take from third-party libraries, as interfaces: HKDF-SHA256, X25519,
    ML-KEM-768, ChaCha20-Poly1305, ChaCha20, BLAKE3 and the source of randomness.  The components that use
    them are proved against these classes; the classes of laws state their documented behaviour,
    and the toy instances at the end show that the laws can hold. *)

From S2P Require Import Prelude.

(** A key, a public key, a shared secret: bytes. *)
Abbreviation Key := (list byte) (only parsing).

(** [hkdf::Hkdf::<Sha256>]: extract-then-expand ([new] then [expand]) and expand alone
    ([from_prk] then [expand]); the last argument is the length of the output. *)
Class Hkdf := {
  hkdf : Key -> list byte -> list byte -> Z -> Key;
  hkdf_expand : Key -> list byte -> Z -> Key
}.

(** [x25519_dalek]: the public key of a secret, the shared secret, and whether it was
    contributory. *)
Class X25519 := {
  x25519_public : Key -> Key;
  x25519_dh : Key -> Key -> Key;
  x25519_contributory : Key -> bool
}.

(** Both ends of an exchange compute the same secret; a public key has 32 bytes. *)
Class X25519Laws `{X25519} := {
  x25519_agree a b : x25519_dh a (x25519_public b) = x25519_dh b (x25519_public a);
  x25519_public_len a : zlen (x25519_public a) = 32
}.

(** An exchange with a generated public key is contributory: it is not of low order. *)
Class X25519Honest `{X25519} :=
  x25519_honest a b : x25519_contributory (x25519_dh a (x25519_public b)) = true.

(** [ml_kem]: the encapsulation key of a seed, whether bytes are an encapsulation key, the
    deterministic encapsulation (ciphertext, shared secret), and decapsulation with a seed. *)
Class MlKem := {
  mlkem_ek : Key -> Key;
  mlkem_valid : Key -> bool;
  mlkem_encaps : Key -> Key -> Key * Key;
  mlkem_decaps : Key -> Key -> Key
}.

(** A generated key is valid, decapsulation inverts encapsulation, and the sizes are those of
    ML-KEM-768. *)
Class MlKemLaws `{MlKem} := {
  mlkem_ek_valid seed : mlkem_valid (mlkem_ek seed) = true;
  mlkem_ek_len seed : zlen (mlkem_ek seed) = 1184;
  mlkem_ct_len ek m : zlen (mlkem_encaps ek m).1 = 1088;
  mlkem_correct seed m : mlkem_decaps seed (mlkem_encaps (mlkem_ek seed) m).1 =
                         (mlkem_encaps (mlkem_ek seed) m).2
}.

(** [chacha20poly1305]: key, nonce, associated data, then the message or the ciphertext. *)
Class Aead := {
  aead_seal : Key -> Key -> list byte -> list byte -> option (list byte);
  aead_open : Key -> Key -> list byte -> list byte -> option (list byte)
}.

(** What was sealed opens, under the same key, nonce and associated data, and carries a tag of
    sixteen bytes. *)
Class AeadLaws `{Aead} := {
  aead_correct k n aad m c : aead_seal k n aad m = Some c -> aead_open k n aad c = Some m;
  aead_tag k n aad m c : aead_seal k n aad m = Some c -> zlen c = zlen m + 16
}.

(** Sealing fails only on messages longer than any of the program's (RFC 8439 allows 2^38 - 64 bytes). *)
Class AeadTotal `{Aead} :=
  aead_total k n aad m : zlen m <= 2 ^ 32 -> is_Some (aead_seal k n aad m).

(** [blake3::hash]: the 32-byte digest of a message. *)
Class Blake3 := blake3 : list byte -> list byte.

(** [blake3::derive_key]: a 32-byte key from a context and key material. *)
Class Blake3Kdf := blake3_derive_key : list byte -> list byte -> list byte.

Class Blake3KdfLaws `{Blake3Kdf} :=
  blake3_derive_key_len context material : zlen (blake3_derive_key context material) = 32.

(** [chacha20]: the keystream of a key and a nonce, of the given length. *)
Class ChaCha20 := chacha20 : Key -> Key -> nat -> list byte.

Class ChaCha20Laws `{ChaCha20} := chacha20_len k n len : length (chacha20 k n len) = len.

(** A source of randomness ([RatchetRng], [OsRng]): fill a buffer of the given length. *)
Class Rng (R : Type) := fill_bytes : R -> Z -> Key * R.

Class RngLaws (R : Type) `{Rng R} := fill_bytes_len r n : 0 <= n -> zlen (fill_bytes r n).1 = n.

(** ** Toy instances

    Enough structure to satisfy the laws and to run the definitions; nothing about secrecy. *)

Module Toy.

Definition hkdf_toy : Hkdf := {|
  hkdf := fun salt ikm info n => be_bytes (Z.to_nat n) (5 * from_be salt + 3 * from_be ikm + from_be info);
  hkdf_expand := fun prk info n => be_bytes (Z.to_nat n) (3 * from_be prk + from_be info)
|}.

Definition pad (n : nat) (l : list byte) : list byte := take n (l ++ be_bytes n 0).

Lemma length_pad n l : length (pad n l) = n.
Proof. unfold pad. rewrite length_take, length_app, length_be_bytes. lia. Qed.

Definition x25519_toy : X25519 := {|
  x25519_public := fun sk => pad 32 sk;
  x25519_dh := fun sk pk => be_bytes 32 (from_be (pad 32 sk) + from_be pk);
  x25519_contributory := fun _ => true
|}.

Lemma x25519_toy_laws : @X25519Laws x25519_toy.
Proof.
  constructor.
  - intros a b. cbn -[pad]. f_equal. apply Z.add_comm.
  - intros a. cbn -[pad]. unfold zlen. by rewrite length_pad.
Qed.

Lemma x25519_toy_honest : @X25519Honest x25519_toy.
Proof. done. Qed.

Definition mlkem_toy : MlKem := {|
  mlkem_ek := fun seed => pad 1184 seed;
  mlkem_valid := fun _ => true;
  mlkem_encaps := fun ek m => (pad 32 m ++ be_bytes 1056 0, pad 32 m);
  mlkem_decaps := fun seed ct => take 32 ct
|}.

Lemma mlkem_toy_laws : @MlKemLaws mlkem_toy.
Proof.
  constructor; [done|..]; cbn -[pad be_bytes].
  - intros seed. unfold zlen. by rewrite length_pad.
  - intros ek m. unfold zlen. by rewrite length_app, length_pad, length_be_bytes.
  - intros seed m. by rewrite take_app_le, take_ge by (rewrite length_pad; lia).
Qed.

Definition tag_toy (k n aad m : list byte) : list byte :=
  be_bytes 16 (from_be k + 3 * from_be n + 5 * from_be aad + 7 * from_be m).

Definition aead_toy : Aead := {|
  aead_seal := fun k n aad m => Some (tag_toy k n aad m ++ m);
  aead_open := fun k n aad c =>
    let m := drop 16 c in if decide (take 16 c = tag_toy k n aad m) then Some m else None
|}.

Lemma aead_toy_laws : @AeadLaws aead_toy.
Proof.
  constructor; intros k n aad m c E; change (Some (tag_toy k n aad m ++ m) = Some c) in E;
    apply (inj Some) in E; subst c.
  - assert (length (tag_toy k n aad m) = 16%nat) as Hl by apply length_be_bytes.
    unfold aead_open, aead_toy. cbv zeta.
    rewrite take_app_length', drop_app_length' by done. by rewrite decide_True.
  - rewrite zlen_app. unfold tag_toy. rewrite zlen_be_bytes. lia.
Qed.

Lemma aead_toy_total : @AeadTotal aead_toy.
Proof. intros k n aad m _. by eexists. Qed.

Definition blake3_toy : Blake3 := fun l => be_bytes 32 (from_be l).

Definition blake3_kdf_toy : Blake3Kdf := fun c m => be_bytes 32 (from_be c + from_be m).

Lemma blake3_kdf_toy_laws : @Blake3KdfLaws blake3_kdf_toy.
Proof. intros c m. apply zlen_be_bytes. Qed.

Definition chacha20_toy : ChaCha20 := fun k n len => be_bytes len (7 * from_be k + from_be n).

Lemma chacha20_toy_laws : @ChaCha20Laws chacha20_toy.
Proof. intros k n len. apply length_be_bytes. Qed.

Definition rng_toy : Rng Z := fun r n => (be_bytes (Z.to_nat n) r, r + 1).

Lemma rng_toy_laws : @RngLaws Z rng_toy.
Proof. intros r n Hn. cbn. rewrite zlen_be_bytes. lia. Qed.

End Toy.
