(* ===== verification/RatchetTree.v ===== *)
(** * The key tree of a ratchet chain

    crates/veil-ratchet/src/tree.rs: the message keys of a chain are the 2^32 leaves of a binary
    tree of key derivations.  What a party keeps is a set of nodes, the [Holes], from which exactly
    the leaves not yet used can be derived. *)

From S2P Require Import Prelude BTree Crypto.

Definition TREE_DEPTH : Z := 32.
Definition MAX_TREE_NODES_PER_CHAIN : Z := 2048.
Definition MAX_TREE_NODES_TOTAL : Z := 2 * MAX_TREE_NODES_PER_CHAIN.

(** The leaves below a node of the given depth. *)
Definition span (depth : Z) : Z := Z.shiftl 1 (TREE_DEPTH - depth).

(** [nodes: BTreeMap<u32, (u8, key)>], sorted by first leaf. *)
Abbreviation Holes := (list (Z * (Z * Key))) (only parsing).

Section tree.
Context `{Hkdf}.

(** The labels of the source's INFO_TREE_LEFT and INFO_TREE_RIGHT. *)
Definition INFO_TREE_LEFT : list byte :=
  [x76; x65; x69; x6c; x2e; x72; x61; x74; x63; x68; x65; x74; x2e; x76; x31; x2e; x74; x72; x65; x65;
   x2e; x30].
Definition INFO_TREE_RIGHT : list byte :=
  [x76; x65; x69; x6c; x2e; x72; x61; x74; x63; x68; x65; x74; x2e; x76; x31; x2e; x74; x72; x65; x65;
   x2e; x31].

Definition child (node : Key) (right : bool) : Key :=
  hkdf_expand node (if right then INFO_TREE_RIGHT else INFO_TREE_LEFT) 32.

(** ** Operations *)

Definition holes_root (chain_key : Key) : Holes := bt_insert 0 (0, chain_key) [].

Inductive NodesError := NodeTooDeep | NodeNotAligned | DuplicateNode | OverlappingNodes.

Fixpoint from_nodes_insert (l : list (Z * Z * Key)) (map : Holes) : NodesError + Holes :=
  match l with
  | [] => inr map
  | (start, depth, key) :: l =>
      if TREE_DEPTH <? depth then inl NodeTooDeep
      else if negb (start mod span depth =? 0) then inl NodeNotAligned
      else if is_some (bt_get start map) then inl DuplicateNode
      else from_nodes_insert l (bt_insert start (depth, key) map)
  end.

Fixpoint from_nodes_overlap (map : Holes) (end_ : Z) : bool :=
  match map with
  | [] => false
  | (start, (depth, _)) :: map =>
      if start <? end_ then true else from_nodes_overlap map (start + span depth)
  end.

Definition from_nodes (l : list (Z * Z * Key)) : NodesError + Holes :=
  match from_nodes_insert l [] with
  | inl e => inl e
  | inr map => if from_nodes_overlap map 0 then inl OverlappingNodes else inr map
  end.

Definition holes_nodes (h : Holes) : list (Z * Z * Key) := map (fun e => (e.1, e.2.1, e.2.2)) h.

Definition len_below (h : Holes) (index : Z) : Z :=
  zlen (List.filter (fun e => e.1 + span e.2.1 <=? index) (bt_below index h)).

Definition covering (h : Holes) (index : Z) : option (Z * Z) :=
  '(start, (depth, _)) ← last (bt_below (index + 1) h);
  if index <? start + span depth then Some (start, depth) else None.

(** The loop of [take_leaf] over the levels [level .. TREE_DEPTH]. *)
Fixpoint descend (n : nat) (level at_ : Z) (key : Key) (index : Z) (h : Holes) : Key * Holes :=
  match n with
  | O => (key, h)
  | S n =>
      let right := Z.land (Z.shiftr index (TREE_DEPTH - 1 - level)) 1 =? 1 in
      let half := wrap32 (span (level + 1)) in
      let left_child := child key false in
      let right_child := child key true in
      if right then
        descend n (level + 1) (add32 at_ half) right_child index
          (bt_insert at_ (level + 1, left_child) h)
      else
        descend n (level + 1) at_ left_child index
          (bt_insert (add32 at_ half) (level + 1, right_child) h)
  end.

Definition take_leaf (h : Holes) (index : Z) : option (Key * Holes) :=
  '(start, depth) ← covering h index;
  '(_, key) ← bt_get start h;
  Some (descend (Z.to_nat (TREE_DEPTH - depth)) depth start key index (bt_remove start h)).

(** [split_into]; it recurses at most to the leaves. *)
Fixpoint split_into (n : nat) (start depth : Z) (key : Key) (lo hi : Z) (h : Holes) : Holes :=
  match n with
  | O => h
  | S n =>
      let end_ := start + span depth in
      if (end_ <=? lo) || (hi <=? start) then h
      else if (lo <=? start) && (end_ <=? hi) then bt_insert start (depth, key) h
      else
        let half := span (depth + 1) in
        let h := split_into n start (depth + 1) (child key false) lo hi h in
        split_into n (wrap32 (start + half)) (depth + 1) (child key true) lo hi h
  end.

Definition retain_step (lo hi : Z) (h : Holes) (start : Z) : option Holes :=
  '(depth, key) ← bt_get start h;
  let end_ := start + span depth in
  Some (if (end_ <=? lo) || (hi <=? start) then bt_remove start h
        else if (start <? lo) || (hi <? end_) then
          split_into (S (Z.to_nat (TREE_DEPTH - depth))) start depth key lo hi (bt_remove start h)
        else h).

Fixpoint retain_loop (lo hi : Z) (starts : list Z) (h : Holes) : option Holes :=
  match starts with
  | [] => Some h
  | start :: starts => h ← retain_step lo hi h start; retain_loop lo hi starts h
  end.

(** [retain]; [None] is the panic of an index that is not there. *)
Definition retain (h : Holes) (lo hi : Z) : option Holes := retain_loop lo hi (map fst h) h.

End tree.
