(* ===== verification/RatchetTreeInv.v ===== *)
(** * Correctness of the key tree

    The [Holes] of RatchetTree.v hold exactly the unused leaves: a leaf can be taken once, always
    gives the key the tree assigns to it, and trimming keeps exactly the leaves asked for. *)

From S2P Require Import Prelude BTree Crypto RatchetTree.

Lemma span_pow d : 0 <= d <= 32 -> span d = 2 ^ (32 - d).
Proof. intros. unfold span, TREE_DEPTH. rewrite Z.shiftl_mul_pow2 by lia. lia. Qed.

Lemma span_pos d : 0 <= d <= 32 -> 0 < span d.
Proof. intros. rewrite span_pow by lia. apply Z.pow_pos_nonneg; lia. Qed.

Lemma span_half d : 0 <= d < 32 -> span d = 2 * span (d + 1).
Proof.
  intros. rewrite !span_pow by lia. rewrite <- Z.pow_succ_r by lia. f_equal. lia.
Qed.

Lemma span_le d : 0 <= d <= 32 -> span d <= M32.
Proof.
  intros. rewrite span_pow by lia. change M32 with (2 ^ 32). apply Z.pow_le_mono_r; lia.
Qed.

Lemma span_leaf : span 32 = 1.
Proof. done. Qed.

Lemma span_root : span 0 = M32.
Proof. done. Qed.

(** A node aligned to its depth. *)
Definition aligned (s d : Z) : Prop := 0 <= d <= 32 /\ 0 <= s /\ exists q, s = q * span d.

Lemma aligned_child s d : aligned s d -> d < 32 ->
  aligned s (d + 1) /\ aligned (s + span (d + 1)) (d + 1).
Proof.
  intros (Hd & Hs & q & ->) Hlt. pose proof (span_half d ltac:(lia)) as E.
  pose proof (span_pos (d + 1) ltac:(lia)). rewrite E in *.
  split; (split; [lia|]); (split; [lia|]); [exists (2 * q)|exists (2 * q + 1)]; lia.
Qed.

(** A bit, read the way the source does. *)
Lemma bit_div i n : 0 <= n -> (Z.land (Z.shiftr i n) 1 =? 1) = ((i / 2 ^ n) mod 2 =? 1).
Proof. intros. rewrite (Z.land_ones _ 1), Z.shiftr_div_pow2 by lia. done. Qed.

(** Inside an aligned node the next bit of a leaf says which half it is in. *)
Lemma bit_half s d i : aligned s d -> d < 32 -> s <= i < s + span d ->
  (Z.land (Z.shiftr i (TREE_DEPTH - 1 - d)) 1 =? 1) = (s + span (d + 1) <=? i).
Proof.
  intros (Hd & Hs & q & ->) Hlt Hi. rewrite (span_half d) in * by lia.
  rewrite bit_div by (unfold TREE_DEPTH; lia).
  replace (2 ^ (TREE_DEPTH - 1 - d)) with (span (d + 1))
    by (rewrite span_pow by lia; unfold TREE_DEPTH; f_equal; lia).
  pose proof (span_pos (d + 1) ltac:(lia)) as Hp. set (p := span (d + 1)) in *. clearbody p.
  destruct (Z.leb_spec (q * (2 * p) + p) i) as [Hr|Hr].
  - replace (i / p) with (2 * q + 1); [|apply Z.div_unique with (i - (2 * q + 1) * p); lia].
    apply Z.eqb_eq. mlia.
  - replace (i / p) with (2 * q); [|apply Z.div_unique with (i - 2 * q * p); lia].
    apply Z.eqb_neq. mlia.
Qed.

Section inv.
Context `{Hkdf}.

(** ** The keys of the tree *)

(** The key of the node of depth [d] above the leaf [s]. *)
Fixpoint node_key (root : Key) (s : Z) (d : nat) : Key :=
  match d with
  | O => root
  | S d => child (node_key root s d)
             (Z.land (Z.shiftr s (TREE_DEPTH - 1 - Z.of_nat d)) 1 =? 1)
  end.

Definition leaf_key (root : Key) (i : Z) : Key := node_key root i 32.

(** Leaves below the same node have the same key at its depth. *)
Lemma node_key_ext root s i d :
  aligned s (Z.of_nat d) -> s <= i < s + span (Z.of_nat d) -> node_key root i d = node_key root s d.
Proof.
  enough (forall k s i, (d <= k)%nat -> aligned s (Z.of_nat k) -> s <= i < s + span (Z.of_nat k) ->
    node_key root i d = node_key root s d) as Hgo by eauto.
  clear s i. induction d as [|d IH]; intros k s i Hk Ha Hi; [done|]. cbn [node_key].
  rewrite (IH k s i) by (lia || done). f_equal.
  (* the bit above an aligned node is the same for all its leaves *)
  destruct Ha as (Hd & Hs & q & ->). rewrite span_pow in Hi by lia. rewrite span_pow by lia.
  rewrite !bit_div by (unfold TREE_DEPTH; lia). unfold TREE_DEPTH.
  replace (32 - 1 - Z.of_nat d) with ((32 - Z.of_nat k) + (Z.of_nat k - 1 - Z.of_nat d)) by lia.
  pose proof (Z.pow_pos_nonneg 2 (32 - Z.of_nat k) ltac:(lia) ltac:(lia)) as Hp.
  rewrite !Z.pow_add_r, <- !Z.div_div by lia. rewrite Z.div_mul by lia.
  replace (i / 2 ^ (32 - Z.of_nat k)) with q; [done|].
  apply Z.div_unique with (i - q * 2 ^ (32 - Z.of_nat k)); lia.
Qed.

(** The keys of the two halves of a node. *)
Lemma node_key_children root s d :
  aligned s (Z.of_nat d) -> (d < 32)%nat ->
  node_key root s (S d) = child (node_key root s d) false /\
  node_key root (s + span (Z.of_nat d + 1)) (S d) = child (node_key root s d) true.
Proof.
  intros Ha Hd. pose proof (span_half (Z.of_nat d) ltac:(lia)) as E.
  pose proof (span_pos (Z.of_nat d + 1) ltac:(lia)). cbn [node_key].
  rewrite !(bit_half s (Z.of_nat d)) by (done || lia).
  rewrite (node_key_ext root s (s + _) d) by (done || lia). split; f_equal; lia.
Qed.

(** ** The invariant *)

Definition covers (e : Z * (Z * Key)) (i : Z) : Prop := e.1 <= i < e.1 + span e.2.1.

(** The leaves that can still be derived. *)
Definition avail (h : Holes) (i : Z) : Prop := exists e, e ∈ h /\ covers e i.

Record shape (h : Holes) : Prop := {
  sh_sorted : bt_sorted h;
  sh_node : forall s d k, (s, (d, k)) ∈ h -> aligned s d /\ s < M32;
  sh_disjoint : forall e e' i, e ∈ h -> e' ∈ h -> covers e i -> covers e' i -> e = e'
}.

(** The nodes carry the keys of the tree under [root]. *)
Record holes_ok (root : Key) (h : Holes) : Prop := {
  ho_shape : shape h;
  ho_keys : forall s d k, (s, (d, k)) ∈ h -> k = node_key root s (Z.to_nat d)
}.

Lemma aligned_end s d : aligned s d -> s < M32 -> s + span d <= M32.
Proof.
  intros (Hd & Hs & q & ->) Hlt. pose proof (span_pos d Hd). rewrite span_pow in * by lia.
  assert (2 ^ (32 - d) * 2 ^ d = M32) as E by (rewrite <- Z.pow_add_r by lia; change M32 with (2 ^ 32);
    f_equal; lia).
  set (p := 2 ^ (32 - d)) in *. set (t := 2 ^ d) in *. clearbody p t.
  assert (q < t) by (apply (Z.mul_lt_mono_pos_r p); lia). nia.
Qed.

Lemma covers_start s d k : aligned s d -> covers (s, (d, k)) s.
Proof. intros (Hd & _ & _). unfold covers. cbn. pose proof (span_pos d Hd). lia. Qed.

Lemma avail_u32 h i : shape h -> avail h i -> is_u32 i.
Proof.
  intros Hs ((s & d & k) & Hin & Hc). destruct (sh_node _ Hs _ _ _ Hin) as [Ha Hlt].
  pose proof (aligned_end s d Ha Hlt). destruct Ha as (_ & ? & _). unfold covers in Hc. cbn in Hc.
  unfold is_u32. lia.
Qed.

Lemma shape_nil : shape [].
Proof. split; [constructor|..]; intros *; by intros ?%elem_of_nil. Qed.

Lemma shape_NoDup h : shape h -> NoDup h.
Proof.
  intros Hs. pose proof (sh_sorted _ Hs) as Hst. clear Hs.
  induction Hst as [|a l _ IH Ha]; [constructor|]. constructor; [|done].
  intros Hin. rewrite Forall_forall in Ha. specialize (Ha _ Hin). lia.
Qed.

Section insert.
Context (h : Holes) (s d : Z) (k : Key).
Context (Hs : shape h) (Ha : aligned s d) (Hlt : s < M32).
Context (Hfree : forall i, s <= i < s + span d -> ~ avail h i).

Lemma insert_elem e : e ∈ bt_insert s (d, k) h <-> e = (s, (d, k)) \/ e ∈ h.
Proof.
  destruct e as [s' v']. rewrite elem_of_bt_insert; [|apply Hs|].
  - split; (intros [E|E]; [left|by right]); [by destruct E as [-> ->]|by injection E].
  - intros [d' k'] Hin. destruct (sh_node _ Hs _ _ _ Hin) as [Ha' _].
    pose proof (covers_start s d k Ha) as Hc.
    eapply Hfree; [exact Hc|]. eexists. split; [exact Hin|]. by apply covers_start.
Qed.

Lemma insert_shape : shape (bt_insert s (d, k) h).
Proof.
  split.
  - apply bt_insert_sorted, Hs.
  - intros s' d' k' [[= -> -> ->]|Hin]%insert_elem; [done|]. by eapply sh_node.
  - intros e e' i [->|He]%insert_elem [->|He']%insert_elem Hc Hc'; [done|..].
    + exfalso. by eapply Hfree; [exact Hc|exists e'].
    + exfalso. by eapply Hfree; [exact Hc'|exists e].
    + by eapply sh_disjoint.
Qed.

Lemma insert_avail i : avail (bt_insert s (d, k) h) i <-> s <= i < s + span d \/ avail h i.
Proof.
  split.
  - intros (e & [->|He]%insert_elem & Hc); [by left|]. right. by exists e.
  - intros [Hi|(e & He & Hc)].
    + exists (s, (d, k)). split; [apply insert_elem; by left|done].
    + exists e. split; [apply insert_elem; by right|done].
Qed.

Lemma insert_ok root : holes_ok root h -> k = node_key root s (Z.to_nat d) ->
  holes_ok root (bt_insert s (d, k) h).
Proof.
  intros [_ Hk] Hkey. split; [apply insert_shape|].
  intros s' d' k' [[= -> -> ->]|Hin]%insert_elem; [done|by apply Hk].
Qed.
End insert.

Section remove.
Context (h : Holes) (s d : Z) (k : Key).
Context (Hs : shape h) (Hin : (s, (d, k)) ∈ h).

Lemma remove_elem e : e ∈ bt_remove s h <-> e ∈ h /\ e <> (s, (d, k)).
Proof.
  pose proof (bt_remove_perm s (d, k) h (sh_sorted _ Hs) Hin) as Hp. split.
  - intros He. split; [by eapply elem_of_bt_remove|]. intros ->.
    pose proof (shape_NoDup h Hs) as Hnd.
    rewrite Hp in Hnd. by apply NoDup_cons in Hnd as [Hnd _].
  - intros [He Hne]. rewrite Hp in He. by apply elem_of_cons in He as [->|He].
Qed.

Lemma remove_shape : shape (bt_remove s h).
Proof.
  split.
  - apply bt_remove_sorted, Hs.
  - intros s' d' k' [? _]%remove_elem. by eapply sh_node.
  - intros e e' i [? _]%remove_elem [? _]%remove_elem. by apply (sh_disjoint _ Hs).
Qed.

Lemma remove_avail i : avail (bt_remove s h) i <-> avail h i /\ ~ s <= i < s + span d.
Proof.
  split.
  - intros (e & [He Hne]%remove_elem & Hc). split; [by exists e|]. intros Hi. apply Hne.
    by eapply (sh_disjoint _ Hs).
  - intros [(e & He & Hc) Hi]. exists e. split; [|done]. apply remove_elem. split; [done|].
    intros ->. by apply Hi.
Qed.

Lemma remove_ok root : holes_ok root h -> holes_ok root (bt_remove s h).
Proof.
  intros [_ Hk]. split; [apply remove_shape|]. intros s' d' k' [? _]%remove_elem. by apply Hk.
Qed.
End remove.

(** ** Taking a leaf *)

Lemma covering_Some h i s d :
  shape h -> covering h i = Some (s, d) -> exists k, (s, (d, k)) ∈ h /\ s <= i < s + span d.
Proof.
  intros Hs. unfold covering. destruct (last _) as [[s' [d' k]]|] eqn:El; [|done].
  cbn [mbind option_bind]. destruct (i <? s' + span d') eqn:E; [|done]. intros [= <- <-].
  apply last_elem_of, elem_of_bfilter in El as [Hin Hle]. cbn in Hle. exists k. split; [done|]. lia.
Qed.

Lemma covering_None h i : shape h -> covering h i = None -> ~ avail h i.
Proof.
  intros Hs Hn ((s & d & k) & Hin & Hc). unfold covers in Hc. cbn in Hc.
  assert ((s, (d, k)) ∈ bt_below (i + 1) h) as Hb.
  { apply elem_of_bfilter. split; [done|]. cbn. lia. }
  unfold covering in Hn. destruct (last _) as [[s' [d' k']]|] eqn:El.
  2: { apply last_None in El. rewrite El in Hb. by apply elem_of_nil in Hb. }
  pose proof (bt_sorted_last _ _ _ _ _ (bfilter_sorted _ _ (sh_sorted _ Hs)) El Hb) as Hle.
  apply last_elem_of, elem_of_bfilter in El as [Hin' Hlt]. cbn in Hlt.
  destruct (sh_node _ Hs _ _ _ Hin') as [Ha' _].
  assert ((s, (d, k)) = (s', (d', k'))) as [= -> -> ->].
  { apply (sh_disjoint _ Hs _ _ s'); [done|done| |by apply covers_start].
    unfold covers. cbn. lia. }
  cbn [mbind option_bind] in Hn. destruct (i <? s' + span d') eqn:E; [done|]. lia.
Qed.

Lemma half_u32 s d : aligned s d -> d < 32 -> s < M32 ->
  wrap32 (span (d + 1)) = span (d + 1) /\ add32 s (span (d + 1)) = s + span (d + 1) /\
  s + span (d + 1) < M32.
Proof.
  intros Ha Hd Hlt. pose proof (aligned_end s d Ha Hlt) as He. destruct Ha as (Hr & Hs & _).
  rewrite (span_half d) in He by lia. pose proof (span_pos (d + 1) ltac:(lia)).
  unfold add32, wrap32. rewrite !Z.mod_small by lia. lia.
Qed.

(** What taking the leaf [i] out of the open range [at_ .. at_ + len] gives, with [h] aside. *)
Definition took (root : Key) (i at_ len : Z) (h : Holes) (n : nat) (r : Key * Holes) : Prop :=
  r.1 = leaf_key root i /\ holes_ok root r.2 /\
  (forall j, avail r.2 j <-> avail h j \/ (at_ <= j < at_ + len /\ j <> i)) /\
  (length r.2 <= length h + n)%nat.

(** Setting one half [sa] of the range aside and taking the leaf out of the other half [so]. *)
Lemma took_half root i at_ d sa so h n f :
  holes_ok root h -> aligned sa (d + 1) -> sa < M32 -> 0 < span (d + 1) ->
  (sa = at_ /\ so = at_ + span (d + 1)) \/ (sa = at_ + span (d + 1) /\ so = at_) ->
  so <= i < so + span (d + 1) -> (forall j, at_ <= j < at_ + 2 * span (d + 1) -> ~ avail h j) ->
  (forall h', holes_ok root h' -> (forall j, so <= j < so + span (d + 1) -> ~ avail h' j) ->
    took root i so (span (d + 1)) h' n (f h')) ->
  took root i at_ (2 * span (d + 1)) h (S n)
    (f (bt_insert sa (d + 1, node_key root sa (Z.to_nat (d + 1))) h)).
Proof.
  intros Hok Hsa Hlt Hp Hcase Hi Hfree Hf. pose proof (ho_shape _ _ Hok) as Hs.
  set (ka := node_key root sa _).
  assert (forall j, sa <= j < sa + span (d + 1) -> ~ avail h j) as Hfa
    by (intros j Hj; apply Hfree; lia).
  pose proof (insert_avail h sa (d + 1) ka Hs Hsa Hfa) as Hav.
  destruct (Hf (bt_insert sa (d + 1, ka) h)) as (T1 & T2 & T3 & T4).
  - by apply insert_ok.
  - intros j Hj [?|Hj2]%Hav; [lia|]. eapply Hfree; [|exact Hj2]. lia.
  - pose proof (length_bt_insert sa (d + 1, ka) h). split_and!; [done|done| |lia].
    intros j. rewrite T3, Hav. split; [intros [[?|?]|?]|intros [?|?]]; auto; try (right; lia).
    destruct (decide (sa <= j < sa + span (d + 1))); [auto|]. right. lia.
Qed.

(** Descending from an open node [at_, level] to the leaf [i]: the halves set aside cover the
    other leaves of the node. *)
Lemma descend_spec root i : forall n level at_ key h,
  Z.of_nat n = 32 - level -> aligned at_ level -> at_ < M32 -> at_ <= i < at_ + span level ->
  holes_ok root h -> (forall j, at_ <= j < at_ + span level -> ~ avail h j) ->
  key = node_key root at_ (Z.to_nat level) ->
  took root i at_ (span level) h n (descend n level at_ key i h).
Proof.
  induction n as [|n IH]; intros level at_ key h Hn Ha Hlt Hi Hok Hfree Hkey; cbn [descend].
  { replace level with 32 in * by lia. rewrite span_leaf in *. assert (at_ = i) as -> by lia.
    split_and!; cbn; [done|done| |lia]. intros j. split; [auto|]. intros [?|?]; [done|lia]. }
  pose proof Ha as (Hr & _ & _). assert (0 <= level < 32) as Hlev by lia.
  destruct (half_u32 at_ level Ha ltac:(lia) Hlt) as (E1 & E2 & Hlt2). rewrite E1, E2.
  rewrite (bit_half at_ level i Ha ltac:(lia) Hi).
  pose proof (span_half level Hlev) as Esp. pose proof (span_pos (level + 1) ltac:(lia)).
  rewrite Esp in *. destruct (aligned_child at_ level Ha ltac:(lia)) as [Hal Har].
  assert (Z.of_nat (Z.to_nat level) = level) as El by lia.
  destruct (node_key_children root at_ (Z.to_nat level)) as [Kl Kr]; [by rewrite El|lia|].
  rewrite El in Kr. rewrite <- Z2Nat.inj_succ in Kl, Kr by lia. rewrite <- Z.add_1_r in Kl, Kr.
  subst key. rewrite <- Kl, <- Kr. destruct (Z.leb_spec (at_ + span (level + 1)) i) as [Hside|Hside].
  - apply (took_half root i at_ level at_ (at_ + span (level + 1)) h n (descend n (level + 1) _ _ i));
      auto; [lia|]. intros h' Hok' Hfree'. apply IH; try done; lia.
  - apply (took_half root i at_ level (at_ + span (level + 1)) at_ h n (descend n (level + 1) _ _ i));
      auto; [lia|]. intros h' Hok' Hfree'. apply IH; try done; lia.
Qed.

Lemma take_leaf_Some root h i :
  holes_ok root h -> avail h i ->
  exists h', take_leaf h i = Some (leaf_key root i, h') /\ holes_ok root h' /\
    (forall j, avail h' j <-> avail h j /\ j <> i) /\ (length h' <= length h + 31)%nat.
Proof.
  intros Hok Hi. pose proof (ho_shape _ _ Hok) as Hs. unfold take_leaf.
  destruct (covering h i) as [[s d]|] eqn:Ec; [|by apply covering_None in Ec].
  destruct (covering_Some h i s d Hs Ec) as (k & Hin & Hc). cbn [mbind option_bind].
  rewrite (proj2 (bt_get_Some s (d, k) h (sh_sorted _ Hs)) Hin). cbn [mbind option_bind].
  destruct (sh_node _ Hs _ _ _ Hin) as [Ha Hlt]. pose proof Ha as (Hd & _ & _).
  pose proof (remove_avail h s d k Hs Hin) as Hav.
  destruct (descend_spec root i (Z.to_nat (TREE_DEPTH - d)) d s k (bt_remove s h)) as (T1 & T2 & T3 & T4);
    try done; [unfold TREE_DEPTH; lia|by eapply remove_ok|intros j Hj [_ ?]%Hav; done|
    by apply (ho_keys _ _ Hok)|].
  destruct (descend _ _ _ _ _ _) as [k' h']. cbn [fst snd] in *. subst k'. exists h'.
  split_and!; [done|done| |].
  - intros j. rewrite T3, Hav. split; [|].
    + intros [[? ?]|[? ?]]; [split; [done|]; intros ->; done|].
      split; [by exists (s, (d, k))|done].
    + intros [Hj Hne]. destruct (decide (s <= j < s + span d)); auto.
  - pose proof (Permutation_length (bt_remove_perm s (d, k) h (sh_sorted _ Hs) Hin)) as Hl.
    cbn in Hl. unfold TREE_DEPTH in T4. lia.
Qed.

Lemma take_leaf_None root h i : holes_ok root h -> ~ avail h i -> take_leaf h i = None.
Proof.
  intros Hok Hi. unfold take_leaf. destruct (covering h i) as [[s d]|] eqn:Ec; [|done].
  destruct (covering_Some h i s d (ho_shape _ _ Hok) Ec) as (k & Hin & Hc).
  exfalso. apply Hi. by exists (s, (d, k)).
Qed.

(** ** Trimming *)

(** [h'] is [h] with the leaves of [s .. s + len] that lie in [lo .. hi] added. *)
Definition added (root : Key) (s len lo hi : Z) (h h' : Holes) : Prop :=
  holes_ok root h' /\ (forall e, e ∈ h -> e ∈ h') /\
  forall j, avail h' j <-> avail h j \/ (s <= j < s + len /\ lo <= j < hi).

Lemma split_into_spec root lo hi : forall n s d k h,
  Z.of_nat n = 33 - d -> aligned s d -> s < M32 -> holes_ok root h ->
  (forall j, s <= j < s + span d -> ~ avail h j) -> k = node_key root s (Z.to_nat d) ->
  added root s (span d) lo hi h (split_into n s d k lo hi h).
Proof.
  induction n as [|n IH]; intros s d k h Hn Ha Hlt Hok Hfree Hk.
  { destruct Ha as (? & _). lia. }
  cbn [split_into]. destruct ((s + span d <=? lo) || (hi <=? s)) eqn:E1.
  { split_and!; [done|done|]. intros j. split; [auto|]. intros [?|?]; [done|].
    apply orb_true_iff in E1. lia. }
  destruct ((lo <=? s) && (s + span d <=? hi)) eqn:E2.
  { to_prop. split_and!; [apply insert_ok; try done; apply Hok| |].
    { intros e He. apply insert_elem; [apply Hok|done|done|by right]. }
    intros j.
    rewrite (insert_avail h s d k (ho_shape _ _ Hok) Ha Hfree). split; intros [?|?]; auto; [right|left]; lia. }
  to_prop. pose proof Ha as (Hd & _ & _). destruct (decide (d = 32)) as [->|Hd32].
  { rewrite span_leaf in *. apply andb_false_iff in E2. lia. }
  assert (0 <= d < 32) as Hlev by lia.
  destruct (half_u32 s d Ha ltac:(lia) Hlt) as (_ & E3 & Hlt2). unfold add32 in E3. rewrite E3.
  pose proof (span_half d Hlev) as Esp. pose proof (span_pos (d + 1) ltac:(lia)).
  rewrite Esp in *. destruct (aligned_child s d Ha ltac:(lia)) as [Hal Har].
  assert (Z.of_nat (Z.to_nat d) = d) as El by lia.
  destruct (node_key_children root s (Z.to_nat d)) as [Kl Kr]; [by rewrite El|lia|].
  rewrite El in Kr. rewrite <- Z2Nat.inj_succ in Kl, Kr by lia. rewrite <- Z.add_1_r in Kl, Kr.
  subst k. rewrite <- Kl, <- Kr.
  destruct (IH s (d + 1) (node_key root s (Z.to_nat (d + 1))) h) as (Hok1 & Hm1 & Hav1); try done;
    [lia|intros j Hj; apply Hfree; lia|].
  set (h1 := split_into n s _ _ lo hi h) in *. clearbody h1.
  destruct (IH (s + span (d + 1)) (d + 1) (node_key root (s + span (d + 1)) (Z.to_nat (d + 1))) h1)
    as (Hok2 & Hm2 & Hav2); try done; [lia| |].
  { intros j Hj [Hj2|?]%Hav1; [|lia]. eapply Hfree; [|exact Hj2]. lia. }
  split_and!; [done|auto|]. intros j. rewrite Hav2, Hav1. split; [intros [[?|?]|?]|intros [?|?]]; auto;
    try (right; lia). destruct (decide (j < s + span (d + 1))); [left; right; lia|right; lia].
Qed.

(** One node trimmed: it is replaced by what it covers of [lo .. hi]. *)
Lemma retain_step_spec root lo hi h s d k :
  holes_ok root h -> (s, (d, k)) ∈ h ->
  exists h', retain_step lo hi h s = Some h' /\ added root s (span d) lo hi (bt_remove s h) h'.
Proof.
  intros Hok Hin. pose proof (ho_shape _ _ Hok) as Hs. unfold retain_step.
  rewrite (proj2 (bt_get_Some s (d, k) h (sh_sorted _ Hs)) Hin). cbn [mbind option_bind].
  eexists. split; [reflexivity|]. destruct (sh_node _ Hs _ _ _ Hin) as [Ha Hlt].
  pose proof (remove_avail h s d k Hs Hin) as Hav. pose proof (remove_ok h s d k Hs Hin root Hok) as Hok1.
  pose proof Ha as (Hd & _ & _).
  destruct ((s + span d <=? lo) || (hi <=? s)) eqn:E1.
  { split_and!; [done|done|]. intros j. split; [auto|]. intros [?|?]; [done|].
    apply orb_true_iff in E1. lia. }
  destruct ((s <? lo) || (hi <? s + span d)) eqn:E2.
  - apply split_into_spec; try done; [unfold TREE_DEPTH; lia| |by apply (ho_keys _ _ Hok)].
    intros j Hj [_ ?]%Hav. done.
  - to_prop. split_and!; [done|by intros e ?%elem_of_bt_remove|]. intros j. rewrite Hav. split.
    + intros Hj. destruct (decide (s <= j < s + span d)); [right; lia|by left].
    + intros [[? _]|[? _]]; [done|]. by exists (s, (d, k)).
Qed.

Lemma retain_loop_spec root lo hi : forall rest h,
  holes_ok root h -> (forall e, e ∈ rest -> e ∈ h) -> NoDup rest ->
  exists h', retain_loop lo hi (map fst rest) h = Some h' /\ holes_ok root h' /\
  forall j, avail h' j <-> avail h j /\ ((exists e, e ∈ rest /\ covers e j) -> lo <= j < hi).
Proof.
  induction rest as [|[s [d k]] rest IH]; intros h Hok Hsub Hnd; cbn [map retain_loop fst].
  { exists h. split_and!; [done|done|]. intros j. split; [|by intros [? _]].
    intros ?. split; [done|]. by intros (e & ?%elem_of_nil & _). }
  apply NoDup_cons in Hnd as [Hnin Hnd]. pose proof (Hsub (s, (d, k)) ltac:(left)) as Hin.
  pose proof (ho_shape _ _ Hok) as Hs.
  destruct (retain_step_spec root lo hi h s d k Hok Hin) as (h1 & -> & Hok1 & Hm1 & Hav1).
  cbn [mbind option_bind]. destruct (IH h1 Hok1) as (h' & Hr & Hok' & Hav'); [|done|].
  { intros e He. apply Hm1. apply (remove_elem h s d k Hs Hin). split; [apply Hsub; by right|].
    intros ->. done. }
  exists h'. split_and!; [done|done|]. intros j.
  rewrite Hav', Hav1, (remove_avail h s d k Hs Hin). split.
  - intros [Hj Hrest]. split; [destruct Hj as [[? _]|[? _]]; [done|by exists (s, (d, k))]|].
    intros (e & [->|He]%elem_of_cons & Hc); [|apply Hrest; by exists e].
    destruct Hj as [[_ Hj]|[_ Hj]]; [by destruct Hj|done].
  - intros [Hj Hall]. split.
    + destruct (decide (s <= j < s + span d)) as [Hc|Hc]; [right|left; done].
      split; [done|]. apply Hall. exists (s, (d, k)). split; [by left|done].
    + intros (e & He & Hc). apply Hall. exists e. split; [by right|done].
Qed.

Lemma retain_spec root h lo hi :
  holes_ok root h ->
  exists h', retain h lo hi = Some h' /\ holes_ok root h' /\
  forall j, avail h' j <-> avail h j /\ lo <= j < hi.
Proof.
  intros Hok. destruct (retain_loop_spec root lo hi h h Hok) as (h' & Hr & Hok' & Hav);
    [done|by apply shape_NoDup, (ho_shape root)|].
  exists h'. split_and!; [done|done|]. intros j. rewrite Hav. split; intros [Hj ?]; auto.
Qed.

Lemma holes_root_ok root : holes_ok root (holes_root root) /\
  forall j, avail (holes_root root) j <-> is_u32 j.
Proof.
  assert (aligned 0 0) as Ha by (split; [lia|]; split; [lia|by exists 0]).
  assert (forall i, 0 <= i < 0 + span 0 -> ~ avail [] i) as Hf.
  { intros i _ (e & ?%elem_of_nil & _). done. }
  split.
  - apply insert_ok; try done; [apply shape_nil|]. split; [apply shape_nil|].
    intros * ?%elem_of_nil. done.
  - intros j. unfold holes_root. rewrite (insert_avail [] 0 0 root shape_nil Ha Hf), span_root.
    unfold is_u32. split; [|by left]. intros [?|(e & ?%elem_of_nil & _)]; [lia|done].
Qed.

(** ** Runs *)

Inductive TreeOp := TakeLeaf (index : Z) | Retain (lo hi : Z).

(** A run of the tree: the result of every [take_leaf], in order; [None] is a panic. *)
Fixpoint tree_run (h : Holes) (ops : list TreeOp) : option (list (option Key) * Holes) :=
  match ops with
  | [] => Some ([], h)
  | TakeLeaf i :: ops =>
      match take_leaf h i with
      | Some (k, h') => '(out, h') ← tree_run h' ops; Some (Some k :: out, h')
      | None => '(out, h') ← tree_run h ops; Some (None :: out, h')
      end
  | Retain lo hi :: ops => h' ← retain h lo hi; tree_run h' ops
  end.

(** The same run on a set of unused leaves. *)
Fixpoint set_run (root : Key) (unused : Z -> bool) (ops : list TreeOp) :
    list (option Key) * (Z -> bool) :=
  match ops with
  | [] => ([], unused)
  | TakeLeaf i :: ops =>
      if unused i then
        let '(out, u) := set_run root (fun j => unused j && negb (j =? i)) ops in
        (Some (leaf_key root i) :: out, u)
      else let '(out, u) := set_run root unused ops in (None :: out, u)
  | Retain lo hi :: ops => set_run root (fun j => unused j && (lo <=? j) && (j <? hi)) ops
  end.

Lemma tree_run_refines root ops : forall h unused,
  holes_ok root h -> (forall j, avail h j <-> unused j = true) ->
  exists h', tree_run h ops = Some ((set_run root unused ops).1, h') /\ holes_ok root h' /\
    forall j, avail h' j <-> (set_run root unused ops).2 j = true.
Proof.
  induction ops as [|[i|lo hi] ops IH]; intros h unused Hok Hav; cbn [tree_run set_run].
  - by exists h.
  - destruct (unused i) eqn:Ei.
    + apply Hav in Ei. destruct (take_leaf_Some root h i Hok Ei) as (h1 & -> & Hok1 & Hav1 & _).
      destruct (IH h1 (fun j => unused j && negb (j =? i)) Hok1) as (h' & -> & Hok' & Hav').
      { intros j. rewrite Hav1, Hav, andb_true_iff, negb_true_iff, Z.eqb_neq. done. }
      destruct (set_run _ _ ops) as [out u]. exists h'. by split_and!.
    + assert (~ avail h i) as Hn by (rewrite Hav; congruence).
      rewrite (take_leaf_None root h i Hok Hn). destruct (IH h unused Hok Hav) as (h' & -> & Hok' & Hav').
      destruct (set_run _ _ ops) as [out u]. exists h'. by split_and!.
  - destruct (retain_spec root h lo hi Hok) as (h1 & -> & Hok1 & Hav1). cbn [mbind option_bind].
    apply IH; [done|]. intros j. rewrite Hav1, Hav, !andb_true_iff, Z.leb_le, Z.ltb_lt. tauto.
Qed.
End inv.

(** ** Properties *)

Definition all_leaves (i : Z) : bool := (0 <=? i) && (i <? M32).

(** C17. The key tree is a set of unused leaves.  Any sequence of [take_leaf] and [retain] calls on a
    fresh tree answers exactly as a set of the leaves 0 to 2^32 - 1 would, of which a taken leaf is
    removed and all but a range is dropped: the calls do not panic, the key handed out for a leaf
    is the one the tree assigns to it whatever was taken before, and what is left to take is what
    is left of the set. *)
Theorem tree_refines_set `{Hkdf} (root : Key) (ops : list TreeOp) :
  exists h, tree_run (holes_root root) ops = Some ((set_run root all_leaves ops).1, h) /\
    shape h /\ forall i, avail h i <-> (set_run root all_leaves ops).2 i = true.
Proof.
  destruct (holes_root_ok root) as [Hok Hav].
  destruct (tree_run_refines root ops (holes_root root) all_leaves Hok) as (h & Hr & Hok' & Hav').
  { intros j. rewrite Hav. unfold is_u32, all_leaves. rewrite andb_true_iff. lia. }
  exists h. split_and!; [done|apply Hok'|done].
Qed.

(** Once a leaf is gone it stays gone. *)
Lemma set_run_gone `{Hkdf} root ops : forall unused i,
  unused i = false -> (set_run root unused ops).2 i = false.
Proof.
  induction ops as [|[j|lo hi] ops IH]; intros unused i Hi; cbn [set_run]; [done|..].
  - destruct (unused j) eqn:Ej.
    + pose proof (IH (fun x => unused x && negb (x =? j)) i) as Hg. cbn beta in Hg.
      rewrite Hi in Hg. specialize (Hg eq_refl). by destruct (set_run _ _ ops).
    + specialize (IH unused i Hi). by destruct (set_run _ _ ops).
  - apply IH. by rewrite Hi.
Qed.

Lemma set_run_app `{Hkdf} root ops1 ops2 : forall unused,
  set_run root unused (ops1 ++ ops2) =
    let '(out1, u1) := set_run root unused ops1 in
    let '(out2, u2) := set_run root u1 ops2 in (out1 ++ out2, u2).
Proof.
  induction ops1 as [|[j|lo hi] ops1 IH]; intros unused; cbn [set_run app].
  - by destruct (set_run root unused ops2).
  - destruct (unused j); rewrite IH; destruct (set_run _ _ ops1) as [out1 u1];
      by destruct (set_run root u1 ops2).
  - apply IH.
Qed.

(** A message key is handed out once.  Whatever else is taken and trimmed before and after, once
    [take_leaf] has been called for a message number the next call for it gets nothing: a replayed
    message finds no key, and a used key cannot be derived again from the nodes that are kept. *)
Theorem tree_key_once `{Hkdf} (root : Key) (before after : list TreeOp) (i : Z) :
  exists out h, tree_run (holes_root root) (before ++ TakeLeaf i :: after) = Some (out, h) /\
    take_leaf h i = None.
Proof.
  destruct (holes_root_ok root) as [Hok Hav].
  destruct (tree_run_refines root (before ++ TakeLeaf i :: after) (holes_root root) all_leaves Hok)
    as (h & Hr & Hok' & Hav').
  { intros j. rewrite Hav. unfold is_u32, all_leaves. rewrite andb_true_iff. lia. }
  do 2 eexists. split; [exact Hr|]. apply (take_leaf_None root); [done|]. rewrite Hav', set_run_app.
  destruct (set_run root all_leaves before) as [out1 u]. cbn [set_run].
  destruct (u i) eqn:Ei.
  - pose proof (set_run_gone root after (fun j => u j && negb (j =? i)) i) as Hg. cbn beta in Hg.
    rewrite Z.eqb_refl, andb_false_r in Hg. specialize (Hg eq_refl).
    destruct (set_run _ _ after). cbn in *. congruence.
  - pose proof (set_run_gone root after u i Ei) as Hg. destruct (set_run _ _ after). cbn in *. congruence.
Qed.

(** ** Saved trees *)

Lemma bt_insert_last {V} k (v : V) m :
  (forall k' v', (k', v') ∈ m -> k' < k) -> bt_insert k v m = m ++ [(k, v)].
Proof.
  induction m as [|[k' v'] m IH]; intros Hlt; [done|]. cbn. pose proof (Hlt k' v' ltac:(left)).
  destruct (Z.ltb_spec k k'); [lia|]. destruct (Z.eqb_spec k k'); [lia|].
  f_equal. apply IH. intros. eapply Hlt. by right.
Qed.

Lemma bt_get_absent {V} k (m : list (Z * V)) : (forall v, (k, v) ∉ m) -> bt_get k m = None.
Proof.
  induction m as [|[k' v'] m IH]; intros Hn; [done|]. cbn. destruct (Z.eqb_spec k k') as [->|].
  - exfalso. apply (Hn v'). left.
  - apply IH. intros v Hin. apply (Hn v). by right.
Qed.

Lemma aligned_mod s d : 0 <= d <= 32 -> 0 <= s -> s mod span d = 0 <-> aligned s d.
Proof.
  intros Hd Hs. pose proof (span_pos d Hd). split.
  - intros Hm. split; [done|]. split; [done|]. exists (s / span d). mlia.
  - intros (_ & _ & q & ->). apply Z.mod_mul. lia.
Qed.

(** Nodes in order without overlap, from [lo] on. *)
Lemma overlap_false h lo :
  (forall s d k, (s, (d, k)) ∈ h -> aligned s d) -> from_nodes_overlap h lo = false ->
  (forall e, e ∈ h -> lo <= e.1) /\
  (forall e e' i, e ∈ h -> e' ∈ h -> covers e i -> covers e' i -> e = e').
Proof.
  revert lo. induction h as [|[s [d k]] h IH]; intros lo Ha Ho; cbn in Ho.
  { split; intros *; by intros ?%elem_of_nil. }
  destruct (Z.ltb_spec s lo); [done|]. pose proof (span_pos d (proj1 (Ha s d k ltac:(left)))).
  destruct (IH (s + span d)) as [H1 H2]; [intros; eapply Ha; by right|done|]. split.
  - intros e [->|He]%elem_of_cons; cbn; [lia|]. specialize (H1 e He). lia.
  - intros e e' i [->|He]%elem_of_cons [->|He']%elem_of_cons Hc Hc'; [done|..|by eapply H2];
      [specialize (H1 e' He')|specialize (H1 e He)]; unfold covers in *; cbn in *; lia.
Qed.

Lemma overlap_of_shape h lo :
  shape h -> (forall e, e ∈ h -> lo <= e.1) -> from_nodes_overlap h lo = false.
Proof.
  intros [Hs Hn Hd]. revert lo. induction Hs as [|[s [d k]] h Hs IH Hh]; intros lo Hlo; [done|]. cbn.
  destruct (Z.ltb_spec s lo); [specialize (Hlo (s, (d, k)) ltac:(left)); cbn in *; lia|].
  apply IH; [intros; eapply Hn; by right|intros; eapply Hd; by (right || eassumption)|].
  intros [s' [d' k']] He. rewrite Forall_forall in Hh. pose proof (Hh _ He) as Hlt. cbn in *.
  destruct (Z.le_gt_cases (s + span d) s'); [done|exfalso].
  assert ((s, (d, k)) = (s', (d', k'))) as [=]; [|lia].
  apply (Hd _ _ s'); [left|by right|unfold covers; cbn; lia|].
  apply covers_start. eapply Hn. by right.
Qed.

Lemma from_nodes_insert_spec l : forall m h,
  Forall (fun x => is_u32 x.1.1 /\ 0 <= x.1.2) l ->
  bt_sorted m -> (forall s d k, (s, (d, k)) ∈ m -> aligned s d /\ s < M32) ->
  from_nodes_insert l m = inr h ->
  bt_sorted h /\ (forall s d k, (s, (d, k)) ∈ h -> aligned s d /\ s < M32) /\
  (forall s d k, (s, (d, k)) ∈ h <-> (s, (d, k)) ∈ m \/ (s, d, k) ∈ l).
Proof.
  induction l as [|[[s d] k] l IH]; intros m h Hl Hs Hn; cbn.
  { intros [= <-]. split_and!; [done|done|]. intros. split; [auto|]. by intros [?|?%elem_of_nil]. }
  apply Forall_cons in Hl as [[Hu Hd] Hl]. cbn in Hu, Hd. unfold TREE_DEPTH.
  destruct (Z.ltb_spec 32 d) as [|Hd32]; [done|]. destruct (Z.eqb_spec (s mod span d) 0) as [Hm|]; [|done].
  cbn. destruct (bt_get s m) as [v|] eqn:Eg; [done|]. cbn.
  assert (forall v, (s, v) ∉ m) as Hfresh
    by (intros v Hv; apply (bt_get_Some s v m Hs) in Hv; congruence).
  intros Hrun. destruct (IH (bt_insert s (d, k) m) h Hl) as (H1 & H2 & H3);
    [by apply bt_insert_sorted| |done|].
  { intros s' d' k' Hin. rewrite elem_of_bt_insert in Hin by done.
    destruct Hin as [[-> [= -> ->]]|Hin]; [|by eapply Hn]. unfold is_u32 in Hu.
    split; [apply aligned_mod; [lia|lia|done]|lia]. }
  split_and!; [done|done|]. intros s' d' k'. rewrite H3, elem_of_bt_insert, elem_of_cons by done.
  split; intros [?|?]; auto; destruct_or?; destruct_and?; simplify_eq; auto.
Qed.

Lemma from_nodes_insert_sorted h : forall m,
  bt_sorted (m ++ h) -> (forall s d k, (s, (d, k)) ∈ h -> aligned s d) ->
  from_nodes_insert (holes_nodes h) m = inr (m ++ h).
Proof.
  induction h as [|[s [d k]] h IH]; intros m Hs Ha; cbn; [by rewrite app_nil_r|].
  pose proof (Ha s d k ltac:(left)) as Hal. pose proof Hal as (Hd & Hs0 & _). unfold TREE_DEPTH.
  destruct (Z.ltb_spec 32 d); [lia|]. rewrite (proj2 (aligned_mod s d Hd Hs0) Hal). cbn.
  assert (forall k' v', (k', v') ∈ m -> k' < s) as Hlt.
  { intros k' v' Hin. apply StronglySorted_app in Hs as (Hx & _). by apply (Hx (k', v') (s, (d, k)) Hin ltac:(left)). }
  rewrite bt_get_absent by (intros v Hin; specialize (Hlt s v Hin); lia). cbn.
  rewrite bt_insert_last by done. rewrite IH; [by rewrite <- (assoc_L (++))|by rewrite <- (assoc_L (++))|].
  intros. eapply Ha. by right.
Qed.

Lemma from_nodes_holes h : shape h -> from_nodes (holes_nodes h) = inr h.
Proof.
  intros Hh. unfold from_nodes. rewrite (from_nodes_insert_sorted h []); [|apply Hh|intros; by eapply sh_node].
  rewrite overlap_of_shape; [done|done|]. intros [s [d k]] He.
  destruct (sh_node _ Hh _ _ _ He) as [(_ & ? & _) _]. done.
Qed.

(** Saved trees.  A tree that was saved as its list of nodes is restored exactly; and whatever
    list of nodes is offered, if it is accepted then the result has those nodes, aligned and without
    overlap, so that no leaf has two keys. *)
Theorem nodes_roundtrip (h : Holes) (l : list (Z * Z * Key))
    (Hh : shape h) (Hl : Forall (fun x => is_u32 x.1.1 /\ 0 <= x.1.2) l) :
  from_nodes (holes_nodes h) = inr h /\
  (forall h', from_nodes l = inr h' ->
   shape h' /\ forall s d k, (s, (d, k)) ∈ h' <-> (s, d, k) ∈ l).
Proof.
  split; [by apply from_nodes_holes|]. unfold from_nodes.
  intros h'. destruct (from_nodes_insert l []) as [|m] eqn:Ei; [done|].
  destruct (from_nodes_overlap m 0) eqn:Eo; [done|]. intros [= <-].
  destruct (from_nodes_insert_spec l [] m Hl) as (H1 & H2 & H3);
    [constructor|intros * ?%elem_of_nil; done|done|].
  split.
  - split; [done|done|]. apply (overlap_false m 0); [|done]. intros; by eapply H2.
  - intros s d k. rewrite H3. split; [|by right]. by intros [?%elem_of_nil|?].
Qed.

Lemma nodes_roundtrip_witness :
  from_nodes (holes_nodes [(0, (0, [x07]))]) = inr [(0, (0, [x07]))] /\
  (forall h', from_nodes [(M31, 1, [x00]); (0, 2, [x01])] = inr h' ->
   shape h' /\ forall s d k, (s, (d, k)) ∈ h' <-> (s, d, k) ∈ [(M31, 1, [x00]); (0, 2, [x01])]).
Proof.
  apply (nodes_roundtrip [(0, (0, [x07]))] [(M31, 1, [x00]); (0, 2, [x01])]).
  - exact (ho_shape _ _ (proj1 (@holes_root_ok Toy.hkdf_toy [x07]))).
  - repeat constructor; cbn; lia.
Defined.
