(* ===== verification/Ratchet.v ===== *)
(** * The Double Ratchet core

    crates/veil-ratchet/src/kdf.rs, pq.rs and ratchet.rs: one end of a conversation.  A message
    advances the sending chain; an arriving header either takes a banked key, advances the
    receiving chain, or turns the epoch with an X25519 and an ML-KEM exchange. *)

From stdpp Require Import strings.
From S2P Require Import Prelude BTree Crypto RatchetTree.


Definition KEY_LEN : Z := 32.
Definition MAX_SKIP : Z := 1000.
Definition MAX_SKIP_TOTAL : Z := 2000.
Definition MAX_SEND_SKIP : Z := 1024.
Definition ML_KEM_768_EK_LEN : Z := 1184.
Definition ML_KEM_768_CT_LEN : Z := 1088.
Definition ML_KEM_768_SEED_LEN : Z := 64.

Inductive RatchetError :=
  | MalformedFrame (why : string)
  | SendSkipTooFar (requested max : Z)
  | MalformedState (why : string)
  | InvalidPqKey
  | InvalidPqSeed
  | NonContributory
  | PqDowngrade
  | AuthFailed
  | TooManySkipped (n : Z)
  | MessageKeyUnavailable
  | NoSendingChain.

(** ** Computations of the receive path

    A computation draws from the random source and ends in an error or a value; [None] is a
    panic.  An error carries no state: the receive path works on a copy that its caller drops. *)

Section monad.
Context {R : Type}.

Definition Step (A : Type) : Type := R -> option ((RatchetError + A) * R).

#[global] Instance Step_ret : MRet Step := fun A x r => Some (inr x, r).
#[global] Instance Step_bind : MBind Step := fun A B f m r =>
  match m r with
  | None => None
  | Some (inl e, r) => Some (inl e, r)
  | Some (inr x, r) => f x r
  end.

Definition throw {A} (e : RatchetError) : Step A := fun r => Some (inl e, r).
Definition panic {A} : Step A := fun _ => None.
(** [ok_or(e)?] *)
Definition ok_or {A} (o : option A) (e : RatchetError) : Step A :=
  match o with Some x => mret x | None => throw e end.
(** [expect(..)] *)
Definition expect {A} (o : option A) : Step A :=
  match o with Some x => mret x | None => panic end.
(** [random_array] *)
Definition draw `{Rng R} (n : Z) : Step Key := fun r => let '(k, r) := fill_bytes r n in Some (inr k, r).

End monad.

(** ** Key derivation: kdf.rs *)

Section kdf.
Context `{Hkdf}.

Definition INFO_ROOT : list byte :=
  [x76; x65; x69; x6c; x2e; x72; x61; x74; x63; x68; x65; x74; x2e; x76; x31; x2e; x72; x6f; x6f; x74].
Definition INFO_CHAIN : list byte :=
  [x76; x65; x69; x6c; x2e; x72; x61; x74; x63; x68; x65; x74; x2e; x76; x31; x2e; x63; x68; x61; x69;
   x6e].
Definition INFO_MSG : list byte :=
  [x76; x65; x69; x6c; x2e; x72; x61; x74; x63; x68; x65; x74; x2e; x76; x31; x2e; x6d; x73; x67].
Definition INFO_AEAD : list byte :=
  [x76; x65; x69; x6c; x2e; x72; x61; x74; x63; x68; x65; x74; x2e; x76; x31; x2e; x61; x65; x61; x64].
Definition NONCE_LEN : Z := 12.

Definition kdf_rk (root_key dh_output : Key) (pq_output : option Key) : Key * Key :=
  let ikm := dh_output ++ default [] pq_output in
  let out := hkdf root_key ikm INFO_ROOT (2 * KEY_LEN) in
  (ztake KEY_LEN out, zdrop KEY_LEN out).

Definition kdf_ck (chain_key : Key) : Key * Key :=
  (hkdf_expand chain_key INFO_CHAIN KEY_LEN, hkdf_expand chain_key INFO_MSG KEY_LEN).

Definition message_keys (msg_key : Key) : Key * Key :=
  let out := hkdf_expand msg_key INFO_AEAD (KEY_LEN + NONCE_LEN) in
  (ztake KEY_LEN out, zdrop KEY_LEN out).

End kdf.

(** ** The post-quantum leg: pq.rs *)

Record PqEpoch := mkPq { pq_seed : Key; pq_ek : Key; pq_pending_ct : option Key }.

#[global] Instance PqEpoch_eta : Settable PqEpoch :=
  fun p => mkPq (pq_seed p) (pq_ek p) (pq_pending_ct p).

Section pq.
Context `{MlKem} {R : Type} `{Rng R}.

Definition from_seed (seed : Key) (pending_ct : option Key) : PqEpoch :=
  mkPq seed (mlkem_ek seed) pending_ct.

Definition pq_new : Step (R := R) PqEpoch :=
  seed ← draw ML_KEM_768_SEED_LEN; mret (from_seed seed None).

Definition restore (seed : Key) (pending_ct : option Key) : PqEpoch := from_seed seed pending_ct.

Definition set_pending_ct (p : PqEpoch) (ct : Key) : PqEpoch := p <| pq_pending_ct := Some ct |>.

Definition decapsulate (p : PqEpoch) (ct : Key) : Key := mlkem_decaps (pq_seed p) ct.

(** The shared secret, then the ciphertext. *)
Definition encapsulate_to (peer_ek : Key) : Step (R := R) (Key * Key) :=
  if negb (mlkem_valid peer_ek) then throw InvalidPqKey
  else m ← draw 32; let '(ct, ss) := mlkem_encaps peer_ek m in mret (ss, ct).

End pq.

(** ** State: ratchet.rs *)

Record Header := mkHeader {
  h_dh_pk : Key;
  h_pn : Z;
  h_n : Z;
  h_pq_ek : option Key;
  h_pq_ct : option Key;
  h_tree : bool
}.

Inductive SendMode := Undecided | Linear | Tree.

Record SendPosition := mkPosition { pos_chain : Key; pos_next : Z }.

Record RatchetCore := mkCore {
  dh_sk : Key;
  dh_pk : Key;
  dh_pk_remote : option Key;
  rk : Key;
  cks : option Key;
  ckr : option Key;
  ns : Z;
  nr : Z;
  pn : Z;
  skipped : gmap (Key * Z) Key;
  pq : PqEpoch;
  peer_tree : bool;
  send_mode : SendMode;
  send_tree : option Holes;
  recv_tree : bool;
  tree_holes : gmap Key Holes;
  sent_any : bool
}.

#[global] Instance RatchetCore_eta : Settable RatchetCore :=
  fun c => mkCore (dh_sk c) (dh_pk c) (dh_pk_remote c) (rk c) (cks c) (ckr c) (ns c) (nr c) (pn c)
             (skipped c) (pq c) (peer_tree c) (send_mode c) (send_tree c) (recv_tree c)
             (tree_holes c) (sent_any c).

(** ** The order of a [BTreeMap] keyed by bytes *)

Fixpoint bytes_leb (a b : list byte) : bool :=
  match a, b with
  | [], _ => true
  | _ :: _, [] => false
  | x :: a, y :: b =>
      if byte_val x <? byte_val y then true
      else if byte_val y <? byte_val x then false else bytes_leb a b
  end.

(** The entries of [tree_holes], in the order [values] and [iter] visit them. *)
Definition chains_sorted (m : gmap Key Holes) : list (Key * Holes) :=
  merge_sort (fun a b => Is_true (bytes_leb a.1 b.1)) (map_to_list m).

(** ** Operations *)

Section core.
Context `{Hkdf} `{X25519} `{MlKem} {R : Type} `{Rng R}.

(** [dh.diffie_hellman] with its contributory check. *)
Definition diffie_hellman (sk pk : Key) : Step (R := R) Key :=
  let shared := x25519_dh sk pk in
  if x25519_contributory shared then mret shared else throw NonContributory.

Definition initiator (root peer_dh_pk : Key) : Step (R := R) RatchetCore :=
  sk ← draw 32;
  shared ← diffie_hellman sk peer_dh_pk;
  let '(rk, cks) := kdf_rk root shared None in
  epoch ← pq_new;
  mret (mkCore sk (x25519_public sk) (Some peer_dh_pk) rk (Some cks) None 0 0 0 ∅ epoch false
          Undecided None false ∅ false).

Definition responder (root our_dh_sk : Key) : Step (R := R) RatchetCore :=
  epoch ← pq_new;
  mret (mkCore our_dh_sk (x25519_public our_dh_sk) None root None None 0 0 0 ∅ epoch false
          Undecided None false ∅ false).

(** *** Sending *)

(** [fix_send_mode]; the state is returned on every path. *)
Definition fix_send_mode (c : RatchetCore) : (RatchetError + bool) * RatchetCore :=
  match send_mode c with
  | Tree => (inr true, c)
  | Linear => (inr false, c)
  | Undecided =>
      match cks c with
      | None => (inl NoSendingChain, c)
      | Some k =>
          if peer_tree c then
            (inr true, c <| send_tree := Some (holes_root k) |> <| cks := None |>
                         <| send_mode := Tree |>)
          else (inr false, c <| send_mode := Linear |>)
      end
  end.

(** The message key of index [ns], taken from the tree or from the hash chain. *)
Definition send_key (c : RatchetCore) (tree : bool) : (RatchetError + Key) * RatchetCore :=
  if tree then
    match send_tree c with
    | None => (inl NoSendingChain, c)
    | Some holes =>
        match take_leaf holes (ns c) with
        | None => (inl MessageKeyUnavailable, c)
        | Some (mk, holes) => (inr mk, c <| send_tree := Some holes |>)
        end
    end
  else
    match cks c with
    | None => (inl NoSendingChain, c)
    | Some k => let '(next, mk) := kdf_ck k in (inr mk, c <| cks := Some next |>)
    end.

Definition send_step (c : RatchetCore) : (RatchetError + (Header * Key)) * RatchetCore :=
  let n := ns c in
  match fix_send_mode c with
  | (inl e, c) => (inl e, c)
  | (inr tree, c) =>
      match send_key c tree with
      | (inl e, c) => (inl e, c)
      | (inr mk, c) =>
          let c := c <| ns := sat_add32 (ns c) 1 |> <| sent_any := true |> in
          (inr (mkHeader (dh_pk c) (pn c) n (Some (pq_ek (pq c))) (pq_pending_ct (pq c)) tree, mk), c)
      end
  end.

Definition note_peer_tree (c : RatchetCore) : RatchetCore := c <| peer_tree := true |>.

Definition send_position (c : RatchetCore) : option SendPosition :=
  if is_none (cks c) && is_none (send_tree c) then None else Some (mkPosition (dh_pk c) (ns c)).

Fixpoint burn_keys (count : nat) (k : Key) : Key :=
  match count with O => k | S count => burn_keys count (kdf_ck k).1 end.

(** [skip_send_to]; [None] is a panic of [retain]. *)
Definition skip_send_to (c : RatchetCore) (to : SendPosition) :
    option ((RatchetError + Z) * RatchetCore) :=
  if negb (bool_decide (pos_chain to = dh_pk c)) || (pos_next to <=? ns c) then Some (inr 0, c)
  else
    let count := pos_next to - ns c in
    if MAX_SEND_SKIP <? count then Some (inl (SendSkipTooFar count MAX_SEND_SKIP), c)
    else
      match fix_send_mode c with
      | (inl e, c) => Some (inl e, c)
      | (inr true, c) =>
          match send_tree c with
          | None => Some (inl NoSendingChain, c)
          | Some holes =>
              holes ← retain holes (pos_next to) (Z.shiftl 1 32);
              Some (inr count, c <| send_tree := Some holes |> <| ns := pos_next to |>)
          end
      | (inr false, c) =>
          match cks c with
          | None => Some (inl NoSendingChain, c)
          | Some k =>
              Some (inr count, c <| cks := Some (burn_keys (Z.to_nat count) k) |> <| ns := pos_next to |>)
          end
      end.

(** *** Receiving *)

(** [for i in nr..until]: the chain key after the loop and the bank. *)
Fixpoint bank_keys (count : nat) (remote : Key) (i : Z) (k : Key) (bank : gmap (Key * Z) Key) :
    Key * gmap (Key * Z) Key :=
  match count with
  | O => (k, bank)
  | S count =>
      let '(next, mk) := kdf_ck k in
      bank_keys count remote (i + 1) next (<[(remote, i) := mk]> bank)
  end.

Definition skip_message_keys (c : RatchetCore) (until : Z) : Step (R := R) RatchetCore :=
  if until <=? nr c then mret c
  else
    let to_skip := until - nr c in
    if MAX_SKIP <? to_skip then throw (TooManySkipped to_skip)
    else if MAX_SKIP_TOTAL <? Z.of_nat (size (skipped c)) + to_skip then
      throw (TooManySkipped (Z.of_nat (size (skipped c)) + to_skip))
    else
      match ckr c with
      | None => mret c
      | Some k =>
          remote ← expect (dh_pk_remote c);
          let '(k, bank) := bank_keys (Z.to_nat to_skip) remote (nr c) k (skipped c) in
          mret (c <| ckr := Some k |> <| skipped := bank |> <| nr := until |>)
      end.

(** The nodes held over all receiving chains. *)
Definition tree_total (m : gmap Key Holes) : Z :=
  foldr (fun e s => zlen e.2 + s) 0 (chains_sorted m).

Definition check_tree_limits (c : RatchetCore) : Step (R := R) unit :=
  match List.find (fun e => MAX_TREE_NODES_PER_CHAIN <? zlen e.2) (chains_sorted (tree_holes c)) with
  | Some e => throw (TooManySkipped (zlen e.2))
  | None =>
      if MAX_TREE_NODES_TOTAL <? tree_total (tree_holes c) then
        throw (TooManySkipped (tree_total (tree_holes c)))
      else mret tt
  end.

Definition asymmetric_step (c : RatchetCore) (header : Header) : Step (R := R) RatchetCore :=
  peer_ek ← ok_or (h_pq_ek header) PqDowngrade;
  pq_recv ← match h_pq_ct header with
            | Some ct => mret (Some (decapsulate (pq c) ct))
            | None => if sent_any c then throw PqDowngrade else mret None
            end;
  '(pq_send, our_ct) ← encapsulate_to peer_ek;
  dh_recv ← diffie_hellman (dh_sk c) (h_dh_pk header);
  new_dh_sk ← draw 32;
  let new_dh_pk := x25519_public new_dh_sk in
  dh_send ← diffie_hellman new_dh_sk (h_dh_pk header);
  let '(rk1, ckr') := kdf_rk (rk c) dh_recv pq_recv in
  let '(rk2, cks') := kdf_rk rk1 dh_send (Some pq_send) in
  new_pq ← pq_new;
  let new_pq := set_pending_ct new_pq our_ct in
  mret (c <| pn := ns c |> <| ns := 0 |> <| nr := 0 |>
          <| tree_holes := filter (fun e => e.2 ≠ []) (tree_holes c) |>
          <| send_tree := None |> <| send_mode := Undecided |>
          <| dh_pk_remote := Some (h_dh_pk header) |>
          <| rk := rk2 |> <| ckr := Some ckr' |> <| cks := Some cks' |>
          <| dh_sk := new_dh_sk |> <| dh_pk := new_dh_pk |> <| pq := new_pq |>).

(** A straggler of an earlier chain that was a tree. *)
Definition recv_straggler (c : RatchetCore) (header : Header) (holes : Holes) :
    Step (R := R) (Key * RatchetCore) :=
  if negb (h_tree header) then throw (MalformedFrame "chain mode changed mid-chain")
  else
    '(mk, holes) ← ok_or (take_leaf holes (h_n header)) MessageKeyUnavailable;
    let c := c <| tree_holes := if is_nil holes then delete (h_dh_pk header) (tree_holes c)
                                else <[h_dh_pk header := holes]> (tree_holes c) |> in
    check_tree_limits c ≫= fun _ => mret (mk, c).

(** The chain the peer abandoned, cut to [0..pn]. *)
Definition close_tree (c : RatchetCore) (pn : Z) : Step (R := R) RatchetCore :=
  if recv_tree c then
    match dh_pk_remote c with
    | None => mret c
    | Some ending =>
        match tree_holes c !! ending with
        | None => mret c
        | Some holes =>
            holes ← expect (retain holes 0 pn);
            mret (c <| tree_holes := <[ending := holes]> (tree_holes c) |>)
        end
    end
  else mret c.

(** The part of [recv_step] under [if is_new_epoch]. *)
Definition turn_epoch (c : RatchetCore) (header : Header) : Step (R := R) RatchetCore :=
  c ← (if is_some (ckr c) then skip_message_keys c (h_pn header) else mret c);
  c ← close_tree c (h_pn header);
  c ← asymmetric_step c header;
  let c := c <| recv_tree := h_tree header |> in
  if h_tree header then
    k ← expect (ckr c);
    mret (c <| ckr := None |> <| tree_holes := <[h_dh_pk header := holes_root k]> (tree_holes c) |>)
  else mret c.

(** The key of a header of the current receiving chain. *)
Definition recv_current (c : RatchetCore) (header : Header) : Step (R := R) (Key * RatchetCore) :=
  if negb (eqb (recv_tree c) (h_tree header)) then
    throw (MalformedFrame "chain mode changed mid-chain")
  else if recv_tree c then
    if U32_MAX / 2 <? h_n header then throw (TooManySkipped (h_n header))
    else
      holes ← ok_or (tree_holes c !! h_dh_pk header) MessageKeyUnavailable;
      '(mk, holes) ← ok_or (take_leaf holes (h_n header)) MessageKeyUnavailable;
      let c := c <| tree_holes := <[h_dh_pk header := holes]> (tree_holes c) |>
                 <| nr := Z.max (nr c) (h_n header + 1) |> in
      check_tree_limits c ≫= fun _ => mret (mk, c)
  else if h_n header <? nr c then throw MessageKeyUnavailable
  else
    c ← skip_message_keys c (h_n header);
    k ← ok_or (ckr c) MessageKeyUnavailable;
    let '(next, mk) := kdf_ck k in
    mret (mk, c <| ckr := Some next |> <| nr := sat_add32 (nr c) 1 |>).

Definition is_new_epoch (c : RatchetCore) (header : Header) : bool :=
  match dh_pk_remote c with
  | Some pk => negb (bool_decide (pk = h_dh_pk header))
  | None => true
  end.

Definition recv_step (c : RatchetCore) (header : Header) : Step (R := R) (Key * RatchetCore) :=
  match skipped c !! (h_dh_pk header, h_n header) with
  | Some mk => mret (mk, c <| skipped := delete (h_dh_pk header, h_n header) (skipped c) |>)
  | None =>
      if is_new_epoch c header then
        match tree_holes c !! h_dh_pk header with
        | Some holes => recv_straggler c header holes
        | None => c ← turn_epoch c header; recv_current c header
        end
      else recv_current c header
  end.

(** *** The bank of missed keys *)

(** [self.recv_tree && Some(pk) == self.dh_pk_remote] *)
Definition is_current (c : RatchetCore) (pk : Key) : bool :=
  recv_tree c && bool_decide (Some pk = dh_pk_remote c).

Definition tree_banked (c : RatchetCore) : Z :=
  foldr (fun e s => (if is_current c e.1 then len_below e.2 (nr c) else zlen e.2) + s) 0
        (chains_sorted (tree_holes c)).

Definition skipped_len (c : RatchetCore) : Z := Z.of_nat (size (skipped c)) + tree_banked c.

(** [clear_skipped]; [None] is a panic of [retain]. *)
Definition clear_skipped (c : RatchetCore) : option (Z * RatchetCore) :=
  let n := skipped_len c in
  let c := c <| skipped := ∅ |> in
  let current := if recv_tree c then dh_pk_remote c else None in
  let c := c <| tree_holes := filter (fun e => Some e.1 = current) (tree_holes c) |> in
  match current with
  | None => Some (n, c)
  | Some pk =>
      match tree_holes c !! pk with
      | None => Some (n, c)
      | Some holes =>
          holes ← retain holes (nr c) (Z.shiftl 1 32);
          Some (n, c <| tree_holes := <[pk := holes]> (tree_holes c) |>)
      end
  end.

Definition prune_skipped_to_current_epoch (c : RatchetCore) : Z * RatchetCore :=
  let before := skipped_len c in
  let c :=
    match dh_pk_remote c with
    | Some cur => c <| skipped := filter (fun e => e.1.1 = cur) (skipped c) |>
                    <| tree_holes := filter (fun e => e.1 = cur) (tree_holes c) |>
    | None => c <| skipped := ∅ |> <| tree_holes := ∅ |>
    end in
  (before - skipped_len c, c).

Definition skipped_epochs (c : RatchetCore) : Z * Z :=
  let epochs : gset Key := set_map fst (dom (skipped c)) in
  let current_tree :=
    if recv_tree c then
      match dh_pk_remote c ≫= fun cur => tree_holes c !! cur with
      | Some h => len_below h (nr c)
      | None => 0
      end
    else 0 in
  let epochs := foldl (fun acc e =>
      if negb (is_current c e.1) || (0 <? len_below e.2 (nr c)) then {[e.1]} ∪ acc else acc)
      epochs (chains_sorted (tree_holes c)) in
  let current :=
    match dh_pk_remote c with
    | Some cur => Z.of_nat (size (filter (fun e => e.1.1 = cur) (skipped c)))
    | None => 0
    end + current_tree in
  (Z.of_nat (size epochs), current).

End core.
