(* ===== verification/RatchetKeys.v ===== *)
(** * The keys a ratchet end holds

    The bank of skipped keys, the key trees and the receiving hash chain are three representations
    of one thing: the message keys that can still be produced.  [lookup_key] is that map, and the
    lemmas here say what every step of the receive path does to it, which errors the step can end
    in, and that it does not panic. *)

From stdpp Require Import strings.
From S2P Require Import Prelude BTree Crypto RatchetTree RatchetTreeInv Ratchet.

(** ** Reasoning about computations of the receive path *)

Section runs.
Context {R : Type}.

(** [m] does not panic; its errors satisfy [E] and its values [Q]. *)
Definition runs {A} (m : Step (R := R) A) (r : R) (E : RatchetError -> Prop) (Q : A -> Prop) : Prop :=
  match m r with
  | None => False
  | Some (inl e, _) => E e
  | Some (inr x, _) => Q x
  end.

Lemma runs_bind {A B} (m : Step (R := R) A) (f : A -> Step (R := R) B) r E Q :
  runs m r E (fun x => forall r, runs (f x) r E Q) -> runs (m ≫= f) r E Q.
Proof.
  unfold runs, mbind, Step_bind. destruct (m r) as [[[e|x] r']|]; [done| |done]. intros H. apply H.
Qed.

Lemma runs_ret {A} (x : A) r E (Q : A -> Prop) : Q x -> runs (mret x) r E Q.
Proof. done. Qed.

Lemma runs_throw {A} e r (E : RatchetError -> Prop) (Q : A -> Prop) : E e -> runs (throw e) r E Q.
Proof. done. Qed.

Lemma runs_ok_or {A} (o : option A) e r E (Q : A -> Prop) :
  (o = None -> E e) -> (forall x, o = Some x -> Q x) -> runs (ok_or o e) r E Q.
Proof. destruct o; cbn; eauto. Qed.

Lemma runs_expect {A} (o : option A) x r E (Q : A -> Prop) :
  o = Some x -> Q x -> runs (expect o) r E Q.
Proof. intros ->. done. Qed.

Lemma runs_draw `{Rng R} n r E (Q : Key -> Prop) : (forall k, Q k) -> runs (draw n) r E Q.
Proof. unfold runs, draw. destruct (fill_bytes r n). auto. Qed.

Lemma runs_mono {A} (m : Step (R := R) A) r (E E' : RatchetError -> Prop) (Q Q' : A -> Prop) :
  runs m r E Q -> (forall e, E e -> E' e) -> (forall x, Q x -> Q' x) -> runs m r E' Q'.
Proof. unfold runs. destruct (m r) as [[[e|x] r']|]; naive_solver. Qed.

(** A value that was returned satisfies the postcondition. *)
Lemma runs_ok {A} (m : Step (R := R) A) r E Q x r' : runs m r E Q -> m r = Some (inr x, r') -> Q x.
Proof. unfold runs. intros H E'. by rewrite E' in H. Qed.

Lemma runs_cases {A} (m : Step (R := R) A) r E Q :
  runs m r E Q -> exists res r', m r = Some (res, r') /\ match res with inl e => E e | inr x => Q x end.
Proof. unfold runs. destruct (m r) as [[[e|x] r']|]; naive_solver. Qed.

End runs.

Lemma map_size_insert_le {K A} `{Countable K} (m : gmap K A) i x : (size (<[i:=x]> m) <= S (size m))%nat.
Proof. rewrite map_size_insert. destruct (m !! i); cbn; lia. Qed.

(** ** Chains *)

Section keys.
Context `{Hkdf}.

(** The chain key after [n] steps and the message key of index [n] of a hash chain. *)
Definition chain_at (k : Key) (n : Z) : Key := burn_keys (Z.to_nat n) k.
Definition line_key (k : Key) (n : Z) : Key := (kdf_ck (chain_at k n)).2.

#[local] Arguments chain_at : simpl never.
#[local] Arguments line_key : simpl never.

Lemma burn_keys_add n m k : burn_keys (n + m) k = burn_keys m (burn_keys n k).
Proof. revert k. induction n as [|n IH]; intros k; [done|]. apply IH. Qed.

Lemma chain_at_0 k : chain_at k 0 = k.
Proof. done. Qed.

Lemma chain_at_add k n m : 0 <= n -> 0 <= m -> chain_at (chain_at k n) m = chain_at k (n + m).
Proof. intros. unfold chain_at. rewrite Z2Nat.inj_add by lia. by rewrite burn_keys_add. Qed.

Lemma chain_at_succ k n : 0 <= n -> (kdf_ck (chain_at k n)).1 = chain_at k (n + 1).
Proof. intros. rewrite <- chain_at_add by lia. done. Qed.

Lemma line_key_add k n m : 0 <= n -> 0 <= m -> line_key (chain_at k n) m = line_key k (n + m).
Proof. intros. unfold line_key. by rewrite chain_at_add. Qed.

(** The key a tree hands out for a leaf. *)
Definition leaf (h : Holes) (i : Z) : option Key := fst <$> take_leaf h i.

Definition some_root (h : Holes) : Prop := exists root, holes_ok root h.

Lemma leaf_ok root h i : holes_ok root h -> avail h i -> leaf h i = Some (leaf_key root i).
Proof. intros Hok Ha. destruct (take_leaf_Some root h i Hok Ha) as (h' & E & _). unfold leaf. by rewrite E. Qed.

Lemma leaf_none root h i : holes_ok root h -> ~ avail h i -> leaf h i = None.
Proof. intros Hok Ha. unfold leaf. by rewrite (take_leaf_None root). Qed.

Lemma leaf_avail root h i k : holes_ok root h -> leaf h i = Some k -> avail h i /\ k = leaf_key root i.
Proof.
  intros Hok E. destruct (covering h i) as [[s d]|] eqn:Ec.
  - destruct (covering_Some h i s d (ho_shape _ _ Hok) Ec) as (k' & Hin & Hc).
    assert (avail h i) as Ha by (exists (s, (d, k')); done).
    rewrite (leaf_ok root) in E by done. naive_solver.
  - unfold leaf, take_leaf in E. by rewrite Ec in E.
Qed.

Lemma leaf_dec h i : some_root h -> avail h i \/ ~ avail h i.
Proof.
  intros [root Hok]. destruct (leaf h i) as [k|] eqn:E.
  - left. by apply (leaf_avail root h i k Hok).
  - right. intros Ha. by rewrite (leaf_ok root) in E.
Qed.

(** Taking a leaf removes that leaf and no other. *)
Lemma take_leaf_leaf h i k h' :
  some_root h -> take_leaf h i = Some (k, h') ->
  some_root h' /\ leaf h i = Some k /\
  (forall j, leaf h' j = if decide (j = i) then None else leaf h j) /\
  (length h' <= length h + 31)%nat.
Proof.
  intros [root Hok] E. assert (leaf h i = Some k) as El by (unfold leaf; by rewrite E).
  destruct (leaf_avail root h i k Hok El) as [Ha _].
  destruct (take_leaf_Some root h i Hok Ha) as (h2 & E2 & Hok' & Hav & Hlen).
  rewrite E in E2. injection E2 as _ <-. split_and!; [by exists root|done| |done].
  intros j. destruct (decide (j = i)) as [->|Hne].
  - apply (leaf_none root); [done|]. rewrite Hav. tauto.
  - destruct (leaf_dec h j (ex_intro _ root Hok)) as [Hj|Hj].
    + rewrite !(leaf_ok root) by (done || by apply Hav). done.
    + rewrite !(leaf_none root) by (done || by rewrite Hav; tauto). done.
Qed.

Lemma retain_leaf h lo hi :
  some_root h -> exists h', retain h lo hi = Some h' /\ some_root h' /\
  forall j, leaf h' j = if (lo <=? j) && (j <? hi) then leaf h j else None.
Proof.
  intros [root Hok]. destruct (retain_spec root h lo hi Hok) as (h' & E & Hok' & Hav).
  exists h'. split_and!; [done|by exists root|]. intros j.
  destruct ((lo <=? j) && (j <? hi)) eqn:Eb.
  - apply andb_true_iff in Eb as [? ?]. to_prop.
    destruct (leaf_dec h j (ex_intro _ root Hok)) as [Hj|Hj].
    + rewrite !(leaf_ok root) by (done || by apply Hav). done.
    + rewrite !(leaf_none root) by (done || by rewrite Hav; tauto). done.
  - apply (leaf_none root); [done|]. rewrite Hav. apply andb_false_iff in Eb as [?|?]; to_prop; lia.
Qed.

Lemma holes_root_leaf k : some_root (holes_root k) /\
  forall j, leaf (holes_root k) j = if (0 <=? j) && (j <? M32) then Some (leaf_key k j) else None.
Proof.
  destruct (holes_root_ok k) as [Hok Hav]. split; [by exists k|]. intros j.
  destruct ((0 <=? j) && (j <? M32)) eqn:E.
  - apply andb_true_iff in E as [? ?]. to_prop. apply leaf_ok; [done|]. apply Hav. unfold is_u32. lia.
  - apply (leaf_none k); [done|]. rewrite Hav. unfold is_u32. apply andb_false_iff in E as [?|?]; to_prop; lia.
Qed.

(** ** The keys that can still be produced *)

Definition lookup_key (c : RatchetCore) (pk : Key) (i : Z) : option Key :=
  match skipped c !! (pk, i) with
  | Some mk => Some mk
  | None =>
      match tree_holes c !! pk with
      | Some h => leaf h i
      | None =>
          if decide (dh_pk_remote c = Some pk) then
            k ← ckr c; if nr c <=? i then Some (line_key k (i - nr c)) else None
          else None
      end
  end.

(** The three representations do not overlap. *)
Record bank_ok (c : RatchetCore) : Prop := {
  bo_trees : forall pk h, tree_holes c !! pk = Some h -> some_root h;
  bo_tree_skipped : forall pk i, is_Some (tree_holes c !! pk) -> skipped c !! (pk, i) = None;
  bo_chain : forall k, ckr c = Some k -> exists pk, dh_pk_remote c = Some pk /\
    forall i, is_Some (skipped c !! (pk, i)) -> i < nr c;
  bo_recv_tree : recv_tree c = true -> ckr c = None;
  bo_recv_line : forall pk, recv_tree c = false -> dh_pk_remote c = Some pk -> tree_holes c !! pk = None
}.

(** Nothing is held under the key of a chain that is only now announced. *)
Definition unseen (c : RatchetCore) (pk : Key) : Prop :=
  tree_holes c !! pk = None /\ forall i, skipped c !! (pk, i) = None.

Lemma chain_no_tree c k pk :
  bank_ok c -> ckr c = Some k -> dh_pk_remote c = Some pk -> tree_holes c !! pk = None.
Proof.
  intros Hb Ek. apply Hb. destruct (recv_tree c) eqn:E; [|done].
  pose proof (bo_recv_tree _ Hb E). congruence.
Qed.

Lemma bank_keys_spec remote : forall n i k bank k' bank',
  bank_keys n remote i k bank = (k', bank') ->
  k' = chain_at k (Z.of_nat n) /\ (size bank' <= size bank + n)%nat /\
  forall q j, bank' !! (q, j) =
    if decide (q = remote) then
      if (i <=? j) && (j <? i + Z.of_nat n) then Some (line_key k (j - i)) else bank !! (q, j)
    else bank !! (q, j).
Proof.
  induction n as [|n IH]; intros i k bank k' bank' E.
  - injection E as <- <-. split_and!; [done|lia|]. intros q j. destruct (decide _); [|done].
    destruct (Z.leb_spec i j), (Z.ltb_spec j (i + Z.of_nat 0)); simpl; (done || lia).
  - cbn [bank_keys] in E. destruct (kdf_ck k) as [next mk] eqn:Ek.
    destruct (IH _ _ _ _ _ E) as (-> & Hs & Hl).
    assert (next = chain_at k 1) as -> by (change (chain_at k 1) with (kdf_ck k).1; by rewrite Ek).
    split_and!.
    + rewrite chain_at_add by lia. f_equal. lia.
    + pose proof (map_size_insert_le bank (remote, i) mk). lia.
    + intros q j. rewrite Hl. destruct (decide (q = remote)) as [->|Hq].
      2: { rewrite lookup_insert_ne by congruence. done. }
      destruct (Z.eq_dec i j) as [->|Hne].
      * rewrite (proj2 (Z.leb_gt (j + 1) j)) by lia. rewrite lookup_insert_eq. simpl.
        rewrite Z.leb_refl, (proj2 (Z.ltb_lt _ _)) by lia. simpl.
        rewrite Z.sub_diag. unfold line_key. rewrite chain_at_0, Ek. done.
      * rewrite lookup_insert_ne by congruence.
        destruct (Z.leb_spec i j), (Z.leb_spec (i + 1) j); try lia; simpl; try done.
        rewrite line_key_add by lia. replace (1 + (j - (i + 1))) with (j - i) by lia.
        replace (i + 1 + Z.of_nat n) with (i + Z.of_nat (S n)) by lia. done.
Qed.

(** Taking the [i]-th key of the current hash chain, the earlier ones banked. *)
Record skipped_to (c : RatchetCore) (until : Z) (c' : RatchetCore) : Prop := {
  st_frame : c' = c <| ckr := ckr c' |> <| skipped := skipped c' |> <| nr := nr c' |>;
  st_bank : bank_ok c';
  st_lookup : forall q i, lookup_key c' q i = lookup_key c q i;
  st_size : Z.of_nat (size (skipped c)) <= MAX_SKIP_TOTAL -> Z.of_nat (size (skipped c')) <= MAX_SKIP_TOTAL;
  st_ckr : is_Some (ckr c') <-> is_Some (ckr c);
  st_nr : is_Some (ckr c) -> nr c' = Z.max (nr c) until;
  st_nr_none : ckr c = None -> nr c' = nr c;
  st_skipped : forall q i, dh_pk_remote c <> Some q -> skipped c' !! (q, i) = skipped c !! (q, i)
}.

Definition too_many (e : RatchetError) : Prop := exists n, e = TooManySkipped n.

Lemma core_frame c : c = c <| ckr := ckr c |> <| skipped := skipped c |> <| nr := nr c |>.
Proof. by destruct c. Qed.

Lemma skipped_to_refl c until : bank_ok c -> (is_Some (ckr c) -> until <= nr c) -> skipped_to c until c.
Proof. intros Hb Hle. split; try done; [by apply core_frame|]. intros Hs. specialize (Hle Hs). lia. Qed.

(** The state after the loop of [skip_message_keys]. *)
Lemma skipped_to_banked c until k pk bank :
  bank_ok c -> ckr c = Some k -> dh_pk_remote c = Some pk -> nr c < until ->
  Z.of_nat (size (skipped c)) + (until - nr c) <= MAX_SKIP_TOTAL ->
  (size bank <= size (skipped c) + Z.to_nat (until - nr c))%nat ->
  (forall q j, bank !! (q, j) =
    if decide (q = pk) then
      if (nr c <=? j) && (j <? until) then Some (line_key k (j - nr c)) else skipped c !! (q, j)
    else skipped c !! (q, j)) ->
  skipped_to c until (c <| ckr := Some (chain_at k (until - nr c)) |> <| skipped := bank |> <| nr := until |>).
Proof.
  intros Hb Ek Er Hlt Hsz Hbs Hbank.
  destruct (bo_chain _ Hb k Ek) as (pk' & Er' & Hlow). assert (pk' = pk) as -> by congruence.
  assert (tree_holes c !! pk = None) as Ht by (by eapply chain_no_tree).
  split; cbn; try done; try lia.
  - split; cbn; try apply Hb.
    + intros q i Hq. rewrite Hbank. destruct (decide (q = pk)) as [->|_]; [|by apply Hb].
      rewrite Ht in Hq. by destruct Hq.
    + intros _ _. exists pk. split; [done|]. intros i [x Hi]. rewrite Hbank in Hi.
      rewrite decide_True in Hi by done.
      destruct (Z.leb_spec (nr c) i), (Z.ltb_spec i until); simpl in Hi; try lia;
        pose proof (Hlow i (ex_intro _ x Hi)); lia.
    + intros Hrt. pose proof (bo_recv_tree _ Hb Hrt). congruence.
  - intros q i. unfold lookup_key. cbn. rewrite Hbank. destruct (decide (q = pk)) as [->|Hq].
    + rewrite Ht, !decide_True, Ek by done. cbn.
      destruct (Z.leb_spec (nr c) i) as [H1|H1], (Z.ltb_spec i until) as [H2|H2]; simpl.
      * destruct (skipped c !! (pk, i)) eqn:Es; [|done].
        pose proof (Hlow i (ex_intro _ _ Es)). lia.
      * destruct (skipped c !! (pk, i)) eqn:Es; [done|].
        rewrite (proj2 (Z.leb_le until i)) by lia.
        rewrite line_key_add by lia. do 2 f_equal. lia.
      * rewrite (proj2 (Z.leb_gt until i)) by lia. done.
      * lia.
    + destruct (decide (dh_pk_remote c = Some q)); [congruence|done].
  - congruence.
  - intros q i Hq. rewrite Hbank. destruct (decide (q = pk)) as [->|_]; [congruence|done].
Qed.

Lemma skip_message_keys_spec {R} c until (r : R) :
  bank_ok c -> runs (skip_message_keys c until) r too_many (skipped_to c until).
Proof.
  intros Hb. unfold skip_message_keys. destruct (Z.leb_spec until (nr c)); [by apply runs_ret, skipped_to_refl|].
  destruct (MAX_SKIP <? until - nr c); [apply runs_throw; by eexists|].
  destruct (Z.ltb_spec MAX_SKIP_TOTAL (Z.of_nat (size (skipped c)) + (until - nr c)));
    [apply runs_throw; by eexists|].
  destruct (ckr c) as [k|] eqn:Ek.
  2: { apply runs_ret, skipped_to_refl; [done|]. rewrite Ek. by intros [? ?]. }
  destruct (bo_chain _ Hb k Ek) as (pk & Er & _).
  apply runs_bind. eapply runs_expect; [exact Er|]. intros r'.
  destruct (bank_keys _ _ _ _ _) as [k' bank] eqn:Ebk.
  destruct (bank_keys_spec _ _ _ _ _ _ _ Ebk) as (-> & Hs & Hl).
  apply runs_ret. rewrite Z2Nat.id in * by lia. apply (skipped_to_banked _ _ k pk); try done.
  intros q j. rewrite Hl. replace (nr c + (until - nr c)) with until by lia. done.
Qed.

(** ** Limits of the trees *)

Definition tree_limits (m : gmap Key Holes) : Prop :=
  (forall pk h, m !! pk = Some h -> zlen h <= MAX_TREE_NODES_PER_CHAIN) /\
  tree_total m <= MAX_TREE_NODES_TOTAL.

Lemma elem_of_chains m e : e ∈ chains_sorted m <-> m !! e.1 = Some e.2.
Proof.
  unfold chains_sorted. rewrite merge_sort_Permutation. destruct e. by rewrite elem_of_map_to_list.
Qed.

Lemma check_tree_limits_spec {R} c (r : R) :
  runs (check_tree_limits c) r too_many (fun _ => tree_limits (tree_holes c)).
Proof.
  unfold check_tree_limits. destruct (List.find _ _) as [e|] eqn:E; [apply runs_throw; by eexists|].
  destruct (Z.ltb_spec MAX_TREE_NODES_TOTAL (tree_total (tree_holes c))); [apply runs_throw; by eexists|].
  apply runs_ret. split; [|done]. intros pk h Hm.
  assert ((pk, h) ∈ chains_sorted (tree_holes c)) as Hin by by apply elem_of_chains.
  apply list_elem_of_In in Hin. pose proof (find_none _ _ E _ Hin) as Hn. cbn in Hn. to_prop. done.
Qed.

(** ** Taking a key *)

(** The key of [pk] and [n] is handed out, and it is the only one that is gone. *)
Record took_key (c : RatchetCore) (pk : Key) (n : Z) (mk : Key) (c' : RatchetCore) : Prop := {
  tk_key : lookup_key c pk n = Some mk;
  tk_rest : n < U32_MAX -> forall q i,
    lookup_key c' q i = if decide ((q, i) = (pk, n)) then None else lookup_key c q i;
  tk_bank : bank_ok c';
  tk_size : Z.of_nat (size (skipped c)) <= MAX_SKIP_TOTAL -> Z.of_nat (size (skipped c')) <= MAX_SKIP_TOTAL;
  tk_frame : c' = c <| ckr := ckr c' |> <| skipped := skipped c' |> <| nr := nr c' |>
                    <| tree_holes := tree_holes c' |>;
  tk_unseen : forall q, q <> pk -> unseen c q -> unseen c' q;
  tk_nr : is_u32 (nr c) -> is_u32 n -> is_u32 (nr c');
  tk_trees : forall q, tree_holes c !! q = None -> tree_holes c' !! q = None
}.

(** A banked key. *)
Lemma took_skipped c pk n mk :
  bank_ok c -> skipped c !! (pk, n) = Some mk ->
  took_key c pk n mk (c <| skipped := delete (pk, n) (skipped c) |>).
Proof.
  intros Hb Es.
  assert (tree_holes c !! pk = None) as Ht.
  { destruct (tree_holes c !! pk) eqn:E; [|done].
    pose proof (bo_tree_skipped _ Hb pk n ltac:(by rewrite E)). congruence. }
  assert (forall k, ckr c = Some k -> dh_pk_remote c = Some pk -> n < nr c) as Hlow.
  { intros k Ek Er. destruct (bo_chain _ Hb k Ek) as (pk' & Er' & Hl).
    assert (pk' = pk) as -> by congruence. apply Hl. by rewrite Es. }
  split; cbn.
  - unfold lookup_key. by rewrite Es.
  - intros _ q i. unfold lookup_key. cbn. destruct (decide ((q, i) = (pk, n))) as [[= -> ->]|Hne].
    + rewrite lookup_delete_eq, Ht. destruct (decide _) as [Er|]; [|done].
      destruct (ckr c) as [k|] eqn:Ek; [|done]. cbn.
      rewrite (proj2 (Z.leb_gt _ _)) by (by apply (Hlow k)). done.
    + by rewrite lookup_delete_ne.
  - split; cbn; try apply Hb.
    + intros q i Hq. rewrite lookup_delete_None. right. by apply Hb.
    + intros k Ek. destruct (bo_chain _ Hb k Ek) as (pk' & Er' & Hl). exists pk'. split; [done|].
      intros i [x Hx]. apply lookup_delete_Some in Hx as [_ Hx]. apply Hl. by rewrite Hx.
  - rewrite map_size_delete, Es. lia.
  - by destruct c.
  - intros q _ [? Hq]. split; [done|]. intros i. cbn. rewrite lookup_delete_None. by right.
  - done.
  - done.
Qed.

(** A leaf of the tree of [pk]; [nr] moves only for a receiving chain that is a tree, and an empty
    tree may be dropped where the chain is not the current one. *)
Lemma took_leaf (c : RatchetCore) (pk : Key) (n : Z) (h : Holes) (mk : Key) (h' : Holes) (m : gmap Key Holes) (nr' : Z) :
  bank_ok c -> tree_holes c !! pk = Some h -> take_leaf h n = Some (mk, h') ->
  m = <[pk := h']> (tree_holes c) \/ (dh_pk_remote c <> Some pk /\ m = delete pk (tree_holes c) /\ h' = []) ->
  (nr' = nr c \/ dh_pk_remote c = Some pk) -> (is_u32 (nr c) -> is_u32 n -> is_u32 nr') ->
  took_key c pk n mk (c <| tree_holes := m |> <| nr := nr' |>).
Proof.
  intros Hb Et El Hm Hnr Hnr'.
  destruct (take_leaf_leaf h n mk h' (bo_trees _ Hb _ _ Et) El) as (Hr & Hl & Hrest & _).
  pose proof (bo_tree_skipped _ Hb pk) as Hsk.
  assert (recv_tree c = false -> dh_pk_remote c <> Some pk) as Hcur.
  { intros Hrt Er. pose proof (bo_recv_line _ Hb pk Hrt Er). congruence. }
  assert (forall q, q <> pk -> m !! q = tree_holes c !! q) as Hq.
  { intros q Hne. destruct Hm as [->|(_ & -> & _)]; [by rewrite lookup_insert_ne|by rewrite lookup_delete_ne]. }
  assert (forall q h0, m !! q = Some h0 -> (q = pk /\ h0 = h') \/ tree_holes c !! q = Some h0) as Hin.
  { intros q h0 Hq0. destruct (decide (q = pk)) as [->|Hne]; [|right; by rewrite <- Hq].
    destruct Hm as [->|(_ & -> & _)]; [rewrite lookup_insert_eq in Hq0|rewrite lookup_delete_eq in Hq0];
      naive_solver. }
  assert (forall k, ckr c = Some k -> dh_pk_remote c <> Some pk) as Hck.
  { intros k Ek Er. pose proof (chain_no_tree c k pk Hb Ek Er). congruence. }
  split; cbn; try done.
  - unfold lookup_key. rewrite Hsk by eauto. by rewrite Et.
  - intros _ q i. unfold lookup_key. cbn. destruct (decide (q = pk)) as [->|Hne].
    + rewrite Hsk, Et by eauto. destruct Hm as [->|(Hc & -> & ->)].
      * rewrite lookup_insert_eq, Hrest.
        destruct (decide (i = n)) as [->|Hi]; [by rewrite decide_True|rewrite decide_False; congruence].
      * rewrite lookup_delete_eq, decide_False by done. specialize (Hrest i).
        destruct (decide (i = n)) as [->|Hi]; [by rewrite decide_True|].
        rewrite decide_False by congruence. by rewrite <- Hrest.
    + destruct (decide ((q, i) = (pk, n))); [congruence|]. rewrite Hq by done.
      destruct Hnr as [->|Er]; [done|]. destruct (decide (dh_pk_remote c = Some q)); [congruence|done].
  - split; cbn; try apply Hb.
    + intros q h0 Hq0. destruct (Hin q h0 Hq0) as [[-> ->]|Ho]; [done|by eapply Hb].
    + intros q i [h0 Hq0]. destruct (Hin q h0 Hq0) as [[-> ->]|Ho]; apply Hb; eauto.
    + intros k Ek. destruct (bo_chain _ Hb k Ek) as (pk' & Er & Hl0). exists pk'. split; [done|].
      destruct Hnr as [->|Er']; [done|]. by apply (Hck k) in Er'.
    + intros q Hrt Er. rewrite Hq; [by apply Hb|]. intros ->. by apply Hcur.
  - intros q Hne [? ?]. split; [by cbn; rewrite Hq|done].
  - intros q Hn. rewrite Hq; [done|]. congruence.
Qed.

(** The next key of the hash chain. *)
Lemma took_chain c pk k :
  bank_ok c -> ckr c = Some k -> dh_pk_remote c = Some pk -> is_u32 (nr c) ->
  took_key c pk (nr c) (kdf_ck k).2
    (c <| ckr := Some (kdf_ck k).1 |> <| nr := sat_add32 (nr c) 1 |>).
Proof.
  intros Hb Ek Er Hpos. pose proof (chain_no_tree _ _ _ Hb Ek Er) as Ht.
  destruct (bo_chain _ Hb k Ek) as (pk' & Er' & Hlow). assert (pk' = pk) as -> by congruence.
  assert (forall i, nr c <= i -> skipped c !! (pk, i) = None) as Hno.
  { intros i Hi. destruct (skipped c !! (pk, i)) eqn:Es; [|done].
    pose proof (Hlow i ltac:(by rewrite Es)). lia. }
  assert (nr c <= sat_add32 (nr c) 1) as Hsat by (unfold sat_add32, U32_MAX, is_u32 in *; lia).
  split; cbn; try done.
  - unfold lookup_key. rewrite Hno, Ht, decide_True, Ek by (done || lia). cbn.
    rewrite Z.leb_refl, Z.sub_diag. done.
  - intros Hmax q i. unfold lookup_key. cbn. destruct (decide (q = pk)) as [->|Hq].
    2: { destruct (decide ((q, i) = _)); [congruence|].
         destruct (decide (dh_pk_remote c = Some q)); [congruence|done]. }
    rewrite Ht, !(decide_True (P := dh_pk_remote c = _)), Ek by done. cbn.
    replace (sat_add32 (nr c) 1) with (nr c + 1) by (unfold sat_add32; lia).
    change (hkdf_expand k INFO_CHAIN KEY_LEN) with (chain_at k 1).
    destruct (decide ((pk, i) = (pk, nr c))) as [[= ->]|Hi].
    + rewrite Hno by lia. rewrite (proj2 (Z.leb_gt _ _)) by lia. done.
    + destruct (skipped c !! (pk, i)) eqn:Es; [done|].
      destruct (Z.leb_spec (nr c) i), (Z.leb_spec (nr c + 1) i); try done; try lia.
      * rewrite line_key_add by lia. do 2 f_equal. lia.
      * exfalso. apply Hi. f_equal. lia.
  - split; cbn; try apply Hb.
    + intros _ _. exists pk. split; [done|]. intros i Hi. pose proof (Hlow i Hi). lia.
    + intros Hrt. pose proof (bo_recv_tree _ Hb Hrt). congruence.
  - unfold sat_add32, is_u32, U32_MAX in *. lia.
Qed.

(** Banking first, then taking. *)
Lemma skipped_to_took c until pk n mk c1 c2 :
  skipped_to c until c1 -> dh_pk_remote c = Some pk -> (is_u32 (nr c) -> is_u32 (nr c1)) ->
  took_key c1 pk n mk c2 -> took_key c pk n mk c2.
Proof.
  intros Hs Er Hnr Ht. split.
  - rewrite <- (st_lookup _ _ _ Hs). apply Ht.
  - intros Hn q i. rewrite (tk_rest _ _ _ _ _ Ht Hn). case_decide; [done|]. apply Hs.
  - apply Ht.
  - intros Hsz. apply Ht, Hs, Hsz.
  - rewrite (tk_frame _ _ _ _ _ Ht) at 1. rewrite (st_frame _ _ _ Hs). done.
  - intros q Hq [Hq1 Hq2]. apply (tk_unseen _ _ _ _ _ Ht); [done|]. split.
    + rewrite (st_frame _ _ _ Hs). done.
    + intros i. rewrite (st_skipped _ _ _ Hs) by congruence. done.
  - intros Hu Hn. apply (tk_nr _ _ _ _ _ Ht); [|done]. by apply Hnr.
  - intros q Hq. apply (tk_trees _ _ _ _ _ Ht). rewrite (st_frame _ _ _ Hs). done.
Qed.

(** The errors of a header whose chain is already known. *)
Definition recv_err (c : RatchetCore) (header : Header) (e : RatchetError) : Prop :=
  too_many e \/
  (e = MessageKeyUnavailable /\ lookup_key c (h_dh_pk header) (h_n header) = None) \/
  (exists why, e = MalformedFrame why /\
     (dh_pk_remote c = Some (h_dh_pk header) -> recv_tree c <> h_tree header) /\
     (dh_pk_remote c <> Some (h_dh_pk header) ->
        h_tree header = false /\ is_Some (tree_holes c !! h_dh_pk header))).

Lemma leaf_take h i : leaf h i = None -> take_leaf h i = None.
Proof. unfold leaf. by destruct (take_leaf h i). Qed.

Lemma recv_straggler_spec {R} c header h (r : R) :
  bank_ok c -> tree_holes c !! h_dh_pk header = Some h -> dh_pk_remote c <> Some (h_dh_pk header) ->
  runs (recv_straggler c header h) r (recv_err c header)
    (fun x => took_key c (h_dh_pk header) (h_n header) x.1 x.2).
Proof.
  intros Hb Et Hr. unfold recv_straggler. destruct (h_tree header) eqn:Eh; cbn [negb].
  2: { apply runs_throw. right. right. eexists. split; [done|]. split; [done|]. intros _.
       split; [done|by rewrite Et]. }
  apply runs_bind, runs_ok_or.
  { intros El. right. left. split; [done|]. unfold lookup_key.
    rewrite (bo_tree_skipped _ Hb) by by rewrite Et. rewrite Et. unfold leaf. by rewrite El. }
  intros [mk h'] El r1. apply runs_bind. eapply runs_mono; [apply check_tree_limits_spec|by left|].
  intros _ _ r2. apply runs_ret. cbn [fst snd].
  replace (c <| tree_holes := _ |>) with
    (c <| tree_holes := if is_nil h' then delete (h_dh_pk header) (tree_holes c)
                        else <[h_dh_pk header := h']> (tree_holes c) |> <| nr := nr c |>) by by destruct c.
  apply (took_leaf c _ _ h _ h'); [done|done|done| |by left|done].
  destruct h'; [right|left]; done.
Qed.

Lemma recv_current_spec {R} c header (r : R) :
  bank_ok c -> dh_pk_remote c = Some (h_dh_pk header) ->
  skipped c !! (h_dh_pk header, h_n header) = None -> is_u32 (nr c) -> is_u32 (h_n header) ->
  runs (recv_current c header) r (recv_err c header)
    (fun x => took_key c (h_dh_pk header) (h_n header) x.1 x.2).
Proof.
  intros Hb Er Es Hnr Hhn. unfold recv_current. destruct (eqb (recv_tree c) (h_tree header)) eqn:Eq; cbn [negb].
  2: { apply runs_throw. right. right. eexists. split; [done|]. split; [|done].
       intros _ Heq. rewrite Heq in Eq. by destruct (h_tree header). }
  destruct (recv_tree c) eqn:Ert.
  - destruct (Z.ltb_spec (U32_MAX / 2) (h_n header)); [apply runs_throw; left; by eexists|].
    assert (lookup_key c (h_dh_pk header) (h_n header) =
      tree_holes c !! h_dh_pk header ≫= fun h => leaf h (h_n header)) as Hlk.
    { unfold lookup_key. rewrite Es. destruct (tree_holes c !! _); [done|].
      by rewrite decide_True, (bo_recv_tree _ Hb Ert). }
    apply runs_bind, runs_ok_or.
    { intros Et. right. left. split; [done|]. by rewrite Hlk, Et. }
    intros h Et r1. apply runs_bind, runs_ok_or.
    { intros El. right. left. split; [done|]. rewrite Hlk, Et. cbn. unfold leaf. by rewrite El. }
    intros [mk h'] El r2. apply runs_bind. eapply runs_mono; [apply check_tree_limits_spec|by left|].
    intros _ _ r3. apply runs_ret. cbn [fst snd]. apply (took_leaf c _ _ h _ h'); auto.
    unfold is_u32, U32_MAX in *. mlia.
  - destruct (Z.ltb_spec (h_n header) (nr c)).
    { apply runs_throw. right. left. split; [done|]. unfold lookup_key.
      rewrite Es, (bo_recv_line _ Hb _ Ert Er), decide_True by done. destruct (ckr c); [|done]. cbn.
      by rewrite (proj2 (Z.leb_gt _ _)). }
    apply runs_bind. eapply runs_mono; [by apply skip_message_keys_spec|by left|].
    intros c1 Hs r1. cbn beta. apply runs_bind, runs_ok_or.
    { intros Ek. right. left. split; [done|].
      assert (ckr c = None) as Ek0.
      { destruct (ckr c) eqn:E; [|done]. pose proof (proj2 (st_ckr _ _ _ Hs) (mk_is_Some _ _ E)) as [? ?].
        congruence. }
      unfold lookup_key. by rewrite Es, (bo_recv_line _ Hb _ Ert Er), decide_True, Ek0. }
    intros k Ek r2. destruct (kdf_ck k) as [next mk] eqn:Ekk. apply runs_ret. cbn [fst snd].
    assert (nr c1 = h_n header) as Hn.
    { rewrite (st_nr _ _ _ Hs); [lia|]. apply (st_ckr _ _ _ Hs). by rewrite Ek. }
    eapply skipped_to_took; [exact Hs|done|by rewrite Hn|].
    pose proof (took_chain c1 (h_dh_pk header) k (st_bank _ _ _ Hs) Ek) as Htc.
    rewrite Ekk, Hn in Htc. rewrite Hn. apply Htc; [|done]. rewrite (st_frame _ _ _ Hs). done.
Qed.

(** ** Turning the epoch *)

(** Closing the tree of the chain that ends: only what lies below [pn] is kept. *)
Record closed_to (c : RatchetCore) (pn : Z) (c' : RatchetCore) : Prop := {
  cl_frame : c' = c <| tree_holes := tree_holes c' |>;
  cl_bank : bank_ok c';
  cl_lookup : forall q i, 0 <= i -> (dh_pk_remote c = Some q -> i < pn) ->
    lookup_key c' q i = lookup_key c q i;
  cl_less : forall q i x, lookup_key c' q i = Some x -> lookup_key c q i = Some x;
  cl_none : forall q, tree_holes c !! q = None -> tree_holes c' !! q = None
}.

Lemma closed_to_refl c pn : bank_ok c -> closed_to c pn c.
Proof. intros Hb. split; try done. by destruct c. Qed.

Lemma close_tree_spec {R} c pn (r : R) E : bank_ok c -> runs (close_tree c pn) r E (closed_to c pn).
Proof.
  intros Hb. unfold close_tree. destruct (recv_tree c) eqn:Ert; [|by apply runs_ret, closed_to_refl].
  destruct (dh_pk_remote c) as [pk|] eqn:Er; [|by apply runs_ret, closed_to_refl].
  destruct (tree_holes c !! pk) as [h|] eqn:Et; [|by apply runs_ret, closed_to_refl].
  destruct (retain_leaf h 0 pn (bo_trees _ Hb _ _ Et)) as (h' & Eh & Hr & Hl).
  apply runs_bind. eapply runs_expect; [exact Eh|]. intros r1. apply runs_ret.
  pose proof (bo_tree_skipped _ Hb pk) as Hsk.
  split; cbn; try done.
  - split; cbn; try apply Hb.
    + intros q h0 Hq. apply lookup_insert_Some in Hq as [[<- <-]|[_ Hq]]; [done|by eapply Hb].
    + intros q i [h0 Hq]. apply lookup_insert_Some in Hq as [[<- <-]|[_ Hq]]; apply Hb; eauto.
    + intros q Hrt. congruence.
  - intros q i Hi Hq. unfold lookup_key. cbn. destruct (decide (q = pk)) as [->|Hne].
    + rewrite lookup_insert_eq, Et, Hl. rewrite (proj2 (Z.leb_le _ _)), (proj2 (Z.ltb_lt _ _)); auto.
    + by rewrite lookup_insert_ne.
  - intros q i x. unfold lookup_key. cbn. destruct (decide (q = pk)) as [->|Hne].
    + rewrite lookup_insert_eq, Et, Hl. destruct (skipped c !! _); [done|]. by destruct (_ && _).
    + by rewrite lookup_insert_ne.
  - intros q Hq. rewrite lookup_insert_ne; [done|]. congruence.
Qed.

End keys.

(** The message key of index [i] of a chain. *)
Definition msg_key `{Hkdf} (tree : bool) (k : Key) (i : Z) : Key :=
  if tree then leaf_key k i else line_key k i.

Section turn.
Context `{Hkdf} `{X25519} `{MlKem} {R : Type} `{Rng R}.

(** The root key and the chain key that the receiver of a header derives. *)
Definition recv_root (c : RatchetCore) (header : Header) : Key * Key :=
  kdf_rk (rk c) (x25519_dh (dh_sk c) (h_dh_pk header)) (decapsulate (pq c) <$> h_pq_ct header).

(** The root key and the sending chain key of the next epoch. *)
Definition send_root (c : RatchetCore) (header : Header) (peer_ek m sk : Key) : Key * Key :=
  kdf_rk (recv_root c header).1 (x25519_dh sk (h_dh_pk header)) (Some (mlkem_encaps peer_ek m).2).

(** What [asymmetric_step] needs of a header and of a state. *)
Definition pq_answered (c : RatchetCore) (header : Header) (peer_ek : Key) : Prop :=
  h_pq_ek header = Some peer_ek /\ mlkem_valid peer_ek = true /\
  (h_pq_ct header = None -> sent_any c = false).

(** The state after [asymmetric_step] with the random draws [m], [sk] and [seed]. *)
Definition new_epoch (c : RatchetCore) (header : Header) (peer_ek m sk seed : Key) : RatchetCore :=
  c <| pn := ns c |> <| ns := 0 |> <| nr := 0 |>
    <| tree_holes := filter (fun e => e.2 ≠ []) (tree_holes c) |>
    <| send_tree := None |> <| send_mode := Undecided |>
    <| dh_pk_remote := Some (h_dh_pk header) |>
    <| rk := (send_root c header peer_ek m sk).1 |>
    <| ckr := Some (recv_root c header).2 |>
    <| cks := Some (send_root c header peer_ek m sk).2 |>
    <| dh_sk := sk |> <| dh_pk := x25519_public sk |>
    <| pq := mkPq seed (mlkem_ek seed) (Some (mlkem_encaps peer_ek m).1) |>.

(** The errors of [asymmetric_step]. *)
Definition asym_err (c : RatchetCore) (header : Header) (e : RatchetError) : Prop :=
  (e = PqDowngrade /\ (h_pq_ek header = None \/ (h_pq_ct header = None /\ sent_any c = true))) \/
  (e = InvalidPqKey /\ exists ek, h_pq_ek header = Some ek /\ mlkem_valid ek = false) \/
  e = NonContributory.

Lemma runs_dh sk pk (r : R) (E : RatchetError -> Prop) (Q : Key -> Prop) :
  E NonContributory -> Q (x25519_dh sk pk) -> runs (diffie_hellman sk pk) r E Q.
Proof. intros HE HQ. unfold diffie_hellman. by destruct (x25519_contributory _). Qed.

Lemma asymmetric_step_spec c header (r : R) :
  runs (asymmetric_step c header) r (asym_err c header)
    (fun c' => exists peer_ek m sk seed,
       pq_answered c header peer_ek /\ c' = new_epoch c header peer_ek m sk seed).
Proof.
  unfold asymmetric_step. apply runs_bind, runs_ok_or; [intros E; left; by auto|].
  intros peer_ek Eek r1. apply runs_bind.
  set (post := fun x => x = (decapsulate (pq c) <$> h_pq_ct header) /\
                        (h_pq_ct header = None -> sent_any c = false)).
  assert (runs (R := R) match h_pq_ct header with
    | Some ct => mret (Some (decapsulate (pq c) ct))
    | None => if sent_any c then throw PqDowngrade else mret None
    end r1 (asym_err c header) post) as Hct.
  { destruct (h_pq_ct header) as [ct|] eqn:Ect; [by apply runs_ret|].
    destruct (sent_any c) eqn:Es; [apply runs_throw; left; by auto|by apply runs_ret]. }
  eapply runs_mono; [exact Hct|done|]. intros x [-> Hsent] r2. apply runs_bind.
  unfold encapsulate_to. destruct (mlkem_valid peer_ek) eqn:Ev; cbn [negb].
  2: { apply runs_throw. right. left. by eauto. }
  apply runs_bind, runs_draw. intros m r3. destruct (mlkem_encaps peer_ek m) as [ct ss] eqn:Een.
  apply runs_ret. intros r4. apply runs_bind, runs_dh; [by right; right|]. intros r5.
  apply runs_bind, runs_draw. intros sk r6. apply runs_bind, runs_dh; [by right; right|]. intros r7.
  fold (recv_root c header). destruct (recv_root c header) as [rk1 ckr1] eqn:E1.
  destruct (kdf_rk rk1 _ (Some ss)) as [rk2 cks2] eqn:E2.
  apply runs_bind, runs_bind, runs_draw. intros seed r8. apply runs_ret. intros r9.
  apply runs_ret. exists peer_ek, m, sk, seed. split; [done|].
  unfold new_epoch, send_root. rewrite E1, Een. cbn [fst snd]. by rewrite E2.
Qed.

(** The state after [turn_epoch]: new chains, and the keys held of the older ones below [pn]. *)
Record turned (c : RatchetCore) (header : Header) (c' : RatchetCore) : Prop := {
  tn_send : exists peer_ek m sk seed, pq_answered c header peer_ek /\
    dh_sk c' = sk /\ dh_pk c' = x25519_public sk /\
    (rk c', cks c') = ((send_root c header peer_ek m sk).1, Some (send_root c header peer_ek m sk).2) /\
    pq c' = mkPq seed (mlkem_ek seed) (Some (mlkem_encaps peer_ek m).1);
  tn_counters : ns c' = 0 /\ nr c' = 0 /\ pn c' = ns c;
  tn_mode : send_mode c' = Undecided /\ send_tree c' = None /\ sent_any c' = sent_any c /\
    peer_tree c' = peer_tree c;
  tn_remote : dh_pk_remote c' = Some (h_dh_pk header) /\ recv_tree c' = h_tree header;
  tn_new : forall i, is_u32 i ->
    lookup_key c' (h_dh_pk header) i = Some (msg_key (h_tree header) (recv_root c header).2 i);
  tn_old : forall q i, q <> h_dh_pk header -> 0 <= i -> (dh_pk_remote c = Some q -> i < h_pn header) ->
    lookup_key c' q i = lookup_key c q i;
  tn_fresh : forall i, skipped c' !! (h_dh_pk header, i) = None;
  tn_bank : bank_ok c';
  tn_size : Z.of_nat (size (skipped c)) <= MAX_SKIP_TOTAL -> Z.of_nat (size (skipped c')) <= MAX_SKIP_TOTAL;
  tn_unseen : forall q, q <> h_dh_pk header -> dh_pk_remote c <> Some q -> unseen c q -> unseen c' q;
  tn_trees : forall q, tree_holes c !! q = None -> (q = h_dh_pk header -> h_tree header = false) ->
    tree_holes c' !! q = None
}.

Lemma leaf_nil i : leaf [] i = None.
Proof. done. Qed.

(** The step itself, from a state whose receiving chain is banked and closed up to [pn]. *)
Lemma new_epoch_lookup c header peer_ek m sk seed q i :
  q <> h_dh_pk header -> (forall k, ckr c = Some k -> dh_pk_remote c = Some q -> i < nr c) ->
  lookup_key (new_epoch c header peer_ek m sk seed) q i = lookup_key c q i.
Proof.
  intros Hq Hlow. unfold lookup_key. cbn. destruct (skipped c !! (q, i)); [done|].
  rewrite decide_False by congruence. rewrite map_lookup_filter.
  destruct (tree_holes c !! q) as [h|]; cbn.
  - destruct (decide (h = [])) as [->|Hne]; [by rewrite option_guard_False by tauto|].
    by rewrite option_guard_True.
  - destruct (decide (dh_pk_remote c = Some q)) as [Er|]; [|done].
    destruct (ckr c) as [k|]; [|done]. cbn. rewrite (proj2 (Z.leb_gt _ _)); [done|]. by apply (Hlow k).
Qed.

Lemma filter_tree_Some (m : gmap Key Holes) q h :
  filter (fun e : Key * Holes => e.2 ≠ []) m !! q = Some h -> m !! q = Some h.
Proof. intros Hf. by apply map_lookup_filter_Some in Hf as [? _]. Qed.

Lemma new_epoch_bank c header peer_ek m sk seed :
  bank_ok c -> unseen c (h_dh_pk header) ->
  bank_ok (new_epoch c header peer_ek m sk seed <| recv_tree := false |>).
Proof.
  intros Hb [Hu1 Hu2]. split; cbn; try done.
  - intros q h Hq. apply filter_tree_Some in Hq. by eapply Hb.
  - intros q i [h Hq]. apply filter_tree_Some in Hq. apply Hb. eauto.
  - intros k _. exists (h_dh_pk header). split; [done|]. intros i [x Hx]. by rewrite Hu2 in Hx.
  - intros q _ [= <-]. rewrite map_lookup_filter, Hu1. done.
Qed.

(** The new receiving chain as a tree. *)
Lemma as_tree_bank c pk k :
  bank_ok c -> dh_pk_remote c = Some pk -> (forall i, skipped c !! (pk, i) = None) ->
  bank_ok (c <| recv_tree := true |> <| ckr := None |> <| tree_holes := <[pk := holes_root k]> (tree_holes c) |>).
Proof.
  intros Hb Er Hu. split; cbn; try done.
  - intros q h Hq. apply lookup_insert_Some in Hq as [[<- <-]|[_ Hq]]; [apply holes_root_leaf|by eapply Hb].
  - intros q i [h Hq]. apply lookup_insert_Some in Hq as [[<- <-]|[_ Hq]]; [done|]. apply Hb. eauto.
Qed.

Lemma line_lookup c pk k i :
  dh_pk_remote c = Some pk -> ckr c = Some k -> nr c = 0 -> unseen c pk -> 0 <= i ->
  lookup_key c pk i = Some (line_key k i).
Proof.
  intros Er Ek En [Hu1 Hu2] Hi. unfold lookup_key. rewrite Hu1, Hu2, decide_True, Ek, En by done. cbn.
  rewrite (proj2 (Z.leb_le _ _)), Z.sub_0_r by done. done.
Qed.

Lemma tree_lookup c pk k i :
  tree_holes c !! pk = Some (holes_root k) -> skipped c !! (pk, i) = None -> is_u32 i ->
  lookup_key c pk i = Some (leaf_key k i).
Proof.
  intros Et Hs [? ?]. unfold lookup_key. rewrite Hs, Et. destruct (holes_root_leaf k) as [_ ->].
  by rewrite (proj2 (Z.leb_le _ _)), (proj2 (Z.ltb_lt _ _)).
Qed.

(** The receiving chain banked and closed, before the step. *)
Record readied (c : RatchetCore) (pn : Z) (c' : RatchetCore) : Prop := {
  rd_frame : c' = c <| ckr := ckr c' |> <| skipped := skipped c' |> <| nr := nr c' |>
                    <| tree_holes := tree_holes c' |>;
  rd_bank : bank_ok c';
  rd_lookup : forall q i, 0 <= i -> (dh_pk_remote c = Some q -> i < pn) ->
    lookup_key c' q i = lookup_key c q i;
  rd_low : forall k, ckr c' = Some k -> pn <= nr c';
  rd_size : Z.of_nat (size (skipped c)) <= MAX_SKIP_TOTAL -> Z.of_nat (size (skipped c')) <= MAX_SKIP_TOTAL;
  rd_unseen : forall q, dh_pk_remote c <> Some q -> unseen c q -> unseen c' q;
  rd_trees : forall q, tree_holes c !! q = None -> tree_holes c' !! q = None
}.

Lemma readied_intro c pn c1 c2 :
  skipped_to c pn c1 -> closed_to c1 pn c2 -> readied c pn c2.
Proof.
  intros Hs Hc. pose proof (st_frame _ _ _ Hs) as F1. pose proof (cl_frame _ _ _ Hc) as F2.
  assert (dh_pk_remote c1 = dh_pk_remote c) as Er by (rewrite F1; done).
  split.
  - clear - F1 F2. destruct c, c1, c2. unfold set_field in *. cbn in *. injection F1; injection F2; intros; subst; reflexivity.
  - apply Hc.
  - intros q i Hi Hq. rewrite (cl_lookup _ _ _ Hc) by (done || by rewrite Er). apply Hs.
  - intros k Ek. rewrite F2 in Ek |- *. cbn in Ek |- *. rewrite (st_nr _ _ _ Hs); [lia|].
    apply (st_ckr _ _ _ Hs). by rewrite Ek.
  - intros Hsz. rewrite F2. cbn. by apply Hs.
  - intros q Hq [Hu1 Hu2]. split.
    + apply (cl_none _ _ _ Hc). rewrite F1. done.
    + intros i. rewrite F2. cbn. rewrite (st_skipped _ _ _ Hs) by done. done.
  - intros q Hq. apply (cl_none _ _ _ Hc). rewrite F1. done.
Qed.

(** The state [turn_epoch] ends in. *)
Definition turn_result (c : RatchetCore) (header : Header) : RatchetCore :=
  if h_tree header then
    match ckr c with
    | Some k => c <| recv_tree := true |> <| ckr := None |>
                  <| tree_holes := <[h_dh_pk header := holes_root k]> (tree_holes c) |>
    | None => c
    end
  else c <| recv_tree := false |>.

Lemma turn_result_lookup c (pk q : Key) i :
  dh_pk_remote c = Some pk -> q <> pk ->
  lookup_key match ckr c with
    | Some k => c <| recv_tree := true |> <| ckr := None |>
                  <| tree_holes := <[pk := holes_root k]> (tree_holes c) |>
    | None => c
    end q i = lookup_key c q i.
Proof.
  intros Er Hq. destruct (ckr c); [|done]. unfold lookup_key. cbn.
  rewrite lookup_insert_ne by done. rewrite !decide_False by congruence. done.
Qed.

Lemma turned_intro c c2 header peer_ek m sk seed :
  readied c (h_pn header) c2 -> unseen c (h_dh_pk header) -> dh_pk_remote c <> Some (h_dh_pk header) ->
  pq_answered c2 header peer_ek ->
  turned c header (turn_result (new_epoch c2 header peer_ek m sk seed) header).
Proof.
  intros Hrd Hu Hne Hpq. pose proof (rd_frame _ _ _ Hrd) as F.
  pose proof (rd_unseen _ _ _ Hrd _ Hne Hu) as Hu2.
  assert (recv_root c2 header = recv_root c header) as Eroot by (rewrite F; done).
  assert (forall e k, send_root c2 header e m k = send_root c header e m k) as Esend
    by (intros; unfold send_root; by rewrite Eroot).
  pose proof (new_epoch_bank c2 header peer_ek m sk seed (rd_bank _ _ _ Hrd) Hu2) as Hb.
  assert (bank_ok (turn_result (new_epoch c2 header peer_ek m sk seed) header)) as Hbank.
  { unfold turn_result. destruct (h_tree header); [|done].
    apply (as_tree_bank _ (h_dh_pk header) (recv_root c2 header).2 Hb); [done|apply Hu2]. }
  assert (filter (fun e : Key * Holes => e.2 ≠ []) (tree_holes c2) !! h_dh_pk header = None) as Hf.
  { rewrite map_lookup_filter, (proj1 Hu2). done. }
  split; [| | | | | | |exact Hbank| | |]; clear Hb Hbank; unfold turn_result.
  - exists peer_ek, m, sk, seed. rewrite <- Esend. split.
    { destruct Hpq as (? & ? & Hs). split_and!; [done|done|]. rewrite F in Hs. done. }
    by destruct (h_tree header).
  - rewrite F. by destruct (h_tree header).
  - rewrite F. by destruct (h_tree header).
  - by destruct (h_tree header).
  - intros i Hi. rewrite <- Eroot. unfold msg_key. destruct (h_tree header).
    + apply tree_lookup; [cbn; by rewrite lookup_insert_eq|apply Hu2|done].
    + apply line_lookup; [done|done|done|split; [done|apply Hu2]|apply Hi].
  - intros q i Hq Hi Hpn. rewrite <- (rd_lookup _ _ _ Hrd q i Hi Hpn).
    assert (dh_pk_remote c2 = dh_pk_remote c) as Er by (rewrite F; done).
    rewrite <- (new_epoch_lookup c2 header peer_ek m sk seed q i Hq).
    2: { intros k Ek Er2. pose proof (rd_low _ _ _ Hrd k Ek). rewrite Er in Er2. specialize (Hpn Er2). lia. }
    assert (dh_pk_remote (new_epoch c2 header peer_ek m sk seed) = Some (h_dh_pk header)) as Er3 by done.
    generalize dependent (new_epoch c2 header peer_ek m sk seed). intros c3 Er3.
    destruct (h_tree header); [|done]. by apply turn_result_lookup.
  - intros i. destruct (h_tree header); apply Hu2.
  - intros Hsz. apply Hrd in Hsz. by destruct (h_tree header).
  - intros q Hq Hr Huq. apply (rd_unseen _ _ _ Hrd) in Huq as [Hq1 Hq2]; [|done].
    assert (filter (fun e : Key * Holes => e.2 ≠ []) (tree_holes c2) !! q = None) as Hfq.
    { rewrite map_lookup_filter, Hq1. done. }
    destruct (h_tree header); split; cbn; try done. by rewrite lookup_insert_ne.
  - intros q Hq Htr. apply (rd_trees _ _ _ Hrd) in Hq.
    assert (filter (fun e : Key * Holes => e.2 ≠ []) (tree_holes c2) !! q = None) as Hfq.
    { rewrite map_lookup_filter, Hq. done. }
    destruct (h_tree header); cbn; [|done]. rewrite lookup_insert_ne; [done|]. intros <-. by specialize (Htr eq_refl).
Qed.

Lemma turn_epoch_spec c header (r : R) :
  bank_ok c -> unseen c (h_dh_pk header) -> dh_pk_remote c <> Some (h_dh_pk header) ->
  runs (turn_epoch c header) r (fun e => too_many e \/ asym_err c header e) (turned c header).
Proof.
  intros Hb Hu Hne. unfold turn_epoch. apply runs_bind.
  assert (runs (if is_some (ckr c) then skip_message_keys c (h_pn header) else mret c) r too_many
    (skipped_to c (h_pn header))) as Hsk.
  { destruct (ckr c) eqn:Ek; cbn; [by apply skip_message_keys_spec|].
    change (skipped_to c (h_pn header) c). apply skipped_to_refl; [done|]. rewrite Ek. by intros [? ?]. }
  eapply runs_mono; [exact Hsk|by left|]. intros c1 Hs r1. apply runs_bind.
  eapply runs_mono; [apply (close_tree_spec _ _ _ (fun _ => False)), (st_bank _ _ _ Hs)|done|].
  intros c2 Hc r2.
  pose proof (readied_intro _ _ _ _ Hs Hc) as Hrd. clear c1 Hsk Hs Hc.
  apply runs_bind. eapply runs_mono; [apply asymmetric_step_spec| |].
  { intros e He. right. unfold asym_err in *. rewrite (rd_frame _ _ _ Hrd) in He. done. }
  intros c3 (peer_ek & m & sk & seed & Hpq & ->) r3.
  pose proof (turned_intro c c2 header peer_ek m sk seed Hrd Hu Hne Hpq) as Ht.
  assert (ckr (new_epoch c2 header peer_ek m sk seed) = Some (recv_root c2 header).2) as Ek by done.
  generalize dependent (new_epoch c2 header peer_ek m sk seed). intros c3 Ht Ek.
  unfold turn_result in Ht. rewrite Ek in Ht. cbn zeta. destruct (h_tree header).
  - apply runs_bind. eapply runs_expect; [exact Ek|]. intros r4. by apply runs_ret.
  - by apply runs_ret.
Qed.

(** ** The receive path *)

(** A header of a chain the state already knows: its key, or the refusals of [recv_err]. *)
Lemma recv_step_known c header (r : R) :
  bank_ok c -> is_u32 (nr c) -> is_u32 (h_n header) ->
  dh_pk_remote c = Some (h_dh_pk header) \/ is_Some (tree_holes c !! h_dh_pk header) \/
    is_Some (skipped c !! (h_dh_pk header, h_n header)) ->
  runs (recv_step c header) r (recv_err c header)
    (fun x => took_key c (h_dh_pk header) (h_n header) x.1 x.2).
Proof.
  intros Hb Hnr Hn Hk. unfold recv_step.
  destruct (skipped c !! (h_dh_pk header, h_n header)) as [mk|] eqn:Es.
  { apply runs_ret. cbn [fst snd]. by apply took_skipped. }
  unfold is_new_epoch. destruct (decide (dh_pk_remote c = Some (h_dh_pk header))) as [Er|Er].
  { rewrite Er, bool_decide_eq_true_2 by done. cbn [negb]. by apply recv_current_spec. }
  destruct (tree_holes c !! h_dh_pk header) as [h|] eqn:Et.
  2: { destruct Hk as [?|[[? ?]|[? ?]]]; done. }
  replace (match dh_pk_remote c with Some pk => _ | None => true end) with true.
  2: { destruct (dh_pk_remote c) as [pk|]; [|done]. rewrite bool_decide_eq_false_2; [done|congruence]. }
  by apply recv_straggler_spec.
Qed.

(** The first header of a new chain: the epoch turns and the key is one of the new chain. *)
Lemma recv_step_new c header (r : R) :
  bank_ok c -> unseen c (h_dh_pk header) -> dh_pk_remote c <> Some (h_dh_pk header) ->
  is_u32 (h_n header) ->
  runs (recv_step c header) r (fun e => too_many e \/ asym_err c header e)
    (fun x => exists c1, turned c header c1 /\ took_key c1 (h_dh_pk header) (h_n header) x.1 x.2).
Proof.
  intros Hb Hu Hne Hn. unfold recv_step. rewrite (proj2 Hu), (proj1 Hu).
  assert (is_new_epoch c header = true) as ->.
  { unfold is_new_epoch. destruct (dh_pk_remote c) as [pk|]; [|done].
    rewrite bool_decide_eq_false_2; [done|congruence]. }
  apply runs_bind. eapply runs_mono; [by apply turn_epoch_spec|done|]. intros c1 Ht r1.
  destruct (tn_remote _ _ _ Ht) as [Er Ert]. destruct (tn_counters _ _ _ Ht) as (_ & En & _).
  eapply runs_mono; [apply recv_current_spec; try done|..].
  - apply Ht.
  - apply Ht.
  - rewrite En. by split.
  - intros e [?|[[-> Hl]|(why & -> & Hm & _)]]; [by left| |].
    + by rewrite (tn_new _ _ _ Ht _ Hn) in Hl.
    + by specialize (Hm Er).
  - intros x Hx. by exists c1.
Qed.

End turn.
