(* ===== verification/RatchetAgree.v ===== *)
(** * Two ratchet ends agree on every message key

    A conversation is two [RatchetCore]s and everything they ever put on the wire.  The network
    may lose, reorder, delay and repeat headers.  The invariant is a history of epochs: each is a
    ratchet key pair of one side, the root key and chain key both sides derive from it, and how
    far its owner has sent. *)

From stdpp Require Import strings.
From S2P Require Import Prelude BTree Crypto RatchetTree RatchetTreeInv Ratchet RatchetKeys.

(** ** The sending chain *)

(** One epoch of the conversation. *)
Record Epoch := mkEpoch {
  e_side : bool;
  e_sk : Key;
  e_seed : Key;
  e_ct : option Key;
  e_rk : Key;
  e_chain : option Key;
  e_tree : option bool;
  e_sent : Z
}.

#[global] Instance Epoch_eta : Settable Epoch :=
  fun e => mkEpoch (e_side e) (e_sk e) (e_seed e) (e_ct e) (e_rk e) (e_chain e) (e_tree e) (e_sent e).

Section agree.
Context `{Hkdf} `{X25519} `{!X25519Laws} `{MlKem} `{!MlKemLaws} {R : Type} `{Rng R}.

(** The sending half of a state is where its epoch says. *)
Definition send_inv (e : Epoch) (c : RatchetCore) : Prop :=
  ns c = e_sent e /\ is_u32 (ns c) /\
  match send_mode c with
  | Undecided => e_tree e = None /\ cks c = e_chain e /\ ns c = 0 /\ send_tree c = None
  | Linear => e_tree e = Some false /\ send_tree c = None /\
      exists k, e_chain e = Some k /\ cks c = Some (chain_at k (ns c))
  | Tree => e_tree e = Some true /\ cks c = None /\
      exists k h, e_chain e = Some k /\ send_tree c = Some h /\ holes_ok k h /\
        forall j, avail h j <-> ns c <= j < M32
  end.

(** Only the sending half differs. *)
Definition send_frame (c c' : RatchetCore) : Prop :=
  c' = mkCore (dh_sk c) (dh_pk c) (dh_pk_remote c) (rk c) (cks c') (ckr c) (ns c') (nr c) (pn c)
         (skipped c) (pq c) (peer_tree c) (send_mode c') (send_tree c') (recv_tree c)
         (tree_holes c) (sent_any c').

Lemma fix_send_mode_spec e c :
  send_inv e c -> is_Some (e_chain e) ->
  exists b c', fix_send_mode c = (inr b, c') /\ send_frame c c' /\ ns c' = ns c /\
    sent_any c' = sent_any c /\ (is_Some (e_tree e) -> e_tree e = Some b) /\
    send_inv (e <| e_tree := Some b |>) c' /\ send_mode c' = (if b then Tree else Linear).
Proof.
  intros (Hns & Hu & Hm) [k Ek]. unfold fix_send_mode, send_frame, send_inv.
  destruct (send_mode c) eqn:Em.
  - destruct Hm as (Et & Eck & E0 & Est). rewrite Eck, Ek.
    destruct (peer_tree c) eqn:Ept; [exists true|exists false]; eexists; (split; [reflexivity|]);
      cbn; split_and!; try done; rewrite ?Et; try (by intros [? ?]); try (by rewrite <- Ept).
    + exists k, (holes_root k). destruct (holes_root_ok k) as [Hok Hav]. split_and!; [done|done|done|].
      intros j. rewrite Hav, E0. done.
    + exists k. split; [done|]. by rewrite E0, chain_at_0, Eck, Ek.
  - exists false, c. destruct Hm as (Et & Est & Hk). split_and!; try done; [by destruct c|].
    by rewrite Em.
  - exists true, c. destruct Hm as (Et & Est & Hk). split_and!; try done; [by destruct c|].
    by rewrite Em.
Qed.

Lemma send_frame_trans c c1 c2 : send_frame c c1 -> send_frame c1 c2 -> send_frame c c2.
Proof.
  unfold send_frame. destruct c, c1, c2. cbn. intros F1 F2.
  injection F1; injection F2; intros; subst; reflexivity.
Qed.

Lemma send_frame_bank c c' : send_frame c c' -> bank_ok c -> bank_ok c'.
Proof. intros F Hb. rewrite F. split; apply Hb. Qed.

Lemma send_key_spec (e : Epoch) (c : RatchetCore) (b : bool) (k : Key) :
  send_inv e c -> e_chain e = Some k -> send_mode c = (if b then Tree else Linear) ->
  ns c < U32_MAX ->
  exists c' : RatchetCore, send_key c b = (inr (msg_key b k (ns c)), c') /\ ns c' = ns c /\ send_frame c c' /\
    send_inv (e <| e_sent := ns c + 1 |>) (c' <| ns := ns c + 1 |> <| sent_any := true |>).
Proof.
  intros (Hns & Hu & Hm) Ek Em Hmax. unfold is_u32, U32_MAX in *.
  unfold send_key, send_inv, send_frame. rewrite Em in Hm.
  destruct b; cbn in Hm.
  - destruct Hm as (Et & Ec & k' & h & Ek' & Es & Hok & Hav). assert (k' = k) as -> by congruence.
    rewrite Es. destruct (take_leaf_Some k h (ns c) Hok ltac:(apply Hav; lia)) as (h' & El & Hok' & Hav' & _).
    rewrite El. eexists. split; [reflexivity|]. cbn.
    split_and!; try done; try (unfold is_u32; lia). rewrite Em. split_and!; [done|done|]. exists k, h'. split_and!; try done.
    intros j. rewrite Hav', Hav. lia.
  - destruct Hm as (Et & Es & k' & Ek' & Ec). assert (k' = k) as -> by congruence.
    rewrite Ec. eexists. split; [reflexivity|]. cbn.
    split_and!; try done; try (unfold is_u32; lia). rewrite Em. split_and!; [done|done|]. exists k. split; [done|].
    change (hkdf_expand (chain_at k (ns c)) INFO_CHAIN KEY_LEN) with (kdf_ck (chain_at k (ns c))).1.
    by rewrite chain_at_succ by lia.
Qed.

Lemma send_step_spec (e : Epoch) (c : RatchetCore) (k : Key) :
  send_inv e c -> e_chain e = Some k -> ns c < U32_MAX ->
  exists b c', send_step c =
    (inr (mkHeader (dh_pk c) (pn c) (ns c) (Some (pq_ek (pq c))) (pq_pending_ct (pq c)) b,
          msg_key b k (ns c)), c') /\
    send_frame c c' /\ (is_Some (e_tree e) -> e_tree e = Some b) /\
    send_inv (e <| e_tree := Some b |> <| e_sent := ns c + 1 |>) c'.
Proof.
  intros Hi Ek Hmax.
  destruct (fix_send_mode_spec e c Hi ltac:(by rewrite Ek)) as (b & c1 & E1 & F1 & En1 & _ & Hb & Hi1 & Em).
  destruct (send_key_spec (e <| e_tree := Some b |>) c1 b k Hi1 Ek Em ltac:(by rewrite En1))
    as (c2 & E2 & En2 & F2 & Hi2).
  exists b. unfold send_step. rewrite E1, E2, En2.
  replace (sat_add32 (ns c1) 1) with (ns c1 + 1) by (unfold sat_add32; lia).
  pose proof (send_frame_trans _ _ _ F1 F2) as F.
  eexists. split; [|split_and!; [|done|rewrite <- En1; exact Hi2]].
  - rewrite En1. unfold send_frame in F. rewrite F. done.
  - unfold send_frame in *. destruct c, c2. cbn in *. injection F; intros; subst; reflexivity.
Qed.

(** Without a chain nothing can be sent. *)
Lemma send_step_no_chain e c :
  send_inv e c -> e_chain e = None -> send_step c = (inl NoSendingChain, c).
Proof.
  intros (_ & _ & Hm) Ek. unfold send_step, fix_send_mode. destruct (send_mode c).
  - destruct Hm as (_ & -> & _). by rewrite Ek.
  - destruct Hm as (_ & _ & k & ? & _). congruence.
  - destruct Hm as (_ & _ & k & h & ? & _). congruence.
Qed.

Lemma burn_chain c k count : 0 <= count -> 0 <= ns c ->
  burn_keys (Z.to_nat count) (chain_at k (ns c)) = chain_at k (ns c + count).
Proof. intros. rewrite <- chain_at_add by lia. done. Qed.

Lemma skip_send_to_spec (e : Epoch) (c : RatchetCore) (to : SendPosition) (k : Key) :
  send_inv e c -> e_chain e = Some k -> is_u32 (pos_next to) ->
  exists res c', skip_send_to c to = Some (res, c') /\ send_frame c c' /\ sent_any c' = sent_any c /\
    exists t s, (is_Some (e_tree e) -> e_tree e = t) /\ e_sent e <= s /\
      send_inv (e <| e_tree := t |> <| e_sent := s |>) c'.
Proof.
  intros Hi Ek Hto. unfold skip_send_to.
  assert (send_frame c c /\ sent_any c = sent_any c /\
    exists t s, (is_Some (e_tree e) -> e_tree e = t) /\ e_sent e <= s /\
      send_inv (e <| e_tree := t |> <| e_sent := s |>) c) as Hsame.
  { split_and!; [by destruct c|done|]. exists (e_tree e), (e_sent e). by split_and!. }
  destruct (_ || _) eqn:Eb; [eexists _, c; split; [done|exact Hsame]|].
  apply orb_false_iff in Eb as [_ Eb]. to_prop.
  destruct (MAX_SEND_SKIP <? _); [eexists _, c; split; [done|exact Hsame]|]. clear Hsame.
  destruct (fix_send_mode_spec e c Hi ltac:(by rewrite Ek)) as (b & c1 & E1 & F1 & En1 & Es1 & Hb & Hi1 & Em).
  rewrite E1. destruct Hi as (Hns & Hu & _). destruct Hi1 as (_ & _ & Hm). rewrite Em in Hm.
  unfold is_u32 in *. destruct b; cbn in Hm.
  - destruct Hm as (_ & Ec & k' & h & Ek' & Et & Hok & Hav). assert (k' = k) as -> by congruence.
    rewrite Et. destruct (retain_spec k h (pos_next to) (Z.shiftl 1 32) Hok) as (h' & Er & Hok' & Hav').
    rewrite Er. cbn [mbind option_bind]. eexists _, _. split; [reflexivity|]. split_and!.
    + eapply send_frame_trans; [exact F1|]. by destruct c1.
    + done.
    + exists (Some true), (pos_next to). split_and!; [done|lia|]. unfold send_inv. cbn. rewrite Em.
      split_and!; try done; try (unfold is_u32; lia). exists k, h'. split_and!; try done.
      intros j. rewrite Hav', Hav. change (Z.shiftl 1 32) with M32. lia.
  - destruct Hm as (_ & Et & k' & Ek' & Ec). assert (k' = k) as -> by congruence.
    rewrite Ec. eexists _, _. split; [reflexivity|]. split_and!.
    + eapply send_frame_trans; [exact F1|]. by destruct c1.
    + done.
    + exists (Some false), (pos_next to). split_and!; [done|lia|]. unfold send_inv. cbn. rewrite Em.
      split_and!; try done; try (unfold is_u32; lia). exists k. split; [done|].
      rewrite burn_chain by lia. f_equal. f_equal. lia.
Qed.

(** ** The conversation *)

(** One side: its state, the peer chains it has moved on from, and the messages it has opened. *)
Record Party := mkParty { core : RatchetCore; past : list Key; taken : list (Key * Z) }.

(** Two sides, what each has put on the wire with the key it was sealed under, and every ratchet
    public key so far. *)
Record Conv := mkConv {
  party : bool -> Party;
  wire : list (bool * (Header * Key));
  used : list Key
}.

Definition set_party (s : bool) (p : Party) (f : bool -> Party) : bool -> Party :=
  fun s' => if eqb s' s then p else f s'.

(** A header of a chain that the state has not moved on from, or of one it still holds keys of. *)
Definition timely (p : Party) (h : Header) : Prop :=
  h_dh_pk h ∉ past p \/ is_Some (tree_holes (core p) !! h_dh_pk h) \/
  is_Some (skipped (core p) !! (h_dh_pk h, h_n h)).

(** The side after opening a message. *)
Definition opened (p : Party) (h : Header) (c : RatchetCore) : Party :=
  mkParty c (if decide (dh_pk_remote c = dh_pk_remote (core p)) then past p
             else option_list (dh_pk_remote (core p)) ++ past p)
          ((h_dh_pk h, h_n h) :: taken p).

Inductive conv_step (st : Conv) : Conv -> Prop :=
  | do_send s h mk c :
      ns (core (party st s)) < U32_MAX -> send_step (core (party st s)) = (inr (h, mk), c) ->
      conv_step st (mkConv (set_party s (mkParty c (past (party st s)) (taken (party st s))) (party st))
                      ((s, (h, mk)) :: wire st) (used st))
  | do_skip s to res c :
      is_u32 (pos_next to) -> skip_send_to (core (party st s)) to = Some (res, c) ->
      conv_step st (mkConv (set_party s (mkParty c (past (party st s)) (taken (party st s))) (party st))
                      (wire st) (used st))
  | do_note s :
      conv_step st (mkConv (set_party s (mkParty (note_peer_tree (core (party st s)))
                      (past (party st s)) (taken (party st s))) (party st)) (wire st) (used st))
  | do_recv s h mk mk' c (r r' : R) :
      (negb s, (h, mk)) ∈ wire st -> timely (party st s) h ->
      recv_step (core (party st s)) h r = Some (inr (mk', c), r') ->
      (dh_pk_remote c = dh_pk_remote (core (party st s)) \/ dh_pk c ∉ used st) ->
      conv_step st (mkConv (set_party s (opened (party st s) h c) (party st)) (wire st) (dh_pk c :: used st)).

(** The conversations of an initiator and a responder that share a root key. *)
Inductive reach : Conv -> Prop :=
  | reach_start root sk (r1 r2 r1' r2' : R) a b :
      initiator root (x25519_public sk) r1 = Some (inr a, r1') ->
      responder root sk r2 = Some (inr b, r2') -> dh_pk a <> dh_pk b ->
      reach (mkConv (fun s => if s then mkParty a [] [] else mkParty b [] []) [] [dh_pk a; dh_pk b])
  | reach_step st st' : reach st -> conv_step st st' -> reach st'.

(** ** The invariant *)

Definition pub (e : Epoch) : Key := x25519_public (e_sk e).

Definition sent_at (es : list Epoch) (j : nat) : Z :=
  match es !! j with Some e => e_sent e | None => 0 end.

(** The keys of an epoch come from the epoch before it. *)
Definition link (j : nat) (e e' : Epoch) : Prop :=
  let x := kdf_rk (e_rk e) (x25519_dh (e_sk e') (pub e)) (mlkem_decaps (e_seed e) <$> e_ct e') in
  e_side e' = negb (e_side e) /\ e_rk e' = x.1 /\ e_chain e' = Some x.2 /\ (e_ct e' = None -> j = O).

Record epochs_ok (es : list Epoch) : Prop := {
  eo_link : forall j e e', es !! j = Some e -> es !! S j = Some e' -> link j e e';
  eo_first : forall e, es !! O = Some e -> e_chain e = None /\ e_sent e = 0;
  eo_fresh : forall j j' e e', es !! j = Some e -> es !! j' = Some e' -> pub e = pub e' -> j = j';
  eo_sent : forall j e, es !! j = Some e -> is_u32 (e_sent e);
  eo_ct : forall j e ct, es !! j = Some e -> e_ct e = Some ct -> zlen ct = 1088
}.

(** Side [s] sends in epoch [k] of [es] and receives in the one before. *)
Record party_inv (es : list Epoch) (s : bool) (k : nat) (p : Party) : Prop := {
  pi_own : exists e, es !! k = Some e /\ e_side e = s /\ dh_sk (core p) = e_sk e /\
    dh_pk (core p) = pub e /\ rk (core p) = e_rk e /\
    pq (core p) = mkPq (e_seed e) (mlkem_ek (e_seed e)) (e_ct e) /\ send_inv e (core p);
  pi_sent : k = O -> sent_any (core p) = false;
  pi_pn : pn (core p) = sent_at es (k - 2);
  pi_remote : dh_pk_remote (core p) = match k with O => None | S j => pub <$> es !! j end;
  pi_mode : forall j e, k = S j -> es !! j = Some e -> is_Some (e_chain e) ->
    e_tree e = Some (recv_tree (core p));
  pi_bank : bank_ok (core p);
  pi_size : Z.of_nat (size (skipped (core p))) <= MAX_SKIP_TOTAL;
  pi_nr : is_u32 (nr (core p));
  pi_keys : forall j e ch b i, es !! j = Some e -> e_side e = negb s -> (j < k)%nat ->
    e_chain e = Some ch -> e_tree e = Some b -> 0 <= i < U32_MAX ->
    ((S j < k)%nat -> i < e_sent e) ->
    lookup_key (core p) (pub e) i =
      if decide ((pub e, i) ∈ taken p) then None else Some (msg_key b ch i);
  pi_past : forall j e, es !! j = Some e -> e_side e = negb s -> (S j < k)%nat -> pub e ∈ past p;
  pi_unseen : forall q, (forall j e, es !! j = Some e -> (j < k)%nat -> q <> pub e) -> unseen (core p) q;
  pi_trees : forall j e, (j < k)%nat -> es !! j = Some e -> e_tree e <> Some true ->
    tree_holes (core p) !! pub e = None;
  pi_taken : forall q i, (q, i) ∈ taken p -> exists j e, es !! j = Some e /\ (j < k)%nat /\ q = pub e
}.

(** A header that side [s] really sent, with its key. *)
Definition genuine (es : list Epoch) (s : bool) (h : Header) (mk : Key) : Prop :=
  exists j e k b, es !! j = Some e /\ e_side e = s /\ e_chain e = Some k /\ e_tree e = Some b /\
    0 <= h_n h < e_sent e /\ e_sent e <= U32_MAX /\
    h = mkHeader (pub e) (sent_at es (j - 2)) (h_n h) (Some (mlkem_ek (e_seed e))) (e_ct e) b /\
    mk = msg_key b k (h_n h).

Record conv_inv (es : list Epoch) (k : bool -> nat) (st : Conv) : Prop := {
  ci_epochs : epochs_ok es;
  ci_near : forall s, (k (negb s) = S (k s) /\ length es = S (S (k s))) \/
                      (k s = S (k (negb s)) /\ length es = S (k s));
  ci_party : forall s, party_inv es s (k s) (party st s);
  ci_wire : forall s h mk, (s, (h, mk)) ∈ wire st -> genuine es s h mk;
  ci_used : forall e, e ∈ es -> pub e ∈ used st
}.

(** ** Sending *)

(** The owner of an epoch settles its mode and sends on. *)
Definition grown (e e' : Epoch) : Prop :=
  exists t s, (is_Some (e_tree e) -> e_tree e = t) /\ e_sent e <= s /\
    e' = e <| e_tree := t |> <| e_sent := s |>.

Lemma grown_fields e e' : grown e e' ->
  pub e' = pub e /\ e_side e' = e_side e /\ e_chain e' = e_chain e /\ e_ct e' = e_ct e /\
  e_seed e' = e_seed e /\ e_rk e' = e_rk e /\ e_sk e' = e_sk e /\ e_sent e <= e_sent e' /\
  (forall b, e_tree e = Some b -> e_tree e' = Some b).
Proof.
  intros (t & s & Ht & Hs & ->). cbn. split_and!; try done. intros b Hb. rewrite <- Ht; [done|by rewrite Hb].
Qed.

Section grow.
Context (es : list Epoch) (k : nat) (e e' : Epoch).
Context (He : es !! k = Some e) (Hg : grown e e').

Lemma grow_lookup j x : <[k := e']> es !! j = Some x ->
  exists y, es !! j = Some y /\ ((j = k /\ x = e' /\ y = e) \/ (j <> k /\ x = y)).
Proof.
  pose proof (lookup_lt_Some _ _ _ He) as Hlt.
  destruct (decide (j = k)) as [->|Hne].
  - rewrite list_lookup_insert_eq by done. intros [= <-]. exists e. auto.
  - rewrite list_lookup_insert_ne by done. intros Hj. exists x. auto.
Qed.

Lemma grow_old j y : es !! j = Some y ->
  exists x, <[k := e']> es !! j = Some x /\ ((j = k /\ x = e' /\ y = e) \/ (j <> k /\ x = y)).
Proof.
  intros Hj. pose proof (lookup_lt_Some _ _ _ He) as Hlt. destruct (decide (j = k)) as [->|Hne].
  - exists e'. rewrite list_lookup_insert_eq by done. naive_solver.
  - exists y. rewrite list_lookup_insert_ne by done. auto.
Qed.

(** Public keys of the epochs do not change. *)
Lemma grow_pub j x : <[k := e']> es !! j = Some x -> exists y, es !! j = Some y /\ pub x = pub y.
Proof.
  intros Hx. destruct (grow_lookup j x Hx) as (y & Hy & [(-> & -> & ->)|[_ ->]]); exists y || exists e;
    (split; [done|]); [apply (grown_fields _ _ Hg)|done].
Qed.

Lemma grow_epochs : is_Some (e_chain e) -> is_u32 (e_sent e') -> epochs_ok es ->
  epochs_ok (<[k := e']> es).
Proof.
  intros Hc Hs' Ho. destruct (grown_fields _ _ Hg) as (Ep & Es & Ec & Ect & Esd & Erk & Esk & _).
  split.
  - intros j x x' Hx Hx'.
    destruct (grow_lookup _ _ Hx) as (y & Hy & Hcase), (grow_lookup _ _ Hx') as (y' & Hy' & Hcase').
    pose proof (eo_link _ Ho j y y' Hy Hy') as Hl. unfold link in *.
    destruct Hcase as [(-> & -> & ->)|[_ ->]], Hcase' as [(? & -> & ->)|[_ ->]]; try lia;
      rewrite ?Ep, ?Es, ?Ec, ?Ect, ?Esd, ?Erk, ?Esk; exact Hl.
  - intros x Hx. destruct (grow_lookup _ _ Hx) as (y & Hy & [(? & -> & ->)|[_ ->]]); [|by apply (eo_first _ Ho)].
    destruct (eo_first _ Ho e Hy) as [Hn _]. rewrite Hn in Hc. by destruct Hc.
  - intros j j' x x' Hx Hx' Heq.
    destruct (grow_pub _ _ Hx) as (y & Hy & Ey), (grow_pub _ _ Hx') as (y' & Hy' & Ey').
    apply (eo_fresh _ Ho j j' y y' Hy Hy'). congruence.
  - intros j x Hx. destruct (grow_lookup _ _ Hx) as (y & Hy & [(_ & -> & _)|[_ ->]]); [done|by eapply Ho].
  - intros j x ct Hx Hct. destruct (grow_lookup _ _ Hx) as (y & Hy & [(-> & -> & ->)|[_ ->]]).
    + rewrite Ect in Hct. by apply (eo_ct _ Ho k e).
    + by apply (eo_ct _ Ho j y).
Qed.

Lemma grow_sent j : j <> k -> sent_at (<[k := e']> es) j = sent_at es j.
Proof. intros Hj. unfold sent_at. by rewrite list_lookup_insert_ne. Qed.

Lemma grow_genuine s h mk :
  is_Some (e_chain e) -> (length es <= k + 2)%nat -> e_sent e' <= U32_MAX -> epochs_ok es ->
  genuine es s h mk -> genuine (<[k := e']> es) s h mk.
Proof.
  intros Hc Hlen Hmax Ho (j & x & ck & b & Hx & Hs & Hck & Hb & Hn & Hm & Hh & Hmk).
  destruct (grown_fields _ _ Hg) as (Ep & Es & Ec & Ect & Esd & Erk & Esk & Hle & Ht).
  assert (j - 2 <> k)%nat as Hne.
  { apply lookup_lt_Some in Hx. intros Hk. destruct k as [|k']; [|lia].
    destruct (eo_first _ Ho e He) as [Hn0 _]. rewrite Hn0 in Hc. by destruct Hc. }
  destruct (grow_old j x Hx) as (y & Hy & [(-> & -> & ->)|[_ ->]]); exists j || exists k.
  - exists e', ck, b. rewrite Ep, Es, Ec, Ect, Esd, grow_sent by done. split_and!; try done; try lia. by apply Ht.
  - exists x, ck, b. rewrite grow_sent by done. split_and!; (done || lia).
Qed.

(** The other side, whatever it holds of the epoch. *)
Lemma grow_other s k2 p :
  is_Some (e_chain e) -> (0 < k)%nat -> (k2 = S k \/ k = S k2) -> party_inv es s k2 p ->
  party_inv (<[k := e']> es) s k2 p.
Proof.
  intros Hc Hk0 Hk Hp. destruct (grown_fields _ _ Hg) as (Ep & Es & Ec & Ect & Esd & Erk & Esk & Hle & Ht).
  split; try apply Hp.
  - destruct (pi_own _ _ _ _ Hp) as (x & Hx & Hrest). exists x. rewrite list_lookup_insert_ne by lia. done.
  - rewrite grow_sent by lia. apply Hp.
  - rewrite (pi_remote _ _ _ _ Hp). destruct k2 as [|j]; [done|].
    destruct (decide (j = k)) as [->|Hne]; [|by rewrite list_lookup_insert_ne].
    rewrite list_lookup_insert_eq, He by (by eapply lookup_lt_Some). cbn. by rewrite Ep.
  - intros j x -> Hx Hxc. destruct (grow_lookup j x Hx) as (y & Hy & [(-> & -> & ->)|[_ ->]]).
    + apply Ht, (pi_mode _ _ _ _ Hp k e); auto.
    + by apply (pi_mode _ _ _ _ Hp j y).
  - intros j x ch b i Hx Hxs Hj Hch Hb Hi Hsent.
    destruct (grow_lookup j x Hx) as (y & Hy & [(-> & -> & ->)|[_ ->]]).
    + rewrite Ep. rewrite Es in Hxs. rewrite Ec in Hch.
      assert (k2 = S k) as -> by lia.
      apply (pi_keys _ _ _ _ Hp k e ch b i); try done; [|lia].
      pose proof (pi_mode _ _ _ _ Hp k e eq_refl Hy Hc) as Hm. specialize (Ht _ Hm). congruence.
    + by apply (pi_keys _ _ _ _ Hp j y ch b i).
  - intros j x Hx Hxs Hj. destruct (grow_lookup j x Hx) as (y & Hy & [(-> & -> & ->)|[_ ->]]).
    + rewrite Ep. rewrite Es in Hxs. by apply (pi_past _ _ _ _ Hp k e).
    + by apply (pi_past _ _ _ _ Hp j y).
  - intros q Hq. apply (pi_unseen _ _ _ _ Hp). intros j y Hy Hj.
    destruct (grow_old j y Hy) as (x & Hx & [(-> & -> & ->)|[_ ->]]); [rewrite <- Ep|]; by eapply Hq.
  - intros j x Hj Hx Hxt. destruct (grow_lookup j x Hx) as (y & Hy & [(-> & -> & ->)|[_ ->]]).
    + rewrite Ep. apply (pi_trees _ _ _ _ Hp k e Hj He). intros Het. by apply Hxt, Ht.
    + by apply (pi_trees _ _ _ _ Hp j y).
  - intros q i Hq. destruct (pi_taken _ _ _ _ Hp q i Hq) as (j & y & Hy & Hj & ->).
    destruct (grow_old j y Hy) as (x & Hx & [(-> & -> & ->)|[_ ->]]); exists j || exists k.
    + exists e'. by rewrite Ep.
    + by exists y.
Qed.

(** The owner itself. *)
Lemma grow_own s p c :
  (0 < k)%nat -> send_frame (core p) c -> send_inv e' c -> party_inv es s k p ->
  party_inv (<[k := e']> es) s k (mkParty c (past p) (taken p)).
Proof.
  intros Hk0 F Hsi Hp. destruct (grown_fields _ _ Hg) as (Ep & Es & Ec & Ect & Esd & Erk & Esk & Hle & Ht).
  assert (bank_ok c) as Hb by (by eapply send_frame_bank, Hp).
  assert (dh_sk c = dh_sk (core p) /\ dh_pk c = dh_pk (core p) /\ rk c = rk (core p) /\
    pq c = pq (core p) /\ pn c = pn (core p) /\ dh_pk_remote c = dh_pk_remote (core p) /\
    recv_tree c = recv_tree (core p) /\ skipped c = skipped (core p) /\ nr c = nr (core p) /\
    tree_holes c = tree_holes (core p))
    as (F1 & F2 & F3 & F4 & F5 & F6 & F7 & F8 & F9 & F10) by (rewrite F; done).
  assert (forall q i, lookup_key c q i = lookup_key (core p) q i) as Hl by (intros; rewrite F; done).
  assert (forall q, unseen (core p) q -> unseen c q) as Hu by (intros; rewrite F; done).
  split; cbn [core past taken]; try done.
  - destruct (pi_own _ _ _ _ Hp) as (x & Hx & P1 & P2 & P3 & P4 & P5 & _). assert (x = e) as -> by congruence.
    exists e'. rewrite list_lookup_insert_eq by (by eapply lookup_lt_Some).
    rewrite Ep, Es, Ect, Esd, Erk, Esk. rewrite F1, F2, F3, F4. by split_and!.
  - lia.
  - rewrite F5, grow_sent by lia. apply Hp.
  - rewrite F6, (pi_remote _ _ _ _ Hp). destruct k as [|j]; [done|].
    by rewrite list_lookup_insert_ne by lia.
  - intros j x -> Hx Hxc. rewrite list_lookup_insert_ne in Hx by lia. rewrite F7.
    by apply (pi_mode _ _ _ _ Hp j x).
  - rewrite F8. apply Hp.
  - rewrite F9. apply Hp.
  - intros j x ch b i Hx Hxs Hj Hch Hb' Hi Hsent. rewrite list_lookup_insert_ne in Hx by lia.
    rewrite Hl. by apply (pi_keys _ _ _ _ Hp j x ch b i).
  - intros j x Hx Hxs Hj. rewrite list_lookup_insert_ne in Hx by lia. by apply (pi_past _ _ _ _ Hp j x).
  - intros q Hq. apply Hu, (pi_unseen _ _ _ _ Hp). intros j x Hx Hj.
    eapply Hq; [|exact Hj]. by rewrite list_lookup_insert_ne by lia.
  - intros j x Hj Hx Hxt. rewrite F10. rewrite list_lookup_insert_ne in Hx by lia.
    by apply (pi_trees _ _ _ _ Hp j x).
  - intros q i Hq. destruct (pi_taken _ _ _ _ Hp q i Hq) as (j & x & Hx & Hj & ->).
    exists j, x. by rewrite list_lookup_insert_ne by lia.
Qed.
End grow.

Lemma set_party_eq s p f : set_party s p f s = p.
Proof. unfold set_party. by rewrite eqb_reflx. Qed.

Lemma set_party_ne s p f : set_party s p f (negb s) = f (negb s).
Proof. by destruct s. Qed.

(** A property of both sides, side [s] first. *)
Lemma sides (P : bool -> Prop) s : P s -> P (negb s) -> forall s', P s'.
Proof. destruct s; intros ? ? []; done. Qed.

Lemma chain_pos es k e : epochs_ok es -> es !! k = Some e -> is_Some (e_chain e) -> (0 < k)%nat.
Proof.
  intros Ho He Hc. destruct k; [|lia]. destruct (eo_first _ Ho e He) as [Hn _].
  rewrite Hn in Hc. by destruct Hc.
Qed.

(** Whatever moves the sending half of side [s] on keeps the invariant. *)
Lemma send_half_inv es k st s c e e' w :
  conv_inv es k st -> es !! k s = Some e -> is_Some (e_chain e) -> grown e e' ->
  send_frame (core (party st s)) c -> send_inv e' c ->
  (forall h mk, (s, (h, mk)) ∈ w -> (s, (h, mk)) ∈ wire st \/ genuine (<[k s := e']> es) s h mk) ->
  (forall s' x, s' <> s -> (s', x) ∈ w -> (s', x) ∈ wire st) ->
  conv_inv (<[k s := e']> es) k
    (mkConv (set_party s (mkParty c (past (party st s)) (taken (party st s))) (party st)) w (used st)).
Proof.
  intros Hi He Hc Hg F Hsi Hw1 Hw2. pose proof (ci_epochs _ _ _ Hi) as Ho.
  pose proof (chain_pos _ _ _ Ho He Hc) as Hpos.
  destruct (grown_fields _ _ Hg) as (Ep & _).
  assert (e_sent e' <= U32_MAX) as Hmax by (destruct Hsi as (<- & Hu & _); unfold is_u32, U32_MAX in *; lia).
  assert (length es <= k s + 2)%nat as Hlen by (destruct (ci_near _ _ _ Hi s) as [[? ?]|[? ?]]; lia).
  split; cbn [party wire used].
  - eapply grow_epochs; try done. destruct Hsi as (<- & Hu & _). done.
  - rewrite length_insert. apply Hi.
  - apply (sides _ s); rewrite ?set_party_eq, ?set_party_ne.
    + by apply grow_own with e; [..|apply (ci_party _ _ _ Hi)].
    + apply grow_other with e; try done; [|apply (ci_party _ _ _ Hi)].
      destruct (ci_near _ _ _ Hi s) as [[? ?]|[? ?]]; lia.
  - intros s' h mk Hin. destruct (decide (s' = s)) as [->|Hne].
    + destruct (Hw1 h mk Hin) as [Hold|Hnew]; [|done].
      eapply grow_genuine; try done. by apply (ci_wire _ _ _ Hi).
    + eapply grow_genuine; try done. apply (ci_wire _ _ _ Hi). by apply Hw2 in Hin.
  - intros x Hx. apply list_elem_of_lookup in Hx as [j Hx].
    destruct (grow_pub es (k s) e e' He Hg j x Hx) as (y & Hy & ->). apply (ci_used _ _ _ Hi).
    by eapply list_elem_of_lookup_2.
Qed.

Lemma step_send es k st s h mk c :
  conv_inv es k st -> ns (core (party st s)) < U32_MAX ->
  send_step (core (party st s)) = (inr (h, mk), c) ->
  exists es', conv_inv es' k
    (mkConv (set_party s (mkParty c (past (party st s)) (taken (party st s))) (party st))
       ((s, (h, mk)) :: wire st) (used st)).
Proof.
  intros Hi Hmax Es. pose proof (ci_party _ _ _ Hi s) as Hp.
  destruct (pi_own _ _ _ _ Hp) as (e & He & Hside & Esk & Epk & Erk & Epq & Hsi).
  destruct (e_chain e) as [ck|] eqn:Eck.
  2: { rewrite (send_step_no_chain e _ Hsi Eck) in Es. done. }
  destruct (send_step_spec e _ ck Hsi Eck Hmax) as (b & c' & Es' & F & Hb & Hsi').
  rewrite Es in Es'. injection Es' as -> -> ->. destruct Hsi as (Hns & Hu & _).
  set (e' := e <| e_tree := Some b |> <| e_sent := ns (core (party st s)) + 1 |>) in *.
  exists (<[k s := e']> es).
  assert (grown e e') as Hg by (exists (Some b), (ns (core (party st s)) + 1); split_and!; [done|lia|done]).
  apply (send_half_inv es k st s _ e); try done.
  - intros h mk [Heq|Hin]%elem_of_cons; [|by left]. injection Heq as -> ->. right.
    exists (k s), e', ck, b. rewrite list_lookup_insert_eq by (by eapply lookup_lt_Some).
    cbn [h_n h_pn]. rewrite Epk, Epq, (pi_pn _ _ _ _ Hp).
    rewrite (grow_sent es (k s) e' (k s - 2)).
    2: { pose proof (chain_pos _ _ _ (ci_epochs _ _ _ Hi) He ltac:(by rewrite Eck)). lia. }
    unfold is_u32 in Hu. cbn. split_and!; try done; lia.
  - intros s' x Hne [Heq|Hin]%elem_of_cons; [congruence|done].
Qed.

Lemma skip_no_chain e c to res c' :
  send_inv e c -> e_chain e = None -> skip_send_to c to = Some (res, c') -> c' = c.
Proof.
  intros (_ & _ & Hm) Ek. unfold skip_send_to. destruct (_ || _); [by intros [= _ <-]|].
  destruct (MAX_SEND_SKIP <? _); [by intros [= _ <-]|]. unfold fix_send_mode. destruct (send_mode c).
  - destruct Hm as (_ & -> & _). rewrite Ek. by intros [= _ <-].
  - destruct Hm as (_ & _ & k & ? & _). congruence.
  - destruct Hm as (_ & _ & k & h & ? & _). congruence.
Qed.

(** Replacing a side by one that satisfies the invariant at the same place. *)
Lemma same_place es k st s p u :
  conv_inv es k st -> party_inv es s (k s) p -> (forall x, x ∈ used st -> x ∈ u) ->
  conv_inv es k (mkConv (set_party s p (party st)) (wire st) u).
Proof.
  intros Hi Hp Hu. split; cbn [party wire used]; try apply Hi.
  - apply (sides _ s); rewrite ?set_party_eq, ?set_party_ne; [done|apply Hi].
  - intros e He. apply Hu, Hi, He.
Qed.

Lemma party_eta p : mkParty (core p) (past p) (taken p) = p.
Proof. by destruct p. Qed.

Lemma step_skip es k st s to res c :
  conv_inv es k st -> is_u32 (pos_next to) ->
  skip_send_to (core (party st s)) to = Some (res, c) ->
  exists es', conv_inv es' k
    (mkConv (set_party s (mkParty c (past (party st s)) (taken (party st s))) (party st)) (wire st) (used st)).
Proof.
  intros Hi Hto Es. pose proof (ci_party _ _ _ Hi s) as Hp.
  destruct (pi_own _ _ _ _ Hp) as (e & He & Hside & Esk & Epk & Erk & Epq & Hsi).
  destruct (e_chain e) as [ck|] eqn:Eck.
  2: { rewrite (skip_no_chain e _ _ _ _ Hsi Eck Es), party_eta. exists es. by apply same_place. }
  destruct (skip_send_to_spec e _ to ck Hsi Eck Hto) as (res' & c' & Es' & F & _ & t & n & Ht & Hn & Hsi').
  rewrite Es in Es'. injection Es' as -> ->.
  exists (<[k s := e <| e_tree := t |> <| e_sent := n |>]> es).
  apply (send_half_inv es k st s _ e); try done; [by exists t, n|by left].
Qed.

Lemma step_note es k st s :
  conv_inv es k st ->
  conv_inv es k (mkConv (set_party s (mkParty (note_peer_tree (core (party st s)))
                   (past (party st s)) (taken (party st s))) (party st)) (wire st) (used st)).
Proof.
  intros Hi. apply same_place; [done| |done]. pose proof (ci_party _ _ _ Hi s) as Hp.
  destruct (party st s) as [c pa ta]. split; try apply Hp. split; apply (pi_bank _ _ _ _ Hp).
Qed.

(** ** Receiving *)

(** A key of a chain already known. *)
Lemma took_inv es s k p h mk c :
  party_inv es s k p -> took_key (core p) (h_dh_pk h) (h_n h) mk c -> 0 <= h_n h < U32_MAX ->
  (exists j e, es !! j = Some e /\ (j < k)%nat /\ h_dh_pk h = pub e) ->
  party_inv es s k (opened p h c).
Proof.
  intros Hp Ht Hn (j0 & e0 & He0 & Hj0 & Epk0). pose proof (tk_frame _ _ _ _ _ Ht) as F.
  assert (dh_pk_remote c = dh_pk_remote (core p)) as Er by (rewrite F; done).
  assert (recv_tree c = recv_tree (core p)) as Ert by (rewrite F; done).
  unfold opened. rewrite decide_True by done.
  split; cbn [core past taken]; try done.
  - destruct (pi_own _ _ _ _ Hp) as (e & He & P1 & P2 & P3 & P4 & P5 & P6). exists e.
    rewrite F. by split_and!.
  - rewrite F. apply Hp.
  - rewrite F. apply Hp.
  - rewrite Er. apply Hp.
  - rewrite Ert. apply Hp.
  - apply Ht.
  - apply Ht, Hp.
  - apply (tk_nr _ _ _ _ _ Ht); [apply Hp|]. unfold is_u32, U32_MAX in *. lia.
  - intros j e ch b i Hje Hs Hj Hch Hb Hi Hsent. rewrite (tk_rest _ _ _ _ _ Ht) by lia.
    rewrite (pi_keys _ _ _ _ Hp j e ch b i) by done.
    destruct (decide ((pub e, i) = (h_dh_pk h, h_n h))) as [Heq|Hne].
    + rewrite decide_True by (rewrite Heq; left). done.
    + destruct (decide ((pub e, i) ∈ taken p)) as [Hin|Hin].
      * by rewrite decide_True by (by right).
      * rewrite decide_False; [done|]. by intros [?|?]%elem_of_cons.
  - apply Hp.
  - intros q Hq. apply (tk_unseen _ _ _ _ _ Ht); [|by apply Hp]. rewrite Epk0. by eapply Hq.
  - intros j e Hj Hje Het. apply (tk_trees _ _ _ _ _ Ht). by apply (pi_trees _ _ _ _ Hp j e).
  - intros q i [Heq|Hin]%elem_of_cons; [|by eapply Hp]. injection Heq as -> ->. eauto.
Qed.

(** Both ends derive the same root and chain for an epoch. *)
Lemma recv_root_agree c h j (e0 e : Epoch) :
  link j e0 e -> dh_sk c = e_sk e0 -> rk c = e_rk e0 ->
  pq c = mkPq (e_seed e0) (mlkem_ek (e_seed e0)) (e_ct e0) ->
  h_dh_pk h = pub e -> h_pq_ct h = e_ct e ->
  (recv_root c h).1 = e_rk e /\ Some (recv_root c h).2 = e_chain e.
Proof.
  intros (_ & Hrk & Hch & _) Esk Erk Epq Epk Ect. unfold recv_root. rewrite Esk, Erk, Epk, Ect, Hrk, Hch.
  unfold decapsulate. rewrite Epq. cbn. unfold pub. rewrite x25519_agree. done.
Qed.

(** The epoch that a side opens when it turns. *)
Definition epoch_of (s : bool) (c : RatchetCore) : Epoch :=
  mkEpoch s (dh_sk c) (pq_seed (pq c)) (pq_pending_ct (pq c)) (rk c) (cks c) None 0.

Section turn_side.
Context (es : list Epoch) (s : bool) (k : nat) (p : Party) (h : Header) (c1 : RatchetCore).
Context (Ho : epochs_ok es) (Hp : party_inv es s k p) (Hlen : length es = S (S k)).
Context (e : Epoch) (He : es !! S k = Some e) (ch : Key) (Hch : e_chain e = Some ch).
Context (b : bool) (Hb : e_tree e = Some b) (Hside : e_side e = negb s).
Context (Hh : h = mkHeader (pub e) (sent_at es (S k - 2)) (h_n h) (Some (mlkem_ek (e_seed e))) (e_ct e) b).
Context (Ht : turned (core p) h c1).

Lemma turn_header : h_dh_pk h = pub e /\ h_pn h = sent_at es (S k - 2) /\
  h_pq_ek h = Some (mlkem_ek (e_seed e)) /\ h_pq_ct h = e_ct e /\ h_tree h = b.
Proof. by rewrite Hh. Qed.

Lemma turn_roots : (recv_root (core p) h).1 = e_rk e /\ (recv_root (core p) h).2 = ch.
Proof.
  destruct turn_header as (Epk & _ & _ & Ect & _).
  destruct (pi_own _ _ _ _ Hp) as (e0 & He0 & _ & Esk & _ & Erk & Epq & _).
  pose proof (eo_link _ Ho k e0 e He0 He) as Hl.
  destruct (recv_root_agree _ h k e0 e Hl Esk Erk Epq Epk Ect) as [E1 E2]. split; [done|].
  rewrite Hch in E2. by injection E2.
Qed.

Lemma turn_link : link (S k) e (epoch_of s c1).
Proof.
  destruct turn_header as (Epk & _ & Eek & Ect & _). destruct turn_roots as [Er1 _].
  destruct (tn_send _ _ _ Ht) as (peer_ek & m & sk & seed & (Hpe & _) & Esk & Epk' & Erk & Epq).
  rewrite Eek in Hpe. injection Hpe as <-. apply pair_eq in Erk as [Erk Eck].
  assert (send_root (core p) h (mlkem_ek (e_seed e)) m sk =
    kdf_rk (e_rk e) (x25519_dh sk (pub e))
      (Some (mlkem_decaps (e_seed e) (mlkem_encaps (mlkem_ek (e_seed e)) m).1))) as Hsr
    by (unfold send_root; by rewrite Er1, Epk, mlkem_correct).
  rewrite Hsr in Erk, Eck. unfold link, epoch_of. cbn [e_side e_rk e_chain e_ct e_sk e_seed].
  rewrite Esk, Erk, Eck, Epq, Hside, negb_involutive. done.
Qed.

Lemma turn_lookup j x : (j < length es)%nat -> (es ++ [epoch_of s c1]) !! j = Some x -> es !! j = Some x.
Proof. intros Hj. by rewrite lookup_app_l. Qed.

(** A peer epoch other than the one just entered lies below [k]. *)
Lemma turn_older j x : es !! j = Some x -> e_side x = negb s -> (j < S k)%nat -> (j < k)%nat.
Proof.
  intros Hx Hs Hj. destruct (decide (j = k)) as [->|]; [|lia].
  destruct (pi_own _ _ _ _ Hp) as (e0 & He0 & Hs0 & _). assert (x = e0) as -> by congruence.
  rewrite Hs in Hs0. by destruct s.
Qed.

Lemma turn_keys j x cx bx i :
  es !! j = Some x -> e_side x = negb s -> (j < S (S k))%nat -> e_chain x = Some cx ->
  e_tree x = Some bx -> 0 <= i < U32_MAX -> ((S j < S (S k))%nat -> i < e_sent x) ->
  lookup_key c1 (pub x) i = if decide ((pub x, i) ∈ taken p) then None else Some (msg_key bx cx i).
Proof.
  intros Hx Hs Hj Hcx Hbx Hi Hsent. destruct turn_header as (Epk & Epn & _ & _ & Etr).
  destruct (decide (j = S k)) as [->|Hne].
  - assert (x = e) as -> by congruence. rewrite decide_False.
    + rewrite <- Epk, (tn_new _ _ _ Ht) by (unfold is_u32, U32_MAX in *; lia).
      destruct turn_roots as [_ ->]. rewrite Etr. congruence.
    + intros Hin. destruct (pi_taken _ _ _ _ Hp _ _ Hin) as (j' & y & Hy & Hj' & Heq).
      pose proof (eo_fresh _ Ho _ _ _ _ Hx Hy Heq). lia.
  - pose proof (turn_older j x Hx Hs ltac:(lia)) as Hlt.
    rewrite (tn_old _ _ _ Ht); [|rewrite Epk|lia|].
    + apply (pi_keys _ _ _ _ Hp j x cx bx i); try done. intros _. apply Hsent. lia.
    + intros Heq. by pose proof (eo_fresh _ Ho _ _ _ _ Hx He Heq).
    + rewrite (pi_remote _ _ _ _ Hp). destruct k as [|k']; [lia|]. intros Hr.
      destruct (es !! k') as [y|] eqn:Ey; [|done]. cbn in Hr. injection Hr as Hr.
      pose proof (eo_fresh _ Ho _ _ _ _ Ey Hx Hr) as ->. rewrite Epn. unfold sent_at.
      replace (S (S j) - 2)%nat with j by lia. rewrite Hx. apply Hsent. lia.
Qed.

Lemma turn_party :
  party_inv (es ++ [epoch_of s c1]) s (S (S k))
    (mkParty c1 (option_list (dh_pk_remote (core p)) ++ past p) (taken p)).
Proof.
  destruct turn_header as (Epk & Epn & _ & _ & Etr).
  destruct (tn_counters _ _ _ Ht) as (Ens & Enr & Epn'), (tn_mode _ _ _ Ht) as (Em & Est & _).
  destruct (tn_remote _ _ _ Ht) as [Er Ert].
  destruct (tn_send _ _ _ Ht) as (peer_ek & m & sk & seed & _ & Esk & Epk' & Erk & Epq).
  destruct (pi_own _ _ _ _ Hp) as (e0 & He0 & _ & _ & _ & _ & _ & (Hns & _)).
  assert ((es ++ [epoch_of s c1]) !! S (S k) = Some (epoch_of s c1)) as Hnew
    by (by rewrite lookup_app_r, Hlen, Nat.sub_diag by lia).
  split; cbn [core past taken].
  - exists (epoch_of s c1). split; [done|]. unfold epoch_of. cbn. unfold pub. cbn. rewrite Epq. cbn.
    rewrite Epk', Esk. split_and!; try done. unfold send_inv. rewrite Em, Ens, Est. by split_and!.
  - done.
  - rewrite Epn'. replace (S (S k) - 2)%nat with k by lia. unfold sent_at.
    rewrite lookup_app_l by lia. by rewrite He0.
  - rewrite Er, Epk, lookup_app_l, He by lia. done.
  - intros j x [= <-] Hx _. apply turn_lookup in Hx; [|lia]. assert (x = e) as -> by congruence. congruence.
  - apply Ht.
  - apply Ht, Hp.
  - rewrite Enr. by split.
  - intros j x cx bx i Hx Hs Hj. apply turn_lookup in Hx; [|lia]. by apply (turn_keys j).
  - intros j x Hx Hs Hj. apply turn_lookup in Hx; [|lia]. apply elem_of_app.
    pose proof (turn_older j x Hx Hs ltac:(lia)) as Hlt. destruct (decide (S j < k)%nat) as [Hl|Hl].
    + right. by apply (pi_past _ _ _ _ Hp j x).
    + left. rewrite (pi_remote _ _ _ _ Hp). assert (k = S j) as -> by lia. rewrite Hx. cbn. by left.
  - intros q Hq. apply (tn_unseen _ _ _ Ht).
    + rewrite Epk. eapply (Hq (S k)); [|lia]. rewrite lookup_app_l by lia. done.
    + rewrite (pi_remote _ _ _ _ Hp). destruct k as [|k']; [done|].
      destruct (es !! k') as [y|] eqn:Ey; [|done]. cbn. intros [= Heq].
      apply (Hq k' y); [|lia|done]. rewrite lookup_app_l by lia. done.
    + apply (pi_unseen _ _ _ _ Hp). intros j x Hx Hj. apply (Hq j x); [|lia].
      rewrite lookup_app_l by lia. done.
  - intros j x Hj Hx Hxt. apply turn_lookup in Hx; [|lia]. apply (tn_trees _ _ _ Ht).
    + destruct (decide (j < k)%nat) as [Hlt|Hge]; [by apply (pi_trees _ _ _ _ Hp j x)|].
      apply (pi_unseen _ _ _ _ Hp). intros j' y Hy Hj' Heq.
      pose proof (eo_fresh _ Ho _ _ _ _ Hx Hy Heq). lia.
    + rewrite Epk, Etr. intros Heq. pose proof (eo_fresh _ Ho _ _ _ _ Hx He Heq) as ->.
      assert (x = e) as -> by congruence. destruct b; congruence.
  - intros q i Hin. destruct (pi_taken _ _ _ _ Hp q i Hin) as (j & x & Hx & Hj & ->).
    exists j, x. rewrite lookup_app_l by lia. split_and!; [done|lia|done].
Qed.

(** The other side does not notice. *)
Lemma append_party s' k' p' x :
  party_inv es s' k' p' -> (k' < length es)%nat -> party_inv (es ++ [x]) s' k' p'.
Proof using.
  clear Hlen.
  intros Hp' Hk'.
  assert (forall j y, (j < k')%nat -> (es ++ [x]) !! j = Some y -> es !! j = Some y) as Hold
    by (intros j y Hj; rewrite lookup_app_l by lia; done).
  split; try apply Hp'.
  - destruct (pi_own _ _ _ _ Hp') as (y & Hy & Hr). exists y. by rewrite lookup_app_l by lia.
  - rewrite (pi_pn _ _ _ _ Hp'). unfold sent_at. by rewrite lookup_app_l by lia.
  - rewrite (pi_remote _ _ _ _ Hp'). destruct k'; [done|]. by rewrite lookup_app_l by lia.
  - intros j y -> Hy. apply (pi_mode _ _ _ _ Hp' j y); [done|]. apply Hold; [lia|done].
  - intros j y cx bx i Hy Hs Hj. apply (pi_keys _ _ _ _ Hp' j y cx bx i); try done. by apply Hold.
  - intros j y Hy Hs Hj. apply (pi_past _ _ _ _ Hp' j y); try done. apply Hold; [lia|done].
  - intros q Hq. apply (pi_unseen _ _ _ _ Hp'). intros j y Hy Hj. apply (Hq j y); [|done].
    by rewrite lookup_app_l by lia.
  - intros j y Hj Hy. apply (pi_trees _ _ _ _ Hp' j y); [done|]. by apply Hold.
  - intros q i Hin. destruct (pi_taken _ _ _ _ Hp' q i Hin) as (j & y & Hy & Hj & ->).
    exists j, y. by rewrite lookup_app_l by lia.
Qed.

Lemma append_epochs : (forall y, y ∈ es -> pub y <> pub (epoch_of s c1)) -> epochs_ok (es ++ [epoch_of s c1]).
Proof.
  intros Hfresh.
  assert (forall j y, (es ++ [epoch_of s c1]) !! j = Some y ->
    es !! j = Some y \/ (j = S (S k) /\ y = epoch_of s c1)) as Hcase.
  { intros j y Hy. apply lookup_app_Some in Hy as [Hy|[Hle Hy]]; [by left|right].
    rewrite Hlen in *. destruct (j - S (S k))%nat eqn:Ej; [|done]. injection Hy as <-. split; [lia|done]. }
  split.
  - intros j y y' Hy Hy'. destruct (Hcase _ _ Hy') as [Hy1'|[Hj ->]].
    + destruct (Hcase _ _ Hy) as [Hy1|[-> ->]]; [by apply (eo_link _ Ho)|].
      apply lookup_lt_Some in Hy1'. lia.
    + injection Hj as ->. destruct (Hcase _ _ Hy) as [Hy1|[? ->]]; [|lia].
      assert (y = e) as -> by congruence. apply turn_link.
  - intros y Hy. destruct (Hcase _ _ Hy) as [Hy1|[? ->]]; [by apply (eo_first _ Ho)|lia].
  - intros j j' y y' Hy Hy' Heq.
    destruct (Hcase _ _ Hy) as [Hy1|[-> ->]], (Hcase _ _ Hy') as [Hy1'|[-> ->]].
    + by apply (eo_fresh _ Ho j j' y y').
    + exfalso. apply (Hfresh y); [by eapply list_elem_of_lookup_2|done].
    + exfalso. apply (Hfresh y'); [by eapply list_elem_of_lookup_2|done].
    + done.
  - intros j y Hy. destruct (Hcase _ _ Hy) as [Hy1|[-> ->]]; [by eapply Ho|]. by split.
  - intros j y ct Hy Hct. destruct (Hcase _ _ Hy) as [Hy1|[-> ->]]; [by apply (eo_ct _ Ho j y)|].
    destruct (tn_send _ _ _ Ht) as (pe & m & sk & seed & _ & _ & _ & _ & Epq).
    unfold epoch_of in Hct. cbn in Hct. rewrite Epq in Hct. injection Hct as <-. apply mlkem_ct_len.
Qed.
End turn_side.

Lemma append_genuine es x s h mk : genuine es s h mk -> genuine (es ++ [x]) s h mk.
Proof.
  intros (j & e & k & b & He & Hr). exists j, e, k, b. pose proof (lookup_lt_Some _ _ _ He).
  unfold sent_at. rewrite !lookup_app_l by lia. done.
Qed.

(** What delivering a header of the wire can do. *)
Definition delivered (es : list Epoch) (k : bool -> nat) (st : Conv) (s : bool) (h : Header) (mk : Key)
    (x : Key * RatchetCore) : Prop :=
  x.1 = mk /\ ((h_dh_pk h, h_n h) ∉ taken (party st s)) /\
  (dh_pk_remote x.2 = dh_pk_remote (core (party st s)) \/ dh_pk x.2 ∉ used st ->
   exists es' k', conv_inv es' k'
     (mkConv (set_party s (opened (party st s) h x.2) (party st)) (wire st) (dh_pk x.2 :: used st))).

Definition refused (p : Party) (h : Header) (e : RatchetError) : Prop :=
  too_many e \/ e = NonContributory \/
  (e = MessageKeyUnavailable /\ (h_dh_pk h, h_n h) ∈ taken p).

(** A header of the chain being received, or of an older one that is still held. *)
Lemma deliver_known es k st s h mk j e ck b (r : R) :
  conv_inv es k st -> timely (party st s) h ->
  es !! j = Some e -> e_side e = negb s -> e_chain e = Some ck -> e_tree e = Some b ->
  0 <= h_n h < e_sent e -> e_sent e <= U32_MAX ->
  h = mkHeader (pub e) (sent_at es (j - 2)) (h_n h) (Some (mlkem_ek (e_seed e))) (e_ct e) b ->
  mk = msg_key b ck (h_n h) -> (j < k s)%nat ->
  runs (recv_step (core (party st s)) h) r (refused (party st s) h) (delivered es k st s h mk).
Proof.
  intros Hi Htm He Hs Hck Hb Hn Hm Hh Hmk Hj. pose proof (ci_party _ _ _ Hi s) as Hp.
  assert (h_dh_pk h = pub e /\ h_tree h = b) as [Epk Etr] by by rewrite Hh.
  pose proof (pi_keys _ _ _ _ Hp j e ck b (h_n h) He Hs Hj Hck Hb ltac:(lia) ltac:(lia)) as Hl.
  rewrite <- Epk in Hl.
  assert (j = pred (k s) -> dh_pk_remote (core (party st s)) = Some (h_dh_pk h)) as Hcur.
  { intros ->. rewrite (pi_remote _ _ _ _ Hp). destruct (k s); [lia|]. cbn in He. by rewrite He, Epk. }
  eapply runs_mono; [apply recv_step_known| |].
  - apply Hp.
  - apply Hp.
  - unfold is_u32, U32_MAX in *. lia.
  - destruct (decide (j = pred (k s))) as [Heq|Hne]; [left; by apply Hcur|right].
    destruct Htm as [Hnp|?]; [|done]. exfalso. apply Hnp. rewrite Epk.
    apply (pi_past _ _ _ _ Hp j e); [done|done|lia].
  - intros err [?|[[-> Hnone]|(why & -> & Hm1 & Hm2)]]; [by left| |exfalso].
    + right. right. split; [done|]. rewrite Hnone in Hl. by destruct (decide _) in Hl.
    + destruct (decide (dh_pk_remote (core (party st s)) = Some (h_dh_pk h))) as [Er|Er].
      * apply (Hm1 Er). rewrite (pi_remote _ _ _ _ Hp) in Er. destruct (k s) as [|k'] eqn:Ek; [done|].
        destruct (es !! k') as [y|] eqn:Ey; [|done]. cbn in Er. injection Er as Er. rewrite Epk in Er.
        pose proof (eo_fresh _ (ci_epochs _ _ _ Hi) _ _ _ _ Ey He Er) as ->.
        pose proof (pi_mode _ _ _ _ Hp j e eq_refl He ltac:(by rewrite Hck)). congruence.
      * destruct (Hm2 Er) as [Hf [t Ht]]. rewrite Epk, (pi_trees _ _ _ _ Hp j e) in Ht; try done. congruence.
  - intros [mk' c] Ht. cbn [fst snd] in Ht. pose proof (tk_key _ _ _ _ _ Ht) as Hk. rewrite Hl in Hk.
    destruct (decide _) as [|Hnt] in Hk; [done|]. injection Hk as <-. split_and!; cbn [fst snd]; try done.
    intros _. exists es, k. apply same_place; [done| |by right].
    apply (took_inv es s (k s) _ h (msg_key b ck (h_n h))); try done; [lia|]. eauto.
Qed.

(** The conversation after a side has turned the epoch. *)
Lemma turn_conv es k st s h mk c c1 (Hi : conv_inv es k st) e (He : es !! S (k s) = Some e)
    ck (Hck : e_chain e = Some ck) b (Hb : e_tree e = Some b) (Hs : e_side e = negb s) :
  h = mkHeader (pub e) (sent_at es (S (k s) - 2)) (h_n h) (Some (mlkem_ek (e_seed e))) (e_ct e) b ->
  0 <= h_n h < U32_MAX -> length es = S (S (k s)) -> k (negb s) = S (k s) ->
  dh_pk_remote (core (party st s)) <> Some (h_dh_pk h) ->
  turned (core (party st s)) h c1 -> took_key c1 (h_dh_pk h) (h_n h) mk c ->
  dh_pk_remote c = dh_pk_remote (core (party st s)) \/ dh_pk c ∉ used st ->
  conv_inv (es ++ [epoch_of s c1]) (fun s' => if eqb s' s then length es else k s')
    (mkConv (set_party s (opened (party st s) h c) (party st)) (wire st) (dh_pk c :: used st)).
Proof.
  intros Hh Hn Hlen Hk Hne Ht Htk Hfr. pose proof (ci_party _ _ _ Hi s) as Hp.
  pose proof (ci_epochs _ _ _ Hi) as Ho. pose proof (tk_frame _ _ _ _ _ Htk) as F.
  destruct (tn_remote _ _ _ Ht) as [Er1 _].
  assert (dh_pk_remote c = Some (h_dh_pk h) /\ dh_pk c = dh_pk c1) as [Er Edp] by (rewrite F; done).
  assert (dh_pk c = pub (epoch_of s c1)) as Epub.
  { rewrite Edp. destruct (tn_send _ _ _ Ht) as (pe & m & sk & seed & _ & Esk & Epk & _).
    unfold pub, epoch_of. cbn. congruence. }
  destruct Hfr as [Hfr|Hfr]; [congruence|].
  pose proof (turn_party es s (k s) _ h c1 Ho Hp Hlen e He ck Hck b Hb Hs Hh Ht) as Hp1.
  split; cbn [party wire used].
  - apply (append_epochs es s (k s) (party st s) h c1 Ho Hp Hlen e He ck Hck b Hs Hh Ht).
    intros y Hy Heq. apply Hfr. rewrite Epub, <- Heq. by apply (ci_used _ _ _ Hi).
  - rewrite length_app. cbn. apply (sides _ s); rewrite ?negb_involutive, ?eqb_reflx;
      (destruct s; cbn in *; lia).
  - apply (sides _ s); rewrite ?set_party_eq, ?set_party_ne.
    + rewrite eqb_reflx, Hlen.
      replace (opened (party st s) h c) with
        (opened (mkParty c1 (option_list (dh_pk_remote (core (party st s))) ++ past (party st s))
                   (taken (party st s))) h c).
      2: { unfold opened. cbn [core past taken]. rewrite decide_True by congruence.
           by rewrite decide_False by congruence. }
      apply (took_inv _ _ _ _ h mk); [done|done|lia|].
      exists (S (k s)), e. rewrite lookup_app_l by lia. split_and!; [done|lia|by rewrite Hh].
    + replace (eqb (negb s) s) with false by (by destruct s).
      apply append_party; [apply (ci_party _ _ _ Hi)|lia].
  - intros s' h' mk' Hin. by apply append_genuine, (ci_wire _ _ _ Hi).
  - intros y [Hy|Hy]%elem_of_app; [right; by apply (ci_used _ _ _ Hi)|].
    apply list_elem_of_singleton in Hy as ->. rewrite Epub. left.
Qed.

(** The first header of the peer's next chain. *)
Lemma deliver_new es k st s h mk e ck b (r : R) :
  conv_inv es k st ->
  es !! S (k s) = Some e -> e_side e = negb s -> e_chain e = Some ck -> e_tree e = Some b ->
  0 <= h_n h < e_sent e -> e_sent e <= U32_MAX ->
  h = mkHeader (pub e) (sent_at es (S (k s) - 2)) (h_n h) (Some (mlkem_ek (e_seed e))) (e_ct e) b ->
  mk = msg_key b ck (h_n h) ->
  runs (recv_step (core (party st s)) h) r (refused (party st s) h) (delivered es k st s h mk).
Proof.
  intros Hi He Hs Hck Hb Hn Hm Hh Hmk. pose proof (ci_party _ _ _ Hi s) as Hp.
  pose proof (ci_epochs _ _ _ Hi) as Ho.
  assert (h_dh_pk h = pub e /\ h_tree h = b /\ h_pq_ek h = Some (mlkem_ek (e_seed e)) /\ h_pq_ct h = e_ct e)
    as (Epk & Etr & Eek & Ect) by by rewrite Hh.
  assert (length es = S (S (k s)) /\ k (negb s) = S (k s)) as [Hlen Hk].
  { apply lookup_lt_Some in He. destruct (ci_near _ _ _ Hi s) as [[? ?]|[? ?]]; lia. }
  assert (dh_pk_remote (core (party st s)) <> Some (h_dh_pk h)) as Hne.
  { rewrite (pi_remote _ _ _ _ Hp), Epk. destruct (k s) as [|k']; [done|].
    destruct (es !! k') as [y|] eqn:Ey; [|done]. cbn. intros [= Heq].
    pose proof (eo_fresh _ Ho _ _ _ _ Ey He Heq). lia. }
  assert (unseen (core (party st s)) (h_dh_pk h)) as Hu.
  { apply (pi_unseen _ _ _ _ Hp). intros j y Hy Hj Heq. rewrite Epk in Heq.
    pose proof (eo_fresh _ Ho _ _ _ _ Hy He (eq_sym Heq)). lia. }
  eapply runs_mono; [apply recv_step_new; [apply Hp|exact Hu|exact Hne|unfold is_u32, U32_MAX in *; lia]| |].
  - intros err [?|[[-> [Hd|[Hd1 Hd2]]]|[[-> (ek & Hek & Hv)]| ->]]];
      [by left|congruence| |exfalso|by right; left].
    + destruct (pi_own _ _ _ _ Hp) as (e0 & He0 & _). rewrite Ect in Hd1.
      destruct (eo_link _ Ho _ _ _ He0 He) as (_ & _ & _ & Hz). specialize (Hz Hd1).
      rewrite (pi_sent _ _ _ _ Hp Hz) in Hd2. done.
    + assert (ek = mlkem_ek (e_seed e)) as -> by congruence. by rewrite mlkem_ek_valid in Hv.
  - intros [mk' c] (c1 & Ht & Htk). cbn [fst snd] in Htk.
    pose proof (tk_key _ _ _ _ _ Htk) as Hl.
    pose proof (turn_party es s (k s) _ h c1 Ho Hp Hlen e He ck Hck b Hb Hs Hh Ht) as Hp1.
    assert ((h_dh_pk h, h_n h) ∉ taken (party st s)) as Hnt.
    { intros Hin. destruct (pi_taken _ _ _ _ Hp _ _ Hin) as (j' & y & Hy & Hj' & Heq). rewrite Epk in Heq.
      pose proof (eo_fresh _ Ho _ _ _ _ He Hy Heq). lia. }
    split_and!; cbn [fst snd]; [|done|].
    + rewrite (tn_new _ _ _ Ht) in Hl by (unfold is_u32, U32_MAX in *; lia).
      destruct (turn_roots es s (k s) _ h Ho Hp e He ck Hck b Hh) as [_ Hr2].
      rewrite Hr2, Etr in Hl. congruence.
    + intros Hfr. exists (es ++ [epoch_of s c1]), (fun s' => if eqb s' s then length es else k s').
      apply (turn_conv es k st s h mk' c c1 Hi e He ck Hck b); try done. lia.
Qed.

Lemma deliver_wire es k st s h mk (r : R) :
  conv_inv es k st -> (negb s, (h, mk)) ∈ wire st -> timely (party st s) h ->
  runs (recv_step (core (party st s)) h) r (refused (party st s) h) (delivered es k st s h mk).
Proof.
  intros Hi Hw Htm. destruct (ci_wire _ _ _ Hi _ _ _ Hw) as (j & e & ck & b & He & Hs & Hck & Hb & Hn & Hm & Hh & Hmk).
  destruct (decide (j < k s)%nat) as [Hlt|Hge]; [by apply (deliver_known es k st s h mk j e ck b)|].
  assert (j <> k s) as Hne.
  { intros ->. destruct (pi_own _ _ _ _ (ci_party _ _ _ Hi s)) as (e0 & He0 & Hs0 & _).
    assert (e = e0) as -> by congruence. rewrite Hs0 in Hs. by destruct s. }
  assert (j = S (k s)) as ->.
  { apply lookup_lt_Some in He. destruct (ci_near _ _ _ Hi s) as [[? ?]|[? ?]]; lia. }
  by apply (deliver_new es k st s h mk e ck b).
Qed.

(** ** The first epochs *)

Lemma initiator_spec root pk (r r' : R) a :
  initiator root pk r = Some (inr a, r') ->
  exists sk seed, let x := kdf_rk root (x25519_dh sk pk) None in
    a = mkCore sk (x25519_public sk) (Some pk) x.1 (Some x.2) None 0 0 0 ∅
          (mkPq seed (mlkem_ek seed) None) false Undecided None false ∅ false.
Proof.
  intros E. revert E. apply (runs_ok (initiator root pk) r (fun _ => True) (fun a =>
    exists sk seed, let x := kdf_rk root (x25519_dh sk pk) None in
    a = mkCore sk (x25519_public sk) (Some pk) x.1 (Some x.2) None 0 0 0 ∅
          (mkPq seed (mlkem_ek seed) None) false Undecided None false ∅ false)).
  unfold initiator. apply runs_bind, runs_draw. intros sk r1. apply runs_bind, runs_dh; [done|].
  intros r2. destruct (kdf_rk root _ None) as [rk0 ck0] eqn:Ek.
  apply runs_bind, runs_bind, runs_draw. intros seed r3. apply runs_ret. intros r4. apply runs_ret.
  exists sk, seed. cbv zeta. by rewrite Ek.
Qed.

Lemma responder_spec root sk (r r' : R) b :
  responder root sk r = Some (inr b, r') ->
  exists seed, b = mkCore sk (x25519_public sk) None root None None 0 0 0 ∅
    (mkPq seed (mlkem_ek seed) None) false Undecided None false ∅ false.
Proof.
  intros E. revert E. apply (runs_ok (responder root sk) r (fun _ => True) (fun b =>
    exists seed, b = mkCore sk (x25519_public sk) None root None None 0 0 0 ∅
      (mkPq seed (mlkem_ek seed) None) false Undecided None false ∅ false)).
  unfold responder. apply runs_bind, runs_bind, runs_draw. intros seed r3. apply runs_ret. intros r4.
  apply runs_ret. by exists seed.
Qed.

Lemma start_inv root sk (r1 r2 r1' r2' : R) a b :
  initiator root (x25519_public sk) r1 = Some (inr a, r1') ->
  responder root sk r2 = Some (inr b, r2') -> dh_pk a <> dh_pk b ->
  exists es k, conv_inv es k
    (mkConv (fun s => if s then mkParty a [] [] else mkParty b [] []) [] [dh_pk a; dh_pk b]).
Proof.
  intros Ea Eb Hne. destruct (initiator_spec _ _ _ _ _ Ea) as (ska & seeda & Ha).
  destruct (responder_spec _ _ _ _ _ Eb) as (seedb & Hb). cbv zeta in Ha. clear Ea Eb.
  set (x := kdf_rk root (x25519_dh ska (x25519_public sk)) None) in *.
  exists [mkEpoch false sk seedb None root None None 0; mkEpoch true ska seeda None x.1 (Some x.2) None 0].
  exists (fun s : bool => if s then 1%nat else 0%nat). subst a b. split; cbn [party wire used].
  - split.
    + intros [|[|j]] e e' He He'; try done. cbn in He, He'. injection He as <-. injection He' as <-. done.
    + intros e [= <-]. done.
    + intros [|[|j]] [|[|j']] e e' He He' Heq; try done; cbn in He, He'; injection He as <-;
        injection He' as <-; unfold pub in Heq; cbn in Heq, Hne; congruence.
    + intros [|[|j]] e He; try done; cbn in He; injection He as <-; by split.
    + intros [|[|j]] e ct He; try done; cbn in He; injection He as <-; done.
  - intros []; cbn; lia.
  - apply (sides _ true); cbn [negb].
    + split; cbn [core past taken]; try done.
      * eexists. split; [reflexivity|]. by split_and!.
      * intros j e [= <-] He [? Hc]. injection He as <-. done.
      * intros [|j] e ch b i He _ Hj Hc; [|lia]. by injection He as <-.
      * intros; lia.
      * intros q i Hin. by apply elem_of_nil in Hin.
    + split; cbn [core past taken]; try done; try (intros; lia).
      * eexists. split; [reflexivity|]. by split_and!.
      * intros q i Hin. by apply elem_of_nil in Hin.
  - intros s h mk Hin. by apply elem_of_nil in Hin.
  - intros e He. unfold pub. set_solver.
Qed.

Lemma reach_inv st : reach st -> exists es k, conv_inv es k st.
Proof.
  intros Hr. induction Hr as [root sk r1 r2 r1' r2' a b Ea Eb Hne|st st' _ (es & k & Hi) Hs].
  - by eapply start_inv.
  - destruct Hs as [s h mk c Hm Es|s to res c Hto Es|s|s h mk mk' c r r' Hw Htm Er Hfr].
    + destruct (step_send es k st s h mk c Hi Hm Es) as [es' Hi']. by exists es', k.
    + destruct (step_skip es k st s to res c Hi Hto Es) as [es' Hi']. by exists es', k.
    + exists es, k. by apply step_note.
    + pose proof (runs_ok _ _ _ _ _ _ (deliver_wire es k st s h mk r Hi Hw Htm) Er) as (_ & _ & Hn).
      by apply Hn.
Qed.

End agree.

(** ** Claims *)

Section claims.
Context `{Hkdf} `{X25519} `{!X25519Laws} `{MlKem} `{!MlKemLaws} {R : Type} `{Rng R}.


End claims.

(** ** A concrete conversation *)

Module Sample.
#[local] Existing Instances Toy.hkdf_toy Toy.x25519_toy Toy.x25519_toy_laws Toy.mlkem_toy
  Toy.mlkem_toy_laws Toy.rng_toy.

Definition root : Key := be_bytes 32 1.
Definition bob_sk : Key := be_bytes 32 7.
Definition nobody : RatchetCore :=
  mkCore [] [] None [] None None 0 0 0 ∅ (mkPq [] [] None) false Undecided None false ∅ false.

Definition state_of (o : option ((RatchetError + RatchetCore) * Z)) : RatchetCore :=
  match o with Some (inr c, _) => c | _ => nobody end.

Definition alice0 : RatchetCore := state_of (initiator root bob_sk 100).
Definition bob0 : RatchetCore := state_of (responder root bob_sk 200).

Definition sent (c : RatchetCore) : Header * Key :=
  match (send_step c).1 with inr x => x | inl _ => (mkHeader [] 0 0 None None false, []) end.

(** The initiator has sent two messages, neither of which has arrived. *)
Definition alice1 : RatchetCore := (send_step alice0).2.
Definition alice2 : RatchetCore := (send_step alice1).2.
Definition start : Conv :=
  mkConv (fun s => if s then mkParty alice0 [] [] else mkParty bob0 [] []) [] [dh_pk alice0; dh_pk bob0].
Definition conv1 : Conv :=
  mkConv (set_party true (mkParty alice1 [] []) (party start)) [(true, sent alice0)] (used start).
Definition conv2 : Conv :=
  mkConv (set_party true (mkParty alice2 [] []) (party conv1))
    [(true, sent alice1); (true, sent alice0)] (used start).

Lemma conv2_reach : reach (R := Z) conv2.
Proof.
  assert (reach (R := Z) start) as H0.
  { apply (reach_start root bob_sk 100 200 102 201); [vm_compute; reflexivity..|].
    vm_compute. intros E. discriminate E. }
  assert (reach (R := Z) conv1) as H1.
  { apply (reach_step start); [exact H0|]. unfold conv1. rewrite (surjective_pairing (sent alice0)).
    apply (do_send start true); [vm_compute; reflexivity|]. vm_compute. reflexivity. }
  apply (reach_step conv1); [exact H1|]. unfold conv2. rewrite (surjective_pairing (sent alice1)).
  apply (do_send conv1 true); [vm_compute; reflexivity|]. vm_compute. reflexivity.
Qed.

End Sample.
