(* ===== verification/RatchetRobust.v ===== *)
(** * A ratchet end facing a hostile peer

    The headers here are arbitrary: they need not come from an honest end.  The state keeps its
    structure and its bounds, and no operation panics. *)

From stdpp Require Import strings.
From S2P Require Import Prelude BTree Crypto RatchetTree RatchetTreeInv Ratchet RatchetKeys.

Section robust.
Context `{Hkdf} `{X25519} `{MlKem} {R : Type} `{Rng R}.

(** What holds of the state whatever arrives. *)
Record core_wf (c : RatchetCore) : Prop := {
  wf_skipped : Z.of_nat (size (skipped c)) <= MAX_SKIP_TOTAL;
  wf_remote : is_Some (ckr c) -> is_Some (dh_pk_remote c);
  wf_recv_tree : recv_tree c = true -> ckr c = None;
  wf_trees : forall pk h, tree_holes c !! pk = Some h -> some_root h;
  wf_send_tree : forall h, send_tree c = Some h -> some_root h;
  wf_send_mode : send_mode c = Tree <-> is_Some (send_tree c);
  wf_send_cks : send_mode c = Tree -> cks c = None;
  wf_dh : dh_pk c = x25519_public (dh_sk c)
}.

(** The parts of [core_wf] about sending do not depend on the receive path. *)
Definition recv_only (c c' : RatchetCore) : Prop :=
  send_tree c' = send_tree c /\ send_mode c' = send_mode c /\ cks c' = cks c /\
  dh_pk c' = dh_pk c /\ dh_sk c' = dh_sk c.

Lemma core_wf_recv c c' :
  core_wf c -> recv_only c c' -> Z.of_nat (size (skipped c')) <= MAX_SKIP_TOTAL ->
  (is_Some (ckr c') -> is_Some (dh_pk_remote c')) -> (recv_tree c' = true -> ckr c' = None) ->
  (forall pk h, tree_holes c' !! pk = Some h -> some_root h) -> core_wf c'.
Proof.
  intros Hw (E1 & E2 & E3 & E4 & E5) Hs Hr Hrt Ht. split; try done; rewrite ?E1, ?E2, ?E3, ?E4, ?E5; apply Hw.
Qed.

Lemma insert_trees (m : gmap Key Holes) q x :
  (forall pk h, m !! pk = Some h -> some_root h) -> some_root x ->
  forall pk h, <[q := x]> m !! pk = Some h -> some_root h.
Proof. intros Hm Hx pk h [[<- <-]|[_ Hin]]%lookup_insert_Some; [done|by eapply Hm]. Qed.

Lemma skip_wf c until (r : R) :
  core_wf c -> runs (skip_message_keys c until) r (fun _ => True)
    (fun c' => core_wf c' /\ (is_Some (ckr c') <-> is_Some (ckr c)) /\ recv_tree c' = recv_tree c).
Proof.
  intros Hw. unfold skip_message_keys. destruct (Z.leb_spec until (nr c)); [by apply runs_ret|].
  destruct (MAX_SKIP <? until - nr c); [by apply runs_throw|].
  destruct (Z.ltb_spec MAX_SKIP_TOTAL (Z.of_nat (size (skipped c)) + (until - nr c))); [by apply runs_throw|].
  destruct (ckr c) as [k|] eqn:Ek; [|apply runs_ret; by rewrite Ek].
  destruct (wf_remote _ Hw ltac:(by rewrite Ek)) as [pk Er].
  apply runs_bind. eapply runs_expect; [exact Er|]. intros r'.
  destruct (bank_keys _ _ _ _ _) as [k' bank] eqn:Ebk.
  destruct (bank_keys_spec _ _ _ _ _ _ _ Ebk) as (-> & Hs & _).
  apply runs_ret. cbn. split_and!; [|done|done].
  apply (core_wf_recv c); cbn; [done|done|lia|by rewrite Er| |apply Hw].
  intros Hrt. pose proof (wf_recv_tree _ Hw Hrt). congruence.
Qed.

Lemma runs_weaken {A} (m : Step (R := R) A) r E (Q Q' : A -> Prop) :
  runs m r E Q -> (forall x, Q x -> Q' x) -> runs m r (fun _ => True) Q'.
Proof. intros Hm HQ. by eapply runs_mono; [exact Hm|..]. Qed.

Lemma straggler_wf c header h (r : R) :
  core_wf c -> some_root h ->
  runs (recv_straggler c header h) r (fun _ => True) (fun x => core_wf x.2).
Proof.
  intros Hw Hh. unfold recv_straggler. destruct (negb _); [by apply runs_throw|].
  apply runs_bind, runs_ok_or; [done|]. intros [mk h'] El r1.
  destruct (take_leaf_leaf h _ mk h' Hh El) as (Hh' & _).
  apply runs_bind. eapply runs_weaken; [apply check_tree_limits_spec|]. intros _ _ r2. apply runs_ret.
  apply (core_wf_recv c); try done; cbn; try apply Hw. destruct (is_nil h').
  - intros pk x [_ Hx]%lookup_delete_Some. by eapply (wf_trees _ Hw).
  - apply insert_trees; [apply Hw|done].
Qed.

Lemma close_wf c pn (r : R) :
  core_wf c -> runs (close_tree c pn) r (fun _ => True) core_wf.
Proof.
  intros Hw. unfold close_tree. destruct (recv_tree c); [|by apply runs_ret].
  destruct (dh_pk_remote c) as [pk|]; [|by apply runs_ret].
  destruct (tree_holes c !! pk) as [h|] eqn:Et; [|by apply runs_ret].
  destruct (retain_leaf h 0 pn (wf_trees _ Hw _ _ Et)) as (h' & Eh & Hh' & _).
  apply runs_bind. eapply runs_expect; [exact Eh|]. intros r1. apply runs_ret.
  apply (core_wf_recv c); try done; cbn; try apply Hw. apply insert_trees; [apply Hw|done].
Qed.

Lemma new_epoch_wf c header peer_ek m sk seed :
  core_wf c -> core_wf (new_epoch c header peer_ek m sk seed <| recv_tree := false |>).
Proof.
  intros Hw. split; cbn; try done; try apply Hw.
  - intros pk h Hin. apply filter_tree_Some in Hin. by eapply Hw.
Qed.

Lemma turn_wf c header (r : R) :
  core_wf c -> runs (turn_epoch c header) r (fun _ => True) core_wf.
Proof.
  intros Hw. unfold turn_epoch. apply runs_bind.
  assert (runs (if is_some (ckr c) then skip_message_keys c (h_pn header) else mret c) r (fun _ => True)
    core_wf) as Hsk.
  { destruct (ckr c); cbn; [|done]. eapply runs_weaken; [by apply skip_wf|]. by intros x (? & _). }
  eapply runs_weaken; [exact Hsk|]. intros c1 Hw1 r1. clear Hw Hsk c. apply runs_bind.
  eapply runs_weaken; [by apply close_wf|]. intros c2 Hw r2. clear c1 Hw1.
  apply runs_bind. eapply runs_weaken; [apply asymmetric_step_spec|].
  intros c3 (peer_ek & m & sk & seed & _ & ->) r3. cbn beta.
  pose proof (new_epoch_wf c2 header peer_ek m sk seed Hw) as Hw3.
  assert (ckr (new_epoch c2 header peer_ek m sk seed) = Some (recv_root c2 header).2) as Ek by done.
  generalize dependent (new_epoch c2 header peer_ek m sk seed). intros c3 Hw3 Ek.
  destruct (h_tree header); [|by apply runs_ret].
  apply runs_bind. eapply runs_expect; [exact Ek|]. intros r4. apply runs_ret.
  apply (core_wf_recv (c3 <| recv_tree := false |>)); try done; cbn; try apply Hw3; [by intros [? ?]|].
  apply insert_trees; [apply Hw3|]. apply holes_root_leaf.
Qed.

Lemma current_wf c header (r : R) :
  core_wf c -> runs (recv_current c header) r (fun _ => True) (fun x => core_wf x.2).
Proof.
  intros Hw. unfold recv_current. destruct (negb _); [by apply runs_throw|].
  destruct (recv_tree c) eqn:Ert.
  - destruct (U32_MAX / 2 <? _); [by apply runs_throw|].
    apply runs_bind, runs_ok_or; [done|]. intros h Et r1.
    apply runs_bind, runs_ok_or; [done|]. intros [mk h'] El r2.
    destruct (take_leaf_leaf h _ mk h' (wf_trees _ Hw _ _ Et) El) as (Hh' & _).
    apply runs_bind. eapply runs_weaken; [apply check_tree_limits_spec|]. intros _ _ r3. apply runs_ret.
    apply (core_wf_recv c); try done; cbn; try apply Hw. apply insert_trees; [apply Hw|done].
  - destruct (h_n header <? nr c); [by apply runs_throw|].
    apply runs_bind. eapply runs_weaken; [by apply skip_wf|]. intros c1 (Hw1 & Hck & Hrt) r1. cbn beta.
    apply runs_bind, runs_ok_or; [done|]. intros k Ek r2. destruct (kdf_ck k). apply runs_ret.
    apply (core_wf_recv c1); try done; cbn; try apply Hw1.
    + intros _. apply (wf_remote _ Hw1). by rewrite Ek.
    + congruence.
Qed.

Lemma recv_step_wf c header (r : R) :
  core_wf c -> runs (recv_step c header) r (fun _ => True) (fun x => core_wf x.2).
Proof.
  intros Hw. unfold recv_step. destruct (skipped c !! _) eqn:Es.
  { apply runs_ret. apply (core_wf_recv c); try done; cbn; try apply Hw.
    rewrite map_size_delete, Es. pose proof (wf_skipped _ Hw). lia. }
  destruct (is_new_epoch c header); [|by apply current_wf].
  destruct (tree_holes c !! _) as [h|] eqn:Et; [apply straggler_wf; [done|by eapply Hw]|].
  apply runs_bind. eapply runs_weaken; [by apply turn_wf|]. intros c1 Hw1 r1. by apply current_wf.
Qed.

(** ** Sending and the bank *)

Lemma fix_send_mode_wf c : core_wf c -> core_wf (fix_send_mode c).2.
Proof.
  intros Hw. unfold fix_send_mode. destruct (send_mode c) eqn:Em; [|done..].
  destruct (cks c) as [k|]; [|done]. destruct (peer_tree c).
  - split; cbn; try apply Hw; try done. intros h [= <-]. apply holes_root_leaf.
  - split; cbn; try apply Hw; try done. rewrite <- (wf_send_mode _ Hw), Em. done.
Qed.

Lemma send_key_wf c tree : core_wf c -> (tree = false -> send_mode c <> Tree) -> core_wf (send_key c tree).2.
Proof.
  intros Hw Hm. unfold send_key. destruct tree.
  - destruct (send_tree c) as [h|] eqn:Es; [|done]. destruct (take_leaf h (ns c)) as [[mk h']|] eqn:El; [|done].
    destruct (take_leaf_leaf h _ mk h' (wf_send_tree _ Hw _ Es) El) as (Hh' & _).
    split; cbn; try apply Hw; [by intros ? [= <-]|].
    rewrite (wf_send_mode _ Hw), Es. split; intros _; by eexists.
  - destruct (cks c) as [k|]; [|done]. split; cbn; try apply Hw. intros Ht. by specialize (Hm eq_refl).
Qed.

Lemma send_step_wf c : core_wf c -> core_wf (send_step c).2.
Proof.
  intros Hw. pose proof (fix_send_mode_wf c Hw) as Hf. unfold send_step.
  destruct (fix_send_mode c) as [[e|tree] c1] eqn:Ef; [done|]. cbn in Hf.
  assert (tree = false -> send_mode c1 <> Tree) as Hm.
  { intros ->. unfold fix_send_mode in Ef. destruct (send_mode c) eqn:Em; [|by injection Ef as <-; rewrite Em|done].
    destruct (cks c); [|done]. by destruct (peer_tree c); [|injection Ef as <-]. }
  pose proof (send_key_wf c1 tree Hf Hm) as Hk. destruct (send_key c1 tree) as [[e|mk] c2]; [done|].
  split; cbn; apply Hk.
Qed.

Lemma skip_send_wf c to : core_wf c -> exists res c', skip_send_to c to = Some (res, c') /\ core_wf c'.
Proof.
  intros Hw. pose proof (fix_send_mode_wf c Hw) as Hf. unfold skip_send_to.
  destruct (_ || _); [by eauto|]. destruct (MAX_SEND_SKIP <? _); [by eauto|].
  destruct (fix_send_mode c) as [[e|tree] c1] eqn:Ef; cbn in Hf; [by eauto|].
  destruct tree.
  - destruct (send_tree c1) as [h|] eqn:Es; [|by eauto].
    destruct (retain_leaf h (pos_next to) (Z.shiftl 1 32) (wf_send_tree _ Hf _ Es)) as (h' & Eh & Hh' & _).
    rewrite Eh. eexists _, _. split; [reflexivity|]. split; cbn; try apply Hf; [by intros ? [= <-]|].
    rewrite (wf_send_mode _ Hf), Es. split; intros _; by eexists.
  - destruct (cks c1) as [k|] eqn:Ek; [|by eauto]. eexists _, _. split; [reflexivity|].
    split; cbn; try apply Hf. intros Hm. pose proof (wf_send_cks _ Hf Hm). congruence.
Qed.

Lemma clear_wf c : core_wf c -> exists n c', clear_skipped c = Some (n, c') /\ core_wf c'.
Proof.
  intros Hw. unfold clear_skipped. cbv zeta.
  set (current := if recv_tree _ then _ else _).
  set (c1 := c <| skipped := ∅ |> <| tree_holes := _ |>).
  assert (core_wf c1) as Hw1.
  { apply (core_wf_recv c); try done; cbn; try apply Hw.
    intros pk h [Hin _]%map_lookup_filter_Some. by eapply Hw. }
  destruct current as [pk|]; [|by eauto].
  change (tree_holes (c <| skipped := ∅ |> <| tree_holes := _ |>)) with (tree_holes c1).
  destruct (tree_holes c1 !! pk) as [h|] eqn:Et; [|by eauto].
  destruct (retain_leaf h (nr c1) (Z.shiftl 1 32) (wf_trees _ Hw1 _ _ Et)) as (h' & Eh & Hh' & _).
  change (nr (c <| skipped := ∅ |> <| tree_holes := _ |>)) with (nr c1).
  rewrite Eh. eexists _, _. split; [reflexivity|].
  apply (core_wf_recv c1); try done; cbn; try apply Hw. apply insert_trees; [apply Hw1|done].
Qed.

Lemma prune_wf c : core_wf c -> core_wf (prune_skipped_to_current_epoch c).2.
Proof.
  intros Hw. unfold prune_skipped_to_current_epoch. cbv zeta. cbn [snd].
  destruct (dh_pk_remote c) as [cur|] eqn:Er.
  - apply (core_wf_recv c); try done; cbn; try apply Hw.
    + pose proof (wf_skipped _ Hw). pose proof (map_size_filter (fun e => e.1.1 = cur) (skipped c)). lia.
    + intros pk h [Hin _]%map_lookup_filter_Some. by eapply Hw.
  - apply (core_wf_recv c); try done; cbn; apply Hw.
Qed.

(** ** Runs *)

(** The operations of a session; [auth] says whether the tag of the arriving frame verifies. *)
Inductive RatchetOp :=
  | OpSend | OpSkip (to : SendPosition) | OpRecv (header : Header) (auth : bool) | OpNotePeerTree
  | OpClear | OpPrune.

(** One operation; [None] is a panic.  A receive step that fails, or whose tag does not verify,
    leaves the state as it was. *)
Definition core_op (op : RatchetOp) (c : RatchetCore) (r : R) : option (RatchetCore * R) :=
  match op with
  | OpSend => Some ((send_step c).2, r)
  | OpSkip to => '(_, c) ← skip_send_to c to; Some (c, r)
  | OpRecv header auth =>
      '(res, r) ← recv_step c header r;
      Some (match res with inr (_, c') => if auth then c' else c | inl _ => c end, r)
  | OpNotePeerTree => Some (note_peer_tree c, r)
  | OpClear => '(_, c) ← clear_skipped c; Some (c, r)
  | OpPrune => Some ((prune_skipped_to_current_epoch c).2, r)
  end.

Fixpoint core_run (ops : list RatchetOp) (c : RatchetCore) (r : R) : option (RatchetCore * R) :=
  match ops with
  | [] => Some (c, r)
  | op :: ops => '(c, r) ← core_op op c r; core_run ops c r
  end.

Lemma core_op_wf op c r : core_wf c -> exists c' r', core_op op c r = Some (c', r') /\ core_wf c'.
Proof.
  intros Hw. destruct op as [|to|header auth| | |]; cbn [core_op].
  - eexists _, _. split; [reflexivity|by apply send_step_wf].
  - destruct (skip_send_wf c to Hw) as (res & c' & -> & Hw'). by eexists _, _.
  - destruct (runs_cases _ _ _ _ (recv_step_wf c header r Hw)) as (res & r' & -> & Hres).
    eexists _, _. split; [reflexivity|]. destruct res as [e|[mk c']]; [done|]. by destruct auth.
  - eexists _, _. split; [reflexivity|]. split; cbn; apply Hw.
  - destruct (clear_wf c Hw) as (n & c' & -> & Hw'). by eexists _, _.
  - eexists _, _. split; [reflexivity|by apply prune_wf].
Qed.

Lemma core_run_wf ops : forall c r, core_wf c -> exists c' r', core_run ops c r = Some (c', r') /\ core_wf c'.
Proof.
  induction ops as [|op ops IH]; intros c r Hw; [by eexists _, _|]. cbn [core_run].
  destruct (core_op_wf op c r Hw) as (c1 & r1 & -> & Hw1). apply (IH c1 r1 Hw1).
Qed.

Lemma responder_wf root sk (r : R) : runs (responder root sk) r (fun _ => True) core_wf.
Proof.
  unfold responder. apply runs_bind, runs_bind, runs_draw. intros seed r1. apply runs_ret. intros r2.
  apply runs_ret. split; cbn; try done; by intros [? ?].
Qed.

Lemma initiator_wf root pk (r : R) : runs (initiator root pk) r (fun _ => True) core_wf.
Proof.
  unfold initiator. apply runs_bind, runs_draw. intros sk r1. apply runs_bind, runs_dh; [done|].
  intros r2. destruct (kdf_rk _ _ _). apply runs_bind, runs_bind, runs_draw. intros seed r3. apply runs_ret.
  intros r4. apply runs_ret. split; cbn; try done; by intros [? ?].
Qed.

End robust.

(** ** Claims *)

(** C26. A ratchet end survives any peer.  From a fresh initiator or responder, whatever headers
    arrive, authentic or not, and however sends, reserved positions and sweeps of the bank are
    interleaved with them, no operation panics and the state stays well formed: at most
    [MAX_SKIP_TOTAL] keys are banked, a receiving chain has its peer key, every key tree is a
    proper tree of one chain, the mode of the sending chain matches what is stored for it, and the
    public ratchet key is that of the secret one. *)
Theorem ratchet_hostile_peer `{Hkdf} `{X25519} `{MlKem} {R : Type} `{Rng R}
    (root key : Key) (r r1 : R) (c : RatchetCore) (ops : list RatchetOp)
    (Hs : initiator root key r = Some (inr c, r1) \/ responder root key r = Some (inr c, r1)) :
  exists c' r', core_run ops c r1 = Some (c', r') /\ core_wf c'.
Proof.
  apply core_run_wf. destruct Hs as [Hs|Hs].
  - exact (runs_ok _ _ _ _ _ _ (initiator_wf root key r) Hs).
  - exact (runs_ok _ _ _ _ _ _ (responder_wf root key r) Hs).
Qed.

Module Sample.
#[local] Existing Instances Toy.hkdf_toy Toy.x25519_toy Toy.mlkem_toy Toy.rng_toy.

Definition nobody : RatchetCore :=
  mkCore [] [] None [] None None 0 0 0 ∅ (mkPq [] [] None) false Undecided None false ∅ false.

Definition fresh : RatchetCore :=
  match responder (be_bytes 32 1) (be_bytes 32 7) 200 with Some (inr c, _) => c | _ => nobody end.

(** A peer that opens a tree chain far in, skips on, and then falls back to a hash chain. *)
Definition header (pk n pn : Z) (tree : bool) : Header :=
  mkHeader (be_bytes 32 pk) pn n (Some (replicate 1184 x09)) None tree.

Lemma ratchet_hostile_peer_witness :
  exists c' r', core_run [OpRecv (header 3 70000 0 true) true; OpSend; OpRecv (header 3 5 0 true) false;
    OpRecv (header 4 2 90000 false) true; OpClear; OpPrune] fresh 201 = Some (c', r') /\ core_wf c'.
Proof.
  apply (ratchet_hostile_peer (be_bytes 32 1) (be_bytes 32 7) 200 201). right. vm_compute. reflexivity.
Defined.

(** ** A chain over its node limit *)

(** Derivations do not matter here. *)
Definition hkdf_flat : Hkdf := {|
  hkdf := fun _ _ _ n => replicate (Z.to_nat n) x00;
  hkdf_expand := fun k _ _ => k
|}.
#[local] Existing Instance hkdf_flat.

(** Every 2^23-th index of the first 2^30, then a header that ends the chain at 2^31 - 1. *)
Definition sparse : list RatchetOp :=
  map (fun j => OpRecv (header 3 (Z.of_nat j * 2 ^ 23) 0 true) true) (seq 0 88).
Definition over : option (RatchetCore * Z) :=
  core_run (sparse ++ [OpRecv (header 4 0 (2 ^ 31 - 1) false) true]) fresh 201.

End Sample.
