(* ===== verification/RatchetSession.v ===== *)
(** * The authenticated session

    crates/veil-ratchet/src/session.rs: the frame around a message (header codec, associated
    data, AEAD) and the two operations of a session.  [decrypt] steps a copy of the state and keeps
    it only when the tag verifies. *)

From stdpp Require Import strings.
From S2P Require Import Prelude BTree Crypto RatchetTree RatchetTreeInv Ratchet RatchetKeys.

Definition RATCHET_FRAME_MAGIC : list byte := [x56; x52].
Definition FRAME_V1 : Z := 1.
Definition FRAME_FIXED_LEN : Z := 2 + 1 + 1 + 32 + 4 + 4.
Definition AEAD_TAG_LEN : Z := 16.
Definition FLAG_EK : Z := 1.
Definition FLAG_CT : Z := 2.
Definition FLAG_TREE : Z := 4.

(** ** Frame codec *)

Definition header_flags (h : Header) : Z :=
  let flags := 0 in
  let flags := if is_some (h_pq_ek h) then Z.lor flags FLAG_EK else flags in
  let flags := if is_some (h_pq_ct h) then Z.lor flags FLAG_CT else flags in
  if h_tree h then Z.lor flags FLAG_TREE else flags.

Definition encode_header (h : Header) : list byte :=
  RATCHET_FRAME_MAGIC ++ [byte_of FRAME_V1] ++ [byte_of (header_flags h)] ++ h_dh_pk h ++
  be_bytes 4 (h_pn h) ++ be_bytes 4 (h_n h) ++ default [] (h_pq_ek h) ++ default [] (h_pq_ct h).

(** An optional field of fixed length at an offset: its bytes and the next offset. *)
Definition take_field (frame : list byte) (present : bool) (at_ len : Z) (why : string) :
    RatchetError + (option Key * Z) :=
  if present then
    let end_ := at_ + len in
    if zlen frame <? end_ then inl (MalformedFrame why)
    else inr (Some (range at_ end_ frame), end_)
  else inr (None, at_).

Definition decode_header (frame : list byte) : RatchetError + (Header * Z) :=
  if zlen frame <? FRAME_FIXED_LEN then inl (MalformedFrame "shorter than a header")
  else if negb (bool_decide (range 0 2 frame = RATCHET_FRAME_MAGIC)) then inl (MalformedFrame "bad magic")
  else if negb (byte_at frame 2 =? FRAME_V1) then inl (MalformedFrame "unsupported version")
  else
    let flags := byte_at frame 3 in
    if negb (Z.ldiff flags (Z.lor (Z.lor FLAG_EK FLAG_CT) FLAG_TREE) =? 0) then
      inl (MalformedFrame "unknown flags")
    else
      let dh_pk := range 4 36 frame in
      let pn := from_be (range 36 40 frame) in
      let n := from_be (range 40 44 frame) in
      match take_field frame (negb (Z.land flags FLAG_EK =? 0)) FRAME_FIXED_LEN ML_KEM_768_EK_LEN
              "truncated encapsulation key" with
      | inl e => inl e
      | inr (pq_ek, at_) =>
          match take_field frame (negb (Z.land flags FLAG_CT =? 0)) at_ ML_KEM_768_CT_LEN
                  "truncated ciphertext" with
          | inl e => inl e
          | inr (pq_ct, at_) =>
              inr (mkHeader dh_pk pn n pq_ek pq_ct (negb (Z.land flags FLAG_TREE =? 0)), at_)
          end
      end.

(** [len() as u32] *)
Definition len32 (l : list byte) : list byte := be_bytes 4 (wrap32 (zlen l)).

Definition frame_aad (header_bytes associated_data : list byte) : list byte :=
  len32 header_bytes ++ header_bytes ++ len32 associated_data ++ associated_data.

(** ** Sessions *)

Section session.
Context `{Hkdf} `{X25519} `{MlKem} `{Aead} {R : Type} `{Rng R}.

Definition encrypt (c : RatchetCore) (plaintext associated_data : list byte) :
    (RatchetError + list byte) * RatchetCore :=
  match send_step c with
  | (inl e, c) => (inl e, c)
  | (inr (header, mk), c) =>
      let frame := encode_header header in
      let aad := frame_aad frame associated_data in
      let '(key, nonce) := message_keys mk in
      match aead_seal key nonce aad plaintext with
      | Some sealed => (inr (frame ++ sealed), c)
      | None => (inl AuthFailed, c)
      end
  end.

(** [decrypt]: the result, the state afterwards and the random source; [None] is a panic. *)
Definition decrypt (c : RatchetCore) (frame associated_data : list byte) (r : R) :
    option ((RatchetError + list byte) * RatchetCore * R) :=
  match decode_header frame with
  | inl e => Some (inl e, c, r)
  | inr (header, body_at) =>
      let ciphertext := zdrop body_at frame in
      if zlen ciphertext <? AEAD_TAG_LEN then
        Some (inl (MalformedFrame "ciphertext shorter than tag"), c, r)
      else
        let aad := frame_aad (ztake body_at frame) associated_data in
        match recv_step c header r with
        | None => None
        | Some (inl e, r) => Some (inl e, c, r)
        | Some (inr (mk, trial), r) =>
            let '(key, nonce) := message_keys mk in
            match aead_open key nonce aad ciphertext with
            | Some plaintext => Some (inr plaintext, trial, r)
            | None => Some (inl AuthFailed, c, r)
            end
        end
  end.

End session.

(** ** The codec is exact *)

(** The field widths of a header. *)
Record header_wf (h : Header) : Prop := {
  hw_pk : zlen (h_dh_pk h) = 32;
  hw_pn : is_u32 (h_pn h);
  hw_n : is_u32 (h_n h);
  hw_ek : forall k, h_pq_ek h = Some k -> zlen k = ML_KEM_768_EK_LEN;
  hw_ct : forall k, h_pq_ct h = Some k -> zlen k = ML_KEM_768_CT_LEN
}.

Lemma from_be_range_u32 l : zlen l = 4 -> is_u32 (from_be l).
Proof. intros Hl. pose proof (from_be_range l). rewrite Hl in *. exact H. Qed.

(** Eight combinations of flags. *)
Lemma flags_spec h :
  byte_val (byte_of (header_flags h)) = header_flags h /\
  Z.ldiff (header_flags h) (Z.lor (Z.lor FLAG_EK FLAG_CT) FLAG_TREE) = 0 /\
  negb (Z.land (header_flags h) FLAG_EK =? 0) = is_some (h_pq_ek h) /\
  negb (Z.land (header_flags h) FLAG_CT =? 0) = is_some (h_pq_ct h) /\
  negb (Z.land (header_flags h) FLAG_TREE =? 0) = h_tree h.
Proof. unfold header_flags. by destruct (h_pq_ek h), (h_pq_ct h), (h_tree h). Qed.

Lemma flags_inv flags h :
  0 <= flags < 256 -> Z.ldiff flags (Z.lor (Z.lor FLAG_EK FLAG_CT) FLAG_TREE) = 0 ->
  is_some (h_pq_ek h) = negb (Z.land flags FLAG_EK =? 0) ->
  is_some (h_pq_ct h) = negb (Z.land flags FLAG_CT =? 0) ->
  h_tree h = negb (Z.land flags FLAG_TREE =? 0) -> header_flags h = flags.
Proof.
  intros Hr Hd E1 E2 E3. change (Z.lor (Z.lor FLAG_EK FLAG_CT) FLAG_TREE) with 7 in Hd.
  unfold header_flags. rewrite E1, E2, E3. clear E1 E2 E3 h.
  assert (flags < 8) as Hlt.
  { destruct (Z.lt_ge_cases flags 8) as [|Hge]; [done|exfalso].
    assert (Z.log2 flags < 8) by (apply Z.log2_lt_pow2; lia).
    assert (3 <= Z.log2 flags) by (apply (Z.log2_le_mono 8); lia).
    pose proof (Z.bit_log2 flags ltac:(lia)) as Hb.
    assert (Z.testbit (Z.ldiff flags 7) (Z.log2 flags) = true) as Ht; [|by rewrite Hd in Ht; rewrite Z.bits_0 in Ht].
    rewrite Z.ldiff_spec, Hb. cbn. change 7 with (Z.ones 3). by rewrite Z.ones_spec_high by lia. }
  assert (flags = 0 \/ flags = 1 \/ flags = 2 \/ flags = 3 \/ flags = 4 \/ flags = 5 \/ flags = 6 \/ flags = 7)
    as [->|[->|[->|[->|[->|[->|[->| ->]]]]]]] by lia; done.
Qed.

(** The fixed part of a header. *)
Definition fixed_part (h : Header) : list byte :=
  RATCHET_FRAME_MAGIC ++ [byte_of FRAME_V1] ++ [byte_of (header_flags h)] ++ h_dh_pk h ++
  be_bytes 4 (h_pn h) ++ be_bytes 4 (h_n h).

Lemma encode_header_fixed h :
  encode_header h = fixed_part h ++ default [] (h_pq_ek h) ++ default [] (h_pq_ct h).
Proof. unfold encode_header, fixed_part. by rewrite <- !app_assoc. Qed.

Lemma fixed_part_len h : zlen (h_dh_pk h) = 32 -> zlen (fixed_part h) = FRAME_FIXED_LEN.
Proof. intros Hk. unfold fixed_part. rewrite !zlen_app, !zlen_be_bytes, Hk. done. Qed.

Lemma fixed_part_fields h t : zlen (h_dh_pk h) = 32 -> is_u32 (h_pn h) -> is_u32 (h_n h) ->
  let f := fixed_part h ++ t in
  range 0 2 f = RATCHET_FRAME_MAGIC /\ byte_at f 2 = FRAME_V1 /\ byte_at f 3 = header_flags h /\
  range 4 36 f = h_dh_pk h /\ from_be (range 36 40 f) = h_pn h /\ from_be (range 40 44 f) = h_n h.
Proof.
  intros Hk Hpn Hn f. subst f. unfold fixed_part. rewrite <- !app_assoc.
  split_and!.
  - by apply range_here.
  - done.
  - change (byte_val (byte_of (header_flags h)) = header_flags h). apply flags_spec.
  - change (range 0 32 (h_dh_pk h ++ be_bytes 4 (h_pn h) ++ be_bytes 4 (h_n h) ++ t) = h_dh_pk h).
    by apply range_here.
  - change (from_be (range 32 36 (h_dh_pk h ++ be_bytes 4 (h_pn h) ++ be_bytes 4 (h_n h) ++ t)) = h_pn h).
    rewrite range_skip, Hk by lia. rewrite range_here by (rewrite zlen_be_bytes; lia).
    by apply from_be_bytes_id.
  - change (from_be (range 36 40 (h_dh_pk h ++ be_bytes 4 (h_pn h) ++ be_bytes 4 (h_n h) ++ t)) = h_n h).
    rewrite range_skip, Hk, range_skip, zlen_be_bytes by (rewrite ?zlen_be_bytes; lia).
    rewrite range_here by (rewrite zlen_be_bytes; lia). by apply from_be_bytes_id.
Qed.

(** A field that is there is read back. *)
Lemma take_field_app (l t : list byte) (o : option Key) at_ len why :
  zlen l = at_ -> (forall k, o = Some k -> zlen k = len) ->
  take_field (l ++ default [] o ++ t) (is_some o) at_ len why =
    inr (o, at_ + match o with Some _ => len | None => 0 end).
Proof.
  intros Hl Ho. unfold take_field. destruct o as [k|]; cbn [is_some is_some_and default]; [|do 2 f_equal; lia].
  change (id k) with k. specialize (Ho k eq_refl). rewrite !zlen_app. pose proof (zlen_nonneg t).
  destruct (Z.ltb_spec (zlen l + (zlen k + zlen t)) (at_ + len)); [lia|].
  rewrite range_skip by lia. rewrite Hl, Z.sub_diag. rewrite range_here by lia. done.
Qed.

Lemma field_len (o : option Key) len : (forall k, o = Some k -> zlen k = len) ->
  zlen (default [] o) = match o with Some _ => len | None => 0 end.
Proof. intros Ho. destruct o as [k|]; [by apply Ho|done]. Qed.

Lemma decode_encode_header h body :
  header_wf h -> decode_header (encode_header h ++ body) = inr (h, zlen (encode_header h)).
Proof.
  intros Hw. rewrite encode_header_fixed, <- app_assoc.
  set (t := (default [] (h_pq_ek h) ++ default [] (h_pq_ct h)) ++ body).
  destruct (fixed_part_fields h t) as (E1 & E2 & E3 & E4 & E5 & E6); [apply Hw..|].
  pose proof (fixed_part_len h (hw_pk _ Hw)) as Hfl.
  unfold decode_header. rewrite (proj2 (Z.ltb_ge _ _)) by (rewrite zlen_app; pose proof (zlen_nonneg t); lia).
  rewrite E1, E2, E3, E4, E5, E6, bool_decide_eq_true_2 by done. cbn [negb].
  destruct (flags_spec h) as (_ & -> & -> & -> & ->). rewrite !Z.eqb_refl. cbn [negb].
  subst t. rewrite <- app_assoc.
  rewrite (take_field_app (fixed_part h) _ (h_pq_ek h)) by (done || apply Hw).
  rewrite (app_assoc (fixed_part h)).
  rewrite take_field_app; [|rewrite zlen_app, Hfl|apply Hw].
  - f_equal. f_equal; [by destruct h|]. rewrite !zlen_app, Hfl.
    rewrite (field_len _ _ (hw_ek _ Hw)), (field_len _ _ (hw_ct _ Hw)). lia.
  - by rewrite (field_len _ _ (hw_ek _ Hw)).
Qed.

Lemma take_field_inv frame present at_ len why o at' :
  0 <= at_ <= zlen frame -> 0 <= len -> take_field frame present at_ len why = inr (o, at') ->
  is_some o = present /\ at_ <= at' <= zlen frame /\ range at_ at' frame = default [] o /\
  (forall k, o = Some k -> zlen k = len).
Proof.
  intros Hat Hlen. unfold take_field. destruct present.
  - destruct (Z.ltb_spec (zlen frame) (at_ + len)); [done|]. intros [= <- <-].
    split_and!; [done|lia|lia|done|]. intros k [= <-]. rewrite range_length by lia. lia.
  - intros [= <- <-]. split_and!; [done|lia|lia| |done]. unfold range. by rewrite Z.sub_diag.
Qed.

Lemma fixed_part_inv frame h :
  FRAME_FIXED_LEN <= zlen frame -> range 0 2 frame = RATCHET_FRAME_MAGIC -> byte_at frame 2 = FRAME_V1 ->
  byte_at frame 3 = header_flags h -> h_dh_pk h = range 4 36 frame ->
  h_pn h = from_be (range 36 40 frame) -> h_n h = from_be (range 40 44 frame) ->
  ztake 44 frame = fixed_part h.
Proof.
  unfold FRAME_FIXED_LEN. intros Hl E1 E2 E3 E4 E5 E6. unfold fixed_part. rewrite E4, E5, E6, <- E2, <- E3, <- E1.
  rewrite (ztake_range 40 44), (ztake_range 36 40), (ztake_range 4 36), (ztake_range 3 4), (ztake_range 2 3) by lia.
  change (range 3 4 frame) with (range 3 (3 + 1) frame). change (range 2 3 frame) with (range 2 (2 + 1) frame).
  rewrite (byte_at_range frame 3), (byte_at_range frame 2) by lia.
  pose proof (range_be frame 36 40 ltac:(lia) ltac:(lia)) as B1.
  pose proof (range_be frame 40 44 ltac:(lia) ltac:(lia)) as B2.
  change (Z.to_nat (40 - 36)) with 4%nat in B1. change (Z.to_nat (44 - 40)) with 4%nat in B2.
  rewrite B1, B2, <- !app_assoc. done.
Qed.

Lemma decode_header_inv frame h at_ :
  decode_header frame = inr (h, at_) ->
  header_wf h /\ at_ = zlen (encode_header h) /\ exists body, frame = encode_header h ++ body.
Proof.
  unfold decode_header. destruct (Z.ltb_spec (zlen frame) FRAME_FIXED_LEN) as [|Hl]; [done|].
  case_bool_decide as E1; cbn [negb]; [|done].
  destruct (byte_at frame 2 =? FRAME_V1) eqn:E2; cbn [negb]; [|done]. to_prop.
  destruct (Z.ldiff _ _ =? 0) eqn:E3; cbn [negb]; [|done]. to_prop.
  destruct (take_field _ _ FRAME_FIXED_LEN _ _) as [e|[ek at1]] eqn:Ek; [done|].
  destruct (take_field _ _ at1 _ _) as [e|[ct at2]] eqn:Ec; [done|]. intros [= <- <-].
  apply take_field_inv in Ek as (I1 & L1 & R1 & W1); [|done..].
  apply take_field_inv in Ec as (I2 & L2 & R2 & W2); [|unfold FRAME_FIXED_LEN in *; lia|done].
  set (h := mkHeader _ _ _ ek ct _). unfold FRAME_FIXED_LEN in *.
  assert (header_wf h) as Hw.
  { split; [|apply (from_be_range_u32 (range 36 40 frame))|apply (from_be_range_u32 (range 40 44 frame))|done|done].
    - cbn. rewrite range_length; lia.
    - rewrite range_length; lia.
    - rewrite range_length; lia. }
  split; [done|].
  assert (header_flags h = byte_at frame 3) as Hf.
  { apply flags_inv; try done. apply byte_at_bound. }
  pose proof (fixed_part_inv frame h Hl E1 E2 (eq_sym Hf) eq_refl eq_refl eq_refl) as H44.
  assert (ztake at2 frame = encode_header h) as Ht.
  { rewrite (ztake_range at1 at2), (ztake_range 44 at1), H44, R2 by lia.
    change (2 + 1 + 1 + 32 + 4 + 4) with 44 in R1. rewrite R1, encode_header_fixed, <- app_assoc. done. }
  split.
  - rewrite <- Ht, zlen_ztake by lia. lia.
  - exists (zdrop at2 frame). rewrite <- Ht. unfold ztake, zdrop. by rewrite take_drop.
Qed.

(** The header codec is exact: a frame decodes to a header, with the ciphertext starting at a
    given offset, precisely when it is the encoding of that header (every field within its width)
    followed by something, and the offset is the length of the encoding.  So decoding inverts
    encoding, no two frames that differ before the ciphertext decode to the same header, and
    unknown flags, another version or a truncated key are refused. *)
Theorem ratchet_header_exact (frame : list byte) (h : Header) (at_ : Z) :
  decode_header frame = inr (h, at_) <->
  header_wf h /\ at_ = zlen (encode_header h) /\ exists body, frame = encode_header h ++ body.
Proof.
  split; [apply decode_header_inv|]. intros (Hw & -> & body & ->). by apply decode_encode_header.
Qed.
