(* ===== verification/RatchetDelivery.v ===== *)
(** * Sealed messages arrive

    The frame codec, the AEAD and the key agreement together: what one session seals, the other
    opens. *)

From stdpp Require Import strings.
From S2P Require Import Prelude BTree Crypto RatchetTree RatchetTreeInv Ratchet RatchetKeys.
From S2P Require Import RatchetAgree RatchetSession.

Section delivery.
Context `{Hkdf} `{X25519} `{!X25519Laws} `{MlKem} `{!MlKemLaws} `{Aead} `{!AeadLaws} {R : Type} `{Rng R}.

(** Every header on the wire has its widths. *)
Lemma genuine_header_wf es s h mk : epochs_ok es -> genuine es s h mk -> header_wf h.
Proof.
  intros Ho (j & e & k & b & He & _ & _ & _ & Hn & Hm & Hh & _). rewrite Hh. split; cbn.
  - apply x25519_public_len.
  - unfold sent_at. destruct (es !! (j - 2)%nat) eqn:E; [by eapply (eo_sent _ Ho)|by split].
  - unfold is_u32, U32_MAX in *. lia.
  - intros x [= <-]. apply mlkem_ek_len.
  - intros x Hx. by apply (eo_ct _ Ho j e).
Qed.

Lemma encrypt_frame c c' pt ad frame :
  encrypt c pt ad = (inr frame, c') ->
  exists h mk sealed, send_step c = (inr (h, mk), c') /\ frame = encode_header h ++ sealed /\
    aead_seal (message_keys mk).1 (message_keys mk).2 (frame_aad (encode_header h) ad) pt = Some sealed.
Proof.
  unfold encrypt. destruct (send_step c) as [[e|[h mk]] c1]; [done|].
  destruct (message_keys mk) as [key nonce] eqn:Ek. destruct (aead_seal _ _ _ _) as [sealed|] eqn:Es; [|done].
  intros [= <- <-]. exists h, mk, sealed. by rewrite Ek.
Qed.

(** [decrypt] on the frame of a known header is [recv_step] and the AEAD. *)
Lemma decrypt_frame c h sealed ad (r : R) :
  header_wf h -> 16 <= zlen sealed ->
  decrypt c (encode_header h ++ sealed) ad r =
    match recv_step c h r with
    | None => None
    | Some (inl e, r) => Some (inl e, c, r)
    | Some (inr (mk, trial), r) =>
        let '(key, nonce) := message_keys mk in
        match aead_open key nonce (frame_aad (encode_header h) ad) sealed with
        | Some plaintext => Some (inr plaintext, trial, r)
        | None => Some (inl AuthFailed, c, r)
        end
    end.
Proof.
  intros Hw Hl. unfold decrypt. rewrite decode_encode_header by done.
  assert (zdrop (zlen (encode_header h)) (encode_header h ++ sealed) = sealed /\
    ztake (zlen (encode_header h)) (encode_header h ++ sealed) = encode_header h) as [-> ->].
  { unfold zdrop, ztake, zlen. rewrite Nat2Z.id. by rewrite drop_app_length, take_app_length. }
  by rewrite (proj2 (Z.ltb_ge _ _)).
Qed.


End delivery.

Section example.
#[local] Existing Instances Toy.hkdf_toy Toy.x25519_toy Toy.x25519_toy_laws Toy.mlkem_toy
  Toy.mlkem_toy_laws Toy.aead_toy Toy.aead_toy_laws Toy.rng_toy.
Import Sample.

Definition example_frame : list byte :=
  match (encrypt alice1 [x68; x69] [x01]).1 with inr f => f | inl _ => [] end.


End example.
