(* ===== verification/RatchetState.v ===== *)
(** * The stored session

    crates/veil-ratchet/src/session.rs, the persistence half: [export_state] writes a session as
    bytes and [import_state] reads it back, refusing whatever it does not fully understand. *)

From stdpp Require Import strings.
From S2P Require Import Prelude BTree Crypto RatchetTree RatchetTreeInv Ratchet RatchetKeys RatchetRobust.

Definition RATCHET_STATE_MAGIC : list byte := [x56; x53; x52; x31].
Definition STATE_V1 : Z := 1.
Definition STATE_V2 : Z := 2.
Definition STATE_V3 : Z := 3.

(** ** The tree half of a state *)

Record TreeParts := mkTreeParts {
  tp_peer_tree : bool;
  tp_send_mode : SendMode;
  tp_send_tree : option Holes;
  tp_recv_tree : bool;
  tp_tree_holes : gmap Key Holes
}.

(** [TreeParts::linear] *)
Definition linear_parts (has_sending_chain : bool) : TreeParts :=
  mkTreeParts false (if has_sending_chain then Linear else Undecided) None false ∅.

(** ** Writing *)

Definition push_opt32 (v : option Key) : list byte :=
  match v with Some x => [x01] ++ x | None => [x00] end.

Definition push_bool (b : bool) : list byte := [if b then x01 else x00].

Definition push_holes (h : Holes) : list byte :=
  be_bytes 4 (wrap32 (zlen h)) ++
  concat (map (fun '(start, depth, key) => be_bytes 4 start ++ [byte_of depth] ++ key) (holes_nodes h)).

(** The order of the bank: peer key, then index. *)
Definition skipped_leb (a b : Key * Z) : bool :=
  if decide (a.1 = b.1) then a.2 <=? b.2 else bytes_leb a.1 b.1.

Definition skipped_sorted (m : gmap (Key * Z) Key) : list (Key * Z * Key) :=
  merge_sort (fun a b => Is_true (skipped_leb a.1 b.1)) (map_to_list m).

Definition push_skipped (l : list (Key * Z * Key)) : list byte :=
  concat (map (fun '(peer_pk, idx, mk) => peer_pk ++ be_bytes 4 idx ++ mk) l).

Definition push_chains (l : list (Key * Holes)) : list byte :=
  concat (map (fun '(peer_pk, holes) => peer_pk ++ push_holes holes) l).

Definition mode_byte (m : SendMode) : byte :=
  match m with Undecided => x00 | Linear => x01 | Tree => x02 end.

(** The tail that versions 2 and 3 add. *)
Definition push_tree_parts (c : RatchetCore) : list byte :=
  push_bool (peer_tree c) ++ [mode_byte (send_mode c)] ++ push_bool (recv_tree c) ++
  match send_tree c with Some holes => push_holes holes | None => be_bytes 4 0 end ++
  be_bytes 4 (wrap32 (Z.of_nat (size (tree_holes c)))) ++ push_chains (chains_sorted (tree_holes c)).

Definition export_state (c : RatchetCore) : list byte :=
  RATCHET_STATE_MAGIC ++ [byte_of STATE_V3] ++ dh_sk c ++ push_opt32 (dh_pk_remote c) ++ rk c ++
  push_opt32 (cks c) ++ push_opt32 (ckr c) ++
  be_bytes 4 (ns c) ++ be_bytes 4 (nr c) ++ be_bytes 4 (pn c) ++ push_bool (sent_any c) ++
  be_bytes 4 (wrap32 (Z.of_nat (size (skipped c)))) ++ push_skipped (skipped_sorted (skipped c)) ++
  pq_seed (pq c) ++ push_opt32 (pq_pending_ct (pq c)) ++ push_tree_parts c.

(** [exact]: the size reserved for the blob. *)
Definition opt32_len (v : option Key) : Z := 1 + (if is_some v then 1 else 0) * 32.
Definition TREE_NODE_LEN : Z := 4 + 1 + KEY_LEN.
Definition export_len (c : RatchetCore) : Z :=
  zlen RATCHET_STATE_MAGIC + 1 + 32 + opt32_len (dh_pk_remote c) + KEY_LEN + opt32_len (cks c) +
  opt32_len (ckr c) + 4 + 4 + 4 + 1 + 4 + Z.of_nat (size (skipped c)) * (32 + 4 + KEY_LEN) +
  zlen (pq_seed (pq c)) + 1 + (if is_some (pq_pending_ct (pq c)) then 1 else 0) * ML_KEM_768_CT_LEN +
  3 + 4 + match send_tree c with Some h => zlen h | None => 0 end * TREE_NODE_LEN + 4 +
  foldr (fun e s => 32 + 4 + zlen e.2 * TREE_NODE_LEN + s) 0 (chains_sorted (tree_holes c)).

(** ** Reading

    The reader is what is left of the bytes. *)

Definition Read (A : Type) : Type := list byte -> RatchetError + (A * list byte).

#[global] Instance Read_ret : MRet Read := fun A x buf => inr (x, buf).
#[global] Instance Read_bind : MBind Read := fun A B f m buf =>
  match m buf with inl e => inl e | inr (x, buf) => f x buf end.

Definition fail_state {A} (why : string) : Read A := fun _ => inl (MalformedState why).

Definition take_bytes (n : Z) : Read (list byte) := fun buf =>
  if zlen buf <? n then inl (MalformedState "truncated") else inr (ztake n buf, zdrop n buf).

Definition take_u8 : Read Z := l ← take_bytes 1; mret (from_be l).
Definition take_u32 : Read Z := l ← take_bytes 4; mret (from_be l).

Definition take_opt32 : Read (option Key) :=
  b ← take_u8;
  if b =? 0 then mret None
  else if b =? 1 then k ← take_bytes 32; mret (Some k)
  else fail_state "bad option flag".

Definition take_bool : Read bool :=
  b ← take_u8;
  if b =? 0 then mret false else if b =? 1 then mret true else fail_state "bad boolean".

(** [for _ in 0..count], collecting. *)
Fixpoint take_many {A} (count : nat) (one : Read A) : Read (list A) :=
  match count with
  | O => mret []
  | S count => x ← one; l ← take_many count one; mret (x :: l)
  end.

Definition take_node : Read (Z * Z * Key) :=
  start ← take_u32; depth ← take_u8; key ← take_bytes KEY_LEN; mret (start, depth, key).

Definition nodes_error (e : NodesError) : RatchetError :=
  MalformedState match e with
    | NodeTooDeep => "tree node deeper than the tree"
    | NodeNotAligned => "tree node not aligned to its depth"
    | DuplicateNode => "duplicate tree node"
    | OverlappingNodes => "overlapping tree nodes"
    end.

(** [Holes::from_nodes(nodes).map_err(..)] *)
Definition read_nodes (nodes : list (Z * Z * Key)) : Read Holes := fun buf =>
  match from_nodes nodes with inl e => inl (nodes_error e) | inr holes => inr (holes, buf) end.

(** [take_holes]; the budget that is left comes back. *)
Definition take_holes (budget : Z) : Read (Holes * Z) :=
  count ← take_u32;
  if (MAX_TREE_NODES_PER_CHAIN <? count) || (budget <? count) then fail_state "tree over limit"
  else
    nodes ← take_many (Z.to_nat count) take_node;
    holes ← read_nodes nodes;
    mret (holes, budget - count).

(** [Some(pk) == dh_pk_remote] under [recv_tree]. *)
Definition current_chain (recv_tree : bool) (dh_pk_remote : option Key) (pk : Key) : bool :=
  recv_tree && bool_decide (Some pk = dh_pk_remote).

Fixpoint take_chains (count : nat) (version : Z) (recv_tree : bool) (dh_pk_remote : option Key)
    (budget : Z) (m : gmap Key Holes) : Read (gmap Key Holes) :=
  match count with
  | O => mret m
  | S count =>
      peer_pk ← take_bytes 32;
      '(holes, budget) ← take_holes budget;
      if (version =? STATE_V3) && is_nil holes && negb (current_chain recv_tree dh_pk_remote peer_pk)
      then fail_state "empty closed tree chain"
      else if is_some (m !! peer_pk) then fail_state "duplicate tree chain"
      else take_chains count version recv_tree dh_pk_remote budget (<[peer_pk := holes]> m)
  end.

Definition take_mode : Read SendMode :=
  b ← take_u8;
  if b =? 0 then mret Undecided else if b =? 1 then mret Linear else if b =? 2 then mret Tree
  else fail_state "bad send mode".

Definition take_tree_parts (has_cks has_ckr : bool) (dh_pk_remote : option Key) (version : Z) :
    Read TreeParts :=
  peer_tree ← take_bool;
  send_mode ← take_mode;
  recv_tree ← take_bool;
  '(send_holes, _) ← take_holes MAX_TREE_NODES_PER_CHAIN;
  send_tree ← match send_mode with
              | Tree => if has_cks then fail_state "tree chain beside a chain key"
                        else mret (Some send_holes)
              | _ => if is_nil send_holes then mret None else fail_state "tree nodes for a hash chain"
              end;
  chains ← take_u32;
  if (if version =? STATE_V2 then 2 else MAX_TREE_NODES_TOTAL + 1) <? chains then
    fail_state "too many tree chains"
  else
    tree_holes ← take_chains (Z.to_nat chains) version recv_tree dh_pk_remote MAX_TREE_NODES_TOTAL ∅;
    if recv_tree && (has_ckr || is_none_or dh_pk_remote (fun pk => is_none (tree_holes !! pk))) then
      fail_state "tree receiving chain without its holes"
    else
      mret (mkTreeParts peer_tree send_mode send_tree recv_tree
        (filter (fun e : Key * Holes => negb (is_nil e.2) || current_chain recv_tree dh_pk_remote e.1)
           tree_holes)).

Definition take_skipped (count : nat) : Read (list (Key * Z * Key)) :=
  take_many count (peer_pk ← take_bytes 32; idx ← take_u32; mk ← take_bytes KEY_LEN; mret (peer_pk, idx, mk)).

(** The map after inserting the entries in order. *)
Definition insert_all (l : list (Key * Z * Key)) : gmap (Key * Z) Key :=
  foldl (fun m '(pk, idx, mk) => <[(pk, idx) := mk]> m) ∅ l.

Section import.
Context `{X25519} `{MlKem}.

Definition from_parts (dh_sk : Key) (dh_pk_remote : option Key) (rk : Key) (cks ckr : option Key)
    (ns nr pn : Z) (sent_any : bool) (skipped : gmap (Key * Z) Key) (pq_seed : Key)
    (pending_ct : option Key) (tree : TreeParts) : RatchetCore :=
  mkCore dh_sk (x25519_public dh_sk) dh_pk_remote rk cks ckr ns nr pn skipped (restore pq_seed pending_ct)
    (tp_peer_tree tree) (tp_send_mode tree) (tp_send_tree tree) (tp_recv_tree tree) (tp_tree_holes tree)
    sent_any.

Definition take_opt_ct : Read (option Key) :=
  b ← take_u8;
  if b =? 0 then mret None
  else if b =? 1 then k ← take_bytes ML_KEM_768_CT_LEN; mret (Some k)
  else fail_state "bad boolean".

Definition read_state : Read RatchetCore :=
  magic ← take_bytes 4;
  if negb (bool_decide (magic = RATCHET_STATE_MAGIC)) then fail_state "bad magic" else
  version ← take_u8;
  if negb ((version =? STATE_V1) || (version =? STATE_V2) || (version =? STATE_V3)) then
    fail_state "unsupported version"
  else
  dh_sk ← take_bytes 32;
  dh_pk_remote ← take_opt32;
  rk ← take_bytes KEY_LEN;
  cks ← take_opt32;
  ckr ← take_opt32;
  ns ← take_u32;
  nr ← take_u32;
  pn ← take_u32;
  sent_any ← take_bool;
  if (U32_MAX / 2 <? ns) || (U32_MAX / 2 <? nr) || (U32_MAX / 2 <? pn) then
    fail_state "counter out of range"
  else
  count ← take_u32;
  if MAX_SKIP_TOTAL <? count then fail_state "skipped cache over limit" else
  entries ← take_skipped (Z.to_nat count);
  let skipped := insert_all entries in
  if negb (Z.of_nat (size skipped) =? count) then fail_state "duplicate skipped key" else
  pq_seed ← take_bytes ML_KEM_768_SEED_LEN;
  pending_ct ← take_opt_ct;
  tree ← (if version =? STATE_V1 then mret (linear_parts (is_some cks))
          else take_tree_parts (is_some cks) (is_some ckr) dh_pk_remote version);
  mret (from_parts dh_sk dh_pk_remote rk cks ckr ns nr pn sent_any skipped pq_seed pending_ct tree).

Definition import_state (bytes : list byte) : RatchetError + RatchetCore :=
  match read_state bytes with
  | inl e => inl e
  | inr (c, rest) => if is_nil rest then inr c else inl (MalformedState "trailing bytes")
  end.

End import.

(** ** Reading back what was written *)

Lemma read_bind {A B} (m : Read A) (f : A -> Read B) buf x buf' :
  m buf = inr (x, buf') -> (m ≫= f) buf = f x buf'.
Proof. intros E. unfold mbind, Read_bind. by rewrite E. Qed.

Lemma take_bytes_app n l t : zlen l = n -> take_bytes n (l ++ t) = inr (l, t).
Proof.
  intros <-. unfold take_bytes. rewrite zlen_app. pose proof (zlen_nonneg t).
  rewrite (proj2 (Z.ltb_ge _ _)) by lia. unfold ztake, zdrop, zlen. rewrite Nat2Z.id.
  by rewrite take_app_length, drop_app_length.
Qed.

Lemma take_u32_app x t : is_u32 x -> take_u32 (be_bytes 4 x ++ t) = inr (x, t).
Proof.
  intros Hx. unfold take_u32. rewrite (read_bind _ _ _ _ _ (take_bytes_app 4 _ t (zlen_be_bytes 4 x))).
  by rewrite from_be_bytes_id.
Qed.

Lemma take_u8_app b t : take_u8 ([b] ++ t) = inr (byte_val b, t).
Proof.
  unfold take_u8. rewrite (read_bind _ _ _ _ _ (take_bytes_app 1 [b] t eq_refl)).
  unfold mret, Read_ret. do 2 f_equal. change (from_be [b]) with (byte_val b * 256 ^ 0 + 0). lia.
Qed.

Lemma take_bool_app b t : take_bool (push_bool b ++ t) = inr (b, t).
Proof. unfold take_bool, push_bool. rewrite (read_bind _ _ _ _ _ (take_u8_app _ t)). by destruct b. Qed.

Lemma take_opt32_app v t : (forall k, v = Some k -> zlen k = 32) -> take_opt32 (push_opt32 v ++ t) = inr (v, t).
Proof.
  intros Hv. unfold take_opt32, push_opt32. destruct v as [k|].
  - rewrite <- app_assoc, (read_bind _ _ _ _ _ (take_u8_app _ _)). cbn [byte_val].
    change (byte_val x01 =? 0) with false. change (byte_val x01 =? 1) with true. cbn iota.
    by rewrite (read_bind _ _ _ _ _ (take_bytes_app 32 k t (Hv k eq_refl))).
  - by rewrite (read_bind _ _ _ _ _ (take_u8_app _ _)).
Qed.

Lemma take_opt_ct_app v t :
  (forall k, v = Some k -> zlen k = ML_KEM_768_CT_LEN) -> take_opt_ct (push_opt32 v ++ t) = inr (v, t).
Proof.
  intros Hv. unfold take_opt_ct, push_opt32. destruct v as [k|].
  - rewrite <- app_assoc, (read_bind _ _ _ _ _ (take_u8_app _ _)).
    change (byte_val x01 =? 0) with false. change (byte_val x01 =? 1) with true. cbn iota.
    by rewrite (read_bind _ _ _ _ _ (take_bytes_app _ k t (Hv k eq_refl))).
  - by rewrite (read_bind _ _ _ _ _ (take_u8_app _ _)).
Qed.

Lemma take_mode_app m t : take_mode ([mode_byte m] ++ t) = inr (m, t).
Proof. unfold take_mode. rewrite (read_bind _ _ _ _ _ (take_u8_app _ t)). by destruct m. Qed.

Lemma take_many_app {A} (one : Read A) (enc : A -> list byte) l t :
  Forall (fun x => forall t, one (enc x ++ t) = inr (x, t)) l ->
  take_many (length l) one (concat (map enc l) ++ t) = inr (l, t).
Proof.
  induction 1 as [|x l Hx _ IH]; [done|]. cbn [length take_many map concat]. rewrite <- app_assoc.
  rewrite (read_bind _ _ _ _ _ (Hx _)), (read_bind _ _ _ _ _ IH). done.
Qed.

(** Inserting entries with distinct keys one after the other. *)
Lemma foldl_insert {K A} `{Countable K} (l : list (K * A)) : forall (m0 : gmap K A) k v,
  NoDup l.*1 ->
  foldl (fun m e => <[e.1 := e.2]> m) m0 l !! k = Some v <-> (k, v) ∈ l \/ ((k ∉ l.*1) /\ m0 !! k = Some v).
Proof.
  induction l as [|[k1 v1] l IH]; intros m0 k v Hnd.
  - cbn. set_solver.
  - cbn [foldl fmap list_fmap] in *. apply NoDup_cons in Hnd as [Hni Hnd]. rewrite IH by done.
    rewrite elem_of_cons, not_elem_of_cons, lookup_insert_Some. cbn in Hni |- *.
    split.
    + intros [?|(Hk & [[<- <-]|[Hne Hm]])]; [by left; right|by left; left|right]. done.
    + intros [[[= -> ->]|Hin]|((Hne & Hk) & Hm)]; [right|by left|right]; [|by auto].
      split; [done|by left].
Qed.

Lemma foldl_insert_map {K A} `{Countable K} (l : list (K * A)) (m : gmap K A) :
  l ≡ₚ map_to_list m -> foldl (fun m e => <[e.1 := e.2]> m) (∅ : gmap K A) l = m.
Proof.
  intros Hp. apply map_eq. intros k. apply option_eq. intros v.
  rewrite foldl_insert by (rewrite Hp; apply NoDup_fst_map_to_list).
  rewrite Hp, elem_of_map_to_list, lookup_empty. naive_solver.
Qed.

(** A tree that fits its place in a stored state. *)
Definition holes_storable (h : Holes) : Prop :=
  shape h /\ (forall s d k, (s, (d, k)) ∈ h -> zlen k = KEY_LEN) /\ zlen h <= MAX_TREE_NODES_PER_CHAIN.

Lemma take_node_app s d k t : aligned s d -> s < M32 -> zlen k = KEY_LEN ->
  take_node ((be_bytes 4 s ++ [byte_of d] ++ k) ++ t) = inr (s, d, k, t).
Proof.
  intros (Hd & Hs & _) Hlt Hk. unfold take_node. rewrite <- !app_assoc.
  rewrite (read_bind _ _ _ _ _ (take_u32_app s _ (conj Hs Hlt))), (read_bind _ _ _ _ _ (take_u8_app _ _)).
  rewrite (read_bind _ _ _ _ _ (take_bytes_app _ k t Hk)).
  unfold mret, Read_ret. rewrite byte_val_of. unfold wrap8. by rewrite Z.mod_small by lia.
Qed.

Lemma wrap32_len {A} (l : list A) n : zlen l <= n -> n < M32 -> wrap32 (zlen l) = zlen l /\ is_u32 (zlen l).
Proof.
  intros. pose proof (zlen_nonneg l). assert (is_u32 (zlen l)) by (unfold is_u32; lia).
  split; [by apply wrap32_id|done].
Qed.

Lemma take_holes_app h budget t :
  holes_storable h -> zlen h <= budget -> take_holes budget (push_holes h ++ t) = inr (h, budget - zlen h, t).
Proof.
  intros (Hs & Hk & Hl) Hb. unfold take_holes, push_holes. rewrite <- app_assoc.
  destruct (wrap32_len h _ Hl eq_refl) as [-> Hu]. rewrite (read_bind _ _ _ _ _ (take_u32_app _ _ Hu)).
  rewrite (proj2 (Z.ltb_ge _ _)), (proj2 (Z.ltb_ge _ _)) by lia. cbn [orb].
  assert (Forall (fun x => forall t, take_node
    ((fun '(start, depth, key) => be_bytes 4 start ++ [byte_of depth] ++ key) x ++ t) = inr (x, t))
    (holes_nodes h)) as Hf.
  { apply Forall_forall. intros [[s d] k] Hin u. unfold holes_nodes in Hin.
    apply list_elem_of_In, in_map_iff in Hin as ([s' [d' k']] & E & Hin). apply list_elem_of_In in Hin.
    cbn in E. injection E as -> -> ->. destruct (sh_node _ Hs _ _ _ Hin) as [Ha Hlt].
    apply take_node_app; [done|done|by eapply Hk]. }
  pose proof (take_many_app _ _ _ t Hf) as Hm. unfold holes_nodes in Hm at 1. rewrite length_map in Hm.
  replace (Z.to_nat (zlen h)) with (length h) by (unfold zlen; lia). rewrite (read_bind _ _ _ _ _ Hm).
  unfold read_nodes, mbind, Read_bind. by rewrite from_nodes_holes.
Qed.

Lemma take_skipped_app l t :
  Forall (fun '(pk, i, mk) => zlen pk = 32 /\ is_u32 i /\ zlen mk = KEY_LEN) l ->
  take_skipped (length l) (push_skipped l ++ t) = inr (l, t).
Proof.
  intros Hl. unfold take_skipped, push_skipped. apply take_many_app.
  eapply Forall_impl; [exact Hl|]. intros [[pk i] mk] (Hp & Hi & Hm) u. rewrite <- !app_assoc.
  rewrite (read_bind _ _ _ _ _ (take_bytes_app _ pk _ Hp)), (read_bind _ _ _ _ _ (take_u32_app _ _ Hi)).
  by rewrite (read_bind _ _ _ _ _ (take_bytes_app _ mk _ Hm)).
Qed.

Definition chains_total (l : list (Key * Holes)) : Z := foldr (fun e s => zlen e.2 + s) 0 l.

Lemma chains_total_nonneg l : 0 <= chains_total l.
Proof.
  unfold chains_total. induction l as [|e l IH]; cbn [foldr]; [lia|]. pose proof (zlen_nonneg e.2). lia.
Qed.

Lemma take_chains_app rt remote l : forall budget m t,
  Forall (fun e => zlen e.1 = 32 /\ holes_storable e.2 /\
    (e.2 = [] -> current_chain rt remote e.1 = true)) l ->
  NoDup l.*1 -> (forall e, e ∈ l -> m !! e.1 = None) -> chains_total l <= budget ->
  take_chains (length l) STATE_V3 rt remote budget m (push_chains l ++ t) =
    inr (foldl (fun m e => <[e.1 := e.2]> m) m l, t).
Proof.
  induction l as [|[pk h] l IH]; intros budget m t Hf Hnd Hm Hb; [done|].
  apply Forall_cons in Hf as [(Hpk & Hh & Hcur) Hf]. cbn in Hnd. apply NoDup_cons in Hnd as [Hni Hnd].
  cbn [length take_chains]. unfold push_chains. cbn [map concat]. rewrite <- !app_assoc.
  cbn [fst snd] in *. rewrite (read_bind _ _ _ _ _ (take_bytes_app _ pk _ Hpk)).
  cbn [chains_total foldr fst snd] in Hb.
  pose proof (chains_total_nonneg l) as Hnn. fold (chains_total l) in Hb.
  rewrite (read_bind _ _ _ _ _ (take_holes_app h budget _ Hh ltac:(lia))).
  replace ((STATE_V3 =? STATE_V3) && is_nil h && negb (current_chain rt remote pk)) with false.
  2: { destruct h; [|done]. cbn. by rewrite Hcur. }
  assert (m !! pk = None) as -> by (apply (Hm (pk, h)); left). cbn [is_some is_some_and].
  apply IH; [done|done| |lia]. intros e He. rewrite lookup_insert_ne; [apply Hm; by right|].
  intros ->. apply Hni. by apply list_elem_of_fmap_2.
Qed.

(** ** States that can be stored *)

Definition key_len (len : Z) (o : option Key) : Prop := forall k, o = Some k -> zlen k = len.

Record storable `{X25519} `{MlKem} (c : RatchetCore) : Prop := {
  so_keys : zlen (dh_sk c) = 32 /\ zlen (rk c) = KEY_LEN /\ key_len 32 (dh_pk_remote c) /\
    key_len 32 (cks c) /\ key_len 32 (ckr c);
  so_pq : zlen (pq_seed (pq c)) = ML_KEM_768_SEED_LEN /\ key_len ML_KEM_768_CT_LEN (pq_pending_ct (pq c));
  so_derived : dh_pk c = x25519_public (dh_sk c) /\ pq_ek (pq c) = mlkem_ek (pq_seed (pq c));
  so_counters : 0 <= ns c <= U32_MAX / 2 /\ 0 <= nr c <= U32_MAX / 2 /\ 0 <= pn c <= U32_MAX / 2;
  so_skipped : Z.of_nat (size (skipped c)) <= MAX_SKIP_TOTAL;
  so_bank : forall pk i mk, skipped c !! (pk, i) = Some mk -> zlen pk = 32 /\ is_u32 i /\ zlen mk = KEY_LEN;
  so_mode : match send_mode c with
            | Tree => cks c = None /\ exists h, send_tree c = Some h /\ holes_storable h
            | _ => send_tree c = None
            end;
  so_trees : forall pk h, tree_holes c !! pk = Some h -> zlen pk = 32 /\ holes_storable h /\
    (h = [] -> current_chain (recv_tree c) (dh_pk_remote c) pk = true);
  so_limits : Z.of_nat (size (tree_holes c)) <= MAX_TREE_NODES_TOTAL + 1 /\
    tree_total (tree_holes c) <= MAX_TREE_NODES_TOTAL;
  so_recv : recv_tree c = true -> ckr c = None /\
    exists pk, dh_pk_remote c = Some pk /\ is_Some (tree_holes c !! pk)
}.

Section roundtrip.
Context `{X25519} `{MlKem}.

Lemma skipped_sorted_perm m : skipped_sorted m ≡ₚ map_to_list m.
Proof. apply merge_sort_Permutation. Qed.

Lemma chains_sorted_perm m : chains_sorted m ≡ₚ map_to_list m.
Proof. apply merge_sort_Permutation. Qed.

Lemma insert_all_foldl l :
  insert_all l = foldl (fun m e => <[e.1 := e.2]> m) ∅ l.
Proof.
  unfold insert_all. generalize (∅ : gmap (Key * Z) Key). induction l as [|[[pk i] mk] l IH]; intros m; [done|].
  cbn. apply IH.
Qed.

Lemma insert_all_sorted m : insert_all (skipped_sorted m) = m.
Proof. rewrite insert_all_foldl. apply foldl_insert_map, skipped_sorted_perm. Qed.

Lemma length_skipped_sorted m : Z.of_nat (size m) = zlen (skipped_sorted m).
Proof. unfold zlen. by rewrite skipped_sorted_perm, length_map_to_list. Qed.

Lemma length_chains_sorted m : Z.of_nat (size m) = zlen (chains_sorted m).
Proof. unfold zlen. by rewrite chains_sorted_perm, length_map_to_list. Qed.

(** The sending tree as it is stored: an absent one is an empty list of nodes. *)
Lemma send_holes_app c t : storable c ->
  exists h b, take_holes MAX_TREE_NODES_PER_CHAIN
    (match send_tree c with Some holes => push_holes holes | None => be_bytes 4 0 end ++ t) = inr (h, b, t) /\
  match send_mode c with
  | Tree => send_tree c = Some h
  | _ => h = []
  end.
Proof.
  intros Hs. pose proof (so_mode _ Hs) as Hm.
  assert (take_holes MAX_TREE_NODES_PER_CHAIN (be_bytes 4 0 ++ t) = inr ([], MAX_TREE_NODES_PER_CHAIN, t)) as Hz.
  { apply (take_holes_app [] MAX_TREE_NODES_PER_CHAIN t); [|done].
    split_and!; [apply shape_nil| |done]. intros s d k Hin. by apply elem_of_nil in Hin. }
  destruct (send_mode c).
  - rewrite Hm. by eexists _, _.
  - rewrite Hm. by eexists _, _.
  - destruct Hm as (_ & h & -> & Hh). exists h, (MAX_TREE_NODES_PER_CHAIN - zlen h). split; [|done].
    apply take_holes_app; [done|apply Hh].
Qed.

Lemma take_tree_parts_app c : storable c ->
  take_tree_parts (is_some (cks c)) (is_some (ckr c)) (dh_pk_remote c) STATE_V3 (push_tree_parts c) =
    inr (mkTreeParts (peer_tree c) (send_mode c) (send_tree c) (recv_tree c) (tree_holes c), []).
Proof.
  intros Hs. unfold take_tree_parts, push_tree_parts.
  rewrite (read_bind _ _ _ _ _ (take_bool_app _ _)), (read_bind _ _ _ _ _ (take_mode_app _ _)).
  rewrite (read_bind _ _ _ _ _ (take_bool_app _ _)).
  destruct (send_holes_app c (be_bytes 4 (wrap32 (Z.of_nat (size (tree_holes c)))) ++
    push_chains (chains_sorted (tree_holes c))) Hs) as (h & b & Eh & Hh).
  rewrite (read_bind _ _ _ _ _ Eh). pose proof (so_mode _ Hs) as Hm.
  set (rest := be_bytes 4 _ ++ _) in *.
  assert (forall buf, (match send_mode c with
    | Tree => if is_some (cks c) then fail_state "tree chain beside a chain key" else mret (Some h)
    | _ => if is_nil h then mret None else fail_state "tree nodes for a hash chain"
    end : Read (option Holes)) buf = inr (send_tree c, buf)) as Hst.
  { intros buf. destruct (send_mode c); [by rewrite Hh, Hm|by rewrite Hh, Hm|].
    destruct Hm as (-> & _). by rewrite Hh. }
  rewrite (read_bind _ _ _ _ _ (Hst _)). subst rest. destruct (so_limits _ Hs) as [Hn Ht].
  rewrite length_chains_sorted in *. destruct (wrap32_len (chains_sorted (tree_holes c)) _ Hn eq_refl) as [-> Hu].
  rewrite (read_bind _ _ _ _ _ (take_u32_app _ _ Hu)).
  change (STATE_V3 =? STATE_V2) with false. cbn iota. rewrite (proj2 (Z.ltb_ge _ _)) by done.
  rewrite <- (app_nil_r (push_chains _)).
  replace (Z.to_nat (zlen (chains_sorted (tree_holes c)))) with (length (chains_sorted (tree_holes c)))
    by (unfold zlen; lia).
  erewrite read_bind; [|apply take_chains_app].
  - rewrite (foldl_insert_map _ _ (chains_sorted_perm _)).
    replace (recv_tree c && _) with false.
    2: { destruct (recv_tree c) eqn:Er; [|done]. destruct (so_recv _ Hs Er) as (-> & pk & -> & [x Hx]).
         cbn. by rewrite Hx. }
    unfold mret, Read_ret. do 3 f_equal. apply map_filter_id. intros pk h0 Hin.
    destruct (so_trees _ Hs pk h0 Hin) as (_ & _ & Hc). destruct h0; cbn; [|done]. by rewrite Hc.
  - apply Forall_forall. intros [pk h0] Hin. apply elem_of_chains in Hin. by apply (so_trees _ Hs).
  - rewrite chains_sorted_perm. apply NoDup_fst_map_to_list.
  - intros. apply lookup_empty.
  - done.
Qed.

Lemma count_u32 x : 0 <= x <= U32_MAX / 2 -> is_u32 x.
Proof. unfold is_u32, U32_MAX. mlia. Qed.

Lemma read_export c : storable c -> read_state (export_state c) = inr (c, []).
Proof.
  intros Hs. destruct (so_keys _ Hs) as (K1 & K2 & K3 & K4 & K5), (so_pq _ Hs) as [K6 K7].
  destruct (so_counters _ Hs) as (C1 & C2 & C3). unfold read_state, export_state.
  rewrite (read_bind _ _ _ _ _ (take_bytes_app 4 RATCHET_STATE_MAGIC _ eq_refl)), bool_decide_eq_true_2 by done. cbn [negb].
  rewrite (read_bind _ _ _ _ _ (take_u8_app _ _)). change (byte_val (byte_of STATE_V3)) with STATE_V3.
  change (negb ((STATE_V3 =? STATE_V1) || (STATE_V3 =? STATE_V2) || (STATE_V3 =? STATE_V3))) with false.
  cbn iota.
  rewrite (read_bind _ _ _ _ _ (take_bytes_app _ _ _ K1)), (read_bind _ _ _ _ _ (take_opt32_app _ _ K3)).
  rewrite (read_bind _ _ _ _ _ (take_bytes_app _ _ _ K2)), (read_bind _ _ _ _ _ (take_opt32_app _ _ K4)).
  rewrite (read_bind _ _ _ _ _ (take_opt32_app _ _ K5)).
  rewrite (read_bind _ _ _ _ _ (take_u32_app _ _ (count_u32 _ C1))).
  rewrite (read_bind _ _ _ _ _ (take_u32_app _ _ (count_u32 _ C2))).
  rewrite (read_bind _ _ _ _ _ (take_u32_app _ _ (count_u32 _ C3))).
  rewrite (read_bind _ _ _ _ _ (take_bool_app _ _)).
  rewrite !(proj2 (Z.ltb_ge (U32_MAX / 2) _)) by lia. cbn [orb].
  pose proof (so_skipped _ Hs) as Hsz. pose proof (length_skipped_sorted (skipped c)) as Hlen.
  rewrite Hlen in *. destruct (wrap32_len _ _ Hsz eq_refl) as [-> Hu].
  rewrite (read_bind _ _ _ _ _ (take_u32_app _ _ Hu)), (proj2 (Z.ltb_ge _ _)) by done.
  replace (Z.to_nat (zlen (skipped_sorted (skipped c)))) with (length (skipped_sorted (skipped c)))
    by (unfold zlen; lia).
  erewrite read_bind; [|apply take_skipped_app].
  2: { apply Forall_forall. intros [[pk i] mk] Hin. rewrite skipped_sorted_perm, elem_of_map_to_list in Hin.
       by apply (so_bank _ Hs). }
  rewrite insert_all_sorted, Hlen, Z.eqb_refl. cbn [negb].
  rewrite (read_bind _ _ _ _ _ (take_bytes_app _ _ _ K6)), (read_bind _ _ _ _ _ (take_opt_ct_app _ _ K7)).
  change (STATE_V3 =? STATE_V1) with false. cbn iota.
  rewrite (read_bind _ _ _ _ _ (take_tree_parts_app c Hs)).
  unfold mret, Read_ret, from_parts, restore, from_seed. do 2 f_equal. destruct (so_derived _ Hs) as [<- <-].
  destruct c as [? ? ? ? ? ? ? ? ? ? [? ? ?] ? ? ? ? ? ?]. done.
Qed.

(** *** The size reserved is the size written *)

Lemma push_opt32_len v len : key_len len v -> zlen (push_opt32 v) = 1 + (if is_some v then 1 else 0) * len.
Proof.
  intros Hv. unfold push_opt32. destruct v as [k|]; [|done]. cbn [is_some is_some_and].
  rewrite zlen_app, (Hv k eq_refl). change (zlen [x01]) with 1. lia.
Qed.

Lemma zlen_concat_map {A} (enc : A -> list byte) (len : A -> Z) l :
  (forall x, x ∈ l -> zlen (enc x) = len x) -> zlen (concat (map enc l)) = foldr (fun x s => len x + s) 0 l.
Proof.
  induction l as [|x l IH]; intros Hl; [done|]. cbn [map concat foldr]. rewrite zlen_app, IH, Hl by set_solver.
  done.
Qed.

Lemma foldr_const {A} (n : Z) (l : list A) : foldr (fun _ s => n + s) 0 l = zlen l * n.
Proof. induction l as [|x l IH]; [done|]. cbn [foldr]. rewrite IH, zlen_cons. lia. Qed.

Lemma push_holes_len h : holes_storable h -> zlen (push_holes h) = 4 + zlen h * TREE_NODE_LEN.
Proof.
  intros (Hs & Hk & _). unfold push_holes. rewrite zlen_app, zlen_be_bytes.
  rewrite (zlen_concat_map _ (fun _ => TREE_NODE_LEN)), foldr_const.
  - unfold holes_nodes, zlen. by rewrite length_map.
  - intros [[s d] k] Hin. apply list_elem_of_In, in_map_iff in Hin as ([s' [d' k']] & E & Hin).
    apply list_elem_of_In in Hin. cbn in E. injection E as -> -> ->.
    rewrite !zlen_app, zlen_be_bytes, (Hk _ _ _ Hin). done.
Qed.

Lemma export_len_ok c : storable c -> zlen (export_state c) = export_len c.
Proof.
  intros Hs. destruct (so_keys _ Hs) as (K1 & K2 & K3 & K4 & K5), (so_pq _ Hs) as [K6 K7].
  unfold export_state, export_len, push_tree_parts, opt32_len.
  rewrite !zlen_app, !zlen_be_bytes, K1, K2, K6.
  rewrite (push_opt32_len _ _ K3), (push_opt32_len _ _ K4), (push_opt32_len _ _ K5), (push_opt32_len _ _ K7).
  unfold push_skipped, push_chains.
  rewrite (zlen_concat_map _ (fun _ => 32 + 4 + KEY_LEN)), foldr_const, length_skipped_sorted.
  2: { intros [[pk i] mk] Hin. rewrite skipped_sorted_perm, elem_of_map_to_list in Hin.
       destruct (so_bank _ Hs _ _ _ Hin) as (E1 & _ & E2). rewrite !zlen_app, zlen_be_bytes, E1, E2. done. }
  rewrite (zlen_concat_map _ (fun e : Key * Holes => 32 + 4 + zlen e.2 * TREE_NODE_LEN)).
  2: { intros [pk h] Hin. apply elem_of_chains in Hin. destruct (so_trees _ Hs _ _ Hin) as (E1 & Hh & _).
       cbn [fst snd] in E1. rewrite zlen_app, E1, push_holes_len by done. cbn [snd]. lia. }
  assert (zlen (match send_tree c with Some holes => push_holes holes | None => be_bytes 4 0 end) =
    4 + match send_tree c with Some h => zlen h | None => 0 end * TREE_NODE_LEN) as ->.
  { pose proof (so_mode _ Hs) as Hm. destruct (send_mode c); [by rewrite Hm|by rewrite Hm|].
    destruct Hm as (_ & h & -> & Hh). by apply push_holes_len. }
  change (zlen (push_bool (sent_any c))) with 1. change (zlen (push_bool (peer_tree c))) with 1.
  change (zlen (push_bool (recv_tree c))) with 1. change (zlen [mode_byte (send_mode c)]) with 1.
  change (zlen [byte_of STATE_V3]) with 1. change (Z.of_nat 4) with 4. lia.
Qed.
End roundtrip.

(** ** Claims *)

(** C31. A stored session is the session: [import_state] applied to what [export_state] wrote gives
    back the very state, and the bytes written are exactly as many as were reserved for them, for
    every state within the limits that [import_state] enforces. *)
Theorem state_roundtrip `{X25519} `{MlKem} (c : RatchetCore) (Hs : storable c) :
  import_state (export_state c) = inr c /\ zlen (export_state c) = export_len c.
Proof.
  split; [|by apply export_len_ok]. unfold import_state. by rewrite read_export.
Qed.

Section example.
Import Sample.
#[local] Existing Instances hkdf_flat Toy.x25519_toy Toy.mlkem_toy Toy.rng_toy.

(** A responder that has opened the third message of its peer first. *)
Definition banked : RatchetCore :=
  match core_run [OpRecv (header 3 2 0 false) true] fresh 201 with Some (c, _) => c | None => nobody end.

Definition bank_checked (m : gmap (Key * Z) Key) : bool :=
  bool_decide (map_Forall (fun (k : Key * Z) (v : Key) =>
    zlen k.1 = 32 /\ (0 <= k.2 /\ k.2 < M32) /\ zlen v = KEY_LEN) m).

Lemma banked_storable : storable banked.
Proof.
  assert (bank_checked (skipped banked) = true) as Hb by (vm_compute; reflexivity).
  assert (tree_holes banked = ∅) as Ht by (vm_compute; reflexivity).
  assert (send_mode banked = Undecided /\ send_tree banked = None /\ recv_tree banked = false) as (Hm & Hst & Hr)
    by (vm_compute; split_and!; reflexivity).
  split.
  - split_and!; [vm_compute; reflexivity..| | |]; intros k E; vm_compute in E; injection E as <-; reflexivity.
  - split; [vm_compute; reflexivity|]. intros k E. vm_compute in E. injection E as <-. reflexivity.
  - split; vm_compute; reflexivity.
  - vm_compute. split_and!; discriminate.
  - vm_compute. discriminate.
  - intros pk i mk E. apply bool_decide_eq_true_1 in Hb. exact (Hb (pk, i) mk E).
  - rewrite Hm. exact Hst.
  - intros pk h E. rewrite Ht, lookup_empty in E. discriminate E.
  - rewrite Ht. vm_compute. split; discriminate.
  - rewrite Hr. discriminate.
Qed.

Lemma state_roundtrip_witness :
  import_state (export_state banked) = inr banked /\ zlen (export_state banked) = export_len banked.
Proof. apply (state_roundtrip banked). exact banked_storable. Defined.

Definition refuses (o : option (RatchetCore * Z)) : bool :=
  match o with
  | Some (c, _) =>
      match import_state (export_state c) with
      | inl (MalformedState why) => bool_decide (why = "tree over limit"%string)
      | _ => false
      end
  | None => false
  end.

(** C34. A session that cannot be restored.  Closing a tree chain at the announced [pn] splits a
    node, so it can push the chain over [MAX_TREE_NODES_PER_CHAIN]; when the next chain is a hash
    chain the limit is not checked again, the state is kept, and [import_state] then refuses what
    [export_state] writes.  The headers here are of one authenticated peer: eighty-eight messages of
    a tree chain and the first one of the hash chain after it. *)
Theorem over_limit_state_refused :
  exists c r', core_run (sparse ++ [OpRecv (header 4 0 (2 ^ 31 - 1) false) true]) fresh 201 = Some (c, r') /\
    import_state (export_state c) = inl (MalformedState "tree over limit").
Proof.
  assert (refuses over = true) as Hr by (vm_compute; reflexivity).
  unfold refuses, over in Hr.
  destruct (core_run _ fresh 201) as [[c r']|]; [|discriminate Hr]. exists c, r'. split; [reflexivity|].
  destruct (import_state (export_state c)) as [[]|]; try discriminate Hr.
  apply bool_decide_eq_true_1 in Hr. by rewrite Hr.
Qed.

End example.
