(* ===== verification/Pqxdh.v ===== *)
(** * First contact

    crates/veil-ratchet/src/pqxdh.rs: the initiator derives a root key from the responder's
    published keys and sends it a prologue with the first ratchet frame; the responder derives the
    same root from its secrets and opens the frame. *)

From stdpp Require Import strings.
From S2P Require Import Prelude BTree Crypto RatchetTree RatchetTreeInv Ratchet RatchetKeys.
From S2P Require Import RatchetAgree RatchetSession RatchetDelivery.

Definition PQXDH_MAGIC : list byte := [x56; x58].
Definition PQXDH_V1 : Z := 1.
(** [b"veil.pqxdh.v1.salt"] and [b"veil.pqxdh.v1"]. *)
Definition HKDF_SALT : list byte :=
  [x76; x65; x69; x6c; x2e; x70; x71; x78; x64; x68; x2e; x76; x31; x2e; x73; x61; x6c; x74].
Definition HKDF_INFO : list byte :=
  [x76; x65; x69; x6c; x2e; x70; x71; x78; x64; x68; x2e; x76; x31].
Definition PROLOGUE_LEN : Z := 2 + 1 + 32 + 32 + ML_KEM_768_CT_LEN.

Record InitialMessage := mkInitial {
  initiator_ik : Key;
  initiator_ek : Key;
  kem_ct : Key;
  first_frame : list byte
}.

Definition encode_initial (m : InitialMessage) : list byte :=
  PQXDH_MAGIC ++ [byte_of PQXDH_V1] ++ initiator_ik m ++ initiator_ek m ++ kem_ct m ++ first_frame m.

Definition decode_initial (bytes : list byte) : RatchetError + InitialMessage :=
  if zlen bytes <=? PROLOGUE_LEN then inl (MalformedFrame "prologue truncated")
  else if negb (bool_decide (range 0 2 bytes = PQXDH_MAGIC)) then inl (MalformedFrame "bad prologue magic")
  else if negb (byte_at bytes 2 =? PQXDH_V1) then inl (MalformedFrame "unsupported prologue version")
  else inr (mkInitial (range 3 35 bytes) (range 35 67 bytes) (range 67 PROLOGUE_LEN bytes)
              (zdrop PROLOGUE_LEN bytes)).

Record Peers := mkPeers {
  initiator_node_id : Key;
  responder_node_id : Key;
  responder_instance_id : Key
}.

Section pqxdh.
Context `{Hkdf} `{X25519} `{MlKem} `{Aead} {R : Type} `{Rng R}.

Definition derive_root (dh1 dh2 kem_ss : Key) (peers : Peers) : Key :=
  let ikm := dh1 ++ dh2 ++ kem_ss in
  let info := HKDF_INFO ++ initiator_node_id peers ++ responder_node_id peers ++
              responder_instance_id peers in
  hkdf HKDF_SALT ikm info KEY_LEN.

(** [initiate]: the keys of the responder are its device key and its encapsulation key. *)
Definition initiate (our_ik_sk : Key) (peers : Peers) (ik ek : Key)
    (plaintext associated_data : list byte) : Step (R := R) (InitialMessage * RatchetCore) :=
  dh1 ← diffie_hellman our_ik_sk ik;
  ek_a ← draw 32;
  dh2 ← diffie_hellman ek_a ik;
  '(kem_ss, ct) ← encapsulate_to ek;
  let root := derive_root dh1 dh2 kem_ss peers in
  session ← initiator root ik;
  match encrypt session plaintext associated_data with
  | (inr frame, session) =>
      mret (mkInitial (x25519_public our_ik_sk) (x25519_public ek_a) ct frame, session)
  | (inl e, _) => throw e
  end.

(** [session.decrypt(..)?] on a session of which only the successful result is kept. *)
Definition decrypt_step (c : RatchetCore) (frame associated_data : list byte) :
    Step (R := R) (list byte * RatchetCore) := fun r =>
  match decrypt c frame associated_data r with
  | None => None
  | Some (inl e, _, r) => Some (inl e, r)
  | Some (inr plaintext, c, r) => Some (inr (plaintext, c), r)
  end.

Definition accept_initial (our_ik_sk our_mlkem_seed : Key) (peers : Peers) (message : InitialMessage)
    (associated_data : list byte) : Step (R := R) (list byte * RatchetCore) :=
  dh1 ← diffie_hellman our_ik_sk (initiator_ik message);
  dh2 ← diffie_hellman our_ik_sk (initiator_ek message);
  let kem_ss := decapsulate (restore our_mlkem_seed None) (kem_ct message) in
  let root := derive_root dh1 dh2 kem_ss peers in
  session ← responder root our_ik_sk;
  decrypt_step session (first_frame message) associated_data.

End pqxdh.

(** ** The prologue codec *)

(** The field widths of a prologue, and that a frame follows it. *)
Definition initial_wf (m : InitialMessage) : Prop :=
  zlen (initiator_ik m) = 32 /\ zlen (initiator_ek m) = 32 /\ zlen (kem_ct m) = ML_KEM_768_CT_LEN /\
  first_frame m <> [].

Lemma decode_encode_initial m : initial_wf m -> decode_initial (encode_initial m) = inr m.
Proof.
  intros (H1 & H2 & H3 & H4). unfold decode_initial.
  assert (zlen (encode_initial m) = PROLOGUE_LEN + zlen (first_frame m)) as Hl.
  { unfold encode_initial. rewrite !zlen_app, H1, H2, H3. unfold PROLOGUE_LEN.
    change (zlen PQXDH_MAGIC) with 2. change (zlen [byte_of PQXDH_V1]) with 1. lia. }
  assert (0 < zlen (first_frame m)) as Hp.
  { destruct (first_frame m); [done|]. rewrite zlen_cons. pose proof (zlen_nonneg l). lia. }
  rewrite Hl, (proj2 (Z.leb_gt _ _)) by lia.
  set (t1 := initiator_ik m ++ initiator_ek m ++ kem_ct m ++ first_frame m).
  assert (encode_initial m = [x56; x58; x01] ++ t1) as E by done.
  replace (range 0 2 (encode_initial m)) with PQXDH_MAGIC by done.
  replace (byte_at (encode_initial m) 2) with PQXDH_V1 by done.
  rewrite bool_decide_eq_true_2 by done. cbn [negb]. rewrite Z.eqb_refl. cbn [negb]. rewrite E.
  change (ML_KEM_768_CT_LEN) with 1088 in *. unfold PROLOGUE_LEN in *. change (2 + 1 + 32 + 32 + ML_KEM_768_CT_LEN) with 1155.
  assert (forall a b, 3 <= a -> range a b ([x56; x58; x01] ++ t1) = range (a - 3) (b - 3) t1) as Hr
    by (intros; by rewrite range_skip).
  rewrite !Hr by lia. unfold t1. destruct m as [ik ek ct f]. cbn in *. f_equal. f_equal.
  - change (range (3 - 3) (35 - 3)) with (range 0 32). by apply range_here.
  - rewrite range_skip by lia. rewrite H1. by apply range_here.
  - rewrite range_skip, range_skip by lia. rewrite H1, H2. by apply range_here.
  - replace (x56 :: x58 :: x01 :: ik ++ ek ++ ct ++ f) with ((x56 :: x58 :: x01 :: ik ++ ek ++ ct) ++ f)
      by (cbn; by rewrite <- !app_assoc).
    unfold zdrop. apply drop_app_length'. unfold zlen in *. cbn [length]. rewrite !length_app. lia.
Qed.

Lemma decode_initial_inv bytes m :
  decode_initial bytes = inr m -> initial_wf m /\ bytes = encode_initial m.
Proof.
  unfold decode_initial, PROLOGUE_LEN. change (2 + 1 + 32 + 32 + ML_KEM_768_CT_LEN) with 1155.
  destruct (Z.leb_spec (zlen bytes) 1155) as [|Hl]; [done|].
  case_bool_decide as E1; cbn [negb]; [|done].
  destruct (byte_at bytes 2 =? PQXDH_V1) eqn:E2; cbn [negb]; [|done]. to_prop. intros [= <-].
  split.
  - split_and!; cbn; try (rewrite range_length; [done|lia..]).
    intros E. pose proof (zlen_zdrop 1155 bytes ltac:(lia)) as Hz. rewrite E, zlen_nil in Hz. lia.
  - unfold encode_initial. cbn [initiator_ik initiator_ek kem_ct first_frame]. rewrite <- E1, <- E2.
    rewrite <- (byte_at_range bytes 2) by lia. change (2 + 1) with 3.
    transitivity (ztake 1155 bytes ++ zdrop 1155 bytes); [unfold ztake, zdrop; by rewrite take_drop|].
    rewrite (ztake_range 67 1155), (ztake_range 35 67), (ztake_range 3 35), (ztake_range 2 3) by lia.
    by rewrite <- !app_assoc.
Qed.

(** ** First contact *)

Lemma bind_ok {R A B} (m : Step (R := R) A) (f : A -> Step (R := R) B) r y r' :
  (m ≫= f) r = Some (inr y, r') -> exists x r1, m r = Some (inr x, r1) /\ f x r1 = Some (inr y, r').
Proof.
  unfold mbind, Step_bind. destruct (m r) as [[[e|x] r1]|]; [done| |done]. by eauto.
Qed.

Lemma runs_and {R A} (m : Step (R := R) A) r (E E' : RatchetError -> Prop) (Q Q' : A -> Prop) :
  runs m r E Q -> runs m r E' Q' -> runs m r (fun e => E e /\ E' e) (fun x => Q x /\ Q' x).
Proof. unfold runs. destruct (m r) as [[[e|x] r1]|]; done. Qed.

Section contact.
Context `{Hkdf} `{X25519} `{!X25519Laws} `{MlKem} `{!MlKemLaws} `{Aead} `{!AeadLaws} {R : Type} `{Rng R}.

Lemma dh_ok sk pk (r r' : R) x :
  diffie_hellman sk pk r = Some (inr x, r') -> x = x25519_dh sk pk /\ r' = r /\ x25519_contributory x = true.
Proof.
  unfold diffie_hellman. destruct (x25519_contributory (x25519_dh sk pk)) eqn:E; [|done].
  intros Hx. injection Hx as <- <-. done.
Qed.

Lemma dh_sym a b (r r' r2 : R) x :
  diffie_hellman a (x25519_public b) r = Some (inr x, r') ->
  diffie_hellman b (x25519_public a) r2 = Some (inr x, r2).
Proof.
  intros E. apply dh_ok in E as (-> & _ & Ec). unfold diffie_hellman. rewrite <- x25519_agree, Ec. done.
Qed.

Lemma recv_current_first c h (r : R) E k :
  recv_tree c = false -> nr c = 0 -> ckr c = Some k -> h_n h = 0 -> h_tree h = false ->
  runs (recv_current c h) r E (fun _ => True).
Proof.
  intros Er En Ek Eh Et. unfold recv_current. rewrite Er, Et, En, Eh. cbn [eqb negb Z.ltb Z.compare].
  apply runs_bind. unfold skip_message_keys. rewrite En. cbn [Z.leb Z.compare].
  apply runs_ret. intros r5. apply runs_bind. rewrite Ek. apply runs_ok_or; [done|].
  intros k' _ r6. by destruct (kdf_ck k').
Qed.

(** The first message of an unused end turns the epoch and cannot exceed a limit. *)
Lemma recv_step_first c h (r : R) :
  skipped c = ∅ -> tree_holes c = ∅ -> ckr c = None -> recv_tree c = false -> dh_pk_remote c = None ->
  h_n h = 0 -> h_tree h = false ->
  runs (recv_step c h) r (asym_err c h) (fun _ => True).
Proof.
  intros Es Et Ek Er Ed En Eh. unfold recv_step, is_new_epoch. rewrite Es, Et, Ed, !lookup_empty.
  apply runs_bind. unfold turn_epoch. rewrite Ek. cbn [is_some is_some_and].
  apply runs_bind. apply runs_ret. intros r1. unfold close_tree. rewrite Er.
  apply runs_bind, runs_ret. intros r2. apply runs_bind.
  eapply runs_mono; [apply asymmetric_step_spec|done|].
  intros c1 (ek & m & sk & seed & _ & ->) r3. rewrite Eh. apply runs_ret. intros r4.
  assert (nr (new_epoch c h ek m sk seed) = 0 /\
    ckr (new_epoch c h ek m sk seed) = Some (recv_root c h).2) as [En2 Ek2] by done.
  generalize dependent (new_epoch c h ek m sk seed). intros c2 En2 Ek2.
  by apply (recv_current_first _ _ _ _ (recv_root c h).2).
Qed.

(** What [initiate] does. *)
Lemma initiate_inv ika peers ik ek pt ad (r r1 : R) msg a :
  initiate ika peers ik ek pt ad r = Some (inr (msg, a), r1) ->
  exists eka m a0 frame ra rb, let x := mlkem_encaps ek m in
    let root := derive_root (x25519_dh ika ik) (x25519_dh eka ik) x.2 peers in
    diffie_hellman ika ik r = Some (inr (x25519_dh ika ik), r) /\
    (exists rc : R, diffie_hellman eka ik rc = Some (inr (x25519_dh eka ik), rc)) /\
    initiator root ik ra = Some (inr a0, rb) /\ encrypt a0 pt ad = (inr frame, a) /\
    msg = mkInitial (x25519_public ika) (x25519_public eka) x.1 frame.
Proof.
  unfold initiate. intros E. apply bind_ok in E as (dh1 & q1 & E1 & E).
  destruct (dh_ok _ _ _ _ _ E1) as (-> & -> & _).
  apply bind_ok in E as (eka & q2 & _ & E). apply bind_ok in E as (dh2 & q3 & E2 & E).
  destruct (dh_ok _ _ _ _ _ E2) as (-> & -> & _). apply bind_ok in E as ([ss ct] & q4 & E3 & E).
  unfold encapsulate_to in E3. destruct (negb (mlkem_valid ek)); [done|].
  apply bind_ok in E3 as (m & q5 & _ & E3). destruct (mlkem_encaps ek m) as [ct' ss'] eqn:Em.
  injection E3 as <- <- <-. apply bind_ok in E as (a0 & q6 & E4 & E).
  destruct (encrypt a0 pt ad) as [[e|frame] a1] eqn:E5; [done|]. injection E as <- <- <-.
  exists eka, m, a0, frame, q5, q6. rewrite Em. split_and!; try done. by exists q2.
Qed.

(** The first header of an initiator. *)
Lemma initiator_first root ik (r r' : R) a0 h mk a :
  initiator root ik r = Some (inr a0, r') -> send_step a0 = (inr (h, mk), a) ->
  ns a0 < U32_MAX /\ h_n h = 0 /\ h_tree h = false /\ dh_pk a = dh_pk a0.
Proof.
  intros Ei Es. destruct (initiator_spec _ _ _ _ _ Ei) as (sk & seed & Ea). cbv zeta in Ea. subst a0.
  cbn in Es. injection Es as <- _ <-. done.
Qed.

Lemma responder_ok root sk (r : R) : exists b r', responder root sk r = Some (inr b, r').
Proof.
  unfold responder, pq_new, draw, mbind, Step_bind. destruct (fill_bytes r _) as [k r'].
  unfold mret, Step_ret. by eexists _, _.
Qed.

(** The two ends after the first frame was sealed, before it arrives. *)
Lemma contact_start root ikb (ra rb rc rd : R) a0 b0 a h mk :
  initiator root (x25519_public ikb) ra = Some (inr a0, rb) -> responder root ikb rc = Some (inr b0, rd) ->
  send_step a0 = (inr (h, mk), a) -> dh_pk a <> x25519_public ikb ->
  reach (R := R) (mkConv (set_party true (mkParty a [] []) (fun s => if s then mkParty a0 [] [] else mkParty b0 [] []))
    [(true, (h, mk))] [dh_pk a0; dh_pk b0]) /\ dh_pk b0 = x25519_public ikb.
Proof.
  intros Ea Eb Es Hne. destruct (initiator_first _ _ _ _ _ _ _ _ Ea Es) as (Hns & _ & _ & Hpk).
  destruct (responder_spec _ _ _ _ _ Eb) as (seed & Hb). split; [|by rewrite Hb].
  eapply reach_step.
  - eapply reach_start; [exact Ea|exact Eb|]. rewrite <- Hpk, Hb. exact Hne.
  - apply (do_send (mkConv (fun s => if s then mkParty a0 [] [] else mkParty b0 [] []) [] [dh_pk a0; dh_pk b0]) true);
      [exact Hns|exact Es].
Qed.

(** C16. First contact.  When [initiate] succeeds against the keys a responder published, the
    message survives its encoding, and [accept] with the responder's secrets opens it to exactly
    the plaintext, the only possible refusal being a fresh key of the responder that is not
    contributory.  The two sessions that result are the two ends of a conversation in the sense of
    the agreement theorem, so everything said there holds of them from then on. *)
Theorem first_contact (ika ikb seedb : Key) (peers : Peers) (pt ad : list byte) (r r1 r2 : R)
    (msg : InitialMessage) (a : RatchetCore)
    (Hi : initiate ika peers (x25519_public ikb) (mlkem_ek seedb) pt ad r = Some (inr (msg, a), r1))
    (Hne : dh_pk a <> x25519_public ikb) :
  decode_initial (encode_initial msg) = inr msg /\
  exists res r3, accept_initial ikb seedb peers msg ad r2 = Some (res, r3) /\
  match res with
  | inl e => e = NonContributory
  | inr (pt', b) => pt' = pt /\
      (dh_pk b ∉ [dh_pk a; x25519_public ikb] ->
       exists st, reach (R := R) st /\ core (party st true) = a /\ core (party st false) = b)
  end.
Proof.
  destruct (initiate_inv _ _ _ _ _ _ _ _ _ _ Hi) as (eka & m & a0 & frame & ra & rb & Hx).
  cbv zeta in Hx. destruct Hx as (Ed1 & [rc Ed2] & Ea & Een & ->).
  destruct (encrypt_frame _ _ _ _ _ Een) as (h & mk & sealed & Es & -> & Eseal).
  destruct (responder_ok (derive_root (x25519_dh ika (x25519_public ikb)) (x25519_dh eka (x25519_public ikb))
    (mlkem_encaps (mlkem_ek seedb) m).2 peers) ikb r2) as (b0 & r4 & Eb).
  destruct (contact_start _ _ _ _ _ _ _ _ _ _ _ Ea Eb Es Hne) as [Hreach Hb0].
  destruct (initiator_first _ _ _ _ _ _ _ _ Ea Es) as (_ & Hn & Ht & Hpk).
  set (st := mkConv _ _ _) in Hreach. destruct (reach_inv _ Hreach) as (es & k & Hinv).
  assert ((true, (h, mk)) ∈ wire st) as Hw by apply list_elem_of_here.
  pose proof (genuine_header_wf es _ h mk (ci_epochs _ _ _ Hinv) (ci_wire _ _ _ Hinv _ _ _ Hw)) as Hwf.
  split.
  { apply decode_encode_initial. split_and!; cbn; try apply x25519_public_len; [apply mlkem_ct_len|done]. }
  assert (timely (party st false) h) as Htm by (left; apply not_elem_of_nil).
  pose proof (deliver_wire es k st false h mk r4 Hinv Hw Htm) as Hdel.
  destruct (responder_spec _ _ _ _ _ Eb) as (seed & Eb0).
  assert (runs (recv_step b0 h) r4 (asym_err b0 h) (fun _ => True)) as Hfirst
    by (apply recv_step_first; rewrite ?Eb0; done).
  destruct (runs_cases _ _ _ _ (runs_and _ _ _ _ _ _ Hdel Hfirst)) as (res & r5 & Er & Hres).
  change (core (party st false)) with b0 in Er.
  pose proof (aead_tag _ _ _ _ _ Eseal) as Htag. pose proof (zlen_nonneg pt) as Hpt.
  assert (accept_initial ikb seedb peers (mkInitial (x25519_public ika) (x25519_public eka)
    (mlkem_encaps (mlkem_ek seedb) m).1 (encode_header h ++ sealed)) ad r2 =
    decrypt_step b0 (encode_header h ++ sealed) ad r4) as ->.
  { unfold accept_initial, mbind, Step_bind. cbn [initiator_ik initiator_ek kem_ct first_frame].
    rewrite (dh_sym _ _ _ _ r2 _ Ed1), (dh_sym _ _ _ _ r2 _ Ed2). unfold decapsulate, restore, from_seed.
    cbn [pq_seed]. rewrite mlkem_correct, Eb. done. }
  unfold decrypt_step. rewrite decrypt_frame by (done || lia). rewrite Er.
  destruct res as [e|[mk' b]].
  - eexists _, _. split; [reflexivity|]. destruct Hres as [[[n ->]|[ -> |[-> _]]] Has]; [|done|].
    + by destruct Has as [[? _]|[[? _]|?]].
    + by destruct Has as [[? _]|[[? _]|?]].
  - destruct Hres as [(Hmk & _ & _) _]. cbn in Hmk. subst mk'.
    destruct (message_keys mk) as [key nonce]. cbn [fst snd] in Eseal. rewrite (aead_correct _ _ _ _ _ Eseal).
    eexists _, _. split; [reflexivity|]. split; [done|]. intros Hfr.
    exists (mkConv (set_party false (opened (party st false) h b) (party st)) (wire st) (dh_pk b :: used st)).
    split; [|done]. eapply reach_step; [exact Hreach|].
    apply (do_recv st false h mk mk b r4 r5 Hw Htm Er). right. cbn. by rewrite <- Hpk, Hb0.
Qed.

End contact.

(** The prologue codec is exact: [decode] accepts precisely the encodings of messages whose
    fields have the widths of the wire format and which carry a frame, and returns that message;
    every other byte string is refused. *)
Theorem prologue_exact (bytes : list byte) (m : InitialMessage) :
  decode_initial bytes = inr m <-> initial_wf m /\ bytes = encode_initial m.
Proof.
  split; [apply decode_initial_inv|]. intros [Hw ->]. by apply decode_encode_initial.
Qed.

Section example.
#[local] Existing Instances Toy.hkdf_toy Toy.x25519_toy Toy.x25519_toy_laws Toy.mlkem_toy
  Toy.mlkem_toy_laws Toy.aead_toy Toy.aead_toy_laws Toy.rng_toy.

Definition hello_peers : Peers :=
  mkPeers (be_bytes 32 160) (be_bytes 32 176) (be_bytes 16 177).

Definition hello : option (InitialMessage * RatchetCore) :=
  match initiate (be_bytes 32 11) hello_peers (x25519_public (be_bytes 32 22)) (mlkem_ek (be_bytes 64 33))
          [x68; x69] [x01] 7 with
  | Some (inr x, _) => Some x
  | _ => None
  end.

Definition hello_message : InitialMessage :=
  match hello with Some (m, _) => m | None => mkInitial [] [] [] [] end.

Definition hello_session : RatchetCore :=
  match hello with Some (_, a) => a | None => Sample.alice0 end.

Lemma first_contact_witness :
  decode_initial (encode_initial hello_message) = inr hello_message /\
  exists res r3, accept_initial (be_bytes 32 22) (be_bytes 64 33) hello_peers hello_message [x01] 9 =
    Some (res, r3) /\
  match res with
  | inl e => e = NonContributory
  | inr (pt', b) => pt' = [x68; x69] /\
      (dh_pk b ∉ [dh_pk hello_session; x25519_public (be_bytes 32 22)] ->
       exists st, reach (R := Z) st /\ core (party st true) = hello_session /\ core (party st false) = b)
  end.
Proof.
  apply (first_contact (be_bytes 32 11) (be_bytes 32 22) (be_bytes 64 33) hello_peers [x68; x69] [x01] 7 11 9
    hello_message hello_session).
  - vm_compute. reflexivity.
  - vm_compute. discriminate.
Defined.

End example.
