(* ===== verification/OMap.v ===== *)
(** * Ordered maps

    [Ord] and [BTreeMap] of the standard library for keys of any ordered type: byte strings,
    arrays, pairs and addresses.  A map is the list of its entries in key order, which is the order
    its iterators have. *)

From S2P Require Import Prelude.

Class Ord (K : Type) := cmp : K -> K -> comparison.

Class OrdLaws (K : Type) `{Ord K} := {
  cmp_eq : forall a b, cmp a b = Eq <-> a = b;
  cmp_antisym : forall a b, cmp b a = CompOpp (cmp a b);
  cmp_trans : forall a b c, cmp a b = Lt -> cmp b c = Lt -> cmp a c = Lt
}.

Definition ltb {K} `{Ord K} (a b : K) : bool := match cmp a b with Lt => true | _ => false end.

#[global] Instance Z_ord : Ord Z := Z.compare.
#[global] Instance byte_ord : Ord byte := fun a b => Z.compare (byte_val a) (byte_val b).

Fixpoint list_cmp {A} `{Ord A} (a b : list A) : comparison :=
  match a, b with
  | [], [] => Eq
  | [], _ => Lt
  | _, [] => Gt
  | x :: a, y :: b => match cmp x y with Eq => list_cmp a b | c => c end
  end.
#[global] Instance list_ord {A} `{Ord A} : Ord (list A) := list_cmp.

#[global] Instance prod_ord {A B} `{Ord A} `{Ord B} : Ord (A * B) :=
  fun a b => match cmp a.1 b.1 with Eq => cmp a.2 b.2 | c => c end.

Section omap.
Context {K V : Type} `{Ord K}.
Implicit Types m : list (K * V).

(** [BTreeMap::insert]. *)
Fixpoint om_insert (k : K) (v : V) m : list (K * V) :=
  match m with
  | [] => [(k, v)]
  | (k', v') :: m' =>
      match cmp k k' with
      | Lt => (k, v) :: m
      | Eq => (k, v) :: m'
      | Gt => (k', v') :: om_insert k v m'
      end
  end.

(** [BTreeMap::get]. *)
Fixpoint om_get (k : K) m : option V :=
  match m with
  | [] => None
  | (k', v) :: m => match cmp k k' with Eq => Some v | _ => om_get k m end
  end.

(** [collect::<BTreeMap<_, _>>()]. *)
Definition om_collect (l : list (K * V)) : list (K * V) :=
  fold_left (fun m e => om_insert e.1 e.2 m) l [].

(** Keys strictly ascending, as a test. *)
Fixpoint ascending (l : list K) : bool :=
  match l with
  | a :: (b :: _) as l' => ltb a b && ascending l'
  | _ => true
  end.

End omap.

#[global] Instance Z_ord_laws : OrdLaws Z.
Proof.
  constructor; unfold cmp, Z_ord.
  - apply Z.compare_eq_iff.
  - intros. apply Z.compare_antisym.
  - intros a b c. rewrite !Z.compare_lt_iff. lia.
Qed.

#[global] Instance byte_ord_laws : OrdLaws byte.
Proof.
  constructor; unfold cmp, byte_ord.
  - intros a b. rewrite Z.compare_eq_iff. split; [apply byte_val_inj|congruence].
  - intros. apply Z.compare_antisym.
  - intros a b c. rewrite !Z.compare_lt_iff. lia.
Qed.

Section laws.
Context {K : Type} `{OrdLaws K}.

Lemma cmp_refl (a : K) : cmp a a = Eq.
Proof. by apply cmp_eq. Qed.

Lemma cmp_gt (a b : K) : cmp a b = Gt <-> cmp b a = Lt.
Proof. rewrite (cmp_antisym a b). by destruct (cmp a b). Qed.

Lemma ltb_lt (a b : K) : ltb a b = true <-> cmp a b = Lt.
Proof. unfold ltb. by destruct (cmp a b). Qed.

Lemma ltb_irrefl (a : K) : ltb a a = false.
Proof. unfold ltb. by rewrite cmp_refl. Qed.

Lemma ltb_trans (a b c : K) : ltb a b = true -> ltb b c = true -> ltb a c = true.
Proof. rewrite !ltb_lt. apply cmp_trans. Qed.

(** [a <= b]. *)
Lemma leb_trans (a b c : K) : ltb b a = false -> ltb c b = false -> ltb c a = false.
Proof.
  unfold ltb. intros E1 E2. destruct (cmp c a) eqn:E3; try done. destruct (cmp b a) eqn:E4; [|done|].
  - apply cmp_eq in E4 as ->. by rewrite E3 in E2.
  - apply cmp_gt in E4. by rewrite (cmp_trans _ _ _ E3 E4) in E2.
Qed.

Lemma ltb_asym (a b : K) : ltb a b = true -> ltb b a = false.
Proof. unfold ltb. rewrite (cmp_antisym a b). by destruct (cmp a b). Qed.

End laws.

#[global] Instance list_ord_laws {A} `{OrdLaws A} : OrdLaws (list A).
Proof.
  constructor; unfold cmp, list_ord.
  - intros a. induction a as [|x a IH]; intros [|y b]; cbn; try done.
    destruct (cmp x y) eqn:E.
    + apply cmp_eq in E as ->. rewrite IH. split; congruence.
    + split; [done|]. intros [= -> ->]. by rewrite cmp_refl in E.
    + split; [done|]. intros [= -> ->]. by rewrite cmp_refl in E.
  - intros a. induction a as [|x a IH]; intros [|y b]; cbn; try done.
    rewrite (cmp_antisym x y). destruct (cmp x y); cbn; auto.
  - intros a. induction a as [|x a IH]; intros [|y b] [|z c]; cbn; try done.
    destruct (cmp x y) eqn:E1, (cmp y z) eqn:E2; try done.
    + apply cmp_eq in E1 as ->, E2 as ->. rewrite cmp_refl. apply IH.
    + apply cmp_eq in E1 as ->. by rewrite E2.
    + apply cmp_eq in E2 as ->. by rewrite E1.
    + by rewrite (cmp_trans _ _ _ E1 E2).
Qed.

#[global] Instance prod_ord_laws {A B} `{OrdLaws A} `{OrdLaws B} : OrdLaws (A * B).
Proof.
  constructor; unfold cmp, prod_ord.
  - intros [a b] [a' b']. cbn. destruct (cmp a a') eqn:E.
    + apply cmp_eq in E as ->. rewrite cmp_eq. split; congruence.
    + split; [done|]. intros [= -> ->]. by rewrite cmp_refl in E.
    + split; [done|]. intros [= -> ->]. by rewrite cmp_refl in E.
  - intros [a b] [a' b']. cbn. rewrite (cmp_antisym a a'). destruct (cmp a a'); cbn; try done. apply cmp_antisym.
  - intros [a b] [a' b'] [a'' b'']. cbn. destruct (cmp a a') eqn:E1, (cmp a' a'') eqn:E2; try done.
    + apply cmp_eq in E1 as ->, E2 as ->. rewrite cmp_refl. apply cmp_trans.
    + apply cmp_eq in E1 as ->. by rewrite E2.
    + apply cmp_eq in E2 as ->. by rewrite E1.
    + by rewrite (cmp_trans _ _ _ E1 E2).
Qed.

(** ** Sorted maps *)

Section sorted.
Context {K V : Type} `{OrdLaws K}.
Implicit Types m : list (K * V).

Definition om_sorted m : Prop := StronglySorted (fun a b : K * V => cmp a.1 b.1 = Lt) m.

Lemma ascending_sorted m : ascending m.*1 = true <-> om_sorted m.
Proof.
  unfold om_sorted. split.
  - induction m as [|[k v] m IH]; [constructor|]. intros E.
    assert (ascending m.*1 = true) as Em by (destruct m as [|[k' v'] m]; [done|]; cbn in E |- *; by to_prop).
    specialize (IH Em). constructor; [done|]. destruct m as [|[k' v'] m]; [constructor|].
    cbn in E. to_prop. apply ltb_lt in H1. constructor; [done|]. cbn.
    apply StronglySorted_inv in IH as [_ Hall]. eapply Forall_impl; [exact Hall|].
    intros [k2 v2] E2. cbn in *. by eapply cmp_trans.
  - induction 1 as [|[k v] m Hm IH Hall]; [done|]. destruct m as [|[k' v'] m]; [done|].
    cbn in *. apply Forall_cons in Hall as [E _]. cbn in E. rewrite IH. rewrite andb_true_r. by apply ltb_lt.
Qed.

Lemma elem_of_om_insert k v m e : e ∈ om_insert k v m -> e = (k, v) \/ e ∈ m.
Proof.
  induction m as [|[k' v'] m IH]; cbn.
  - rewrite list_elem_of_singleton. auto.
  - destruct (cmp k k'); rewrite !elem_of_cons; tauto.
Qed.

Lemma om_insert_sorted k v m : om_sorted m -> om_sorted (om_insert k v m).
Proof.
  unfold om_sorted. induction 1 as [|[k' v'] m Hm IH Hall]; cbn; [repeat constructor|].
  destruct (cmp k k') eqn:E.
  - apply cmp_eq in E as ->. by constructor.
  - constructor; [by constructor|]. constructor; [done|]. eapply Forall_impl; [exact Hall|].
    intros [k2 v2] E2. cbn in *. by eapply cmp_trans.
  - constructor; [done|]. apply Forall_forall. intros e He.
    apply elem_of_om_insert in He as [-> |He]; cbn; [by apply cmp_gt|].
    rewrite Forall_forall in Hall. by apply Hall.
Qed.

(** A key above every other one is appended. *)
Lemma om_insert_last k v m :
  Forall (fun e => cmp e.1 k = Lt) m -> om_insert k v m = m ++ [(k, v)].
Proof.
  induction 1 as [|[k' v'] m E _ IH]; cbn in *; [done|]. by rewrite (proj2 (cmp_gt k k') E), IH.
Qed.

Lemma om_sorted_app m k v :
  om_sorted (m ++ [(k, v)]) <-> om_sorted m /\ Forall (fun e => cmp e.1 k = Lt) m.
Proof.
  unfold om_sorted. induction m as [|e m IH]; cbn.
  - split; [by repeat constructor|]. intros _. repeat constructor.
  - split.
    + intros E. apply StronglySorted_inv in E as [E Hall]. apply IH in E as [Hs Hf].
      rewrite Forall_app, Forall_singleton in Hall. destruct Hall. by split; constructor.
    + intros [E Hf]. apply StronglySorted_inv in E as [E Hall]. apply Forall_cons in Hf as [He Hf].
      constructor; [by apply IH|]. rewrite Forall_app, Forall_singleton. done.
Qed.

Lemma om_sorted_prefix m m' : om_sorted (m ++ m') -> om_sorted m.
Proof.
  unfold om_sorted. induction m as [|e m IH]; cbn; [constructor|]. intros E.
  apply StronglySorted_inv in E as [E Hall]. apply Forall_app in Hall as [Hall _]. by constructor; [apply IH|].
Qed.

(** Collecting entries that come in key order keeps them as they are. *)
Lemma om_collect_sorted m : om_sorted m -> om_collect m = m.
Proof.
  unfold om_collect. induction m as [|[k v] m IH] using rev_ind; [done|]. intros E.
  apply om_sorted_app in E as [Hs Hf]. rewrite fold_left_app. cbn. by rewrite IH, om_insert_last.
Qed.

Lemma om_get_insert k v m : om_get k (om_insert k v m) = Some v.
Proof.
  induction m as [|[k' v'] m IH]; cbn; [by rewrite cmp_refl|].
  destruct (cmp k k') eqn:E; cbn; rewrite ?cmp_refl, ?E; done.
Qed.

Lemma om_get_elem k v m : om_get k m = Some v -> (k, v) ∈ m.
Proof.
  induction m as [|[k' v'] m IH]; cbn; [done|]. destruct (cmp k k') eqn:E.
  - intros [= ->]. apply cmp_eq in E as ->. apply list_elem_of_here.
  - intros Hg. right. by apply IH.
  - intros Hg. right. by apply IH.
Qed.

Lemma length_om_insert k v m : (length (om_insert k v m) <= S (length m))%nat.
Proof. induction m as [|[k' v'] m IH]; cbn; [lia|]. destruct (cmp k k'); cbn; lia. Qed.

End sorted.
