(* ===== verification/Decimal.v ===== *)
(** * Decimal text

    [to_string] and [parse] of machine integers, and the validity of UTF-8 text, as the
    standard library has them; the text formats of the program are built on these. *)

From S2P Require Import Prelude.

(** [u8::is_ascii_digit]. *)
Definition is_digit (b : byte) : bool := (48 <=? byte_val b) && (byte_val b <=? 57).

Definition digit (d : Z) : byte := byte_of (48 + d).

(** The decimal digits of a number below [10 ^ fuel]. *)
Fixpoint to_dec (fuel : nat) (n : Z) : list byte :=
  match fuel with
  | O => []
  | S f => if n <? 10 then [digit n] else to_dec f (n / 10) ++ [digit (n mod 10)]
  end.

(** [to_string] of a [u64] and of an [i64]: at most 20 digits. *)
Definition u64_to_string (n : Z) : list byte := to_dec 20 n.
Definition i64_to_string (n : Z) : list byte :=
  if n <? 0 then x2d :: to_dec 20 (- n) else to_dec 20 n.

Definition of_dec (ds : list byte) : Z := fold_left (fun a b => 10 * a + (byte_val b - 48)) ds 0.

Definition I64_MIN : Z := -9223372036854775808.
Definition I64_MAX : Z := 9223372036854775807.

(** The digits of a number after its sign: at least one, nothing else. *)
Definition parse_digits (ds : list byte) : option Z :=
  if is_nil ds || negb (forallb is_digit ds) then None else Some (of_dec ds).

(** [text.parse::<u64>()]: an optional plus sign, digits, no overflow. *)
Definition parse_u64 (text : list byte) : option Z :=
  let body := match text with x2b :: body => body | _ => text end in
  match parse_digits body with
  | Some n => if n <=? U64_MAX then Some n else None
  | None => None
  end.

(** [text.parse::<i64>()]. *)
Definition parse_i64 (text : list byte) : option Z :=
  let '(neg, body) := match text with
                      | x2d :: body => (true, body)
                      | x2b :: body => (false, body)
                      | _ => (false, text)
                      end in
  match parse_digits body with
  | Some n =>
      let n := if neg : bool then - n else n in
      if (I64_MIN <=? n) && (n <=? I64_MAX) then Some n else None
  | None => None
  end.

Definition in_range (lo hi : Z) (b : byte) : bool := (lo <=? byte_val b) && (byte_val b <=? hi).
Definition continuation (b : byte) : bool := in_range 128 191 b.

(** [std::str::from_utf8(..).is_ok()]: the table of well-formed byte sequences. *)
Fixpoint utf8_valid (l : list byte) : bool :=
  match l with
  | [] => true
  | a :: t1 =>
      if byte_val a <? 128 then utf8_valid t1 else
      match t1 with
      | [] => false
      | b :: t2 =>
          if in_range 194 223 a then continuation b && utf8_valid t2 else
          match t2 with
          | [] => false
          | c :: t3 =>
              if byte_val a =? 224 then in_range 160 191 b && continuation c && utf8_valid t3
              else if in_range 225 236 a || in_range 238 239 a
                then continuation b && continuation c && utf8_valid t3
              else if byte_val a =? 237 then in_range 128 159 b && continuation c && utf8_valid t3
              else
              match t3 with
              | [] => false
              | d :: t4 =>
                  if byte_val a =? 240
                    then in_range 144 191 b && continuation c && continuation d && utf8_valid t4
                  else if in_range 241 243 a
                    then continuation b && continuation c && continuation d && utf8_valid t4
                  else if byte_val a =? 244
                    then in_range 128 143 b && continuation c && continuation d && utf8_valid t4
                  else false
              end
          end
      end
  end.

(** ** Printing and reading back *)

Lemma digit_val d : 0 <= d <= 9 -> byte_val (digit d) = 48 + d.
Proof. intros. unfold digit. rewrite byte_val_of. unfold wrap8. apply Z.mod_small. lia. Qed.

Lemma is_digit_digit d : 0 <= d <= 9 -> is_digit (digit d) = true.
Proof. intros. unfold is_digit. rewrite digit_val by done. apply andb_true_iff; split; apply Z.leb_le; lia. Qed.

Lemma digit_of b : is_digit b = true -> digit (byte_val b - 48) = b.
Proof. intros _. unfold digit. replace (48 + (byte_val b - 48)) with (byte_val b) by lia. apply byte_of_val. Qed.

Lemma of_dec_snoc ds b : of_dec (ds ++ [b]) = 10 * of_dec ds + (byte_val b - 48).
Proof. unfold of_dec. by rewrite fold_left_app. Qed.

(** No leading zero, except in the numeral zero. *)
Definition canonical (ds : list byte) : bool :=
  match ds with
  | [] => false
  | b :: rest => is_nil rest || negb (byte_val b =? 48)
  end.

Lemma of_dec_nonneg ds : forallb is_digit ds = true -> 0 <= of_dec ds.
Proof.
  induction ds as [|b ds IH] using rev_ind; [done|]. rewrite forallb_app, of_dec_snoc. cbn.
  intros E. to_prop. unfold is_digit in *. to_prop. specialize (IH ltac:(done)). lia.
Qed.

(** The first digit of a canonical numeral makes it positive. *)
Lemma of_dec_pos b ds :
  forallb is_digit (b :: ds) = true -> byte_val b <> 48 -> 0 < of_dec (b :: ds).
Proof.
  induction ds as [|c ds IH] using rev_ind.
  - cbn. intros E. to_prop. unfold is_digit in *. to_prop. unfold of_dec. cbn. lia.
  - change (b :: ds ++ [c]) with ((b :: ds) ++ [c]). rewrite forallb_app, of_dec_snoc.
    intros E Hb. apply andb_true_iff in E as [E1 E2]. specialize (IH E1 Hb).
    cbn in E2. unfold is_digit in E2. to_prop. lia.
Qed.

Lemma to_dec_spec fuel n :
  0 <= n < 10 ^ Z.of_nat fuel ->
  of_dec (to_dec fuel n) = n /\ forallb is_digit (to_dec fuel n) = true /\
  (canonical (to_dec fuel n) = true \/ fuel = O).
Proof.
  revert n. induction fuel as [|f IH]; intros n Hn.
  - cbn in *. split_and!; [unfold of_dec; cbn; lia|done|by right].
  - rewrite Nat2Z.inj_succ, Z.pow_succ_r in Hn by lia. cbn [to_dec].
    destruct (Z.ltb_spec n 10) as [Hlt|Hge].
    + split_and!; [|cbn; by rewrite is_digit_digit by lia|by left].
      unfold of_dec. cbn. rewrite digit_val by lia. lia.
    + assert (0 <= n / 10 < 10 ^ Z.of_nat f) as Hd
        by (split; [apply Z.div_pos; lia|apply Z.div_lt_upper_bound; lia]).
      destruct (IH _ Hd) as (E1 & E2 & E3). pose proof (Z.mod_pos_bound n 10 ltac:(lia)) as Hm.
      rewrite of_dec_snoc, E1, forallb_app, E2, digit_val by lia.
      split_and!; [pose proof (Z.div_mod n 10); lia|cbn; by rewrite is_digit_digit by lia|].
      left. destruct (to_dec f (n / 10)) as [|b ds] eqn:Ed.
      { unfold of_dec in E1. cbn in E1. assert (1 <= n / 10) by (apply Z.div_le_lower_bound; lia). lia. }
      destruct E3 as [E3| ->]; [|done]. cbn in *. destruct ds as [|c ds]; [|done].
      cbn in E3. apply andb_true_iff in E2 as [E2 _]. unfold is_digit in E2. to_prop.
      unfold of_dec in E1. cbn in E1. assert (1 <= n / 10) by (apply Z.div_le_lower_bound; lia).
      apply negb_true_iff, Z.eqb_neq. lia.
Qed.

Lemma length_to_dec f g n :
  (0 < f)%nat -> 0 <= n < 10 ^ Z.of_nat f -> (length (to_dec (f + g) n) <= f)%nat.
Proof.
  revert n. induction f as [|f IH]; [lia|]. intros n _ Hn. rewrite Nat2Z.inj_succ, Z.pow_succ_r in Hn by lia.
  cbn [Nat.add to_dec]. destruct (Z.ltb_spec n 10); [cbn; lia|]. rewrite length_app. cbn [length].
  assert (f <> O) by (intros ->; cbn in Hn; lia).
  assert (length (to_dec (f + g) (n / 10)) <= f)%nat; [|lia].
  apply IH; [lia|]. split; [apply Z.div_pos; lia|apply Z.div_lt_upper_bound; lia].
Qed.

(** A canonical numeral is the one that is printed. *)
Lemma to_dec_of_dec fuel ds :
  (0 < fuel)%nat -> forallb is_digit ds = true -> canonical ds = true -> of_dec ds < 10 ^ Z.of_nat fuel ->
  to_dec fuel (of_dec ds) = ds.
Proof.
  revert fuel. induction ds as [|b ds IH] using rev_ind; [done|]. intros [|f]; [lia|]. intros _ E Hc Hf.
  rewrite forallb_app in E. apply andb_true_iff in E as [E1 E2]. cbn in E2. rewrite andb_true_r in E2.
  rewrite of_dec_snoc in *. pose proof (of_dec_nonneg _ E1) as Hn. pose proof E2 as E2'.
  unfold is_digit in E2'. to_prop. rewrite Nat2Z.inj_succ, Z.pow_succ_r in Hf by lia. cbn [to_dec].
  destruct ds as [|a ds].
  - unfold of_dec. cbn [fold_left app]. rewrite (proj2 (Z.ltb_lt _ _)) by lia. f_equal.
    rewrite <- (digit_of b) at 2 by done. f_equal.
  - cbn in Hc. replace (is_nil (ds ++ [b])) with false in Hc by (by destruct ds). cbn in Hc. to_prop.
    pose proof (of_dec_pos a ds E1 Hc) as Hpos. rewrite (proj2 (Z.ltb_ge _ _)) by lia.
    replace (10 * of_dec (a :: ds) + (byte_val b - 48)) with (byte_val b - 48 + of_dec (a :: ds) * 10) by lia.
    rewrite Z.div_add, Z.mod_add, Z.div_small, Z.mod_small, Z.add_0_l, digit_of by (done || lia).
    rewrite IH; [done| |done| |lia].
    + destruct f; [change (10 ^ Z.of_nat 0) with 1 in Hf|]; lia.
    + cbn. rewrite orb_true_iff. right. by apply negb_true_iff, Z.eqb_neq.
Qed.

Lemma parse_u64_to_string n : 0 <= n <= U64_MAX -> parse_u64 (u64_to_string n) = Some n.
Proof.
  intros Hn. unfold u64_to_string. destruct (to_dec_spec 20 n) as (E1 & E2 & [E3|E3]);
    [unfold U64_MAX in Hn; cbn; lia| |done].
  unfold parse_u64. destruct (to_dec 20 n) as [|b ds] eqn:Ed; [done|].
  replace (match b :: ds with x2b :: body => body | _ => b :: ds end) with (b :: ds)
    by (cbn in E2; apply andb_true_iff in E2 as [E2 _]; by destruct b).
  unfold parse_digits. rewrite E2, E1. cbn. by rewrite (proj2 (Z.leb_le _ _)) by lia.
Qed.

Lemma utf8_valid_ascii l : forallb (fun b => byte_val b <? 128) l = true -> utf8_valid l = true.
Proof. induction l as [|b l IH]; [done|]. cbn. intros E. to_prop. rewrite (proj2 (Z.ltb_lt _ _)) by done. auto. Qed.
