(* ===== verification/Bencode.v ===== *)
(** * Bencode

    crates/veil-mainline/src/bencode.rs: the encoding the Mainline DHT speaks.  The parser reads
    datagrams of strangers; the theorems say that it returns on every input, that it accepts
    exactly the canonical encodings of the values within its bounds, and so that no two inputs
    have the same meaning. *)

From S2P Require Import Prelude OMap Decimal.

Definition MAX_DEPTH : Z := 16.
Definition MAX_BYTES_LEN : Z := 64 * 1024.
Definition MAX_ITEMS : Z := 4096.

Inductive Value :=
| Int (n : Z)
| Bytes (b : list byte)
| List (items : list Value)
| Dict (map : list (list byte * Value)).

Inductive DecodeError :=
| Truncated
| Malformed
| TooBig
| NotCanonicalInt
| NotCanonicalDict
| TrailingBytes.

(** ** Decoding

    A parser is a position in its input; [None] stands for running out of the fuel that bounds the
    recursion, which [decode] provides enough of. *)

Definition Parse (A : Type) : Type := nat -> option (DecodeError + A * nat).

#[global] Instance Parse_ret : MRet Parse := fun A x at' => Some (inr (x, at')).
#[global] Instance Parse_bind : MBind Parse := fun A B f m at' =>
  match m at' with
  | Some (inr (x, at'')) => f x at''
  | Some (inl e) => Some (inl e)
  | None => None
  end.

Definition refuse {A} (e : DecodeError) : Parse A := fun _ => Some (inl e).
Definition starved {A} : Parse A := fun _ => None.
(** [self.at], [self.at += 1]. *)
Definition here : Parse nat := fun at' => Some (inr (at', at')).
Definition advance : Parse unit := fun at' => Some (inr (tt, S at')).

Section parser.
Context (input : list byte).

Definition peek : Parse byte := fun at' =>
  match input !! at' with
  | Some b => Some (inr (b, at'))
  | None => Some (inl Truncated)
  end.

(** [&self.input[a..b]] *)
Definition text (a b : nat) : list byte := take (b - a) (drop a input).

(** [while self.peek()? != b'e' { .. }] of [integer]: at most 25 turns. *)
Fixpoint integer_scan (fuel start : nat) : Parse unit :=
  match fuel with
  | O => starved
  | S fuel =>
      b ← peek;
      if bool_decide (b = x65) then mret tt
      else
        _ ← advance;
        at' ← here;
        if 24 <? Z.of_nat (at' - start) then refuse TooBig else integer_scan fuel start
  end.

Definition integer_text (digits : list byte) : DecodeError + Value :=
  if negb (utf8_valid digits) then inl Malformed
  else
    let negative := match digits with x2d :: _ => true | _ => false end in
    let body := match digits with x2d :: body => body | _ => digits end in
    if is_nil body || negb (forallb is_digit body) ||
       ((1 <? zlen body) && is_some_and (head body) (fun b => bool_decide (b = x30))) ||
       (negative && bool_decide (body = [x30]))
    then inl NotCanonicalInt
    else match parse_i64 digits with
         | Some n => inr (Int n)
         | None => inl NotCanonicalInt
         end.

Definition integer : Parse Value :=
  _ ← advance;
  start ← here;
  _ ← integer_scan 25 start;
  stop ← here;
  _ ← advance;
  match integer_text (text start stop) with
  | inl e => refuse e
  | inr v => mret v
  end.

(** The digits of a length: at most 11 turns. *)
Fixpoint bytes_scan (fuel start : nat) : Parse unit :=
  match fuel with
  | O => starved
  | S fuel =>
      b ← peek;
      if bool_decide (b = x3a) then mret tt
      else if negb (is_digit b) then refuse Malformed
      else
        _ ← advance;
        at' ← here;
        if 10 <? Z.of_nat (at' - start) then refuse TooBig else bytes_scan fuel start
  end.

Definition bytes_len (digits : list byte) : DecodeError + Z :=
  if is_nil digits ||
     ((1 <? zlen digits) && is_some_and (head digits) (fun b => bool_decide (b = x30)))
  then inl NotCanonicalInt
  else if negb (utf8_valid digits) then inl Malformed
  else match parse_u64 digits with
       | None => inl TooBig
       | Some len => if MAX_BYTES_LEN <? len then inl TooBig else inr len
       end.

(** The end of the string cannot overflow a [usize]: its length is at most [MAX_BYTES_LEN]. *)
Definition bytes : Parse (list byte) :=
  start ← here;
  _ ← bytes_scan 11 start;
  stop ← here;
  _ ← advance;
  match bytes_len (text start stop) with
  | inl e => refuse e
  | inr len => fun at' =>
      let stop := (at' + Z.to_nat len)%nat in
      if Z.of_nat stop <=? zlen input then Some (inr (text at' stop, stop)) else Some (inl Truncated)
  end.

Fixpoint value (fuel : nat) (depth : Z) : Parse Value :=
  match fuel with
  | O => starved
  | S fuel =>
      if MAX_DEPTH <? depth then refuse TooBig
      else
        b ← peek;
        if bool_decide (b = x69) then integer
        else if bool_decide (b = x6c) then
          _ ← advance; items ← list_loop fuel depth []; mret (List items)
        else if bool_decide (b = x64) then
          _ ← advance; map ← dict_loop fuel depth [] None; mret (Dict map)
        else if is_digit b then b ← bytes; mret (Bytes b)
        else refuse Malformed
  end
with list_loop (fuel : nat) (depth : Z) (items : list Value) : Parse (list Value) :=
  match fuel with
  | O => starved
  | S fuel =>
      b ← peek;
      if bool_decide (b = x65) then _ ← advance; mret items
      else if MAX_ITEMS <=? zlen items then refuse TooBig
      else v ← value fuel (depth + 1); list_loop fuel depth (items ++ [v])
  end
with dict_loop (fuel : nat) (depth : Z) (map : list (list byte * Value)) (previous : option (list byte)) :
    Parse (list (list byte * Value)) :=
  match fuel with
  | O => starved
  | S fuel =>
      b ← peek;
      if bool_decide (b = x65) then _ ← advance; mret map
      else if MAX_ITEMS <=? zlen map then refuse TooBig
      else if negb (is_digit b) then refuse Malformed
      else
        key ← bytes;
        if is_some_and previous (fun last => negb (ltb last key)) then refuse NotCanonicalDict
        else
          v ← value fuel (depth + 1);
          dict_loop fuel depth (om_insert key v map) (Some key)
  end.

Definition decode : option (DecodeError + Value) :=
  match value (2 * length input + 1) 0 0%nat with
  | None => None
  | Some (inl e) => Some (inl e)
  | Some (inr (v, at')) =>
      if bool_decide (at' = length input) then Some (inr v) else Some (inl TrailingBytes)
  end.

End parser.

(** ** Encoding *)

Definition write_bytes (b : list byte) : list byte := u64_to_string (zlen b) ++ [x3a] ++ b.

(** The bytes [write_into] appends. *)
Fixpoint write_into (v : Value) : list byte :=
  match v with
  | Int n => [x69] ++ i64_to_string n ++ [x65]
  | Bytes b => write_bytes b
  | List items => [x6c] ++ flat_map write_into items ++ [x65]
  | Dict map => [x64] ++ flat_map (fun e => write_bytes e.1 ++ write_into e.2) map ++ [x65]
  end.

Definition encode (v : Value) : list byte := write_into v.

Definition as_int (v : Value) : option Z := match v with Int n => Some n | _ => None end.
Definition as_bytes (v : Value) : option (list byte) := match v with Bytes b => Some b | _ => None end.
Definition as_list (v : Value) : option (list Value) := match v with List items => Some items | _ => None end.
Definition as_dict (v : Value) : option (list (list byte * Value)) :=
  match v with Dict map => Some map | _ => None end.

(** [Value::get]. *)
Definition get (v : Value) (key : list byte) : option Value :=
  match as_dict v with Some map => om_get key map | None => None end.

Definition dict_of (entries : list (list byte * Value)) : Value := Dict (om_collect entries).

(** ** The values of the format

    What [Value] can hold ([i64] integers, maps in key order) within the parser's bounds, for a
    value [depth] levels below the top. *)
Fixpoint value_ok (depth : Z) (v : Value) : bool :=
  (depth <=? MAX_DEPTH) &&
  match v with
  | Int n => (I64_MIN <=? n) && (n <=? I64_MAX)
  | Bytes b => zlen b <=? MAX_BYTES_LEN
  | List items => (zlen items <=? MAX_ITEMS) && forallb (value_ok (depth + 1)) items
  | Dict map =>
      (zlen map <=? MAX_ITEMS) && ascending map.*1 &&
      forallb (fun e => (zlen e.1 <=? MAX_BYTES_LEN) && value_ok (depth + 1) e.2) map
  end.

(** ** Numerals *)

Lemma head_zero (ds : list byte) :
  ds <> [] -> canonical ds =
  negb ((1 <? zlen ds) && is_some_and (head ds) (fun b => bool_decide (b = x30))).
Proof.
  destruct ds as [|b ds]; [done|]. intros _. cbn [canonical head is_some_and]. rewrite zlen_cons.
  pose proof (zlen_nonneg ds) as Hl. replace (bool_decide (b = x30)) with (byte_val b =? 48) by by destruct b.
  destruct ds as [|c ds]; [done|]. rewrite zlen_cons in *. pose proof (zlen_nonneg ds).
  rewrite (proj2 (Z.ltb_lt 1 _)) by lia. done.
Qed.

Lemma ten_pow_20 : 10 ^ Z.of_nat 20 = 100000000000000000000.
Proof. done. Qed.

Lemma u64_string n : 0 <= n <= U64_MAX ->
  of_dec (u64_to_string n) = n /\ forallb is_digit (u64_to_string n) = true /\
  canonical (u64_to_string n) = true.
Proof.
  intros Hn. destruct (to_dec_spec 20 n) as (E1 & E2 & [E3|E3]); [|done|done].
  rewrite ten_pow_20. unfold U64_MAX in Hn. lia.
Qed.

Lemma digits_no_sign (ds : list byte) :
  forallb is_digit ds = true -> head ds <> Some x2d /\ head ds <> Some x2b /\ utf8_valid ds = true.
Proof.
  intros E. assert (utf8_valid ds = true) as Hu.
  { apply utf8_valid_ascii. rewrite forallb_forall in E |- *. intros b Hb. specialize (E b Hb).
    unfold is_digit in E. to_prop. apply Z.ltb_lt. lia. }
  split_and!; [| |done]; destruct ds as [|b ds]; try done; cbn in *; apply andb_true_iff in E as [E _];
    intros [= ->]; done.
Qed.

Lemma length_nil_canonical ds : canonical ds = true -> ds <> [].
Proof. by destruct ds. Qed.

Lemma parse_u64_digits ds : forallb is_digit ds = true -> ds <> [] ->
  parse_u64 ds = if of_dec ds <=? U64_MAX then Some (of_dec ds) else None.
Proof.
  intros E Hne. unfold parse_u64.
  replace (match ds with x2b :: body => body | _ => ds end) with ds
    by (destruct (digits_no_sign ds E) as (_ & Hp & _); destruct ds as [|[] ds]; done).
  unfold parse_digits. rewrite E. by destruct ds.
Qed.

(** The length prefixes that are accepted are those that are written. *)
Lemma bytes_len_spec ds len :
  forallb is_digit ds = true ->
  bytes_len ds = inr len <-> 0 <= len <= MAX_BYTES_LEN /\ ds = u64_to_string len.
Proof.
  intros E. unfold bytes_len. split.
  - destruct ds as [|b ds0] eqn:Eds; [done|]. rewrite <- Eds in *. assert (ds <> []) as Hne by (by subst).
    replace (is_nil ds) with false by (by subst). cbn [orb].
    pose proof (head_zero ds Hne) as Hc. destruct ((1 <? zlen ds) && _); [done|]. cbn in Hc.
    destruct (digits_no_sign ds E) as (_ & _ & ->). cbn [negb]. rewrite parse_u64_digits by done.
    destruct (of_dec ds <=? U64_MAX) eqn:E1; [|done]. destruct (MAX_BYTES_LEN <? of_dec ds) eqn:E2; [done|].
    intros [= <-]. to_prop. pose proof (of_dec_nonneg ds E). split; [lia|]. unfold u64_to_string.
    rewrite to_dec_of_dec; [done|lia|done|done|rewrite ten_pow_20; unfold U64_MAX in *; lia].
  - intros [Hl ->]. unfold MAX_BYTES_LEN in *.
    destruct (u64_string len) as (E1 & E2 & E3); [unfold U64_MAX; lia|].
    pose proof (length_nil_canonical _ E3) as Hne. pose proof (head_zero _ Hne) as Hc. rewrite E3 in Hc.
    replace (is_nil (u64_to_string len)) with false by (by destruct (u64_to_string len)).
    destruct ((1 <? zlen _) && _); [done|]. cbn [orb]. destruct (digits_no_sign _ E2) as (_ & _ & ->).
    cbn [negb]. rewrite parse_u64_to_string by (unfold U64_MAX; lia). by rewrite (proj2 (Z.ltb_ge _ _)) by lia.
Qed.

(** The checks of [integer] on the digits after the sign. *)
Definition body_ok (negative : bool) (body : list byte) : bool :=
  negb (is_nil body || negb (forallb is_digit body) ||
        ((1 <? zlen body) && is_some_and (head body) (fun b => bool_decide (b = x30))) ||
        (negative && bool_decide (body = [x30]))).

Lemma body_ok_spec negative body :
  body_ok negative body = true <->
  forallb is_digit body = true /\ canonical body = true /\ (negative = true -> of_dec body <> 0).
Proof.
  unfold body_ok. rewrite negb_true_iff, !orb_false_iff, negb_false_iff. split.
  - intros [[[En Ed] Ez] E0]. assert (body <> []) as Hne by (by destruct body).
    rewrite head_zero by done. rewrite Ez. split_and!; [done|done|]. intros ->. cbn in E0.
    apply bool_decide_eq_false_1 in E0. pose proof (head_zero body Hne) as Hc. rewrite Ez in Hc.
    destruct body as [|b [|c body]]; [done| |].
    + intros Ho. apply E0. f_equal. apply byte_val_inj. unfold of_dec in Ho. cbn in Ho. change (byte_val x30) with 48. lia.
    + cbn in Hc. to_prop. pose proof (of_dec_pos b (c :: body) Ed ltac:(done)). lia.
  - intros (Ed & Ec & E0). pose proof (length_nil_canonical _ Ec) as Hne. rewrite Ed.
    rewrite head_zero in Ec by done. apply negb_true_iff in Ec. split_and!; [by destruct body|done|done|].
    destruct negative; [|done]. cbn. apply bool_decide_eq_false_2. intros ->. by apply E0.
Qed.

Lemma integer_text_sign negative body :
  body_ok negative body = true -> 
  integer_text (if negative then x2d :: body else body) =
  let n := if negative : bool then - of_dec body else of_dec body in
  if (I64_MIN <=? n) && (n <=? I64_MAX) then inr (Int n) else inl NotCanonicalInt.
Proof.
  intros Hb. pose proof Hb as (Ed & Ec & E0)%body_ok_spec. destruct (digits_no_sign body Ed) as (Hm & Hp & Hu).
  pose proof (length_nil_canonical _ Ec) as Hne. unfold integer_text, parse_i64.
  assert (parse_digits body = Some (of_dec body)) as Epd
    by (unfold parse_digits; rewrite Ed; by destruct body).
  unfold body_ok in Hb. destruct negative.
  - replace (utf8_valid (x2d :: body)) with true by (cbn; done). cbn [negb].
    apply negb_true_iff in Hb. rewrite Hb, Epd. by case_bool.
  - rewrite Hu. cbn [negb].
    replace (match body with x2d :: b => b | _ => body end) with body by (by destruct body as [|[] body]).
    replace (match body with x2d :: _ => true | _ => false end) with false by (by destruct body as [|[] body]).
    replace (match body with x2d :: b => (true, b) | x2b :: b => (false, b) | _ => (false, body) end)
      with (false, body) by (by destruct body as [|[] body]).
    apply negb_true_iff in Hb. rewrite Hb, Epd. by case_bool.
Qed.

Lemma integer_text_refused negative body :
  (negative = false -> head body <> Some x2d) -> body_ok negative body = false ->
  forall v, integer_text (if negative then x2d :: body else body) <> inr v.
Proof.
  intros Hm Hb v. unfold integer_text. unfold body_ok in Hb. apply negb_false_iff in Hb.
  destruct (utf8_valid _); [|done]. cbn [negb]. destruct negative.
  - by rewrite Hb.
  - specialize (Hm eq_refl).
    replace (match body with x2d :: b => b | _ => body end) with body by (by destruct body as [|[] body]).
    replace (match body with x2d :: _ => true | _ => false end) with false by (by destruct body as [|[] body]).
    by rewrite Hb.
Qed.

Lemma i64_string n : I64_MIN <= n <= I64_MAX ->
  exists negative body, i64_to_string n = (if negative : bool then x2d :: body else body) /\
  body_ok negative body = true /\ n = (if negative then - of_dec body else of_dec body).
Proof.
  intros Hn. unfold I64_MIN, I64_MAX in *. unfold i64_to_string. destruct (Z.ltb_spec n 0).
  - destruct (u64_string (- n)) as (E1 & E2 & E3); [unfold U64_MAX; lia|].
    exists true, (u64_to_string (- n)). rewrite body_ok_spec, E1. split_and!; try done; lia.
  - destruct (u64_string n) as (E1 & E2 & E3); [unfold U64_MAX; lia|].
    exists false, (u64_to_string n). rewrite body_ok_spec, E1. split_and!; try done; lia.
Qed.

(** The integers that are accepted are those that are written. *)
Lemma integer_text_spec ds v :
  integer_text ds = inr v <-> exists n, v = Int n /\ I64_MIN <= n <= I64_MAX /\ ds = i64_to_string n.
Proof.
  split.
  - intros E. assert (exists negative body, ds = (if negative : bool then x2d :: body else body) /\
      (negative = false -> head body <> Some x2d)) as (negative & body & -> & Hm).
    { destruct ds as [|b ds]; [by exists false, []|]. destruct (decide (b = x2d)) as [->|Hb].
      - by exists true, ds.
      - exists false, (b :: ds). split; [done|]. cbn. congruence. }
    destruct (body_ok negative body) eqn:Hb; [|by destruct (integer_text_refused _ _ Hm Hb v E)].
    rewrite integer_text_sign in E by done. cbv zeta in E. destruct (_ && _) eqn:Hr; [|done]. injection E as <-. to_prop.
    eexists. split; [done|]. split; [lia|]. apply body_ok_spec in Hb as (Ed & Ec & E0).
    pose proof (of_dec_nonneg _ Ed). unfold i64_to_string, I64_MIN, I64_MAX in *. destruct negative.
    + specialize (E0 eq_refl). rewrite (proj2 (Z.ltb_lt _ _)), Z.opp_involutive by lia. f_equal.
      rewrite to_dec_of_dec; [done|lia|done|done|rewrite ten_pow_20; lia].
    + rewrite (proj2 (Z.ltb_ge _ _)) by lia. rewrite to_dec_of_dec; [done|lia|done|done|rewrite ten_pow_20; lia].
  - intros (n & -> & Hn & ->). destruct (i64_string n Hn) as (negative & body & -> & Hb & ->).
    rewrite integer_text_sign by done. cbv zeta.
    rewrite (proj2 (Z.leb_le I64_MIN _)), (proj2 (Z.leb_le _ I64_MAX)) by lia. done.
Qed.

(** ** Reading *)

Section reading.
Context (input : list byte).

(** The bytes [w] stand between two positions. *)
Definition reads (a : nat) (w : list byte) (b : nat) : Prop := drop a input = w ++ drop b input.

Lemma reads_nil a : reads a [] a.
Proof. done. Qed.

Lemma reads_app a w1 b w2 c : reads a w1 b -> reads b w2 c -> reads a (w1 ++ w2) c.
Proof. unfold reads. intros -> ->. by rewrite app_assoc. Qed.

Lemma drop_cons_lookup a x t : drop a input = x :: t -> input !! a = Some x /\ drop (S a) input = t.
Proof.
  intros E. split.
  - rewrite <- (Nat.add_0_r a), <- lookup_drop, E. done.
  - rewrite <- Nat.add_1_r, <- drop_drop, E. done.
Qed.

Lemma reads_one a x : input !! a = Some x -> reads a [x] (S a).
Proof. intros E. unfold reads. by rewrite (drop_S _ _ _ E). Qed.

Lemma reads_len a w b : reads a w b -> (length input - a = length w + (length input - b))%nat.
Proof. intros E. apply (f_equal length) in E. rewrite length_app, !length_drop in E. lia. Qed.

(** What follows a position begins with [w]. *)
Lemma reads_prefix a w rest : drop a input = w ++ rest -> reads a w (a + length w).
Proof. intros E. unfold reads. rewrite <- drop_drop, E, drop_app_length. done. Qed.

Lemma text_prefix a w rest : drop a input = w ++ rest -> text input a (a + length w) = w.
Proof. intros E. unfold text. rewrite E. rewrite take_app_length' by lia. done. Qed.

Lemma reads_text a b : (a <= b)%nat -> reads a (text input a b) b.
Proof.
  intros Hle. unfold reads, text. rewrite <- (take_drop (b - a) (drop a input)) at 1. f_equal.
  rewrite drop_drop. f_equal. lia.
Qed.

Lemma text_snoc a b x : (a <= b)%nat -> input !! b = Some x -> text input a (S b) = text input a b ++ [x].
Proof.
  intros Hle E. unfold text. replace (S b - a)%nat with (S (b - a)) by lia.
  apply take_S_r. rewrite lookup_drop. rewrite <- E. f_equal. lia.
Qed.

Lemma text_nil a : text input a a = [].
Proof. unfold text. by rewrite Nat.sub_diag. Qed.

Lemma bind_inr {A B} (m : Parse A) (f : A -> Parse B) a y c :
  (m ≫= f) a = Some (inr (y, c)) -> exists x b, m a = Some (inr (x, b)) /\ f x b = Some (inr (y, c)).
Proof. unfold mbind, Parse_bind. destruct (m a) as [[e|[x b]]|]; [done| |done]. by eauto. Qed.

Lemma bind_run {A B} (m : Parse A) (f : A -> Parse B) a x b :
  m a = Some (inr (x, b)) -> (m ≫= f) a = f x b.
Proof. intros E. unfold mbind, Parse_bind. by rewrite E. Qed.

Lemma bind_some {A B} (m : Parse A) (f : A -> Parse B) a :
  m a <> None -> (forall x b, m a = Some (inr (x, b)) -> f x b <> None) -> (m ≫= f) a <> None.
Proof. intros Hm Hf. unfold mbind, Parse_bind. destruct (m a) as [[e|[x b]]|]; [done| |done]. by apply Hf. Qed.

Lemma peek_inr a x b : peek input a = Some (inr (x, b)) <-> b = a /\ input !! a = Some x.
Proof. unfold peek. destruct (input !! a) as [y|]; split; [intros [= -> ->]|intros [-> [= ->]]| |intros [_ ?]]; done. Qed.

Lemma peek_run {B} (f : byte -> Parse B) a x : input !! a = Some x -> (peek input ≫= f) a = f x a.
Proof. intros E. apply bind_run, peek_inr. done. Qed.

Lemma peek_some a : peek input a <> None.
Proof. unfold peek. by destruct (input !! a). Qed.

Lemma advance_run {B} (f : unit -> Parse B) a : (advance ≫= f) a = f tt (S a).
Proof. done. Qed.

Lemma here_run {B} (f : nat -> Parse B) a : (here ≫= f) a = f a a.
Proof. done. Qed.

(** *** Integers *)

Lemma integer_scan_inv fuel start a b :
  (start <= a)%nat -> integer_scan input fuel start a = Some (inr (tt, b)) ->
  (a <= b)%nat /\ input !! b = Some x65.
Proof.
  revert a. induction fuel as [|fuel IH]; [done|]. intros a Hle E. cbn [integer_scan] in E.
  apply bind_inr in E as (x & a' & Hp & E). apply peek_inr in Hp as [-> Hx].
  case_bool_decide as Hx'; [injection E as ->; by subst|].
  rewrite advance_run, here_run in E. case_bool; [done|]. apply IH in E as [? ?]; [|lia]. split; [lia|done].
Qed.

Lemma integer_scan_run fuel start a ds rest :
  drop a input = ds ++ x65 :: rest -> Forall (fun b => b <> x65) ds ->
  (start <= a)%nat -> Z.of_nat (a - start) + zlen ds <= 24 -> (length ds < fuel)%nat ->
  integer_scan input fuel start a = Some (inr (tt, a + length ds)%nat).
Proof.
  revert fuel a. induction ds as [|x ds IH]; intros [|fuel] a E Hne Hle Hl Hf; cbn in Hf; try lia.
  - cbn [integer_scan]. apply drop_cons_lookup in E as [E _]. rewrite (peek_run _ _ _ E).
    rewrite bool_decide_eq_true_2 by done. cbn. by rewrite Nat.add_0_r.
  - cbn [integer_scan]. apply drop_cons_lookup in E as [E E']. rewrite (peek_run _ _ _ E).
    apply Forall_cons in Hne as [Hx Hne]. rewrite bool_decide_eq_false_2 by done.
    rewrite advance_run, here_run. rewrite zlen_cons in Hl.
    pose proof (zlen_nonneg ds). rewrite (proj2 (Z.ltb_ge _ _)) by lia.
    replace (a + length (x :: ds))%nat with (S a + length ds)%nat by (cbn; lia). apply IH; done || lia.
Qed.

Lemma integer_scan_some fuel start a :
  (start <= a)%nat -> 25 <= Z.of_nat (a - start) + Z.of_nat fuel -> (0 < fuel)%nat ->
  integer_scan input fuel start a <> None.
Proof.
  revert a. induction fuel as [|fuel IH]; [lia|]. intros a Hle Hf _. cbn [integer_scan].
  apply bind_some; [apply peek_some|]. intros x b Hp. apply peek_inr in Hp as [-> _]. case_bool_decide; [done|].
  rewrite advance_run, here_run. destruct (Z.ltb_spec 24 (Z.of_nat (S a - start))); [done|]. apply IH; lia.
Qed.

Lemma integer_inv a v b :
  input !! a = Some x69 -> integer input a = Some (inr (v, b)) ->
  exists n, v = Int n /\ I64_MIN <= n <= I64_MAX /\ reads a (write_into (Int n)) b.
Proof.
  intros Ha E. unfold integer in E. rewrite advance_run, here_run in E.
  apply bind_inr in E as ([] & stop & Hs & E). rewrite here_run, advance_run in E.
  apply integer_scan_inv in Hs as [Hle Hx]; [|lia].
  destruct (integer_text (text input (S a) stop)) as [e|w] eqn:Et; [done|]. injection E as <- <-.
  apply integer_text_spec in Et as (n & -> & Hn & Et). exists n. split_and!; try done; try lia.
  cbn [write_into]. rewrite <- Et. eapply reads_app; [by apply reads_one|].
  eapply reads_app; [by apply reads_text|]. by apply reads_one.
Qed.

Lemma i64_string_chars n : I64_MIN <= n <= I64_MAX ->
  Forall (fun b => b <> x65) (i64_to_string n) /\ zlen (i64_to_string n) <= 24.
Proof.
  intros Hn. assert (forall f m, (length (to_dec f m) <= f)%nat) as Hlen.
  { induction f as [|f IH]; intros m; cbn; [lia|]. destruct (m <? 10); cbn; [lia|].
    rewrite length_app. cbn. specialize (IH (m / 10)). lia. }
  assert (forall m, forallb is_digit (u64_to_string m) = true -> Forall (fun b => b <> x65) (u64_to_string m)) as Hd.
  { intros m E. apply Forall_forall. intros b Hb ->. rewrite forallb_forall in E.
    apply list_elem_of_In in Hb. by specialize (E _ Hb). }
  unfold i64_to_string, I64_MIN, I64_MAX in *. destruct (Z.ltb_spec n 0).
  - destruct (u64_string (- n)) as (_ & E & _); [unfold U64_MAX; lia|]. rewrite zlen_cons. unfold zlen.
    specialize (Hlen 20%nat (- n)). split; [|lia]. constructor; [done|]. by apply Hd.
  - destruct (u64_string n) as (_ & E & _); [unfold U64_MAX; lia|]. unfold zlen.
    specialize (Hlen 20%nat n). split; [|lia]. by apply Hd.
Qed.

Lemma integer_run a n rest :
  I64_MIN <= n <= I64_MAX -> drop a input = write_into (Int n) ++ rest ->
  integer input a = Some (inr (Int n, a + length (write_into (Int n)))%nat).
Proof.
  intros Hn E. cbn [write_into] in *. destruct (i64_string_chars n Hn) as [Hne Hl].
  set (ds := i64_to_string n) in *.
  replace (([x69] ++ ds ++ [x65]) ++ rest) with (x69 :: ds ++ x65 :: rest) in E
    by (cbn; by rewrite <- app_assoc).
  apply drop_cons_lookup in E as [_ E]. unfold integer. rewrite advance_run, here_run.
  erewrite bind_run by (eapply integer_scan_run; [exact E|done|lia| |]; unfold zlen in *; lia).
  rewrite here_run, advance_run. rewrite (text_prefix _ _ _ E).
  rewrite (proj2 (integer_text_spec ds (Int n))) by eauto.
  unfold mret, Parse_ret. do 3 f_equal. cbn. rewrite length_app. cbn. lia.
Qed.

Lemma integer_some a : integer input a <> None.
Proof.
  unfold integer. rewrite advance_run, here_run. apply bind_some; [apply integer_scan_some; lia|].
  intros x b _. rewrite here_run, advance_run. by destruct (integer_text _).
Qed.

(** *** Byte strings *)

Lemma bytes_scan_inv fuel start a b :
  (start <= a)%nat -> forallb is_digit (text input start a) = true ->
  bytes_scan input fuel start a = Some (inr (tt, b)) ->
  (a <= b)%nat /\ input !! b = Some x3a /\ forallb is_digit (text input start b) = true.
Proof.
  revert a. induction fuel as [|fuel IH]; [done|]. intros a Hle Hd E. cbn [bytes_scan] in E.
  apply bind_inr in E as (x & a' & Hp & E). apply peek_inr in Hp as [-> Hx].
  case_bool_decide as Hx'; [injection E as ->; by subst|].
  destruct (is_digit x) eqn:Ex; [|done]. cbn [negb] in E. rewrite advance_run, here_run in E.
  case_bool; [done|]. apply IH in E as (? & ? & ?); [split_and!; [lia|done|done]|lia|].
  rewrite (text_snoc _ _ x) by done. rewrite forallb_app, Hd. cbn. by rewrite Ex.
Qed.

Lemma bytes_scan_run fuel start a ds rest :
  drop a input = ds ++ x3a :: rest -> forallb is_digit ds = true ->
  (start <= a)%nat -> Z.of_nat (a - start) + zlen ds <= 10 -> (length ds < fuel)%nat ->
  bytes_scan input fuel start a = Some (inr (tt, a + length ds)%nat).
Proof.
  revert fuel a. induction ds as [|x ds IH]; intros [|fuel] a E Hne Hle Hl Hf; cbn in Hf; try lia.
  - cbn [bytes_scan]. apply drop_cons_lookup in E as [E _]. rewrite (peek_run _ _ _ E).
    rewrite bool_decide_eq_true_2 by done. cbn. by rewrite Nat.add_0_r.
  - cbn [bytes_scan]. apply drop_cons_lookup in E as [E E']. rewrite (peek_run _ _ _ E).
    cbn in Hne. apply andb_true_iff in Hne as [Hx Hne].
    rewrite bool_decide_eq_false_2, Hx by (intros ->; done). cbn [negb].
    rewrite advance_run, here_run. rewrite zlen_cons in Hl.
    pose proof (zlen_nonneg ds). rewrite (proj2 (Z.ltb_ge _ _)) by lia.
    replace (a + length (x :: ds))%nat with (S a + length ds)%nat by (cbn; lia). apply IH; done || lia.
Qed.

Lemma bytes_scan_some fuel start a :
  (start <= a)%nat -> 11 <= Z.of_nat (a - start) + Z.of_nat fuel -> (0 < fuel)%nat ->
  bytes_scan input fuel start a <> None.
Proof.
  revert a. induction fuel as [|fuel IH]; [lia|]. intros a Hle Hf _. cbn [bytes_scan].
  apply bind_some; [apply peek_some|]. intros x b Hp. apply peek_inr in Hp as [-> _]. case_bool_decide; [done|].
  destruct (negb (is_digit x)); [done|].
  rewrite advance_run, here_run. destruct (Z.ltb_spec 10 (Z.of_nat (S a - start))); [done|]. apply IH; lia.
Qed.

Lemma bytes_inv a s b :
  bytes input a = Some (inr (s, b)) -> zlen s <= MAX_BYTES_LEN /\ reads a (write_bytes s) b.
Proof.
  intros E. unfold bytes in E. rewrite here_run in E. apply bind_inr in E as ([] & stop & Hs & E).
  rewrite here_run, advance_run in E.
  apply bytes_scan_inv in Hs as (Hle & Hx & Hd); [|lia|by rewrite text_nil].
  destruct (bytes_len (text input a stop)) as [e|len] eqn:El; [done|].
  apply bytes_len_spec in El as [Hl El]; [|done]. cbv zeta in E.
  destruct (Z.leb_spec (Z.of_nat (S stop + Z.to_nat len)) (zlen input)) as [Hin|]; [|done].
  injection E as <- <-. set (t := text _ _ _).
  assert (zlen t = len) as Ht.
  { subst t. unfold text, zlen in *. rewrite length_take, length_drop. lia. }
  split; [lia|]. unfold write_bytes. rewrite Ht, <- El.
  eapply reads_app; [by apply reads_text|]. eapply reads_app; [by apply reads_one|]. apply reads_text. lia.
Qed.

Lemma u64_string_len n : 0 <= n <= MAX_BYTES_LEN -> zlen (u64_to_string n) <= 10.
Proof.
  intros Hn. unfold MAX_BYTES_LEN in Hn. unfold zlen, u64_to_string.
  pose proof (length_to_dec 10 10 n ltac:(lia) ltac:(cbn; lia)). cbn [Nat.add] in *. lia.
Qed.

Lemma bytes_run a s rest :
  zlen s <= MAX_BYTES_LEN -> drop a input = write_bytes s ++ rest ->
  bytes input a = Some (inr (s, a + length (write_bytes s)))%nat.
Proof.
  intros Hl E. unfold write_bytes in *. pose proof (zlen_nonneg s) as H0.
  pose proof (u64_string_len (zlen s) ltac:(lia)) as Hds.
  assert (forallb is_digit (u64_to_string (zlen s)) = true) as Hd
    by (apply u64_string; unfold MAX_BYTES_LEN, U64_MAX in *; lia).
  pose proof (proj2 (bytes_len_spec _ (zlen s) Hd) ltac:(split; [lia|done])) as El.
  set (ds := u64_to_string (zlen s)) in *.
  replace ((ds ++ [x3a] ++ s) ++ rest) with (ds ++ x3a :: s ++ rest) in E
    by (rewrite <- !app_assoc; done).
  unfold bytes. rewrite here_run.
  erewrite bind_run by (eapply bytes_scan_run; [exact E|done|lia| |]; unfold zlen in *; lia).
  rewrite here_run, advance_run, (text_prefix _ _ _ E), El. cbv zeta.
  pose proof (reads_prefix _ _ _ E) as Hr. unfold reads in Hr. rewrite Hr in E. apply app_inv_head in E.
  apply drop_cons_lookup in E as [Hc E]. apply lookup_lt_Some in Hc.
  replace (S (a + length ds) + Z.to_nat (zlen s))%nat with (S (a + length ds) + length s)%nat
    by (unfold zlen; lia).
  assert (Z.of_nat (S (a + length ds) + length s) <= zlen input) as Hin.
  { apply (f_equal length) in E. rewrite length_drop, length_app in E. unfold zlen. lia. }
  rewrite (proj2 (Z.leb_le _ _) Hin), (text_prefix _ _ _ E). do 3 f_equal. rewrite !length_app. cbn. lia.
Qed.

Lemma bytes_some a : bytes input a <> None.
Proof.
  unfold bytes. rewrite here_run. apply bind_some; [apply bytes_scan_some; lia|].
  intros x b _. rewrite here_run, advance_run. destruct (bytes_len _); [done|]. cbv zeta. by case_bool.
Qed.

(** *** Values *)

Lemma value_depth depth v : value_ok depth v = true -> depth <= MAX_DEPTH.
Proof. destruct v; cbn; intros E; apply andb_true_iff in E as [E _]; by to_prop. Qed.

Lemma last_key {V} (m : list (list byte * V)) k v : last (m ++ [(k, v)]).*1 = Some k.
Proof. rewrite fmap_app. simpl. by rewrite last_snoc. Qed.

Lemma last_below {V} (m : list (list byte * V)) k :
  om_sorted m -> is_some_and (last m.*1) (fun last => negb (ltb last k)) = false ->
  Forall (fun e => cmp e.1 k = Lt) m.
Proof.
  destruct m as [|[k' v'] m _] using rev_ind; [constructor|]. intros Hs. apply om_sorted_app in Hs as [Hs Hf].
  rewrite last_key. cbn. intros E%negb_false_iff%ltb_lt. apply Forall_app. split; [|by repeat constructor].
  eapply Forall_impl; [exact Hf|]. intros e He. cbn in *. by eapply cmp_trans.
Qed.

Lemma below_last {V} (m : list (list byte * V)) k :
  Forall (fun e => cmp e.1 k = Lt) m -> is_some_and (last m.*1) (fun last => negb (ltb last k)) = false.
Proof.
  destruct m as [|[k' v'] m _] using rev_ind; [done|]. intros [_ E]%Forall_app. apply Forall_cons in E as [E _].
  rewrite last_key. cbn. apply negb_false_iff, ltb_lt. exact E.
Qed.

Definition value_sound (fuel : nat) : Prop := forall depth a v b,
  value input fuel depth a = Some (inr (v, b)) -> value_ok depth v = true /\ reads a (write_into v) b.

Definition list_sound (fuel : nat) : Prop := forall depth items a items' b,
  list_loop input fuel depth items a = Some (inr (items', b)) -> zlen items <= MAX_ITEMS ->
  exists new, items' = items ++ new /\ zlen items' <= MAX_ITEMS /\
    forallb (value_ok (depth + 1)) new = true /\ reads a (flat_map write_into new ++ [x65]) b.

Definition entry_ok (depth : Z) (e : list byte * Value) : bool :=
  (zlen e.1 <=? MAX_BYTES_LEN) && value_ok depth e.2.
Definition write_entry (e : list byte * Value) : list byte := write_bytes e.1 ++ write_into e.2.

Definition dict_sound (fuel : nat) : Prop := forall depth map a map' b,
  dict_loop input fuel depth map (last map.*1) a = Some (inr (map', b)) ->
  zlen map <= MAX_ITEMS -> om_sorted map ->
  exists new, map' = map ++ new /\ zlen map' <= MAX_ITEMS /\ om_sorted map' /\
    forallb (entry_ok (depth + 1)) new = true /\ reads a (flat_map write_entry new ++ [x65]) b.

Lemma list_sound_step fuel : value_sound fuel -> list_sound fuel -> list_sound (S fuel).
Proof.
  intros IHv IHl depth items a items' b E Hl. cbn [list_loop] in E.
  apply bind_inr in E as (x & a' & Hp & E). apply peek_inr in Hp as [-> Hx]. case_bool_decide as Hx'.
  - rewrite advance_run in E. injection E as <- <-. exists []. rewrite app_nil_r. split_and!; try done.
    cbn. apply reads_one. by subst.
  - destruct (Z.leb_spec MAX_ITEMS (zlen items)); [done|].
    apply bind_inr in E as (v & a1 & Hv & E). apply IHv in Hv as [Hok Hr].
    apply IHl in E as (new & -> & Hn & Hf & Hr2); [rewrite zlen_app, zlen_cons, zlen_nil; lia|].
    exists (v :: new). rewrite <- app_assoc in *. split_and!; [done|done|cbn; by rewrite Hok|].
    cbn [flat_map]. rewrite <- app_assoc. by eapply reads_app.
Qed.

Lemma dict_sound_step fuel : value_sound fuel -> dict_sound fuel -> dict_sound (S fuel).
Proof.
  intros IHv IHd depth map a map' b E Hl Hs. cbn [dict_loop] in E.
  apply bind_inr in E as (x & a' & Hp & E). apply peek_inr in Hp as [-> Hx]. case_bool_decide as Hx'.
  - rewrite advance_run in E. injection E as <- <-. exists []. rewrite app_nil_r. split_and!; try done.
    cbn. apply reads_one. by subst.
  - destruct (Z.leb_spec MAX_ITEMS (zlen map)); [done|]. destruct (negb (is_digit x)); [done|].
    apply bind_inr in E as (key & a1 & Hk & E). apply bytes_inv in Hk as [Hkl Hkr].
    destruct (is_some_and (last map.*1) _) eqn:Ep; [done|]. pose proof (last_below _ _ Hs Ep) as Hf.
    apply bind_inr in E as (v & a2 & Hv & E). apply IHv in Hv as [Hok Hr]. rewrite om_insert_last in E by done.
    replace (Some key) with (last (map ++ [(key, v)]).*1) in E by apply last_key.
    apply IHd in E as (new & -> & Hn & Hs' & Hf' & Hr2);
      [rewrite zlen_app, zlen_cons, zlen_nil; lia|by apply om_sorted_app|].
    exists ((key, v) :: new). rewrite <- app_assoc in *. split_and!; [done|done|done| |].
    + cbn. unfold entry_ok at 1. cbn. by rewrite (proj2 (Z.leb_le _ _) Hkl), Hok.
    + cbn [flat_map]. unfold write_entry at 1. cbn [fst snd]. rewrite <- !app_assoc.
      eapply reads_app; [done|]. by eapply reads_app.
Qed.

Lemma value_sound_step fuel : list_sound fuel -> dict_sound fuel -> value_sound (S fuel).
Proof.
  intros IHl IHd depth a v b E. cbn [value] in E.
  destruct (Z.ltb_spec MAX_DEPTH depth) as [|Hd]; [done|]. apply Z.leb_le in Hd.
  apply bind_inr in E as (x & a' & Hp & E). apply peek_inr in Hp as [-> Hx].
  case_bool_decide as H1; [|case_bool_decide as H2; [|case_bool_decide as H3; [|destruct (is_digit x) eqn:H4; [|done]]]].
  - subst x. apply integer_inv in E as (n & -> & Hn & Hr); [|done]. split; [|done]. cbn [value_ok]. rewrite Hd.
    rewrite (proj2 (Z.leb_le I64_MIN _)), (proj2 (Z.leb_le _ I64_MAX)) by lia. done.
  - subst x. rewrite advance_run in E. apply bind_inr in E as (items & a1 & El & E). injection E as <- <-.
    destruct (IHl _ _ _ _ _ El) as (new & -> & Hn & Hf & Hr); [rewrite zlen_nil; unfold MAX_ITEMS; lia|]. cbn [app value_ok write_into] in Hn |- *. rewrite Hd, Hf.
    rewrite (proj2 (Z.leb_le _ _) Hn). split; [done|]. exact (reads_app _ [x6c] _ _ _ (reads_one _ _ Hx) Hr).
  - subst x. rewrite advance_run in E. apply bind_inr in E as (map & a1 & El & E). injection E as <- <-.
    destruct (IHd _ [] _ _ _ El) as (new & -> & Hn & Hs & Hf & Hr); [rewrite zlen_nil; unfold MAX_ITEMS; lia|constructor|].
    cbn [app value_ok write_into] in Hn, Hs |- *. rewrite Hd. unfold entry_ok in Hf. rewrite Hf.
    rewrite (proj2 (Z.leb_le _ _) Hn), (proj2 (ascending_sorted _) Hs).
    split; [done|]. exact (reads_app _ [x64] _ _ _ (reads_one _ _ Hx) Hr).
  - apply bind_inr in E as (s & a1 & Es & E). injection E as <- <-. apply bytes_inv in Es as [Hl Hr].
    split; [|done]. cbn. by rewrite Hd, (proj2 (Z.leb_le _ _) Hl).
Qed.

Lemma parse_sound fuel : value_sound fuel /\ list_sound fuel /\ dict_sound fuel.
Proof.
  induction fuel as [|fuel (IHv & IHl & IHd)]; [by split_and!|].
  split_and!; [by apply value_sound_step|by apply list_sound_step|by apply dict_sound_step].
Qed.

(** *** Every encoding is read *)

Fixpoint Value_nested_ind (P : Value -> Prop) (Hi : forall n, P (Int n)) (Hb : forall s, P (Bytes s))
    (Hl : forall items, Forall P items -> P (List items))
    (Hd : forall map, Forall (fun e => P e.2) map -> P (Dict map)) (v : Value) : P v :=
  let ind := Value_nested_ind P Hi Hb Hl Hd in
  match v with
  | Int n => Hi n
  | Bytes s => Hb s
  | List items => Hl items ((fix go l : Forall P l :=
      match l with [] => Forall_nil_2 P | x :: l => Forall_cons_2 P x l (ind x) (go l) end) items)
  | Dict map => Hd map ((fix go l : Forall (fun e => P e.2) l :=
      match l with [] => Forall_nil_2 _ | x :: l => Forall_cons_2 _ x l (ind x.2) (go l) end) map)
  end.

Lemma bytes_first s : zlen s <= MAX_BYTES_LEN -> exists b t, write_bytes s = b :: t /\ is_digit b = true.
Proof.
  intros Hl. pose proof (zlen_nonneg s). unfold write_bytes.
  destruct (u64_string (zlen s)) as (_ & Hd & Hc); [unfold MAX_BYTES_LEN, U64_MAX in *; lia|].
  destruct (u64_to_string (zlen s)) as [|b ds]; [done|]. cbn in Hd. apply andb_true_iff in Hd as [Hd _].
  by exists b, (ds ++ [x3a] ++ s).
Qed.

Lemma value_first depth v : value_ok depth v = true -> exists b t, write_into v = b :: t /\ b <> x65.
Proof.
  destruct v as [n|s|items|map]; try by (intros _; eexists _, _). cbn [value_ok write_into]. intros E. to_prop.
  destruct (bytes_first s) as (b & t & -> & Hb); [done|]. exists b, t. split; [done|]. by intros ->.
Qed.

Definition value_complete (v : Value) : Prop := forall depth fuel a rest,
  value_ok depth v = true -> drop a input = write_into v ++ rest -> (2 * length (write_into v) < fuel)%nat ->
  value input fuel depth a = Some (inr (v, a + length (write_into v)))%nat.

Lemma list_complete items : Forall value_complete items -> forall depth fuel acc a rest,
  forallb (value_ok (depth + 1)) items = true -> zlen acc + zlen items <= MAX_ITEMS ->
  drop a input = (flat_map write_into items ++ [x65]) ++ rest ->
  (2 * length (flat_map write_into items) + 2 <= fuel)%nat ->
  list_loop input fuel depth acc a = Some (inr (acc ++ items, a + length (flat_map write_into items ++ [x65])))%nat.
Proof.
  induction 1 as [|v items Hv _ IH]; intros depth fuel acc a rest Hok Hl E Hf; (destruct fuel as [|fuel]; [lia|]).
  - cbn [list_loop]. cbn in E. apply drop_cons_lookup in E as [E _]. rewrite (peek_run _ _ _ E).
    rewrite bool_decide_eq_true_2 by done. rewrite advance_run, app_nil_r. cbn. by rewrite Nat.add_1_r.
  - cbn in Hok. apply andb_true_iff in Hok as [Hok Hoks]. cbn [flat_map] in *. rewrite length_app in Hf.
    rewrite <- !app_assoc in E. rewrite zlen_cons in Hl. pose proof (zlen_nonneg items).
    destruct (value_first _ _ Hok) as (b & t & Ew & Hb). assert (1 <= length (write_into v))%nat by (rewrite Ew; cbn; lia).
    assert (input !! a = Some b) as Ea by (rewrite Ew in E; by apply drop_cons_lookup in E as [? _]).
    cbn [list_loop]. rewrite (peek_run _ _ _ Ea), bool_decide_eq_false_2 by done.
    rewrite (proj2 (Z.leb_gt _ _)) by lia.
    rewrite (bind_run _ _ _ _ _ (Hv (depth + 1) fuel a _ Hok E ltac:(lia))).
    pose proof (reads_prefix _ _ _ E) as Hr. unfold reads in Hr. rewrite Hr in E. apply app_inv_head in E.
    rewrite app_assoc in E. rewrite (IH depth fuel (acc ++ [v]) _ rest Hoks) by (done || rewrite ?zlen_app, ?zlen_cons, ?zlen_nil; lia).
    rewrite <- app_assoc. do 3 f_equal. rewrite !length_app. lia.
Qed.

Lemma dict_complete map : Forall (fun e => value_complete e.2) map -> forall depth fuel acc a rest,
  forallb (entry_ok (depth + 1)) map = true -> zlen acc + zlen map <= MAX_ITEMS -> om_sorted (acc ++ map) ->
  drop a input = (flat_map write_entry map ++ [x65]) ++ rest ->
  (2 * length (flat_map write_entry map) + 2 <= fuel)%nat ->
  dict_loop input fuel depth acc (last acc.*1) a =
    Some (inr (acc ++ map, a + length (flat_map write_entry map ++ [x65])))%nat.
Proof.
  induction 1 as [|[k v] map Hv _ IH]; intros depth fuel acc a rest Hok Hl Hs E Hf; (destruct fuel as [|fuel]; [lia|]).
  - cbn [dict_loop]. cbn in E. apply drop_cons_lookup in E as [E _]. rewrite (peek_run _ _ _ E).
    rewrite bool_decide_eq_true_2 by done. rewrite advance_run, app_nil_r. cbn. by rewrite Nat.add_1_r.
  - cbn in Hok. apply andb_true_iff in Hok as [Hok Hoks]. unfold entry_ok in Hok. cbn in Hok, Hv. to_prop.
    cbn [flat_map] in *. unfold write_entry at 1 in E. unfold write_entry at 1 in Hf. unfold write_entry at 1.
    cbn [fst snd] in *. rewrite !length_app in Hf. rewrite <- !app_assoc in E.
    rewrite zlen_cons in Hl. pose proof (zlen_nonneg map).
    destruct (bytes_first k ltac:(done)) as (b & t & Ew & Hb).
    assert (1 <= length (write_bytes k))%nat by (rewrite Ew; cbn; lia).
    assert (input !! a = Some b) as Ea by (rewrite Ew in E; by apply drop_cons_lookup in E as [? _]).
    cbn [dict_loop]. rewrite (peek_run _ _ _ Ea), bool_decide_eq_false_2, Hb by (intros ->; done). cbn [negb].
    rewrite (proj2 (Z.leb_gt _ _)) by lia. rewrite (bind_run _ _ _ _ _ (bytes_run a k _ ltac:(done) E)).
    replace (acc ++ (k, v) :: map) with ((acc ++ [(k, v)]) ++ map) in * by (by rewrite <- app_assoc).
    pose proof (om_sorted_prefix _ _ Hs) as [_ Hlt]%om_sorted_app. rewrite below_last by done.
    pose proof (reads_prefix _ _ _ E) as Hr. unfold reads in Hr. rewrite Hr in E. apply app_inv_head in E. clear Hr.
    rewrite (bind_run _ _ _ _ _ (Hv (depth + 1) fuel _ _ ltac:(done) E ltac:(lia))).
    pose proof (reads_prefix _ _ _ E) as Hr. unfold reads in Hr. rewrite Hr in E. apply app_inv_head in E. clear Hr.
    rewrite app_assoc in E. rewrite om_insert_last, <- (last_key acc k v) by done.
    rewrite (IH depth fuel (acc ++ [(k, v)]) _ rest Hoks)
      by (done || rewrite ?zlen_app, ?zlen_cons, ?zlen_nil; lia).
    do 3 f_equal. rewrite !length_app. lia.
Qed.

Lemma value_completes v : value_complete v.
Proof.
  induction v as [n|s|items IH|map IH] using Value_nested_ind; intros depth fuel a rest Hok E Hf;
    (destruct fuel as [|fuel]; [lia|]); pose proof (value_depth _ _ Hok) as Hd; cbn [value];
    rewrite (proj2 (Z.ltb_ge _ _) Hd); clear Hd; cbn [value_ok] in Hok; apply andb_true_iff in Hok as [_ Hok].
  - assert (input !! a = Some x69) as Ea by (by apply drop_cons_lookup in E as [? _]).
    rewrite (peek_run _ _ _ Ea), bool_decide_eq_true_2 by done. eapply integer_run; [|exact E]. to_prop. lia.
  - to_prop. destruct (bytes_first s Hok) as (b & t & Ew & Hb). cbn [write_into] in *.
    assert (input !! a = Some b) as Ea by (rewrite Ew in E; by apply drop_cons_lookup in E as [? _]).
    rewrite (peek_run _ _ _ Ea), !bool_decide_eq_false_2, Hb by (by intros ->).
    by rewrite (bind_run _ _ _ _ _ (bytes_run a s _ Hok E)).
  - apply andb_true_iff in Hok as [Hl Hok]. apply Z.leb_le in Hl. cbn [write_into] in *.
    change (([x6c] ++ ?w) ++ rest) with (x6c :: (w ++ rest)) in E. apply drop_cons_lookup in E as [Ea E].
    rewrite (peek_run _ _ _ Ea), bool_decide_eq_false_2, bool_decide_eq_true_2, advance_run by done.
    cbn [app length] in Hf. rewrite length_app in Hf. cbn [length] in Hf.
    erewrite bind_run by (eapply (list_complete items IH depth fuel [] (S a) rest); [done|by rewrite zlen_nil|done|lia]).
    cbn [app]. unfold mret, Parse_ret. do 3 f_equal. cbn. lia.
  - apply andb_true_iff in Hok as [Hok He]. apply andb_true_iff in Hok as [Hl Ha]. apply Z.leb_le in Hl.
    cbn [write_into] in *. fold write_entry in E, Hf |- *.
    change (([x64] ++ ?w) ++ rest) with (x64 :: (w ++ rest)) in E. apply drop_cons_lookup in E as [Ea E].
    rewrite (peek_run _ _ _ Ea), !bool_decide_eq_false_2, bool_decide_eq_true_2, advance_run by done.
    cbn [app length] in Hf. rewrite length_app in Hf. cbn [length] in Hf. apply ascending_sorted in Ha.
    erewrite bind_run by (eapply (dict_complete map IH depth fuel [] (S a) rest); [done|by rewrite zlen_nil|done|done|lia]).
    cbn [app]. unfold mret, Parse_ret. do 3 f_equal. cbn. lia.
Qed.

(** *** Every input is answered *)

Lemma value_shorter fuel depth a v b :
  value input fuel depth a = Some (inr (v, b)) -> (length input - b < length input - a)%nat.
Proof.
  intros E. apply parse_sound in E as [Hok Hr]. apply reads_len in Hr.
  destruct (value_first _ _ Hok) as (x & t & Ew & _). rewrite Ew in Hr. cbn in Hr. lia.
Qed.

Lemma peek_bound a x : input !! a = Some x -> (length input - S a < length input - a)%nat.
Proof. intros E. apply lookup_lt_Some in E. lia. Qed.

Lemma parse_total fuel :
  (forall depth a, (2 * (length input - a) < fuel)%nat -> value input fuel depth a <> None) /\
  (forall depth items a, (2 * (length input - a) + 1 < fuel)%nat -> list_loop input fuel depth items a <> None) /\
  (forall depth map prev a, (2 * (length input - a) + 1 < fuel)%nat ->
    dict_loop input fuel depth map prev a <> None).
Proof.
  induction fuel as [|fuel (IHv & IHl & IHd)]; [split_and!; intros; lia|]. split_and!.
  - intros depth a Hf. cbn [value]. case_bool; [done|]. apply bind_some; [apply peek_some|].
    intros x b [-> Hx%peek_bound]%peek_inr. repeat case_bool_decide; [apply integer_some| | |].
    + rewrite advance_run. apply bind_some; [|done]. apply IHl. lia.
    + rewrite advance_run. apply bind_some; [|done]. apply IHd. lia.
    + destruct (is_digit x); [|done]. apply bind_some; [apply bytes_some|done].
  - intros depth items a Hf. cbn [list_loop]. apply bind_some; [apply peek_some|].
    intros x b [-> Hx%peek_bound]%peek_inr. case_bool_decide; [done|]. case_bool; [done|].
    apply bind_some; [apply IHv; lia|]. intros v b Hv%value_shorter. apply IHl. lia.
  - intros depth map prev a Hf. cbn [dict_loop]. apply bind_some; [apply peek_some|].
    intros x b [-> Hx%peek_bound]%peek_inr. case_bool_decide; [done|]. case_bool; [done|]. case_bool; [done|].
    apply bind_some; [apply bytes_some|]. intros key b [_ Hk%reads_len]%bytes_inv. case_bool; [done|].
    apply bind_some; [apply IHv; lia|]. intros v b' Hv%value_shorter. apply IHd. lia.
Qed.

Lemma decode_inr v : decode input = Some (inr v) <-> value_ok 0 v = true /\ input = encode v.
Proof.
  unfold decode, encode. split.
  - destruct (value _ _ _ _) as [[e|[w b]]|] eqn:E; [done| |done]. case_bool_decide as Hb; [|done].
    intros [= ->]. apply parse_sound in E as [Hok Hr]. split; [done|]. unfold reads in Hr.
    by rewrite Hb, drop_all, app_nil_r in Hr.
  - intros [Hok E]. assert (drop 0 input = write_into v ++ []) as Ed by (by rewrite app_nil_r).
    assert (2 * length (write_into v) < 2 * length input + 1)%nat as Hf by (rewrite <- E; lia).
    rewrite (value_completes v 0 (2 * length input + 1)%nat 0%nat [] Hok Ed Hf), <- E. by rewrite bool_decide_eq_true_2.
Qed.

End reading.

(** C29. The decoder accepts exactly the canonical encodings: it returns a value if and only if the
    value is within the bounds (64-bit integers, nesting, string lengths, item counts, ascending
    keys) and the input is its encoding, to the last byte.  So decoding what was encoded gives the
    value back, re-encoding what was decoded gives the bytes back, and no two inputs have one
    meaning. *)
Theorem bencode_exact (input : list byte) (v : Value) :
  decode input = Some (inr v) <-> value_ok 0 v = true /\ input = encode v.
Proof. apply decode_inr. Qed.

(** The parser returns on every input: the fuel of the model, twice the length of the datagram,
    is never exhausted, whatever bytes a stranger sends. *)
Theorem bencode_terminates (input : list byte) : exists r, decode input = Some r.
Proof.
  unfold decode. destruct (value _ _ _ _) as [[e|[v b]]|] eqn:E; [by eauto|case_bool_decide; by eauto|].
  destruct (parse_total input (2 * length input + 1)) as (Hv & _ & _). by destruct (Hv 0 0%nat ltac:(lia)).
Qed.
