(* ===== verification/Inet.v ===== *)
(** * Internet addresses

    The addresses of std::net as the program uses them, and
    crates/veil-mainline/src/endpoint.rs: which of them name a host inside somebody's network. *)

From S2P Require Import Prelude OMap.

(** An IPv4 address is its four octets, an IPv6 address its sixteen. *)
Inductive IpAddr :=
| IpV4 (octets : list byte)
| IpV6 (octets : list byte).

(** [V6] carries the flow label and the scope beside address and port. *)
Inductive SocketAddr :=
| V4 (octets : list byte) (port : Z)
| V6 (octets : list byte) (port flowinfo scope_id : Z).

Definition ip (a : SocketAddr) : IpAddr :=
  match a with V4 o _ => IpV4 o | V6 o _ _ _ => IpV6 o end.
Definition port (a : SocketAddr) : Z :=
  match a with V4 _ p => p | V6 _ p _ _ => p end.

#[global] Instance IpAddr_eq_dec : EqDecision IpAddr.
Proof. solve_decision. Defined.
#[global] Instance SocketAddr_eq_dec : EqDecision SocketAddr.
Proof. solve_decision. Defined.

(** The derived order: every IPv4 address before every IPv6 one, then field by field. *)
#[global] Instance SocketAddr_ord : Ord SocketAddr := fun a b =>
  match a, b with
  | V4 o p, V4 o' p' => cmp (o, p) (o', p')
  | V4 _ _, V6 _ _ _ _ => Lt
  | V6 _ _ _ _, V4 _ _ => Gt
  | V6 o p f s, V6 o' p' f' s' => cmp (o, (p, (f, s))) (o', (p', (f', s')))
  end.

#[global] Instance SocketAddr_ord_laws : OrdLaws SocketAddr.
Proof.
  constructor.
  - intros [] []; unfold cmp, SocketAddr_ord; [|done|done|]; rewrite cmp_eq; split; congruence.
  - intros [] []; unfold cmp, SocketAddr_ord; [|done|done|]; apply cmp_antisym.
  - intros [] [] []; unfold cmp, SocketAddr_ord; try done; apply cmp_trans.
Qed.

(** ** The predicates of [Ipv4Addr] and [Ipv6Addr] *)

Definition octet (o : list byte) (i : nat) : Z := from_option byte_val 0 (o !! i).
(** [segments()[i]] *)
Definition segment (o : list byte) (i : nat) : Z := 256 * octet o (2 * i) + octet o (2 * i + 1).
Definition segments (o : list byte) (n : nat) : list Z := segment o <$> seq 0 n.

Module v4.
Definition is_loopback (o : list byte) : bool := octet o 0 =? 127.
Definition is_private (o : list byte) : bool :=
  (octet o 0 =? 10) || ((octet o 0 =? 172) && (16 <=? octet o 1) && (octet o 1 <=? 31)) ||
  ((octet o 0 =? 192) && (octet o 1 =? 168)).
Definition is_link_local (o : list byte) : bool := (octet o 0 =? 169) && (octet o 1 =? 254).
Definition is_unspecified (o : list byte) : bool := bool_decide (o = [x00; x00; x00; x00]).
Definition is_broadcast (o : list byte) : bool := bool_decide (o = [xff; xff; xff; xff]).
Definition is_multicast (o : list byte) : bool := (224 <=? octet o 0) && (octet o 0 <=? 239).
End v4.

Module v6.
Definition is_loopback (o : list byte) : bool := bool_decide (o = repeat x00 15 ++ [x01]).
Definition is_unspecified (o : list byte) : bool := bool_decide (o = repeat x00 16).
Definition is_multicast (o : list byte) : bool := octet o 0 =? 255.
(** [::ffff:a.b.c.d] as [a.b.c.d]. *)
Definition to_ipv4_mapped (o : list byte) : option (list byte) :=
  if bool_decide (take 12 o = repeat x00 10 ++ [xff; xff]) then Some (drop 12 o) else None.
End v6.

(** [IpAddr::is_unspecified]. *)
Definition is_unspecified (a : IpAddr) : bool :=
  match a with IpV4 o => v4.is_unspecified o | IpV6 o => v6.is_unspecified o end.

(** ** endpoint.rs *)

Definition normalize (a : IpAddr) : IpAddr :=
  match a with
  | IpV4 _ => a
  | IpV6 o =>
      match v6.to_ipv4_mapped o with
      | Some o4 => IpV4 o4
      | None =>
          if bool_decide (segments o 6 = [0; 0; 0; 0; 0; 0]) && negb (segment o 6 =? 0)
          then IpV4 (be_bytes 4 (Z.lor (Z.shiftl (segment o 6) 16) (segment o 7)))
          else a
      end
  end.

Definition is_internal_v4 (o : list byte) : bool :=
  v4.is_loopback o || v4.is_private o || v4.is_link_local o || v4.is_unspecified o ||
  v4.is_broadcast o || v4.is_multicast o ||
  ((octet o 0 =? 100) && ((64 <=? octet o 1) && (octet o 1 <? 128))) ||
  (octet o 0 =? 0) || (240 <=? octet o 0).

Definition is_internal_v6 (o : list byte) : bool :=
  v6.is_loopback o || v6.is_unspecified o || v6.is_multicast o ||
  (Z.land (segment o 0) 65024 =? 64512) ||
  (Z.land (segment o 0) 65472 =? 65152) ||
  bool_decide (segments o 4 = [100; 65435; 0; 0]).

Definition is_internal (a : IpAddr) : bool :=
  match normalize a with
  | IpV4 o => is_internal_v4 o
  | IpV6 o => is_internal_v6 o
  end.

(** ** The types of the fields *)

Definition addr_ok (a : SocketAddr) : bool :=
  match a with
  | V4 o p => bool_decide (length o = 4%nat) && (0 <=? p) && (p <? M16)
  | V6 o p f s => bool_decide (length o = 16%nat) && (0 <=? p) && (p <? M16)
  end.

(** ** Blocks *)

(** A block in CIDR notation: its first address and the length of its prefix. *)
Definition in_block (n : Z) (block : Z * Z) : bool :=
  n / 2 ^ (32 - block.2) =? block.1 / 2 ^ (32 - block.2).

(** 0/8, 10/8, 100.64/10, 127/8, 169.254/16, 172.16/12, 192.168/16 and 224/3. *)
Definition internal_blocks : list (Z * Z) :=
  [(from_be [x00; x00; x00; x00], 8); (from_be [x0a; x00; x00; x00], 8);
   (from_be [x64; x40; x00; x00], 10); (from_be [x7f; x00; x00; x00], 8);
   (from_be [xa9; xfe; x00; x00], 16); (from_be [xac; x10; x00; x00], 12);
   (from_be [xc0; xa8; x00; x00], 16); (from_be [xe0; x00; x00; x00], 3)].

Lemma from_be_quad a b c d :
  from_be [a; b; c; d] = 16777216 * byte_val a + 65536 * byte_val b + 256 * byte_val c + byte_val d.
Proof. unfold from_be. cbn -[Z.mul Z.add byte_val]. unfold zlen. cbn -[Z.mul Z.add byte_val]. lia. Qed.

Lemma quad (o : list byte) : length o = 4%nat -> exists a b c d, o = [a; b; c; d].
Proof. destruct o as [|a [|b [|c [|d [|]]]]]; try done. by eauto. Qed.

(** The prefixes of an address, in terms of its octets. *)
Lemma quad_prefixes (a b c d : Z) :
  0 <= a < 256 -> 0 <= b < 256 -> 0 <= c < 256 -> 0 <= d < 256 ->
  let n := 16777216 * a + 65536 * b + 256 * c + d in
  n / 2 ^ (32 - 8) = a /\ n / 2 ^ (32 - 16) = 256 * a + b /\ n / 2 ^ (32 - 10) = 4 * a + b / 64 /\
  n / 2 ^ (32 - 12) = 16 * a + b / 16 /\ n / 2 ^ (32 - 3) = a / 32.
Proof.
  intros Ha Hb Hc Hd n. subst n.
  change (2 ^ (32 - 8)) with 16777216. change (2 ^ (32 - 16)) with 65536. change (2 ^ (32 - 10)) with 4194304.
  change (2 ^ (32 - 12)) with 1048576. change (2 ^ (32 - 3)) with 536870912.
  split_and!; mlia.
Qed.

Lemma internal_v4_blocks o : length o = 4%nat ->
  is_internal_v4 o = existsb (in_block (from_be o)) internal_blocks.
Proof.
  intros (a & b & c & d & ->)%quad. apply eq_iff_eq_true. rewrite from_be_quad.
  let l := eval vm_compute in internal_blocks in change internal_blocks with l.
  cbn [existsb]. unfold in_block. cbn [fst snd].
  pose proof (byte_val_range a). pose proof (byte_val_range b). pose proof (byte_val_range c).
  pose proof (byte_val_range d).
  destruct (quad_prefixes (byte_val a) (byte_val b) (byte_val c) (byte_val d)) as (-> & -> & -> & -> & ->); try lia.
  repeat match goal with |- context [Zpos ?p / ?q] =>
    let r := eval vm_compute in (Zpos p / q) in change (Zpos p / q) with r end.
  unfold is_internal_v4, v4.is_loopback, v4.is_private, v4.is_link_local, v4.is_unspecified, v4.is_broadcast,
    v4.is_multicast, octet. cbn [lookup list_lookup from_option].
  assert (bool_decide ([a; b; c; d] = [x00; x00; x00; x00]) = true -> byte_val a = 0) as Hu
    by (intros [= -> -> -> ->]%bool_decide_eq_true_1; done).
  assert (bool_decide ([a; b; c; d] = [xff; xff; xff; xff]) = true -> byte_val a = 255) as Hf
    by (intros [= -> -> -> ->]%bool_decide_eq_true_1; done).
  set (bu := bool_decide (_ = [x00; _; _; _])) in *. set (bf := bool_decide (_ = [xff; _; _; _])) in *.
  clearbody bu bf. generalize dependent (byte_val a). generalize dependent (byte_val b). intros y Hy x Hx Hu Hf.
  rewrite !orb_true_iff, !andb_true_iff, !Z.eqb_eq, !Z.leb_le, !Z.ltb_lt.
  split; intros; destruct bu, bf; mlia.
Qed.

Lemma lor_shiftl x y n : 0 <= n -> 0 <= y < 2 ^ n -> Z.lor (Z.shiftl x n) y = x * 2 ^ n + y.
Proof.
  intros Hn Hy. rewrite <- Z.shiftl_mul_pow2 by done.
  assert (Z.land (Z.shiftl x n) y = 0) as E; [|pose proof (Z.add_lor_land (Z.shiftl x n) y); lia].
  apply Z.bits_inj'. intros i Hi. rewrite Z.land_spec, Z.bits_0. destruct (Z.ltb_spec i n).
  - by rewrite Z.shiftl_spec_low.
  - rewrite <- (Z.mod_small y (2 ^ n)) by done. by rewrite Z.mod_pow2_bits_high, andb_false_r by lia.
Qed.

Lemma normalize_mapped o : normalize (IpV6 (repeat x00 10 ++ [xff; xff] ++ o)) = IpV4 o.
Proof.
  unfold normalize, v6.to_ipv4_mapped. rewrite app_assoc, take_app_length', drop_app_length' by done.
  by rewrite bool_decide_eq_true_2.
Qed.

Lemma normalize_compatible a b c d :
  normalize (IpV6 (repeat x00 12 ++ [a; b; c; d])) =
  if (byte_val a =? 0) && (byte_val b =? 0) then IpV6 (repeat x00 12 ++ [a; b; c; d]) else IpV4 [a; b; c; d].
Proof.
  set (o := repeat x00 12 ++ [a; b; c; d]). unfold normalize.
  change (v6.to_ipv4_mapped o) with (@None (list byte)). change (segments o 6) with [0; 0; 0; 0; 0; 0].
  rewrite bool_decide_eq_true_2 by done. cbn [andb].
  change (segment o 6) with (256 * byte_val a + byte_val b). change (segment o 7) with (256 * byte_val c + byte_val d).
  pose proof (byte_val_range a). pose proof (byte_val_range b). pose proof (byte_val_range c).
  pose proof (byte_val_range d).
  destruct ((byte_val a =? 0) && (byte_val b =? 0)) eqn:E.
  - to_prop. rewrite H3, H4. done.
  - apply andb_false_iff in E. rewrite (proj2 (Z.eqb_neq _ _)) by (destruct E; to_prop; lia). cbn [negb].
    rewrite lor_shiftl by (change (2 ^ 16) with 65536; lia). f_equal. change (2 ^ 16) with 65536.
    transitivity (be_bytes (length [a; b; c; d]) (from_be [a; b; c; d])); [|apply be_bytes_from_be].
    rewrite from_be_quad. f_equal. lia.
Qed.

(** [is_internal] refuses exactly the private, local and reserved IPv4 blocks, and an address
    cannot step around it by being written as an IPv6 one: mapped (::ffff:a.b.c.d) it has the same
    verdict, and so has the deprecated form ::a.b.c.d, except for 0.0.c.d, which is refused as an
    IPv4 address and accepted as ::c.d unless it is :: or ::1. *)
Theorem internal_exact (a b c d : byte) :
  let o := [a; b; c; d] in
  is_internal (IpV4 o) = existsb (in_block (from_be o)) internal_blocks /\
  is_internal (IpV6 (repeat x00 10 ++ [xff; xff] ++ o)) = is_internal (IpV4 o) /\
  (from_be [a; b] <> 0 -> is_internal (IpV6 (repeat x00 12 ++ o)) = is_internal (IpV4 o)) /\
  (from_be [a; b] = 0 -> 1 < from_be [c; d] ->
   is_internal (IpV6 (repeat x00 12 ++ o)) = false /\ is_internal (IpV4 o) = true).
Proof.
  cbv zeta. unfold is_internal. rewrite normalize_mapped, normalize_compatible. cbn [normalize].
  assert (forall x y, from_be [x; y] = 256 * byte_val x + byte_val y) as Hpair
    by (intros; unfold from_be, zlen; cbn -[Z.mul Z.add byte_val]; lia).
  rewrite !Hpair.
  pose proof (byte_val_range a). pose proof (byte_val_range b). pose proof (byte_val_range c).
  pose proof (byte_val_range d). split_and!; [by apply internal_v4_blocks|done| |].
  - intros Hne. destruct ((byte_val a =? 0) && (byte_val b =? 0)) eqn:E; [to_prop; lia|done].
  - intros E1 E2. assert (a = x00) as -> by (apply byte_val_inj; change (byte_val x00) with 0; lia).
    assert (b = x00) as -> by (apply byte_val_inj; change (byte_val x00) with 0; lia).
    split; [|unfold is_internal_v4; rewrite orb_true_iff; left; rewrite orb_true_iff; by right].
    change ((byte_val x00 =? 0) && (byte_val x00 =? 0)) with true. cbv iota.
    unfold is_internal_v6. change (segment _ 0) with 0. change (segments _ 4) with [0; 0; 0; 0].
    unfold v6.is_loopback, v6.is_unspecified, v6.is_multicast. change (octet _ 0) with 0.
    rewrite !bool_decide_eq_false_2; [done|done| |].
    + intros [= -> ->]. cbn in E2. lia.
    + intros [= -> ->]. cbn in E2. lia.
Qed.

Lemma internal_exact_witness :
  let o := [x00; x00; x01; x01] in
  is_internal (IpV6 (repeat x00 12 ++ o)) = false /\ is_internal (IpV4 o) = true.
Proof. apply (internal_exact x00 x00 x01 x01); vm_compute; reflexivity. Defined.
