(* ===== verification/Krpc.v ===== *)
(** * KRPC

    crates/veil-mainline/src/krpc.rs: the queries, responses and errors of BEP 5 and BEP 32 over
    bencode. *)

From Stdlib Require Import Strings.String.
From S2P Require Import Prelude OMap Decimal Bencode Inet.
#[local] Open Scope Z_scope.
#[local] Open Scope list_scope.

(** [b".."] *)
Definition b (s : string) : list byte := list_byte_of_string s.

(** [NodeId([u8; 20])] *)
Abbreviation NodeId := (list byte) (only parsing).

(** [NodeId::distance]. *)
Definition distance (x y : NodeId) : list byte :=
  zip_with (fun a c => byte_of (Z.lxor (byte_val a) (byte_val c))) x y.

Definition COMPACT_NODE_LEN : Z := 26.
Definition COMPACT_PEER_LEN : Z := 6.
Definition COMPACT_NODE6_LEN : Z := 38.
Definition COMPACT_PEER6_LEN : Z := 18.

Record NodeInfo := mkNodeInfo {
  id : NodeId;
  addr : SocketAddr
}.

Inductive Query :=
| Ping (id : NodeId)
| FindNode (id target : NodeId) (want_both : bool)
| GetPeers (id info_hash : NodeId) (want_both : bool)
| AnnouncePeer (id info_hash : NodeId) (port : Z) (implied_port : bool) (token : list byte).

Inductive Response :=
| Id (id : NodeId)
| Nodes (id : NodeId) (nodes : list NodeInfo)
| Peers (id : NodeId) (token : list byte) (peers : list SocketAddr) (nodes : list NodeInfo).

(** [Response::id]. *)
Definition response_id (r : Response) : NodeId :=
  match r with Id id | Nodes id _ | Peers id _ _ _ => id end.

Inductive Message :=
| MQuery (transaction : list byte) (query : Query)
| MResponse (transaction : list byte) (response : Response)
| MError (transaction : list byte) (code : Z) (message : list byte).

Inductive KrpcError :=
| NotBencode (e : DecodeError)
| NotKrpc
| BadLength
| UnknownMethod.

(** ** Results *)

Abbreviation Res A := (sum KrpcError A) (only parsing).
Definition and_then {A B} (r : Res A) (f : A -> Res B) : Res B :=
  match r with inl e => inl e | inr x => f x end.
Definition ok_or {A} (o : option A) (e : KrpcError) : Res A :=
  match o with Some x => inr x | None => inl e end.
Notation "'let?' x := r 'in' k" := (and_then r (fun x => k))
  (at level 10, x name, r at level 100, k at level 200) : veil_scope.

(** ** Compact addresses *)

Definition socket_from (six : list byte) : SocketAddr := V4 (take 4 six) (from_be (drop 4 six)).
Definition socket6_from (eighteen : list byte) : SocketAddr :=
  V6 (take 16 eighteen) (from_be (drop 16 eighteen)) 0 0.

(** [chunks_exact(n)] *)
Fixpoint chunks (fuel n : nat) (l : list byte) : list (list byte) :=
  match fuel with
  | O => []
  | S fuel => if (length l <? n)%nat then [] else take n l :: chunks fuel n (drop n l)
  end.
Definition chunks_exact (n : Z) (l : list byte) : list (list byte) := chunks (length l) (Z.to_nat n) l.

Definition parse_compact_nodes (raw : list byte) : Res (list NodeInfo) :=
  if negb (zlen raw mod COMPACT_NODE_LEN =? 0) then inl BadLength
  else inr ((fun c => mkNodeInfo (take 20 c) (socket_from (drop 20 c))) <$>
            chunks_exact COMPACT_NODE_LEN raw).

Definition parse_compact_peers (raw : list byte) : Res (list SocketAddr) :=
  if negb (zlen raw mod COMPACT_PEER_LEN =? 0) then inl BadLength
  else inr (socket_from <$> chunks_exact COMPACT_PEER_LEN raw).

Definition parse_compact_nodes6 (raw : list byte) : Res (list NodeInfo) :=
  if negb (zlen raw mod COMPACT_NODE6_LEN =? 0) then inl BadLength
  else inr ((fun c => mkNodeInfo (take 20 c) (socket6_from (drop 20 c))) <$>
            chunks_exact COMPACT_NODE6_LEN raw).

Definition parse_compact_peer_entry (raw : list byte) : Res SocketAddr :=
  if zlen raw =? COMPACT_PEER_LEN then inr (socket_from raw)
  else if zlen raw =? COMPACT_PEER6_LEN then inr (socket6_from raw)
  else inl BadLength.

Definition compact_node (node : NodeInfo) : option (list byte) :=
  match addr node with
  | V4 o p => Some (id node ++ o ++ be_bytes 2 p)
  | V6 _ _ _ _ => None
  end.

Definition compact_node6 (node : NodeInfo) : option (list byte) :=
  match addr node with
  | V6 o p _ _ => Some (id node ++ o ++ be_bytes 2 p)
  | V4 _ _ => None
  end.

Definition compact_node_strings (nodes : list NodeInfo) : list byte * list byte :=
  fold_left (fun '(v4, v6) n =>
    match compact_node n with
    | Some c => (v4 ++ c, v6)
    | None => match compact_node6 n with
              | Some c => (v4, v6 ++ c)
              | None => (v4, v6)
              end
    end) nodes ([], []).

Definition compact_peer_entry (a : SocketAddr) : list byte :=
  match a with V4 o p | V6 o p _ _ => o ++ be_bytes 2 p end.

(** ** Decoding a datagram *)

Definition node_id (v : option Value) : Res NodeId :=
  let? raw := ok_or (v ≫= as_bytes) NotKrpc in
  if bool_decide (length raw = 20%nat) then inr raw else inl BadLength.

Definition wants_both (args : Value) : bool :=
  match get args (b "want") ≫= as_list with
  | Some l =>
      let has w := existsb (fun v => bool_decide (as_bytes v = Some w)) l in
      has (b "n4") && has (b "n6")
  | None => false
  end.

(** [value.get(key).and_then(Value::as_bytes)] and [.. as_int]. *)
Definition get_bytes (v : Value) (key : string) : option (list byte) := get v (b key) ≫= as_bytes.
Definition get_int (v : Value) (key : string) : option Z := get v (b key) ≫= as_int.
Definition is_text (o : option (list byte)) (s : string) : bool := bool_decide (o = Some (b s)).

Definition decode_query (v : Value) : Res Query :=
  let? args := ok_or (get v (b "a")) NotKrpc in
  let? id := node_id (get args (b "id")) in
  let q := get_bytes v "q" in
  if is_text q "ping" then inr (Ping id)
  else if is_text q "find_node" then
    let? target := node_id (get args (b "target")) in
    inr (FindNode id target (wants_both args))
  else if is_text q "get_peers" then
    let? info_hash := node_id (get args (b "info_hash")) in
    inr (GetPeers id info_hash (wants_both args))
  else if is_text q "announce_peer" then
    let? info_hash := node_id (get args (b "info_hash")) in
    let port := Z.max (default 0 (get_int args "port")) 0 in
    let? port := (if port <? M16 then inr port else inl BadLength) in
    let implied_port := bool_decide (get_int args "implied_port" = Some 1) in
    let? token := ok_or (get_bytes args "token") NotKrpc in
    inr (AnnouncePeer id info_hash port implied_port token)
  else match q with Some _ => inl UnknownMethod | None => inl NotKrpc end.

(** The loop over a [values] list. *)
Fixpoint decode_peers (entries : list Value) : Res (list SocketAddr) :=
  match entries with
  | [] => inr []
  | entry :: entries =>
      let? raw := ok_or (as_bytes entry) NotKrpc in
      let? peer := parse_compact_peer_entry raw in
      let? peers := decode_peers entries in
      inr (peer :: peers)
  end.

Definition decode_response (v : Value) : Res Response :=
  let? r := ok_or (get v (b "r")) NotKrpc in
  let? id := node_id (get r (b "id")) in
  let? nodes := match get_bytes r "nodes" with
                | Some raw => parse_compact_nodes raw
                | None => inr []
                end in
  let? nodes := match get_bytes r "nodes6" with
                | Some raw => let? more := parse_compact_nodes6 raw in inr (nodes ++ more)
                | None => inr nodes
                end in
  let? peers := match get r (b "values") with
                | Some values => let? l := ok_or (as_list values) NotKrpc in decode_peers l
                | None => inr []
                end in
  match get_bytes r "token" with
  | Some token => inr (Peers id token peers nodes)
  | None => if negb (is_nil nodes) then inr (Nodes id nodes) else inr (Id id)
  end.

Definition decode_error (v : Value) : Res (Z * list byte) :=
  let? l := ok_or (get v (b "e") ≫= as_list) NotKrpc in
  let? code := ok_or (head l ≫= as_int) NotKrpc in
  inr (code, default [] ((l !! 1%nat) ≫= as_bytes)).

Definition decode_value (v : Value) : Res Message :=
  let? transaction := ok_or (get_bytes v "t") NotKrpc in
  let y := get_bytes v "y" in
  if is_text y "q" then let? query := decode_query v in inr (MQuery transaction query)
  else if is_text y "r" then let? r := decode_response v in inr (MResponse transaction r)
  else if is_text y "e" then
    let? e := decode_error v in inr (MError transaction e.1 e.2)
  else inl NotKrpc.

Definition decode_message (datagram : list byte) : option (Res Message) :=
  match decode datagram with
  | None => None
  | Some (inl e) => Some (inl (NotBencode e))
  | Some (inr v) => Some (decode_value v)
  end.

(** ** Encoding a message *)

Definition entry (key : string) (v : Value) : list byte * Value := (b key, v).

Definition want_list : Value := List [Bytes (b "n4"); Bytes (b "n6")].

Definition query_method (query : Query) : list byte :=
  match query with
  | Ping _ => b "ping"
  | FindNode _ _ _ => b "find_node"
  | GetPeers _ _ _ => b "get_peers"
  | AnnouncePeer _ _ _ _ _ => b "announce_peer"
  end.

Definition query_args (query : Query) : Value :=
  match query with
  | Ping id => dict_of [entry "id" (Bytes id)]
  | FindNode id target want_both =>
      if want_both : bool
      then dict_of [entry "id" (Bytes id); entry "target" (Bytes target); entry "want" want_list]
      else dict_of [entry "id" (Bytes id); entry "target" (Bytes target)]
  | GetPeers id info_hash want_both =>
      if want_both : bool
      then dict_of [entry "id" (Bytes id); entry "info_hash" (Bytes info_hash); entry "want" want_list]
      else dict_of [entry "id" (Bytes id); entry "info_hash" (Bytes info_hash)]
  | AnnouncePeer id info_hash port implied_port token =>
      dict_of [entry "id" (Bytes id); entry "implied_port" (Int (if implied_port : bool then 1 else 0));
               entry "info_hash" (Bytes info_hash); entry "port" (Int port); entry "token" (Bytes token)]
  end.

Definition response_fields (response : Response) : Value :=
  match response with
  | Id id => dict_of [entry "id" (Bytes id)]
  | Nodes id nodes =>
      let '(flat, flat6) := compact_node_strings nodes in
      if is_nil flat6 then dict_of [entry "id" (Bytes id); entry "nodes" (Bytes flat)]
      else if is_nil flat then dict_of [entry "id" (Bytes id); entry "nodes6" (Bytes flat6)]
      else dict_of [entry "id" (Bytes id); entry "nodes" (Bytes flat); entry "nodes6" (Bytes flat6)]
  | Peers id token peers nodes =>
      let values := List ((fun p => Bytes (compact_peer_entry p)) <$> peers) in
      let '(flat, flat6) := compact_node_strings nodes in
      dict_of ([entry "id" (Bytes id)] ++
               (if is_nil flat then [] else [entry "nodes" (Bytes flat)]) ++
               (if is_nil flat6 then [] else [entry "nodes6" (Bytes flat6)]) ++
               [entry "token" (Bytes token)] ++
               (if is_nil peers then [] else [entry "values" values]))
  end.

Definition message_value (message : Message) : Value :=
  match message with
  | MQuery transaction query =>
      dict_of [entry "a" (query_args query); entry "q" (Bytes (query_method query));
               entry "t" (Bytes transaction); entry "y" (Bytes (b "q"))]
  | MResponse transaction response =>
      dict_of [entry "r" (response_fields response); entry "t" (Bytes transaction);
               entry "y" (Bytes (b "r"))]
  | MError transaction code message =>
      dict_of [entry "e" (List [Int code; Bytes message]); entry "t" (Bytes transaction);
               entry "y" (Bytes (b "e"))]
  end.

Definition encode_message (message : Message) : list byte := encode (message_value message).

(** ** What a message can hold

    The widths of the fields' types, and what fits the bounds of the decoder. *)

Definition id_ok (i : NodeId) : bool := bool_decide (length i = 20%nat).
Definition bytes_ok (s : list byte) : bool := zlen s <=? MAX_BYTES_LEN.
Definition node_ok (n : NodeInfo) : bool := id_ok (id n) && addr_ok (addr n).
Definition is_v4 (n : NodeInfo) : bool := match addr n with V4 _ _ => true | V6 _ _ _ _ => false end.

Definition nodes_ok (nodes : list NodeInfo) : bool :=
  forallb node_ok nodes &&
  (COMPACT_NODE_LEN * zlen (List.filter is_v4 nodes) <=? MAX_BYTES_LEN) &&
  (COMPACT_NODE6_LEN * zlen (List.filter (fun n => negb (is_v4 n)) nodes) <=? MAX_BYTES_LEN).

Definition query_ok (q : Query) : bool :=
  match q with
  | Ping i => id_ok i
  | FindNode i t _ | GetPeers i t _ => id_ok i && id_ok t
  | AnnouncePeer i h p _ token => id_ok i && id_ok h && (0 <=? p) && (p <? M16) && bytes_ok token
  end.

Definition response_ok (r : Response) : bool :=
  match r with
  | Id i => id_ok i
  | Nodes i nodes => id_ok i && nodes_ok nodes
  | Peers i token peers nodes =>
      id_ok i && bytes_ok token && forallb addr_ok peers && (zlen peers <=? MAX_ITEMS) && nodes_ok nodes
  end.

Definition message_ok (m : Message) : bool :=
  match m with
  | MQuery t q => bytes_ok t && query_ok q
  | MResponse t r => bytes_ok t && response_ok r
  | MError t code msg => bytes_ok t && (I64_MIN <=? code) && (code <=? I64_MAX) && bytes_ok msg
  end.

(** What the compact forms do not carry: the flow label and scope of an IPv6 address, and the order
    of IPv4 nodes among IPv6 ones.  A list of no nodes is not written. *)
Definition plain (a : SocketAddr) : SocketAddr :=
  match a with V4 _ _ => a | V6 o p _ _ => V6 o p 0 0 end.
Definition plain_node (n : NodeInfo) : NodeInfo := mkNodeInfo (id n) (plain (addr n)).
Definition wire_nodes (nodes : list NodeInfo) : list NodeInfo :=
  plain_node <$> (List.filter is_v4 nodes ++ List.filter (fun n => negb (is_v4 n)) nodes).

Definition wire_message (m : Message) : Message :=
  match m with
  | MResponse t (Nodes i nodes) =>
      MResponse t (match wire_nodes nodes with [] => Id i | ns => Nodes i ns end)
  | MResponse t (Peers i token peers nodes) =>
      MResponse t (Peers i token (plain <$> peers) (wire_nodes nodes))
  | _ => m
  end.

(** ** The compact forms *)

Definition compact (n : NodeInfo) : list byte := id n ++ compact_peer_entry (addr n).

Lemma compact_node_strings_spec nodes :
  compact_node_strings nodes =
  (flat_map compact (List.filter is_v4 nodes), flat_map compact (List.filter (fun n => negb (is_v4 n)) nodes)).
Proof.
  induction nodes as [|n nodes IH] using rev_ind; [done|]. unfold compact_node_strings in *.
  rewrite fold_left_app, IH, !List.filter_app, !flat_map_app.
  destruct n as [i [o p|o p f s]]; cbn; by rewrite ?app_nil_r.
Qed.

Lemma chunks_concat n (ls : list (list byte)) fuel :
  (0 < n)%nat -> Forall (fun l => length l = n) ls -> (length ls <= fuel)%nat -> chunks fuel n (concat ls) = ls.
Proof.
  intros Hn Hall. revert fuel. induction Hall as [|l ls Hl _ IH]; intros [|fuel] Hf; cbn [chunks concat length] in *; try done.
  - by rewrite (proj2 (Nat.ltb_lt _ _) Hn).
  - lia.
  - rewrite length_app, (proj2 (Nat.ltb_ge _ _)) by lia.
    rewrite take_app_length', drop_app_length' by done. f_equal. apply IH. lia.
Qed.

Lemma chunks_exact_concat n (ls : list (list byte)) :
  0 < n -> Forall (fun l => zlen l = n) ls ->
  zlen (concat ls) = n * zlen ls /\ chunks_exact n (concat ls) = ls.
Proof.
  intros Hn Hall. assert (zlen (concat ls) = n * zlen ls) as Hl.
  { induction Hall as [|l ls Hl _ IH]; cbn [concat]; [by rewrite !zlen_nil, Z.mul_0_r|]. rewrite zlen_app, zlen_cons, IH, Hl. lia. }
  split; [done|]. apply chunks_concat; [lia| |unfold zlen in *; nia].
  eapply Forall_impl; [exact Hall|]. cbn. unfold zlen. lia.
Qed.

Lemma chunks_length n fuel (l : list byte) : Forall (fun c => length c = n) (chunks fuel n l).
Proof.
  revert l. induction fuel as [|fuel IH]; intros l; cbn [chunks]; [constructor|].
  destruct (Nat.ltb_spec (length l) n); constructor; [|by apply IH]. rewrite length_take. lia.
Qed.

Lemma chunks_count n fuel (l : list byte) : (n * length (chunks fuel n l) <= length l)%nat.
Proof.
  revert l. induction fuel as [|fuel IH]; intros l; cbn [chunks]; [cbn; lia|].
  destruct (Nat.ltb_spec (length l) n); cbn [length]; [lia|]. specialize (IH (drop n l)). rewrite length_drop in IH. lia.
Qed.

Lemma port_bytes o p k : length o = k -> 0 <= p < M16 ->
  take k (o ++ be_bytes 2 p) = o /\ from_be (drop k (o ++ be_bytes 2 p)) = p.
Proof.
  intros Ho Hp. rewrite take_app_length', drop_app_length' by done. split; [done|].
  apply from_be_bytes_id. done.
Qed.

Lemma entry4 o p : addr_ok (V4 o p) = true ->
  zlen (compact_peer_entry (V4 o p)) = 6 /\ socket_from (compact_peer_entry (V4 o p)) = V4 o p.
Proof.
  cbn [addr_ok compact_peer_entry]. intros E. to_prop. apply bool_decide_eq_true_1 in H.
  rewrite zlen_app, zlen_be_bytes. unfold zlen, socket_from. rewrite H.
  by destruct (port_bytes o p 4 H ltac:(lia)) as [-> ->].
Qed.

Lemma entry6 o p f s : addr_ok (V6 o p f s) = true ->
  zlen (compact_peer_entry (V6 o p f s)) = 18 /\ socket6_from (compact_peer_entry (V6 o p f s)) = V6 o p 0 0.
Proof.
  cbn [addr_ok compact_peer_entry]. intros E. to_prop. apply bool_decide_eq_true_1 in H.
  rewrite zlen_app, zlen_be_bytes. unfold zlen, socket6_from. rewrite H.
  by destruct (port_bytes o p 16 H ltac:(lia)) as [-> ->].
Qed.

Lemma peer_entry a : addr_ok a = true -> parse_compact_peer_entry (compact_peer_entry a) = inr (plain a).
Proof.
  unfold parse_compact_peer_entry. destruct a as [o p|o p f s]; intros E.
  - by destruct (entry4 o p E) as [-> ->].
  - by destruct (entry6 o p f s E) as [-> ->].
Qed.

(** One list of nodes of a family. *)
Lemma parse_family (ns : list NodeInfo) (n : Z) (socket : list byte -> SocketAddr) :
  0 < n -> Forall (fun x => id_ok (id x) = true) ns ->
  Forall (fun x => 20 + zlen (compact_peer_entry (addr x)) = n) ns ->
  Forall (fun x => socket (compact_peer_entry (addr x)) = plain (addr x)) ns ->
  zlen (flat_map compact ns) = n * zlen ns /\
  (fun c => mkNodeInfo (take 20 c) (socket (drop 20 c))) <$> chunks_exact n (flat_map compact ns) =
    plain_node <$> ns.
Proof.
  intros Hn Hid Hlen Hsock. rewrite flat_map_concat_map.
  assert (Forall (fun l => zlen l = n) (map compact ns)) as Hall.
  { apply Forall_map. rewrite Forall_forall in Hid, Hlen |- *. intros x Hx. unfold compact. rewrite zlen_app.
    specialize (Hid x Hx). apply bool_decide_eq_true_1 in Hid. unfold zlen at 1. rewrite Hid. by apply Hlen. }
  destruct (chunks_exact_concat n (map compact ns) Hn Hall) as [-> ->].
  split; [unfold zlen; by rewrite length_map|]. change (map compact ns) with (compact <$> ns).
  rewrite <- list_fmap_compose. apply list_fmap_ext. intros i x Hx. apply list_elem_of_lookup_2 in Hx.
  rewrite Forall_forall in Hid, Hsock. specialize (Hid x Hx). apply bool_decide_eq_true_1 in Hid. unfold compose, compact.
  rewrite take_app_length', drop_app_length', Hsock by done. done.
Qed.

Lemma flat_nil n ns : 0 < n -> zlen (flat_map compact ns) = n * zlen ns ->
  is_nil (flat_map compact ns) = is_nil ns.
Proof.
  intros Hn E. destruct ns as [|x ns]; [done|]. rewrite zlen_cons in E. pose proof (zlen_nonneg ns).
  destruct (flat_map compact (x :: ns)); [rewrite zlen_nil in E; nia|done].
Qed.

Lemma elem_filter_ok (f : NodeInfo -> bool) nodes x :
  forallb node_ok nodes = true -> x ∈ List.filter f nodes ->
  f x = true /\ id_ok (id x) = true /\ addr_ok (addr x) = true.
Proof.
  rewrite forallb_forall. intros Hok Hx. apply list_elem_of_In, filter_In in Hx as [Hx Hfx].
  specialize (Hok x Hx). unfold node_ok in Hok. apply andb_true_iff in Hok. tauto.
Qed.

Lemma nodes_strings nodes : nodes_ok nodes = true ->
  let v4 := List.filter is_v4 nodes in let v6 := List.filter (fun n => negb (is_v4 n)) nodes in
  let '(flat, flat6) := compact_node_strings nodes in
  parse_compact_nodes flat = inr (plain_node <$> v4) /\ parse_compact_nodes6 flat6 = inr (plain_node <$> v6) /\
  bytes_ok flat = true /\ bytes_ok flat6 = true /\ is_nil flat = is_nil v4 /\ is_nil flat6 = is_nil v6.
Proof.
  unfold nodes_ok. intros E. apply andb_true_iff in E as [E Hl6]. apply andb_true_iff in E as [Hok Hl4].
  cbv zeta. rewrite compact_node_strings_spec.
  destruct (parse_family (List.filter is_v4 nodes) 26 socket_from) as [E4 P4]; [lia|..].
  1-3: apply Forall_forall; intros [i a] Hx; destruct (elem_filter_ok _ _ _ Hok Hx) as (Hv & Hi & Ha);
    destruct a as [o p|]; [|done]; destruct (entry4 o p Ha) as [Hz Hs]; cbn [addr];
    first [exact Hi|exact Hs|lia].
  destruct (parse_family (List.filter (fun n => negb (is_v4 n)) nodes) 38 socket6_from) as [E6 P6]; [lia|..].
  1-3: apply Forall_forall; intros [i a] Hx; destruct (elem_filter_ok _ _ _ Hok Hx) as (Hv & Hi & Ha);
    destruct a as [|o p f s]; [done|]; destruct (entry6 o p f s Ha) as [Hz Hs]; cbn [addr];
    first [exact Hi|exact Hs|lia].
  unfold parse_compact_nodes, parse_compact_nodes6, bytes_ok. unfold COMPACT_NODE_LEN, COMPACT_NODE6_LEN in *.
  pose proof (flat_nil 26 _ ltac:(lia) E4). pose proof (flat_nil 38 _ ltac:(lia) E6).
  rewrite P4, P6, E4, E6, Hl4, Hl6. rewrite !(Z.mul_comm _ (zlen _)), !Z.mod_mul by done. done.
Qed.

(** ** Round trip *)

Lemma dict_ok depth (l : list (list byte * Value)) :
  depth <= MAX_DEPTH -> zlen l <= MAX_ITEMS -> ascending l.*1 = true -> forallb (entry_ok (depth + 1)) l = true ->
  value_ok depth (Dict l) = true.
Proof.
  intros Hd Hl Ha He. cbn [value_ok]. rewrite (proj2 (Z.leb_le _ _) Hd), (proj2 (Z.leb_le _ _) Hl), Ha. exact He.
Qed.

Lemma decode_peers_entries peers : forallb addr_ok peers = true ->
  decode_peers ((fun p => Bytes (compact_peer_entry p)) <$> peers) = inr (plain <$> peers).
Proof.
  induction peers as [|p peers IH]; [done|]. cbn [forallb]. intros E. apply andb_true_iff in E as [Hp E].
  cbn. rewrite peer_entry by done. cbn. by rewrite IH.
Qed.

Lemma node_id_ok i : id_ok i = true -> node_id (Some (Bytes i)) = inr i.
Proof. intros E. unfold node_id. cbn. unfold id_ok in E. by rewrite E. Qed.

(** Read the fields of a dictionary whose keys are given. *)
Ltac read_fields :=
  cbn [and_then app is_nil];
  repeat match goal with
  | |- context [get_bytes (dict_of ?l) ?k] =>
      let r := eval vm_compute in (get_bytes (dict_of l) k) in change (get_bytes (dict_of l) k) with r
  | |- context [get_int (dict_of ?l) ?k] =>
      let r := eval vm_compute in (get_int (dict_of l) k) in change (get_int (dict_of l) k) with r
  | |- context [get (dict_of ?l) ?k] =>
      let r := eval vm_compute in (get (dict_of l) k) in change (get (dict_of l) k) with r
  end;
  rewrite ?node_id_ok by done; cbn [and_then app].

Lemma query_roundtrip v q : query_ok q = true ->
  get v (b "a") = Some (query_args q) -> get_bytes v "q" = Some (query_method q) -> decode_query v = inr q.
Proof.
  intros Hok Ea Eq. unfold decode_query. rewrite Ea, Eq. unfold ok_or, and_then at 1.
  destruct q as [i|i t w|i t w|i t p im tok]; cbn [query_ok query_args query_method] in *.
  - read_fields. done.
  - apply andb_true_iff in Hok as [Hi Ht]. destruct w; by read_fields.
  - apply andb_true_iff in Hok as [Hi Ht]. destruct w; by read_fields.
  - do 4 apply andb_true_iff in Hok as [Hok ?]. to_prop. read_fields.
    change (default 0 (Some p)) with p. rewrite Z.max_l, (proj2 (Z.ltb_lt _ _)) by lia. by destruct im.
Qed.

Lemma wire_nodes_app nodes : wire_nodes nodes =
  (plain_node <$> List.filter is_v4 nodes) ++ (plain_node <$> List.filter (fun n => negb (is_v4 n)) nodes).
Proof. unfold wire_nodes. by rewrite fmap_app. Qed.

Lemma is_nil_true {A} (l : list A) : is_nil l = true -> l = [].
Proof. by destruct l. Qed.

Lemma response_roundtrip v r : response_ok r = true ->
  get v (b "r") = Some (response_fields r) ->
  decode_response v = inr match r with
    | Id i => Id i
    | Nodes i nodes => match wire_nodes nodes with [] => Id i | ns => Nodes i ns end
    | Peers i token peers nodes => Peers i token (plain <$> peers) (wire_nodes nodes)
    end.
Proof.
  intros Hok Er. unfold decode_response. rewrite Er. cbn [ok_or and_then].
  destruct r as [i|i nodes|i token peers nodes]; cbn [response_ok response_fields] in *.
  - by read_fields.
  - apply andb_true_iff in Hok as [Hi Hn]. pose proof (nodes_strings nodes Hn) as Hs. cbv zeta in Hs.
    rewrite wire_nodes_app. destruct (compact_node_strings nodes) as [flat flat6].
    destruct Hs as (P4 & P6 & _ & _ & N4 & N6). rewrite N4, N6.
    set (n4 := List.filter is_v4 nodes) in *. set (n6 := List.filter (fun n => negb (is_v4 n)) nodes) in *. clearbody n4 n6.
    destruct (is_nil n6) eqn:E6; [|destruct (is_nil n4) eqn:E4]; cbv iota; read_fields; rewrite ?P4, ?P6;
      rewrite ?(is_nil_true _ E6), ?(is_nil_true _ E4); cbn [and_then app fmap list_fmap]; rewrite ?app_nil_r;
      match goal with |- _ = inr match ?x with [] => _ | _ => _ end => by destruct x end.
  - do 4 apply andb_true_iff in Hok as [Hok ?]. pose proof (nodes_strings nodes ltac:(done)) as Hs. cbv zeta in Hs.
    rewrite wire_nodes_app. destruct (compact_node_strings nodes) as [flat flat6].
    destruct Hs as (P4 & P6 & _ & _ & N4 & N6). rewrite N4, N6.
    set (n4 := List.filter is_v4 nodes) in *. set (n6 := List.filter (fun n => negb (is_v4 n)) nodes) in *. clearbody n4 n6.
    pose proof (decode_peers_entries peers ltac:(done)) as Hp. set (values := _ <$> peers) in *. clearbody values.
    destruct (is_nil n4) eqn:E4, (is_nil n6) eqn:E6, (is_nil peers) eqn:Ep; cbv iota; read_fields;
      rewrite ?P4, ?P6; cbn [and_then as_list ok_or]; rewrite ?Hp;
      rewrite ?(is_nil_true _ E4), ?(is_nil_true _ E6), ?(is_nil_true _ Ep); cbn [and_then app]; rewrite ?app_nil_r; done.
Qed.

Lemma dict_of_ok depth (l : list (list byte * Value)) :
  (depth <=? MAX_DEPTH) = true -> (zlen l <=? MAX_ITEMS) = true -> ascending l.*1 = true ->
  forallb (entry_ok (depth + 1)) l = true -> value_ok depth (dict_of l) = true.
Proof.
  intros Hd Hl Ha He. unfold dict_of. rewrite om_collect_sorted by (by apply ascending_sorted).
  apply dict_ok; [by apply Z.leb_le|by apply Z.leb_le|done|done].
Qed.

Lemma ok_field d k v l :
  (zlen (b k) <=? MAX_BYTES_LEN) = true -> value_ok d v = true -> forallb (entry_ok d) l = true ->
  forallb (entry_ok d) (entry k v :: l) = true.
Proof. intros Hk Hv Hl. cbn [forallb]. rewrite Hl. unfold entry_ok, entry. cbn [fst snd]. by rewrite Hk, Hv. Qed.

Lemma ok_bytes d s : (d <=? MAX_DEPTH) = true -> bytes_ok s = true -> value_ok d (Bytes s) = true.
Proof. intros Hd Hs. cbn [value_ok]. unfold bytes_ok in Hs. by rewrite Hd, Hs. Qed.

Lemma ok_int d n : (d <=? MAX_DEPTH) = true -> I64_MIN <= n <= I64_MAX -> value_ok d (Int n) = true.
Proof.
  intros Hd Hn. cbn [value_ok]. by rewrite Hd, (proj2 (Z.leb_le I64_MIN _)), (proj2 (Z.leb_le _ I64_MAX)) by lia.
Qed.

Lemma id_bytes_ok i : id_ok i = true -> bytes_ok i = true.
Proof. intros E. apply bool_decide_eq_true_1 in E. unfold bytes_ok, zlen. by rewrite E. Qed.

(** The fields of a dictionary one by one, the values of fixed text by computation. *)
Ltac fields_ok :=
  repeat first
  [ apply dict_of_ok; [reflexivity|reflexivity|reflexivity|]
  | apply ok_field; [reflexivity| |]
  | apply ok_bytes; [reflexivity|solve [assumption|apply id_bytes_ok; assumption|reflexivity]]
  | reflexivity ].

Lemma query_args_ok q : query_ok q = true -> value_ok 1 (query_args q) = true.
Proof.
  destruct q as [i|i t []|i t []|i t p im tok]; cbn [query_ok query_args]; intros E;
    repeat (apply andb_true_iff in E as [E ?]); fields_ok.
  - apply ok_int; [done|]. unfold I64_MIN, I64_MAX. destruct im; lia.
  - apply ok_int; [done|]. to_prop. unfold I64_MIN, I64_MAX. lia.
Qed.

Lemma compact_peer_ok a : addr_ok a = true -> bytes_ok (compact_peer_entry a) = true.
Proof.
  unfold bytes_ok. destruct a as [o p|o p f s]; intros E.
  - by destruct (entry4 o p E) as [-> _].
  - by destruct (entry6 o p f s E) as [-> _].
Qed.

Lemma response_fields_ok r : response_ok r = true -> value_ok 1 (response_fields r) = true.
Proof.
  destruct r as [i|i nodes|i token peers nodes]; cbn [response_ok response_fields]; intros E.
  - fields_ok.
  - apply andb_true_iff in E as [Hi Hn]. pose proof (nodes_strings nodes Hn) as Hs. cbv zeta in Hs.
    destruct (compact_node_strings nodes) as [flat flat6]. destruct Hs as (_ & _ & B4 & B6 & _ & _).
    destruct (is_nil flat6), (is_nil flat); fields_ok.
  - do 4 apply andb_true_iff in E as [E ?]. pose proof (nodes_strings nodes ltac:(done)) as Hs. cbv zeta in Hs.
    destruct (compact_node_strings nodes) as [flat flat6]. destruct Hs as (_ & _ & B4 & B6 & _ & _).
    assert (value_ok 2 (List ((fun p => Bytes (compact_peer_entry p)) <$> peers)) = true) as Hv.
    { cbn [value_ok]. replace (zlen (_ <$> peers)) with (zlen peers) by (unfold zlen; by rewrite length_fmap).
      rewrite H0. cbn. apply forallb_forall. intros v Hv. apply list_elem_of_In, list_elem_of_fmap in Hv as (p & -> & Hp).
      apply list_elem_of_In in Hp. rewrite forallb_forall in H1. apply ok_bytes; [done|by apply compact_peer_ok, H1]. }
    set (values := List _) in *. clearbody values.
    destruct (is_nil flat6), (is_nil flat), (is_nil peers); cbn [app]; fields_ok; done.
Qed.

Lemma message_value_ok m : message_ok m = true -> value_ok 0 (message_value m) = true.
Proof.
  destruct m as [t q|t r|t code msg]; cbn [message_ok message_value]; intros E;
    repeat (apply andb_true_iff in E as [E ?]); fields_ok.
  - by apply query_args_ok.
  - by destruct q.
  - by apply response_fields_ok.
  - transitivity (value_ok 2 (Int code) && (value_ok 2 (Bytes msg) && true)); [reflexivity|].
    by rewrite ok_bytes, ok_int by (done || (to_prop; lia)).
Qed.

(** Whatever message this node can hold within the bounds, sending and receiving it gives the
    message back: transaction, method, identifiers, token, port, both families of nodes and peers.
    What the compact forms do not carry is spelled out by [wire_message]: IPv4 nodes come before
    IPv6 ones, flow labels are cleared, and an empty node list reads as a bare identifier. *)
Theorem krpc_roundtrip (m : Message) (Hok : message_ok m = true) :
  decode_message (encode_message m) = Some (inr (wire_message m)).
Proof.
  unfold decode_message, encode_message.
  rewrite (proj2 (decode_inr _ (message_value m))) by (split; [by apply message_value_ok|done]).
  f_equal. unfold decode_value. destruct m as [t q|t r|t code msg]; cbn [message_value message_ok] in *.
  - apply andb_true_iff in Hok as [_ Hq]. read_fields. rewrite (query_roundtrip _ q) by done. done.
  - apply andb_true_iff in Hok as [_ Hr]. read_fields. rewrite (response_roundtrip _ r) by done. by destruct r.
  - done.
Qed.

(** ** What is received *)

Lemma get_ok d v k w : value_ok d v = true -> get v k = Some w -> value_ok (d + 1) w = true.
Proof.
  unfold get. destruct v as [| | |map]; cbn [as_dict]; try done. cbn [value_ok]. intros E Hg.
  apply andb_true_iff in E as [_ E]. apply andb_true_iff in E as [_ E]. rewrite forallb_forall in E.
  apply om_get_elem, list_elem_of_In in Hg. specialize (E _ Hg). apply andb_true_iff in E as [_ E]. exact E.
Qed.

Lemma get_bytes_ok d v k s : value_ok d v = true -> get_bytes v k = Some s -> bytes_ok s = true.
Proof.
  unfold get_bytes. destruct (get v (b k)) as [w|] eqn:Eg; [|done]. intros Hv E. cbn in E.
  pose proof (get_ok _ _ _ _ Hv Eg) as Hw. destruct w as [|s'| |]; try done. injection E as ->.
  cbn [value_ok] in Hw. apply andb_true_iff in Hw as [_ Hw]. exact Hw.
Qed.

Lemma get_int_ok d v k n : value_ok d v = true -> get_int v k = Some n -> I64_MIN <= n <= I64_MAX.
Proof.
  unfold get_int. destruct (get v (b k)) as [w|] eqn:Eg; [|done]. intros Hv E. cbn in E.
  pose proof (get_ok _ _ _ _ Hv Eg) as Hw. destruct w; try done. injection E as ->.
  cbn [value_ok] in Hw. to_prop. lia.
Qed.

Lemma and_then_inr {A B} (r : Res A) (f : A -> Res B) y :
  and_then r f = inr y -> exists x, r = inr x /\ f x = inr y.
Proof. destruct r as [e|x]; [done|]. by eauto. Qed.

Lemma ok_or_inr {A} (o : option A) e x : ok_or o e = inr x -> o = Some x.
Proof. destruct o; [|done]. by intros [= ->]. Qed.

Lemma node_id_inr o i : node_id o = inr i -> id_ok i = true.
Proof.
  unfold node_id. intros (raw & _ & E)%and_then_inr. unfold id_ok. case_bool_decide as Hl; [|done].
  injection E as <-. by apply bool_decide_eq_true_2.
Qed.

Lemma two_bytes l : length l = 2%nat -> 0 <= from_be l < M16.
Proof. intros E. pose proof (from_be_range l). unfold zlen in *. rewrite E in *. done. Qed.

Lemma socket_from_ok c : length c = 6%nat -> addr_ok (socket_from c) = true.
Proof.
  intros E. unfold socket_from. cbn [addr_ok]. pose proof (two_bytes (drop 4 c)) as Hp.
  rewrite length_drop, E in Hp. specialize (Hp eq_refl).
  rewrite bool_decide_eq_true_2 by (rewrite length_take, E; done).
  by rewrite (proj2 (Z.leb_le _ _)), (proj2 (Z.ltb_lt _ _)) by lia.
Qed.

Lemma socket6_from_ok c : length c = 18%nat -> addr_ok (socket6_from c) = true.
Proof.
  intros E. unfold socket6_from. cbn [addr_ok]. pose proof (two_bytes (drop 16 c)) as Hp.
  rewrite length_drop, E in Hp. specialize (Hp eq_refl).
  rewrite bool_decide_eq_true_2 by (rewrite length_take, E; done).
  by rewrite (proj2 (Z.leb_le _ _)), (proj2 (Z.ltb_lt _ _)) by lia.
Qed.

Lemma peer_entry_inr raw a : parse_compact_peer_entry raw = inr a -> addr_ok a = true /\ plain a = a.
Proof.
  unfold parse_compact_peer_entry, COMPACT_PEER_LEN, COMPACT_PEER6_LEN. intros E.
  destruct (zlen raw =? 6) eqn:E6; [|destruct (zlen raw =? 18) eqn:E18; [|done]]; injection E as <-; to_prop.
  - split; [|done]. apply socket_from_ok. unfold zlen in *. lia.
  - split; [|done]. apply socket6_from_ok. unfold zlen in *. lia.
Qed.

Lemma decode_peers_inr l ps : decode_peers l = inr ps ->
  forallb addr_ok ps = true /\ plain <$> ps = ps /\ zlen ps = zlen l.
Proof.
  revert ps. induction l as [|e l IH]; intros ps; cbn [decode_peers].
  - intros [= <-]. done.
  - intros (raw & _ & E)%and_then_inr. apply and_then_inr in E as (p & Ep & E).
    apply and_then_inr in E as (ps' & Eps & E). injection E as <-. apply peer_entry_inr in Ep as [Ha Hp].
    apply IH in Eps as (Hf & Hm & Hl). cbn. rewrite Ha, Hf, !zlen_cons, Hl. split_and!; [done| |done].
    by rewrite Hp, Hm.
Qed.

(** The entries of one compact node string. *)
Lemma family_inr (n : nat) (socket : list byte -> SocketAddr) (four : bool) raw :
  (20 <= n)%nat ->
  (forall c, length c = (n - 20)%nat -> addr_ok (socket c) = true /\ plain (socket c) = socket c /\
     is_v4 (mkNodeInfo [] (socket c)) = four) ->
  let ns := (fun c => mkNodeInfo (take 20 c) (socket (drop 20 c))) <$> chunks_exact (Z.of_nat n) raw in
  Forall (fun x => node_ok x = true /\ plain_node x = x /\ is_v4 x = four) ns /\ Z.of_nat n * zlen ns <= zlen raw.
Proof.
  intros Hn Hs. cbv zeta. unfold chunks_exact. rewrite Nat2Z.id. split.
  - apply Forall_fmap. eapply Forall_impl; [apply chunks_length|]. intros c Hc. unfold compose. cbn beta in Hc |- *.
    destruct (Hs (drop 20 c)) as (Ha & Hp & Hf); [rewrite length_drop; lia|]. unfold node_ok, plain_node, id_ok. cbn [id addr].
    rewrite bool_decide_eq_true_2, Ha, Hp by (rewrite length_take; lia). done.
  - pose proof (chunks_count n (length raw) raw). unfold zlen. rewrite length_fmap. lia.
Qed.

Lemma filter_split (n4 n6 : list NodeInfo) :
  Forall (fun x => is_v4 x = true) n4 -> Forall (fun x => is_v4 x = false) n6 ->
  List.filter is_v4 (n4 ++ n6) = n4 /\ List.filter (fun n => negb (is_v4 n)) (n4 ++ n6) = n6.
Proof.
  intros H4 H6. split; (induction H4 as [|x n4 Hx _ IH]; cbn; [|rewrite Hx; cbn; by rewrite ?IH]).
  - induction H6 as [|x n6 Hx _ IH]; cbn; [done|]. by rewrite Hx.
  - induction H6 as [|x n6 Hx _ IH]; cbn; [done|]. rewrite Hx. cbn. by rewrite IH.
Qed.

(** The two node strings of a response. *)
Lemma nodes_inr raw4 raw6 n4 n6 :
  bytes_ok raw4 = true -> bytes_ok raw6 = true ->
  parse_compact_nodes raw4 = inr n4 -> parse_compact_nodes6 raw6 = inr n6 ->
  nodes_ok (n4 ++ n6) = true /\ wire_nodes (n4 ++ n6) = n4 ++ n6.
Proof.
  unfold parse_compact_nodes, parse_compact_nodes6, bytes_ok. intros B4 B6 E4 E6.
  destruct (negb _) in E4; [done|]. destruct (negb _) in E6; [done|]. injection E4 as E4. injection E6 as E6.
  destruct (family_inr 26 socket_from true raw4) as [F4 L4]; [lia|intros c Hc; split_and!; [by apply socket_from_ok|done|done]|].
  destruct (family_inr 38 socket6_from false raw6) as [F6 L6]; [lia|intros c Hc; split_and!; [by apply socket6_from_ok|done|done]|].
  cbv zeta in *. change (Z.of_nat 26) with COMPACT_NODE_LEN in *. change (Z.of_nat 38) with COMPACT_NODE6_LEN in *.
  rewrite E4 in *. rewrite E6 in *. clear E4 E6.
  destruct (filter_split n4 n6) as [S4 S6];
    [by eapply Forall_impl; [exact F4|]; intros ? (_ & _ & ?)|by eapply Forall_impl; [exact F6|]; intros ? (_ & _ & ?)|].
  unfold nodes_ok, wire_nodes. rewrite S4, S6. to_prop.
  assert (Forall (fun x => node_ok x = true /\ plain_node x = x) (n4 ++ n6)) as Hall.
  { apply Forall_app. split; [eapply Forall_impl; [exact F4|]|eapply Forall_impl; [exact F6|]]; cbn; tauto. }
  rewrite (proj2 (Z.leb_le (COMPACT_NODE_LEN * _) _)), (proj2 (Z.leb_le (COMPACT_NODE6_LEN * _) _)) by lia.
  split.
  - rewrite !andb_true_r. apply forallb_forall. intros x Hx. rewrite Forall_forall in Hall.
    apply Hall. by apply list_elem_of_In.
  - rewrite <- (list_fmap_id (n4 ++ n6)) at 2. apply list_fmap_ext. intros i x Hx. rewrite Forall_forall in Hall.
    apply Hall. by eapply list_elem_of_lookup_2.
Qed.

Lemma query_inr d v q : value_ok d v = true -> decode_query v = inr q -> query_ok q = true.
Proof.
  unfold decode_query. intros Hv E. apply and_then_inr in E as (args & Ea%ok_or_inr & E).
  pose proof (get_ok _ _ _ _ Hv Ea) as Hargs. apply and_then_inr in E as (i & Hi%node_id_inr & E).
  destruct (is_text _ "ping"); [injection E as <-; exact Hi|].
  destruct (is_text _ "find_node").
  { apply and_then_inr in E as (t & Ht%node_id_inr & E). injection E as <-. cbn. by rewrite Hi, Ht. }
  destruct (is_text _ "get_peers").
  { apply and_then_inr in E as (t & Ht%node_id_inr & E). injection E as <-. cbn. by rewrite Hi, Ht. }
  destruct (is_text _ "announce_peer"); [|by destruct (get_bytes v "q")].
  apply and_then_inr in E as (t & Ht%node_id_inr & E). apply and_then_inr in E as (p & Ep & E).
  apply and_then_inr in E as (tok & Etok%ok_or_inr & E). injection E as <-.
  destruct (Z.ltb_spec (Z.max (default 0 (get_int args "port")) 0) M16); [|done]. injection Ep as <-.
  cbn. rewrite Hi, Ht, (get_bytes_ok _ _ _ _ Hargs Etok).
  by rewrite (proj2 (Z.leb_le _ _)), (proj2 (Z.ltb_lt _ _)) by lia.
Qed.

Lemma response_inr d v r t : value_ok d v = true -> decode_response v = inr r ->
  response_ok r = true /\ wire_message (MResponse t r) = MResponse t r.
Proof.
  unfold decode_response. intros Hv E. apply and_then_inr in E as (f & Ef%ok_or_inr & E).
  pose proof (get_ok _ _ _ _ Hv Ef) as Hf. apply and_then_inr in E as (i & Hi%node_id_inr & E).
  apply and_then_inr in E as (n4 & E4 & E). apply and_then_inr in E as (ns & E6 & E).
  apply and_then_inr in E as (ps & Ep & E).
  assert (nodes_ok ns = true /\ wire_nodes ns = ns) as [Hns Hw].
  { assert (exists raw4, bytes_ok raw4 = true /\ parse_compact_nodes raw4 = inr n4) as (raw4 & B4 & P4).
    { destruct (get_bytes f "nodes") as [raw|] eqn:Eg; [exists raw; split; [by eapply get_bytes_ok|done]|].
      exists []. split; [done|]. injection E4 as <-. done. }
    destruct (get_bytes f "nodes6") as [raw6|] eqn:Eg.
    - apply and_then_inr in E6 as (n6 & P6 & E6). injection E6 as <-.
      apply (nodes_inr raw4 raw6); try done. by eapply get_bytes_ok.
    - injection E6 as <-. rewrite <- (app_nil_r n4). by apply (nodes_inr raw4 []). }
  assert (forallb addr_ok ps = true /\ plain <$> ps = ps /\ zlen ps <= MAX_ITEMS) as (Ha & Hp & Hl).
  { destruct (get f (b "values")) as [w|] eqn:Eg; [|injection Ep as <-; split_and!; done].
    apply and_then_inr in Ep as (l & El%ok_or_inr & Ep). apply decode_peers_inr in Ep as (? & ? & ->).
    split_and!; try done. pose proof (get_ok _ _ _ _ Hf Eg) as Hw'. destruct w as [| |l'|]; try done. injection El as ->.
    cbn [value_ok] in Hw'. apply andb_true_iff in Hw' as [_ Hw']. apply andb_true_iff in Hw' as [Hw' _]. by to_prop. }
  destruct (get_bytes f "token") as [tok|] eqn:Et.
  - injection E as <-. cbn. rewrite Hi, (get_bytes_ok _ _ _ _ Hf Et), Ha, Hns, Hp, Hw.
    by rewrite (proj2 (Z.leb_le _ _) Hl).
  - destruct ns as [|x ns]; injection E as <-; cbn [response_ok wire_message]; rewrite Hi; [done|].
    rewrite Hns, Hw. done.
Qed.

Lemma list_ok d l i v : value_ok d (List l) = true -> l !! i = Some v -> value_ok (d + 1) v = true.
Proof.
  cbn [value_ok]. intros E Hi. apply andb_true_iff in E as [_ E]. apply andb_true_iff in E as [_ E].
  rewrite forallb_forall in E. apply E. apply list_elem_of_In. by eapply list_elem_of_lookup_2.
Qed.

Lemma error_inr d v e : value_ok d v = true -> decode_error v = inr e ->
  I64_MIN <= e.1 <= I64_MAX /\ bytes_ok e.2 = true.
Proof.
  unfold decode_error. intros Hv (l & El%ok_or_inr & E)%and_then_inr.
  apply and_then_inr in E as (c & Ec%ok_or_inr & E). injection E as <-. cbn [fst snd].
  destruct (get v (b "e")) as [w|] eqn:Eg; [|done]. pose proof (get_ok _ _ _ _ Hv Eg) as Hw.
  destruct w as [| |l'|]; try done. injection El as ->. split.
  - destruct l as [|x l]; [done|]. cbn in Ec. destruct x; try done. injection Ec as ->.
    pose proof (list_ok _ _ 0 _ Hw eq_refl) as Hx. cbn [value_ok] in Hx. to_prop. lia.
  - destruct (l !! 1%nat) as [x|] eqn:Ex; [|done]. pose proof (list_ok _ _ _ _ Hw Ex) as Hx.
    destruct x as [|s| |]; try done. cbn [value_ok] in Hx. apply andb_true_iff in Hx as [_ Hx]. exact Hx.
Qed.

(** Every message that is accepted is well typed: identifiers have 20 bytes, addresses the
    width of their family, ports 16 bits, codes 64, and every list and string is within the bounds
    of the encoder, so that the message can be sent on and is read as the same message. *)
Theorem krpc_received_typed (datagram : list byte) (m : Message)
    (Hd : decode_message datagram = Some (inr m)) :
  message_ok m = true /\ wire_message m = m.
Proof.
  unfold decode_message in Hd. destruct (decode datagram) as [[e|v]|] eqn:Ed; [done| |done].
  injection Hd as E. apply decode_inr in Ed as [Hv _]. unfold decode_value in E.
  apply and_then_inr in E as (t & Et%ok_or_inr & E). pose proof (get_bytes_ok _ _ _ _ Hv Et) as Ht.
  destruct (is_text _ "q").
  { apply and_then_inr in E as (q & Eq & E). injection E as <-. cbn. by rewrite Ht, (query_inr _ _ _ Hv Eq). }
  destruct (is_text _ "r").
  { apply and_then_inr in E as (r & Er & E). injection E as <-.
    destruct (response_inr _ _ _ t Hv Er) as [Hr Hw]. cbn [message_ok]. by rewrite Ht, Hr. }
  destruct (is_text _ "e"); [|done]. apply and_then_inr in E as ([code msg] & Ee & E). injection E as <-.
  destruct (error_inr _ _ _ Hv Ee) as [Hc Hm]. cbn [fst snd message_ok] in *.
  by rewrite Ht, Hm, (proj2 (Z.leb_le I64_MIN _)), (proj2 (Z.leb_le _ I64_MAX)) by lia.
Qed.

(** ** Examples *)

Definition example_message : Message :=
  MResponse (b "aa") (Peers (be_bytes 20 9) (b "tok")
    [V4 [x0b; x09; x09; x09] 6881; V6 (be_bytes 16 77) 51413 0 0]
    [mkNodeInfo (be_bytes 20 1) (V6 (be_bytes 16 78) 6881 0 3); mkNodeInfo (be_bytes 20 2) (V4 [xcb; x00; x71; x09] 6882)]).

Lemma krpc_roundtrip_witness :
  decode_message (encode_message example_message) = Some (inr (wire_message example_message)).
Proof. apply (krpc_roundtrip example_message). vm_compute. reflexivity. Defined.

(** The query of BEP 5's own text. *)
Definition bep5_ping : list byte := b "d1:ad2:id20:abcdefghij0123456789e1:q4:ping1:t2:aa1:y1:qe".

Lemma krpc_received_typed_witness :
  message_ok (MQuery (b "aa") (Ping (b "abcdefghij0123456789"))) = true /\
  wire_message (MQuery (b "aa") (Ping (b "abcdefghij0123456789"))) =
    MQuery (b "aa") (Ping (b "abcdefghij0123456789")).
Proof. apply (krpc_received_typed bep5_ping). vm_compute. reflexivity. Defined.
