(* ===== verification/Lookup.v ===== *)
(** * The iterative lookup

    crates/veil-mainline/src/lookup.rs: [find_peers] and [announce].  The network and the clock are
    parameters, as in the source: any answers at all, at any time, are allowed. *)

From Stdlib Require Import Strings.String.
From S2P Require Import Prelude OMap Bencode Inet Krpc.
#[local] Open Scope Z_scope.
#[local] Open Scope list_scope.

Definition K : Z := 8.
Definition ALPHA : nat := 3.

Record Limits := mkLimits {
  rounds : Z;
  queries_limit : Z;
  deadline : Z;
  per_query : Z;
  max_peers : Z
}.

(** Durations in milliseconds. *)
Definition Limits_default : Limits := mkLimits 12 96 30000 4000 64.

Record Found := mkFound {
  peers : list SocketAddr;
  closest : list (NodeInfo * list byte);
  queries : Z;
  hit_a_limit : bool
}.

#[export] Instance eta_Found : Settable Found := fun f =>
  mkFound (peers f) (closest f) (queries f) (hit_a_limit f).

(** [GetPeers] and [AnnouncePeer], with the state of the world behind them; [elapsed] is
    [started.elapsed()]. *)
Class Network (W : Type) := {
  elapsed : W -> Z * W;
  get_peers : W -> SocketAddr -> list byte -> option Response * W;
  announce_peer : W -> SocketAddr -> list byte -> Z -> list byte -> bool * W
}.

(** The variables of [find_peers].  The hash sets are the lists of what was inserted. *)
Record Search := mkSearch {
  found : Found;
  candidates : list ((list byte * SocketAddr) * NodeInfo);
  asked : list SocketAddr;
  heard_peers : list SocketAddr
}.

#[export] Instance eta_Search : Settable Search := fun s =>
  mkSearch (found s) (candidates s) (asked s) (heard_peers s).

Definition contains (s : list SocketAddr) (a : SocketAddr) : bool := bool_decide (a ∈ s).

Definition id_distance (x y : list byte) : list byte := distance x y.

(** ** One answer *)

Definition response_parts (r : Response) :
    list byte * list NodeInfo * option (list byte) * list SocketAddr :=
  match r with
  | Id id => (id, [], None, [])
  | Nodes id nodes => (id, nodes, None, [])
  | Peers id token peers nodes => (id, nodes, Some token, peers)
  end.

(** [for peer in peers { .. }] *)
Fixpoint keep_peers (limit : Z) (ps : list SocketAddr) (s : Search) : Search :=
  match ps with
  | [] => s
  | p :: ps =>
      if limit <=? zlen (peers (found s)) then s
      else if is_internal (ip p) then keep_peers limit ps s
      else if contains (heard_peers s) p then keep_peers limit ps s
      else keep_peers limit ps
             (s <| heard_peers := p :: heard_peers s |>
                <| found := found s <| peers := peers (found s) ++ [p] |> |>)
  end.

Definition usable (n : NodeInfo) : bool :=
  negb ((port (addr n) =? 0) || is_unspecified (ip (addr n))) && negb (is_internal (ip (addr n))).

(** [for node in nodes { .. }]; the flag is [learned_closer]. *)
Fixpoint follow_nodes (info_hash : list byte) (ns : list NodeInfo) (s : Search) (learned : bool) :
    Search * bool :=
  match ns with
  | [] => (s, learned)
  | n :: ns =>
      if negb (usable n) then follow_nodes info_hash ns s learned
      else
        let key := (id_distance (id n) info_hash, addr n) in
        if contains (asked s) (addr n) then follow_nodes info_hash ns s learned
        else follow_nodes info_hash ns (s <| candidates := om_insert key n (candidates s) |>)
               (learned || is_none (om_get key (candidates s)))
  end.

Definition take_answer (limits : Limits) (info_hash : list byte) (a : SocketAddr) (r : Response)
    (s : Search) (learned : bool) : Search * bool :=
  let '(rid, nodes, token, ps) := response_parts r in
  let s := keep_peers (max_peers limits) ps s in
  let s := match token with
           | Some token => s <| found := found s <| closest := closest (found s) ++ [(mkNodeInfo rid a, token)] |> |>
           | None => s
           end in
  follow_nodes info_hash nodes s learned.

(** ** Rounds *)

Section lookup.
Context {W : Type} `{Network W}.

(** [started.elapsed() >= limits.deadline || found.queries >= limits.queries] *)
Definition out_of_room (limits : Limits) (s : Search) (w : W) : bool * W :=
  let '(t, w) := elapsed w in
  ((deadline limits <=? t) || (queries_limit limits <=? queries (found s)), w).

Definition hit (s : Search) : Search := s <| found := found s <| hit_a_limit := true |> |>.

(** [for addr in batch { .. }] *)
Fixpoint ask_batch (limits : Limits) (info_hash : list byte) (batch : list SocketAddr)
    (s : Search) (learned : bool) (w : W) : Search * bool * W :=
  match batch with
  | [] => (s, learned, w)
  | a :: batch =>
      let '(stop, w) := out_of_room limits s w in
      if stop : bool then (hit s, learned, w)
      else
        let s := s <| asked := a :: asked s |> <| found := found s <| queries := queries (found s) + 1 |> |> in
        match get_peers w a info_hash with
        | (None, w) => ask_batch limits info_hash batch s learned w
        | (Some r, w) =>
            let '(s, learned) := take_answer limits info_hash a r s learned in
            ask_batch limits info_hash batch s learned w
        end
  end.

Definition next_batch (s : Search) : list SocketAddr :=
  take ALPHA (List.filter (fun a => negb (contains (asked s) a)) (snd <$> (candidates s).*1)).

(** [while candidates.len() > K * 8 { remove the last }] *)
Definition trim (s : Search) : Search := s <| candidates := ztake (K * 8) (candidates s) |>.

(** [for _round in 0..limits.rounds { .. }] *)
Fixpoint run_rounds (n : nat) (limits : Limits) (info_hash : list byte) (s : Search) (w : W) : Search * W :=
  match n with
  | O => (s, w)
  | S n =>
      let '(stop, w) := out_of_room limits s w in
      if stop : bool then (hit s, w)
      else
        let batch := next_batch s in
        if is_nil batch then (s, w)
        else
          let '(s, learned, w) := ask_batch limits info_hash batch s false w in
          if negb learned then (s, w) else run_rounds n limits info_hash (trim s) w
  end.

Definition start (seeds : list SocketAddr) : Search :=
  mkSearch (mkFound [] [] 0 false)
    (fold_left (fun m a => om_insert (repeat x00 20, a) (mkNodeInfo (repeat x00 20) a) m) seeds [])
    [] [].

(** [sort_by_key]: a stable sort by distance. *)
Fixpoint sort_insert (info_hash : list byte) (e : NodeInfo * list byte) (l : list (NodeInfo * list byte)) :
    list (NodeInfo * list byte) :=
  match l with
  | [] => [e]
  | e' :: l' =>
      if ltb (id_distance (id e'.1) info_hash) (id_distance (id e.1) info_hash)
      then e' :: sort_insert info_hash e l' else e :: l
  end.
Definition sort_closest (info_hash : list byte) (l : list (NodeInfo * list byte)) :
    list (NodeInfo * list byte) := foldr (sort_insert info_hash) [] l.

Definition search (info_hash : list byte) (seeds : list SocketAddr) (limits : Limits) (w : W) : Search * W :=
  run_rounds (Z.to_nat (rounds limits)) limits info_hash (start seeds) w.

Definition find_peers (info_hash : list byte) (seeds : list SocketAddr) (limits : Limits) (w : W) : Found * W :=
  let '(s, w) := search info_hash seeds limits w in
  (found s <| closest := ztake K (sort_closest info_hash (closest (found s))) |>, w).

(** [announce]: how many nodes accepted. *)
Fixpoint announce (info_hash : list byte) (p : Z) (targets : list (NodeInfo * list byte)) (w : W) : Z * W :=
  match targets with
  | [] => (0, w)
  | (node, token) :: targets =>
      if is_nil token then announce info_hash p targets w
      else
        let '(ok, w) := announce_peer w (addr node) info_hash p token in
        let '(n, w) := announce info_hash p targets w in
        ((if ok : bool then 1 else 0) + n, w)
  end.

End lookup.

(** ** Invariant *)

(** An address a lookup may send a datagram to: a seed of the caller, or one that is routable and
    outside every private network. *)
Definition outside (a : SocketAddr) : Prop :=
  port a <> 0 /\ is_unspecified (ip a) = false /\ is_internal (ip a) = false.

Section invariant.
Context (seeds : list SocketAddr) (limits : Limits).
Context (Hq : 0 <= queries_limit limits) (Hp : 0 <= max_peers limits).

Definition admissible (a : SocketAddr) : Prop := a ∈ seeds \/ outside a.

Record search_inv (s : Search) : Prop := {
  si_queries : queries (found s) = zlen (asked s);
  si_limit : queries (found s) <= queries_limit limits;
  si_peers : zlen (peers (found s)) <= max_peers limits;
  si_nodup : NoDup (peers (found s));
  si_heard : forall p, p ∈ peers (found s) -> p ∈ heard_peers s;
  si_outside : forall p, p ∈ peers (found s) -> is_internal (ip p) = false;
  si_closest : forall e, e ∈ closest (found s) -> addr e.1 ∈ asked s;
  si_asked : forall a, a ∈ asked s -> admissible a;
  si_candidates : forall e, e ∈ candidates s -> admissible e.1.2
}.

Lemma keep_peers_inv ps s : search_inv s -> search_inv (keep_peers (max_peers limits) ps s).
Proof.
  revert s. induction ps as [|p ps IH]; intros s Hi; cbn [keep_peers]; [done|].
  destruct (Z.leb_spec (max_peers limits) (zlen (peers (found s)))) as [|Hlt]; [done|].
  destruct (is_internal (ip p)) eqn:Ei; [by apply IH|]. unfold contains. case_bool_decide as Hh; [by apply IH|].
  apply IH. destruct Hi. constructor; cbn; try done.
  - rewrite zlen_app, zlen_cons, zlen_nil. lia.
  - apply NoDup_app. split_and!; [done| |apply NoDup_singleton]. intros x Hx ->%list_elem_of_singleton. auto.
  - intros q [Hx| ->%list_elem_of_singleton]%elem_of_app; [right; auto|left].
  - intros q [Hx| ->%list_elem_of_singleton]%elem_of_app; auto.
Qed.

Lemma keep_peers_frame lim ps s :
  asked (keep_peers lim ps s) = asked s /\ candidates (keep_peers lim ps s) = candidates s /\
  closest (found (keep_peers lim ps s)) = closest (found s).
Proof.
  revert s. induction ps as [|p ps IH]; intros s; cbn [keep_peers]; [done|].
  destruct (_ <=? _); [done|]. destruct (is_internal _); [apply IH|]. destruct (contains _ _); [apply IH|].
  destruct (IH (s <| heard_peers := p :: heard_peers s |>
    <| found := found s <| peers := peers (found s) ++ [p] |> |>)) as (-> & -> & ->). done.
Qed.

Lemma usable_outside n : usable n = true -> outside (addr n).
Proof.
  unfold usable, outside. intros E. apply andb_true_iff in E as [E Ei]. to_prop. done.
Qed.

Lemma follow_nodes_inv ih ns s learned :
  search_inv s -> search_inv (follow_nodes ih ns s learned).1 /\ asked (follow_nodes ih ns s learned).1 = asked s.
Proof.
  revert s learned. induction ns as [|n ns IH]; intros s learned Hi; cbn [follow_nodes]; [done|].
  destruct (usable n) eqn:Eu; cbn [negb]; [|by apply IH]. cbv zeta. destruct (contains _ _); [by apply IH|].
  set (s' := s <| candidates := _ |>). destruct (IH s' (learned || is_none (om_get (id_distance (id n) ih, addr n) (candidates s))))
    as [Hi' Ha]; [|by split].
  destruct Hi. constructor; try done. intros e He. cbn in He. apply elem_of_om_insert in He as [-> |He]; [|auto].
  right. by apply usable_outside.
Qed.

Lemma take_answer_inv ih a r s learned :
  search_inv s -> a ∈ asked s ->
  search_inv (take_answer limits ih a r s learned).1 /\ asked (take_answer limits ih a r s learned).1 = asked s.
Proof.
  intros Hi Ha. unfold take_answer. destruct (response_parts r) as [[[rid nodes] token] ps]. cbv zeta.
  pose proof (keep_peers_inv ps s Hi) as Hk. destruct (keep_peers_frame (max_peers limits) ps s) as (Hka & _ & _).
  set (s1 := keep_peers (max_peers limits) ps s) in *. clearbody s1.
  set (s2 := match token with Some _ => _ | None => _ end).
  assert (search_inv s2 /\ asked s2 = asked s) as [Hi2 Ha2].
  { destruct token as [token|]; [|done]. subst s2. split; [|done]. destruct Hk. constructor; cbn; try done.
    intros e [He| ->%list_elem_of_singleton]%elem_of_app; [auto|]. cbn. by rewrite Hka. }
  clearbody s2. destruct (follow_nodes_inv ih nodes s2 learned Hi2) as [? ->]. done.
Qed.

Context {W : Type} `{Network W}.

Lemma hit_inv s : search_inv s -> search_inv (hit s).
Proof. intros []. by constructor. Qed.

Lemma ask_batch_inv ih batch s learned (w : W) :
  search_inv s -> (forall a, a ∈ batch -> admissible a) ->
  let s' := (ask_batch limits ih batch s learned w).1.1 in
  search_inv s' /\ exists pre, pre `prefix_of` batch /\ asked s' = reverse pre ++ asked s.
Proof.
  revert s learned w. induction batch as [|a batch IH]; intros s learned w Hi Hb; cbn [ask_batch]; cbv zeta.
  { split; [done|]. by exists []. }
  unfold out_of_room. destruct (elapsed w) as [t w1].
  destruct ((deadline limits <=? t) || (queries_limit limits <=? queries (found s))) eqn:Eo.
  { split; [by apply hit_inv|]. exists []. split; [by eexists|done]. }
  apply orb_false_iff in Eo as [_ Eo]. to_prop.
  set (s1 := (_ <| found := _ |>)). assert (search_inv s1) as Hi1.
  { destruct Hi. constructor; cbn; try done.
    - rewrite zlen_cons. lia.
    - lia.
    - intros e He. right. auto.
    - intros x [-> |Hx]%elem_of_cons; [apply Hb; left|auto]. }
  assert (asked s1 = a :: asked s) as Ha1 by done. clearbody s1.
  assert (forall x, x ∈ batch -> admissible x) as Hb1 by (intros; apply Hb; by right).
  assert (forall s2 l w2, search_inv s2 -> asked s2 = asked s1 ->
    let s' := (ask_batch limits ih batch s2 l w2).1.1 in
    search_inv s' /\ exists pre, pre `prefix_of` a :: batch /\ asked s' = reverse pre ++ asked s) as Hstep.
  { intros s2 l w2 Hi2 Ha2. destruct (IH s2 l w2 Hi2 Hb1) as [Hi' (pre & Hpre & Hx)]. split; [done|].
    exists (a :: pre). split; [by apply prefix_cons|]. rewrite Hx, Ha2, Ha1, reverse_cons. by rewrite <- app_assoc. }
  destruct (get_peers w1 a ih) as [[r|] w2]; [|by apply Hstep].
  destruct (take_answer_inv ih a r s1 learned Hi1) as [Hi2 Ha2]; [rewrite Ha1; left|].
  destruct (take_answer limits ih a r s1 learned) as [s2 l2]. by apply Hstep.
Qed.

(** How often an address was asked. *)
Definition times (a : SocketAddr) (l : list SocketAddr) : nat := length (List.filter (fun x => bool_decide (x = a)) l).

Lemma times_app a l l' : times a (l ++ l') = (times a l + times a l')%nat.
Proof. unfold times. by rewrite List.filter_app, length_app. Qed.

Lemma times_zero a l : a ∉ l -> times a l = O.
Proof.
  unfold times. intros Ha. induction l as [|x l IH]; cbn; [done|]. rewrite not_elem_of_cons in Ha.
  rewrite bool_decide_eq_false_2 by (intros ->; tauto). apply IH. tauto.
Qed.

Lemma times_le a l : (times a l <= length l)%nat.
Proof. unfold times. apply filter_length_le. Qed.

(** Nobody is asked in two rounds, and a round asks at most [ALPHA] times. *)
Lemma times_round a pre batch l :
  pre `prefix_of` batch -> (length batch <= ALPHA)%nat -> (forall x, x ∈ batch -> x ∉ l) ->
  (times a l <= ALPHA)%nat -> (times a (reverse pre ++ l) <= ALPHA)%nat.
Proof.
  intros Hpre Hl Hb Ha. rewrite times_app. destruct (decide (a ∈ pre)) as [Hin|Hout].
  - rewrite (times_zero a l) by (apply Hb; by eapply elem_of_prefix). pose proof (times_le a (reverse pre)).
    rewrite length_reverse in *. pose proof (prefix_length _ _ Hpre). lia.
  - rewrite (times_zero a (reverse pre)) by (by rewrite elem_of_reverse). lia.
Qed.

Lemma next_batch_spec s : (length (next_batch s) <= ALPHA)%nat /\
  forall a, a ∈ next_batch s -> (a ∉ asked s) /\ exists e, e ∈ candidates s /\ e.1.2 = a.
Proof.
  unfold next_batch. split; [rewrite length_take; lia|]. intros a Ha.
  apply elem_of_take in Ha as (i & Hi & _). apply list_elem_of_lookup_2, list_elem_of_In, filter_In in Hi as [Hi Hn].
  unfold contains in Hn. apply negb_true_iff, bool_decide_eq_false_1 in Hn. split; [done|].
  apply list_elem_of_In, list_elem_of_fmap in Hi as (k & -> & Hk). apply list_elem_of_fmap in Hk as (e & -> & He). by exists e.
Qed.

Lemma run_rounds_inv n ih s (w : W) :
  search_inv s -> (forall a, (times a (asked s) <= ALPHA)%nat) ->
  let s' := (run_rounds n limits ih s w).1 in
  search_inv s' /\ (forall a, (times a (asked s') <= ALPHA)%nat) /\
  queries (found s') <= queries (found s) + 3 * Z.of_nat n.
Proof.
  revert s w. induction n as [|n IH]; intros s w Hi Ht; cbn [run_rounds]; cbv zeta; [split_and!; [done|done|cbn [fst]; lia]|].
  destruct (out_of_room limits s w) as [[] w1]; [split_and!; [by apply hit_inv|done|]; change (queries (found s) <= queries (found s) + 3 * Z.of_nat (S n)); lia|].
  destruct (is_nil (next_batch s)); [split_and!; [done|done|cbn [fst]; lia]|].
  destruct (next_batch_spec s) as [Hl Hb].
  destruct (ask_batch_inv ih (next_batch s) s false w1 Hi) as [Hi' (pre & Hpre & Ha)].
  { intros a (_ & e & He & <-)%Hb. by apply (si_candidates _ Hi). }
  destruct (ask_batch limits ih (next_batch s) s false w1) as [[s' learned] w2]. cbn [fst] in *.
  assert (forall a, (times a (asked s') <= ALPHA)%nat) as Ht'.
  { intros a. rewrite Ha. apply (times_round a pre (next_batch s)); [done|done| |done]. intros x Hx. by apply Hb. }
  assert (queries (found s') <= queries (found s) + 3) as Hqs.
  { rewrite (si_queries _ Hi'), (si_queries _ Hi), Ha, zlen_app. unfold zlen. rewrite length_reverse.
    pose proof (prefix_length _ _ Hpre). unfold ALPHA in *. lia. }
  destruct learned; cbn [negb]; [|split_and!; [done|done|cbn [fst]; lia]].
  destruct (IH (trim s') w2) as (H1 & H2 & H3); [|done|].
  - destruct Hi'. constructor; try done. intros e He. cbn in He. unfold ztake in He.
    apply elem_of_take in He as (i & Hi2 & _). apply si_candidates0. by eapply list_elem_of_lookup_2.
  - split_and!; [done|done|]. cbn in H3 |- *. lia.
Qed.

Lemma search_start_inv : search_inv (start seeds) /\ forall a, (times a (asked (start seeds)) <= ALPHA)%nat.
Proof.
  split; [|cbn; intros; unfold ALPHA; lia]. constructor; cbn; try done; try apply NoDup_nil_2;
    try (intros ? ?%not_elem_of_nil; done).
  enough (forall l m, (forall e, e ∈ m -> admissible e.1.2) -> (forall a, a ∈ l -> a ∈ seeds) ->
    forall e, e ∈ fold_left (fun m a => om_insert (repeat x00 20, a) (mkNodeInfo (repeat x00 20) a) m) l m ->
    admissible e.1.2) as Hl by (apply Hl; [intros ? ?%not_elem_of_nil; done|done]).
  induction l as [|a l IH]; intros m Hm Hs; cbn [fold_left]; [done|]. apply IH; [|intros; apply Hs; by right].
  intros e [-> |He]%elem_of_om_insert; [|auto]. left. apply Hs. left.
Qed.

End invariant.

(** ** The result *)

(** Nearer or as near. *)
Definition nearer (info_hash : list byte) (e e' : NodeInfo * list byte) : Prop :=
  ltb (id_distance (id e'.1) info_hash) (id_distance (id e.1) info_hash) = false.

Lemma sort_insert_spec ih e l : StronglySorted (nearer ih) l ->
  StronglySorted (nearer ih) (sort_insert ih e l) /\ sort_insert ih e l ≡ₚ e :: l.
Proof.
  induction 1 as [|x l Hs [IHs IHp] Hall]; cbn [sort_insert]; [by repeat constructor|].
  destruct (ltb _ _) eqn:El.
  - split; [|rewrite IHp; apply Permutation_swap]. constructor; [done|].
    rewrite IHp. constructor; [|done]. unfold nearer. by apply ltb_asym.
  - split; [|done]. constructor; [by constructor|]. constructor; [done|]. eapply Forall_impl; [exact Hall|].
    intros y Hy. unfold nearer in *. by eapply leb_trans.
Qed.

Lemma sort_closest_spec ih l : StronglySorted (nearer ih) (sort_closest ih l) /\ sort_closest ih l ≡ₚ l.
Proof.
  induction l as [|e l [IHs IHp]]; [by repeat constructor|]. cbn [sort_closest foldr].
  destruct (sort_insert_spec ih e _ IHs) as [? Hp]. split; [done|]. by rewrite Hp, IHp.
Qed.

(** C30. A lookup is bounded and cannot be aimed.  Whatever the network answers and whenever, every
    datagram goes to a seed or to a routable address outside the private ranges, no address is
    asked in two rounds (so at most three times), and the limits on queries, rounds and peers hold;
    the peers are distinct and none is internal; the nodes to announce to are the nearest ones, at
    most [K] of them, in order, each one a node that was asked. *)
Theorem lookup_bounded {W : Type} `{Network W} (info_hash : list byte) (seeds : list SocketAddr)
    (limits : Limits) (w : W)
    (Hq : 0 <= queries_limit limits) (Hp : 0 <= max_peers limits) (Hr : 0 <= rounds limits) :
  let s := (search info_hash seeds limits w).1 in
  let f := (find_peers info_hash seeds limits w).1 in
  (forall a, a ∈ asked s -> (a ∈ seeds \/ outside a) /\ (times a (asked s) <= ALPHA)%nat) /\
  queries f = zlen (asked s) /\ queries f <= queries_limit limits /\ queries f <= 3 * rounds limits /\
  NoDup (peers f) /\ zlen (peers f) <= max_peers limits /\
  (forall p, p ∈ peers f -> is_internal (ip p) = false) /\
  zlen (closest f) <= K /\ (forall e, e ∈ closest f -> addr e.1 ∈ asked s) /\
  exists rest, closest f ++ rest ≡ₚ closest (found s) /\ StronglySorted (nearer info_hash) (closest f ++ rest).
Proof.
  cbv zeta. unfold find_peers. destruct (search_start_inv seeds limits Hq Hp) as [Hi0 Ht0].
  destruct (run_rounds_inv seeds limits (Z.to_nat (rounds limits)) info_hash (start seeds) w Hi0 Ht0) as (Hi & Ht & Hn).
  unfold search. destruct (run_rounds _ _ _ _ w) as [s w']. cbn [fst] in *.
  destruct (sort_closest_spec info_hash (closest (found s))) as [Hs Hperm].
  change (queries (found (start seeds))) with 0 in Hn.
  split_and!; try apply Hi.
  - intros a Ha. split; [by apply (si_asked _ _ _ Hi)|apply Ht].
  - cbn. lia.
  - cbn. rewrite zlen_ztake by (unfold K; lia). lia.
  - intros e He. cbn in He. apply (si_closest _ _ _ Hi). rewrite <- Hperm. unfold ztake in He.
    apply elem_of_take in He as (i & Hx & _). by eapply list_elem_of_lookup_2.
  - exists (zdrop K (sort_closest info_hash (closest (found s)))). cbn. unfold ztake, zdrop. by rewrite take_drop.
Qed.

(** ** Two lookups that go wrong *)

Module Sim.

(** A network where every address answers as a table says, at once. *)
Definition sim (table : SocketAddr -> option Response) : Network unit := {|
  elapsed w := (0, w);
  get_peers w a _ := (table a, w);
  announce_peer w _ _ _ _ := (true, w)
|}.

(** 11.0.0.[n], port 6881. *)
Definition host (n : Z) : SocketAddr := V4 [x0b; x00; x00; byte_of n] 6881.

(** Three seeds are silent; the fourth knows a peer. *)
Definition late_seed (a : SocketAddr) : option Response :=
  if bool_decide (a = host 4) then Some (Peers (be_bytes 20 4) [x01] [host 9] []) else None.

(** The seed names one host under two identifiers. *)
Definition two_names (a : SocketAddr) : option Response :=
  if bool_decide (a = host 1)
  then Some (Nodes (be_bytes 20 1) [mkNodeInfo (be_bytes 20 2) (host 2); mkNodeInfo (be_bytes 20 3) (host 2)])
  else if bool_decide (a = host 2) then Some (Peers (be_bytes 20 2) [x01] [] [])
  else None.

Definition target : list byte := repeat xff 20.

Lemma lookup_bounded_witness :
  let s := (search (H := sim two_names) target [host 1] Limits_default tt).1 in
  let f := (find_peers (H := sim two_names) target [host 1] Limits_default tt).1 in
  (forall a, a ∈ asked s -> (a ∈ [host 1] \/ outside a) /\ (times a (asked s) <= ALPHA)%nat) /\
  queries f = zlen (asked s) /\ queries f <= queries_limit Limits_default /\
  queries f <= 3 * rounds Limits_default /\
  NoDup (peers f) /\ zlen (peers f) <= max_peers Limits_default /\
  (forall p, p ∈ peers f -> is_internal (ip p) = false) /\
  zlen (closest f) <= K /\ (forall e, e ∈ closest f -> addr e.1 ∈ asked s) /\
  exists rest, closest f ++ rest ≡ₚ closest (found s) /\ StronglySorted (nearer target) (closest f ++ rest).
Proof. apply (lookup_bounded (H := sim two_names) target [host 1] Limits_default tt); cbn; lia. Defined.

End Sim.


(** An address can be asked twice in one lookup: a node that names one address under two
    identifiers puts it twice in the same round, and it then counts twice among the nodes to
    announce to. *)
Theorem lookup_asks_twice :
  let s := (search (H := Sim.sim Sim.two_names) Sim.target [Sim.host 1] Limits_default tt).1 in
  times (Sim.host 2) (asked s) = 2%nat /\
  addr ∘ fst <$> closest (find_peers (H := Sim.sim Sim.two_names) Sim.target [Sim.host 1] Limits_default tt).1 =
    [Sim.host 2; Sim.host 2].
Proof. vm_compute. done. Qed.
