(* ===== verification/Rendezvous.v ===== *)
(** * The rendezvous

    crates/veil-mainline/src/rendezvous.rs: the infohash at which the nodes of a network meet,
    which moves once a day.  BLAKE3 is a parameter. *)

From Stdlib Require Import Strings.String.
From S2P Require Import Prelude Crypto Krpc.
#[local] Open Scope Z_scope.
#[local] Open Scope list_scope.

Definition EPOCH : Z := 24 * 60 * 60.
Definition DOMAIN : list byte := b "veil.bootstrap.mainline-rendezvous.v1".

Inductive MainlineNetwork := Production | Testnet.

Definition label (n : MainlineNetwork) : list byte :=
  match n with Production => b "production" | Testnet => b "testnet" end.

Definition epoch_of (unix_seconds : Z) : Z := unix_seconds / EPOCH.

(** What is hashed: the three updates of the hasher. *)
Definition preimage (network : MainlineNetwork) (epoch : Z) : list byte :=
  DOMAIN ++ label network ++ be_bytes 8 epoch.

Section rendezvous.
Context `{Blake3}.

Definition infohash (network : MainlineNetwork) (epoch : Z) : list byte :=
  take 20 (blake3 (preimage network epoch)).

Definition current_infohashes (network : MainlineNetwork) (unix_seconds : Z) : list (list byte) :=
  let epoch := epoch_of unix_seconds in
  [infohash network epoch; infohash network (sat_sub epoch 1)].

Lemma preimage_inj n e n' e' :
  is_u64 e -> is_u64 e' -> preimage n e = preimage n' e' -> n = n' /\ e = e'.
Proof.
  unfold preimage. intros He He' E. apply app_inv_head in E.
  assert (n = n') as <-.
  { apply (f_equal length) in E. rewrite !length_app, !length_be_bytes in E. by destruct n, n'. }
  apply app_inv_head in E. split; [done|]. apply (f_equal from_be) in E. unfold is_u64 in *.
  by rewrite !from_be_bytes_id in E.
Qed.

(** Nodes of one network meet: if two clocks differ by at most a day, the points the two nodes
    use have one in common.  And nodes of different networks or days do not: two equal points come
    from the same network and epoch, unless the (truncated) hash collides on different inputs. *)
Theorem rendezvous_meets (n : MainlineNetwork) (t t' : Z)
    (Ht : 0 <= t) (Ht' : 0 <= t') (Hd : Z.abs (t - t') <= EPOCH) :
  (exists point, point ∈ current_infohashes n t /\ point ∈ current_infohashes n t') /\
  (forall m e m' e', is_u64 e -> is_u64 e' -> infohash m e = infohash m' e' ->
   (m = m' /\ e = e') \/
   (preimage m e <> preimage m' e' /\ take 20 (blake3 (preimage m e)) = take 20 (blake3 (preimage m' e')))).
Proof.
  split.
  - unfold current_infohashes, epoch_of, sat_sub, EPOCH in *. change (24 * 60 * 60) with 86400 in *.
    assert (t / 86400 = t' / 86400 \/ t / 86400 = t' / 86400 + 1 \/ t' / 86400 = t / 86400 + 1) as [E|[E|E]] by mlia.
    + rewrite E. eexists. split; left.
    + exists (infohash n (t' / 86400)). rewrite E, Z.add_simpl_r, (Z.max_r 0 (t' / 86400)) by mlia. split; [right; left|left].
    + exists (infohash n (t / 86400)). rewrite E, Z.add_simpl_r, (Z.max_r 0 (t / 86400)) by mlia. split; [left|right; left].
  - intros m e m' e' He He' E. destruct (decide (preimage m e = preimage m' e')) as [Ep|Ep]; [left|by right].
    by apply preimage_inj.
Qed.

End rendezvous.

Lemma rendezvous_meets_witness :
  let hash : Blake3 := fun l => be_bytes 32 (from_be l) in
  (exists point, point ∈ current_infohashes (H := hash) Testnet 1700006400 /\
                 point ∈ current_infohashes (H := hash) Testnet 1700002800) /\
  (forall m e m' e', is_u64 e -> is_u64 e' -> infohash (H := hash) m e = infohash (H := hash) m' e' ->
   (m = m' /\ e = e') \/
   (preimage m e <> preimage m' e' /\
    take 20 (be_bytes 32 (from_be (preimage m e))) = take 20 (be_bytes 32 (from_be (preimage m' e'))))).
Proof.
  apply (rendezvous_meets (H := fun l => be_bytes 32 (from_be l)) Testnet 1700006400 1700002800); unfold EPOCH; lia.
Defined.
