(* ===== verification/Abuse.v ===== *)
(** * Abuse control

    crates/veil-abuse/src/ban_list.rs, violation_tracker.rs and replay_window.rs: who is banned and
    until when, how violations escalate to bans, and which request identifiers were seen. *)

From Stdlib Require Import Strings.String.
From S2P Require Import Prelude BTree.
#[local] Open Scope Z_scope.
#[local] Open Scope list_scope.

(** A node identifier, [[u8; 32]]. *)
Abbreviation PeerId := (list byte) (only parsing).

(** ** The ban list

    Instants and durations are in nanoseconds, and every operation takes the instant it reads. *)

Definition MAX_BAN_LIST_SIZE : Z := 8192.

Record BanEntry := mkBanEntry {
  peer_id : PeerId;
  reason : string;
  banned_until : option Z;
  ban_seq : Z;
  manual : bool;
  banned_at : option Z
}.

Definition is_expired (e : BanEntry) (now : Z) : bool :=
  match banned_until e with Some t => t <=? now | None => false end.

Record BanList := mkBanList {
  entries : gmap PeerId BanEntry;
  eviction_order : list (Z * PeerId);
  next_seq : Z
}.

#[export] Instance eta_BanList : Settable BanList := fun l =>
  mkBanList (entries l) (eviction_order l) (next_seq l).

Definition ban_list_new : BanList := mkBanList ∅ [] 0.

(** [self.entries.get(id).is_some_and(p)] for an entry of the index. *)
Definition entry_is (p : BanEntry -> bool) (l : BanList) (x : Z * PeerId) : bool :=
  is_some_and (entries l !! x.2) p.

Definition victim (l : BanList) (now : Z) : option (Z * PeerId) :=
  match List.find (entry_is (fun e => is_expired e now) l) (eviction_order l) with
  | Some x => Some x
  | None =>
      match List.find (entry_is (fun e => negb (manual e)) l) (eviction_order l) with
      | Some x => Some x
      | None => head (eviction_order l)
      end
  end.

Definition make_room (l : BanList) (id : PeerId) (now : Z) : BanList :=
  match entries l !! id with
  | Some old => l <| eviction_order := bt_remove (ban_seq old) (eviction_order l) |>
  | None =>
      if MAX_BAN_LIST_SIZE <=? Z.of_nat (size (entries l)) then
        match victim l now with
        | Some (seq, victim_id) =>
            l <| eviction_order := bt_remove seq (eviction_order l) |>
              <| entries := delete victim_id (entries l) |>
        | None => l
        end
      else l
  end.

(** [wall] is the system time that is noted. *)
Definition ban_inner (l : BanList) (id : PeerId) (why : string) (duration : option Z) (man : bool)
    (now wall : Z) : BanList :=
  let l := make_room l id now in
  let seq := next_seq l in
  let banned_until := (fun d => now + d) <$> duration in
  l <| next_seq := add64 seq 1 |>
    <| eviction_order := bt_insert seq id (eviction_order l) |>
    <| entries := <[id := mkBanEntry id why banned_until seq man (Some wall)]> (entries l) |>.

Definition ban_manual (l : BanList) (id : PeerId) (why : string) (now wall : Z) : BanList :=
  ban_inner l id why None true now wall.
Definition ban (l : BanList) (id : PeerId) (why : string) (duration : option Z) (now wall : Z) : BanList :=
  ban_inner l id why duration false now wall.

Definition is_banned (l : BanList) (id : PeerId) (now : Z) : bool :=
  match entries l !! id with
  | None => false
  | Some e => negb (is_expired e now)
  end.

Definition unban (l : BanList) (id : PeerId) : BanList :=
  match entries l !! id with
  | Some e => l <| entries := delete id (entries l) |>
                <| eviction_order := bt_remove (ban_seq e) (eviction_order l) |>
  | None => l
  end.

(** The closure of [retain] removes the index entry of each expired ban. *)
Definition evict_expired (l : BanList) (now : Z) : BanList :=
  let gone := filter (fun e => is_expired e.2 now = true) (map_to_list (entries l)) in
  l <| eviction_order := foldr (fun e order => bt_remove (ban_seq e.2) order) (eviction_order l) gone |>
    <| entries := filter (fun e => is_expired e.2 now = false) (entries l) |>.

Definition active_bans (l : BanList) (now : Z) : list BanEntry :=
  filter (fun e => is_expired e now = false) (map_to_list (entries l)).*2.

Definition manual_bans (l : BanList) (now : Z) : list BanEntry :=
  filter (fun e => manual e = true /\ is_expired e now = false) (map_to_list (entries l)).*2.

(** ** The violation tracker *)

Definition MAX_VIOLATION_TRACKER_SIZE : Z := 8192.

Record ViolationEntry := mkViolation {
  count : Z;
  last_violation : Z;
  ban_count : Z
}.

Record ViolationTracker := mkTracker {
  v_entries : gmap PeerId ViolationEntry;
  insertion_order : list PeerId;
  ban_threshold : Z;
  ban_initial : Z;
  ban_step : Z;
  ban_max : Z;
  decay_after : Z
}.

#[export] Instance eta_ViolationTracker : Settable ViolationTracker := fun t =>
  mkTracker (v_entries t) (insertion_order t) (ban_threshold t) (ban_initial t) (ban_step t) (ban_max t)
    (decay_after t).

(** [Duration::MAX] in nanoseconds. *)
Definition DURATION_MAX : Z := U64_MAX * 1000000000 + 999999999.

Definition tracker_new (threshold initial step max decay : Z) : string + ViolationTracker :=
  if threshold =? 0 then inl "ban_threshold must be > 0"%string
  else inr (mkTracker ∅ [] threshold initial step max decay).

Definition ban_duration_for (t : ViolationTracker) (n : Z) : Z :=
  Z.min (Z.min (ban_initial t + Z.min (ban_step t * n) DURATION_MAX) DURATION_MAX) (ban_max t).

(** [while let Some(candidate) = self.insertion_order.pop_front() { .. }] *)
Fixpoint evict_oldest (order : list PeerId) (m : gmap PeerId ViolationEntry) :
    list PeerId * gmap PeerId ViolationEntry :=
  match order with
  | [] => ([], m)
  | c :: order => if is_some (m !! c) then (order, delete c m) else evict_oldest order m
  end.

Definition tracker_room (t : ViolationTracker) (id : PeerId) : ViolationTracker :=
  if is_none (v_entries t !! id) && (MAX_VIOLATION_TRACKER_SIZE <=? Z.of_nat (size (v_entries t))) then
    let '(order, m) := evict_oldest (insertion_order t) (v_entries t) in
    t <| insertion_order := order |> <| v_entries := m |>
  else t.

(** [record]: the count it returns, and the two structures afterwards. *)
Definition record_violation (t : ViolationTracker) (id : PeerId) (bans : BanList) (now wall : Z) :
    Z * ViolationTracker * BanList :=
  let t := tracker_room t id in
  let t := match v_entries t !! id with
           | None => t <| insertion_order := insertion_order t ++ [id] |>
           | Some _ => t
           end in
  let entry := default (mkViolation 0 now 0) (v_entries t !! id) in
  let n := if decay_after t <=? sat_sub now (last_violation entry) then 0 else count entry in
  let n := add32 n 1 in
  if ban_threshold t <=? n then
    let duration := ban_duration_for t (ban_count entry) in
    let bans := ban bans id "violation threshold exceeded"%string (Some duration) now wall in
    (0, t <| v_entries := <[id := mkViolation 0 now (add32 (ban_count entry) 1)]> (v_entries t) |>, bans)
  else
    (n, t <| v_entries := <[id := mkViolation n now (ban_count entry)]> (v_entries t) |>, bans).

Definition violation_count (t : ViolationTracker) (id : PeerId) : Z :=
  match v_entries t !! id with Some e => count e | None => 0 end.

Definition evict_stale (t : ViolationTracker) (now : Z) : ViolationTracker :=
  let m := filter (fun e => sat_sub now (last_violation e.2) <= decay_after t) (v_entries t) in
  t <| v_entries := m |>
    <| insertion_order := List.filter (fun k => is_some (m !! k)) (insertion_order t) |>.

(** ** The replay window *)

Record ReplayWindow := mkWindow {
  seen : gset Z;
  order : list Z;
  window_size : Z
}.

Definition window_new (size : Z) : ReplayWindow := mkWindow ∅ [] (Z.max size 1).

Definition check_and_insert (w : ReplayWindow) (request_id : Z) : bool * ReplayWindow :=
  if bool_decide (request_id ∈ seen w) then (false, w)
  else
    let '(s, o) := if window_size w <=? zlen (order w)
                   then match order w with
                        | evicted :: o => (seen w ∖ {[evicted]}, o)
                        | [] => (seen w, [])
                        end
                   else (seen w, order w) in
    (true, mkWindow ({[request_id]} ∪ s) (o ++ [request_id]) (window_size w)).

(** ** The index of the ban list *)

Record ban_inv (l : BanList) : Prop := {
  bi_sorted : bt_sorted (eviction_order l);
  bi_index : forall s id, (s, id) ∈ eviction_order l <-> exists e, entries l !! id = Some e /\ ban_seq e = s;
  bi_id : forall id e, entries l !! id = Some e -> peer_id e = id;
  bi_seq : forall s id, (s, id) ∈ eviction_order l -> 0 <= s < next_seq l;
  bi_size : Z.of_nat (size (entries l)) <= MAX_BAN_LIST_SIZE
}.

Lemma ban_list_new_inv : ban_inv ban_list_new.
Proof.
  constructor; cbn; try done.
  - apply SSorted_nil.
  - intros s id. rewrite elem_of_nil. split; [done|]. intros (e & He & _). by rewrite lookup_empty in He.
  - intros s id. by rewrite elem_of_nil.
Qed.

(** Removing one ban and its index entry. *)
Lemma drop_entry_inv l id e :
  ban_inv l -> entries l !! id = Some e ->
  ban_inv (l <| entries := delete id (entries l) |> <| eviction_order := bt_remove (ban_seq e) (eviction_order l) |>).
Proof.
  intros [Hs Hx Hi Hq Hz] He. constructor; cbn.
  - by apply bt_remove_sorted.
  - intros s x. rewrite elem_of_bt_remove_iff, Hx by done. split.
    + intros [Hne (e' & He' & <-)]. exists e'. rewrite lookup_delete_ne by congruence. done.
    + intros (e' & [Hne He']%lookup_delete_Some & <-). split; [|by eauto]. intros Heq.
      apply Hne. assert ((ban_seq e, id) ∈ eviction_order l) as H1 by (apply Hx; by eauto).
      assert ((ban_seq e', x) ∈ eviction_order l) as H2 by (apply Hx; by eauto). rewrite Heq in H2.
      by eapply bt_sorted_functional.
  - intros x e' [_ He']%lookup_delete_Some. by apply Hi.
  - intros s x Hin%elem_of_bt_remove. by apply (Hq s x).
  - rewrite map_size_delete_Some by done. lia.
Qed.

Lemma unban_inv l id : ban_inv l -> ban_inv (unban l id).
Proof. intros Hi. unfold unban. destruct (entries l !! id) eqn:E; [by apply drop_entry_inv|done]. Qed.

(** Adding a ban where there was none and there is room. *)
Lemma add_entry_inv l id e :
  ban_inv l -> entries l !! id = None -> Z.of_nat (size (entries l)) < MAX_BAN_LIST_SIZE ->
  ban_seq e = next_seq l -> peer_id e = id -> 0 <= next_seq l < U64_MAX ->
  ban_inv (l <| next_seq := add64 (next_seq l) 1 |>
             <| eviction_order := bt_insert (next_seq l) id (eviction_order l) |>
             <| entries := <[id := e]> (entries l) |>).
Proof.
  intros [Hs Hx Hi Hq Hz] Hn Hsz He Hid Hns.
  assert (add64 (next_seq l) 1 = next_seq l + 1) as Ha
    by (unfold add64, wrap64, U64_MAX in *; rewrite Z.mod_small; lia).
  assert (forall v, (next_seq l, v) ∉ eviction_order l) as Hfresh by (intros v Hv; apply Hq in Hv; lia).
  constructor; cbn.
  - by apply bt_insert_sorted.
  - intros s x. rewrite elem_of_bt_insert, Hx by done. split.
    + intros [[-> ->]|(e' & He' & <-)]; [exists e; by rewrite lookup_insert_eq|].
      exists e'. rewrite lookup_insert_ne by congruence. done.
    + intros (e' & He' & <-). apply lookup_insert_Some in He' as [[<- <-]|[Hne He']]; [by left|]. right. by eauto.
  - intros x e' [[<- <-]|[_ He']]%lookup_insert_Some; [done|by apply Hi].
  - intros s x. rewrite elem_of_bt_insert by done. rewrite Ha. intros [[-> ->]|Hin]; [lia|]. apply Hq in Hin. lia.
  - rewrite map_size_insert_None by done. lia.
Qed.

Lemma victim_in l now x : victim l now = Some x -> x ∈ eviction_order l.
Proof.
  unfold victim. destruct (List.find (entry_is (fun e => is_expired e now) l) _) as [y|] eqn:E1.
  { intros E. assert (y = x) as <- by congruence. apply find_some in E1 as [? _]. by apply list_elem_of_In. }
  destruct (List.find (entry_is (fun e => negb (manual e)) l) _) as [y|] eqn:E2.
  { intros E. assert (y = x) as <- by congruence. apply find_some in E2 as [? _]. by apply list_elem_of_In. }
  apply head_elem_of.
Qed.

Lemma victim_exists l now : ban_inv l -> 0 < Z.of_nat (size (entries l)) -> victim l now <> None.
Proof.
  intros Hi Hsz. unfold victim. destruct (List.find _ _); [done|]. destruct (List.find _ _); [done|].
  destruct (eviction_order l) as [|x o] eqn:Eo; [|done]. exfalso.
  destruct (decide (entries l = ∅)) as [E|(id & e & He)%map_choose]; [rewrite E, map_size_empty in Hsz; lia|].
  assert ((ban_seq e, id) ∈ eviction_order l) as Hin by (apply (bi_index _ Hi); by eauto).
  rewrite Eo in Hin. by apply elem_of_nil in Hin.
Qed.

(** What makes room for a new ban. *)
Lemma make_room_spec l id now : ban_inv l ->
  let l' := make_room l id now in
  next_seq l' = next_seq l /\
  ban_inv (l' <| entries := delete id (entries l') |>) /\
  Z.of_nat (size (delete id (entries l'))) < MAX_BAN_LIST_SIZE /\
  (forall x, x <> id -> entries l' !! x = entries l !! x \/
     (MAX_BAN_LIST_SIZE <= Z.of_nat (size (entries l)) /\ entries l !! id = None /\
      exists s, victim l now = Some (s, x) /\ entries l' !! x = None)).
Proof.
  intros Hi. cbv zeta. unfold make_room. destruct (entries l !! id) as [old|] eqn:Eid.
  - cbn. split_and!; [done| | |by left].
    + pose proof (drop_entry_inv l id old Hi Eid) as H. destruct l; exact H.
    + rewrite map_size_delete_Some by done. pose proof (bi_size _ Hi).
      destruct (size (entries l)) as [|n] eqn:En; [|lia]. apply map_size_empty_inv in En. rewrite En in Eid.
      by rewrite lookup_empty in Eid.
  - destruct (Z.leb_spec MAX_BAN_LIST_SIZE (Z.of_nat (size (entries l)))) as [Hfull|Hroom].
    + destruct (victim l now) as [[s v]|] eqn:Ev; [|destruct (victim_exists l now Hi); [unfold MAX_BAN_LIST_SIZE in *; lia|done]].
      pose proof (victim_in _ _ _ Ev) as (e & He & <-)%(bi_index _ Hi). cbn.
      assert (v <> id) as Hv by congruence. rewrite delete_id by (by rewrite lookup_delete_ne).
      split_and!; [done| | |].
      * pose proof (drop_entry_inv l v e Hi He) as H. destruct l; exact H.
      * rewrite map_size_delete_Some by done. pose proof (bi_size _ Hi). unfold MAX_BAN_LIST_SIZE in *. lia.
      * intros x Hx. destruct (decide (x = v)) as [->|Hne]; [|left; by rewrite lookup_delete_ne].
        right. split_and!; [done|done|]. exists (ban_seq e). by rewrite lookup_delete_eq.
    + cbn. rewrite delete_id by done. split_and!; [done|by destruct l|lia|by left].
Qed.

Lemma ban_inner_inv l id why d man now wall :
  ban_inv l -> 0 <= next_seq l < U64_MAX -> ban_inv (ban_inner l id why d man now wall) /\
  next_seq (ban_inner l id why d man now wall) = next_seq l + 1.
Proof.
  intros Hi Hn. unfold ban_inner. destruct (make_room_spec l id now Hi) as (Hns & Hi' & Hsz & _).
  cbv zeta. set (l' := make_room l id now) in *. clearbody l'. split.
  - pose proof (add_entry_inv _ id (mkBanEntry id why ((fun d => now + d) <$> d) (next_seq l') man (Some wall)) Hi') as H.
    cbn in H. rewrite lookup_delete_eq, insert_delete_eq in H. destruct l'. cbn in *. apply H; try done. by rewrite Hns.
  - cbn. rewrite Hns. unfold add64, wrap64, U64_MAX in *. apply Z.mod_small. lia.
Qed.

Lemma elem_of_removes (gone : list (PeerId * BanEntry)) (order : list (Z * PeerId)) s id :
  bt_sorted order ->
  bt_sorted (foldr (fun e o => bt_remove (ban_seq e.2) o) order gone) /\
  ((s, id) ∈ foldr (fun e o => bt_remove (ban_seq e.2) o) order gone <->
   (s, id) ∈ order /\ forall e, e ∈ gone -> ban_seq e.2 <> s).
Proof.
  intros Hs. induction gone as [|e gone [IHs IH]]; cbn.
  - split; [done|]. split; [intros; split; [done|intros ? ?%elem_of_nil; done]|tauto].
  - split; [by apply bt_remove_sorted|]. rewrite elem_of_bt_remove_iff, IH by done. split.
    + intros (Hne & Hin & Hall). split; [done|]. intros x [-> |Hx]%elem_of_cons; [congruence|auto].
    + intros (Hin & Hall). split_and!; [intros ->; by apply (Hall e (list_elem_of_here _ _))|done|].
      intros x Hx. apply Hall. by right.
Qed.

Lemma evict_expired_inv l now : ban_inv l -> ban_inv (evict_expired l now).
Proof.
  intros [Hs Hx Hi Hq Hz]. unfold evict_expired. set (gone := filter _ (map_to_list _)).
  assert (forall x, x ∈ gone <-> entries l !! x.1 = Some x.2 /\ is_expired x.2 now = true) as Hgone.
  { intros [x e]. unfold gone. rewrite list_elem_of_filter, elem_of_map_to_list. cbn. tauto. }
  clearbody gone. constructor; cbn.
  - by apply (elem_of_removes gone (eviction_order l) 0 []).
  - intros s x. rewrite (proj2 (elem_of_removes gone (eviction_order l) s x Hs)), Hx. split.
    + intros [(e & He & <-) Hall]. exists e. split; [|done]. apply map_lookup_filter_Some. split; [done|]. cbn.
      destruct (is_expired e now) eqn:Ee; [|done]. by destruct (Hall (x, e) (proj2 (Hgone (x, e)) (conj He Ee))).
    + intros (e & [He Ee]%map_lookup_filter_Some & <-). split; [by eauto|]. intros [y e'] [He' Ee']%Hgone Heq. cbn in *.
      assert ((ban_seq e, x) ∈ eviction_order l) as H1 by (apply Hx; by eauto).
      assert ((ban_seq e', y) ∈ eviction_order l) as H2 by (apply Hx; by eauto). rewrite Heq in H2.
      assert (x = y) as -> by (by eapply bt_sorted_functional). congruence.
  - intros x e [He _]%map_lookup_filter_Some. by apply Hi.
  - intros s x Hin. apply (Hq s x). by apply (elem_of_removes gone (eviction_order l) s x Hs).
  - etrans; [|exact Hz]. apply inj_le, map_size_filter.
Qed.

(** ** The index of the tracker *)

Record tracker_inv (t : ViolationTracker) : Prop := {
  ti_nodup : NoDup (insertion_order t);
  ti_index : forall id, id ∈ insertion_order t <-> is_Some (v_entries t !! id);
  ti_size : Z.of_nat (size (v_entries t)) <= MAX_VIOLATION_TRACKER_SIZE;
  ti_count : forall id e, v_entries t !! id = Some e -> 0 <= count e < ban_threshold t
}.

Lemma tracker_room_spec t id : tracker_inv t ->
  tracker_inv (tracker_room t id) /\ v_entries (tracker_room t id) !! id = v_entries t !! id /\
  (v_entries t !! id = None -> Z.of_nat (size (v_entries (tracker_room t id))) < MAX_VIOLATION_TRACKER_SIZE).
Proof.
  intros [Hn Hx Hz Hc]. unfold tracker_room, is_none, is_some.
  destruct (v_entries t !! id) as [e|] eqn:Eid; [done|]. cbn.
  destruct (Z.leb_spec MAX_VIOLATION_TRACKER_SIZE (Z.of_nat (size (v_entries t)))) as [Hfull|]; [|done].
  destruct (insertion_order t) as [|c o] eqn:Eo.
  { exfalso. destruct (decide (v_entries t = ∅)) as [E|(x & e & He)%map_choose].
    - rewrite E, map_size_empty in Hfull. unfold MAX_VIOLATION_TRACKER_SIZE in *. lia.
    - assert (x ∈ @nil PeerId) as []%elem_of_nil. apply Hx. by eauto. }
  destruct (proj1 (Hx c) (list_elem_of_here _ _)) as [ec Hec]. cbn. rewrite Hec. cbn.
  apply NoDup_cons in Hn as [Hc1 Hn]. assert (c <> id) by congruence.
  assert (Z.of_nat (size (delete c (v_entries t))) < MAX_VIOLATION_TRACKER_SIZE) as Hlt.
  { rewrite map_size_delete_Some by done. unfold MAX_VIOLATION_TRACKER_SIZE in *. lia. }
  split_and!; [|by rewrite lookup_delete_ne|done]. constructor; cbn; try done; [|lia|].
  - intros x. specialize (Hx x). rewrite elem_of_cons in Hx. destruct (decide (x = c)) as [->|Hne].
    + rewrite lookup_delete_eq. split; [done|by intros []].
    + rewrite lookup_delete_ne by done. tauto.
  - intros x e [_ He]%lookup_delete_Some. by eapply Hc.
Qed.

Lemma tracker_update_inv t id e : tracker_inv t -> 0 <= count e < ban_threshold t ->
  (v_entries t !! id = None -> Z.of_nat (size (v_entries t)) < MAX_VIOLATION_TRACKER_SIZE) ->
  tracker_inv (match v_entries t !! id with
               | None => t <| insertion_order := insertion_order t ++ [id] |>
               | Some _ => t
               end <| v_entries := <[id := e]> (v_entries t) |>).
Proof.
  intros [Hn Hx Hz Hc] He Hroom. destruct (v_entries t !! id) as [old|] eqn:Eid; constructor; cbn; try done.
  - intros x. rewrite Hx. destruct (decide (x = id)) as [->|Hne];
      [rewrite lookup_insert_eq, Eid; split; by eauto|by rewrite lookup_insert_ne].
  - rewrite map_size_insert_Some by (by rewrite Eid; eauto). done.
  - intros x e' [[<- <-]|[_ He']]%lookup_insert_Some; [done|by eapply Hc].
  - apply NoDup_app. split_and!; [done| |apply NoDup_singleton]. intros x Hin ->%list_elem_of_singleton.
    apply Hx in Hin. rewrite Eid in Hin. by destruct Hin.
  - intros x. rewrite elem_of_app, list_elem_of_singleton, Hx. destruct (decide (x = id)) as [->|Hne].
    + rewrite lookup_insert_eq. split; [by eauto|by right].
    + rewrite lookup_insert_ne by done. tauto.
  - rewrite map_size_insert_None by done. specialize (Hroom eq_refl). lia.
  - intros x e' [[<- <-]|[_ He']]%lookup_insert_Some; [done|by eapply Hc].
Qed.

(** ** Runs of the two together *)

Record Guard := mkGuard {
  tracker : ViolationTracker;
  bans : BanList
}.

Inductive AbuseOp :=
| ABan (id : PeerId) (why : string) (duration : option Z)
| ABanManual (id : PeerId) (why : string)
| AUnban (id : PeerId)
| AEvictExpired
| ARecord (id : PeerId)
| AEvictStale.

(** An operation at an instant and a system time. *)
Definition abuse_step (g : Guard) (x : AbuseOp * Z * Z) : Guard :=
  let '(op, now, wall) := x in
  match op with
  | ABan id why d => mkGuard (tracker g) (ban (bans g) id why d now wall)
  | ABanManual id why => mkGuard (tracker g) (ban_manual (bans g) id why now wall)
  | AUnban id => mkGuard (tracker g) (unban (bans g) id)
  | AEvictExpired => mkGuard (tracker g) (evict_expired (bans g) now)
  | ARecord id => let '(_, t, l) := record_violation (tracker g) id (bans g) now wall in mkGuard t l
  | AEvictStale => mkGuard (evict_stale (tracker g) now) (bans g)
  end.

Lemma evict_stale_inv t now : tracker_inv t -> tracker_inv (evict_stale t now).
Proof.
  intros [Hn Hx Hz Hc]. unfold evict_stale. set (m := filter _ _).
  assert (forall x e, m !! x = Some e -> v_entries t !! x = Some e) as Hm
    by (intros x e He; by apply map_lookup_filter_Some in He as [? _]).
  assert (Z.of_nat (size m) <= MAX_VIOLATION_TRACKER_SIZE) as Hsz by (etrans; [|exact Hz]; apply inj_le, map_size_filter).
  clearbody m. constructor; cbn.
  - by apply NoDup_ListNoDup, List.NoDup_filter, NoDup_ListNoDup.
  - intros x. rewrite list_elem_of_In, filter_In, <- list_elem_of_In, Hx. unfold is_some.
    split; [intros [_ E]; destruct (m !! x); by eauto|]. intros [e He]. split; [by eauto|]. by rewrite He.
  - done.
  - intros x e He. by eapply Hc, Hm.
Qed.

Lemma tracker_room_frame t id :
  ban_threshold (tracker_room t id) = ban_threshold t /\ ban_initial (tracker_room t id) = ban_initial t /\
  ban_step (tracker_room t id) = ban_step t /\ ban_max (tracker_room t id) = ban_max t /\
  decay_after (tracker_room t id) = decay_after t.
Proof. unfold tracker_room. case_bool; [|done]. by destruct (evict_oldest _ _). Qed.

(** What [record] does: the count within the decay time grows by one, and at the threshold the peer
    is banned and the count starts over. *)
Lemma record_spec t id l now wall :
  tracker_inv t -> 0 < ban_threshold t <= U32_MAX ->
  let entry := default (mkViolation 0 now 0) (v_entries t !! id) in
  let n := (if decay_after t <=? sat_sub now (last_violation entry) then 0 else count entry) + 1 in
  exists t', tracker_inv t' /\ ban_threshold t' = ban_threshold t /\
  record_violation t id l now wall =
    if ban_threshold t <=? n
    then (0, t', ban l id "violation threshold exceeded"%string (Some (ban_duration_for t (ban_count entry))) now wall)
    else (n, t', l).
Proof.
  intros Hi Ht. destruct (tracker_room_spec t id Hi) as (Hi1 & He & Hroom).
  destruct (tracker_room_frame t id) as (Eth & Ein & Est & Emx & Edc). cbv zeta.
  unfold record_violation. cbv zeta. set (t1 := tracker_room t id) in *.
  assert (forall e, 0 <= count e < ban_threshold t1 ->
    tracker_inv (match v_entries t1 !! id with
               | None => t1 <| insertion_order := insertion_order t1 ++ [id] |>
               | Some _ => t1
               end <| v_entries := <[id := e]> (v_entries t1) |>)) as Hup
    by (intros e Hce; apply tracker_update_inv; [done|done|]; rewrite He; done).
  rewrite <- He in *. pose proof (ti_count _ Hi1 id) as Hcnt. clearbody t1.
  assert (0 <= count (default (mkViolation 0 now 0) (v_entries t1 !! id)) < ban_threshold t1) as Hc0.
  { destruct (v_entries t1 !! id) as [e|] eqn:Ee; [by apply Hcnt|cbn; lia]. }
  set (t2 := match v_entries t1 !! id with None => _ | Some _ => _ end) in *.
  assert (v_entries t2 = v_entries t1 /\ decay_after t2 = decay_after t1 /\ ban_threshold t2 = ban_threshold t1 /\
    forall n, ban_duration_for t2 n = ban_duration_for t1 n) as (Ev & Ed & Eh & Edur).
  { subst t2. by destruct (v_entries t1 !! id). }
  rewrite Ev, Ed, Eh, Edc, Eth. set (entry := default _ (v_entries t1 !! id)) in *.
  set (n0 := if _ <=? _ then 0 else count entry).
  assert (0 <= n0 < ban_threshold t1) as Hn0 by (subst n0; case_bool; lia).
  assert (add32 n0 1 = n0 + 1) as -> by (unfold add32; rewrite wrap32_id; [done|unfold is_u32, U32_MAX in *; lia]).
  destruct (Z.leb_spec (ban_threshold t) (n0 + 1)).
  - eexists. split; [apply (Hup (mkViolation 0 now (add32 (ban_count entry) 1))); cbn; lia|].
    split; [exact (eq_trans Eh Eth)|]. rewrite Edur.
    replace (ban_duration_for t1 (ban_count entry)) with (ban_duration_for t (ban_count entry))
      by (unfold ban_duration_for; by rewrite Ein, Est, Emx). done.
  - eexists. split; [apply (Hup (mkViolation (n0 + 1) now (ban_count entry))); cbn; lia|].
    split; [exact (eq_trans Eh Eth)|]. done.
Qed.

Lemma abuse_step_inv g x :
  ban_inv (bans g) -> tracker_inv (tracker g) -> 0 < ban_threshold (tracker g) <= U32_MAX ->
  0 <= next_seq (bans g) < U64_MAX ->
  let g' := abuse_step g x in
  ban_inv (bans g') /\ tracker_inv (tracker g') /\ ban_threshold (tracker g') = ban_threshold (tracker g) /\
  next_seq (bans g) <= next_seq (bans g') <= next_seq (bans g) + 1.
Proof.
  intros Hb Ht Hth Hn. cbv zeta. destruct x as [[op now] wall]. cbn [abuse_step].
  destruct op as [id why d|id why|id| |id|]; cbn [bans tracker].
  - destruct (ban_inner_inv (bans g) id why d false now wall Hb Hn) as [Hi Hs]. unfold ban.
    split_and!; [done|done|done|lia|lia].
  - destruct (ban_inner_inv (bans g) id why None true now wall Hb Hn) as [Hi Hs]. unfold ban_manual.
    split_and!; [done|done|done|lia|lia].
  - assert (next_seq (unban (bans g) id) = next_seq (bans g)) as E by (unfold unban; by destruct (_ !! id)).
    split_and!; [by apply unban_inv|done|done|lia|lia].
  - split_and!; [by apply evict_expired_inv|done|done|cbn; lia|cbn; lia].
  - destruct (record_spec (tracker g) id (bans g) now wall Ht Hth) as (t' & Ht' & Eth & ->).
    case_bool; cbn [bans tracker]; [|split_and!; [done|done|done|lia|lia]].
    destruct (ban_inner_inv (bans g) id "violation threshold exceeded"%string
      (Some (ban_duration_for (tracker g) (ban_count (default (mkViolation 0 now 0) (v_entries (tracker g) !! id)))))
      false now wall Hb Hn) as [Hi Hs]. unfold ban. split_and!; [done|done|done|lia|lia].
  - split_and!; [done|by apply evict_stale_inv|done|lia|lia].
Qed.

(** C32. Whatever sequence of bans, unbans, violations and sweeps happens at whatever times, the ban
    list and the violation tracker stay consistent and bounded: the eviction index holds exactly
    the sequence number of every entry, the queue of the tracker exactly its peers, once each,
    neither structure exceeds its cap, and every count is below the threshold. *)
Theorem abuse_consistent (threshold initial step max decay : Z) (t0 : ViolationTracker)
    (ops : list (AbuseOp * Z * Z))
    (Hnew : tracker_new threshold initial step max decay = inr t0)
    (Hth : 0 <= threshold <= U32_MAX) (Hops : zlen ops < U64_MAX) :
  let g := fold_left abuse_step ops (mkGuard t0 ban_list_new) in
  ban_inv (bans g) /\ tracker_inv (tracker g).
Proof.
  unfold tracker_new in Hnew. destruct (Z.eqb_spec threshold 0); [done|]. injection Hnew as <-. cbv zeta.
  set (g0 := mkGuard _ ban_list_new).
  enough (ban_inv (bans (fold_left abuse_step ops g0)) /\ tracker_inv (tracker (fold_left abuse_step ops g0)) /\
    ban_threshold (tracker (fold_left abuse_step ops g0)) = threshold /\
    0 <= next_seq (bans (fold_left abuse_step ops g0)) <= zlen ops) by tauto.
  induction ops as [|x ops IH] using rev_ind.
  - split_and!; cbn; try done; [apply ban_list_new_inv|]. constructor; cbn; try done; [apply NoDup_nil_2|].
    intros id. rewrite elem_of_nil, lookup_empty. split; [done|]. by intros [].
  - rewrite zlen_app, zlen_cons, zlen_nil in Hops. destruct IH as (Hb & Ht & Eth & Hn); [lia|].
    rewrite fold_left_app. cbn [fold_left].
    pose proof (abuse_step_inv (fold_left abuse_step ops g0) x Hb Ht ltac:(lia) ltac:(lia)) as Hx. cbv zeta in Hx.
    destruct Hx as (? & ? & ? & ?). split_and!; [done|done|congruence|lia|rewrite zlen_app, zlen_cons, zlen_nil; lia].
Qed.

Lemma abuse_consistent_witness :
  let ops := [(ARecord (repeat x07 32), 10, 0); (ARecord (repeat x07 32), 20, 0);
              (ABanManual (repeat x08 32) "spam"%string, 30, 0); (AEvictExpired, 40, 0); (AEvictStale, 50, 0)] in
  let g := fold_left abuse_step ops (mkGuard (mkTracker ∅ [] 2 5 5 60 600) ban_list_new) in
  ban_inv (bans g) /\ tracker_inv (tracker g).
Proof.
  apply (abuse_consistent 2 5 5 60 600 (mkTracker ∅ [] 2 5 5 60 600)
    [(ARecord (repeat x07 32), 10, 0); (ARecord (repeat x07 32), 20, 0);
     (ABanManual (repeat x08 32) "spam"%string, 30, 0); (AEvictExpired, 40, 0); (AEvictStale, 50, 0)]).
  - reflexivity.
  - unfold U32_MAX. lia.
  - reflexivity.
Defined.

(** ** Who is banned *)

Lemma victim_spec l now s x e : ban_inv l -> victim l now = Some (s, x) -> entries l !! x = Some e ->
  is_expired e now = true \/ manual e = false \/
  (forall y e', entries l !! y = Some e' -> manual e' = true /\ is_expired e' now = false).
Proof.
  intros Hi Hv He. unfold victim in Hv.
  destruct (List.find (entry_is (fun e => is_expired e now) l) _) as [y|] eqn:E1.
  { assert (y = (s, x)) as -> by congruence. apply find_some in E1 as [_ E1]. unfold entry_is in E1. cbn in E1.
    rewrite He in E1. by left. }
  destruct (List.find (entry_is (fun e => negb (manual e)) l) _) as [y|] eqn:E2.
  { assert (y = (s, x)) as -> by congruence. apply find_some in E2 as [_ E2]. unfold entry_is in E2. cbn in E2.
    rewrite He in E2. cbn in E2. to_prop. by auto. }
  right. right. intros y e' He'.
  assert ((ban_seq e', y) ∈ eviction_order l) as Hin by (apply (bi_index _ Hi); by eauto).
  apply list_elem_of_In in Hin. pose proof (find_none _ _ E1 _ Hin) as N1. pose proof (find_none _ _ E2 _ Hin) as N2.
  unfold entry_is in N1, N2. cbn in N1, N2. rewrite He' in N1, N2. cbn in N1, N2. to_prop. done.
Qed.

(** A ban holds: the peer is banned from now on, for ever or until the duration is over, and
    nobody else's ban changes, except that when the list is full one entry makes room: an expired
    one if there is one, else one that is not manual, and a standing manual ban only when every
    entry of the list is one. *)
Theorem ban_effect (l : BanList) (id : PeerId) (why : string) (d : option Z) (man : bool) (now wall : Z)
    (Hi : ban_inv l) :
  let l' := ban_inner l id why d man now wall in
  (forall t, is_banned l' id t = match d with None => true | Some d => t <? now + d end) /\
  (forall x t, x <> id -> is_banned l' x t = is_banned l x t \/
    (MAX_BAN_LIST_SIZE <= Z.of_nat (size (entries l)) /\ is_banned l' x t = false /\
     exists e, entries l !! x = Some e /\
       (is_expired e now = true \/ manual e = false \/
        forall y e', entries l !! y = Some e' -> manual e' = true /\ is_expired e' now = false))).
Proof.
  cbv zeta. destruct (make_room_spec l id now Hi) as (_ & _ & _ & Hx). cbv zeta in Hx.
  unfold is_banned, ban_inner. cbn. set (l' := make_room l id now) in *. clearbody l'. split.
  - intros t. rewrite lookup_insert_eq. unfold is_expired. destruct d as [d|]; cbn; [|done].
    rewrite Z.ltb_antisym. done.
  - intros x t Hne. rewrite lookup_insert_ne by done.
    destruct (Hx x Hne) as [->|(Hfull & _ & s & Hv & ->)]; [by left|]. right. split_and!; [done|done|].
    pose proof (victim_in _ _ _ Hv) as (e & He & _)%(bi_index _ Hi). exists e. split; [done|]. by eapply victim_spec.
Qed.

Lemma ban_effect_witness :
  let l' := ban_inner ban_list_new (repeat x07 32) "spam"%string (Some 60) false 100 0 in
  (forall t, is_banned l' (repeat x07 32) t = (t <? 100 + 60)) /\
  (forall x t, x <> repeat x07 32 -> is_banned l' x t = is_banned ban_list_new x t \/
    (MAX_BAN_LIST_SIZE <= Z.of_nat (size (entries ban_list_new)) /\ is_banned l' x t = false /\
     exists e, entries ban_list_new !! x = Some e /\
       (is_expired e 100 = true \/ manual e = false \/
        forall y e', entries ban_list_new !! y = Some e' -> manual e' = true /\ is_expired e' 100 = false))).
Proof. apply (ban_effect ban_list_new (repeat x07 32) "spam"%string (Some 60) false 100 0 ban_list_new_inv). Defined.

(** A standing manual ban is lifted by an automatic one: a ban for a violation or a killed
    session replaces the operator's entry for the peer, which is then neither permanent nor
    written to disk any more. *)
Theorem manual_ban_replaced :
  let peer := repeat x07 32 in
  let l := ban_manual ban_list_new peer "admin ban"%string 0 0 in
  let l' := ban l peer "session killed"%string (Some 30) 10 0 in
  is_banned l peer 1000 = true /\ length (manual_bans l 1000) = 1%nat /\
  is_banned l' peer 1000 = false /\ manual_bans l' 20 = [].
Proof. vm_compute. done. Qed.

(** With the durations the node is started with (5 s a step up to an hour, decay after 600 s), a peer
    at its two hundredth ban is out for 1005 seconds, and the sweep forgets it, and how often it was
    banned, while the ban still runs. *)
Lemma escalation_forgotten :
  let sec := 1000000000 in
  let peer := repeat x07 32 in
  let t := mkTracker {[ peer := mkViolation 0 0 200 ]} [peer] 5 (5 * sec) (5 * sec) (3600 * sec) (600 * sec) in
  ban_duration_for t 200 = 1005 * sec /\ v_entries (evict_stale t (601 * sec)) !! peer = None.
Proof. vm_compute. done. Qed.

(** ** The replay window as a set of the latest identifiers *)

(** The answers to a sequence of identifiers, and the window after it. *)
Fixpoint check_all (w : ReplayWindow) (ids : list Z) : list bool * ReplayWindow :=
  match ids with
  | [] => ([], w)
  | x :: ids =>
      let '(ok, w) := check_and_insert w x in
      let '(oks, w) := check_all w ids in (ok :: oks, w)
  end.

(** The last [n] elements. *)
Definition latest {A} (n : Z) (l : list A) : list A := drop (length l - Z.to_nat n) l.

(** What the window promises: the identifiers accepted so far, of which an identifier is refused
    exactly if it is among the latest ones. *)
Fixpoint accept_all (n : Z) (accepted : list Z) (ids : list Z) : list bool * list Z :=
  match ids with
  | [] => ([], accepted)
  | x :: ids =>
      let ok := bool_decide (x ∉ latest n accepted) in
      let '(oks, accepted) := accept_all n (if ok then accepted ++ [x] else accepted) ids in
      (ok :: oks, accepted)
  end.

Definition window_refines (accepted : list Z) (w : ReplayWindow) : Prop :=
  0 < window_size w /\ order w = latest (window_size w) accepted /\ seen w = list_to_set (order w) /\ NoDup (order w).

Lemma latest_snoc n (l : list Z) x : 0 < n ->
  latest n (l ++ [x]) = (if n <=? zlen (latest n l) then tail (latest n l) else latest n l) ++ [x].
Proof.
  intros Hn. unfold latest, zlen. rewrite length_app, length_drop. cbn [length].
  destruct (Z.leb_spec n (Z.of_nat (length l - (length l - Z.to_nat n)))).
  - replace (tail (drop (length l - Z.to_nat n) l)) with (drop (S (length l - Z.to_nat n)) l)
      by (by rewrite <- Nat.add_1_r, <- drop_drop; destruct (drop _ l)).
    rewrite drop_app_le by lia. f_equal. f_equal. lia.
  - rewrite drop_app_le by lia. f_equal. f_equal. lia.
Qed.

Lemma check_refines accepted w x : window_refines accepted w ->
  let '(ok, w') := check_and_insert w x in
  ok = bool_decide (x ∉ latest (window_size w) accepted) /\ window_size w' = window_size w /\
  window_refines (if ok then accepted ++ [x] else accepted) w'.
Proof.
  intros (Hn & Ho & Hs & Hd). unfold check_and_insert. rewrite Hs, <- Ho. rewrite bool_decide_not.
  case_bool_decide as Hin; rewrite elem_of_list_to_set in Hin.
  - rewrite bool_decide_eq_true_2 by done. split_and!; try done.
  - rewrite bool_decide_eq_false_2 by done. unfold window_refines.
    destruct (Z.leb_spec (window_size w) (zlen (order w))) as [Hfull|Hroom].
    + destruct (order w) as [|y o] eqn:Eo; [rewrite zlen_nil in Hfull; lia|].
      apply NoDup_cons in Hd as [Hy Hd]. rewrite not_elem_of_cons in Hin. cbn. split_and!; try done.
      * rewrite latest_snoc, <- Ho by done. by rewrite (proj2 (Z.leb_le _ _) Hfull).
      * rewrite list_to_set_app_L. cbn. clear -Hy. set_solver.
      * apply NoDup_app. split_and!; [done| |apply NoDup_singleton]. intros z Hz ->%list_elem_of_singleton. tauto.
    + cbn. split_and!; try done.
      * rewrite latest_snoc, <- Ho by done. by rewrite (proj2 (Z.leb_gt _ _) Hroom).
      * rewrite list_to_set_app_L. cbn. clear. set_solver.
      * apply NoDup_app. split_and!; [done| |apply NoDup_singleton]. by intros z Hz ->%list_elem_of_singleton.
Qed.

(** The replay window is the set of the latest accepted identifiers: on any sequence of requests
    its answers are those of the specification that keeps every identifier accepted so far and
    refuses one exactly if it is among the last [window_size] of them; it never holds more. *)
Theorem replay_window_exact (size : Z) (ids : list Z) :
  let w := (check_all (window_new size) ids).2 in
  (check_all (window_new size) ids).1 = (accept_all (Z.max size 1) [] ids).1 /\
  order w = latest (Z.max size 1) (accept_all (Z.max size 1) [] ids).2 /\
  zlen (order w) <= Z.max size 1.
Proof.
  assert (window_refines [] (window_new size)) as H0
    by (split_and!; cbn; [lia|done|done|apply NoDup_nil_2]).
  change (Z.max size 1) with (window_size (window_new size)). generalize dependent (@nil Z).
  generalize (window_new size). cbv zeta. induction ids as [|x ids IH]; intros w acc Hw; cbn [check_all accept_all].
  - destruct Hw as (Hn & Ho & _). cbn [fst snd]. rewrite Ho. split_and!; [done|done|]. unfold latest, zlen. rewrite length_drop. lia.
  - pose proof (check_refines acc w x Hw) as Hc. destruct (check_and_insert w x) as [ok w']. destruct Hc as (-> & Esz & Hw').
    destruct (IH w' _ Hw') as (E1 & E2 & E3). rewrite Esz in *.
    destruct (check_all w' ids) as [oks w''], (accept_all _ _ ids) as [oks' acc']. cbn in *. by rewrite E1.
Qed.
