(* ===== verification/FrameCodec.v ===== *)
(** * The OVL1 frame header

    crates/veil-proto/src/header.rs and codec.rs: the 24 bytes in front of every frame of a session,
    which are also the associated data of the frame's seal. *)

From Stdlib Require Import Strings.String.
From S2P Require Import Prelude Decimal.
#[local] Open Scope Z_scope.
#[local] Open Scope list_scope.

Definition MAGIC : list byte := [x4f; x56; x4c; x31].
Definition VERSION : Z := 2.
Definition HEADER_SIZE : Z := 24.
Definition FLAGS_PRIORITY_MASK : Z := 3.
Definition MAX_FRAME_BODY : Z := 16 * 1024 * 1024.
Definition DEFAULT_MAX_FRAME_BODY : Z := 1024 * 1024.

Record FrameHeader := mkFrameHeader {
  version : Z;
  family : Z;
  msg_type : Z;
  flags : Z;
  header_len : Z;
  body_len : Z;
  stream_id : Z;
  request_id : Z
}.

#[export] Instance eta_FrameHeader : Settable FrameHeader := fun h =>
  mkFrameHeader (version h) (family h) (msg_type h) (flags h) (header_len h) (body_len h) (stream_id h)
    (request_id h).

(** The errors of this decoder. *)
Inductive ProtoError :=
| InvalidMagic (magic : list byte)
| UnsupportedVersion (version : Z)
| BodyTooLarge (body_len max : Z)
| BufferTooShort (need got : Z)
| Malformed (message : list byte).

Definition header_new (family msg_type : Z) : FrameHeader :=
  mkFrameHeader VERSION family msg_type 0 HEADER_SIZE 0 0 0.

Definition priority (h : FrameHeader) : Z := Z.land (flags h) FLAGS_PRIORITY_MASK.

(** [!FLAGS_PRIORITY_MASK] on 16 bits. *)
Definition set_priority (h : FrameHeader) (p : Z) : FrameHeader :=
  h <| flags := Z.lor (Z.land (flags h) (65535 - FLAGS_PRIORITY_MASK)) (Z.land p FLAGS_PRIORITY_MASK) |>.

Definition encode_header (h : FrameHeader) : list byte :=
  MAGIC ++ [byte_of VERSION; byte_of (family h)] ++ be_bytes 2 (msg_type h) ++ be_bytes 2 (flags h) ++
  be_bytes 2 (header_len h) ++ be_bytes 4 (body_len h) ++ be_bytes 4 (stream_id h) ++ be_bytes 4 (request_id h).

Definition frame_aad (h : FrameHeader) : list byte := encode_header h.

Definition encode_frame (h : FrameHeader) (body : list byte) : list byte := encode_header h ++ body.

Definition bad_header_len (n : Z) : list byte :=
  list_byte_of_string "header_len=" ++ u64_to_string n ++ list_byte_of_string " but expected " ++
  u64_to_string HEADER_SIZE ++ list_byte_of_string " (OVL1 v1 has no TLV header extensions)".

Definition decode_header_inner (buf : list byte) (max_body : Z) : ProtoError + FrameHeader :=
  match buf with
  | b0 :: b1 :: b2 :: b3 :: b4 :: b5 :: b6 :: b7 :: b8 :: b9 :: b10 :: b11 :: b12 :: b13 :: b14 :: b15 ::
    b16 :: b17 :: b18 :: b19 :: b20 :: b21 :: b22 :: b23 :: _ =>
      let magic := [b0; b1; b2; b3] in
      if negb (bool_decide (magic = MAGIC)) then inl (InvalidMagic magic)
      else
        let version := byte_val b4 in
        if negb (version =? VERSION) then inl (UnsupportedVersion version)
        else
          let header_len := from_be [b10; b11] in
          let body_len := from_be [b12; b13; b14; b15] in
          if negb (header_len =? HEADER_SIZE) then inl (Malformed (bad_header_len header_len))
          else if max_body <? body_len then inl (BodyTooLarge body_len max_body)
          else inr (mkFrameHeader version (byte_val b5) (from_be [b6; b7]) (from_be [b8; b9]) header_len body_len
                      (from_be [b16; b17; b18; b19]) (from_be [b20; b21; b22; b23]))
  | _ => inl (BufferTooShort HEADER_SIZE (zlen buf))
  end.

Definition decode_header_with_limit (buf : list byte) (max_body : Z) : ProtoError + FrameHeader :=
  decode_header_inner buf (Z.min max_body MAX_FRAME_BODY).

Definition decode_header (buf : list byte) : ProtoError + FrameHeader := decode_header_inner buf MAX_FRAME_BODY.

(** ** The codec *)

(** A header this version sends: its fields have their widths. *)
Definition header_ok (h : FrameHeader) : Prop :=
  version h = VERSION /\ header_len h = HEADER_SIZE /\ is_u8 (family h) /\ is_u16 (msg_type h) /\ is_u16 (flags h) /\
  is_u32 (body_len h) /\ is_u32 (stream_id h) /\ is_u32 (request_id h).

Lemma header_decode_encode h rest max : header_ok h -> body_len h <= max ->
  decode_header_inner (encode_header h ++ rest) max = inr h.
Proof.
  intros (Hv & Hl & Hf & Hm & Hg & Hb & Hs & Hr) Hmax.
  pose proof (from_be_bytes_id 2 (msg_type h) Hm) as Em. pose proof (from_be_bytes_id 2 (flags h) Hg) as Eg.
  pose proof (from_be_bytes_id 4 (body_len h) Hb) as Eb. pose proof (from_be_bytes_id 4 (stream_id h) Hs) as Es.
  pose proof (from_be_bytes_id 4 (request_id h) Hr) as Er.
  pose proof (length_be_bytes 2 (msg_type h)). pose proof (length_be_bytes 2 (flags h)).
  pose proof (length_be_bytes 4 (body_len h)). pose proof (length_be_bytes 4 (stream_id h)).
  pose proof (length_be_bytes 4 (request_id h)).
  unfold encode_header. rewrite Hl. change (be_bytes 2 HEADER_SIZE) with [x00; x18].
  destruct (be_bytes 2 (msg_type h)) as [|m0 [|m1 [|]]]; try done.
  destruct (be_bytes 2 (flags h)) as [|g0 [|g1 [|]]]; try done.
  destruct (be_bytes 4 (body_len h)) as [|c0 [|c1 [|c2 [|c3 [|]]]]]; try done.
  destruct (be_bytes 4 (stream_id h)) as [|s0 [|s1 [|s2 [|s3 [|]]]]]; try done.
  destruct (be_bytes 4 (request_id h)) as [|r0 [|r1 [|r2 [|r3 [|]]]]]; try done.
  cbn [app MAGIC decode_header_inner]. cbv zeta. rewrite bool_decide_eq_true_2 by done. cbn [negb].
  change (byte_val (byte_of VERSION)) with VERSION. change (from_be [x00; x18]) with HEADER_SIZE.
  rewrite !Z.eqb_refl, Em, Eg, Eb, Es, Er, byte_val_of. cbn [negb]. rewrite (proj2 (Z.ltb_ge _ _) Hmax).
  unfold wrap8. rewrite Z.mod_small by done. rewrite <- Hv at 1. rewrite <- Hl. by destruct h.
Qed.

Lemma from_be_u16 l : length l = 2%nat -> is_u16 (from_be l).
Proof. intros E. pose proof (from_be_range l) as Hl. unfold zlen in Hl. rewrite E in Hl. exact Hl. Qed.

Lemma from_be_u32 l : length l = 4%nat -> is_u32 (from_be l).
Proof. intros E. pose proof (from_be_range l) as Hl. unfold zlen in Hl. rewrite E in Hl. exact Hl. Qed.

Lemma be_pair a b : be_bytes 2 (from_be [a; b]) = [a; b].
Proof. exact (be_bytes_from_be [a; b]). Qed.

Lemma be_quad a b c d : be_bytes 4 (from_be [a; b; c; d]) = [a; b; c; d].
Proof. exact (be_bytes_from_be [a; b; c; d]). Qed.

Lemma header_inv buf h max : decode_header_inner buf max = inr h ->
  header_ok h /\ body_len h <= max /\ exists rest, buf = encode_header h ++ rest.
Proof.
  unfold decode_header_inner. intros E.
  destruct buf as [|b0 buf]; [done|]. destruct buf as [|b1 buf]; [done|]. destruct buf as [|b2 buf]; [done|]. destruct buf as [|b3 buf]; [done|].
  destruct buf as [|b4 buf]; [done|]. destruct buf as [|b5 buf]; [done|]. destruct buf as [|b6 buf]; [done|]. destruct buf as [|b7 buf]; [done|].
  destruct buf as [|b8 buf]; [done|]. destruct buf as [|b9 buf]; [done|]. destruct buf as [|b10 buf]; [done|]. destruct buf as [|b11 buf]; [done|].
  destruct buf as [|b12 buf]; [done|]. destruct buf as [|b13 buf]; [done|]. destruct buf as [|b14 buf]; [done|]. destruct buf as [|b15 buf]; [done|].
  destruct buf as [|b16 buf]; [done|]. destruct buf as [|b17 buf]; [done|]. destruct buf as [|b18 buf]; [done|]. destruct buf as [|b19 buf]; [done|].
  destruct buf as [|b20 buf]; [done|]. destruct buf as [|b21 buf]; [done|]. destruct buf as [|b22 buf]; [done|]. destruct buf as [|b23 buf]; [done|].
  cbv zeta in E.
  case_bool_decide as Em; cbn [negb] in E; [|done].
  destruct (byte_val b4 =? VERSION) eqn:Ev; cbn [negb] in E; [|done].
  destruct (from_be [b10; b11] =? HEADER_SIZE) eqn:El; cbn [negb] in E; [|done].
  destruct (Z.ltb_spec max (from_be [b12; b13; b14; b15])); [done|]. injection E as <-. to_prop.
  split; [|split; [done|]].
  - pose proof (from_be_u16 [b6; b7] eq_refl). pose proof (from_be_u16 [b8; b9] eq_refl).
    pose proof (from_be_u32 [b12; b13; b14; b15] eq_refl). pose proof (from_be_u32 [b16; b17; b18; b19] eq_refl).
    pose proof (from_be_u32 [b20; b21; b22; b23] eq_refl). pose proof (byte_val_range b5). by repeat (split; [done|]).
  - exists buf. unfold encode_header. cbn [family msg_type flags header_len body_len stream_id request_id].
    rewrite <- Em, <- Ev, !byte_of_val, !be_pair, !be_quad. done.
Qed.

(** The header codec is exact and the seal covers all of it.  A header is decoded if and only if
    the buffer starts with its encoding, of this version, without extensions, with every field
    within its width and a body no larger than the session's limit and 16 MiB; and two headers with
    the same associated data are the same header, so no field can be changed under the tag. *)
Theorem frame_header_exact :
  (forall buf limit h, decode_header_with_limit buf limit = inr h <->
    header_ok h /\ body_len h <= Z.min limit MAX_FRAME_BODY /\ exists rest, buf = encode_header h ++ rest) /\
  (forall h h', header_ok h -> header_ok h' -> frame_aad h = frame_aad h' -> h = h').
Proof.
  split.
  - intros buf limit h. unfold decode_header_with_limit. split; [apply header_inv|].
    intros (Hok & Hb & rest & ->). by apply header_decode_encode.
  - intros h h' Hok Hok' E. unfold frame_aad in E.
    assert (body_len h <= U32_MAX) by (destruct Hok as (_ & _ & _ & _ & _ & Hb & _); unfold is_u32, U32_MAX in *; lia).
    assert (body_len h' <= U32_MAX) by (destruct Hok' as (_ & _ & _ & _ & _ & Hb & _); unfold is_u32, U32_MAX in *; lia).
    pose proof (header_decode_encode h [] U32_MAX Hok ltac:(done)) as D. rewrite E, (header_decode_encode h' [] U32_MAX) in D by done.
    by injection D.
Qed.

Lemma frame_header_exact_witness :
  let h := mkFrameHeader 2 3 3 1 24 100 7 42 in
  decode_header_with_limit (encode_header h ++ [x00]) 1000 = inr h.
Proof.
  apply (proj1 frame_header_exact). split; [|split].
  - unfold header_ok, is_u8, is_u16, is_u32. cbn. unfold VERSION, HEADER_SIZE. lia.
  - unfold MAX_FRAME_BODY. cbn. lia.
  - exists [x00]. reflexivity.
Defined.
