(* ===== verification/IpText.v ===== *)
(** * Textual addresses

    [str::parse::<IpAddr>()] as the standard library has it (core/net/parser.rs), and
    crates/veil-dht/src/routing.rs on transport addresses: the host of a transport URL and the
    prefixes by which the routing table groups contacts. *)

From Stdlib Require Import Strings.String.
From S2P Require Import Prelude Decimal OMap Inet.
#[local] Open Scope Z_scope.
#[local] Open Scope list_scope.

(** ** The parser of the standard library

    A reader consumes a prefix of its input; [None] leaves the input as it was. *)

Definition Read (A : Type) : Type := list byte -> option (A * list byte).

(** [char::to_digit]. *)
Definition to_digit (radix : Z) (b : byte) : option Z :=
  let x := byte_val b in
  let d := if (48 <=? x) && (x <=? 57) then x - 48
           else if (97 <=? x) && (x <=? 122) then x - 87
           else if (65 <=? x) && (x <=? 90) then x - 55
           else radix in
  if d <? radix then Some d else None.

Definition read_given_char (target : byte) : Read unit := fun l =>
  match l with
  | b :: l => if bool_decide (b = target) then Some (tt, l) else None
  | [] => None
  end.

(** [read_separator]: the separator in front of every item but the first. *)
Definition read_separator {A} (sep : byte) (index : nat) (inner : Read A) : Read A := fun l =>
  match index with
  | O => inner l
  | S _ => '(_, l) ← read_given_char sep l; inner l
  end.

(** The digits [read_number] goes through: their count and value. *)
Fixpoint read_digits (radix max_digits count result : Z) (l : list byte) : option (Z * Z * list byte) :=
  match l with
  | [] => Some (count, result, l)
  | b :: l' =>
      match to_digit radix b with
      | None => Some (count, result, l)
      | Some d =>
          if max_digits <? count + 1 then None
          else read_digits radix max_digits (count + 1) (result * radix + d) l'
      end
  end.

(** [read_number] for a type whose largest value is [top]. *)
Definition read_number (top radix max_digits : Z) (allow_zero_prefix : bool) : Read Z := fun l =>
  let has_leading_zero := bool_decide (head l = Some x30) in
  '(count, result, rest) ← read_digits radix max_digits 0 0 l;
  if count =? 0 then None
  else if negb allow_zero_prefix && has_leading_zero && (1 <? count) then None
  else if result <=? top then Some (result, rest) else None.

Definition read_octet : Read Z := read_number 255 10 3 false.

Definition read_ipv4_addr : Read (list byte) := fun l =>
  '(a, l) ← read_separator x2e 0 read_octet l;
  '(b, l) ← read_separator x2e 1 read_octet l;
  '(c, l) ← read_separator x2e 2 read_octet l;
  '(d, l) ← read_separator x2e 3 read_octet l;
  Some ([byte_of a; byte_of b; byte_of c; byte_of d], l).

(** [read_groups] with [room] groups still to fill, from group [i] on: the octets read, whether they
    end in an embedded IPv4 address, and the input left. *)
Fixpoint read_groups (room i : nat) (l : list byte) : list byte * bool * list byte :=
  match room with
  | O => ([], false, l)
  | S room =>
      let group :=
        match read_separator x3a i (read_number 65535 16 4 true) l with
        | None => ([], false, l)
        | Some (g, l) =>
            let '(o, v4, l) := read_groups room (S i) l in (be_bytes 2 g ++ o, v4, l)
        end in
      match room with
      | O => group
      | S _ =>
          match read_separator x3a i read_ipv4_addr l with
          | Some (o, l) => (o, true, l)
          | None => group
          end
      end
  end.

Definition read_ipv6_addr : Read (list byte) := fun l =>
  let '(hd, head_ipv4, l) := read_groups 8 0 l in
  if (length hd =? 16)%nat then Some (hd, l)
  else if head_ipv4 then None
  else
    '(_, l) ← read_given_char x3a l;
    '(_, l) ← read_given_char x3a l;
    let '(tl, _, l) := read_groups (8 - (length hd / 2 + 1)) 0 l in
    Some (hd ++ repeat x00 (16 - length hd - length tl) ++ tl, l).

(** [text.parse::<IpAddr>().ok()]. *)
Definition parse_ip (text : list byte) : option IpAddr :=
  match read_ipv4_addr text with
  | Some (o, rest) => if is_nil rest then Some (IpV4 o) else None
  | None =>
      match read_ipv6_addr text with
      | Some (o, rest) => if is_nil rest then Some (IpV6 o) else None
      | None => None
      end
  end.

(** ** Hosts and prefixes (routing.rs) *)

(** [strip_prefix]. *)
Fixpoint strip_prefix (p l : list byte) : option (list byte) :=
  match p, l with
  | [], _ => Some l
  | _, [] => None
  | x :: p, y :: l => if bool_decide (x = y) then strip_prefix p l else None
  end.

(** [split(c).next()]: the text up to the first [c]. *)
Fixpoint until (c : byte) (l : list byte) : list byte :=
  match l with
  | [] => []
  | b :: l => if bool_decide (b = c) then [] else b :: until c l
  end.

Definition host_from_transport (transport : list byte) : list byte :=
  let host_part :=
    match strip_prefix (ascii "tcp://") transport with
    | Some rest => rest
    | None =>
        match strip_prefix (ascii "quic://") transport with
        | Some rest => rest
        | None => default transport (strip_prefix (ascii "udp://") transport)
        end
    end in
  match host_part with
  | x5b :: _ => until x5d (drop_front (fun b => bool_decide (b = x5b)) host_part)
  | _ => until x3a host_part
  end.

(** A /24 of IPv4 or a /48 of IPv6. *)
Inductive SubnetKey :=
| SubnetV4 (octets : list Z)
| SubnetV6 (segs : list Z).

(** A /16 of IPv4 or a /32 of IPv6. *)
Inductive As16Key :=
| As16V4 (octets : list Z)
| As16V6 (segs : list Z).

#[global] Instance SubnetKey_eq_dec : EqDecision SubnetKey.
Proof. solve_decision. Defined.
#[global] Instance As16Key_eq_dec : EqDecision As16Key.
Proof. solve_decision. Defined.

Definition subnet_prefix (transport : list byte) : option SubnetKey :=
  a ← parse_ip (host_from_transport transport);
  Some match a with
       | IpV4 o => SubnetV4 [octet o 0; octet o 1; octet o 2]
       | IpV6 o => SubnetV6 [segment o 0; segment o 1; segment o 2]
       end.

Definition as16_prefix (transport : list byte) : option As16Key :=
  a ← parse_ip (host_from_transport transport);
  Some match a with
       | IpV4 o => As16V4 [octet o 0; octet o 1]
       | IpV6 o => As16V6 [segment o 0; segment o 1]
       end.

(** ** Which transports have a prefix *)

(** [Display] of an IPv4 address. *)
Definition show_v4 (o : list byte) : list byte :=
  to_dec 3 (octet o 0) ++ [x2e] ++ to_dec 3 (octet o 1) ++ [x2e] ++
  to_dec 3 (octet o 2) ++ [x2e] ++ to_dec 3 (octet o 3).

Lemma read_octet_dot b l : read_octet (to_dec 3 (byte_val b) ++ x2e :: l) = Some (byte_val b, x2e :: l).
Proof. destruct b; reflexivity. Qed.

Lemma read_octet_end b : read_octet (to_dec 3 (byte_val b)) = Some (byte_val b, []).
Proof. destruct b; reflexivity. Qed.

Lemma parse_show_v4 o : length o = 4%nat -> parse_ip (show_v4 o) = Some (IpV4 o).
Proof.
  destruct o as [|a [|b [|c [|d [|]]]]]; try done. intros _.
  unfold parse_ip, show_v4, octet, read_ipv4_addr, read_separator. cbn [from_option lookup list_lookup].
  cbn [app]. do 3 (rewrite read_octet_dot; cbn [mbind option_bind read_given_char]; rewrite bool_decide_true by done;
    cbn [mbind option_bind]).
  rewrite read_octet_end. cbn. by rewrite !byte_of_val.
Qed.

Lemma until_app c l r : c ∉ l -> until c (l ++ c :: r) = l.
Proof.
  induction l as [|b l IH]; intros Hn; cbn.
  - by rewrite bool_decide_true.
  - apply not_elem_of_cons in Hn as [Hb Hn]. rewrite bool_decide_false by done. by rewrite IH.
Qed.

Lemma octet_text b : (x3a ∉ to_dec 3 (byte_val b)) /\ (x5b ∉ to_dec 3 (byte_val b)) /\
  exists c l, to_dec 3 (byte_val b) = c :: l.
Proof.
  split; [|split].
  1, 2: apply (bool_decide_unpack _); destruct b; vm_compute; exact I.
  destruct b; by eexists _, _.
Qed.

Lemma host_show_v4 o r : length o = 4%nat ->
  (match show_v4 o ++ x3a :: r with
   | x5b :: _ => until x5d (drop_front (fun b => bool_decide (b = x5b)) (show_v4 o ++ x3a :: r))
   | _ => until x3a (show_v4 o ++ x3a :: r)
   end) = show_v4 o.
Proof.
  destruct o as [|a [|b [|c [|d [|]]]]]; try done. intros _.
  assert (until x3a (show_v4 [a; b; c; d] ++ x3a :: r) = show_v4 [a; b; c; d]) as Hu.
  { apply until_app. unfold show_v4, octet. cbn [from_option lookup list_lookup].
    rewrite !not_elem_of_app, !list_elem_of_singleton.
    pose proof (octet_text a). pose proof (octet_text b). pose proof (octet_text c).
    pose proof (octet_text d). naive_solver. }
  destruct (octet_text a) as (_ & Hb & x & l & E). revert Hu. unfold show_v4, octet.
  cbn [from_option lookup list_lookup]. rewrite E in *. cbn [app]. intros Hu.
  apply not_elem_of_cons in Hb as [Hb _]. destruct x; done.
Qed.

(** The schemes [host_from_transport] knows. *)
Definition known_schemes : list (list byte) := [ascii "tcp://"; ascii "quic://"; ascii "udp://"].

Lemma known_scheme_host scheme o port : scheme ∈ known_schemes -> length o = 4%nat ->
  host_from_transport (scheme ++ show_v4 o ++ x3a :: port) = show_v4 o.
Proof.
  intros Hs Ho. rewrite <- (host_show_v4 o port Ho) at 2.
  repeat (apply elem_of_cons in Hs as [->|Hs]; [reflexivity|]). by apply elem_of_nil in Hs.
Qed.

(** Every address of a known scheme is grouped by its prefixes. *)
Lemma known_scheme_prefix scheme a b c d port : scheme ∈ known_schemes ->
  let t := scheme ++ show_v4 [a; b; c; d] ++ x3a :: port in
  subnet_prefix t = Some (SubnetV4 [byte_val a; byte_val b; byte_val c]) /\
  as16_prefix t = Some (As16V4 [byte_val a; byte_val b]).
Proof.
  intros Hs. cbv zeta. unfold subnet_prefix, as16_prefix.
  rewrite (known_scheme_host scheme), (parse_show_v4 [a; b; c; d]) by done. done.
Qed.

(** Schemes of [TransportUri] with the peer's address that it does not know. *)
Definition unknown_schemes : list (list byte) :=
  [ascii "tls://"; ascii "ws://"; ascii "wss://"; ascii "obfs4-tcp://"; ascii "webtunnel-wss://"].

Lemma unknown_scheme_prefix scheme rest : scheme ∈ unknown_schemes ->
  subnet_prefix (scheme ++ rest) = None /\ as16_prefix (scheme ++ rest) = None.
Proof.
  intros Hs.
  assert (exists host, host_from_transport (scheme ++ rest) = host /\ parse_ip host = None) as (h & E & Hn).
  { repeat (apply elem_of_cons in Hs as [->|Hs]; [eexists; split; [reflexivity|vm_compute; reflexivity]|]).
    by apply elem_of_nil in Hs. }
  unfold subnet_prefix, as16_prefix. by rewrite E, Hn.
Qed.
