(* ===== verification/Kademlia.v ===== *)
(** * The routing table

    crates/veil-dht/src/routing.rs: the Kademlia table of contacts in 256 buckets by XOR distance,
    with its rate limit, its diversity quotas, its memory of what peers said about themselves, and
    the selection of the contacts closest to a target.  [usize] is [nat]; instants are nanoseconds,
    and an operation takes the instant it reads. *)

From Stdlib Require Import Strings.String.
From S2P Require Import Prelude Float OMap Inet IpText.
#[local] Open Scope Z_scope.
#[local] Open Scope list_scope.

Definition K : nat := 20.
Definition MAX_NODES_PER_SUBNET_PER_BUCKET : nat := K / 4.
Definition MAX_NODES_PER_AS16_PER_BUCKET : nat := 10.
Definition STATED_CAPS_MAX : nat := 4096.
#[global] Arguments STATED_CAPS_MAX : simpl never.
Definition DHT_BUCKET_TOKENS_MAX : Z := 5.
Definition DHT_BUCKET_BACKOFF_BASE_SECS : Z := 1.
Definition DHT_BUCKET_BACKOFF_MAX_SECS : Z := 60.

(** ** Distance *)

Definition xor_distance (a b : list byte) : list byte := zip_with xor_byte a b.

(** [u8::leading_zeros] of a byte that is not zero. *)
Definition leading_zeros (x : Z) : nat := Z.to_nat (7 - Z.log2 x).

Fixpoint bucket_index_from (byte_idx : nat) (distance : list byte) : nat :=
  match distance with
  | [] => 255
  | b :: distance =>
      if byte_val b =? 0 then bucket_index_from (S byte_idx) distance
      else (byte_idx * 8 + leading_zeros (byte_val b))%nat
  end.

Definition bucket_index (distance : list byte) : nat := bucket_index_from 0 distance.

(** ** Contacts *)

Inductive DiscoveryMode := Public | ContactsOnly | IntroductionOnly.

Record Contact := mkContact {
  node_id : list byte;
  transport : list byte;
  discovery_mode : Z;
  no_dht_service : bool;
  caps_known : bool
}.

#[global] Instance Contact_eq_dec : EqDecision Contact.
Proof. solve_decision. Defined.

#[export] Instance eta_Contact : Settable Contact := fun c =>
  mkContact (node_id c) (transport c) (discovery_mode c) (no_dht_service c) (caps_known c).

Definition contact_new (id t : list byte) : Contact := mkContact id t 0 false false.

Definition with_mode (id t : list byte) (mode : DiscoveryMode) : Contact :=
  mkContact id t (match mode with Public => 0 | ContactsOnly => 1 | IntroductionOnly => 2 end) false true.

Definition with_caps (id t : list byte) (mode : DiscoveryMode) (dht_service : bool) : Contact :=
  with_mode id t mode <| no_dht_service := negb dht_service |>.

Definition from_handshake (id t : list byte) (caps : option (DiscoveryMode * bool)) : Contact :=
  match caps with
  | Some (mode, dht_service) => with_caps id t mode dht_service
  | None => contact_new id t
  end.

Definition dht_service (c : Contact) : bool := negb (no_dht_service c).

Definition mode_of (c : Contact) : DiscoveryMode :=
  if discovery_mode c =? 0 then Public
  else if discovery_mode c =? 1 then ContactsOnly else IntroductionOnly.

Definition subnet_count (bucket : list Contact) (subnet : SubnetKey) : nat :=
  length (filter (fun c => subnet_prefix (transport c) = Some subnet) bucket).

Definition as16_count (bucket : list Contact) (key : As16Key) : nat :=
  length (filter (fun c => as16_prefix (transport c) = Some key) bucket).

(** ** The rate limit of a bucket

    Tokens are an IEEE double, by the specification of its operations. *)

Definition DHT_BUCKET_TOKEN_REFILL_PER_SEC : f64 := f64_of 1.

Record BucketRateState := mkRate {
  tokens : f64;
  last_refill : Z;
  consecutive_hits : Z;
  backoff_until : option Z
}.

#[export] Instance eta_Rate : Settable BucketRateState := fun r =>
  mkRate (tokens r) (last_refill r) (consecutive_hits r) (backoff_until r).

Definition rate_new (now : Z) : BucketRateState := mkRate (f64_of DHT_BUCKET_TOKENS_MAX) now 0 None.

Definition refill (r : BucketRateState) (now : Z) : BucketRateState :=
  let elapsed := as_secs_f64 (sat_sub now (last_refill r)) in
  if SFltb (f64_of 0) elapsed then
    r <| tokens := f64_min (f64_add (tokens r) (f64_mul elapsed DHT_BUCKET_TOKEN_REFILL_PER_SEC))
                           (f64_of DHT_BUCKET_TOKENS_MAX) |>
      <| last_refill := now |>
  else r.

(** The wait after the [hits]-th refusal in a row, in seconds. *)
Definition backoff_secs (hits : Z) : Z :=
  Z.min (sat_mul64 DHT_BUCKET_BACKOFF_BASE_SECS (Z.shiftl 1 (sat_sub (Z.min hits 10) 1)))
        DHT_BUCKET_BACKOFF_MAX_SECS.

Definition try_consume (r : BucketRateState) (now : Z) : bool * BucketRateState :=
  if is_some_and (backoff_until r) (fun until => now <? until) then (false, r)
  else
    let r := refill r now in
    if SFleb (f64_of 1) (tokens r) then
      (true, r <| tokens := f64_sub (tokens r) (f64_of 1) |> <| consecutive_hits := 0 |>
               <| backoff_until := None |>)
    else
      let r := r <| consecutive_hits := sat_add32 (consecutive_hits r) 1 |> in
      (false, r <| backoff_until := Some (now + backoff_secs (consecutive_hits r) * NANOS) |>).

(** ** The table *)

Record RoutingTable := mkTable {
  local_id : list byte;
  buckets : list (list Contact);
  table_k : nat;
  sketch_threshold : nat;
  bucket_rate : list BucketRateState;
  stated_caps : gmap (list byte) (Z * bool);
  topology_revision : Z
}.

#[export] Instance eta_Table : Settable RoutingTable := fun t =>
  mkTable (local_id t) (buckets t) (table_k t) (sketch_threshold t) (bucket_rate t) (stated_caps t)
          (topology_revision t).

Definition with_k (id : list byte) (k : nat) (now : Z) : RoutingTable :=
  mkTable id (repeat [] 256) k 0 (repeat (rate_new now) 256) ∅ 0.

Definition table_new (id : list byte) (now : Z) : RoutingTable := with_k id K now.

Definition set_sketch_threshold (t : RoutingTable) (threshold : nat) : RoutingTable :=
  t <| sketch_threshold := threshold |>.

Definition set_k (t : RoutingTable) (new_k : nat) : RoutingTable :=
  let t := if (new_k <? table_k t)%nat
           then t <| buckets := map (fun b => drop (length b - new_k) b) (buckets t) |> else t in
  t <| table_k := new_k |>.

Definition apply_stated_caps (t : RoutingTable) (c : Contact) : RoutingTable * Contact :=
  if caps_known c then
    let stated := (discovery_mode c, no_dht_service c) in
    if bool_decide (stated = (0, false)) then
      (t <| stated_caps := delete (node_id c) (stated_caps t) |>, c)
    else if is_some (stated_caps t !! node_id c) || (size (stated_caps t) <? STATED_CAPS_MAX)%nat then
      (t <| stated_caps := <[node_id c := stated]> (stated_caps t) |>, c)
    else (t, c)
  else
    match stated_caps t !! node_id c with
    | Some (mode, no_service) =>
        (t, c <| discovery_mode := mode |> <| no_dht_service := no_service |> <| caps_known := true |>)
    | None => (t, c)
    end.

Definition bucket_cap (t : RoutingTable) (idx : nat) : nat :=
  if (idx <? sketch_threshold t)%nat then 1 else table_k t.

(** The entry that replaces [held], and whether anything but its age changed. *)
Definition merge_contact (held next : Contact) : Contact * bool :=
  let next :=
    if caps_known held && negb (caps_known next) then
      next <| discovery_mode := discovery_mode held |> <| no_dht_service := no_dht_service held |>
           <| caps_known := true |>
    else next in
  let changed :=
    negb (discovery_mode next =? discovery_mode held) ||
    negb (eqb (no_dht_service next) (no_dht_service held)) ||
    (negb (is_nil (transport next)) && negb (bool_decide (transport next = transport held))) in
  (if is_nil (transport next) then next <| transport := transport held |> else next, changed).

(** [slot.1 += 1] for the subnet of contact number [i], or a slot of its own. *)
Definition note_subnet (stats : list (SubnetKey * nat * nat)) (i : nat) (c : Contact) :
    list (SubnetKey * nat * nat) :=
  match subnet_prefix (transport c) with
  | None => stats
  | Some s =>
      if existsb (fun e => bool_decide (e.1.1 = s)) stats then
        update_first (fun e => bool_decide (e.1.1 = s)) (fun e => (e.1.1, S e.1.2, e.2)) stats
      else stats ++ [(s, 1%nat, i)]
  end.

Fixpoint subnet_stats (i : nat) (bucket : list Contact) (stats : list (SubnetKey * nat * nat)) :
    list (SubnetKey * nat * nat) :=
  match bucket with
  | [] => stats
  | c :: bucket => subnet_stats (S i) bucket (note_subnet stats i c)
  end.

(** The oldest contact of the most populated subnet. *)
Definition best_evict (bucket : list Contact) : option nat :=
  (fold_left (fun best e => if (best.2 <? e.1.2)%nat then (Some e.2, e.1.2) else best)
     (subnet_stats 0 bucket []) (None, 0%nat)).1.

Definition over_subnet (bucket : list Contact) (c : Contact) : bool :=
  is_some_and (subnet_prefix (transport c)) (fun s =>
    (MAX_NODES_PER_SUBNET_PER_BUCKET <=? subnet_count bucket s)%nat).
Definition over_as16 (bucket : list Contact) (c : Contact) : bool :=
  is_some_and (as16_prefix (transport c)) (fun a =>
    (MAX_NODES_PER_AS16_PER_BUCKET <=? as16_count bucket a)%nat).

(** Where a new contact goes; [None] drops it. *)
Definition place (cap : nat) (bucket : list Contact) (c : Contact) : option (list Contact) :=
  if (length bucket <? cap)%nat then
    if (1 <? cap)%nat && (over_subnet bucket c || over_as16 bucket c) then None
    else Some (bucket ++ [c])
  else if (cap =? 1)%nat then Some (drop 1 bucket ++ [c])
  else if is_some (subnet_prefix (transport c)) then
    if over_subnet bucket c then None
    else if over_as16 bucket c then None
    else Some (match best_evict bucket with
               | Some i => delete i bucket
               | None => drop 1 bucket
               end ++ [c])
  else Some (drop 1 bucket ++ [c]).

Definition bump (t : RoutingTable) : RoutingTable :=
  t <| topology_revision := add64 (topology_revision t) 1 |>.

(** The rate limit of bucket [idx]; a trusted caller passes it. *)
Definition rate_gate (t : RoutingTable) (idx : nat) (bypass_rate_limit : bool) (now : Z) :
    option (bool * RoutingTable) :=
  if bypass_rate_limit then Some (true, t)
  else
    r ← bucket_rate t !! idx;
    let '(ok, r) := try_consume r now in
    Some (ok, t <| bucket_rate := <[idx := r]> (bucket_rate t) |>).

(** [None] is the panic of an index outside the 256 buckets. *)
Definition insert_inner (t : RoutingTable) (c : Contact) (bypass_rate_limit : bool) (now : Z) :
    option RoutingTable :=
  if bool_decide (node_id c = local_id t) then Some t
  else
    let '(t, c) := apply_stated_caps t c in
    let idx := bucket_index (xor_distance (local_id t) (node_id c)) in
    let cap := if bypass_rate_limit then table_k t else bucket_cap t idx in
    bucket ← buckets t !! idx;
    match list_find (fun h => node_id h = node_id c) bucket with
    | Some (pos, held) =>
        let '(next, changed) := merge_contact held c in
        let t := if changed then bump t else t in
        Some (t <| buckets := <[idx := delete pos bucket ++ [next]]> (buckets t) |>)
    | None =>
        '(ok, t) ← rate_gate t idx bypass_rate_limit now;
        if negb ok then Some t
        else
          match place cap bucket c with
          | None => Some t
          | Some bucket => Some (bump t <| buckets := <[idx := bucket]> (buckets t) |>)
          end
    end.

Definition table_insert (t : RoutingTable) (c : Contact) (now : Z) : option RoutingTable :=
  insert_inner t c false now.
Definition insert_trusted (t : RoutingTable) (c : Contact) (now : Z) : option RoutingTable :=
  insert_inner t c true now.

Definition table_remove (t : RoutingTable) (id : list byte) : option RoutingTable :=
  let idx := bucket_index (xor_distance (local_id t) id) in
  bucket ← buckets t !! idx;
  Some match list_find (fun h => node_id h = id) bucket with
       | Some (pos, _) => bump t <| buckets := <[idx := delete pos bucket]> (buckets t) |>
       | None => t
       end.

(** ** Queries *)

Definition all_contacts (t : RoutingTable) : list Contact := concat (buckets t).

(** [BinaryHeap] of distances with indices: its content in ascending order, the greatest last. *)
Fixpoint heap_push (e : list byte * Z) (heap : list (list byte * Z)) : list (list byte * Z) :=
  match heap with
  | [] => [e]
  | x :: heap => if ltb e x then e :: x :: heap else x :: heap_push e heap
  end.
Definition heap_peek (heap : list (list byte * Z)) : option (list byte * Z) := last heap.
Definition heap_pop (heap : list (list byte * Z)) : list (list byte * Z) := removelast heap.

Definition offer (k : nat) (heap : list (list byte * Z)) (e : list byte * Z) : list (list byte * Z) :=
  if (length heap <? k)%nat then heap_push e heap
  else match heap_peek heap with
       | Some (top_dist, _) => if ltb e.1 top_dist then heap_push e (heap_pop heap) else heap
       | None => heap
       end.

(** The loop over [contacts.iter().enumerate()]. *)
Fixpoint closest_loop (target : list byte) (k : nat) (idx : Z) (contacts : list Contact)
    (heap : list (list byte * Z)) : list (list byte * Z) :=
  match contacts with
  | [] => heap
  | c :: contacts =>
      closest_loop target k (idx + 1) contacts (offer k heap (xor_distance target (node_id c), idx))
  end.

(** [contacts[idx]] for every entry left; [None] is the panic. *)
Definition find_closest_filtered (t : RoutingTable) (target : list byte) (k : nat)
    (eligible : Contact -> bool) : option (list Contact) :=
  if (k =? 0)%nat then Some []
  else
    let contacts := List.filter eligible (all_contacts t) in
    let heap := closest_loop target k 0 contacts [] in
    mapM (fun e => contacts !! Z.to_nat e.2) heap.

Definition find_closest (t : RoutingTable) (target : list byte) (k : nat) : option (list Contact) :=
  find_closest_filtered t target k (fun _ => true).

Definition total_contacts (t : RoutingTable) : nat := sum_list (length <$> buckets t).

Definition table_contains (t : RoutingTable) (id : list byte) : bool :=
  existsb (fun c => bool_decide (node_id c = id)) (concat (buckets t)).

Definition contact (t : RoutingTable) (id : list byte) : option Contact :=
  List.find (fun c => bool_decide (node_id c = id)) (concat (buckets t)).

Definition serves_dht (t : RoutingTable) (id : list byte) : option bool :=
  dht_service <$> contact t id.

Definition node_ids (t : RoutingTable) : list (list byte) := node_id <$> concat (buckets t).

Definition snapshot (t : RoutingTable) : list Contact := all_contacts t.

(** Every insertion reads an instant of its own. *)
Fixpoint restore (t : RoutingTable) (contacts : list (Contact * Z)) : option RoutingTable :=
  match contacts with
  | [] => Some t
  | (c, now) :: contacts => t ← table_insert t c now; restore t contacts
  end.
