(* ===== verification/KademliaProps.v ===== *)
(** * The routing table: what it guarantees

    The contacts closest to a target; the shape of the table under every run of its operations; the
    preferences a peer stated about itself; when the topology revision moves; and what the quotas
    against one address block do and do not bound. *)

From Stdlib Require Import Strings.String.
From S2P Require Import Prelude Float OMap Inet IpText Kademlia.
#[local] Open Scope Z_scope.
#[local] Open Scope list_scope.

(** ** The closest contacts *)

Section closest.

Abbreviation Entry := (list byte * Z)%type (only parsing).
Implicit Types (e x y : Entry) (heap rest es : list Entry).

Definition before (x y : Entry) : Prop := cmp x y = Lt.

Lemma before_trans x y e : before x y -> before y e -> before x e.
Proof. apply cmp_trans. Qed.

Lemma heap_push_perm e heap : heap_push e heap ≡ₚ e :: heap.
Proof.
  induction heap as [|x heap IH]; cbn [heap_push]; [done|]. destruct (ltb e x); [done|].
  rewrite IH. apply perm_swap.
Qed.

Lemma heap_push_sorted e heap :
  (e ∉ heap) -> StronglySorted before heap -> StronglySorted before (heap_push e heap).
Proof.
  intros Hn Hs. induction Hs as [|x heap Hs IH Hx]; cbn [heap_push]; [repeat constructor|].
  apply not_elem_of_cons in Hn as [Hex Hn]. destruct (ltb e x) eqn:E.
  - apply ltb_lt in E. repeat (constructor; try done).
    eapply Forall_impl; [exact Hx|]. intros y. by apply before_trans.
  - constructor; [by apply IH|]. rewrite heap_push_perm. constructor; [|done].
    unfold ltb in E. unfold before. destruct (cmp e x) eqn:C; try done.
    + by apply cmp_eq in C.
    + by apply cmp_gt.
Qed.

(** The [k] first of the entries [es], in order; [rest] are the others. *)
Record selected (k : nat) (es heap rest : list Entry) : Prop := {
  sel_sorted : StronglySorted before heap;
  sel_perm : es ≡ₚ heap ++ rest;
  sel_first : forall x y, x ∈ heap -> y ∈ rest -> before x y;
  sel_len : length heap = Nat.min k (length es)
}.

(** A distance that is not below the greatest of the heap, with a later index. *)
Lemma before_top e x : ltb e.1 x.1 = false -> x.2 < e.2 -> before x e.
Proof.
  destruct e as [d i], x as [d' i']. cbn [fst snd]. intros E Hi.
  change (match cmp d' d with Eq => cmp i' i | c => c end = Lt).
  unfold ltb in E. rewrite (cmp_antisym d d'). destruct (cmp d d'); cbn [CompOpp]; try done.
Qed.

(** The heap is full: the greatest entry makes room for a closer one. *)
Lemma offer_full k es hp top rest e :
  selected k es (hp ++ [top]) rest -> (k <= length (hp ++ [top]))%nat -> (forall x, x ∈ es -> x.2 < e.2) ->
  exists rest', selected k (es ++ [e]) (if ltb e.1 top.1 then heap_push e hp else hp ++ [top]) rest'.
Proof.
  intros [Hs Hp Hf Hl] Hge Hi.
  assert (forall x, x ∈ hp ++ [top] -> x.2 < e.2) as Hih.
  { intros x Hx. apply Hi. rewrite Hp. apply elem_of_app. by left. }
  apply StronglySorted_app in Hs as (Htop & Hs & _).
  assert (forall x, x ∈ hp -> before x top) as Hbt by (intros x Hx; apply Htop; [done|left]).
  assert (top ∈ hp ++ [top]) as Hin by (apply elem_of_app; right; left).
  rewrite length_app in Hge, Hl. cbn in Hge, Hl. destruct (ltb e.1 top.1) eqn:E.
  - assert (before e top) as Het by (unfold before, cmp, prod_ord; apply ltb_lt in E; by rewrite E).
    exists (top :: rest). split.
    + apply heap_push_sorted; [|done]. intros He.
      assert (e.2 < e.2) by (apply Hih, elem_of_app; by left). lia.
    + rewrite heap_push_perm, Hp. solve_Permutation.
    + intros x y. rewrite heap_push_perm, !elem_of_cons. intros [->|Hx] [->|Hy]; auto.
      * eapply before_trans; [exact Het|by apply Hf].
      * apply Hf; [apply elem_of_app; by left|done].
    + rewrite heap_push_perm, length_app. cbn. lia.
  - pose proof (before_top e top E (Hih _ Hin)) as Hte. exists (e :: rest). split.
    + apply StronglySorted_app_2; [|done|repeat constructor].
      intros x y Hx ->%list_elem_of_singleton. auto.
    + rewrite Hp. solve_Permutation.
    + intros x y Hx. rewrite elem_of_cons. intros [->|Hy]; [|by apply Hf].
      apply elem_of_app in Hx as [Hx| ->%list_elem_of_singleton]; [|done].
      eapply before_trans; [by apply Hbt|done].
    + rewrite !length_app. cbn. lia.
Qed.

Lemma offer_selected k es heap rest e :
  (0 < k)%nat -> selected k es heap rest -> (forall x, x ∈ es -> x.2 < e.2) ->
  exists rest', selected k (es ++ [e]) (offer k heap e) rest'.
Proof.
  intros Hk Hsel Hi. unfold offer. destruct (Nat.ltb_spec (length heap) k) as [Hlt|Hge].
  - destruct Hsel as [Hs Hp Hf Hl]. exists rest. assert (rest = []) as ->.
    { apply length_zero_iff_nil. apply Permutation_length in Hp. rewrite length_app in Hp. lia. }
    split; [| |by intros ? ? _ []%elem_of_nil|rewrite heap_push_perm, length_app; cbn; lia].
    + apply heap_push_sorted; [|done]. intros Hin.
      assert (e.2 < e.2) by (apply Hi; rewrite Hp; apply elem_of_app; by left). lia.
    + rewrite heap_push_perm, Hp. solve_Permutation.
  - destruct heap as [|top hp _] using rev_ind; [cbn in *; lia|].
    unfold heap_peek, heap_pop. rewrite last_snoc, removelast_last.
    destruct (offer_full k es hp top rest e Hsel Hge Hi) as [rest' H]. exists rest'. by destruct top.
Qed.

Lemma offers_selected k es' : (0 < k)%nat -> forall es heap rest,
  selected k es heap rest -> StronglySorted (fun a b => a.2 < b.2) (es ++ es') ->
  exists rest', selected k (es ++ es') (fold_left (offer k) es' heap) rest'.
Proof.
  intros Hk. induction es' as [|e es' IH]; intros es heap rest Hsel Hs; cbn [fold_left].
  - exists rest. by rewrite app_nil_r.
  - rewrite (cons_middle e es es'), app_assoc in *. apply StronglySorted_app in Hs as Hs'.
    destruct Hs' as (_ & Hs1 & _). apply StronglySorted_app in Hs1 as (Hi & _ & _).
    destruct (offer_selected k es heap rest e Hk Hsel) as [rest' H]; [|by eapply IH].
    intros x Hx. apply Hi; [done|left].
Qed.

(** The entries the loop goes through. *)
Fixpoint entries_from (target : list byte) (idx : Z) (cs : list Contact) : list Entry :=
  match cs with
  | [] => []
  | c :: cs => (xor_distance target (node_id c), idx) :: entries_from target (idx + 1) cs
  end.

Lemma closest_loop_fold target k cs : forall idx heap,
  closest_loop target k idx cs heap = fold_left (offer k) (entries_from target idx cs) heap.
Proof. induction cs as [|c cs IH]; intros; cbn; [done|]. apply IH. Qed.

Lemma entries_from_sorted target cs : forall idx,
  StronglySorted (fun a b => a.2 < b.2) (entries_from target idx cs) /\
  Forall (fun e => idx <= e.2) (entries_from target idx cs).
Proof.
  induction cs as [|c cs IH]; intros idx; cbn; [by repeat constructor|].
  destruct (IH (idx + 1)) as [Hs Hf]. split; constructor; cbn [snd]; try lia; try done;
    (eapply Forall_impl; [exact Hf|]; intros e H; cbn in *; lia).
Qed.

(** The contact an entry stands for. *)
Definition pick (cs : list Contact) (e : Entry) : Contact := default (contact_new [] []) (cs !! Z.to_nat e.2).

Lemma entries_from_pick target cs : forall pre,
  Forall (fun e => (pre ++ cs) !! Z.to_nat e.2 = Some (pick (pre ++ cs) e) /\
                   xor_distance target (node_id (pick (pre ++ cs) e)) = e.1)
    (entries_from target (zlen pre) cs) /\
  map (pick (pre ++ cs)) (entries_from target (zlen pre) cs) = cs.
Proof.
  induction cs as [|c cs IH]; intros pre; cbn [entries_from map]; [by split; [constructor|]|].
  assert ((pre ++ c :: cs) !! Z.to_nat (zlen pre) = Some c) as E
    by (unfold zlen; rewrite Nat2Z.id; by apply list_lookup_middle).
  specialize (IH (pre ++ [c])). rewrite <- app_assoc in IH.
  replace (zlen (pre ++ [c])) with (zlen pre + 1) in IH by (rewrite zlen_app, zlen_cons, zlen_nil; lia).
  destruct IH as [Hf Hm]. split; [constructor; [|done]|f_equal; [|done]]; unfold pick; cbn; by rewrite E.
Qed.

End closest.

(** C27. The lookup returns the closest contacts: whatever the table holds, [find_closest_filtered]
    returns, in order of distance from the target, exactly as many eligible contacts as asked for
    and available, and no eligible contact left out is closer than one returned. *)
Theorem find_closest_exact (t : RoutingTable) (target : list byte) (k : nat) (eligible : Contact -> bool) :
  let dist c := xor_distance target (node_id c) in
  let candidates := List.filter eligible (all_contacts t) in
  exists found rest,
    find_closest_filtered t target k eligible = Some found /\
    candidates ≡ₚ found ++ rest /\
    length found = Nat.min k (length candidates) /\
    StronglySorted (fun a b => ltb (dist b) (dist a) = false) found /\
    (forall a b, a ∈ found -> b ∈ rest -> ltb (dist b) (dist a) = false).
Proof.
  cbv zeta. unfold find_closest_filtered. set (cs := List.filter eligible (all_contacts t)).
  destruct (Nat.eqb_spec k 0) as [->|Hk].
  { exists [], cs. split_and!; try done; [constructor|]. by intros ? ? []%elem_of_nil. }
  rewrite closest_loop_fold. destruct (entries_from_pick target cs []) as [Hp Hm]. cbn [app] in *.
  change (zlen []) with 0 in *. destruct (entries_from_sorted target cs 0) as [Hs _].
  destruct (offers_selected k (entries_from target 0 cs) ltac:(lia) [] [] []) as [rest [S P F L]];
    [split; [constructor|done|by intros ? ? []%elem_of_nil|cbn; lia]|done|]. cbn [app] in *.
  set (heap := fold_left _ _ _) in *. rewrite P, Forall_app in Hp. destruct Hp as [Hh Hr].
  assert (forall x y, before x y -> ltb y.1 x.1 = false) as Hb.
  { intros [d i] [d' i'] E. unfold before in E. change (match cmp d d' with Eq => cmp i i' | c => c end = Lt) in E.
    unfold ltb. cbn. rewrite (cmp_antisym d d'). by destruct (cmp d d'). }
  exists (map (pick cs) heap), (map (pick cs) rest). split_and!.
  - apply mapM_Some. apply Forall2_fmap_r, Forall_Forall2_diag.
    eapply Forall_impl; [exact Hh|]. by intros e [H _].
  - by rewrite <- map_app, <- P, Hm.
  - rewrite length_map, L. f_equal. rewrite <- Hm at 2. by rewrite length_map.
  - clear -S Hh Hb. induction S as [|x heap S IH Hx]; cbn; [constructor|].
    apply Forall_cons in Hh as [[_ Ex] Hh]. constructor; [by apply IH|]. apply Forall_fmap.
    rewrite Forall_forall in *. intros y Hy. cbn. rewrite Ex. destruct (Hh y Hy) as [_ ->]. auto.
  - rewrite Forall_forall in *. intros a b (x & -> & Hx)%list_elem_of_fmap (y & -> & Hy)%list_elem_of_fmap.
    destruct (Hh x Hx) as [_ ->], (Hr y Hy) as [_ ->]. auto.
Qed.

(** ** Distance and buckets *)

Lemma length_xor a b : length a = 32%nat -> length b = 32%nat -> length (xor_distance a b) = 32%nat.
Proof. intros Ha Hb. unfold xor_distance. rewrite length_zip_with. lia. Qed.

Lemma from_be_cons b l : from_be (b :: l) = byte_val b * 256 ^ zlen l + from_be l.
Proof. done. Qed.

Lemma xor_zero a b : length a = length b -> from_be (xor_distance a b) = 0 -> a = b.
Proof.
  revert b. induction a as [|x a IH]; intros [|y b] Hl; try done.
  change (xor_distance (x :: a) (y :: b)) with (xor_byte x y :: xor_distance a b).
  intros E. rewrite from_be_cons in E. pose proof (from_be_range (xor_distance a b)).
  pose proof (byte_val_range (xor_byte x y)). pose proof (zlen_nonneg (xor_distance a b)).
  assert (0 < 256 ^ zlen (xor_distance a b)) by (apply Z.pow_pos_nonneg; lia).
  assert (byte_val (xor_byte x y) = 0) as E1.
  { destruct (decide (byte_val (xor_byte x y) = 0)) as [|Hv]; [done|]. exfalso.
    pose proof (Z.mul_le_mono_nonneg_r 1 (byte_val (xor_byte x y)) (256 ^ zlen (xor_distance a b))). lia. }
  rewrite (xor_byte_zero _ _ E1). f_equal. apply IH; [by injection Hl|]. rewrite E1 in E. lia.
Qed.

(** Bucket [i] is for the distances with exactly [i] leading zero bits. *)
Lemma bucket_index_from_range i d :
  from_be d <> 0 ->
  let j := Z.of_nat (bucket_index_from i d) in
  8 * Z.of_nat i <= j < 8 * (Z.of_nat i + zlen d) /\
  2 ^ (8 * (Z.of_nat i + zlen d) - 1 - j) <= from_be d < 2 ^ (8 * (Z.of_nat i + zlen d) - j).
Proof.
  revert i. induction d as [|b d IH]; intros i Hnz; cbn [bucket_index_from]; [done|]. rewrite from_be_cons in *.
  pose proof (byte_val_range b) as Hb. pose proof (zlen_nonneg d). rewrite zlen_cons.
  destruct (Z.eqb_spec (byte_val b) 0) as [E|E].
  - rewrite E in *. specialize (IH (S i) ltac:(lia)). cbv zeta in IH. rewrite Nat2Z.inj_succ in IH.
    replace (8 * (Z.succ (Z.of_nat i) + zlen d)) with (8 * (Z.of_nat i + (1 + zlen d))) in IH by lia. lia.
  - pose proof (from_be_range d) as Hd. unfold leading_zeros.
    pose proof (log2_byte _ Hb) as Hl.
    rewrite Nat2Z.inj_add, Nat2Z.inj_mul, Z2Nat.id by lia. cbv zeta. split; [lia|].
    set (l := Z.log2 (byte_val b)) in *. set (j := Z.of_nat i * _ + _).
    replace (8 * (Z.of_nat i + (1 + zlen d)) - 1 - j) with (l + 8 * zlen d) by lia.
    replace (8 * (Z.of_nat i + (1 + zlen d)) - j) with (l + 8 * zlen d + 1) by lia.
    rewrite !Z.pow_add_r, (Z.pow_mul_r 2 8) by lia. change (2 ^ 8) with 256. change (2 ^ 1) with 2.
    pose proof (Z.log2_spec (byte_val b) ltac:(lia)) as Hs. rewrite Z.pow_succ_r in Hs by lia.
    fold l in Hs. set (P := 256 ^ zlen d) in *.
    pose proof (Z.mul_le_mono_nonneg_r (2 ^ l) (byte_val b) P ltac:(lia) ltac:(lia)).
    pose proof (Z.mul_le_mono_nonneg_r (byte_val b + 1) (2 * 2 ^ l) P ltac:(lia) ltac:(lia)). lia.
Qed.

(** The bucket a contact belongs to. *)
Definition home (t : RoutingTable) (id : list byte) : nat := bucket_index (xor_distance (local_id t) id).

Lemma home_range t id : length (local_id t) = 32%nat -> length id = 32%nat -> id <> local_id t ->
  let i := Z.of_nat (home t id) in
  0 <= i < 256 /\ 2 ^ (255 - i) <= from_be (xor_distance (local_id t) id) < 2 ^ (256 - i).
Proof.
  intros Ht Hid Hne. pose proof (length_xor _ _ Ht Hid) as Hl.
  destruct (bucket_index_from_range 0 (xor_distance (local_id t) id)) as [H1 H2].
  { intros E. apply Hne. symmetry. apply xor_zero; [congruence|done]. }
  unfold home, bucket_index, zlen in *. rewrite Hl in *. cbv zeta in *.
  set (j := Z.of_nat (bucket_index_from _ _)) in *.
  replace (8 * _ - 1 - j) with (255 - j) in H2 by lia. replace (8 * _ - j) with (256 - j) in H2 by lia. lia.
Qed.

(** The index is one of a bucket for every identifier, the local one included. *)
Lemma home_lt t id : length (local_id t) = 32%nat -> length id = 32%nat -> (home t id < 256)%nat.
Proof.
  intros Ht Hid. destruct (decide (id = local_id t)) as [->|Hne].
  - unfold home, bucket_index. generalize (local_id t). intros l. cut (forall i, bucket_index_from i (xor_distance l l) = 255%nat).
    { intros ->. lia. }
    induction l as [|b l IH]; intros i; [done|].
    change (xor_distance (b :: l) (b :: l)) with (xor_byte b b :: xor_distance l l). cbn [bucket_index_from].
    rewrite xor_byte_val, Z.lxor_nilpotent. apply IH.
  - pose proof (home_range t id Ht Hid Hne). cbv zeta in *. lia.
Qed.

(** ** Making room in a bucket *)

(** Every slot of the statistics names one of the first [n] contacts. *)
Definition stats_below (n : nat) (stats : list (SubnetKey * nat * nat)) : Prop :=
  Forall (fun e => (e.2 < n)%nat) stats.

Lemma note_subnet_below n stats c : stats_below n stats -> stats_below (S n) (note_subnet stats n c).
Proof.
  unfold stats_below, note_subnet. intros H.
  assert (Forall (fun e : SubnetKey * nat * nat => (e.2 < S n)%nat) stats) as H'
    by (eapply Forall_impl; [exact H|]; cbn; lia).
  destruct (subnet_prefix _) as [s|]; [|done]. destruct (existsb _ _).
  - clear H. induction H' as [|e stats He Hs IH]; cbn; [constructor|].
    destruct (bool_decide _); by constructor.
  - rewrite Forall_snoc. split; [done|cbn; lia].
Qed.

Lemma subnet_stats_below bucket : forall i stats, stats_below i stats ->
  stats_below (i + length bucket) (subnet_stats i bucket stats).
Proof.
  induction bucket as [|c bucket IH]; intros i stats H; cbn; [by rewrite Nat.add_0_r|].
  rewrite Nat.add_succ_r. apply (IH (S i)). by apply note_subnet_below.
Qed.

Lemma best_evict_lt bucket i : best_evict bucket = Some i -> (i < length bucket)%nat.
Proof.
  pose proof (subnet_stats_below bucket 0 [] ltac:(constructor)) as H. unfold best_evict. cbn in H.
  assert (forall stats best, stats_below (length bucket) stats ->
    (forall j, best.1 = Some j -> (j < length bucket)%nat) ->
    forall j, (fold_left (fun best e => if (best.2 <? e.1.2)%nat then (Some e.2, e.1.2) else best)
      stats best).1 = Some j -> (j < length bucket)%nat) as Hgo.
  { induction stats as [|e stats IH]; intros best Hs Hb j; cbn [fold_left]; [auto|].
    apply Forall_cons in Hs as [He Hs]. apply IH; [done|]. destruct (_ <? _)%nat; [|done].
    intros ? [= <-]. done. }
  apply Hgo; [done|]. by intros ? [=].
Qed.

(** A contact that finds a place is the youngest of its bucket; of the others some may go. *)
Lemma place_shape cap bucket c bucket' : place cap bucket c = Some bucket' ->
  exists kept, bucket' = kept ++ [c] /\ kept `sublist_of` bucket /\
    (length bucket' <= Nat.max 1 (Nat.max cap (length bucket)))%nat.
Proof.
  unfold place. destruct (Nat.ltb_spec (length bucket) cap) as [Hlt|Hge].
  - case_bool; [done|]. intros [= <-]. exists bucket. rewrite length_app. cbn. split_and!; [done|done|lia].
  - assert (exists kept, drop 1 bucket ++ [c] = kept ++ [c] /\ kept `sublist_of` bucket /\
      (length (drop 1 bucket ++ [c]) <= Nat.max 1 (Nat.max cap (length bucket)))%nat) as Hdrop.
    { exists (drop 1 bucket). rewrite length_app, length_drop. cbn [length].
      split_and!; [done|apply sublist_drop|lia]. }
    destruct (cap =? 1)%nat; [by intros [= <-]|]. destruct (is_some _); [|by intros [= <-]].
    destruct (over_subnet _ _); [done|]. destruct (over_as16 _ _); [done|].
    destruct (best_evict bucket) as [i|] eqn:E; intros [= <-]; [|done].
    apply best_evict_lt in E. apply lookup_lt_is_Some in E as E'.
    exists (delete i bucket). rewrite length_app, length_delete by done. cbn [length].
    split_and!; [done|apply sublist_delete|lia].
Qed.

(** ** The shape of the table *)

Record table_ok (t : RoutingTable) : Prop := {
  tok_id : length (local_id t) = 32%nat;
  tok_buckets : length (buckets t) = 256%nat;
  tok_rates : length (bucket_rate t) = 256%nat;
  tok_home : forall i b c, buckets t !! i = Some b -> c ∈ b ->
    length (node_id c) = 32%nat /\ node_id c <> local_id t /\ home t (node_id c) = i;
  tok_nodup : forall i b, buckets t !! i = Some b -> NoDup (node_id <$> b);
  tok_len : forall i b, buckets t !! i = Some b -> (length b <= Nat.max 1 (table_k t))%nat;
  tok_caps : (size (stated_caps t) <= STATED_CAPS_MAX)%nat;
  tok_stated : forall id v, stated_caps t !! id = Some v -> v <> (0, false)
}.

Lemma home_bucket t id : table_ok t -> length id = 32%nat -> exists b, buckets t !! home t id = Some b.
Proof. intros Ht Hid. apply lookup_lt_is_Some. rewrite (tok_buckets _ Ht). by apply home_lt; [apply Ht|]. Qed.

(** What may take the place of a bucket. *)
Lemma table_ok_bucket t i b b' :
  table_ok t -> buckets t !! i = Some b ->
  (forall c, c ∈ b' -> length (node_id c) = 32%nat /\ node_id c <> local_id t /\ home t (node_id c) = i) ->
  NoDup (node_id <$> b') -> (length b' <= Nat.max 1 (table_k t))%nat ->
  table_ok (t <| buckets := <[i := b']> (buckets t) |>).
Proof.
  intros Ht Hb Hc Hn Hl. pose proof (lookup_lt_Some _ _ _ Hb) as Hi.
  assert (forall j x, <[i := b']> (buckets t) !! j = Some x ->
    (j = i /\ x = b') \/ buckets t !! j = Some x) as Hj.
  { intros j x E. destruct (decide (i = j)) as [<-|Hne].
    - rewrite list_lookup_insert_eq in E by done. left. by injection E.
    - rewrite list_lookup_insert_ne in E by done. by right. }
  split; cbn; try apply Ht.
  - rewrite length_insert. apply Ht.
  - intros j x c [[-> ->]|E]%Hj; [auto|]. by apply (tok_home _ Ht).
  - intros j x [[-> ->]|E]%Hj; [auto|]. by eapply (tok_nodup _ Ht).
  - intros j x [[-> ->]|E]%Hj; [auto|]. by eapply (tok_len _ Ht).
Qed.

(** Everything but the remembered preferences. *)
Record same_table (t t' : RoutingTable) : Prop := {
  st_id : local_id t' = local_id t;
  st_buckets : buckets t' = buckets t;
  st_k : table_k t' = table_k t;
  st_sketch : sketch_threshold t' = sketch_threshold t;
  st_rate : bucket_rate t' = bucket_rate t;
  st_rev : topology_revision t' = topology_revision t
}.

Lemma apply_stated_caps_spec t c t1 c1 :
  table_ok t -> apply_stated_caps t c = (t1, c1) ->
  table_ok t1 /\ same_table t t1 /\ node_id c1 = node_id c /\ transport c1 = transport c.
Proof.
  intros Ht. unfold apply_stated_caps. destruct (caps_known c).
  - destruct (bool_decide _) eqn:E0; [|destruct (_ || _) eqn:Er]; intros [= <- <-];
      (split; [|by repeat split]); [| |done]; destruct Ht; split; cbn; try done.
    + rewrite map_size_delete. case_match; unfold id; lia.
    + intros id v [_ H]%lookup_delete_Some. eauto.
    + apply bool_decide_eq_false in E0. apply orb_true_iff in Er as [Er|Er].
      * destruct (stated_caps t !! node_id c) as [v|] eqn:E; [|done].
        rewrite map_size_insert, E. unfold id. lia.
      * apply Nat.ltb_lt in Er. rewrite map_size_insert. case_match; unfold id; lia.
    + apply bool_decide_eq_false in E0. intros id v [[_ <-]|[_ H]]%lookup_insert_Some; eauto.
  - destruct (stated_caps t !! node_id c) as [[mode ns]|]; intros [= <- <-];
      (split; [done|]); by repeat split.
Qed.

(** What the operations on contacts keep. *)
Record same_settings (t t' : RoutingTable) : Prop := {
  ss_id : local_id t' = local_id t;
  ss_k : table_k t' = table_k t;
  ss_caps : stated_caps t' = stated_caps t;
  ss_rate : length (bucket_rate t') = length (bucket_rate t)
}.

(** The places an insertion counts on. *)
Definition insert_cap (t : RoutingTable) (id : list byte) (bypass : bool) : nat :=
  if bypass then table_k t else bucket_cap t (home t id).

Lemma insert_cap_le t id bypass : (insert_cap t id bypass <= Nat.max 1 (table_k t))%nat.
Proof. unfold insert_cap, bucket_cap. destruct bypass; [|case_match]; lia. Qed.

(** The outcomes of an insertion into the bucket [b] of the contact, with [cap] places. *)
Inductive inserted (t : RoutingTable) (c : Contact) (b : list Contact) (cap : nat) (t' : RoutingTable) : Prop :=
| ins_merge pos held :
    list_find (fun h => node_id h = node_id c) b = Some (pos, held) ->
    buckets t' = <[home t (node_id c) := delete pos b ++ [(merge_contact held c).1]]> (buckets t) ->
    topology_revision t' = (if (merge_contact held c).2 then add64 (topology_revision t) 1
                            else topology_revision t) ->
    inserted t c b cap t'
| ins_drop :
    list_find (fun h => node_id h = node_id c) b = None ->
    buckets t' = buckets t -> topology_revision t' = topology_revision t -> inserted t c b cap t'
| ins_place b' :
    list_find (fun h => node_id h = node_id c) b = None ->
    place cap b c = Some b' ->
    buckets t' = <[home t (node_id c) := b']> (buckets t) ->
    topology_revision t' = add64 (topology_revision t) 1 -> inserted t c b cap t'.

Lemma insert_inner_spec t c bypass now :
  table_ok t -> length (node_id c) = 32%nat -> node_id c <> local_id t ->
  exists t' t1 c1 b,
    insert_inner t c bypass now = Some t' /\ apply_stated_caps t c = (t1, c1) /\
    buckets t1 !! home t1 (node_id c1) = Some b /\ same_settings t1 t' /\
    inserted t1 c1 b (insert_cap t1 (node_id c1) bypass) t'.
Proof.
  intros Ht Hid Hne. unfold insert_inner. rewrite bool_decide_false by done.
  destruct (apply_stated_caps t c) as [t1 c1] eqn:E.
  destruct (apply_stated_caps_spec _ _ _ _ Ht E) as (Ht1 & _ & Hn & _).
  destruct (home_bucket t1 (node_id c1) Ht1 ltac:(congruence)) as [b Hb].
  unfold home in Hb. rewrite Hb. cbn [mbind option_bind].
  fold (home t1 (node_id c1)). fold (insert_cap t1 (node_id c1) bypass).
  destruct (list_find _ b) as [[pos held]|] eqn:Ef.
  { destruct (merge_contact held c1) as [next changed] eqn:Em.
    eexists _, t1, c1, b. split; [done|]. split; [done|]. split; [done|].
    split; [by destruct changed|]. eapply ins_merge; [exact Ef|..]; rewrite Em; by destruct changed. }
  assert (exists ok t2, rate_gate t1 (home t1 (node_id c1)) bypass now = Some (ok, t2) /\
    same_settings t1 t2 /\ buckets t2 = buckets t1 /\ topology_revision t2 = topology_revision t1)
    as (ok & t2 & Eg & Hs & Hb2 & Hr2).
  { unfold rate_gate. destruct bypass; [by eexists _, _|].
    destruct (lookup_lt_is_Some_2 (bucket_rate t1) (home t1 (node_id c1))) as [r Hr].
    { rewrite (tok_rates _ Ht1). apply home_lt; [apply Ht1|congruence]. }
    rewrite Hr. cbn [mbind option_bind]. destruct (try_consume r now) as [ok r']. eexists _, _.
    split; [done|]. split; [|done]. split; try done. cbn. apply length_insert. }
  rewrite Eg. cbn [mbind option_bind].
  destruct ok; cbn [negb]; cycle 1.
  { eexists t2, t1, c1, b. split_and!; try done. by apply ins_drop. }
  destruct (place _ b c1) as [b'|] eqn:Ep.
  - eexists _, t1, c1, b. split_and!; try done; [by destruct Hs|].
    eapply ins_place; [done|exact Ep| |]; cbn; by rewrite ?Hb2, ?Hr2.
  - eexists t2, t1, c1, b. split_and!; try done. by apply ins_drop.
Qed.

Lemma table_ok_settings t t' : table_ok t -> same_settings t t' -> buckets t' = buckets t -> table_ok t'.
Proof.
  intros Ht [Hi Hk Hc Hr] Hb. split; unfold home; rewrite ?Hi, ?Hb, ?Hk, ?Hc, ?Hr; apply Ht.
Qed.

Lemma merge_node_id held next : node_id (merge_contact held next).1 = node_id next.
Proof. unfold merge_contact. cbn. repeat (case_match; cbn); done. Qed.

(** An entry taken out of a bucket, and nothing else with its identifier. *)
Lemma delete_found (b : list Contact) id pos held :
  list_find (fun h => node_id h = id) b = Some (pos, held) ->
  b ≡ₚ held :: delete pos b /\ node_id held = id /\ held ∈ b.
Proof.
  intros (Hl & <- & _)%list_find_Some. split_and!; [by apply delete_Permutation|done|].
  by eapply list_elem_of_lookup_2.
Qed.

Lemma not_found (b : list Contact) id :
  list_find (fun h => node_id h = id) b = None -> id ∉ node_id <$> b.
Proof.
  intros H%list_find_None (c & -> & Hc)%list_elem_of_fmap. rewrite Forall_forall in H. by apply (H c).
Qed.

Lemma inserted_ok t c b cap t' :
  table_ok t -> length (node_id c) = 32%nat -> node_id c <> local_id t ->
  buckets t !! home t (node_id c) = Some b -> same_settings t t' -> inserted t c b cap t' ->
  (cap <= Nat.max 1 (table_k t))%nat -> table_ok t'.
Proof.
  intros Ht Hid Hne Hb Hs Hi Hcap. pose proof (tok_len _ Ht _ _ Hb). pose proof (tok_nodup _ Ht _ _ Hb) as Hn.
  assert (forall b', (forall x, x ∈ b' -> x ∈ b \/ node_id x = node_id c) -> NoDup (node_id <$> b') ->
    (length b' <= Nat.max 1 (table_k t))%nat -> buckets t' = <[home t (node_id c) := b']> (buckets t) ->
    table_ok t') as Hgo.
  { intros b' Hx Hn' Hl E.
    apply (table_ok_settings (t <| buckets := <[home t (node_id c) := b']> (buckets t) |>)); [|by destruct Hs|done].
    eapply table_ok_bucket; eauto. intros x [Hin|Hx']%Hx; [by eapply (tok_home _ Ht)|by rewrite Hx']. }
  destruct Hi as [pos held Hf E _|_ E _|b' Hf Hp E _].
  - apply delete_found in Hf as (Hp & Hh & _). eapply Hgo; [| | |exact E].
    + intros x [Hin| ->%list_elem_of_singleton]%elem_of_app; [left|right; apply merge_node_id].
      rewrite Hp. by right.
    + rewrite Hp in Hn. rewrite fmap_app, Permutation_app_comm, list_fmap_singleton, merge_node_id, <- Hh. exact Hn.
    + apply Permutation_length in Hp. rewrite length_app in *. cbn in *. lia.
  - by eapply table_ok_settings.
  - destruct (place_shape _ _ _ _ Hp) as (kept & -> & Hsub & Hl). eapply Hgo; [| | |exact E]; [| |lia].
    + intros x [Hin| ->%list_elem_of_singleton]%elem_of_app; [left|by right].
      by eapply elem_of_submseteq; [|apply sublist_submseteq].
    + rewrite fmap_app. apply NoDup_app. split_and!; [|cbn|apply NoDup_singleton].
      * eapply sublist_NoDup; [exact Hn|by apply fmap_sublist].
      * intros x Hx ->%list_elem_of_singleton. apply not_found in Hf. apply Hf.
        eapply elem_of_submseteq; [exact Hx|]. by apply sublist_submseteq, fmap_sublist.
Qed.

Lemma insert_inner_ok t c bypass now :
  table_ok t -> length (node_id c) = 32%nat ->
  exists t', insert_inner t c bypass now = Some t' /\ table_ok t'.
Proof.
  intros Ht Hid. destruct (decide (node_id c = local_id t)) as [E|Hne].
  { exists t. unfold insert_inner. by rewrite bool_decide_true. }
  destruct (insert_inner_spec t c bypass now Ht Hid Hne) as (t' & t1 & c1 & b & E & Ea & Hb & Hs & Hi).
  destruct (apply_stated_caps_spec _ _ _ _ Ht Ea) as (Ht1 & Hst & Hn & _).
  exists t'. split; [done|]. eapply (inserted_ok t1 c1 b); eauto using insert_cap_le; rewrite Hn; [done|].
  by rewrite (st_id _ _ Hst).
Qed.

Lemma table_remove_ok t id :
  table_ok t -> length id = 32%nat -> exists t', table_remove t id = Some t' /\ table_ok t'.
Proof.
  intros Ht Hid. unfold table_remove. destruct (home_bucket t id Ht Hid) as [b Hb]. unfold home in Hb.
  rewrite Hb. cbn [mbind option_bind]. eexists. split; [done|].
  destruct (list_find _ b) as [[pos held]|] eqn:Ef; [|done].
  apply delete_found in Ef as (Hp & _). fold (home t id) in *.
  eapply (table_ok_settings (t <| buckets := <[home t id := delete pos b]> (buckets t) |>)); [|done..].
  eapply table_ok_bucket; [done|exact Hb|..].
  - intros x Hx. eapply (tok_home _ Ht); [exact Hb|]. rewrite Hp. by right.
  - pose proof (tok_nodup _ Ht _ _ Hb) as Hn. rewrite Hp in Hn. by apply NoDup_cons in Hn as [_ ?].
  - pose proof (tok_len _ Ht _ _ Hb). apply Permutation_length in Hp. cbn in Hp. lia.
Qed.

Lemma set_k_ok t k : table_ok t -> table_ok (set_k t k).
Proof.
  intros Ht. unfold set_k. destruct (Nat.ltb_spec k (table_k t)) as [Hlt|Hge]; cycle 1.
  { destruct Ht. split; try done. cbn. intros i b Hb. specialize (tok_len0 i b Hb). lia. }
  assert (forall i b, map (fun b => drop (length b - k) b) (buckets t) !! i = Some b ->
    exists b0, buckets t !! i = Some b0 /\ b = drop (length b0 - k) b0) as Hl.
  { intros i b E. change (map ?f) with (fmap (M := list) f) in E.
    apply list_lookup_fmap_Some in E as (b0 & -> & E). eauto. }
  split; cbn; try apply Ht.
  - rewrite length_map. apply Ht.
  - intros i b c (b0 & E & ->)%Hl Hc. eapply (tok_home _ Ht); [exact E|].
    eapply elem_of_submseteq; [exact Hc|]. apply sublist_submseteq, sublist_drop.
  - intros i b (b0 & E & ->)%Hl. eapply sublist_NoDup; [by eapply (tok_nodup _ Ht)|].
    apply fmap_sublist, sublist_drop.
  - intros i b (b0 & E & ->)%Hl. rewrite length_drop. lia.
Qed.

Lemma NoDup_concat {A B} (f : A -> B) (ls : list (list A)) :
  (forall i l, ls !! i = Some l -> NoDup (f <$> l)) ->
  (forall i j l l' x x', ls !! i = Some l -> ls !! j = Some l' -> x ∈ l -> x' ∈ l' -> f x = f x' -> i = j) ->
  NoDup (f <$> concat ls).
Proof.
  induction ls as [|l ls IH]; intros Hn Hd; cbn; [constructor|].
  rewrite fmap_app. apply NoDup_app. split_and!.
  - by apply (Hn 0%nat).
  - intros y (x & -> & Hx)%list_elem_of_fmap (x' & E & Hx')%list_elem_of_fmap.
    apply list_elem_of_In, in_concat in Hx' as (l' & Hl' & Hx'). apply list_elem_of_In in Hl', Hx'.
    apply list_elem_of_lookup in Hl' as [i Hi]. by specialize (Hd 0%nat (S i) l l' x x' eq_refl Hi Hx Hx' E).
  - apply IH; [intros i l' E; by apply (Hn (S i))|].
    intros i j l1 l2 x x' H1 H2 Hx Hx' E. by injection (Hd (S i) (S j) l1 l2 x x' H1 H2 Hx Hx' E).
Qed.

Lemma node_ids_nodup t : table_ok t -> NoDup (node_ids t).
Proof.
  intros Ht. apply NoDup_concat; [apply Ht|]. intros i j b b' c c' Hb Hb' Hc Hc' E.
  destruct (tok_home _ Ht _ _ _ Hb Hc) as (_ & _ & <-), (tok_home _ Ht _ _ _ Hb' Hc') as (_ & _ & <-).
  by rewrite E.
Qed.

Lemma with_k_ok id k now : length id = 32%nat -> table_ok (with_k id k now).
Proof.
  intros Hid. assert (forall i b, repeat (@nil Contact) 256 !! i = Some b -> b = []) as Hnil.
  { intros i b H%list_elem_of_lookup_2. apply list_elem_of_In, repeat_spec in H. done. }
  split; unfold with_k; cbn [local_id buckets bucket_rate stated_caps table_k];
    rewrite ?repeat_length; try done.
  - intros i b c ->%Hnil []%elem_of_nil.
  - intros i b ->%Hnil. constructor.
  - intros i b ->%Hnil. cbn. lia.
  - rewrite map_size_empty. lia.
Qed.

(** ** Runs *)

Inductive TableOp :=
| Insert (c : Contact) (now : Z)
| InsertTrusted (c : Contact) (now : Z)
| Remove (id : list byte)
| SetK (k : nat)
| SetSketch (threshold : nat).

Definition table_step (t : RoutingTable) (op : TableOp) : option RoutingTable :=
  match op with
  | Insert c now => table_insert t c now
  | InsertTrusted c now => insert_trusted t c now
  | Remove id => table_remove t id
  | SetK k => Some (set_k t k)
  | SetSketch n => Some (set_sketch_threshold t n)
  end.

Fixpoint table_run (t : RoutingTable) (ops : list TableOp) : option RoutingTable :=
  match ops with
  | [] => Some t
  | op :: ops => t ← table_step t op; table_run t ops
  end.

(** Identifiers are arrays of 32 bytes. *)
Definition op_typed (op : TableOp) : Prop :=
  match op with
  | Insert c _ | InsertTrusted c _ => length (node_id c) = 32%nat
  | Remove id => length id = 32%nat
  | SetK _ | SetSketch _ => True
  end.

Lemma table_step_ok t op : table_ok t -> op_typed op -> exists t', table_step t op = Some t' /\ table_ok t'.
Proof.
  intros Ht Ho. destruct op; cbn [table_step op_typed] in *; 
    [by apply insert_inner_ok|by apply insert_inner_ok|by apply table_remove_ok| |].
  - eexists. split; [done|]. by apply set_k_ok.
  - eexists. split; [done|]. by apply (table_ok_settings t).
Qed.

Lemma table_run_ok ops : forall t, table_ok t -> Forall op_typed ops ->
  exists t', table_run t ops = Some t' /\ table_ok t'.
Proof.
  induction ops as [|op ops IH]; intros t Ht Ho; cbn [table_run]; [by exists t|].
  apply Forall_cons in Ho as [Ho Hops]. destruct (table_step_ok t op Ht Ho) as (t1 & -> & Ht1). by apply IH.
Qed.


(** ** Looking a contact up *)

Lemma elem_of_all_contacts t c : c ∈ all_contacts t <-> exists i b, buckets t !! i = Some b /\ c ∈ b.
Proof.
  unfold all_contacts. rewrite list_elem_of_In, in_concat. split.
  - intros (b & Hb & Hc). apply list_elem_of_In in Hb, Hc. apply list_elem_of_lookup in Hb as [i Hi]. eauto.
  - intros (i & b & Hb & Hc). exists b. split; apply list_elem_of_In; [by eapply list_elem_of_lookup_2|done].
Qed.

Lemma elem_of_home t c : table_ok t ->
  c ∈ all_contacts t <-> exists b, buckets t !! home t (node_id c) = Some b /\ c ∈ b.
Proof.
  intros Ht. rewrite elem_of_all_contacts. split; [|naive_solver].
  intros (i & b & Hb & Hc). destruct (tok_home _ Ht _ _ _ Hb Hc) as (_ & _ & <-). eauto.
Qed.

Lemma same_contact t c c' : table_ok t ->
  c ∈ all_contacts t -> c' ∈ all_contacts t -> node_id c = node_id c' -> c = c'.
Proof.
  intros Ht%node_ids_nodup [i Hi]%list_elem_of_lookup [j Hj]%list_elem_of_lookup E.
  assert (i = j) as ->; [|congruence].
  eapply (NoDup_lookup _ _ _ (node_id c) Ht); unfold node_ids; fold (all_contacts t);
    rewrite list_lookup_fmap, ?Hi, ?Hj; cbn; congruence.
Qed.

Lemma contact_Some t id c : table_ok t ->
  contact t id = Some c <-> c ∈ all_contacts t /\ node_id c = id.
Proof.
  intros Ht. unfold contact. fold (all_contacts t). split.
  - intros [Hc E]%find_some. apply bool_decide_eq_true in E. by rewrite list_elem_of_In.
  - intros [Hc E]. destruct (List.find _ _) as [c'|] eqn:Ef.
    + apply find_some in Ef as [Hc' E']. apply bool_decide_eq_true in E'. apply list_elem_of_In in Hc'.
      f_equal. apply (same_contact t); congruence.
    + apply list_elem_of_In in Hc. apply (find_none _ _ Ef) in Hc. by apply bool_decide_eq_false in Hc.
Qed.

(** The contacts after an insertion: the others are contacts from before, and the one inserted is the
    new one, or the new one merged with the entry that was held. *)
Lemma inserted_contacts t c b cap t' :
  table_ok t -> table_ok t' -> buckets t !! home t (node_id c) = Some b -> local_id t' = local_id t ->
  inserted t c b cap t' ->
  (forall x, x ∈ all_contacts t' -> node_id x <> node_id c -> x ∈ all_contacts t) /\
  (forall x, x ∈ all_contacts t' -> node_id x = node_id c ->
     x = c \/ exists held, held ∈ all_contacts t /\ node_id held = node_id c /\ x = (merge_contact held c).1).
Proof.
  intros Ht Ht' Hb Hid Hi. pose proof (lookup_lt_Some _ _ _ Hb) as Hlt.
  assert (forall b', buckets t' = <[home t (node_id c) := b']> (buckets t) ->
    forall x, x ∈ all_contacts t' -> (node_id x = node_id c -> x ∈ b') /\
      (x ∈ all_contacts t \/ x ∈ b')) as Hb'.
  { intros b' E x Hx. pose proof (proj1 (elem_of_home t' x Ht') Hx) as (bx & Ebx & Hin).
    unfold home in Ebx. rewrite Hid, E in Ebx. fold (home t (node_id x)) in Ebx. split.
    - intros Ex. rewrite Ex, list_lookup_insert_eq in Ebx by done. congruence.
    - apply list_lookup_insert_Some in Ebx as [(_ & <- & _)|(_ & Ebx)]; [by right|left].
      apply elem_of_all_contacts. eauto. }
  destruct Hi as [pos held Hf E _|Hf E _|b' Hf Hp E _].
  - apply delete_found in Hf as (Hp & Hh & Hheld).
    assert (held ∈ all_contacts t) as Hhin by (apply elem_of_all_contacts; eauto).
    split; intros x Hx Hne; destruct (Hb' _ E x Hx) as [H1 H2].
    + destruct H2 as [|[Hd| ->%list_elem_of_singleton]%elem_of_app]; [done| |].
      * apply elem_of_all_contacts. exists (home t (node_id c)), b. rewrite Hp at 2. split; [done|by right].
      * by rewrite merge_node_id in Hne.
    + right. exists held. split_and!; [done|done|].
      apply (same_contact t'); [done|done| |by rewrite merge_node_id].
      apply elem_of_all_contacts. exists (home t (node_id c)), (delete pos b ++ [(merge_contact held c).1]).
      rewrite E, list_lookup_insert_eq by done. split; [done|]. apply elem_of_app. right. left.
  - assert (all_contacts t' = all_contacts t) as -> by (unfold all_contacts; by rewrite E). split; [done|].
    intros x Hx Ex. exfalso. apply (not_found _ _ Hf). apply list_elem_of_fmap. exists x. split; [done|].
    apply (elem_of_home t x Ht) in Hx as (bx & Ebx & Hin). rewrite Ex in Ebx. congruence.
  - destruct (place_shape _ _ _ _ Hp) as (kept & -> & Hsub & _).
    assert (forall x, x ∈ kept -> x ∈ b) as Hkept
      by (intros x Hx; eapply elem_of_submseteq; [exact Hx|by apply sublist_submseteq]).
    split; intros x Hx Hne; destruct (Hb' _ E x Hx) as [H1 H2].
    + destruct H2 as [|[Hd| ->%list_elem_of_singleton]%elem_of_app]; [done| |done].
      apply elem_of_all_contacts. eauto.
    + left. apply H1 in Hne as Hin. apply elem_of_app in Hin as [Hin| ->%list_elem_of_singleton]; [|done].
      exfalso. apply (not_found _ _ Hf). apply list_elem_of_fmap. eauto.
Qed.

(** ** Preferences *)

Definition caps_of (c : Contact) : Z * bool := (discovery_mode c, no_dht_service c).

(** The preference [v] of node [id] is remembered, and its contact, if any, carries it. *)
Record prefers (t : RoutingTable) (id : list byte) (v : Z * bool) : Prop := {
  pf_stated : stated_caps t !! id = Some v;
  pf_contact : forall c, c ∈ all_contacts t -> node_id c = id -> caps_of c = v /\ caps_known c = true
}.

Lemma merge_caps held next : caps_known next = true ->
  caps_of (merge_contact held next).1 = caps_of next /\ caps_known (merge_contact held next).1 = true.
Proof.
  intros E. unfold merge_contact, caps_of. rewrite E, andb_false_r. cbn. by destruct (is_nil (transport next)).
Qed.

Lemma inserted_prefers t c bypass now t' id v :
  table_ok t -> length (node_id c) = 32%nat -> insert_inner t c bypass now = Some t' ->
  (node_id c <> id -> prefers t id v) ->
  (node_id c = id -> node_id c <> local_id t -> let '(t1, c1) := apply_stated_caps t c in
     stated_caps t1 !! id = Some v /\ caps_of c1 = v /\ caps_known c1 = true) ->
  (node_id c = local_id t -> prefers t id v) -> prefers t' id v.
Proof.
  intros Ht Hid E Hother Hsame Hlocal. destruct (decide (node_id c = local_id t)) as [El|Hne].
  { unfold insert_inner in E. rewrite bool_decide_true in E by done. injection E as <-. auto. }
  destruct (insert_inner_ok t c bypass now Ht Hid) as (t0 & E0 & Ht'). assert (t0 = t') as -> by congruence.
  destruct (insert_inner_spec t c bypass now Ht Hid Hne) as (t2 & t1 & c1 & b & E2 & Ea & Hb & Hs & Hi).
  assert (t2 = t') as -> by congruence. rewrite Ea in Hsame.
  destruct (apply_stated_caps_spec _ _ _ _ Ht Ea) as (Ht1 & Hst & Hn & _).
  destruct (inserted_contacts t1 c1 b _ t' Ht1 Ht' Hb (ss_id _ _ Hs) Hi) as [Hc1 Hc2]. rewrite Hn in Hc1, Hc2.
  assert (all_contacts t1 = all_contacts t) as Eall by (unfold all_contacts; by rewrite (st_buckets _ _ Hst)).
  rewrite Eall in Hc1. destruct (decide (node_id c = id)) as [Eid|Hnid].
  - destruct (Hsame Eid Hne) as (H1 & H2 & H3). split; [by rewrite (ss_caps _ _ Hs)|].
    intros x Hx Ex. destruct (Hc2 x Hx ltac:(congruence)) as [->|(held & _ & _ & ->)]; [done|].
    destruct (merge_caps held c1 H3). by rewrite H2 in *.
  - destruct (Hother Hnid) as [H1 H2]. split.
    + rewrite (ss_caps _ _ Hs). unfold apply_stated_caps in Ea.
      repeat case_match; injection Ea as <- <-; cbn; try done;
        by rewrite ?lookup_delete_ne, ?lookup_insert_ne by done.
    + intros x Hx Ex. apply H2; [|done]. apply Hc1; [done|congruence].
Qed.

(** An insertion by which node [id] states its preferences. *)
Definition speaks_for (id : list byte) (op : TableOp) : Prop :=
  match op with
  | Insert c _ | InsertTrusted c _ => node_id c = id /\ caps_known c = true
  | _ => False
  end.

Lemma insert_keeps_preference t c bypass now t' id v :
  table_ok t -> length (node_id c) = 32%nat -> insert_inner t c bypass now = Some t' ->
  ~ (node_id c = id /\ caps_known c = true) -> prefers t id v -> prefers t' id v.
Proof.
  intros Ht Hid E Hq Hp. eapply inserted_prefers; eauto. intros Eid _. unfold apply_stated_caps.
  destruct (caps_known c) eqn:Ek; [tauto|]. rewrite Eid, (pf_stated _ _ _ Hp). destruct v as [mode ns].
  split; [apply Hp|done].
Qed.

Lemma fewer_contacts_prefers t t' id v :
  stated_caps t' = stated_caps t -> (forall c, c ∈ all_contacts t' -> c ∈ all_contacts t) ->
  prefers t id v -> prefers t' id v.
Proof. intros Es Hc [H1 H2]. split; [by rewrite Es|]. auto. Qed.

Lemma remove_contacts t id t' : table_remove t id = Some t' ->
  stated_caps t' = stated_caps t /\ (forall c, c ∈ all_contacts t' -> c ∈ all_contacts t).
Proof.
  unfold table_remove. destruct (buckets t !! _) as [b|] eqn:Hb; [|done]. cbn [mbind option_bind].
  intros [= <-]. destruct (list_find _ b) as [[pos held]|] eqn:Ef; [|done]. split; [done|].
  intros c. rewrite !elem_of_all_contacts. cbn. intros (i & x & Ex & Hc).
  apply list_lookup_insert_Some in Ex as [(<- & <- & _)|(_ & Ex)]; [|eauto].
  eexists _, b. split; [exact Hb|]. eapply elem_of_submseteq; [exact Hc|]. apply sublist_submseteq, sublist_delete.
Qed.

Lemma set_k_contacts t k : stated_caps (set_k t k) = stated_caps t /\
  forall c, c ∈ all_contacts (set_k t k) -> c ∈ all_contacts t.
Proof.
  unfold set_k. destruct (k <? table_k t)%nat; [|done]. split; [done|]. intros c.
  rewrite !elem_of_all_contacts. cbn. intros (i & b & Hb & Hc).
  change (map ?f) with (fmap (M := list) f) in Hb. apply list_lookup_fmap_Some in Hb as (b0 & -> & Hb).
  exists i, b0. split; [done|]. eapply elem_of_submseteq; [exact Hc|]. apply sublist_submseteq, sublist_drop.
Qed.

Lemma run_keeps_preference ops id v : forall t t',
  table_ok t -> Forall op_typed ops -> Forall (fun op => ~ speaks_for id op) ops ->
  table_run t ops = Some t' -> prefers t id v -> table_ok t' /\ prefers t' id v.
Proof.
  induction ops as [|op ops IH]; intros t t' Ht Ho Hq E Hp; cbn [table_run] in E; [by injection E as <-|].
  apply Forall_cons in Ho as [Ho Hops], Hq as [Hq Hqs].
  destruct (table_step_ok t op Ht Ho) as (t1 & E1 & Ht1). rewrite E1 in E. cbn [mbind option_bind] in E.
  eapply IH; eauto. destruct op as [c now|c now|x|k|n]; cbn [table_step speaks_for op_typed] in *.
  - by eapply (insert_keeps_preference t c false now).
  - by eapply (insert_keeps_preference t c true now).
  - destruct (remove_contacts _ _ _ E1). by eapply fewer_contacts_prefers.
  - injection E1 as <-. destruct (set_k_contacts t k). by eapply fewer_contacts_prefers.
  - injection E1 as <-. by eapply fewer_contacts_prefers; [..|exact Hp].
Qed.

(** What a peer stated about itself outlives its contact: once a handshake recorded that it does
    not serve the DHT or does not want to be listed, then whatever is inserted, gossiped, removed or
    resized afterwards, any entry of the peer carries that preference until the peer itself states
    another. *)
Theorem stated_preference_kept (t t1 t2 : RoutingTable) (c : Contact) (now : Z) (ops : list TableOp)
    (Ht : table_ok t) (Hid : length (node_id c) = 32%nat) (Hne : node_id c <> local_id t)
    (Hknown : caps_known c = true) (Hv : (discovery_mode c, no_dht_service c) <> (0, false))
    (Hroom : stated_caps t !! node_id c <> None \/ (size (stated_caps t) < STATED_CAPS_MAX)%nat)
    (E1 : insert_trusted t c now = Some t1)
    (Hops : Forall op_typed ops) (Hq : Forall (fun op => ~ speaks_for (node_id c) op) ops)
    (E2 : table_run t1 ops = Some t2) :
  forall c', contact t2 (node_id c) = Some c' ->
    discovery_mode c' = discovery_mode c /\ no_dht_service c' = no_dht_service c.
Proof.
  destruct (insert_inner_ok t c true now Ht Hid) as (t0 & E0 & Ht1).
  assert (t0 = t1) as -> by (unfold insert_trusted in E1; congruence).
  assert (prefers t1 (node_id c) (caps_of c)) as Hp.
  { eapply inserted_prefers; [exact Ht|exact Hid|exact E1|done| |done]. intros _ _.
    unfold apply_stated_caps. rewrite Hknown, bool_decide_false by done.
    replace (_ || _) with true; [cbn; by rewrite lookup_insert_eq|]. symmetry. apply orb_true_iff.
    destruct Hroom as [H|H]; [left|right; by apply Nat.ltb_lt]. by destruct (stated_caps t !! node_id c). }
  destruct (run_keeps_preference ops _ _ t1 t2 Ht1 Hops Hq E2 Hp) as [Ht2 [_ Hc]].
  intros c' [Hin E]%(contact_Some t2 _ _ Ht2). destruct (Hc c' Hin E) as [Ev _]. by injection Ev.
Qed.

(** ** The topology revision *)

(** What the rest of the node sees of a contact. *)
Definition view (c : Contact) : list byte * Z * bool := (transport c, discovery_mode c, no_dht_service c).

Definition topology (t : RoutingTable) (id : list byte) : option (list byte * Z * bool) := view <$> contact t id.

Lemma merge_changed held next :
  (merge_contact held next).2 = true <-> view (merge_contact held next).1 <> view held.
Proof.
  unfold merge_contact, view. set (n := if caps_known held && negb (caps_known next) then _ else next).
  cbn [fst snd]. clearbody n. rewrite !orb_true_iff, andb_true_iff, !negb_true_iff, Z.eqb_neq,
    bool_decide_eq_false, eqb_false_iff.
  destruct (is_nil (transport n)) eqn:En; cbn [transport discovery_mode no_dht_service] in *.
  all: destruct (decide (discovery_mode n = discovery_mode held)) as [Hd|Hd],
    (decide (no_dht_service n = no_dht_service held)) as [Hs|Hs]; try (split; [intros _ [=]; tauto|tauto]).
  all: split; [intros [[]|[? ?]] [=]; first [done|tauto]|].
  - intros H. exfalso. apply H. cbn. congruence.
  - intros H. right. split; [done|]. intros E. apply H. congruence.
Qed.

Lemma contact_ext t t' id : table_ok t -> table_ok t' ->
  (forall c, node_id c = id -> c ∈ all_contacts t' <-> c ∈ all_contacts t) -> contact t' id = contact t id.
Proof.
  intros Ht Ht' H. apply option_eq. intros c. rewrite !contact_Some by done. split; intros [? ?];
    (split; [|done]); by apply H.
Qed.

(** The revision moves by one exactly when the topology differs. *)
Definition revised (t t' : RoutingTable) : Prop :=
  (topology_revision t' = topology_revision t /\ forall id, topology t' id = topology t id) \/
  (topology_revision t' = add64 (topology_revision t) 1 /\ exists id, topology t' id <> topology t id).

Lemma elem_of_insert_bucket t t' i b b' x :
  buckets t !! i = Some b -> buckets t' = <[i := b']> (buckets t) ->
  x ∈ all_contacts t' <-> x ∈ b' \/ exists j c, j <> i /\ buckets t !! j = Some c /\ x ∈ c.
Proof.
  intros Hb E. pose proof (lookup_lt_Some _ _ _ Hb) as Hlt. rewrite elem_of_all_contacts, E. split.
  - intros (j & c & [(<- & <- & _)|(Hj & Ec)]%list_lookup_insert_Some & Hx); [by left|right]. eauto.
  - intros [Hx|(j & c & Hj & Ec & Hx)].
    + exists i, b'. by rewrite list_lookup_insert_eq.
    + exists j, c. by rewrite list_lookup_insert_ne.
Qed.

Lemma merge_revised t c b t' pos held :
  table_ok t -> table_ok t' -> buckets t !! home t (node_id c) = Some b ->
  list_find (fun h => node_id h = node_id c) b = Some (pos, held) ->
  buckets t' = <[home t (node_id c) := delete pos b ++ [(merge_contact held c).1]]> (buckets t) ->
  topology_revision t' = (if (merge_contact held c).2 then add64 (topology_revision t) 1
                          else topology_revision t) ->
  revised t t'.
Proof.
  intros Ht Ht' Hb Hf E Er. apply delete_found in Hf as (Hp & Hh & Hheld).
  pose proof (merge_changed held c) as Hm. pose proof (merge_node_id held c) as Hmid.
  set (m := (merge_contact held c).1) in *.
  assert (topology t (node_id c) = Some (view held)) as Et.
  { unfold topology. rewrite (proj2 (contact_Some t (node_id c) held Ht)); [done|].
    split; [apply elem_of_all_contacts; eauto|done]. }
  assert (topology t' (node_id c) = Some (view m)) as Et'.
  { unfold topology. rewrite (proj2 (contact_Some t' (node_id c) m Ht')); [done|]. split; [|done].
    apply (elem_of_insert_bucket t t' _ _ _ _ Hb E). left. apply elem_of_app. right. left. }
  assert (forall id, id <> node_id c -> topology t' id = topology t id) as Hother.
  { intros id Hid. unfold topology. f_equal. apply contact_ext; [done|done|]. intros x Hx.
    rewrite (elem_of_insert_bucket t t' _ _ _ x Hb E), elem_of_app, list_elem_of_singleton.
    rewrite (elem_of_insert_bucket t t _ b b x Hb) by (by rewrite list_insert_id).
    rewrite Hp at 2. rewrite elem_of_cons. split; [|naive_solver congruence].
    intros [[?| ->]|?]; [auto| |auto]. congruence. }
  destruct (merge_contact held c).2.
  - right. split; [done|]. exists (node_id c). rewrite Et, Et'. intros E'.
    apply (proj1 Hm eq_refl). congruence.
  - left. split; [done|]. intros id. destruct (decide (id = node_id c)) as [->|]; [|by apply Hother].
    rewrite Et, Et'. f_equal. apply dec_stable. intros H. by apply Hm in H.
Qed.

Lemma inserted_revised t c b cap t' :
  table_ok t -> table_ok t' -> buckets t !! home t (node_id c) = Some b -> inserted t c b cap t' -> revised t t'.
Proof.
  intros Ht Ht' Hb [pos held Hf E Er|Hf E Er|b' Hf Hp E Er].
  - by eapply merge_revised.
  - left. split; [done|]. intros id. unfold topology, contact. by rewrite E.
  - right. split; [done|]. exists (node_id c). unfold topology.
    destruct (place_shape _ _ _ _ Hp) as (kept & -> & _ & _).
    rewrite (proj2 (contact_Some t' (node_id c) c Ht')).
    + destruct (contact t (node_id c)) as [x|] eqn:Ex; [|done]. exfalso.
      apply (contact_Some t _ _ Ht) in Ex as [Hx Ex]. apply (elem_of_home t x Ht) in Hx as (bx & Ebx & Hx).
      rewrite Ex in Ebx. apply (not_found _ _ Hf). apply list_elem_of_fmap. exists x.
      by assert (bx = b) as <- by congruence.
    + split; [|done]. apply (elem_of_insert_bucket t t' _ _ _ _ Hb E). left. apply elem_of_app. right. left.
Qed.

(** Remembering a preference does not touch the topology. *)
Lemma insert_revised t c bypass now t' :
  table_ok t -> table_ok t' -> length (node_id c) = 32%nat -> insert_inner t c bypass now = Some t' -> revised t t'.
Proof.
  intros Ht Ht' Hid E. destruct (decide (node_id c = local_id t)) as [El|Hne].
  { unfold insert_inner in E. rewrite bool_decide_true in E by done. injection E as <-. by left. }
  destruct (insert_inner_spec t c bypass now Ht Hid Hne) as (t2 & t1 & c1 & b & E2 & Ea & Hb & Hs & Hi).
  assert (t2 = t') as -> by congruence.
  destruct (apply_stated_caps_spec _ _ _ _ Ht Ea) as (Ht1 & Hst & _).
  pose proof (inserted_revised t1 c1 b _ t' Ht1 Ht' Hb Hi) as H. unfold revised in *.
  assert (forall id, topology t1 id = topology t id) as Et
    by (intros id; unfold topology, contact; by rewrite (st_buckets _ _ Hst)).
  rewrite (st_rev _ _ Hst) in H. destruct H as [[? H]|[? [x H]]]; [left|right]; (split; [done|]).
  - intros x. by rewrite H.
  - exists x. by rewrite <- Et.
Qed.

Lemma remove_revised t id t' :
  table_ok t -> table_ok t' -> length id = 32%nat -> table_remove t id = Some t' -> revised t t'.
Proof.
  intros Ht Ht' Hid. unfold table_remove. destruct (home_bucket t id Ht Hid) as [b Hb].
  fold (home t id). rewrite Hb. cbn [mbind option_bind]. intros [= <-].
  destruct (list_find _ b) as [[pos held]|] eqn:Ef; [|by left].
  right. split; [done|]. exists id. apply delete_found in Ef as (Hp & Hh & Hheld). unfold topology.
  rewrite (proj2 (contact_Some t id held Ht)) by (split; [apply elem_of_all_contacts; eauto|done]).
  destruct (contact _ id) as [x|] eqn:Ex; [|done]. exfalso.
  apply (contact_Some _ _ _ Ht') in Ex as [Hx Ex]. apply (elem_of_home _ x Ht') in Hx as (bx & Ebx & Hx).
  rewrite Ex in Ebx. cbn in Ebx. change (home _ id) with (home t id) in Ebx.
  rewrite list_lookup_insert_eq in Ebx by (by eapply lookup_lt_Some). injection Ebx as <-.
  pose proof (tok_nodup _ Ht _ _ Hb) as Hn. rewrite Hp in Hn. apply NoDup_cons in Hn as [Hn _]. apply Hn.
  rewrite Hh. apply list_elem_of_fmap. by exists x.
Qed.

(** In every reachable table the topology revision is exact: an insertion or a removal moves it by
    one if and only if it changes which nodes are in the table, or the transport or the eligibility
    of one of them; refreshing a contact leaves it as it is. *)
Theorem topology_revision_exact (id : list byte) (k : nat) (now : Z) (ops : list TableOp) (op : TableOp)
    (t t' : RoutingTable) (Hid : length id = 32%nat) (Hops : Forall op_typed ops) (Hop : op_typed op)
    (Hkind : match op with SetK _ | SetSketch _ => False | _ => True end)
    (Er : table_run (with_k id k now) ops = Some t) (Es : table_step t op = Some t') :
  (topology_revision t' = topology_revision t /\ forall x, topology t' x = topology t x) \/
  (topology_revision t' = add64 (topology_revision t) 1 /\ exists x, topology t' x <> topology t x).
Proof.
  destruct (table_run_ok ops _ (with_k_ok id k now Hid) Hops) as (t0 & E0 & Ht).
  assert (t0 = t) as -> by congruence. destruct (table_step_ok t op Ht Hop) as (t0 & E1 & Ht').
  assert (t0 = t') as -> by congruence. fold (revised t t').
  destruct op as [c n|c n|x|n|n]; cbn [table_step op_typed] in *; [| | |done|done].
  - by eapply (insert_revised t c false n).
  - by eapply (insert_revised t c true n).
  - by eapply remove_revised.
Qed.

(** ** The quotas against one address block *)

Lemma no_subnet_no_as16 tr : subnet_prefix tr = None -> as16_prefix tr = None.
Proof. unfold subnet_prefix, as16_prefix. by destruct (parse_ip _). Qed.

(** A contact that finds a place in a bucket of more than one is within both quotas. *)
Lemma place_within cap bucket c bucket' : (1 < cap)%nat -> place cap bucket c = Some bucket' ->
  over_subnet bucket c = false /\ over_as16 bucket c = false.
Proof.
  intros Hcap. unfold place. rewrite (proj2 (Nat.ltb_lt 1 cap) Hcap), andb_true_l.
  rewrite (proj2 (Nat.eqb_neq cap 1)) by lia. destruct (length bucket <? cap)%nat.
  - destruct (_ || _) eqn:E; [done|]. by apply orb_false_iff in E.
  - destruct (subnet_prefix (transport c)) as [s|] eqn:Es; cbn [is_some is_some_and].
    + destruct (over_subnet _ _); [done|]. by destruct (over_as16 _ _).
    + intros _. unfold over_subnet, over_as16. by rewrite (no_subnet_no_as16 _ Es), Es.
Qed.

Lemma count_snoc {A} (f : Contact -> option A) `{EqDecision A} (kept bucket : list Contact) c (s : A) (q : nat) :
  kept `sublist_of` bucket ->
  (f c = Some s -> (length (filter (fun c => f c = Some s) bucket) < q)%nat) ->
  (length (filter (fun c => f c = Some s) (kept ++ [c])) <=
   Nat.max q (length (filter (fun c => f c = Some s) bucket)))%nat.
Proof.
  intros Hsub Hq. rewrite filter_app, length_app.
  assert (length (filter (fun c => f c = Some s) kept) <= length (filter (fun c => f c = Some s) bucket))%nat
    as Hle by (clear Hq; induction Hsub; repeat rewrite filter_cons; repeat case_decide; cbn; lia || done).
  rewrite filter_cons. case_decide as E; cbn; [specialize (Hq E)|]; lia.
Qed.

(** Entry is limited: when a node that is not in the table enters a bucket of more than one place,
    no /24 or /48 ends with more than five contacts there, and no /16 or /32 with more than ten,
    unless it had more already. *)
Theorem entry_within_quota (t t' : RoutingTable) (c : Contact) (bypass : bool) (now : Z) (b b' : list Contact)
    (Ht : table_ok t) (Hid : length (node_id c) = 32%nat) (Hne : node_id c <> local_id t)
    (Hnew : contact t (node_id c) = None)
    (Hcap : (1 < (if bypass then table_k t else bucket_cap t (home t (node_id c))))%nat)
    (E : insert_inner t c bypass now = Some t')
    (Hb : buckets t !! home t (node_id c) = Some b) (Hb' : buckets t' !! home t (node_id c) = Some b') :
  (forall s, (subnet_count b' s <= Nat.max MAX_NODES_PER_SUBNET_PER_BUCKET (subnet_count b s))%nat) /\
  (forall a, (as16_count b' a <= Nat.max MAX_NODES_PER_AS16_PER_BUCKET (as16_count b a))%nat).
Proof.
  destruct (insert_inner_spec t c bypass now Ht Hid Hne) as (t2 & t1 & c1 & b1 & E2 & Ea & Hb1 & _ & Hi).
  assert (t2 = t') as -> by congruence.
  destruct (apply_stated_caps_spec _ _ _ _ Ht Ea) as (_ & [Hi1 Hbk Hk Hsk _ _] & Hn & Htr).
  assert (home t1 (node_id c1) = home t (node_id c)) as Eh by (unfold home; congruence).
  assert (insert_cap t1 (node_id c1) bypass = if bypass then table_k t else bucket_cap t (home t (node_id c)))
    as Ec by (unfold insert_cap, bucket_cap; by rewrite Eh, Hk, Hsk).
  rewrite <- Ec in Hcap. rewrite Eh, Hbk in Hb1. assert (b1 = b) as -> by congruence.
  pose proof (lookup_lt_Some _ _ _ Hb) as Hlt.
  destruct Hi as [pos held Hf _ _|_ Ebk _|b2 _ Hp Ebk _].
  - exfalso. apply delete_found in Hf as (_ & Hh & Hin).
    assert (contact t (node_id c) = Some held) by (apply contact_Some; [done|]; split;
      [apply elem_of_all_contacts; eauto|congruence]). congruence.
  - assert (b' = b) as -> by congruence. split; intros; lia.
  - rewrite Ebk, Eh, Hbk, list_lookup_insert_eq in Hb' by done. injection Hb' as <-.
    destruct (place_within _ _ _ _ Hcap Hp) as [Hs Ha].
    destruct (place_shape _ _ _ _ Hp) as (kept & -> & Hsub & _). split; intros s.
    + apply (count_snoc (fun c => subnet_prefix (transport c))); [done|]. intros Es.
      unfold over_subnet in Hs. rewrite Es in Hs. by apply Nat.leb_gt in Hs.
    + apply (count_snoc (fun c => as16_prefix (transport c))); [done|]. intros Es.
      unfold over_as16 in Ha. rewrite Es in Ha. by apply Nat.leb_gt in Ha.
Qed.

(** Identifier number [n] of a family that falls into bucket 0 of the node with identifier zero. *)
Definition far_id (n : byte) : list byte := x80 :: repeat x00 30 ++ [n].
(** 203.0.113.n *)
Definition block_address (scheme : list byte) (n : byte) : list byte :=
  scheme ++ show_v4 [xcb; x00; x71; n] ++ ascii ":443".
(** Twenty nodes told by gossip, one a second. *)
Definition gossip (start : Z) (address : byte -> list byte) : list TableOp :=
  (fun n => Insert (contact_new (far_id (byte_of n)) (address (byte_of n))) ((start + n) * NANOS)) <$> seqZ 0 20.
Definition block_only (scheme : list byte) (b : list Contact) : Prop :=
  transport <$> b = (fun n => block_address scheme (byte_of n)) <$> seqZ 0 20.

(** C35. The quotas do not keep one address block from filling a bucket, by gossip alone and within the
    rate limit.  Over a transport whose scheme [host_from_transport] does not strip (tls, ws, wss,
    obfs4-tcp, webtunnel-wss) a contact has no subnet, and twenty nodes of one /24 take all the
    places of a bucket.  And over tcp, nodes that enter without an address and give it in a second
    insertion are not checked at all. *)
Theorem subnet_quota_evaded :
  (forall scheme, scheme ∈ unknown_schemes ->
     exists t b, table_run (table_new (repeat x00 32) 0) (gossip 0 (block_address scheme)) = Some t /\
       buckets t !! 0%nat = Some b /\ length b = K /\ block_only scheme b) /\
  exists t b,
    table_run (table_new (repeat x00 32) 0)
      (gossip 0 (fun _ => []) ++ gossip 20 (block_address (ascii "tcp://"))) = Some t /\
    buckets t !! 0%nat = Some b /\ block_only (ascii "tcp://") b /\
    subnet_count b (SubnetV4 [203; 0; 113]) = 20%nat /\ MAX_NODES_PER_SUBNET_PER_BUCKET = 5%nat.
Proof.
  split.
  - intros scheme Hs.
    repeat (apply elem_of_cons in Hs as [->|Hs];
      [eexists _, _; split; [vm_compute; reflexivity|]; split_and!; vm_compute; reflexivity|]).
    by apply elem_of_nil in Hs.
  - eexists _, _. split; [vm_compute; reflexivity|]. split; [vm_compute; reflexivity|].
    split; [vm_compute; reflexivity|]. split; vm_compute; reflexivity.
Qed.

(** ** Examples *)

Definition demo_id : list byte := repeat x00 32.
Definition demo_table : RoutingTable := with_k demo_id 20 0.
(** A peer that does not serve the DHT, its removal when its session closes, and its return on a
    resumed session, which says nothing. *)
Definition quiet_peer : Contact := with_caps (far_id x01) (ascii "tcp://192.0.2.1:443") Public false.
Definition resumed_peer : Contact := from_handshake (far_id x01) (ascii "tcp://192.0.2.1:443") None.
Definition reconnect : list TableOp := [Remove (far_id x01); InsertTrusted resumed_peer 5].


Definition after (ops : list TableOp) : RoutingTable := default demo_table (table_run demo_table ops).

Lemma stated_preference_kept_witness :
  contact (after (InsertTrusted quiet_peer 0 :: reconnect)) (far_id x01) =
    Some (resumed_peer <| no_dht_service := true |> <| caps_known := true |>) /\
  no_dht_service (resumed_peer <| no_dht_service := true |> <| caps_known := true |>) = no_dht_service quiet_peer.
Proof.
  split; [vm_compute; reflexivity|].
  apply (stated_preference_kept demo_table (after [InsertTrusted quiet_peer 0])
    (after (InsertTrusted quiet_peer 0 :: reconnect)) quiet_peer 0 reconnect (with_k_ok demo_id 20 0 eq_refl)).
  - reflexivity.
  - intros [=].
  - reflexivity.
  - intros [=].
  - right. apply Nat.ltb_lt. vm_compute. reflexivity.
  - vm_compute. reflexivity.
  - constructor; [reflexivity|]. constructor; [reflexivity|constructor].
  - constructor; [intros []|]. constructor; [intros [_ [=]]|constructor].
  - vm_compute. reflexivity.
  - vm_compute. reflexivity.
Defined.

Lemma topology_revision_exact_witness :
  revised (after [InsertTrusted quiet_peer 0])
          (after [InsertTrusted quiet_peer 0; Remove (far_id x01)]).
Proof.
  apply (topology_revision_exact demo_id 20 0 [InsertTrusted quiet_peer 0] (Remove (far_id x01)));
    [reflexivity|by repeat constructor|reflexivity|exact I|vm_compute; reflexivity|vm_compute; reflexivity].
Defined.

Lemma entry_within_quota_witness :
  (subnet_count [quiet_peer] (SubnetV4 [203; 0; 113]%Z) <=
   Nat.max MAX_NODES_PER_SUBNET_PER_BUCKET (subnet_count [] (SubnetV4 [203; 0; 113]%Z)))%nat.
Proof.
  apply (entry_within_quota demo_table (after [InsertTrusted quiet_peer 0]) quiet_peer true 0 [] [quiet_peer]
    (with_k_ok demo_id 20 0 eq_refl)).
  - reflexivity.
  - intros [=].
  - vm_compute. reflexivity.
  - apply Nat.ltb_lt. reflexivity.
  - vm_compute. reflexivity.
  - vm_compute. reflexivity.
  - vm_compute. reflexivity.
Defined.
