(* ===== verification/Onion.v ===== *)
(** * Onion cells

    crates/veil-anonymity/src: cell.rs (fixed-size cells), onion.rs (one layer of encryption),
    circuit.rs (nested layers) and packet.rs (the cell an originator sends and a relay peels).  A
    computation that draws an ephemeral key takes and returns the random source; [None] is a panic. *)

From stdpp Require Import strings.
From S2P Require Import Prelude Crypto.

(** [Result] and its [?]. *)
#[export] Instance result_ret E : MRet (sum E) := fun A x => inr x.
#[export] Instance result_bind E : MBind (sum E) := fun A B f m =>
  match m with inl e => inl e | inr x => f x end.
Definition map_err {E E' A} (f : E -> E') (r : E + A) : E' + A :=
  match r with inl e => inl (f e) | inr x => inr x end.

(** ** Cells: cell.rs *)

Definition CELL_SIZE : Z := 8192.
Definition MAX_PAYLOAD_PER_CELL : Z := CELL_SIZE - 2.

Inductive CellError :=
| CellPayloadTooLarge (got max : Z)
| BadCellSize (got expected : Z)
| DeclaredLenTooLarge (declared max : Z)
| NonZeroPadding (offset got : Z).

Definition pack (payload : list byte) : CellError + list byte :=
  if MAX_PAYLOAD_PER_CELL <? zlen payload then inl (CellPayloadTooLarge (zlen payload) MAX_PAYLOAD_PER_CELL)
  else inr (be_bytes 2 (wrap16 (zlen payload)) ++ payload ++
            repeat x00 (Z.to_nat (CELL_SIZE - 2 - zlen payload))).

(** The loop over the padding: the disjunction of its bytes and the first that is not zero. *)
Fixpoint scan_padding (offset : Z) (padding : list byte) (bad_or : Z) (first_bad : option (Z * Z)) :
    Z * option (Z * Z) :=
  match padding with
  | [] => (bad_or, first_bad)
  | byte :: padding =>
      let first_bad :=
        if is_none first_bad && negb (byte_val byte =? 0) then Some (offset, byte_val byte) else first_bad in
      scan_padding (offset + 1) padding (Z.lor bad_or (byte_val byte)) first_bad
  end.

Definition unpack (cell : list byte) : CellError + list byte :=
  if negb (zlen cell =? CELL_SIZE) then inl (BadCellSize (zlen cell) CELL_SIZE)
  else
    let payload_len := from_be (range 0 2 cell) in
    if MAX_PAYLOAD_PER_CELL <? payload_len then inl (DeclaredLenTooLarge payload_len MAX_PAYLOAD_PER_CELL)
    else
      let padding_start := 2 + payload_len in
      let '(bad_or, first_bad) := scan_padding padding_start (zdrop padding_start cell) 0 None in
      match (if negb (bad_or =? 0) then first_bad else None) with
      | Some (offset, got) => inl (NonZeroPadding offset got)
      | None => inr (range 2 (2 + payload_len) cell)
      end.

(** ** One layer: onion.rs *)

Definition EPHEMERAL_PK_LEN : Z := 32.
Definition ONION_NONCE_LEN : Z := 12.
Definition TAG_LEN : Z := 16.
Definition ONION_LAYER_OVERHEAD : Z := EPHEMERAL_PK_LEN + TAG_LEN.
Definition AEAD_DOMAIN : list byte := ascii "veil-onion-v2" ++ [x00].
Definition LAYER_KIND_CIRCUIT : Z := 0.

Inductive OnionError :=
| EnvelopeTooSmall (got min : Z)
| OnionAead.

(** ** Nested layers: circuit.rs *)

Definition NEXT_HOP_ID_LEN : Z := 32.
Definition FINAL_HOP_SENTINEL : list byte := repeat x00 32.
Definition MAX_CIRCUIT_TTL : Z := 16.
Definition TTL_PREFIX_LEN : Z := 1.
Definition PER_HOP_OVERHEAD : Z := TTL_PREFIX_LEN + NEXT_HOP_ID_LEN + ONION_LAYER_OVERHEAD.

(** The text of [Malformed] is left out. *)
Inductive CircuitError :=
| COnion (e : OnionError)
| PlaintextTooShort (got min : Z)
| NoHops
| TtlExhausted
| TtlExceedsCap (got max : Z)
| CircuitTooLongForTtl (hops required max : Z)
| Malformed.

Inductive PeelResult :=
| PeelForward (next_hop inner : list byte)
| PeelFinal (payload : list byte).

Record Hop := mkHop {
  hop_node_id : list byte;
  hop_pubkey : Key
}.

(** ** The cell of a packet: packet.rs *)

Inductive PacketError :=
| PCircuit (e : CircuitError)
| PCell (e : CellError)
| PPayloadTooLarge (hops got max : Z)
| TooManyHops (got max : Z).

Inductive CellPeelResult :=
| CellForward (next_hop outbound_cell : list byte)
| CellFinal (payload : list byte).

Definition max_payload_for_hops (n : Z) : option Z :=
  if n =? 0 then None
  else if MAX_PAYLOAD_PER_CELL <? PER_HOP_OVERHEAD * n then None
  else Some (MAX_PAYLOAD_PER_CELL - PER_HOP_OVERHEAD * n).

Section onion.
Context `{X25519} `{Aead} `{Blake3} {R : Type} `{Rng R}.

Definition derive_aead_key (shared_secret : Key) : Key :=
  blake3 ((ascii "veil-onion-v1-aead-key" ++ [x00]) ++ shared_secret).

Definition derive_nonce (shared_secret : Key) : Key :=
  ztake ONION_NONCE_LEN (blake3 ((ascii "veil-onion-v2-nonce" ++ [x00]) ++ shared_secret)).

Definition build_aad (ephemeral_pk nonce : list byte) (layer_kind : Z) : list byte :=
  AEAD_DOMAIN ++ [byte_of layer_kind] ++ ephemeral_pk ++ nonce.

Definition wrap_for_hop_kind (payload : list byte) (hop_pk : Key) (layer_kind : Z) (r : R) :
    option (list byte * R) :=
  let '(ephemeral_sk, r) := fill_bytes r 32 in
  let ephemeral_pk := x25519_public ephemeral_sk in
  let shared := x25519_dh ephemeral_sk hop_pk in
  let aead_key := derive_aead_key shared in
  let nonce := derive_nonce shared in
  let aad := build_aad ephemeral_pk nonce layer_kind in
  ciphertext ← aead_seal aead_key nonce aad payload;
  Some (ephemeral_pk ++ ciphertext, r).

Definition wrap_for_hop (payload : list byte) (hop_pk : Key) (r : R) : option (list byte * R) :=
  wrap_for_hop_kind payload hop_pk LAYER_KIND_CIRCUIT r.

Definition unwrap_at_hop_kind (envelope : list byte) (hop_sk : Key) (layer_kind : Z) :
    OnionError + list byte :=
  if zlen envelope <? ONION_LAYER_OVERHEAD then inl (EnvelopeTooSmall (zlen envelope) ONION_LAYER_OVERHEAD)
  else
    let ephemeral_pk := ztake EPHEMERAL_PK_LEN envelope in
    let ciphertext := zdrop EPHEMERAL_PK_LEN envelope in
    let shared := x25519_dh hop_sk ephemeral_pk in
    if negb (x25519_contributory shared) then inl OnionAead
    else
      let nonce := derive_nonce shared in
      match aead_open (derive_aead_key shared) nonce (build_aad ephemeral_pk nonce layer_kind) ciphertext with
      | Some plaintext => inr plaintext
      | None => inl OnionAead
      end.

Definition unwrap_at_hop (envelope : list byte) (hop_sk : Key) : OnionError + list byte :=
  unwrap_at_hop_kind envelope hop_sk LAYER_KIND_CIRCUIT.

(** The loop [for i in (0..hops.len() - 1).rev()] of the builders: [rev_hops] are the hops before
    [next], the nearest first, and [layer this next inner] is the plaintext for hop [this]. *)
Fixpoint wrap_back {A} (layer : A -> A -> list byte -> list byte) (pubkey : A -> Key)
    (rev_hops : list A) (next : A) (wrapped : list byte) (r : R) : option (list byte * R) :=
  match rev_hops with
  | [] => Some (wrapped, r)
  | this :: rest =>
      '(wrapped, r) ← wrap_for_hop (layer this next wrapped) (pubkey this) r;
      wrap_back layer pubkey rest this wrapped r
  end.

(** [hops.len() as u8], saturating plus one. *)
Definition outermost_ttl {A} (hops : list A) : Z := sat_add8 (wrap8 (zlen hops)) 1.

(** A layer of an anonymous cell. *)
Definition hop_layer (next_id inner : list byte) : list byte := [byte_of MAX_CIRCUIT_TTL] ++ next_id ++ inner.

Definition build_circuit (payload : list byte) (hops : list Hop) (r : R) :
    option ((CircuitError + list byte) * R) :=
  match rev hops with
  | [] => Some (inl NoHops, r)
  | final_hop :: rest =>
      if MAX_CIRCUIT_TTL <? outermost_ttl hops then
        Some (inl (CircuitTooLongForTtl (zlen hops) (outermost_ttl hops) MAX_CIRCUIT_TTL), r)
      else
        '(wrapped, r) ← wrap_for_hop (hop_layer FINAL_HOP_SENTINEL payload) (hop_pubkey final_hop) r;
        '(wrapped, r) ← wrap_back (fun _ next => hop_layer (hop_node_id next)) hop_pubkey rest final_hop wrapped r;
        Some (inr wrapped, r)
  end.

Definition peel_circuit (envelope : list byte) (my_sk : Key) : CircuitError + PeelResult :=
  plaintext ← map_err COnion (unwrap_at_hop envelope my_sk);
  let min_len := TTL_PREFIX_LEN + NEXT_HOP_ID_LEN in
  if zlen plaintext <? min_len then inl (PlaintextTooShort (zlen plaintext) min_len)
  else
    let ttl := byte_at plaintext 0 in
    if ttl =? 0 then inl TtlExhausted
    else if MAX_CIRCUIT_TTL <? ttl then inl (TtlExceedsCap ttl MAX_CIRCUIT_TTL)
    else
      let next_hop := range TTL_PREFIX_LEN (TTL_PREFIX_LEN + NEXT_HOP_ID_LEN) plaintext in
      let inner := zdrop (TTL_PREFIX_LEN + NEXT_HOP_ID_LEN) plaintext in
      if bool_decide (next_hop = FINAL_HOP_SENTINEL) then inr (PeelFinal inner)
      else inr (PeelForward next_hop inner).

Definition build_anonymous_cell (payload : list byte) (hops : list Hop) (r : R) :
    option ((PacketError + list byte) * R) :=
  match max_payload_for_hops (zlen hops) with
  | None => Some (inl (TooManyHops (zlen hops) (MAX_PAYLOAD_PER_CELL / PER_HOP_OVERHEAD)), r)
  | Some max =>
      if max <? zlen payload then Some (inl (PPayloadTooLarge (zlen hops) (zlen payload) max), r)
      else
        '(envelope, r) ← build_circuit payload hops r;
        Some (envelope ← map_err PCircuit envelope; map_err PCell (pack envelope), r)
  end.

Definition peel_anonymous_cell (cell_bytes : list byte) (my_sk : Key) : PacketError + CellPeelResult :=
  envelope ← map_err PCell (unpack cell_bytes);
  peeled ← map_err PCircuit (peel_circuit envelope my_sk);
  match peeled with
  | PeelForward next_hop inner =>
      outbound_cell ← map_err PCell (pack inner); inr (CellForward next_hop outbound_cell)
  | PeelFinal payload => inr (CellFinal payload)
  end.

End onion.

(** ** The cell codec is exact *)

Lemma scan_padding_zero n off o f : scan_padding off (repeat x00 n) o f = (o, f).
Proof.
  revert off. induction n as [|n IH]; intros off; cbn [repeat scan_padding]; [done|].
  change (byte_val x00) with 0. rewrite Z.lor_0_r. destruct (is_none f); apply IH.
Qed.

(** Once a byte that is not zero has been seen, the verdict stays. *)
Lemma scan_padding_bad l off o e : 0 < o ->
  exists o', scan_padding off l o (Some e) = (o', Some e) /\ 0 < o'.
Proof.
  revert off o. induction l as [|b l IH]; intros off o Ho; cbn; [eauto|].
  apply IH. pose proof (byte_val_range b).
  assert (0 <= Z.lor o (byte_val b)) by (apply Z.lor_nonneg; lia).
  assert (Z.lor o (byte_val b) <> 0); [|lia]. rewrite Z.lor_eq_0_iff. lia.
Qed.

Lemma scan_padding_spec l off :
  scan_padding off l 0 None = (0, None) /\ l = repeat x00 (length l) \/
  exists o e, scan_padding off l 0 None = (o, Some e) /\ 0 < o.
Proof.
  revert off. induction l as [|b l IH]; intros off; [by left|]. cbn.
  destruct (Z.eqb_spec (byte_val b) 0) as [E|Hb]; cbn.
  - apply (byte_val_inj b x00) in E as ->. change (Z.lor 0 (byte_val x00)) with 0.
    destruct (IH (off + 1)) as [[E El]|?]; [left|by right]. split; [done|]. by rewrite El at 1.
  - right. pose proof (byte_val_range b). rewrite Z.lor_0_l.
    destruct (scan_padding_bad l (off + 1) (byte_val b) (off, byte_val b) ltac:(lia)) as (o' & E & Ho).
    eauto.
Qed.

Lemma be_bytes2_len (p : list byte) : zlen p < M16 -> from_be (be_bytes 2 (wrap16 (zlen p))) = zlen p.
Proof.
  intros Hp. pose proof (zlen_nonneg p). unfold wrap16. rewrite Z.mod_small by lia. apply from_be_bytes_id. lia.
Qed.

Lemma pack_len p cell : pack p = inr cell -> zlen cell = CELL_SIZE /\ zlen p <= MAX_PAYLOAD_PER_CELL.
Proof.
  unfold pack. destruct (Z.ltb_spec MAX_PAYLOAD_PER_CELL (zlen p)); [done|]. intros <-%(inj inr).
  rewrite !zlen_app, zlen_be_bytes, zlen_repeat. unfold MAX_PAYLOAD_PER_CELL, CELL_SIZE in *. lia.
Qed.

Lemma unpack_pack p cell : pack p = inr cell -> unpack cell = inr p.
Proof.
  intros E. destruct (pack_len _ _ E) as [Hl Hp]. unfold pack in E.
  destruct (Z.ltb_spec MAX_PAYLOAD_PER_CELL (zlen p)); [done|]. apply (inj inr) in E as <-.
  unfold unpack. rewrite Hl, Z.eqb_refl. cbn [negb].
  rewrite range_here, be_bytes2_len
    by (rewrite ?zlen_be_bytes; unfold MAX_PAYLOAD_PER_CELL, CELL_SIZE in Hp; lia).
  destruct (Z.ltb_spec MAX_PAYLOAD_PER_CELL (zlen p)); [lia|].
  pose proof (zlen_nonneg p). rewrite app_assoc, zdrop_app_len, scan_padding_zero; cbn.
  - by rewrite <- app_assoc, range_skip, zlen_be_bytes, range_here by (rewrite ?zlen_be_bytes; lia).
  - rewrite zlen_app, zlen_be_bytes. lia.
Qed.

Lemma pack_unpack cell p : unpack cell = inr p -> pack p = inr cell.
Proof.
  unfold unpack. destruct (Z.eqb_spec (zlen cell) CELL_SIZE) as [Hl|]; [cbn [negb]|done].
  set (n := from_be (range 0 2 cell)).
  assert (0 <= n) as Hn by apply from_be_range.
  destruct (Z.ltb_spec MAX_PAYLOAD_PER_CELL n) as [|Hm]; [done|].
  destruct (scan_padding_spec (zdrop (2 + n) cell) (2 + n)) as [[-> Hz]|(o & e & -> & Ho)].
  2:{ destruct (Z.eqb_spec o 0); [lia|]. by destruct e. }
  intros <-%(inj inr). unfold MAX_PAYLOAD_PER_CELL, CELL_SIZE in *.
  assert (zlen (range 2 (2 + n) cell) = n) as Hr by (rewrite range_length; lia).
  unfold pack. rewrite Hr. unfold MAX_PAYLOAD_PER_CELL, CELL_SIZE.
  destruct (Z.ltb_spec (8192 - 2) n); [lia|]. f_equal.
  rewrite <- (ztake_zdrop (2 + n) cell) at 2. rewrite (ztake_range 2 (2 + n)) by lia.
  rewrite <- app_assoc. f_equal; [|f_equal].
  - unfold wrap16. rewrite Z.mod_small by lia.
    change (ztake 2 cell) with (range 0 2 cell). apply (range_be cell 0 2); lia.
  - rewrite Hz. f_equal. pose proof (zlen_zdrop (2 + n) cell ltac:(lia)) as Hd. unfold zlen in *. lia.
Qed.

(** Cells are exact: a cell unpacks to a payload if and only if it is what packing that payload
    gives.  So payload and padding are determined by the cell, every cell has the same size, and no
    two cells carry the same payload. *)
Theorem cell_exact (cell payload : list byte) :
  unpack cell = inr payload <-> pack payload = inr cell.
Proof. split; [apply pack_unpack|apply unpack_pack]. Qed.

(** ** Layers *)

Section laws.
Context `{X25519Laws} `{!X25519Honest} `{AeadLaws} `{!AeadTotal} `{Blake3} {R : Type} `{Rng R}.

Lemma wrap_for_hop_spec (payload : list byte) (sk : Key) (r : R) : zlen payload <= 2 ^ 32 ->
  exists env r', wrap_for_hop payload (x25519_public sk) r = Some (env, r') /\
    unwrap_at_hop env sk = inr payload /\ zlen env = zlen payload + ONION_LAYER_OVERHEAD.
Proof.
  intros Hp. unfold wrap_for_hop, wrap_for_hop_kind. destruct (fill_bytes r 32) as [e r'].
  set (aad := build_aad _ _ _). destruct (aead_total (derive_aead_key (x25519_dh e (x25519_public sk)))
    (derive_nonce (x25519_dh e (x25519_public sk))) aad payload Hp) as [c Ec].
  rewrite Ec. eexists _, _. split; [done|]. pose proof (x25519_public_len e) as He.
  pose proof (aead_tag _ _ _ _ _ Ec) as Hc. pose proof (zlen_nonneg payload).
  rewrite zlen_app, He. unfold ONION_LAYER_OVERHEAD, EPHEMERAL_PK_LEN, TAG_LEN. split; [|lia].
  unfold unwrap_at_hop, unwrap_at_hop_kind, ONION_LAYER_OVERHEAD, EPHEMERAL_PK_LEN, TAG_LEN.
  rewrite zlen_app, He. destruct (Z.ltb_spec (32 + zlen c) (32 + 16)); [lia|].
  rewrite ztake_app_len, zdrop_app_len by done.
  rewrite (x25519_agree sk e), x25519_honest. cbn [negb].
  fold aad. by rewrite (aead_correct _ _ _ _ _ Ec).
Qed.

(** Envelopes nested for the hops in order: hop by hop, unwrapping gives the layer around the next
    envelope, and the last one gives [final]. *)
Section nested.
Context {A : Type} (layer : A -> A -> list byte -> list byte) (final : A -> list byte)
  (pubkey sk : A -> Key) (over base : Z) (ok : A -> Prop).

Fixpoint nested (hops : list A) (env : list byte) : Prop :=
  zlen env = base + (over + ONION_LAYER_OVERHEAD) * zlen hops /\
  match hops with
  | [] => False
  | [h] => unwrap_at_hop env (sk h) = inr (final h)
  | h :: (h' :: _) as t =>
      exists inner, unwrap_at_hop env (sk h) = inr (layer h h' inner) /\ nested t inner
  end.

Context (layer_len : forall h h' x, ok h -> ok h' -> zlen (layer h h' x) = over + zlen x)
  (key_ok : forall h, ok h -> pubkey h = x25519_public (sk h)).

Lemma wrap_back_nested rest next done_ w (r : R) :
  0 <= over -> 0 <= base -> Forall ok (next :: rest) ->
  base + (over + ONION_LAYER_OVERHEAD) * (zlen rest + 1 + zlen done_) <= 2 ^ 32 ->
  nested (next :: done_) w ->
  exists env r', wrap_back layer pubkey rest next w r = Some (env, r') /\
    nested (rev rest ++ next :: done_) env.
Proof.
  intros Ho Hb. revert next done_ w r. induction rest as [|h rest IH]; intros next dn w r Hk Hs Hn; cbn [wrap_back].
  - by exists w, r.
  - assert (zlen (layer h next w) = over + (base + (over + ONION_LAYER_OVERHEAD) * (1 + zlen dn))) as Hl.
    { apply Forall_cons in Hk as [Hnx Hk]. rewrite layer_len, <- (zlen_cons next dn) by (done || by inversion Hk).
      f_equal. apply Hn. }
    rewrite zlen_cons in Hs. unfold ONION_LAYER_OVERHEAD, EPHEMERAL_PK_LEN, TAG_LEN in *.
    pose proof (zlen_nonneg rest). pose proof (zlen_nonneg dn).
    destruct (wrap_for_hop_spec (layer h next w) (sk h) r) as (w' & r' & E & Eu & El); [nia|].
    apply Forall_cons in Hk as [_ Hk]. rewrite (key_ok h), E by (by inversion Hk). cbn [mbind option_bind].
    destruct (IH h (next :: dn) w' r') as (env & r2 & E2 & Hn2).
    + done.
    + rewrite zlen_cons. unfold ONION_LAYER_OVERHEAD, EPHEMERAL_PK_LEN, TAG_LEN. lia.
    + cbn [nested]. split; [|by exists w].
      rewrite El, Hl, !zlen_cons. unfold ONION_LAYER_OVERHEAD, EPHEMERAL_PK_LEN, TAG_LEN. lia.
    + exists env, r2. split; [done|]. cbn [rev]. by rewrite <- app_assoc.
Qed.

(** The two steps of the builders: the envelope of the last hop, then the loop. *)
Lemma wrap_all_nested hops last rest (r : R) :
  0 <= over -> 0 <= base -> rev hops = last :: rest -> zlen (final last) = over + base ->
  Forall ok hops ->
  base + (over + ONION_LAYER_OVERHEAD) * zlen hops <= 2 ^ 32 ->
  exists w r1 env r', wrap_for_hop (final last) (pubkey last) r = Some (w, r1) /\
    wrap_back layer pubkey rest last w r1 = Some (env, r') /\ nested hops env.
Proof.
  intros Ho Hb Er Hf Hk Hs.
  assert (Forall ok (last :: rest)) as Hk' by (rewrite <- Er; by apply Forall_rev).
  assert (hops = rev rest ++ [last]) as -> by (rewrite <- (rev_involutive hops), Er; done).
  rewrite zlen_app, zlen_cons, zlen_nil in Hs. unfold zlen in Hs at 1. rewrite length_rev in Hs.
  fold (zlen rest) in Hs. pose proof (zlen_nonneg rest).
  unfold ONION_LAYER_OVERHEAD, EPHEMERAL_PK_LEN, TAG_LEN in *.
  destruct (wrap_for_hop_spec (final last) (sk last) r) as (w & r1 & E & Eu & El); [nia|].
  rewrite (key_ok last), E by (by inversion Hk'). exists w, r1.
  destruct (wrap_back_nested rest last [] w r1) as (env & r' & E2 & Hn); [done..| | |].
  - rewrite zlen_nil. unfold ONION_LAYER_OVERHEAD, EPHEMERAL_PK_LEN, TAG_LEN. lia.
  - cbn [nested]. split; [|done]. rewrite El, Hf, zlen_cons, zlen_nil.
    unfold ONION_LAYER_OVERHEAD, EPHEMERAL_PK_LEN, TAG_LEN. lia.
  - by exists env, r'.
Qed.

End nested.
(** ** The journey of a cell *)

Lemma peel_circuit_layer env sk id inner :
  unwrap_at_hop env sk = inr (hop_layer id inner) -> zlen id = NEXT_HOP_ID_LEN ->
  peel_circuit env sk = inr (if bool_decide (id = FINAL_HOP_SENTINEL) then PeelFinal inner
                             else PeelForward id inner).
Proof.
  intros E Hid. unfold peel_circuit. rewrite E. cbn [map_err mbind result_bind].
  unfold hop_layer, NEXT_HOP_ID_LEN, TTL_PREFIX_LEN in *. rewrite !zlen_app, Hid, zlen_cons, zlen_nil.
  pose proof (zlen_nonneg inner). destruct (Z.ltb_spec (1 + 0 + (32 + zlen inner)) (1 + 32)); [lia|].
  change (byte_at ([byte_of MAX_CIRCUIT_TTL] ++ id ++ inner) 0) with 16.
  cbn [Z.eqb Z.ltb Z.compare MAX_CIRCUIT_TTL Pos.compare Pos.compare_cont].
  rewrite range_skip by done. change (1 - zlen [byte_of MAX_CIRCUIT_TTL]) with 0.
  rewrite range_here by done.
  rewrite app_assoc, zdrop_app_len by (rewrite zlen_app, zlen_cons, zlen_nil; lia).
  by case_bool_decide.
Qed.

Lemma pack_fits p : zlen p <= MAX_PAYLOAD_PER_CELL -> exists cell, pack p = inr cell.
Proof. intros Hp. unfold pack. destruct (Z.ltb_spec MAX_PAYLOAD_PER_CELL (zlen p)); [lia|]. eauto. Qed.

Section delivery.
(** Who holds which secret key. *)
Context (keys : gmap (list byte) Key).

(** A cell sent to [node] is peeled there and sent on to the next hop it names, until it is final:
    the nodes it visits with the cell each of them receives, and the payload. *)
Fixpoint route_cell (fuel : nat) (node cell : list byte) :
    option (list (list byte * list byte) * list byte) :=
  match fuel with
  | O => None
  | S fuel =>
      sk ← keys !! node;
      match peel_anonymous_cell cell sk with
      | inr (CellForward next out) =>
          '(seen, payload) ← route_cell fuel next out; Some ((node, cell) :: seen, payload)
      | inr (CellFinal payload) => Some ([(node, cell)], payload)
      | inl _ => None
      end
  end.

Definition hop_sk (h : Hop) : Key := default [] (keys !! hop_node_id h).

(** A hop as a directory publishes it: an identifier of its size, and the key of the node. *)
Definition published (h : Hop) : Prop :=
  zlen (hop_node_id h) = NEXT_HOP_ID_LEN /\ hop_node_id h <> FINAL_HOP_SENTINEL /\
  exists sk, keys !! hop_node_id h = Some sk /\ hop_pubkey h = x25519_public sk.

Lemma published_key h : published h -> keys !! hop_node_id h = Some (hop_sk h) /\ hop_pubkey h = x25519_public (hop_sk h).
Proof. intros (_ & _ & sk & E & Ep). unfold hop_sk. by rewrite E. Qed.

Lemma route_cell_nested payload hops h env cell :
  Forall published (h :: hops) ->
  nested (fun _ next => hop_layer (hop_node_id next)) (fun _ => hop_layer FINAL_HOP_SENTINEL payload)
    hop_sk (TTL_PREFIX_LEN + NEXT_HOP_ID_LEN) (zlen payload) (h :: hops) env ->
  pack env = inr cell ->
  exists seen, route_cell (S (length hops)) (hop_node_id h) cell = Some (seen, payload) /\
    seen.*1 = hop_node_id <$> h :: hops /\ Forall (fun c => zlen c = CELL_SIZE) seen.*2.
Proof.
  revert h env cell. induction hops as [|h' hops IH]; intros h env cell Hp [Hl Hn] Ec;
    apply Forall_cons in Hp as [Hh Hp]; destruct (pack_len _ _ Ec) as [Hc He];
    cbn [route_cell]; rewrite (proj1 (published_key h Hh)); cbn [mbind option_bind];
    unfold peel_anonymous_cell; rewrite (unpack_pack _ _ Ec); cbn [map_err mbind result_bind].
  - rewrite (peel_circuit_layer _ _ _ _ Hn) by done. cbn. eexists. split; [done|]. split; [done|].
    by apply Forall_singleton.
  - destruct Hn as (inner & Eu & Hn). apply Forall_cons in Hp as Hp'. destruct Hp' as [(Hid & Hne & _) _].
    rewrite (peel_circuit_layer _ _ _ _ Eu Hid), bool_decide_false by done. cbn [map_err mbind result_bind].
    assert (zlen inner = zlen payload + (TTL_PREFIX_LEN + NEXT_HOP_ID_LEN + ONION_LAYER_OVERHEAD) * zlen (h' :: hops))
      as Hli by apply Hn.
    destruct (pack_fits inner) as [out Eo].
    { rewrite Hl, zlen_cons in He. rewrite Hli. unfold TTL_PREFIX_LEN, NEXT_HOP_ID_LEN, ONION_LAYER_OVERHEAD,
        EPHEMERAL_PK_LEN, TAG_LEN in *. lia. }
    rewrite Eo. cbn [map_err mbind result_bind].
    destruct (IH h' inner out Hp Hn Eo) as (seen & Er & Es & Hs).
    change (length (h' :: hops)) with (S (length hops)). rewrite Er. cbn [mbind option_bind].
    eexists. split; [done|]. rewrite !fmap_cons. split; [by rewrite Es|]. by apply Forall_cons.
Qed.

(** C8. An anonymous cell reaches its destination, and only that.  Whenever the path has one to
    fifteen published hops and the payload fits, the originator builds a cell; the hops of the path
    receive it in order, each peels one layer and learns the next hop, the last gets exactly the
    payload, and every cell on the way has the same size. *)
Theorem anonymous_cell_delivered (payload : list byte) (h : Hop) (hops : list Hop) (r : R)
    (Hhops : Forall published (h :: hops)) (Hn : zlen (h :: hops) < MAX_CIRCUIT_TTL)
    (Hfit : zlen payload + PER_HOP_OVERHEAD * zlen (h :: hops) <= MAX_PAYLOAD_PER_CELL) :
  exists cell r' seen,
    build_anonymous_cell payload (h :: hops) r = Some (inr cell, r') /\
    route_cell (length (h :: hops)) (hop_node_id h) cell = Some (seen, payload) /\
    seen.*1 = hop_node_id <$> h :: hops /\ Forall (fun c => zlen c = CELL_SIZE) seen.*2.
Proof.
  set (all := h :: hops) in *. pose proof (zlen_nonneg payload) as Hp0.
  assert (0 < zlen all) as Hpos by (unfold all; rewrite zlen_cons; pose proof (zlen_nonneg hops); lia).
  destruct (rev all) as [|final_hop rest] eqn:Er.
  { apply (f_equal length) in Er. rewrite length_rev in Er. by unfold all in Er. }
  destruct (wrap_all_nested (fun _ next => hop_layer (hop_node_id next))
    (fun _ => hop_layer FINAL_HOP_SENTINEL payload) hop_pubkey hop_sk (TTL_PREFIX_LEN + NEXT_HOP_ID_LEN)
    (zlen payload) published) with all final_hop rest r as (w & r1 & env & r' & E1 & E2 & Hnest);
    [|by intros ? [_ ?]%published_key|done|lia|done| |done|..].
  { intros _ h' x _ (Hid & _). unfold hop_layer. rewrite !zlen_app, Hid, zlen_cons, zlen_nil.
    unfold TTL_PREFIX_LEN. lia. }
  { unfold hop_layer. rewrite !zlen_app, zlen_cons, zlen_nil. change (zlen FINAL_HOP_SENTINEL) with 32.
    unfold TTL_PREFIX_LEN, NEXT_HOP_ID_LEN. lia. }
  { fold PER_HOP_OVERHEAD. unfold MAX_PAYLOAD_PER_CELL, CELL_SIZE in Hfit. lia. }
  assert (zlen env <= MAX_PAYLOAD_PER_CELL) as He.
  { assert (zlen env = zlen payload + PER_HOP_OVERHEAD * zlen all) as -> by apply Hnest. done. }
  destruct (pack_fits env He) as [cell Ec].
  destruct (route_cell_nested payload hops h env cell Hhops Hnest Ec) as (seen & Eroute & Hs).
  exists cell, r', seen. split; [|done]. unfold build_anonymous_cell, max_payload_for_hops.
  destruct (Z.eqb_spec (zlen all) 0); [lia|].
  destruct (Z.ltb_spec MAX_PAYLOAD_PER_CELL (PER_HOP_OVERHEAD * zlen all)); [lia|].
  destruct (Z.ltb_spec (MAX_PAYLOAD_PER_CELL - PER_HOP_OVERHEAD * zlen all) (zlen payload)); [lia|].
  unfold build_circuit. rewrite Er. destruct (Z.ltb_spec MAX_CIRCUIT_TTL (outermost_ttl all)) as [Ht|_].
  { unfold outermost_ttl, sat_add8, wrap8, MAX_CIRCUIT_TTL in *. rewrite Z.mod_small in Ht by lia. lia. }
  rewrite E1. cbn [mbind option_bind]. rewrite E2. cbn [mbind option_bind map_err result_bind]. by rewrite Ec.
Qed.

End delivery.
End laws.

(** ** A path of two hops *)

Module Demo.
Import Toy.
#[local] Existing Instances x25519_toy x25519_toy_laws x25519_toy_honest aead_toy aead_toy_laws aead_toy_total
  blake3_toy rng_toy.

Definition first_sk : Key := be_bytes 32 7.
Definition last_sk : Key := be_bytes 32 9.
Definition first : Hop := mkHop (repeat x01 32) (x25519_public first_sk).
Definition last : Hop := mkHop (repeat x02 32) (x25519_public last_sk).
Definition keys : gmap (list byte) Key :=
  <[hop_node_id first := first_sk]> (<[hop_node_id last := last_sk]> ∅).

Lemma first_published : published keys first.
Proof. split; [done|]. split; [done|]. exists first_sk. split; [apply lookup_insert_eq|done]. Qed.

Lemma last_published : published keys last.
Proof.
  split; [done|]. split; [done|]. exists last_sk. split; [|done].
  unfold keys. rewrite lookup_insert_ne by done. apply lookup_insert_eq.
Qed.

Lemma anonymous_cell_delivered_witness :
  exists cell r' seen,
    build_anonymous_cell [x68; x69] [first; last] 0 = Some (inr cell, r') /\
    route_cell keys 2 (repeat x01 32) cell = Some (seen, [x68; x69]) /\
    seen.*1 = [repeat x01 32; repeat x02 32] /\ Forall (fun c => zlen c = CELL_SIZE) seen.*2.
Proof.
  apply (anonymous_cell_delivered keys [x68; x69] first [last] 0).
  - apply Forall_cons. split; [apply first_published|]. apply Forall_singleton, last_published.
  - reflexivity.
  - apply Z.leb_le. reflexivity.
Defined.

End Demo.
