(* ===== verification/CircuitData.v ===== *)
(** * Circuit cells

    crates/veil-anonymity/src: the cells of an established circuit.  circuit_data.rs: the size of a
    circuit's cells, the stream-cipher layer each hop adds or removes, and the framing of a payload;
    circuit_wire.rs: the messages that carry cells, teardowns and acknowledgements. *)

From stdpp Require Import strings.
From S2P Require Import Prelude Crypto Onion.

(** ** Cell sizes: circuit_data.rs *)

Definition CIRCUIT_PAYLOAD_BYTES : Z := 16384.
Definition LEN_PREFIX : Z := 2.
Definition MIN_CIRCUIT_CELL_BYTES : Z := 1024.
Definition CIRCUIT_KEY_LEN : Z := 32.

(** [CircuitCellBytes(usize)]; the constructor checks the range. *)
Abbreviation CircuitCellBytes := Z (only parsing).

Definition cell_bytes_new (bytes : Z) : CircuitError + CircuitCellBytes :=
  if negb ((MIN_CIRCUIT_CELL_BYTES <=? bytes) && (bytes <=? CIRCUIT_PAYLOAD_BYTES)) then inl Malformed
  else inr bytes.

Definition cell_legacy : CircuitCellBytes := CIRCUIT_PAYLOAD_BYTES.
Definition max_inner (cell : CircuitCellBytes) : Z := cell - LEN_PREFIX.

(** What the constructor accepts. *)
Definition is_cell_size (cell : Z) : Prop := MIN_CIRCUIT_CELL_BYTES <= cell <= CIRCUIT_PAYLOAD_BYTES.

(** ** Layers *)

Inductive Direction := Forward | Return.

Definition dir_tag (d : Direction) : Z := match d with Forward => 1 | Return => 2 end.

Definition layer_nonce (dir : Direction) (seq : Z) : list byte :=
  [byte_of (dir_tag dir)] ++ be_bytes 4 seq ++ repeat x00 7.

Section layers.
Context `{ChaCha20}.

(** [apply_keystream] on the whole buffer. *)
Definition apply_layer (circuit_key : Key) (dir : Direction) (seq : Z) (buf : list byte) : list byte :=
  zip_with xor_byte buf (chacha20 circuit_key (layer_nonce dir seq) (length buf)).

Definition apply_layers (keys : list Key) (dir : Direction) (seq : Z) (buf : list byte) :
    CircuitError + list byte :=
  if is_nil keys then inl NoHops
  else inr (fold_left (fun buf k => apply_layer k dir seq buf) keys buf).

End layers.

(** ** Payloads *)

Section payload.
Context {R : Type} `{Rng R}.

Definition wrap_payload (payload : list byte) (cell : CircuitCellBytes) (r : R) :
    (CircuitError + list byte) * R :=
  if max_inner cell <? zlen payload then (inl Malformed, r)
  else
    let '(padding, r) := fill_bytes r (cell - (LEN_PREFIX + zlen payload)) in
    (inr (be_bytes 2 (wrap16 (zlen payload)) ++ payload ++ padding), r).

End payload.

Definition CIRCUIT_HEARTBEAT_MAGIC : list byte := ascii "veil/hb1".
Definition is_heartbeat (payload : list byte) : bool := bool_decide (payload = CIRCUIT_HEARTBEAT_MAGIC).
Definition CIRCUIT_PROBE_MAGIC : list byte := ascii "veil/probe-echo1".
Definition is_probe_echo (payload : list byte) : bool := bool_decide (payload = CIRCUIT_PROBE_MAGIC).

Definition read_payload (buf : list byte) : option (list byte) :=
  if zlen buf <? LEN_PREFIX then None
  else
    let len := from_be (range 0 2 buf) in
    if zlen buf <? LEN_PREFIX + len then None else Some (range LEN_PREFIX (LEN_PREFIX + len) buf).

(** ** Messages: circuit_wire.rs *)

Abbreviation CircuitId := Z (only parsing).

Record CircuitDataPayload := mkData {
  data_circuit_id : CircuitId;
  data_seq : Z;
  data_ciphertext : list byte
}.

Definition DATA_HEADER_LEN : Z := 4 + 4 + 2.

Definition data_encode (p : CircuitDataPayload) (cell : CircuitCellBytes) : CircuitError + list byte :=
  if negb (zlen (data_ciphertext p) =? cell) then inl Malformed
  else inr (be_bytes 4 (data_circuit_id p) ++ be_bytes 4 (data_seq p) ++
            be_bytes 2 (wrap16 (zlen (data_ciphertext p))) ++ data_ciphertext p).

Definition data_decode_header (blob : list byte) : CircuitError + (CircuitId * Z * Z) :=
  if zlen blob <? DATA_HEADER_LEN then inl Malformed
  else
    let circuit_id := from_be (range 0 4 blob) in
    let seq := from_be (range 4 8 blob) in
    let len := from_be (range 8 10 blob) in
    match cell_bytes_new len with
    | inl _ => inl Malformed
    | inr _ => if negb (zlen blob =? DATA_HEADER_LEN + len) then inl Malformed else inr (circuit_id, seq, len)
    end.

Definition data_validate (blob : list byte) : CircuitError + unit :=
  data_decode_header blob ≫= fun _ => inr tt.

Definition data_decode (blob : list byte) : CircuitError + CircuitDataPayload :=
  '(circuit_id, seq, len) ← data_decode_header blob;
  inr (mkData circuit_id seq (range DATA_HEADER_LEN (DATA_HEADER_LEN + len) blob)).

Definition expect_cell (p : CircuitDataPayload) (cell : CircuitCellBytes) : CircuitError + unit :=
  if negb (zlen (data_ciphertext p) =? cell) then inl Malformed else inr tt.

Definition TEARDOWN_WIRE_LEN : Z := 4.

Definition teardown_encode (circuit_id : CircuitId) : list byte := be_bytes 4 circuit_id.

Definition teardown_decode (blob : list byte) : CircuitError + CircuitId :=
  if negb (zlen blob =? TEARDOWN_WIRE_LEN) then inl Malformed else inr (from_be blob).

Definition CIRCUIT_BUILT_CONTEXT : list byte := ascii "veil.anonymity.circuit_built.v1 terminus ack token".

Definition circuit_built_token `{Blake3Kdf} (circuit_key : Key) : list byte :=
  blake3_derive_key CIRCUIT_BUILT_CONTEXT circuit_key.

(** [diff |= a[i] ^ b[i]] over both arrays. *)
Definition circuit_built_token_matches (a b : list byte) : bool :=
  fold_left (fun diff x => Z.lor diff (byte_val x)) (zip_with xor_byte a b) 0 =? 0.

Record CircuitBuiltPayload := mkBuilt {
  built_circuit_id : CircuitId;
  built_token : list byte
}.

Definition BUILT_WIRE_LEN : Z := 4 + 32.

Definition built_encode (p : CircuitBuiltPayload) : list byte :=
  be_bytes 4 (built_circuit_id p) ++ built_token p.

Definition built_decode (blob : list byte) : CircuitError + CircuitBuiltPayload :=
  if negb (zlen blob =? BUILT_WIRE_LEN) then inl Malformed
  else inr (mkBuilt (from_be (range 0 4 blob)) (zdrop 4 blob)).

(** ** Layers cancel and commute *)

Lemma zip_xor_cancel l k : length k = length l -> zip_with xor_byte (zip_with xor_byte l k) k = l.
Proof.
  revert k. induction l as [|a l IH]; intros [|b k] E; cbn in *; try done.
  by rewrite xor_byte_cancel, IH by lia.
Qed.

Lemma zip_xor_swap l k k' :
  zip_with xor_byte (zip_with xor_byte l k) k' = zip_with xor_byte (zip_with xor_byte l k') k.
Proof.
  revert k k'. induction l as [|a l IH]; intros [|b k] [|b' k']; cbn; try done.
  by rewrite xor_byte_swap, IH.
Qed.

Section layer_laws.
Context `{ChaCha20Laws}.

Lemma length_apply_layer k d s buf : length (apply_layer k d s buf) = length buf.
Proof. unfold apply_layer. rewrite length_zip_with, chacha20_len. lia. Qed.

Lemma zlen_apply_layer k d s buf : zlen (apply_layer k d s buf) = zlen buf.
Proof. unfold zlen. by rewrite length_apply_layer. Qed.

Lemma apply_layer_cancel k d s buf : apply_layer k d s (apply_layer k d s buf) = buf.
Proof.
  unfold apply_layer at 1. rewrite length_apply_layer. unfold apply_layer.
  apply zip_xor_cancel, chacha20_len.
Qed.

Lemma apply_layer_swap k k' d s buf :
  apply_layer k d s (apply_layer k' d s buf) = apply_layer k' d s (apply_layer k d s buf).
Proof.
  unfold apply_layer at 1 3. rewrite !length_apply_layer. unfold apply_layer. apply zip_xor_swap.
Qed.

(** All layers of a list of keys. *)
Definition layered (keys : list Key) (d : Direction) (s : Z) (buf : list byte) : list byte :=
  fold_left (fun buf k => apply_layer k d s buf) keys buf.

Lemma layered_apply keys k d s buf :
  layered keys d s (apply_layer k d s buf) = apply_layer k d s (layered keys d s buf).
Proof.
  unfold layered. revert buf. induction keys as [|k' keys IH]; intros buf; cbn; [done|].
  by rewrite apply_layer_swap, IH.
Qed.

Lemma zlen_layered keys d s buf : zlen (layered keys d s buf) = zlen buf.
Proof.
  unfold layered. revert buf. induction keys as [|k' keys IH]; intros buf; cbn; [done|].
  by rewrite IH, zlen_apply_layer.
Qed.

(** Removing the layer of the first hop leaves those of the others. *)
Lemma layered_peel k keys d s buf : apply_layer k d s (layered (k :: keys) d s buf) = layered keys d s buf.
Proof.
  change (layered (k :: keys) d s buf) with (layered keys d s (apply_layer k d s buf)).
  by rewrite layered_apply, apply_layer_cancel.
Qed.

End layer_laws.

(** ** Framing *)

Lemma wrap_payload_spec {R} `{RngLaws R} (payload : list byte) cell (r : R) :
  is_cell_size cell -> zlen payload <= max_inner cell ->
  exists buf r', wrap_payload payload cell r = (inr buf, r') /\ zlen buf = cell /\ read_payload buf = Some payload.
Proof.
  unfold is_cell_size, MIN_CIRCUIT_CELL_BYTES, CIRCUIT_PAYLOAD_BYTES. intros Hc Hp.
  pose proof (zlen_nonneg payload). unfold max_inner, LEN_PREFIX in Hp.
  unfold wrap_payload, max_inner, LEN_PREFIX. destruct (Z.ltb_spec (cell - 2) (zlen payload)); [lia|].
  pose proof (fill_bytes_len r (cell - (2 + zlen payload)) ltac:(lia)) as Hl.
  destruct (fill_bytes r _) as [pad r']. cbn in Hl. eexists _, _. split; [done|].
  rewrite !zlen_app, zlen_be_bytes, Hl. split; [lia|].
  unfold read_payload, LEN_PREFIX. rewrite !zlen_app, zlen_be_bytes, Hl.
  rewrite range_here, be_bytes2_len by (rewrite ?zlen_be_bytes; lia).
  change (Z.of_nat 2) with 2. rewrite range_skip, zlen_be_bytes by (rewrite zlen_be_bytes; lia).
  change (2 - Z.of_nat 2) with 0. rewrite range_here by lia. repeat case_bool; to_prop; lia || done.
Qed.

(** ** Messages are exact *)

Definition data_wf (p : CircuitDataPayload) : Prop :=
  is_u32 (data_circuit_id p) /\ is_u32 (data_seq p) /\ is_cell_size (zlen (data_ciphertext p)).

Lemma cell_bytes_new_spec n : cell_bytes_new n = inr n /\ is_cell_size n \/ cell_bytes_new n = inl Malformed /\ ~ is_cell_size n.
Proof.
  unfold cell_bytes_new, is_cell_size. destruct (Z.leb_spec MIN_CIRCUIT_CELL_BYTES n), (Z.leb_spec n CIRCUIT_PAYLOAD_BYTES);
    cbn [andb negb]; [left; split; [done|lia]|right; split; [done|lia]..].
Qed.

Lemma data_decode_encode p blob :
  data_wf p -> data_encode p (zlen (data_ciphertext p)) = inr blob -> data_decode blob = inr p.
Proof.
  intros (Hi & Hs & Hc). unfold data_encode. rewrite Z.eqb_refl. cbn [negb]. intros <-%(inj inr).
  destruct p as [cid seq ct]; cbn [data_circuit_id data_seq data_ciphertext] in *.
  pose proof Hc as Hc'. unfold is_cell_size, MIN_CIRCUIT_CELL_BYTES, CIRCUIT_PAYLOAD_BYTES in Hc'.
  unfold data_decode, data_decode_header, DATA_HEADER_LEN. rewrite !zlen_app, !zlen_be_bytes.
  destruct (Z.ltb_spec (Z.of_nat 4 + (Z.of_nat 4 + (Z.of_nat 2 + zlen ct))) (4 + 4 + 2)); [lia|].
  rewrite range_here by apply zlen_be_bytes. rewrite (range_mid _ (be_bytes 4 seq) _ 4 8) by apply zlen_be_bytes.
  rewrite (app_assoc (be_bytes 4 cid)), range_mid, be_bytes2_len
    by (rewrite ?zlen_app, ?zlen_be_bytes; done || lia).
  rewrite !from_be_bytes_id by (unfold is_u32 in *; lia).
  destruct (cell_bytes_new_spec (zlen ct)) as [[-> _]|[_ ?]]; [|done].
  destruct (Z.eqb_spec (Z.of_nat 4 + (Z.of_nat 4 + (Z.of_nat 2 + zlen ct))) (4 + 4 + 2 + zlen ct)); [|lia].
  cbn [negb mbind result_bind]. do 2 f_equal.
  rewrite app_assoc. apply range_tail; [rewrite !zlen_app, !zlen_be_bytes; done|lia].
Qed.

Lemma data_encode_decode blob p :
  data_decode blob = inr p -> data_wf p /\ data_encode p (zlen (data_ciphertext p)) = inr blob.
Proof.
  unfold data_decode, data_decode_header, DATA_HEADER_LEN.
  destruct (Z.ltb_spec (zlen blob) (4 + 4 + 2)); [done|]. set (n := from_be (range 8 10 blob)).
  destruct (cell_bytes_new_spec n) as [[-> Hn]|[-> _]]; [|done].
  destruct (Z.eqb_spec (zlen blob) (4 + 4 + 2 + n)) as [Hl|]; [|done]. cbn [negb mbind result_bind].
  intros <-%(inj inr). unfold data_wf, data_encode; cbn [data_circuit_id data_seq data_ciphertext].
  pose proof Hn as Hn'. unfold is_cell_size, MIN_CIRCUIT_CELL_BYTES, CIRCUIT_PAYLOAD_BYTES in Hn'.
  assert (forall a, 0 <= a -> a + 4 <= zlen blob -> is_u32 (from_be (range a (a + 4) blob))) as Hu.
  { intros a ? ?. pose proof (from_be_range (range a (a + 4) blob)) as Hr.
    rewrite range_length in Hr by lia. replace (a + 4 - a) with 4 in Hr by lia. done. }
  assert (zlen (range (4 + 4 + 2) (4 + 4 + 2 + n) blob) = n) as Hc by (rewrite range_length; lia).
  rewrite Hc, Z.eqb_refl. split; [split_and!; [by apply (Hu 0); lia|by apply (Hu 4); lia|done]|].
  cbn [negb]. f_equal. unfold wrap16. rewrite Z.mod_small by lia. unfold n.
  pose proof (range_be blob 0 4 ltac:(lia) ltac:(lia) : be_bytes 4 _ = _) as ->.
  pose proof (range_be blob 4 8 ltac:(lia) ltac:(lia) : be_bytes 4 _ = _) as ->.
  pose proof (range_be blob 8 10 ltac:(lia) ltac:(lia) : be_bytes 2 _ = _) as ->. fold n.
  rewrite <- (ztake_zdrop (4 + 4 + 2 + n) blob) at 5. rewrite (ztake_range 10 (4 + 4 + 2 + n)), (ztake_range 8 10),
    (ztake_range 4 8) by lia. change (ztake 4 blob) with (range 0 4 blob).
  assert (zdrop (4 + 4 + 2 + n) blob = []) as ->.
  { apply nil_length_inv. pose proof (zlen_zdrop (4 + 4 + 2 + n) blob ltac:(lia)) as Hd. unfold zlen in *. lia. }
  by rewrite app_nil_r, <- !app_assoc.
Qed.

(** A circuit-data message decodes to a cell if and only if the cell's identifier and sequence
    number are 32-bit, its size is one a circuit may have, and the message is its encoding, to the
    last byte. *)
Theorem circuit_data_exact (blob : list byte) (p : CircuitDataPayload) :
  data_decode blob = inr p <-> data_wf p /\ data_encode p (zlen (data_ciphertext p)) = inr blob.
Proof. split; [apply data_encode_decode|]. intros []. by apply data_decode_encode. Qed.

Lemma built_decode_encode p :
  is_u32 (built_circuit_id p) -> zlen (built_token p) = 32 -> built_decode (built_encode p) = inr p.
Proof.
  destruct p as [cid tok]; cbn. intros Hi Ht. unfold built_decode, built_encode, BUILT_WIRE_LEN; cbn.
  rewrite zlen_app, zlen_be_bytes, Ht. cbn [Z.of_nat].
  rewrite range_here, zdrop_app_len by apply zlen_be_bytes. by rewrite from_be_bytes_id by done.
Qed.

Lemma teardown_decode_encode cid : is_u32 cid -> teardown_decode (teardown_encode cid) = inr cid.
Proof.
  intros Hi. unfold teardown_decode, teardown_encode, TEARDOWN_WIRE_LEN. rewrite zlen_be_bytes. cbn.
  by rewrite from_be_bytes_id by done.
Qed.

Lemma lor_bytes_zero l o : 0 <= o ->
  fold_left (fun diff x => Z.lor diff (byte_val x)) l o = 0 <-> o = 0 /\ Forall (fun x => byte_val x = 0) l.
Proof.
  revert o. induction l as [|x l IH]; intros o Ho; cbn; [by rewrite Forall_nil; tauto|].
  pose proof (byte_val_range x). rewrite IH, Z.lor_eq_0_iff, Forall_cons by (apply Z.lor_nonneg; lia). tauto.
Qed.

(** The constant-time comparison is equality. *)
Lemma token_matches_spec a b : length a = length b -> circuit_built_token_matches a b = true <-> a = b.
Proof.
  intros Hl. unfold circuit_built_token_matches. rewrite Z.eqb_eq, lor_bytes_zero by done.
  split; [intros [_ Hz]|intros <-; split; [done|]].
  - revert b Hl Hz. induction a as [|x a IH]; intros [|y b] Hl Hz; try done. cbn in Hz.
    apply Forall_cons in Hz as [Hx Hz]. apply xor_byte_zero in Hx as ->. f_equal. apply IH; [by injection Hl|done].
  - clear Hl. induction a as [|x a IH]; cbn; constructor; [|done]. by rewrite xor_byte_val, Z.lxor_nilpotent.
Qed.
