(* ===== verification/CircuitReplay.v ===== *)
(** * The replay window of a circuit

    crates/veil-anonymity/src/circuit_data.rs, [ReplayWindow]: the bitmap that decides which sequence
    numbers of a direction are new.  The bit of a number is at its value modulo the window; a number
    above the highest one clears the bits of the numbers in between.  The bitmap is shown to answer
    as the list of accepted numbers would. *)

From S2P Require Import Prelude.

Definition CIRCUIT_REPLAY_WINDOW_CELLS : Z := 8192.
Abbreviation WINDOW := CIRCUIT_REPLAY_WINDOW_CELLS (only parsing).

Record ReplayWindow := mkWindow {
  highest : Z;
  seen : list Z
}.

#[export] Instance eta_ReplayWindow : Settable ReplayWindow := fun w => mkWindow (highest w) (seen w).

#[global] Instance ReplayWindow_eq_dec : EqDecision ReplayWindow.
Proof. solve_decision. Defined.

Definition replay_new : ReplayWindow := mkWindow 0 (repeat 0 128).

(** The bits of one word, [count] of them from [offset] on. *)
Definition clear_mask (offset count : Z) : Z :=
  if count =? 64 then U64_MAX else wrap64 (Z.shiftl (wrap64 (Z.shiftl 1 count) - 1) offset).

(** The loop that clears [remaining] bits from [position] on; its fuel is the number of bits.
    [None] is an index outside the bitmap. *)
Fixpoint clear_loop (fuel : nat) (position remaining : Z) (seen : list Z) : option (list Z) :=
  if remaining =? 0 then Some seen
  else
    match fuel with
    | O => None
    | S fuel =>
        let offset := position mod 64 in
        let count := Z.min remaining (64 - offset) in
        let mask := clear_mask offset count in
        w ← seen !! Z.to_nat (position / 64);
        let seen := <[Z.to_nat (position / 64) := Z.land w (Z.lxor mask U64_MAX)]> seen in
        clear_loop fuel ((position + count) mod WINDOW) (remaining - count) seen
    end.

(** Mark a number of the window: whether it is new. *)
Definition replay_mark (w : ReplayWindow) (seq : Z) : option (bool * ReplayWindow) :=
  let position := seq mod WINDOW in
  let bit := Z.shiftl 1 (position mod 64) in
  x ← seen w !! Z.to_nat (position / 64);
  if negb (Z.land x bit =? 0) then Some (false, w)
  else Some (true, w <| seen := <[Z.to_nat (position / 64) := Z.lor x bit]> (seen w) |>).

Definition replay_accept (w : ReplayWindow) (seq : Z) : option (bool * ReplayWindow) :=
  if seq =? 0 then Some (false, w)
  else if highest w <? seq then
    let shift := seq - highest w in
    cleared ← (if WINDOW <=? shift then Some (repeat 0 128)
               else clear_loop (Z.to_nat shift) ((highest w + 1) mod WINDOW) shift (seen w));
    replay_mark (mkWindow seq cleared) seq
  else if WINDOW <=? highest w - seq then Some (false, w)
  else replay_mark w seq.

(** ** The specification

    The numbers accepted so far.  A number is new unless it is zero, already accepted, or a window
    or more below the highest accepted one. *)

Definition top (log : list Z) : Z := fold_right Z.max 0 log.

Definition log_accept (log : list Z) (seq : Z) : bool * list Z :=
  let new := negb (seq =? 0) && (top log <? seq + WINDOW) && negb (bool_decide (seq ∈ log)) in
  (new, if new then seq :: log else log).

(** ** Bits *)

Definition bit (words : list Z) (p : Z) : bool :=
  Z.testbit (default 0 (words !! Z.to_nat (p / 64))) (p mod 64).

Lemma testbit_pow2_sub1 c i : 0 <= c -> 0 <= i -> Z.testbit (Z.shiftl 1 c - 1) i = (i <? c).
Proof.
  intros Hc Hi. rewrite Z.shiftl_1_l, Z.sub_1_r, <- Z.ones_equiv.
  destruct (Z.ltb_spec i c); [apply Z.ones_spec_low|apply Z.ones_spec_high]; lia.
Qed.

Lemma testbit_U64_MAX i : 0 <= i < 64 -> Z.testbit U64_MAX i = true.
Proof. intros Hi. change U64_MAX with (Z.ones 64). apply Z.ones_spec_low. lia. Qed.

Lemma testbit_wrap64 x i : 0 <= i < 64 -> Z.testbit (wrap64 x) i = Z.testbit x i.
Proof. intros Hi. unfold wrap64. change M64 with (2 ^ 64). apply Z.mod_pow2_bits_low. lia. Qed.

Lemma clear_mask_spec offset count i :
  0 <= offset -> 1 <= count -> offset + count <= 64 -> 0 <= i < 64 ->
  Z.testbit (clear_mask offset count) i = (offset <=? i) && (i <? offset + count).
Proof.
  intros Ho Hc Hs Hi. unfold clear_mask. destruct (Z.eqb_spec count 64) as [->|Hn].
  - rewrite testbit_U64_MAX by done. destruct (Z.leb_spec offset i), (Z.ltb_spec i (offset + 64)); lia || done.
  - rewrite testbit_wrap64, Z.shiftl_spec by lia.
    assert (wrap64 (Z.shiftl 1 count) = Z.shiftl 1 count) as ->.
    { unfold wrap64. rewrite Z.shiftl_1_l. apply Z.mod_small. split; [lia|]. change M64 with (2 ^ 64).
      apply Z.pow_lt_mono_r; lia. }
    destruct (Z.leb_spec offset i); [|by rewrite Z.testbit_neg_r by lia].
    rewrite testbit_pow2_sub1 by lia. destruct (Z.ltb_spec (i - offset) count), (Z.ltb_spec i (offset + count)); lia || done.
Qed.

Lemma testbit_and_not x m i : 0 <= i < 64 -> Z.testbit (Z.land x (Z.lxor m U64_MAX)) i = Z.testbit x i && negb (Z.testbit m i).
Proof. intros Hi. rewrite Z.land_spec, Z.lxor_spec, testbit_U64_MAX, xorb_true_r by done. done. Qed.

Lemma land_bit_zero x i : 0 <= i -> (Z.land x (Z.shiftl 1 i) =? 0) = negb (Z.testbit x i).
Proof.
  intros Hi. rewrite Z.shiftl_1_l. apply eq_true_iff_eq. rewrite Z.eqb_eq, negb_true_iff. split; intros E.
  - apply (f_equal (fun y => Z.testbit y i)) in E. by rewrite Z.land_spec, Z.pow2_bits_true, andb_true_r, Z.bits_0 in E.
  - apply Z.bits_inj'. intros j Hj. rewrite Z.land_spec, Z.bits_0, Z.pow2_bits_eqb by done.
    destruct (Z.eqb_spec i j) as [<-|]; [by rewrite E|apply andb_false_r].
Qed.

(** Replacing a word changes the bits of that word only. *)
Lemma bit_insert words j x p :
  length words = 128%nat -> 0 <= j < 128 -> 0 <= p ->
  bit (<[Z.to_nat j := x]> words) p = if p / 64 =? j then Z.testbit x (p mod 64) else bit words p.
Proof.
  intros Hl Hj Hp. unfold bit. destruct (Z.eqb_spec (p / 64) j) as [->|Hne].
  - by rewrite list_lookup_insert_eq by lia.
  - rewrite list_lookup_insert_ne; [done|]. assert (0 <= p / 64) by (apply Z.div_pos; lia). lia.
Qed.

Lemma bit_lookup words p x : words !! Z.to_nat (p / 64) = Some x -> bit words p = Z.testbit x (p mod 64).
Proof. intros E. unfold bit. by rewrite E. Qed.

Lemma bit_zeros n p : bit (repeat 0 n) p = false.
Proof.
  unfold bit. destruct (repeat 0 n !! _) as [x|] eqn:E; [|apply Z.bits_0].
  apply list_elem_of_lookup_2, list_elem_of_In, repeat_spec in E as ->. apply Z.bits_0.
Qed.

(** A position is in the [n] positions from [a] on, around the bitmap. *)
Definition in_arc (a n p : Z) : bool := (p - a) mod 8192 <? n.

Lemma in_arc_none a p : in_arc a 0 p = false.
Proof. unfold in_arc. apply Z.ltb_ge. apply Z.mod_pos_bound. lia. Qed.

Lemma in_arc_split a n c p : 0 <= a < 8192 -> 0 <= p < 8192 -> 0 <= c <= n -> n <= 8192 -> a + c <= 8192 ->
  in_arc a n p = (a <=? p) && (p <? a + c) || in_arc ((a + c) mod 8192) (n - c) p.
Proof.
  intros Ha Hp Hc Hn Hs. unfold in_arc. apply eq_true_iff_eq.
  rewrite orb_true_iff, andb_true_iff, !Z.ltb_lt, Z.leb_le.
  rewrite Zminus_mod_idemp_r. destruct (decide (a <= p)).
  - rewrite (Z.mod_small (p - a)) by lia. destruct (decide (a + c <= p)).
    + rewrite Z.mod_small by lia. lia.
    + split; [lia|]. intros [?|Hm]; [lia|].
      replace (p - (a + c)) with (p - (a + c) + 8192 + (-1) * 8192) in Hm by lia.
      rewrite Z.mod_add, Z.mod_small in Hm by lia. lia.
  - replace (p - a) with (p - a + 8192 + (-1) * 8192) by lia. rewrite Z.mod_add, Z.mod_small by lia.
    destruct (decide (a + c = 8192 /\ p = 0)) as [[E ->]|].
    + rewrite E. change ((0 - 8192) mod 8192) with 0. lia.
    + replace (p - (a + c)) with (p - (a + c) + 8192 + (-1) * 8192) by lia. rewrite Z.mod_add by lia.
      destruct (decide (p - (a + c) + 8192 < 8192)); [rewrite Z.mod_small by lia; lia|lia].
Qed.

Lemma clear_loop_spec fuel a n words :
  length words = 128%nat -> 0 <= a < 8192 -> 0 <= n <= 8192 -> n <= Z.of_nat fuel ->
  exists words', clear_loop fuel a n words = Some words' /\ length words' = 128%nat /\
    forall p, 0 <= p < 8192 -> bit words' p = bit words p && negb (in_arc a n p).
Proof.
  revert a n words. induction fuel as [|fuel IH]; intros a n words Hl Ha Hn Hf; cbn [clear_loop].
  - assert (n = 0) as -> by lia. cbn. exists words. split_and!; [done|done|]. intros p Hp.
    by rewrite in_arc_none, andb_true_r.
  - destruct (Z.eqb_spec n 0) as [->|Hn0].
    { exists words. split_and!; [done|done|]. intros p Hp. by rewrite in_arc_none, andb_true_r. }
    set (o := a mod 64). set (c := Z.min n (64 - o)).
    assert (0 <= o < 64) as Ho by (apply Z.mod_pos_bound; lia).
    assert (a = 64 * (a / 64) + o) as Ea by apply Z.div_mod, Z.neq_sym, Z.lt_neq, eq_refl.
    assert (0 <= a / 64 < 128) as Hq by (split; [apply Z.div_pos; lia|apply Z.div_lt_upper_bound; lia]).
    destruct (lookup_lt_is_Some_2 words (Z.to_nat (a / 64))) as [w Ew]; [lia|]. rewrite Ew. cbn [mbind option_bind].
    destruct (IH ((a + c) mod WINDOW) (n - c) (<[Z.to_nat (a / 64) := Z.land w (Z.lxor (clear_mask o c) U64_MAX)]> words))
      as (words' & E & Hl' & Hb).
    + by rewrite length_insert.
    + apply Z.mod_pos_bound. unfold CIRCUIT_REPLAY_WINDOW_CELLS. lia.
    + lia.
    + lia.
    + exists words'. split_and!; [done|done|]. intros p Hp. rewrite Hb by done.
      rewrite bit_insert by (done || lia). rewrite (in_arc_split a n c p) by lia.
      unfold CIRCUIT_REPLAY_WINDOW_CELLS. destruct (Z.eqb_spec (p / 64) (a / 64)) as [Eq|Hne].
      * assert (p = 64 * (p / 64) + p mod 64) as Epm by apply Z.div_mod, Z.neq_sym, Z.lt_neq, eq_refl.
        pose proof (Z.mod_pos_bound p 64 ltac:(lia)). rewrite <- Eq in Ew.
        rewrite testbit_and_not, clear_mask_spec, (bit_lookup _ _ _ Ew) by lia.
        replace ((o <=? p mod 64) && (p mod 64 <? o + c)) with ((a <=? p) && (p <? a + c)).
        { by destruct (Z.testbit w (p mod 64)), ((a <=? p) && (p <? a + c)), (in_arc ((a + c) mod 8192) (n - c) p). }
        apply eq_true_iff_eq. rewrite !andb_true_iff, !Z.leb_le, !Z.ltb_lt. lia.
      * replace ((a <=? p) && (p <? a + c)) with false; [done|].
        symmetry. apply not_true_iff_false. rewrite andb_true_iff, Z.leb_le, Z.ltb_lt. intros [? ?]. apply Hne.
        symmetry. apply Z.div_unique with (p - 64 * (a / 64)); lia.
Qed.

(** ** The bitmap tracks the accepted numbers *)

Lemma top_ge log s : s ∈ log -> s <= top log.
Proof. induction 1 as [|? ? ? ? IH]; cbn [top fold_right]; [|fold (top l)]; lia. Qed.

Lemma top_nonneg log : 0 <= top log.
Proof. unfold top. induction log; cbn; lia. Qed.

Record tracks (w : ReplayWindow) (log : list Z) : Prop := {
  tr_len : length (seen w) = 128%nat;
  tr_top : highest w = top log;
  tr_pos : Forall (fun s => 0 < s) log;
  tr_bits : forall p, 0 <= p < 8192 ->
    bit (seen w) p = true <-> exists s, s ∈ log /\ s mod 8192 = p /\ top log - 8192 < s
}.

Lemma tracks_new : tracks replay_new [].
Proof.
  split; [done|done|constructor|]. intros p Hp. split; [|intros (s & Hs & _); by apply not_elem_of_nil in Hs].
  cbn [seen replay_new]. by rewrite bit_zeros.
Qed.

(** Numbers of the window with one position are one number. *)
Lemma window_unique t s s' : t - 8192 < s <= t -> t - 8192 < s' <= t -> s mod 8192 = s' mod 8192 -> s = s'.
Proof. intros. mlia. Qed.

Lemma replay_mark_spec w seq : length (seen w) = 128%nat -> 0 < seq ->
  exists w', replay_mark w seq = Some (negb (bit (seen w) (seq mod 8192)), w') /\
    highest w' = highest w /\ length (seen w') = 128%nat /\
    forall p, 0 <= p < 8192 -> bit (seen w') p = bit (seen w) p || (p =? seq mod 8192).
Proof.
  intros Hl Hs. unfold replay_mark, CIRCUIT_REPLAY_WINDOW_CELLS. set (q := seq mod 8192).
  assert (0 <= q < 8192) as Hq by (apply Z.mod_pos_bound; lia).
  assert (0 <= q / 64 < 128) as Hd by (split; [apply Z.div_pos; lia|apply Z.div_lt_upper_bound; lia]).
  destruct (lookup_lt_is_Some_2 (seen w) (Z.to_nat (q / 64))) as [x Ex]; [lia|]. rewrite Ex. cbn [mbind option_bind].
  pose proof (Z.mod_pos_bound q 64 ltac:(lia)) as Hm.
  rewrite land_bit_zero, negb_involutive, (bit_lookup _ _ _ Ex) by lia.
  destruct (Z.testbit x (q mod 64)) eqn:Eb.
  - exists w. split_and!; [done..|]. intros p Hp. destruct (Z.eqb_spec p q) as [->|]; [|by rewrite orb_false_r].
    by rewrite (bit_lookup _ _ _ Ex), Eb.
  - eexists. split_and!; [done|done|by cbn; rewrite length_insert|]. intros p Hp.
    cbn [seen set_field]. rewrite bit_insert by (done || lia).
    pose proof (Z.mod_pos_bound p 64 ltac:(lia)). rewrite Z.lor_spec, Z.shiftl_1_l, Z.pow2_bits_eqb by lia.
    pose proof (Z.div_mod p 64 ltac:(lia)). pose proof (Z.div_mod q 64 ltac:(lia)).
    destruct (Z.eqb_spec (p / 64) (q / 64)) as [E|E].
    + rewrite <- E in Ex. rewrite (bit_lookup _ _ _ Ex). f_equal. apply eq_true_iff_eq. rewrite !Z.eqb_eq. lia.
    + destruct (Z.eqb_spec p q) as [->|]; [done|by rewrite orb_false_r].
Qed.

(** Marking a number of the window answers whether it is in the log, and logs it. *)
Lemma replay_mark_tracks w log seq :
  tracks w log -> 0 < seq -> top log - 8192 < seq <= top log ->
  exists w', replay_mark w seq = Some (negb (bool_decide (seq ∈ log)), w') /\
    tracks w' (if bool_decide (seq ∈ log) then log else seq :: log).
Proof.
  intros [Hl Ht Hpos Hb] Hs Hw. destruct (replay_mark_spec w seq Hl Hs) as (w' & E & Eh & Hl' & Hb').
  assert (0 <= seq mod 8192 < 8192) as Hq by (apply Z.mod_pos_bound; lia).
  assert (bit (seen w) (seq mod 8192) = bool_decide (seq ∈ log)) as Ebit.
  { apply eq_true_iff_eq. rewrite Hb, bool_decide_eq_true by done.
    split; [|intros ?; exists seq; split_and!; [done|done|lia]].
    intros (s & Hin & Em & Hsw). apply top_ge in Hin as Hle.
    by rewrite (window_unique (top log) seq s). }
  rewrite Ebit in E. exists w'. split; [done|].
  assert (top (seq :: log) = top log) as Et by (cbn [top fold_right]; fold (top log); lia).
  case_bool_decide as Hin;
    (split; [done|congruence|by try constructor|]); intros p Hp;
    rewrite Hb', orb_true_iff, Hb, Z.eqb_eq by done.
  - split; [intros [?| ->]; [done|exists seq; split_and!; [done|done|lia]]|by left].
  - rewrite Et. setoid_rewrite elem_of_cons. split.
    + intros [(s & ? & ? & ?)| ->]; [exists s; tauto|exists seq; split_and!; [by left|done|lia]].
    + intros (s & [->|?] & ? & ?); [by right|left; by exists s].
Qed.

(** Raising the top forgets the numbers that leave the window. *)
Lemma replay_raise w log seq cleared : tracks w log -> top log < seq ->
  length cleared = 128%nat ->
  (forall p, 0 <= p < 8192 -> bit cleared p = bit (seen w) p &&
     negb (if WINDOW <=? seq - top log then true else in_arc ((top log + 1) mod WINDOW) (seq - top log) p)) ->
  forall p, 0 <= p < 8192 -> bit cleared p = true <-> exists s, s ∈ log /\ s mod 8192 = p /\ seq - 8192 < s.
Proof.
  intros [Hl Ht Hpos Hb] Hs Hlc Hc p Hp. rewrite Hc, andb_true_iff, negb_true_iff, Hb by done.
  unfold CIRCUIT_REPLAY_WINDOW_CELLS. split.
  - intros [(s & Hin & Em & Hw) Hn]. exists s. split_and!; [done..|]. apply top_ge in Hin.
    destruct (Z.leb_spec 8192 (seq - top log)); [done|]. unfold in_arc in Hn.
    rewrite Zminus_mod_idemp_r, <- Em, Zminus_mod_idemp_l in Hn. apply Z.ltb_ge in Hn.
    replace (s - (top log + 1)) with (s - (top log + 1) + 8192 + (-1) * 8192) in Hn by lia.
    rewrite Z.mod_add, Z.mod_small in Hn by lia. lia.
  - intros (s & Hin & Em & Hw). apply top_ge in Hin as Hle. split; [exists s; split_and!; [done..|lia]|].
    destruct (Z.leb_spec 8192 (seq - top log)); [lia|]. unfold in_arc.
    rewrite Zminus_mod_idemp_r, <- Em, Zminus_mod_idemp_l. apply Z.ltb_ge.
    replace (s - (top log + 1)) with (s - (top log + 1) + 8192 + (-1) * 8192) by lia.
    rewrite Z.mod_add, Z.mod_small by lia. lia.
Qed.

Lemma replay_clear_spec w log seq : tracks w log -> top log < seq ->
  exists cleared,
    (if WINDOW <=? seq - highest w then Some (repeat 0 128)
     else clear_loop (Z.to_nat (seq - highest w)) ((highest w + 1) mod WINDOW) (seq - highest w) (seen w)) = Some cleared /\
    length cleared = 128%nat /\
    forall p, 0 <= p < 8192 -> bit cleared p = true <-> exists s, s ∈ log /\ s mod 8192 = p /\ seq - 8192 < s.
Proof.
  intros Htr Hs. pose proof (tr_top _ _ Htr) as Ht. pose proof (tr_len _ _ Htr) as Hl. rewrite Ht.
  assert (exists cleared, (if WINDOW <=? seq - top log then Some (repeat 0 128)
     else clear_loop (Z.to_nat (seq - top log)) ((top log + 1) mod WINDOW) (seq - top log) (seen w)) = Some cleared /\
    length cleared = 128%nat /\ forall p, 0 <= p < 8192 -> bit cleared p = bit (seen w) p &&
     negb (if WINDOW <=? seq - top log then true else in_arc ((top log + 1) mod WINDOW) (seq - top log) p))
    as (cleared & E & Hc & Hb).
  { destruct (Z.leb_spec WINDOW (seq - top log)) as [Hw|Hw].
    - eexists. split_and!; [done|apply repeat_length|]. intros p _. by rewrite bit_zeros, andb_false_r.
    - apply clear_loop_spec; [done|apply Z.mod_pos_bound; done|unfold CIRCUIT_REPLAY_WINDOW_CELLS in Hw; lia|lia]. }
  exists cleared. split_and!; [done..|]. by eapply replay_raise.
Qed.

Lemma replay_accept_tracks w log seq : tracks w log -> 0 <= seq ->
  exists w', replay_accept w seq = Some ((log_accept log seq).1, w') /\ tracks w' (log_accept log seq).2.
Proof.
  intros Htr Hseq. unfold replay_accept, log_accept. pose proof (tr_top _ _ Htr) as Ht.
  destruct (Z.eqb_spec seq 0) as [->|Hnz]; [by exists w|]. cbn [negb andb].
  destruct (Z.ltb_spec (highest w) seq) as [Hgt|Hle].
  - destruct (replay_clear_spec w log seq Htr ltac:(lia)) as (cleared & -> & Hlc & Hbc). cbn [mbind option_bind].
    destruct (replay_mark_spec (mkWindow seq cleared) seq Hlc ltac:(lia)) as (w' & E & Eh & Hl' & Hb').
    cbn [seen highest] in *. assert (seq ∉ log) as Hout by (intros Hin%top_ge; lia).
    assert (0 <= seq mod 8192 < 8192) as Hq by (apply Z.mod_pos_bound; lia).
    assert (bit cleared (seq mod 8192) = false) as Eb.
    { apply not_true_iff_false. rewrite Hbc by done. intros (s & Hin & Em & Hw). apply top_ge in Hin as Hs.
      apply Hout. by rewrite <- (window_unique seq s seq) by (done || lia). }
    rewrite E, Eb, bool_decide_false by done. destruct (Z.ltb_spec (top log) (seq + WINDOW)) as [_|Hw].
    2:{ unfold CIRCUIT_REPLAY_WINDOW_CELLS in Hw. lia. }
    cbn [andb negb fst snd]. exists w'. split; [done|].
    assert (top (seq :: log) = seq) as Et by (cbn [top fold_right]; fold (top log); lia).
    split; [done|congruence|constructor; [lia|apply Htr]|]. intros p Hp.
    rewrite Hb', orb_true_iff, Hbc, Z.eqb_eq, Et by done. setoid_rewrite elem_of_cons. split.
    + intros [(s & ? & ? & ?)| ->]; [exists s; tauto|exists seq; split_and!; [by left|done|lia]].
    + intros (s & [->|?] & ? & ?); [by right|left; by exists s].
  - rewrite Ht in *. unfold CIRCUIT_REPLAY_WINDOW_CELLS.
    destruct (Z.leb_spec 8192 (top log - seq)), (Z.ltb_spec (top log) (seq + 8192)); try lia; cbn [andb fst snd].
    + by exists w.
    + destruct (replay_mark_tracks w log seq Htr) as (w' & E & Htr'); [lia..|]. exists w'. rewrite E.
      split; [done|]. by destruct (bool_decide (seq ∈ log)).
Qed.

(** The verdicts on a sequence of numbers. *)
Fixpoint replay_run (w : ReplayWindow) (seqs : list Z) : option (list bool) :=
  match seqs with
  | [] => Some []
  | seq :: seqs => '(new, w) ← replay_accept w seq; rest ← replay_run w seqs; Some (new :: rest)
  end.

Fixpoint log_run (log : list Z) (seqs : list Z) : list bool :=
  match seqs with
  | [] => []
  | seq :: seqs => (log_accept log seq).1 :: log_run (log_accept log seq).2 seqs
  end.

(** C24. The replay bitmap is exact.  On every sequence of numbers it answers as a list of all accepted
    numbers would: a number is refused if and only if it is zero, was accepted before, or is 8192 or
    more below the highest accepted.  So no number passes twice, however far the window moves, and
    no fresh number within the window is refused; and no index leaves the bitmap. *)
Theorem circuit_replay_exact (seqs : list Z) (Hseqs : Forall is_u32 seqs) :
  replay_run replay_new seqs = Some (log_run [] seqs).
Proof.
  pose proof tracks_new as Htr. revert Htr. generalize replay_new as w, (@nil Z) as log.
  induction Hseqs as [|seq seqs Hs _ IH]; intros w log Htr; cbn [replay_run log_run]; [done|].
  destruct (replay_accept_tracks w log seq Htr) as (w' & -> & Htr'); [apply Hs|].
  cbn [mbind option_bind]. by rewrite (IH w' _ Htr').
Qed.

Lemma circuit_replay_exact_witness :
  Forall is_u32 [5; 3; 5; 9000; 3; 809; 808; 9000] /\
  replay_run replay_new [5; 3; 5; 9000; 3; 809; 808; 9000] =
    Some [true; true; false; true; false; true; false; false].
Proof.
  assert (Forall is_u32 [5; 3; 5; 9000; 3; 809; 808; 9000]) as H by (repeat constructor; by unfold is_u32).
  split; [exact H|]. rewrite (circuit_replay_exact _ H). reflexivity.
Defined.
