(* ===== verification/CircuitSetup.v ===== *)
(** * Setting up a circuit

    crates/veil-anonymity/src: circuit_setup.rs, the onion that installs a circuit hop by hop, and
    circuit_origin.rs, the originator's side: drawing identifiers and keys, and the table of its
    circuits.  A circuit that several holders share (an [Arc]) is a reference into a store. *)

From S2P Require Import Prelude Crypto Onion CircuitData.

(** ** The setup onion: circuit_setup.rs *)

Definition CID_LEN : Z := 4.
Definition CELL_BYTES_LEN : Z := 2.
Definition SETUP_PREFIX_LEN : Z :=
  TTL_PREFIX_LEN + NEXT_HOP_ID_LEN + CID_LEN + CID_LEN + CIRCUIT_KEY_LEN + CELL_BYTES_LEN.

Record CircuitSetupHop := mkSetupHop {
  sh_node_id : list byte;
  sh_pubkey : Key;
  sh_circuit_id_in : CircuitId;
  sh_circuit_id_out : CircuitId;
  sh_circuit_key : Key
}.

Record CircuitInstall := mkInstall {
  in_circuit_id_in : CircuitId;
  in_circuit_id_out : CircuitId;
  in_circuit_key : Key;
  in_cell_bytes : CircuitCellBytes
}.

Inductive SetupPeelResult :=
| SetupForward (install : CircuitInstall) (next_hop inner : list byte)
| SetupTerminus (install : CircuitInstall) (payload : list byte).

Definition build_layer (next_hop_id : list byte) (hop : CircuitSetupHop) (cell : CircuitCellBytes)
    (inner : list byte) : list byte :=
  [byte_of MAX_CIRCUIT_TTL] ++ next_hop_id ++ be_bytes 4 (sh_circuit_id_in hop) ++
  be_bytes 4 (sh_circuit_id_out hop) ++ sh_circuit_key hop ++ be_bytes 2 (wrap16 cell) ++ inner.

Definition read_cid (buf : list byte) (at_ : Z) : CircuitId := from_be (range at_ (at_ + 4) buf).

Section setup.
Context `{X25519} `{Aead} `{Blake3} {R : Type} `{Rng R}.

Definition build_circuit_setup (hops : list CircuitSetupHop) (cell : CircuitCellBytes)
    (terminus_payload : list byte) (r : R) : option ((CircuitError + list byte) * R) :=
  match rev hops with
  | [] => Some (inl NoHops, r)
  | last :: rest =>
      if MAX_CIRCUIT_TTL <? outermost_ttl hops then
        Some (inl (CircuitTooLongForTtl (zlen hops) (outermost_ttl hops) MAX_CIRCUIT_TTL), r)
      else
        '(wrapped, r) ← wrap_for_hop (build_layer FINAL_HOP_SENTINEL last cell terminus_payload) (sh_pubkey last) r;
        '(wrapped, r) ←
          wrap_back (fun this next => build_layer (sh_node_id next) this cell) sh_pubkey rest last wrapped r;
        Some (inr wrapped, r)
  end.

Definition peel_circuit_setup (envelope : list byte) (my_sk : Key) : CircuitError + SetupPeelResult :=
  plaintext ← map_err COnion (unwrap_at_hop envelope my_sk);
  if zlen plaintext <? SETUP_PREFIX_LEN then inl (PlaintextTooShort (zlen plaintext) SETUP_PREFIX_LEN)
  else
    let ttl := byte_at plaintext 0 in
    if ttl =? 0 then inl TtlExhausted
    else if MAX_CIRCUIT_TTL <? ttl then inl (TtlExceedsCap ttl MAX_CIRCUIT_TTL)
    else
      let o := TTL_PREFIX_LEN in
      let next_hop := range o (o + NEXT_HOP_ID_LEN) plaintext in
      let o := o + NEXT_HOP_ID_LEN in
      let circuit_id_in := read_cid plaintext o in
      let o := o + CID_LEN in
      let circuit_id_out := read_cid plaintext o in
      let o := o + CID_LEN in
      let circuit_key := range o (o + CIRCUIT_KEY_LEN) plaintext in
      let o := o + CIRCUIT_KEY_LEN in
      cell_bytes ← cell_bytes_new (from_be (range o (o + 2) plaintext));
      let o := o + CELL_BYTES_LEN in
      let inner := zdrop o plaintext in
      let install := mkInstall circuit_id_in circuit_id_out circuit_key cell_bytes in
      if bool_decide (next_hop = FINAL_HOP_SENTINEL) then inr (SetupTerminus install inner)
      else inr (SetupForward install next_hop inner).

End setup.

(** ** The originator: circuit_origin.rs *)

Abbreviation Link := (list byte) (only parsing).

Record OriginCircuit := mkOrigin {
  circuit_keys : list Key;
  first_hop : Link;
  origin_circuit_id : CircuitId;
  created_unix : Z;
  last_sent_unix : Z;
  confirmed : bool;
  is_reply : bool;
  last_return_unix : Z;
  origin_cell_bytes : CircuitCellBytes
}.

#[export] Instance eta_OriginCircuit : Settable OriginCircuit := fun c =>
  mkOrigin (circuit_keys c) (first_hop c) (origin_circuit_id c) (created_unix c) (last_sent_unix c)
    (confirmed c) (is_reply c) (last_return_unix c) (origin_cell_bytes c).

Definition mark_confirmed (c : OriginCircuit) : OriginCircuit := c <| confirmed := true |>.
Definition mark_returned (c : OriginCircuit) (now_unix : Z) : OriginCircuit :=
  c <| last_return_unix := Z.max (last_return_unix c) now_unix |>.

Definition SERVED_LINGER_SECS : Z := 30.
Definition REPLY_CIRCUIT_SERVED_LINGER_SECS : Z := SERVED_LINGER_SECS.
Definition REPLY_CIRCUIT_UNSERVED_LIFETIME_SECS : Z := 120.

Definition reply_circuit_teardown_due (created last_return now_unix : Z) : bool :=
  if negb (last_return =? 0) then REPLY_CIRCUIT_SERVED_LINGER_SECS <=? sat_sub now_unix last_return
  else REPLY_CIRCUIT_UNSERVED_LIFETIME_SECS <=? sat_sub now_unix created.

Definition teardown_due (c : OriginCircuit) (now_unix : Z) : bool :=
  is_reply c && reply_circuit_teardown_due (created_unix c) (last_return_unix c) now_unix.

Definition open_return `{ChaCha20} (c : OriginCircuit) (seq : Z) (cell : list byte) : CircuitError + list byte :=
  buf ← apply_layers (circuit_keys c) Return seq cell;
  match read_payload buf with Some p => inr p | None => inl Malformed end.

Definition choose_cell_bytes : CircuitCellBytes :=
  match cell_bytes_new 2048 with inr c => c | inl _ => cell_legacy end.

Section origin.
Context `{X25519} `{Aead} `{Blake3} {R : Type} `{Rng R}.

(** [OsRng.next_u32()]: four bytes, little-endian. *)
Definition next_u32 (r : R) : Z * R := let '(b, r) := fill_bytes r 4 in (from_be (rev b), r).

(** The loop that draws an identifier and a key per hop. *)
Fixpoint draw_hops (n : nat) (r : R) : list (CircuitId * Key) * R :=
  match n with
  | O => ([], r)
  | S n =>
      let '(c, r) := next_u32 r in
      let c := if c =? 0 then 1 else c in
      let '(key, r) := fill_bytes r CIRCUIT_KEY_LEN in
      let '(rest, r) := draw_hops n r in
      ((c, key) :: rest, r)
  end.

(** [(0..n).map(|i| CircuitSetupHop { .. })]: the outgoing identifier of a hop is the incoming one
    of the next, and zero at the last. *)
Fixpoint setup_hops (hops : list Hop) (drawn : list (CircuitId * Key)) : list CircuitSetupHop :=
  match hops, drawn with
  | h :: hops, (cid, key) :: drawn =>
      mkSetupHop (hop_node_id h) (hop_pubkey h) cid
        (match drawn with (next, _) :: _ => next | [] => 0 end) key :: setup_hops hops drawn
  | _, _ => []
  end.

Definition build_origin_circuit (hops : list Hop) (cell : CircuitCellBytes) (terminus_payload : list byte)
    (now_unix : Z) (r : R) : option ((CircuitError + (list byte * OriginCircuit)) * R) :=
  match hops with
  | [] => Some (inl NoHops, r)
  | h :: _ =>
      let '(drawn, r) := draw_hops (length hops) r in
      '(setup, r) ← build_circuit_setup (setup_hops hops drawn) cell terminus_payload r;
      Some (setup ← setup;
            inr (setup, mkOrigin drawn.*2 (hop_node_id h) (match drawn with (cid, _) :: _ => cid | [] => 0 end)
                          now_unix 0 false false 0 cell), r)
  end.

End origin.

(** ** The originator's table

    Entries are references into the store of circuits, which the holders of a circuit share. *)

Definition Ref : Type := positive.

Record OriginCircuitTable := mkOriginTable {
  ot_inner : gmap (Link * CircuitId) Ref;
  ot_cap : nat;
  ot_ttl_secs : Z
}.

#[export] Instance eta_OriginTable : Settable OriginCircuitTable := fun t =>
  mkOriginTable (ot_inner t) (ot_cap t) (ot_ttl_secs t).

Definition origin_with_params (cap : nat) (ttl_secs : Z) : OriginCircuitTable :=
  mkOriginTable ∅ (Nat.max cap 1) ttl_secs.
Definition origin_table_new : OriginCircuitTable := origin_with_params 256 600.

Section origin_table.
Context (store : gmap Ref OriginCircuit).

(** [min_by_key] on the creation time: the first of the earliest. *)
Definition earlier (best : option ((Link * CircuitId) * Z)) (e : (Link * CircuitId) * Z) :
    option ((Link * CircuitId) * Z) :=
  match best with Some b => if e.2 <? b.2 then Some e else best | None => Some e end.

Definition reply_victim (entries : list ((Link * CircuitId) * Ref)) : option (Link * CircuitId) :=
  fst <$> fold_left (fun best e =>
    match store !! e.2 with
    | Some c => if is_reply c then earlier best (e.1, created_unix c) else best
    | None => best
    end) entries None.

Definition origin_insert (t : OriginCircuitTable) (circuit : Ref) : bool * OriginCircuitTable :=
  match store !! circuit with
  | None => (false, t)
  | Some c =>
      let key := (first_hop c, origin_circuit_id c) in
      let put t := (true, t <| ot_inner := <[key := circuit]> (ot_inner t) |>) in
      if is_none (ot_inner t !! key) && (ot_cap t <=? size (ot_inner t))%nat then
        match reply_victim (map_to_list (ot_inner t)) with
        | Some k => put (t <| ot_inner := delete k (ot_inner t) |>)
        | None => (false, t)
        end
      else put t
  end.

Definition origin_lookup (t : OriginCircuitTable) (link : Link) (circuit_id : CircuitId) : option Ref :=
  ot_inner t !! (link, circuit_id).

Definition origin_remove (t : OriginCircuitTable) (link : Link) (circuit_id : CircuitId) : OriginCircuitTable :=
  t <| ot_inner := delete (link, circuit_id) (ot_inner t) |>.

(** Whether the sweep keeps a circuit. *)
Definition origin_fresh (t : OriginCircuitTable) (now_unix : Z) (r : Ref) : bool :=
  match store !! r with
  | Some c =>
      let last_used := if is_reply c then created_unix c else Z.max (created_unix c) (last_sent_unix c) in
      sat_sub now_unix last_used <? ot_ttl_secs t
  | None => false
  end.

(** The sweep: entries left out are no longer confirmed, for any holder. *)
Definition origin_gc (t : OriginCircuitTable) (now_unix : Z) : nat * OriginCircuitTable * gmap Ref OriginCircuit :=
  let keep := filter (fun e => origin_fresh t now_unix e.2 = true) (ot_inner t) in
  let dropped := filter (fun e => origin_fresh t now_unix e.2 = false) (ot_inner t) in
  (size (ot_inner t) - size keep, t <| ot_inner := keep |>,
   fold_left (fun store e => alter (fun c => c <| confirmed := false |>) e.2 store) (map_to_list dropped) store)%nat.

End origin_table.

(** ** Peeling what was built *)

Definition install_of (hop : CircuitSetupHop) (cell : CircuitCellBytes) : CircuitInstall :=
  mkInstall (sh_circuit_id_in hop) (sh_circuit_id_out hop) (sh_circuit_key hop) cell.

Record setup_hop_ok (hop : CircuitSetupHop) : Prop := {
  sh_in_u32 : is_u32 (sh_circuit_id_in hop);
  sh_out_u32 : is_u32 (sh_circuit_id_out hop);
  sh_key_len : zlen (sh_circuit_key hop) = CIRCUIT_KEY_LEN;
  sh_id_len : zlen (sh_node_id hop) = NEXT_HOP_ID_LEN
}.

Lemma build_layer_len next hop cell inner : setup_hop_ok hop -> zlen next = NEXT_HOP_ID_LEN ->
  zlen (build_layer next hop cell inner) = SETUP_PREFIX_LEN + zlen inner.
Proof.
  intros Hok Hn. unfold build_layer. rewrite !zlen_app, !zlen_be_bytes, Hn, (sh_key_len _ Hok), zlen_cons, zlen_nil.
  unfold SETUP_PREFIX_LEN, TTL_PREFIX_LEN, NEXT_HOP_ID_LEN, CID_LEN, CIRCUIT_KEY_LEN, CELL_BYTES_LEN. lia.
Qed.

(** The field [x] after [pre] of the layer [L]. *)
Ltac layer_field L a b pre x post :=
  replace (range a b L) with x by
    (symmetry; replace L with (pre ++ x ++ post) by (unfold L, build_layer; by rewrite <- ?app_assoc);
     apply range_mid; rewrite ?zlen_app, ?zlen_be_bytes, ?zlen_cons, ?zlen_nil; lia).

Section laws.
Context `{X25519Laws} `{!X25519Honest} `{AeadLaws} `{!AeadTotal} `{Blake3} {R : Type} `{RngLaws R}.

Lemma peel_setup_layer env sk next hop cell inner :
  unwrap_at_hop env sk = inr (build_layer next hop cell inner) ->
  zlen next = NEXT_HOP_ID_LEN -> setup_hop_ok hop -> is_cell_size cell ->
  peel_circuit_setup env sk =
    inr (if bool_decide (next = FINAL_HOP_SENTINEL) then SetupTerminus (install_of hop cell) inner
         else SetupForward (install_of hop cell) next inner).
Proof.
  intros E Hn Hok Hc. unfold peel_circuit_setup. rewrite E. cbn [map_err mbind result_bind].
  pose proof (zlen_nonneg inner). rewrite build_layer_len by done.
  destruct (Z.ltb_spec (SETUP_PREFIX_LEN + zlen inner) SETUP_PREFIX_LEN); [lia|].
  destruct Hok as [Hi Ho Hk _]. destruct hop as [id pk cin cout key]; cbn in Hi, Ho, Hk.
  set (L := build_layer _ _ _ _). change (byte_at L 0) with 16.
  cbn [Z.eqb Z.ltb Z.compare MAX_CIRCUIT_TTL Pos.compare Pos.compare_cont].
  unfold read_cid, TTL_PREFIX_LEN, NEXT_HOP_ID_LEN, CID_LEN, CIRCUIT_KEY_LEN, CELL_BYTES_LEN in *.
  set (ttl := [byte_of MAX_CIRCUIT_TTL]).
  set (b1 := be_bytes 4 cin). set (b2 := be_bytes 4 cout). set (b3 := be_bytes 2 (wrap16 cell)).
  assert (zlen ttl = 1 /\ zlen b1 = 4 /\ zlen b2 = 4 /\ zlen b3 = 2) as (Ht & Hb1 & Hb2 & Hb3)
    by (split_and!; [done|apply zlen_be_bytes..]).
  layer_field L 1 (1 + 32) ttl next (b1 ++ b2 ++ key ++ b3 ++ inner).
  layer_field L (1 + 32) (1 + 32 + 4) (ttl ++ next) b1 (b2 ++ key ++ b3 ++ inner).
  layer_field L (1 + 32 + 4) (1 + 32 + 4 + 4) (ttl ++ next ++ b1) b2 (key ++ b3 ++ inner).
  layer_field L (1 + 32 + 4 + 4) (1 + 32 + 4 + 4 + 32) (ttl ++ next ++ b1 ++ b2) key (b3 ++ inner).
  layer_field L (1 + 32 + 4 + 4 + 32) (1 + 32 + 4 + 4 + 32 + 2) (ttl ++ next ++ b1 ++ b2 ++ key) b3 inner.
  replace (zdrop (1 + 32 + 4 + 4 + 32 + 2) L) with inner.
  2:{ replace L with ((ttl ++ next ++ b1 ++ b2 ++ key ++ b3) ++ inner) by (unfold L, build_layer; by rewrite <- ?app_assoc).
      symmetry. apply zdrop_app_len. rewrite !zlen_app. lia. }
  unfold b1, b2, b3. pose proof Hc as Hc'. unfold is_cell_size, MIN_CIRCUIT_CELL_BYTES, CIRCUIT_PAYLOAD_BYTES in Hc'.
  unfold wrap16. rewrite (Z.mod_small cell), !from_be_bytes_id by (unfold is_u32 in *; lia).
  destruct (cell_bytes_new_spec cell) as [[-> _]|[_ ?]]; [|done]. cbn [mbind result_bind]. by case_bool_decide.
Qed.

(** ** The path an originator builds *)

Definition drawn_ok (d : CircuitId * Key) : Prop := is_u32 d.1 /\ d.1 <> 0 /\ zlen d.2 = CIRCUIT_KEY_LEN.

Lemma draw_hops_spec n (r : R) :
  exists drawn r', draw_hops n r = (drawn, r') /\ length drawn = n /\ Forall drawn_ok drawn.
Proof.
  revert r. induction n as [|n IH]; intros r; cbn [draw_hops]; [by exists [], r|]. unfold next_u32.
  pose proof (fill_bytes_len r 4 ltac:(lia)) as Hb. destruct (fill_bytes r 4) as [b r1]; cbn [fst] in Hb.
  pose proof (fill_bytes_len r1 CIRCUIT_KEY_LEN ltac:(done)) as Hk.
  destruct (fill_bytes r1 CIRCUIT_KEY_LEN) as [key r2]; cbn [fst] in Hk.
  destruct (IH r2) as (drawn & r' & -> & Hl & Hd). eexists _, _. split; [done|]. split; [by cbn; rewrite Hl|].
  constructor; [|done]. unfold drawn_ok; cbn [fst snd].
  pose proof (from_be_range (rev b)) as Hr. unfold zlen in Hr, Hb. rewrite length_rev, Hb in Hr.
  destruct (Z.eqb_spec (from_be (rev b)) 0); (split; [|done]); done.
Qed.

Section path.
Context (keys : gmap (list byte) Key).

Definition setup_sk (h : CircuitSetupHop) : Key := default [] (keys !! sh_node_id h).

Definition setup_published (h : CircuitSetupHop) : Prop :=
  setup_hop_ok h /\ sh_node_id h <> FINAL_HOP_SENTINEL /\
  keys !! sh_node_id h = Some (setup_sk h) /\ sh_pubkey h = x25519_public (setup_sk h).

Lemma setup_hops_published hops drawn : Forall (published keys) hops -> Forall drawn_ok drawn ->
  Forall setup_published (setup_hops hops drawn).
Proof.
  intros Hh. revert drawn. induction Hh as [|h hops (Hid & Hne & sk & Ek & Ep) _ IH]; intros [|[cid key] drawn] Hd;
    cbn [setup_hops]; try constructor; apply Forall_cons in Hd as [(Hc & _ & Hk) Hd]; [|by apply IH].
  unfold setup_published, setup_sk; cbn. rewrite Ek. split_and!; [|done..].
  split; cbn; [done| |done|done]. destruct drawn as [|[next ?] ?]; [by unfold is_u32|].
  by apply Forall_cons in Hd as [[? _] _].
Qed.

Lemma length_setup_hops hops drawn : length drawn = length hops -> length (setup_hops hops drawn) = length hops.
Proof.
  revert drawn. induction hops as [|h hops IH]; intros [|[cid key] drawn] E; cbn in *; try done.
  by rewrite IH by lia.
Qed.

(** The envelope of a setup: what each hop of [hops] will find. *)
Abbreviation setup_nested cell payload :=
  (nested (fun this next => build_layer (sh_node_id next) this cell)
     (fun last => build_layer FINAL_HOP_SENTINEL last cell payload) setup_sk SETUP_PREFIX_LEN (zlen payload)).

Lemma build_setup_spec hops cell payload (r : R) :
  hops <> [] -> Forall setup_published hops -> zlen hops < MAX_CIRCUIT_TTL -> zlen payload <= 2 ^ 31 ->
  exists env r', build_circuit_setup hops cell payload r = Some (inr env, r') /\ setup_nested cell payload hops env.
Proof.
  intros Hne Hok Hn Hp. unfold build_circuit_setup. destruct (rev hops) as [|last rest] eqn:Er.
  { apply (f_equal (@rev _)) in Er. by rewrite rev_involutive in Er. }
  pose proof (zlen_nonneg hops). destruct (Z.ltb_spec MAX_CIRCUIT_TTL (outermost_ttl hops)) as [Ht|_].
  { unfold outermost_ttl, sat_add8, wrap8, MAX_CIRCUIT_TTL in *. rewrite Z.mod_small in Ht by lia. lia. }
  assert (setup_published last) as Hlast.
  { assert (Forall setup_published (last :: rest)) as Hr by (rewrite <- Er; by apply Forall_rev). by inversion Hr. }
  destruct (wrap_all_nested (fun this next => build_layer (sh_node_id next) this cell)
    (fun last => build_layer FINAL_HOP_SENTINEL last cell payload) sh_pubkey setup_sk SETUP_PREFIX_LEN (zlen payload)
    setup_published) with hops last rest r as (w & r1 & env & r' & -> & E2 & Hnest); [| |done|apply zlen_nonneg|done| |done|..].
  - intros h h' x (Hh & _) (Hh' & _). apply build_layer_len; [done|apply Hh'].
  - by intros h (_ & _ & _ & ?).
  - apply build_layer_len; [apply Hlast|done].
  - unfold MAX_CIRCUIT_TTL in Hn. unfold SETUP_PREFIX_LEN, TTL_PREFIX_LEN, NEXT_HOP_ID_LEN, CID_LEN, CIRCUIT_KEY_LEN,
      CELL_BYTES_LEN, ONION_LAYER_OVERHEAD, EPHEMERAL_PK_LEN, TAG_LEN. lia.
  - cbn [mbind option_bind]. rewrite E2. by exists env, r'.
Qed.

Lemma build_origin_spec h hops cell payload now (r : R) :
  Forall (published keys) (h :: hops) -> zlen (h :: hops) < MAX_CIRCUIT_TTL -> zlen payload <= 2 ^ 31 ->
  exists env cid key drawn r',
    build_origin_circuit (h :: hops) cell payload now r =
      Some (inr (env, mkOrigin (key :: drawn.*2) (hop_node_id h) cid now 0 false false 0 cell), r') /\
    (draw_hops (length (h :: hops)) r).1 = (cid, key) :: drawn /\
    length drawn = length hops /\ Forall drawn_ok ((cid, key) :: drawn) /\
    setup_nested cell payload (setup_hops (h :: hops) ((cid, key) :: drawn)) env.
Proof.
  intros Hh Hn Hp. unfold build_origin_circuit.
  destruct (draw_hops_spec (length (h :: hops)) r) as (drawn & r1 & -> & Hl & Hd).
  destruct drawn as [|[cid key] drawn]; [done|]. injection Hl as Hl.
  destruct (build_setup_spec (setup_hops (h :: hops) ((cid, key) :: drawn)) cell payload r1) as (env & r' & -> & Hnest).
  - done.
  - by apply setup_hops_published.
  - unfold zlen. rewrite length_setup_hops by (cbn; lia). done.
  - done.
  - cbn [mbind option_bind result_bind]. by exists env, cid, key, drawn, r'.
Qed.

End path.
End laws.
