(* ===== verification/CircuitTable.v ===== *)
(** * The circuit table of a relay

    crates/veil-anonymity/src/circuit_table.rs and circuit_flow.rs: the circuits a relay carries, by
    incoming link and identifier, by outgoing link and identifier, and per incoming link.  The states
    are shared (an [Arc] in both indexes, in the rendezvous registry and in the handlers), so the
    indexes hold references into a store of states. *)

From S2P Require Import Prelude Crypto Onion CircuitData CircuitReplay CircuitSetup.

Definition MAX_CIRCUITS : nat := Z.to_nat 10000.
Definition MAX_CIRCUITS_PER_LINK : nat := 64.
Definition DEFAULT_CIRCUIT_TTL_SECS : Z := 300.

(** ** Flows: circuit_flow.rs *)

(** [Weak<dyn DatagramCarrier>]: a reference. *)
Definition Carrier : Type := Ref.

Record CircuitFlow := mkFlow {
  flow_active : bool;
  flow_peer : option Link;
  flow_sequence : Z;
  flow_carrier : option Carrier
}.

#[export] Instance eta_CircuitFlow : Settable CircuitFlow := fun f =>
  mkFlow (flow_active f) (flow_peer f) (flow_sequence f) (flow_carrier f).

Definition flow_new (peer : option Link) : CircuitFlow := mkFlow true peer 0 None.
Definition flow_retire (f : CircuitFlow) : CircuitFlow := f <| flow_active := false |>.
Definition flow_observe (f : CircuitFlow) (sequence : Z) (carrier : option Carrier) : CircuitFlow :=
  if flow_active f && (flow_sequence f <? sequence)
  then f <| flow_sequence := sequence |> <| flow_carrier := carrier |> else f.

(** ** States *)

Record CircuitState := mkState {
  forward_carrier : CircuitFlow;
  backward_carrier : CircuitFlow;
  circuit_key : Key;
  prev_link : Link;
  circuit_id_in : CircuitId;
  next_link : option Link;
  circuit_id_out : CircuitId;
  cell_bytes : CircuitCellBytes;
  last_seen_unix : Z;
  replay_fwd : ReplayWindow;
  replay_ret : ReplayWindow;
  next_return_seq : Z;
  registered_cookie : option (list byte);
  last_served_unix : Z
}.

#[export] Instance eta_CircuitState : Settable CircuitState := fun s =>
  mkState (forward_carrier s) (backward_carrier s) (circuit_key s) (prev_link s) (circuit_id_in s) (next_link s)
    (circuit_id_out s) (cell_bytes s) (last_seen_unix s) (replay_fwd s) (replay_ret s) (next_return_seq s)
    (registered_cookie s) (last_served_unix s).

Definition from_install (install : CircuitInstall) (prev : Link) (next : option Link) (now : Z) : CircuitState :=
  mkState (flow_new (Some prev)) (flow_new next) (in_circuit_key install) prev (in_circuit_id_in install) next
    (in_circuit_id_out install) (in_cell_bytes install) now replay_new replay_new 1 None 0.

Definition retire (s : CircuitState) : CircuitState :=
  s <| forward_carrier := flow_retire (forward_carrier s) |>
    <| backward_carrier := flow_retire (backward_carrier s) |>.

Definition observe_carrier (s : CircuitState) (forward : bool) (sequence : Z) (carrier : option Carrier) : CircuitState :=
  if forward then s <| forward_carrier := flow_observe (forward_carrier s) sequence carrier |>
  else s <| backward_carrier := flow_observe (backward_carrier s) sequence carrier |>.

Definition touch (s : CircuitState) (now : Z) : CircuitState := s <| last_seen_unix := now |>.
Definition set_registered_cookie (s : CircuitState) (cookie : list byte) : CircuitState :=
  s <| registered_cookie := Some cookie |>.
Definition mark_served (s : CircuitState) (now : Z) : CircuitState :=
  s <| last_served_unix := Z.max (last_served_unix s) now |>.

(** The compare-and-swap loop, without interference. *)
Definition alloc_return_seq (s : CircuitState) : option Z * CircuitState :=
  if next_return_seq s =? U32_MAX then (None, s)
  else (Some (next_return_seq s), s <| next_return_seq := next_return_seq s + 1 |>).

(** ** The table *)

Inductive InstallError := TableFull | PerLinkFull | Duplicate.

Record CircuitTable := mkTable {
  states : gmap Ref CircuitState;
  fwd : gmap (Link * CircuitId) Ref;
  bwd : gmap (Link * CircuitId) Ref;
  per_link : gmap Link (list CircuitId);
  max_total : nat;
  max_per_link : nat;
  ttl_secs : Z
}.

#[export] Instance eta_CircuitTable : Settable CircuitTable := fun t =>
  mkTable (states t) (fwd t) (bwd t) (per_link t) (max_total t) (max_per_link t) (ttl_secs t).

Definition table_with_params (max_total max_per_link : nat) (ttl_secs : Z) : CircuitTable :=
  mkTable ∅ ∅ ∅ ∅ (Nat.max max_total 1) (Nat.max max_per_link 1) ttl_secs.
Definition circuit_table_new : CircuitTable :=
  table_with_params MAX_CIRCUITS MAX_CIRCUITS_PER_LINK DEFAULT_CIRCUIT_TTL_SECS.

(** [Arc] and its interior: change the state behind a reference. *)
Definition with_state (t : CircuitTable) (r : Ref) (f : CircuitState -> CircuitState) : CircuitTable :=
  t <| states := alter f r (states t) |>.

Definition bucket_len (t : CircuitTable) (link : Link) : nat := length (default [] (per_link t !! link)).

(** [Vec::swap_remove]. *)
Definition swap_remove {A} (pos : nat) (l : list A) : list A :=
  match last l with Some x => removelast (<[pos := x]> l) | None => l end.

(** Take [cid] out of the bucket of [link], and the bucket out of the map when it is empty. *)
Definition unbucket {K} `{EqDecision K} (buckets : gmap Link (list K)) (link : Link) (cid : K) :
    gmap Link (list K) :=
  match buckets !! link with
  | None => buckets
  | Some ids =>
      let ids := match list_find (eq cid) ids with Some (pos, _) => swap_remove pos ids | None => ids end in
      if is_nil ids then delete link buckets else <[link := ids]> buckets
  end.

Definition bucket_push {K} (buckets : gmap Link (list K)) (link : Link) (cid : K) : gmap Link (list K) :=
  <[link := default [] (buckets !! link) ++ [cid]]> buckets.

Definition detach (t : CircuitTable) (prev : Link) (cid_in : CircuitId) : CircuitTable :=
  match fwd t !! (prev, cid_in) with
  | None => t
  | Some r =>
      let t := t <| fwd := delete (prev, cid_in) (fwd t) |> in
      let t := with_state t r retire in
      let t :=
        match s ← states t !! r; nl ← next_link s; Some (nl, circuit_id_out s) with
        | Some key => t <| bwd := delete key (bwd t) |>
        | None => t
        end in
      t <| per_link := unbucket (per_link t) prev cid_in |>
  end.

Definition detach_all (t : CircuitTable) (keys : list (Link * CircuitId)) : CircuitTable :=
  fold_left (fun t k => detach t k.1 k.2) keys t.

Definition idle (t : CircuitTable) (now : Z) (s : CircuitState) : bool :=
  ttl_secs t <=? sat_sub now (last_seen_unix s).
Definition served (now : Z) (s : CircuitState) : bool :=
  negb (last_served_unix s =? 0) && (SERVED_LINGER_SECS <=? sat_sub now (last_served_unix s)).

(** The entries of [keys] whose state satisfies [p]. *)
Definition select (t : CircuitTable) (p : CircuitState -> bool) (keys : list (Link * CircuitId)) :
    list (Link * CircuitId) :=
  List.filter (fun k => is_some_and (r ← fwd t !! k; states t !! r) p) keys.

Definition reclaim_bucket (t : CircuitTable) (prev : Link) (now : Z) : CircuitTable :=
  match per_link t !! prev with
  | None => t
  | Some ids =>
      let t := detach_all t (select t (idle t now) (pair prev <$> ids)) in
      if (bucket_len t prev <? max_per_link t)%nat then t
      else
        match per_link t !! prev with
        | None => t
        | Some ids => detach_all t (select t (served now) (pair prev <$> ids))
        end
  end.

(** [HashMap::iter] in the order of the model's map. *)
Definition entries (t : CircuitTable) : list (Link * CircuitId) := (map_to_list (fwd t)).*1.

Definition reclaim_table (t : CircuitTable) (now : Z) : CircuitTable :=
  let t := detach_all t (select t (idle t now) (entries t)) in
  if (size (fwd t) <? max_total t)%nat then t
  else detach_all t (select t (served now) (entries t)).

Definition insert_state (t : CircuitTable) (s : CircuitState) : Ref * CircuitTable :=
  let r := fresh (dom (states t)) in
  let t := t <| states := <[r := s]> (states t) |> in
  let t := t <| fwd := <[(prev_link s, circuit_id_in s) := r]> (fwd t) |> in
  let t :=
    match next_link s with
    | Some nl => t <| bwd := <[(nl, circuit_id_out s) := r]> (bwd t) |>
    | None => t
    end in
  (r, t <| per_link := bucket_push (per_link t) (prev_link s) (circuit_id_in s) |>).

(** The reclaimed circuits are gone also when the installation is then refused. *)
Definition table_install (t : CircuitTable) (install : CircuitInstall) (prev : Link) (next : option Link) (now : Z) :
    (InstallError + Ref) * CircuitTable :=
  let fwd_key := (prev, in_circuit_id_in install) in
  if is_some (fwd t !! fwd_key) then (inl Duplicate, t)
  else
    let t := if (max_total t <=? size (fwd t))%nat then reclaim_table t now else t in
    if (max_total t <=? size (fwd t))%nat then (inl TableFull, t)
    else
      let t := if (max_per_link t <=? bucket_len t prev)%nat then reclaim_bucket t prev now else t in
      if (max_per_link t <=? bucket_len t prev)%nat then (inl PerLinkFull, t)
      else if is_some_and next (fun nl => is_some (bwd t !! (nl, in_circuit_id_out install))) then (inl Duplicate, t)
      else
        let '(r, t) := insert_state t (from_install install prev next now) in
        (inr r, t).

Definition lookup_forward (t : CircuitTable) (prev : Link) (cid_in : CircuitId) : option Ref := fwd t !! (prev, cid_in).
Definition lookup_backward (t : CircuitTable) (next : Link) (cid_out : CircuitId) : option Ref := bwd t !! (next, cid_out).
Definition table_remove (t : CircuitTable) (prev : Link) (cid_in : CircuitId) : CircuitTable := detach t prev cid_in.

Definition table_gc (t : CircuitTable) (now : Z) : nat * CircuitTable :=
  let stale := select t (idle t now) (entries t) in
  (length stale, detach_all t stale).

Definition link_occupancy (t : CircuitTable) (prev : Link) : nat := bucket_len t prev.

(** ** Buckets

    A map of buckets indexes a relation when the bucket of a link lists, without repetition, what is
    related to it, and no bucket is empty. *)

Lemma swap_remove_perm {A} (l : list A) pos x : l !! pos = Some x -> l ≡ₚ x :: swap_remove pos l.
Proof.
  intros E. unfold swap_remove. destruct l as [|y t] eqn:El; [done|]. rewrite <- El in *.
  destruct (exists_last (l := l)) as (l' & z & ->); [by rewrite El|]. clear El. rewrite last_snoc. destruct (decide (pos = length l')) as [->|Hne].
  - rewrite lookup_app_r, Nat.sub_diag in E by done. injection E as <-.
    rewrite insert_app_r_alt, Nat.sub_diag by done. cbn [insert list_insert]. rewrite removelast_last. apply Permutation_app_comm.
  - apply lookup_lt_Some in E as Hlt. rewrite length_app in Hlt. cbn in Hlt.
    rewrite lookup_app_l in E by lia. rewrite insert_app_l, removelast_last by lia.
    rewrite (Permutation_app_comm l'). cbn. rewrite <- (take_drop_middle l' pos x E) at 1.
    rewrite insert_take_drop by lia.
    rewrite (Permutation_app_comm (take pos l') (z :: _)). cbn. rewrite (Permutation_app_comm (take pos l') (x :: _)). cbn.
    apply perm_swap.
Qed.

Section buckets.
Context {K : Type} `{EqDecision K}.
Implicit Types (b : gmap Link (list K)) (l : Link) (c : K).

Definition bucket b l : list K := default [] (b !! l).

Record indexes b (P : Link -> K -> Prop) : Prop := {
  ix_elem : forall l c, c ∈ bucket b l <-> P l c;
  ix_nodup : forall l, NoDup (bucket b l);
  ix_nonempty : forall l, b !! l <> Some []
}.

Lemma indexes_iff b P Q : (forall l c, P l c <-> Q l c) -> indexes b P -> indexes b Q.
Proof. intros H [He Hn Hne]. split; [|done..]. intros l c. by rewrite He. Qed.

Lemma bucket_insert b l ids l' : bucket (<[l := ids]> b) l' = if decide (l' = l) then ids else bucket b l'.
Proof.
  unfold bucket. destruct (decide (l' = l)) as [->|]; [by rewrite lookup_insert_eq|by rewrite lookup_insert_ne].
Qed.

Lemma bucket_delete b l l' : bucket (delete l b) l' = if decide (l' = l) then [] else bucket b l'.
Proof.
  unfold bucket. destruct (decide (l' = l)) as [->|]; [by rewrite lookup_delete_eq|by rewrite lookup_delete_ne].
Qed.

(** What leaves a bucket is at most the entry named. *)
Lemma bucket_unbucket b l c : NoDup (bucket b l) ->
  (forall l', l' <> l -> bucket (unbucket b l c) l' = bucket b l') /\
  (bucket b l ≡ₚ c :: bucket (unbucket b l c) l \/ (c ∉ bucket b l) /\ bucket (unbucket b l c) l = bucket b l).
Proof.
  intros Hn. unfold unbucket. destruct (b !! l) as [ids|] eqn:E.
  2:{ split; [done|right]. unfold bucket. rewrite E. split; [apply not_elem_of_nil|done]. }
  assert (bucket b l = ids) as Eb by (unfold bucket; by rewrite E).
  set (ids' := match list_find (eq c) ids with Some (pos, _) => _ | None => _ end).
  assert (forall l', bucket (if is_nil ids' then delete l b else <[l := ids']> b) l' =
                     if decide (l' = l) then ids' else bucket b l') as Hb.
  { intros l'. destruct ids' eqn:Ei; cbn [is_nil]; [apply bucket_delete|apply bucket_insert]. }
  split; [intros l' Hl; rewrite Hb; by rewrite decide_False|]. rewrite Hb, decide_True, Eb by done. unfold ids'.
  destruct (list_find (eq c) ids) as [[pos x]|] eqn:Ef.
  - apply list_find_Some in Ef as (Hl & <- & _). left. by apply swap_remove_perm.
  - right. split; [|done]. apply list_find_None in Ef. intros Hin. by eapply Forall_forall in Ef.
Qed.

Lemma unbucket_indexes b P l c : indexes b P ->
  indexes (unbucket b l c) (fun l' c' => P l' c' /\ (l', c') <> (l, c)).
Proof.
  intros [He Hn Hne]. destruct (bucket_unbucket b l c (Hn l)) as [Ho Hl]. split.
  - intros l' c'. destruct (decide (l' = l)) as [->|Hl'].
    + rewrite <- He. destruct Hl as [Hp|[Hout ->]].
      * specialize (Hn l). rewrite Hp in Hn |- *. apply NoDup_cons in Hn as [Hc _]. rewrite elem_of_cons.
        split; [intros Hin; split; [by right|congruence]|]. intros [[->|?] ?]; [congruence|done].
      * split; [intros Hin; split; [done|congruence]|tauto].
    + rewrite Ho, He by done. split; [intros; split; [done|congruence]|tauto].
  - intros l'. destruct (decide (l' = l)) as [->|Hl']; [|by rewrite Ho].
    destruct Hl as [Hp|[_ ->]]; [|done]. specialize (Hn l). rewrite Hp in Hn. by apply NoDup_cons in Hn as [_ ?].
  - intros l' E'. unfold unbucket in E'. destruct (b !! l) as [ids|] eqn:E; [|by apply (Hne l')].
    set (ids' := match list_find (eq c) ids with Some (pos, _) => _ | None => _ end) in E'.
    destruct ids' as [|y t] eqn:Ei; cbn [is_nil] in E'.
    + apply lookup_delete_Some in E' as [_ E']. by apply (Hne l').
    + apply lookup_insert_Some in E' as [[_ ?]|[_ E']]; [done|by apply (Hne l')].
Qed.

Lemma unbucket_length b l c l' : NoDup (bucket b l) ->
  (length (bucket (unbucket b l c) l') <= length (bucket b l'))%nat.
Proof.
  intros Hn. destruct (bucket_unbucket b l c Hn) as [Ho Hl]. destruct (decide (l' = l)) as [->|?]; [|by rewrite Ho].
  destruct Hl as [Hp|[_ ->]]; [|done]. rewrite Hp. cbn. lia.
Qed.

Lemma bucket_push_indexes b P l c : indexes b P -> ~ P l c ->
  indexes (bucket_push b l c) (fun l' c' => P l' c' \/ (l', c') = (l, c)).
Proof.
  intros [He Hn Hne] Hc. unfold bucket_push. fold (bucket b l). split.
  - intros l' c'. rewrite bucket_insert, <- He. case_decide as El; [subst l'|].
    + rewrite elem_of_app, list_elem_of_singleton. naive_solver.
    + split; [by left|]. intros [?|?]; [done|congruence].
  - intros l'. rewrite bucket_insert. case_decide; [|done]. apply NoDup_app. split_and!; [done| |apply NoDup_singleton].
    intros x Hx ->%list_elem_of_singleton. by apply Hc, He.
  - intros l' E. apply lookup_insert_Some in E as [[_ E]|[_ E]]; [by apply app_nil in E as [_ ?]|by apply (Hne l')].
Qed.

Lemma bucket_push_length b l c l' :
  length (bucket (bucket_push b l c) l') = if decide (l' = l) then S (length (bucket b l)) else length (bucket b l').
Proof. unfold bucket_push. rewrite bucket_insert. case_decide; [|done]. rewrite length_app. cbn. unfold bucket. lia. Qed.

Lemma indexes_empty : indexes ∅ (fun _ _ => False).
Proof.
  split; unfold bucket; intros l; rewrite lookup_empty; cbn; [|constructor|done].
  intros c. split; [apply not_elem_of_nil|done].
Qed.

End buckets.
