(* ===== verification/CircuitTableInv.v ===== *)
(** * The circuit table is consistent

    The invariant of the table of [CircuitTable]: both indexes and the buckets describe the same set
    of circuits, within the limits.  Every operation keeps it, and drops only circuits that may be
    reclaimed. *)

From S2P Require Import Prelude Crypto Onion CircuitData CircuitReplay CircuitSetup CircuitTable.

(** The circuit behind a key. *)
Definition circuit_at (t : CircuitTable) (k : Link * CircuitId) (r : Ref) (s : CircuitState) : Prop :=
  fwd t !! k = Some r /\ states t !! r = Some s.

Record table_ok (t : CircuitTable) : Prop := {
  ok_fwd : forall k r, fwd t !! k = Some r ->
    exists s, states t !! r = Some s /\ (prev_link s, circuit_id_in s) = k;
  ok_bwd : forall n c r, bwd t !! (n, c) = Some r <->
    exists s, circuit_at t (prev_link s, circuit_id_in s) r s /\ next_link s = Some n /\ circuit_id_out s = c;
  ok_bucket : indexes (per_link t) (fun l c => is_Some (fwd t !! (l, c)));
  ok_total : (size (fwd t) <= max_total t)%nat;
  ok_link : forall l, (bucket_len t l <= max_per_link t)%nat;
  ok_caps : (1 <= max_total t)%nat /\ (1 <= max_per_link t)%nat
}.

Lemma table_with_params_ok mt ml ttl : table_ok (table_with_params mt ml ttl).
Proof.
  split; cbn.
  - done.
  - intros n c r. rewrite lookup_empty. split; [done|]. by intros (s & (E & _) & _).
  - eapply indexes_iff; [|apply indexes_empty]. intros l c. cbn. rewrite lookup_empty. split; [done|by intros [? ?]].
  - rewrite map_size_empty. lia.
  - intros l. unfold bucket_len. cbn. rewrite lookup_empty. cbn. lia.
  - lia.
Qed.

(** Two keys of one state are one key. *)
Lemma fwd_inj t k k' r : table_ok t -> fwd t !! k = Some r -> fwd t !! k' = Some r -> k = k'.
Proof.
  intros Ht E E'. destruct (ok_fwd t Ht k r E) as (s & Es & <-). destruct (ok_fwd t Ht k' r E') as (s' & Es' & <-).
  congruence.
Qed.

(** Changing a state in what does not identify the circuit keeps the table. *)
Definition same_circuit (s s' : CircuitState) : Prop :=
  prev_link s' = prev_link s /\ circuit_id_in s' = circuit_id_in s /\
  next_link s' = next_link s /\ circuit_id_out s' = circuit_id_out s.

Lemma with_state_ok t r f : (forall s, states t !! r = Some s -> same_circuit s (f s)) -> table_ok t ->
  table_ok (with_state t r f).
Proof.
  intros Hf [H1 H2 H3 H4 H5 H6]. unfold with_state.
  assert (forall r' s, states t !! r' = Some s -> exists s', alter f r (states t) !! r' = Some s' /\ same_circuit s s') as Ha.
  { intros r' s E. destruct (decide (r = r')) as [->|Hne].
    - exists (f s). rewrite lookup_alter_eq, E. split; [done|by apply Hf].
    - exists s. by rewrite lookup_alter_ne. }
  split; cbn; [| |done..].
  - intros k r' E. destruct (H1 k r' E) as (s & Es & <-). destruct (Ha r' s Es) as (s' & Es' & (Ep & Ei & _)).
    exists s'. by rewrite Ep, Ei.
  - intros n c r'. rewrite H2. split; intros (s & (E & Es) & En & Ec).
    + destruct (Ha r' s Es) as (s' & Es' & (Ep & Ei & E1 & E2)). exists s'. unfold circuit_at; cbn.
      by rewrite Ep, Ei, E1, E2.
    + cbn in E, Es. apply lookup_alter_Some in Es as [(<- & s0 & Es & ->)|[_ Es]].
      * destruct (Hf s0 Es) as (Ep & Ei & E1 & E2). rewrite Ep, Ei in E. exists s0. unfold circuit_at. by rewrite <- E1, <- E2.
      * by exists s.
Qed.

(** ** Detaching *)

Lemma detach_absent t p c : fwd t !! (p, c) = None -> detach t p c = t.
Proof. intros E. unfold detach. by rewrite E. Qed.

Lemma detach_present t p c r s : circuit_at t (p, c) r s ->
  detach t p c =
    mkTable (alter retire r (states t)) (delete (p, c) (fwd t))
      (match next_link s with Some nl => delete (nl, circuit_id_out s) (bwd t) | None => bwd t end)
      (unbucket (per_link t) p c) (max_total t) (max_per_link t) (ttl_secs t).
Proof.
  intros [E Es]. unfold detach, with_state. rewrite E. cbn. rewrite lookup_alter_eq, Es. cbn.
  by destruct (next_link s).
Qed.

(** What detaching the circuit at a key does. *)
Record detached (t t' : CircuitTable) (gone : Link * CircuitId -> Prop) : Prop := {
  dt_dec : forall k, gone k \/ ~ gone k;
  dt_ok : table_ok t';
  dt_gone : forall k, gone k -> fwd t' !! k = None;
  dt_kept : forall k, ~ gone k -> fwd t' !! k = fwd t !! k;
  dt_states : forall r s, states t !! r = Some s -> (forall k, gone k -> fwd t !! k <> Some r) -> states t' !! r = Some s;
  dt_dom : dom (states t') = dom (states t);
  dt_params : max_total t' = max_total t /\ max_per_link t' = max_per_link t /\ ttl_secs t' = ttl_secs t
}.

Lemma detach_ok t p c : table_ok t -> table_ok (detach t p c).
Proof.
  intros Ht. destruct (fwd t !! (p, c)) as [r|] eqn:E; [|by rewrite detach_absent].
  destruct (ok_fwd t Ht _ _ E) as (s & Es & [= Ep Ec]). pose proof (conj E Es : circuit_at t (p, c) r s) as Hat.
  rewrite (detach_present _ _ _ _ _ Hat).
  assert (table_ok (with_state t r retire)) as [H1 H2 H3 H4 H5 H6] by (by apply with_state_ok). cbn in *.
  split; cbn.
  - intros k r' [Hk E']%lookup_delete_Some. by apply H1.
  - intros n c' r'. unfold circuit_at; cbn. transitivity (bwd t !! (n, c') = Some r' /\ r' <> r).
    + destruct (next_link s) as [nl|] eqn:En.
      * rewrite lookup_delete_Some. split; [intros [Hne Eb]; split; [done|]|intros [Eb Hne]; split; [|done]].
        -- intros ->. apply Hne. apply (ok_bwd t Ht) in Eb as (s' & (_ & Es') & ? & ?). congruence.
        -- intros [= <- <-]. apply Hne.
           assert (bwd t !! (nl, circuit_id_out s) = Some r) as Eb'; [|congruence].
           apply (ok_bwd t Ht). exists s. by rewrite Ep, Ec.
      * split; [intros Eb; split; [done|]|tauto]. intros ->.
        apply (ok_bwd t Ht) in Eb as (s' & (_ & Es') & ? & ?). congruence.
    + rewrite H2. unfold circuit_at; cbn. split.
      * intros [(s' & (E' & Es') & Hn) Hne]. exists s'. split; [|done]. split; [|done].
        rewrite lookup_delete_ne; [done|]. intros Ek. rewrite <- Ek in E'. congruence.
      * intros (s' & ([Hk E']%lookup_delete_Some & Es') & Hn). split; [by exists s'|]. intros ->.
        apply Hk. by eapply (fwd_inj t).
  - eapply indexes_iff; [|by apply unbucket_indexes]. intros l c'. cbn. unfold is_Some. setoid_rewrite lookup_delete_Some.
    split; [intros [[x ?] ?]; exists x; naive_solver|intros [x [? ?]]; naive_solver].
  - etrans; [|exact H4]. apply map_size_delete_le || (rewrite map_size_delete; destruct (fwd t !! (p, c)); unfold id; lia).
  - intros l. etrans; [|apply H5]. unfold bucket_len; cbn. apply (unbucket_length (per_link t) p c l), H3.
  - done.
Qed.

Lemma detached_refl t : table_ok t -> detached t t (fun _ => False).
Proof. split; [tauto|done..]. Qed.

Lemma detach_detached t p c : table_ok t -> detached t (detach t p c) (eq (p, c)).
Proof.
  intros Ht. destruct (fwd t !! (p, c)) as [r|] eqn:E.
  2:{ rewrite detach_absent by done. split; [intros k; destruct (decide ((p, c) = k)); tauto|done|by intros k <-|done..]. }
  destruct (ok_fwd t Ht _ _ E) as (s & Es & _).
  split; [intros k; destruct (decide ((p, c) = k)); tauto|by apply detach_ok|..];
    rewrite (detach_present _ _ _ _ _ (conj E Es : circuit_at t (p, c) r s)); cbn.
  - intros k <-. apply lookup_delete_eq.
  - intros k Hk. by rewrite lookup_delete_ne.
  - intros r' s' Es' Hk. rewrite lookup_alter_ne; [done|]. intros ->. by apply (Hk (p, c)).
  - by rewrite dom_alter_L.
  - done.
Qed.

Lemma detached_trans t t1 t2 g1 g2 : detached t t1 g1 -> detached t1 t2 g2 -> detached t t2 (fun k => g1 k \/ g2 k).
Proof.
  intros [C1 O1 G1 K1 S1 D1 P1] [C2 O2 G2 K2 S2 D2 P2].
  assert (forall k r, fwd t1 !! k = Some r -> fwd t !! k = Some r) as Hsub.
  { intros k r E. rewrite <- K1; [done|]. intros Hg. by rewrite (G1 k Hg) in E. }
  split; [intros k; destruct (C1 k), (C2 k); tauto|done|..].
  - intros k Hk. destruct (fwd t2 !! k) as [r|] eqn:E; [|done]. exfalso.
    assert (~ g2 k) as Hn by (intros Hg; by rewrite (G2 k Hg) in E). rewrite (K2 k Hn) in E.
    destruct Hk as [Hg|?]; [|done]. by rewrite (G1 k Hg) in E.
  - intros k Hk. rewrite K2, K1 by tauto. done.
  - intros r s Es Hk. apply S2; [apply S1; [done|]|].
    + intros k Hg. apply Hk. by left.
    + intros k Hg E. apply (Hk k); [by right|by apply Hsub].
  - congruence.
  - destruct P1 as (? & ? & ?), P2 as (? & ? & ?). split_and!; congruence.
Qed.

Lemma detached_iff t t' g g' : (forall k, g k <-> g' k) -> detached t t' g -> detached t t' g'.
Proof.
  intros Hg [H0 H1 H2 H3 H4 H5 H6]. split; [intros k; rewrite <- Hg; apply H0|done|..|done|done].
  - intros k Hk. by apply H2, Hg.
  - intros k Hk. apply H3. by rewrite Hg.
  - intros r s Es Hk. apply H4; [done|]. intros k Hgk. by apply Hk, Hg.
Qed.

Lemma detach_all_detached t keys : table_ok t -> detached t (detach_all t keys) (fun k => k ∈ keys).
Proof.
  revert t. induction keys as [|[p c] keys IH]; intros t Ht; cbn [detach_all fold_left].
  - eapply detached_iff; [|by apply detached_refl]. intros k. split; [done|apply not_elem_of_nil].
  - fold (detach_all (detach t p c) keys). eapply detached_iff; [|eapply detached_trans; [by apply detach_detached|]].
    2:{ apply IH. by apply detach_ok. }
    intros k. cbn. rewrite elem_of_cons. split; intros [->|?]; auto.
Qed.

(** A circuit that is still there is the one that was there. *)
Lemma detached_circuit t t' g k r s : table_ok t -> detached t t' g -> circuit_at t' k r s -> circuit_at t k r s /\ ~ g k.
Proof.
  intros Ht [C O G K S D P] [E Es].
  assert (~ g k) as Hn by (intros Hg; by rewrite (G k Hg) in E). pose proof E as E'. rewrite (K k Hn) in E'.
  split; [|done]. split; [done|]. destruct (ok_fwd t Ht k r E') as (s' & Es' & _). rewrite Es'. f_equal.
  assert (states t' !! r = Some s'); [|congruence]. apply S; [done|]. intros k' Hg E2. apply Hn.
  by rewrite (fwd_inj t k k' r).
Qed.

Lemma detached_kept t t' g k r s : table_ok t -> detached t t' g -> circuit_at t k r s -> ~ g k -> circuit_at t' k r s.
Proof.
  intros Ht Hd [E Es] Hn. split; [by rewrite (dt_kept _ _ _ Hd)|]. apply (dt_states _ _ _ Hd); [done|].
  intros k' Hg E'. apply Hn. by rewrite (fwd_inj t k k' r).
Qed.

(** ** Reclaiming *)

Definition reclaimable (t : CircuitTable) (now : Z) (k : Link * CircuitId) : Prop :=
  exists r s, circuit_at t k r s /\ (idle t now s = true \/ served now s = true).

Lemma select_spec t p keys k : k ∈ select t p keys <-> k ∈ keys /\ exists r s, circuit_at t k r s /\ p s = true.
Proof.
  unfold select. rewrite list_elem_of_In, filter_In, <- list_elem_of_In. unfold circuit_at.
  destruct (fwd t !! k) as [r|] eqn:E; cbn [mbind option_bind].
  - destruct (states t !! r) as [s|] eqn:Es; cbn [is_some_and]; split; intros [Hk Hp]; (split; [done|]).
    + by exists r, s.
    + destruct Hp as (r' & s' & (? & ?) & ?). by simplify_eq.
    + done.
    + destruct Hp as (r' & s' & (? & ?) & ?). by simplify_eq.
  - cbn. split; [by intros [_ ?]|]. by intros (_ & r & s & (? & _) & _).
Qed.

(** Two rounds of reclaiming among the circuits whose keys satisfy [P]: the idle ones ([k1] lists
    them all), then, if there is no room yet, the served ones of what is left ([k2]). *)
Lemma reclaim_rounds t now (P : Link * CircuitId -> Prop) k1 k2 (room : bool) : table_ok t ->
  let t1 := detach_all t (select t (idle t now) k1) in
  let t' := if room then t1 else detach_all t1 (select t1 (served now) k2) in
  (forall k, k ∈ k1 <-> P k /\ is_Some (fwd t !! k)) ->
  (room = false -> forall k, k ∈ k2 <-> P k /\ is_Some (fwd t1 !! k)) ->
  exists gone, detached t t' gone /\ (forall k, gone k -> P k /\ reclaimable t now k) /\
    (room = false -> forall k, P k -> ~ reclaimable t' now k).
Proof.
  intros Ht t1 t' Hk1 Hk2.
  assert (detached t t1 (fun k => k ∈ select t (idle t now) k1)) as H1 by (by apply detach_all_detached).
  assert (forall k, k ∈ select t (idle t now) k1 -> P k /\ reclaimable t now k) as Hg1.
  { intros k ([? _]%Hk1 & r & s & Hat & Hp)%select_spec. split; [done|]. exists r, s. tauto. }
  destruct room; [eexists; by split_and!|]. specialize (Hk2 eq_refl).
  assert (table_ok t1) as Ht1 by apply H1.
  pose proof (detach_all_detached t1 (select t1 (served now) k2) Ht1) as H3. fold t' in H3.
  eexists. split_and!; [exact (detached_trans _ _ _ _ _ H1 H3)| |].
  - intros k [Hk|([? _]%Hk2 & r & s & Hat & Hp)%select_spec]; [by apply Hg1|]. split; [done|].
    exists r, s. apply (detached_circuit _ _ _ _ _ _ Ht H1) in Hat as [? _]. tauto.
  - intros _ k HP (r & s & Hat & Hp). apply (detached_circuit _ _ _ _ _ _ Ht1 H3) in Hat as [Hat Hn].
    assert (is_Some (fwd t1 !! k)) as Hs by (destruct Hat; by exists r). destruct Hp as [Hp|Hp].
    + unfold idle in Hp. destruct (dt_params _ _ _ H3) as (_ & _ & E3), (dt_params _ _ _ H1) as (_ & _ & E1).
      rewrite E3, E1 in Hp. apply (detached_circuit _ _ _ _ _ _ Ht H1) in Hat as [Hat Hn1].
      apply Hn1, select_spec. split; [|by exists r, s]. apply Hk1. split; [done|]. destruct Hat. by exists r.
    + apply Hn, select_spec. split; [by apply Hk2|by exists r, s].
Qed.

Lemma entries_spec t k : k ∈ entries t <-> is_Some (fwd t !! k).
Proof.
  unfold entries. rewrite list_elem_of_fmap. split.
  - intros ([k' r] & -> & E%elem_of_map_to_list). by exists r.
  - intros [r E]. exists (k, r). split; [done|]. by apply elem_of_map_to_list.
Qed.

Lemma reclaim_table_spec t now : table_ok t ->
  exists gone, detached t (reclaim_table t now) gone /\ (forall k, gone k -> reclaimable t now k) /\
    ((max_total t <= size (fwd (reclaim_table t now)))%nat -> forall k, ~ reclaimable (reclaim_table t now) now k).
Proof.
  intros Ht. unfold reclaim_table. set (t1 := detach_all t _).
  assert (max_total t1 = max_total t) as Em by (apply (detach_all_detached t _ Ht)).
  destruct (reclaim_rounds t now (fun _ => True) (entries t) (entries t1) (size (fwd t1) <? max_total t1)%nat Ht)
    as (gone & Hd & Hg & Hfull);
    [intros k; rewrite entries_spec; tauto|intros _ k; rewrite entries_spec; tauto|].
  fold t1 in Hd, Hfull. exists gone. split_and!; [done|by intros k [_ ?]%Hg|].
  intros Hsz k. apply Hfull; [|done]. destruct (Nat.ltb_spec (size (fwd t1)) (max_total t1)); [lia|done].
Qed.

Lemma bucket_keys t prev ids k : table_ok t -> per_link t !! prev = Some ids ->
  k ∈ (pair prev <$> ids) <-> k.1 = prev /\ is_Some (fwd t !! k).
Proof.
  intros Ht E. rewrite list_elem_of_fmap. assert (forall c, c ∈ ids <-> is_Some (fwd t !! (prev, c))) as Hi.
  { intros c. rewrite <- (ix_elem _ _ (ok_bucket t Ht) prev c). unfold bucket. by rewrite E. }
  destruct k as [p c]; cbn. split.
  - intros (c' & [= -> ->] & Hc). split; [done|by apply Hi].
  - intros [-> Hf]. exists c. split; [done|]. by apply Hi.
Qed.

Lemma bucket_len_pos t prev : (1 <= bucket_len t prev)%nat -> exists ids, per_link t !! prev = Some ids.
Proof. unfold bucket_len. destruct (per_link t !! prev) as [ids|]; cbn; [eauto|lia]. Qed.

Lemma reclaim_bucket_spec t prev now : table_ok t ->
  exists gone, detached t (reclaim_bucket t prev now) gone /\ (forall k, gone k -> k.1 = prev /\ reclaimable t now k) /\
    ((max_per_link t <= bucket_len (reclaim_bucket t prev now) prev)%nat ->
     forall k, k.1 = prev -> ~ reclaimable (reclaim_bucket t prev now) now k).
Proof.
  intros Ht. pose proof (ok_caps t Ht) as [_ Hcap]. unfold reclaim_bucket. destruct (per_link t !! prev) as [ids|] eqn:E.
  2:{ eexists. split_and!; [by apply detached_refl|done|]. intros Hb. unfold bucket_len in Hb. rewrite E in Hb. cbn in Hb. lia. }
  set (t1 := detach_all t _). pose proof (detach_all_detached t _ Ht : detached t t1 _) as H1.
  assert (max_per_link t1 = max_per_link t) as Em by apply H1. rewrite Em.
  destruct (reclaim_rounds t now (fun k => k.1 = prev) (pair prev <$> ids) (pair prev <$> default [] (per_link t1 !! prev))
    (bucket_len t1 prev <? max_per_link t)%nat Ht) as (gone & Hd & Hg & Hfull); [intros k; by apply bucket_keys|..].
  { intros Hf k. apply Nat.ltb_ge in Hf. fold t1. destruct (bucket_len_pos t1 prev ltac:(lia)) as [ids1 E1]. rewrite E1.
    apply bucket_keys; [apply H1|done]. }
  fold t1 in Hd, Hfull. exists gone.
  destruct (Nat.ltb_spec (bucket_len t1 prev) (max_per_link t)) as [Hlt|Hge]; [split_and!; [done..|lia]|].
  destruct (bucket_len_pos t1 prev ltac:(lia)) as [ids1 E1]. rewrite E1 in *. split_and!; [done..|].
  intros _ k Hk. by apply Hfull.
Qed.

(** ** Installing *)

Lemma insert_state_ok t s r t' : table_ok t -> insert_state t s = (r, t') ->
  fwd t !! (prev_link s, circuit_id_in s) = None ->
  (forall nl, next_link s = Some nl -> bwd t !! (nl, circuit_id_out s) = None) ->
  (size (fwd t) < max_total t)%nat -> (bucket_len t (prev_link s) < max_per_link t)%nat ->
  table_ok t' /\ states t !! r = None /\
  states t' = <[r := s]> (states t) /\ fwd t' = <[(prev_link s, circuit_id_in s) := r]> (fwd t) /\
  bwd t' = match next_link s with Some nl => <[(nl, circuit_id_out s) := r]> (bwd t) | None => bwd t end.
Proof.
  intros Ht E Hf Hb Hsz Hlen. unfold insert_state in E.
  assert (states t !! fresh (dom (states t)) = None) as Hr by apply not_elem_of_dom, is_fresh.
  set (r0 := fresh (dom (states t))) in *.
  assert (r0 = r /\ mkTable (<[r := s]> (states t)) (<[(prev_link s, circuit_id_in s) := r]> (fwd t))
    (match next_link s with Some nl => <[(nl, circuit_id_out s) := r]> (bwd t) | None => bwd t end)
    (bucket_push (per_link t) (prev_link s) (circuit_id_in s)) (max_total t) (max_per_link t) (ttl_secs t) = t') as [<- <-].
  { destruct (next_link s); cbn in E; by injection E as <- <-. }
  clear E. cbn. split_and!; [|done..]. destruct Ht as [H1 H2 H3 H4 H5 H6].
  assert (forall k, fwd t !! k <> Some r0) as Hnf by (intros k E; destruct (H1 k _ E) as (? & ? & _); congruence).
  split; cbn.
  - intros k r [[<- <-]|[Hk E]]%lookup_insert_Some; [exists s; by rewrite lookup_insert_eq|].
    destruct (H1 k r E) as (s' & Es & Ek). exists s'. rewrite lookup_insert_ne; [done|]. congruence.
  - intros n c r. unfold circuit_at; cbn.
    transitivity (r = r0 /\ next_link s = Some n /\ circuit_id_out s = c \/ bwd t !! (n, c) = Some r).
    + destruct (next_link s) as [nl|] eqn:En; [|by split; [right|intros [(_ & ? & _)|?]]]. rewrite lookup_insert_Some. split.
      * intros [[[= <- <-] <-]|[_ E]]; [by left|by right].
      * intros [(-> & [= ->] & ->)|E]; [by left|right]. split; [|done]. intros [= <- <-]. by rewrite (Hb nl) in E.
    + rewrite H2. split.
      * intros [(-> & En & Ec)|(s' & (Ef & Es) & En & Ec)]; [exists s; by rewrite !lookup_insert_eq|].
        exists s'. split; [|done]. rewrite !lookup_insert_ne; [done|congruence|]. intros Ek. rewrite <- Ek in Ef. congruence.
      * intros (s' & (Ef & Es) & En & Ec). apply lookup_insert_Some in Es as [[<- <-]|[Hne Es]]; [by left|right].
        exists s'. split; [|done]. split; [|done]. apply lookup_insert_Some in Ef as [[_ <-]|[_ ?]]; [congruence|done].
  - eapply indexes_iff; [|apply bucket_push_indexes; [exact H3|cbn; rewrite Hf; by intros [? ?]]]. intros l c. cbn.
    rewrite lookup_insert_is_Some'. naive_solver.
  - rewrite map_size_insert, Hf. unfold id. lia.
  - intros l. change (length (bucket (bucket_push (per_link t) (prev_link s) (circuit_id_in s)) l) <= max_per_link t)%nat.
    rewrite bucket_push_length. unfold bucket_len in *. fold (bucket (per_link t) (prev_link s)) in Hlen.
    case_decide; [lia|apply H5].
  - done.
Qed.

(** Only what may be reclaimed is dropped from [t] to [t']. *)
Definition drops_reclaimable (t t' : CircuitTable) (now : Z) : Prop :=
  exists gone, detached t t' gone /\ forall k, gone k -> reclaimable t now k.

Lemma drops_refl t now : table_ok t -> drops_reclaimable t t now.
Proof. intros Ht. eexists. by split; [apply detached_refl|]. Qed.

Lemma drops_trans t t1 t2 now : table_ok t ->
  drops_reclaimable t t1 now -> drops_reclaimable t1 t2 now -> drops_reclaimable t t2 now.
Proof.
  intros Ht (g1 & H1 & R1) (g2 & H2 & R2). eexists. split; [by eapply detached_trans|]. intros k [?|Hk]; [by apply R1|].
  destruct (R2 k Hk) as (r & s & Hat & Hp). apply (detached_circuit _ _ _ _ _ _ Ht H1) in Hat as [Hat _].
  exists r, s. split; [done|]. unfold idle in *. destruct (dt_params _ _ _ H1) as (_ & _ & <-). done.
Qed.

Lemma drops_kept t t' now k r s : table_ok t -> drops_reclaimable t t' now -> circuit_at t k r s ->
  circuit_at t' k r s \/ fwd t' !! k = None /\ reclaimable t now k.
Proof.
  intros Ht (g & H & R) Hat. destruct (dt_dec _ _ _ H k) as [Hg|Hn]; [right|left; by eapply detached_kept].
  split; [by apply (dt_gone _ _ _ H)|by apply R].
Qed.

(** What was there before stays there, with the state it had. *)
Lemma drops_only t t' now k r : drops_reclaimable t t' now -> fwd t' !! k = Some r -> fwd t !! k = Some r.
Proof.
  intros (g & H & _) E. rewrite <- (dt_kept _ _ _ H); [done|]. intros Hg. by rewrite (dt_gone _ _ _ H k Hg) in E.
Qed.

Lemma table_room t now : table_ok t ->
  let t1 := if (max_total t <=? size (fwd t))%nat then reclaim_table t now else t in
  drops_reclaimable t t1 now /\ table_ok t1 /\ max_total t1 = max_total t /\ max_per_link t1 = max_per_link t /\
  ((max_total t <= size (fwd t1))%nat -> forall k, ~ reclaimable t1 now k).
Proof.
  intros Ht. destruct (Nat.leb_spec (max_total t) (size (fwd t))); cbn zeta.
  - destruct (reclaim_table_spec t now Ht) as (g & Hd & Hg & Hf).
    split_and!; [by exists g|apply Hd|apply (dt_params _ _ _ Hd)|apply (dt_params _ _ _ Hd)|done].
  - split_and!; [by apply drops_refl|done..|lia].
Qed.

Lemma bucket_room t prev now : table_ok t ->
  let t1 := if (max_per_link t <=? bucket_len t prev)%nat then reclaim_bucket t prev now else t in
  drops_reclaimable t t1 now /\ table_ok t1 /\ max_total t1 = max_total t /\ max_per_link t1 = max_per_link t /\
  (size (fwd t1) <= size (fwd t))%nat /\
  ((max_per_link t <= bucket_len t1 prev)%nat -> forall k, k.1 = prev -> ~ reclaimable t1 now k).
Proof.
  intros Ht. destruct (Nat.leb_spec (max_per_link t) (bucket_len t prev)); cbn zeta.
  - destruct (reclaim_bucket_spec t prev now Ht) as (g & Hd & Hg & Hf).
    assert (drops_reclaimable t (reclaim_bucket t prev now) now) as Hdr by (exists g; split; [done|by intros k [_ ?]%Hg]).
    split_and!; [done|apply Hd|apply (dt_params _ _ _ Hd)|apply (dt_params _ _ _ Hd)| |done].
    apply map_subseteq_size, map_subseteq_spec. intros k r. by apply (drops_only t _ now).
  - split_and!; [by apply drops_refl|done..|lia].
Qed.

Lemma table_install_spec (t t' : CircuitTable) (install : CircuitInstall) (prev : Link) (next : option Link)
    (now : Z) (res : InstallError + Ref) (Ht : table_ok t) (E : table_install t install prev next now = (res, t')) :
  table_ok t' /\
  (forall k r s, circuit_at t k r s -> circuit_at t' k r s \/ fwd t' !! k = None /\ reclaimable t now k) /\
  match res with
  | inr r =>
      lookup_forward t prev (in_circuit_id_in install) = None /\ states t !! r = None /\
      circuit_at t' (prev, in_circuit_id_in install) r (from_install install prev next now) /\
      (forall nl, next = Some nl -> lookup_backward t' nl (in_circuit_id_out install) = Some r) /\
      (forall k r', fwd t' !! k = Some r' -> k = (prev, in_circuit_id_in install) \/ fwd t !! k = Some r')
  | inl Duplicate =>
      is_Some (lookup_forward t prev (in_circuit_id_in install)) \/
      exists nl, next = Some nl /\ is_Some (lookup_backward t' nl (in_circuit_id_out install))
  | inl TableFull => size (fwd t') = max_total t' /\ forall k, ~ reclaimable t' now k
  | inl PerLinkFull => bucket_len t' prev = max_per_link t' /\ forall k, k.1 = prev -> ~ reclaimable t' now k
  end.
Proof.
  unfold table_install, lookup_forward, lookup_backward in *.
  destruct (fwd t !! (prev, in_circuit_id_in install)) as [r0|] eqn:Ef; cbn [is_some is_some_and] in E.
  { injection E as <- <-. split_and!; [done|by left|by left; eexists]. }
  pose proof (table_room t now Ht) as (D1 & Ht1 & M1 & L1 & F1). cbn zeta in D1, Ht1, M1, L1, F1.
  set (t1 := if (max_total t <=? size (fwd t))%nat then _ else _) in *.
  destruct (Nat.leb_spec (max_total t1) (size (fwd t1))) as [Hfull|Hroom].
  { injection E as <- <-. split_and!; [done|intros; by apply drops_kept| |by apply F1; lia].
    pose proof (ok_total t1 Ht1). lia. }
  pose proof (bucket_room t1 prev now Ht1) as (D2 & Ht2 & M2 & L2 & S2 & F2). cbn zeta in D2, Ht2, M2, L2, S2, F2.
  set (t2 := if (max_per_link t1 <=? bucket_len t1 prev)%nat then _ else _) in *.
  assert (drops_reclaimable t t2 now) as D by (by eapply drops_trans).
  destruct (Nat.leb_spec (max_per_link t2) (bucket_len t2 prev)) as [Hfull|Hroom2].
  { injection E as <- <-. split_and!; [done|intros; by apply drops_kept| |by apply F2; lia].
    pose proof (ok_link t2 Ht2 prev). lia. }
  destruct (is_some_and next _) eqn:Ed.
  { injection E as <- <-. split_and!; [done|intros; by apply drops_kept|right].
    destruct next as [nl|]; [|done]. exists nl. split; [done|]. cbn in Ed.
    destruct (bwd t2 !! (nl, in_circuit_id_out install)) as [r|]; [by exists r|done]. }
  destruct (insert_state t2 _) as [r t3] eqn:Ei. injection E as <- <-.
  assert (fwd t2 !! (prev, in_circuit_id_in install) = None) as Ef2.
  { destruct (fwd t2 !! _) as [r'|] eqn:E2; [|done]. apply (drops_only t _ now _ _ D) in E2. congruence. }
  destruct (insert_state_ok t2 _ r t3 Ht2 Ei) as (Ht3 & Er & Es3 & Ef3 & Eb3); cbn; [done| |lia|lia|].
  { intros nl ->. cbn in Ed. by destruct (bwd t2 !! (nl, in_circuit_id_out install)). }
  cbn in Ef3, Eb3. split_and!; [done| |done| |split| |].
  - intros k r' s' Hat. destruct (drops_kept t t2 now k r' s' Ht D Hat) as [[E1 E2]|[E1 E2]].
    + left. split; [rewrite Ef3, lookup_insert_ne; [done|]|rewrite Es3, lookup_insert_ne; [done|]]; congruence.
    + destruct (decide (k = (prev, in_circuit_id_in install))) as [->|Hk]; [destruct Hat; congruence|].
      right. split; [|done]. by rewrite Ef3, lookup_insert_ne by congruence.
  - destruct D as (g & Hd & _). apply not_elem_of_dom. rewrite <- (dt_dom _ _ _ Hd). by apply not_elem_of_dom.
  - by rewrite Ef3, lookup_insert_eq.
  - by rewrite Es3, lookup_insert_eq.
  - intros nl ->. by rewrite Eb3, lookup_insert_eq.
  - intros k r' E'. rewrite Ef3 in E'. apply lookup_insert_Some in E' as [[<- _]|[_ E']]; [by left|right].
    by apply (drops_only t t2 now).
Qed.

(** Installing a circuit is exact.  The relay accepts it under its link and identifier, with the
    key and cell size of the installation, exactly if neither index has it yet and there is room; a
    refusal names the reason, and the table or the link is called full only when none of its
    circuits could be reclaimed.  In every case the table stays consistent, and a circuit that was
    there is still there with its state, unless it was idle or served and left behind. *)
Theorem circuit_install_exact (t t' : CircuitTable) (install : CircuitInstall) (prev : Link) (next : option Link)
    (now : Z) (res : InstallError + Ref) (Ht : table_ok t) (E : table_install t install prev next now = (res, t')) :
  table_ok t' /\
  (forall k r s, circuit_at t k r s -> circuit_at t' k r s \/ fwd t' !! k = None /\ reclaimable t now k) /\
  match res with
  | inr r =>
      lookup_forward t prev (in_circuit_id_in install) = None /\ states t !! r = None /\
      circuit_at t' (prev, in_circuit_id_in install) r (from_install install prev next now) /\
      (forall nl, next = Some nl -> lookup_backward t' nl (in_circuit_id_out install) = Some r) /\
      (forall k r', fwd t' !! k = Some r' -> k = (prev, in_circuit_id_in install) \/ fwd t !! k = Some r')
  | inl Duplicate =>
      is_Some (lookup_forward t prev (in_circuit_id_in install)) \/
      exists nl, next = Some nl /\ is_Some (lookup_backward t' nl (in_circuit_id_out install))
  | inl TableFull => size (fwd t') = max_total t' /\ forall k, ~ reclaimable t' now k
  | inl PerLinkFull => bucket_len t' prev = max_per_link t' /\ forall k, k.1 = prev -> ~ reclaimable t' now k
  end.
Proof. by apply (table_install_spec t t' install prev next now res). Qed.

(** ** An installation into a fresh table *)

Module Demo.

Definition fresh_table : CircuitTable := table_with_params 4 2 60.
Definition an_install : CircuitInstall := mkInstall 7 8 (repeat x05 32) cell_legacy.
Definition a_link : Link := [x01].
Definition after : CircuitTable := (table_install fresh_table an_install a_link None 100).2.

Lemma installed : table_install fresh_table an_install a_link None 100 = (inr 1%positive, after).
Proof. vm_compute. reflexivity. Qed.

Lemma circuit_install_exact_witness :
  table_ok after /\ circuit_at after (a_link, 7) 1%positive (from_install an_install a_link None 100).
Proof.
  destruct (circuit_install_exact fresh_table after an_install a_link None 100 (inr 1%positive)
    (table_with_params_ok 4 2 60) installed) as (Hok & _ & _ & _ & Hat & _).
  exact (conj Hok Hat).
Defined.

End Demo.
