(* ===== verification/CircuitRegister.v ===== *)
(** * The rendezvous registry

    crates/veil-anonymity/src/circuit_register.rs: a receiver registers a cookie at the terminus of
    its circuit, signed by the key the cookie is derived from; introductions for the cookie then go
    down that circuit.  A subscription holds a reference to the circuit's state. *)

From stdpp Require Import strings.
From S2P Require Import Prelude Crypto Onion CircuitData CircuitReplay CircuitSetup CircuitTable.

Definition REGISTER_DOMAIN : list byte := ascii "veil.circuit.register.v1" ++ [x00].
Definition COOKIE_LEN : Z := 16.
Definition REG_PK_LEN : Z := 32.
Definition MAX_SIG_LEN : Z := 128.
Definition COOKIE_BINDING_CONTEXT : list byte := ascii "veil.circuit.register.v1 cookie from reg_pk".
Definition MAX_CIRCUIT_SUBSCRIPTIONS : nat := Z.to_nat 10000.
Definition DEFAULT_SUBSCRIPTION_TTL_SECS : Z := 600.
Definition MAX_SUBSCRIPTIONS_PER_LINK : nat := 256.

(** [veil_crypto::verify_message] for Ed25519: public key, message, signature. *)
Class Ed25519 := ed25519_verify : Key -> list byte -> list byte -> bool.

Definition cookie_for_reg_pk `{Blake3Kdf} (reg_pk : Key) : list byte :=
  ztake COOKIE_LEN (blake3_derive_key COOKIE_BINDING_CONTEXT reg_pk).

(** ** Registrations *)

Record CircuitRegisterPayload := mkRegister {
  cookie : list byte;
  reg_pk : Key;
  epoch : Z;
  signature : list byte
}.

Definition signing_bytes (cookie : list byte) (reg_pk : Key) (epoch : Z) : list byte :=
  REGISTER_DOMAIN ++ cookie ++ reg_pk ++ be_bytes 8 epoch.

Definition register_verify `{Ed25519} (p : CircuitRegisterPayload) : bool :=
  ed25519_verify (reg_pk p) (signing_bytes (cookie p) (reg_pk p) (epoch p)) (signature p).

Definition register_encode (p : CircuitRegisterPayload) : list byte :=
  cookie p ++ reg_pk p ++ be_bytes 8 (epoch p) ++ be_bytes 2 (wrap16 (zlen (signature p))) ++ signature p.

Definition register_decode (buf : list byte) : option CircuitRegisterPayload :=
  let fixed := COOKIE_LEN + REG_PK_LEN + 8 + 2 in
  if zlen buf <? fixed then None
  else
    let cookie := range 0 COOKIE_LEN buf in
    let reg_pk := range COOKIE_LEN (COOKIE_LEN + REG_PK_LEN) buf in
    let epoch_off := COOKIE_LEN + REG_PK_LEN in
    let epoch := from_be (range epoch_off (epoch_off + 8) buf) in
    let sig_len_off := epoch_off + 8 in
    let sig_len := from_be (range sig_len_off (sig_len_off + 2) buf) in
    if (MAX_SIG_LEN <? sig_len) || negb (zlen buf =? fixed + sig_len) then None
    else Some (mkRegister cookie reg_pk epoch (range fixed (fixed + sig_len) buf)).

(** ** The registry *)

Inductive RegisterError := BadSignature | CookieClaimed | RegistryFull | StaleEpoch | CookieNotBoundToKey.

Record Subscription := mkSub {
  sub_reg_pk : Key;
  sub_circuit : Ref;
  sub_registered_unix : Z;
  sub_epoch : Z
}.

Record CircuitRendezvousRegistry := mkRegistry {
  subs : gmap (list byte) Subscription;
  reg_per_link : gmap Link (list (list byte));
  reg_cap : nat;
  reg_per_link_cap : nat;
  reg_ttl_secs : Z;
  over_link_cap_evictions : Z
}.

#[export] Instance eta_Registry : Settable CircuitRendezvousRegistry := fun g =>
  mkRegistry (subs g) (reg_per_link g) (reg_cap g) (reg_per_link_cap g) (reg_ttl_secs g) (over_link_cap_evictions g).

Definition registry_with_link_cap (cap per_link_cap : nat) (ttl_secs : Z) : CircuitRendezvousRegistry :=
  mkRegistry ∅ ∅ (Nat.max cap 1) (Nat.max per_link_cap 1) ttl_secs 0.
Definition registry_new : CircuitRendezvousRegistry :=
  registry_with_link_cap MAX_CIRCUIT_SUBSCRIPTIONS MAX_SUBSCRIPTIONS_PER_LINK DEFAULT_SUBSCRIPTION_TTL_SECS.

Section registry.
(** The states the subscriptions refer to. *)
Context (st : gmap Ref CircuitState).

(** [sub.circuit.prev_link]; a reference has its state. *)
Definition link_of (r : Ref) : Link := default [] (prev_link <$> st !! r).
Definition served_at (g : CircuitRendezvousRegistry) (c : list byte) : Z :=
  default 0 (sub ← subs g !! c; last_served_unix <$> st !! sub_circuit sub).

Definition reg_bucket_len (g : CircuitRendezvousRegistry) (link : Link) : nat := length (bucket (reg_per_link g) link).

Definition reg_insert (g : CircuitRendezvousRegistry) (cookie : list byte) (sub : Subscription) : CircuitRendezvousRegistry :=
  let link := link_of (sub_circuit sub) in
  let old := subs g !! cookie in
  let g := g <| subs := <[cookie := sub]> (subs g) |> in
  match old with
  | Some prev =>
      if bool_decide (link_of (sub_circuit prev) = link) then g
      else
        let g := g <| reg_per_link := unbucket (reg_per_link g) (link_of (sub_circuit prev)) cookie |> in
        g <| reg_per_link := bucket_push (reg_per_link g) link cookie |>
  | None => g <| reg_per_link := bucket_push (reg_per_link g) link cookie |>
  end.

Definition reg_remove (g : CircuitRendezvousRegistry) (cookie : list byte) : CircuitRendezvousRegistry :=
  match subs g !! cookie with
  | None => g
  | Some sub =>
      let g := g <| subs := delete cookie (subs g) |> in
      g <| reg_per_link := unbucket (reg_per_link g) (link_of (sub_circuit sub)) cookie |>
  end.

(** [iter().min_by_key(key)]: the first of the least. *)
Definition min_by_key {A} (key : A -> Z) (l : list A) : option A :=
  fold_left (fun best x => match best with Some b => if key x <? key b then Some x else best | None => Some x end) l None.

Definition link_victim (g : CircuitRendezvousRegistry) (bucket : list (list byte)) : option (list byte) :=
  match min_by_key (served_at g) (List.filter (fun c => negb (served_at g c =? 0)) bucket) with
  | Some c => Some c
  | None => min_by_key (fun c => default 0 (sub_registered_unix <$> subs g !! c)) bucket
  end.

Definition make_room_for_link (g : CircuitRendezvousRegistry) (link : Link) : bool * CircuitRendezvousRegistry :=
  if (reg_bucket_len g link <? reg_per_link_cap g)%nat then (false, g)
  else
    match bucket ← reg_per_link g !! link; link_victim g bucket with
    | Some cookie => (is_some (subs g !! cookie), reg_remove g cookie)
    | None => (false, g)
    end.

(** The checks of [register] before any change: whether the cookie is fresh. *)
Definition register_check `{Ed25519} `{Blake3Kdf} (g : CircuitRendezvousRegistry) (p : CircuitRegisterPayload) :
    RegisterError + bool :=
  if negb (register_verify p) then inl BadSignature
  else if negb (bool_decide (cookie p = cookie_for_reg_pk (reg_pk p))) then inl CookieNotBoundToKey
  else
    match subs g !! cookie p with
    | Some existing =>
        if negb (bool_decide (sub_reg_pk existing = reg_pk p)) then inl CookieClaimed
        else if epoch p <=? sub_epoch existing then inl StaleEpoch
        else inr false
    | None => if (reg_cap g <=? size (subs g))%nat then inl RegistryFull else inr true
    end.

(** The second part of [register]; the state of the circuit is marked by the caller's store. *)
Definition register_bind (g : CircuitRendezvousRegistry) (p : CircuitRegisterPayload) (circuit : Ref) (fresh_cookie : bool)
    (now_unix : Z) : CircuitRendezvousRegistry :=
  let g :=
    if fresh_cookie then
      let '(evicted, g) := make_room_for_link g (link_of circuit) in
      if evicted then g <| over_link_cap_evictions := add64 (over_link_cap_evictions g) 1 |> else g
    else g in
  reg_insert g (cookie p) (mkSub (reg_pk p) circuit now_unix (epoch p)).

Definition reg_lookup (g : CircuitRendezvousRegistry) (cookie : list byte) : option Ref := sub_circuit <$> subs g !! cookie.

(** [Arc::ptr_eq] is equality of references. *)
Definition remove_if_current (g : CircuitRendezvousRegistry) (cookie : list byte) (circuit : Ref) :
    bool * CircuitRendezvousRegistry :=
  if bool_decide (reg_lookup g cookie = Some circuit) then (true, reg_remove g cookie) else (false, g).

Definition expired (g : CircuitRendezvousRegistry) (now_unix : Z) (sub : Subscription) : bool :=
  let owner_seen := default 0 (last_seen_unix <$> st !! sub_circuit sub) in
  reg_ttl_secs g <=? sat_sub now_unix (Z.max (sub_registered_unix sub) owner_seen).

Definition reg_gc (g : CircuitRendezvousRegistry) (now_unix : Z) : nat * CircuitRendezvousRegistry :=
  let gone := (map_to_list (filter (fun e => expired g now_unix e.2 = true) (subs g))).*1 in
  (length gone, fold_left reg_remove gone g).

End registry.

(** [register]: the verdict, the registry, and the store with the cookie recorded on the circuit. *)
Definition register `{Ed25519} `{Blake3Kdf} (st : gmap Ref CircuitState) (g : CircuitRendezvousRegistry)
    (p : CircuitRegisterPayload) (circuit : Ref) (now_unix : Z) :
    (RegisterError + unit) * CircuitRendezvousRegistry * gmap Ref CircuitState :=
  match register_check g p with
  | inl e => (inl e, g, st)
  | inr fresh_cookie =>
      (inr tt, register_bind st g p circuit fresh_cookie now_unix,
       alter (fun s => set_registered_cookie s (cookie p)) circuit st)
  end.

(** ** The registry is consistent *)

Definition bound_on (st : gmap Ref CircuitState) (g : CircuitRendezvousRegistry) (l : Link) (c : list byte) : Prop :=
  exists sub, subs g !! c = Some sub /\ link_of st (sub_circuit sub) = l.

Record registry_ok (st : gmap Ref CircuitState) (g : CircuitRendezvousRegistry) : Prop := {
  rg_index : indexes (reg_per_link g) (bound_on st g);
  rg_cap : (size (subs g) <= reg_cap g)%nat
}.

Lemma registry_with_link_cap_ok st cap pl ttl : registry_ok st (registry_with_link_cap cap pl ttl).
Proof.
  split; cbn; [|rewrite map_size_empty; lia]. eapply indexes_iff; [|apply indexes_empty]. intros l c. cbn.
  split; [done|]. by intros (sub & E & _).
Qed.

Section registry_laws.
Context (st : gmap Ref CircuitState).

Lemma reg_remove_ok g c : registry_ok st g -> registry_ok st (reg_remove st g c).
Proof.
  intros [Hi Hc]. unfold reg_remove. destruct (subs g !! c) as [sub|] eqn:E; [|done]. split; cbn.
  - eapply indexes_iff; [|apply unbucket_indexes, Hi]. intros l c'. cbn. unfold bound_on; cbn.
    setoid_rewrite lookup_delete_Some. split.
    + intros [(sub' & E' & El) Hne]. exists sub'. split; [|done]. split; [|done]. intros <-. apply Hne. f_equal. congruence.
    + intros (sub' & [Hne E'] & El). split; [by exists sub'|]. congruence.
  - rewrite map_size_delete, E. unfold id. lia.
Qed.

Lemma reg_remove_subs g c c' : subs (reg_remove st g c) !! c' = if decide (c' = c) then None else subs g !! c'.
Proof.
  unfold reg_remove. destruct (subs g !! c) as [sub|] eqn:E; cbn; case_decide as Hc; subst;
    [apply lookup_delete_eq|by apply lookup_delete_ne|done|done].
Qed.

Lemma reg_remove_cap g c : reg_cap (reg_remove st g c) = reg_cap g.
Proof. unfold reg_remove. by destruct (subs g !! c). Qed.

Lemma reg_insert_subs g c sub : subs (reg_insert st g c sub) = <[c := sub]> (subs g).
Proof. unfold reg_insert. destruct (subs g !! c); [by case_bool_decide|done]. Qed.

Lemma reg_insert_ok g c sub : registry_ok st g ->
  (subs g !! c = None -> (size (subs g) < reg_cap g)%nat) -> registry_ok st (reg_insert st g c sub).
Proof.
  intros [Hi Hcap] Hroom. unfold reg_insert. set (l := link_of st (sub_circuit sub)).
  assert (forall g2 l' c', subs g2 = <[c := sub]> (subs g) ->
            bound_on st g2 l' c' <-> (bound_on st g l' c' /\ c' <> c) \/ (l', c') = (l, c)) as Hb.
  { intros g2 l' c' Eg. unfold bound_on. rewrite Eg. setoid_rewrite lookup_insert_Some. split.
    - intros (s' & [[<- <-]|[Hne E']] & <-); [by right|left; split; [by exists s'|done]].
    - intros [[(s' & E' & El) Hne]|[= -> ->]]; [exists s'; auto|exists sub; auto]. }
  destruct (subs g !! c) as [prev|] eqn:E.
  - assert (size (<[c := sub]> (subs g)) <= reg_cap g)%nat by (rewrite map_size_insert, E; unfold id; lia).
    assert (forall l', bound_on st g l' c <-> l' = link_of st (sub_circuit prev)) as Hc.
    { intros l'. unfold bound_on. rewrite E. split; [by intros (? & [= <-] & <-)|intros ->; by exists prev]. }
    case_bool_decide as Hl; (split; [|done]); cbn.
    + eapply indexes_iff; [|exact Hi]. intros l' c'. symmetry; rewrite Hb by done; symmetry. destruct (decide (c' = c)) as [->|]; [rewrite Hc|].
      * rewrite Hl. split; [intros ->; by right|intros [[_ ?]|[= ->]]; done].
      * split; [tauto|intros [[? _]|?]; [done|congruence]].
    + eapply indexes_iff; [|apply bucket_push_indexes; [apply unbucket_indexes, Hi|]].
      * intros l' c'. cbn. symmetry; rewrite Hb by done; symmetry. destruct (decide (c' = c)) as [->|]; [rewrite Hc|].
        -- split; [intros [[-> Hne]|?]; [done|by right]|intros [[_ ?]|?]; [done|by right]].
        -- split; [intros [[? _]|?]; auto|]. intros [[? _]|?]; [left; split; [done|congruence]|by right].
      * cbn. rewrite Hc. intros [Heq _]. by apply Hl.
  - split; cbn; [|rewrite map_size_insert, E; unfold id; specialize (Hroom eq_refl); lia].
    assert (forall l', ~ bound_on st g l' c) as Hc by (intros l' (? & E' & _); congruence).
    eapply indexes_iff; [|apply bucket_push_indexes; [exact Hi|apply Hc]]. intros l' c'. cbn. symmetry; rewrite Hb by done; symmetry.
    destruct (decide (c' = c)) as [->|]; [|tauto]. split; [intros [?%Hc|?]; [done|by right]|intros [[_ ?]|?]; [done|by right]].
Qed.

Lemma min_by_key_elem {A} (key : A -> Z) l x : min_by_key key l = Some x -> x ∈ l.
Proof.
  unfold min_by_key. set (f := fun best y => _).
  enough (forall b, fold_left f l b = Some x -> b = Some x \/ x ∈ l) as H by (intros [?|?]%H; done).
  induction l as [|y l IH]; intros b E; cbn in E; [by left|]. destruct (IH _ E) as [Eb|?]; [|by right; right].
  unfold f in Eb. destruct b as [z|]; [destruct (key y <? key z)|]; [injection Eb as ->; by right; left|by left|].
  injection Eb as ->. by right; left.
Qed.

Lemma link_victim_elem g ids c : link_victim st g ids = Some c -> c ∈ ids.
Proof.
  unfold link_victim. destruct (min_by_key (served_at st g) _) as [x|] eqn:E; [|apply min_by_key_elem].
  intros [= <-]. apply min_by_key_elem in E. by apply list_elem_of_In, filter_In in E as [? _]; apply list_elem_of_In.
Qed.

(** Making room takes at most one subscription, of that link, and only from a full one. *)
Lemma make_room_for_link_spec g l b g' : registry_ok st g -> make_room_for_link st g l = (b, g') ->
  registry_ok st g' /\ reg_cap g' = reg_cap g /\ (size (subs g') <= size (subs g))%nat /\
  forall c, subs g' !! c = subs g !! c \/
            subs g' !! c = None /\ bound_on st g l c /\ (reg_per_link_cap g <= reg_bucket_len g l)%nat.
Proof.
  intros Hok E. unfold make_room_for_link in E.
  destruct (Nat.ltb_spec (reg_bucket_len g l) (reg_per_link_cap g)); [injection E as <- <-; auto|].
  destruct (reg_per_link g !! l) as [ids|] eqn:El; cbn [mbind option_bind] in E; [|injection E as <- <-; auto].
  destruct (link_victim st g ids) as [c|] eqn:Ev; injection E as <- <-; [|auto].
  split_and!; [by apply reg_remove_ok|apply reg_remove_cap| |].
  - apply map_subseteq_size, map_subseteq_spec. intros c' sub. rewrite reg_remove_subs. by case_decide.
  - intros c'. rewrite reg_remove_subs. case_decide as Hc; [subst c'; right|by left]. split_and!; [done| |done].
    apply (ix_elem _ _ (rg_index _ _ Hok)). unfold bucket. rewrite El. by eapply link_victim_elem.
Qed.

Lemma register_bind_spec g p circuit fresh_cookie now : registry_ok st g ->
  (fresh_cookie = true <-> subs g !! cookie p = None) -> (fresh_cookie = true -> (size (subs g) < reg_cap g)%nat) ->
  let g' := register_bind st g p circuit fresh_cookie now in
  registry_ok st g' /\ subs g' !! cookie p = Some (mkSub (reg_pk p) circuit now (epoch p)) /\
  forall c, c <> cookie p -> subs g' !! c = subs g !! c \/
    subs g' !! c = None /\ fresh_cookie = true /\ bound_on st g (link_of st circuit) c /\
    (reg_per_link_cap g <= reg_bucket_len g (link_of st circuit))%nat.
Proof.
  intros Hok Hfresh Hroom g'. unfold g', register_bind. destruct fresh_cookie.
  - destruct (make_room_for_link st g (link_of st circuit)) as [evicted g1] eqn:E.
    destruct (make_room_for_link_spec _ _ _ _ Hok E) as (Hok1 & Hcap & Hsz & Hsubs). specialize (Hroom eq_refl).
    set (g2 := if evicted then _ else _).
    assert (subs g2 = subs g1 /\ reg_cap g2 = reg_cap g1 /\ registry_ok st g2) as (Es & Ec & Hok2).
    { unfold g2. destruct evicted; [|done]. split_and!; [done..|]. by destruct Hok1. }
    rewrite reg_insert_subs, lookup_insert_eq, Es. split_and!; [|done|].
    + apply reg_insert_ok; [done|]. rewrite Es, Ec. lia.
    + intros c Hc. rewrite lookup_insert_ne by done. destruct (Hsubs c) as [?|(? & ? & ?)]; auto.
  - rewrite reg_insert_subs, lookup_insert_eq. split_and!; [|done|].
    + apply reg_insert_ok; [done|]. intros Hn%Hfresh. done.
    + intros c Hc. rewrite lookup_insert_ne by done. by left.
Qed.

End registry_laws.

(** Recording the cookie on a circuit changes no link. *)
Lemma link_of_alter st circuit c r :
  link_of (alter (fun s => set_registered_cookie s c) circuit st) r = link_of st r.
Proof.
  unfold link_of. destruct (decide (circuit = r)) as [->|]; [|by rewrite lookup_alter_ne].
  rewrite lookup_alter_eq. by destruct (st !! r).
Qed.

Lemma registry_ok_links st st' g : (forall r, link_of st' r = link_of st r) -> registry_ok st g -> registry_ok st' g.
Proof.
  intros Hl [Hi Hc]. split; [|done]. eapply indexes_iff; [|exact Hi]. intros l c. unfold bound_on. by setoid_rewrite Hl.
Qed.

Lemma register_check_fresh `{Ed25519} `{Blake3Kdf} g p fc : register_check g p = inr fc ->
  (fc = true <-> subs g !! cookie p = None) /\ (fc = true -> (size (subs g) < reg_cap g)%nat).
Proof.
  unfold register_check. repeat (destruct (negb _); [done|]).
  destruct (subs g !! cookie p) as [sub|].
  - destruct (negb _); [done|]. destruct (epoch p <=? sub_epoch sub); [done|]. by intros [= <-].
  - destruct (Nat.leb_spec (reg_cap g) (size (subs g))); [done|]. by intros [= <-].
Qed.

Lemma register_check_iff `{Ed25519} `{Blake3Kdf} g p :
  (exists fc, register_check g p = inr fc) <-> register_verify p = true /\ cookie p = cookie_for_reg_pk (reg_pk p) /\
     match subs g !! cookie p with
     | Some sub => sub_reg_pk sub = reg_pk p /\ sub_epoch sub < epoch p
     | None => (size (subs g) < reg_cap g)%nat
     end.
Proof.
  unfold register_check. destruct (register_verify p); cbn [negb]; [|naive_solver].
  case_bool_decide as Hck; cbn [negb]; [|naive_solver]. destruct (subs g !! cookie p) as [sub|].
  - case_bool_decide as Hpk; cbn [negb]; [|naive_solver]. destruct (Z.leb_spec (epoch p) (sub_epoch sub)); [|naive_solver].
    split; [by intros [? ?]|]. intros (_ & _ & _ & ?). lia.
  - destruct (Nat.leb_spec (reg_cap g) (size (subs g))); [|naive_solver]. split; [by intros [? ?]|]. lia.
Qed.

Lemma registration_spec `{Ed25519} `{Blake3Kdf} (st st' : gmap Ref CircuitState) (g g' : CircuitRendezvousRegistry)
    (p : CircuitRegisterPayload) (circuit : Ref) (now : Z) (res : RegisterError + unit)
    (Hok : registry_ok st g) (E : register st g p circuit now = (res, g', st')) :
  registry_ok st' g' /\
  (res = inr tt <-> register_verify p = true /\ cookie p = cookie_for_reg_pk (reg_pk p) /\
     match subs g !! cookie p with
     | Some sub => sub_reg_pk sub = reg_pk p /\ sub_epoch sub < epoch p
     | None => (size (subs g) < reg_cap g)%nat
     end) /\
  match res with
  | inl _ => g' = g /\ st' = st
  | inr _ =>
      reg_lookup g' (cookie p) = Some circuit /\
      forall c, c <> cookie p -> subs g' !! c = subs g !! c \/
        subs g' !! c = None /\ subs g !! cookie p = None /\ bound_on st g (link_of st circuit) c /\
        (reg_per_link_cap g <= reg_bucket_len g (link_of st circuit))%nat
  end.
Proof.
  unfold register in E.
  rewrite <- register_check_iff. destruct (register_check g p) as [e|fc] eqn:Ec; injection E as <- <- <-.
  - split_and!; [done| |done|done]. split; [done|by intros [? ?]].
  - destruct (register_check_fresh g p fc Ec) as [Hf Hr]. destruct (register_bind_spec st g p circuit fc now Hok Hf Hr) as (Hok' & Hs & Ho).
    split_and!; [|by split; [intros _; exists fc|]| |].
    + eapply registry_ok_links; [|exact Hok']. intros r. apply link_of_alter.
    + unfold reg_lookup. by rewrite Hs.
    + intros c Hc. destruct (Ho c Hc) as [?|(? & ?%Hf & ? & ?)]; auto.
Qed.


(** C40. The epoch of a registration is forgotten with its subscription.  Once the circuit that made it
    is torn down, the same signed bytes, replayed by anybody over a circuit of their own, are
    accepted again and the cookie leads to that circuit. *)
Theorem registration_replayed `{Ed25519} `{Blake3Kdf} (st st1 : gmap Ref CircuitState) (g g1 : CircuitRendezvousRegistry)
    (p : CircuitRegisterPayload) (c1 c2 : Ref) (now now' : Z)
    (Hok : registry_ok st g) (E : register st g p c1 now = (inr tt, g1, st1)) :
  exists g3 st3,
    register st1 (remove_if_current st1 g1 (cookie p) c1).2 p c2 now' = (inr tt, g3, st3) /\
    reg_lookup g3 (cookie p) = Some c2.
Proof.
  destruct (registration_spec _ _ _ _ _ _ _ _ Hok E) as (Hok1 & [Hacc _] & Hl & _). destruct (Hacc eq_refl) as (Hv & Hc & _).
  unfold remove_if_current. rewrite bool_decide_true by done. cbn [snd]. unfold reg_lookup in Hl.
  destruct (subs g1 !! cookie p) as [sub|] eqn:Es; [|done]. set (g2 := reg_remove st1 g1 (cookie p)).
  assert (subs g2 = delete (cookie p) (subs g1) /\ reg_cap g2 = reg_cap g1) as [E2 Ec2].
  { unfold g2, reg_remove. by rewrite Es. }
  assert (registry_ok st1 g2) as Hok2 by (by apply reg_remove_ok).
  destruct (register st1 g2 p c2 now') as [[res g3] st3] eqn:E3.
  destruct (registration_spec _ _ _ _ _ _ _ _ Hok2 E3) as (_ & [_ Hacc3] & Hres).
  assert (res = inr tt) as ->.
  { apply Hacc3. split_and!; [done..|]. rewrite E2, lookup_delete_eq, Ec2, map_size_delete, Es. unfold id.
    pose proof (rg_cap _ _ Hok1). assert (size (subs g1) <> 0)%nat; [|lia]. rewrite map_size_ne_0_lookup. by exists (cookie p), sub. }
  exists g3, st3. split; [done|apply Hres].
Qed.

(** The limit of a link does not hold.  A cookie bound over one link and registered again over
    another is moved without making room, so a link at its limit takes more, one cookie at a time. *)
Theorem link_cap_evaded `{Ed25519} `{Blake3Kdf} (st st' : gmap Ref CircuitState) (g g' : CircuitRendezvousRegistry)
    (p : CircuitRegisterPayload) (circuit : Ref) (sub : Subscription) (now : Z)
    (Hok : registry_ok st g) (E : register st g p circuit now = (inr tt, g', st'))
    (Hsub : subs g !! cookie p = Some sub) (Hmove : link_of st (sub_circuit sub) <> link_of st circuit)
    (Hfull : reg_bucket_len g (link_of st circuit) = reg_per_link_cap g) :
  reg_bucket_len g' (link_of st circuit) = S (reg_per_link_cap g').
Proof.
  unfold register in E. destruct (register_check g p) as [e|fc] eqn:Ec; [done|]. injection E as <- <-.
  destruct (register_check_fresh g p fc Ec) as [Hf _]. destruct fc; [by rewrite (proj1 Hf eq_refl) in Hsub|].
  unfold register_bind, reg_insert. cbn [sub_circuit]. rewrite Hsub, bool_decide_false by done.
  unfold reg_bucket_len in *; cbn. rewrite bucket_push_length, decide_True by done. f_equal. rewrite <- Hfull. f_equal.
  apply (bucket_unbucket (reg_per_link g) _ (cookie p)); [apply Hok|done].
Qed.

(** ** The codec of registrations *)

Record register_wf (p : CircuitRegisterPayload) : Prop := {
  rw_cookie : zlen (cookie p) = COOKIE_LEN;
  rw_pk : zlen (reg_pk p) = REG_PK_LEN;
  rw_epoch : is_u64 (epoch p);
  rw_sig : zlen (signature p) <= MAX_SIG_LEN
}.

Lemma register_decode_encode p : register_wf p -> register_decode (register_encode p) = Some p.
Proof.
  intros [Hc Hp He Hs]. destruct p as [ck pk ep sg]; cbn in *. unfold COOKIE_LEN, REG_PK_LEN, MAX_SIG_LEN in *.
  pose proof (zlen_nonneg sg). unfold register_encode, register_decode, COOKIE_LEN, REG_PK_LEN, MAX_SIG_LEN; cbn [cookie reg_pk epoch signature].
  set (b8 := be_bytes 8 ep). set (b2 := be_bytes 2 (wrap16 (zlen sg))).
  assert (zlen b8 = 8 /\ zlen b2 = 2) as [H8 H2] by (split; apply zlen_be_bytes).
  rewrite !zlen_app, Hc, Hp, H8, H2. rewrite range_here by done. rewrite (range_mid ck pk _ 16 (16 + 32)) by lia.
  replace (range (16 + 32) (16 + 32 + 8) (ck ++ pk ++ b8 ++ b2 ++ sg)) with b8.
  2:{ symmetry. rewrite (app_assoc ck). apply range_mid; [rewrite zlen_app|]; lia. }
  replace (range (16 + 32 + 8) (16 + 32 + 8 + 2) (ck ++ pk ++ b8 ++ b2 ++ sg)) with b2.
  2:{ symmetry. rewrite (app_assoc ck), (app_assoc (ck ++ pk)). apply range_mid; [rewrite !zlen_app|]; lia. }
  assert (from_be b2 = zlen sg) as -> by (apply be_bytes2_len; lia).
  assert (from_be b8 = ep) as -> by (apply from_be_bytes_id; unfold is_u64 in He; lia).
  destruct (Z.ltb_spec (16 + (32 + (8 + (2 + zlen sg)))) (16 + 32 + 8 + 2)); [lia|].
  destruct (Z.ltb_spec 128 (zlen sg)); [lia|].
  destruct (Z.eqb_spec (16 + (32 + (8 + (2 + zlen sg)))) (16 + 32 + 8 + 2 + zlen sg)); [|lia]. cbn. do 2 f_equal.
  rewrite (app_assoc ck), (app_assoc (ck ++ pk)), (app_assoc ((ck ++ pk) ++ b8)). apply range_tail; [rewrite !zlen_app|]; lia.
Qed.

Lemma register_encode_decode buf p : register_decode buf = Some p -> register_wf p /\ register_encode p = buf.
Proof.
  unfold register_decode, COOKIE_LEN, REG_PK_LEN, MAX_SIG_LEN. destruct (Z.ltb_spec (zlen buf) (16 + 32 + 8 + 2)); [done|].
  set (n := from_be (range (16 + 32 + 8) (16 + 32 + 8 + 2) buf)). assert (0 <= n) as Hn0 by apply from_be_range.
  destruct (Z.ltb_spec 128 n) as [|Hn]; [done|]. destruct (Z.eqb_spec (zlen buf) (16 + 32 + 8 + 2 + n)) as [Hl|]; [|done].
  cbn [orb negb]. intros [= <-]. split.
  - split; cbn; [by apply range_length; lia|by apply range_length; lia| |rewrite range_length by lia; unfold MAX_SIG_LEN; lia].
    pose proof (from_be_range (range (16 + 32) (16 + 32 + 8) buf)) as Hr. by rewrite range_length in Hr by lia.
  - unfold register_encode; cbn [cookie reg_pk epoch signature]. rewrite range_length by lia. unfold wrap16.
    rewrite Z.mod_small by lia. replace (16 + 32 + 8 + 2 + n - (16 + 32 + 8 + 2)) with n by lia. unfold n.
    pose proof (range_be buf (16 + 32) (16 + 32 + 8) ltac:(lia) ltac:(lia) : be_bytes 8 _ = _) as ->.
    pose proof (range_be buf (16 + 32 + 8) (16 + 32 + 8 + 2) ltac:(lia) ltac:(lia) : be_bytes 2 _ = _) as ->. fold n.
    rewrite <- (ztake_zdrop (16 + 32 + 8 + 2 + n) buf) at 6.
    rewrite (ztake_range (16 + 32 + 8 + 2) (16 + 32 + 8 + 2 + n)), (ztake_range (16 + 32 + 8) (16 + 32 + 8 + 2)),
      (ztake_range (16 + 32) (16 + 32 + 8)), (ztake_range 16 (16 + 32)) by lia. change (ztake 16 buf) with (range 0 16 buf).
    assert (zdrop (16 + 32 + 8 + 2 + n) buf = []) as ->.
    { apply nil_length_inv. pose proof (zlen_zdrop (16 + 32 + 8 + 2 + n) buf ltac:(lia)) as Hd. unfold zlen in *. lia. }
    by rewrite app_nil_r, <- !app_assoc.
Qed.

(** A registration decodes if and only if it is the encoding, to the last byte, of a payload with
    fields of their widths and a signature of at most 128 bytes. *)
Theorem register_payload_exact (buf : list byte) (p : CircuitRegisterPayload) :
  register_decode buf = Some p <-> register_wf p /\ register_encode p = buf.
Proof. split; [apply register_encode_decode|]. intros [? <-]. by apply register_decode_encode. Qed.

(** ** Registrations at a small relay *)

Module Demo.
Import Toy.
#[local] Existing Instance blake3_kdf_toy.

(** A verifier that accepts the signature of one byte. *)
#[local] Instance ed25519_demo : Ed25519 := fun _ _ sig => bool_decide (sig = [x01]).

Definition state_on (l : Link) (id : CircuitId) : CircuitState :=
  from_install (mkInstall id 0 (repeat x05 32) cell_legacy) l None 100.
(** Two circuits over one link and two over another. *)
Definition circuits : gmap Ref CircuitState :=
  <[1%positive := state_on [x01] 1]> (<[2%positive := state_on [x02] 2]> (<[3%positive := state_on [x01] 3]> ∅)).
Definition empty_registry : CircuitRendezvousRegistry := registry_with_link_cap 8 1 600.
Definition signed (pk : Key) (e : Z) : CircuitRegisterPayload := mkRegister (cookie_for_reg_pk pk) pk e [x01].
Definition alice : Key := repeat x0a 32.
Definition bob : Key := repeat x0b 32.

Definition registered (st : gmap Ref CircuitState) (g : CircuitRendezvousRegistry) (p : CircuitRegisterPayload) (c : Ref) :
    CircuitRendezvousRegistry * gmap Ref CircuitState :=
  let '(_, g, st) := register st g p c 100 in (g, st).

(** Alice's cookie over the first link, then Bob's over the second. *)
Definition after_alice := registered circuits empty_registry (signed alice 1) 1%positive.
Definition after_bob := registered after_alice.2 after_alice.1 (signed bob 1) 2%positive.
(** Bob's cookie again, over the first link. *)
Definition after_move := registered after_bob.2 after_bob.1 (signed bob 2) 3%positive.

Lemma alice_registers : register circuits empty_registry (signed alice 1) 1%positive 100 = (inr tt, after_alice.1, after_alice.2).
Proof. vm_compute. reflexivity. Qed.
Lemma bob_registers : register after_alice.2 after_alice.1 (signed bob 1) 2%positive 100 = (inr tt, after_bob.1, after_bob.2).
Proof. vm_compute. reflexivity. Qed.
Lemma bob_moves : register after_bob.2 after_bob.1 (signed bob 2) 3%positive 100 = (inr tt, after_move.1, after_move.2).
Proof. vm_compute. reflexivity. Qed.

Lemma empty_ok : registry_ok circuits empty_registry.
Proof. apply registry_with_link_cap_ok. Qed.
Lemma after_alice_ok : registry_ok after_alice.2 after_alice.1.
Proof. exact (proj1 (registration_spec _ _ _ _ _ _ _ _ empty_ok alice_registers)). Qed.
Lemma after_bob_ok : registry_ok after_bob.2 after_bob.1.
Proof. exact (proj1 (registration_spec _ _ _ _ _ _ _ _ after_alice_ok bob_registers)). Qed.


Lemma registration_replayed_witness :
  exists g3 st3,
    register after_alice.2 (remove_if_current after_alice.2 after_alice.1 (cookie (signed alice 1)) 1%positive).2 (signed alice 1) 2%positive 200
      = (inr tt, g3, st3) /\
    reg_lookup g3 (cookie (signed alice 1)) = Some 2%positive.
Proof.
  exact (registration_replayed circuits after_alice.2 empty_registry after_alice.1 (signed alice 1) 1%positive 2%positive 100 200
    empty_ok alice_registers).
Defined.

Lemma link_cap_evaded_witness : reg_bucket_len after_move.1 (link_of after_bob.2 3%positive) = S (reg_per_link_cap after_move.1).
Proof.
  apply (link_cap_evaded after_bob.2 after_move.2 after_bob.1 after_move.1 (signed bob 2) 3%positive (mkSub bob 2%positive 100 1) 100
    after_bob_ok bob_moves).
  - vm_compute. reflexivity.
  - vm_compute. intros E. discriminate E.
  - vm_compute. reflexivity.
Defined.

End Demo.
