(* ===== verification/ServiceBudget.v ===== *)
(** * The budget for serving others

    crates/veil-abuse/src/rate_limiter.rs, the token bucket, and
    crates/veil-dispatcher/src/service_budget.rs, the bytes per hour a node spends on others. *)

From S2P Require Import Prelude Float.

(** ** The token bucket: rate_limiter.rs *)

Record TokenBucket := mkBucket {
  tb_tokens : f64;
  tb_capacity : f64;
  tb_refill_rate : f64;
  tb_last_refill : Z
}.

#[export] Instance eta_TokenBucket : Settable TokenBucket := fun b =>
  mkBucket (tb_tokens b) (tb_capacity b) (tb_refill_rate b) (tb_last_refill b).

Definition token_bucket_new (capacity refill_rate : f64) (now : Z) : TokenBucket :=
  let capacity := if SFltb (f64_of 0) capacity then capacity else f64_of 1 in
  let refill_rate := if SFltb (f64_of 0) refill_rate then refill_rate else f64_of 1 in
  mkBucket capacity capacity refill_rate now.

Definition token_refill (b : TokenBucket) (now : Z) : TokenBucket :=
  let elapsed := as_secs_f64 (sat_sub now (tb_last_refill b)) in
  b <| tb_tokens := f64_min (f64_add (tb_tokens b) (f64_mul elapsed (tb_refill_rate b))) (tb_capacity b) |>
    <| tb_last_refill := now |>.

Definition allow_n_at (b : TokenBucket) (n : f64) (now : Z) : bool * TokenBucket :=
  let b := token_refill b now in
  if SFleb n (tb_tokens b) then (true, b <| tb_tokens := f64_sub (tb_tokens b) n |>) else (false, b).

Definition allow_at (b : TokenBucket) (now : Z) : bool * TokenBucket := allow_n_at b (f64_of 1) now.

Definition charge_at (b : TokenBucket) (n : f64) (now : Z) : TokenBucket :=
  let b := token_refill b now in
  b <| tb_tokens := f64_max (f64_sub (tb_tokens b) n) (f64_neg (tb_capacity b)) |>.

(** ** The budget: service_budget.rs *)

Definition BURST_FRACTION : f64 := f64_div (f64_of 1) (f64_of 4).
Definition DEFAULT_SERVICE_BYTES_PER_HOUR : Z := 8 * 1024 * 1024.

Record ServiceBudget := mkBudget {
  sb_bucket : TokenBucket;
  bytes_per_hour : Z;
  served_bytes : Z;
  refused_bytes : Z;
  refusals : Z
}.

#[export] Instance eta_ServiceBudget : Settable ServiceBudget := fun b =>
  mkBudget (sb_bucket b) (bytes_per_hour b) (served_bytes b) (refused_bytes b) (refusals b).

(** [f64::MIN_POSITIVE], 2^-1022. *)
Definition MIN_POSITIVE : f64 := binary_normalize 53 1024 1 (-1022) false.

Definition budget_new (bytes : Z) (now : Z) : ServiceBudget :=
  let per_sec := f64_div (f64_of bytes) (f64_of 3600) in
  let burst := f64_max (f64_mul (f64_of bytes) BURST_FRACTION) (f64_of 1) in
  mkBudget (token_bucket_new burst (f64_max per_sec MIN_POSITIVE) now) bytes 0 0 0.

Definition budget_unmetered (now : Z) : ServiceBudget :=
  mkBudget (token_bucket_new (f64_of 1) (f64_of 1) now) U64_MAX 0 0 0.

Definition is_unmetered (b : ServiceBudget) : bool := bytes_per_hour b =? U64_MAX.
Definition serves_nothing (b : ServiceBudget) : bool := bytes_per_hour b =? 0.

Definition refuse (b : ServiceBudget) (cost : Z) : ServiceBudget :=
  b <| refused_bytes := add64 (refused_bytes b) cost |> <| refusals := add64 (refusals b) 1 |>.

Definition try_serve_at (b : ServiceBudget) (cost : Z) (now : Z) : bool * ServiceBudget :=
  if is_unmetered b then (true, b <| served_bytes := add64 (served_bytes b) cost |>)
  else if bytes_per_hour b =? 0 then (false, refuse b cost)
  else
    let cost := Z.max cost 1 in
    let '(allowed, bucket) := allow_n_at (sb_bucket b) (f64_of cost) now in
    let b := b <| sb_bucket := bucket |> in
    if allowed then (true, b <| served_bytes := add64 (served_bytes b) cost |>) else (false, refuse b cost).

Definition note_served_at (b : ServiceBudget) (extra : Z) (now : Z) : ServiceBudget :=
  if extra =? 0 then b
  else
    let b := b <| served_bytes := add64 (served_bytes b) extra |> in
    if is_unmetered b || (bytes_per_hour b =? 0) then b
    else b <| sb_bucket := charge_at (sb_bucket b) (f64_of extra) now |>.
