(* ===== verification/Relay.v ===== *)
(** * A relay

    crates/veil-dispatcher/src/anonymity.rs, the circuit messages: a relay installs circuits, carries
    cells forward and back, splices streams at the terminus and takes circuits down; an originator
    opens what comes back.  crates/veil-node-runtime/src/runtime: the sealing of a cell the
    originator sends.  A handler returns the node and what it sends; [None] is a panic.  Counters and
    logs are left out, and the hand-over of opened payloads (stream sinks, introductions) is an
    output. *)

From S2P Require Import Prelude Crypto Onion CircuitData CircuitReplay CircuitSetup CircuitTable CircuitRegister.
From S2P Require Import Float ServiceBudget.

(** The circuit messages of [RelayChainMsg]. *)
Inductive RelayChainMsg := CircuitBuild | CircuitData | CircuitTeardown | CircuitBuilt | CircuitDatagram.

#[global] Instance RelayChainMsg_eq_dec : EqDecision RelayChainMsg.
Proof. solve_decision. Defined.

(** What a handler gives out.  The carrier of a send is one of the two flows of a circuit. *)
Inductive Output :=
| Send (to : Link) (msg : RelayChainMsg) (body : list byte) (carrier : option (Ref * bool))
| Stream (circuit_id : CircuitId) (opened : list byte)
| Introduce (opened : list byte) (link : Link) (reply : bool).

(** ** Recently seen keys: [ExpiryCache] of veil-dispatcher/src/lib.rs *)

(** The heap in order of expiry. *)
Record ExpiryCache := mkCache {
  ec_entries : gmap (list byte) Z;
  ec_heap : list (Z * list byte);
  ec_ttl : Z;
  ec_max_size : nat
}.

#[export] Instance eta_ExpiryCache : Settable ExpiryCache := fun c =>
  mkCache (ec_entries c) (ec_heap c) (ec_ttl c) (ec_max_size c).

Fixpoint expire (now : Z) (heap : list (Z * list byte)) (entries : gmap (list byte) Z) :
    list (Z * list byte) * gmap (list byte) Z :=
  match heap with
  | (expires_at, key) :: rest =>
      if expires_at <=? now then expire now rest (delete key entries) else (heap, entries)
  | [] => (heap, entries)
  end.

Fixpoint heap_insert (e : Z * list byte) (heap : list (Z * list byte)) : list (Z * list byte) :=
  match heap with
  | [] => [e]
  | x :: rest => if e.1 <? x.1 then e :: heap else x :: heap_insert e rest
  end.

Definition cache_check_and_insert (c : ExpiryCache) (key : list byte) (now : Z) : bool * ExpiryCache :=
  let '(heap, entries) := expire now (ec_heap c) (ec_entries c) in
  let c := c <| ec_heap := heap |> <| ec_entries := entries |> in
  if is_some (ec_entries c !! key) then (true, c)
  else
    let c :=
      match ec_heap c with
      | (_, oldest) :: rest =>
          if (ec_max_size c <=? size (ec_entries c))%nat
          then c <| ec_heap := rest |> <| ec_entries := delete oldest (ec_entries c) |> else c
      | [] => c
      end in
    let until := now + ec_ttl c in
    (false, c <| ec_entries := <[key := until]> (ec_entries c) |> <| ec_heap := heap_insert (until, key) (ec_heap c) |>).

(** ** The node *)

Record Relay := mkRelay {
  anonymity_x25519_sk : option Key;
  circuit_table : option CircuitTable;
  circuit_rendezvous : option CircuitRendezvousRegistry;
  circuit_origin : option OriginCircuitTable;
  origins : gmap Ref OriginCircuit;
  stream_recv : gset CircuitId;
  service_budget : ServiceBudget;
  circuit_introduce_seen : ExpiryCache
}.

#[export] Instance eta_Relay : Settable Relay := fun n =>
  mkRelay (anonymity_x25519_sk n) (circuit_table n) (circuit_rendezvous n) (circuit_origin n) (origins n)
    (stream_recv n) (service_budget n) (circuit_introduce_seen n).

(** The clocks a handler reads: seconds of the wall clock, and an instant. *)
Record Clock := mkClock { unix : Z; instant : Z }.

Section relay.
Context `{X25519} `{Aead} `{Blake3} `{Blake3Kdf} `{ChaCha20} `{Ed25519} {R : Type} `{Rng R}.

(** Whether the terminus may acknowledge, with the registry and the states after the registration
    the setup carried, if it carried one. *)
Definition terminus_register (reg : option CircuitRendezvousRegistry) (t : CircuitTable) (payload : list byte)
    (circuit : Ref) (now : Z) : bool * option CircuitRendezvousRegistry * CircuitTable :=
  match reg, register_decode payload with
  | Some g, Some p =>
      match register (states t) g p circuit now with
      | (inr _, g, st) => (true, Some g, t <| states := st |>)
      | (inl _, g, st) => (false, Some g, t <| states := st |>)
      end
  | _, _ => (true, reg, t)
  end.

Definition handle_circuit_build (n : Relay) (body : list byte) (link : Link) (now : Clock) : Relay * list Output :=
  match anonymity_x25519_sk n, circuit_table n with
  | Some sk, Some t =>
      match peel_circuit_setup body sk with
      | inl _ => (n, [])
      | inr (SetupForward install next_hop inner) =>
          let '(ok, budget) := try_serve_at (service_budget n) (zlen body) (instant now) in
          let n := n <| service_budget := budget |> in
          if negb ok then (n, [])
          else
            let '(res, t) := table_install t install link (Some next_hop) (unix now) in
            let n := n <| circuit_table := Some t |> in
            match res with
            | inl _ => (n, [])
            | inr _ => (n, [Send next_hop CircuitBuild inner None])
            end
      | inr (SetupTerminus install payload) =>
          let '(res, t) := table_install t install link None (unix now) in
          match res with
          | inl _ => (n <| circuit_table := Some t |>, [])
          | inr circuit =>
              let '(usable, reg, t) := terminus_register (circuit_rendezvous n) t payload circuit (unix now) in
              let n := n <| circuit_table := Some t |> <| circuit_rendezvous := reg |> in
              if usable then
                (n, [Send link CircuitBuilt
                       (built_encode (mkBuilt (in_circuit_id_in install) (circuit_built_token (in_circuit_key install)))) None])
              else (n, [])
          end
      end
  | _, _ => (n, [])
  end.

(** [splice_stream_cell]: bytes for the receiver behind [circuit], down its return path. *)
Definition splice_stream_cell (t : CircuitTable) (circuit : Ref) (bytes : list byte) (transport : RelayChainMsg) (r : R) :
    CircuitTable * R * list Output :=
  match states t !! circuit with
  | None => (t, r, [])
  | Some s =>
      match wrap_payload bytes (cell_bytes s) r with
      | (inl _, r) => (t, r, [])
      | (inr buf, r) =>
          match alloc_return_seq s with
          | (None, _) => (t, r, [])
          | (Some seq, s) =>
              let t := with_state t circuit (fun _ => s) in
              let buf := apply_layer (circuit_key s) Return seq buf in
              match data_encode (mkData (circuit_id_in s) seq buf) (cell_bytes s) with
              | inr body => (t, r, [Send (prev_link s) transport body (Some (circuit, false))])
              | inl _ => (t, r, [])
              end
          end
      end
  end.

(** A cell for the forward direction at the circuit [circuit] in state [s]. *)
Definition forward_cell (n : Relay) (t : CircuitTable) (circuit : Ref) (s : CircuitState) (cell : CircuitDataPayload)
    (transport : RelayChainMsg) (carrier : option Carrier) (now : Clock) (r : R) : option (Relay * R * list Output) :=
  match expect_cell cell (cell_bytes s) with
  | inl _ => Some (n, r, [])
  | inr _ =>
      '(fresh_, w) ← replay_accept (replay_fwd s) (data_seq cell);
      let s := s <| replay_fwd := w |> in
      if negb fresh_ then Some (n <| circuit_table := Some (with_state t circuit (fun _ => s)) |>, r, [])
      else
        let s := if decide (transport = CircuitDatagram) then observe_carrier s true (data_seq cell) carrier else s in
        let s := touch s (unix now) in
        let t := with_state t circuit (fun _ => s) in
        let n := n <| circuit_table := Some t |> in
        let buf := apply_layer (circuit_key s) Forward (data_seq cell) (data_ciphertext cell) in
        match next_link s with
        | Some nl =>
            match data_encode (mkData (circuit_id_out s) (data_seq cell) buf) (cell_bytes s) with
            | inr b =>
                Some (n <| service_budget := note_served_at (service_budget n) (zlen b) (instant now) |>, r,
                      [Send nl transport b (Some (circuit, true))])
            | inl _ => Some (n, r, [])
            end
        | None =>
            match read_payload buf, circuit_rendezvous n with
            | Some p, Some reg =>
                if is_heartbeat p then Some (n, r, [])
                else if COOKIE_LEN <=? zlen p then
                  match reg_lookup reg (ztake COOKIE_LEN p) with
                  | Some target =>
                      let '(t, r, out) := splice_stream_cell t target (zdrop COOKIE_LEN p) transport r in
                      Some (n <| circuit_table := Some t |>, r, out)
                  | None => Some (n, r, [])
                  end
                else Some (n, r, [])
            | _, _ => Some (n, r, [])
            end
        end
  end.

(** A cell for the return direction. *)
Definition return_cell (n : Relay) (t : CircuitTable) (circuit : Ref) (s : CircuitState) (cell : CircuitDataPayload)
    (transport : RelayChainMsg) (carrier : option Carrier) (now : Clock) : option (Relay * list Output) :=
  match expect_cell cell (cell_bytes s) with
  | inl _ => Some (n, [])
  | inr _ =>
      '(fresh_, w) ← replay_accept (replay_ret s) (data_seq cell);
      let s := s <| replay_ret := w |> in
      if negb fresh_ then Some (n <| circuit_table := Some (with_state t circuit (fun _ => s)) |>, [])
      else
        let s := if decide (transport = CircuitDatagram) then observe_carrier s false (data_seq cell) carrier else s in
        let s := touch s (unix now) in
        let n := n <| circuit_table := Some (with_state t circuit (fun _ => s)) |> in
        let buf := apply_layer (circuit_key s) Return (data_seq cell) (data_ciphertext cell) in
        match data_encode (mkData (circuit_id_in s) (data_seq cell) buf) (cell_bytes s) with
        | inr b =>
            Some (n <| service_budget := note_served_at (service_budget n) (zlen b) (instant now) |>,
                  [Send (prev_link s) transport b (Some (circuit, false))])
        | inl _ => Some (n, [])
        end
  end.

(** A cell that came back to its originator. *)
Definition origin_cell (n : Relay) (link : Link) (cell : CircuitDataPayload) (now : Clock) : Relay * list Output :=
  match (t ← circuit_origin n; origin_lookup t link (data_circuit_id cell)) with
  | None => (n, [])
  | Some o =>
      match origins n !! o with
      | None => (n, [])
      | Some c =>
          match expect_cell cell (origin_cell_bytes c) with
          | inl _ => (n, [])
          | inr _ =>
              match open_return c (data_seq cell) (data_ciphertext cell) with
              | inl _ => (n, [])
              | inr opened =>
                  let n := n <| origins := <[o := mark_returned c (unix now)]> (origins n) |> in
                  if bool_decide (data_circuit_id cell ∈ stream_recv n)
                  then (n, [Stream (data_circuit_id cell) opened])
                  else (n, [Introduce opened link (is_reply c)])
              end
          end
      end
  end.

Definition handle_circuit_data (n : Relay) (body : list byte) (link : Link) (transport : RelayChainMsg)
    (carrier : option Carrier) (now : Clock) (r : R) : option (Relay * R * list Output) :=
  match data_decode body with
  | inl _ => Some (n, r, [])
  | inr cell =>
      let at_fwd := t ← circuit_table n; c ← lookup_forward t link (data_circuit_id cell); s ← states t !! c; Some (t, c, s) in
      let at_bwd := t ← circuit_table n; c ← lookup_backward t link (data_circuit_id cell); s ← states t !! c; Some (t, c, s) in
      match at_fwd, at_bwd with
      | Some (t, c, s), _ => forward_cell n t c s cell transport carrier now r
      | None, Some (t, c, s) => '(n, out) ← return_cell n t c s cell transport carrier now; Some (n, r, out)
      | None, None => let '(n, out) := origin_cell n link cell now in Some (n, r, out)
      end
  end.

Definition handle_circuit_built (n : Relay) (body : list byte) (link : Link) : Relay * list Output :=
  match built_decode body with
  | inl _ => (n, [])
  | inr p =>
      match (t ← circuit_table n; c ← lookup_backward t link (built_circuit_id p); states t !! c) with
      | Some s => (n, [Send (prev_link s) CircuitBuilt (built_encode (mkBuilt (circuit_id_in s) (built_token p))) None])
      | None =>
          match (t ← circuit_origin n; o ← origin_lookup t link (built_circuit_id p); c ← origins n !! o; Some (o, c)) with
          | None => (n, [])
          | Some (o, c) =>
              match last (circuit_keys c) with
              | None => (n, [])
              | Some terminus_key =>
                  if negb (circuit_built_token_matches (circuit_built_token terminus_key) (built_token p)) then (n, [])
                  else (n <| origins := <[o := mark_confirmed c]> (origins n) |>, [])
              end
          end
      end
  end.

Definition handle_circuit_teardown (n : Relay) (body : list byte) (link : Link) : Relay * list Output :=
  match circuit_table n, teardown_decode body with
  | Some t, inr cid =>
      match (c ← lookup_forward t link cid; s ← states t !! c; Some (c, s)) with
      | Some (c, s) =>
          let reg :=
            match next_link s, circuit_rendezvous n, registered_cookie s with
            | None, Some g, Some cookie => Some (remove_if_current (states t) g cookie c).2
            | _, _, _ => circuit_rendezvous n
            end in
          let n := n <| circuit_rendezvous := reg |> <| circuit_table := Some (table_remove t link cid) |> in
          (n, match next_link s with
              | Some nl => [Send nl CircuitTeardown (teardown_encode (circuit_id_out s)) None]
              | None => []
              end)
      | None =>
          match (c ← lookup_backward t link cid; states t !! c) with
          | Some s =>
              (n <| circuit_table := Some (table_remove t (prev_link s) (circuit_id_in s)) |>,
               [Send (prev_link s) CircuitTeardown (teardown_encode (circuit_id_in s)) None])
          | None => (n, [])
          end
      end
  | _, _ => (n, [])
  end.

(** The circuit messages of [dispatch_relay_chain_with_carrier]. *)
Definition dispatch_circuit (n : Relay) (msg : RelayChainMsg) (body : list byte) (link : Link) (carrier : option Carrier)
    (now : Clock) (r : R) : option (Relay * R * list Output) :=
  match msg with
  | CircuitBuild => let '(n, out) := handle_circuit_build n body link now in Some (n, r, out)
  | CircuitData | CircuitDatagram => handle_circuit_data n body link msg carrier now r
  | CircuitTeardown => let '(n, out) := handle_circuit_teardown n body link in Some (n, r, out)
  | CircuitBuilt => let '(n, out) := handle_circuit_built n body link in Some (n, r, out)
  end.

(** ** Introductions through a circuit *)

Inductive CircuitIntroduceForward := NotCircuit | Forwarded | KnownButDropped.

(** [sent]: whether the session took the frame. *)
Definition try_forward_introduce_via_circuit (n : Relay) (auth_cookie ciphertext : list byte) (sent : bool)
    (now : Clock) (r : R) : CircuitIntroduceForward * Relay * R * list Output :=
  match (g ← circuit_rendezvous n; c ← reg_lookup g auth_cookie; t ← circuit_table n; s ← states t !! c; Some (t, c, s)) with
  | None => (NotCircuit, n, r, [])
  | Some (t, c, s) =>
      let fp := blake3 (auth_cookie ++ ciphertext) in
      let '(seen, cache) := cache_check_and_insert (circuit_introduce_seen n) fp (instant now) in
      let n := n <| circuit_introduce_seen := cache |> in
      if seen then (KnownButDropped, n, r, [])
      else
        match wrap_payload ciphertext (cell_bytes s) r with
        | (inl _, r) => (KnownButDropped, n, r, [])
        | (inr buf, r) =>
            match alloc_return_seq s with
            | (None, _) => (KnownButDropped, n, r, [])
            | (Some seq, s) =>
                let n := n <| circuit_table := Some (with_state t c (fun _ => s)) |> in
                let buf := apply_layer (circuit_key s) Return seq buf in
                match data_encode (mkData (circuit_id_in s) seq buf) (cell_bytes s) with
                | inr body =>
                    let s := if sent then mark_served s (unix now) else s in
                    (Forwarded, n <| circuit_table := Some (with_state t c (fun _ => s)) |>, r,
                     [Send (prev_link s) CircuitData body None])
                | inl _ => (KnownButDropped, n, r, [])
                end
            end
        end
  end.

(** ** The originator's cells *)

Record DataCircuit := mkDataCircuit {
  dc_first_hop : Link;
  dc_origin_circuit_id : CircuitId;
  dc_keys : list Key;
  dc_next_seq : Z;
  dc_cell_bytes : CircuitCellBytes
}.

(** [alloc_seq]: the next number, never wrapping. *)
Definition alloc_seq (c : DataCircuit) : option (Z * DataCircuit) :=
  if dc_next_seq c =? U32_MAX then None
  else Some (dc_next_seq c + 1,
             mkDataCircuit (dc_first_hop c) (dc_origin_circuit_id c) (dc_keys c) (dc_next_seq c + 1) (dc_cell_bytes c)).

Inductive DataCircuitSendError := SendPayloadTooLarge | NoRelays.

(** [encode] of [send_circuit_cell_with_transport]: frame, number, layer and encode a payload. *)
Definition seal_circuit_cell (c : DataCircuit) (payload : list byte) (r : R) :
    (DataCircuitSendError + list byte) * DataCircuit * R :=
  match wrap_payload payload (dc_cell_bytes c) r with
  | (inl _, r) => (inl SendPayloadTooLarge, c, r)
  | (inr buf, r) =>
      match alloc_seq c with
      | None => (inl NoRelays, c, r)
      | Some (seq, c) =>
          match apply_layers (dc_keys c) Forward seq buf with
          | inl _ => (inl NoRelays, c, r)
          | inr buf =>
              match data_encode (mkData (dc_origin_circuit_id c) seq buf) (dc_cell_bytes c) with
              | inl _ => (inl NoRelays, c, r)
              | inr b => (inr b, c, r)
              end
          end
      end
  end.

(** ** Opening a circuit

    [open_data_circuit] of node_services.rs, with the keys of the hops from the directory and a first
    hop that takes the setup: the handle and the setup it sends. *)
Definition open_data_circuit (n : Relay) (hops : list Hop) (terminus_payload : list byte) (now_unix : Z) (r : R) :
    option (option (DataCircuit * list byte) * Relay * R) :=
  match circuit_origin n with
  | None => Some (None, n, r)
  | Some origin_table =>
      '(built, r) ← build_origin_circuit hops choose_cell_bytes terminus_payload now_unix r;
      match built with
      | inl _ => Some (None, n, r)
      | inr (setup, origin) =>
          let circ := mkDataCircuit (first_hop origin) (origin_circuit_id origin) (circuit_keys origin) 0
                        (origin_cell_bytes origin) in
          let n := n <| stream_recv := {[ dc_origin_circuit_id circ ]} ∪ stream_recv n |> in
          let o := fresh (dom (origins n)) in
          let store := <[o := origin]> (origins n) in
          let '(ok, origin_table) := origin_insert store origin_table o in
          if ok then Some (Some (circ, setup), n <| origins := store |> <| circuit_origin := Some origin_table |>, r)
          else Some (None, n <| stream_recv := stream_recv n ∖ {[ dc_origin_circuit_id circ ]} |>, r)
      end
  end.

End relay.
