(* ===== verification/RelayInv.v ===== *)
(** * A relay stays consistent

    The invariant of the node of [Relay]: the circuit table and the rendezvous registry are
    consistent and every circuit state is well formed.  Every message, from whatever link and with
    whatever body, keeps it and is handled without a panic. *)

From S2P Require Import Prelude Crypto Onion CircuitData CircuitReplay CircuitSetup CircuitTable CircuitTableInv.
From S2P Require Import CircuitRegister Float ServiceBudget Relay.

Record state_ok (s : CircuitState) : Prop := {
  st_cell : is_cell_size (cell_bytes s);
  st_in : is_u32 (circuit_id_in s);
  st_out : is_u32 (circuit_id_out s);
  st_fwd : exists log, tracks (replay_fwd s) log;
  st_ret : exists log, tracks (replay_ret s) log;
  st_seq : 1 <= next_return_seq s <= U32_MAX
}.

Definition states_ok (st : gmap Ref CircuitState) : Prop := forall r s, st !! r = Some s -> state_ok s.

(** The registry refers to states there are. *)
Record reg_ok (st : gmap Ref CircuitState) (g : CircuitRendezvousRegistry) : Prop := {
  ro_ok : registry_ok st g;
  ro_refs : forall c sub, subs g !! c = Some sub -> is_Some (st !! sub_circuit sub)
}.

Definition states_of (n : Relay) : gmap Ref CircuitState := default ∅ (states <$> circuit_table n).

Record relay_ok (n : Relay) : Prop := {
  rl_table : forall t, circuit_table n = Some t -> table_ok t;
  rl_states : states_ok (states_of n);
  rl_reg : forall g, circuit_rendezvous n = Some g -> reg_ok (states_of n) g
}.

(** ** How the store of states may change

    No state disappears or moves to another link. *)

Definition evolves (st st' : gmap Ref CircuitState) : Prop :=
  forall r s, st !! r = Some s -> exists s', st' !! r = Some s' /\ prev_link s' = prev_link s.

Lemma evolves_refl st : evolves st st.
Proof. intros r s E. by exists s. Qed.

Lemma evolves_trans st1 st2 st3 : evolves st1 st2 -> evolves st2 st3 -> evolves st1 st3.
Proof.
  intros H1 H2 r s E. destruct (H1 r s E) as (s' & E' & El). destruct (H2 r s' E') as (s2 & E2 & El2).
  exists s2. split; [done|congruence].
Qed.

Lemma evolves_alter f r st : (forall s, prev_link (f s) = prev_link s) -> evolves st (alter f r st).
Proof.
  intros Hf r' s E. destruct (decide (r = r')) as [->|].
  - exists (f s). by rewrite lookup_alter_eq, E.
  - exists s. by rewrite lookup_alter_ne.
Qed.

Lemma evolves_insert r s st : st !! r = None -> evolves st (<[r := s]> st).
Proof. intros Hr r' s' E. exists s'. rewrite lookup_insert_ne by congruence. done. Qed.

Lemma reg_ok_evolves st st' g : evolves st st' -> reg_ok st g -> reg_ok st' g.
Proof.
  intros He [[Hi Hc] Hr].
  assert (forall c sub, subs g !! c = Some sub -> link_of st' (sub_circuit sub) = link_of st (sub_circuit sub)) as Hl.
  { intros c sub E. destruct (Hr c sub E) as [s Es]. destruct (He _ _ Es) as (s' & Es' & El).
    unfold link_of. rewrite Es, Es'. cbn. by rewrite El. }
  split; [split; [|done]|].
  - eapply indexes_iff; [|exact Hi]. intros l c. unfold bound_on. split; intros (sub & E & El); exists sub; (split; [done|]).
    + by rewrite (Hl c sub E).
    + by rewrite <- (Hl c sub E).
  - intros c sub E. destruct (Hr c sub E) as [s Es]. destruct (He _ _ Es) as (s' & Es' & _). by exists s'.
Qed.

Lemma states_ok_alter f r st : (forall s, state_ok s -> state_ok (f s)) -> states_ok st -> states_ok (alter f r st).
Proof.
  intros Hf Hst r' s E. apply lookup_alter_Some in E as [(<- & s0 & E & ->)|[_ E]]; [by apply Hf, (Hst r)|by apply (Hst r')].
Qed.

(** ** The table *)

(** What an operation of the table may do to the node: a consistent table, well-formed states, and
    a store that evolved. *)
Record table_step (t t' : CircuitTable) : Prop := {
  ts_ok : table_ok t';
  ts_states : states_ok (states t');
  ts_evolves : evolves (states t) (states t')
}.

Lemma retire_ok s : state_ok s -> state_ok (retire s).
Proof. by intros []. Qed.

Lemma detach_step t p c : table_ok t -> states_ok (states t) -> table_step t (detach t p c).
Proof.
  intros Ht Hs. destruct (fwd t !! (p, c)) as [r|] eqn:E.
  2:{ rewrite detach_absent by done. split; [done..|apply evolves_refl]. }
  destruct (ok_fwd t Ht _ _ E) as (s & Es & _). split; [by apply detach_ok|..];
    rewrite (detach_present _ _ _ _ _ (conj E Es : circuit_at t (p, c) r s)); cbn.
  - apply states_ok_alter; [apply retire_ok|done].
  - by apply evolves_alter.
Qed.

Lemma detach_all_step t keys : table_ok t -> states_ok (states t) -> table_step t (detach_all t keys).
Proof.
  revert t. induction keys as [|[p c] keys IH]; intros t Ht Hs; cbn [detach_all fold_left].
  - split; [done..|apply evolves_refl].
  - destruct (detach_step t p c Ht Hs) as [Ht1 Hs1 He1]. destruct (IH _ Ht1 Hs1) as [Ht2 Hs2 He2].
    split; [done..|]. by eapply evolves_trans.
Qed.

Lemma table_step_trans t1 t2 t3 : table_step t1 t2 -> table_step t2 t3 -> table_step t1 t3.
Proof. intros [_ _ He1] [Ht Hs He2]. split; [done..|]. by eapply evolves_trans. Qed.

Lemma reclaim_table_step t now : table_ok t -> states_ok (states t) -> table_step t (reclaim_table t now).
Proof.
  intros Ht Hs. unfold reclaim_table. pose proof (detach_all_step t (select t (idle t now) (entries t)) Ht Hs) as H1.
  case_match; [done|]. eapply table_step_trans; [exact H1|]. apply detach_all_step; apply H1.
Qed.

Lemma reclaim_bucket_step t prev now : table_ok t -> states_ok (states t) -> table_step t (reclaim_bucket t prev now).
Proof.
  intros Ht Hs. unfold reclaim_bucket. destruct (per_link t !! prev) as [ids|]; [|split; [done..|apply evolves_refl]].
  pose proof (detach_all_step t (select t (idle t now) (pair prev <$> ids)) Ht Hs) as H1.
  case_match; [done|]. case_match; [|done]. eapply table_step_trans; [exact H1|]. apply detach_all_step; apply H1.
Qed.

Record install_ok (i : CircuitInstall) : Prop := {
  io_in : is_u32 (in_circuit_id_in i);
  io_out : is_u32 (in_circuit_id_out i);
  io_cell : is_cell_size (in_cell_bytes i)
}.

Lemma from_install_ok i prev next now : install_ok i -> state_ok (from_install i prev next now).
Proof.
  intros [Hi Ho Hc]. split; cbn; [done..| | |unfold U32_MAX; lia]; exists []; apply tracks_new.
Qed.

Lemma table_install_step t i prev next now res t' : table_ok t -> states_ok (states t) -> install_ok i ->
  table_install t i prev next now = (res, t') -> table_step t t'.
Proof.
  intros Ht Hs Hi E. destruct (table_install_spec t t' i prev next now res Ht E) as (Ht' & _).
  unfold table_install in E. destruct (is_some _); [injection E as <- <-; split; [done..|apply evolves_refl]|].
  set (t1 := if (max_total t <=? size (fwd t))%nat then _ else _) in E.
  assert (table_step t t1) as H1.
  { unfold t1. destruct (_ <=? _)%nat; [by apply reclaim_table_step|split; [done..|apply evolves_refl]]. }
  destruct (max_total t1 <=? _)%nat; [by injection E as <- <-|].
  set (t2 := if (max_per_link t1 <=? bucket_len t1 prev)%nat then _ else _) in E.
  assert (table_step t t2) as H2.
  { unfold t2. destruct (_ <=? bucket_len t1 prev)%nat; [|done]. eapply table_step_trans; [exact H1|]. apply reclaim_bucket_step; apply H1. }
  destruct (max_per_link t2 <=? _)%nat; [by injection E as <- <-|].
  destruct (is_some_and next _); [by injection E as <- <-|].
  destruct (insert_state t2 _) as [r t3] eqn:Ei. injection E as <- <-.
  assert (states t2 !! r = None /\ states t3 = <[r := from_install i prev next now]> (states t2)) as [Hr Es].
  { unfold insert_state in Ei. assert (states t2 !! fresh (dom (states t2)) = None) by apply not_elem_of_dom, is_fresh.
    cbn in Ei. destruct next; by injection Ei as <- <-. }
  split; [done| |].
  - rewrite Es. intros r' s' [[<- <-]|[_ E']]%lookup_insert_Some; [by apply from_install_ok|by apply (ts_states _ _ H2 r')].
  - rewrite Es. eapply evolves_trans; [apply H2|]. by apply evolves_insert.
Qed.

(** Replacing a state by one of the same circuit. *)
Lemma with_state_step t r s s' : table_ok t -> states_ok (states t) -> states t !! r = Some s ->
  same_circuit s s' -> state_ok s' -> table_step t (with_state t r (fun _ => s')).
Proof.
  intros Ht Hs Es Hsame Hok. split; [| |].
  - apply with_state_ok; [|done]. intros s0 E0. by assert (s0 = s) as -> by congruence.
  - intros r' s0 E0. cbn in E0. apply lookup_alter_Some in E0 as [(<- & _ & _ & ->)|[_ E0]]; [done|by apply (Hs r')].
  - intros r' s0 E0. cbn. destruct (decide (r = r')) as [->|].
    + exists s'. rewrite lookup_alter_eq, E0. split; [done|]. assert (s0 = s) as -> by congruence. apply Hsame.
    + exists s0. by rewrite lookup_alter_ne.
Qed.

(** ** The node *)

Lemma relay_table_ok n t t' : relay_ok n -> circuit_table n = Some t -> table_step t t' ->
  relay_ok (n <| circuit_table := Some t' |>).
Proof.
  intros [Ht Hs Hg] E [Ht' Hs' He]. assert (states_of n = states t) as Est by (unfold states_of; by rewrite E).
  split; cbn.
  - by intros ? [= <-].
  - done.
  - intros g Eg. change (reg_ok (states t') g). eapply reg_ok_evolves; [exact He|]. rewrite <- Est. by apply Hg.
Qed.

Lemma relay_budget_ok n b : relay_ok n -> relay_ok (n <| service_budget := b |>).
Proof. by intros []. Qed.

Lemma relay_origins_ok n o : relay_ok n -> relay_ok (n <| origins := o |>).
Proof. by intros []. Qed.

Lemma relay_table n t : relay_ok n -> circuit_table n = Some t -> table_ok t /\ states_ok (states t).
Proof.
  intros [Ht Hs _] E. split; [by apply Ht|]. unfold states_of in Hs. by rewrite E in Hs.
Qed.

Section handlers.
Context `{X25519} `{Aead} `{Blake3} `{Blake3Kdf} `{ChaCha20} `{Ed25519} {R : Type} `{Rng R}.

Lemma range_u32 l a : 0 <= a -> a + 4 <= zlen l -> is_u32 (from_be (range a (a + 4) l)).
Proof.
  intros Ha Hl. pose proof (from_be_range (range a (a + 4) l)) as Hr. rewrite range_length in Hr by lia.
  replace (a + 4 - a) with 4 in Hr by lia. done.
Qed.

(** Whatever the envelope was, what is peeled is well formed. *)
Lemma peel_setup_typed env sk res : peel_circuit_setup env sk = inr res ->
  match res with SetupForward i _ _ | SetupTerminus i _ => install_ok i end.
Proof.
  unfold peel_circuit_setup. destruct (unwrap_at_hop env sk) as [|l]; [done|]. cbn [map_err mbind result_bind].
  destruct (Z.ltb_spec (zlen l) SETUP_PREFIX_LEN) as [|Hl]; [done|]. destruct (_ =? 0); [done|]. destruct (_ <? _); [done|].
  set (n := from_be _). destruct (cell_bytes_new_spec n) as [[-> Hn]|[-> _]]; [|done]. cbn [mbind result_bind].
  unfold SETUP_PREFIX_LEN, TTL_PREFIX_LEN, NEXT_HOP_ID_LEN, CID_LEN, CIRCUIT_KEY_LEN, CELL_BYTES_LEN in *.
  case_bool_decide; intros [= <-]; (split; cbn; [apply range_u32; lia|apply range_u32; lia|done]).
Qed.

Lemma reg_bind_refs st g p circuit now res g' st' : reg_ok st g -> is_Some (st !! circuit) ->
  register st g p circuit now = (res, g', st') -> reg_ok st' g' /\ st' = st \/
  reg_ok st' g' /\ st' = alter (fun s => set_registered_cookie s (cookie p)) circuit st.
Proof.
  intros [Hok Hrefs] [s Es] E. destruct (registration_spec _ _ _ _ _ _ _ _ Hok E) as (Hok' & _ & Hres).
  destruct res as [e|[]]; [destruct Hres as [-> ->]; left; done|right].
  assert (st' = alter (fun s => set_registered_cookie s (cookie p)) circuit st) as Est.
  { unfold register in E. destruct (register_check g p); [done|]. by injection E as _ <-. }
  split; [|done]. split; [done|]. intros c sub Ec.
  assert (is_Some (st !! sub_circuit sub)) as [s0 Es0].
  { destruct Hres as [Hl Ho]. destruct (decide (c = cookie p)) as [->|Hc].
    - unfold reg_lookup in Hl. rewrite Ec in Hl. injection Hl as ->. by exists s.
    - destruct (Ho c Hc) as [Eq|(Eq & _)]; rewrite Eq in Ec; [by apply (Hrefs c)|done]. }
  subst st'. destruct (decide (circuit = sub_circuit sub)) as [->|]; [rewrite lookup_alter_eq|rewrite lookup_alter_ne by done];
    rewrite Es0; by eexists.
Qed.

Lemma terminus_register_ok n t payload circuit now usable reg t' : relay_ok n -> circuit_table n = Some t ->
  is_Some (states t !! circuit) -> terminus_register (circuit_rendezvous n) t payload circuit now = (usable, reg, t') ->
  relay_ok (n <| circuit_table := Some t' |> <| circuit_rendezvous := reg |>).
Proof.
  intros Hn Et Hc E. destruct (relay_table n t Hn Et) as [Ht Hs]. unfold terminus_register in E.
  assert (forall g', (forall g, g' = Some g -> reg_ok (states t) g) ->
            relay_ok (n <| circuit_table := Some t |> <| circuit_rendezvous := g' |>)) as Hsame.
  { intros g' Hg'. split; cbn; [by intros ? [= <-]|done|exact Hg']. }
  assert (forall g, circuit_rendezvous n = Some g -> reg_ok (states t) g) as Hg.
  { intros g Eg. pose proof (rl_reg _ Hn g Eg) as H'. unfold states_of in H'. by rewrite Et in H'. }
  destruct (circuit_rendezvous n) as [g|] eqn:Eg; [|injection E as <- <- <-; by apply Hsame].
  destruct (register_decode payload) as [p|]; [|injection E as <- <- <-; by apply Hsame].
  destruct (register (states t) g p circuit now) as [[res g'] st'] eqn:Er.
  assert (relay_ok (n <| circuit_table := Some (t <| states := st' |>) |> <| circuit_rendezvous := Some g' |>)) as Hok.
  { destruct (reg_bind_refs (states t) g p circuit now res g' st' (Hg g eq_refl) Hc Er) as [[Hr ->]|[Hr ->]].
    - replace (t <| states := states t |>) with t by (by destruct t). apply (Hsame (Some g')). by intros ? [= <-].
    - split; cbn; [intros ? [= <-]; by apply with_state_ok| |by intros ? [= <-]].
      apply states_ok_alter; [by intros s0 []|done]. }
  destruct res; injection E as <- <- <-; exact Hok.
Qed.

Lemma handle_build_ok n body link now n' out : relay_ok n -> handle_circuit_build n body link now = (n', out) -> relay_ok n'.
Proof.
  intros Hn E. unfold handle_circuit_build in E.
  destruct (anonymity_x25519_sk n) as [sk|]; [|by injection E as <- <-].
  destruct (circuit_table n) as [t|] eqn:Et; [|by injection E as <- <-].
  destruct (relay_table n t Hn Et) as [Ht Hs].
  destruct (peel_circuit_setup body sk) as [|[i next inner|i payload]] eqn:Ep; [by injection E as <- <-|..];
    pose proof (peel_setup_typed _ _ _ Ep) as Hi; cbn in Hi.
  - destruct (try_serve_at _ _ _) as [ok b]. destruct ok; cbn [negb] in E; [|injection E as <- <-; by apply relay_budget_ok].
    destruct (table_install t i link (Some next) (unix now)) as [res t'] eqn:Ei.
    assert (table_step t t') as Hstep by (by eapply table_install_step).
    assert (relay_ok (n <| service_budget := b |> <| circuit_table := Some t' |>)) as Hok.
    { eapply relay_table_ok; [by apply relay_budget_ok|exact Et|done]. }
    destruct res; injection E as <- <-; exact Hok.
  - destruct (table_install t i link None (unix now)) as [res t'] eqn:Ei.
    assert (table_step t t') as Hstep by (by eapply table_install_step).
    assert (relay_ok (n <| circuit_table := Some t' |>)) as Hok by (by eapply relay_table_ok).
    destruct res as [e|c]; [by injection E as <- <-|].
    assert (is_Some (states t' !! c)) as Hc.
    { destruct (table_install_spec t t' i link None (unix now) (inr c) Ht Ei) as (_ & _ & _ & _ & (_ & Es) & _). by eexists. }
    destruct (terminus_register (circuit_rendezvous n) t' payload c (unix now)) as [[usable reg] t2] eqn:Er.
    pose proof (terminus_register_ok (n <| circuit_table := Some t' |>) t' payload c (unix now) usable reg t2 Hok eq_refl Hc Er) as Hok2.
    destruct usable; injection E as <- <-; exact Hok2.
Qed.

Lemma splice_step t circuit bytes transport (r : R) t' r' out : table_ok t -> states_ok (states t) ->
  splice_stream_cell t circuit bytes transport r = (t', r', out) -> table_step t t'.
Proof.
  intros Ht Hs E. unfold splice_stream_cell in E. assert (table_step t t) as Hr by (split; [done..|apply evolves_refl]).
  destruct (states t !! circuit) as [s|] eqn:Es; [|by injection E as <- <- <-].
  destruct (wrap_payload bytes (cell_bytes s) r) as [[|buf] r1]; [by injection E as <- <- <-|].
  unfold alloc_return_seq in E. destruct (Z.eqb_spec (next_return_seq s) U32_MAX) as [|Hne]; [by injection E as <- <- <-|].
  assert (table_step t (with_state t circuit (fun _ => s <| next_return_seq := next_return_seq s + 1 |>))) as Hst.
  { eapply with_state_step; [done|done|exact Es|done|]. destruct (Hs _ _ Es) as [? ? ? ? ? Hq]. split; cbn; [done..|lia]. }
  destruct (data_encode _ _); by injection E as <- <- <-.
Qed.

(** The window of a well-formed state answers, and the state stays well formed. *)
Lemma replay_some w seq : (exists log, tracks w log) -> 0 <= seq ->
  exists b w', replay_accept w seq = Some (b, w') /\ exists log, tracks w' log.
Proof.
  intros [log Hw] Hs. destruct (replay_accept_tracks w log seq Hw Hs) as (w' & E & Hw'). eexists _, _. split; [exact E|eauto].
Qed.

Lemma observe_ok s b q c : state_ok s -> state_ok (observe_carrier s b q c).
Proof. intros []. by destruct b. Qed.

Lemma observe_same s b q c : same_circuit s (observe_carrier s b q c).
Proof. by destruct b. Qed.

Lemma forward_cell_ok n t c s cell transport carrier now (r : R) : relay_ok n -> circuit_table n = Some t ->
  states t !! c = Some s -> 0 <= data_seq cell ->
  exists n' r' out, forward_cell n t c s cell transport carrier now r = Some (n', r', out) /\ relay_ok n'.
Proof.
  intros Hn Et Es Hq. destruct (relay_table n t Hn Et) as [Ht Hs]. destruct (Hs c s Es) as [Sc Si So Sf Sr Sq].
  unfold forward_cell. destruct (expect_cell cell (cell_bytes s)); [by eexists _, _, _|].
  destruct (replay_some (replay_fwd s) (data_seq cell) Sf Hq) as (b & w & -> & Hw). cbn [mbind option_bind].
  set (s1 := s <| replay_fwd := w |>). assert (state_ok s1) as Hs1 by (by split).
  destruct b; cbn [negb].
  2:{ eexists _, _, _. split; [done|]. eapply relay_table_ok; [done|exact Et|]. by eapply with_state_step. }
  set (s2 := touch _ _). set (t2 := with_state t c (fun _ => s2)).
  assert (table_step t t2) as Hst.
  { eapply with_state_step; [done|done|exact Es|..]; unfold s2; case_decide; done. }
  assert (relay_ok (n <| circuit_table := Some t2 |>)) as Hn2 by (by eapply relay_table_ok).
  destruct (next_link s2) as [nl|].
  - destruct (data_encode _ _); eexists _, _, _; (split; [done|]); [done|by apply relay_budget_ok].
  - destruct (read_payload _) as [p|]; [|by eexists _, _, _]. cbn [circuit_rendezvous set_field].
    destruct (circuit_rendezvous n) as [reg|]; [|by eexists _, _, _].
    destruct (is_heartbeat p); [by eexists _, _, _|]. destruct (_ <=? _); [|by eexists _, _, _].
    destruct (reg_lookup reg _) as [target|]; [|by eexists _, _, _].
    destruct (splice_stream_cell t2 target _ transport r) as [[t3 r3] out] eqn:Esp. eexists _, _, _. split; [done|].
    eapply relay_table_ok; [exact Hn2|done|]. eapply splice_step; [apply Hst|apply Hst|exact Esp].
Qed.

Lemma return_cell_ok n t c s cell transport carrier now : relay_ok n -> circuit_table n = Some t ->
  states t !! c = Some s -> 0 <= data_seq cell ->
  exists n' out, return_cell n t c s cell transport carrier now = Some (n', out) /\ relay_ok n'.
Proof.
  intros Hn Et Es Hq. destruct (relay_table n t Hn Et) as [Ht Hs]. destruct (Hs c s Es) as [Sc Si So Sf Sr Sq].
  unfold return_cell. destruct (expect_cell cell (cell_bytes s)); [by eexists _, _|].
  destruct (replay_some (replay_ret s) (data_seq cell) Sr Hq) as (b & w & -> & Hw). cbn [mbind option_bind].
  set (s1 := s <| replay_ret := w |>). assert (state_ok s1) as Hs1 by (by split).
  destruct b; cbn [negb].
  2:{ eexists _, _. split; [done|]. eapply relay_table_ok; [done|exact Et|]. by eapply with_state_step. }
  set (s2 := touch _ _). set (t2 := with_state t c (fun _ => s2)).
  assert (table_step t t2) as Hst.
  { eapply with_state_step; [done|done|exact Es|..]; unfold s2; case_decide; done. }
  assert (relay_ok (n <| circuit_table := Some t2 |>)) as Hn2 by (by eapply relay_table_ok).
  destruct (data_encode _ _); eexists _, _; (split; [done|]); [done|by apply relay_budget_ok].
Qed.

Lemma origin_cell_ok n link cell now : relay_ok n -> relay_ok (origin_cell n link cell now).1.
Proof.
  intros Hn. unfold origin_cell. repeat case_match; try done; by apply relay_origins_ok.
Qed.

Lemma handle_built_ok n body link : relay_ok n -> relay_ok (handle_circuit_built n body link).1.
Proof.
  intros Hn. unfold handle_circuit_built. repeat case_match; try done; by apply relay_origins_ok.
Qed.

Lemma reg_remove_refs st g c : reg_ok st g -> reg_ok st (reg_remove st g c).
Proof.
  intros [Hok Hr]. split; [by apply reg_remove_ok|]. intros c' sub. rewrite reg_remove_subs. case_decide; [done|]. apply Hr.
Qed.

Lemma remove_if_current_refs st g c r : reg_ok st g -> reg_ok st (remove_if_current st g c r).2.
Proof. intros Hg. unfold remove_if_current. case_bool_decide; [by apply reg_remove_refs|done]. Qed.

Lemma relay_reg n t g : relay_ok n -> circuit_table n = Some t -> circuit_rendezvous n = Some g -> reg_ok (states t) g.
Proof. intros Hn Et Eg. pose proof (rl_reg _ Hn g Eg) as H'. unfold states_of in H'. by rewrite Et in H'. Qed.

Lemma relay_reg_ok n t reg : relay_ok n -> circuit_table n = Some t -> (forall g, reg = Some g -> reg_ok (states t) g) ->
  relay_ok (n <| circuit_rendezvous := reg |>).
Proof.
  intros [Ht Hs Hg] Et Hreg. split; cbn; [done..|]. intros g Eg. unfold states_of; cbn. rewrite Et. by apply Hreg.
Qed.

Lemma handle_teardown_ok n body link : relay_ok n -> relay_ok (handle_circuit_teardown n body link).1.
Proof.
  intros Hn. unfold handle_circuit_teardown. destruct (circuit_table n) as [t|] eqn:Et; [|done].
  destruct (relay_table n t Hn Et) as [Ht Hs]. destruct (teardown_decode body) as [|cid]; [done|].
  destruct (mbind _ (lookup_forward t link cid)) as [[c s]|] eqn:Ef; cbn [fst].
  - set (reg := match next_link s with None => _ | _ => _ end).
    assert (relay_ok (n <| circuit_rendezvous := reg |>)) as Hn1.
    { eapply relay_reg_ok; [done|exact Et|]. intros g Eg. unfold reg in Eg.
      assert (forall g0, circuit_rendezvous n = Some g0 -> reg_ok (states t) g0) as Hg0 by (intros; by eapply relay_reg).
      destruct (next_link s); [by apply Hg0|]. destruct (circuit_rendezvous n) as [g0|]; [|done].
      destruct (registered_cookie s); [|by apply Hg0]. injection Eg as <-. by apply remove_if_current_refs, Hg0. }
    eapply relay_table_ok; [exact Hn1|exact Et|by apply detach_step].
  - destruct (mbind _ (lookup_backward t link cid)) as [s|]; [|done]. cbn [fst].
    eapply relay_table_ok; [done|exact Et|by apply detach_step].
Qed.

Lemma data_seq_nonneg body cell : data_decode body = inr cell -> 0 <= data_seq cell.
Proof. by intros ((_ & (? & _) & _) & _)%data_encode_decode. Qed.

Lemma handle_data_ok n body link transport carrier now (r : R) : relay_ok n ->
  exists n' r' out, handle_circuit_data n body link transport carrier now r = Some (n', r', out) /\ relay_ok n'.
Proof.
  intros Hn. unfold handle_circuit_data. destruct (data_decode body) as [|cell] eqn:Ed; [by eexists _, _, _|].
  apply data_seq_nonneg in Ed as Hq. destruct (circuit_table n) as [t|] eqn:Et; cbn [mbind option_bind].
  - destruct (lookup_forward t link (data_circuit_id cell)) as [c|] eqn:Ef; cbn [mbind option_bind];
      [destruct (states t !! c) as [s|] eqn:Es; cbn [mbind option_bind]; [by apply forward_cell_ok|]|];
    (destruct (lookup_backward t link (data_circuit_id cell)) as [c'|] eqn:Eb; cbn [mbind option_bind];
      [destruct (states t !! c') as [s'|] eqn:Es'; cbn [mbind option_bind];
        [destruct (return_cell_ok n t c' s' cell transport carrier now Hn Et Es' Hq) as (n' & out & -> & ?); by eexists _, _, _|]|]);
    pose proof (origin_cell_ok n link cell now Hn); destruct (origin_cell n link cell now); by eexists _, _, _.
  - pose proof (origin_cell_ok n link cell now Hn). destruct (origin_cell n link cell now). by eexists _, _, _.
Qed.

Lemma dispatch_ok n msg body link carrier now (r : R) : relay_ok n ->
  exists n' r' out, dispatch_circuit n msg body link carrier now r = Some (n', r', out) /\ relay_ok n'.
Proof.
  intros Hn. destruct msg; cbn [dispatch_circuit].
  - destruct (handle_circuit_build n body link now) as [n' out] eqn:E. eexists _, _, _. split; [done|]. by eapply handle_build_ok.
  - by apply handle_data_ok.
  - pose proof (handle_teardown_ok n body link Hn). destruct (handle_circuit_teardown n body link). by eexists _, _, _.
  - pose proof (handle_built_ok n body link Hn). destruct (handle_circuit_built n body link). by eexists _, _, _.
  - by apply handle_data_ok.
Qed.

Lemma introduce_ok n ck ct sent now (r : R) f n' r' out : relay_ok n ->
  try_forward_introduce_via_circuit n ck ct sent now r = (f, n', r', out) -> relay_ok n'.
Proof.
  intros Hn E. unfold try_forward_introduce_via_circuit in E.
  destruct (circuit_rendezvous n) as [g|] eqn:Eg; cbn [mbind option_bind] in E; [|by simplify_eq].
  destruct (reg_lookup g ck) as [c|]; cbn [mbind option_bind] in E; [|by simplify_eq].
  destruct (circuit_table n) as [t|] eqn:Et; cbn [mbind option_bind] in E; [|by simplify_eq].
  destruct (states t !! c) as [s|] eqn:Es; cbn [mbind option_bind] in E; [|by simplify_eq].
  destruct (cache_check_and_insert _ _ _) as [seen cache].
  assert (relay_ok (n <| circuit_introduce_seen := cache |>)) as Hn1 by (by destruct Hn).
  destruct seen; [by simplify_eq|]. destruct (wrap_payload ct (cell_bytes s) r) as [[|buf] r1]; [by simplify_eq|].
  unfold alloc_return_seq in E. destruct (Z.eqb_spec (next_return_seq s) U32_MAX) as [|Hne]; [by simplify_eq|].
  destruct (relay_table n t Hn Et) as [Ht Hs]. destruct (Hs _ _ Es) as [Sc Si So Sf Sr Sq].
  set (s1 := s <| next_return_seq := next_return_seq s + 1 |>) in E.
  assert (state_ok s1) as Hs1 by (split; cbn; [done..|lia]).
  assert (forall s2, same_circuit s s2 -> state_ok s2 ->
    relay_ok (n <| circuit_introduce_seen := cache |> <| circuit_table := Some (with_state t c (fun _ => s2)) |>)) as Hset.
  { intros s2 Hsame Hok. eapply relay_table_ok; [exact Hn1|exact Et|]. by eapply with_state_step. }
  destruct (data_encode _ _); [simplify_eq; by apply Hset|]. injection E as _ <- _ _.
  apply Hset; [by destruct sent|]. destruct sent; [|done]. by destruct Hs1.
Qed.

(** ** Runs *)

Inductive RelayEvent :=
| Message (msg : RelayChainMsg) (body : list byte) (link : Link) (carrier : option Carrier) (now : Clock)
| Introduction (auth_cookie ciphertext : list byte) (sent : bool) (now : Clock)
| SweepTable (now_unix : Z)
| SweepRegistry (now_unix : Z).

Definition relay_step (n : Relay) (e : RelayEvent) (r : R) : option (Relay * R * list Output) :=
  match e with
  | Message msg body link carrier now => dispatch_circuit n msg body link carrier now r
  | Introduction ck ct sent now =>
      let '(_, n, r, out) := try_forward_introduce_via_circuit n ck ct sent now r in Some (n, r, out)
  | SweepTable now => Some (n <| circuit_table := (fun t => (table_gc t now).2) <$> circuit_table n |>, r, [])
  | SweepRegistry now =>
      Some (n <| circuit_rendezvous := (fun g => (reg_gc (states_of n) g now).2) <$> circuit_rendezvous n |>, r, [])
  end.

Fixpoint relay_run (n : Relay) (es : list RelayEvent) (r : R) : option (Relay * R * list Output) :=
  match es with
  | [] => Some (n, r, [])
  | e :: es =>
      '(n, r, out) ← relay_step n e r;
      '(n, r, outs) ← relay_run n es r;
      Some (n, r, out ++ outs)
  end.

Lemma reg_gc_refs st g now : reg_ok st g -> reg_ok st (reg_gc st g now).2.
Proof.
  intros Hg. unfold reg_gc; cbn. generalize (map_to_list (filter (fun e => expired st g now e.2 = true) (subs g))).*1 as l.
  intros l. revert g Hg. induction l as [|c l IH]; intros g Hg; cbn; [done|]. by apply IH, reg_remove_refs.
Qed.

Lemma relay_step_ok n e (r : R) : relay_ok n -> exists n' r' out, relay_step n e r = Some (n', r', out) /\ relay_ok n'.
Proof.
  intros Hn. destruct e as [msg body link carrier now|ck ct sent now|now|now]; cbn [relay_step].
  - by apply dispatch_ok.
  - destruct (try_forward_introduce_via_circuit n ck ct sent now r) as [[[f n'] r'] out] eqn:E.
    eexists _, _, _. split; [done|]. by eapply introduce_ok.
  - eexists _, _, _. split; [done|]. destruct (circuit_table n) as [t|] eqn:Et; cbn.
    + eapply relay_table_ok; [done|exact Et|]. apply detach_all_step; by eapply relay_table.
    + destruct Hn as [Ht Hs Hg]. split; cbn; [done| |]; unfold states_of in *; cbn in *; by rewrite Et in *.
  - eexists _, _, _. split; [done|]. destruct Hn as [Ht Hs Hg]. split; cbn; [done..|]. intros g Eg.
    apply fmap_Some in Eg as (g0 & Eg & ->). apply reg_gc_refs, Hg, Eg.
Qed.

(** C9. A relay withstands whatever its neighbours send.  From a fresh node, after any sequence of
    circuit messages with any bodies from any links, introductions and sweeps, no handler has
    panicked, the two indexes and the buckets of the circuit table describe the same circuits within
    the limits, every circuit state is well formed, and the registry's index is exact. *)
Theorem relay_robust (n : Relay) (es : list RelayEvent) (r : R) (Hn : relay_ok n) :
  exists n' r' out, relay_run n es r = Some (n', r', out) /\ relay_ok n'.
Proof.
  revert n r Hn. induction es as [|e es IH]; intros n r Hn; cbn [relay_run]; [by eexists _, _, _|].
  destruct (relay_step_ok n e r Hn) as (n1 & r1 & out & -> & Hn1). cbn [mbind option_bind].
  destruct (IH n1 r1 Hn1) as (n2 & r2 & outs & -> & Hn2). cbn [mbind option_bind]. by eexists _, _, _.
Qed.

End handlers.

(** ** A fresh node *)

Definition relay_fresh (sk : Key) (budget : ServiceBudget) : Relay :=
  mkRelay (Some sk) (Some circuit_table_new) (Some registry_new) (Some origin_table_new) ∅ ∅ budget (mkCache ∅ [] (300 * 1000000000) 4096).

Lemma relay_fresh_ok sk budget : relay_ok (relay_fresh sk budget).
Proof.
  split; cbn.
  - intros t [= <-]. apply table_with_params_ok.
  - intros r s E. cbn in E. by rewrite lookup_empty in E.
  - intros g [= <-]. split; [apply registry_with_link_cap_ok|]. intros c sub E. cbn in E. by rewrite lookup_empty in E.
Qed.

Module Demo.
Import Toy.
#[local] Existing Instances x25519_toy aead_toy blake3_toy blake3_kdf_toy chacha20_toy rng_toy.
#[local] Instance ed25519_demo : Ed25519 := fun _ _ sig => bool_decide (sig = [x01]).

Definition noon : Clock := mkClock 1000 0.
Definition node : Relay := relay_fresh (be_bytes 32 7) (budget_unmetered 0).
Definition traffic : list RelayEvent :=
  [Message CircuitBuild (repeat x01 48) [x01] None noon; Message CircuitTeardown (teardown_encode 9) [x01] None noon;
   Message CircuitDatagram [x00] [x02] None noon; Introduction (repeat x03 16) [x04] true noon; SweepTable 2000].

Lemma relay_robust_witness : exists n' r' out, relay_run node traffic 0 = Some (n', r', out) /\ relay_ok n'.
Proof. exact (relay_robust node traffic 0 (relay_fresh_ok _ _)). Defined.

End Demo.
