(* ===== verification/RelayPath.v ===== *)
(** * Circuits across a network

    Several nodes of [Relay], each message handled by the node it is sent to.  A circuit is a chain of
    stations, one per relay of its path.  A cell of the originator passes all of them and loses a
    layer at each; a cell of the terminus comes back the same way. *)

From S2P Require Import Prelude Crypto Onion CircuitData CircuitReplay CircuitSetup CircuitTable CircuitTableInv.
From S2P Require Import CircuitRegister Float ServiceBudget Relay RelayInv.

Abbreviation Net := (gmap Link Relay) (only parsing).

Section carry.
Context `{X25519} `{Aead} `{Blake3} `{Blake3Kdf} `{ChaCha20} `{Ed25519} {R : Type} `{Rng R}.

(** A message from [from] to [to] and what follows from it, as long as each node sends one message on:
    the network after it, and where it ended with which output. *)
Fixpoint carry (fuel : nat) (clock : Link -> Clock) (net : Net) (from to : Link) (msg : RelayChainMsg)
    (body : list byte) (r : R) : option (Net * R * (Link * list Output)) :=
  match fuel with
  | O => None
  | S fuel =>
      n ← net !! to;
      '(n, r, out) ← dispatch_circuit n msg body from None (clock to) r;
      let net := <[to := n]> net in
      match out with
      | [Send next msg body _] => carry fuel clock net to next msg body r
      | _ => Some (net, r, (to, out))
      end
  end.

End carry.

(** ** Stations *)

(** A relay of a circuit: its links and identifiers on either side, and its key. *)
Record Station := mkStation {
  at_node : Link;
  at_prev : Link;
  at_in : CircuitId;
  at_key : Key;
  at_next : option Link;
  at_out : CircuitId
}.

(** The key of a station's circuit in the network. *)
Definition station_id (x : Station) : Link * Link * CircuitId := (at_node x, at_prev x, at_in x).

(** Every number accepted so far is below [q]. *)
Definition below (w : ReplayWindow) (q : Z) : Prop := exists log, tracks w log /\ Forall (fun s => s < q) log.

Record in_table (x : Station) (t : CircuitTable) (c : Ref) (s : CircuitState) : Prop := {
  it_fwd : circuit_at t (at_prev x, at_in x) c s;
  it_bwd : forall nl, at_next x = Some nl ->
    lookup_backward t nl (at_out x) = Some c /\ lookup_forward t nl (at_out x) = None
}.

(** The state of a station whose next cells are [qf] forward and [qr] back. *)
Record carries (cell : CircuitCellBytes) (qf qr : Z) (x : Station) (s : CircuitState) : Prop := {
  ca_prev : prev_link s = at_prev x;
  ca_in : circuit_id_in s = at_in x;
  ca_key : circuit_key s = at_key x;
  ca_next : next_link s = at_next x;
  ca_out : circuit_id_out s = at_out x;
  ca_cell : cell_bytes s = cell;
  ca_fwd : below (replay_fwd s) qf;
  ca_ret : below (replay_ret s) qr;
  ca_seq : at_next x = None -> next_return_seq s = qr
}.

Definition up_at (cell : CircuitCellBytes) (qf qr : Z) (net : Net) (x : Station) : Prop :=
  exists n t c s, net !! at_node x = Some n /\ circuit_table n = Some t /\ in_table x t c s /\ carries cell qf qr x s.

(** What handling a cell leaves alone at a relay. *)
Record quiet (n n' : Relay) : Prop := {
  qt_sk : anonymity_x25519_sk n' = anonymity_x25519_sk n;
  qt_reg : circuit_rendezvous n' = circuit_rendezvous n;
  qt_origin : circuit_origin n' = circuit_origin n;
  qt_origins : origins n' = origins n;
  qt_stream : stream_recv n' = stream_recv n;
  qt_table : (fun t => (fwd t, bwd t)) <$> circuit_table n' = (fun t => (fwd t, bwd t)) <$> circuit_table n
}.

Lemma quiet_refl n : quiet n n.
Proof. by split. Qed.

Lemma quiet_trans n1 n2 n3 : quiet n1 n2 -> quiet n2 n3 -> quiet n1 n3.
Proof. intros [] []. split; congruence. Qed.

(** Between two networks, only the windows and counters of the stations [ys] moved. *)
Record spares (net net' : Net) (ys : list Station) : Prop := {
  sp_quiet : forall id n, net !! id = Some n -> exists n', net' !! id = Some n' /\ quiet n n';
  sp_up : forall cell qf qr x, (station_id x ∉ station_id <$> ys) -> up_at cell qf qr net x -> up_at cell qf qr net' x
}.

Lemma spares_refl net ys : spares net net ys.
Proof. split; [|done]. intros id n E. exists n. split; [done|apply quiet_refl]. Qed.

Lemma spares_trans net1 net2 net3 ys zs : spares net1 net2 ys -> spares net2 net3 zs -> spares net1 net3 (ys ++ zs).
Proof.
  intros [Hq1 Hu1] [Hq2 Hu2]. split.
  - intros id n E. destruct (Hq1 id n E) as (n1 & E1 & Q1). destruct (Hq2 id n1 E1) as (n2 & E2 & Q2).
    exists n2. split; [done|by eapply quiet_trans].
  - intros cell qf qr x Hx Hup. rewrite fmap_app, not_elem_of_app in Hx. apply Hu2; [apply Hx|]. by apply Hu1; [apply Hx|].
Qed.

Lemma below_mono w q q' : below w q -> q <= q' -> below w q'.
Proof. intros (log & Ht & Hb) Hq. exists log. split; [done|]. eapply Forall_impl; [exact Hb|]. cbn. lia. Qed.

Lemma below_new q : below replay_new q.
Proof. exists []. split; [apply tracks_new|constructor]. Qed.

(** A number above all accepted ones passes. *)
Lemma below_accept w q : below w q -> 0 < q -> exists w', replay_accept w q = Some (true, w') /\ below w' (q + 1).
Proof.
  intros (log & Ht & Hb) Hq. destruct (replay_accept_tracks w log q Ht ltac:(lia)) as (w' & E & Ht').
  assert (log_accept log q = (true, q :: log)) as El.
  { unfold log_accept. assert (top log < q + WINDOW) as Htop.
    { enough (top log < q) by (change WINDOW with 8192; lia). clear -Hb Hq. induction Hb as [|s log Hs _ IH]; [done|].
      change (top (s :: log)) with (Z.max s (top log)). lia. }
    destruct (Z.eqb_spec q 0); [lia|]. destruct (Z.ltb_spec (top log) (q + WINDOW)); [|lia].
    rewrite bool_decide_false; [done|]. intros Hin. eapply Forall_forall in Hb; [|exact Hin]. cbn in Hb. lia. }
  rewrite El in E, Ht'. exists w'. split; [done|]. exists (q :: log). split; [done|]. constructor; [lia|].
  eapply Forall_impl; [exact Hb|]. cbn. lia.
Qed.

(** A relay of a path: its identity, the identifier on the link to it and its key. *)
Record PathHop := mkPathHop {
  ph_node : Link;
  ph_cid : CircuitId;
  ph_key : Key
}.

(** The stations of the path [h :: hs] of the originator [prev]: its relays and its terminus. *)
Fixpoint relays (prev : Link) (h : PathHop) (hs : list PathHop) : list Station :=
  match hs with
  | [] => []
  | h' :: hs => mkStation (ph_node h) prev (ph_cid h) (ph_key h) (Some (ph_node h')) (ph_cid h') :: relays (ph_node h) h' hs
  end.

Fixpoint terminus (prev : Link) (h : PathHop) (hs : list PathHop) : Station :=
  match hs with
  | [] => mkStation (ph_node h) prev (ph_cid h) (ph_key h) None 0
  | h' :: hs => terminus (ph_node h) h' hs
  end.

Fixpoint stations (prev : Link) (h : PathHop) (hs : list PathHop) : list Station :=
  match hs with
  | [] => [mkStation (ph_node h) prev (ph_cid h) (ph_key h) None 0]
  | h' :: hs => mkStation (ph_node h) prev (ph_cid h) (ph_key h) (Some (ph_node h')) (ph_cid h') :: stations (ph_node h) h' hs
  end.

Lemma stations_app prev h hs : stations prev h hs = relays prev h hs ++ [terminus prev h hs].
Proof. revert prev h. induction hs as [|h' hs IH]; intros prev h; cbn; [done|]. by rewrite IH. Qed.

Lemma terminus_next prev h hs : at_next (terminus prev h hs) = None.
Proof. revert prev h. induction hs as [|h' hs IH]; intros prev h; cbn; [done|apply IH]. Qed.

Lemma terminus_cid prev h hs (P : CircuitId -> Prop) : Forall (fun h => P (ph_cid h)) (h :: hs) -> P (at_in (terminus prev h hs)).
Proof.
  revert prev h. induction hs as [|h' hs IH]; intros prev h Hf; cbn; [by inversion Hf|]. apply IH. by inversion Hf.
Qed.

Lemma stations_nodes prev h hs : at_node <$> stations prev h hs = ph_node <$> h :: hs.
Proof. revert prev h. induction hs as [|h' hs IH]; intros prev h; cbn; [done|]. by rewrite IH. Qed.

Lemma stations_keys prev h hs : at_key <$> stations prev h hs = ph_key <$> h :: hs.
Proof. revert prev h. induction hs as [|h' hs IH]; intros prev h; cbn; [done|]. by rewrite IH. Qed.

(** The registry of the station's relay sends what comes for the cookie down its circuit. *)
Definition bound (net : Net) (y : Station) (cookie : list byte) : Prop :=
  exists n t g c, net !! at_node y = Some n /\ circuit_table n = Some t /\ circuit_rendezvous n = Some g /\
    reg_lookup g cookie = Some c /\ lookup_forward t (at_prev y) (at_in y) = Some c.

Lemma bound_spares net net' ys y cookie : spares net net' ys -> bound net y cookie -> bound net' y cookie.
Proof.
  intros [Hq _] (n & t & g & c & En & Et & Eg & El & Ec). destruct (Hq _ _ En) as (n' & En' & Q). pose proof (qt_table _ _ Q) as Ht.
  rewrite Et in Ht. destruct (circuit_table n') as [t'|] eqn:Et'; [|done]. injection Ht as Ef _.
  exists n', t', g, c. split_and!; [done..|by rewrite (qt_reg _ _ Q)|done|]. unfold lookup_forward in *. by rewrite Ef.
Qed.

(** A node that changes neither its circuits nor its registry. *)
Lemma up_at_same_table cell qf qr net id n n' x : net !! id = Some n -> circuit_table n' = circuit_table n ->
  up_at cell qf qr net x -> up_at cell qf qr (<[id := n']> net) x.
Proof.
  intros En Et (m & t & c & s & Em & Etm & Hx). destruct (decide (at_node x = id)) as [<-|Hne].
  - exists n', t, c, s. rewrite lookup_insert_eq, Et. rewrite En in Em. injection Em as <-. done.
  - exists m, t, c, s. by rewrite lookup_insert_ne.
Qed.

Lemma bound_same_table net id n n' y cookie : net !! id = Some n -> circuit_table n' = circuit_table n ->
  circuit_rendezvous n' = circuit_rendezvous n -> bound net y cookie -> bound (<[id := n']> net) y cookie.
Proof.
  intros En Et Eg (m & t & g & c & Em & Etm & Egm & El). destruct (decide (at_node y = id)) as [<-|Hne].
  - exists n', t, g, c. rewrite lookup_insert_eq, Et, Eg. rewrite En in Em. injection Em as <-. done.
  - exists m, t, g, c. by rewrite lookup_insert_ne.
Qed.

(** ** One relay *)

(** The wire form of a cell. *)
Definition data_body (cid : CircuitId) (seq : Z) (ct : list byte) : list byte :=
  be_bytes 4 cid ++ be_bytes 4 seq ++ be_bytes 2 (wrap16 (zlen ct)) ++ ct.

Lemma data_encode_body cid seq ct cell : zlen ct = cell -> data_encode (mkData cid seq ct) cell = inr (data_body cid seq ct).
Proof. intros <-. unfold data_encode; cbn. by rewrite Z.eqb_refl. Qed.

Lemma data_decode_body cid seq ct : is_u32 cid -> is_u32 seq -> is_cell_size (zlen ct) ->
  data_decode (data_body cid seq ct) = inr (mkData cid seq ct).
Proof. intros Hi Hs Hc. apply data_decode_encode; [done|]. by apply data_encode_body. Qed.

Definition is_data (tr : RelayChainMsg) : Prop := tr = CircuitData \/ tr = CircuitDatagram.

Section stations.
Context `{X25519} `{Aead} `{Blake3} `{Blake3Kdf} `{ChaCha20Laws} `{Ed25519} {R : Type} `{RngLaws R}.
Implicit Types (net : Net) (x y : Station) (r : R).

Lemma dispatch_data n tr body link now r : is_data tr ->
  dispatch_circuit n tr body link None now r = handle_circuit_data n body link tr None now r.
Proof. by intros [-> | ->]. Qed.

(** Two stations with one state are one. *)
Lemma same_station x y t c s s' cell cell' qf qr qf' qr' :
  in_table x t c s -> in_table y t c s' -> carries cell qf qr x s -> carries cell' qf' qr' y s' ->
  (at_prev x, at_in x) = (at_prev y, at_in y).
Proof. intros [[_ Es] _] [[_ Es'] _] [] []. congruence. Qed.

(** A node in which the state of one station changed spares the others. *)
Lemma spares_one net y n n' t t' c cell qf qr s :
  net !! at_node y = Some n -> circuit_table n = Some t -> in_table y t c s -> carries cell qf qr y s ->
  circuit_table n' = Some t' -> quiet n n' -> (forall c', c' <> c -> states t' !! c' = states t !! c') ->
  spares net (<[at_node y := n']> net) [y].
Proof.
  intros En Et Hy Hs Et' Hq Hst. pose proof (qt_table _ _ Hq) as Hix. rewrite Et, Et' in Hix. injection Hix as Ef Eb. split.
  - intros id m E. destruct (decide (id = at_node y)) as [->|Hne].
    + exists n'. rewrite lookup_insert_eq. split; [done|congruence].
    + exists m. rewrite lookup_insert_ne by done. split; [done|apply quiet_refl].
  - intros cell' qf' qr' x Hx (m & tm & cx & sx & Em & Etm & Hix & Hcx).
    destruct (decide (at_node x = at_node y)) as [Ex|Hne].
    2:{ exists m, tm, cx, sx. by rewrite lookup_insert_ne. }
    rewrite Ex, En in Em. injection Em as <-. rewrite Et in Etm. injection Etm as <-.
    assert (cx <> c) as Hc.
    { intros ->. apply Hx. cbn. apply list_elem_of_singleton. unfold station_id. rewrite Ex.
      by injection (same_station _ _ _ _ _ _ _ _ _ _ _ _ Hix Hy Hcx Hs) as -> ->. }
    exists n', t', cx, sx. rewrite Ex, lookup_insert_eq. split_and!; [done..| |done].
    destruct Hix as [[E1 E2] E3]. split; [split; [by rewrite Ef|by rewrite Hst]|]. unfold lookup_backward, lookup_forward in *.
    intros nl Hnl. rewrite Eb, Ef. by apply E3.
Qed.

(** A new state at the station, all else alone. *)
Lemma touch_station net x n t c s s' n' cell qf qr qf' qr' :
  net !! at_node x = Some n -> circuit_table n = Some t -> in_table x t c s -> carries cell qf qr x s ->
  carries cell qf' qr' x s' -> circuit_table n' = Some (with_state t c (fun _ => s')) ->
  anonymity_x25519_sk n' = anonymity_x25519_sk n -> circuit_rendezvous n' = circuit_rendezvous n ->
  circuit_origin n' = circuit_origin n -> origins n' = origins n -> stream_recv n' = stream_recv n ->
  up_at cell qf' qr' (<[at_node x := n']> net) x /\ spares net (<[at_node x := n']> net) [x].
Proof.
  intros En Et Hx Hs Hs' Et' ? ? ? ? ?. split.
  - exists n', (with_state t c (fun _ => s')), c, s'. rewrite lookup_insert_eq. split_and!; [done..| |done].
    destruct Hx as [[Ef Es] Hb]. split; [split; [done|]|done]. cbn. by rewrite lookup_alter_eq, Es.
  - eapply spares_one; [done..| |]; [split; [done..|by rewrite Et, Et']|].
    intros c' Hc. cbn. by rewrite lookup_alter_ne.
Qed.

Section cell.
Context (tr : RelayChainMsg) (now : Clock) (cell : CircuitCellBytes).
Hypotheses (Htr : is_data tr) (Hcell : is_cell_size cell).

(** A relay passes a cell on, less its layer. *)
Lemma relay_forward net x q qr nl ct r :
  up_at cell q qr net x -> at_next x = Some nl -> 0 < q -> is_u32 q -> is_u32 (at_in x) -> zlen ct = cell ->
  exists n n' via, net !! at_node x = Some n /\
    dispatch_circuit n tr (data_body (at_in x) q ct) (at_prev x) None now r =
      Some (n', r, [Send nl tr (data_body (at_out x) q (apply_layer (at_key x) Forward q ct)) via]) /\
    up_at cell (q + 1) qr (<[at_node x := n']> net) x /\ spares net (<[at_node x := n']> net) [x].
Proof.
  intros (n & t & c & s & En & Et & Hx & Hs) Hn Hq Hu Hi Hl. pose proof Hx as [[Ef Es] _]. pose proof Hs as [].
  destruct (below_accept _ _ ca_fwd0 Hq) as (w & Ew & Hw).
  exists n. eexists _, _. split; [done|]. rewrite dispatch_data by done. unfold handle_circuit_data.
  rewrite data_decode_body by (done || by rewrite Hl). rewrite Et. cbn [mbind option_bind data_circuit_id].
  unfold lookup_forward. rewrite Ef. cbn [mbind option_bind]. rewrite Es. cbn [mbind option_bind].
  unfold forward_cell, expect_cell. cbn [data_ciphertext data_seq]. rewrite ca_cell0, Hl, Z.eqb_refl. cbn [negb].
  rewrite Ew. cbn [mbind option_bind negb].
  set (s1 := touch _ _). assert (next_link s1 = at_next x /\ circuit_key s1 = at_key x /\ circuit_id_out s1 = at_out x /\
    cell_bytes s1 = cell) as (-> & -> & -> & ->) by (unfold s1; by case_decide).
  rewrite Hn, data_encode_body by (by rewrite zlen_apply_layer). split; [done|].
  eapply touch_station; [done..| |done|done|done|done|done|done].
  unfold s1. split; case_decide; cbn; try done; by rewrite Hn.
Qed.

(** And back, with its layer. *)
Lemma relay_return net x q qf nl ct r :
  up_at cell qf q net x -> at_next x = Some nl -> 0 < q -> is_u32 q -> is_u32 (at_out x) -> zlen ct = cell ->
  exists n n' via, net !! at_node x = Some n /\
    dispatch_circuit n tr (data_body (at_out x) q ct) nl None now r =
      Some (n', r, [Send (at_prev x) tr (data_body (at_in x) q (apply_layer (at_key x) Return q ct)) via]) /\
    up_at cell qf (q + 1) (<[at_node x := n']> net) x /\ spares net (<[at_node x := n']> net) [x].
Proof.
  intros (n & t & c & s & En & Et & Hx & Hs) Hn Hq Hu Hi Hl. pose proof Hx as [[_ Es] Hb]. pose proof Hs as [].
  destruct (Hb nl Hn) as [Eb Ef]. destruct (below_accept _ _ ca_ret0 Hq) as (w & Ew & Hw).
  exists n. eexists _, _. split; [done|]. rewrite dispatch_data by done. unfold handle_circuit_data.
  rewrite data_decode_body by (done || by rewrite Hl). rewrite Et. cbn [mbind option_bind data_circuit_id].
  rewrite Ef, Eb. cbn [mbind option_bind]. rewrite Es. cbn [mbind option_bind].
  unfold return_cell, expect_cell. cbn [data_ciphertext data_seq]. rewrite ca_cell0, Hl, Z.eqb_refl. cbn [negb].
  rewrite Ew. cbn [mbind option_bind negb].
  set (s1 := touch _ _). assert (prev_link s1 = at_prev x /\ circuit_key s1 = at_key x /\ circuit_id_in s1 = at_in x /\
    cell_bytes s1 = cell) as (-> & -> & -> & ->) by (unfold s1; by case_decide).
  rewrite data_encode_body by (by rewrite zlen_apply_layer). cbn [mbind option_bind]. split; [done|].
  eapply touch_station; [done..| |done|done|done|done|done|done].
  unfold s1. split; case_decide; cbn; try done; by rewrite Hn.
Qed.

(** At the terminus a cell for a cookie turns into a cell of the circuit registered for it. *)
Lemma terminus_splices net x y celly q qr qf qy cookie m ct r :
  up_at cell q qr net x -> up_at celly qf qy net y -> at_node y = at_node x -> station_id x <> station_id y ->
  at_next x = None -> at_next y = None -> bound net y cookie -> zlen cookie = COOKIE_LEN -> is_cell_size celly ->
  0 < q -> is_u32 q -> is_u32 (at_in x) -> qy <> U32_MAX -> zlen ct = cell ->
  read_payload (apply_layer (at_key x) Forward q ct) = Some (cookie ++ m) -> zlen m <= max_inner celly ->
  exists n n' via buf r', net !! at_node x = Some n /\
    dispatch_circuit n tr (data_body (at_in x) q ct) (at_prev x) None now r =
      Some (n', r', [Send (at_prev y) tr (data_body (at_in y) qy (apply_layer (at_key y) Return qy buf)) via]) /\
    zlen buf = celly /\ read_payload buf = Some m /\
    up_at cell (q + 1) qr (<[at_node x := n']> net) x /\ up_at celly qf (qy + 1) (<[at_node x := n']> net) y /\
    spares net (<[at_node x := n']> net) [x; y].
Proof.
  intros (n & t & cx & sx & En & Et & Hx & Hsx) (n0 & t0 & cy & sy & En0 & Et0 & Hy & Hsy) Exy Hne Nx Ny Hbd Hck Hcy
    Hq Hu Hi Hqy Hl Hrd Hm.
  rewrite Exy, En in En0. injection En0 as <-. rewrite Et in Et0. injection Et0 as <-.
  destruct Hbd as (n0 & t0 & g & c0 & En0 & Et0 & Eg & El & Ec0). rewrite Exy, En in En0. injection En0 as <-.
  rewrite Et in Et0. injection Et0 as <-.
  assert (cy <> cx) as Hc.
  { intros ->. apply Hne. unfold station_id. rewrite Exy. f_equal; [f_equal|];
      by injection (same_station _ _ _ _ _ _ _ _ _ _ _ _ Hx Hy Hsx Hsy). }
  pose proof Hx as [[Ef Es] _]. pose proof Hy as [[Efy Esy] Hby]. unfold lookup_forward in Ec0. rewrite Efy in Ec0. injection Ec0 as <-.
  destruct (below_accept _ _ (ca_fwd _ _ _ _ _ Hsx) Hq) as (w & Ew & Hw).
  destruct (wrap_payload_spec m celly r Hcy Hm) as (buf & r' & Ewr & Hbl & Hbr).
  exists n. eexists _, _, buf, r'. split; [done|]. rewrite dispatch_data by done. unfold handle_circuit_data.
  rewrite data_decode_body by (done || by rewrite Hl). rewrite Et. cbn [mbind option_bind data_circuit_id].
  unfold lookup_forward. rewrite Ef. cbn [mbind option_bind]. rewrite Es. cbn [mbind option_bind].
  unfold forward_cell, expect_cell. cbn [data_ciphertext data_seq]. rewrite (ca_cell _ _ _ _ _ Hsx), Hl, Z.eqb_refl. cbn [negb].
  rewrite Ew. cbn [mbind option_bind negb].
  set (s1 := touch _ _). assert (carries cell (q + 1) qr x s1) as Hs1.
  { unfold s1. destruct Hsx. split; case_decide; cbn; done. }
  set (t1 := with_state t cx (fun _ => s1)). set (n1 := n <| circuit_table := Some t1 |>).
  rewrite (ca_next _ _ _ _ _ Hs1), (ca_key _ _ _ _ _ Hs1), Nx, Hrd. assert (circuit_rendezvous n1 = Some g) as -> by done.
  assert (is_heartbeat (cookie ++ m) = false) as ->.
  { apply bool_decide_false. intros E%(f_equal zlen). rewrite zlen_app, Hck in E. pose proof (zlen_nonneg m).
    change (zlen CIRCUIT_HEARTBEAT_MAGIC) with 8 in E. unfold COOKIE_LEN in E. lia. }
  pose proof (zlen_nonneg m). rewrite zlen_app. destruct (Z.leb_spec COOKIE_LEN (zlen cookie + zlen m)); [|lia].
  rewrite ztake_app_len, zdrop_app_len by done. rewrite El.
  assert (states t1 !! cy = Some sy) as Esy1 by (cbn; by rewrite lookup_alter_ne).
  unfold splice_stream_cell. rewrite Esy1, (ca_cell _ _ _ _ _ Hsy), Ewr. unfold alloc_return_seq.
  rewrite (ca_seq _ _ _ _ _ Hsy Ny), (proj2 (Z.eqb_neq _ _) Hqy). set (s2 := sy <| next_return_seq := qy + 1 |>).
  assert (carries celly qf (qy + 1) y s2) as Hs2.
  { destruct Hsy. split; cbn; try done. eapply below_mono; [done|lia]. }
  rewrite (ca_key _ _ _ _ _ Hs2), (ca_in _ _ _ _ _ Hs2), (ca_cell _ _ _ _ _ Hs2), (ca_prev _ _ _ _ _ Hs2).
  rewrite data_encode_body by (by rewrite zlen_apply_layer). split; [done|]. split; [done|]. split; [done|].
  destruct (touch_station net x n t cx sx s1 n1 cell q qr (q + 1) qr) as [Hx1 Hsp1]; [done..|].
  assert (in_table y t1 cy sy) as Hy1 by (split; [by split|done]).
  destruct (touch_station (<[at_node y := n1]> net) y n1 t1 cy sy s2 (n1 <| circuit_table := Some (with_state t1 cy (fun _ => s2)) |>)
    celly qf qy qf (qy + 1)) as [Hy2 Hsp2]; [by rewrite lookup_insert_eq|done..|].
  rewrite Exy, insert_insert_eq in Hy2, Hsp2. split_and!; [|done|].
  - apply Hsp2; [|done]. cbn. by rewrite list_elem_of_singleton.
  - by apply (spares_trans _ _ _ [x] [y] Hsp1).
Qed.

End cell.

(** ** A path *)

Lemma carry_step fuel clock net from to msg body r n n' r' next msg' body' via :
  net !! to = Some n -> dispatch_circuit n msg body from None (clock to) r = Some (n', r', [Send next msg' body' via]) ->
  carry (S fuel) clock net from to msg body r = carry fuel clock (<[to := n']> net) to next msg' body' r'.
Proof. intros En Ed. cbn [carry]. rewrite En. cbn [mbind option_bind]. by rewrite Ed. Qed.

Lemma carry_stop fuel clock net from to msg body r n n' r' out :
  net !! to = Some n -> dispatch_circuit n msg body from None (clock to) r = Some (n', r', out) ->
  (forall next msg' body' via, out <> [Send next msg' body' via]) ->
  carry (S fuel) clock net from to msg body r = Some (<[to := n']> net, r', (to, out)).
Proof.
  intros En Ed Hout. cbn [carry]. rewrite En. cbn [mbind option_bind]. rewrite Ed. cbn [mbind option_bind].
  destruct out as [|[next msg' body' via| |] [|]]; try done. by destruct (Hout next msg' body' via).
Qed.

Section path.
Context (tr : RelayChainMsg) (clock : Link -> Clock) (cell : CircuitCellBytes).
Hypotheses (Htr : is_data tr) (Hcell : is_cell_size cell).

(** A station not among [ys] stays as it was. *)
Lemma spared cell' qf qr net net' ys x zs : spares net net' ys -> NoDup (station_id <$> ys ++ zs) ->
  x ∈ zs -> up_at cell' qf qr net x -> up_at cell' qf qr net' x.
Proof.
  intros Hsp Hnd Hx. apply (sp_up _ _ _ Hsp). rewrite fmap_app in Hnd. apply NoDup_app in Hnd as (_ & Hd & _).
  intros Hin. apply (Hd _ Hin). by apply list_elem_of_fmap_2.
Qed.

Lemma spared_all cell' qf qr net net' ys zs : spares net net' ys -> NoDup (station_id <$> ys ++ zs) ->
  Forall (up_at cell' qf qr net) zs -> Forall (up_at cell' qf qr net') zs.
Proof.
  intros Hsp Hnd Hup. apply Forall_forall. intros x Hx. eapply spared; [done..|]. by eapply Forall_forall in Hup.
Qed.

Lemma spared_sub cell' qf qr net net' ys zs all : spares net net' ys -> NoDup (station_id <$> all) -> ys ++ zs ⊆+ all ->
  Forall (up_at cell' qf qr net) zs -> Forall (up_at cell' qf qr net') zs.
Proof.
  intros Hsp Hnd (l & Hl)%submseteq_Permutation. apply (spared_all _ _ _ _ _ ys); [done|].
  rewrite Hl, fmap_app in Hnd. by apply NoDup_app in Hnd as (? & _ & _).
Qed.

(** The cell [q] of the originator [prev] reaches the terminus with the layer of the terminus left. *)
Lemma path_forward fuel prev h hs net q qr buf r :
  Forall (up_at cell q qr net) (stations prev h hs) -> NoDup (station_id <$> stations prev h hs) ->
  Forall (fun h => is_u32 (ph_cid h)) (h :: hs) -> 0 < q -> is_u32 q -> zlen buf = cell ->
  exists net',
    carry (length hs + fuel) clock net prev (ph_node h) tr (data_body (ph_cid h) q (layered (ph_key <$> h :: hs) Forward q buf)) r =
      carry fuel clock net' (at_prev (terminus prev h hs)) (at_node (terminus prev h hs)) tr
        (data_body (at_in (terminus prev h hs)) q (apply_layer (at_key (terminus prev h hs)) Forward q buf)) r /\
    Forall (up_at cell (q + 1) qr net') (relays prev h hs) /\ up_at cell q qr net' (terminus prev h hs) /\
    spares net net' (relays prev h hs).
Proof.
  intros Hup Hnd Hu Hq Hu32 Hl. revert prev h net r Hup Hnd Hu. induction hs as [|h' hs IH]; intros prev h net r Hup Hnd Hu.
  - exists net. split; [done|]. cbn [relays terminus]. split; [constructor|]. split; [by inversion Hup|apply spares_refl].
  - cbn [stations relays terminus] in *. apply Forall_cons in Hup as [Hx Hup]. apply Forall_cons in Hu as [Hi Hu].
    set (x := mkStation (ph_node h) prev (ph_cid h) (ph_key h) (Some (ph_node h')) (ph_cid h')) in *.
    destruct (relay_forward tr (clock (ph_node h)) cell Htr Hcell net x q qr (ph_node h')
      (layered (ph_key <$> h :: h' :: hs) Forward q buf) r) as (n & n' & via & En & Ed & Hx' & Hsp);
      [done..|by rewrite zlen_layered|].
    change (ph_key <$> h :: h' :: hs) with (at_key x :: (ph_key <$> h' :: hs)) in Ed. rewrite layered_peel in Ed.
    destruct (IH (ph_node h) h' (<[ph_node h := n']> net) r) as (net' & E & Hrel & Hterm & Hsp').
    + by apply (spared_all _ _ _ net _ [x]).
    + by apply NoDup_cons in Hnd as [_ ?].
    + done.
    + exists net'. split; [exact (eq_trans (carry_step _ _ _ _ _ _ _ _ _ _ _ _ _ _ _ En Ed) E)|].
      split_and!; [|done|by apply (spares_trans _ _ _ [x] _ Hsp)]. constructor; [|done].
      eapply sp_up; [exact Hsp'| |done]. rewrite fmap_cons in Hnd. apply NoDup_cons in Hnd as [Hnot _]. intros Hin. apply Hnot.
      rewrite stations_app, fmap_app. apply elem_of_app. by left.
Qed.

(** The cell [q] of the terminus reaches the originator with the layers of all relays. *)
Lemma path_return fuel prev h hs net q qf ct r :
  Forall (up_at cell qf q net) (relays prev h hs) -> NoDup (station_id <$> stations prev h hs) ->
  Forall (fun h => is_u32 (ph_cid h)) (h :: hs) -> 0 < q -> is_u32 q -> zlen ct = cell ->
  exists net',
    carry (length hs + fuel) clock net (at_node (terminus prev h hs)) (at_prev (terminus prev h hs)) tr
        (data_body (at_in (terminus prev h hs)) q ct) r =
      carry fuel clock net' (ph_node h) prev tr
        (data_body (ph_cid h) q (layered (at_key <$> relays prev h hs) Return q ct)) r /\
    Forall (up_at cell qf (q + 1) net') (relays prev h hs) /\ spares net net' (relays prev h hs).
Proof.
  intros Hup Hnd Hu Hq Hu32 Hl. revert fuel prev h Hup Hnd Hu. induction hs as [|h' hs IH]; intros fuel prev h Hup Hnd Hu.
  - exists net. split; [done|]. split; [constructor|apply spares_refl].
  - cbn [stations relays terminus] in *. apply Forall_cons in Hup as [Hx Hup]. apply Forall_cons in Hu as [Hi Hu].
    set (x := mkStation (ph_node h) prev (ph_cid h) (ph_key h) (Some (ph_node h')) (ph_cid h')) in *.
    rewrite fmap_cons in Hnd. apply NoDup_cons in Hnd as [Hnot Hnd].
    assert (station_id x ∉ station_id <$> relays (ph_node h) h' hs) as Hnot'.
    { intros Hin. apply Hnot. rewrite stations_app, fmap_app. apply elem_of_app. by left. }
    destruct (IH (S fuel) (ph_node h) h') as (net1 & E & Hrel & Hsp); [done..|].
    set (ct' := layered (at_key <$> relays (ph_node h) h' hs) Return q ct) in *.
    destruct (relay_return tr (clock (ph_node h)) cell Htr Hcell net1 x q qf (ph_node h') ct' r)
      as (n & n' & via & En & Ed & Hx' & Hsp'); [|done|done|done|by inversion Hu|by unfold ct'; rewrite zlen_layered|].
    { by apply (sp_up _ _ _ Hsp). }
    assert (layered (at_key <$> x :: relays (ph_node h) h' hs) Return q ct = apply_layer (at_key x) Return q ct') as ->.
    { unfold ct'. by rewrite <- layered_apply. }
    exists (<[ph_node h := n']> net1). split.
    { cbn [length]. replace (S (length hs) + fuel)%nat with (length hs + S fuel)%nat by lia. rewrite E.
      exact (carry_step _ _ _ _ _ _ _ _ _ _ _ _ _ _ _ En Ed). }
    split; [constructor; [done|]|].
    + eapply (spared_all _ _ _ net1 _ [x]); [done| |done]. cbn. apply NoDup_cons. split; [done|].
      rewrite stations_app, fmap_app in Hnd. by apply NoDup_app in Hnd as (? & _ & _).
    + split; [apply (sp_quiet _ _ _ (spares_trans _ _ _ _ _ Hsp Hsp'))|].
      intros cell' qf' qr' y Hy Hyup. rewrite fmap_cons, not_elem_of_cons in Hy.
      apply (sp_up _ _ _ (spares_trans _ _ _ _ _ Hsp Hsp')); [|done]. rewrite fmap_app, not_elem_of_app. split; [apply Hy|].
      cbn. rewrite list_elem_of_singleton. apply Hy.
Qed.

End path.
End stations.
