(* ===== verification/RelayStream.v ===== *)
(** * A stream through a rendezvous relay

    The receiver keeps a circuit to a relay and has a cookie registered there; the sender keeps one to
    the same relay.  What the sender seals for the cookie comes out at the receiver. *)

From S2P Require Import Prelude Crypto Onion CircuitData CircuitReplay CircuitSetup CircuitTable CircuitTableInv.
From S2P Require Import CircuitRegister Float ServiceBudget Relay RelayInv RelayPath.

(** The originator [me] of a circuit whose path is [h :: hs] holds its keys, and its own tables have no
    circuit with the same identifier on that link. *)
Record originates (cell : CircuitCellBytes) (h : PathHop) (hs : list PathHop) (n : Relay) : Prop := {
  og_circuit : exists t o c, circuit_origin n = Some t /\ origin_lookup t (ph_node h) (ph_cid h) = Some o /\
    origins n !! o = Some c /\ circuit_keys c = ph_key <$> h :: hs /\ origin_cell_bytes c = cell;
  og_table : forall t, circuit_table n = Some t ->
    lookup_forward t (ph_node h) (ph_cid h) = None /\ lookup_backward t (ph_node h) (ph_cid h) = None
}.

Lemma originates_quiet cell h hs n n' : quiet n n' -> originates cell h hs n -> originates cell h hs n'.
Proof.
  intros [_ _ Eo Es _ Et] [(t & o & c & E) Hn]. split.
  - exists t, o, c. by rewrite Eo, Es.
  - intros t' Et'. rewrite Et' in Et. destruct (circuit_table n) as [t0|] eqn:E0; [|done]. injection Et as Ef Eb.
    unfold lookup_forward, lookup_backward in *. rewrite Ef, Eb. by apply Hn.
Qed.

Section stream.
Context `{X25519} `{Aead} `{Blake3} `{Blake3Kdf} `{ChaCha20Laws} `{Ed25519} {R : Type} `{RngLaws R}.
Implicit Types (net : Net) (r : R).

Lemma layered_cancel keys d q buf : layered keys d q (layered keys d q buf) = buf.
Proof.
  induction keys as [|k keys IH]; [done|].
  change (layered (k :: keys) d q ?b) with (layered keys d q (apply_layer k d q b)) at 1. by rewrite layered_peel.
Qed.

(** The cell of the terminus, with the layers of all relays on it, opens at the originator. *)
Lemma origin_opens cell h hs n tr now q ct buf m r : is_data tr -> is_cell_size cell -> originates cell h hs n ->
  is_u32 (ph_cid h) -> is_u32 q -> ct = layered (ph_key <$> h :: hs) Return q buf -> zlen buf = cell ->
  read_payload buf = Some m -> ph_cid h ∈ stream_recv n ->
  exists n', dispatch_circuit n tr (data_body (ph_cid h) q ct) (ph_node h) None now r = Some (n', r, [Stream (ph_cid h) m]) /\
    originates cell h hs n' /\ circuit_table n' = circuit_table n /\ circuit_rendezvous n' = circuit_rendezvous n /\
    stream_recv n' = stream_recv n.
Proof.
  intros Htr Hc [(t & o & c & Et & El & Eo & Ek & Ec) Hn] Hi Hq -> Hl Hm Hs.
  rewrite dispatch_data by done. unfold handle_circuit_data.
  rewrite data_decode_body by (done || by rewrite zlen_layered, Hl). cbn [data_circuit_id].
  assert ((t ← circuit_table n; c ← lookup_forward t (ph_node h) (ph_cid h); s ← states t !! c; Some (t, c, s)) = None) as ->.
  { destruct (circuit_table n) as [t0|]; [|done]. cbn. by destruct (Hn t0 eq_refl) as [-> _]. }
  assert ((t ← circuit_table n; c ← lookup_backward t (ph_node h) (ph_cid h); s ← states t !! c; Some (t, c, s)) = None) as ->.
  { destruct (circuit_table n) as [t0|]; [|done]. cbn. by destruct (Hn t0 eq_refl) as [_ ->]. }
  unfold origin_cell. rewrite Et. cbn [mbind option_bind data_circuit_id]. rewrite El, Eo.
  unfold expect_cell. cbn [data_ciphertext data_seq]. rewrite Ec, zlen_layered, Hl, Z.eqb_refl. cbn [negb].
  unfold open_return, apply_layers. rewrite Ek. set (keys := ph_key <$> h :: hs). assert (is_nil keys = false) as -> by done.
  cbn [mbind result_bind]. change (fold_left _ keys ?b) with (layered keys Return q b). rewrite layered_cancel, Hm.
  rewrite bool_decide_true by done. eexists. split; [done|]. split_and!; [|done..]. split; [|done]. cbn.
  exists t, o, (mark_returned c (unix now)). by rewrite lookup_insert_eq.
Qed.

(** A data circuit of the sender whose next cell is [q]. *)
Record sends (cell : CircuitCellBytes) (h : PathHop) (hs : list PathHop) (q : Z) (dc : DataCircuit) : Prop := {
  sd_first : dc_first_hop dc = ph_node h;
  sd_cid : dc_origin_circuit_id dc = ph_cid h;
  sd_keys : dc_keys dc = ph_key <$> h :: hs;
  sd_seq : dc_next_seq dc = q - 1;
  sd_cell : dc_cell_bytes dc = cell
}.

Lemma seal_spec cell h hs q dc payload r : sends cell h hs q dc -> is_cell_size cell -> q - 1 <> U32_MAX ->
  zlen payload <= max_inner cell ->
  exists buf dc' r', seal_circuit_cell dc payload r =
      (inr (data_body (ph_cid h) q (layered (ph_key <$> h :: hs) Forward q buf)), dc', r') /\
    zlen buf = cell /\ read_payload buf = Some payload /\ sends cell h hs (q + 1) dc'.
Proof.
  intros [E1 E2 E3 E4 E5] Hc Hq Hp. destruct (wrap_payload_spec payload cell r Hc Hp) as (buf & r' & Ew & Hl & Hr).
  exists buf. eexists _, r'. split_and!; [|done|done|].
  - unfold seal_circuit_cell, alloc_seq, apply_layers. rewrite E5, Ew, E4, (proj2 (Z.eqb_neq _ _) Hq). cbn [dc_keys].
    rewrite E3. set (keys := ph_key <$> h :: hs). assert (is_nil keys = false) as -> by done.
    cbn [dc_origin_circuit_id dc_cell_bytes]. replace (q - 1 + 1) with q by lia.
    change (fold_left _ keys ?b) with (layered keys Forward q b). by rewrite E2, data_encode_body by (by rewrite zlen_layered).
  - split; cbn; try done. lia.
Qed.

(** ** The session *)

Section session.
Context (tr : RelayChainMsg) (clock : Link -> Clock).
Hypothesis (Htr : is_data tr).
(** The sender [S] with its path [h :: hs], the receiver [V] with its path [g :: gs], and the cookie. *)
Context (S V : Link) (h g : PathHop) (hs gs : list PathHop) (cs cv : CircuitCellBytes) (cookie : list byte).

Record path_ok : Prop := {
  pk_s : is_cell_size cs;
  pk_v : is_cell_size cv;
  pk_cids : Forall (fun h => is_u32 (ph_cid h)) (h :: hs) /\ Forall (fun h => is_u32 (ph_cid h)) (g :: gs);
  pk_cookie : zlen cookie = COOKIE_LEN;
  pk_meet : at_node (terminus V g gs) = at_node (terminus S h hs);
  pk_distinct : NoDup (station_id <$> stations S h hs ++ stations V g gs)
}.

(** Both circuits are up, the cookie is bound to the receiver's, and the receiver listens; the next
    cells are [q] of the sender and [p] of the relay. *)
Record session (q p : Z) (net : Net) (dc : DataCircuit) : Prop := {
  se_sends : sends cs h hs q dc;
  se_sender : exists qr, Forall (up_at cs q qr net) (stations S h hs);
  se_receiver : exists qf, Forall (up_at cv qf p net) (stations V g gs);
  se_bound : bound net (terminus V g gs) cookie;
  se_origin : exists n, net !! V = Some n /\ originates cv g gs n /\ ph_cid g ∈ stream_recv n
}.

(** The sender seals a message for the cookie and sends it to its first hop; [fuel] bounds the handlers
    it passes. *)
Definition send_one (fuel : nat) (net : Net) (dc : DataCircuit) (m : list byte) (r : R) : option (Net * DataCircuit * R * (Link * list Output)) :=
  let '(sealed, dc, r) := seal_circuit_cell dc (cookie ++ m) r in
  match sealed with
  | inl _ => None
  | inr body =>
      '(net, r, out) ← carry fuel clock net S (dc_first_hop dc) tr body r;
      Some (net, dc, r, out)
  end.

Fixpoint send_all (fuel : nat) (net : Net) (dc : DataCircuit) (ms : list (list byte)) (r : R) :
    option (Net * DataCircuit * R * list (Link * list Output)) :=
  match ms with
  | [] => Some (net, dc, r, [])
  | m :: ms =>
      '(net, dc, r, out) ← send_one fuel net dc m r;
      '(net, dc, r, outs) ← send_all fuel net dc ms r;
      Some (net, dc, r, out :: outs)
  end.

(** From the sender to the meeting relay, where the message enters the receiver's circuit. *)
Lemma cell_meets q p net buf m r qr qf k : path_ok -> 0 < q < U32_MAX -> 0 < p < U32_MAX ->
  Forall (up_at cs q qr net) (stations S h hs) -> Forall (up_at cv qf p net) (stations V g gs) ->
  bound net (terminus V g gs) cookie -> zlen buf = cs -> read_payload buf = Some (cookie ++ m) -> zlen m <= max_inner cv ->
  exists net' buf' r',
    carry (length hs + (1 + k)) clock net S (ph_node h) tr (data_body (ph_cid h) q (layered (ph_key <$> h :: hs) Forward q buf)) r =
      carry k clock net' (at_node (terminus V g gs)) (at_prev (terminus V g gs)) tr
        (data_body (at_in (terminus V g gs)) p (apply_layer (at_key (terminus V g gs)) Return p buf')) r' /\
    zlen buf' = cv /\ read_payload buf' = Some m /\
    Forall (up_at cs (q + 1) qr net') (stations S h hs) /\ Forall (up_at cv qf p net') (relays V g gs) /\
    up_at cv qf (p + 1) net' (terminus V g gs) /\
    spares net net' (relays S h hs ++ [terminus S h hs; terminus V g gs]).
Proof.
  intros [Hcs Hcv [Hus Huv] Hck Hmeet Hnd] Hq Hp Hup Huq Hbd Hl Hr Hm. unfold U32_MAX in Hq, Hp.
  assert (is_u32 q) as Hq32 by (unfold is_u32; lia).
  destruct (path_forward tr clock cs Htr Hcs (1 + k) S h hs net q qr buf r) as (net1 & -> & Hrel & Hx & Hsp1);
    [done|by rewrite fmap_app in Hnd; apply NoDup_app in Hnd as (? & _ & _)|done|lia|done|done|].
  rewrite (stations_app S h hs), (stations_app V g gs) in Hnd. rewrite stations_app in Huq |- *.
  apply Forall_app in Huq as [Huq Huy].
  set (x := terminus S h hs) in *. set (y := terminus V g gs) in *. set (rs := relays S h hs) in *. set (rv := relays V g gs) in *.
  pose proof (fun cell a b zs m1 m2 ys Hs => spared_sub cell a b m1 m2 ys zs _ Hs Hnd) as Hspare.
  assert (up_at cv qf p net1 y) as Hy.
  { apply Forall_singleton, (Hspare cv qf p [y] _ _ _ Hsp1); [|done]. solve_submseteq. }
  assert (station_id x <> station_id y) as Hxy.
  { intros E. rewrite fmap_app in Hnd. apply NoDup_app in Hnd as (_ & Hd & _).
    apply (Hd (station_id x)); [|rewrite E]; apply list_elem_of_fmap_2, elem_of_app; right; by apply list_elem_of_singleton. }
  destruct (terminus_splices tr (clock (at_node x)) cs Htr Hcs net1 x y cv q qr qf p cookie m
    (apply_layer (at_key x) Forward q buf) r) as (n & n' & via & buf' & r2 & En & Ed & Hl' & Hr' & Hx2 & Hy2 & Hsp2);
    [done|done|done|done|apply terminus_next|apply terminus_next|by apply (bound_spares net net1 rs)|done|done|lia|done
    |by apply (terminus_cid S h hs is_u32)|unfold U32_MAX; lia|by rewrite zlen_apply_layer|by rewrite apply_layer_cancel|done|].
  exists (<[at_node x := n']> net1), buf', r2. split_and!; [|done|done| | |done|by apply (spares_trans _ _ _ rs [x; y] Hsp1)].
  - rewrite Hmeet. exact (carry_step _ _ _ _ _ _ _ _ _ _ _ _ _ _ _ En Ed).
  - apply Forall_app. split; [|by apply Forall_singleton]. eapply (Hspare _ _ _ rs); [exact Hsp2| |done]. solve_submseteq.
  - eapply (Hspare _ _ _ rv); [exact Hsp2|solve_submseteq|]. eapply (Hspare _ _ _ rv); [exact Hsp1|solve_submseteq|done].
Qed.

(** And from there to the receiver. *)
Lemma cell_arrives p net buf m r qf n : path_ok -> 0 < p < U32_MAX ->
  Forall (up_at cv qf p net) (relays V g gs) -> zlen buf = cv -> read_payload buf = Some m ->
  net !! V = Some n -> originates cv g gs n -> ph_cid g ∈ stream_recv n ->
  exists net' n',
    carry (length gs + 1) clock net (at_node (terminus V g gs)) (at_prev (terminus V g gs)) tr
      (data_body (at_in (terminus V g gs)) p (apply_layer (at_key (terminus V g gs)) Return p buf)) r =
        Some (net', r, (V, [Stream (ph_cid g) m])) /\
    Forall (up_at cv qf (p + 1) net') (relays V g gs) /\
    (forall cell a b x, (station_id x ∉ station_id <$> relays V g gs) -> up_at cell a b net x -> up_at cell a b net' x) /\
    (forall y ck, bound net y ck -> bound net' y ck) /\
    net' !! V = Some n' /\ originates cv g gs n' /\ ph_cid g ∈ stream_recv n'.
Proof.
  intros [_ Hcv [_ Huv] _ _ Hnd] Hp Hup Hl Hm En Ho Hs. unfold U32_MAX in Hp.
  assert (is_u32 p) as Hp32 by (unfold is_u32; lia). rewrite fmap_app in Hnd. apply NoDup_app in Hnd as (_ & _ & Hnd).
  destruct (path_return tr clock cv Htr Hcv 1 V g gs net p qf (apply_layer (at_key (terminus V g gs)) Return p buf) r)
    as (net1 & -> & Hrel & Hsp); [done|done|done|lia|done|by rewrite zlen_apply_layer|].
  destruct (sp_quiet _ _ _ Hsp V n En) as (n1 & En1 & Q). apply (originates_quiet _ _ _ _ _ Q) in Ho.
  assert (layered (at_key <$> relays V g gs) Return p (apply_layer (at_key (terminus V g gs)) Return p buf) =
    layered (ph_key <$> g :: gs) Return p buf) as ->.
  { rewrite <- (stations_keys V), stations_app, fmap_app. unfold layered at 2. rewrite fold_left_app. cbn.
    fold (layered (at_key <$> relays V g gs) Return p buf). apply layered_apply. }
  destruct (origin_opens cv g gs n1 tr (clock V) p _ buf m r Htr Hcv Ho ltac:(by inversion Huv) Hp32 eq_refl Hl Hm)
    as (n2 & Ed & Ho2 & Et & Eg & Est); [by rewrite (qt_stream _ _ Q)|].
  exists (<[V := n2]> net1), n2. rewrite lookup_insert_eq.
  assert (forall cell a b x, up_at cell a b net1 x -> up_at cell a b (<[V := n2]> net1) x) as Hkeep
    by (intros; by eapply up_at_same_table).
  split_and!; [|by eapply Forall_impl; [exact Hrel|intros; apply Hkeep]| | |done|done|by rewrite Est, (qt_stream _ _ Q)].
  - by apply (carry_stop _ _ _ _ _ _ _ _ _ _ _ _ En1 Ed).
  - intros cell a b x Hx Hxu. by apply Hkeep, (sp_up _ _ _ Hsp).
  - intros z ck Hb. eapply bound_same_table; [exact En1|done|done|]. by apply (bound_spares net _ (relays V g gs)).
Qed.

Lemma send_one_spec q p net dc m r : path_ok -> session q p net dc -> 0 < q < U32_MAX -> 0 < p < U32_MAX ->
  zlen cookie + zlen m <= max_inner cs -> zlen m <= max_inner cv ->
  exists net' dc' r', send_one (length (h :: hs) + length (g :: gs)) net dc m r = Some (net', dc', r', (V, [Stream (ph_cid g) m])) /\
    session (q + 1) (p + 1) net' dc'.
Proof.
  intros Hok [Hsd [qr Hup] [qf Huq] Hbd (nv & Ev & Hov & Hst)] Hq Hp Hm Hmv. pose proof Hok as [Hcs _ _ _ _ Hnd].
  destruct (seal_spec cs h hs q dc (cookie ++ m) r Hsd Hcs ltac:(lia) ltac:(by rewrite zlen_app))
    as (buf & dc' & r1 & Es & Hl & Hr & Hsd').
  unfold send_one. rewrite Es, (sd_first _ _ _ _ _ Hsd').
  replace (length (h :: hs) + length (g :: gs))%nat with (length hs + (1 + (length gs + 1)))%nat by (cbn; lia).
  destruct (cell_meets q p net buf m r1 qr qf (length gs + 1) Hok) as (net1 & buf' & r2 & -> & Hl' & Hr' & Hs1 & Hv1 & Hy1 & Hsp);
    [done..|].
  destruct (sp_quiet _ _ _ Hsp V nv Ev) as (n1 & En1 & Q). apply (originates_quiet _ _ _ _ _ Q) in Hov.
  destruct (cell_arrives p net1 buf' m r2 qf n1 Hok) as (net2 & n2 & -> & Hv2 & Hkeep & Hbk & En2 & Ho2 & Hst2);
    [done..|by rewrite (qt_stream _ _ Q)|].
  cbn [mbind option_bind]. eexists _, _, _. split; [done|].
  rewrite fmap_app in Hnd. apply NoDup_app in Hnd as (_ & Hd & Hnd).
  rewrite (stations_app V), fmap_app in Hnd, Hd. apply NoDup_app in Hnd as (_ & Hy & _).
  split; [done| | |by apply Hbk, (bound_spares net _ _ _ _ Hsp)|by exists n2].
  - exists qr. apply Forall_forall. intros x Hx. apply Hkeep; [|by eapply Forall_forall in Hs1].
    intros Hin. apply (Hd (station_id x)); [by apply list_elem_of_fmap_2|]. apply elem_of_app. by left.
  - exists qf. rewrite stations_app. apply Forall_app. split; [done|]. apply Forall_singleton, Hkeep; [|done].
    intros Hin. apply (Hy _ Hin). cbn. by apply list_elem_of_singleton.
Qed.

(** All messages arrive, in order and unchanged, and both circuits stay up. *)
Lemma send_all_spec ms q p net dc r : path_ok -> session q p net dc ->
  0 < q -> q + zlen ms <= U32_MAX -> 0 < p -> p + zlen ms <= U32_MAX ->
  Forall (fun m => zlen cookie + zlen m <= max_inner cs /\ zlen m <= max_inner cv) ms ->
  exists net' dc' r',
    send_all (length (h :: hs) + length (g :: gs)) net dc ms r = Some (net', dc', r', (fun m => (V, [Stream (ph_cid g) m])) <$> ms) /\
    session (q + zlen ms) (p + zlen ms) net' dc'.
Proof.
  intros Hok Hup Hq Hqm Hp Hpm Hms. revert q p net dc r Hup Hq Hqm Hp Hpm.
  induction Hms as [|m ms [Hm Hmv] _ IH]; intros q p net dc r Hup Hq Hqm Hp Hpm.
  { exists net, dc, r. cbn. by rewrite zlen_nil, !Z.add_0_r. }
  rewrite zlen_cons in *. pose proof (zlen_nonneg ms).
  destruct (send_one_spec q p net dc m r Hok Hup) as (net1 & dc1 & r1 & E1 & Hup1); [lia|lia|done|done|].
  destruct (IH (q + 1) (p + 1) net1 dc1 r1 Hup1) as (net2 & dc2 & r2 & E2 & Hup2); [lia..|].
  exists net2, dc2, r2. cbn [send_all]. rewrite E1. cbn [mbind option_bind]. rewrite E2. split; [done|].
  by replace (q + (1 + zlen ms)) with (q + 1 + zlen ms) by lia; replace (p + (1 + zlen ms)) with (p + 1 + zlen ms) by lia.
Qed.

End session.
End stream.
