(* ===== verification/RelayBuild.v ===== *)
(** * Building a circuit

    The setup an originator sends goes from relay to relay, each installing its part; the terminus
    acknowledges, and the acknowledgement comes back to the originator, whose circuit is then
    confirmed and up. *)

From S2P Require Import Prelude Crypto Onion CircuitData CircuitReplay CircuitSetup CircuitTable CircuitTableInv.
From S2P Require Import CircuitRegister Float ServiceBudget Relay RelayInv RelayPath RelayStream.

(** The identifiers a circuit takes at a relay, on the link it comes from and the link it goes to. *)
Definition ends (x : Station) : list (Link * CircuitId) :=
  (at_prev x, at_in x) :: match at_next x with Some nl => [(nl, at_out x)] | None => [] end.

(** A table in which the identifiers of the station [x] are free and there is room for [k] circuits. *)
Record free_table (k : nat) (x : Station) (t : CircuitTable) : Prop := {
  ft_ends : forall e, e ∈ ends x -> fwd t !! e = None /\ bwd t !! e = None;
  ft_links : at_next x <> Some (at_prev x);
  ft_total : (size (fwd t) + k <= max_total t)%nat;
  ft_link : (bucket_len t (at_prev x) + k <= max_per_link t)%nat
}.

(** A relay with such a table that serves without a budget, as a core node does. *)
Record free_at (k : nat) (sk : Key) (x : Station) (n : Relay) : Prop := {
  fr_ok : relay_ok n;
  fr_sk : anonymity_x25519_sk n = Some sk;
  fr_budget : is_unmetered (service_budget n) = true;
  fr_table : exists t, circuit_table n = Some t /\ free_table k x t
}.

(** The circuits of two stations take different identifiers where they meet. *)
Definition clear_of (x y : Station) : Prop := at_node x = at_node y -> forall e, e ∈ ends x -> e ∉ ends y.

Lemma free_less k sk x n : free_at (S k) sk x n -> free_at k sk x n.
Proof. intros [Hok Hsk Hb (t & Et & [])]. split; [done..|]. exists t. split; [done|]. split; [done..| |]; lia. Qed.

(** Installing there succeeds, and adds the circuit to the indexes. *)
Record added (x : Station) (c : Ref) (s : CircuitState) (t t' : CircuitTable) : Prop := {
  ad_new : states t !! c = None;
  ad_state : states t' !! c = Some s;
  ad_states : forall c', c' <> c -> states t' !! c' = states t !! c';
  ad_fwd : fwd t' = <[(at_prev x, at_in x) := c]> (fwd t);
  ad_bwd : bwd t' = match at_next x with Some nl => <[(nl, at_out x) := c]> (bwd t) | None => bwd t end;
  ad_links : per_link t' = bucket_push (per_link t) (at_prev x) (at_in x);
  ad_caps : max_total t' = max_total t /\ max_per_link t' = max_per_link t
}.

Lemma install_free k x t install now : table_ok t -> free_table (S k) x t ->
  in_circuit_id_in install = at_in x -> in_circuit_id_out install = at_out x ->
  exists c t', table_install t install (at_prev x) (at_next x) now = (inr c, t') /\
    added x c (from_install install (at_prev x) (at_next x) now) t t'.
Proof.
  intros Ht [He _ Hn Hl] Ei Eo. destruct (He (at_prev x, at_in x)) as [Hf _]; [by left|].
  unfold table_install. rewrite Ei, Hf. cbn [is_some is_some_and].
  assert ((max_total t <=? size (fwd t))%nat = false) as -> by (apply Nat.leb_gt; lia).
  assert ((max_total t <=? size (fwd t))%nat = false) as -> by (apply Nat.leb_gt; lia).
  assert ((max_per_link t <=? bucket_len t (at_prev x))%nat = false) as El by (apply Nat.leb_gt; lia). rewrite !El.
  assert (is_some_and (at_next x) (fun nl => is_some (bwd t !! (nl, in_circuit_id_out install))) = false) as ->.
  { destruct (at_next x) as [nl|] eqn:En; [|done]. cbn. rewrite Eo. destruct (He (nl, at_out x)) as [_ ->]; [|done].
    unfold ends. rewrite En. right. by left. }
  eexists _, _. split; [done|]. unfold insert_state. cbn [prev_link circuit_id_in next_link circuit_id_out from_install].
  rewrite Ei, Eo. set (c := fresh (dom (states t))). split; cbn.
  - apply not_elem_of_dom, is_fresh.
  - destruct (at_next x); cbn; by rewrite lookup_insert_eq.
  - intros c' Hne. destruct (at_next x); cbn; by rewrite lookup_insert_ne.
  - by destruct (at_next x).
  - by destruct (at_next x).
  - by destruct (at_next x).
  - by destruct (at_next x).
Qed.

Lemma added_alter f x c s t t' : added x c s t t' -> added x c (f s) t (t' <| states := alter f c (states t') |>).
Proof.
  intros []. split; cbn; try done.
  - by rewrite lookup_alter_eq, ad_state0.
  - intros c' Hne. rewrite lookup_alter_ne by done. by apply ad_states0.
Qed.

(** There a station whose identifiers are others keeps its room, but for one circuit. *)
Lemma free_added k x y c s t t' : added x c s t t' -> (forall e, e ∈ ends x -> e ∉ ends y) -> free_table (S k) y t -> free_table k y t'.
Proof.
  intros [_ _ _ Ef Eb El [Em1 Em2]] Hc [He Hne Hn Hl]. split; [|done|..].
  - intros e Hin. destruct (He e Hin) as [E1 E2]. rewrite Ef, Eb, lookup_insert_ne by (intros <-; by apply (Hc (at_prev x, at_in x)); [left|]).
    split; [done|]. destruct (at_next x) as [nl|] eqn:En; [|done]. rewrite lookup_insert_ne; [done|]. intros <-.
    apply (Hc (nl, at_out x)); [|done]. unfold ends. rewrite En. right. by left.
  - rewrite Ef, Em1. destruct (decide (is_Some (fwd t !! (at_prev x, at_in x)))).
    + rewrite map_size_insert_Some by done. lia.
    + rewrite map_size_insert_None by (by apply eq_None_not_Some). lia.
  - rewrite Em2. unfold bucket_len. rewrite El. fold (bucket (bucket_push (per_link t) (at_prev x) (at_in x)) (at_prev y)).
    rewrite bucket_push_length. unfold bucket_len in Hl. fold (bucket (per_link t) (at_prev y)) in Hl.
    case_decide as E; [rewrite <- E|]; lia.
Qed.

(** The network in which the station [x] was added: it is up, and so is every other that was. *)
Lemma add_station net x n n' k t t' c cell s : net !! at_node x = Some n -> circuit_table n = Some t -> free_table k x t ->
  circuit_table n' = Some t' -> added x c s t t' -> carries cell 1 1 x s ->
  up_at cell 1 1 (<[at_node x := n']> net) x /\
  forall cell' a b y, up_at cell' a b net y -> up_at cell' a b (<[at_node x := n']> net) y.
Proof.
  intros En Et [He Hne _ _] Et' [Hc Hs Hst Ef Eb _ _] Hca. destruct (He (at_prev x, at_in x)) as [Hf Ho]; [by left|]. split.
  - exists n', t', c, s. rewrite lookup_insert_eq. split_and!; [done..| |done]. split.
    + split; [|done]. by rewrite Ef, lookup_insert_eq.
    + intros nl Enl. unfold lookup_forward, lookup_backward. rewrite Ef, Eb, Enl, lookup_insert_eq. split; [done|].
      rewrite lookup_insert_ne by congruence. apply He. unfold ends. rewrite Enl. right. by left.
  - intros cell' a b y (m & tm & cy & sy & Em & Etm & Hy & Hcy). destruct (decide (at_node y = at_node x)) as [E|Hn].
    2:{ exists m, tm, cy, sy. by rewrite lookup_insert_ne. }
    rewrite E, En in Em. injection Em as <-. rewrite Et in Etm. injection Etm as <-. destruct Hy as [[Efy Esy] Hby].
    exists n', t', cy, sy. rewrite E, lookup_insert_eq. split_and!; [done..| |done]. split.
    + split; [rewrite Ef, lookup_insert_ne; [done|congruence]|]. rewrite Hst; [done|congruence].
    + intros nl Enl. destruct (Hby nl Enl) as [E1 E2]. unfold lookup_forward, lookup_backward in *.
      rewrite Ef, lookup_insert_ne by congruence. split; [|done]. rewrite Eb. destruct (at_next x) as [nx|] eqn:Ex; [|done].
      destruct (He (nx, at_out x)) as [_ E3]; [unfold ends; rewrite Ex; right; by left|]. rewrite lookup_insert_ne; [done|congruence].
Qed.

Section keys.
(** The keys of the relays. *)
Context (keys : gmap (list byte) Key).

Definition free_in (k : nat) (net : Net) (x : Station) : Prop :=
  exists n, net !! at_node x = Some n /\ free_at k (default [] (keys !! at_node x)) x n.

Lemma free_in_same k net net' x : net' !! at_node x = net !! at_node x -> free_in k net x -> free_in k net' x.
Proof. intros E (n & En & Hn). exists n. by rewrite E. Qed.

(** From [net] to [net'] the stations [xs] were added, and nothing was lost but room. *)
Record grows (net net' : Net) (xs : list Station) : Prop := {
  gr_same : forall id, (id ∉ at_node <$> xs) -> net' !! id = net !! id;
  gr_up : forall cell a b y, up_at cell a b net y -> up_at cell a b net' y;
  gr_free : forall k y, Forall (fun x => clear_of x y) xs -> free_in (S k) net y -> free_in k net' y
}.

(** And no registration was replaced. *)
Definition keeps_bound (net net' : Net) : Prop := forall y ck, bound net y ck -> bound net' y ck.

Lemma grows_refl net : grows net net [].
Proof. split; [done..|]. intros k y _ (n & En & Hn). exists n. split; [done|by apply free_less]. Qed.

Lemma grows_trans net1 net2 net3 xs ys : NoDup (at_node <$> xs ++ ys) -> grows net1 net2 xs -> grows net2 net3 ys ->
  grows net1 net3 (xs ++ ys).
Proof.
  intros Hnd [Hs1 Hu1 Hf1] [Hs2 Hu2 Hf2]. split; [|auto|].
  - intros id Hid. rewrite fmap_app in Hid. apply not_elem_of_app in Hid as [? ?]. by rewrite Hs2, Hs1.
  - intros k y Hc Hy. apply Forall_app in Hc as [Hcx Hcy]. destruct (decide (at_node y ∈ at_node <$> xs)) as [Hin|Hout].
    + eapply free_in_same; [|by apply Hf1]. apply Hs2. rewrite fmap_app in Hnd. apply NoDup_app in Hnd as (_ & Hd & _). by apply Hd.
    + apply Hf2; [done|]. eapply free_in_same; [|exact Hy]. by apply Hs1.
Qed.

(** The node [n'] with the circuit of the station [x] added. *)
Lemma grows_add net x n n' k t t' c cell s : net !! at_node x = Some n -> circuit_table n = Some t -> free_table k x t ->
  circuit_table n' = Some t' -> added x c s t t' -> carries cell 1 1 x s -> relay_ok n' ->
  anonymity_x25519_sk n' = anonymity_x25519_sk n -> is_unmetered (service_budget n') = is_unmetered (service_budget n) ->
  up_at cell 1 1 (<[at_node x := n']> net) x /\ grows net (<[at_node x := n']> net) [x].
Proof.
  intros En Et Hx Et' Had Hca Hok Esk Ebu. destruct (add_station net x n n' k t t' c cell s) as [Hup Hkeep]; [done..|].
  split; [done|]. split; [|done|].
  - intros id Hid. cbn in Hid. rewrite list_elem_of_singleton in Hid. by rewrite lookup_insert_ne.
  - intros j y Hc (m & Em & Hm). pose proof (Forall_inv Hc) as Hcx. destruct (decide (at_node x = at_node y)) as [E|Hne].
    2:{ exists m. rewrite lookup_insert_ne by done. split; [done|by apply free_less]. }
    rewrite <- E, En in Em. injection Em as <-. exists n'. rewrite <- E, lookup_insert_eq. split; [done|].
    destruct Hm as [_ Hsk Hbu (t0 & Et0 & Hft)]. rewrite Et in Et0. injection Et0 as <-.
    split; [done|by rewrite Esk, Hsk, E|by rewrite Ebu|]. exists t'. split; [done|]. exact (free_added j x y c s t t' Had (Hcx E) Hft).
Qed.

Lemma keeps_bound_add net x n n' k t t' c s : net !! at_node x = Some n -> circuit_table n = Some t -> free_table k x t ->
  circuit_table n' = Some t' -> added x c s t t' -> circuit_rendezvous n' = circuit_rendezvous n ->
  keeps_bound net (<[at_node x := n']> net).
Proof.
  intros En Et Hx Et' Had Eg y ck (m & tm & g & cy & Em & Etm & Egm & El & Ec).
  destruct (decide (at_node y = at_node x)) as [E|Hn]; [|exists m, tm, g, cy; by rewrite lookup_insert_ne].
  rewrite E, En in Em. injection Em as <-. rewrite Et in Etm. injection Etm as <-.
  exists n', t', g, cy. rewrite E, lookup_insert_eq, Eg. split_and!; [done..|].
  destruct (ft_ends _ _ _ Hx (at_prev x, at_in x)) as [Hf _]; [by left|]. unfold lookup_forward in *.
  rewrite (ad_fwd _ _ _ _ _ Had), lookup_insert_ne; [done|congruence].
Qed.

End keys.

Section build.
Context `{X25519Laws} `{!X25519Honest} `{AeadLaws} `{!AeadTotal} `{Blake3} `{Blake3KdfLaws} `{ChaCha20Laws} `{Ed25519}
  {R : Type} `{RngLaws R}.
Implicit Types (net : Net) (r : R).

Definition install_for (x : Station) (cell : CircuitCellBytes) : CircuitInstall :=
  mkInstall (at_in x) (at_out x) (at_key x) cell.

Lemma from_install_carries x cell now : carries cell 1 1 x (from_install (install_for x cell) (at_prev x) (at_next x) now).
Proof. split; cbn; try done; apply below_new. Qed.

(** A handler keeps the invariant of its node. *)
Lemma dispatch_keeps n msg body link carrier now r n' r' out :
  dispatch_circuit n msg body link carrier now r = Some (n', r', out) -> relay_ok n -> relay_ok n'.
Proof.
  intros E Hn. destruct (dispatch_ok n msg body link carrier now r Hn) as (n2 & r2 & out2 & E2 & Hn2).
  rewrite E in E2. by injection E2 as <- <- <-.
Qed.

(** A relay installs its part and passes the rest on. *)
Lemma relay_installs keys net x n k sk cell nl env inner now r : net !! at_node x = Some n -> free_at (S k) sk x n ->
  at_next x = Some nl -> peel_circuit_setup env sk = inr (SetupForward (install_for x cell) nl inner) ->
  exists n', dispatch_circuit n CircuitBuild env (at_prev x) None now r = Some (n', r, [Send nl CircuitBuild inner None]) /\
    up_at cell 1 1 (<[at_node x := n']> net) x /\ grows keys net (<[at_node x := n']> net) [x] /\
    keeps_bound net (<[at_node x := n']> net).
Proof.
  intros En [Hok Hsk Hbu (t & Et & Hft)] Hnl Ep. destruct (relay_table n t Hok Et) as [Ht _].
  destruct (install_free k x t (install_for x cell) (unix now) Ht Hft) as (c & t' & Ei & Had); [done..|].
  eassert (dispatch_circuit n CircuitBuild env (at_prev x) None now r = _) as Ed.
  { cbn [dispatch_circuit]. unfold handle_circuit_build. rewrite Hsk, Et, Ep. unfold try_serve_at. rewrite Hbu. cbn [negb].
    rewrite Hnl in Ei. rewrite Ei. reflexivity. }
  rewrite Ed. eexists. split; [done|]. apply dispatch_keeps in Ed; [|done]. set (n' := _ <| circuit_table := Some t' |>) in *.
  destruct (grows_add keys net x n n' (S k) t t' c cell _ En Et Hft eq_refl Had (from_install_carries x cell (unix now))) as [Hup Hgr];
    [done..|]. split_and!; [done..|]. by apply (keeps_bound_add net x n n' (S k) t t' c _ En Et Hft eq_refl Had).
Qed.

(** The acknowledgement of the circuit with the terminus key [key], on the link of [cid]. *)
Definition ack_body (cid : CircuitId) (key : Key) : list byte := built_encode (mkBuilt cid (circuit_built_token key)).

(** A registration the relay's registry will take. *)
Definition registers (n : Relay) (payload : list byte) : Prop :=
  forall p, register_decode payload = Some p -> exists g fresh_cookie, circuit_rendezvous n = Some g /\ register_check g p = inr fresh_cookie.

(** The terminus installs the circuit, binds the cookie if the setup registers one, and acknowledges. *)
Lemma terminus_installs keys net x n k sk cell env payload now r : net !! at_node x = Some n -> free_at (S k) sk x n ->
  at_next x = None -> peel_circuit_setup env sk = inr (SetupTerminus (install_for x cell) payload) -> registers n payload ->
  exists n', dispatch_circuit n CircuitBuild env (at_prev x) None now r =
      Some (n', r, [Send (at_prev x) CircuitBuilt (ack_body (at_in x) (at_key x)) None]) /\
    up_at cell 1 1 (<[at_node x := n']> net) x /\ grows keys net (<[at_node x := n']> net) [x] /\
    match register_decode payload with
    | Some p => bound (<[at_node x := n']> net) x (cookie p)
    | None => keeps_bound net (<[at_node x := n']> net)
    end.
Proof.
  intros En [Hok Hsk Hbu (t & Et & Hft)] Hnl Ep Hreg. destruct (relay_table n t Hok Et) as [Ht _].
  destruct (install_free k x t (install_for x cell) (unix now) Ht Hft) as (c & t' & Ei & Had); [done..|].
  pose proof (from_install_carries x cell (unix now)) as Hca. set (s := from_install _ _ _ _) in Had, Hca.
  destruct (register_decode payload) as [p|] eqn:Ed.
  - destruct (Hreg p Ed) as (g & fc & Eg & Echk).
    eassert (dispatch_circuit n CircuitBuild env (at_prev x) None now r = _) as Edi.
    { cbn [dispatch_circuit]. unfold handle_circuit_build, terminus_register, register. rewrite Hsk, Et, Ep. rewrite Hnl in Ei.
      rewrite Ei, Eg, Ed, Echk. reflexivity. }
    rewrite Edi. eexists. split; [done|]. apply dispatch_keeps in Edi; [|done].
    set (t2 := t' <| states := _ |>) in *. set (n' := _ <| circuit_rendezvous := _ |>) in *.
    pose proof (added_alter (fun s => set_registered_cookie s (cookie p)) x c s t t' Had : added _ _ _ _ t2) as Had2.
    destruct (grows_add keys net x n n' (S k) t t2 c cell _ En Et Hft eq_refl Had2) as [Hup Hgr]; [by destruct Hca|done..|].
    split_and!; [done..|]. exists n', t2. eexists _, c. rewrite lookup_insert_eq. split_and!; [done..| |].
    + unfold reg_lookup, register_bind. by rewrite reg_insert_subs, lookup_insert_eq.
    + unfold lookup_forward. by rewrite (ad_fwd _ _ _ _ _ Had2), lookup_insert_eq.
  - eassert (dispatch_circuit n CircuitBuild env (at_prev x) None now r = _) as Edi.
    { cbn [dispatch_circuit]. unfold handle_circuit_build. rewrite Hsk, Et, Ep. rewrite Hnl in Ei. rewrite Ei.
      assert (forall c, terminus_register (circuit_rendezvous n) t' payload c (unix now) = (true, circuit_rendezvous n, t')) as ->
        by (intros; unfold terminus_register; rewrite Ed; by destruct (circuit_rendezvous n)). reflexivity. }
    rewrite Edi. eexists. split; [done|]. apply dispatch_keeps in Edi; [|done]. set (n' := _ <| circuit_rendezvous := _ |>) in *.
    destruct (grows_add keys net x n n' (S k) t t' c cell _ En Et Hft eq_refl Had Hca) as [Hup Hgr]; [done..|].
    split_and!; [done..|]. by apply (keeps_bound_add net x n n' (S k) t t' c _ En Et Hft eq_refl Had).
Qed.

(** ** Down the path *)

Section path.
Context (keys : gmap (list byte) Key) (clock : Link -> Clock) (cell : CircuitCellBytes) (payload : list byte).
Hypothesis (Hcell : is_cell_size cell).

Definition hop_of (h : CircuitSetupHop) : PathHop := mkPathHop (sh_node_id h) (sh_circuit_id_in h) (sh_circuit_key h).

(** The outgoing identifier of a hop is the incoming one of the next. *)
Fixpoint linked (h : CircuitSetupHop) (hs : list CircuitSetupHop) : Prop :=
  match hs with
  | [] => sh_circuit_id_out h = 0
  | h' :: hs => sh_circuit_id_out h = sh_circuit_id_in h' /\ linked h' hs
  end.

Abbreviation setup_nested :=
  (nested (fun this next => build_layer (sh_node_id next) this cell)
     (fun last => build_layer FINAL_HOP_SENTINEL last cell payload) (setup_sk keys) SETUP_PREFIX_LEN (zlen payload)).

Lemma path_down fuel prev h hs env net r :
  setup_nested (h :: hs) env -> linked h hs -> Forall (setup_published keys) (h :: hs) ->
  Forall (free_in keys 1 net) (stations prev (hop_of h) (hop_of <$> hs)) -> NoDup (sh_node_id <$> h :: hs) ->
  let T := terminus prev (hop_of h) (hop_of <$> hs) in
  exists net' env',
    carry (length hs + fuel) clock net prev (sh_node_id h) CircuitBuild env r =
      carry fuel clock net' (at_prev T) (at_node T) CircuitBuild env' r /\
    peel_circuit_setup env' (default [] (keys !! at_node T)) = inr (SetupTerminus (install_for T cell) payload) /\
    Forall (up_at cell 1 1 net') (relays prev (hop_of h) (hop_of <$> hs)) /\ free_in keys 1 net' T /\
    grows keys net net' (relays prev (hop_of h) (hop_of <$> hs)) /\ keeps_bound net net'.
Proof.
  revert prev h env net r. induction hs as [|h' hs IH]; intros prev h env net r Hn Hlk Hpub Hfree Hnd.
  - apply Forall_singleton in Hpub as (Hhop & _ & _ & _). destruct Hn as [_ Hn]. cbn in Hlk.
    exists net, env. pose proof (peel_setup_layer env _ _ _ _ _ Hn eq_refl Hhop Hcell) as Ep.
    rewrite bool_decide_true in Ep by done. unfold install_of in Ep. rewrite Hlk in Ep.
    split_and!; [done|exact Ep|constructor|by inversion Hfree|apply grows_refl|by intros ? ?].
  - apply Forall_cons in Hpub as [(Hhop & _ & _ & _) Hpub]. destruct Hn as [_ (inner & Hn & Hnest)]. destruct Hlk as [Ho Hlk].
    cbn [fmap list_fmap stations relays terminus] in *. fold (fmap (M := list) hop_of hs) in *.
    apply Forall_cons in Hfree as [(n & En & Hfx) Hfree].
    set (x := mkStation (ph_node (hop_of h)) prev _ _ _ _) in *.
    assert (sh_node_id h' <> FINAL_HOP_SENTINEL /\ zlen (sh_node_id h') = NEXT_HOP_ID_LEN) as [Hne Hl].
    { apply Forall_cons in Hpub as [(Hh' & ? & _) _]. split; [done|apply Hh']. }
    assert (peel_circuit_setup env (default [] (keys !! at_node x)) =
      inr (SetupForward (install_for x cell) (sh_node_id h') inner)) as Ep.
    { pose proof (peel_setup_layer env _ _ _ _ _ Hn Hl Hhop Hcell) as Ep. rewrite bool_decide_false in Ep by done.
      unfold install_of in Ep. rewrite Ho in Ep. exact Ep. }
    destruct (relay_installs keys net x n 0 _ cell (sh_node_id h') env inner (clock (at_node x)) r En Hfx eq_refl Ep)
      as (n' & Ed & Hx & Hgr & Hkb).
    assert (NoDup (at_node <$> x :: stations (sh_node_id h) (hop_of h') (hop_of <$> hs))) as Hnodes.
    { rewrite fmap_cons, stations_nodes, <- fmap_cons, <- list_fmap_compose. exact Hnd. }
    apply NoDup_cons in Hnd as [Hnot Hnd].
    destruct (IH (sh_node_id h) h' inner (<[at_node x := n']> net) r Hnest Hlk Hpub) as (net' & env' & E & Ept & Hup & Hft & Hgr' & Hkb').
    + apply Forall_forall. intros y Hy. eapply Forall_forall in Hfree; [|exact Hy]. eapply free_in_same; [|exact Hfree].
      apply lookup_insert_ne. intros E. rewrite fmap_cons in Hnodes. apply NoDup_cons in Hnodes as [Hout _]. apply Hout.
      rewrite E. by apply list_elem_of_fmap_2.
    + done.
    + exists net', env'. split; [exact (eq_trans (carry_step _ _ _ _ _ _ _ _ _ _ _ _ _ _ _ En Ed) E)|].
      split_and!; [done| |done| |by intros y ck ?; apply Hkb', Hkb]; [constructor; [|done]; by apply (gr_up _ _ _ _ Hgr')|].
      refine (grows_trans keys _ _ _ [x] _ _ Hgr Hgr'). rewrite stations_app, app_comm_cons, fmap_app in Hnodes.
      by apply NoDup_app in Hnodes as (? & _ & _).
Qed.

End path.

(** ** The acknowledgement *)

Lemma ack_decode cid key : is_u32 cid -> built_decode (ack_body cid key) = inr (mkBuilt cid (circuit_built_token key)).
Proof. intros Hc. apply built_decode_encode; [done|]. apply blake3_derive_key_len. Qed.

Lemma relay_acks cell a b net x nl key now r : up_at cell a b net x -> at_next x = Some nl -> is_u32 (at_out x) ->
  exists n, net !! at_node x = Some n /\
    dispatch_circuit n CircuitBuilt (ack_body (at_out x) key) nl None now r =
      Some (n, r, [Send (at_prev x) CircuitBuilt (ack_body (at_in x) key) None]).
Proof.
  intros (n & t & c & s & En & Et & [[_ Es] Hb] & Hs) Hnl Ho. exists n. split; [done|]. destruct (Hb nl Hnl) as [Eb _].
  cbn [dispatch_circuit]. unfold handle_circuit_built. rewrite ack_decode by done. rewrite Et. cbn [mbind option_bind built_circuit_id].
  rewrite Eb. cbn [mbind option_bind]. rewrite Es, (ca_prev _ _ _ _ _ Hs), (ca_in _ _ _ _ _ Hs). done.
Qed.

Lemma path_up fuel clock cell a b prev h hs net key r :
  Forall (up_at cell a b net) (relays prev h hs) -> Forall (fun h => is_u32 (ph_cid h)) (h :: hs) ->
  carry (length hs + fuel) clock net (at_node (terminus prev h hs)) (at_prev (terminus prev h hs)) CircuitBuilt
      (ack_body (at_in (terminus prev h hs)) key) r =
    carry fuel clock net (ph_node h) prev CircuitBuilt (ack_body (ph_cid h) key) r.
Proof.
  revert fuel prev h. induction hs as [|h' hs IH]; intros fuel prev h Hup Hu; [done|].
  cbn [relays terminus] in *. apply Forall_cons in Hup as [Hx Hup]. apply Forall_cons in Hu as [_ Hu].
  cbn [length]. replace (S (length hs) + fuel)%nat with (length hs + S fuel)%nat by lia. rewrite IH by done.
  set (x := mkStation _ _ _ _ _ _) in Hx.
  destruct (relay_acks cell a b net x (ph_node h') key (clock (ph_node h)) r Hx eq_refl) as (n & En & Ed); [by inversion Hu|].
  etrans; [exact (carry_step _ _ _ _ _ _ _ _ _ _ _ _ _ _ _ En Ed)|]. by rewrite insert_id.
Qed.

(** The originator has the circuit confirmed. *)
Definition confirmed_at (h : PathHop) (n : Relay) : Prop :=
  exists t o c, circuit_origin n = Some t /\ origin_lookup t (ph_node h) (ph_cid h) = Some o /\ origins n !! o = Some c /\
    confirmed c = true.

Lemma origin_confirms cell prev h hs n now r : originates cell h hs n -> is_u32 (ph_cid h) ->
  exists n', dispatch_circuit n CircuitBuilt (ack_body (ph_cid h) (at_key (terminus prev h hs))) (ph_node h) None now r = Some (n', r, []) /\
    originates cell h hs n' /\ confirmed_at h n' /\ circuit_table n' = circuit_table n /\
    circuit_rendezvous n' = circuit_rendezvous n /\ stream_recv n' = stream_recv n.
Proof.
  intros [(t & o & c & Et & El & Eo & Ek & Ec) Hn] Hi. cbn [dispatch_circuit]. unfold handle_circuit_built.
  rewrite ack_decode by done. cbn [built_circuit_id built_token].
  assert ((t ← circuit_table n; c ← lookup_backward t (ph_node h) (ph_cid h); states t !! c) = None) as ->.
  { destruct (circuit_table n) as [t0|]; [|done]. cbn. by destruct (Hn t0 eq_refl) as [_ ->]. }
  rewrite Et. cbn [mbind option_bind]. rewrite El. cbn [mbind option_bind]. rewrite Eo. cbn [mbind option_bind].
  assert (last (circuit_keys c) = Some (at_key (terminus prev h hs))) as ->.
  { rewrite Ek, <- (stations_keys prev), stations_app, fmap_app. apply last_snoc. }
  rewrite (proj2 (token_matches_spec _ _ eq_refl) eq_refl). cbn [negb]. eexists. split; [done|].
  split_and!; [|exists t, o, (mark_confirmed c); cbn; by rewrite lookup_insert_eq|done..]. split; [|done].
  exists t, o, (mark_confirmed c). cbn. by rewrite lookup_insert_eq.
Qed.

(** ** The whole *)

(** The path an originator drew: the relays with the identifiers and keys. *)
Definition path_hop (h : Hop) (d : CircuitId * Key) : PathHop := mkPathHop (hop_node_id h) d.1 d.2.
Definition path_of (hops : list Hop) (drawn : list (CircuitId * Key)) : list PathHop := zip_with path_hop hops drawn.

Lemma setup_hops_path hops drawn : length drawn = length hops -> hop_of <$> setup_hops hops drawn = path_of hops drawn.
Proof.
  revert drawn. induction hops as [|h hops IH]; intros [|[cid key] drawn] E; cbn in *; try done. f_equal. apply IH. lia.
Qed.

Lemma setup_hops_linked hops drawn h hs : length drawn = length hops -> setup_hops hops drawn = h :: hs -> linked h hs.
Proof.
  revert drawn h hs. induction hops as [|h0 hops IH]; intros [|[cid key] drawn] h hs E Es; cbn in *; try done.
  injection Es as <- <-. destruct hops as [|h1 hops], drawn as [|[cid' key'] drawn]; try done.
  split; [done|]. apply (IH ((cid', key') :: drawn)); [cbn in *; lia|done].
Qed.

Lemma path_of_keys hops drawn : length drawn = length hops -> ph_key <$> path_of hops drawn = drawn.*2.
Proof.
  revert drawn. induction hops as [|h hops IH]; intros [|d drawn] E; cbn in *; try done. by rewrite IH by lia.
Qed.

Lemma path_of_nodes hops drawn : length drawn = length hops -> ph_node <$> path_of hops drawn = hop_node_id <$> hops.
Proof.
  revert drawn. induction hops as [|h hops IH]; intros [|d drawn] E; cbn in *; try done. by rewrite IH by lia.
Qed.

Lemma path_of_cids hops drawn : Forall drawn_ok drawn -> Forall (fun h => is_u32 (ph_cid h)) (path_of hops drawn).
Proof.
  revert drawn. induction hops as [|h hops IH]; intros [|d drawn] Hd; cbn; try constructor;
    apply Forall_cons in Hd as [[? _] ?]; [done|by apply IH].
Qed.

Lemma drawn_path h hops d ds : length ds = length hops ->
  exists s ss, setup_hops (h :: hops) (d :: ds) = s :: ss /\ hop_of s = path_hop h d /\ hop_of <$> ss = path_of hops ds /\
    linked s ss /\ length ss = length hops /\ sh_node_id <$> s :: ss = hop_node_id <$> h :: hops /\
    ph_node <$> path_hop h d :: path_of hops ds = hop_node_id <$> h :: hops.
Proof.
  intros Hl. destruct d as [cid key]. cbn [setup_hops]. eexists _, _. split; [done|].
  pose proof (setup_hops_path hops ds Hl) as Ehop. pose proof (path_of_nodes hops ds Hl) as Eid.
  split_and!; [done..| | | |by cbn; rewrite Eid].
  - apply (setup_hops_linked (h :: hops) ((cid, key) :: ds)); [cbn; lia|done].
  - by apply length_setup_hops.
  - cbn. f_equal. rewrite <- Eid, <- Ehop, <- list_fmap_compose. done.
Qed.

(** The originator has room for the circuit of the path [h :: hs]: in its table of circuits, and no
    circuit it relays has that identifier on that link. *)
Record can_open (h : PathHop) (n : Relay) : Prop := {
  co_origin : exists t, circuit_origin n = Some t /\ (size (ot_inner t) < ot_cap t)%nat;
  co_table : forall t, circuit_table n = Some t ->
    lookup_forward t (ph_node h) (ph_cid h) = None /\ lookup_backward t (ph_node h) (ph_cid h) = None
}.

Lemma choose_cell_bytes_ok : is_cell_size choose_cell_bytes.
Proof. done. Qed.

Section establish.
Context (keys : gmap (list byte) Key) (clock : Link -> Clock).

Abbreviation CELL := choose_cell_bytes (only parsing).

(** Opening a circuit, and all that follows from the setup. *)
Definition establish (net : Net) (me : Link) (hops : list Hop) (payload : list byte) (r : R) :
    option (Net * DataCircuit * R * (Link * list Output)) :=
  n ← net !! me;
  '(opened, n, r) ← open_data_circuit n hops payload (unix (clock me)) r;
  '(dc, setup) ← opened;
  '(net, r, out) ← carry (length hops + length hops) clock (<[me := n]> net) me (dc_first_hop dc) CircuitBuild setup r;
  Some (net, dc, r, out).

Lemma open_spec n h hops payload now r d ds : Forall (published keys) (h :: hops) -> zlen (h :: hops) < MAX_CIRCUIT_TTL ->
  zlen payload <= 2 ^ 31 -> (draw_hops (length (h :: hops)) r).1 = d :: ds -> can_open (path_hop h d) n ->
  exists env n' dc r', open_data_circuit n (h :: hops) payload now r = Some (Some (dc, env), n', r') /\
    length ds = length hops /\ Forall drawn_ok (d :: ds) /\
    nested (fun this next => build_layer (sh_node_id next) this CELL) (fun last => build_layer FINAL_HOP_SENTINEL last CELL payload)
      (setup_sk keys) SETUP_PREFIX_LEN (zlen payload) (setup_hops (h :: hops) (d :: ds)) env /\
    sends CELL (path_hop h d) (path_of hops ds) 1 dc /\ originates CELL (path_hop h d) (path_of hops ds) n' /\
    circuit_table n' = circuit_table n /\ circuit_rendezvous n' = circuit_rendezvous n /\ d.1 ∈ stream_recv n'.
Proof.
  intros Hpub Hlen Hpay Hd [(ot & Eot & Hroom) Htab].
  destruct (build_origin_spec keys h hops CELL payload now r Hpub Hlen Hpay) as (env & cid & key & drawn & r' & Eb & Edr & Hl & Hok & Hn).
  rewrite Hd in Edr. injection Edr as -> ->. unfold open_data_circuit. rewrite Eot, Eb. cbn [mbind option_bind].
  unfold origin_insert. cbn [origins]. rewrite lookup_insert_eq. cbn [first_hop origin_circuit_id].
  rewrite (proj2 (Nat.leb_gt _ _) Hroom), andb_false_r. exists env. eexists _, _, r'. split; [done|]. split_and!; [done..| | |done|done|].
  - split; cbn; try done. by rewrite path_of_keys.
  - split; [|done]. eexists _, _, _. split; [done|]. split; [apply lookup_insert_eq|]. split; [apply lookup_insert_eq|].
    cbn. by rewrite path_of_keys.
  - cbn. set_solver.
Qed.

(** The relays' side: the setup [env] is carried down the path and its acknowledgement back. *)
Lemma path_established net me s ss env payload k r :
  nested (fun this next => build_layer (sh_node_id next) this CELL) (fun last => build_layer FINAL_HOP_SENTINEL last CELL payload)
    (setup_sk keys) SETUP_PREFIX_LEN (zlen payload) (s :: ss) env ->
  linked s ss -> Forall (setup_published keys) (s :: ss) -> NoDup (sh_node_id <$> s :: ss) ->
  let p := hop_of s in let ps := hop_of <$> ss in let T := terminus me p ps in
  Forall (free_in keys 1 net) (stations me p ps) -> (forall n, net !! at_node T = Some n -> registers n payload) ->
  exists net',
    carry (length ss + (1 + (length ss + k))) clock net me (sh_node_id s) CircuitBuild env r =
      carry k clock net' (ph_node p) me CircuitBuilt (ack_body (ph_cid p) (at_key T)) r /\
    Forall (up_at CELL 1 1 net') (stations me p ps) /\ grows keys net net' (stations me p ps) /\
    match register_decode payload with Some reg => bound net' T (cookie reg) | None => keeps_bound net net' end.
Proof.
  intros Hn Hlk Hpub Hnd p ps T Hfree Hreg.
  destruct (path_down keys clock CELL payload choose_cell_bytes_ok (1 + (length ss + k)) me s ss env net r Hn Hlk Hpub Hfree Hnd)
    as (net1 & env' & -> & Ep & Hup & (n & En & Hft) & Hgr & Hkb). fold p ps T in Ep, Hup, En, Hft, Hgr |- *.
  assert (NoDup (at_node <$> stations me p ps)) as Hnodes.
  { rewrite stations_nodes. unfold p, ps. rewrite <- (fmap_cons hop_of), <- list_fmap_compose. exact Hnd. }
  rewrite stations_app in Hnodes. fold T in Hnodes.
  assert (at_node T ∉ at_node <$> relays me p ps) as HT.
  { rewrite fmap_app in Hnodes. apply NoDup_app in Hnodes as (_ & Hd & _). intros Hin. apply (Hd _ Hin). by apply list_elem_of_singleton. }
  destruct (terminus_installs keys net1 T n 0 _ CELL env' payload (clock (at_node T)) r En Hft (terminus_next me p ps) Ep)
    as (n' & Ed & HupT & HgrT & Hb); [apply Hreg; by rewrite <- (gr_same _ _ _ _ Hgr)|].
  exists (<[at_node T := n']> net1). split_and!.
  - etrans; [exact (carry_step _ _ _ _ _ _ _ _ _ _ _ _ _ _ _ En Ed)|].
    replace (length ss) with (length ps) by apply length_fmap. apply (path_up k clock CELL 1 1 me p ps).
    + eapply Forall_impl; [exact Hup|]. intros x. apply (gr_up _ _ _ _ HgrT).
    + unfold ps, p. rewrite <- (fmap_cons hop_of), Forall_fmap. eapply Forall_impl; [exact Hpub|]. by intros h [[? _ _ _] _].
  - rewrite stations_app. apply Forall_app. split; [|by apply Forall_singleton].
    eapply Forall_impl; [exact Hup|]. intros x. apply (gr_up _ _ _ _ HgrT).
  - rewrite stations_app. exact (grows_trans keys _ _ _ _ _ Hnodes Hgr HgrT).
  - destruct (register_decode payload); [done|]. intros y ck Hy. by apply Hb, Hkb.
Qed.

(** What a circuit over [h :: hops] needs, with the identifiers and keys [d :: ds] it will draw: relays
    as the directory has them, distinct and each with room, and a terminus that takes the registration
    if the payload is one; [room] circuits fit. *)
Record can_establish (room : nat) (net : Net) (me : Link) (h : Hop) (hops : list Hop) (payload : list byte) (r : R)
    (d : CircuitId * Key) (ds : list (CircuitId * Key)) : Prop := {
  ce_published : Forall (published keys) (h :: hops);
  ce_length : zlen (h :: hops) < MAX_CIRCUIT_TTL;
  ce_payload : zlen payload <= 2 ^ 31;
  ce_distinct : NoDup (me :: (hop_node_id <$> h :: hops));
  ce_drawn : (draw_hops (length (h :: hops)) r).1 = d :: ds;
  ce_me : exists n, net !! me = Some n /\ can_open (path_hop h d) n;
  ce_free : Forall (free_in keys room net) (stations me (path_hop h d) (path_of hops ds));
  ce_register : forall n, net !! at_node (terminus me (path_hop h d) (path_of hops ds)) = Some n -> registers n payload
}.

Lemma can_establish_less k net me h hops payload r d ds :
  can_establish (S k) net me h hops payload r d ds -> can_establish k net me h hops payload r d ds.
Proof.
  intros []. split; try done. eapply Forall_impl; [eassumption|]. intros x (n & En & Hn). exists n. split; [done|by apply free_less].
Qed.

Lemma establish_spec net me h hops payload r d ds : can_establish 1 net me h hops payload r d ds ->
  let p := path_hop h d in let ps := path_of hops ds in let T := terminus me p ps in
  exists net' dc r' n', establish net me (h :: hops) payload r = Some (net', dc, r', (me, [])) /\
    sends CELL p ps 1 dc /\ Forall (up_at CELL 1 1 net') (stations me p ps) /\
    net' !! me = Some n' /\ originates CELL p ps n' /\ confirmed_at p n' /\ d.1 ∈ stream_recv n' /\
    (forall cell a b y, up_at cell a b net y -> up_at cell a b net' y) /\
    (forall id, id <> me -> (id ∉ hop_node_id <$> h :: hops) -> net' !! id = net !! id) /\
    (forall k y, at_node y <> me -> Forall (fun x => clear_of x y) (stations me p ps) ->
       free_in keys (S k) net y -> free_in keys k net' y) /\
    match register_decode payload with Some reg => bound net' T (cookie reg) | None => keeps_bound net net' end.
Proof.
  intros [Hpub Hlen Hpay Hnd Hdr (n & En & Hco) Hfree Hreg] p ps T. fold p ps T in Hco, Hfree, Hreg.
  destruct (open_spec n h hops payload (unix (clock me)) r d ds Hpub Hlen Hpay Hdr Hco)
    as (env & n0 & dc & r' & Eo & Hl & Hok & Hn & Hsd & Hor & Et & Eg & Hst).
  apply NoDup_cons in Hnd as [Hme Hnd].
  destruct (drawn_path h hops d ds Hl) as (s & ss & Es & Ep & Eps & Hlk & Hls & Eids & Eid). rewrite Es in Hn. fold p ps in Ep, Eps, Eid.
  assert (forall x, x ∈ stations me p ps -> at_node x <> me) as Hoff.
  { intros x Hx E. apply Hme. rewrite <- Eid, <- (stations_nodes me), <- E at 1. by apply list_elem_of_fmap_2. }
  destruct (path_established (<[me := n0]> net) me s ss env payload 1 r' Hn) as (net1 & E1 & Hup & Hgr & Hb).
  { done. }
  { rewrite <- Es. by apply setup_hops_published. }
  { by rewrite Eids. }
  { rewrite Ep, Eps. apply Forall_forall. intros x Hx. eapply Forall_forall in Hfree; [|exact Hx].
    eapply free_in_same; [|exact Hfree]. apply lookup_insert_ne. intros E. by apply (Hoff x Hx). }
  { rewrite Ep, Eps. intros m Em. rewrite lookup_insert_ne in Em; [by apply Hreg|]. intros E. apply (Hoff T); [|done].
    rewrite stations_app. apply elem_of_app. right. by apply list_elem_of_singleton. }
  rewrite Ep, Eps in E1, Hup, Hgr, Hb.
  assert (net1 !! me = Some n0) as En1 by (rewrite (gr_same _ _ _ _ Hgr), lookup_insert_eq; [done|by rewrite stations_nodes, Eid]).
  destruct (origin_confirms CELL me p ps n0 (clock me) r' Hor) as (n1 & Ed & Ho1 & Hc1 & Et1 & Eg1 & Es1);
    [apply Forall_cons in Hok as [[? _] _]; done|].
  exists (<[me := n1]> net1), dc, r', n1. rewrite lookup_insert_eq. split_and!; [|done| |done|done|done|by rewrite Es1| | | |].
  - unfold establish. rewrite En. cbn [mbind option_bind]. rewrite Eo. cbn [mbind option_bind]. rewrite (sd_first _ _ _ _ _ Hsd).
    replace (length (h :: hops) + length (h :: hops))%nat with (length ss + (1 + (length ss + 1)))%nat by (cbn; lia).
    replace (ph_node (path_hop h d)) with (sh_node_id s) by exact (f_equal ph_node Ep).
    rewrite E1, (carry_stop _ _ _ _ _ _ _ _ _ _ _ _ En1 Ed) by done. done.
  - eapply Forall_impl; [exact Hup|]. intros x. by apply (up_at_same_table _ _ _ _ _ n0).
  - intros cell a b y Hy. apply (up_at_same_table _ _ _ _ _ n0); [done..|]. apply (gr_up _ _ _ _ Hgr).
    by apply (up_at_same_table _ _ _ _ _ n).
  - intros id Hid Hnot. rewrite lookup_insert_ne, (gr_same _ _ _ _ Hgr), lookup_insert_ne by (done || by rewrite stations_nodes, Eid). done.
  - intros k y Hy Hc Hf. eapply (free_in_same _ _ net1); [by apply lookup_insert_ne|]. apply (gr_free _ _ _ _ Hgr); [done|].
    eapply free_in_same; [|exact Hf]. by apply lookup_insert_ne.
  - destruct (register_decode payload); [by apply (bound_same_table _ _ n0)|]. intros y ck Hy.
    apply (bound_same_table _ _ n0); [done..|]. by apply Hb, (bound_same_table _ _ n).
Qed.

(** C7. A circuit is established as its originator meant it.  Whatever identifiers and keys it draws, if
    the relays of the path are as the directory says and have room, the setup it sends makes each of
    them install its part, the terminus binds the cookie a registration asks for, and the
    acknowledgement confirms the circuit at the originator: each relay then has the links, the key
    and the cell size that the originator has for it, with nothing sent yet either way.  Every other
    circuit of the network stays up, and nodes off the path are not touched. *)
Theorem circuit_established (net : Net) (me : Link) (h : Hop) (hops : list Hop) (payload : list byte) (r : R)
    (d : CircuitId * Key) (ds : list (CircuitId * Key)) (Hc : can_establish 1 net me h hops payload r d ds) :
  let p := path_hop h d in let ps := path_of hops ds in let T := terminus me p ps in
  exists net' dc r' n', establish net me (h :: hops) payload r = Some (net', dc, r', (me, [])) /\
    sends CELL p ps 1 dc /\ Forall (up_at CELL 1 1 net') (stations me p ps) /\
    net' !! me = Some n' /\ originates CELL p ps n' /\ confirmed_at p n' /\ d.1 ∈ stream_recv n' /\
    (forall cell a b y, up_at cell a b net y -> up_at cell a b net' y) /\
    (forall id, id <> me -> (id ∉ hop_node_id <$> h :: hops) -> net' !! id = net !! id) /\
    (forall k y, at_node y <> me -> Forall (fun x => clear_of x y) (stations me p ps) ->
       free_in keys (S k) net y -> free_in keys k net' y) /\
    match register_decode payload with Some reg => bound net' T (cookie reg) | None => keeps_bound net net' end.
Proof. exact (establish_spec net me h hops payload r d ds Hc). Qed.

End establish.
End build.
