(* ===== verification/RelayNet.v ===== *)
(** * Sender and receiver

    From relays that know neither party to a stream between them: the receiver opens a circuit to a
    relay and registers its cookie there, the sender opens one to the same relay, and what the sender
    seals for the cookie comes out at the receiver. *)

From S2P Require Import Prelude Crypto Onion CircuitData CircuitReplay CircuitSetup CircuitTable CircuitTableInv.
From S2P Require Import CircuitRegister Float ServiceBudget Relay RelayInv RelayPath RelayStream RelayBuild.

Lemma terminus_node prev h hs : last (ph_node <$> h :: hs) = Some (at_node (terminus prev h hs)).
Proof. rewrite <- (stations_nodes prev), stations_app, fmap_app. apply last_snoc. Qed.

Section net.
Context `{X25519Laws} `{!X25519Honest} `{AeadLaws} `{!AeadTotal} `{Blake3} `{Blake3KdfLaws} `{ChaCha20Laws} `{Ed25519}
  {R : Type} `{RngLaws R}.
Context (keys : gmap (list byte) Key) (clock : Link -> Clock).
Implicit Types (net : Net) (r : R).

(** A station that is up and one there is room for are different. *)
Lemma free_not_up net x y cell a b : free_in keys 1 net x -> up_at cell a b net y -> station_id x <> station_id y.
Proof.
  intros (n & En & [_ _ _ (t & Et & Hft)]) (m & t' & c & s & Em & Et' & [[Ef _] _] & _) E.
  injection E as E1 E2 E3. rewrite <- E1, En in Em. injection Em as <-. rewrite Et in Et'. injection Et' as <-.
  destruct (ft_ends _ _ _ Hft (at_prev x, at_in x)) as [Hf _]; [by left|]. congruence.
Qed.

Lemma stations_distinct prev h hs : NoDup (ph_node <$> h :: hs) -> NoDup (station_id <$> stations prev h hs).
Proof.
  rewrite <- (stations_nodes prev). intros Hn. apply (NoDup_fmap_1 (fun i => i.1.1)). by rewrite <- list_fmap_compose.
Qed.

Lemma can_establish_path k net me h hops payload r d ds : can_establish keys k net me h hops payload r d ds ->
  length ds = length hops /\ Forall (fun h => is_u32 (ph_cid h)) (path_hop h d :: path_of hops ds) /\
  ph_node <$> path_hop h d :: path_of hops ds = hop_node_id <$> h :: hops /\
  NoDup (station_id <$> stations me (path_hop h d) (path_of hops ds)).
Proof.
  intros [_ _ _ Hnd Hdr _ _ _]. destruct (draw_hops_spec (length (h :: hops)) r) as (drawn & r' & E & Hl & Hok).
  rewrite E in Hdr. cbn in Hdr. subst drawn. injection Hl as Hl. apply NoDup_cons in Hnd as [_ Hnd].
  pose proof (path_of_nodes (h :: hops) (d :: ds) ltac:(cbn; lia) : ph_node <$> path_hop h d :: path_of hops ds = _) as Eid.
  split_and!; [done|by apply (path_of_cids (h :: hops) (d :: ds))|done|]. apply stations_distinct. by rewrite Eid.
Qed.

(** Two circuits to one relay, the second opened while the first is up. *)
Lemma two_paths_ok net net' S V h g hops gops payload payload' r r' d e ds es ck :
  can_establish keys 1 net V g gops payload' r e es -> can_establish keys 1 net' S h hops payload r' d ds ->
  Forall (up_at choose_cell_bytes 1 1 net') (stations V (path_hop g e) (path_of gops es)) ->
  last (hop_node_id <$> h :: hops) = last (hop_node_id <$> g :: gops) -> zlen ck = COOKIE_LEN ->
  path_ok S V (path_hop h d) (path_hop g e) (path_of hops ds) (path_of gops es) choose_cell_bytes choose_cell_bytes ck.
Proof.
  intros HV HS Hup Hmeet Hck. destruct (can_establish_path _ _ _ _ _ _ _ _ _ HV) as (_ & HcV & EV & HdV).
  destruct (can_establish_path _ _ _ _ _ _ _ _ _ HS) as (_ & HcS & ES & HdS).
  split; [apply choose_cell_bytes_ok..|done|done| |].
  - apply (inj Some). rewrite <- !terminus_node. by rewrite EV, ES.
  - rewrite fmap_app. apply NoDup_app. split_and!; [done| |done]. intros i Hi Hi'.
    apply list_elem_of_fmap in Hi as (x & -> & Hx). apply list_elem_of_fmap in Hi' as (y & E & Hy).
    eapply Forall_forall in Hup; [|exact Hy]. pose proof (ce_free _ _ _ _ _ _ _ _ _ _ HS) as Hfree.
    eapply Forall_forall in Hfree; [|exact Hx]. by apply (free_not_up _ _ _ _ _ _ Hfree Hup).
Qed.

(** A circuit that could be opened before another was, still can. *)
Lemma can_establish_after net net1 S V h g hops gops payload r d e ds es :
  can_establish keys 2 net S h hops payload r d ds -> register_decode payload = None ->
  S <> V -> (S ∉ hop_node_id <$> g :: gops) -> (V ∉ hop_node_id <$> h :: hops) ->
  (forall x y, x ∈ stations V (path_hop g e) (path_of gops es) -> y ∈ stations S (path_hop h d) (path_of hops ds) -> clear_of x y) ->
  (forall id, id <> V -> (id ∉ hop_node_id <$> g :: gops) -> net1 !! id = net !! id) ->
  (forall k y, at_node y <> V -> Forall (fun x => clear_of x y) (stations V (path_hop g e) (path_of gops es)) ->
     free_in keys (1 + k) net y -> free_in keys k net1 y) ->
  can_establish keys 1 net1 S h hops payload r d ds.
Proof.
  intros HS Hpay HSV HSg HVh Hclear Hsame Hfree. destruct (can_establish_path _ _ _ _ _ _ _ _ _ HS) as (_ & _ & Eid & _).
  destruct HS as [Hpub Hlen Hsz Hnd Hdr (n & En & Hn) Hfr _]. split; try done.
  - exists n. by rewrite Hsame.
  - apply Forall_forall. intros y Hy. apply (Hfree 1%nat).
    + intros E. apply HVh. rewrite <- Eid, <- (stations_nodes S), <- E. by apply list_elem_of_fmap_2.
    + apply Forall_forall. intros x Hx. by apply Hclear.
    + by eapply Forall_forall in Hfr.
  - intros m _ p Hp. congruence.
Qed.

(** C6. Strangers meet.  The receiver [V] opens a circuit to a relay and registers its cookie there, and
    the sender [S] opens one, over a path of its own, to the same relay.  Both circuits come up, and
    whatever messages [S] then seals for the cookie, each within a cell, are carried by the handlers of
    all the relays on both paths and come out at [V], every one, in order and unchanged.  The paths may
    share relays, as long as the identifiers drawn do not coincide there. *)
Theorem rendezvous_stream (tr : RelayChainMsg) (S V : Link) (net : Net) (h g : Hop) (hops gops : list Hop)
    (payload : list byte) (reg : CircuitRegisterPayload) (ms : list (list byte)) (d e : CircuitId * Key)
    (ds es : list (CircuitId * Key)) (rs rv : R) (Htr : is_data tr) (Hreg : register_wf reg)
    (HV : can_establish keys 1 net V g gops (register_encode reg) rv e es)
    (HS : can_establish keys 2 net S h hops payload rs d ds) (Hpay : register_decode payload = None)
    (Hmeet : last (hop_node_id <$> h :: hops) = last (hop_node_id <$> g :: gops))
    (Hapart : S <> V /\ (S ∉ hop_node_id <$> g :: gops) /\ (V ∉ hop_node_id <$> h :: hops))
    (Hclear : forall x y, x ∈ stations V (path_hop g e) (path_of gops es) ->
       y ∈ stations S (path_hop h d) (path_of hops ds) -> clear_of x y)
    (Hms : 1 + zlen ms <= U32_MAX /\ Forall (fun m => COOKIE_LEN + zlen m <= max_inner choose_cell_bytes) ms) :
  exists net1 dcv rv' net2 dc rs' net3 dc' r',
    establish clock net V (g :: gops) (register_encode reg) rv = Some (net1, dcv, rv', (V, [])) /\
    establish clock net1 S (h :: hops) payload rs = Some (net2, dc, rs', (S, [])) /\
    send_all tr clock S (cookie reg) (length (h :: hops) + length (g :: gops)) net2 dc ms rs' =
      Some (net3, dc', r', (fun m => (V, [Stream e.1 m])) <$> ms).
Proof.
  destruct (establish_spec keys clock net V g gops (register_encode reg) rv e es HV)
    as (net1 & dcv & rv' & nv & E1 & _ & HupV & Env & HorV & _ & HstV & _ & Hoff1 & Hfr1 & Hb).
  rewrite (register_decode_encode reg Hreg) in Hb. destruct Hapart as (HSV & HSg & HVh).
  pose proof (can_establish_after net net1 S V h g hops gops payload rs d e ds es HS Hpay HSV HSg HVh Hclear Hoff1 Hfr1) as HS1.
  destruct (establish_spec keys clock net1 S h hops payload rs d ds HS1)
    as (net2 & dc & r2 & ns & E2 & Hsd & HupS & _ & _ & _ & _ & Hkeep & Hoff & _ & Hkb). rewrite Hpay in Hkb.
  pose proof (two_paths_ok net net1 S V h g hops gops payload (register_encode reg) rv rs d e ds es (cookie reg) HV HS1 HupV Hmeet
    (rw_cookie _ Hreg)) as Hok.
  destruct (can_establish_path _ _ _ _ _ _ _ _ _ HV) as (_ & _ & E4 & _). destruct (can_establish_path _ _ _ _ _ _ _ _ _ HS) as (_ & _ & E5 & _).
  apply (f_equal length) in E4, E5. rewrite !length_fmap in E4, E5.
  set (p := path_hop h d) in *. set (ps := path_of hops ds) in *. set (v := path_hop g e) in *. set (vs := path_of gops es) in *.
  assert (session S V p v ps vs choose_cell_bytes choose_cell_bytes (cookie reg) 1 1 net2 dc) as Hse.
  { split; [done|by exists 1|exists 1; by eapply Forall_impl; [exact HupV|intros; apply Hkeep]|by apply Hkb|].
    exists nv. rewrite Hoff by (done || by apply not_eq_sym). done. }
  destruct (send_all_spec tr clock Htr S V p v ps vs choose_cell_bytes choose_cell_bytes (cookie reg) ms 1 1 net2 dc r2 Hok Hse)
    as (net3 & dc' & r3 & E3 & _); [lia..| |].
  { eapply Forall_impl; [apply Hms|]. cbn. intros m Hm. rewrite (rw_cookie _ Hreg). split; [done|]. unfold COOKIE_LEN in Hm. lia. }
  exists net1, dcv, rv', net2, dc, r2, net3, dc', r3. split_and!; [done..|]. by rewrite <- E4, <- E5.
Qed.

End net.

(** ** Three relays and two strangers *)

Module Demo.
Import Toy.
#[local] Existing Instances x25519_toy x25519_toy_laws x25519_toy_honest aead_toy aead_toy_laws aead_toy_total
  blake3_toy blake3_kdf_toy blake3_kdf_toy_laws chacha20_toy chacha20_toy_laws rng_toy rng_toy_laws.
#[local] Instance ed25519_demo : Ed25519 := fun _ _ sig => bool_decide (sig = [x01]).

Definition id (b : byte) : Link := repeat b 32.
Definition sk (b : byte) : Key := be_bytes 32 (byte_val b).
Definition node (b : byte) : Relay :=
  mkRelay (Some (sk b)) (Some (table_with_params 8 4 600)) (Some (registry_with_link_cap 8 4 600))
    (Some (origin_with_params 8 600)) ∅ ∅ (budget_unmetered 0) (mkCache ∅ [] 300 16).
Definition hop (b : byte) : Hop := mkHop (id b) (x25519_public (sk b)).
Definition relay_keys : gmap (list byte) Key :=
  <[id x0a := sk x0a]> (<[id x0b := sk x0b]> (<[id x0c := sk x0c]> ∅)).
Definition start : gmap Link Relay :=
  <[id x0a := node x0a]> (<[id x0b := node x0b]> (<[id x0c := node x0c]> (<[id x01 := node x01]> (<[id x02 := node x02]> ∅)))).
Definition noon : Link -> Clock := fun _ => mkClock 1000 0.

(** The receiver's registration, and what each party draws. *)
Definition receiver_key : Key := repeat x07 32.
Definition registration : CircuitRegisterPayload := mkRegister (cookie_for_reg_pk receiver_key) receiver_key 5 [x01].
Definition drawn (r : Z) : list (CircuitId * Key) := (draw_hops 2 r).1.
Definition first_drawn (r : Z) : CircuitId * Key := hd (0, []) (drawn r).

Lemma node_ok b : relay_ok (node b).
Proof.
  split; cbn.
  - intros t [= <-]. apply table_with_params_ok.
  - intros r s E. cbn in E. by rewrite lookup_empty in E.
  - intros g [= <-]. split; [apply registry_with_link_cap_ok|]. intros c sub E. cbn in E. by rewrite lookup_empty in E.
Qed.

Lemma node_free k b x : (k <= 4)%nat -> at_next x <> Some (at_prev x) -> free_at k (sk b) x (node b).
Proof.
  intros Hk Hne. split; [apply node_ok|done|done|]. eexists. split; [done|]. split; cbn; [|done| |].
  - intros e _. by rewrite !lookup_empty.
  - rewrite map_size_empty. lia.
  - unfold bucket_len. cbn. rewrite lookup_empty. cbn. lia.
Qed.

Lemma hop_published b : b = x0a \/ b = x0b \/ b = x0c -> published relay_keys (hop b).
Proof.
  intros Hb. split; [done|]. split; [by destruct Hb as [-> | [-> | ->]]|]. exists (sk b). split; [|done]. unfold relay_keys; cbn [hop hop_node_id].
  destruct Hb as [-> | [-> | ->]]; repeat (rewrite lookup_insert_ne by done); by rewrite lookup_insert_eq.
Qed.

Lemma start_free k b x : (k <= 4)%nat -> b = x0a \/ b = x0b \/ b = x0c -> at_node x = id b -> at_next x <> Some (at_prev x) ->
  free_in relay_keys k start x.
Proof.
  intros Hk Hb Ex Hne. exists (node b). rewrite Ex. destruct (hop_published b Hb) as (_ & _ & sk' & Ek & _). cbn [hop hop_node_id] in Ek.
  assert (relay_keys !! id b = Some (sk b)) as ->.
  { unfold relay_keys. destruct Hb as [-> | [-> | ->]]; repeat (rewrite lookup_insert_ne by done); by rewrite lookup_insert_eq. }
  split; [|by apply node_free]. unfold start.
  destruct Hb as [-> | [-> | ->]]; repeat (rewrite lookup_insert_ne by done); by rewrite lookup_insert_eq.
Qed.

Lemma drawn_two r : exists d1 d2, drawn r = [d1; d2].
Proof.
  unfold drawn. destruct (draw_hops_spec 2 r) as (l & r' & -> & Hl & _). cbn. destruct l as [|d1 [|d2 [|]]]; try done. by exists d1, d2.
Qed.

(** The stations of the path of [b] over [c]. *)
Lemma two_stations b c r : exists d1 d2,
  stations (id b) (path_hop (hop c) (first_drawn r)) (path_of [hop x0c] (tail (drawn r))) =
    [mkStation (id c) (id b) d1.1 d1.2 (Some (id x0c)) d2.1; mkStation (id x0c) (id c) d2.1 d2.2 None 0].
Proof. unfold first_drawn. destruct (drawn_two r) as (d1 & d2 & ->). by exists d1, d2. Qed.

(** A party [b] can open a circuit over [c] to the relay where they meet. *)
Lemma can_open_circuit b c payload r : b = x01 \/ b = x02 -> c = x0a \/ c = x0b -> zlen payload <= 2 ^ 31 -> registers (node x0c) payload ->
  can_establish relay_keys 2 start (id b) (hop c) [hop x0c] payload r (first_drawn r) (tail (drawn r)).
Proof.
  intros Hb Hc Hp Hreg.
  assert (start !! id x0c = Some (node x0c)) as Hc0.
  { unfold start. repeat (rewrite lookup_insert_ne by done). by rewrite lookup_insert_eq. }
  split.
  - apply Forall_cons. split; [apply hop_published; tauto|]. apply Forall_singleton, hop_published. tauto.
  - done.
  - done.
  - destruct Hb as [-> | ->], Hc as [-> | ->]; apply (bool_decide_unpack _); vm_compute; done.
  - change (drawn r = hd (0, []) (drawn r) :: tail (drawn r)). by destruct (drawn_two r) as (d1 & d2 & ->).
  - exists (node b). split.
    + unfold start. destruct Hb as [-> | ->]; repeat (rewrite lookup_insert_ne by done); by rewrite lookup_insert_eq.
    + split; [eexists; split; [done|]; cbn; rewrite map_size_empty; lia|]. intros t [= <-]. cbn.
      unfold lookup_forward, lookup_backward. cbn. by rewrite !lookup_empty.
  - destruct (two_stations b c r) as (d1 & d2 & ->). apply Forall_cons. split; [|apply Forall_singleton].
    + apply (start_free _ c); [lia|tauto|done|]. cbn. destruct Hb as [-> | ->]; done.
    + by apply (start_free _ x0c); [lia|tauto| |].
  - intros n. unfold first_drawn. destruct (drawn_two r) as (d1 & d2 & ->).
    change (start !! id x0c = Some n -> registers n payload). rewrite Hc0. by intros [= <-].
Qed.

Lemma registration_wf : register_wf registration.
Proof. split; [reflexivity|reflexivity|by unfold is_u64|done]. Qed.

Lemma meeting_registers : registers (node x0c) (register_encode registration).
Proof.
  intros p. rewrite (register_decode_encode _ registration_wf). intros [= <-]. eexists _, true. split; [done|]. vm_compute. done.
Qed.

Lemma paths_apart : id x01 <> id x02 /\ (id x01 ∉ hop_node_id <$> [hop x0a; hop x0c]) /\ (id x02 ∉ hop_node_id <$> [hop x0b; hop x0c]).
Proof. split_and!; [done|apply (bool_decide_unpack _); vm_compute; done..]. Qed.

Lemma paths_clear x y : x ∈ stations (id x02) (path_hop (hop x0a) (first_drawn 7)) (path_of [hop x0c] (tail (drawn 7))) ->
  y ∈ stations (id x01) (path_hop (hop x0b) (first_drawn 99)) (path_of [hop x0c] (tail (drawn 99))) -> clear_of x y.
Proof.
  destruct (two_stations x02 x0a 7) as (d1 & d2 & ->). destruct (two_stations x01 x0b 99) as (e1 & e2 & ->).
  rewrite !elem_of_cons. intros [-> | [-> | []%not_elem_of_nil]] [-> | [-> | []%not_elem_of_nil]] E; try done.
  intros e ->%list_elem_of_singleton Hin%list_elem_of_singleton. done.
Qed.

Lemma circuit_established_witness :
  exists net' dc r' n',
    establish noon start (id x02) [hop x0a; hop x0c] (register_encode registration) 7 = Some (net', dc, r', (id x02, [])) /\
    net' !! id x02 = Some n' /\ confirmed_at (path_hop (hop x0a) (first_drawn 7)) n'.
Proof.
  destruct (circuit_established relay_keys noon start (id x02) (hop x0a) [hop x0c] (register_encode registration) 7
    (first_drawn 7) (tail (drawn 7))) as (net' & dc & r' & n' & E & _ & _ & En & _ & Hc & _).
  - apply can_establish_less, can_open_circuit; [by right|by left|done|apply meeting_registers].
  - exact (ex_intro _ net' (ex_intro _ dc (ex_intro _ r' (ex_intro _ n' (conj E (conj En Hc)))))).
Defined.

Lemma rendezvous_stream_witness :
  exists net1 dcv rv' net2 dc rs' net3 dc' r',
    establish noon start (id x02) [hop x0a; hop x0c] (register_encode registration) 7 = Some (net1, dcv, rv', (id x02, [])) /\
    establish noon net1 (id x01) [hop x0b; hop x0c] [] 99 = Some (net2, dc, rs', (id x01, [])) /\
    send_all CircuitDatagram noon (id x01) (cookie registration) (length [hop x0b; hop x0c] + length [hop x0a; hop x0c]) net2 dc
      [[x68; x69]; [x21]] rs' = Some (net3, dc', r', (fun m => (id x02, [Stream (first_drawn 7).1 m])) <$> [[x68; x69]; [x21]]).
Proof.
  refine (rendezvous_stream relay_keys noon CircuitDatagram (id x01) (id x02) start (hop x0b) (hop x0a) [hop x0c] [hop x0c] [] registration
    [[x68; x69]; [x21]] (first_drawn 99) (first_drawn 7) (tail (drawn 99)) (tail (drawn 7)) 99 7 _ _ _ _ _ _ _ _ _).
  - by right.
  - apply registration_wf.
  - apply can_establish_less, can_open_circuit; [by right|by left|done|apply meeting_registers].
  - apply can_open_circuit; [by left|by right|done|]. by intros p.
  - reflexivity.
  - reflexivity.
  - apply paths_apart.
  - apply paths_clear.
  - split; [done|]. repeat constructor; done.
Defined.

End Demo.
