(* ===== verification/RelayReplay.v ===== *)
(** * A setup that is replayed

    Nothing in a setup is bound to the time it is sent.  A relay that took a circuit down takes the same
    bytes again, installs the same key, and numbers its cells from one again. *)

From S2P Require Import Prelude Crypto Onion CircuitData CircuitReplay CircuitSetup CircuitTable CircuitTableInv.
From S2P Require Import CircuitRegister Float ServiceBudget Relay RelayInv RelayPath RelayStream RelayBuild RelayNet.

Lemma xor_byte_keystream a b k : xor_byte (xor_byte a k) (xor_byte b k) = xor_byte a b.
Proof.
  apply byte_val_inj. rewrite !xor_byte_val, Z.lxor_assoc, (Z.lxor_comm (byte_val k)), Z.lxor_assoc.
  by rewrite Z.lxor_nilpotent, Z.lxor_0_r.
Qed.

(** Cells under one keystream differ as their contents do. *)
Lemma same_keystream `{ChaCha20Laws} key dir seq a b : length a = length b ->
  zip_with xor_byte (apply_layer key dir seq a) (apply_layer key dir seq b) = zip_with xor_byte a b.
Proof.
  intros E. unfold apply_layer. rewrite E. pose proof (chacha20_len key (layer_nonce dir seq) (length b)) as Hk.
  revert Hk. generalize (chacha20 key (layer_nonce dir seq) (length b)) as k. revert b E.
  induction a as [|x a IH]; intros [|y b] E [|z k] Hk; cbn in *; try done. by rewrite xor_byte_keystream, IH by lia.
Qed.

(** A registration whose subscription was removed is taken again. *)
Lemma check_removed `{Ed25519} `{Blake3Kdf} st g p sub : registry_ok st g -> subs g !! cookie p = Some sub ->
  register_verify p = true -> cookie p = cookie_for_reg_pk (reg_pk p) -> register_check (reg_remove st g (cookie p)) p = inr true.
Proof.
  intros [_ Hcap] Es Hv Hc. unfold register_check. rewrite Hv, bool_decide_true by done. cbn [negb].
  unfold reg_remove. rewrite Es. cbn. rewrite lookup_delete_eq, map_size_delete, Es. unfold id.
  assert (size (subs g) <> 0)%nat by (rewrite map_size_ne_0_lookup; by exists (cookie p), sub).
  by rewrite (proj2 (Nat.leb_gt _ _)) by lia.
Qed.

(** A table from which the circuit just added was removed has the room it had. *)
Lemma free_removed k x t t' c s t2 : table_ok t2 -> free_table k x t -> at_next x = None -> added x c s t t' ->
  fwd t2 = fwd t' -> bwd t2 = bwd t' -> per_link t2 = per_link t' -> max_total t2 = max_total t' -> max_per_link t2 = max_per_link t' ->
  (forall s2, states t2 !! c = Some s2 -> next_link s2 = None) -> is_Some (states t2 !! c) ->
  free_table k x (detach t2 (at_prev x) (at_in x)).
Proof.
  intros Ht [He Hl Htot Hlink] Hnx [_ _ _ Ef Eb El [Em1 Em2]] Ef2 Eb2 El2 Em3 Em4 Hn [s2 Es2].
  destruct (He (at_prev x, at_in x)) as [Hf _]; [by left|]. rewrite Hnx in Eb.
  rewrite (detach_present t2 (at_prev x) (at_in x) c s2) by (split; [by rewrite Ef2, Ef, lookup_insert_eq|done]).
  rewrite (Hn s2 Es2). split; cbn.
  - rewrite Ef2, Ef, Eb2, Eb, delete_insert_id by done. done.
  - done.
  - rewrite Ef2, Ef, delete_insert_id by done. by rewrite Em3, Em1.
  - unfold bucket_len in *; cbn. fold (bucket (unbucket (per_link t2) (at_prev x) (at_in x)) (at_prev x)).
    fold (bucket (per_link t) (at_prev x)) in Hlink. rewrite Em4, Em2.
    assert (length (bucket (per_link t2) (at_prev x)) = S (length (bucket (per_link t) (at_prev x)))) as Hlen.
    { rewrite El2, El, bucket_push_length. by rewrite decide_True. }
    destruct (bucket_unbucket (per_link t2) (at_prev x) (at_in x)) as [_ [Hp|[Hout _]]]; [apply (ix_nodup _ _ (ok_bucket _ Ht))| |].
    + apply Permutation_length in Hp. cbn in Hp. lia.
    + exfalso. apply Hout, (ix_elem _ _ (ok_bucket _ Ht)). rewrite Ef2, Ef, lookup_insert_eq. by eexists.
Qed.

Section replay.
Context `{X25519} `{Aead} `{Blake3} `{Blake3Kdf} `{ChaCha20Laws} `{Ed25519} {R : Type} `{RngLaws R}.
Context (x : Station) (cell : CircuitCellBytes) (sk : Key) (env : list byte) (reg : CircuitRegisterPayload).
Hypotheses (Hx : at_next x = None) (Hcell : is_cell_size cell) (Hin : is_u32 (at_in x)) (Hreg : register_wf reg)
  (Hpeel : peel_circuit_setup env sk = inr (SetupTerminus (install_for x cell) (register_encode reg))).

(** A node that would take the setup. *)
Record ready (n : Relay) : Prop := {
  rd_free : free_at 1 sk x n;
  rd_check : exists g, circuit_rendezvous n = Some g /\ register_check g reg = inr true
}.

(** A node that took it, and sends its cell [q] next. *)
Record serving (q : Z) (n : Relay) : Prop := {
  sv_ok : relay_ok n;
  sv_sk : anonymity_x25519_sk n = Some sk;
  sv_budget : is_unmetered (service_budget n) = true;
  sv_circuit : exists t0 s0 t t1 c s g,
    free_table 1 x t0 /\ added x c s0 t0 t /\ circuit_table n = Some t1 /\
    (fwd t1 = fwd t /\ bwd t1 = bwd t /\ per_link t1 = per_link t /\ max_total t1 = max_total t /\ max_per_link t1 = max_per_link t) /\
    states t1 !! c = Some s /\ carries cell 1 q x s /\ registered_cookie s = Some (cookie reg) /\
    circuit_rendezvous n = Some g /\ reg_lookup g (cookie reg) = Some c
}.

Lemma ready_serves n now (r : R) : ready n ->
  exists n', dispatch_circuit n CircuitBuild env (at_prev x) None now r =
      Some (n', r, [Send (at_prev x) CircuitBuilt (ack_body (at_in x) (at_key x)) None]) /\
    serving 1 n' /\ circuit_introduce_seen n' = circuit_introduce_seen n.
Proof.
  intros [[Hok Hsk Hbu (t & Et & Hft)] (g & Eg & Echk)]. destruct (relay_table n t Hok Et) as [Ht _].
  destruct (install_free 0 x t (install_for x cell) (unix now) Ht Hft) as (c & t' & Ei & Had); [done..|].
  pose proof (from_install_carries x cell (unix now)) as Hca. set (s := from_install _ _ _ _) in Had, Hca.
  eassert (dispatch_circuit n CircuitBuild env (at_prev x) None now r = _) as Ed.
  { cbn [dispatch_circuit]. unfold handle_circuit_build, terminus_register, register. rewrite Hsk, Et, Hpeel. rewrite Hx in Ei.
    rewrite Ei, Eg, (register_decode_encode _ Hreg), Echk. reflexivity. }
  rewrite Ed. eexists. split; [done|]. apply dispatch_keeps in Ed; [|done]. split; [|done].
  set (t2 := t' <| states := _ |>) in *. set (n' := _ <| circuit_rendezvous := _ |>) in *.
  pose proof (added_alter (fun s => set_registered_cookie s (cookie reg)) x c s t t' Had : added _ _ _ _ t2) as Had2.
  split; [done..|]. eexists t, _, t2, t2, c, _, _. split; [done|]. split; [exact Had2|]. split; [done|]. split; [done|].
  split; [apply Had2|]. split; [by destruct Hca|]. split; [done|]. split; [done|].
  unfold reg_lookup, register_bind. by rewrite reg_insert_subs, lookup_insert_eq.
Qed.

(** The number of the cell is that of the circuit, and its contents have the one layer of the relay. *)
Lemma serving_introduces q n m now (r : R) : serving q n -> q <> U32_MAX -> zlen m <= max_inner cell ->
  (cache_check_and_insert (circuit_introduce_seen n) (blake3 (cookie reg ++ m)) (instant now)).1 = false ->
  exists n' r' buf,
    try_forward_introduce_via_circuit n (cookie reg) m true now r =
      (Forwarded, n', r', [Send (at_prev x) CircuitData (data_body (at_in x) q (apply_layer (at_key x) Return q buf)) None]) /\
    zlen buf = cell /\ read_payload buf = Some m /\ serving (q + 1) n' /\
    circuit_introduce_seen n' = (cache_check_and_insert (circuit_introduce_seen n) (blake3 (cookie reg ++ m)) (instant now)).2.
Proof.
  intros [Hok Hsk Hbu (t0 & s0 & t & t1 & c & s & g & Hft & Had & Et & Hsame & Es & Hca & Hck & Eg & El)] Hq Hm Hfresh.
  destruct (wrap_payload_spec m cell r Hcell Hm) as (buf & r' & Ew & Hl & Hr).
  destruct (cache_check_and_insert _ _ _) as [seen cache] eqn:Ecache in Hfresh |- *. cbn [fst snd] in *. subst seen.
  eassert (try_forward_introduce_via_circuit n (cookie reg) m true now r = _) as E.
  { unfold try_forward_introduce_via_circuit. rewrite Eg. cbn [mbind option_bind]. rewrite El, Et. cbn [mbind option_bind].
    rewrite Es. cbn [mbind option_bind]. rewrite Ecache, (ca_cell _ _ _ _ _ Hca), Ew. unfold alloc_return_seq.
    rewrite (ca_seq _ _ _ _ _ Hca Hx), (proj2 (Z.eqb_neq _ _) Hq). cbn [circuit_key circuit_id_in cell_bytes].
    change (circuit_key (s <| next_return_seq := q + 1 |>)) with (circuit_key s).
    change (circuit_id_in (s <| next_return_seq := q + 1 |>)) with (circuit_id_in s).
    change (cell_bytes (s <| next_return_seq := q + 1 |>)) with (cell_bytes s).
    rewrite (ca_key _ _ _ _ _ Hca), (ca_in _ _ _ _ _ Hca), (ca_cell _ _ _ _ _ Hca), data_encode_body by (by rewrite zlen_apply_layer).
    reflexivity. }
  rewrite E. eexists _, r', buf. rewrite <- (ca_prev _ _ _ _ _ Hca). split; [done|]. split; [done|]. split; [done|]. split; [|done].
  apply introduce_ok in E; [|done]. split; [done..|]. set (s2 := mark_served _ _).
  exists t0, s0, t, (with_state t1 c (fun _ => s2)), c, s2, g. split_and!; try done.
  - by apply Hsame.
  - by apply Hsame.
  - by apply Hsame.
  - by apply Hsame.
  - by apply Hsame.
  - cbn. by rewrite lookup_alter_eq, Es.
  - destruct Hca. split; cbn; try done. eapply below_mono; [done|lia].
Qed.

(** Taking the circuit down makes the node ready for the same setup. *)
Lemma serving_torn_down q n now (r : R) : serving q n -> register_verify reg = true -> cookie reg = cookie_for_reg_pk (reg_pk reg) ->
  exists n', dispatch_circuit n CircuitTeardown (teardown_encode (at_in x)) (at_prev x) None now r = Some (n', r, []) /\
    ready n' /\ circuit_introduce_seen n' = circuit_introduce_seen n.
Proof.
  intros [Hok Hsk Hbu (t0 & s0 & t & t1 & c & s & g & Hft & Had & Et & (Ef & Eb & Epl & Em1 & Em2) & Es & Hca & Hck & Eg & El)] Hv Hbind.
  assert (fwd t1 !! (at_prev x, at_in x) = Some c) as Efc by (by rewrite Ef, (ad_fwd _ _ _ _ _ Had), lookup_insert_eq).
  eassert (dispatch_circuit n CircuitTeardown (teardown_encode (at_in x)) (at_prev x) None now r = _) as Ed.
  { cbn [dispatch_circuit]. unfold handle_circuit_teardown. rewrite Et, teardown_decode_encode by done.
    unfold lookup_forward. rewrite Efc. cbn [mbind option_bind]. rewrite Es. cbn [mbind option_bind].
    rewrite (ca_next _ _ _ _ _ Hca), Hx, Eg, Hck. unfold remove_if_current. rewrite bool_decide_true by done. reflexivity. }
  rewrite Ed. eexists. split; [done|]. apply dispatch_keeps in Ed; [|done]. split; [|done].
  destruct (relay_table n t1 Hok Et) as [Ht1 _]. split; [split; [done..|]|].
  - eexists. split; [done|]. apply (free_removed 1 x t0 t c s0 t1); try done.
    intros s2 Es2. rewrite Es in Es2. injection Es2 as <-. by rewrite (ca_next _ _ _ _ _ Hca).
  - eexists. split; [done|]. unfold reg_lookup in El. destruct (subs g !! cookie reg) as [sub|] eqn:Esub; [|done].
    apply (check_removed _ g reg sub); [|done..]. pose proof (rl_reg _ Hok g Eg) as [Hrg _].
    unfold states_of in Hrg. by rewrite Et in Hrg.
Qed.

(** The same setup twice, with a teardown between, and an introduction each time. *)
Definition replay_events (m1 m2 : list byte) (now : Clock) : list RelayEvent :=
  [Message CircuitBuild env (at_prev x) None now; Introduction (cookie reg) m1 true now;
   Message CircuitTeardown (teardown_encode (at_in x)) (at_prev x) None now;
   Message CircuitBuild env (at_prev x) None now; Introduction (cookie reg) m2 true now].

(** C37. A replayed setup reuses the keystream.  A relay that ends a registered circuit takes the same
    setup again after a teardown, both of which the neighbour that passed it on can send.  The circuit
    then has the same key and its cells are numbered from one again: the first cells of the two lives
    are under one keystream, so together they give the difference of their contents away. *)
Theorem setup_replay_reuses_keystream (n : Relay) (m1 m2 : list byte) (now : Clock) (r : R)
    (Hn : ready n) (Hv : register_verify reg = true) (Hc : cookie reg = cookie_for_reg_pk (reg_pk reg))
    (Hm1 : zlen m1 <= max_inner cell) (Hm2 : zlen m2 <= max_inner cell)
    (Hf1 : (cache_check_and_insert (circuit_introduce_seen n) (blake3 (cookie reg ++ m1)) (instant now)).1 = false)
    (Hf2 : (cache_check_and_insert (cache_check_and_insert (circuit_introduce_seen n) (blake3 (cookie reg ++ m1)) (instant now)).2
              (blake3 (cookie reg ++ m2)) (instant now)).1 = false) :
  exists n' r' c1 c2 b1 b2,
    relay_run n (replay_events m1 m2 now) r =
      Some (n', r', [Send (at_prev x) CircuitBuilt (ack_body (at_in x) (at_key x)) None;
                     Send (at_prev x) CircuitData (data_body (at_in x) 1 c1) None;
                     Send (at_prev x) CircuitBuilt (ack_body (at_in x) (at_key x)) None;
                     Send (at_prev x) CircuitData (data_body (at_in x) 1 c2) None]) /\
    zip_with xor_byte c1 c2 = zip_with xor_byte b1 b2 /\ read_payload b1 = Some m1 /\ read_payload b2 = Some m2.
Proof.
  destruct (ready_serves n now r Hn) as (n1 & E1 & Hs1 & Ec1). rewrite <- Ec1 in Hf1, Hf2.
  destruct (serving_introduces 1 n1 m1 now r Hs1) as (n2 & r2 & b1 & E2 & Hl1 & Hr1 & Hs2 & Ec2); [done..|]. rewrite <- Ec2 in Hf2.
  destruct (serving_torn_down 2 n2 now r2 Hs2 Hv Hc) as (n3 & E3 & Hn3 & Ec3). rewrite <- Ec3 in Hf2.
  destruct (ready_serves n3 now r2 Hn3) as (n4 & E4 & Hs4 & Ec4). rewrite <- Ec4 in Hf2.
  destruct (serving_introduces 1 n4 m2 now r2 Hs4) as (n5 & r5 & b2 & E5 & Hl2 & Hr2 & _ & _); [done..|].
  eexists n5, r5, _, _, b1, b2. split.
  - cbn [replay_events relay_run relay_step]. rewrite E1. cbn [mbind option_bind]. rewrite E2. cbn [mbind option_bind].
    rewrite E3. cbn [mbind option_bind]. rewrite E4. cbn [mbind option_bind]. rewrite E5. reflexivity.
  - split; [|done]. apply same_keystream. unfold zlen in *. lia.
Qed.

End replay.

(** ** The relay of the three that is replayed to *)

Module Demo.
Import Toy RelayNet.Demo.
#[local] Existing Instances x25519_toy x25519_toy_laws x25519_toy_honest aead_toy aead_toy_laws aead_toy_total
  blake3_toy blake3_kdf_toy blake3_kdf_toy_laws chacha20_toy chacha20_toy_laws rng_toy rng_toy_laws ed25519_demo.

Definition setup_hop : CircuitSetupHop := mkSetupHop (id x0c) (x25519_public (sk x0c)) 77 0 (repeat x05 32).
Definition place : Station := mkStation (id x0c) (id x0a) 77 (repeat x05 32) None 0.

Lemma setup_for_relay : exists env,
  peel_circuit_setup env (sk x0c) = inr (SetupTerminus (install_for place choose_cell_bytes) (register_encode registration)).
Proof.
  assert (setup_published relay_keys setup_hop) as Hp.
  { split; [by split|]. split; [done|]. cbn [setup_hop sh_node_id sh_pubkey]. unfold setup_sk. cbn [sh_node_id].
    assert (relay_keys !! id x0c = Some (sk x0c)) as -> by
      (unfold relay_keys; repeat (rewrite lookup_insert_ne by done); by rewrite lookup_insert_eq). done. }
  destruct (build_setup_spec relay_keys [setup_hop] choose_cell_bytes (register_encode registration) 5)
    as (env & r' & _ & _ & Hu); [done|by apply Forall_singleton|done|done|].
  exists env. pose proof (peel_setup_layer env _ _ _ _ _ Hu eq_refl (proj1 Hp) choose_cell_bytes_ok) as E.
  assert (setup_sk relay_keys setup_hop = sk x0c) as Es by
    (unfold setup_sk, relay_keys; cbn [setup_hop sh_node_id]; repeat (rewrite lookup_insert_ne by done); by rewrite lookup_insert_eq).
  rewrite Es in E. exact E.
Qed.

Lemma relay_ready : ready place (sk x0c) registration (node x0c).
Proof. split; [by apply node_free; [lia|]|]. eexists. split; [done|]. vm_compute. done. Qed.

Lemma setup_replay_reuses_keystream_witness :
  exists env n' r' c1 c2 b1 b2 o1 o2,
    relay_run (node x0c) (replay_events place env registration [x01] [x02] (noon (id x0c))) 5 =
      Some (n', r', [o1; Send (id x0a) CircuitData (data_body 77 1 c1) None; o2; Send (id x0a) CircuitData (data_body 77 1 c2) None]) /\
    zip_with xor_byte c1 c2 = zip_with xor_byte b1 b2 /\ read_payload b1 = Some [x01] /\ read_payload b2 = Some [x02].
Proof.
  destruct setup_for_relay as [env Hpeel].
  destruct (setup_replay_reuses_keystream place choose_cell_bytes (sk x0c) env registration eq_refl choose_cell_bytes_ok
    ltac:(by unfold is_u32) registration_wf Hpeel (node x0c) [x01] [x02] (noon (id x0c)) 5 relay_ready)
    as (n' & r' & c1 & c2 & b1 & b2 & E & Hx & H1 & H2).
  - reflexivity.
  - reflexivity.
  - done.
  - done.
  - vm_compute. reflexivity.
  - vm_compute. reflexivity.
  - eexists env, n', r', c1, c2, b1, b2, _, _. split; [exact E|]. done.
Defined.

End Demo.
