(* ===== verification/Datagram.v ===== *)
(** * Realtime datagrams

    crates/veil-session/src/realtime_datagram.rs: frames that may be lost travel in encrypted
    datagrams beside the ordered session.  A frame is cut into fragments, each sealed under an explicit
    sequence number; the receiver authenticates a fragment, refuses replays, and puts frames together
    within bounds.  Instants are in nanoseconds; [None] is a panic. *)

From S2P Require Import Prelude Crypto Float FrameCodec CircuitData.
From stdpp Require Import strings.
#[local] Open Scope Z_scope.
#[local] Open Scope list_scope.

Definition MAGIC : list byte := ascii "VRT1".
Definition FRAGMENT_HEADER_LEN : Z := 24.
Definition TAG_LEN : Z := 16.
Definition FRAGMENT_OVERHEAD : Z := FRAGMENT_HEADER_LEN + TAG_LEN.
Definition MIN_DATAGRAM_LEN : Z := FRAGMENT_HEADER_LEN + TAG_LEN + 1.
Definition KDF_CONTEXT : list byte := ascii "veil/session/realtime-datagram/v1".

Definition MAX_REALTIME_FRAME : Z := CIRCUIT_PAYLOAD_BYTES + DATA_HEADER_LEN + HEADER_SIZE.
Definition MAX_FRAGMENTS : Z := 32.
Definition MAX_ASSEMBLIES : Z := 64.
Definition MAX_ASSEMBLY_BYTES : Z := 512 * 1024.
Definition ASSEMBLY_TTL : Z := 2 * NANOS.
Definition REALTIME_REKEY_GRACE : Z := 5 * NANOS.

Inductive RealtimeDatagramError :=
| DatagramTooSmall (ceiling : Z)
| FrameSize (len : Z)
| TooManyFragments (count : Z)
| Malformed
| Authentication
| Replay
| SequenceExhausted
| AssemblyConflict
| AssemblyOverflow
| FlowCapacity.

(** ** The header of a fragment *)

Record FragmentHeader := mkFragment {
  message_id : Z;
  fragment_index : Z;
  fragment_count : Z;
  total_len : Z;
  sequence : Z
}.

Definition fragment_encode (h : FragmentHeader) : list byte :=
  MAGIC ++ be_bytes 4 (message_id h) ++ be_bytes 2 (fragment_index h) ++ be_bytes 2 (fragment_count h) ++
  be_bytes 4 (total_len h) ++ be_bytes 8 (sequence h).

Definition fragment_decode (bytes : list byte) : RealtimeDatagramError + FragmentHeader :=
  if (zlen bytes <? MIN_DATAGRAM_LEN) || negb (bool_decide (ztake 4 bytes = MAGIC)) then inl Malformed
  else
    let h := mkFragment (from_be (range 4 8 bytes)) (from_be (range 8 10 bytes)) (from_be (range 10 12 bytes))
               (from_be (range 12 16 bytes)) (from_be (range 16 24 bytes)) in
    if (message_id h =? 0) || (sequence h =? 0) || (total_len h =? 0) || (MAX_REALTIME_FRAME <? total_len h)
       || (fragment_count h =? 0) || (MAX_FRAGMENTS <? fragment_count h) || (fragment_count h <=? fragment_index h)
    then inl Malformed
    else inr h.

Definition nonce_for (sequence : Z) : Key := repeat x00 4 ++ be_bytes 8 sequence.

(** ** Keys *)

Definition derive_key `{Blake3Kdf} (raw_key session_id : Key) : Key :=
  blake3_derive_key KDF_CONTEXT (raw_key ++ session_id).

(** ** The sender *)

Record RealtimeDatagramTx := mkTx {
  tx_cipher : Key;
  next_sequence : Z;
  next_message_id : Z
}.

#[export] Instance eta_RealtimeDatagramTx : Settable RealtimeDatagramTx := fun t =>
  mkTx (tx_cipher t) (next_sequence t) (next_message_id t).

Definition tx_new `{Blake3Kdf} (raw_tx_key session_id : Key) : RealtimeDatagramTx :=
  mkTx (derive_key raw_tx_key session_id) 1 1.

Definition tx_rekey `{Blake3Kdf} (tx : RealtimeDatagramTx) (raw_tx_key session_id : Key) : RealtimeDatagramTx :=
  tx <| tx_cipher := derive_key raw_tx_key session_id |>.

(** [slice::chunks]: pieces of [n] bytes, the last one possibly shorter. *)
Fixpoint chunks_loop (fuel n : nat) (l : list byte) : list (list byte) :=
  match fuel, l with
  | S fuel, _ :: _ => take n l :: chunks_loop fuel n (drop n l)
  | _, _ => []
  end.
Definition chunks (n : Z) (l : list byte) : list (list byte) := chunks_loop (length l) (Z.to_nat n) l.

Fixpoint encode_chunks `{Aead} (tx : RealtimeDatagramTx) (message_id fragment_count total index : Z)
    (pieces : list (list byte)) : RealtimeDatagramTx * (RealtimeDatagramError + list (list byte)) :=
  match pieces with
  | [] => (tx, inr [])
  | chunk :: rest =>
      let sequence := next_sequence tx in
      if U64_MAX <? sequence + 1 then (tx, inl SequenceExhausted)
      else
        let tx := tx <| next_sequence := sequence + 1 |> in
        let header := fragment_encode
          (mkFragment message_id (wrap16 index) (wrap16 fragment_count) (wrap32 total) sequence) in
        match aead_seal (tx_cipher tx) (nonce_for sequence) header chunk with
        | None => (tx, inl Authentication)
        | Some ciphertext =>
            match encode_chunks tx message_id fragment_count total (index + 1) rest with
            | (tx, inr encoded) => (tx, inr ((header ++ ciphertext) :: encoded))
            | (tx, inl e) => (tx, inl e)
            end
        end
  end.

Definition encode_frame `{Aead} (tx : RealtimeDatagramTx) (frame : list byte) (max_datagram_size : Z) :
    RealtimeDatagramTx * (RealtimeDatagramError + list (list byte)) :=
  if is_nil frame || (MAX_REALTIME_FRAME <? zlen frame) then (tx, inl (FrameSize (zlen frame)))
  else if max_datagram_size - (FRAGMENT_HEADER_LEN + TAG_LEN) <=? 0 then (tx, inl (DatagramTooSmall max_datagram_size))
  else
    let max_plaintext := max_datagram_size - (FRAGMENT_HEADER_LEN + TAG_LEN) in
    let fragment_count := div_ceil (zlen frame) max_plaintext in
    if MAX_FRAGMENTS <? fragment_count then (tx, inl (TooManyFragments fragment_count))
    else
      let message_id := next_message_id tx in
      let tx := tx <| next_message_id := add32 message_id 1 |> in
      let tx := if next_message_id tx =? 0 then tx <| next_message_id := 1 |> else tx in
      encode_chunks tx message_id fragment_count (zlen frame) 0 (chunks max_plaintext frame).

(** ** The replay window *)

Record ReplayWindow := mkReplay { highest : Z; bitmap : Z }.

Definition precheck (w : ReplayWindow) (sequence : Z) : RealtimeDatagramError + unit :=
  if sequence =? 0 then inl Malformed
  else if highest w <? sequence then inr tt
  else
    let delta := highest w - sequence in
    if (128 <=? delta) || negb (Z.land (bitmap w) (Z.shiftl 1 delta) =? 0) then inl Replay else inr tt.

Definition commit (w : ReplayWindow) (sequence : Z) : ReplayWindow :=
  if highest w <? sequence then
    let shift := sequence - highest w in
    mkReplay sequence (if 128 <=? shift then 1 else Z.lor (Z.shiftl (bitmap w) shift mod 2 ^ 128) 1)
  else mkReplay (highest w) (Z.lor (bitmap w) (Z.shiftl 1 (highest w - sequence))).

(** ** The receiver *)

Record Assembly := mkAssembly {
  created_at : Z;
  as_total_len : Z;
  fragments : list (option (list byte));
  stored_bytes : Z
}.

#[export] Instance eta_Assembly : Settable Assembly := fun a =>
  mkAssembly (created_at a) (as_total_len a) (fragments a) (stored_bytes a).

Record RealtimeDatagramRx := mkRx {
  rx_cipher : Key;
  previous : option (Key * Z);
  replay : ReplayWindow;
  assemblies : gmap Z Assembly;
  assembly_bytes : Z;
  max_assemblies : Z;
  max_assembly_bytes : Z
}.

#[export] Instance eta_RealtimeDatagramRx : Settable RealtimeDatagramRx := fun r =>
  mkRx (rx_cipher r) (previous r) (replay r) (assemblies r) (assembly_bytes r) (max_assemblies r) (max_assembly_bytes r).

Definition rx_with_limits `{Blake3Kdf} (raw_rx_key session_id : Key) (max_assemblies max_assembly_bytes : Z) :
    RealtimeDatagramRx :=
  mkRx (derive_key raw_rx_key session_id) None (mkReplay 0 0) ∅ 0 (clamp max_assemblies 1 MAX_ASSEMBLIES)
    (clamp max_assembly_bytes MAX_REALTIME_FRAME MAX_ASSEMBLY_BYTES).

Definition rx_new `{Blake3Kdf} (raw_rx_key session_id : Key) : RealtimeDatagramRx :=
  rx_with_limits raw_rx_key session_id MAX_ASSEMBLIES MAX_ASSEMBLY_BYTES.

Definition rx_rekey `{Blake3Kdf} (rx : RealtimeDatagramRx) (raw_rx_key session_id : Key) (now : Z) : RealtimeDatagramRx :=
  rx <| previous := Some (rx_cipher rx, now + REALTIME_REKEY_GRACE) |> <| rx_cipher := derive_key raw_rx_key session_id |>.

Definition rx_open `{Aead} (rx : RealtimeDatagramRx) (header : FragmentHeader) (datagram : list byte) (now : Z) :
    RealtimeDatagramRx * (RealtimeDatagramError + list byte) :=
  let open k := aead_open k (nonce_for (sequence header)) (ztake FRAGMENT_HEADER_LEN datagram)
                  (zdrop FRAGMENT_HEADER_LEN datagram) in
  match open (rx_cipher rx) with
  | Some plaintext => (rx, inr plaintext)
  | None =>
      let rx := if is_some_and (previous rx) (fun p => p.2 <=? now) then rx <| previous := None |> else rx in
      match previous rx with
      | None => (rx, inl Authentication)
      | Some (key, _) =>
          match open key with
          | Some plaintext => (rx, inr plaintext)
          | None => (rx, inl Authentication)
          end
      end
  end.

Definition remove_assembly (rx : RealtimeDatagramRx) (message_id : Z) : RealtimeDatagramRx :=
  match assemblies rx !! message_id with
  | Some a => rx <| assemblies := delete message_id (assemblies rx) |>
                 <| assembly_bytes := sat_sub (assembly_bytes rx) (stored_bytes a) |>
  | None => rx
  end.

(** [min_by_key] keeps the first of the least. *)
Definition earlier (best : option (Z * Assembly)) (e : Z * Assembly) : option (Z * Assembly) :=
  match best with
  | Some b => if created_at e.2 <? created_at b.2 then Some e else best
  | None => Some e
  end.
Definition min_created (l : list (Z * Assembly)) : option (Z * Assembly) := foldl earlier None l.

Section receiver.

(** The order in which a [HashMap] is iterated is not specified: any permutation of its entries. *)
Context (hash_order : list (Z * Assembly) -> list (Z * Assembly)).

Definition prune (rx : RealtimeDatagramRx) (now : Z) : RealtimeDatagramRx :=
  let expired := (filter (fun e => (ASSEMBLY_TTL <=? sat_sub now (created_at e.2)) = true)
                   (hash_order (map_to_list (assemblies rx)))).*1 in
  foldl remove_assembly rx expired.

(** The condition of the loop: no place for a new assembly, or none for its bytes. *)
Definition crowded (rx : RealtimeDatagramRx) (incoming : Z) (is_new : bool) : bool :=
  (is_new && (max_assemblies rx <=? Z.of_nat (size (assemblies rx))))
  || (max_assembly_bytes rx <? sat_add64 (assembly_bytes rx) incoming).

(** The loop ends when the frames and bytes kept leave room, or nothing is left to evict. *)
Fixpoint make_room_loop (fuel : nat) (rx : RealtimeDatagramRx) (protected : option Z) (incoming : Z) (is_new : bool) :
    option RealtimeDatagramRx :=
  if crowded rx incoming is_new then
    match fuel with
    | O => None
    | S fuel =>
        match min_created (filter (fun e => Some e.1 <> protected) (hash_order (map_to_list (assemblies rx)))) with
        | None => Some rx
        | Some (oldest, _) => make_room_loop fuel (remove_assembly rx oldest) protected incoming is_new
        end
    end
  else Some rx.

Definition make_room (rx : RealtimeDatagramRx) (protected : option Z) (incoming : Z) (is_new : bool) :
    option RealtimeDatagramRx :=
  make_room_loop (S (size (assemblies rx))) rx protected incoming is_new.

(** The assembly a fragment belongs to, made if it is the first. *)
Definition assembly_for (rx : RealtimeDatagramRx) (header : FragmentHeader) (plaintext : list byte) (now : Z) :
    option (RealtimeDatagramRx * bool) :=
  match assemblies rx !! message_id header with
  | Some existing =>
      if negb (as_total_len existing =? total_len header) || negb (zlen (fragments existing) =? fragment_count header)
      then Some (remove_assembly rx (message_id header), false)
      else Some (rx, true)
  | None =>
      rx ← make_room rx None (zlen plaintext) true;
      Some (rx <| assemblies := <[message_id header :=
              mkAssembly now (total_len header) (repeat None (Z.to_nat (fragment_count header))) 0]> (assemblies rx) |>, true)
  end.

Definition store_fragment (rx : RealtimeDatagramRx) (header : FragmentHeader) (plaintext : list byte) :
    option (RealtimeDatagramRx * (RealtimeDatagramError + option (list byte))) :=
  let id := message_id header in
  let index := Z.to_nat (fragment_index header) in
  existing ← assemblies rx !! id;
  present ← fragments existing !! index;
  if is_some present then Some (rx, inr None)
  else
    rx ← make_room rx (Some id) (zlen plaintext) false;
    assembly ← assemblies rx !! id;
    _ ← fragments assembly !! index;
    if as_total_len assembly <? sat_add64 (stored_bytes assembly) (zlen plaintext)
    then Some (remove_assembly rx id, inl AssemblyOverflow)
    else
      let assembly := assembly <| stored_bytes := stored_bytes assembly + zlen plaintext |>
                               <| fragments := <[index := Some plaintext]> (fragments assembly) |> in
      let rx := rx <| assembly_bytes := assembly_bytes rx + zlen plaintext |>
                   <| assemblies := <[id := assembly]> (assemblies rx) |> in
      if existsb is_none (fragments assembly) then Some (rx, inr None)
      else if negb (stored_bytes assembly =? as_total_len assembly)
      then Some (remove_assembly rx id, inl AssemblyOverflow)
      else Some (remove_assembly rx id, inr (Some (concat (default [] <$> fragments assembly)))).

Definition decode_datagram `{Aead} (rx : RealtimeDatagramRx) (datagram : list byte) (now : Z) :
    option (RealtimeDatagramRx * (RealtimeDatagramError + option (list byte))) :=
  let rx := prune rx now in
  match fragment_decode datagram with
  | inl e => Some (rx, inl e)
  | inr header =>
      match precheck (replay rx) (sequence header) with
      | inl e => Some (rx, inl e)
      | inr _ =>
          match rx_open rx header datagram now with
          | (rx, inl e) => Some (rx, inl e)
          | (rx, inr plaintext) =>
              let rx := rx <| replay := commit (replay rx) (sequence header) |> in
              if is_nil plaintext || (total_len header <? zlen plaintext) then Some (rx, inl AssemblyOverflow)
              else
                '(rx, admitted) ← assembly_for rx header plaintext now;
                if admitted : bool then store_fragment rx header plaintext else Some (rx, inl AssemblyConflict)
          end
      end
  end.

End receiver.
