(* ===== verification/DatagramInv.v ===== *)
(** * The datagram lane stays within bounds

    The invariant of the receiver of [Datagram]: what it keeps is counted exactly and within the
    limits.  Every datagram keeps it, and is decoded without a panic. *)

From S2P Require Import Prelude Crypto CircuitData FrameCodec Datagram.
#[local] Open Scope Z_scope.
#[local] Open Scope list_scope.

(** ** What is stored *)

Definition stored_sum (m : gmap Z Assembly) : Z := map_fold (fun _ a s => stored_bytes a + s) 0 m.

Definition held (fs : list (option (list byte))) : Z := zlen (concat (default [] <$> fs)).

Lemma stored_sum_empty : stored_sum ∅ = 0.
Proof. apply map_fold_empty. Qed.

Lemma stored_sum_insert m id a : m !! id = None -> stored_sum (<[id := a]> m) = stored_bytes a + stored_sum m.
Proof. intros Hn. unfold stored_sum. rewrite map_fold_insert_L; [done|intros; lia|done]. Qed.

Lemma stored_sum_delete m id a : m !! id = Some a -> stored_sum m = stored_bytes a + stored_sum (delete id m).
Proof.
  intros E. rewrite <- (insert_delete_id m id a E) at 1. by rewrite stored_sum_insert by apply lookup_delete_eq.
Qed.

Lemma stored_sum_replace m id a b : m !! id = Some a ->
  stored_sum (<[id := b]> m) = stored_sum m - stored_bytes a + stored_bytes b.
Proof.
  intros E. rewrite <- insert_delete_eq, stored_sum_insert by apply lookup_delete_eq. rewrite (stored_sum_delete m id a E). lia.
Qed.

Lemma held_nonneg fs : 0 <= held fs.
Proof. apply zlen_nonneg. Qed.

Lemma held_store fs i p : fs !! i = Some None -> held (<[i := Some p]> fs) = held fs + zlen p.
Proof.
  unfold held. revert i. induction fs as [|f fs IH]; intros [|i] E; try done.
  - injection E as ->. cbn. rewrite zlen_app. lia.
  - change (zlen (default [] f ++ concat (default [] <$> <[i := Some p]> fs)) = zlen (default [] f ++ concat (default [] <$> fs)) + zlen p).
    rewrite !zlen_app, (IH i E). lia.
Qed.

Lemma held_none n : held (repeat None n) = 0.
Proof. unfold held. induction n as [|n IH]; [done|]. cbn. exact IH. Qed.

(** ** The invariant *)

Record assembly_ok (a : Assembly) : Prop := {
  ao_stored : stored_bytes a = held (fragments a);
  ao_total : stored_bytes a <= as_total_len a <= MAX_REALTIME_FRAME;
  ao_count : 0 < zlen (fragments a) <= MAX_FRAGMENTS
}.

Record rx_ok (rx : RealtimeDatagramRx) : Prop := {
  ro_bytes : assembly_bytes rx = stored_sum (assemblies rx);
  ro_size : Z.of_nat (size (assemblies rx)) <= max_assemblies rx;
  ro_total : assembly_bytes rx <= max_assembly_bytes rx;
  ro_limits : 1 <= max_assemblies rx <= MAX_ASSEMBLIES /\ MAX_REALTIME_FRAME <= max_assembly_bytes rx <= MAX_ASSEMBLY_BYTES;
  ro_each : map_Forall (fun _ a => assembly_ok a) (assemblies rx);
  ro_open : map_Forall (fun _ a => None ∈ fragments a) (assemblies rx)
}.

Lemma stored_sum_nonneg m : map_Forall (fun _ a => assembly_ok a) m -> 0 <= stored_sum m.
Proof.
  induction m as [|id a m Hn IH] using map_ind; [rewrite stored_sum_empty; done|].
  intros [Ha Hm]%map_Forall_insert; [|done]. rewrite stored_sum_insert by done. specialize (IH Hm).
  pose proof (ao_stored a Ha). pose proof (held_nonneg (fragments a)). lia.
Qed.

Lemma stored_sum_sub m m' : map_Forall (fun _ a => assembly_ok a) m -> m' ⊆ m -> stored_sum m' <= stored_sum m.
Proof.
  revert m'. induction m as [|id a m Hn IH] using map_ind; intros m' Hok Hsub.
  - assert (m' = ∅) as -> by (apply map_empty; intros i; apply (lookup_weaken_None _ ∅); [apply lookup_empty|done]). done.
  - apply map_Forall_insert in Hok as [Ha Hm]; [|done]. rewrite stored_sum_insert by done.
    assert (0 <= stored_bytes a) by (rewrite (ao_stored a Ha); apply held_nonneg).
    assert (delete id m' ⊆ m) as Hd.
    { apply (delete_mono _ _ id) in Hsub. by rewrite delete_insert_eq, (delete_id m) in Hsub. }
    destruct (m' !! id) as [b|] eqn:E.
    + assert (b = a) as -> by (eapply lookup_weaken in E; [|exact Hsub]; rewrite lookup_insert_eq in E; congruence).
      rewrite (stored_sum_delete m' id a E). specialize (IH _ Hm Hd). lia.
    + rewrite delete_id in Hd by done. specialize (IH _ Hm Hd). lia.
Qed.

(** ** Evictions: the receiver with fewer assemblies *)

Definition keeping (rx : RealtimeDatagramRx) (m : gmap Z Assembly) : RealtimeDatagramRx :=
  rx <| assemblies := m |> <| assembly_bytes := stored_sum m |>.

Lemma keeping_self rx : assembly_bytes rx = stored_sum (assemblies rx) -> keeping rx (assemblies rx) = rx.
Proof. destruct rx. unfold keeping. cbn. by intros ->. Qed.

Lemma keeping_keeping rx m m' : keeping (keeping rx m) m' = keeping rx m'.
Proof. done. Qed.

Lemma remove_keeping rx m id : map_Forall (fun _ a => assembly_ok a) m ->
  remove_assembly (keeping rx m) id = keeping rx (delete id m).
Proof.
  intros Hok. unfold remove_assembly. cbn [keeping assemblies set_field]. destruct (m !! id) as [a|] eqn:E; cbn.
  - assert (0 <= stored_sum (delete id m)) by (apply stored_sum_nonneg; by apply map_Forall_delete).
    replace (sat_sub (stored_sum m) (stored_bytes a)) with (stored_sum (delete id m)); [done|].
    unfold sat_sub. pose proof (stored_sum_delete m id a E). lia.
  - by rewrite delete_id.
Qed.

(** Removing a list of assemblies. *)
Lemma remove_list rx m ids : map_Forall (fun _ a => assembly_ok a) m ->
  foldl remove_assembly (keeping rx m) ids = keeping rx (filter (fun e => e.1 ∉ ids) m).
Proof.
  revert m. induction ids as [|id ids IH]; intros m Hok; cbn.
  - f_equal. symmetry. apply map_filter_id. intros i a _. apply not_elem_of_nil.
  - rewrite remove_keeping, IH by (done || by apply map_Forall_delete). f_equal. apply map_eq. intros i.
    apply option_eq. intros a. rewrite !map_lookup_filter_Some, lookup_delete_Some, not_elem_of_cons. cbn. naive_solver.
Qed.

Lemma keeping_ok rx m : rx_ok rx -> m ⊆ assemblies rx -> rx_ok (keeping rx m).
Proof.
  intros [Hb Hs Ht Hl He Ho] Hsub. split; cbn; try done.
  - apply map_subseteq_size in Hsub. lia.
  - pose proof (stored_sum_sub _ _ He Hsub). lia.
  - intros id a E. eapply He, lookup_weaken; done.
  - intros id a E. eapply Ho, lookup_weaken; done.
Qed.

Lemma keeping_total rx m : rx_ok rx -> m ⊆ assemblies rx -> stored_sum m <= max_assembly_bytes rx.
Proof. intros Hok Hsub. apply (ro_total _ (keeping_ok rx m Hok Hsub)). Qed.

Lemma keeping_insert_ok rx m id a : rx_ok rx -> m ⊆ assemblies rx -> assembly_ok a -> None ∈ fragments a ->
  Z.of_nat (size (<[id := a]> m)) <= max_assemblies rx -> stored_sum (<[id := a]> m) <= max_assembly_bytes rx ->
  rx_ok (keeping rx (<[id := a]> m)).
Proof.
  intros Hok Hsub Ha Hn Hs Ht. destruct (keeping_ok rx m Hok Hsub) as [_ _ _ Hl He Ho]. split; cbn in *; try done.
  - by apply map_Forall_insert_2.
  - by apply map_Forall_insert_2.
Qed.

Lemma repeat_none {A} (n : nat) : (0 < n)%nat -> (None : option A) ∈ repeat None n.
Proof. destruct n; [lia|]. intros _. by left. Qed.

Lemma remove_assembly_ok rx id : rx_ok rx -> remove_assembly rx id = keeping rx (delete id (assemblies rx)).
Proof. intros Hok. rewrite <- (keeping_self rx (ro_bytes rx Hok)) at 1. apply remove_keeping, Hok. Qed.

Lemma earlier_in l best e : foldl earlier best l = Some e -> best = Some e \/ e ∈ l.
Proof.
  revert best. induction l as [|x l IH]; intros best; cbn; [by left|]. intros [E|Hin]%IH; [|right; by right].
  unfold earlier in E. destruct best as [b|]; [case_bool; [|by left]|]; injection E as ->; right; by left.
Qed.

Lemma earlier_some l b : is_Some (foldl earlier (Some b) l).
Proof. revert b. induction l as [|x l IH]; intros b; cbn; [done|]. case_bool; apply IH. Qed.

Lemma min_created_in l e : min_created l = Some e -> e ∈ l.
Proof. by intros [?|?]%earlier_in. Qed.

Lemma min_created_none l : min_created l = None -> l = [].
Proof. destruct l as [|x l]; [done|]. intros E. destruct (earlier_some l x) as [y Hy]. cbv in Hy, E. congruence. Qed.

Section receiver.
Context (hash_order : list (Z * Assembly) -> list (Z * Assembly)).
Context (hash_order_perm : forall l, hash_order l ≡ₚ l).

Definition fresh_at (now : Z) (a : Assembly) : Prop := sat_sub now (created_at a) < ASSEMBLY_TTL.

#[export] Instance fresh_at_dec now a : Decision (fresh_at now a) := ltac:(unfold fresh_at; apply _).

Lemma prune_keeping rx now : rx_ok rx ->
  prune hash_order rx now = keeping rx (filter (fun e => fresh_at now e.2) (assemblies rx)).
Proof.
  intros Hok. unfold prune. rewrite <- (keeping_self rx (ro_bytes rx Hok)) at 1. rewrite remove_list by apply Hok.
  f_equal. cbn. apply map_eq. intros i. apply option_eq. intros a. rewrite !map_lookup_filter_Some. cbn.
  rewrite list_elem_of_fmap. unfold fresh_at. split.
  - intros [E Hn]. split; [done|]. apply Z.nle_gt. intros Hle. apply Hn. exists (i, a). split; [done|].
    apply list_elem_of_filter. split; [cbn; by apply Z.leb_le|]. rewrite hash_order_perm. by apply elem_of_map_to_list.
  - intros [E Hlt]. split; [done|]. intros ([j b] & -> & [Hle Hin]%list_elem_of_filter). rewrite hash_order_perm in Hin.
    apply elem_of_map_to_list in Hin. cbn in *. rewrite E in Hin. injection Hin as ->. apply Z.leb_le in Hle. lia.
Qed.

(** What evictions leave: everything if there was no need, and otherwise room, or nothing to evict. *)
Record sheds (rx : RealtimeDatagramRx) (protected : option Z) (incoming : Z) (is_new : bool) (m : gmap Z Assembly) : Prop := {
  sp_sub : m ⊆ assemblies rx;
  sp_idle : crowded rx incoming is_new = false -> m = assemblies rx;
  sp_kept : forall id, protected = Some id -> m !! id = assemblies rx !! id;
  sp_room : crowded (keeping rx m) incoming is_new = false \/ forall id, is_Some (m !! id) -> Some id = protected
}.

Lemma make_room_loop_spec fuel rx protected incoming is_new :
  rx_ok rx -> (size (assemblies rx) < fuel)%nat ->
  exists m, make_room_loop hash_order fuel rx protected incoming is_new = Some (keeping rx m) /\
    sheds rx protected incoming is_new m.
Proof.
  revert rx. induction fuel as [|fuel IH]; intros rx Hok Hf; [lia|]. cbn [make_room_loop].
  destruct (crowded rx incoming is_new) eqn:Ec.
  - destruct (min_created _) as [[oldest a]|] eqn:Em.
    + apply min_created_in, list_elem_of_filter in Em as [Hp Hin]. rewrite hash_order_perm in Hin.
      apply elem_of_map_to_list in Hin. cbn in Hp. rewrite remove_assembly_ok by done.
      destruct (IH (keeping rx (delete oldest (assemblies rx)))) as (m & E & [Hm _ Hk Hr]).
      * apply keeping_ok; [done|]. apply delete_subseteq.
      * cbn. rewrite map_size_delete_Some by done.
        assert (size (assemblies rx) <> 0%nat) by (intros E0%map_size_empty_inv; by rewrite E0 in Hin). lia.
      * exists m. split; [done|]. split; [|congruence| |done].
        -- etrans; [exact Hm|]. apply delete_subseteq.
        -- intros id ->. rewrite (Hk id) by done. cbn. rewrite lookup_delete_ne by congruence. done.
    + apply min_created_none in Em. exists (assemblies rx). rewrite keeping_self by apply Hok.
      split; [done|]. split; [done..|]. right. intros id [a Ha]. apply dec_stable. intros Hp.
      apply (not_elem_of_nil (id, a)). rewrite <- Em. apply list_elem_of_filter. split; [done|].
      rewrite hash_order_perm. by apply elem_of_map_to_list.
  - exists (assemblies rx). rewrite keeping_self by apply Hok. split; [done|]. split; [done..|].
    left. by rewrite keeping_self by apply Hok.
Qed.

Lemma evict_spec rx protected incoming is_new : rx_ok rx ->
  exists m, make_room hash_order rx protected incoming is_new = Some (keeping rx m) /\ sheds rx protected incoming is_new m.
Proof. intros Hok. apply make_room_loop_spec; [done|lia]. Qed.

(** ** A fragment is stored *)

Record header_ok (h : FragmentHeader) : Prop := {
  ho_id : 0 < message_id h < M32;
  ho_index : 0 <= fragment_index h < fragment_count h;
  ho_count : fragment_count h <= MAX_FRAGMENTS;
  ho_total : 0 < total_len h <= MAX_REALTIME_FRAME;
  ho_seq : 0 < sequence h < M64
}.

Definition new_assembly (h : FragmentHeader) (now : Z) : Assembly :=
  mkAssembly now (total_len h) (repeat None (Z.to_nat (fragment_count h))) 0.

Definition matches (a : Assembly) (h : FragmentHeader) : Prop :=
  as_total_len a = total_len h /\ zlen (fragments a) = fragment_count h.

Definition slot (h : FragmentHeader) : nat := Z.to_nat (fragment_index h).

Definition with_fragment (a : Assembly) (h : FragmentHeader) (p : list byte) : Assembly :=
  a <| stored_bytes := stored_bytes a + zlen p |> <| fragments := <[slot h := Some p]> (fragments a) |>.

(** What [assembly_for] may do. *)
Inductive admits (rx : RealtimeDatagramRx) (h : FragmentHeader) (p : list byte) (now : Z) : RealtimeDatagramRx -> bool -> Prop :=
| admits_known a : assemblies rx !! message_id h = Some a -> matches a h -> admits rx h p now rx true
| admits_conflict a : assemblies rx !! message_id h = Some a -> ~ matches a h ->
    admits rx h p now (keeping rx (delete (message_id h) (assemblies rx))) false
| admits_new m : assemblies rx !! message_id h = None -> sheds rx None (zlen p) true m ->
    admits rx h p now (keeping rx (<[message_id h := new_assembly h now]> m)) true.

(** What [store_fragment] may do. *)
Inductive stores (rx : RealtimeDatagramRx) (h : FragmentHeader) (p : list byte) (a : Assembly) :
    RealtimeDatagramRx -> RealtimeDatagramError + option (list byte) -> Prop :=
| stores_again q : fragments a !! slot h = Some (Some q) -> stores rx h p a rx (inr None)
| stores_over m : fragments a !! slot h = Some None -> sheds rx (Some (message_id h)) (zlen p) false m ->
    as_total_len a < stored_bytes a + zlen p ->
    stores rx h p a (keeping rx (delete (message_id h) m)) (inl AssemblyOverflow)
| stores_part m : fragments a !! slot h = Some None -> sheds rx (Some (message_id h)) (zlen p) false m ->
    stored_bytes a + zlen p <= as_total_len a -> None ∈ fragments (with_fragment a h p) ->
    stores rx h p a (keeping rx (<[message_id h := with_fragment a h p]> m)) (inr None)
| stores_short m : fragments a !! slot h = Some None -> sheds rx (Some (message_id h)) (zlen p) false m ->
    None ∉ fragments (with_fragment a h p) -> stored_bytes a + zlen p < as_total_len a ->
    stores rx h p a (keeping rx (delete (message_id h) m)) (inl AssemblyOverflow)
| stores_whole m : fragments a !! slot h = Some None -> sheds rx (Some (message_id h)) (zlen p) false m ->
    None ∉ fragments (with_fragment a h p) -> stored_bytes a + zlen p = as_total_len a ->
    stores rx h p a (keeping rx (delete (message_id h) m))
      (inr (Some (concat (default [] <$> fragments (with_fragment a h p))))).

Lemma fragment_decode_ok bytes h : fragment_decode bytes = inr h -> header_ok h /\ MIN_DATAGRAM_LEN <= zlen bytes.
Proof.
  unfold fragment_decode. case_bool; [done|]. apply orb_false_iff in Hb as [Hlen _]. apply Z.ltb_ge in Hlen.
  set (h' := mkFragment _ _ _ _ _). case_bool; [done|]. intros [= <-]. to_prop.
  assert (forall a b, 0 <= a <= b -> b <= 24 -> 0 <= from_be (range a b bytes) < 256 ^ (b - a)) as Hr.
  { intros a b Hab Hb. rewrite <- (range_length a b bytes) by (unfold MIN_DATAGRAM_LEN, FRAGMENT_HEADER_LEN, TAG_LEN in Hlen; lia).
    apply from_be_range. }
  pose proof (Hr 4 8) as R1. pose proof (Hr 8 10) as R2. pose proof (Hr 12 16) as R3. pose proof (Hr 16 24) as R4.
  cbn in R1, R2, R3, R4. split; [split|done]; cbn in *; lia.
Qed.

Lemma assembly_for_spec rx h p now : rx_ok rx -> header_ok h -> 0 < zlen p <= total_len h ->
  exists rx' b, assembly_for hash_order rx h p now = Some (rx', b) /\ admits rx h p now rx' b /\ rx_ok rx'.
Proof.
  intros Hok Hh Hp. unfold assembly_for. destruct (assemblies rx !! message_id h) as [a|] eqn:E.
  - destruct (negb _ || negb _) eqn:Em.
    + rewrite remove_assembly_ok by done. eexists _, _. split_and!; [done| |apply keeping_ok; [done|apply delete_subseteq]].
      eapply admits_conflict; [done|]. intros [M1 M2]. rewrite M1, M2, !Z.eqb_refl in Em. done.
    + to_prop. exists rx, true. split_and!; [done| |done]. by eapply admits_known.
  - destruct (evict_spec rx None (zlen p) true Hok) as (m & -> & Hs). cbn [mbind option_bind].
    assert (m !! message_id h = None) as En by (eapply lookup_weaken_None; [exact E|apply Hs]).
    assert (keeping rx m <| assemblies := <[message_id h := new_assembly h now]> m |> =
            keeping rx (<[message_id h := new_assembly h now]> m)) as Ek
      by (unfold keeping; rewrite stored_sum_insert by done; done).
    exists (keeping rx (<[message_id h := new_assembly h now]> m)), true. split_and!; [by rewrite <- Ek|by apply admits_new|].
    assert (crowded (keeping rx m) (zlen p) true = false) as Hroom.
    { destruct (sp_room _ _ _ _ _ Hs) as [?|Hnone]; [done|]. assert (m = ∅) as -> by
        (apply map_empty; intros i; destruct (m !! i) eqn:Ei; [|done]; by discriminate (Hnone i)).
      unfold crowded, sat_add64. cbn. rewrite stored_sum_empty, map_size_empty. pose proof (ro_limits rx Hok) as [L1 L2].
      destruct Hh. apply orb_false_iff. rewrite Z.leb_gt, Z.ltb_ge. unfold U64_MAX. lia. }
    unfold crowded in Hroom. cbn in Hroom. to_prop. apply keeping_insert_ok; [done|apply Hs| | | |].
    + split; cbn; [by rewrite held_none|destruct Hh; lia|]. rewrite zlen_repeat. destruct Hh. lia.
    + apply repeat_none. destruct Hh. lia.
    + rewrite map_size_insert_None by done. lia.
    + rewrite stored_sum_insert by done. cbn. apply keeping_total; [done|apply Hs].
Qed.

Lemma existsb_none {A} (l : list (option A)) : existsb is_none l = true <-> None ∈ l.
Proof.
  rewrite existsb_exists. split.
  - intros ([x|] & Hin & Hx); [done|]. by apply list_elem_of_In.
  - intros Hin. exists None. split; [by apply list_elem_of_In|done].
Qed.

Lemma with_fragment_ok a h p : assembly_ok a -> fragments a !! slot h = Some None ->
  stored_bytes a + zlen p <= as_total_len a -> assembly_ok (with_fragment a h p).
Proof.
  intros [Hs Ht Hc] E Hle. split; cbn; [by rewrite held_store, Hs|lia|]. unfold zlen in *. by rewrite length_insert.
Qed.

(** A fragment that fits its frame fits what is kept. *)
Lemma room_for_fragment rx m id a (p : list byte) : rx_ok rx -> sheds rx (Some id) (zlen p) false m -> m !! id = Some a -> assembly_ok a ->
  stored_bytes a + zlen p <= as_total_len a -> stored_sum m + zlen p <= max_assembly_bytes rx.
Proof.
  intros Hok Hs Em Ha Hfit. pose proof (ro_limits rx Hok) as [_ L]. destruct (sp_room _ _ _ _ _ Hs) as [Hr|Honly].
  - apply orb_false_iff in Hr as [_ Hr]. apply Z.ltb_ge in Hr.
    change (Z.min (stored_sum m + zlen p) U64_MAX <= max_assembly_bytes rx) in Hr.
    assert (MAX_ASSEMBLY_BYTES < U64_MAX) by reflexivity. lia.
  - rewrite (stored_sum_delete m id a Em). replace (delete id m) with (∅ : gmap Z Assembly); [rewrite stored_sum_empty; destruct Ha; lia|].
    symmetry. apply map_empty. intros j. apply lookup_delete_None. destruct (m !! j) eqn:Ej; [left|by right].
    specialize (Honly j (ltac:(by rewrite Ej))). congruence.
Qed.

Lemma store_fragment_spec rx h p a : rx_ok rx -> header_ok h -> 0 < zlen p <= total_len h ->
  assemblies rx !! message_id h = Some a -> matches a h ->
  exists rx' r, store_fragment hash_order rx h p = Some (rx', r) /\ stores rx h p a rx' r /\ rx_ok rx'.
Proof.
  intros Hok Hh Hp Ea [_ Mc]. unfold store_fragment. rewrite Ea. cbn [mbind option_bind].
  assert (slot h < length (fragments a))%nat as Hi by (unfold slot, zlen in *; destruct Hh; lia).
  apply lookup_lt_is_Some in Hi as [o Eo]. fold (slot h). rewrite Eo. cbn [mbind option_bind].
  destruct o as [q|]; cbn [is_some is_some_and].
  { exists rx, (inr None). split_and!; [done|by eapply stores_again|done]. }
  destruct (evict_spec rx (Some (message_id h)) (zlen p) false Hok) as (m & -> & Hs). cbn [mbind option_bind].
  assert (m !! message_id h = Some a) as Em by (rewrite (sp_kept _ _ _ _ _ Hs) by done; done).
  pose proof (keeping_ok rx m Hok (sp_sub _ _ _ _ _ Hs)) as Hokm. pose proof (ro_each rx Hok _ _ Ea) as Ha.
  change (assemblies (keeping rx m)) with m. rewrite Em. cbn [mbind option_bind]. rewrite Eo. cbn [mbind option_bind].
  assert (sat_add64 (stored_bytes a) (zlen p) = stored_bytes a + zlen p) as ->.
  { unfold sat_add64, U64_MAX. destruct Ha, Hh. unfold MAX_REALTIME_FRAME, CIRCUIT_PAYLOAD_BYTES, DATA_HEADER_LEN, HEADER_SIZE in *. lia. }
  assert (rx_ok (keeping rx (delete (message_id h) m))) as Hdel
    by (apply keeping_ok; [done|]; etrans; [apply delete_subseteq|apply Hs]).
  destruct (Z.ltb_spec (as_total_len a) (stored_bytes a + zlen p)) as [Hover|Hfit].
  { rewrite remove_keeping by apply Hokm. eexists _, _. split_and!; [done|by eapply stores_over|]. apply Hdel. }
  fold (with_fragment a h p). pose proof (with_fragment_ok a h p Ha Eo Hfit) as Ha'.
  assert (stored_sum (<[message_id h := with_fragment a h p]> m) = stored_sum m + zlen p) as Esum
    by (rewrite (stored_sum_replace m _ a) by done; cbn; lia).
  assert (keeping rx m <| assembly_bytes := stored_sum m + zlen p |> <| assemblies := <[message_id h := with_fragment a h p]> m |> =
    keeping rx (<[message_id h := with_fragment a h p]> m)) as Ek by (unfold keeping; by rewrite Esum).
  change (assembly_bytes (keeping rx m)) with (stored_sum m). rewrite Ek.
  destruct (existsb is_none (fragments (with_fragment a h p))) eqn:Ex.
  - apply existsb_none in Ex. eexists _, _. split_and!; [done|by eapply stores_part|]. apply keeping_insert_ok; [done|apply Hs|done|done| |].
    + rewrite map_size_insert_Some by done. apply Hokm.
    + rewrite Esum. eapply room_for_fragment; done.
  - rewrite remove_keeping, delete_insert_eq by (apply map_Forall_insert_2; [done|apply Hokm]).
    assert (None ∉ fragments (with_fragment a h p)) as Hn by (rewrite <- existsb_none, Ex; done).
    change (stored_bytes (with_fragment a h p)) with (stored_bytes a + zlen p).
    change (as_total_len (with_fragment a h p)) with (as_total_len a).
    destruct (Z.eqb_spec (stored_bytes a + zlen p) (as_total_len a)) as [Eq|Ne]; cbn [negb]; eexists _, _.
    + split_and!; [done|by eapply stores_whole|done].
    + split_and!; [done|eapply stores_short; try done; lia|done].
Qed.

(** ** A datagram is decoded *)

Context `{Aead} `{Blake3Kdf}.

(** The keys the receiver opens with at an instant. *)
Definition opens_with (rx : RealtimeDatagramRx) (key : Key) (now : Z) : Prop :=
  key = rx_cipher rx \/ exists until, previous rx = Some (key, until) /\ now < until.

(** What [rx_open] may do: only the retired key is touched. *)
Lemma rx_open_spec rx h d now rx' r : rx_open rx h d now = (rx', r) ->
  exists prev, rx' = rx <| previous := prev |> /\ (prev = previous rx \/ prev = None) /\
    forall p, r = inr p -> exists key, opens_with rx key now /\
      aead_open key (nonce_for (sequence h)) (ztake FRAGMENT_HEADER_LEN d) (zdrop FRAGMENT_HEADER_LEN d) = Some p.
Proof.
  unfold rx_open. destruct (aead_open (rx_cipher rx) _ _ _) as [p|] eqn:E0.
  { intros [= <- <-]. exists (previous rx). split_and!; [by destruct rx|by left|]. intros q [= <-]. exists (rx_cipher rx). split; [by left|done]. }
  destruct (previous rx) as [[key until]|] eqn:Ep; cbn.
  2: { rewrite Ep. intros [= <- <-]. exists (previous rx). split_and!; [by destruct rx|rewrite Ep; by left|done]. }
  destruct (Z.leb_spec until now); cbn.
  - intros [= <- <-]. exists None. split_and!; [done|by right|done].
  - rewrite Ep. destruct (aead_open key _ _ _) as [p|] eqn:E1; intros [= <- <-]; exists (previous rx); rewrite Ep;
      (split_and!; [rewrite <- Ep; by destruct rx|by left|]); [|done].
    intros q [= <-]. exists key. split; [right; by exists until|done].
Qed.

(** The receiver after an accepted sequence number. *)
Definition accepted (rx : RealtimeDatagramRx) (prev : option (Key * Z)) (seq : Z) : RealtimeDatagramRx :=
  rx <| previous := prev |> <| replay := commit (replay rx) seq |>.

Lemma accepted_ok rx prev seq : rx_ok rx -> rx_ok (accepted rx prev seq).
Proof. intros []. by split. Qed.

(** What becomes of an authentic fragment. *)
Inductive takes (rx : RealtimeDatagramRx) (h : FragmentHeader) (p : list byte) (now : Z) :
    RealtimeDatagramRx -> RealtimeDatagramError + option (list byte) -> Prop :=
| takes_none : p = [] \/ total_len h < zlen p -> takes rx h p now rx (inl AssemblyOverflow)
| takes_conflict rx' : admits rx h p now rx' false -> takes rx h p now rx' (inl AssemblyConflict)
| takes_stored rx1 a rx2 r : 0 < zlen p <= total_len h -> admits rx h p now rx1 true -> rx_ok rx1 ->
    assemblies rx1 !! message_id h = Some a -> matches a h -> stores rx1 h p a rx2 r -> takes rx h p now rx2 r.

(** What [decode_datagram] may do to a receiver that was pruned. *)
Inductive decodes (rx : RealtimeDatagramRx) (d : list byte) (now : Z) :
    RealtimeDatagramRx -> RealtimeDatagramError + option (list byte) -> Prop :=
| decodes_refused e prev : prev = previous rx \/ prev = None -> decodes rx d now (rx <| previous := prev |>) (inl e)
| decodes_opened h p key prev rx' r : fragment_decode d = inr h -> precheck (replay rx) (sequence h) = inr tt ->
    opens_with rx key now -> prev = previous rx \/ prev = None ->
    aead_open key (nonce_for (sequence h)) (ztake FRAGMENT_HEADER_LEN d) (zdrop FRAGMENT_HEADER_LEN d) = Some p ->
    takes (accepted rx prev (sequence h)) h p now rx' r -> decodes rx d now rx' r.

Lemma admits_present rx h p now rx' : header_ok h -> admits rx h p now rx' true ->
  exists a, assemblies rx' !! message_id h = Some a /\ matches a h.
Proof.
  intros Hh Had. inversion Had as [a E M| |m E Hs]; subst; [by exists a|]. exists (new_assembly h now). cbn.
  rewrite lookup_insert_eq. split; [done|]. split; [done|]. cbn. rewrite zlen_repeat. destruct Hh. lia.
Qed.

Lemma decode_datagram_spec rx d now : rx_ok rx ->
  let rx0 := keeping rx (filter (fun e => fresh_at now e.2) (assemblies rx)) in
  exists rx' r, decode_datagram hash_order rx d now = Some (rx', r) /\ decodes rx0 d now rx' r /\ rx_ok rx'.
Proof.
  intros Hok rx0. assert (rx_ok rx0) as Hok0 by (apply keeping_ok; [done|apply map_filter_subseteq]).
  unfold decode_datagram. rewrite prune_keeping by done. fold rx0.
  assert (forall e, exists rx' r, Some (rx0, inl e) = Some (rx', r) /\ decodes rx0 d now rx' r /\ rx_ok rx') as Hrefuse.
  { intros e. exists rx0, (inl e). split_and!; [done| |done].
    replace rx0 with (rx0 <| previous := previous rx0 |>) at 2 by (by destruct rx0). apply decodes_refused. by left. }
  destruct (fragment_decode d) as [e|h] eqn:Eh; [apply Hrefuse|]. destruct (fragment_decode_ok d h Eh) as [Hh _].
  destruct (precheck (replay rx0) (sequence h)) as [e|[]] eqn:Ep; [apply Hrefuse|].
  destruct (rx_open rx0 h d now) as [rx1 r1] eqn:Eo. destruct (rx_open_spec _ _ _ _ _ _ Eo) as (prev & -> & Hprev & Hopen).
  destruct r1 as [e|p].
  { eexists _, _. split_and!; [done|by apply decodes_refused|]. by destruct Hok0; split. }
  destruct (Hopen p eq_refl) as (key & Hkey & Ea). fold (accepted rx0 prev (sequence h)).
  change (replay (rx0 <| previous := prev |>)) with (replay rx0). fold (accepted rx0 prev (sequence h)).
  pose proof (accepted_ok rx0 prev (sequence h) Hok0) as Hok1.
  assert (forall rx' r, takes (accepted rx0 prev (sequence h)) h p now rx' r -> decodes rx0 d now rx' r) as Hdec
    by (intros; by eapply decodes_opened).
  destruct (is_nil p || (total_len h <? zlen p)) eqn:Eb.
  { eexists _, _. split_and!; [done|apply Hdec, takes_none|done]. apply orb_true_iff in Eb as [Eb|Eb%Z.ltb_lt]; [|by right].
    left. by destruct p. }
  apply orb_false_iff in Eb as [Enil Elen%Z.ltb_ge].
  assert (0 < zlen p <= total_len h) as Hp by (destruct p; [done|]; unfold zlen in *; cbn in *; lia).
  destruct (assembly_for_spec _ h p now Hok1 Hh Hp) as (rx1 & [] & -> & Had & Hok2); cbn [mbind option_bind].
  - destruct (admits_present _ _ _ _ _ Hh Had) as (a & Ha & Hm).
    destruct (store_fragment_spec rx1 h p a Hok2 Hh Hp Ha Hm) as (rx2 & r & -> & Hst & Hok3).
    exists rx2, r. split_and!; [done| |done]. apply Hdec. by eapply takes_stored.
  - eexists _, _. split_and!; [done| |done]. apply Hdec. by apply takes_conflict.
Qed.

End receiver.
