(* ===== verification/DatagramLane.v ===== *)
(** * The datagram lane delivers what was sent

    The sender and the receiver of [Datagram] over a network that loses, repeats and reorders.  The
    replay window is the list of accepted numbers; whatever comes out was sent and comes out once; and
    what arrives in time and within the limits comes out. *)

From S2P Require Import Prelude Crypto CircuitData FrameCodec CircuitReplay Datagram DatagramInv.
#[local] Open Scope Z_scope.
#[local] Open Scope list_scope.

(** ** The replay window as the list of accepted numbers *)

Record window_tracks (w : ReplayWindow) (log : list Z) : Prop := {
  wt_top : highest w = top log;
  wt_bits : forall i, 0 <= i < 128 -> Z.testbit (bitmap w) i = bool_decide (top log - i ∈ log)
}.

Lemma window_tracks_new : window_tracks (mkReplay 0 0) [].
Proof. split; [done|]. intros i Hi. cbn. rewrite Z.testbit_0_l. symmetry. apply bool_decide_eq_false. apply not_elem_of_nil. Qed.

Lemma top_cons s log : top (s :: log) = Z.max s (top log).
Proof. done. Qed.

(** A number passes exactly when it was not accepted and is less than 128 behind the highest. *)
Lemma precheck_tracks w log s : window_tracks w log -> 0 < s ->
  precheck w s = inr tt <-> (s ∉ log) /\ top log < s + 128.
Proof.
  intros [Ht Hb] Hs. unfold precheck. rewrite Ht. destruct (Z.eqb_spec s 0); [lia|].
  destruct (Z.ltb_spec (top log) s).
  { split; [|done]. intros _. split; [|lia]. intros Hin%top_ge. lia. }
  destruct (Z.leb_spec 128 (top log - s)); cbn [orb]; [split; [done|lia]|].
  rewrite land_bit_zero, negb_involutive, Hb by lia. replace (top log - (top log - s)) with s by lia.
  case_bool_decide; split; try done; naive_solver lia.
Qed.

Lemma testbit_shifted b shift i : 0 < shift -> 0 <= i < 128 ->
  Z.testbit (Z.lor (Z.shiftl b shift mod 2 ^ 128) 1) i = (i =? 0) || Z.testbit b (i - shift).
Proof.
  intros Hs Hi. rewrite Z.lor_spec, Z.mod_pow2_bits_low, Z.shiftl_spec by lia.
  destruct (Z.eqb_spec i 0) as [->|Hne]; [cbn; by rewrite orb_true_r|].
  replace (Z.testbit 1 i) with false by (symmetry; apply (Z.bits_above_log2 1 i); cbn; lia). by rewrite orb_false_r.
Qed.

Lemma commit_tracks w log s : window_tracks w log -> 0 < s -> precheck w s = inr tt -> window_tracks (commit w s) (s :: log).
Proof.
  intros Hw Hs Hp. apply (precheck_tracks w log s Hw Hs) in Hp as [Hnew Hwin]. destruct Hw as [Ht Hb].
  unfold commit. rewrite Ht. destruct (Z.ltb_spec (top log) s) as [Hlt|Hle]; split; cbn [highest bitmap]; rewrite top_cons; try lia.
  - intros i Hi. rewrite Z.max_l by lia. destruct (Z.eqb_spec i 0) as [->|Hne].
    { rewrite Z.sub_0_r, bool_decide_eq_true_2 by left. destruct (128 <=? _); [done|]. by rewrite testbit_shifted by lia. }
    assert (s - i ∈ s :: log <-> s - i ∈ log) as Hin by (rewrite elem_of_cons; split; [intros [?|?]; [lia|done]|by right]).
    rewrite (bool_decide_ext _ _ Hin). destruct (Z.leb_spec 128 (s - top log)) as [Hfar|Hnear].
    + rewrite (Z.bits_above_log2 1 i) by (cbn; lia). symmetry. apply bool_decide_eq_false. intros ?%top_ge. lia.
    + rewrite testbit_shifted by lia. destruct (Z.eqb_spec i 0); [done|]. cbn [orb]. destruct (Z.ltb_spec i (s - top log)).
      * rewrite Z.testbit_neg_r by lia. symmetry. apply bool_decide_eq_false. intros ?%top_ge. lia.
      * rewrite Hb by lia. by replace (top log - (i - (s - top log))) with (s - i) by lia.
  - intros i Hi. rewrite Z.max_r by lia. rewrite Z.lor_spec, Z.shiftl_spec, Hb by lia.
    destruct (Z.eqb_spec i (top log - s)) as [->|Hne].
    + rewrite Z.sub_diag, orb_true_r. symmetry. apply bool_decide_eq_true. apply elem_of_cons. left. lia.
    + assert (Z.testbit 1 (i - (top log - s)) = false) as ->.
      { destruct (Z.ltb_spec (i - (top log - s)) 0); [by apply Z.testbit_neg_r|]. apply Z.bits_above_log2; cbn; lia. }
      rewrite orb_false_r. apply bool_decide_ext. rewrite elem_of_cons. split; [by right|intros [?|?]; [lia|done]].
Qed.

(** ** The sender *)

Lemma div_ceil_step a n : 0 < n -> 0 < a -> div_ceil a n = 1 + div_ceil (Z.max 0 (a - n)) n.
Proof.
  intros Hn Ha. unfold div_ceil. destruct (Z.leb_spec a n).
  - rewrite Z.max_l by lia. rewrite Z.div_0_l, Z.mod_0_l by lia. cbn.
    destruct (Z.eqb_spec a n) as [->|]; [rewrite Z.div_same, Z.mod_same by lia; done|].
    rewrite Z.div_small, Z.mod_small by lia. destruct (Z.ltb_spec 0 a); lia.
  - rewrite Z.max_r by lia. replace a with (a - n + 1 * n) at 1 2 by lia. rewrite Z.div_add, Z.mod_add by lia. lia.
Qed.

Lemma chunks_loop_spec n fuel l : 0 < n -> (length l <= fuel)%nat ->
  let cs := chunks_loop fuel (Z.to_nat n) l in
  concat cs = l /\ Forall (fun c => 0 < zlen c <= n) cs /\ zlen cs = div_ceil (zlen l) n.
Proof.
  intros Hn. revert l. induction fuel as [|fuel IH]; intros [|x l] Hf; cbn [chunks_loop]; try (cbn in Hf; lia).
  1, 2: split_and!; [done|constructor|]; unfold div_ceil; rewrite Z.div_0_l, Z.mod_0_l by lia; done.
  destruct (IH (drop (Z.to_nat n) (x :: l))) as (Hc & Hall & Hlen); [rewrite length_drop; cbn [length] in *; lia|].
  cbn zeta. cbn [concat]. rewrite Hc, take_drop, zlen_cons, Hlen. split_and!; [done| |].
  - constructor; [|exact Hall]. unfold zlen. rewrite length_take. cbn [length]. lia.
  - rewrite (div_ceil_step (zlen (x :: l)) n Hn) by (unfold zlen; cbn; lia). f_equal. f_equal.
    unfold zlen. rewrite length_drop. lia.
Qed.

Lemma chunks_spec n l : 0 < n ->
  concat (chunks n l) = l /\ Forall (fun c => 0 < zlen c <= n) (chunks n l) /\ zlen (chunks n l) = div_ceil (zlen l) n.
Proof. intros Hn. by apply chunks_loop_spec. Qed.

(** The fragments of a frame, with their headers. *)
Fixpoint number (id count total index seq : Z) (pieces : list (list byte)) : list (FragmentHeader * list byte) :=
  match pieces with
  | [] => []
  | c :: rest => (mkFragment id index count total seq, c) :: number id count total (index + 1) (seq + 1) rest
  end.

Lemma number_lookup id count total index seq pieces (i : nat) :
  number id count total index seq pieces !! i =
    (fun c => (mkFragment id (index + Z.of_nat i) count total (seq + Z.of_nat i), c)) <$> pieces !! i.
Proof.
  revert index seq i. induction pieces as [|c rest IH]; intros index seq [|i]; cbn; try done.
  - by rewrite !Z.add_0_r.
  - rewrite IH. destruct (rest !! i); [|done]. cbn [fmap option_fmap option_map]. do 3 f_equal; lia.
Qed.

Lemma number_length id count total index seq pieces : zlen (number id count total index seq pieces) = zlen pieces.
Proof. revert index seq. induction pieces as [|c rest IH]; intros; cbn [number]; rewrite ?zlen_cons, ?IH; done. Qed.

Lemma number_snd id count total index seq pieces : (number id count total index seq pieces).*2 = pieces.
Proof. revert index seq. induction pieces as [|c rest IH]; intros; cbn; by rewrite ?IH. Qed.

Definition payload_room (ceiling : Z) : Z := ceiling - (FRAGMENT_HEADER_LEN + TAG_LEN).

Definition fragments_of (tx : RealtimeDatagramTx) (frame : list byte) (ceiling : Z) : list (FragmentHeader * list byte) :=
  let pieces := chunks (payload_room ceiling) frame in
  number (next_message_id tx) (zlen pieces) (zlen frame) 0 (next_sequence tx) pieces.

Definition next_id (id : Z) : Z := if add32 id 1 =? 0 then 1 else add32 id 1.

Section sender.
Context `{Aead}.

Definition sealed_as (key : Key) (f : FragmentHeader * list byte) (d : list byte) : Prop :=
  exists ct, aead_seal key (nonce_for (sequence f.1)) (fragment_encode f.1) f.2 = Some ct /\ d = fragment_encode f.1 ++ ct.

Lemma encode_chunks_spec tx id count total index pieces tx' ds :
  0 <= index -> index + zlen pieces <= count -> count < M16 -> 0 <= total < M32 ->
  encode_chunks tx id count total index pieces = (tx', inr ds) ->
  tx' = tx <| next_sequence := next_sequence tx + zlen pieces |> /\ (0 < zlen pieces -> next_sequence tx + zlen pieces <= U64_MAX) /\
  Forall2 (sealed_as (tx_cipher tx)) (number id count total index (next_sequence tx) pieces) ds.
Proof.
  revert tx index ds. induction pieces as [|c rest IH]; intros tx index ds Hi Hc Hm Ht; cbn [encode_chunks number].
  { intros [= <- <-]. rewrite zlen_nil, Z.add_0_r. split_and!; [by destruct tx|lia|constructor]. }
  rewrite zlen_cons in *. pose proof (zlen_nonneg rest). unfold wrap16, wrap32. rewrite !Z.mod_small by lia.
  destruct (Z.ltb_spec U64_MAX (next_sequence tx + 1)); [done|]. cbn [tx_cipher set_field].
  destruct (aead_seal _ _ _ c) as [ct|] eqn:Es; [|done].
  destruct (encode_chunks _ _ _ _ _ rest) as [tx1 [e|encoded]] eqn:E; [done|]. intros [= <- <-].
  apply IH in E as (-> & Hu & Hall); [|lia..]. cbn [next_sequence set_field tx_cipher] in *.
  split_and!; [destruct tx as [k s m]; cbv [set_field]; cbn; f_equal; lia| |].
  - intros _. cbn in Hu. destruct (Z.eqb_spec (zlen rest) 0); lia.
  - constructor; [|exact Hall]. exists ct. split; [exact Es|done].
Qed.

Lemma encode_frame_spec tx frame ceiling tx' ds : encode_frame tx frame ceiling = (tx', inr ds) ->
  0 < zlen frame <= MAX_REALTIME_FRAME /\ 0 < payload_room ceiling /\ 0 < zlen (fragments_of tx frame ceiling) <= MAX_FRAGMENTS /\
  next_sequence tx + zlen (fragments_of tx frame ceiling) <= U64_MAX /\
  tx' = mkTx (tx_cipher tx) (next_sequence tx + zlen (fragments_of tx frame ceiling)) (next_id (next_message_id tx)) /\
  Forall2 (sealed_as (tx_cipher tx)) (fragments_of tx frame ceiling) ds.
Proof.
  unfold encode_frame, fragments_of. fold (payload_room ceiling). destruct (is_nil frame || _) eqn:E1; [done|]. apply orb_false_iff in E1 as [Hn Hmax%Z.ltb_ge].
  destruct (Z.leb_spec (payload_room ceiling) 0); [done|].
  destruct (chunks_spec (payload_room ceiling) frame) as (Hcat & Hall & Hlen); [done|]. rewrite <- Hlen.
  destruct (Z.ltb_spec MAX_FRAGMENTS (zlen (chunks (payload_room ceiling) frame))); [done|].
  assert (0 < zlen frame) as Hf by (destruct frame; [done|]; unfold zlen; cbn; lia).
  assert (0 < zlen (chunks (payload_room ceiling) frame)) as Hpos.
  { destruct (chunks (payload_room ceiling) frame); [cbn in Hcat; subst; done|]. unfold zlen; cbn; lia. }
  set (tx1 := if _ =? 0 then _ else _).
  assert (tx1 = mkTx (tx_cipher tx) (next_sequence tx) (next_id (next_message_id tx))) as Etx
    by (unfold tx1, next_id; cbn; destruct (_ =? 0); done).
  intros E. rewrite Etx in E. rewrite number_length.
  apply encode_chunks_spec in E as (-> & Hu & Hs);
    [|unfold MAX_FRAGMENTS, MAX_REALTIME_FRAME, CIRCUIT_PAYLOAD_BYTES, DATA_HEADER_LEN, HEADER_SIZE in *; lia..].
  cbn in Hu, Hs |- *. split_and!; try done. by apply Hu.
Qed.

End sender.

(** ** What a sender sent *)

Record Sent := mkSent {
  sent_id : Z;
  sent_seq : Z;
  sent_frame : list byte;
  sent_pieces : list (list byte);
  sent_datagrams : list (list byte)
}.

#[global] Instance Sent_eq_dec : EqDecision Sent.
Proof. solve_decision. Defined.

Definition sent_fragments (s : Sent) : list (FragmentHeader * list byte) :=
  number (sent_id s) (zlen (sent_pieces s)) (zlen (sent_frame s)) 0 (sent_seq s) (sent_pieces s).

Record sent_shape (s : Sent) : Prop := {
  sw_frame : concat (sent_pieces s) = sent_frame s;
  sw_len : 0 < zlen (sent_frame s) <= MAX_REALTIME_FRAME;
  sw_count : 0 < zlen (sent_pieces s) <= MAX_FRAGMENTS;
  sw_pieces : Forall (fun c => 0 < zlen c) (sent_pieces s);
  sw_id : 0 < sent_id s < M32;
  sw_seq : 0 < sent_seq s /\ sent_seq s + zlen (sent_pieces s) <= U64_MAX
}.

(** Frames that are told apart by their message id, and fragments by their sequence number. *)
Record log_ok (sent : list Sent) : Prop := {
  lo_wf : Forall sent_shape sent;
  lo_ids s s' : s ∈ sent -> s' ∈ sent -> sent_id s = sent_id s' -> s = s';
  lo_seqs s s' i j : s ∈ sent -> s' ∈ sent -> 0 <= i < zlen (sent_pieces s) -> 0 <= j < zlen (sent_pieces s') ->
    sent_seq s + i = sent_seq s' + j -> s = s';
  lo_nodup : NoDup sent
}.

Inductive LaneOp :=
| SendFrame (frame : list byte) (ceiling : Z)
| SendRekey (raw_tx_key session_id : Key).

Section transmit.
Context `{Aead} `{Blake3Kdf}.

Fixpoint transmit (tx : RealtimeDatagramTx) (ops : list LaneOp) : RealtimeDatagramTx * list Sent :=
  match ops with
  | [] => (tx, [])
  | SendRekey key session :: ops => transmit (tx_rekey tx key session) ops
  | SendFrame frame ceiling :: ops =>
      let '(tx1, r) := encode_frame tx frame ceiling in
      let '(tx2, sent) := transmit tx1 ops in
      (tx2, match r with
            | inr ds => mkSent (next_message_id tx) (next_sequence tx) frame (chunks (payload_room ceiling) frame) ds :: sent
            | inl _ => sent
            end)
  end.

(** The message ids go round from 1 to 2^32 - 1. *)
Definition id_after (id : Z) (k : nat) : Z := 1 + (id - 1 + Z.of_nat k) mod (M32 - 1).

Lemma id_after_next id k : 0 < id < M32 -> id_after (next_id id) k = id_after id (S k).
Proof.
  intros Hid. unfold id_after, next_id, add32, wrap32. f_equal. destruct (Z.eqb_spec ((id + 1) mod M32) 0) as [E|E].
  - assert (id = M32 - 1) as -> by mlia. rewrite <- (Z.mod_add (1 - 1 + Z.of_nat k) 1) by lia. f_equal. lia.
  - rewrite (Z.mod_small (id + 1) M32) by mlia. f_equal. lia.
Qed.

Lemma id_after_inj id k k' : Z.of_nat k < M32 - 1 -> Z.of_nat k' < M32 - 1 -> id_after id k = id_after id k' -> k = k'.
Proof. unfold id_after. intros. mlia. Qed.

Definition tx_wf (tx : RealtimeDatagramTx) : Prop := 0 < next_sequence tx /\ 0 < next_message_id tx < M32.

Lemma next_id_range id : 0 < id < M32 -> 0 < next_id id < M32.
Proof. intros. unfold next_id, add32, wrap32. destruct (Z.eqb_spec ((id + 1) mod M32) 0); mlia. Qed.

(** An encoder that fails may have spent sequence numbers and a message id, never turned one back. *)
Lemma encode_frame_mono tx frame ceiling : tx_wf tx ->
  let tx' := (encode_frame tx frame ceiling).1 in
  tx_wf tx' /\ next_sequence tx <= next_sequence tx' /\ tx_cipher tx' = tx_cipher tx /\
  (next_message_id tx' = next_message_id tx \/ next_message_id tx' = next_id (next_message_id tx)).
Proof.
  intros [Hs Hi].
  assert (forall pieces tx id c t i, next_sequence tx <= next_sequence (encode_chunks tx id c t i pieces).1 /\
    tx_cipher (encode_chunks tx id c t i pieces).1 = tx_cipher tx /\
    next_message_id (encode_chunks tx id c t i pieces).1 = next_message_id tx) as Hc.
  { clear. induction pieces as [|p pieces IH]; intros tx id c t i; cbn [encode_chunks]; [done|].
    destruct (U64_MAX <? _); [done|]. set (tx1 := tx <| next_sequence := _ |>).
    assert (next_sequence tx < next_sequence tx1 /\ tx_cipher tx1 = tx_cipher tx /\ next_message_id tx1 = next_message_id tx) by (split; [cbn; lia|done]).
    destruct (aead_seal _ _ _ _); [|cbn; naive_solver lia]. specialize (IH tx1 id c t (i + 1)).
    destruct (encode_chunks tx1 _ _ _ _ _) as [tx2 [e|enc]]; cbn in *; naive_solver lia. }
  assert (tx_wf tx /\ next_sequence tx <= next_sequence tx /\ tx_cipher tx = tx_cipher tx /\
    (next_message_id tx = next_message_id tx \/ next_message_id tx = next_id (next_message_id tx))) as Hsame
    by (split; [done|]; split; [lia|]; split; [done|by left]).
  unfold encode_frame. destruct (is_nil frame || _); [exact Hsame|]. destruct (_ <=? 0); [exact Hsame|].
  destruct (MAX_FRAGMENTS <? _); [exact Hsame|].
  set (tx1 := if _ =? 0 then _ else _).
  assert (tx1 = mkTx (tx_cipher tx) (next_sequence tx) (next_id (next_message_id tx))) as Etx
    by (unfold tx1, next_id; cbn; destruct (_ =? 0); done). rewrite Etx.
  match goal with |- context [encode_chunks ?a ?b ?c ?d ?e ?f] => destruct (Hc f a b c d e) as (H1 & H2 & H3) end.
  cbn zeta. cbn in H1, H2, H3. unfold tx_wf. rewrite H2, H3. pose proof (next_id_range _ Hi).
  split_and!; try lia; try done; by right.
Qed.
Lemma tx_rekey_wf tx key session : tx_wf tx -> tx_wf (tx_rekey tx key session).
Proof. done. Qed.

(** What is sent from a state: numbered upwards, with message ids that go round. *)
Lemma transmit_ranges ops : forall tx, tx_wf tx ->
  forall s, s ∈ (transmit tx ops).2 -> sent_shape s /\ next_sequence tx <= sent_seq s /\
    exists k, (k < length ops)%nat /\ sent_id s = id_after (next_message_id tx) k.
Proof.
  induction ops as [|[frame ceiling|key session] ops IH]; intros tx Hwf s; cbn [transmit].
  { by intros ?%not_elem_of_nil. }
  2: { intros Hin. destruct (IH (tx_rekey tx key session) (tx_rekey_wf _ _ _ Hwf) s Hin) as (? & ? & k & ? & ?).
       split_and!; [done..|]. exists k. cbn [length]. split; [lia|done]. }
  pose proof (encode_frame_mono tx frame ceiling Hwf) as (Hwf1 & Hle & _ & Hid).
  destruct (encode_frame tx frame ceiling) as [tx1 r] eqn:E. cbn [fst] in Hwf1, Hle, Hid. specialize (IH tx1 Hwf1 s).
  destruct (transmit tx1 ops) as [tx2 sent]. cbn [snd] in *.
  assert (s ∈ sent -> sent_shape s /\ next_sequence tx <= sent_seq s /\
    exists k, (k < length (SendFrame frame ceiling :: ops))%nat /\ sent_id s = id_after (next_message_id tx) k) as Hrest.
  { intros Hin. destruct (IH Hin) as (? & ? & k & Hk & Ek). split_and!; [done|lia|]. cbn [length].
    destruct Hid as [Hid|Hid]; rewrite Hid in Ek; [exists k; split; [lia|done]|]. exists (S k). rewrite id_after_next in Ek by apply Hwf.
    split; [lia|done]. }
  destruct r as [e|ds]; [exact Hrest|]. rewrite elem_of_cons. intros [->|Hin]; [|by apply Hrest].
  apply encode_frame_spec in E as (Hl & Hr & Hc & Hu & _ & _). unfold fragments_of in Hc, Hu. rewrite number_length in Hc, Hu.
  destruct (chunks_spec (payload_room ceiling) frame Hr) as (Hcat & Hall & _). destruct Hwf as [Hs Hi]. split_and!.
  - split; cbn; try done. eapply Forall_impl; [exact Hall|]. cbn. lia.
  - cbn. lia.
  - exists 0%nat. cbn [length sent_id]. split; [lia|]. unfold id_after. rewrite Z.add_0_r, Z.mod_small by lia. lia.
Qed.

Lemma transmit_log tx ops : tx_wf tx -> zlen ops < M32 - 1 -> log_ok (transmit tx ops).2.
Proof.
  revert tx. induction ops as [|[frame ceiling|key session] ops IH]; intros tx Hwf Hlen; cbn [transmit].
  { split; [by apply Forall_nil|by intros s s' ?%not_elem_of_nil|by intros s s' i j ?%not_elem_of_nil|apply NoDup_nil_2]. }
  2: { apply IH; [done|]. rewrite zlen_cons in Hlen. lia. }
  pose proof (encode_frame_mono tx frame ceiling Hwf) as (Hwf1 & _).
  pose proof (transmit_ranges (SendFrame frame ceiling :: ops) tx Hwf) as Hall. cbn [transmit] in Hall.
  destruct (encode_frame tx frame ceiling) as [tx1 r] eqn:E. cbn [fst] in Hwf1. specialize (IH tx1 Hwf1).
  pose proof (transmit_ranges ops tx1 Hwf1) as Htail. destruct (transmit tx1 ops) as [tx2 sent]. cbn [snd] in *.
  rewrite zlen_cons in Hlen. specialize (IH ltac:(lia)). destruct r as [e|ds]; [done|].
  apply encode_frame_spec in E as (Hl & Hr & Hc & Hu & Etx & _). unfold fragments_of in Hc, Hu, Etx. rewrite number_length in Hc, Hu, Etx.
  set (s0 := mkSent _ _ _ _ _). destruct IH as [Iwf Iids Iseqs Ind].
  assert (forall s, s ∈ sent -> sent_id s <> sent_id s0) as Hid.
  { intros s Hin. destruct (Htail s Hin) as (_ & _ & k & Hk & ->). rewrite Etx. cbn [next_message_id]. rewrite id_after_next by apply Hwf.
    cbn. intros E0. assert (next_message_id tx = id_after (next_message_id tx) 0) as E1
      by (unfold id_after; rewrite Z.add_0_r, Z.mod_small by (destruct Hwf; lia); lia).
    rewrite E1 in E0 at 2. apply id_after_inj in E0; [done|unfold zlen in *; lia..]. }
  assert (forall s, s ∈ sent -> sent_seq s0 + zlen (sent_pieces s0) <= sent_seq s) as Hseq.
  { intros s Hin. destruct (Htail s Hin) as (_ & Hge & _). rewrite Etx in Hge. cbn in Hge |- *. lia. }
  split.
  - constructor; [|done]. by apply Hall; left.
  - intros s s' [->|Hin]%elem_of_cons [->|Hin']%elem_of_cons Eq; [done| | |by apply Iids].
    + by destruct (Hid s' Hin').
    + by destruct (Hid s Hin).
  - intros s s' i j [->|Hin]%elem_of_cons [->|Hin']%elem_of_cons Hi Hj Eq; [done| | |by eapply Iseqs].
    + specialize (Hseq s' Hin'). lia.
    + specialize (Hseq s Hin). lia.
  - constructor; [|done]. intros Hin. specialize (Hseq s0 Hin). cbn in Hseq. lia.
Qed.

End transmit.

(** ** What the receiver puts together *)

Lemma sent_fragment_inv s h p : (h, p) ∈ sent_fragments s ->
  exists i : nat, sent_pieces s !! i = Some p /\
    h = mkFragment (sent_id s) (Z.of_nat i) (zlen (sent_pieces s)) (zlen (sent_frame s)) (sent_seq s + Z.of_nat i).
Proof.
  intros [i Hi]%list_elem_of_lookup. unfold sent_fragments in Hi. rewrite number_lookup in Hi.
  destruct (sent_pieces s !! i) as [c|] eqn:E; [|done]. injection Hi as <- <-. exists i. rewrite E. split; [done|]. by rewrite Z.add_0_l.
Qed.

(** An assembly holds pieces of one frame, whose numbers were accepted. *)
Definition asm_ok (sent : list Sent) (A : list Z) (id : Z) (a : Assembly) : Prop :=
  exists s, s ∈ sent /\ sent_id s = id /\ as_total_len a = zlen (sent_frame s) /\ zlen (fragments a) = zlen (sent_pieces s) /\
    forall (i : nat) q, fragments a !! i = Some (Some q) -> sent_pieces s !! i = Some q /\ sent_seq s + Z.of_nat i ∈ A.

Definition all_accepted (A : list Z) (s : Sent) : Prop :=
  forall i, 0 <= i < zlen (sent_pieces s) -> sent_seq s + i ∈ A.

Record lane_inv (sent : list Sent) (rx : RealtimeDatagramRx) (A : list Z) (delivered : list Sent) : Prop := {
  li_ok : rx_ok rx;
  li_window : window_tracks (replay rx) A;
  li_asm : map_Forall (asm_ok sent A) (assemblies rx);
  li_done s : s ∈ delivered -> s ∈ sent /\ all_accepted A s;
  li_nodup : NoDup delivered
}.

Lemma asm_ok_mono sent A A' id a : A ⊆ A' -> asm_ok sent A id a -> asm_ok sent A' id a.
Proof.
  intros HA (s & Hs & Hid & Ht & Hl & Hf). exists s. split_and!; try done. intros i q E. destruct (Hf i q E). by eauto.
Qed.

(** The pieces of a complete assembly are the frame. *)
Lemma assembled sent A id a s : s ∈ sent -> log_ok sent -> sent_id s = id -> asm_ok sent A id a -> None ∉ fragments a ->
  concat (default [] <$> fragments a) = sent_frame s /\ all_accepted A s.
Proof.
  intros Hs Hlog Hid (s' & Hs' & Hid' & _ & Hl & Hf) Hfull.
  assert (s' = s) as -> by (apply (lo_ids _ Hlog); [done..|congruence]). 
  assert (forall i : nat, (i < length (fragments a))%nat -> exists q, fragments a !! i = Some (Some q)) as Hall.
  { intros i Hi. apply lookup_lt_is_Some in Hi as [[q|] E]; [by exists q|]. destruct Hfull. by eapply list_elem_of_lookup_2. }
  split.
  - rewrite <- (sw_frame s) by (eapply Forall_forall in Hs; [exact Hs|apply Hlog]). f_equal.
    apply list_eq. intros i. rewrite list_lookup_fmap. destruct (decide (i < length (fragments a))%nat) as [Hi|Hi].
    + destruct (Hall i Hi) as [q E]. rewrite E. cbn. symmetry. by apply Hf.
    + rewrite !lookup_ge_None_2 by (unfold zlen in *; lia). done.
  - intros i Hi. destruct (Hall (Z.to_nat i)) as [q E]; [unfold zlen in *; lia|]. apply Hf in E as [_ E].
    by rewrite Z2Nat.id in E by lia.
Qed.

(** The part of the invariant that a step from [A] to [A'] starts from. *)
Record mid_inv (sent : list Sent) (rx : RealtimeDatagramRx) (A A' : list Z) (delivered : list Sent) : Prop := {
  mi_window : window_tracks (replay rx) A';
  mi_asm : map_Forall (asm_ok sent A') (assemblies rx);
  mi_grow : A ⊆ A';
  mi_done s : s ∈ delivered -> s ∈ sent /\ all_accepted A s;
  mi_nodup : NoDup delivered
}.

Lemma mid_inv_end sent rx A A' D : rx_ok rx -> mid_inv sent rx A A' D -> lane_inv sent rx A' D.
Proof.
  intros Hok [Hw Ha Hg Hd Hn]. split; try done. intros s [Hs Hacc]%Hd. split; [done|]. intros i Hi. apply Hg. by apply Hacc.
Qed.

Lemma mid_inv_sub sent rx A A' D m : mid_inv sent rx A A' D -> m ⊆ assemblies rx -> mid_inv sent (keeping rx m) A A' D.
Proof. intros [Hw Ha Hg Hd Hn] Hsub. split; try done. intros id a E. eapply Ha, lookup_weaken; done. Qed.

Lemma mid_inv_insert sent rx A A' D m id a : mid_inv sent rx A A' D -> m ⊆ assemblies rx -> asm_ok sent A' id a ->
  mid_inv sent (keeping rx (<[id := a]> m)) A A' D.
Proof.
  intros Hm Hsub Ha. destruct (mid_inv_sub _ _ _ _ _ _ Hm Hsub) as [Hw Has Hg Hd Hn]. split; try done. by apply map_Forall_insert_2.
Qed.

Section receive.
Context (sent : list Sent) (Hlog : log_ok sent).

(** A piece that is stored keeps its assembly a part of its frame. *)
Lemma with_fragment_asm A h p a s : s ∈ sent -> (h, p) ∈ sent_fragments s -> asm_ok sent (sequence h :: A) (message_id h) a ->
  asm_ok sent (sequence h :: A) (message_id h) (with_fragment a h p).
Proof.
  intros Hs (i & Ep & ->)%sent_fragment_inv (s' & Hs' & Hid & Ht & Hl & Hf). cbn [message_id sequence] in *.
  assert (s' = s) as -> by (by apply (lo_ids _ Hlog)). exists s. split_and!; try done.
  - cbn. unfold zlen in *. by rewrite length_insert.
  - intros j q. cbn [with_fragment fragments set_field]. unfold slot. cbn [fragment_index]. rewrite Nat2Z.id.
    intros [(-> & [= ->] & _)|(Hne & E)]%list_lookup_insert_Some; [split; [done|by left]|by apply Hf].
Qed.

Lemma stores_inv rx A D h p a s rx' r : mid_inv sent rx A (sequence h :: A) D -> (sequence h ∉ A) ->
  s ∈ sent -> (h, p) ∈ sent_fragments s -> assemblies rx !! message_id h = Some a -> stores rx h p a rx' r -> rx_ok rx' ->
  (forall f, r = inr (Some f) -> f = sent_frame s) /\
  lane_inv sent rx' (sequence h :: A) (match r with inr (Some _) => s :: D | _ => D end).
Proof.
  intros Hm Hnew Hs Hin Ea Hst Hok'.
  assert (forall m, sheds rx (Some (message_id h)) (zlen p) false m ->
    mid_inv sent (keeping rx (delete (message_id h) m)) A (sequence h :: A) D) as Hdel.
  { intros m Hsp. apply (mid_inv_sub _ _ _ _ _ _ Hm). etrans; [apply delete_subseteq|apply Hsp]. }
  pose proof (with_fragment_asm A h p a s Hs Hin (mi_asm _ _ _ _ _ Hm _ _ Ea)) as Hw.
  destruct Hst as [q Eq|m Ei Hsp Hlt|m Ei Hsp Hle Hno|m Ei Hsp Hno Hlt|m Ei Hsp Hno Heq].
  - split; [done|]. by apply (mid_inv_end _ _ A).
  - split; [done|]. apply (mid_inv_end _ _ A); [done|]. by apply Hdel.
  - split; [done|]. apply (mid_inv_end _ _ A); [done|]. apply mid_inv_insert; [done|apply Hsp|done].
  - split; [done|]. apply (mid_inv_end _ _ A); [done|]. by apply Hdel.
  - apply sent_fragment_inv in Hin as (i & Ep & Eh). subst h. cbn [message_id sequence] in *.
    destruct (assembled sent _ _ _ s Hs Hlog eq_refl Hw Hno) as [Ef Hacc].
    split; [intros f [= <-]; exact Ef|]. destruct (mid_inv_end _ _ A _ D Hok' (Hdel m Hsp)) as [? ? ? Hd Hn]. split; try done.
    + intros x [->|Hx]%elem_of_cons; [done|by apply Hd].
    + constructor; [|done]. intros HD. apply Hnew. apply (mi_done _ _ _ _ _ Hm s HD). apply lookup_lt_Some in Ep. unfold zlen. lia.
Qed.

Lemma admits_inv rx A D h p s now rx' b : mid_inv sent rx A (sequence h :: A) D -> s ∈ sent -> (h, p) ∈ sent_fragments s ->
  admits rx h p now rx' b -> mid_inv sent rx' A (sequence h :: A) D.
Proof.
  intros Hm Hs Hin Had. destruct Had as [a Ea Ma|a Ea Ma|m Ea Hsp].
  - done.
  - apply mid_inv_sub; [done|apply delete_subseteq].
  - apply mid_inv_insert; [done|apply Hsp|]. apply sent_fragment_inv in Hin as (i & Ep & ->). exists s. cbn.
    split_and!; try done; [rewrite zlen_repeat; pose proof (zlen_nonneg (sent_pieces s)); lia|].
    intros j q E. apply list_elem_of_lookup_2, list_elem_of_In, repeat_spec in E. done.
Qed.

End receive.

(** ** Runs of the lane *)

Inductive LaneEvent :=
| Arrive (datagram : list byte) (now : Z)
| RekeyRx (raw_rx_key session_id : Key) (now : Z).

Section lane.
Context (hash_order : list (Z * Assembly) -> list (Z * Assembly)).
Context (hash_order_perm : forall l, hash_order l ≡ₚ l).
Context `{Aead} `{Blake3Kdf}.

(** The frames that come out. *)
Fixpoint lane_run (rx : RealtimeDatagramRx) (es : list LaneEvent) : option (RealtimeDatagramRx * list (list byte)) :=
  match es with
  | [] => Some (rx, [])
  | RekeyRx key session now :: es => lane_run (rx_rekey rx key session now) es
  | Arrive d now :: es =>
      '(rx, r) ← decode_datagram hash_order rx d now;
      '(rx, outs) ← lane_run rx es;
      Some (rx, match r with inr (Some frame) => frame :: outs | _ => outs end)
  end.

Lemma rx_rekey_ok rx key session now : rx_ok rx -> rx_ok (rx_rekey rx key session now).
Proof. intros []. by split. Qed.

Lemma rx_with_limits_ok raw session n b : rx_ok (rx_with_limits raw session n b).
Proof.
  assert (forall x lo hi, lo <= hi -> lo <= clamp x lo hi <= hi) as Hc by (intros; unfold clamp; repeat case_bool; to_prop; lia).
  pose proof (Hc n 1 MAX_ASSEMBLIES ltac:(done)). pose proof (Hc b MAX_REALTIME_FRAME MAX_ASSEMBLY_BYTES ltac:(done)).
  assert (0 <= MAX_REALTIME_FRAME) by done.
  split; cbn [rx_with_limits assembly_bytes assemblies max_assemblies max_assembly_bytes]; try done.
  - by rewrite map_size_empty; lia.
  - lia.
Qed.

(** A frame that comes out is one that fits. *)
Lemma decodes_frame rx d now rx' f : decodes rx d now rx' (inr (Some f)) -> 0 < zlen f <= MAX_REALTIME_FRAME.
Proof.
  inversion 1 as [|h p key prev ? ? Eh _ _ _ _ Ht]; subst. inversion Ht as [| |rx1 a ? ? Hp _ Hok Ha _ Hst]; subst.
  inversion Hst as [| | | |m Ei _ _ Heq]; subst. pose proof (ro_each _ Hok _ _ Ha) as Hao.
  pose proof (with_fragment_ok a h p Hao Ei ltac:(lia)) as [Hs Ht' _].
  change (0 < held (fragments (with_fragment a h p)) <= MAX_REALTIME_FRAME).
  rewrite <- Hs. cbn in *. pose proof (held_nonneg (fragments a)). destruct Hao. lia.
Qed.

Lemma lane_run_ok rx es : rx_ok rx ->
  exists rx' outs, lane_run rx es = Some (rx', outs) /\ rx_ok rx' /\ Forall (fun f => 0 < zlen f <= MAX_REALTIME_FRAME) outs.
Proof.
  revert rx. induction es as [|[d now|key session now] es IH]; intros rx Hok; cbn [lane_run].
  - exists rx, []. split_and!; [done|done|constructor].
  - destruct (decode_datagram_spec hash_order hash_order_perm rx d now Hok) as (rx1 & r & -> & Hd & Hok1). cbn [mbind option_bind].
    destruct (IH rx1 Hok1) as (rx2 & outs & -> & Hok2 & Hf). cbn [mbind option_bind]. eexists _, _. split_and!; [done|done|].
    destruct r as [e|[f|]]; try done. constructor; [by eapply decodes_frame|done].
  - by apply IH, rx_rekey_ok.
Qed.

(** Whatever arrives, in whatever order, with whatever rekeys between, no datagram makes the receiver
    panic or loop; it never keeps more than its limits allow, and every frame it gives out is within the
    limit of a frame. *)
Theorem lane_robust (raw session : Key) (n b : Z) (es : list LaneEvent) :
  exists rx outs, lane_run (rx_with_limits raw session n b) es = Some (rx, outs) /\
    Z.of_nat (size (assemblies rx)) <= MAX_ASSEMBLIES /\ stored_sum (assemblies rx) <= MAX_ASSEMBLY_BYTES /\
    Forall (fun f => 0 < zlen f <= MAX_REALTIME_FRAME) outs.
Proof.
  destruct (lane_run_ok (rx_with_limits raw session n b) es) as (rx & outs & E & [Hb Hs Ht Hl _ _] & Hf); [apply rx_with_limits_ok|].
  exists rx, outs. split_and!; [done|lia|lia|done].
Qed.

(** Whatever opens was sealed by the sender: no datagram of the run is a forgery. *)
Definition authentic (keys : list Key) (sent : list Sent) (d : list byte) : Prop :=
  forall key h p, key ∈ keys -> fragment_decode d = inr h ->
    aead_open key (nonce_for (sequence h)) (ztake FRAGMENT_HEADER_LEN d) (zdrop FRAGMENT_HEADER_LEN d) = Some p ->
    exists s, s ∈ sent /\ (h, p) ∈ sent_fragments s.

Definition held_keys (rx : RealtimeDatagramRx) : list Key :=
  rx_cipher rx :: match previous rx with Some (k, _) => [k] | None => [] end.

Fixpoint lane_keys (es : list LaneEvent) : list Key :=
  match es with
  | [] => []
  | RekeyRx key session _ :: es => derive_key key session :: lane_keys es
  | Arrive _ _ :: es => lane_keys es
  end.

Lemma opens_with_held rx key now : opens_with rx key now -> key ∈ held_keys rx.
Proof. unfold held_keys. intros [->|(until & -> & _)]; [by left|right; by left]. Qed.

Lemma takes_keys rx h p now rx' r : takes rx h p now rx' r -> rx_cipher rx' = rx_cipher rx /\ previous rx' = previous rx.
Proof.
  intros Ht. destruct Ht as [|rx' Had|rx1 a rx2 r _ Had _ _ _ Hst]; [done|by destruct Had|].
  assert (rx_cipher rx1 = rx_cipher rx /\ previous rx1 = previous rx) as [<- <-] by (by destruct Had). by destruct Hst.
Qed.

Lemma lane_decode_inv sent keys rx A D d now : log_ok sent -> lane_inv sent rx A D -> held_keys rx ⊆ keys -> authentic keys sent d ->
  exists rx' r A' D', decode_datagram hash_order rx d now = Some (rx', r) /\ lane_inv sent rx' A' D' /\ held_keys rx' ⊆ keys /\
    match r with inr (Some f) => exists s, f = sent_frame s /\ D' = s :: D | _ => D' = D end.
Proof.
  intros Hlog Hinv Hkeys Hauth. destruct (decode_datagram_spec hash_order hash_order_perm rx d now (li_ok _ _ _ _ Hinv)) as (rx' & r & -> & Hd & Hok').
  destruct Hd as [e prev Hprev|h p key prev rx' r Eh Epre Hkey Hprev Eo Ht].
  { eexists _, _, A, D. split_and!; [done| | |done].
    - destruct Hinv as [_ Hw Ha Hdn Hn]. split; try done. intros id a. cbn. intros [E _]%map_lookup_filter_Some. by apply Ha.
    - intros k Hk. apply Hkeys. unfold held_keys in *. cbn in *. destruct Hprev as [->| ->]; [done|].
      apply list_elem_of_singleton in Hk as ->. by left. }
  destruct (fragment_decode_ok d h Eh) as [Hh _].
  destruct (Hauth key h p) as (s & Hs & Hin); [apply Hkeys; exact (opens_with_held _ _ _ Hkey)|done|done|].
  cbn in Epre. pose proof (li_window _ _ _ _ Hinv) as Hw. pose proof (proj1 (precheck_tracks _ _ _ Hw (proj1 (ho_seq h Hh))) Epre) as [Hnew _].
  set (rx0 := keeping rx _) in Ht. assert (mid_inv sent (accepted rx0 prev (sequence h)) A (sequence h :: A) D) as Hm.
  { destruct Hinv as [_ _ Ha Hdn Hn]. split; try done; [by apply commit_tracks; [|apply Hh|]| |by right].
    intros id a. cbn. intros [E _]%map_lookup_filter_Some. eapply asm_ok_mono; [by right|by apply Ha]. }
  assert (held_keys rx' ⊆ keys) as Hkeys'.
  { destruct (takes_keys _ _ _ _ _ _ Ht) as [E1 E2]. intros k Hk. apply Hkeys. unfold held_keys in *. rewrite E1, E2 in Hk. cbn in Hk.
    destruct Hprev as [->| ->]; [done|]. apply list_elem_of_singleton in Hk as ->. by left. }
  destruct Ht as [Hbad|rx' Had|rx1 a rx2 r Hp Had Hok1 Ea Hma Hst].
  - eexists _, _, _, D. split_and!; [done|by apply (mid_inv_end _ _ A)|done|done].
  - eexists _, _, _, D. split_and!; [done|apply (mid_inv_end _ _ A); [done|by eapply admits_inv]|done|done].
  - pose proof (admits_inv sent _ _ _ _ _ _ _ _ _ Hm Hs Hin Had) as Hm1.
    destruct (stores_inv sent Hlog _ _ _ _ _ _ s _ _ Hm1 Hnew Hs Hin Ea Hst Hok') as [Hf Hinv'].
    eexists _, r, _, _. split_and!; [done|exact Hinv'|done|]. destruct r as [e|[f|]]; [done| |done]. exists s. split; [by apply Hf|done].
Qed.

Lemma lane_run_inv sent keys es : log_ok sent -> forall rx A D, lane_inv sent rx A D -> held_keys rx ⊆ keys -> lane_keys es ⊆ keys ->
  (forall d now, Arrive d now ∈ es -> authentic keys sent d) ->
  exists rx' outs A', lane_run rx es = Some (rx', sent_frame <$> outs) /\ lane_inv sent rx' A' (reverse outs ++ D).
Proof.
  intros Hlog. induction es as [|[d now|key session now] es IH]; intros rx A D Hinv Hk Hks Hauth; cbn [lane_run].
  - exists rx, [], A. done.
  - destruct (lane_decode_inv sent keys rx A D d now Hlog Hinv Hk) as (rx1 & r & A1 & D1 & -> & Hinv1 & Hk1 & Hr); [apply (Hauth d now); by left|].
    cbn [mbind option_bind]. destruct (IH rx1 A1 D1 Hinv1 Hk1) as (rx2 & outs & A2 & -> & Hinv2);
      [done|intros d' now' Hin; apply (Hauth d' now'); by right|]. cbn [mbind option_bind].
    destruct r as [e|[f|]]; try (subst D1; by exists rx2, outs, A2).
    destruct Hr as (s & -> & ->). exists rx2, (s :: outs), A2. split; [done|]. by rewrite reverse_cons, <- app_assoc.
  - apply (IH (rx_rekey rx key session now) A D).
    + destruct Hinv as [Hok Hw Ha Hd Hn]. split; try done. by apply rx_rekey_ok.
    + cbn in Hks |- *. intros k [->|[->|[]%not_elem_of_nil]%elem_of_cons]%elem_of_cons; [apply Hks; by left|apply Hk; by left].
    + intros k Hin. apply Hks. cbn. by right.
    + intros d' now' Hin. apply (Hauth d' now'). by right.
Qed.

(** What comes out was sent.  The sender encodes any frames, with any rekeys between; the network loses,
    repeats, reorders and delays the datagrams and adds others that do not authenticate.  Every frame the
    receiver gives out is one that was sent, unchanged, and no frame comes out twice. *)
Theorem lane_integrity (raw session raw' session' : Key) (n b : Z) (ops : list LaneOp) (es : list LaneEvent)
    (Hops : zlen ops < M32 - 1)
    (Hauth : forall d now, Arrive d now ∈ es ->
       authentic (derive_key raw' session' :: lane_keys es) (transmit (tx_new raw session) ops).2 d) :
  exists rx delivered, lane_run (rx_with_limits raw' session' n b) es = Some (rx, sent_frame <$> delivered) /\
    NoDup delivered /\ delivered ⊆ (transmit (tx_new raw session) ops).2.
Proof.
  pose proof (transmit_log (tx_new raw session) ops ltac:(by split; [|split]) Hops) as Hlog.
  destruct (lane_run_inv _ (derive_key raw' session' :: lane_keys es) es Hlog (rx_with_limits raw' session' n b) [] [])
    as (rx & outs & A & E & [_ _ _ Hd Hn]); [|intros k ->%list_elem_of_singleton; by left|by right|done|].
  - split; [apply rx_with_limits_ok|apply window_tracks_new|done|by intros s ?%not_elem_of_nil|constructor].
  - rewrite app_nil_r in Hd, Hn. exists rx, outs. split_and!; [done|by rewrite reverse_Permutation in Hn|]. intros s Hs. apply Hd. by rewrite reverse_Permutation.
Qed.

End lane.
