(* ===== verification/DatagramBurst.v ===== *)
(** * A burst of frames comes through

    Frames that fit the limits of the receiver of [Datagram] and arrive within the lifetime of an
    assembly, in any order and any number of times, all come out. *)

From S2P Require Import Prelude Crypto CircuitData FrameCodec CircuitReplay Datagram DatagramInv DatagramLane.
#[local] Open Scope Z_scope.
#[local] Open Scope list_scope.

(** ** A datagram of the sender opens *)

Lemma zlen_fragment_encode h : zlen (fragment_encode h) = FRAGMENT_HEADER_LEN.
Proof. unfold fragment_encode. rewrite !zlen_app, !zlen_be_bytes. done. Qed.

Lemma fragment_decode_encode h ct : header_ok h -> TAG_LEN < zlen ct -> fragment_decode (fragment_encode h ++ ct) = inr h.
Proof.
  intros Hh Hct. unfold fragment_decode. rewrite zlen_app, zlen_fragment_encode.
  destruct (Z.ltb_spec (FRAGMENT_HEADER_LEN + zlen ct) MIN_DATAGRAM_LEN) as [Hlt|_]; [unfold MIN_DATAGRAM_LEN in Hlt; lia|].
  destruct h as [id index count total seq]. set (d := fragment_encode _ ++ ct).
  change (ztake 4 d) with MAGIC. change (range 4 8 d) with (be_bytes 4 id). change (range 8 10 d) with (be_bytes 2 index).
  change (range 10 12 d) with (be_bytes 2 count). change (range 12 16 d) with (be_bytes 4 total).
  change (range 16 24 d) with (be_bytes 8 seq). rewrite bool_decide_eq_true_2 by done.
  destruct Hh as [Hi Hx Hc Ht Hs]. cbn [message_id fragment_index fragment_count total_len sequence negb orb] in *.
  assert (MAX_FRAGMENTS < 256 ^ 2 /\ MAX_REALTIME_FRAME < 256 ^ 4) by done.
  rewrite !from_be_bytes_id by (cbn [Z.of_nat Pos.of_succ_nat Pos.succ]; lia).
  destruct (Z.eqb_spec id 0), (Z.eqb_spec seq 0), (Z.eqb_spec total 0), (Z.ltb_spec MAX_REALTIME_FRAME total), (Z.eqb_spec count 0),
    (Z.ltb_spec MAX_FRAGMENTS count), (Z.leb_spec count index); try lia. done.
Qed.

Lemma sent_header_ok s h p : sent_shape s -> (h, p) ∈ sent_fragments s -> header_ok h /\ 0 < zlen p <= total_len h.
Proof.
  intros [Hf Hl Hc Hp Hi Hs] (i & E & ->)%sent_fragment_inv. pose proof (lookup_lt_Some _ _ _ E) as Hlt.
  rewrite Forall_forall in Hp. assert (0 < zlen p) as Hpos by (apply Hp; by eapply list_elem_of_lookup_2).
  split; [split; cbn; unfold zlen in *; unfold U64_MAX in *; lia|]. split; [done|]. cbn. rewrite <- Hf.
  apply list_elem_of_split_length in E as (l1 & l2 & -> & _). rewrite concat_app. cbn. rewrite !zlen_app.
  pose proof (zlen_nonneg (concat l1)). pose proof (zlen_nonneg (concat l2)). lia.
Qed.

(** ** Frames that fit *)

Definition frames_bytes (sent : list Sent) : Z := foldr (fun s n => zlen (sent_frame s) + n) 0 sent.

(** Assemblies of distinct frames hold no more than the frames. *)
Lemma stored_sum_frames sent m : (forall s s', s ∈ sent -> s' ∈ sent -> sent_id s = sent_id s' -> s = s') ->
  map_Forall (fun id a => exists s, s ∈ sent /\ sent_id s = id /\ stored_bytes a <= zlen (sent_frame s)) m ->
  stored_sum m <= frames_bytes sent /\ Z.of_nat (size m) <= zlen sent.
Proof.
  revert m. induction sent as [|s sent IH]; intros m Hids Hm.
  { assert (m = ∅) as -> by (apply map_empty; intros i; destruct (m !! i) eqn:E; [|done];
      destruct (Hm _ _ E) as (s & Hs & _); by apply not_elem_of_nil in Hs). done. }
  assert (map_Forall (fun id a => exists s, s ∈ sent /\ sent_id s = id /\ stored_bytes a <= zlen (sent_frame s)) (delete (sent_id s) m)) as Hd.
  { intros id a [Hne E]%lookup_delete_Some. destruct (Hm _ _ E) as (s' & [->|Hs']%elem_of_cons & Hid & Hle); [done|by exists s']. }
  destruct (IH (delete (sent_id s) m)) as [I1 I2]; [intros x y Hx Hy; apply Hids; by right|done|]. cbn [frames_bytes foldr]. fold (frames_bytes sent). rewrite zlen_cons. pose proof (zlen_nonneg (sent_frame s)).
  destruct (m !! sent_id s) as [a|] eqn:E.
  - destruct (Hm _ _ E) as (s' & Hs' & Hid & Hle). assert (s' = s) as -> by (apply Hids; [done|by left|done]).
    rewrite (stored_sum_delete m _ a E). rewrite map_size_delete_Some in I2 by done. lia.
  - rewrite delete_id in I1, I2 by done. lia.
Qed.

Lemma frames_bytes_concat sent : frames_bytes sent = zlen (concat (sent_frame <$> sent)).
Proof. induction sent as [|s sent IH]; [done|]. cbn. fold (frames_bytes sent). by rewrite zlen_app, IH. Qed.

(** Pieces of a frame are no longer than the frame. *)
Lemma held_le fs pieces : length fs = length pieces -> (forall (i : nat) q, fs !! i = Some (Some q) -> pieces !! i = Some q) ->
  held fs <= zlen (concat pieces).
Proof.
  unfold held. revert pieces. induction fs as [|f fs IH]; intros [|c pieces] Hl Hf; try done.
  specialize (IH pieces ltac:(cbn in Hl; lia) (fun i => Hf (S i))).
  change (zlen (default [] f ++ concat (default [] <$> fs)) <= zlen (c ++ concat pieces)). rewrite !zlen_app.
  destruct f as [q|]; cbn; [|pose proof (zlen_nonneg c); rewrite zlen_nil; lia].
  specialize (Hf 0%nat q eq_refl). injection Hf as ->. lia.
Qed.

Section burst.
Context (hash_order : list (Z * Assembly) -> list (Z * Assembly)).
Context (hash_order_perm : forall l, hash_order l ≡ₚ l).
Context `{Aead, !AeadLaws} `{Blake3Kdf}.

(** A sealed fragment is taken, or refused as a replay. *)
Lemma decode_sealed rx h p d now : rx_ok rx -> header_ok h -> 0 < zlen p <= total_len h -> sealed_as (rx_cipher rx) (h, p) d ->
  let rx0 := keeping rx (filter (fun e => fresh_at now e.2) (assemblies rx)) in
  exists rx' r, decode_datagram hash_order rx d now = Some (rx', r) /\ rx_ok rx' /\
    match precheck (replay rx) (sequence h) with
    | inr _ => takes (accepted rx0 (previous rx0) (sequence h)) h p now rx' r
    | inl e => rx' = rx0 /\ r = inl e
    end.
Proof.
  intros Hok Hh Hp (ct & Es & ->) rx0. cbn [fst snd] in *. assert (rx_ok rx0) as Hok0 by (apply keeping_ok; [done|apply map_filter_subseteq]).
  unfold decode_datagram. rewrite prune_keeping by done. fold rx0.
  assert (zlen ct = zlen p + 16) as Hct by exact (aead_tag _ _ _ _ _ Es).
  rewrite fragment_decode_encode by (done || (unfold TAG_LEN; lia)). change (replay rx0) with (replay rx).
  destruct (precheck (replay rx) (sequence h)) as [e|[]] eqn:Epre; [by exists rx0, (inl e)|].
  assert (rx_open rx0 h (fragment_encode h ++ ct) now = (rx0, inr p)) as ->.
  { unfold rx_open. rewrite ztake_app_len, zdrop_app_len by apply zlen_fragment_encode. change (rx_cipher rx0) with (rx_cipher rx).
    cbn [fst snd] in Es. by rewrite (aead_correct _ _ _ _ _ Es). }
  assert (rx0 <| replay := commit (replay rx0) (sequence h) |> = accepted rx0 (previous rx0) (sequence h)) as -> by (by destruct rx).
  pose proof (accepted_ok rx0 (previous rx0) (sequence h) Hok0) as Hok1.
  destruct (is_nil p || (total_len h <? zlen p)) eqn:Eb.
  { apply orb_true_iff in Eb as [Eb|Eb%Z.ltb_lt]; [|lia]. destruct p; [unfold zlen in Hp; cbn in Hp; lia|done]. }
  destruct (assembly_for_spec hash_order hash_order_perm _ h p now Hok1 Hh Hp) as (rx1 & [] & -> & Had & Hok2); cbn [mbind option_bind].
  - destruct (admits_present _ _ _ _ _ Hh Had) as (a & Ha & Hm).
    destruct (store_fragment_spec hash_order hash_order_perm rx1 h p a Hok2 Hh Hp Ha Hm) as (rx2 & r & -> & Hst & Hok3).
    exists rx2, r. split_and!; [done|done|]. by eapply takes_stored.
  - eexists _, _. split_and!; [done|done|]. by apply takes_conflict.
Qed.

(** ** The burst *)

Context (sent : list Sent) (key : Key) (places bytes from upto : Z).
Context (Hlog : log_ok sent) (Hplaces : zlen sent <= places) (Hbytes : frames_bytes sent <= bytes) (Hbytes_max : bytes <= MAX_ASSEMBLY_BYTES).
Context (Hspan : forall s s' i, s ∈ sent -> s' ∈ sent -> 0 <= i < zlen (sent_pieces s') -> sent_seq s' + i < sent_seq s + 128).
Context (Hupto : forall s, s ∈ sent -> sent_seq s + zlen (sent_pieces s) <= upto).

Definition in_time (now : Z) : Prop := from <= now < from + ASSEMBLY_TTL.

Record burst_inv (rx : RealtimeDatagramRx) (A : list Z) (D : list Sent) : Prop := {
  bi_lane : lane_inv sent rx A D;
  bi_key : rx_cipher rx = key;
  bi_limits : max_assemblies rx = places /\ max_assembly_bytes rx = bytes;
  bi_top s : s ∈ sent -> top A < sent_seq s + 128;
  bi_upto : top A < upto;
  bi_done s : s ∈ sent -> all_accepted A s -> s ∈ D;
  bi_clear s : s ∈ D -> assemblies rx !! sent_id s = None;
  bi_held s (i : nat) q : s ∈ sent -> (s ∉ D) -> sent_pieces s !! i = Some q -> sent_seq s + Z.of_nat i ∈ A ->
    exists a, assemblies rx !! sent_id s = Some a /\ fragments a !! i = Some (Some q);
  bi_time : map_Forall (fun _ a => in_time (created_at a)) (assemblies rx)
}.

(** The assembly of a frame, and what it holds. *)
Lemma asm_of A s a : s ∈ sent -> asm_ok sent A (sent_id s) a ->
  as_total_len a = zlen (sent_frame s) /\ zlen (fragments a) = zlen (sent_pieces s) /\
  forall (i : nat) q, fragments a !! i = Some (Some q) -> sent_pieces s !! i = Some q /\ sent_seq s + Z.of_nat i ∈ A.
Proof. intros Hs (s' & Hs' & Hid & Hr). assert (s' = s) as -> by (by apply (lo_ids _ Hlog)). done. Qed.

Lemma held_frame A s a : s ∈ sent -> asm_ok sent A (sent_id s) a -> held (fragments a) <= zlen (sent_frame s).
Proof.
  intros Hs Ha. destruct (asm_of A s a Hs Ha) as (_ & Hl & Hf). rewrite <- (sw_frame s).
  - apply held_le; [unfold zlen in Hl; lia|]. intros i q E. by apply Hf.
  - eapply Forall_forall in Hs; [exact Hs|apply Hlog].
Qed.

(** There is room for what the burst stores. *)
Lemma uncrowded (rx : RealtimeDatagramRx) A s incoming : s ∈ sent -> map_Forall (asm_ok sent A) (assemblies rx) -> rx_ok rx ->
  from_option stored_bytes 0 (assemblies rx !! sent_id s) + incoming <= zlen (sent_frame s) ->
  max_assemblies rx = places /\ max_assembly_bytes rx = bytes ->
  crowded rx incoming false = false /\ (assemblies rx !! sent_id s = None -> crowded rx incoming true = false).
Proof.
  intros Hs Hasm Hok Hfit [<- <-]. set (old := from_option stored_bytes 0 (assemblies rx !! sent_id s)) in *.
  set (m := <[sent_id s := mkAssembly 0 0 [] (old + incoming)]> (assemblies rx)).
  destruct (stored_sum_frames sent m (lo_ids _ Hlog)) as [S1 S2].
  { apply map_Forall_insert_2; [by exists s|]. intros id b Eb. destruct (Hasm _ _ Eb) as (s' & Hs' & Hid & Hr). exists s'. split_and!; [done..|].
    rewrite (ao_stored b (ro_each _ Hok _ _ Eb)). apply (held_frame A); [done|]. exists s'. split_and!; try done; apply Hr. }
  assert (stored_sum m = assembly_bytes rx + incoming) as Esum.
  { unfold m. rewrite (ro_bytes _ Hok). destruct (assemblies rx !! sent_id s) as [a|] eqn:E; cbn in old.
    - rewrite (stored_sum_replace _ _ a) by done. cbn. lia.
    - rewrite stored_sum_insert by done. cbn. lia. }
  assert ((max_assembly_bytes rx <? sat_add64 (assembly_bytes rx) incoming) = false) as Hb.
  { apply Z.ltb_ge. unfold sat_add64. lia. }
  split; [exact Hb|]. intros En. unfold crowded. rewrite Hb, orb_false_r. cbn [andb]. apply Z.leb_gt.
  unfold m in S2. rewrite map_size_insert_None in S2 by done. lia.
Qed.

(** The receiver after a piece [i] of the frame [s] was taken: the frame is still open, or it is out. *)
Definition piece_taken (rx' : RealtimeDatagramRx) (A : list Z) (D D' : list Sent) (s : Sent) : Prop :=
  (D' = D /\ exists a, assemblies rx' !! sent_id s = Some a /\ None ∈ fragments a /\
     forall (j : nat) q, sent_pieces s !! j = Some q -> sent_seq s + Z.of_nat j ∈ A -> fragments a !! j = Some (Some q)) \/
  (D' = s :: D /\ assemblies rx' !! sent_id s = None).

Lemma other_seq s s' (i : nat) p j : s ∈ sent -> s' ∈ sent -> s' <> s -> sent_pieces s !! i = Some p ->
  0 <= j < zlen (sent_pieces s') -> sent_seq s' + j <> sent_seq s + Z.of_nat i.
Proof.
  intros Hs Hs' Hne E Hj Eq. apply Hne. apply lookup_lt_Some in E.
  eapply (lo_seqs _ Hlog _ _ j (Z.of_nat i)); try done. unfold zlen. lia.
Qed.

Lemma burst_step_end rx A D rx' D' s (i : nat) p : burst_inv rx A D -> s ∈ sent -> sent_pieces s !! i = Some p ->
  sent_seq s + Z.of_nat i ∉ A -> lane_inv sent rx' (sent_seq s + Z.of_nat i :: A) D' ->
  rx_cipher rx' = key -> max_assemblies rx' = places /\ max_assembly_bytes rx' = bytes ->
  (forall s', s' ∈ sent -> s' <> s -> assemblies rx' !! sent_id s' = assemblies rx !! sent_id s') ->
  map_Forall (fun _ a => in_time (created_at a)) (assemblies rx') ->
  piece_taken rx' (sent_seq s + Z.of_nat i :: A) D D' s -> burst_inv rx' (sent_seq s + Z.of_nat i :: A) D'.
Proof.
  intros Hb Hs Ep Hnew Hl Hk Hlim Hoth Htime Hcase. pose proof (lookup_lt_Some _ _ _ Ep) as Hi.
  assert (forall s', s' ∈ sent -> s' <> s -> s' ∈ D' <-> s' ∈ D) as HD.
  { intros s' _ Hne. destruct Hcase as [[-> _]|[-> _]]; [done|]. rewrite elem_of_cons. naive_solver. }
  assert (s ∉ D) as HsD.
  { intros HsD. destruct (li_done _ _ _ _ (bi_lane _ _ _ Hb) s HsD) as [_ Hall]. apply Hnew, Hall. unfold zlen. lia. }
  split; try done.
  - intros s' Hs'. rewrite top_cons. apply Z.max_lub_lt; [apply (Hspan s' s (Z.of_nat i)); try done; unfold zlen; lia|by apply (bi_top _ _ _ Hb)].
  - rewrite top_cons. pose proof (Hupto s Hs). pose proof (bi_upto _ _ _ Hb). unfold zlen in *. lia.
  - intros s' Hs' Hall. destruct (decide (s' = s)) as [->|Hne].
    + destruct Hcase as [[-> (a & Ea & Hno & Hj)]|[-> _]]; [|by left]. exfalso.
      apply list_elem_of_lookup in Hno as [j Ej]. pose proof (lookup_lt_Some _ _ _ Ej) as Hjl.
      destruct (asm_of _ s a Hs (li_asm _ _ _ _ Hl _ _ Ea)) as (_ & Hlen & _).
      destruct (lookup_lt_is_Some_2 (sent_pieces s) j) as [q Eq]; [unfold zlen in Hlen; lia|].
      specialize (Hj j q Eq). rewrite Hj in Ej; [done|]. apply Hall. apply lookup_lt_Some in Eq. unfold zlen. lia.
    + apply HD; [done..|]. apply (bi_done _ _ _ Hb); [done|]. intros j Hjr. specialize (Hall j Hjr).
      apply elem_of_cons in Hall as [Eq|]; [|done]. by destruct (other_seq s s' i p j Hs Hs' Hne Ep Hjr).
  - intros s' Hs'. destruct (decide (s' = s)) as [->|Hne]; [destruct Hcase as [[-> _]|[_ ?]]; done|].
    destruct (li_done _ _ _ _ Hl s' Hs') as [Hin _]. rewrite Hoth by done. apply (bi_clear _ _ _ Hb). by apply HD.
  - intros s' j q Hs' HnD Eq Hacc. destruct (decide (s' = s)) as [->|Hne].
    + destruct Hcase as [[-> (a & Ea & _ & Hj)]|[-> _]]; [exists a; split; [done|by apply Hj]|]. destruct HnD. by left.
    + rewrite Hoth by done. apply (bi_held _ _ _ Hb); [done|by rewrite <- HD|done|]. apply elem_of_cons in Hacc as [Ea|]; [|done].
      apply lookup_lt_Some in Eq. destruct (other_seq s s' i p (Z.of_nat j) Hs Hs' Hne Ep); [unfold zlen; lia|done].
Qed.

Lemma burst_not_done rx A D s (i : nat) p : burst_inv rx A D -> sent_pieces s !! i = Some p -> sent_seq s + Z.of_nat i ∉ A -> s ∉ D.
Proof.
  intros Hb Ep Hnew HsD. apply lookup_lt_Some in Ep. destruct (li_done _ _ _ _ (bi_lane _ _ _ Hb) s HsD) as [_ Hall].
  apply Hnew, Hall. unfold zlen. lia.
Qed.

(** The receiver once the assembly of a frame is there. *)
Record admitted_for (rx rx1 : RealtimeDatagramRx) (A : list Z) (s : Sent) (a : Assembly) : Prop := {
  af_here : assemblies rx1 !! sent_id s = Some a;
  af_other s' : s' ∈ sent -> s' <> s -> assemblies rx1 !! sent_id s' = assemblies rx !! sent_id s';
  af_time : map_Forall (fun _ a => in_time (created_at a)) (assemblies rx1);
  af_key : rx_cipher rx1 = key;
  af_limits : max_assemblies rx1 = places /\ max_assembly_bytes rx1 = bytes;
  af_asm : asm_ok sent A (sent_id s) a;
  af_held (j : nat) q : sent_pieces s !! j = Some q -> sent_seq s + Z.of_nat j ∈ A -> fragments a !! j = Some (Some q)
}.

Lemma burst_admit rx A D s h p now rx1 : burst_inv rx A D -> s ∈ sent -> (h, p) ∈ sent_fragments s -> (sequence h ∉ A) -> in_time now ->
  admits (accepted rx (previous rx) (sequence h)) h p now rx1 true -> exists a, admitted_for rx rx1 A s a.
Proof.
  intros Hb Hs Hin Hnew Hnow Had. pose proof (sent_header_ok s h p) as Hhp.
  destruct Hhp as [Hh Hp]; [eapply Forall_forall in Hs; [exact Hs|apply Hlog]|done|].
  pose proof (sent_fragment_inv s h p Hin) as (i & Ep & Eh). subst h. cbn [message_id sequence total_len] in *.
  pose proof (burst_not_done _ _ _ _ _ _ Hb Ep Hnew) as HsD.
  inversion Had as [a Ea Ma| |m Ea Hsp]; subst; cbn [message_id] in *; cbn in Ea.
  - exists a. split; try done; [apply (bi_time _ _ _ Hb)|apply (bi_key _ _ _ Hb)|apply (bi_limits _ _ _ Hb)|apply (li_asm _ _ _ _ (bi_lane _ _ _ Hb) _ _ Ea)|].
    intros j q Eq Hj. destruct (bi_held _ _ _ Hb s j q Hs HsD Eq Hj) as (a' & Ea' & Hf). congruence.
  - set (h := mkFragment _ _ _ _ _) in *. set (rxa := accepted rx (previous rx) _) in *.
    assert (m = assemblies rxa) as ->.
    { apply (sp_idle _ _ _ _ _ Hsp). apply (uncrowded rxa A s); [done|apply (li_asm _ _ _ _ (bi_lane _ _ _ Hb))| | |apply (bi_limits _ _ _ Hb)|done].
      - apply accepted_ok, (li_ok _ _ _ _ (bi_lane _ _ _ Hb)).
      - cbn. rewrite Ea. cbn. lia. }
    exists (new_assembly h now). split; cbn [keeping assemblies set_field].
    + apply lookup_insert_eq.
    + intros s' Hs' Hne. apply lookup_insert_ne. intros Eid. apply Hne. symmetry. by apply (lo_ids _ Hlog).
    + apply map_Forall_insert_2; [done|apply (bi_time _ _ _ Hb)].
    + apply (bi_key _ _ _ Hb).
    + apply (bi_limits _ _ _ Hb).
    + exists s. cbn. rewrite zlen_repeat, Z2Nat.id by apply zlen_nonneg. split_and!; try done.
      intros j q E. apply list_elem_of_lookup_2, list_elem_of_In, repeat_spec in E. done.
    + intros j q Eq Hj. destruct (bi_held _ _ _ Hb s j q Hs HsD Eq Hj) as (a' & Ea' & _). cbn in Ea. congruence.
Qed.

Lemma burst_store rx rx1 A D s h p a rx' r : burst_inv rx A D -> s ∈ sent -> (h, p) ∈ sent_fragments s -> (sequence h ∉ A) ->
  rx_ok rx1 -> mid_inv sent rx1 A (sequence h :: A) D -> admitted_for rx rx1 A s a -> stores rx1 h p a rx' r -> rx_ok rx' ->
  exists D', burst_inv rx' (sequence h :: A) D' /\
    match r with inr (Some f) => f = sent_frame s /\ D' = s :: D | _ => D' = D end.
Proof.
  intros Hb Hs Hin Hnew Hok1 Hmid Hadm Hst Hok'. pose proof (sent_fragment_inv s h p Hin) as (i & Ep & Eh).
  assert (message_id h = sent_id s /\ slot h = i /\ sequence h = sent_seq s + Z.of_nat i) as (Eid & Esl & Esq)
    by (subst h; unfold slot; cbn; by rewrite Nat2Z.id).
  assert (assemblies rx1 !! message_id h = Some a) as Ea by (rewrite Eid; apply Hadm).
  destruct (stores_inv sent Hlog _ _ _ _ _ _ s _ _ Hmid Hnew Hs Hin Ea Hst Hok') as [Hf Hlane].
  pose proof (mi_asm _ _ _ _ _ Hmid _ _ Ea) as Hasm. pose proof (with_fragment_asm sent Hlog A h p a s Hs Hin Hasm) as Hasm'.
  rewrite Eid in Hasm'. pose proof (ro_each _ Hok1 _ _ Ea) as Hao.
  exists (match r with inr (Some _) => s :: D | _ => D end).
  assert (forall m, sheds rx1 (Some (message_id h)) (zlen p) false m -> fragments a !! slot h = Some None -> m = assemblies rx1) as Hm.
  { intros m Hsp Eno. apply (sp_idle _ _ _ _ _ Hsp). apply (uncrowded rx1 (sequence h :: A) s); [done|apply Hmid|done| |apply Hadm].
    rewrite <- Eid, Ea. cbn. rewrite (ao_stored a Hao), <- (held_store _ _ p Eno).
    exact (held_frame (sequence h :: A) s (with_fragment a h p) Hs Hasm'). }
  destruct (asm_of _ s _ Hs Hasm') as (Etot & _ & _). pose proof (held_frame _ s _ Hs Hasm') as Hheld. cbn in Etot, Hheld.
  assert (forall m, sheds rx1 (Some (message_id h)) (zlen p) false m -> fragments a !! slot h = Some None ->
    (forall s', s' ∈ sent -> s' <> s -> delete (message_id h) m !! sent_id s' = assemblies rx !! sent_id s') /\
    map_Forall (fun _ a => in_time (created_at a)) (delete (message_id h) m)) as Hoth.
  { intros m Hsp Eno. rewrite (Hm m Hsp Eno), Eid. split; [|apply map_Forall_delete, Hadm].
    intros s' Hs' Hne. rewrite lookup_delete_ne; [by apply Hadm|]. intros E. apply Hne. symmetry. by apply (lo_ids _ Hlog). }
  rewrite Esq in *. inversion Hst as [q Eq|m Ei Hsp Hlt|m Ei Hsp Hle Hno|m Ei Hsp Hno Hlt|m Ei Hsp Hno Heq]; subst rx' r.
  - exfalso. rewrite Esl in Eq. apply Hnew. by eapply (asm_of A s a Hs (af_asm _ _ _ _ _ Hadm)).
  - exfalso. rewrite (held_store _ _ p Ei), <- (ao_stored a Hao) in Hheld. lia.
  - split; [|done]. destruct (Hoth m Hsp Ei) as [Ho Ht]. apply (burst_step_end rx A D _ _ s i p); try done; [apply Hadm|apply Hadm| | |].
    + intros s' Hs' Hne. cbn. rewrite <- (Ho s' Hs' Hne), Eid. assert (sent_id s <> sent_id s') by (intros E; apply Hne; symmetry; by apply (lo_ids _ Hlog)).
      by rewrite lookup_insert_ne, lookup_delete_ne by done.
    + cbn. rewrite <- insert_delete_eq. apply map_Forall_insert_2; [|done]. exact (af_time _ _ _ _ _ Hadm _ _ Ea).
    + left. split; [done|]. exists (with_fragment a h p). cbn. rewrite Eid, lookup_insert_eq. split_and!; [done|done|].
      intros j q Eq Hj. rewrite Esl. destruct (decide (j = i)) as [->|Hne].
      * rewrite list_lookup_insert_eq by (rewrite <- Esl; by eapply lookup_lt_Some). congruence.
      * rewrite list_lookup_insert_ne by done. apply (af_held _ _ _ _ _ Hadm); [done|]. apply elem_of_cons in Hj as [?|?]; [lia|done].
  - exfalso. destruct (assembled sent _ _ _ s Hs Hlog eq_refl Hasm' Hno) as [Ef _]. apply (f_equal zlen) in Ef.
    change (held (fragments (with_fragment a h p)) = zlen (sent_frame s)) in Ef. cbn in Ef.
    rewrite (held_store _ _ p Ei), <- (ao_stored a Hao) in Ef. lia.
  - split; [|split; [by apply Hf|done]]. destruct (Hoth m Hsp Ei) as [Ho Ht].
    apply (burst_step_end rx A D _ _ s i p); try done; [apply Hadm|apply Hadm|]. right. split; [done|]. cbn. rewrite Eid. apply lookup_delete_eq.
Qed.

(** A datagram of the burst: its piece is taken, or was before. *)
Lemma burst_step rx A D s h p d now : burst_inv rx A D -> s ∈ sent -> (h, p) ∈ sent_fragments s -> sealed_as key (h, p) d -> in_time now ->
  exists rx' r A' D', decode_datagram hash_order rx d now = Some (rx', r) /\ burst_inv rx' A' D' /\ A ⊆ A' /\ sequence h ∈ A' /\
    match r with inr (Some f) => f = sent_frame s /\ D' = s :: D | _ => D' = D end.
Proof.
  intros Hb Hs Hin Hseal Hnow. pose proof (li_ok _ _ _ _ (bi_lane _ _ _ Hb)) as Hok. pose proof (li_window _ _ _ _ (bi_lane _ _ _ Hb)) as Hw.
  destruct (sent_header_ok s h p) as [Hh Hp]; [eapply Forall_forall in Hs; [exact Hs|apply Hlog]|done|].
  rewrite <- (bi_key _ _ _ Hb) in Hseal. destruct (decode_sealed rx h p d now Hok Hh Hp Hseal) as (rx' & r & E & Hok' & Hcase).
  assert (keeping rx (filter (fun e => fresh_at now e.2) (assemblies rx)) = rx) as Ek.
  { rewrite map_filter_id; [apply keeping_self, Hok|]. intros id a Ea. pose proof (bi_time _ _ _ Hb _ _ Ea) as Ht.
    unfold fresh_at, in_time, sat_sub in *. cbn. lia. }
  rewrite Ek in Hcase. pose proof (precheck_tracks _ _ _ Hw (proj1 (ho_seq h Hh))) as Hpre.
  pose proof (sent_fragment_inv s h p Hin) as (i & Ep & Eh).
  assert (top A < sequence h + 128) as Htop by (subst h; cbn; pose proof (bi_top _ _ _ Hb s Hs); lia).
  destruct (precheck (replay rx) (sequence h)) as [e|[]] eqn:Epre.
  - destruct Hcase as [-> ->]. exists rx, (inl e), A, D. split_and!; [done|done|done| |done].
    apply dec_stable. intros Hn. discriminate (proj2 Hpre (conj Hn Htop)).
  - destruct (proj1 Hpre eq_refl) as [Hnew _].
    assert (mid_inv sent (accepted rx (previous rx) (sequence h)) A (sequence h :: A) D) as Hmid.
    { destruct (bi_lane _ _ _ Hb) as [_ _ Ha Hdn Hn]. split; try done; [|intros id a Ea; eapply asm_ok_mono; [by right|by apply Ha]|by right].
      by apply commit_tracks; [|apply Hh|]. }
    inversion Hcase as [Hbad|? Had|rx1 a ? ? _ Had Hok1 Ea Hma Hst]; subst.
    + exfalso. destruct Hp as [Hp1 Hp2], Hbad as [Hbad|Hbad]; [by rewrite Hbad in Hp1|]. by apply Z.lt_nge in Hbad.
    + exfalso. inversion Had as [|a Ea Hno|]; subst. apply Hno. destruct (asm_of A s a Hs) as (Et & El & _);
        [exact (li_asm _ _ _ _ (bi_lane _ _ _ Hb) _ _ Ea)|]. done.
    + pose proof (admits_inv sent _ _ _ _ _ _ _ _ _ Hmid Hs Hin Had) as Hmid1.
      destruct (burst_admit _ _ _ _ _ _ _ _ Hb Hs Hin Hnew Hnow Had) as [a' Hadm].
      assert (a' = a) as -> by (pose proof (af_here _ _ _ _ _ Hadm) as Ea'; cbn in Ea; congruence).
      destruct (burst_store _ _ _ _ _ _ _ _ _ _ Hb Hs Hin Hnew Hok1 Hmid1 Hadm Hst Hok') as (D' & Hb' & Hr).
      eexists _, _, _, D'. split_and!; [exact E|exact Hb'|by right|by left|exact Hr].
Qed.

(** ** The whole burst *)

Lemma burst_run rx A D es : burst_inv rx A D ->
  Forall (fun e => exists s h p d now, e = Arrive d now /\ s ∈ sent /\ (h, p) ∈ sent_fragments s /\ sealed_as key (h, p) d /\ in_time now) es ->
  exists rx' outs A', lane_run hash_order rx es = Some (rx', sent_frame <$> outs) /\ burst_inv rx' A' (reverse outs ++ D) /\ A ⊆ A' /\
    forall d now, Arrive d now ∈ es -> exists s h p, s ∈ sent /\ (h, p) ∈ sent_fragments s /\ sealed_as key (h, p) d /\ sequence h ∈ A'.
Proof.
  intros Hb Hall. revert rx A D Hb. induction Hall as [|e es (s & h & p & d & now & -> & Hs & Hin & Hseal & Hnow) _ IH]; intros rx A D Hb; cbn [lane_run].
  { exists rx, [], A. split_and!; try done. by intros d now ?%not_elem_of_nil. }
  destruct (burst_step rx A D s h p d now Hb Hs Hin Hseal Hnow) as (rx1 & r & A1 & D1 & -> & Hb1 & HA1 & Hacc & Hr). cbn [mbind option_bind].
  destruct (IH rx1 A1 D1 Hb1) as (rx2 & outs & A2 & -> & Hb2 & HA2 & Hdone). cbn [mbind option_bind].
  exists rx2, (match r with inr (Some _) => s :: outs | _ => outs end), A2. split_and!.
  - destruct r as [e|[f|]]; try done. destruct Hr as [-> _]. done.
  - destruct r as [e|[f|]]; try (by subst D1). destruct Hr as [_ ->]. by rewrite reverse_cons, <- app_assoc.
  - by etrans.
  - intros d' now' [[= -> ->]|Hin']%elem_of_cons; [|by apply Hdone in Hin']. exists s, h, p. split_and!; try done. by apply HA2.
Qed.

End burst.

(** ** Frames that are sent *)

Section frames.
Context `{Aead, !AeadTotal} `{Blake3Kdf}.

Definition pieces_of (f : list byte * Z) : Z := zlen (chunks (payload_room f.2) f.1).

(** A frame and a ceiling of datagrams that it can be sent within. *)
Definition encodable (f : list byte * Z) : Prop :=
  0 < zlen f.1 <= MAX_REALTIME_FRAME /\ 0 < payload_room f.2 /\ pieces_of f <= MAX_FRAGMENTS.

Definition spent (frames : list (list byte * Z)) : Z := foldr (fun f n => pieces_of f + n) 0 frames.

Lemma spent_nonneg frames : 0 <= spent frames.
Proof.
  induction frames as [|f frames IH]; [done|]. cbn [spent foldr]. fold (spent frames).
  assert (0 <= pieces_of f) by apply zlen_nonneg. lia.
Qed.

Definition send_frames (frames : list (list byte * Z)) : list LaneOp := (fun f => SendFrame f.1 f.2) <$> frames.

Lemma encode_chunks_total tx id count total index pieces : Forall (fun c => zlen c <= 2 ^ 32) pieces ->
  next_sequence tx + zlen pieces <= U64_MAX -> exists tx' ds, encode_chunks tx id count total index pieces = (tx', inr ds).
Proof.
  revert tx index. induction pieces as [|c pieces IH]; intros tx index Hall Hu; cbn [encode_chunks]; [by eexists _, _|].
  apply Forall_cons in Hall as [Hc Hall]. rewrite zlen_cons in Hu. pose proof (zlen_nonneg pieces).
  destruct (Z.ltb_spec U64_MAX (next_sequence tx + 1)); [lia|]. set (tx1 := tx <| next_sequence := _ |>).
  destruct (aead_total (tx_cipher tx1) (nonce_for (next_sequence tx))
    (fragment_encode (mkFragment id (wrap16 index) (wrap16 count) (wrap32 total) (next_sequence tx))) c Hc) as [ct ->].
  destruct (IH tx1 (index + 1) Hall) as (tx' & ds & ->); [cbn; lia|]. by eexists _, _.
Qed.

Lemma encode_frame_total tx f : encodable f -> next_sequence tx + pieces_of f <= U64_MAX ->
  exists ds, encode_frame tx f.1 f.2 = (mkTx (tx_cipher tx) (next_sequence tx + pieces_of f) (next_id (next_message_id tx)), inr ds) /\
    Forall2 (sealed_as (tx_cipher tx)) (fragments_of tx f.1 f.2) ds.
Proof.
  intros (Hl & Hr & Hc) Hu. destruct (encode_frame tx f.1 f.2) as [tx' [e|ds]] eqn:E.
  - exfalso. unfold encode_frame in E. fold (payload_room f.2) in E. destruct (chunks_spec (payload_room f.2) f.1 Hr) as (_ & Hall & Hlen).
    destruct (is_nil f.1 || _) eqn:E1.
    { apply orb_true_iff in E1 as [E1|E1%Z.ltb_lt]; [|lia]. destruct f.1; [cbn in Hl; unfold zlen in Hl; cbn in Hl; lia|done]. }
    destruct (Z.leb_spec (payload_room f.2) 0); [lia|]. rewrite <- Hlen in E. fold (pieces_of f) in E.
    destruct (Z.ltb_spec MAX_FRAGMENTS (pieces_of f)); [lia|]. revert E. set (tx1 := if _ =? 0 then _ else _). intros E.
    assert (next_sequence tx1 = next_sequence tx) as Es by (unfold tx1; destruct (_ =? 0); done).
    destruct (encode_chunks_total tx1 (next_message_id tx) (pieces_of f) (zlen f.1) 0 (chunks (payload_room f.2) f.1)) as (tx2 & ds & E2).
    + apply Forall_forall. intros c Hin. apply list_elem_of_split in Hin as (l1 & l2 & El).
      assert (zlen c <= zlen f.1) as Hle.
      { rewrite <- (proj1 (chunks_spec (payload_room f.2) f.1 Hr)), El, concat_app. cbn [concat]. rewrite !zlen_app.
        pose proof (zlen_nonneg (concat l1)). pose proof (zlen_nonneg (concat l2)). lia. }
      assert (MAX_REALTIME_FRAME <= 2 ^ 32) by done. lia.
    + rewrite Es. exact Hu.
    + rewrite E2 in E. done.
  - exists ds. apply encode_frame_spec in E as (_ & _ & _ & _ & -> & Hs). unfold fragments_of at 1. rewrite number_length. done.
Qed.

(** Everything that can be encoded is sent, numbered without gaps. *)
Lemma transmit_frames frames tx : Forall encodable frames -> next_sequence tx + spent frames <= U64_MAX ->
  let '(tx', sent) := transmit tx (send_frames frames) in
  sent_frame <$> sent = frames.*1 /\ tx_cipher tx' = tx_cipher tx /\ next_sequence tx' = next_sequence tx + spent frames /\
  Forall (fun s => sent_seq s + zlen (sent_pieces s) <= next_sequence tx' /\
    Forall2 (sealed_as (tx_cipher tx)) (sent_fragments s) (sent_datagrams s)) sent.
Proof.
  intros Hall. revert tx. induction Hall as [|f frames Hf _ IH]; intros tx Hu; cbn [send_frames fmap list_fmap transmit].
  { cbn. split_and!; [done|done|lia|constructor]. }
  pose proof (spent_nonneg frames) as Hpos.
  cbn [spent foldr] in Hu. fold (spent frames) in Hu. pose proof (zlen_nonneg (chunks (payload_room f.2) f.1)) as Hp0. fold (pieces_of f) in Hp0.
  destruct (encode_frame_total tx f Hf) as (ds & -> & Hs); [lia|]. set (tx1 := mkTx _ _ _). specialize (IH tx1 ltac:(cbn; lia)).
  fold (send_frames frames). destruct (transmit tx1 (send_frames frames)) as [tx' sent]. destruct IH as (E1 & E2 & E3 & E4).
  change (spent (f :: frames)) with (pieces_of f + spent frames). cbn in E2, E3.
  split_and!; [cbn; by rewrite E1|done|lia|]. constructor; [|done]. cbn. split; [unfold pieces_of in *; lia|exact Hs].
Qed.

End frames.

(** ** A burst comes through *)

Section delivery.
Context (hash_order : list (Z * Assembly) -> list (Z * Assembly)).
Context (hash_order_perm : forall l, hash_order l ≡ₚ l).
Context `{Aead, !AeadLaws, !AeadTotal} `{Blake3Kdf}.

(** A receiver that keeps nothing and has seen nothing of what the sender sends next. *)
Record waits_for (rx : RealtimeDatagramRx) (tx : RealtimeDatagramTx) : Prop := {
  wf_ok : rx_ok rx;
  wf_key : rx_cipher rx = tx_cipher tx;
  wf_idle : assemblies rx = ∅;
  wf_window : exists A, window_tracks (replay rx) A /\ top A < next_sequence tx
}.

Definition datagrams (sent : list Sent) : list (list byte) := concat (sent_datagrams <$> sent).

Lemma datagram_sealed key sent d : Forall (fun s => Forall2 (sealed_as key) (sent_fragments s) (sent_datagrams s)) sent ->
  d ∈ datagrams sent -> exists s h p, s ∈ sent /\ (h, p) ∈ sent_fragments s /\ sealed_as key (h, p) d.
Proof.
  intros Hall (ds & Hds & Hd)%list_elem_of_In%in_concat. apply list_elem_of_In, list_elem_of_fmap in Hds as (s & -> & Hs).
  eapply Forall_forall in Hall; [|exact Hs]. apply list_elem_of_In, list_elem_of_lookup in Hd as [i Ei].
  destruct (Forall2_lookup_r _ _ _ _ _ Hall Ei) as ([h p] & Ef & Hseal). exists s, h, p. split_and!; [done|by eapply list_elem_of_lookup_2|done].
Qed.

Lemma sealed_datagram key sent s h p : Forall (fun s => Forall2 (sealed_as key) (sent_fragments s) (sent_datagrams s)) sent ->
  s ∈ sent -> (h, p) ∈ sent_fragments s -> exists d, d ∈ datagrams sent /\ sealed_as key (h, p) d.
Proof.
  intros Hall Hs [i Ei]%list_elem_of_lookup. eapply Forall_forall in Hall; [|exact Hs].
  destruct (Forall2_lookup_l _ _ _ _ _ Hall Ei) as (d & Ed & Hseal). exists d. split; [|done].
  apply list_elem_of_In, in_concat. exists (sent_datagrams s). split; apply list_elem_of_In; [by apply list_elem_of_fmap_2|by eapply list_elem_of_lookup_2].
Qed.

Lemma sealed_header key h p h' p' d : header_ok h -> header_ok h' -> 0 < zlen p -> 0 < zlen p' ->
  sealed_as key (h, p) d -> sealed_as key (h', p') d -> h = h'.
Proof.
  intros Hh Hh' Hp Hp' (ct & Es & ->) (ct' & Es' & Ed). cbn [fst snd] in *. apply aead_tag in Es, Es'.
  assert (inr h = (inr h' : RealtimeDatagramError + FragmentHeader)) as E; [|congruence].
  rewrite <- (fragment_decode_encode h ct) by (done || (unfold TAG_LEN; lia)). rewrite Ed.
  apply fragment_decode_encode; [done|unfold TAG_LEN; lia].
Qed.

(** A datagram of the sender opens, under its key, to what was sealed. *)
Lemma sent_authentic key sent d : log_ok sent ->
  Forall (fun s => Forall2 (sealed_as key) (sent_fragments s) (sent_datagrams s)) sent -> d ∈ datagrams sent -> authentic [key] sent d.
Proof.
  intros Hlog Hseal Hd k h p ->%list_elem_of_singleton Eh Eo. destruct (datagram_sealed key sent d Hseal Hd) as (s & h' & p' & Hs & Hin & ct & Es & ->).
  destruct (sent_header_ok s h' p') as [Hh Hp]; [eapply Forall_forall in Hs; [exact Hs|apply Hlog]|done|]. cbn [fst snd] in *.
  pose proof (aead_tag _ _ _ _ _ Es) as Hct. rewrite fragment_decode_encode in Eh by (done || (unfold TAG_LEN; lia)). injection Eh as <-.
  rewrite ztake_app_len, zdrop_app_len in Eo by apply zlen_fragment_encode. rewrite (aead_correct _ _ _ _ _ Es) in Eo. injection Eo as <-. by exists s.
Qed.

(** When every datagram arrived and every arrival was accepted, every piece was. *)
Lemma arrived_accepted key sent (es : list LaneEvent) A s : log_ok sent ->
  Forall (fun s => Forall2 (sealed_as key) (sent_fragments s) (sent_datagrams s)) sent ->
  (forall d, d ∈ datagrams sent -> exists now, Arrive d now ∈ es) ->
  (forall d now, Arrive d now ∈ es -> exists s h p, s ∈ sent /\ (h, p) ∈ sent_fragments s /\ sealed_as key (h, p) d /\ sequence h ∈ A) ->
  s ∈ sent -> all_accepted A s.
Proof.
  intros Hlog Hseal Hall Hgot Hs i Hi. destruct (lookup_lt_is_Some_2 (sent_pieces s) (Z.to_nat i)) as [p Ep]; [unfold zlen in Hi; lia|].
  assert (forall s h p, s ∈ sent -> (h, p) ∈ sent_fragments s -> header_ok h /\ 0 < zlen p) as Hwf.
  { intros s' h' p' Hs' Hin'. destruct (sent_header_ok s' h' p') as [? []]; [eapply Forall_forall in Hs'; [exact Hs'|apply Hlog]|done|done]. }
  set (h := mkFragment (sent_id s) i (zlen (sent_pieces s)) (zlen (sent_frame s)) (sent_seq s + i)).
  assert ((h, p) ∈ sent_fragments s) as Hin.
  { apply list_elem_of_lookup. exists (Z.to_nat i). unfold sent_fragments. rewrite number_lookup, Ep. cbn. by rewrite Z2Nat.id by lia. }
  destruct (sealed_datagram key sent s h p Hseal Hs Hin) as (d & Hd & Hsd). destruct (Hall d Hd) as [now Harr].
  destruct (Hgot d now Harr) as (s' & h' & p' & Hs' & Hin' & Hsd' & Hacc). destruct (Hwf s h p Hs Hin), (Hwf s' h' p' Hs' Hin').
  by rewrite <- (sealed_header key h p h' p' d) in Hacc.
Qed.

(** C11. A burst comes through.  The sender encodes frames that fit the receiver: at most as many as it puts
    together at once, no more bytes than it keeps, and no more fragments than its replay window spans.
    Their datagrams arrive in any order and any number of times, within the lifetime of an assembly.
    Then every frame comes out, exactly once and unchanged, and the receiver is ready for the next burst. *)
Theorem burst_delivered (tx : RealtimeDatagramTx) (rx : RealtimeDatagramRx) (frames : list (list byte * Z)) (es : list LaneEvent) (from : Z)
    (Htx : tx_wf tx) (Hrx : waits_for rx tx) (Hframes : Forall encodable frames)
    (Hspent : spent frames <= 128 /\ next_sequence tx + spent frames <= U64_MAX)
    (Hplaces : zlen frames <= max_assemblies rx) (Hbytes : zlen (concat frames.*1) <= max_assembly_bytes rx)
    (Hin : Forall (fun e => exists d now, e = Arrive d now /\ d ∈ datagrams (transmit tx (send_frames frames)).2 /\
       from <= now < from + ASSEMBLY_TTL) es)
    (Hall : forall d, d ∈ datagrams (transmit tx (send_frames frames)).2 -> exists now, Arrive d now ∈ es) :
  exists rx' outs, lane_run hash_order rx es = Some (rx', outs) /\ outs ≡ₚ frames.*1 /\
    waits_for rx' (transmit tx (send_frames frames)).1.
Proof.
  pose proof (transmit_frames frames tx Hframes (proj2 Hspent)) as Ht.
  assert (zlen (send_frames frames) = zlen frames) as Elen by (unfold send_frames, zlen; by rewrite length_fmap).
  pose proof (ro_limits rx (wf_ok _ _ Hrx)) as [L1 L2].
  assert (zlen (send_frames frames) < M32 - 1) as Hops by (unfold MAX_ASSEMBLIES in L1; lia).
  pose proof (transmit_log tx (send_frames frames) Htx Hops) as Hlog. pose proof (transmit_ranges (send_frames frames) tx Htx) as Hrange.
  destruct (transmit tx (send_frames frames)) as [tx' sent]. destruct Ht as (Ef & Ek & En & Hs). cbn [fst snd] in *.
  apply Forall_and in Hs as [Hup Hseal]. rewrite Forall_forall in Hup.
  destruct (wf_window _ _ Hrx) as (A0 & HA0 & Htop).
  assert (forall s j, s ∈ sent -> 0 <= j -> sent_seq s + j ∉ A0) as Hfresh.
  { intros s j Hs Hj Hin0%top_ge. destruct (Hrange s Hs) as (_ & Hge & _). lia. }
  pose proof (spent_nonneg frames) as Hpos.
  assert (burst_inv sent (tx_cipher tx) (max_assemblies rx) (max_assembly_bytes rx) from (next_sequence tx') rx A0 []) as Hb.
  { split.
    - split; [apply Hrx|done| |by intros s ?%not_elem_of_nil|constructor]. rewrite (wf_idle _ _ Hrx). apply map_Forall_empty.
    - apply Hrx.
    - done.
    - intros s Hs. destruct (Hrange s Hs) as (_ & Hge & _). lia.
    - lia.
    - intros s Hs Hacc. destruct (Hrange s Hs) as ([] & _). destruct (Hfresh s 0 Hs); [lia|]. apply Hacc. lia.
    - by intros s ?%not_elem_of_nil.
    - intros s i q Hs _ _ Hacc. by destruct (Hfresh s (Z.of_nat i) Hs); [lia|].
    - rewrite (wf_idle _ _ Hrx). apply map_Forall_empty. }
  assert (zlen sent = zlen frames) as Elen' by (apply (f_equal length) in Ef; rewrite !length_fmap in Ef; unfold zlen; lia).
  assert (Forall (fun e => exists s h p d now, e = Arrive d now /\ s ∈ sent /\ (h, p) ∈ sent_fragments s /\
    sealed_as (tx_cipher tx) (h, p) d /\ in_time from now) es) as Hes.
  { eapply Forall_impl; [exact Hin|]. intros e (d & now & -> & Hd & Hnow). destruct (datagram_sealed _ _ _ Hseal Hd) as (s & h & p & ? & ? & ?).
    by exists s, h, p, d, now. }
  assert (forall s s' i, s ∈ sent -> s' ∈ sent -> 0 <= i < zlen (sent_pieces s') -> sent_seq s' + i < sent_seq s + 128) as Hspan.
  { intros s s' i Hs Hs' Hi. specialize (Hup s' Hs'). cbn in Hup. destruct (Hrange s Hs) as (_ & Hge & _). lia. }
  destruct (burst_run hash_order hash_order_perm sent (tx_cipher tx) (max_assemblies rx) (max_assembly_bytes rx) from (next_sequence tx')
    Hlog ltac:(lia) ltac:(by rewrite frames_bytes_concat, Ef) (proj2 L2) Hspan Hup rx A0 [] es Hb Hes) as (rx' & outs & A' & E & Hb' & _ & Hgot).
  rewrite app_nil_r in Hb'.
  assert (forall s, s ∈ sent -> s ∈ reverse outs) as Hsub.
  { intros s Hs. apply (bi_done _ _ _ _ _ _ _ _ _ Hb' s Hs). by apply (arrived_accepted (tx_cipher tx) sent es A' s). }
  pose proof (bi_lane _ _ _ _ _ _ _ _ _ Hb') as [Hok' Hw' Hasm' Hd' Hn'].
  exists rx', (sent_frame <$> outs). split_and!; [exact E| |].
  - rewrite <- Ef. apply fmap_Permutation. rewrite <- (reverse_Permutation outs). apply NoDup_Permutation; [done|apply Hlog|].
    intros s. split; [intros Hs; by apply Hd'|apply Hsub].
  - split; [done|rewrite Ek; apply Hb'| |exists A'; split; [done|apply Hb']]. apply map_empty. intros id.
    destruct (assemblies rx' !! id) as [a|] eqn:Ea; [|done]. destruct (Hasm' _ _ Ea) as (s & Hs & <- & _).
    by rewrite (bi_clear _ _ _ _ _ _ _ _ _ Hb' s (Hsub s Hs)) in Ea.
Qed.

End delivery.

(** ** Two frames, of three fragments and of one *)

Module Demo.
Import Toy.
#[local] Existing Instances aead_toy aead_toy_laws aead_toy_total blake3_kdf_toy blake3_kdf_toy_laws.

Definition raw : Key := repeat x01 32.
Definition session : Key := repeat x02 32.
Definition frames : list (list byte * Z) := [([x68; x65; x6c; x6c; x6f], 42); ([x21], 1200)].
Definition sent : list Sent := (transmit (tx_new raw session) (send_frames frames)).2.
(** Backwards, then once more in order. *)
Definition arrivals : list LaneEvent := (fun d => Arrive d 7) <$> reverse (datagrams sent) ++ datagrams sent.

Lemma raw_waits : waits_for (rx_new raw session) (tx_new raw session).
Proof. split; [apply rx_with_limits_ok|done|done|]. exists []. split; [apply window_tracks_new|done]. Qed.

Lemma arrivals_in d now : Arrive d now ∈ arrivals -> d ∈ datagrams sent.
Proof.
  intros (d' & [= -> ->] & Hd)%list_elem_of_fmap. apply elem_of_app in Hd as [Hd|Hd]; [by rewrite reverse_Permutation in Hd|done].
Qed.

Lemma lane_robust_witness : exists rx outs, lane_run (fun l => l) (rx_with_limits raw session 4 32768) arrivals = Some (rx, outs) /\
  Z.of_nat (size (assemblies rx)) <= MAX_ASSEMBLIES /\ stored_sum (assemblies rx) <= MAX_ASSEMBLY_BYTES /\
  Forall (fun f => 0 < zlen f <= MAX_REALTIME_FRAME) outs.
Proof. exact (lane_robust (fun l => l) (fun l => reflexivity l) raw session 4 32768 arrivals). Defined.

Lemma burst_delivered_witness : exists rx' outs, lane_run (fun l => l) (rx_new raw session) arrivals = Some (rx', outs) /\
  outs ≡ₚ [[x68; x65; x6c; x6c; x6f]; [x21]] /\ waits_for rx' (transmit (tx_new raw session) (send_frames frames)).1.
Proof.
  refine (burst_delivered (fun l => l) (fun l => reflexivity l) (tx_new raw session) (rx_new raw session) frames arrivals 0 _ raw_waits _ _ _ _ _ _).
  - by split; [|split].
  - repeat constructor; vm_compute; done.
  - vm_compute. done.
  - vm_compute. done.
  - vm_compute. done.
  - apply Forall_forall. intros [d now|k s now] Hin; [|by apply list_elem_of_fmap in Hin as (? & ? & _)].
    exists d, now. split_and!; [done|by eapply arrivals_in| |]; apply list_elem_of_fmap in Hin as (d' & [= -> ->] & _); done.
  - intros d Hd. exists 7. apply list_elem_of_fmap. exists d. split; [done|]. apply elem_of_app. by right.
Defined.

Lemma lane_integrity_witness : exists rx delivered, lane_run (fun l => l) (rx_with_limits raw session 4 32768) arrivals = Some (rx, sent_frame <$> delivered) /\
  NoDup delivered /\ delivered ⊆ sent.
Proof.
  refine (lane_integrity (fun l => l) (fun l => reflexivity l) raw session raw session 4 32768 (send_frames frames) arrivals _ _).
  - vm_compute. done.
  - intros d now Hd%arrivals_in. pose proof (transmit_frames frames (tx_new raw session)) as Ht. fold sent.
    change (authentic (tx_cipher (tx_new raw session) :: []) sent d). unfold sent in *.
    pose proof (transmit_log (tx_new raw session) (send_frames frames) ltac:(by split; [|split]) ltac:(vm_compute; done)) as Hlog.
    destruct (transmit _ _) as [tx' st]. apply sent_authentic; [exact Hlog| |exact Hd].
    destruct Ht as (_ & _ & _ & Hall); [repeat constructor; vm_compute; done|vm_compute; done|]. eapply Forall_impl; [exact Hall|]. by intros s [].
Defined.

End Demo.
