(* ===== verification/DatagramFlows.v ===== *)
(** * Datagram flows

    crates/veil-session/src/datagram_flows.rs: several lanes of [Datagram] side by side, each under an
    identifier and a key of its own.  The sender binds local handles to at most sixteen flows and binds
    the least recently used one anew, with its counters, when a handle needs one; the receiver opens a
    flow only for a datagram that authenticates. *)

From S2P Require Import Prelude Crypto CircuitData FrameCodec CircuitReplay Datagram DatagramInv DatagramLane DatagramBurst.
From stdpp Require Import strings.
#[local] Open Scope Z_scope.
#[local] Open Scope list_scope.

Definition FLOW_MAGIC : list byte := ascii "VDF1".
Definition PREFIX_LEN : Z := 20.
Definition MAX_FLOWS : Z := 16.
Definition LOCAL_LANES : list Z := [0; 2].
Definition FLOW_KDF_CONTEXT : list byte := ascii "veil/session/opaque-datagram-flow/v1".
Definition MIN_FLOW_DATAGRAM_SIZE : Z := PREFIX_LEN + 41.

Abbreviation FlowId := (list byte) (only parsing).
Definition ZERO_ID : FlowId := repeat x00 16.

Definition flow_fragment_count (frame_len ceiling : Z) : RealtimeDatagramError + Z :=
  if (frame_len =? 0) || (MAX_REALTIME_FRAME <? frame_len) then inl (FrameSize frame_len)
  else if ceiling - (PREFIX_LEN + FRAGMENT_OVERHEAD) <=? 0 then inl (DatagramTooSmall ceiling)
  else
    let count := div_ceil frame_len (ceiling - (PREFIX_LEN + FRAGMENT_OVERHEAD)) in
    if MAX_FRAGMENTS <? count then inl (TooManyFragments count) else inr count.

Definition flow_key `{Blake3Kdf} (raw session : Key) (id : FlowId) : Key :=
  blake3_derive_key FLOW_KDF_CONTEXT (raw ++ session ++ id).

(** ** The sender *)

Record TxFlow := mkTxFlow { flow_id : FlowId; codec : RealtimeDatagramTx }.

#[export] Instance eta_TxFlow : Settable TxFlow := fun f => mkTxFlow (flow_id f) (codec f).

Record FlowDatagramTx := mkFlowTx {
  ft_key : Key;
  ft_session : Key;
  tx_flows : gmap Z TxFlow;
  reusable : list Z
}.

#[export] Instance eta_FlowDatagramTx : Settable FlowDatagramTx := fun t =>
  mkFlowTx (ft_key t) (ft_session t) (tx_flows t) (reusable t).

Definition flow_tx_new (key session : Key) : FlowDatagramTx := mkFlowTx key session ∅ [].

Section sender.
Context `{Aead} `{Blake3Kdf} {R : Type} `{Rng R}.

(** Draw identifiers until one is new. *)
Fixpoint draw_id (fuel : nat) (flows : gmap Z TxFlow) (r : R) : option (FlowId * R) :=
  match fuel with
  | O => None
  | S fuel =>
      let '(id, r) := fill_bytes r 16 in
      if negb (bool_decide (id = ZERO_ID)) && forallb (fun f => negb (bool_decide (flow_id f.2 = id))) (map_to_list flows)
      then Some (id, r) else draw_id fuel flows r
  end.

Definition absent_lanes (tx : FlowDatagramTx) (local_flow : Z) : Z :=
  zlen (filter (fun lane => lane <> local_flow /\ tx_flows tx !! lane = None) LOCAL_LANES).

(** The flow of a handle that has none: the least recently used one, or a new one while there is room. *)
Definition bind_flow (fuel : nat) (tx : FlowDatagramTx) (local_flow : Z) (r : R) : option (FlowDatagramTx * R) :=
  if MAX_FLOWS - absent_lanes tx local_flow <=? Z.of_nat (size (tx_flows tx)) then
    match reusable tx with
    | [] => None
    | oldest :: rest =>
        flow ← tx_flows tx !! oldest;
        Some (tx <| reusable := rest |> <| tx_flows := <[local_flow := flow]> (delete oldest (tx_flows tx)) |>, r)
    end
  else
    '(id, r) ← draw_id fuel (tx_flows tx) r;
    let key := flow_key (ft_key tx) (ft_session tx) id in
    Some (tx <| tx_flows := <[local_flow := mkTxFlow id (tx_new key (ft_session tx))]> (tx_flows tx) |>, r).

Definition flow_encode_frame (fuel : nat) (tx : FlowDatagramTx) (local_flow : Z) (frame : list byte) (ceiling : Z) (r : R) :
    option (FlowDatagramTx * R * (RealtimeDatagramError + list (list byte))) :=
  if is_nil frame || (MAX_REALTIME_FRAME <? zlen frame) then Some (tx, r, inl (FrameSize (zlen frame)))
  else if ceiling - PREFIX_LEN <? 41 then Some (tx, r, inl (DatagramTooSmall ceiling))
  else
    match flow_fragment_count (zlen frame) ceiling with
    | inl e => Some (tx, r, inl e)
    | inr _ =>
        '(tx, r) ← match tx_flows tx !! local_flow with
                   | Some _ => Some (tx, r)
                   | None => bind_flow fuel tx local_flow r
                   end;
        let tx :=
          if bool_decide (local_flow ∈ LOCAL_LANES) then tx
          else tx <| reusable := filter (fun key => key <> local_flow) (reusable tx) ++ [local_flow] |> in
        flow ← tx_flows tx !! local_flow;
        let '(c, result) := encode_frame (codec flow) frame (ceiling - PREFIX_LEN) in
        let tx := tx <| tx_flows := <[local_flow := flow <| codec := c |>]> (tx_flows tx) |> in
        Some (tx, r, match result with
                     | inl e => inl e
                     | inr packets => inr ((fun packet => FLOW_MAGIC ++ flow_id flow ++ packet) <$> packets)
                     end)
    end.

Definition flow_tx_rekey (tx : FlowDatagramTx) (key session : Key) : FlowDatagramTx :=
  tx <| ft_key := key |> <| ft_session := session |>
     <| tx_flows := (fun flow => flow <| codec := tx_rekey (codec flow) (flow_key key session (flow_id flow)) session |>) <$> tx_flows tx |>.

End sender.

(** ** The receiver *)

Record RetiredKey := mkRetired { rk_key : Key; rk_session : Key; rotated_at : Z }.

Record FlowDatagramRx := mkFlowRx {
  fr_key : Key;
  fr_session : Key;
  fr_previous : option RetiredKey;
  rx_flows : gmap FlowId RealtimeDatagramRx
}.

#[export] Instance eta_FlowDatagramRx : Settable FlowDatagramRx := fun r =>
  mkFlowRx (fr_key r) (fr_session r) (fr_previous r) (rx_flows r).

Definition flow_rx_new (key session : Key) : FlowDatagramRx := mkFlowRx key session None ∅.

Section receiver.
Context (hash_order : list (Z * Assembly) -> list (Z * Assembly)).
Context `{Aead} `{Blake3Kdf}.

Definition make_receiver (id : FlowId) (key session : Key) : RealtimeDatagramRx :=
  rx_with_limits (flow_key key session id) session (MAX_ASSEMBLIES / MAX_FLOWS) (MAX_ASSEMBLY_BYTES / MAX_FLOWS).

Definition fresh_receiver (rx : FlowDatagramRx) (id : FlowId) : RealtimeDatagramRx :=
  match fr_previous rx with
  | Some old => rx_rekey (make_receiver id (rk_key old) (rk_session old)) (flow_key (fr_key rx) (fr_session rx) id) (fr_session rx) (rotated_at old)
  | None => make_receiver id (fr_key rx) (fr_session rx)
  end.

Definition flow_decode_datagram (rx : FlowDatagramRx) (packet : list byte) (now : Z) :
    option (FlowDatagramRx * (RealtimeDatagramError + option (list byte))) :=
  let rx := rx <| rx_flows := (fun lane => prune hash_order lane now) <$> rx_flows rx |> in
  let rx := if is_some_and (fr_previous rx) (fun old => REALTIME_REKEY_GRACE <=? sat_sub now (rotated_at old))
            then rx <| fr_previous := None |> else rx in
  if (zlen packet <? MIN_FLOW_DATAGRAM_SIZE) || negb (bool_decide (ztake 4 packet = FLOW_MAGIC)) then Some (rx, inl Malformed)
  else
    let id := range 4 PREFIX_LEN packet in
    if bool_decide (id = ZERO_ID) then Some (rx, inl Malformed)
    else
      match rx_flows rx !! id with
      | Some lane =>
          '(lane, r) ← decode_datagram hash_order lane (zdrop PREFIX_LEN packet) now;
          Some (rx <| rx_flows := <[id := lane]> (rx_flows rx) |>, r)
      | None =>
          if MAX_FLOWS <=? Z.of_nat (size (rx_flows rx)) then Some (rx, inl FlowCapacity)
          else
            '(lane, r) ← decode_datagram hash_order (fresh_receiver rx id) (zdrop PREFIX_LEN packet) now;
            match r with
            | inl e => Some (rx, inl e)
            | inr frame => Some (rx <| rx_flows := <[id := lane]> (rx_flows rx) |>, inr frame)
            end
      end.

Definition flow_rx_rekey (rx : FlowDatagramRx) (key session : Key) (now : Z) : FlowDatagramRx :=
  rx <| fr_previous := Some (mkRetired (fr_key rx) (fr_session rx) now) |> <| fr_key := key |> <| fr_session := session |>
     <| rx_flows := map_imap (fun id lane => Some (rx_rekey lane (flow_key key session id) session now)) (rx_flows rx) |>.

End receiver.

(** ** The format of a session *)

Inductive SessionDatagramTx := LegacyTx (tx : RealtimeDatagramTx) | FlowsTx (tx : FlowDatagramTx).
Inductive SessionDatagramRx := LegacyRx (rx : RealtimeDatagramRx) | FlowsRx (rx : FlowDatagramRx).

(** The lengths of the datagrams of a frame, before any of them is encoded. *)
Definition frame_wire_sizes (tx : SessionDatagramTx) (frame_len ceiling : Z) : RealtimeDatagramError + list Z :=
  if (frame_len =? 0) || (MAX_REALTIME_FRAME <? frame_len) then inl (FrameSize frame_len)
  else
    let prefix := match tx with FlowsTx _ => PREFIX_LEN | LegacyTx _ => 0 end in
    let overhead := prefix + FRAGMENT_OVERHEAD in
    if ceiling - overhead <=? 0 then inl (DatagramTooSmall ceiling)
    else
      let capacity := ceiling - overhead in
      let fragments := div_ceil frame_len capacity in
      if MAX_FRAGMENTS <? fragments then inl (TooManyFragments fragments)
      else inr ((fun i => Z.min (frame_len - i * capacity) capacity + overhead) <$> seqZ 0 fragments).

Section session.
Context (hash_order : list (Z * Assembly) -> list (Z * Assembly)).
Context `{Aead} `{Blake3Kdf} {R : Type} `{Rng R}.

Definition session_tx_new (key session : Key) (flows : bool) : SessionDatagramTx :=
  if flows then FlowsTx (flow_tx_new key session) else LegacyTx (tx_new key session).

Definition session_encode_frame (fuel : nat) (tx : SessionDatagramTx) (local_flow : Z) (frame : list byte) (ceiling : Z) (r : R) :
    option (SessionDatagramTx * R * (RealtimeDatagramError + list (list byte))) :=
  match tx with
  | LegacyTx tx => let '(tx, result) := encode_frame tx frame ceiling in Some (LegacyTx tx, r, result)
  | FlowsTx tx => '(tx, r, result) ← flow_encode_frame fuel tx local_flow frame ceiling r; Some (FlowsTx tx, r, result)
  end.

Definition session_tx_rekey (tx : SessionDatagramTx) (key session : Key) : SessionDatagramTx :=
  match tx with
  | LegacyTx tx => LegacyTx (tx_rekey tx key session)
  | FlowsTx tx => FlowsTx (flow_tx_rekey tx key session)
  end.

Definition session_rx_new (key session : Key) (flows : bool) : SessionDatagramRx :=
  if flows then FlowsRx (flow_rx_new key session) else LegacyRx (rx_new key session).

Definition session_decode_datagram (rx : SessionDatagramRx) (packet : list byte) (now : Z) :
    option (SessionDatagramRx * (RealtimeDatagramError + option (list byte))) :=
  match rx with
  | LegacyRx rx => '(rx, r) ← decode_datagram hash_order rx packet now; Some (LegacyRx rx, r)
  | FlowsRx rx => '(rx, r) ← flow_decode_datagram hash_order rx packet now; Some (FlowsRx rx, r)
  end.

Definition session_rx_rekey (rx : SessionDatagramRx) (key session : Key) (now : Z) : SessionDatagramRx :=
  match rx with
  | LegacyRx rx => LegacyRx (rx_rekey rx key session now)
  | FlowsRx rx => FlowsRx (flow_rx_rekey rx key session now)
  end.

End session.
