(* ===== verification/DatagramFlowsInv.v ===== *)
(** * Flows share a session without mixing

    The sizes announced for a frame are those of its datagrams; no identifier and sequence number is
    used twice, whatever handles are bound and rebound; and what comes out of the flows of a receiver
    was sent, once. *)

From S2P Require Import Prelude Crypto CircuitData FrameCodec CircuitReplay Datagram DatagramInv DatagramLane DatagramBurst DatagramFlows.
#[local] Open Scope Z_scope.
#[local] Open Scope list_scope.

(** ** Sizes *)

Lemma chunks_loop_sizes n fuel l : 0 < n -> (length l <= fuel)%nat ->
  zlen <$> chunks_loop fuel (Z.to_nat n) l = (fun i => Z.min (zlen l - i * n) n) <$> seqZ 0 (div_ceil (zlen l) n).
Proof.
  intros Hn. revert l. induction fuel as [|fuel IH]; intros [|x l] Hf; cbn [chunks_loop]; try (cbn in Hf; lia).
  1, 2: unfold div_ceil; rewrite Z.div_0_l, Z.mod_0_l by lia; done.
  rewrite fmap_cons, IH by (rewrite length_drop; cbn [length] in *; lia).
  assert (0 < zlen (x :: l)) as Hpos by (unfold zlen; cbn; lia).
  assert (zlen (drop (Z.to_nat n) (x :: l)) = Z.max 0 (zlen (x :: l) - n)) as -> by (unfold zlen; rewrite length_drop; lia).
  rewrite (div_ceil_step (zlen (x :: l)) n Hn Hpos).
  assert (0 <= div_ceil (Z.max 0 (zlen (x :: l) - n)) n) as Hd by (unfold div_ceil; pose proof (Z.div_pos (Z.max 0 (zlen (x :: l) - n)) n); case_bool; lia).
  rewrite (seqZ_cons 0 (1 + _)) by lia. rewrite fmap_cons. f_equal.
  - unfold zlen. rewrite length_take. lia.
  - replace (Z.pred (1 + div_ceil (Z.max 0 (zlen (x :: l) - n)) n)) with (div_ceil (Z.max 0 (zlen (x :: l) - n)) n) by lia.
    rewrite <- (fmap_add_seqZ 1 0), <- list_fmap_compose. apply list_fmap_ext. intros j i E. apply lookup_seqZ in E as [-> Hj]. cbn.
    destruct (Z.leb_spec (zlen (x :: l)) n); [|lia]. exfalso. rewrite Z.max_l in Hj by lia. unfold div_ceil in Hj. rewrite Z.div_0_l, Z.mod_0_l in Hj by lia. cbn in Hj. lia.
Qed.

Lemma chunks_sizes n l : 0 < n ->
  zlen <$> chunks n l = (fun i => Z.min (zlen l - i * n) n) <$> seqZ 0 (div_ceil (zlen l) n).
Proof. intros Hn. by apply chunks_loop_sizes. Qed.

Section sizes.
Context `{Aead, !AeadLaws} `{Blake3Kdf} {R : Type} `{Rng R}.

Lemma sealed_sizes key fs ds : Forall2 (sealed_as key) fs ds -> zlen <$> ds = (fun n => n + FRAGMENT_OVERHEAD) <$> (zlen <$> fs.*2).
Proof.
  induction 1 as [|[h p] d fs ds (ct & Es & ->) _ IH]; [done|]. rewrite !fmap_cons, IH. f_equal. cbn [fst snd] in *.
  rewrite zlen_app, zlen_fragment_encode, (aead_tag _ _ _ _ _ Es). unfold FRAGMENT_OVERHEAD, TAG_LEN. lia.
Qed.

(** The lengths of the datagrams of a frame. *)
Lemma encode_frame_sizes tx frame ceiling tx' ds : encode_frame tx frame ceiling = (tx', inr ds) ->
  zlen <$> ds = (fun i => Z.min (zlen frame - i * payload_room ceiling) (payload_room ceiling) + FRAGMENT_OVERHEAD)
    <$> seqZ 0 (div_ceil (zlen frame) (payload_room ceiling)).
Proof.
  intros E. apply encode_frame_spec in E as (_ & Hr & _ & _ & _ & Hs). rewrite (sealed_sizes _ _ _ Hs).
  unfold fragments_of. rewrite number_snd, chunks_sizes, <- list_fmap_compose by done. done.
Qed.

End sizes.

(** ** The sender's flows *)

Record flow_tx_ok (tx : FlowDatagramTx) : Prop := {
  ft_ids k k' f f' : tx_flows tx !! k = Some f -> tx_flows tx !! k' = Some f' -> flow_id f = flow_id f' -> k = k';
  ft_each : map_Forall (fun _ f => zlen (flow_id f) = 16 /\ tx_wf (codec f)) (tx_flows tx);
  ft_nodup : NoDup (reusable tx);
  ft_reuse k : k ∈ reusable tx <-> is_Some (tx_flows tx !! k) /\ (k ∉ LOCAL_LANES);
  ft_room : zlen (reusable tx) <= 14
}.

Lemma flow_tx_new_ok key session : flow_tx_ok (flow_tx_new key session).
Proof.
  split; cbn; try done; [constructor|]. intros k. rewrite lookup_empty. split; [by intros ?%not_elem_of_nil|by intros [[? ?] _]].
Qed.

Lemma keys_size {A} (m : gmap Z A) (l : list Z) : NoDup l -> (forall k, k ∈ l <-> is_Some (m !! k)) -> size m = length l.
Proof.
  intros Hn Hl. rewrite <- size_dom. rewrite <- (size_list_to_set (C := gset Z) l Hn). f_equal. apply set_eq. intros k.
  by rewrite elem_of_dom, elem_of_list_to_set, Hl.
Qed.

(** The flows are the reusable ones and the local lanes that are present. *)
Lemma flow_tx_size tx : flow_tx_ok tx ->
  Z.of_nat (size (tx_flows tx)) = zlen (reusable tx) + zlen (filter (fun k => is_Some (tx_flows tx !! k)) LOCAL_LANES).
Proof.
  intros Hok. unfold zlen. rewrite <- Nat2Z.inj_add, <- length_app. f_equal. apply keys_size.
  - apply NoDup_app. split_and!; [apply Hok| |apply NoDup_filter; repeat constructor; set_solver].
    intros k Hk [_ Hl]%list_elem_of_filter. by apply (ft_reuse _ Hok) in Hk as [_ ?].
  - intros k. rewrite elem_of_app, (ft_reuse _ Hok), list_elem_of_filter. destruct (decide (k ∈ LOCAL_LANES)); naive_solver.
Qed.

Lemma flow_tx_bound tx : flow_tx_ok tx -> Z.of_nat (size (tx_flows tx)) <= MAX_FLOWS.
Proof.
  intros Hok. rewrite (flow_tx_size tx Hok). pose proof (ft_room _ Hok).
  pose proof (length_filter (fun k => is_Some (tx_flows tx !! k)) LOCAL_LANES) as Hl. change (length LOCAL_LANES) with 2%nat in Hl. unfold zlen, MAX_FLOWS in *. lia.
Qed.

Section sending.
Context `{Aead} `{Blake3Kdf} {R : Type} `{Rng R} `{!RngLaws R}.

Lemma draw_id_spec fuel flows (r : R) id r' : draw_id fuel flows r = Some (id, r') ->
  zlen id = 16 /\ forall k f, flows !! k = Some f -> flow_id f <> id.
Proof.
  revert r. induction fuel as [|fuel IH]; intros r; cbn [draw_id]; [done|].
  pose proof (fill_bytes_len r 16) as Hlen. destruct (fill_bytes r 16) as [id0 r0]. destruct (_ && _) eqn:E; [|apply IH].
  intros [= <- <-]. apply andb_true_iff in E as [_ E]. split; [by apply Hlen|]. intros k f Ek Eid. rewrite forallb_forall in E.
  specialize (E (k, f)). cbn in E. rewrite bool_decide_eq_true_2 in E by done. discriminate E. apply list_elem_of_In. by apply elem_of_map_to_list.
Qed.

(** The handle used last goes to the end. *)
Definition touch (tx : FlowDatagramTx) (lf : Z) : FlowDatagramTx :=
  if bool_decide (lf ∈ LOCAL_LANES) then tx else tx <| reusable := filter (fun key => key <> lf) (reusable tx) ++ [lf] |>.

Lemma touch_flows tx lf : tx_flows (touch tx lf) = tx_flows tx.
Proof. unfold touch. by case_bool_decide. Qed.

Lemma elem_of_touched (k lf : Z) l : k ∈ filter (fun key => key <> lf) l ++ [lf] <-> k = lf \/ k ∈ l.
Proof. rewrite elem_of_app, list_elem_of_filter, list_elem_of_singleton. destruct (decide (k = lf)); naive_solver. Qed.

Lemma nodup_touched lf (l : list Z) : NoDup l -> NoDup (filter (fun key => key <> lf) l ++ [lf]).
Proof.
  intros Hn. apply NoDup_app. split_and!; [by apply NoDup_filter| |by apply NoDup_singleton].
  intros k [Hk _]%list_elem_of_filter ->%list_elem_of_singleton. done.
Qed.

Lemma length_touched lf (l : list Z) : NoDup l -> zlen (filter (fun key => key <> lf) l ++ [lf]) = if bool_decide (lf ∈ l) then zlen l else zlen l + 1.
Proof.
  intros Hn. rewrite zlen_app. change (zlen [lf]) with 1. induction Hn as [|k l Hk Hn IH]; [done|]. rewrite filter_cons.
  destruct (decide (k <> lf)) as [Hne|He].
  - rewrite !zlen_cons. assert (lf ∈ k :: l <-> lf ∈ l) as E by (rewrite elem_of_cons; naive_solver). rewrite (bool_decide_ext _ _ E).
    case_bool_decide; lia.
  - apply dec_stable in He as ->. rewrite bool_decide_eq_true_2 by left. rewrite zlen_cons. rewrite bool_decide_eq_false_2 in IH by done. lia.
Qed.

(** Every flow is still there, under some handle, and its numbers have not gone back. *)
Definition grows (tx tx' : FlowDatagramTx) : Prop :=
  forall k f, tx_flows tx !! k = Some f ->
    exists k' f', tx_flows tx' !! k' = Some f' /\ flow_id f' = flow_id f /\ next_sequence (codec f) <= next_sequence (codec f').

(** A flow that nobody else is ahead of. *)
Definition foremost (tx : FlowDatagramTx) (flow : TxFlow) : Prop :=
  forall k f, tx_flows tx !! k = Some f -> flow_id f = flow_id flow -> next_sequence (codec f) <= next_sequence (codec flow).

Lemma bind_reuse tx lf oldest rest flow : flow_tx_ok tx -> tx_flows tx !! lf = None -> (lf ∉ LOCAL_LANES) ->
  reusable tx = oldest :: rest -> tx_flows tx !! oldest = Some flow ->
  let tx1 := tx <| reusable := rest |> <| tx_flows := <[lf := flow]> (delete oldest (tx_flows tx)) |> in
  flow_tx_ok (touch tx1 lf) /\ grows tx tx1 /\ foremost tx flow.
Proof.
  intros Hok Hlf Hlane Er Eo tx1. destruct (ft_each _ Hok _ _ Eo) as [Hlen Hwf].
  assert (lf <> oldest) as Hlo by congruence. pose proof (ft_nodup _ Hok) as Hn. rewrite Er in Hn. apply NoDup_cons in Hn as [Hor Hn].
  assert (lf ∉ rest) as Hlr.
  { intros Hin. destruct (proj1 (ft_reuse _ Hok lf)) as [[? ?] _]; [rewrite Er; by right|congruence]. }
  unfold touch. rewrite bool_decide_eq_false_2 by done. split_and!.
  - split; cbn.
    + intros k k' f f' [[<- <-]|[Hk [Hko Ek]%lookup_delete_Some]]%lookup_insert_Some
        [[<- <-]|[Hk' [Hko' Ek']%lookup_delete_Some]]%lookup_insert_Some Eid; [done| | |by eapply (ft_ids _ Hok)].
      * destruct Hko'. by eapply (ft_ids _ Hok).
      * destruct Hko. symmetry. by eapply (ft_ids _ Hok).
    + apply map_Forall_insert_2; [done|]. apply map_Forall_delete, Hok.
    + by apply nodup_touched.
    + intros k. rewrite elem_of_touched. destruct (decide (k = lf)) as [->|Hne].
      * rewrite lookup_insert_eq. naive_solver.
      * rewrite lookup_insert_ne by done. pose proof (ft_reuse _ Hok k) as Hr. rewrite Er, elem_of_cons in Hr.
        destruct (decide (k = oldest)) as [->|Hko]; [rewrite lookup_delete_eq; split; [naive_solver|by intros [[] _]]|].
        rewrite lookup_delete_ne by done. naive_solver.
    + rewrite length_touched, bool_decide_eq_false_2 by done. pose proof (ft_room _ Hok) as Hroom. rewrite Er, zlen_cons in Hroom. lia.
  - intros k f Ek. destruct (decide (k = oldest)) as [->|Hne].
    + exists lf, flow. cbn. rewrite lookup_insert_eq. split_and!; [done|congruence|]. replace f with flow by congruence. lia.
    + exists k, f. cbn. rewrite lookup_insert_ne, lookup_delete_ne by congruence. split_and!; [done|done|lia].
  - intros k f Ek Eid. assert (k = oldest) as -> by (by eapply (ft_ids _ Hok)). replace f with flow by congruence. lia.
Qed.

Lemma bind_fresh tx lf flow : flow_tx_ok tx -> tx_flows tx !! lf = None ->
  (forall k f, tx_flows tx !! k = Some f -> flow_id f <> flow_id flow) -> zlen (flow_id flow) = 16 -> tx_wf (codec flow) ->
  ((lf ∉ LOCAL_LANES) -> zlen (reusable tx) < 14) ->
  let tx1 := tx <| tx_flows := <[lf := flow]> (tx_flows tx) |> in
  flow_tx_ok (touch tx1 lf) /\ grows tx tx1 /\ foremost tx flow.
Proof.
  intros Hok Hlf Hnew Hlen Hwf Hroom tx1.
  assert (lf ∉ reusable tx) as Hlr by (intros Hin; destruct (proj1 (ft_reuse _ Hok lf) Hin) as [[? ?] _]; congruence).
  assert (forall k k' f f', <[lf := flow]> (tx_flows tx) !! k = Some f -> <[lf := flow]> (tx_flows tx) !! k' = Some f' -> flow_id f = flow_id f' -> k = k') as Hids.
  { intros k k' f f' [[<- <-]|[Hk Ek]]%lookup_insert_Some [[<- <-]|[Hk' Ek']]%lookup_insert_Some Eid; [done| | |by eapply (ft_ids _ Hok)].
    - by destruct (Hnew _ _ Ek').
    - by destruct (Hnew _ _ Ek). }
  split_and!; [| |intros k f Ek Eid; by destruct (Hnew _ _ Ek)].
  - unfold touch. case_bool_decide as Hl; split; cbn; try done; try (by apply map_Forall_insert_2; [|apply Hok]).
    + apply Hok.
    + intros k. rewrite (ft_reuse _ Hok k). destruct (decide (k = lf)) as [->|Hne]; [rewrite Hlf; naive_solver|by rewrite lookup_insert_ne].
    + apply Hok.
    + apply nodup_touched, Hok.
    + intros k. rewrite elem_of_touched. destruct (decide (k = lf)) as [->|Hne]; [rewrite lookup_insert_eq; naive_solver|].
      rewrite lookup_insert_ne, (ft_reuse _ Hok k) by done. naive_solver.
    + rewrite length_touched, bool_decide_eq_false_2 by (done || apply Hok). specialize (Hroom Hl). lia.
  - intros k f Ek. exists k, f. cbn. rewrite lookup_insert_ne by congruence. split_and!; [done|done|lia].
Qed.

Lemma absent_present tx lf : tx_flows tx !! lf = None ->
  absent_lanes tx lf + zlen (filter (fun k => is_Some (tx_flows tx !! k)) LOCAL_LANES) = if bool_decide (lf ∈ LOCAL_LANES) then 1 else 2.
Proof.
  intros Hlf.
  assert (forall lanes, NoDup lanes -> zlen (filter (fun lane => lane <> lf /\ tx_flows tx !! lane = None) lanes) +
    zlen (filter (fun k => is_Some (tx_flows tx !! k)) lanes) = zlen lanes - (if bool_decide (lf ∈ lanes) then 1 else 0)) as Hall.
  { induction 1 as [|k lanes Hk _ IH]; [done|]. rewrite !filter_cons, zlen_cons. destruct (decide (k = lf)) as [->|Hne].
    - rewrite (bool_decide_eq_true_2 (lf ∈ lf :: lanes)) by left. rewrite bool_decide_eq_false_2 in IH by done.
      rewrite decide_False by tauto. rewrite decide_False by (rewrite Hlf; by intros []). lia.
    - assert (lf ∈ k :: lanes <-> lf ∈ lanes) as E by (rewrite elem_of_cons; naive_solver). rewrite (bool_decide_ext _ _ E).
      destruct (tx_flows tx !! k) as [f|] eqn:Ek.
      + rewrite decide_False by naive_solver. rewrite decide_True by done. rewrite zlen_cons. lia.
      + rewrite decide_True by done. rewrite decide_False by (by intros []). rewrite zlen_cons. lia. }
  unfold absent_lanes. rewrite Hall by (repeat constructor; set_solver). case_bool_decide; done.
Qed.

Lemma bind_flow_spec fuel tx lf (r : R) : flow_tx_ok tx -> tx_flows tx !! lf = None ->
  match bind_flow fuel tx lf r with
  | Some (tx1, _) => exists flow, tx_flows tx1 !! lf = Some flow /\ flow_tx_ok (touch tx1 lf) /\ grows tx tx1 /\ foremost tx flow
  | None => draw_id fuel (tx_flows tx) r = None /\ Z.of_nat (size (tx_flows tx)) < MAX_FLOWS
  end.
Proof.
  intros Hok Hlf. pose proof (flow_tx_size tx Hok) as Hsize. pose proof (absent_present tx lf Hlf) as Hap. pose proof (ft_room _ Hok) as Hroom.
  pose proof (zlen_nonneg (filter (fun k => is_Some (tx_flows tx !! k)) LOCAL_LANES)) as Hp0.
  assert (0 <= absent_lanes tx lf) as Ha0 by apply zlen_nonneg.
  unfold bind_flow. destruct (Z.leb_spec (MAX_FLOWS - absent_lanes tx lf) (Z.of_nat (size (tx_flows tx)))) as [Hfull|Hfree]; unfold MAX_FLOWS in *.
  - assert (lf ∉ LOCAL_LANES) as Hl by (case_bool_decide; [lia|done]). rewrite bool_decide_eq_false_2 in Hap by done.
    destruct (reusable tx) as [|oldest rest] eqn:Er; [rewrite zlen_nil in Hsize; lia|].
    destruct (proj1 (ft_reuse _ Hok oldest)) as [[flow Eo] _]; [rewrite Er; by left|]. rewrite Eo. cbn [mbind option_bind].
    exists flow. split; [apply lookup_insert_eq|]. by apply bind_reuse.
  - destruct (draw_id fuel (tx_flows tx) r) as [[id r']|] eqn:Ed; cbn [mbind option_bind]; [|split; [done|lia]].
    apply draw_id_spec in Ed as [Hlen Hnew]. eexists. split; [apply lookup_insert_eq|]. apply bind_fresh; try done.
    intros Hl. rewrite bool_decide_eq_false_2 in Hap by done. lia.
Qed.

(** ** Encoding on a flow *)

(** The identifier and the sequence number of a datagram. *)
Definition nonce_of (d : list byte) : FlowId * list byte := (range 4 20 d, range 36 44 d).

Lemma sealed_nonce key h p d id : zlen id = 16 -> sealed_as key (h, p) d ->
  nonce_of (FLOW_MAGIC ++ id ++ d) = (id, be_bytes 8 (sequence h)).
Proof.
  intros Hid (ct & _ & ->). cbn [fst snd]. unfold nonce_of. f_equal.
  - apply range_mid; [done|]. rewrite Hid. done.
  - rewrite (app_assoc FLOW_MAGIC), range_skip by (rewrite zlen_app, Hid; done). rewrite zlen_app, Hid. done.
Qed.

Lemma number_nonces key id mid count total index seq pieces ds : zlen id = 16 ->
  Forall2 (sealed_as key) (number mid count total index seq pieces) ds ->
  nonce_of <$> ((fun d => FLOW_MAGIC ++ id ++ d) <$> ds) = (fun i => (id, be_bytes 8 i)) <$> seqZ seq (zlen pieces).
Proof.
  intros Hid. revert index seq ds. induction pieces as [|c pieces IH]; intros index seq ds Hall; cbn [number] in Hall.
  - apply Forall2_nil_inv_l in Hall as ->. done.
  - apply Forall2_cons_inv_l in Hall as (d & ds' & Hd & Hall & ->). rewrite zlen_cons, seqZ_cons by (pose proof (zlen_nonneg pieces); lia).
    rewrite !fmap_cons. f_equal; [by rewrite (sealed_nonce _ _ _ _ _ Hid Hd)|].
    rewrite (IH _ _ _ Hall). do 2 f_equal; lia.
Qed.

Lemma encode_on_flow tx lf flow frame ceiling c res : flow_tx_ok tx -> tx_flows tx !! lf = Some flow ->
  encode_frame (codec flow) frame ceiling = (c, res) ->
  let tx' := tx <| tx_flows := <[lf := flow <| codec := c |>]> (tx_flows tx) |> in
  flow_tx_ok tx' /\ grows tx tx' /\ forall packets, res = inr packets ->
    exists n, 0 < next_sequence (codec flow) /\ next_sequence c = next_sequence (codec flow) + n /\ 0 <= n /\ next_sequence c <= U64_MAX /\
      nonce_of <$> ((fun d => FLOW_MAGIC ++ flow_id flow ++ d) <$> packets) =
      (fun i => (flow_id flow, be_bytes 8 i)) <$> seqZ (next_sequence (codec flow)) n.
Proof.
  intros Hok Ef E tx'. destruct (ft_each _ Hok _ _ Ef) as [Hlen Hwf]. pose proof (encode_frame_mono (codec flow) frame ceiling Hwf) as Hm.
  rewrite E in Hm. destruct Hm as (Hwf' & Hle & _ & _). cbn [fst] in *. split_and!.
  - destruct Hok as [Hids Heach Hn Hr Hroom]. split; cbn; try done.
    + intros k k' f f' [[<- <-]|[Hk Ek]]%lookup_insert_Some [[<- <-]|[Hk' Ek']]%lookup_insert_Some Eid; [done|by eapply Hids..].
    + by apply map_Forall_insert_2.
    + intros k. rewrite Hr. destruct (decide (k = lf)) as [->|Hne]; [rewrite lookup_insert_eq, Ef; naive_solver|by rewrite lookup_insert_ne].
  - intros k f Ek. destruct (decide (k = lf)) as [->|Hne].
    + exists lf, (flow <| codec := c |>). cbn. rewrite lookup_insert_eq. replace f with flow by congruence. done.
    + exists k, f. cbn. rewrite lookup_insert_ne by done. split_and!; [done|done|lia].
  - intros packets ->. apply encode_frame_spec in E as (_ & _ & Hc & Hu & -> & Hs). exists (zlen (fragments_of (codec flow) frame ceiling)).
    cbn [next_sequence]. split_and!; [apply Hwf|done|lia|done|]. unfold fragments_of in *. rewrite number_length. by eapply number_nonces.
Qed.

Lemma touch_ok tx lf : flow_tx_ok tx -> is_Some (tx_flows tx !! lf) -> flow_tx_ok (touch tx lf).
Proof.
  intros Hok Hlf. unfold touch. case_bool_decide as Hl; [done|]. assert (lf ∈ reusable tx) as Hin by (by apply (ft_reuse _ Hok)).
  destruct Hok as [Hids Heach Hn Hr Hroom]. split; cbn; try done; [by apply nodup_touched| |].
  - intros k. rewrite elem_of_touched, <- Hr. naive_solver.
  - by rewrite length_touched, bool_decide_eq_true_2 by done.
Qed.

Lemma flows_grow_refl tx : grows tx tx.
Proof. intros k f E. exists k, f. split_and!; [done|done|lia]. Qed.

Lemma flows_grow_trans tx1 tx2 tx3 : grows tx1 tx2 -> grows tx2 tx3 -> grows tx1 tx3.
Proof.
  intros H12 H23 k f E. destruct (H12 k f E) as (k' & f' & E' & Hid & Hle). destruct (H23 k' f' E') as (k'' & f'' & E'' & Hid' & Hle').
  exists k'', f''. split_and!; [done|congruence|lia].
Qed.

(** What an encoder does: no panic, the flows stay in order, and the numbers of its datagrams are new. *)
Lemma flow_encode_spec fuel tx lf frame ceiling (r : R) : flow_tx_ok tx ->
  match flow_encode_frame fuel tx lf frame ceiling r with
  | None => draw_id fuel (tx_flows tx) r = None /\ Z.of_nat (size (tx_flows tx)) < MAX_FLOWS
  | Some (tx', _, res) => flow_tx_ok tx' /\ grows tx tx' /\ forall ds, res = inr ds ->
      exists k flow from upto, tx_flows tx' !! k = Some flow /\
        (forall k f, tx_flows tx !! k = Some f -> flow_id f = flow_id flow -> next_sequence (codec f) <= from) /\
        0 < from <= upto /\ upto = next_sequence (codec flow) /\ upto <= U64_MAX /\
        nonce_of <$> ds = (fun i => (flow_id flow, be_bytes 8 i)) <$> seqZ from (upto - from)
  end.
Proof.
  intros Hok. unfold flow_encode_frame. destruct (is_nil frame || _); [by split_and!; [|apply flows_grow_refl|]|].
  destruct (ceiling - PREFIX_LEN <? 41); [by split_and!; [|apply flows_grow_refl|]|].
  destruct (flow_fragment_count _ _); [by split_and!; [|apply flows_grow_refl|]|].
  assert (match (match tx_flows tx !! lf with Some _ => Some (tx, r) | None => bind_flow fuel tx lf r end) with
    | Some (tx1, _) => exists flow, tx_flows tx1 !! lf = Some flow /\ flow_tx_ok (touch tx1 lf) /\ grows tx tx1 /\ foremost tx flow
    | None => draw_id fuel (tx_flows tx) r = None /\ Z.of_nat (size (tx_flows tx)) < MAX_FLOWS end) as Hb.
  { destruct (tx_flows tx !! lf) as [flow|] eqn:E; [|by apply bind_flow_spec]. exists flow.
    split_and!; [done|apply touch_ok; [done|by rewrite E]|apply flows_grow_refl|]. intros k f Ek Eid.
    assert (k = lf) as -> by (by eapply (ft_ids _ Hok)). replace f with flow by congruence. lia. }
  destruct (match tx_flows tx !! lf with Some _ => _ | None => _ end) as [[tx1 r1]|]; cbn [mbind option_bind]; [|done].
  destruct Hb as (flow & Ef & Hok1 & Hg & Hfore). fold (touch tx1 lf). rewrite touch_flows, Ef. cbn [mbind option_bind].
  destruct (encode_frame (codec flow) frame (ceiling - PREFIX_LEN)) as [c res] eqn:E.
  rewrite <- (touch_flows tx1 lf) in Ef. destruct (encode_on_flow _ _ _ _ _ _ _ Hok1 Ef E) as (Hok2 & Hg2 & Hd). rewrite touch_flows in *.
  split_and!; [done|eapply flows_grow_trans; [exact Hg|]|].
  - intros k f Ek. rewrite <- (touch_flows tx1 lf) in Ek. exact (Hg2 k f Ek).
  - intros ds Eds. destruct res as [e|packets]; [done|]. injection Eds as <-. destruct (Hd packets eq_refl) as (n & H0' & Hn & Hn0 & Hu & Enonce).
    exists lf, (flow <| codec := c |>), (next_sequence (codec flow)), (next_sequence c). cbn. rewrite lookup_insert_eq.
    split_and!; try done; [lia|]. cbn in Enonce. rewrite Enonce. do 2 f_equal. lia.
Qed.

(** ** Runs of the sender *)

Inductive FlowOp :=
| FlowFrame (local_flow : Z) (frame : list byte) (ceiling : Z)
| FlowRekey (key session : Key).

(** The datagrams that are sent. *)
Fixpoint flow_transmit (fuel : nat) (tx : FlowDatagramTx) (ops : list FlowOp) (r : R) : option (FlowDatagramTx * R * list (list byte)) :=
  match ops with
  | [] => Some (tx, r, [])
  | FlowRekey key session :: ops => flow_transmit fuel (flow_tx_rekey tx key session) ops r
  | FlowFrame lf frame ceiling :: ops =>
      '(tx, r, res) ← flow_encode_frame fuel tx lf frame ceiling r;
      '(tx, r, sent) ← flow_transmit fuel tx ops r;
      Some (tx, r, match res with inr ds => ds ++ sent | inl _ => sent end)
  end.

Lemma flow_tx_rekey_ok tx key session : flow_tx_ok tx -> flow_tx_ok (flow_tx_rekey tx key session) /\ grows tx (flow_tx_rekey tx key session).
Proof.
  intros [Hids Heach Hn Hr Hroom]. unfold flow_tx_rekey. split.
  - split; cbn; try done.
    + intros k k' f f'. rewrite !lookup_fmap. intros (g & E & ->)%fmap_Some (g' & E' & ->)%fmap_Some Eid. by eapply Hids.
    + intros k f. rewrite lookup_fmap. intros (g & E & ->)%fmap_Some. exact (Heach k g E).
    + intros k. by rewrite Hr, lookup_fmap, fmap_is_Some.
  - intros k f E. exists k, (f <| codec := tx_rekey (codec f) (flow_key key session (flow_id f)) session |>).
    cbn. rewrite lookup_fmap, E. split_and!; [done|done|cbn; lia].
Qed.

(** The numbers spent so far are behind the flows that spent them. *)
Record spent_ok (tx : FlowDatagramTx) (used : list (FlowId * list byte)) : Prop := {
  so_nodup : NoDup used;
  so_behind id n : (id, n) ∈ used -> exists k f seq, tx_flows tx !! k = Some f /\ flow_id f = id /\ n = be_bytes 8 seq /\
    0 < seq < next_sequence (codec f) /\ seq < U64_MAX
}.

Lemma spent_grows tx tx' used : spent_ok tx used -> grows tx tx' -> spent_ok tx' used.
Proof.
  intros [Hn Hb] Hg. split; [done|]. intros id n Hin. destruct (Hb id n Hin) as (k & f & seq & E & Hid & -> & Hseq & Hu).
  destruct (Hg k f E) as (k' & f' & E' & Hid' & Hle). exists k', f', seq. split_and!; try done; [congruence|lia|lia].
Qed.

Lemma be_bytes_inj n x y : 0 <= x < 256 ^ Z.of_nat n -> 0 <= y < 256 ^ Z.of_nat n -> be_bytes n x = be_bytes n y -> x = y.
Proof. intros Hx Hy E. by rewrite <- (from_be_bytes_id n x), <- (from_be_bytes_id n y), E. Qed.

Lemma spent_more tx tx' used k flow from upto : flow_tx_ok tx' -> spent_ok tx used -> grows tx tx' -> tx_flows tx' !! k = Some flow ->
  (forall k f, tx_flows tx !! k = Some f -> flow_id f = flow_id flow -> next_sequence (codec f) <= from) ->
  0 < from <= upto -> upto = next_sequence (codec flow) -> upto <= U64_MAX ->
  spent_ok tx' (((fun i => (flow_id flow, be_bytes 8 i)) <$> seqZ from (upto - from)) ++ used).
Proof.
  intros Hok Hsp Hg Ek Hfore Hft Eup Hu. pose proof (spent_grows _ _ _ Hsp Hg) as [Hn' Hb'].
  assert (forall i, i ∈ seqZ from (upto - from) -> from <= i < upto) as Hseq by (intros i [? ?]%elem_of_seqZ; lia).
  assert (U64_MAX < 256 ^ Z.of_nat 8) as Hw by done. split.
  - apply NoDup_app. split_and!; [|intros [id n] (i & [= -> ->] & Hi%Hseq)%list_elem_of_fmap Hin|done].
    + apply NoDup_fmap_2_strong; [|apply NoDup_seqZ]. intros x y Hx%Hseq Hy%Hseq E%(f_equal snd). apply (be_bytes_inj 8); [lia|lia|exact E].
    + destruct (so_behind _ _ Hsp _ _ Hin) as (k' & f & seq & E & Hid & En & Hs & Hsu). specialize (Hfore k' f E Hid).
      apply (be_bytes_inj 8) in En; lia.
  - intros id n [(i & [= -> ->] & Hi%Hseq)%list_elem_of_fmap|Hin]%elem_of_app; [|by apply Hb'].
    exists k, flow, i. split_and!; try done; lia.
Qed.

Lemma flow_transmit_spec fuel ops : forall tx used (r : R), flow_tx_ok tx -> spent_ok tx used ->
  match flow_transmit fuel tx ops r with
  | Some (tx', _, sent) => flow_tx_ok tx' /\ NoDup (nonce_of <$> sent) /\ (forall x, x ∈ nonce_of <$> sent -> x ∉ used)
  | None => exists flows r', Z.of_nat (size (flows : gmap Z TxFlow)) < MAX_FLOWS /\ draw_id fuel flows (r' : R) = None
  end.
Proof.
  induction ops as [|[lf frame ceiling|key session] ops IH]; intros tx used r Hok Hsp; cbn [flow_transmit].
  - split_and!; [done|constructor|by intros x ?%not_elem_of_nil].
  - pose proof (flow_encode_spec fuel tx lf frame ceiling r Hok) as He.
    destruct (flow_encode_frame fuel tx lf frame ceiling r) as [[[tx1 r1] res]|]; cbn [mbind option_bind]; [|destruct He as [? ?]; by exists (tx_flows tx), r].
    destruct He as (Hok1 & Hg & Hds). destruct res as [e|ds].
    + specialize (IH tx1 used r1 Hok1 (spent_grows _ _ _ Hsp Hg)). destruct (flow_transmit fuel tx1 ops r1) as [[[tx2 r2] sent]|]; done.
    + destruct (Hds ds eq_refl) as (k & flow & from & upto & Ek & Hfore & Hft & Eup & Hu & Enonce).
      pose proof (spent_more _ _ _ _ _ _ _ Hok1 Hsp Hg Ek Hfore Hft Eup Hu) as Hsp1. rewrite <- Enonce in Hsp1.
      specialize (IH tx1 _ r1 Hok1 Hsp1). destruct (flow_transmit fuel tx1 ops r1) as [[[tx2 r2] sent]|]; cbn [mbind option_bind]; [|done].
      destruct IH as (Hok2 & Hn & Hout). rewrite fmap_app. pose proof (so_nodup _ _ Hsp1) as (Hn1 & Hd1 & _)%NoDup_app. split_and!; [done| |].
      * apply NoDup_app. split_and!; [done| |done]. intros x Hx Hx'. apply (Hout x Hx'). apply elem_of_app. by left.
      * intros x [Hx|Hx]%elem_of_app Hin; [by apply (Hd1 x)|]. apply (Hout x Hx). apply elem_of_app. by right.
  - destruct (flow_tx_rekey_ok tx key session Hok) as [Hok1 Hg]. apply IH; [done|by eapply spent_grows].
Qed.

(** C22. No number is spent twice.  Whatever frames are encoded, on whatever handles, with whatever rekeys between,
    the sender has at most sixteen flows, and no two datagrams have the same flow identifier and the same
    sequence number, so no nonce is used twice under a key.  It never panics: a run ends early only where
    drawing a new identifier gives none, and then there are fewer than sixteen flows to avoid. *)
Theorem flow_nonces_unique (fuel : nat) (key session : Key) (ops : list FlowOp) (r : R) :
  match flow_transmit fuel (flow_tx_new key session) ops r with
  | Some (tx, _, sent) => NoDup (nonce_of <$> sent) /\ Z.of_nat (size (tx_flows tx)) <= MAX_FLOWS
  | None => exists flows r', Z.of_nat (size (flows : gmap Z TxFlow)) < MAX_FLOWS /\ draw_id fuel flows (r' : R) = None
  end.
Proof.
  pose proof (flow_transmit_spec fuel ops (flow_tx_new key session) [] r (flow_tx_new_ok key session)) as Ht.
  destruct (flow_transmit fuel _ ops r) as [[[tx r'] sent]|]; [|apply Ht; split; [constructor|by intros id n ?%not_elem_of_nil]].
  destruct Ht as (Hok & Hn & _); [split; [constructor|by intros id n ?%not_elem_of_nil]|]. split; [done|by apply flow_tx_bound].
Qed.

End sending.

(** ** The sizes of a session's datagrams *)

Definition session_tx_ok (tx : SessionDatagramTx) : Prop :=
  match tx with LegacyTx _ => True | FlowsTx tx => flow_tx_ok tx end.

Section session_sizes.
Context `{Aead, !AeadLaws} `{Blake3Kdf} {R : Type} `{Rng R} `{!RngLaws R}.

Lemma flow_sizes fuel tx lf frame ceiling (r : R) tx' r' ds : flow_tx_ok tx ->
  flow_encode_frame fuel tx lf frame ceiling r = Some (tx', r', inr ds) ->
  zlen <$> ds = (fun i => Z.min (zlen frame - i * (ceiling - (PREFIX_LEN + FRAGMENT_OVERHEAD))) (ceiling - (PREFIX_LEN + FRAGMENT_OVERHEAD)) +
    (PREFIX_LEN + FRAGMENT_OVERHEAD)) <$> seqZ 0 (div_ceil (zlen frame) (ceiling - (PREFIX_LEN + FRAGMENT_OVERHEAD))).
Proof.
  intros Hok. unfold flow_encode_frame. destruct (is_nil frame || _); [done|]. destruct (_ <? 41); [done|]. destruct (flow_fragment_count _ _); [done|].
  assert (forall tx1 r1, (match tx_flows tx !! lf with Some _ => Some (tx, r) | None => bind_flow fuel tx lf r end) = Some (tx1, r1) ->
    forall flow, tx_flows tx1 !! lf = Some flow -> zlen (flow_id flow) = 16) as Hid.
  { intros tx1 r1 E flow Ef. destruct (tx_flows tx !! lf) as [f|] eqn:El; [injection E as <- <-; by apply (ft_each _ Hok lf)|].
    pose proof (bind_flow_spec fuel tx lf r Hok El) as Hb. rewrite E in Hb. destruct Hb as (flow' & Ef' & Hok1 & _).
    apply (ft_each _ Hok1 lf). by rewrite touch_flows. }
  destruct (match tx_flows tx !! lf with Some _ => _ | None => _ end) as [[tx1 r1]|]; [|done]. cbn [mbind option_bind]. fold (touch tx1 lf).
  rewrite touch_flows. destruct (tx_flows tx1 !! lf) as [flow|] eqn:Ef; [|done]. cbn [mbind option_bind]. specialize (Hid tx1 r1 eq_refl flow Ef).
  destruct (encode_frame (codec flow) frame (ceiling - PREFIX_LEN)) as [c [e|packets]] eqn:E; [done|]. intros [= _ _ <-].
  apply encode_frame_sizes in E.
  assert (payload_room (ceiling - PREFIX_LEN) = ceiling - (PREFIX_LEN + FRAGMENT_OVERHEAD)) as Er by (unfold payload_room, FRAGMENT_OVERHEAD; lia).
  rewrite Er in E. transitivity ((fun n => n + PREFIX_LEN) <$> (zlen <$> packets)).
  - rewrite <- !list_fmap_compose. apply list_fmap_ext. intros i p _. cbn. rewrite !zlen_cons, zlen_app, Hid. unfold PREFIX_LEN. lia.
  - rewrite E, <- list_fmap_compose. apply list_fmap_ext. intros i j _. cbn. lia.
Qed.

(** The sizes of the datagrams of a frame are known before it is encoded.  A frame whose sizes are refused is
    refused by the encoder, with the same error and without a change to its state; a frame that is encoded
    has datagrams of exactly the sizes given, whichever of the two formats the session uses. *)
Theorem wire_sizes_exact (fuel : nat) (tx : SessionDatagramTx) (local_flow : Z) (frame : list byte) (ceiling : Z) (r : R)
    (Htx : session_tx_ok tx) :
  match frame_wire_sizes tx (zlen frame) ceiling with
  | inl e => session_encode_frame fuel tx local_flow frame ceiling r = Some (tx, r, inl e)
  | inr sizes => forall tx' r' ds, session_encode_frame fuel tx local_flow frame ceiling r = Some (tx', r', inr ds) -> zlen <$> ds = sizes
  end.
Proof.
  unfold frame_wire_sizes.
  assert ((zlen frame =? 0) = is_nil frame) as En by (destruct frame; [done|]; apply Z.eqb_neq; unfold zlen; cbn; lia). rewrite En.
  destruct (is_nil frame || (MAX_REALTIME_FRAME <? zlen frame)) eqn:E0.
  { destruct tx as [tx|tx]; cbn [session_encode_frame]; unfold encode_frame, flow_encode_frame; by rewrite E0. }
  destruct tx as [tx|tx]; cbn [session_encode_frame]; cbn zeta.
  - change (0 + FRAGMENT_OVERHEAD) with (FRAGMENT_HEADER_LEN + TAG_LEN). fold (payload_room ceiling).
    destruct (payload_room ceiling <=? 0) eqn:E1; [unfold encode_frame; fold (payload_room ceiling); by rewrite E0, E1|].
    destruct (MAX_FRAGMENTS <? _) eqn:E2; [unfold encode_frame; fold (payload_room ceiling); by rewrite E0, E1, E2|].
    intros tx' r' ds. destruct (encode_frame tx frame ceiling) as [tx1 res] eqn:E. intros [= <- <- ->]. by apply encode_frame_sizes in E.
  - destruct (ceiling - (PREFIX_LEN + FRAGMENT_OVERHEAD) <=? 0) eqn:E1; [|destruct (MAX_FRAGMENTS <? _) eqn:E2].
    3: { intros tx' r' ds. destruct (flow_encode_frame fuel tx local_flow frame ceiling r) as [[[tx1 r1] res]|] eqn:E; [|done].
         cbn [mbind option_bind]. intros [= _ _ ->]. by apply flow_sizes in E. }
    all: unfold flow_encode_frame, flow_fragment_count; rewrite E0.
    all: assert ((ceiling - PREFIX_LEN <? 41) = (ceiling - (PREFIX_LEN + FRAGMENT_OVERHEAD) <=? 0)) as ->
      by (unfold PREFIX_LEN, FRAGMENT_OVERHEAD, FRAGMENT_HEADER_LEN, TAG_LEN; apply eq_true_iff_eq; rewrite Z.ltb_lt, Z.leb_le; lia).
    all: rewrite ?E1, ?En, ?E0, ?E1, ?E2; done.
Qed.

End session_sizes.
