(* ===== verification/DatagramFlowsNet.v ===== *)
(** * What comes out of the flows was sent

    A sender and a receiver of [DatagramFlows] over a network that loses, repeats and reorders.  Each flow
    of the sender is a run of the lane of [DatagramLane], and each flow of the receiver keeps its
    invariant. *)

From S2P Require Import Prelude Crypto CircuitData FrameCodec CircuitReplay Datagram DatagramInv DatagramLane DatagramBurst DatagramFlows.
From S2P Require Import DatagramFlowsInv.
#[local] Open Scope Z_scope.
#[local] Open Scope list_scope.

Section log.
Context `{Aead} `{Blake3Kdf} {R : Type} `{Rng R} `{!RngLaws R}.

Lemma transmit_app tx ops ops' :
  transmit tx (ops ++ ops') =
    ((transmit (transmit tx ops).1 ops').1, (transmit tx ops).2 ++ (transmit (transmit tx ops).1 ops').2).
Proof.
  revert tx. induction ops as [|[frame ceiling|key session] ops IH]; intros tx; cbn [app transmit].
  - cbn. by destruct (transmit tx ops').
  - destruct (encode_frame tx frame ceiling) as [tx1 r]. rewrite IH. destruct (transmit tx1 ops) as [tx2 s]. cbn. by destruct r.
  - by rewrite IH.
Qed.

(** ** The log of a run: what was sent on which flow *)

(** What one encoder call adds to the log. *)
Definition logged (fuel : nat) (tx : FlowDatagramTx) (lf : Z) (frame : list byte) (ceiling : Z) (r : R)
    (res : RealtimeDatagramError + list (list byte)) : list (FlowId * Sent) :=
  match res, (match tx_flows tx !! lf with Some _ => Some (tx, r) | None => bind_flow fuel tx lf r end) with
  | inr ds, Some (bound, _) =>
      match tx_flows bound !! lf with
      | Some flow =>
          [(flow_id flow, mkSent (next_message_id (codec flow)) (next_sequence (codec flow)) frame
             (chunks (payload_room (ceiling - PREFIX_LEN)) frame) (zdrop PREFIX_LEN <$> ds))]
      | None => []
      end
  | _, _ => []
  end.

Fixpoint flow_log (fuel : nat) (tx : FlowDatagramTx) (ops : list FlowOp) (r : R) : list (FlowId * Sent) :=
  match ops with
  | [] => []
  | FlowRekey key session :: ops => flow_log fuel (flow_tx_rekey tx key session) ops r
  | FlowFrame lf frame ceiling :: ops =>
      match flow_encode_frame fuel tx lf frame ceiling r with
      | None => []
      | Some (tx', r', res) => logged fuel tx lf frame ceiling r res ++ flow_log fuel tx' ops r'
      end
  end.

Definition of_flow (id : FlowId) (log : list (FlowId * Sent)) : list Sent := (filter (fun e => e.1 = id) log).*2.

Lemma of_flow_app id l l' : of_flow id (l ++ l') = of_flow id l ++ of_flow id l'.
Proof. unfold of_flow. by rewrite filter_app, fmap_app. Qed.

(** Every flow is a run of the lane, of no more operations than the sender had. *)
Definition lane_of (tx : FlowDatagramTx) (id : FlowId) (sent : list Sent) (n : Z) : Prop :=
  (exists k flow key session ops, tx_flows tx !! k = Some flow /\ flow_id flow = id /\ zlen ops <= n /\
     transmit (tx_new key session) ops = (codec flow, sent)) \/
  ((forall k flow, tx_flows tx !! k = Some flow -> flow_id flow <> id) /\ sent = []).

Lemma lane_of_log tx id sent n : lane_of tx id sent n -> n < M32 - 1 -> log_ok sent.
Proof.
  intros [(k & flow & key & session & ops & _ & _ & Hn & E)|[_ ->]] Hlt.
  - pose proof (transmit_log (tx_new key session) ops ltac:(by split; [|split]) ltac:(lia)) as Hlog. by rewrite E in Hlog.
  - apply (transmit_log (tx_new [] []) []); [by split; [|split]|done].
Qed.

Lemma lane_of_weaken tx id sent n n' : n <= n' -> lane_of tx id sent n -> lane_of tx id sent n'.
Proof. intros Hle [(k & flow & key & session & ops & ? & ? & ? & ?)|?]; [left|by right]. exists k, flow, key, session, ops. split_and!; try done. lia. Qed.

Lemma bind_lanes fuel tx lf (r r' : R) bound id sent n : flow_tx_ok tx -> 0 <= n -> tx_flows tx !! lf = None ->
  bind_flow fuel tx lf r = Some (bound, r') -> lane_of tx id sent n -> lane_of bound id sent n.
Proof.
  intros Hok Hn0 Hlf. unfold bind_flow. destruct (_ <=? _).
  - destruct (reusable tx) as [|oldest rest]; [done|]. destruct (tx_flows tx !! oldest) as [flow|] eqn:Eo; [|done]. cbn [mbind option_bind].
    intros [= <- _] [(k & f & key & session & ops & Ek & Hid & Hn & E)|[Hno ->]].
    + left. destruct (decide (k = oldest)) as [->|Hne].
      * exists lf, f, key, session, ops. cbn. rewrite lookup_insert_eq. split_and!; try done. congruence.
      * exists k, f, key, session, ops. cbn. rewrite lookup_insert_ne, lookup_delete_ne by congruence. done.
    + right. split; [|done]. cbn. intros k f [[<- <-]|[_ [_ Ek]%lookup_delete_Some]]%lookup_insert_Some; by eapply Hno.
  - destruct (draw_id fuel (tx_flows tx) r) as [[nid r1]|] eqn:Ed; [|done]. cbn [mbind option_bind]. apply draw_id_spec in Ed as [_ Hnew].
    intros [= <- _] [(k & f & key & session & ops & Ek & Hid & Hn & E)|[Hno ->]].
    + left. exists k, f, key, session, ops. cbn. rewrite lookup_insert_ne by congruence. done.
    + destruct (decide (nid = id)) as [->|Hne].
      * left. eexists lf, _, (flow_key (ft_key tx) (ft_session tx) id), (ft_session tx), []. cbn. rewrite lookup_insert_eq. split_and!; [done|done|done|done].
      * right. split; [|done]. cbn. intros k f [[<- <-]|[_ Ek]]%lookup_insert_Some; [done|by eapply Hno].
Qed.

(** The lane of a flow after one more operation on it. *)
Lemma encode_lane tx lf flow frame ceiling c res id sent n : flow_tx_ok tx -> tx_flows tx !! lf = Some flow ->
  encode_frame (codec flow) frame ceiling = (c, res) -> lane_of tx id sent n ->
  lane_of (tx <| tx_flows := <[lf := flow <| codec := c |>]> (tx_flows tx) |>) id
    (sent ++ match res with
             | inr ds => if decide (flow_id flow = id) then
                 [mkSent (next_message_id (codec flow)) (next_sequence (codec flow)) frame (chunks (payload_room ceiling) frame) ds] else []
             | inl _ => [] end) (n + 1).
Proof.
  intros Hok Ef E [(k & f & key & session & ops & Ek & Hid & Hn & Et)|[Hno ->]].
  - left. destruct (decide (k = lf)) as [->|Hne].
    + assert (f = flow) as -> by congruence. exists lf, (flow <| codec := c |>), key, session, (ops ++ [SendFrame frame ceiling]). cbn.
      rewrite lookup_insert_eq, zlen_app. split_and!; [done|done|change (zlen [SendFrame frame ceiling]) with 1; lia|].
      rewrite transmit_app, Et. cbn. rewrite E. cbn. destruct res; [done|]. by rewrite decide_True.
    + exists k, f, key, session, ops. cbn. rewrite lookup_insert_ne by done. split_and!; try done; [lia|].
      destruct res; [by rewrite app_nil_r|]. rewrite decide_False, app_nil_r; [done|]. intros Eid. destruct Hne. eapply (ft_ids _ Hok); [done|done|congruence].
  - right. split.
    + cbn. intros k f [[<- <-]|[_ Ek]]%lookup_insert_Some; [exact (Hno lf flow Ef)|exact (Hno k f Ek)].
    + destruct res; [done|]. by rewrite decide_False by exact (Hno lf flow Ef).
Qed.

Lemma rekey_lane tx key session id sent n : lane_of tx id sent n -> lane_of (flow_tx_rekey tx key session) id sent (n + 1).
Proof.
  intros [(k & f & key0 & session0 & ops & Ek & Hid & Hn & E)|[Hno ->]].
  - left. exists k, (f <| codec := tx_rekey (codec f) (flow_key key session (flow_id f)) session |>), key0, session0,
      (ops ++ [SendRekey (flow_key key session (flow_id f)) session]).
    cbn [flow_tx_rekey tx_flows set_field]. rewrite transmit_app, E. cbn. rewrite lookup_fmap, Ek, app_nil_r, zlen_app.
    split_and!; [done|done|change (zlen [_]) with 1; lia|done].
  - right. split; [|done]. cbn. intros k f. rewrite lookup_fmap. intros (g & Eg & ->)%fmap_Some. exact (Hno k g Eg).
Qed.

Lemma touch_lane tx lf id sent n : lane_of tx id sent n -> lane_of (touch tx lf) id sent n.
Proof. unfold lane_of. by rewrite touch_flows. Qed.

Lemma zdrop_prefix id (packets : list (list byte)) : zlen id = 16 ->
  zdrop PREFIX_LEN <$> ((fun packet => FLOW_MAGIC ++ id ++ packet) <$> packets) = packets.
Proof.
  intros Hid. rewrite <- list_fmap_compose. rewrite <- (list_fmap_id packets) at 2. apply list_fmap_ext. intros i p _. unfold compose.
  rewrite app_assoc. apply zdrop_app_len. rewrite zlen_app, Hid. done.
Qed.

Lemma flow_encode_lanes fuel tx lf frame ceiling (r : R) tx' r' res n pre : flow_tx_ok tx -> 0 <= n -> (forall id, lane_of tx id (pre id) n) ->
  flow_encode_frame fuel tx lf frame ceiling r = Some (tx', r', res) ->
  forall id, lane_of tx' id (pre id ++ of_flow id (logged fuel tx lf frame ceiling r res)) (n + 1).
Proof.
  intros Hok Hn Hl. unfold flow_encode_frame.
  assert (forall e, Some (tx, r, inl e) = Some (tx', r', res) -> forall id, lane_of tx' id (pre id ++ of_flow id (logged fuel tx lf frame ceiling r res)) (n + 1)) as Hsame.
  { intros e [= <- <- <-] id. cbn. rewrite app_nil_r. eapply lane_of_weaken; [|apply Hl]. lia. }
  destruct (is_nil frame || _); [by apply Hsame|]. destruct (_ <? 41); [by apply Hsame|]. destruct (flow_fragment_count _ _); [by apply Hsame|].
  clear Hsame. unfold logged.
  assert (forall bound r1, (match tx_flows tx !! lf with Some _ => Some (tx, r) | None => bind_flow fuel tx lf r end) = Some (bound, r1) ->
    flow_tx_ok (touch bound lf) /\ forall id, lane_of (touch bound lf) id (pre id) n) as Hb.
  { intros bound r1. destruct (tx_flows tx !! lf) as [f|] eqn:El.
    - intros [= <- <-]. split; [apply touch_ok; [done|by rewrite El]|]. intros id. by apply touch_lane.
    - intros Eb. pose proof (bind_flow_spec fuel tx lf r Hok El) as Hs. rewrite Eb in Hs. destruct Hs as (flow & _ & Hok1 & _).
      split; [done|]. intros id. apply touch_lane. exact (bind_lanes fuel tx lf r r1 bound id (pre id) n Hok Hn El Eb (Hl id)). }
  destruct (match tx_flows tx !! lf with Some _ => _ | None => _ end) as [[bound r1]|]; [|done]. cbn [mbind option_bind].
  destruct (Hb bound r1 eq_refl) as [Hok1 Hl1]. fold (touch bound lf). rewrite touch_flows. destruct (tx_flows bound !! lf) as [flow|] eqn:Ef; [|done].
  cbn [mbind option_bind]. destruct (encode_frame (codec flow) frame (ceiling - PREFIX_LEN)) as [c result] eqn:E. intros [= <- <- <-] id.
  assert (tx_flows (touch bound lf) !! lf = Some flow) as Ef' by (by rewrite touch_flows).
  pose proof (encode_lane _ _ _ _ _ _ _ id _ _ Hok1 Ef' E (Hl1 id)) as Hlane. rewrite touch_flows in Hlane.
  destruct result as [e|packets]; [exact Hlane|]. destruct (ft_each _ Hok1 _ _ Ef') as [Hlen _].
  change (fun packet : list byte => _) with (fun packet => FLOW_MAGIC ++ flow_id flow ++ packet). rewrite zdrop_prefix by done.
  unfold of_flow. rewrite filter_cons, filter_nil. cbn [fst snd]. by case_decide.
Qed.

Lemma flow_log_lanes fuel ops : forall tx (r : R) n (pre : FlowId -> list Sent), flow_tx_ok tx -> 0 <= n ->
  (forall id, lane_of tx id (pre id) n) -> n + zlen ops < M32 - 1 -> forall id, log_ok (pre id ++ of_flow id (flow_log fuel tx ops r)).
Proof.
  induction ops as [|[lf frame ceiling|key session] ops IH]; intros tx r n pre Hok Hn Hl Hlt id; cbn [flow_log].
  - cbn. rewrite app_nil_r. eapply lane_of_log; [apply Hl|]. rewrite zlen_nil in Hlt. lia.
  - rewrite zlen_cons in Hlt. pose proof (zlen_nonneg ops) as Hz.
    assert (log_ok (pre id ++ [])) as Hend by (rewrite app_nil_r; eapply lane_of_log; [apply Hl|lia]).
    pose proof (flow_encode_spec fuel tx lf frame ceiling r Hok) as Hspec.
    destruct (flow_encode_frame fuel tx lf frame ceiling r) as [[[tx' r'] res]|] eqn:E; [|exact Hend]. destruct Hspec as (Hok' & _ & _).
    fold (logged fuel tx lf frame ceiling r res). rewrite of_flow_app, app_assoc.
    apply (IH tx' r' (n + 1) (fun id => pre id ++ of_flow id (logged fuel tx lf frame ceiling r res)) Hok'); [lia| |lia].
    by eapply flow_encode_lanes.
  - rewrite zlen_cons in Hlt. destruct (flow_tx_rekey_ok tx key session Hok) as [Hok' _]. apply (IH _ _ (n + 1) pre Hok'); [lia| |lia].
    intros id'. by apply rekey_lane.
Qed.

(** The datagrams of a log are those the sender put on the wire. *)
Definition on_wire (e : FlowId * Sent) : list (list byte) := (fun packet => FLOW_MAGIC ++ e.1 ++ packet) <$> sent_datagrams e.2.

Lemma logged_wire fuel tx lf frame ceiling (r : R) tx' r' ds : flow_tx_ok tx -> flow_encode_frame fuel tx lf frame ceiling r = Some (tx', r', inr ds) ->
  concat (on_wire <$> logged fuel tx lf frame ceiling r (inr ds)) = ds.
Proof.
  intros Hok E. pose proof (flow_encode_spec fuel tx lf frame ceiling r Hok) as Hspec. rewrite E in Hspec. destruct Hspec as (Hok' & _ & _).
  revert E. unfold flow_encode_frame, logged. destruct (_ || _); [done|]. destruct (_ <? 41); [done|]. destruct (flow_fragment_count _ _); [done|].
  destruct (match tx_flows tx !! lf with Some _ => _ | None => _ end) as [[bound r1]|]; [|done]. cbn [mbind option_bind].
  fold (touch bound lf). rewrite touch_flows. destruct (tx_flows bound !! lf) as [flow|] eqn:Ef; [|done]. cbn [mbind option_bind].
  destruct (encode_frame (codec flow) frame (ceiling - PREFIX_LEN)) as [c [e|packets]]; [done|]. intros [= <- <- <-].
  destruct (ft_each _ Hok' lf (flow <| codec := c |>)) as [Hlen _]; [by cbn; rewrite lookup_insert_eq|]. cbn in Hlen.
  cbn [fmap list_fmap concat]. unfold on_wire. cbn [fst snd sent_datagrams]. rewrite app_nil_r.
  f_equal. by apply zdrop_prefix.
Qed.

Lemma flow_log_wire fuel ops : forall tx (r : R) tx' r' sent, flow_tx_ok tx -> flow_transmit fuel tx ops r = Some (tx', r', sent) ->
  concat (on_wire <$> flow_log fuel tx ops r) = sent.
Proof.
  induction ops as [|[lf frame ceiling|key session] ops IH]; intros tx r tx' r' sent Hok; cbn [flow_transmit flow_log].
  - by intros [= _ _ <-].
  - pose proof (flow_encode_spec fuel tx lf frame ceiling r Hok) as Hspec.
    destruct (flow_encode_frame fuel tx lf frame ceiling r) as [[[tx1 r1] res]|] eqn:E; [|done]. destruct Hspec as (Hok1 & _ & _).
    cbn [mbind option_bind]. destruct (flow_transmit fuel tx1 ops r1) as [[[tx2 r2] sent2]|] eqn:E2; [|done]. cbn [mbind option_bind].
    intros [= _ _ <-]. rewrite fmap_app, concat_app, (IH _ _ _ _ _ Hok1 E2). destruct res as [e|ds]; [done|]. by rewrite (logged_wire _ _ _ _ _ _ _ _ _ Hok E).
  - intros E. destruct (flow_tx_rekey_ok tx key session Hok) as [Hok' _]. by eapply IH.
Qed.

End log.

(** ** Runs of the receiver *)

Inductive FlowEvent :=
| FlowArrive (packet : list byte) (now : Z)
| FlowRekeyRx (key session : Key) (now : Z).

Definition packet_flow (packet : list byte) : FlowId := range 4 PREFIX_LEN packet.

Lemma prune_lane_ok hash_order (hash_order_perm : forall l, hash_order l ≡ₚ l) rx now : rx_ok rx -> rx_ok (prune hash_order rx now).
Proof. intros Hok. rewrite prune_keeping by done. apply keeping_ok; [done|]. apply map_filter_subseteq. Qed.

Section flows.
Context (hash_order : list (Z * Assembly) -> list (Z * Assembly)).
Context (hash_order_perm : forall l, hash_order l ≡ₚ l).
Context `{Aead} `{Blake3Kdf}.

(** The frames that come out, each with the flow it came from. *)
Fixpoint flow_run (rx : FlowDatagramRx) (es : list FlowEvent) : option (FlowDatagramRx * list (FlowId * list byte)) :=
  match es with
  | [] => Some (rx, [])
  | FlowRekeyRx key session now :: es => flow_run (flow_rx_rekey rx key session now) es
  | FlowArrive d now :: es =>
      '(rx, r) ← flow_decode_datagram hash_order rx d now;
      '(rx, outs) ← flow_run rx es;
      Some (rx, match r with inr (Some frame) => (packet_flow d, frame) :: outs | _ => outs end)
  end.

(** The limits of a lane are the share of one flow. *)
Definition shared (lane : RealtimeDatagramRx) : Prop :=
  max_assemblies lane = MAX_ASSEMBLIES / MAX_FLOWS /\ max_assembly_bytes lane = MAX_ASSEMBLY_BYTES / MAX_FLOWS.

Lemma takes_limits rx h p now rx' r : takes rx h p now rx' r ->
  max_assemblies rx' = max_assemblies rx /\ max_assembly_bytes rx' = max_assembly_bytes rx.
Proof.
  intros Ht. destruct Ht as [|rx' Had|rx1 a rx2 r _ Had _ _ _ Hst]; [done|by destruct Had|].
  assert (max_assemblies rx1 = max_assemblies rx /\ max_assembly_bytes rx1 = max_assembly_bytes rx) as [<- <-] by (by destruct Had). by destruct Hst.
Qed.

Lemma decode_shared lane d now lane' r : rx_ok lane -> shared lane -> decode_datagram hash_order lane d now = Some (lane', r) -> rx_ok lane' /\ shared lane'.
Proof.
  intros Hok Hs E. destruct (decode_datagram_spec hash_order hash_order_perm lane d now Hok) as (rx' & r' & E' & Hd & Hok').
  rewrite E in E'. injection E' as <- <-. split; [done|]. destruct Hd as [e prev _|h p key prev rx' r' _ _ _ _ _ Ht]; [done|].
  apply takes_limits in Ht as [E1 E2]. unfold shared. by rewrite E1, E2.
Qed.

Record flow_rx_ok (rx : FlowDatagramRx) : Prop := {
  fx_size : Z.of_nat (size (rx_flows rx)) <= MAX_FLOWS;
  fx_each : map_Forall (fun _ lane => rx_ok lane /\ shared lane) (rx_flows rx)
}.

Lemma fresh_receiver_ok rx id : rx_ok (fresh_receiver rx id) /\ shared (fresh_receiver rx id).
Proof. unfold fresh_receiver. destruct (fr_previous rx); (split; [|done]); try apply rx_rekey_ok; apply rx_with_limits_ok. Qed.

(** The state a datagram is read in: every lane pruned, a retired key past its grace gone. *)
Definition aged (rx : FlowDatagramRx) (now : Z) : FlowDatagramRx :=
  let rx := rx <| rx_flows := (fun lane => prune hash_order lane now) <$> rx_flows rx |> in
  if is_some_and (fr_previous rx) (fun old => REALTIME_REKEY_GRACE <=? sat_sub now (rotated_at old)) then rx <| fr_previous := None |> else rx.

Lemma aged_flows rx now : rx_flows (aged rx now) = (fun lane => prune hash_order lane now) <$> rx_flows rx.
Proof. unfold aged. by destruct (is_some_and _ _). Qed.

Lemma aged_ok rx now : flow_rx_ok rx -> flow_rx_ok (aged rx now).
Proof.
  intros [Hs He]. split; rewrite aged_flows; [by rewrite map_size_fmap|]. intros id lane. rewrite lookup_fmap. intros (g & Eg & ->)%fmap_Some.
  destruct (He id g Eg) as [Hok Hsh]. split; [by apply prune_lane_ok|]. by rewrite prune_keeping.
Qed.

(** What [flow_decode_datagram] may do to an aged receiver. *)
Inductive flow_decodes (rx : FlowDatagramRx) (d : list byte) (now : Z) : FlowDatagramRx -> RealtimeDatagramError + option (list byte) -> Prop :=
| flow_refuses e : flow_decodes rx d now rx (inl e)
| flow_known lane lane' r : rx_flows rx !! packet_flow d = Some lane -> decode_datagram hash_order lane (zdrop PREFIX_LEN d) now = Some (lane', r) ->
    flow_decodes rx d now (rx <| rx_flows := <[packet_flow d := lane']> (rx_flows rx) |>) r
| flow_opens lane' frame : rx_flows rx !! packet_flow d = None -> Z.of_nat (size (rx_flows rx)) < MAX_FLOWS ->
    decode_datagram hash_order (fresh_receiver rx (packet_flow d)) (zdrop PREFIX_LEN d) now = Some (lane', inr frame) ->
    flow_decodes rx d now (rx <| rx_flows := <[packet_flow d := lane']> (rx_flows rx) |>) (inr frame).

Lemma flow_decode_spec rx d now : flow_rx_ok rx ->
  exists rx' r, flow_decode_datagram hash_order rx d now = Some (rx', r) /\ flow_decodes (aged rx now) d now rx' r /\ flow_rx_ok rx'.
Proof.
  intros Hok%(aged_ok rx now). unfold flow_decode_datagram. cbn zeta. fold (aged rx now). fold (packet_flow d).
  set (rx0 := aged rx now) in *. clearbody rx0.
  destruct (_ || _); [by eexists _, _; split_and!; [|constructor|]|]. case_bool_decide; [by eexists _, _; split_and!; [|constructor|]|].
  destruct Hok as [Hsize Heach]. destruct (rx_flows rx0 !! packet_flow d) as [lane|] eqn:El.
  - destruct (Heach _ _ El) as [Hl Hsh]. destruct (decode_datagram_spec hash_order hash_order_perm lane (zdrop PREFIX_LEN d) now Hl) as (lane' & r & E & _).
    pose proof (decode_shared _ _ _ _ _ Hl Hsh E) as Hl'. rewrite E. cbn [mbind option_bind]. eexists _, _. split_and!; [done|by econstructor|].
    split; cbn; [by rewrite map_size_insert_Some|]. by apply map_Forall_insert_2.
  - destruct (MAX_FLOWS <=? _) eqn:Em; [by eexists _, _; split_and!; [|constructor|]|]. apply Z.leb_gt in Em.
    destruct (fresh_receiver_ok rx0 (packet_flow d)) as [Hl Hsh].
    destruct (decode_datagram_spec hash_order hash_order_perm _ (zdrop PREFIX_LEN d) now Hl) as (lane' & r & E & _).
    pose proof (decode_shared _ _ _ _ _ Hl Hsh E) as Hl'. rewrite E. cbn [mbind option_bind].
    destruct r as [e|frame]; [by eexists _, _; split_and!; [|constructor|]|]. eexists _, _. split_and!; [done|by econstructor|].
    split; cbn; [rewrite map_size_insert_None by done; lia|]. by apply map_Forall_insert_2.
Qed.

Lemma flow_rx_rekey_ok rx key session now : flow_rx_ok rx -> flow_rx_ok (flow_rx_rekey rx key session now).
Proof.
  intros [Hs He]. split; cbn.
  - rewrite <- size_dom. etrans; [|exact Hs]. rewrite <- size_dom. apply inj_le, subseteq_size, dom_imap_subseteq.
  - intros id lane. rewrite map_lookup_imap. destruct (rx_flows rx !! id) as [g|] eqn:E; [|done]. cbn. intros [= <-].
    destruct (He id g E). split; [by apply rx_rekey_ok|done].
Qed.

Lemma flow_run_ok rx es : flow_rx_ok rx -> exists rx' outs, flow_run rx es = Some (rx', outs) /\ flow_rx_ok rx'.
Proof.
  revert rx. induction es as [|[d now|key session now] es IH]; intros rx Hok; cbn [flow_run].
  - by exists rx, [].
  - destruct (flow_decode_spec rx d now Hok) as (rx1 & r & -> & _ & Hok1). cbn [mbind option_bind].
    destruct (IH rx1 Hok1) as (rx2 & outs & -> & Hok2). cbn [mbind option_bind]. by eexists _, _.
  - by apply IH, flow_rx_rekey_ok.
Qed.

Lemma flow_rx_new_ok key session : flow_rx_ok (flow_rx_new key session).
Proof. by split. Qed.

(** C23. Whatever arrives, with whatever rekeys between, no datagram makes the receiver of the flows panic or loop.
    It never has more than sixteen flows, and none of them keeps more than a sixteenth of the frames and
    bytes that one session may keep. *)
Theorem flows_robust (key session : Key) (es : list FlowEvent) :
  exists rx outs, flow_run (flow_rx_new key session) es = Some (rx, outs) /\ Z.of_nat (size (rx_flows rx)) <= MAX_FLOWS /\
    map_Forall (fun _ lane => MAX_FLOWS * Z.of_nat (size (assemblies lane)) <= MAX_ASSEMBLIES /\
      MAX_FLOWS * stored_sum (assemblies lane) <= MAX_ASSEMBLY_BYTES) (rx_flows rx).
Proof.
  destruct (flow_run_ok (flow_rx_new key session) es (flow_rx_new_ok key session)) as (rx & outs & E & [Hs He]).
  exists rx, outs. split_and!; [done|done|]. intros id lane El. destruct (He id lane El) as [[] [E1 E2]].
  change (MAX_ASSEMBLIES / MAX_FLOWS) with 4 in E1. change (MAX_ASSEMBLY_BYTES / MAX_FLOWS) with 32768 in E2.
  unfold MAX_FLOWS, MAX_ASSEMBLIES, MAX_ASSEMBLY_BYTES in *. lia.
Qed.

(** ** What comes out of a flow was sent on it *)

(** The key of a flow under the keys of a session. *)
Definition lane_key (id : FlowId) (m : Key * Key) : Key := derive_key (flow_key m.1 m.2 id) m.2.

(** The keys of the session that a run has. *)
Fixpoint masters (es : list FlowEvent) : list (Key * Key) :=
  match es with
  | [] => []
  | FlowRekeyRx key session _ :: es => (key, session) :: masters es
  | FlowArrive _ _ :: es => masters es
  end.

Section integrity.
Context (log : list (FlowId * Sent)) (Hlog : forall id, log_ok (of_flow id log)) (ms : list (Key * Key)).

Definition flow_inv (id : FlowId) (lane : option RealtimeDatagramRx) (D : list Sent) : Prop :=
  match lane with
  | Some lane => (exists A, lane_inv (of_flow id log) lane A D) /\ held_keys lane ⊆ lane_key id <$> ms
  | None => D = []
  end.

Record flows_inv (rx : FlowDatagramRx) (D : list (FlowId * Sent)) : Prop := {
  fi_ok : flow_rx_ok rx;
  fi_now : (fr_key rx, fr_session rx) ∈ ms;
  fi_old old : fr_previous rx = Some old -> (rk_key old, rk_session old) ∈ ms;
  fi_each id : flow_inv id (rx_flows rx !! id) (of_flow id D)
}.

Lemma lane_inv_prune sent rx A D now : lane_inv sent rx A D -> lane_inv sent (prune hash_order rx now) A D.
Proof.
  intros [Hok Hw Ha Hd Hn]. rewrite prune_keeping by done.
  assert (filter (fun e => fresh_at now e.2) (assemblies rx) ⊆ assemblies rx) as Hsub by apply map_filter_subseteq.
  split; try done; [by apply keeping_ok|]. intros id a E. eapply Ha, lookup_weaken; done.
Qed.

Lemma lane_inv_new sent raw session n b : lane_inv sent (rx_with_limits raw session n b) [] [].
Proof. split; [apply rx_with_limits_ok|apply window_tracks_new|done|by intros s ?%not_elem_of_nil|constructor]. Qed.

Lemma lane_inv_rekey sent rx A D key session now : lane_inv sent rx A D -> lane_inv sent (rx_rekey rx key session now) A D.
Proof. intros [Hok Hw Ha Hd Hn]. split; try done. by apply rx_rekey_ok. Qed.

Lemma aged_inv rx D now : flows_inv rx D -> flows_inv (aged rx now) D.
Proof.
  intros [Hok Hn Ho He]. split; [by apply aged_ok| | |].
  - unfold aged. by destruct (is_some_and _ _).
  - intros old. unfold aged. destruct (is_some_and _ _); [done|]. apply Ho.
  - intros id. rewrite aged_flows, lookup_fmap. specialize (He id). destruct (rx_flows rx !! id) as [lane|] eqn:El; [|done].
    destruct He as [[A Hinv] Hk]. split; [exists A; by apply lane_inv_prune|]. rewrite prune_keeping; [done|done|exact (li_ok _ _ _ _ Hinv)].
Qed.

Lemma fresh_inv rx id D : flows_inv rx D -> flow_inv id (Some (fresh_receiver rx id)) [].
Proof.
  intros [_ Hn Ho _]. unfold fresh_receiver. destruct (fr_previous rx) as [old|]; (split; [exists []|]).
  - apply lane_inv_rekey, lane_inv_new.
  - intros k [->|[->|[]%not_elem_of_nil]%elem_of_cons]%elem_of_cons; apply list_elem_of_fmap.
    + by exists (fr_key rx, fr_session rx).
    + exists (rk_key old, rk_session old). split; [done|by apply Ho].
  - apply lane_inv_new.
  - intros k ->%list_elem_of_singleton. apply list_elem_of_fmap. by exists (fr_key rx, fr_session rx).
Qed.

(** One lane decodes one datagram. *)
Lemma flow_inv_decode id lane D d now lane' r : flow_inv id (Some lane) D -> authentic (lane_key id <$> ms) (of_flow id log) d ->
  decode_datagram hash_order lane d now = Some (lane', r) ->
  exists D', flow_inv id (Some lane') D' /\ match r with inr (Some f) => exists s, f = sent_frame s /\ D' = s :: D | _ => D' = D end.
Proof.
  intros [[A Hinv] Hk] Hauth E. destruct (lane_decode_inv hash_order hash_order_perm _ _ lane A D d now (Hlog id) Hinv Hk Hauth)
    as (lane1 & r1 & A' & D' & E1 & Hinv' & Hk' & Hr). rewrite E in E1. injection E1 as <- <-. exists D'. split; [|done]. split; [by exists A'|done].
Qed.

Lemma flow_decode_inv rx D d now : flows_inv rx D ->
  authentic (lane_key (packet_flow d) <$> ms) (of_flow (packet_flow d) log) (zdrop PREFIX_LEN d) ->
  exists rx' r D', flow_decode_datagram hash_order rx d now = Some (rx', r) /\ flows_inv rx' D' /\
    match r with inr (Some f) => exists s, f = sent_frame s /\ D' = (packet_flow d, s) :: D | _ => D' = D end.
Proof.
  intros Hinv Hauth. destruct (flow_decode_spec rx d now (fi_ok _ _ Hinv)) as (rx' & r & -> & Hd & Hok').
  apply (aged_inv _ _ now) in Hinv. set (rx0 := aged rx now) in *. clearbody rx0.
  assert (forall lane lane' r0, flow_inv (packet_flow d) (Some lane) (of_flow (packet_flow d) D) ->
    decode_datagram hash_order lane (zdrop PREFIX_LEN d) now = Some (lane', r0) ->
    flow_rx_ok (rx0 <| rx_flows := <[packet_flow d := lane']> (rx_flows rx0) |>) ->
    exists rx' r D', Some (rx0 <| rx_flows := <[packet_flow d := lane']> (rx_flows rx0) |>, r0) = Some (rx', r) /\ flows_inv rx' D' /\
      match r with inr (Some f) => exists s, f = sent_frame s /\ D' = (packet_flow d, s) :: D | _ => D' = D end) as Hstep.
  { intros lane lane' r0 Hl E Hok. destruct (flow_inv_decode _ _ _ _ _ _ _ Hl Hauth E) as (D1 & Hl' & Hr).
    destruct Hinv as [_ Hn Ho He].
    assert (forall D', of_flow (packet_flow d) D' = D1 -> (forall id, id <> packet_flow d -> of_flow id D' = of_flow id D) ->
      flows_inv (rx0 <| rx_flows := <[packet_flow d := lane']> (rx_flows rx0) |>) D') as Hmk.
    { intros D' E1 E2. split; try done. intros id. cbn. destruct (decide (id = packet_flow d)) as [->|Hne].
      - by rewrite lookup_insert_eq, E1.
      - rewrite lookup_insert_ne, E2 by congruence. apply He. }
    destruct r0 as [e|[f|]]; [|destruct Hr as (s & -> & ->)|].
    2: { eexists _, _, _. split_and!; [done|apply (Hmk ((packet_flow d, s) :: D))|by exists s].
      - unfold of_flow. by rewrite filter_cons_True.
      - intros id Hne. unfold of_flow. by rewrite filter_cons_False by (cbn; congruence). }
    all: eexists _, _, _; split_and!; [done|by apply Hmk|done]. }
  destruct Hd as [e|lane lane' r El E|lane' frame El _ E].
  - by eexists _, _, D.
  - eapply Hstep; [|done|done]. pose proof (fi_each _ _ Hinv (packet_flow d)) as Hf. by rewrite El in Hf.
  - eapply Hstep; [|done|done]. pose proof (fi_each _ _ Hinv (packet_flow d)) as Hf. rewrite El in Hf. rewrite Hf. by eapply fresh_inv.
Qed.

Lemma flow_rekey_inv rx D key session now : (key, session) ∈ ms -> flows_inv rx D -> flows_inv (flow_rx_rekey rx key session now) D.
Proof.
  intros Hin [Hok Hn Ho He]. split; [by apply flow_rx_rekey_ok|done|by intros old [= <-]|].
  intros id. cbn. rewrite map_lookup_imap. specialize (He id). destruct (rx_flows rx !! id) as [lane|]; [|done]. destruct He as [[A Hinv] Hk].
  split; [exists A; by apply lane_inv_rekey|]. intros k [->|[->|[]%not_elem_of_nil]%elem_of_cons]%elem_of_cons.
  - apply list_elem_of_fmap. by exists (key, session).
  - apply Hk. by left.
Qed.

Lemma flow_run_inv es : forall rx D, flows_inv rx D -> masters es ⊆ ms ->
  (forall d now, FlowArrive d now ∈ es -> authentic (lane_key (packet_flow d) <$> ms) (of_flow (packet_flow d) log) (zdrop PREFIX_LEN d)) ->
  exists rx' outs, flow_run rx es = Some (rx', prod_map id sent_frame <$> outs) /\ flows_inv rx' (reverse outs ++ D).
Proof.
  induction es as [|[d now|key session now] es IH]; intros rx D Hinv Hms Hauth; cbn [flow_run].
  - by exists rx, [].
  - destruct (flow_decode_inv rx D d now Hinv) as (rx1 & r & D1 & -> & Hinv1 & Hr); [apply (Hauth d now); by left|].
    cbn [mbind option_bind]. destruct (IH rx1 D1 Hinv1 Hms) as (rx2 & outs & -> & Hinv2); [intros d' now' Hin; apply (Hauth d' now'); by right|].
    cbn [mbind option_bind]. destruct r as [e|[f|]]; try (subst D1; by exists rx2, outs).
    destruct Hr as (s & -> & ->). exists rx2, ((packet_flow d, s) :: outs). split; [done|]. by rewrite reverse_cons, <- app_assoc.
  - apply IH; [apply flow_rekey_inv; [apply Hms; by left|done]|intros k Hin; apply Hms; by right|].
    intros d' now' Hin. apply (Hauth d' now'). by right.
Qed.

Lemma flows_inv_sent rx D : flows_inv rx D -> NoDup D /\ D ⊆ log.
Proof.
  intros [_ _ _ He].
  assert (forall id, NoDup (of_flow id D) /\ of_flow id D ⊆ of_flow id log) as Hid.
  { intros id. specialize (He id). destruct (rx_flows rx !! id) as [lane|]; cbn in He.
    - destruct He as [[A [_ _ _ Hd Hn]] _]. split; [done|]. intros s Hs. by apply Hd.
    - rewrite He. split; [constructor|]. by intros s ?%not_elem_of_nil. }
  assert (forall id s l, (id, s) ∈ l <-> s ∈ of_flow id l) as Hof.
  { intros id s l. unfold of_flow. rewrite list_elem_of_fmap. setoid_rewrite list_elem_of_filter. split; [by exists (id, s)|].
    by intros ([? ?] & -> & <- & ?). }
  split; [|intros [id s]; rewrite !Hof; apply Hid].
  assert (forall id, NoDup (of_flow id D)) as Hn by apply Hid. clear -Hn Hof. induction D as [|[id s] D IH]; constructor.
  - intros Hin%Hof. specialize (Hn id). unfold of_flow in Hn. rewrite filter_cons_True in Hn by done. by apply NoDup_cons in Hn as [? _].
  - apply IH. intros id'. specialize (Hn id'). unfold of_flow in *. rewrite filter_cons in Hn. case_decide; [|done]. by apply NoDup_cons in Hn as [_ ?].
Qed.

End integrity.

Context {R : Type} `{Rng R} `{!RngLaws R}.

(** C10. What comes out of a flow was sent on it.  The sender encodes any frames on any local handles, with rekeys
    and with handles that take over the flow of another; the network loses, repeats, reorders and delays
    the datagrams of all flows and adds others that do not authenticate.  Every frame the receiver gives
    out is one that was sent on that flow, unchanged, and no frame comes out twice. *)
Theorem flows_integrity (fuel : nat) (key session key' session' : Key) (ops : list FlowOp) (r : R) (es : list FlowEvent)
    (Hops : zlen ops < M32 - 1)
    (Hauth : forall d now, FlowArrive d now ∈ es ->
       authentic (lane_key (packet_flow d) <$> (key', session') :: masters es)
         (of_flow (packet_flow d) (flow_log fuel (flow_tx_new key session) ops r)) (zdrop PREFIX_LEN d)) :
  exists rx delivered, flow_run (flow_rx_new key' session') es = Some (rx, prod_map id sent_frame <$> delivered) /\
    NoDup delivered /\ delivered ⊆ flow_log fuel (flow_tx_new key session) ops r.
Proof.
  set (log := flow_log fuel (flow_tx_new key session) ops r) in *.
  assert (forall id, log_ok (of_flow id log)) as Hlog.
  { apply (flow_log_lanes fuel ops (flow_tx_new key session) r 0 (fun _ => [])); [apply flow_tx_new_ok|done| |lia].
    intros id. right. split; [|done]. intros k f. cbn. by rewrite lookup_empty. }
  destruct (flow_run_inv log Hlog ((key', session') :: masters es) es (flow_rx_new key' session') []) as (rx & outs & E & Hinv);
    [|by right|done|].
  - split; [apply flow_rx_new_ok|by left|done|]. intros id. cbn. by rewrite lookup_empty.
  - exists rx, outs. rewrite app_nil_r in Hinv. apply flows_inv_sent in Hinv as [Hn Hs].
    split_and!; [done|by rewrite reverse_Permutation in Hn|]. intros x Hx. apply Hs. by rewrite reverse_Permutation.
Qed.

End flows.

Module Demo.
Import Toy.
#[local] Existing Instances aead_toy aead_toy_laws aead_toy_total blake3_kdf_toy blake3_kdf_toy_laws rng_toy rng_toy_laws.

Definition raw : Key := repeat x01 32.
Definition session : Key := repeat x02 32.
(** Two flows of the node, a rekey, and a frame in two pieces. *)
Definition ops : list FlowOp := [FlowFrame 7 [x68; x69] 61; FlowRekey session raw; FlowFrame 0 [x21] 61].

#[global] Instance FragmentHeader_eq_dec : EqDecision FragmentHeader.
Proof. solve_decision. Defined.

(** [authentic], as a check. *)
Definition authentic_check (keys : list Key) (sent : list Sent) (d : list byte) : bool :=
  match fragment_decode d with
  | inl _ => true
  | inr h =>
      forallb (fun key =>
        match aead_open key (nonce_for (sequence h)) (ztake FRAGMENT_HEADER_LEN d) (zdrop FRAGMENT_HEADER_LEN d) with
        | None => true
        | Some p => existsb (fun s => bool_decide ((h, p) ∈ sent_fragments s)) sent
        end) keys
  end.

Lemma authentic_checked keys sent d : authentic_check keys sent d = true -> authentic keys sent d.
Proof.
  unfold authentic_check. intros Hc key h p Hk Eh Eo. rewrite Eh, forallb_forall in Hc. specialize (Hc key (proj1 (list_elem_of_In _ _) Hk)).
  rewrite Eo in Hc. apply existsb_exists in Hc as (s & Hs%list_elem_of_In & Hin%bool_decide_eq_true). by exists s.
Qed.

Definition sent : list (list byte) :=
  Eval vm_compute in match flow_transmit 4 (flow_tx_new raw session) ops 1 with Some (_, _, ds) => ds | None => [] end.
Definition log : list (FlowId * Sent) := Eval vm_compute in flow_log 4 (flow_tx_new raw session) ops 1.

Lemma log_is : flow_log 4 (flow_tx_new raw session) ops 1 = log.
Proof. vm_compute. reflexivity. Qed.
(** The rekey of the receiver comes first, and a datagram of a flow nobody has comes last. *)
Definition arrivals : list FlowEvent :=
  FlowRekeyRx session raw 3 :: ((fun d => FlowArrive d 7) <$> reverse sent ++ [FLOW_MAGIC ++ repeat x09 60]).

Lemma flow_nonces_unique_witness :
  match flow_transmit 4 (flow_tx_new raw session) ops 1 with
  | Some (tx, _, sent) => NoDup (nonce_of <$> sent) /\ Z.of_nat (size (tx_flows tx)) <= MAX_FLOWS
  | None => exists flows r', Z.of_nat (size (flows : gmap Z TxFlow)) < MAX_FLOWS /\ draw_id 4 flows (r' : Z) = None
  end.
Proof. exact (flow_nonces_unique 4 raw session ops 1). Defined.

Lemma flows_robust_witness :
  exists rx outs, flow_run (fun l => l) (flow_rx_new raw session) arrivals = Some (rx, outs) /\ Z.of_nat (size (rx_flows rx)) <= MAX_FLOWS /\
    map_Forall (fun _ lane => MAX_FLOWS * Z.of_nat (size (assemblies lane)) <= MAX_ASSEMBLIES /\
      MAX_FLOWS * stored_sum (assemblies lane) <= MAX_ASSEMBLY_BYTES) (rx_flows rx).
Proof. exact (flows_robust (fun l => l) (fun l => reflexivity l) raw session arrivals). Defined.

Lemma wire_sizes_exact_witness : session_encode_frame 4 (FlowsTx (flow_tx_new raw session)) 7 [x68; x65] 60 1 =
  Some (FlowsTx (flow_tx_new raw session), 1, inl (DatagramTooSmall 60)).
Proof. exact (wire_sizes_exact 4 (FlowsTx (flow_tx_new raw session)) 7 [x68; x65] 60 1 (flow_tx_new_ok raw session)). Defined.

Lemma flows_integrity_witness :
  exists rx delivered, flow_run (fun l => l) (flow_rx_new raw session) arrivals = Some (rx, prod_map id sent_frame <$> delivered) /\
    NoDup delivered /\ delivered ⊆ flow_log 4 (flow_tx_new raw session) ops 1.
Proof.
  refine (flows_integrity (fun l => l) (fun l => reflexivity l) 4 raw session raw session ops 1 arrivals _ _).
  - vm_compute. done.
  - intros d now Hd. apply authentic_checked.
    rewrite log_is. assert (forallb (fun d => authentic_check (lane_key (packet_flow d) <$> (raw, session) :: masters arrivals)
      (of_flow (packet_flow d) log) (zdrop PREFIX_LEN d))
      (reverse sent ++ [FLOW_MAGIC ++ repeat x09 60]) = true) as Hall by (vm_compute; reflexivity).
    rewrite forallb_forall in Hall. apply Hall. apply list_elem_of_In. apply elem_of_cons in Hd as [Hd|Hd]; [discriminate Hd|].
    apply list_elem_of_fmap in Hd as (d' & [= -> ->] & Hin). exact Hin.
Defined.

End Demo.
