(* ===== verification/LossyWork.v ===== *)
(** * Lossy work items

    crates/veil-types/src/local_lossy_work.rs: a frame that a node sends in several cells is one work
    item, whose cells are paid for together or not at all and are released over a span of time.  The
    cells share the item; its decision is a field here and the mutex around it is not modelled, since
    every operation takes it for its whole duration.  [reserve] and [wire_cost] are the caller's
    closures.  Instants are in nanoseconds; [None] is a panic. *)

From S2P Require Import Prelude Float.
#[local] Open Scope Z_scope.
#[local] Open Scope list_scope.

Definition MAX_CELLS : Z := 512.
Definition MAX_SEALED_BYTES : Z := 512 * 1024 + MAX_CELLS * 64.
Definition MAX_PACING_SPAN : Z := NANOS / 10.

Record WorkCostKey := mkCostKey { cost_carrier : Z; cost_ceiling : Z; cost_format : Z }.

#[export] Instance WorkCostKey_eq_dec : EqDecision WorkCostKey.
Proof. solve_decision. Defined.

Inductive WorkDecision :=
| DecisionPending
| DecisionAdmitted (owner overhead : Z) (cost_key : option WorkCostKey) (admission_prefix : list Z) (admitted_at wire_bytes : Z)
| DecisionRejected.

Record Pacing := mkPacing { span : Z; pacing_expires : Z }.

Record LocalLossyWork := mkWork {
  sizes : list Z;
  sealed_bytes : Z;
  pacing : option Pacing;
  decision : WorkDecision
}.

#[export] Instance eta_LocalLossyWork : Settable LocalLossyWork := fun w =>
  mkWork (sizes w) (sealed_bytes w) (pacing w) (decision w).

Inductive WorkAdmission := WorkAdmitted | WorkWait (until : Z) | WorkRejected.

(** [checked_add], [checked_mul] and [checked_sub] of a [usize]. *)
Definition checked (n : Z) : option Z := if (n <? 0) || (U64_MAX <? n) then None else Some n.

Definition work_new (sizes : list Z) : option LocalLossyWork :=
  if is_nil sizes || (MAX_CELLS <? zlen sizes) || existsb (fun n => n <? 36) sizes then None
  else
    sealed ← foldl (fun sum n => s ← sum; checked (s + n)) (Some 0) sizes;
    if MAX_SEALED_BYTES <? sealed then None else Some (mkWork sizes sealed None DecisionPending).

Definition work_new_paced (sizes : list Z) (span expires_at : Z) : option LocalLossyWork :=
  w ← work_new sizes;
  Some (w <| pacing := Some (mkPacing (if zlen sizes =? 1 then 0 else Z.min span MAX_PACING_SPAN) expires_at) |>).

(** [cell]: an index within the item. *)
Definition work_cell (w : LocalLossyWork) (index : Z) : bool := index <? zlen (sizes w).

Definition work_reject (w : LocalLossyWork) : LocalLossyWork := w <| decision := DecisionRejected |>.

Definition past_expiry (w : LocalLossyWork) (now : Z) : bool := is_some_and (pacing w) (fun p => pacing_expires p <=? now).

Definition work_rejected (w : LocalLossyWork) (now : Z) : bool :=
  past_expiry w now || match decision w with DecisionRejected => true | _ => false end.

Definition work_expires_at (w : LocalLossyWork) : option Z := pacing_expires <$> pacing w.
Definition pacing_span (w : LocalLossyWork) : option Z := span <$> pacing w.

(** The costs of the cells, summed up as the plan goes on from [last]. *)
Fixpoint plan_prefix (wire_cost : Z -> option Z) (overhead last : Z) (sizes : list Z) : option (list Z) :=
  match sizes with
  | [] => Some []
  | size :: sizes =>
      n ← checked (size + overhead);
      cost ← wire_cost n;
      if 0 <? cost then next ← checked (last + cost); rest ← plan_prefix wire_cost overhead next sizes; Some (next :: rest)
      else None
  end.

(** The reservations that were granted come with the result. *)
Definition admit_cost_at (w : LocalLossyWork) (index : nat) (owner wire_bytes : Z) (cost_key : option WorkCostKey) (now : Z)
    (wire_cost : Z -> option Z) (reserve : Z -> Z + unit) : option (LocalLossyWork * WorkAdmission * list Z) :=
  if past_expiry w now then Some (work_reject w, WorkRejected, [])
  else
    size ← sizes w !! index;
    match checked (wire_bytes - size) with
    | None => Some (work_reject w, WorkRejected, [])
    | Some overhead =>
        match decision w with
        | DecisionRejected => Some (w, WorkRejected, [])
        | DecisionAdmitted bound bound_overhead bound_key prefix _ _ =>
            ok ← (if (owner =? bound) && (overhead =? bound_overhead) && bool_decide (cost_key = bound_key) then
                    match wire_cost wire_bytes with
                    | Some cost => above ← prefix !! S index; below ← prefix !! index; Some (cost =? above - below)
                    | None => Some false
                    end
                  else Some false);
            Some (if ok : bool then (w, WorkAdmitted, []) else (work_reject w, WorkRejected, []))
        | DecisionPending =>
            if is_some_and (pacing w) (fun p => pacing_expires p <=? now + span p) then Some (work_reject w, WorkRejected, [])
            else
              match (n ← checked (overhead * zlen (sizes w)); checked (n + sealed_bytes w)),
                    plan_prefix wire_cost overhead 0 (sizes w) with
              | Some envelope_total, Some rest =>
                  let total := List.last rest 0 in
                  match reserve total with
                  | inr _ => Some (w <| decision := DecisionAdmitted owner overhead cost_key (0 :: rest) now envelope_total |>, WorkAdmitted, [total])
                  | inl until => Some (w, WorkWait until, [])
                  end
              | _, _ => Some (work_reject w, WorkRejected, [])
              end
        end
    end.

Definition admit_at (w : LocalLossyWork) (index : nat) (owner wire_bytes now : Z) (reserve : Z -> Z + unit) :=
  admit_cost_at w index owner wire_bytes None now Some reserve.

Definition admit_planned_at (w : LocalLossyWork) (index : nat) (owner wire_bytes : Z) (key : WorkCostKey) (now : Z)
    (wire_cost : Z -> option Z) (reserve : Z -> Z + unit) :=
  admit_cost_at w index owner wire_bytes (Some key) now wire_cost reserve.

(** Division by a total of zero is a panic. *)
Definition release_at (w : LocalLossyWork) (index : nat) (now : Z) : option (LocalLossyWork * WorkAdmission) :=
  match pacing w with
  | None => Some (w, if work_rejected w now then WorkRejected else WorkAdmitted)
  | Some p =>
      if pacing_expires p <=? now then Some (work_reject w, WorkRejected)
      else
        match decision w with
        | DecisionAdmitted _ _ _ prefix admitted_at _ =>
            total ← last prefix;
            at_ ← prefix !! index;
            if total =? 0 then None
            else
              let nanos := span p * at_ / total in
              let due := admitted_at + wrap64 nanos in
              Some (w, if now <? due then WorkWait due else WorkAdmitted)
        | _ => Some (w, WorkRejected)
        end
  end.

Record WorkScheduleSnapshot := mkSnapshot {
  ws_index : Z;
  ws_cells : Z;
  ws_sealed_bytes : Z;
  ws_envelope_wire_bytes : Z;
  ws_admission_wire_bytes : Z;
  ws_span : Z;
  ws_since_admission : Z;
  ws_until_expiry : Z
}.

Definition boundary_snapshot_at (w : LocalLossyWork) (index now : Z) : option WorkScheduleSnapshot :=
  if negb (index =? 0) && negb (index + 1 =? zlen (sizes w)) then None
  else
    p ← pacing w;
    match decision w with
    | DecisionAdmitted _ _ _ prefix admitted_at wire_bytes =>
        total ← last prefix;
        Some (mkSnapshot index (zlen (sizes w)) (sealed_bytes w) wire_bytes total (span p) (sat_sub now admitted_at) (sat_sub (pacing_expires p) now))
    | _ => None
    end.

(** ** Plans *)

Definition sum_all (l : list Z) : Z := foldr Z.add 0 l.

(** The prefix sums of some costs, from [last] on. *)
Fixpoint sums (last : Z) (costs : list Z) : list Z :=
  match costs with
  | [] => []
  | c :: costs => (last + c) :: sums (last + c) costs
  end.

Lemma checked_Some n m : checked n = Some m -> m = n /\ 0 <= n <= U64_MAX.
Proof. unfold checked. destruct (_ || _) eqn:E; [done|]. intros [= <-]. to_prop. lia. Qed.

Lemma length_sums last costs : length (sums last costs) = length costs.
Proof. revert last. induction costs; intros; cbn; [done|]. by rewrite IHcosts. Qed.

Lemma plan_prefix_spec wire_cost overhead sizes : forall last rest, plan_prefix wire_cost overhead last sizes = Some rest ->
  exists costs, rest = sums last costs /\ Forall2 (fun size cost => wire_cost (size + overhead) = Some cost /\ 0 < cost) sizes costs /\
    (0 <= last <= U64_MAX -> Forall (fun n => 0 <= n <= U64_MAX) rest).
Proof.
  induction sizes as [|size sizes IH]; intros last rest; cbn [plan_prefix].
  - intros [= <-]. exists []. split_and!; [done|constructor|by constructor].
  - intros (n & En & (cost & Ec & E)%bind_Some)%bind_Some. apply checked_Some in En as [-> _].
    destruct (0 <? cost) eqn:Epos; [|done]. apply Z.ltb_lt in Epos. apply bind_Some in E as (next & [-> Hn]%checked_Some & (rest' & Er & [= <-])%bind_Some).
    destruct (IH _ _ Er) as (costs & -> & Hf & Hr). exists (cost :: costs). split_and!; [done|by constructor|]. intros _. constructor; [lia|by apply Hr].
Qed.

(** The share of a cell is the difference of two neighbours. *)
Lemma sums_lookup costs : forall (last : Z) (i : nat), (i < length costs)%nat ->
  exists below above, (last :: sums last costs) !! i = Some below /\ (last :: sums last costs) !! S i = Some above /\
    costs !! i = Some (above - below) /\ below = last + sum_all (take i costs).
Proof.
  induction costs as [|c costs IH]; intros last i Hi; [cbn in Hi; lia|]. destruct i as [|i].
  - exists last, (last + c). cbn. split_and!; try done; [f_equal|]; lia.
  - destruct (IH (last + c) i) as (below & above & E1 & E2 & E3 & E4); [cbn in Hi; lia|]. exists below, above. unfold sum_all in *. cbn in *. split_and!; try done. lia.
Qed.

Lemma sums_last costs : forall last d, costs <> [] -> List.last (sums last costs) d = last + sum_all costs.
Proof.
  induction costs as [|c costs IH]; intros last d Hne; [done|]. destruct costs as [|c' costs]; [cbn; lia|].
  change (List.last (sums last (c :: c' :: costs)) d) with (List.last (sums (last + c) (c' :: costs)) d).
  rewrite IH by done. unfold sum_all. cbn. lia.
Qed.

Lemma last_sums costs : forall from, last (from :: sums from costs) = Some (from + sum_all costs).
Proof.
  induction costs as [|c costs IH]; intros from; [cbn; f_equal; lia|]. cbn [sums]. rewrite last_cons, IH. unfold sum_all. cbn. f_equal. lia.
Qed.

Lemma sum_all_app l l' : sum_all (l ++ l') = sum_all l + sum_all l'.
Proof. unfold sum_all. induction l; cbn; lia. Qed.

Lemma sum_all_pos l : Forall (fun n => 0 < n) l -> 0 <= sum_all l /\ (l <> [] -> 0 < sum_all l).
Proof. unfold sum_all. induction 1; cbn; [done|]. lia. Qed.

(** ** Runs of one work item *)

Inductive WorkOp :=
| OpAdmit (index : nat) (owner wire_bytes : Z) (key : option WorkCostKey) (now : Z) (wire_cost : Z -> option Z) (reserve : Z -> Z + unit)
| OpRelease (index : nat) (now : Z)
| OpReject.

(** A step, with what it answers and what it reserves. *)
Definition work_step (w : LocalLossyWork) (op : WorkOp) : option (LocalLossyWork * WorkAdmission * list Z) :=
  match op with
  | OpAdmit index owner bytes key now wire_cost reserve => admit_cost_at w index owner bytes key now wire_cost reserve
  | OpRelease index now => '(w, r) ← release_at w index now; Some (w, r, [])
  | OpReject => Some (work_reject w, WorkRejected, [])
  end.

Fixpoint work_run (w : LocalLossyWork) (ops : list WorkOp) : option (LocalLossyWork * list (WorkOp * WorkAdmission) * list Z) :=
  match ops with
  | [] => Some (w, [], [])
  | op :: ops =>
      '(w, r, charges) ← work_step w op;
      '(w, outs, more) ← work_run w ops;
      Some (w, (op, r) :: outs, charges ++ more)
  end.

(** The cells of an item are the only ones that ask. *)
Definition op_within (w : LocalLossyWork) (op : WorkOp) : Prop :=
  match op with
  | OpAdmit index _ _ _ _ _ _ | OpRelease index _ => work_cell w (Z.of_nat index) = true
  | OpReject => True
  end.

(** The decision holds the prefix sums of the shares, and there was time for the whole span. *)
Definition decided (w : LocalLossyWork) (shares : list Z) : Prop :=
  match decision w with
  | DecisionAdmitted _ overhead _ prefix at_ _ =>
      prefix = 0 :: sums 0 shares /\ sum_all shares <= U64_MAX /\ (forall p, pacing w = Some p -> at_ + span p < pacing_expires p)
  | _ => True
  end.

Record work_ok (w : LocalLossyWork) : Prop := {
  wo_some : sizes w <> [];
  wo_sizes : Forall (fun n => 0 <= n) (sizes w);
  wo_span p : pacing w = Some p -> 0 <= span p <= MAX_PACING_SPAN
}.

(** An answer that lets a cell go, and the share it was let go for. *)
Definition paid (shares : list Z) (op : WorkOp) (r : WorkAdmission) : Prop :=
  match op, r with
  | OpAdmit index _ bytes _ _ wire_cost _, WorkAdmitted => exists share, shares !! index = Some share /\ wire_cost bytes = Some share
  | _, _ => True
  end.

(** The answer that lets a cell go. *)
Definition goes (op : WorkOp) (r : WorkAdmission) : bool :=
  match op, r with
  | OpAdmit _ _ _ _ _ _ _, WorkAdmitted => true
  | _, _ => false
  end.

Definition pending (w : LocalLossyWork) : Prop := decision w = DecisionPending.

Definition same_work (w w' : LocalLossyWork) : Prop := sizes w' = sizes w /\ pacing w' = pacing w.

Record shares_ok (w : LocalLossyWork) (shares : list Z) : Prop := {
  sh_length : length shares = length (sizes w);
  sh_pos : Forall (fun n => 0 < n) shares;
  sh_decided : decided w shares
}.

(** [release_at] does not change a decision but to reject. *)
Lemma release_spec w index now shares : work_ok w -> work_cell w (Z.of_nat index) = true -> shares_ok w shares ->
  exists w' r, release_at w index now = Some (w', r) /\ (w' = w \/ w' = work_reject w) /\ (decision w = DecisionRejected -> r = WorkRejected).
Proof.
  intros Hok Hc [Hlen Hpos Hd]. unfold release_at. destruct (pacing w) as [p|] eqn:Ep.
  - destruct (_ <=? now); [eexists _, _; split_and!; [done|by right|done]|]. unfold decided in Hd.
    destruct (decision w) as [|o ov k pre at_ wb|] eqn:Ed; [eexists _, _; split_and!; [done|by left|done]| |eexists _, _; split_and!; [done|by left|done]].
    destruct Hd as (-> & _). rewrite last_sums. cbn [mbind option_bind].
    destruct (sums_lookup shares 0 index) as (below & above & E & _); [unfold work_cell, zlen in Hc; to_prop; lia|].
    rewrite E. cbn [mbind option_bind]. destruct (sum_all_pos shares Hpos) as [_ Hs]. rewrite (proj2 (Z.eqb_neq _ 0)).
    + eexists _, _. split_and!; [done|by left|done].
    + assert (shares <> []) as Hne by (intros ->; destruct (sizes w) eqn:Es; [by apply (wo_some w Hok)|done]). specialize (Hs Hne). lia.
  - eexists _, _. split_and!; [done|by left|]. intros E. unfold work_rejected. rewrite E, orb_true_r. done.
Qed.

(** From a decision on, nothing is reserved, and a cell goes only for its own share. *)
Lemma step_settled w op shares : work_ok w -> op_within w op -> ~ pending w -> shares_ok w shares ->
  exists w' r, work_step w op = Some (w', r, []) /\ same_work w w' /\ shares_ok w' shares /\ ~ pending w' /\ paid shares op r /\
    (decision w = DecisionRejected -> decision w' = DecisionRejected /\ r = WorkRejected).
Proof.
  intros Hok Hop Hp Hs.
  assert (exists w' r, Some (work_reject w, WorkRejected, @nil Z) = Some (w', r, []) /\ same_work w w' /\ shares_ok w' shares /\ ~ pending w' /\ paid shares op r /\
    (decision w = DecisionRejected -> decision w' = DecisionRejected /\ r = WorkRejected)) as Hrej.
  { eexists _, _. split_and!; try done. - by split; [apply Hs|apply Hs|]. - by destruct op. }
  destruct op as [index owner bytes key now wire_cost reserve|index now|]; cbn [work_step]; [|clear Hrej|exact Hrej].
  - unfold admit_cost_at. destruct (past_expiry w now); [exact Hrej|]. cbn in Hop. unfold work_cell, zlen in Hop. to_prop.
    destruct (lookup_lt_is_Some_2 (sizes w) index) as [size Esz]; [lia|]. rewrite Esz. cbn [mbind option_bind].
    destruct (checked (bytes - size)) as [overhead|]; [|exact Hrej].
    assert (forall o ov k pre at_ wb, decision w = DecisionAdmitted o ov k pre at_ wb -> pre = 0 :: sums 0 shares) as Hpre.
    { intros o ov k pre at_ wb E. destruct Hs as [_ _ Hd]. unfold decided in Hd. rewrite E in Hd. apply Hd. }
    destruct (decision w) as [|o ov k pre at_ wb|] eqn:Ed; [done| |eexists _, _; split_and!; try done; by rewrite <- Ed].
    pose proof (Hpre _ _ _ _ _ _ eq_refl) as ->. destruct (sums_lookup shares 0 index) as (below & above & E1 & E2 & E3 & _); [rewrite (sh_length _ _ Hs); lia|].
    destruct (_ && _); [|exact Hrej]. destruct (wire_cost bytes) as [cost|] eqn:Ec; [|exact Hrej].
    rewrite E2, E1. cbn [mbind option_bind]. destruct (cost =? above - below) eqn:Ecost; [|exact Hrej]. apply Z.eqb_eq in Ecost as ->.
    eexists _, _. split_and!; try done. by eexists.
  - destruct (release_spec w index now shares Hok Hop Hs) as (w' & r & -> & Hw & Hr). cbn [mbind option_bind]. eexists _, _.
    destruct Hw as [-> | ->]; split_and!; try done. + by intros E; split; [|apply Hr]. + by split; [apply Hs|apply Hs|]. + intros E. by split; [|apply Hr].
Qed.

(** The first decision reserves the shares of all cells at once. *)
Lemma step_pending w op : work_ok w -> op_within w op -> pending w ->
  exists w' r charges, work_step w op = Some (w', r, charges) /\ same_work w w' /\
    ((pending w' /\ charges = [] /\ goes op r = false) \/
     (decision w' = DecisionRejected /\ charges = [] /\ goes op r = false) \/
     (exists shares, shares_ok w' shares /\ ~ pending w' /\ paid shares op r /\ charges = [sum_all shares])).
Proof.
  intros Hok Hop Hp. unfold pending in Hp.
  assert (exists w' r charges, Some (work_reject w, WorkRejected, @nil Z) = Some (w', r, charges) /\ same_work w w' /\
    ((pending w' /\ charges = [] /\ goes op r = false) \/
     (decision w' = DecisionRejected /\ charges = [] /\ goes op r = false) \/
     (exists shares, shares_ok w' shares /\ ~ pending w' /\ paid shares op r /\ charges = [sum_all shares]))) as Hrej.
  { eexists _, _, _. split_and!; try done. right. left. split_and!; [done|done|by destruct op]. }
  destruct op as [index owner bytes key now wire_cost reserve|index now|]; cbn [work_step]; [| |exact Hrej].
  - unfold admit_cost_at. destruct (past_expiry w now); [exact Hrej|]. cbn in Hop. unfold work_cell, zlen in Hop. to_prop.
    destruct (lookup_lt_is_Some_2 (sizes w) index) as [size Esz]; [lia|]. rewrite Esz. cbn [mbind option_bind].
    destruct (checked (bytes - size)) as [overhead|] eqn:Eo; [|exact Hrej]. apply checked_Some in Eo as [-> _]. rewrite Hp.
    destruct (is_some_and _ _) eqn:Etime; [exact Hrej|]. destruct (_ ≫= _) as [total|]; [|exact Hrej].
    destruct (plan_prefix wire_cost (bytes - size) 0 (sizes w)) as [rest|] eqn:Eplan; [|exact Hrej].
    apply plan_prefix_spec in Eplan as (shares & -> & Hf & Hb). specialize (Hb ltac:(by unfold U64_MAX; lia)).
    assert (length shares = length (sizes w)) as Hlen by (symmetry; by eapply Forall2_length).
    assert (shares <> []) as Hne by (intros ->; destruct (sizes w) eqn:Es; [by apply (wo_some w Hok)|done]).
    rewrite sums_last, Z.add_0_l by done. destruct (reserve (sum_all shares)) as [until|] eqn:Er; (eexists _, _, _; split_and!; [done|done|]).
    + left. split_and!; done.
    + right. right. exists shares. split_and!; [|done| |done].
      * split; [done|apply Forall_forall; intros c [i Ei]%list_elem_of_lookup; by destruct (Forall2_lookup_r _ _ _ _ _ Hf Ei) as (? & _ & _ & ?)|].
        cbn. split_and!; [done| |].
        -- assert (sum_all shares ∈ sums 0 shares) as Hin.
           { pose proof (last_sums shares 0) as El. destruct shares as [|c cs]; [done|]. cbn [sums] in *. rewrite last_cons_cons in El.
             by apply last_Some_elem_of in El. }
           eapply Forall_forall in Hin; [|exact Hb]. cbn in Hin. lia.
        -- intros p E. rewrite E in Etime. cbn in Etime. to_prop. lia.
      * cbn. destruct (Forall2_lookup_l _ _ _ _ _ Hf Esz) as (c & Ec & Ewc & _). exists c. split; [done|]. rewrite <- Ewc. f_equal. lia.
  - unfold release_at. destruct (pacing w) as [p|]; [|eexists _, _, _; split_and!; [done|done|by left]].
    destruct (_ <=? now); [exact Hrej|]. rewrite Hp. eexists _, _, _. split_and!; [done|done|by left].
Qed.

Lemma same_work_ok w w' : same_work w w' -> work_ok w -> work_ok w'.
Proof. intros [E1 E2] [H1 H2 H3]. split; by rewrite ?E1, ?E2. Qed.

Lemma same_work_within w w' ops : same_work w w' -> Forall (op_within w) ops -> Forall (op_within w') ops.
Proof.
  intros [E1 _] Hall. eapply Forall_impl; [exact Hall|]. intros [index ? ? ? ? ? ?|index ?|]; cbn; unfold work_cell; by rewrite ?E1.
Qed.

Lemma paid_goes shares op r : goes op r = false -> paid shares op r.
Proof. by destruct op, r. Qed.

Lemma run_settled ops shares : forall w, work_ok w -> Forall (op_within w) ops -> ~ pending w -> shares_ok w shares ->
  exists w' outs, work_run w ops = Some (w', outs, []) /\ same_work w w' /\ shares_ok w' shares /\ ~ pending w' /\
    Forall (fun o => paid shares o.1 o.2) outs /\
    (decision w = DecisionRejected -> decision w' = DecisionRejected /\ Forall (fun o => o.2 = WorkRejected) outs).
Proof.
  induction ops as [|op ops IH]; intros w Hok Hops Hp Hs; cbn [work_run].
  - eexists _, _. by split_and!.
  - apply Forall_cons in Hops as [Hop Hops].
    destruct (step_settled w op shares Hok Hop Hp Hs) as (w1 & r & -> & Hsame & Hs1 & Hp1 & Hpaid & Hfin). cbn [mbind option_bind].
    destruct (IH w1) as (w2 & outs & -> & Hsame2 & Hs2 & Hp2 & Hpaid2 & Hfin2);
      [by eapply same_work_ok|by eapply same_work_within|done|done|]. cbn [mbind option_bind].
    eexists _, _. split_and!; try done.
    + destruct Hsame, Hsame2. split; congruence.
    + by constructor.
    + intros E. destruct (Hfin E) as [E1 ->]. destruct (Hfin2 E1) as [E2 Hall]. split; [done|by constructor].
Qed.

(** No share is owed to an item that was refused. *)
Lemma rejected_shares w : decision w = DecisionRejected -> shares_ok w (repeat 1 (length (sizes w))).
Proof.
  intros E. split; [apply repeat_length| |unfold decided; by rewrite E].
  apply Forall_forall. intros x Hx%list_elem_of_In%repeat_spec. lia.
Qed.

Lemma run_pending ops : forall w, work_ok w -> Forall (op_within w) ops -> pending w ->
  exists w' outs charges shares, work_run w ops = Some (w', outs, charges) /\ same_work w w' /\ shares_ok w' shares /\
    Forall (fun o => paid shares o.1 o.2) outs /\
    ((charges = [] /\ Forall (fun o => goes o.1 o.2 = false) outs) \/ (charges = [sum_all shares] /\ ~ pending w')).
Proof.
  induction ops as [|op ops IH]; intros w Hok Hops Hp; cbn [work_run].
  - eexists _, _, _, (repeat 1 (length (sizes w))). split_and!; [done|done| |constructor|left; by split; [|constructor]].
    destruct (rejected_shares (work_reject w) eq_refl) as [H1 H2 _]. split; [done|done|]. unfold decided. by rewrite Hp.
  - apply Forall_cons in Hops as [Hop Hops]. destruct (step_pending w op Hok Hop Hp) as (w1 & r & charges & -> & Hsame & Hcases). cbn [mbind option_bind].
    pose proof (same_work_ok _ _ Hsame Hok) as Hok1. pose proof (same_work_within _ _ _ Hsame Hops) as Hops1.
    assert (forall w2, same_work w1 w2 -> same_work w w2) as Htrans by (intros w2 []; destruct Hsame; split; congruence).
    destruct Hcases as [(Hp1 & -> & Hg)|[(Er & -> & Hg)|(shares & Hs & Hp1 & Hpaid & ->)]].
    + destruct (IH w1 Hok1 Hops1 Hp1) as (w2 & outs & charges & shares & -> & Hsame2 & Hs & Hpaid & Hc). cbn [mbind option_bind].
      eexists _, _, _, shares. split_and!; [done|by apply Htrans|done|constructor; [by apply paid_goes|done]|].
      destruct Hc as [[-> Hall]|Hc]; [left; by split; [|constructor]|by right].
    + destruct (run_settled ops _ w1 Hok1 Hops1 ltac:(unfold pending; congruence) (rejected_shares w1 Er)) as (w2 & outs & -> & Hsame2 & Hs & _ & Hpaid & Hfin).
      cbn [mbind option_bind]. eexists _, _, _, _. split_and!; [done|by apply Htrans|exact Hs|constructor; [by apply paid_goes|done]|].
      left. split; [done|]. constructor; [done|]. destruct (Hfin Er) as [_ Hall]. eapply Forall_impl; [exact Hall|]. intros [[] ?]; cbn; by intros ->.
    + destruct (run_settled ops shares w1 Hok1 Hops1 Hp1 Hs) as (w2 & outs & -> & Hsame2 & Hs2 & Hp2 & Hpaid2 & _). cbn [mbind option_bind].
      eexists _, _, _, shares. split_and!; [done|by apply Htrans|done|by constructor|by right].
Qed.

(** ** What the node promises itself *)

(** An item as [new] or [new_paced] makes it. *)
Definition made (w : LocalLossyWork) (l : list Z) : Prop :=
  work_new l = Some w \/ exists span expires_at, 0 <= span /\ work_new_paced l span expires_at = Some w.

Lemma work_new_ok l w : work_new l = Some w -> work_ok w /\ pending w /\ sizes w = l /\ pacing w = None.
Proof.
  unfold work_new. destruct (_ || _) eqn:E; [done|]. intros (sealed & _ & Ew)%bind_Some. revert Ew. destruct (MAX_SEALED_BYTES <? _); [done|]. intros [= <-].
  apply orb_false_iff in E as [[E1 _]%orb_false_iff E2]. split_and!; try done. split; cbn; [by destruct l| |by intros].
  apply Forall_forall. intros n Hn. destruct (decide (n < 36)) as [Hlt|]; [|lia]. enough (existsb (fun n => n <? 36) l = true) by congruence.
  apply existsb_exists. exists n. split; [by apply list_elem_of_In|]. by apply Z.ltb_lt.
Qed.

Lemma made_ok w l : made w l -> work_ok w /\ pending w /\ sizes w = l.
Proof.
  intros [E|(span & at_ & Hs & E)]; [by destruct (work_new_ok l w E) as (? & ? & ? & _)|]. unfold work_new_paced in E.
  apply bind_Some in E as (w0 & E & [= <-]). destruct (work_new_ok l w0 E) as ([H1 H2 _] & Hp & El & _). split_and!; [|done|done].
  split; cbn; try done. intros p [= <-]. cbn. change MAX_PACING_SPAN with 100000000. destruct (_ =? 1); lia.
Qed.

(** C21. All cells of an item are paid for at once, or none is.  Whatever order its cells ask in, for whatever
    costs, with whatever answers of the source of credit and with expiry and rejection in between, no
    request panics; at most one reservation is granted, and it is the sum of a positive share for every
    cell; a cell is let go only for exactly its own share, and only if the reservation was granted. *)
Theorem work_reserved_once (w : LocalLossyWork) (l : list Z) (ops : list WorkOp) (Hw : made w l) (Hops : Forall (op_within w) ops) :
  exists w' outs charges shares, work_run w ops = Some (w', outs, charges) /\
    length shares = length l /\ Forall (fun n => 0 < n) shares /\ Forall (fun o => paid shares o.1 o.2) outs /\
    ((charges = [] /\ Forall (fun o => goes o.1 o.2 = false) outs) \/ charges = [sum_all shares]).
Proof.
  destruct (made_ok w l Hw) as (Hok & Hp & <-). destruct (run_pending ops w Hok Hops Hp) as (w' & outs & charges & shares & E & [Es _] & [] & Hpaid & Hc).
  exists w', outs, charges, shares. split_and!; try done; [congruence|]. destruct Hc as [?|[? _]]; [by left|by right].
Qed.

(** When cell [i] of an admitted item is due. *)
Definition due (p : Pacing) (at_ : Z) (shares : list Z) (i : nat) : Z := at_ + span p * sum_all (take i shares) / sum_all shares.

Lemma due_mono p at_ shares i j : 0 <= span p -> Forall (fun n => 0 < n) shares -> (i <= j <= length shares)%nat ->
  due p at_ shares i <= due p at_ shares j <= at_ + span p.
Proof.
  intros Hs Hpos Hij. unfold due.
  assert (take j shares = take i shares ++ drop i (take j shares)) as Ej by (rewrite <- (take_drop i (take j shares)) at 1; by rewrite take_take, Nat.min_l by lia).
  assert (sum_all shares = sum_all (take j shares) + sum_all (drop j shares)) as Et by (by rewrite <- sum_all_app, take_drop).
  destruct (sum_all_pos (take i shares)) as [Hi _]; [by apply Forall_take|]. destruct (sum_all_pos (drop i (take j shares))) as [Hd _]; [by apply Forall_drop, Forall_take|].
  destruct (sum_all_pos (drop j shares)) as [Hr _]; [by apply Forall_drop|].
  apply (f_equal sum_all) in Ej. rewrite sum_all_app in Ej. clear -Hs Ej Et Hi Hd Hr.
  generalize dependent (sum_all (take j shares)). intros b Ej Et. subst b. generalize dependent (sum_all shares). intros t ->.
  set (a := sum_all (take i shares)) in *. set (b := sum_all (drop i (take j shares))) in *. set (c := sum_all (drop j shares)) in *. clearbody a b c.
  destruct (decide (a + b + c = 0)) as [->|]; [rewrite !Z.div_0_r; lia|]. split; apply Z.add_le_mono_l.
  - apply Z.div_le_mono; nia.
  - apply Z.div_le_upper_bound; nia.
Qed.

(** The cells of a paced item that was admitted are released in order over its span.  The first one is due at
    once and each of the others when the share of the cells before it, in proportion, has passed of the
    span; the last one is due before the item expires; and at any instant a cell is released if it is due
    and the item has not expired, is to wait until it is due, and is refused from the expiry on. *)
Theorem release_schedule (w w' : LocalLossyWork) (l : list Z) (ops : list WorkOp) (outs : list (WorkOp * WorkAdmission)) (total : Z) (p : Pacing)
    (Hw : made w l) (Hops : Forall (op_within w) ops) (Hrun : work_run w ops = Some (w', outs, [total]))
    (Hlive : decision w' <> DecisionRejected) (Hpace : pacing w' = Some p) :
  exists at_ shares, sum_all shares = total /\ length shares = length l /\ due p at_ shares 0 = at_ /\
    (forall i j, (i <= j < length l)%nat -> due p at_ shares i <= due p at_ shares j < pacing_expires p) /\
    (forall i now, (i < length l)%nat ->
       release_at w' i now = Some (if pacing_expires p <=? now then (work_reject w', WorkRejected)
                                   else (w', if now <? due p at_ shares i then WorkWait (due p at_ shares i) else WorkAdmitted))).
Proof.
  destruct (made_ok w l Hw) as (Hok & Hp & <-).
  destruct (run_pending ops w Hok Hops Hp) as (w1 & outs1 & charges & shares & E & Hsame & [Hlen Hpos Hd] & _ & Hc).
  rewrite Hrun in E. injection E as <- <- <-. destruct Hc as [[? _]|[[= ->] Hset]]; [done|]. pose proof (same_work_ok _ _ Hsame Hok) as [_ _ Hspan].
  specialize (Hspan p Hpace). destruct Hsame as [Es _]. rewrite Es in Hlen.
  unfold decided in Hd. unfold pending in Hset. destruct (decision w') as [|o ov k pre at_ wb|] eqn:Ed; [done| |done]. destruct Hd as (-> & Hmax & Htime).
  specialize (Htime p Hpace). destruct (sum_all_pos shares Hpos) as [_ Htot]. assert (shares <> []) as Hne by (intros ->; destruct (sizes w) eqn:Esz; [by apply (wo_some w Hok)|done]).
  specialize (Htot Hne). exists at_, shares. split_and!; try done.
  - unfold due. cbn. rewrite Z.mul_0_r, Z.div_0_l by lia. lia.
  - intros i j Hij. pose proof (due_mono p at_ shares i j ltac:(lia) Hpos ltac:(lia)). lia.
  - intros i now Hi. unfold release_at. rewrite Hpace, Ed. destruct (_ <=? now); [done|]. rewrite last_sums. cbn [mbind option_bind].
    destruct (sums_lookup shares 0 i) as (below & above & Eb & _ & _ & ->); [lia|]. rewrite Eb. cbn [mbind option_bind]. rewrite !Z.add_0_l.
    rewrite (proj2 (Z.eqb_neq _ _)) by lia. pose proof (due_mono p at_ shares 0 i ltac:(lia) Hpos ltac:(lia)) as Hdue. unfold due in *. cbn in Hdue.
    rewrite Z.mul_0_r, Z.div_0_l in Hdue by lia. unfold wrap64. rewrite Z.mod_small; [done|]. change MAX_PACING_SPAN with 100000000 in Hspan. lia.
Qed.

Module Demo.

Definition item : LocalLossyWork := mkWork [1000; 400; 700] 2100 (Some (mkPacing 90000000 300000000)) DecisionPending.
(** The second cell asks first, and pays for all of them. *)
Definition ask (index : nat) (bytes now : Z) : WorkOp := OpAdmit index 7 bytes None now Some (fun _ => inr tt).
Definition ops : list WorkOp := [ask 1 716 5; OpRelease 1 5; ask 2 1016 9; ask 0 1316 10].

Lemma item_made : made item [1000; 400; 700].
Proof. right. exists 90000000, 300000000. split; [lia|]. vm_compute. reflexivity. Qed.

Lemma ops_within : Forall (op_within item) ops.
Proof. repeat constructor. Qed.

Lemma work_reserved_once_witness : exists w' outs charges shares, work_run item ops = Some (w', outs, charges) /\
    length shares = 3%nat /\ Forall (fun n => 0 < n) shares /\ Forall (fun o => paid shares o.1 o.2) outs /\
    ((charges = [] /\ Forall (fun o => goes o.1 o.2 = false) outs) \/ charges = [sum_all shares]).
Proof. exact (work_reserved_once item [1000; 400; 700] ops item_made ops_within). Defined.

Lemma release_schedule_witness : exists w' p at_ shares, sum_all shares = 3048 /\ length shares = 3%nat /\ due p at_ shares 0 = at_ /\
  due p at_ shares 1 <= due p at_ shares 2 < pacing_expires p /\
  release_at w' 1 100 = Some (if pacing_expires p <=? 100 then (work_reject w', WorkRejected)
    else (w', if 100 <? due p at_ shares 1 then WorkWait (due p at_ shares 1) else WorkAdmitted)).
Proof.
  eexists _, _. edestruct (release_schedule item) as (at_ & shares & E1 & E2 & E3 & E4 & E5).
  - exact item_made.
  - exact ops_within.
  - vm_compute. reflexivity.
  - vm_compute. discriminate.
  - vm_compute. reflexivity.
  - exists at_, shares. exact (conj E1 (conj E2 (conj E3 (conj (E4 1%nat 2%nat ltac:(cbn; lia)) (E5 1%nat 100 ltac:(cbn; lia)))))).
Defined.

End Demo.
