(* ===== verification/PriorityQueue.v ===== *)
(** * The queue of outgoing frames

    crates/veil-session/src/priority_queue.rs: the frames of a session wait in seven queues that are
    served in weighted rounds.  A loss-tolerant frame has a lifetime and a budget of its own; a queue
    that is full sheds.  The work items of [LossyWork] are shared with the producers: they are a store,
    and a frame holds a reference into it.  An operation reads the clock once.  Tracing is left out;
    carriers, credits and signaling marks are opaque handles.  [None] is a panic. *)

From S2P Require Import Prelude Float LossyWork.
#[local] Open Scope Z_scope.
#[local] Open Scope list_scope.

Definition REALTIME : Z := 0.
Definition INTERACTIVE : Z := 1.
Definition BULK : Z := 2.
Definition BACKGROUND : Z := 3.
Definition LOCAL_RECOVERABLE_DATA_LANE : Z := 4.
Definition LOCAL_NETWORK_CONTROL_LANE : Z := 5.
Definition LOCAL_SIGNALING_LANE : Z := 6.
Definition LOCAL_QUEUE_COUNT : nat := 7.
Definition LOCAL_DATAGRAM_PRIORITIES : list Z := [REALTIME; BULK; BACKGROUND; LOCAL_RECOVERABLE_DATA_LANE; LOCAL_SIGNALING_LANE].

Definition queue_index (priority : Z) : nat :=
  if priority =? LOCAL_SIGNALING_LANE then 6
  else if priority =? LOCAL_NETWORK_CONTROL_LANE then 5
  else if priority =? LOCAL_RECOVERABLE_DATA_LANE then 4
  else Z.to_nat (Z.min priority 3).

Definition DEFAULT_MAX_DEPTH : Z := 4096.
Definition LOSSY_REALTIME_MAX_DEPTH : Z := 64.
Definition LOSSY_REALTIME_MAX_AGE : Z := NANOS / 2.
Definition LOCAL_PRIMARY_MAX_AGE : Z := NANOS / 5.

Definition lossy_realtime_max_age (priority : Z) : Z :=
  if priority =? REALTIME then LOCAL_PRIMARY_MAX_AGE
  else if priority =? LOCAL_SIGNALING_LANE then 5 * NANOS
  else LOSSY_REALTIME_MAX_AGE.

Inductive HeadAdmission := Allow | DeferSource | FlushBatch.

(** ** Frames and the work they belong to *)

Record LocalLossyCell := mkCell { cell_work : Z; cell_index : Z }.

Abbreviation Works := (gmap Z LocalLossyWork).

Definition cell_rejected (ws : Works) (c : LocalLossyCell) (now : Z) : bool :=
  is_some_and (ws !! cell_work c) (fun w => work_rejected w now).
Definition cell_reject (ws : Works) (c : LocalLossyCell) : Works := alter work_reject (cell_work c) ws.

Record FrameEnvelope := mkEnvelope {
  env_local_work : option LocalLossyCell;
  env_priority : Z;
  env_frame : list byte;
  env_carrier : option Z;
  env_queued_at : Z;
  env_expires_at : option Z;
  env_reliable_credit : option Z;
  env_signaling : option Z
}.

(** [From<PriorityFrame>] *)
Definition envelope_from (priority : Z) (frame : list byte) (now : Z) : FrameEnvelope :=
  mkEnvelope None priority frame None now None None None.

Record QueuedFrame := mkQueued {
  local_work : option LocalLossyCell;
  frame : list byte;
  enqueued_at : option Z;
  expires_at : option Z;
  lossy_realtime : bool;
  carrier : option Z;
  reliable_credit : option Z;
  signaling_pending : option Z
}.

Definition expired (ws : Works) (now priority : Z) (q : QueuedFrame) : bool :=
  is_some_and (expires_at q) (fun at_ => at_ <=? now)
  || (lossy_realtime q && is_some_and (enqueued_at q) (fun at_ => lossy_realtime_max_age priority <? sat_sub now at_))
  || is_some_and (local_work q) (fun c => cell_rejected ws c now).

(** [trace_lossy_drop]: a frame that is dropped takes the rest of its work with it. *)
Definition reject_work (ws : Works) (c : option LocalLossyCell) : Works :=
  match c with Some c => cell_reject ws c | None => ws end.
Definition trace_lossy_drop (ws : Works) (q : QueuedFrame) : Works := reject_work ws (local_work q).

(** ** The queues *)

Record PriorityQueue := mkQueue {
  queues : list (list QueuedFrame);
  weights : list Z;
  slots : list Z;
  local_datagram_slots : list Z;
  max_depth : Z;
  drops_total : Z;
  lossy_realtime_len : list Z;
  local_primary_seen : option Z
}.

#[export] Instance eta_PriorityQueue : Settable PriorityQueue := fun q =>
  mkQueue (queues q) (weights q) (slots q) (local_datagram_slots q) (max_depth q) (drops_total q) (lossy_realtime_len q) (local_primary_seen q).

Definition with_capacity (w0 w1 w2 w3 max_depth : Z) : PriorityQueue :=
  let weights := [w0; w1; w2; w3; w3; w1; w1] in
  mkQueue (replicate LOCAL_QUEUE_COUNT []) weights weights weights max_depth 0 (replicate LOCAL_QUEUE_COUNT 0) None.

Definition with_default_weights : PriorityQueue := with_capacity 8 4 2 1 DEFAULT_MAX_DEPTH.

Definition pq_is_empty (pq : PriorityQueue) : bool := forallb is_nil (queues pq).
Definition pq_len (pq : PriorityQueue) : Z := zlen (concat (queues pq)).

Definition add_drops (pq : PriorityQueue) (n : Z) : PriorityQueue := pq <| drops_total := add64 (drops_total pq) n |>.
Definition set_queue (pq : PriorityQueue) (p : nat) (l : list QueuedFrame) : PriorityQueue := pq <| queues := <[p := l]> (queues pq) |>.

(** [self.lossy_realtime_len[p] -= n] *)
Definition sub_lossy (pq : PriorityQueue) (p : nat) (n : Z) : option PriorityQueue :=
  let len := lossy_realtime_len pq !!! p in
  if len <? n then None else Some (pq <| lossy_realtime_len := <[p := len - n]> (lossy_realtime_len pq) |>).
Definition lossy_bit (q : QueuedFrame) : Z := if lossy_realtime q then 1 else 0.

(** [position] and [remove]: the first entry that satisfies [f], and the queue without it. *)
Fixpoint take_first {A} (f : A -> bool) (l : list A) : option (A * list A) :=
  match l with
  | [] => None
  | x :: l => if f x then Some (x, l) else '(y, rest) ← take_first f l; Some (y, x :: rest)
  end.

(** [retain] of [prune_rejected_work], with the numbers of entries and of lossy entries it removed. *)
Fixpoint retain_live (now : Z) (l : list QueuedFrame) (ws : Works) : list QueuedFrame * Works * Z * Z :=
  match l with
  | [] => ([], ws, 0, 0)
  | q :: l =>
      if is_some_and (local_work q) (fun c => cell_rejected ws c now) then
        let '(rest, ws, removed, lossy) := retain_live now l (trace_lossy_drop ws q) in
        (rest, ws, removed + 1, lossy + lossy_bit q)
      else
        let '(rest, ws, removed, lossy) := retain_live now l ws in
        (q :: rest, ws, removed, lossy)
  end.

Definition prune_rejected_work (pq : PriorityQueue) (ws : Works) (p : nat) (now : Z) : option (PriorityQueue * Works) :=
  let '(rest, ws, removed, lossy) := retain_live now (queues pq !!! p) ws in
  pq ← sub_lossy (set_queue pq p rest) p lossy;
  Some (add_drops pq removed, ws).

Fixpoint prune_all (pq : PriorityQueue) (ws : Works) (now : Z) (ps : list nat) : option (PriorityQueue * Works) :=
  match ps with
  | [] => Some (pq, ws)
  | p :: ps => '(pq, ws) ← prune_rejected_work pq ws p now; prune_all pq ws now ps
  end.

(** ** Pushing *)

Definition env_rejected (ws : Works) (env : FrameEnvelope) (now : Z) : bool :=
  is_some_and (env_local_work env) (fun c => cell_rejected ws c now).

Definition env_stale (env : FrameEnvelope) (now : Z) : bool :=
  is_some_and (env_expires_at env) (fun at_ => at_ <=? now)
  || (lossy_realtime_max_age (env_priority env) <? sat_sub now (env_queued_at env)).

Definition entry_of (env : FrameEnvelope) (enqueued_at : option Z) (lossy : bool) : QueuedFrame :=
  mkQueued (env_local_work env) (env_frame env) enqueued_at (env_expires_at env) lossy (env_carrier env)
    (env_reliable_credit env) (env_signaling env).

Definition no_credit (q : QueuedFrame) : bool := negb (is_some (reliable_credit q)).
Definition ordinary_len (pq : PriorityQueue) : Z := zlen (filter (fun q => no_credit q = true) (concat (queues pq))).

(** The loop that sheds one entry without a credit, from the last queue on. *)
Fixpoint shed_one (pq : PriorityQueue) (ws : Works) (ps : list nat) : option (PriorityQueue * Works * bool) :=
  match ps with
  | [] => Some (pq, ws, false)
  | shed_p :: ps =>
      match take_first no_credit (queues pq !!! shed_p) with
      | Some (queued, rest) =>
          pq ← sub_lossy (set_queue pq shed_p rest) shed_p (lossy_bit queued);
          Some (add_drops pq 1, trace_lossy_drop ws queued, true)
      | None => shed_one pq ws ps
      end
  end.

Definition push_entry (pq : PriorityQueue) (ws : Works) (env : FrameEnvelope) (enqueued_at : option Z) (now : Z) :
    option (PriorityQueue * Works) :=
  let lossy := is_some enqueued_at in
  if env_rejected ws env now then Some (add_drops pq 1, ws)
  else
    '(pq, ws) ← (if max_depth pq <=? pq_len pq then prune_all pq ws now (seq 0 LOCAL_QUEUE_COUNT) else Some (pq, ws));
    let p := queue_index (env_priority env) in
    '(pq, ws, room) ←
      (if negb (is_some (env_reliable_credit env)) && (max_depth pq <=? pq_len pq) && (max_depth pq <=? ordinary_len pq)
       then shed_one pq ws (reverse (seq p (LOCAL_QUEUE_COUNT - p))) else Some (pq, ws, true));
    if negb room then Some (add_drops pq 1, reject_work ws (env_local_work env))
    else if env_rejected ws env now then Some (add_drops pq 1, ws)
    else
      let pq := set_queue pq p (queues pq !!! p ++ [entry_of env enqueued_at lossy]) in
      Some (if lossy then pq <| lossy_realtime_len := <[p := lossy_realtime_len pq !!! p + 1]> (lossy_realtime_len pq) |> else pq, ws).

(** At the limit of its class, the oldest loss-tolerant entry goes. *)
Definition drop_oldest_lossy (pq : PriorityQueue) (ws : Works) (p : nat) : option (PriorityQueue * Works) :=
  '(queued, rest) ← take_first lossy_realtime (queues pq !!! p);
  pq ← sub_lossy (set_queue pq p rest) p 1;
  Some (add_drops pq 1, trace_lossy_drop ws queued).

Definition push_lossy_with_carrier (pq : PriorityQueue) (ws : Works) (env : FrameEnvelope) (now : Z) : option (PriorityQueue * Works) :=
  if env_rejected ws env now then Some (add_drops pq 1, ws)
  else if env_stale env now then Some (add_drops pq 1, reject_work ws (env_local_work env))
  else
    let p := queue_index (env_priority env) in
    let full pq := LOSSY_REALTIME_MAX_DEPTH <=? lossy_realtime_len pq !!! p in
    '(pq, ws) ← (if full pq then prune_rejected_work pq ws p now else Some (pq, ws));
    '(pq, ws) ← (if full pq then drop_oldest_lossy pq ws p else Some (pq, ws));
    push_entry pq ws env (Some (env_queued_at env)) now.

Definition push_envelope (pq : PriorityQueue) (ws : Works) (env : FrameEnvelope) (lossy : bool) (now : Z) : option (PriorityQueue * Works) :=
  if lossy then push_lossy_with_carrier pq ws env now else push_entry pq ws env None now.

Definition push (pq : PriorityQueue) (ws : Works) (priority : Z) (frame : list byte) (now : Z) := push_envelope pq ws (envelope_from priority frame now) false now.
Definition push_lossy (pq : PriorityQueue) (ws : Works) (priority : Z) (frame : list byte) (now : Z) := push_envelope pq ws (envelope_from priority frame now) true now.
Definition push_lossy_realtime (pq : PriorityQueue) (ws : Works) (priority : Z) (frame : list byte) (now : Z) :=
  if Z.min priority 3 =? REALTIME then push_lossy pq ws priority frame now else push pq ws priority frame now.

Definition restore_lossy_envelope (pq : PriorityQueue) (ws : Works) (env : FrameEnvelope) (now : Z) : PriorityQueue * Works :=
  if env_rejected ws env now then (add_drops pq 1, ws)
  else if env_stale env now then (add_drops pq 1, reject_work ws (env_local_work env))
  else
    let p := queue_index (env_priority env) in
    let pq := set_queue pq p (entry_of env (Some (env_queued_at env)) true :: queues pq !!! p) in
    (pq <| lossy_realtime_len := <[p := lossy_realtime_len pq !!! p + 1]> (lossy_realtime_len pq) |>, ws).

Definition push_lossy_front (pq : PriorityQueue) (ws : Works) (priority : Z) (frame : list byte) (now : Z) :=
  restore_lossy_envelope pq ws (envelope_from priority frame now) now.

(** ** Popping *)

(** The heads that are expired go; with the number of lossy entries counted for the queue and of drops. *)
Fixpoint drop_expired (now priority : Z) (l : list QueuedFrame) (len drops : Z) (ws : Works) : option (list QueuedFrame * Z * Z * Works) :=
  match l with
  | q :: rest =>
      if expired ws now priority q then
        if len <? lossy_bit q then None
        else drop_expired now priority rest (len - lossy_bit q) (add64 drops 1) (trace_lossy_drop ws q)
      else Some (l, len, drops, ws)
  | [] => Some ([], len, drops, ws)
  end.

Definition expire_heads (pq : PriorityQueue) (ws : Works) (p : nat) (now : Z) : option (PriorityQueue * Works) :=
  '(l, len, drops, ws) ← drop_expired now (Z.of_nat p) (queues pq !!! p) (lossy_realtime_len pq !!! p) (drops_total pq) ws;
  Some (pq <| queues := <[p := l]> (queues pq) |> <| lossy_realtime_len := <[p := len]> (lossy_realtime_len pq) |> <| drops_total := drops |>, ws).

(** The head leaves, for a slot of its class. *)
Definition serve (pq : PriorityQueue) (p : nat) (queued : QueuedFrame) (rest : list QueuedFrame) : option PriorityQueue :=
  sub_lossy (set_queue pq p rest <| slots := <[p := slots pq !!! p - 1]> (slots pq) |>) p (lossy_bit queued).

Definition reset_round (pq : PriorityQueue) : PriorityQueue := pq <| slots := weights pq |>.

Fixpoint try_pop_with_current_slots (pq : PriorityQueue) (ws : Works) (now : Z) (ps : list nat) :
    option (PriorityQueue * Works * option (nat * QueuedFrame)) :=
  match ps with
  | [] => Some (pq, ws, None)
  | p :: ps =>
      if slots pq !!! p =? 0 then try_pop_with_current_slots pq ws now ps
      else
        '(pq, ws) ← expire_heads pq ws p now;
        match queues pq !!! p with
        | queued :: rest => pq ← serve pq p queued rest; Some (pq, ws, Some (p, queued))
        | [] => try_pop_with_current_slots pq ws now ps
        end
  end.

Definition pop_entry (pq : PriorityQueue) (ws : Works) (now : Z) : option (PriorityQueue * Works * option (nat * QueuedFrame)) :=
  '(pq, ws, r) ← try_pop_with_current_slots pq ws now (seq 0 LOCAL_QUEUE_COUNT);
  match r with
  | Some _ => Some (pq, ws, r)
  | None => if pq_is_empty pq then Some (pq, ws, None) else try_pop_with_current_slots (reset_round pq) ws now (seq 0 LOCAL_QUEUE_COUNT)
  end.

Definition pop (pq : PriorityQueue) (ws : Works) (now : Z) : option (PriorityQueue * Works * option (list byte)) :=
  '(pq, ws, r) ← pop_entry pq ws now; Some (pq, ws, option_map (fun e : nat * QueuedFrame => frame e.2) r).

(** The envelope an entry leaves in. *)
Definition to_envelope (priority now : Z) (q : QueuedFrame) : FrameEnvelope :=
  mkEnvelope (local_work q) priority (frame q) (carrier q) (default now (enqueued_at q)) (expires_at q) (reliable_credit q) (signaling_pending q).

(** What a scan of the queues for one frame ends with. *)
Inductive Scan := Taken (p : nat) (queued : QueuedFrame) | Flushed | Nothing.

Section admission.

(** The caller's closure, with its own state; it may decide on work items. *)
Context {A : Type} (predicate : A -> Works -> Z -> list byte -> bool -> option LocalLossyCell -> A * Works * HeadAdmission).

Fixpoint admit_scan (pq : PriorityQueue) (ws : Works) (a : A) (now : Z) (ps : list nat) : option (PriorityQueue * Works * A * Scan) :=
  match ps with
  | [] => Some (pq, ws, a, Nothing)
  | p :: ps =>
      if slots pq !!! p =? 0 then admit_scan pq ws a now ps
      else
        '(pq, ws) ← expire_heads pq ws p now;
        match queues pq !!! p with
        | [] => admit_scan pq ws a now ps
        | head :: rest =>
            let owned_reliable := is_some (reliable_credit head) && negb (is_some (carrier head)) in
            match predicate a ws (Z.of_nat p) (frame head) owned_reliable (local_work head) with
            | (a, ws, Allow) => pq ← serve pq p head rest; Some (pq, ws, a, Taken p head)
            | (a, ws, DeferSource) => admit_scan pq ws a now ps
            | (a, ws, FlushBatch) => Some (pq, ws, a, Flushed)
            end
        end
  end.

Definition pop_admitted_entry (pq : PriorityQueue) (ws : Works) (a : A) (now : Z) : option (PriorityQueue * Works * A * option (nat * QueuedFrame)) :=
  let outcome (s : Scan) := match s with Taken p queued => Some (p, queued) | _ => None end in
  '(pq, ws, a, s) ← admit_scan pq ws a now (seq 0 LOCAL_QUEUE_COUNT);
  match s with
  | Nothing =>
      let pq := if pq_is_empty pq then pq else reset_round pq in
      '(pq, ws, a, s) ← admit_scan pq ws a now (seq 0 LOCAL_QUEUE_COUNT);
      Some (pq, ws, a, outcome s)
  | _ => Some (pq, ws, a, outcome s)
  end.

Definition pop_admitted_envelope (pq : PriorityQueue) (ws : Works) (a : A) (now : Z) : option (PriorityQueue * Works * A * option FrameEnvelope) :=
  '(pq, ws, a, r) ← pop_admitted_entry pq ws a now;
  Some (pq, ws, a, option_map (fun e : nat * QueuedFrame => to_envelope (Z.of_nat e.1) now e.2) r).

End admission.

Definition pop_envelope_if (predicate : Z -> list byte -> bool) (pq : PriorityQueue) (ws : Works) (now : Z) : option (PriorityQueue * Works * option FrameEnvelope) :=
  '(pq, ws, _, r) ← pop_admitted_envelope (fun (a : unit) ws p f _ _ => (a, ws, if predicate p f then Allow else FlushBatch)) pq ws tt now;
  Some (pq, ws, r).

Definition pop_datagram_envelope_if (predicate : list byte -> bool) := pop_envelope_if (fun _ f => predicate f).

(** The first local datagram of a queue, past the ones that expired. *)
Fixpoint scan_local (predicate : Z -> list byte -> bool) (now priority : Z) (l : list QueuedFrame) (len drops : Z) (ws : Works) :
    option (list QueuedFrame * Z * Z * Works * option QueuedFrame) :=
  match l with
  | [] => Some ([], len, drops, ws, None)
  | q :: rest =>
      if lossy_realtime q && negb (is_some (carrier q)) then
        if expired ws now priority q then
          if len <? 1 then None else scan_local predicate now priority rest (len - 1) (add64 drops 1) (trace_lossy_drop ws q)
        else if negb (predicate priority (frame q)) then Some (l, len, drops, ws, None)
        else if len <? 1 then None else Some (rest, len - 1, drops, ws, Some q)
      else
        '(kept, len, drops, ws, r) ← scan_local predicate now priority rest len drops ws;
        Some (q :: kept, len, drops, ws, r)
  end.

Fixpoint local_scan (predicate : Z -> list byte -> bool) (pq : PriorityQueue) (ws : Works) (now : Z) (priorities : list Z) :
    option (PriorityQueue * Works * option (Z * QueuedFrame)) :=
  match priorities with
  | [] => Some (pq, ws, None)
  | priority :: priorities =>
      let p := Z.to_nat priority in
      if local_datagram_slots pq !!! p =? 0 then local_scan predicate pq ws now priorities
      else
        '(l, len, drops, ws, r) ← scan_local predicate now priority (queues pq !!! p) (lossy_realtime_len pq !!! p) (drops_total pq) ws;
        let pq := pq <| queues := <[p := l]> (queues pq) |> <| lossy_realtime_len := <[p := len]> (lossy_realtime_len pq) |> <| drops_total := drops |> in
        match r with
        | Some queued =>
            Some (pq <| local_datagram_slots := <[p := local_datagram_slots pq !!! p - 1]> (local_datagram_slots pq) |>, ws, Some (priority, queued))
        | None => local_scan predicate pq ws now priorities
        end
  end.

Definition pop_local_entry (predicate : Z -> list byte -> bool) (pq : PriorityQueue) (ws : Works) (now : Z) :
    option (PriorityQueue * Works * option (Z * QueuedFrame)) :=
  '(pq, ws, r) ← local_scan predicate pq ws now LOCAL_DATAGRAM_PRIORITIES;
  match r with
  | Some _ => Some (pq, ws, r)
  | None => local_scan predicate (pq <| local_datagram_slots := weights pq |>) ws now LOCAL_DATAGRAM_PRIORITIES
  end.

Definition pop_local_datagram_lane_if (predicate : Z -> list byte -> bool) (pq : PriorityQueue) (ws : Works) (now : Z) :
    option (PriorityQueue * Works * option FrameEnvelope) :=
  '(pq, ws, r) ← pop_local_entry predicate pq ws now;
  Some (pq, ws, option_map (fun e : Z * QueuedFrame => to_envelope e.1 now e.2) r).

(** Stale heads of the realtime queue go without a word to their work. *)
Fixpoint drop_stale (now : Z) (l : list QueuedFrame) (len drops : Z) : option (list QueuedFrame * Z * Z) :=
  match l with
  | q :: rest =>
      if lossy_realtime q && is_some_and (enqueued_at q) (fun at_ => LOCAL_PRIMARY_MAX_AGE <? sat_sub now at_) then
        if len <? 1 then None else drop_stale now rest (len - 1) (add64 drops 1)
      else Some (l, len, drops)
  | [] => Some ([], len, drops)
  end.

Definition pop_realtime_if (predicate : list byte -> bool) (pq : PriorityQueue) (now : Z) : option (PriorityQueue * option QueuedFrame) :=
  '(l, len, drops) ← drop_stale now (queues pq !!! 0%nat) (lossy_realtime_len pq !!! 0%nat) (drops_total pq);
  let pq := pq <| queues := <[0%nat := l]> (queues pq) |> <| lossy_realtime_len := <[0%nat := len]> (lossy_realtime_len pq) |> <| drops_total := drops |> in
  match l with
  | [] => Some (pq, None)
  | head :: rest =>
      if predicate (frame head) then pq ← sub_lossy (set_queue pq 0 rest) 0 (lossy_bit head); Some (pq, Some head)
      else Some (pq, None)
  end.

(** ** Looking *)

Definition peek_priority (pq : PriorityQueue) : option Z :=
  option_map fst (list_find (fun l => is_nil l = false) (queues pq) ≫= fun e => Some (Z.of_nat e.1, e.2)).

Definition coalescing_priority (pq : PriorityQueue) : option Z :=
  if negb (is_nil (queues pq !!! 6%nat)) then Some (Z.min (default INTERACTIVE (peek_priority pq)) INTERACTIVE) else peek_priority pq.

Definition note_local_primary (pq : PriorityQueue) (now : Z) : PriorityQueue := pq <| local_primary_seen := Some now |>.
Definition local_primary_active (pq : PriorityQueue) (now : Z) : bool :=
  is_some_and (local_primary_seen pq) (fun at_ => sat_sub now at_ <? 3 * NANOS).

Definition local_primary_waiting_deadline (predicate : list byte -> bool) (pq : PriorityQueue) (now : Z) : option Z :=
  let until q := default now (enqueued_at q) + LOCAL_PRIMARY_MAX_AGE in
  let waiting := filter (fun q => negb (is_some (carrier q)) && predicate (frame q) && (now <? until q) = true) (queues pq !!! 0%nat) in
  foldl (fun m q => Some (match m with Some m => Z.max m (until q) | None => until q end)) None waiting.
