(* ===== verification/PriorityQueueInv.v ===== *)
(** * The queue of outgoing frames keeps its promises

    What the operations of [PriorityQueue] do to the queues: the counters are exact, so nothing
    panics; the limits hold; the frames of a class keep their order; and a frame with a reliable
    credit is neither lost nor starved. *)

From S2P Require Import Prelude Float LossyWork PriorityQueue.
#[local] Open Scope Z_scope.
#[local] Open Scope list_scope.

(** ** Entries *)

Definition lossy_count (l : list QueuedFrame) : Z := zlen (filter (fun q => lossy_realtime q = true) l).

(** A frame that is never dropped: it holds a credit and has no lifetime, no deadline and no work item. *)
Definition durable (q : QueuedFrame) : bool :=
  is_some (reliable_credit q) && negb (lossy_realtime q) && negb (is_some (expires_at q)) && negb (is_some (local_work q)).

(** A datagram of this node, which may leave by a transport of its own. *)
Definition is_local (q : QueuedFrame) : bool := lossy_realtime q && negb (is_some (carrier q)).

Definition age_ok (q : QueuedFrame) : Prop := lossy_realtime q = is_some (enqueued_at q).

Lemma durable_live ws now priority q : durable q = true -> expired ws now priority q = false.
Proof.
  unfold durable, expired. destruct (lossy_realtime q); [by rewrite andb_false_r|].
  destruct (expires_at q), (local_work q); cbn; rewrite ?andb_false_r; done.
Qed.

Lemma lossy_count_cons q l : lossy_count (q :: l) = lossy_bit q + lossy_count l.
Proof.
  unfold lossy_count, lossy_bit. rewrite filter_cons. case_decide as E; [rewrite E, zlen_cons; lia|]. by destruct (lossy_realtime q).
Qed.

Lemma lossy_count_app l l' : lossy_count (l ++ l') = lossy_count l + lossy_count l'.
Proof. unfold lossy_count. by rewrite filter_app, zlen_app. Qed.

Lemma lossy_count_nonneg l : 0 <= lossy_count l.
Proof. apply zlen_nonneg. Qed.

(** ** Lists that lost some entries *)

Lemma sublist_filter_mono {A} (P : A -> Prop) `{!forall x, Decision (P x)} (l l' : list A) : sublist l l' -> sublist (filter P l) (filter P l').
Proof. induction 1; rewrite ?filter_nil, ?filter_cons; repeat case_decide; try constructor; done. Qed.

Definition durables (l : list QueuedFrame) : list QueuedFrame := filter (fun q => durable q = true) l.

(** [l'] is [l] without some entries that may be dropped. *)
Record thins (l l' : list QueuedFrame) : Prop := {
  th_sub : sublist l' l;
  th_durable : durables l' = durables l
}.

Lemma thins_refl l : thins l l.
Proof. by split. Qed.

Lemma thins_trans l1 l2 l3 : thins l1 l2 -> thins l2 l3 -> thins l1 l3.
Proof. intros [? ?] [? ?]. split; [by etrans|congruence]. Qed.

Lemma thins_cons q l l' : thins l l' -> thins (q :: l) (q :: l').
Proof. intros [Hs Hd]. split; [by constructor|]. unfold durables in *. rewrite !filter_cons. case_decide; congruence. Qed.

Lemma thins_drop q l l' : durable q = false -> thins l l' -> thins (q :: l) l'.
Proof. intros Hq [Hs Hd]. split; [by constructor|]. unfold durables in *. by rewrite filter_cons_False by congruence. Qed.

Lemma thins_app l l' k k' : thins l l' -> thins k k' -> thins (l ++ k) (l' ++ k').
Proof. intros [Hs Hd] [Hs' Hd']. split; [by apply sublist_app|]. unfold durables in *. rewrite !filter_app. congruence. Qed.

(** A durable entry stays, with no more entries in front of it. *)
Lemma thins_before l1 x l2 l' : thins (l1 ++ x :: l2) l' -> durable x = true ->
  exists l1' l2', l' = l1' ++ x :: l2' /\ (length l1' <= length l1)%nat.
Proof.
  intros [Hs Hd] Hx. apply sublist_app_r in Hs as (a & b & -> & Ha & Hb).
  apply sublist_cons_r in Hb as [Hb|(b' & -> & Hb)]; [|exists a, b'; split; [done|by apply sublist_length]]. exfalso.
  unfold durables in Hd. rewrite !filter_app, filter_cons_True in Hd by done.
  apply (f_equal length) in Hd. rewrite !length_app in Hd. cbn in Hd.
  apply (sublist_filter_mono (fun q => durable q = true)), sublist_length in Ha, Hb. lia.
Qed.

(** [taken] left [l] and [l'] stays: the local datagrams came out in their order, so did the other
    frames, and only what may be dropped was. *)
Record leaves (l taken l' : list QueuedFrame) : Prop := {
  lv_order b : sublist (filter (fun q => is_local q = b) (taken ++ l')) (filter (fun q => is_local q = b) l);
  lv_durable : durables (taken ++ l') = durables l
}.

Lemma leaves_thins l taken l' : thins l (taken ++ l') -> leaves l taken l'.
Proof. intros [Hs Hd]. split; [|done]. intros b. by apply sublist_filter_mono. Qed.

Lemma leaves_refl l : leaves l [] l.
Proof. apply leaves_thins, thins_refl. Qed.

Lemma leaves_trans l t1 l1 t2 l2 : leaves l t1 l1 -> leaves l1 t2 l2 -> leaves l (t1 ++ t2) l2.
Proof.
  intros [Ho Hd] [Ho' Hd']. split.
  - intros b. etrans; [|apply Ho]. rewrite <- app_assoc, !filter_app. apply sublist_app; [done|]. rewrite <- filter_app. apply Ho'.
  - rewrite <- Hd. unfold durables in *. rewrite <- app_assoc, !filter_app in *. congruence.
Qed.

Lemma leaves_snoc l t l' k : leaves l t l' -> leaves (l ++ k) t (l' ++ k).
Proof.
  intros [Ho Hd]. split.
  - intros b. rewrite app_assoc, !(filter_app _ _ k). by apply sublist_app.
  - unfold durables in *. rewrite app_assoc, !(filter_app _ _ k). congruence.
Qed.

Lemma locals_split {A} (f : A -> bool) l : filter (fun x => f x = true) l ++ filter (fun x => f x = false) l ≡ₚ l.
Proof.
  induction l as [|x l IH]; [done|]. rewrite !filter_cons. destruct (f x) eqn:E; repeat case_decide; try congruence; cbn.
  - by rewrite IH.
  - by rewrite <- Permutation_middle, IH.
Qed.

(** Nothing appears. *)
Lemma leaves_submseteq l t l' : leaves l t l' -> t ++ l' ⊆+ l.
Proof.
  intros [Ho _]. rewrite <- (locals_split is_local (t ++ l')), <- (locals_split is_local l).
  apply submseteq_app; apply sublist_submseteq, Ho.
Qed.

Lemma submseteq_count (P : QueuedFrame -> Prop) `{!forall x, Decision (P x)} l l' : l ⊆+ l' -> zlen (filter P l) <= zlen (filter P l').
Proof.
  intros [k Ek]%submseteq_Permutation. apply (filter_Permutation P), Permutation_length in Ek. rewrite filter_app, length_app in Ek.
  unfold zlen. lia.
Qed.

(** ** The state *)

Record pq_ok (pq : PriorityQueue) : Prop := {
  ok_queues : length (queues pq) = LOCAL_QUEUE_COUNT;
  ok_slots_len : length (slots pq) = LOCAL_QUEUE_COUNT;
  ok_lossy_len : length (lossy_realtime_len pq) = LOCAL_QUEUE_COUNT;
  ok_count p : (p < LOCAL_QUEUE_COUNT)%nat -> lossy_realtime_len pq !!! p = lossy_count (queues pq !!! p);
  ok_aged p : (p < LOCAL_QUEUE_COUNT)%nat -> Forall age_ok (queues pq !!! p);
  ok_weights_len : length (weights pq) = LOCAL_QUEUE_COUNT
}.

(** A queue is replaced, and its counter with it. *)
Definition put (pq : PriorityQueue) (p : nat) (l : list QueuedFrame) : PriorityQueue :=
  pq <| queues := <[p := l]> (queues pq) |> <| lossy_realtime_len := <[p := lossy_count l]> (lossy_realtime_len pq) |>.

Lemma put_queue pq p l q : pq_ok pq -> (p < LOCAL_QUEUE_COUNT)%nat ->
  queues (put pq p l) !!! q = if decide (q = p) then l else queues pq !!! q.
Proof.
  intros Hok Hp. unfold put. cbn. case_decide as E.
  - subst. apply list_lookup_total_insert_eq. by rewrite (ok_queues _ Hok).
  - by apply list_lookup_total_insert_ne.
Qed.

(** The numbers of drops and the slots play no part. *)
Lemma put_ok pq p l d s s' : pq_ok pq -> (p < LOCAL_QUEUE_COUNT)%nat -> Forall age_ok l -> length s = LOCAL_QUEUE_COUNT ->
  pq_ok (put pq p l <| drops_total := d |> <| slots := s |> <| local_datagram_slots := s' |>).
Proof.
  intros Hok Hp Hl Hs. pose proof (fun q => put_queue pq p l q Hok Hp) as Eq. destruct Hok as [H1 H2 H3 H4 H5 H6].
  split; cbn; rewrite ?length_insert; try done.
  - intros q Hq. specialize (Eq q). cbn in Eq. rewrite Eq. case_decide as E.
    + subst. apply list_lookup_total_insert_eq. by rewrite H3.
    + rewrite list_lookup_total_insert_ne by done. by apply H4.
  - intros q Hq. specialize (Eq q). cbn in Eq. rewrite Eq. case_decide; [done|by apply H5].
Qed.

Lemma put_self pq p : pq_ok pq -> (p < LOCAL_QUEUE_COUNT)%nat -> put pq p (queues pq !!! p) = pq.
Proof.
  intros [H1 H2 H3 H4 H5 H6] Hp. unfold put. rewrite <- H4 by done. rewrite !list_insert_id.
  - by destruct pq.
  - apply list_lookup_lookup_total_lt. by rewrite H1.
  - apply list_lookup_lookup_total_lt. by rewrite H3.
Qed.

Lemma aged_sub l l' : sublist l' l -> Forall age_ok l -> Forall age_ok l'.
Proof. intros Hs Hl. rewrite Forall_forall in *. intros q Hq. apply Hl. eapply elem_of_submseteq; [done|]. by apply sublist_submseteq. Qed.

(** [-=] on a counter that is exact. *)
Lemma sub_lossy_put pq p rest n : pq_ok pq -> (p < LOCAL_QUEUE_COUNT)%nat -> lossy_count rest = lossy_count (queues pq !!! p) - n ->
  sub_lossy (set_queue pq p rest) p n = Some (put pq p rest).
Proof.
  intros Hok Hp E. unfold sub_lossy, set_queue. cbn. rewrite (ok_count _ Hok p Hp). pose proof (lossy_count_nonneg rest).
  rewrite (proj2 (Z.ltb_ge _ _)) by lia. unfold put. by rewrite E.
Qed.

(** ** What the parts of the operations do *)

Lemma take_first_Some {A} (f : A -> bool) l x rest : take_first f l = Some (x, rest) ->
  exists l1 l2, l = l1 ++ x :: l2 /\ rest = l1 ++ l2 /\ f x = true.
Proof.
  revert rest. induction l as [|y l IH]; intros rest; cbn; [done|]. destruct (f y) eqn:E.
  - intros [= -> ->]. by exists [], rest.
  - intros ([z r] & E' & [= -> <-])%bind_Some. destruct (IH r E') as (l1 & l2 & -> & -> & Hx). by exists (y :: l1), l2.
Qed.

Lemma take_first_None {A} (f : A -> bool) l : take_first f l = None -> filter (fun x => f x = true) l = [].
Proof.
  induction l as [|y l IH]; cbn [take_first]; [done|]. destruct (f y) eqn:E; [done|]. intros H. rewrite filter_cons_False by congruence. apply IH.
  destruct (take_first f l) as [[]|]; done.
Qed.

Lemma thins_remove l1 x l2 : durable x = false -> thins (l1 ++ x :: l2) (l1 ++ l2).
Proof. intros Hx. apply thins_app; [apply thins_refl|]. apply thins_drop; [done|apply thins_refl]. Qed.

Lemma retain_live_spec now l : forall ws,
  let '(rest, _, _, lossy) := retain_live now l ws in thins l rest /\ lossy_count rest = lossy_count l - lossy.
Proof.
  induction l as [|q l IH]; intros ws; cbn [retain_live]; [split; [apply thins_refl|done]|]. destruct (is_some_and _ _) eqn:E.
  - specialize (IH (trace_lossy_drop ws q)). destruct (retain_live _ _ _) as [[[rest ws'] removed] lossy]. destruct IH as [Ht Hc].
    rewrite lossy_count_cons. split; [|lia]. apply thins_drop; [|done]. unfold durable. destruct (local_work q); [|done]. by rewrite andb_false_r.
  - specialize (IH ws). destruct (retain_live _ _ _) as [[[rest ws'] removed] lossy]. destruct IH as [Ht Hc].
    rewrite !lossy_count_cons. split; [by apply thins_cons|lia].
Qed.

(** The queues after an operation, given those before it; everything else but the counters is kept. *)
Record pq_thins (pq pq' : PriorityQueue) : Prop := {
  pt_weights : weights pq' = weights pq;
  pt_slots : slots pq' = slots pq;
  pt_depth : max_depth pq' = max_depth pq;
  pt_queues p : (p < LOCAL_QUEUE_COUNT)%nat -> thins (queues pq !!! p) (queues pq' !!! p)
}.

Lemma pq_thins_refl pq : pq_thins pq pq.
Proof. by split. Qed.

Lemma pq_thins_trans pq1 pq2 pq3 : pq_thins pq1 pq2 -> pq_thins pq2 pq3 -> pq_thins pq1 pq3.
Proof. intros [? ? ? H1] [? ? ? H2]. split; try congruence. intros p Hp. eapply thins_trans; [by apply H1|by apply H2]. Qed.

(** A queue replaced by a thinner one. *)
Lemma put_thins pq p l d : pq_ok pq -> (p < LOCAL_QUEUE_COUNT)%nat -> thins (queues pq !!! p) l ->
  pq_ok (put pq p l <| drops_total := d |>) /\ pq_thins pq (put pq p l <| drops_total := d |>).
Proof.
  intros Hok Hp Ht. split.
  - exact (put_ok pq p l d (slots pq) (local_datagram_slots pq) Hok Hp (aged_sub _ _ (th_sub _ _ Ht) (ok_aged _ Hok p Hp)) (ok_slots_len _ Hok)).
  - split; try done. intros q Hq. change (queues (put pq p l <| drops_total := d |>)) with (queues (put pq p l)).
    rewrite put_queue by done. case_decide; [by subst|apply thins_refl].
Qed.

Lemma prune_rejected_spec pq ws p now : pq_ok pq -> (p < LOCAL_QUEUE_COUNT)%nat ->
  exists pq' ws', prune_rejected_work pq ws p now = Some (pq', ws') /\ pq_ok pq' /\ pq_thins pq pq'.
Proof.
  intros Hok Hp. unfold prune_rejected_work. pose proof (retain_live_spec now (queues pq !!! p) ws) as Hr.
  destruct (retain_live _ _ _) as [[[rest ws'] removed] lossy]. destruct Hr as [Ht Hc].
  rewrite sub_lossy_put by (done || lia). cbn [mbind option_bind]. eexists _, _. split; [done|]. by apply put_thins.
Qed.

Lemma prune_all_spec ps : forall pq ws now, pq_ok pq -> Forall (fun p => (p < LOCAL_QUEUE_COUNT)%nat) ps ->
  exists pq' ws', prune_all pq ws now ps = Some (pq', ws') /\ pq_ok pq' /\ pq_thins pq pq'.
Proof.
  induction ps as [|p ps IH]; intros pq ws now Hok Hps; cbn [prune_all].
  - eexists _, _. split_and!; [done|done|apply pq_thins_refl].
  - apply Forall_cons in Hps as [Hp Hps]. destruct (prune_rejected_spec pq ws p now Hok Hp) as (pq1 & ws1 & -> & Hok1 & Ht1). cbn [mbind option_bind].
    destruct (IH pq1 ws1 now Hok1 Hps) as (pq2 & ws2 & -> & Hok2 & Ht2). eexists _, _. split_and!; [done|done|by eapply pq_thins_trans].
Qed.

Lemma drop_expired_spec now priority l : forall drops ws, exists l' drops' ws',
  drop_expired now priority l (lossy_count l) drops ws = Some (l', lossy_count l', drops', ws') /\ thins l l'.
Proof.
  induction l as [|q l IH]; intros drops ws; cbn [drop_expired]; [eexists _, _, _; split; [done|apply thins_refl]|].
  destruct (expired ws now priority q) eqn:E; [|eexists _, _, _; split; [done|apply thins_refl]].
  rewrite lossy_count_cons. pose proof (lossy_count_nonneg l). rewrite (proj2 (Z.ltb_ge _ _)) by lia.
  replace (lossy_bit q + lossy_count l - lossy_bit q) with (lossy_count l) by lia.
  destruct (IH (add64 drops 1) (trace_lossy_drop ws q)) as (l' & d & ws' & -> & Ht). eexists _, _, _. split; [done|].
  apply thins_drop; [|done]. destruct (durable q) eqn:Eq; [|done]. by rewrite durable_live in E.
Qed.

Lemma expire_heads_spec pq ws p now : pq_ok pq -> (p < LOCAL_QUEUE_COUNT)%nat ->
  exists pq' ws', expire_heads pq ws p now = Some (pq', ws') /\ pq_ok pq' /\ pq_thins pq pq'.
Proof.
  intros Hok Hp. unfold expire_heads. rewrite (ok_count _ Hok p Hp).
  destruct (drop_expired_spec now (Z.of_nat p) (queues pq !!! p) (drops_total pq) ws) as (l' & d & ws' & -> & Ht). cbn [mbind option_bind].
  eexists _, _. split; [done|]. by apply put_thins.
Qed.

(** ** Pushing *)

Definition ordinary (l : list QueuedFrame) : Z := zlen (filter (fun q => no_credit q = true) l).

Lemma concat_insert_count (P : QueuedFrame -> Prop) `{!forall x, Decision (P x)} (ls : list (list QueuedFrame)) p l : (p < length ls)%nat ->
  zlen (filter P (concat (<[p := l]> ls))) = zlen (filter P (concat ls)) - zlen (filter P (ls !!! p)) + zlen (filter P l).
Proof.
  revert p. induction ls as [|k ls IH]; intros p Hp; [cbn in Hp; lia|]. destruct p as [|p].
  - change (<[0%nat := l]> (k :: ls)) with (l :: ls). cbn [concat]. change ((k :: ls) !!! 0%nat) with k. rewrite !filter_app, !zlen_app. lia.
  - change (<[S p := l]> (k :: ls)) with (k :: <[p := l]> ls). change ((k :: ls) !!! S p) with (ls !!! p). cbn [concat]. rewrite !filter_app, !zlen_app.
    rewrite IH by (cbn in Hp; lia). lia.
Qed.

Lemma ordinary_put pq p l d s s' : pq_ok pq -> (p < LOCAL_QUEUE_COUNT)%nat ->
  ordinary_len (put pq p l <| drops_total := d |> <| slots := s |> <| local_datagram_slots := s' |>) = ordinary_len pq - ordinary (queues pq !!! p) + ordinary l.
Proof. intros Hok Hp. unfold ordinary_len, ordinary. cbn. apply concat_insert_count. by rewrite (ok_queues _ Hok). Qed.

Lemma submseteq_concat (ls ls' : list (list QueuedFrame)) : Forall2 submseteq ls ls' -> concat ls ⊆+ concat ls'.
Proof. induction 1; cbn; [done|]. by apply submseteq_app. Qed.

Lemma queues_submseteq pq pq' : pq_ok pq -> pq_ok pq' -> (forall p, (p < LOCAL_QUEUE_COUNT)%nat -> queues pq' !!! p ⊆+ queues pq !!! p) ->
  concat (queues pq') ⊆+ concat (queues pq).
Proof.
  intros Hok Hok' H. apply submseteq_concat. apply Forall2_same_length_lookup_2; [by rewrite (ok_queues _ Hok), (ok_queues _ Hok')|].
  intros p l l' El El'. assert (p < LOCAL_QUEUE_COUNT)%nat as Hp by (rewrite <- (ok_queues _ Hok); by eapply lookup_lt_Some).
  specialize (H p Hp). by rewrite (list_lookup_total_correct _ _ _ El), (list_lookup_total_correct _ _ _ El') in H.
Qed.

Lemma ordinary_thins pq pq' : pq_ok pq -> pq_ok pq' -> pq_thins pq pq' -> ordinary_len pq' <= ordinary_len pq.
Proof.
  intros Hok Hok' Ht. apply submseteq_count, queues_submseteq; try done. intros p Hp. apply sublist_submseteq, (pt_queues _ _ Ht p Hp).
Qed.

Lemma ordinary_app l l' : ordinary (l ++ l') = ordinary l + ordinary l'.
Proof. unfold ordinary. by rewrite filter_app, zlen_app. Qed.

Lemma ordinary_one q l : ordinary (q :: l) = ordinary l + (if no_credit q then 1 else 0).
Proof. unfold ordinary. rewrite filter_cons. case_decide as E; [rewrite E, zlen_cons; lia|]. destruct (no_credit q); [done|lia]. Qed.

Lemma no_credit_disposable q : no_credit q = true -> durable q = false.
Proof. unfold no_credit, durable. by destruct (is_some (reliable_credit q)). Qed.

Lemma shed_one_spec ps : forall pq ws, pq_ok pq -> Forall (fun p => (p < LOCAL_QUEUE_COUNT)%nat) ps ->
  exists pq' ws' room, shed_one pq ws ps = Some (pq', ws', room) /\ pq_ok pq' /\ pq_thins pq pq' /\
    (room = true -> ordinary_len pq' = ordinary_len pq - 1).
Proof.
  induction ps as [|p ps IH]; intros pq ws Hok Hps; cbn [shed_one]; [eexists _, _, _; split_and!; [done|done|apply pq_thins_refl|done]|].
  apply Forall_cons in Hps as [Hp Hps]. destruct (take_first _ _) as [[x rest]|] eqn:E; [|by apply IH].
  apply take_first_Some in E as (l1 & l2 & El & -> & Hx).
  rewrite sub_lossy_put by (done || (rewrite El, !lossy_count_app, lossy_count_cons; lia)). cbn [mbind option_bind].
  assert (thins (queues pq !!! p) (l1 ++ l2)) as Ht by (rewrite El; apply thins_remove; by apply no_credit_disposable).
  destruct (put_thins pq p (l1 ++ l2) (add64 (drops_total (put pq p (l1 ++ l2))) 1) Hok Hp Ht) as [Hok' Ht'].
  eexists _, _, _. split_and!; [done|exact Hok'|exact Ht'|]. intros _. etrans; [exact (ordinary_put pq p (l1 ++ l2) _ (slots pq) (local_datagram_slots pq) Hok Hp)|].
  rewrite El, !ordinary_app, ordinary_one, Hx. lia.
Qed.

Lemma queue_index_lt priority : 0 <= priority -> (queue_index priority < LOCAL_QUEUE_COUNT)%nat.
Proof. unfold queue_index, LOCAL_QUEUE_COUNT. intros. repeat case_match; lia. Qed.

(** An operation offers [e] to queue [p]. *)
Record pq_offers (pq : PriorityQueue) (p : nat) (e : QueuedFrame) (pq' : PriorityQueue) : Prop := {
  po_ok : pq_ok pq';
  po_weights : weights pq' = weights pq;
  po_slots : slots pq' = slots pq;
  po_depth : max_depth pq' = max_depth pq;
  po_queues q : (q < LOCAL_QUEUE_COUNT)%nat -> thins (queues pq !!! q ++ if decide (q = p) then [e] else []) (queues pq' !!! q)
}.

(** The offered entry is dropped. *)
Lemma offers_drop pq p e pq' : pq_ok pq' -> pq_thins pq pq' -> durable e = false -> pq_offers pq p e pq'.
Proof.
  intros Hok [Hw Hs Hd Hq] He. split; try done. intros q Hlt. rewrite <- (app_nil_r (queues pq' !!! q)).
  apply thins_app; [by apply Hq|]. case_decide; [apply thins_drop; [done|apply thins_refl]|apply thins_refl].
Qed.

(** Dropping an incoming frame counts it and changes no queue. *)
Lemma add_drops_ok pq pq' n : pq_ok pq' -> pq_thins pq pq' -> pq_ok (add_drops pq' n) /\ pq_thins pq (add_drops pq' n).
Proof. intros [] []. by split; split. Qed.

Lemma push_put pq p e : pq_ok pq -> (p < LOCAL_QUEUE_COUNT)%nat ->
  (let pq' := set_queue pq p (queues pq !!! p ++ [e]) in
   if lossy_realtime e then pq' <| lossy_realtime_len := <[p := lossy_realtime_len pq' !!! p + 1]> (lossy_realtime_len pq') |> else pq') =
  put pq p (queues pq !!! p ++ [e]).
Proof.
  intros Hok Hp. unfold put, set_queue. cbn zeta. rewrite lossy_count_app, lossy_count_cons, <- (ok_count _ Hok p Hp). unfold lossy_bit.
  destruct (lossy_realtime e); [cbn; repeat f_equal; change (lossy_count []) with 0; lia|]. change (0 + lossy_count []) with 0. rewrite Z.add_0_r.
  rewrite (list_insert_id (lossy_realtime_len pq)); [by destruct pq|]. apply list_lookup_lookup_total_lt. by rewrite (ok_lossy_len _ Hok).
Qed.

(** The offered entry joins its queue. *)
Lemma offers_push pq p e pq' : pq_ok pq' -> pq_thins pq pq' -> (p < LOCAL_QUEUE_COUNT)%nat -> age_ok e ->
  pq_offers pq p e (put pq' p (queues pq' !!! p ++ [e])) /\
  ordinary_len (put pq' p (queues pq' !!! p ++ [e])) = ordinary_len pq' + (if no_credit e then 1 else 0).
Proof.
  intros Hok [Hw Hs Hd Hq] Hp He. split.
  - split; try done.
    + apply (put_ok pq' p _ (drops_total pq') (slots pq') (local_datagram_slots pq') Hok Hp); [|apply Hok]. apply Forall_app. split; [by apply Hok|by constructor].
    + intros q Hlt. rewrite put_queue by done. case_decide; [subst; apply thins_app; [by apply Hq|apply thins_refl]|]. rewrite app_nil_r. by apply Hq.
  - etrans; [exact (ordinary_put pq' p _ (drops_total pq') (slots pq') (local_datagram_slots pq') Hok Hp)|]. rewrite ordinary_app, ordinary_one. change (ordinary []) with 0. lia.
Qed.

Lemma ordinary_le_len pq : ordinary_len pq <= pq_len pq.
Proof. unfold ordinary_len, pq_len, zlen. pose proof (length_filter (fun q => no_credit q = true) (concat (queues pq))). lia. Qed.

(** Room for an ordinary entry is made by shedding another one, or there is none. *)
Lemma shed_room_spec pq pq1 ws1 credit p : pq_ok pq1 -> pq_thins pq pq1 -> pq_ok pq -> (p < LOCAL_QUEUE_COUNT)%nat ->
  exists pq2 ws2 room,
    (if negb (is_some (credit : option Z)) && (max_depth pq1 <=? pq_len pq1) && (max_depth pq1 <=? ordinary_len pq1)
     then shed_one pq1 ws1 (reverse (seq p (LOCAL_QUEUE_COUNT - p))) else Some (pq1, ws1, true)) = Some (pq2, ws2, room) /\
    pq_ok pq2 /\ pq_thins pq pq2 /\ (room = false -> credit = None) /\
    (ordinary_len pq <= max_depth pq -> ordinary_len pq2 <= max_depth pq /\ (room = true -> credit = None -> ordinary_len pq2 < max_depth pq)).
Proof.
  intros Hok1 Ht Hok Hp. pose proof (ordinary_thins pq pq1 Hok Hok1 Ht) as Ho. pose proof (ordinary_le_len pq1) as Hle.
  rewrite (pt_depth _ _ Ht). destruct (negb _ && _ && _) eqn:E.
  - apply andb_true_iff in E as [[E1 E2]%andb_true_iff E3]. to_prop. destruct (shed_one_spec (reverse (seq p (LOCAL_QUEUE_COUNT - p))) pq1 ws1 Hok1) as (pq2 & ws2 & room & -> & Hok2 & Ht2 & Hr).
    { apply Forall_reverse, Forall_forall. intros q Hq%elem_of_seq. unfold LOCAL_QUEUE_COUNT in *. lia. }
    pose proof (ordinary_thins pq1 pq2 Hok1 Hok2 Ht2). eexists _, _, _. split_and!; [done|done|by eapply pq_thins_trans|by destruct credit|].
    intros Hmax. split; [lia|]. intros Er _. rewrite (Hr Er). lia.
  - eexists _, _, _. split_and!; [done|done|done|done|]. intros Hmax. split; [lia|]. intros _ ->. cbn in E. apply andb_false_iff in E as [E|E]; to_prop; lia.
Qed.

Lemma push_entry_spec pq ws env enq now : pq_ok pq -> 0 <= env_priority env ->
  exists pq' ws', push_entry pq ws env enq now = Some (pq', ws') /\
    pq_offers pq (queue_index (env_priority env)) (entry_of env enq (is_some enq)) pq' /\
    (ordinary_len pq <= max_depth pq -> ordinary_len pq' <= max_depth pq).
Proof.
  intros Hok Hprio. pose proof (queue_index_lt _ Hprio) as Hp. set (p := queue_index (env_priority env)) in *. set (e := entry_of env enq (is_some enq)).
  unfold push_entry. fold p.
  assert (forall ws', env_rejected ws' env now = true -> durable e = false) as Hrej.
  { intros ws' Er. unfold env_rejected, durable in *. cbn. destruct (env_local_work env); [|done]. by rewrite andb_false_r. }
  destruct (env_rejected ws env now) eqn:Er.
  { destruct (add_drops_ok pq pq 1 Hok (pq_thins_refl pq)) as [Hok' Ht]. eexists _, _. split_and!; [done|apply offers_drop; eauto|done]. }
  assert (exists pq1 ws1, (if max_depth pq <=? pq_len pq then prune_all pq ws now (seq 0 LOCAL_QUEUE_COUNT) else Some (pq, ws)) = Some (pq1, ws1) /\
    pq_ok pq1 /\ pq_thins pq pq1) as (pq1 & ws1 & -> & Hok1 & Ht1).
  { destruct (_ <=? _); [apply prune_all_spec; [done|repeat constructor]|]. eexists _, _. split_and!; [done|done|apply pq_thins_refl]. }
  cbn [mbind option_bind]. destruct (shed_room_spec pq pq1 ws1 (env_reliable_credit env) p Hok1 Ht1 Hok Hp) as (pq2 & ws2 & room & -> & Hok2 & Ht2 & Hno & Hord).
  cbn [mbind option_bind]. destruct room; cbn [negb].
  - destruct (env_rejected ws2 env now) eqn:Er2.
    + destruct (add_drops_ok pq pq2 1 Hok2 Ht2) as [Hok' Ht]. eexists _, _. split_and!; [done|apply offers_drop; eauto|]. intros Hmax. by apply Hord.
    + destruct (offers_push pq p e pq2 Hok2 Ht2 Hp eq_refl) as [Hoff Hlen]. eexists _, _.
      split_and!; [exact (f_equal (fun q => Some (q, ws2)) (push_put pq2 p e Hok2 Hp))|done|].
      intros Hmax. rewrite Hlen. destruct (Hord Hmax) as [H1 H2]. unfold no_credit. cbn. destruct (env_reliable_credit env); cbn; [lia|].
      specialize (H2 eq_refl eq_refl). lia.
  - destruct (add_drops_ok pq pq2 1 Hok2 Ht2) as [Hok' Ht]. eexists _, _. split_and!; [done|apply offers_drop; [done|done|]|intros Hmax; by apply Hord].
    unfold durable. cbn. by rewrite (Hno eq_refl).
Qed.

Lemma offers_after pq pq1 p e pq' : pq_thins pq pq1 -> pq_offers pq1 p e pq' -> pq_offers pq p e pq'.
Proof.
  intros [Hw Hs Hd Hq] [Hok Hw' Hs' Hd' Hq']. split; [done|congruence|congruence|congruence|]. intros q Hlt. eapply thins_trans; [|by apply Hq'].
  apply thins_app; [by apply Hq|apply thins_refl].
Qed.

Lemma thins_lossy l l' : thins l l' -> lossy_count l' <= lossy_count l.
Proof. intros [Hs _]. apply submseteq_count. by apply sublist_submseteq. Qed.

Lemma drop_oldest_spec pq ws p : pq_ok pq -> (p < LOCAL_QUEUE_COUNT)%nat -> 0 < lossy_count (queues pq !!! p) ->
  exists pq' ws', drop_oldest_lossy pq ws p = Some (pq', ws') /\ pq_ok pq' /\ pq_thins pq pq' /\
    lossy_count (queues pq' !!! p) = lossy_count (queues pq !!! p) - 1.
Proof.
  intros Hok Hp Hpos. unfold drop_oldest_lossy. destruct (take_first _ _) as [[x rest]|] eqn:E.
  - apply take_first_Some in E as (l1 & l2 & El & -> & Hx). cbn [mbind option_bind].
    assert (lossy_count (l1 ++ l2) = lossy_count (queues pq !!! p) - 1) as Hc by (rewrite El, !lossy_count_app, lossy_count_cons; unfold lossy_bit; rewrite Hx; lia).
    rewrite sub_lossy_put by done. cbn [mbind option_bind].
    assert (thins (queues pq !!! p) (l1 ++ l2)) as Ht by (rewrite El; apply thins_remove; unfold durable; rewrite Hx; by rewrite andb_false_r).
    destruct (put_thins pq p (l1 ++ l2) (add64 (drops_total (put pq p (l1 ++ l2))) 1) Hok Hp Ht) as [Hok' Ht'].
    eexists _, _. split_and!; [done|exact Hok'|exact Ht'|]. etrans; [|exact Hc]. f_equal. etrans; [exact (put_queue pq p (l1 ++ l2) p Hok Hp)|]. by rewrite decide_True.
  - apply take_first_None in E. unfold lossy_count in Hpos. rewrite E in Hpos. done.
Qed.

(** The limit on loss-tolerant frames, per class. *)
Definition within_lossy (pq : PriorityQueue) : Prop := forall p, (p < LOCAL_QUEUE_COUNT)%nat -> lossy_count (queues pq !!! p) <= LOSSY_REALTIME_MAX_DEPTH.

Lemma offers_lossy pq p e pq' : pq_offers pq p e pq' -> within_lossy pq -> (lossy_realtime e = true -> lossy_count (queues pq !!! p) < LOSSY_REALTIME_MAX_DEPTH) ->
  within_lossy pq'.
Proof.
  intros [_ _ _ _ Hq] Hw He q Hlt. etrans; [apply thins_lossy, (Hq q Hlt)|]. rewrite lossy_count_app. specialize (Hw q Hlt). case_decide as E.
  - subst. rewrite lossy_count_cons. change (lossy_count []) with 0. unfold lossy_bit. destruct (lossy_realtime e); [|lia]. specialize (He eq_refl). lia.
  - change (lossy_count []) with 0. lia.
Qed.

(** The limit of a class is made before a loss-tolerant frame joins it. *)
Lemma lossy_room_spec pq ws p now : pq_ok pq -> (p < LOCAL_QUEUE_COUNT)%nat ->
  let full pq := LOSSY_REALTIME_MAX_DEPTH <=? lossy_realtime_len pq !!! p in
  exists pq1 ws1 pq2 ws2, (if full pq then prune_rejected_work pq ws p now else Some (pq, ws)) = Some (pq1, ws1) /\
    (if full pq1 then drop_oldest_lossy pq1 ws1 p else Some (pq1, ws1)) = Some (pq2, ws2) /\ pq_ok pq2 /\ pq_thins pq pq2 /\
    (within_lossy pq -> lossy_count (queues pq2 !!! p) < LOSSY_REALTIME_MAX_DEPTH).
Proof.
  intros Hok Hp full.
  assert (exists pq1 ws1, (if full pq then prune_rejected_work pq ws p now else Some (pq, ws)) = Some (pq1, ws1) /\ pq_ok pq1 /\ pq_thins pq pq1)
    as (pq1 & ws1 & E1 & Hok1 & Ht1).
  { destruct (full pq); [by apply prune_rejected_spec|]. eexists _, _. split_and!; [done|done|apply pq_thins_refl]. }
  exists pq1, ws1. pose proof (thins_lossy _ _ (pt_queues _ _ Ht1 p Hp)) as Hle. unfold full in *. rewrite (ok_count _ Hok1 p Hp).
  destruct (LOSSY_REALTIME_MAX_DEPTH <=? lossy_count (queues pq1 !!! p)) eqn:Ef; to_prop.
  - destruct (drop_oldest_spec pq1 ws1 p Hok1 Hp) as (pq2 & ws2 & -> & Hok2 & Ht2 & Hc); [unfold LOSSY_REALTIME_MAX_DEPTH in Ef; lia|].
    eexists _, _. split_and!; [done|done|done|by eapply pq_thins_trans|]. intros Hw. specialize (Hw p Hp). lia.
  - eexists _, _. split_and!; [done|done|done|done|]. done.
Qed.

Definition offered (env : FrameEnvelope) (lossy : bool) : QueuedFrame := entry_of env (if lossy then Some (env_queued_at env) else None) lossy.

Lemma push_envelope_spec pq ws env lossy now : pq_ok pq -> 0 <= env_priority env ->
  exists pq' ws', push_envelope pq ws env lossy now = Some (pq', ws') /\
    pq_offers pq (queue_index (env_priority env)) (offered env lossy) pq' /\
    (ordinary_len pq <= max_depth pq -> ordinary_len pq' <= max_depth pq) /\ (within_lossy pq -> within_lossy pq').
Proof.
  intros Hok Hprio. pose proof (queue_index_lt _ Hprio) as Hp. unfold push_envelope. destruct lossy.
  - unfold push_lossy_with_carrier.
    assert (durable (offered env true) = false) as Hno by (unfold durable; cbn; by rewrite andb_false_r).
    assert (pq_ok (add_drops pq 1) /\ pq_thins pq (add_drops pq 1)) as [Hok' Ht'] by (apply add_drops_ok; [done|apply pq_thins_refl]).
    destruct (env_rejected ws env now); [eexists _, _; split_and!; [done|by apply offers_drop|done|done]|].
    destruct (env_stale env now); [eexists _, _; split_and!; [done|by apply offers_drop|done|done]|]. cbn zeta.
    destruct (lossy_room_spec pq ws (queue_index (env_priority env)) now Hok Hp) as (pq1 & ws1 & pq2 & ws2 & -> & E2 & Hok2 & Ht2 & Hroom).
    cbn [mbind option_bind]. rewrite E2. cbn [mbind option_bind].
    destruct (push_entry_spec pq2 ws2 env (Some (env_queued_at env)) now Hok2 Hprio) as (pq3 & ws3 & -> & Hoff & Hord).
    eexists _, _. split_and!; [done|by eapply offers_after| |].
    + intros Hmax. rewrite (pt_depth _ _ Ht2) in Hord. apply Hord. etrans; [by apply (ordinary_thins pq pq2)|done].
    + intros Hw. apply (offers_lossy _ _ _ _ Hoff); [|intros _; by apply Hroom]. intros q Hq. etrans; [apply thins_lossy, (pt_queues _ _ Ht2 q Hq)|by apply Hw].
  - destruct (push_entry_spec pq ws env None now Hok Hprio) as (pq3 & ws3 & -> & Hoff & Hord). eexists _, _. split_and!; [done|done|done|].
    intros Hw. by apply (offers_lossy _ _ _ _ Hoff).
Qed.
