(* ===== verification/PriorityQueueRuns.v ===== *)
(** * Runs of the queue of outgoing frames

    Pops, and any sequence of pushes and pops: nothing panics, the limits hold, the order of a class is
    kept, and a durable frame comes out after a bounded number of pops. *)

From S2P Require Import Prelude Float LossyWork PriorityQueue PriorityQueueInv.
#[local] Open Scope Z_scope.
#[local] Open Scope list_scope.

(** ** One pop *)

(** What a pop in the weighted rounds does: [r] leaves the head of its class, for a slot of it. *)
Record takes_turn (pq : PriorityQueue) (r : option (nat * QueuedFrame)) (pq' : PriorityQueue) : Prop := {
  sv_ok : pq_ok pq';
  sv_weights : weights pq' = weights pq;
  sv_depth : max_depth pq' = max_depth pq;
  sv_slots : slots pq' = match r with Some (p, _) => <[p := slots pq !!! p - 1]> (slots pq) | None => slots pq end;
  sv_class : match r with Some (p, _) => (p < LOCAL_QUEUE_COUNT)%nat | None => True end;
  sv_queues q : (q < LOCAL_QUEUE_COUNT)%nat ->
    thins (queues pq !!! q) (match r with Some (p, x) => if decide (q = p) then x :: queues pq' !!! q else queues pq' !!! q | None => queues pq' !!! q end)
}.

Lemma served_after pq pq1 r pq' : pq_thins pq pq1 -> takes_turn pq1 r pq' -> takes_turn pq r pq'.
Proof.
  intros [Hw Hs Hd Hq] [Hok Hw' Hd' Hs' Hc Hq']. split; [done|congruence|congruence| |done|].
  - rewrite Hs', Hs. done.
  - intros q Hlt. eapply thins_trans; [by apply Hq|by apply Hq'].
Qed.

Lemma served_none pq pq' : pq_ok pq' -> pq_thins pq pq' -> takes_turn pq None pq'.
Proof. by intros Hok [Hw Hs Hd Hq]. Qed.

Lemma serve_spec pq p x rest : pq_ok pq -> (p < LOCAL_QUEUE_COUNT)%nat -> queues pq !!! p = x :: rest ->
  exists pq', serve pq p x rest = Some pq' /\ takes_turn pq (Some (p, x)) pq' /\ queues pq' !!! p = rest.
Proof.
  intros Hok Hp El. unfold serve.
  assert (lossy_count rest = lossy_count (queues pq !!! p) - lossy_bit x) as Hc by (rewrite El, lossy_count_cons; lia).
  assert (Forall age_ok rest) as Ha by (pose proof (ok_aged _ Hok p Hp) as Ha; rewrite El in Ha; by apply Forall_cons in Ha as [_ ?]).
  set (s := <[p := slots pq !!! p - 1]> (slots pq)).
  pose proof (put_ok pq p rest (drops_total pq) s (local_datagram_slots pq) Hok Hp Ha ltac:(unfold s; rewrite length_insert; apply Hok)) as Hok'.
  exists (put pq p rest <| slots := s |>). split_and!.
  - unfold sub_lossy, put. cbn. rewrite (ok_count _ Hok p Hp), Hc. pose proof (lossy_count_nonneg rest). by rewrite (proj2 (Z.ltb_ge _ _)) by lia.
  - split; try done. intros q Hq. change (queues (put pq p rest <| slots := s |>)) with (queues (put pq p rest)).
    rewrite put_queue by done. case_decide; [subst; rewrite El|]; apply thins_refl.
  - etrans; [exact (put_queue pq p rest p Hok Hp)|]. by rewrite decide_True.
Qed.

(** The scan of the classes from [i] on: an earlier class with slots has nothing. *)
Definition passed (pq pq' : PriorityQueue) (i j : nat) : Prop := forall q, (i <= q < j)%nat -> slots pq !!! q = 0 \/ queues pq' !!! q = [].

Lemma try_pop_spec n : forall i pq ws now, (i + n = LOCAL_QUEUE_COUNT)%nat -> pq_ok pq ->
  exists pq' ws' r, try_pop_with_current_slots pq ws now (seq i n) = Some (pq', ws', r) /\ takes_turn pq r pq' /\
    passed pq pq' i (match r with Some (p, _) => p | None => LOCAL_QUEUE_COUNT end) /\
    (match r with Some (p, _) => (i <= p)%nat /\ slots pq !!! p <> 0 | None => True end).
Proof.
  induction n as [|n IH]; intros i pq ws now Hn Hok; cbn [seq try_pop_with_current_slots].
  { eexists _, _, _. split_and!; [done|apply served_none; [done|apply pq_thins_refl]| |done]. intros q Hq. lia. }
  destruct (slots pq !!! i =? 0) eqn:Es; to_prop.
  - destruct (IH (S i) pq ws now ltac:(lia) Hok) as (pq' & ws' & r & -> & Hsv & Hpass & Hr). eexists _, _, _. split_and!; [done|done| |].
    + intros q Hq. destruct (decide (q = i)) as [->|]; [by left|]. apply Hpass. lia.
    + destruct r as [[p x]|]; [|done]. split; [lia|apply Hr].
  - destruct (expire_heads_spec pq ws i now Hok ltac:(lia)) as (pq1 & ws1 & -> & Hok1 & Ht1). cbn [mbind option_bind].
    destruct (queues pq1 !!! i) as [|x rest] eqn:El.
    + destruct (IH (S i) pq1 ws1 now ltac:(lia) Hok1) as (pq' & ws' & r & -> & Hsv & Hpass & Hr). eexists _, _, _. split_and!; [done|by eapply served_after| |].
      * intros q Hq. destruct (decide (q = i)) as [->|]; [right|rewrite <- (pt_slots _ _ Ht1); apply Hpass; lia].
        pose proof (sv_queues _ _ _ Hsv i ltac:(lia)) as [Hsub _]. rewrite El in Hsub. apply sublist_nil_r in Hsub.
        destruct r as [[p y]|]; [|done]. case_decide; [done|done].
      * destruct r as [[p y]|]; [|done]. rewrite <- (pt_slots _ _ Ht1). split; [lia|apply Hr].
    + destruct (serve_spec pq1 i x rest Hok1 ltac:(lia) El) as (pq' & -> & Hsv & _). cbn [mbind option_bind]. eexists _, _, _.
      split_and!; [done|by eapply served_after| |done]. intros q Hq. lia.
Qed.

(** [pop]: in the round there is, or in a new one when no class with slots has a frame. *)
Lemma pop_entry_spec pq ws now : pq_ok pq ->
  exists pq' ws' r, pop_entry pq ws now = Some (pq', ws', r) /\
    ((takes_turn pq r pq' /\ (match r with Some (p, _) => passed pq pq' 0 p /\ slots pq !!! p <> 0 | None => forall q, (q < LOCAL_QUEUE_COUNT)%nat -> queues pq' !!! q = [] end)) \/
     (exists pq1, pq_ok pq1 /\ pq_thins pq pq1 /\ passed pq pq1 0 LOCAL_QUEUE_COUNT /\ takes_turn (reset_round pq1) r pq' /\
        match r with Some (p, _) => passed (reset_round pq1) pq' 0 p /\ weights pq !!! p <> 0 | None => passed (reset_round pq1) pq' 0 LOCAL_QUEUE_COUNT end)).
Proof.
  intros Hok. unfold pop_entry. destruct (try_pop_spec LOCAL_QUEUE_COUNT 0 pq ws now eq_refl Hok) as (pq1 & ws1 & r & -> & Hsv & Hpass & Hr).
  cbn [mbind option_bind]. destruct r as [[p x]|].
  - eexists _, _, _. split; [done|]. left. split; [done|]. split; [done|apply Hr].
  - destruct (pq_is_empty pq1) eqn:Ee.
    + eexists _, _, _. split; [done|]. left. split; [done|]. intros q Hq. unfold pq_is_empty in Ee. rewrite forallb_forall in Ee.
      assert (queues pq1 !! q = Some (queues pq1 !!! q)) as Eq by (apply list_lookup_lookup_total_lt; by rewrite (ok_queues _ (sv_ok _ _ _ Hsv))).
      specialize (Ee (queues pq1 !!! q)). rewrite <- list_elem_of_In in Ee. specialize (Ee (list_elem_of_lookup_2 _ _ _ Eq)). by destruct (queues pq1 !!! q).
    + destruct Hsv as [Hok1 Hw Hd Hs _ Hq]. assert (pq_ok (reset_round pq1)) as Hokr.
      { destruct Hok1. by split. }
      destruct (try_pop_spec LOCAL_QUEUE_COUNT 0 (reset_round pq1) ws1 now eq_refl Hokr) as (pq2 & ws2 & r & -> & Hsv2 & Hpass2 & Hr2).
      eexists _, _, _. split; [done|]. right. exists pq1. split_and!; [done|by split|done|done|].
      destruct r as [[p x]|]; [|done]. split; [done|]. cbn in Hr2. rewrite Hw in Hr2. apply Hr2.
Qed.

(** ** Any pop, for the order of the frames *)

Definition at_class (q : nat) (taken : option (nat * QueuedFrame)) : list QueuedFrame :=
  match taken with Some (p, x) => if decide (q = p) then [x] else [] | None => [] end.

Record moves (pq : PriorityQueue) (taken : option (nat * QueuedFrame)) (pq' : PriorityQueue) : Prop := {
  mv_ok : pq_ok pq';
  mv_weights : weights pq' = weights pq;
  mv_depth : max_depth pq' = max_depth pq;
  mv_class : match taken with Some (p, _) => (p < LOCAL_QUEUE_COUNT)%nat | None => True end;
  mv_queues q : (q < LOCAL_QUEUE_COUNT)%nat -> leaves (queues pq !!! q) (at_class q taken) (queues pq' !!! q)
}.

Lemma served_moves pq r pq' : takes_turn pq r pq' -> moves pq r pq'.
Proof.
  intros [Hok Hw Hd _ Hc Hq]. split; try done. intros q Hlt. apply leaves_thins. specialize (Hq q Hlt). unfold at_class.
  destruct r as [[p x]|]; [case_decide|]; done.
Qed.

Lemma moves_after pq pq1 r pq' : pq_thins pq pq1 -> moves pq1 r pq' -> moves pq r pq'.
Proof.
  intros [Hw _ Hd Hq] [Hok Hw' Hd' Hc Hq']. split; [done|congruence|congruence|done|]. intros q Hlt.
  apply (leaves_trans _ [] (queues pq1 !!! q)); [apply leaves_thins; by apply Hq|by apply Hq'].
Qed.

Lemma moves_none pq pq' : pq_ok pq' -> pq_thins pq pq' -> moves pq None pq'.
Proof. intros. by apply served_moves, served_none. Qed.

Lemma pop_moves pq ws now : pq_ok pq -> exists pq' ws' r, pop_entry pq ws now = Some (pq', ws', r) /\ moves pq r pq'.
Proof.
  intros Hok. destruct (pop_entry_spec pq ws now Hok) as (pq' & ws' & r & E & [[Hs _]|(pq1 & Hok1 & [Hw Hsl Hd Hq] & _ & Hs & _)]);
    eexists _, _, _; (split; [exact E|]); [by apply served_moves|]. apply served_moves in Hs as [Hok' Hw' Hd' Hc' Hq'].
  split; [done|by rewrite Hw'|by rewrite Hd'|done|]. intros q Hlt. apply (leaves_trans _ [] (queues pq1 !!! q)); [apply leaves_thins; by apply Hq|exact (Hq' q Hlt)].
Qed.

Section admission.
Context {A : Type} (predicate : A -> Works -> Z -> list byte -> bool -> option LocalLossyCell -> A * Works * HeadAdmission).

Definition scan_taken (s : Scan) : option (nat * QueuedFrame) := match s with Taken p x => Some (p, x) | _ => None end.

Lemma admit_scan_spec ps : forall pq ws a now, pq_ok pq -> Forall (fun p => (p < LOCAL_QUEUE_COUNT)%nat) ps ->
  exists pq' ws' a' s, admit_scan predicate pq ws a now ps = Some (pq', ws', a', s) /\ moves pq (scan_taken s) pq' /\
    (s = Nothing -> pq_thins pq pq').
Proof.
  induction ps as [|p ps IH]; intros pq ws a now Hok Hps; cbn [admit_scan].
  { eexists _, _, _, _. split_and!; [done|apply moves_none; [done|apply pq_thins_refl]|intros; apply pq_thins_refl]. }
  apply Forall_cons in Hps as [Hp Hps]. destruct (_ =? 0); [by apply IH|].
  destruct (expire_heads_spec pq ws p now Hok Hp) as (pq1 & ws1 & -> & Hok1 & Ht1). cbn [mbind option_bind].
  assert (forall ws a, exists pq' ws' a' s, admit_scan predicate pq1 ws a now ps = Some (pq', ws', a', s) /\ moves pq (scan_taken s) pq' /\
    (s = Nothing -> pq_thins pq pq')) as Hnext.
  { intros ws' a'. destruct (IH pq1 ws' a' now Hok1 Hps) as (pq' & ws2 & a2 & s & -> & Hm & Ht). eexists _, _, _, _.
    split_and!; [done|by eapply moves_after|]. intros Es. eapply pq_thins_trans; [done|by apply Ht]. }
  destruct (queues pq1 !!! p) as [|x rest] eqn:El; [apply Hnext|]. destruct (predicate _ _ _ _ _ _) as [[a2 ws2] []]; [| |].
  - destruct (serve_spec pq1 p x rest Hok1 Hp El) as (pq' & -> & Hsv & _). cbn [mbind option_bind]. eexists _, _, _, _.
    split_and!; [done|by eapply moves_after, served_moves|done].
  - apply Hnext.
  - eexists _, _, _, _. split_and!; [done|by apply moves_none|done].
Qed.

Lemma pop_admitted_moves pq ws a now : pq_ok pq ->
  exists pq' ws' a' r, pop_admitted_entry predicate pq ws a now = Some (pq', ws', a', r) /\ moves pq r pq'.
Proof.
  intros Hok. unfold pop_admitted_entry.
  assert (Forall (fun p => (p < LOCAL_QUEUE_COUNT)%nat) (seq 0 LOCAL_QUEUE_COUNT)) as Hps by (repeat constructor).
  destruct (admit_scan_spec _ pq ws a now Hok Hps) as (pq1 & ws1 & a1 & s & -> & Hm & Ht). cbn [mbind option_bind].
  destruct s as [p x| |]; [by eexists _, _, _, _|by eexists _, _, _, _|]. specialize (Ht eq_refl).
  set (pq2 := if pq_is_empty pq1 then pq1 else reset_round pq1).
  assert (pq_ok pq2) as Hok2 by (destruct Hm as [[] _ _ _]; unfold pq2; destruct (pq_is_empty pq1); by split).
  destruct (admit_scan_spec _ pq2 ws1 a1 now Hok2 Hps) as (pq3 & ws3 & a3 & s & -> & [Hok3 Hw Hd Hc Hq] & _). cbn [mbind option_bind].
  eexists _, _, _, _. split; [done|]. split; [done| | |done|].
  - rewrite Hw. unfold pq2. destruct Ht, (pq_is_empty pq1); done.
  - rewrite Hd. unfold pq2. destruct Ht, (pq_is_empty pq1); done.
  - intros q Hlt. apply (leaves_trans _ [] (queues pq1 !!! q)); [apply leaves_thins, (pt_queues _ _ Ht q Hlt)|].
    replace (queues pq1) with (queues pq2) by (unfold pq2; by destruct (pq_is_empty pq1)). exact (Hq q Hlt).
Qed.

End admission.

(** A local datagram leaves from behind the other frames of its class. *)
Lemma filter_others l : Forall (fun q => is_local q = false) l -> filter (fun q => is_local q = true) l = [].
Proof. induction 1; [done|]. rewrite filter_cons_False by congruence. done. Qed.

Lemma leaves_middle l l1 x l2 : thins l (l1 ++ x :: l2) -> Forall (fun q => is_local q = false) l1 -> is_local x = true -> leaves l [x] (l1 ++ l2).
Proof.
  intros Ht Hl1 Hx. apply (leaves_trans _ [] _ [x] (l1 ++ l2) (leaves_thins l [] _ Ht)). split.
  - intros b. cbn [app]. rewrite filter_cons, !filter_app, filter_cons. destruct b.
    + rewrite (filter_others l1 Hl1). by repeat case_decide.
    + repeat case_decide; try congruence. done.
  - assert (durable x = false) as Hd by (unfold is_local, durable in *; destruct (lossy_realtime x); [by rewrite andb_false_r|done]).
    unfold durables. cbn [app]. rewrite filter_cons_False by congruence. rewrite !filter_app, filter_cons_False by congruence. done.
Qed.

Lemma is_local_lossy q : is_local q = true -> lossy_bit q = 1 /\ durable q = false.
Proof. unfold is_local, lossy_bit, durable. destruct (lossy_realtime q); [|done]. by rewrite andb_false_r. Qed.

(** What the scan of a class leaves: all of it but what expired, or without the datagram it found. *)
Definition scanned (l l' : list QueuedFrame) (r : option QueuedFrame) : Prop :=
  match r with
  | None => thins l l'
  | Some x => exists l1 l2, l' = l1 ++ l2 /\ thins l (l1 ++ x :: l2) /\ Forall (fun q => is_local q = false) l1 /\ is_local x = true
  end.

Lemma scanned_cons q l l' r : is_local q = false -> scanned l l' r -> scanned (q :: l) (q :: l') r.
Proof.
  intros Hq. destruct r as [x|]; [|apply thins_cons]. intros (l1 & l2 & -> & Ht & Hl1 & Hx). exists (q :: l1), l2. split_and!; [done|by apply thins_cons|by constructor|done].
Qed.

Lemma scanned_drop q l l' r : durable q = false -> scanned l l' r -> scanned (q :: l) l' r.
Proof.
  intros Hq. destruct r as [x|]; [|by apply thins_drop]. intros (l1 & l2 & -> & Ht & Hl1 & Hx). exists l1, l2. split_and!; try done. by apply thins_drop.
Qed.

(** [more] counts the lossy entries the scan has passed. *)
Lemma scan_local_spec predicate now priority l : forall more drops ws, 0 <= more -> exists l' d ws' r,
  scan_local predicate now priority l (lossy_count l + more) drops ws = Some (l', lossy_count l' + more, d, ws', r) /\ scanned l l' r.
Proof.
  induction l as [|q l IH]; intros more drops ws Hm; cbn [scan_local].
  { eexists _, _, _, _. split; [done|apply thins_refl]. }
  fold (is_local q). pose proof (lossy_count_nonneg l). destruct (is_local q) eqn:Eloc.
  - destruct (is_local_lossy q Eloc) as [Ebit Hd]. assert (lossy_count (q :: l) + more - 1 = lossy_count l + more) as El by (rewrite lossy_count_cons; lia).
    assert ((lossy_count (q :: l) + more <? 1) = false) as Eb by (apply Z.ltb_ge; rewrite lossy_count_cons; lia). rewrite Eb, El.
    destruct (expired ws now priority q); [|destruct (negb (predicate priority (frame q)))].
    + destruct (IH more (add64 drops 1) (trace_lossy_drop ws q) Hm) as (l' & d & ws' & r & -> & Hr). eexists _, _, _, _. split; [done|by apply scanned_drop].
    + eexists _, _, _, _. split; [done|apply thins_refl].
    + eexists _, _, _, _. split; [done|]. exists [], l. split_and!; [done|apply thins_refl|constructor|done].
  - assert (0 <= lossy_bit q) by (unfold lossy_bit; case_match; lia).
    destruct (IH (lossy_bit q + more) drops ws ltac:(lia)) as (l' & d & ws' & r & E & Hr). rewrite lossy_count_cons.
    replace (lossy_bit q + lossy_count l + more) with (lossy_count l + (lossy_bit q + more)) by lia. rewrite E. cbn [mbind option_bind].
    eexists _, _, _, _. split; [|by apply scanned_cons]. rewrite lossy_count_cons.
    by replace (lossy_bit q + lossy_count l' + more) with (lossy_count l' + (lossy_bit q + more)) by lia.
Qed.

Lemma scanned_leaves l l' r : scanned l l' r -> leaves l (match r with Some x => [x] | None => [] end) l'.
Proof.
  destruct r as [x|]; [|exact (leaves_thins l [] l')]. intros (l1 & l2 & -> & Ht & Hl1 & Hx). by apply leaves_middle.
Qed.

Lemma scanned_thins l l' r : scanned l l' r -> thins l l'.
Proof.
  destruct r as [x|]; [|done]. intros (l1 & l2 & -> & Ht & Hl1 & Hx). eapply thins_trans; [done|]. apply thins_remove. by apply is_local_lossy.
Qed.

Definition local_class (r : option (Z * QueuedFrame)) : option (nat * QueuedFrame) :=
  match r with Some (priority, x) => Some (Z.to_nat priority, x) | None => None end.

(** What a scan for a local datagram does: it takes no slot of the rounds, and thins. *)
Record local_pops (pq : PriorityQueue) (r : option (Z * QueuedFrame)) (pq' : PriorityQueue) : Prop := {
  lp_moves : moves pq (local_class r) pq';
  lp_thins : pq_thins pq pq';
  lp_local : match r with Some (priority, x) => priority ∈ LOCAL_DATAGRAM_PRIORITIES /\ lossy_realtime x = true | None => True end
}.

Lemma local_pops_after pq pq1 r pq' : pq_thins pq pq1 -> local_pops pq1 r pq' -> local_pops pq r pq'.
Proof. intros Ht [Hm Ht' Hl]. split; [by eapply moves_after|by eapply pq_thins_trans|done]. Qed.

Lemma local_priority_class priority : priority ∈ LOCAL_DATAGRAM_PRIORITIES -> (Z.to_nat priority < LOCAL_QUEUE_COUNT)%nat /\ queue_index priority = Z.to_nat priority.
Proof.
  intros Hp. unfold LOCAL_DATAGRAM_PRIORITIES in Hp. repeat (apply elem_of_cons in Hp as [->|Hp]; [vm_compute; split; [lia|done]|]). by apply not_elem_of_nil in Hp.
Qed.

Lemma local_scan_spec predicate now ps : forall pq ws, pq_ok pq -> Forall (fun p => p ∈ LOCAL_DATAGRAM_PRIORITIES) ps ->
  exists pq' ws' r, local_scan predicate pq ws now ps = Some (pq', ws', r) /\ local_pops pq r pq'.
Proof.
  induction ps as [|priority ps IH]; intros pq ws Hok Hps; cbn [local_scan].
  { eexists _, _, _. split; [done|]. split; [apply moves_none; [done|apply pq_thins_refl]|apply pq_thins_refl|done]. }
  apply Forall_cons in Hps as [Hpr Hps]. destruct (local_priority_class priority Hpr) as [Hp _]. destruct (_ =? 0); [by apply IH|].
  set (p := Z.to_nat priority) in *. rewrite (ok_count _ Hok p Hp).
  destruct (scan_local_spec predicate now priority (queues pq !!! p) 0 (drops_total pq) ws ltac:(lia)) as (l' & d & ws' & r & E & Hr).
  rewrite !Z.add_0_r in E. rewrite E. cbn [mbind option_bind]. pose proof (scanned_thins _ _ _ Hr) as Hthin.
  destruct (put_thins pq p l' d Hok Hp Hthin) as [Hok1 Ht1]. destruct r as [x|].
  - pose proof (put_ok pq p l' d (slots pq) (<[p := local_datagram_slots pq !!! p - 1]> (local_datagram_slots pq)) Hok Hp
      (aged_sub _ _ (th_sub _ _ Hthin) (ok_aged _ Hok p Hp)) (ok_slots_len _ Hok)) as Hok2.
    eexists _, _, _. split; [done|]. split; cbn [local_class].
    + split; [exact Hok2|done|done|done|]. intros q Hlt. pose proof (put_queue pq p l' q Hok Hp) as Eq. unfold at_class.
      match goal with |- leaves _ _ (queues ?P !!! q) => change (queues P) with (queues (put pq p l')) end. rewrite Eq.
      fold p. case_decide; [subst; exact (scanned_leaves _ _ _ Hr)|apply leaves_refl].
    + by destruct Ht1.
    + split; [done|]. destruct Hr as (l1 & l2 & _ & _ & _ & Hx). unfold is_local in Hx. by destruct (lossy_realtime x).
  - destruct (IH _ ws' Hok1 Hps) as (pq' & ws2 & r & E2 & Hl). exists pq', ws2, r. split; [exact E2|]. by eapply local_pops_after.
Qed.

Lemma pop_local_spec predicate pq ws now : pq_ok pq ->
  exists pq' ws' r, pop_local_entry predicate pq ws now = Some (pq', ws', r) /\ local_pops pq r pq'.
Proof.
  intros Hok. unfold pop_local_entry. assert (Forall (fun p => p ∈ LOCAL_DATAGRAM_PRIORITIES) LOCAL_DATAGRAM_PRIORITIES) as Hps by (by apply Forall_forall).
  destruct (local_scan_spec predicate now _ pq ws Hok Hps) as (pq1 & ws1 & r & -> & Hl). cbn [mbind option_bind].
  destruct r as [e|]; [by eexists _, _, _|]. destruct Hl as [[Hok1 _ _ _ _] Ht _].
  destruct (local_scan_spec predicate now _ (pq1 <| local_datagram_slots := weights pq1 |>) ws1 ltac:(by destruct Hok1) Hps) as (pq2 & ws2 & r & -> & Hl).
  eexists _, _, _. split; [done|]. eapply local_pops_after; [exact Ht|]. destruct Hl as [[] [] ?]. by split.
Qed.

(** The realtime lane of its own: stale heads go, and the head leaves if it is wanted. *)
Lemma drop_stale_spec now l : forall drops, exists l' d, drop_stale now l (lossy_count l) drops = Some (l', lossy_count l', d) /\ thins l l'.
Proof.
  induction l as [|q l IH]; intros drops; cbn [drop_stale]; [by eexists _, _|]. destruct (_ && _) eqn:E; [|by eexists _, _].
  apply andb_true_iff in E as [E _]. rewrite lossy_count_cons. unfold lossy_bit. rewrite E. pose proof (lossy_count_nonneg l).
  rewrite (proj2 (Z.ltb_ge _ _)) by lia. replace (1 + lossy_count l - 1) with (lossy_count l) by lia. destruct (IH (add64 drops 1)) as (l' & d & -> & Ht).
  eexists _, _. split; [done|]. apply thins_drop; [|done]. unfold durable. rewrite E. by rewrite andb_false_r.
Qed.

Lemma pop_realtime_moves predicate pq now : pq_ok pq ->
  exists pq' r, pop_realtime_if predicate pq now = Some (pq', r) /\ moves pq (option_map (fun x => (0%nat, x)) r) pq'.
Proof.
  intros Hok. unfold pop_realtime_if. assert (0 < LOCAL_QUEUE_COUNT)%nat as Hp by (unfold LOCAL_QUEUE_COUNT; lia). rewrite (ok_count _ Hok 0 Hp).
  destruct (drop_stale_spec now (queues pq !!! 0%nat) (drops_total pq)) as (l & d & -> & Ht). cbn [mbind option_bind].
  destruct (put_thins pq 0 l d Hok Hp Ht) as [Hok1 Ht1]. destruct l as [|x rest]; [eexists _, _; split; [done|by apply moves_none]|].
  destruct (predicate (frame x)); [|eexists _, _; split; [done|by apply moves_none]].
  set (pq1 := put pq 0 (x :: rest) <| drops_total := d |>) in *.
  assert (queues pq1 !!! 0%nat = x :: rest) as E0 by (etrans; [exact (put_queue pq 0 (x :: rest) 0 Hok Hp)|done]).
  change (pq <| queues := <[0%nat := x :: rest]> (queues pq) |> <| lossy_realtime_len := <[0%nat := lossy_count (x :: rest)]> (lossy_realtime_len pq) |> <| drops_total := d |>) with pq1.
  rewrite sub_lossy_put by (done || (rewrite E0, lossy_count_cons; lia)). cbn [mbind option_bind]. eexists _, _. split; [done|]. eapply moves_after; [done|]. cbn [option_map].
  assert (Forall age_ok rest) as Ha by (pose proof (ok_aged _ Hok1 0 Hp) as Ha; rewrite E0 in Ha; by apply Forall_cons in Ha as [_ ?]).
  split; [exact (put_ok pq1 0 rest (drops_total pq1) (slots pq1) (local_datagram_slots pq1) Hok1 Hp Ha (ok_slots_len _ Hok1))|done|done|done|].
  intros q Hlt. rewrite put_queue by done. unfold at_class. case_decide; [subst; rewrite E0; apply leaves_thins|]; apply thins_refl || apply leaves_refl.
Qed.
