(* ===== verification/PriorityQueueFair.v ===== *)
(** * The queue of outgoing frames is safe, in order and fair

    Runs of all operations of [PriorityQueue], with producers that decide on their work items between
    them: the theorems of the queue. *)

From S2P Require Import Prelude Float LossyWork PriorityQueue PriorityQueueInv PriorityQueueRuns.
#[local] Open Scope Z_scope.
#[local] Open Scope list_scope.

(** ** Putting a datagram back *)

Lemma restored_entry priority now x : lossy_realtime x = true -> age_ok x ->
  entry_of (to_envelope priority now x) (Some (env_queued_at (to_envelope priority now x))) true = x.
Proof.
  unfold age_ok. destruct x as [w f enq exp lossy c cr sg]; cbn. intros -> E. destruct enq; [done|done].
Qed.

Lemma taken_elem pq p x pq' : moves pq (Some (p, x)) pq' -> x ∈ queues pq !!! p.
Proof.
  intros Hm. pose proof (mv_class _ _ _ Hm) as Hp. pose proof (leaves_submseteq _ _ _ (mv_queues _ _ _ Hm p Hp)) as Hs. unfold at_class in Hs.
  rewrite decide_True in Hs by done. eapply elem_of_submseteq; [|exact Hs]. by left.
Qed.

(** A loss-tolerant frame that is taken and put back: it is in front of its queue again, or it went stale. *)
Lemma restore_moves pq pq1 ws priority p x now : pq_ok pq -> moves pq (Some (p, x)) pq1 -> lossy_realtime x = true -> queue_index priority = p ->
  moves pq None (restore_lossy_envelope pq1 ws (to_envelope priority now x) now).1.
Proof.
  intros Hok Hm Hx Hpi. pose proof (mv_class _ _ _ Hm) as Hp. cbn in Hp.
  assert (age_ok x) as Ha by (pose proof (taken_elem _ _ _ _ Hm) as Hin; eapply Forall_forall in Hin; [exact Hin|by apply (ok_aged _ Hok)]).
  destruct Hm as [Hok1 Hw Hd _ Hq].
  assert (moves pq None (add_drops pq1 1)) as Hdrop.
  { split; [by destruct Hok1|done|done|done|]. intros q Hlt. destruct (Hq q Hlt) as [Ho Hdur]. cbn [at_class] in *. split.
    - intros b. etrans; [|apply Ho]. apply sublist_filter_mono, sublist_inserts_l. done.
    - rewrite <- Hdur. unfold durables. rewrite !filter_app. case_decide; [|done]. rewrite filter_cons_False; [done|].
      unfold durable. rewrite Hx. by rewrite andb_false_r. }
  unfold restore_lossy_envelope. destruct (env_rejected _ _ _); [exact Hdrop|]. destruct (env_stale _ _); [exact Hdrop|]. cbn zeta.
  rewrite restored_entry by done. change (env_priority (to_envelope priority now x)) with priority. rewrite Hpi.
  assert (set_queue pq1 p (x :: queues pq1 !!! p) <| lossy_realtime_len := <[p := lossy_realtime_len pq1 !!! p + 1]> (lossy_realtime_len pq1) |> = put pq1 p (x :: queues pq1 !!! p)) as Eput.
  { unfold set_queue, put. rewrite lossy_count_cons, (ok_count _ Hok1 p Hp). unfold lossy_bit. rewrite Hx.
    by rewrite (Z.add_comm 1). }
  cbn [fst]. change (lossy_realtime_len (set_queue pq1 p _)) with (lossy_realtime_len pq1). rewrite Eput. split; [|done|done|done|].
  - apply (put_ok pq1 p _ (drops_total pq1) (slots pq1) (local_datagram_slots pq1) Hok1 Hp); [|apply Hok1]. constructor; [done|by apply Hok1].
  - intros q Hlt. rewrite put_queue by done. specialize (Hq q Hlt). cbn [at_class] in *. case_decide; [subst; by destruct Hq|done].
Qed.

(** ** Runs *)

Inductive QueueOp :=
| Push (env : FrameEnvelope) (lossy : bool) (now : Z)
| Pop (now : Z)
| PopAdmitted (A : Type) (predicate : A -> Works -> Z -> list byte -> bool -> option LocalLossyCell -> A * Works * HeadAdmission) (a : A) (now : Z) (retry : bool)
| PopLocal (predicate : Z -> list byte -> bool) (now : Z) (retry : bool)
| PopRealtime (predicate : list byte -> bool) (now : Z)
| Decide (decide : Works -> Works).

(** A datagram that a pop took goes back where the transport could not take it. *)
Definition settle (pq : PriorityQueue) (ws : Works) (r : option (Z * QueuedFrame)) (now : Z) (retry : bool) : PriorityQueue * Works * option (nat * QueuedFrame) :=
  match r with
  | Some (priority, x) =>
      if retry && lossy_realtime x then (restore_lossy_envelope pq ws (to_envelope priority now x) now, None)
      else (pq, ws, Some (queue_index priority, x))
  | None => (pq, ws, None)
  end.

Definition queue_step (pq : PriorityQueue) (ws : Works) (op : QueueOp) : option (PriorityQueue * Works * option (nat * QueuedFrame)) :=
  match op with
  | Push env lossy now => '(pq, ws) ← push_envelope pq ws env lossy now; Some (pq, ws, None)
  | Pop now => pop_entry pq ws now
  | PopAdmitted A predicate a now retry =>
      '(pq, ws, _, r) ← pop_admitted_entry predicate pq ws a now;
      Some (settle pq ws (option_map (fun e : nat * QueuedFrame => (Z.of_nat e.1, e.2)) r) now retry)
  | PopLocal predicate now retry => '(pq, ws, r) ← pop_local_entry predicate pq ws now; Some (settle pq ws r now retry)
  | PopRealtime predicate now => '(pq, r) ← pop_realtime_if predicate pq now; Some (pq, ws, option_map (fun x => (0%nat, x)) r)
  | Decide decide => Some (pq, decide ws, None)
  end.

(** The frames that come out, with their classes. *)
Fixpoint queue_run (pq : PriorityQueue) (ws : Works) (ops : list QueueOp) : option (PriorityQueue * Works * list (nat * QueuedFrame)) :=
  match ops with
  | [] => Some (pq, ws, [])
  | op :: ops =>
      '(pq, ws, r) ← queue_step pq ws op;
      '(pq, ws, outs) ← queue_run pq ws ops;
      Some (pq, ws, match r with Some e => e :: outs | None => outs end)
  end.

(** The frames that are pushed, with their classes. *)
Fixpoint pushed (ops : list QueueOp) : list (nat * QueuedFrame) :=
  match ops with
  | [] => []
  | Push env lossy _ :: ops => (queue_index (env_priority env), offered env lossy) :: pushed ops
  | _ :: ops => pushed ops
  end.

Definition of_class (p : nat) (l : list (nat * QueuedFrame)) : list QueuedFrame := (filter (fun e => e.1 = p) l).*2.

Definition op_ok (op : QueueOp) : Prop := match op with Push env _ _ => 0 <= env_priority env | _ => True end.

Lemma of_class_cons p q x l : of_class p ((q, x) :: l) = (if decide (p = q) then [x] else []) ++ of_class p l.
Proof. unfold of_class. rewrite filter_cons. cbn [fst]. repeat case_decide; try congruence; done. Qed.

Record stepped (pq : PriorityQueue) (op : QueueOp) (r : option (nat * QueuedFrame)) (pq' : PriorityQueue) : Prop := {
  ss_ok : pq_ok pq';
  ss_depth : max_depth pq' = max_depth pq;
  ss_class : match r with Some (p, _) => (p < LOCAL_QUEUE_COUNT)%nat | None => True end;
  ss_queues q : (q < LOCAL_QUEUE_COUNT)%nat -> leaves (queues pq !!! q ++ of_class q (pushed [op])) (at_class q r) (queues pq' !!! q);
  ss_ordinary : ordinary_len pq <= max_depth pq -> ordinary_len pq' <= max_depth pq;
  ss_lossy : within_lossy pq -> within_lossy pq'
}.

Lemma moves_stepped pq op r pq' : pq_ok pq -> pushed [op] = [] -> moves pq r pq' -> stepped pq op r pq'.
Proof.
  intros Hok Hnone [Hok' Hw Hd Hc Hq].
  assert (forall q, (q < LOCAL_QUEUE_COUNT)%nat -> queues pq' !!! q ⊆+ queues pq !!! q) as Hsub.
  { intros q Hlt. etrans; [|exact (leaves_submseteq _ _ _ (Hq q Hlt))]. by apply submseteq_inserts_l. }
  split; try done.
  - intros q Hlt. rewrite Hnone, app_nil_r. by apply Hq.
  - intros Hmax. etrans; [|exact Hmax]. apply submseteq_count. by apply queues_submseteq.
  - intros Hl q Hlt. etrans; [|by apply (Hl q)]. by apply submseteq_count, Hsub.
Qed.

Lemma settle_moves pq pq1 ws priority x p now retry : pq_ok pq -> moves pq (Some (p, x)) pq1 -> queue_index priority = p ->
  moves pq (settle pq1 ws (Some (priority, x)) now retry).2 (settle pq1 ws (Some (priority, x)) now retry).1.1.
Proof.
  intros Hok Hm Hp. unfold settle. destruct (retry && lossy_realtime x) eqn:E.
  - apply andb_true_iff in E as [_ Hx]. destruct (restore_lossy_envelope _ _ _ _) as [pq2 ws2] eqn:Er. cbn.
    pose proof (restore_moves pq pq1 ws priority p x now Hok Hm Hx Hp) as H. by rewrite Er in H.
  - cbn. by rewrite Hp.
Qed.

Lemma queue_index_class p : (p < LOCAL_QUEUE_COUNT)%nat -> queue_index (Z.of_nat p) = p.
Proof. intros Hp. unfold LOCAL_QUEUE_COUNT in Hp. do 7 (destruct p as [|p]; [done|]). lia. Qed.

Lemma queue_step_spec pq ws op : pq_ok pq -> op_ok op -> exists pq' ws' r, queue_step pq ws op = Some (pq', ws', r) /\ stepped pq op r pq'.
Proof.
  intros Hok Hop. destruct op as [env lossy now|now|A predicate a now retry|predicate now retry|predicate now|f]; cbn [queue_step].
  - destruct (push_envelope_spec pq ws env lossy now Hok Hop) as (pq' & ws' & -> & [Hok' Hw Hs Hd Hq] & Ho & Hl). cbn [mbind option_bind].
    eexists _, _, _. split; [done|]. split; try done. intros q Hlt. apply leaves_thins. cbn [pushed]. rewrite of_class_cons, app_nil_r. exact (Hq q Hlt).
  - destruct (pop_moves pq ws now Hok) as (pq' & ws' & r & -> & Hm). eexists _, _, _. split; [done|by apply moves_stepped].
  - destruct (pop_admitted_moves predicate pq ws a now Hok) as (pq1 & ws1 & a1 & r & -> & Hm). cbn [mbind option_bind]. destruct r as [[p x]|]; cbn [option_map fst snd].
    + pose proof (settle_moves pq pq1 ws1 (Z.of_nat p) x p now retry Hok Hm (queue_index_class p (mv_class _ _ _ Hm))) as Hm2.
      destruct (settle pq1 ws1 (Some (Z.of_nat p, x)) now retry) as [[pq2 ws2] r2]. eexists _, _, _. split; [done|by apply moves_stepped].
    + eexists _, _, _. split; [done|by apply moves_stepped].
  - destruct (pop_local_spec predicate pq ws now Hok) as (pq1 & ws1 & r & -> & [Hm _ Hl]). cbn [mbind option_bind]. destruct r as [[priority x]|].
    + destruct Hl as [Hpr _]. destruct (local_priority_class priority Hpr) as [_ Hi].
      pose proof (settle_moves pq pq1 ws1 priority x (Z.to_nat priority) now retry Hok Hm Hi) as Hm2.
      destruct (settle pq1 ws1 (Some (priority, x)) now retry) as [[pq2 ws2] r2]. eexists _, _, _. split; [done|by apply moves_stepped].
    + eexists _, _, _. split; [done|by apply moves_stepped].
  - destruct (pop_realtime_moves predicate pq now Hok) as (pq' & r & -> & Hm). cbn [mbind option_bind]. eexists _, _, _. split; [done|by apply moves_stepped].
  - eexists _, _, _. split; [done|]. apply moves_stepped; [done|done|]. apply moves_none; [done|apply pq_thins_refl].
Qed.

Lemma queue_run_spec ops : forall pq ws, pq_ok pq -> Forall op_ok ops ->
  exists pq' ws' outs, queue_run pq ws ops = Some (pq', ws', outs) /\ pq_ok pq' /\ max_depth pq' = max_depth pq /\
    (forall q, (q < LOCAL_QUEUE_COUNT)%nat -> leaves (queues pq !!! q ++ of_class q (pushed ops)) (of_class q outs) (queues pq' !!! q)) /\
    (ordinary_len pq <= max_depth pq -> ordinary_len pq' <= max_depth pq) /\ (within_lossy pq -> within_lossy pq').
Proof.
  induction ops as [|op ops IH]; intros pq ws Hok Hops; cbn [queue_run].
  - eexists _, _, _. split_and!; try done. intros q Hq. rewrite app_nil_r. apply leaves_refl.
  - apply Forall_cons in Hops as [Hop Hops]. destruct (queue_step_spec pq ws op Hok Hop) as (pq1 & ws1 & r & -> & [Hok1 Hd1 Hc1 Hq1 Ho1 Hl1]).
    cbn [mbind option_bind]. destruct (IH pq1 ws1 Hok1 Hops) as (pq2 & ws2 & outs & -> & Hok2 & Hd2 & Hq2 & Ho2 & Hl2). cbn [mbind option_bind].
    eexists _, _, _. split_and!; [done|done|congruence| |intros Hmax; rewrite <- Hd1; apply Ho2; rewrite Hd1; by apply Ho1|by intros ?; apply Hl2, Hl1].
    intros q Hlt. assert (of_class q (pushed (op :: ops)) = of_class q (pushed [op]) ++ of_class q (pushed ops)) as ->
      by (destruct op; cbn [pushed]; [rewrite !of_class_cons, app_nil_r|..]; done).
    assert (of_class q (match r with Some e => e :: outs | None => outs end) = at_class q r ++ of_class q outs) as ->
      by (destruct r as [[p x]|]; [by rewrite of_class_cons|done]).
    rewrite app_assoc. eapply leaves_trans; [apply leaves_snoc, (Hq1 q Hlt)|by apply Hq2].
Qed.

(** ** Theorems *)

Lemma with_capacity_ok w0 w1 w2 w3 depth : pq_ok (with_capacity w0 w1 w2 w3 depth).
Proof.
  split; try done; intros p Hp; unfold LOCAL_QUEUE_COUNT in Hp; do 7 (destruct p as [|p]; [by cbn; constructor|]); lia.
Qed.

(** C20. Whatever is pushed and popped, in whatever way and at whatever instants, with producers that decide on
    their work items between, no operation panics: the counters never run below zero.  No class ever
    holds more than sixty-four loss-tolerant frames, and all classes together never more frames
    without a credit than the capacity. *)
Theorem queue_robust (w0 w1 w2 w3 depth : Z) (ws : Works) (ops : list QueueOp) (Hdepth : 0 <= depth) (Hops : Forall op_ok ops) :
  exists pq ws' outs, queue_run (with_capacity w0 w1 w2 w3 depth) ws ops = Some (pq, ws', outs) /\
    ordinary_len pq <= depth /\ (forall p, (p < LOCAL_QUEUE_COUNT)%nat -> lossy_count (queues pq !!! p) <= LOSSY_REALTIME_MAX_DEPTH) /\
    (forall p, (p < LOCAL_QUEUE_COUNT)%nat -> lossy_realtime_len pq !!! p = lossy_count (queues pq !!! p)).
Proof.
  destruct (queue_run_spec ops (with_capacity w0 w1 w2 w3 depth) ws (with_capacity_ok _ _ _ _ _) Hops) as (pq & ws' & outs & E & Hok & Hd & _ & Ho & Hl).
  exists pq, ws', outs. split_and!; [done|by apply Ho| |apply Hok]. apply Hl. intros p Hp. unfold LOCAL_QUEUE_COUNT in Hp. do 7 (destruct p as [|p]; [done|]). lia.
Qed.

(** C19. The frames of a class come out in the order they were pushed.  Of every class, the local datagrams that
    came out and those still queued are pushed ones, each once at most and in that order, and so are the
    other frames; and of the durable frames, those with a credit and no lifetime, deadline or work item,
    none is missing. *)
Theorem queue_in_order (w0 w1 w2 w3 depth : Z) (ws : Works) (ops : list QueueOp) (Hops : Forall op_ok ops) :
  exists pq ws' outs, queue_run (with_capacity w0 w1 w2 w3 depth) ws ops = Some (pq, ws', outs) /\
    forall p, (p < LOCAL_QUEUE_COUNT)%nat ->
      (forall b, sublist (filter (fun q => is_local q = b) (of_class p outs ++ queues pq !!! p)) (filter (fun q => is_local q = b) (of_class p (pushed ops)))) /\
      durables (of_class p outs) ++ durables (queues pq !!! p) = durables (of_class p (pushed ops)).
Proof.
  destruct (queue_run_spec ops (with_capacity w0 w1 w2 w3 depth) ws (with_capacity_ok _ _ _ _ _) Hops) as (pq & ws' & outs & E & Hok & Hd & Hq & _).
  exists pq, ws', outs. split; [done|]. intros p Hp. destruct (Hq p Hp) as [Ho Hdur].
  assert (queues (with_capacity w0 w1 w2 w3 depth) !!! p = []) as Ei by (unfold LOCAL_QUEUE_COUNT in Hp; do 7 (destruct p as [|p]; [done|]); lia).
  rewrite Ei in Ho, Hdur. split; [exact Ho|]. unfold durables in *. by rewrite <- filter_app.
Qed.

(** ** Fairness *)

Definition sum_on (f : nat -> Z) (ps : list nat) : Z := sum_all (f <$> ps).

Lemma sum_on_le f g ps : (forall p, p ∈ ps -> f p <= g p) -> sum_on f ps <= sum_on g ps.
Proof.
  unfold sum_on, sum_all. induction ps as [|p ps IH]; intros H; cbn; [lia|]. assert (f p <= g p) by (apply H; by left).
  assert (foldr Z.add 0 (f <$> ps) <= foldr Z.add 0 (g <$> ps)) by (apply IH; intros q Hq; apply H; by right). lia.
Qed.

(** One of the summands is one less. *)
Lemma sum_on_less f g ps p : NoDup ps -> p ∈ ps -> g p = f p - 1 -> (forall q, q <> p -> g q = f q) -> sum_on g ps = sum_on f ps - 1.
Proof.
  unfold sum_on, sum_all. intros Hn Hp Eg Hq. induction Hn as [|q ps Hnin Hn IH]; [by apply not_elem_of_nil in Hp|]. cbn.
  apply elem_of_cons in Hp as [<-|Hp].
  - replace (g <$> ps) with (f <$> ps); [lia|]. apply list_fmap_ext. intros i r E. symmetry. apply Hq. intros ->. apply Hnin. by eapply list_elem_of_lookup_2.
  - specialize (IH Hp). rewrite Hq by congruence. lia.
Qed.

Lemma sum_on_nonneg f ps : (forall p, p ∈ ps -> 0 <= f p) -> 0 <= sum_on f ps.
Proof. intros H. etrans; [|apply (sum_on_le (fun _ => 0) f ps H)]. unfold sum_on, sum_all. clear. induction ps; cbn; lia. Qed.

(** The classes that are served before class [c] in a round, and all others. *)
Definition before (c : nat) : list nat := seq 0 c.
Definition others (c : nat) : list nat := seq 0 c ++ seq (S c) (LOCAL_QUEUE_COUNT - S c).

Definition slots_ok (pq : PriorityQueue) : Prop := forall q, (q < LOCAL_QUEUE_COUNT)%nat -> 0 <= slots pq !!! q <= weights pq !!! q.

(** The pops that may go to other classes before class [c] is served again. *)
Definition wait (pq : PriorityQueue) (c : nat) : Z :=
  if slots pq !!! c =? 0 then sum_on (fun q => slots pq !!! q) (others c) + sum_on (fun q => weights pq !!! q) (before c)
  else sum_on (fun q => slots pq !!! q) (before c).
Definition longest (pq : PriorityQueue) (c : nat) : Z :=
  sum_on (fun q => weights pq !!! q) (others c) + sum_on (fun q => weights pq !!! q) (before c).

Lemma elem_of_before c q : q ∈ before c <-> (q < c)%nat.
Proof. unfold before. rewrite elem_of_seq. lia. Qed.

Lemma elem_of_others c q : (c < LOCAL_QUEUE_COUNT)%nat -> q ∈ others c <-> (q < LOCAL_QUEUE_COUNT)%nat /\ q <> c.
Proof. intros Hc. unfold others. rewrite elem_of_app, !elem_of_seq. lia. Qed.

Lemma nodup_others c : NoDup (others c).
Proof.
  unfold others. apply NoDup_app. split_and!; [apply NoDup_seq| |apply NoDup_seq]. intros q [_ Hq]%elem_of_seq [Hq' _]%elem_of_seq. lia.
Qed.

Lemma wait_bounds pq c : slots_ok pq -> (c < LOCAL_QUEUE_COUNT)%nat -> 0 <= wait pq c <= longest pq c.
Proof.
  intros Hs Hc. unfold wait, longest.
  assert (0 <= sum_on (fun q => slots pq !!! q) (others c) <= sum_on (fun q => weights pq !!! q) (others c)).
  { split; [apply sum_on_nonneg|apply sum_on_le]; intros q Hq; apply elem_of_others in Hq as [Hq _]; try done; by apply Hs. }
  assert (0 <= sum_on (fun q => slots pq !!! q) (before c) <= sum_on (fun q => weights pq !!! q) (before c)).
  { split; [apply sum_on_nonneg|apply sum_on_le]; intros q Hq%elem_of_before; apply Hs; lia. }
  destruct (_ =? 0); lia.
Qed.

Lemma served_slots pq p y pq' q : pq_ok pq -> takes_turn pq (Some (p, y)) pq' -> slots pq' !!! q = if decide (q = p) then slots pq !!! p - 1 else slots pq !!! q.
Proof.
  intros Hok Hsv. rewrite (sv_slots _ _ _ Hsv). case_decide as E.
  - subst. apply list_lookup_total_insert_eq. rewrite (ok_slots_len _ Hok). exact (sv_class _ _ _ Hsv).
  - by apply list_lookup_total_insert_ne.
Qed.

Lemma served_slots_ok pq p y pq' : pq_ok pq -> slots_ok pq -> takes_turn pq (Some (p, y)) pq' -> slots pq !!! p <> 0 -> slots_ok pq'.
Proof.
  intros Hok Hs Hsv Hp q Hq. rewrite (served_slots pq p y pq' q Hok Hsv), (sv_weights _ _ _ Hsv). specialize (Hs q Hq).
  case_decide; [subst; lia|done].
Qed.

(** Class [c] waits one pop less after another class was served. *)
Lemma wait_less pq p y pq' c : pq_ok pq -> takes_turn pq (Some (p, y)) pq' -> (c < LOCAL_QUEUE_COUNT)%nat -> p <> c -> (slots pq !!! c <> 0 -> (p < c)%nat) ->
  wait pq' c = wait pq c - 1.
Proof.
  intros Hok Hsv Hc Hne Hlt. unfold wait. pose proof (served_slots pq p y pq' c Hok Hsv) as Ec. rewrite decide_False in Ec by congruence. rewrite Ec, (sv_weights _ _ _ Hsv).
  assert (forall ps, NoDup ps -> p ∈ ps -> sum_on (fun q => slots pq' !!! q) ps = sum_on (fun q => slots pq !!! q) ps - 1) as Hless.
  { intros ps Hn Hp. apply (sum_on_less _ _ _ p); [done|done| |].
    - rewrite (served_slots pq p y pq' p Hok Hsv). by rewrite decide_True.
    - intros q Hq. rewrite (served_slots pq p y pq' q Hok Hsv). by rewrite decide_False. }
  pose proof (sv_class _ _ _ Hsv) as Hp. cbn in Hp. destruct (_ =? 0) eqn:Es; to_prop.
  - rewrite Hless; [lia|apply nodup_others|by apply elem_of_others].
  - rewrite Hless; [done|apply NoDup_seq|]. apply elem_of_before. by apply Hlt.
Qed.

(** Entry [x] is in class [c] with at most [k] in front of it. *)
Definition queued_at (pq : PriorityQueue) (c : nat) (x : QueuedFrame) (k : Z) : Prop :=
  exists l1 l2, queues pq !!! c = l1 ++ x :: l2 /\ zlen l1 <= k.

Lemma queued_thins pq c x k l' : queued_at pq c x k -> durable x = true -> thins (queues pq !!! c) l' -> exists l1 l2, l' = l1 ++ x :: l2 /\ zlen l1 <= k.
Proof.
  intros (l1 & l2 & E & Hk) Hx Ht. rewrite E in Ht. destruct (thins_before _ _ _ _ Ht Hx) as (l1' & l2' & -> & Hl). exists l1', l2'. split; [done|]. unfold zlen in *. lia.
Qed.

(** A pop in a round in which class [c] has slots: [x] leaves, or is one further, or waits one pop less. *)
Lemma serve_progress pq pq' p y c x k : pq_ok pq -> (c < LOCAL_QUEUE_COUNT)%nat -> durable x = true -> queued_at pq c x k ->
  takes_turn pq (Some (p, y)) pq' -> (slots pq !!! c <> 0 -> passed pq pq' 0 p) -> (slots pq !!! c = 0 -> p <> c) ->
  (p = c /\ y = x) \/ queued_at pq' c x (k - 1) \/ (queued_at pq' c x k /\ wait pq' c = wait pq c - 1).
Proof.
  intros Hok Hc Hx Hq Hsv Hpass Hzero. destruct (queued_thins _ _ _ _ _ Hq Hx (sv_queues _ _ _ Hsv c Hc)) as (l1 & l2 & E & Hk).
  destruct (decide (c = p)) as [->|Hne].
  - destruct l1 as [|z l1]; injection E as -> E; [by left|]. right. left. exists l1, l2. split; [done|]. rewrite zlen_cons in Hk. lia.
  - right. right. split; [by exists l1, l2|]. apply (wait_less pq p y pq' c Hok Hsv Hc); [congruence|]. intros Hs.
    destruct (decide (p < c)%nat) as [|Hge]; [done|]. exfalso. destruct (Hpass Hs c ltac:(lia)) as [|Hnil]; [done|]. rewrite Hnil in E. by destruct l1.
Qed.

Lemma reset_ok pq : pq_ok pq -> pq_ok (reset_round pq).
Proof. intros []. by split. Qed.

Definition potential (pq : PriorityQueue) (c : nat) (k : Z) : Z := k * (longest pq c + 1) + wait pq c.

(** Every pop serves a frame, and brings [x] closer. *)
Lemma pop_progress pq ws now c x k : pq_ok pq -> slots_ok pq -> (c < LOCAL_QUEUE_COUNT)%nat -> 0 < weights pq !!! c -> durable x = true -> queued_at pq c x k ->
  exists pq' ws' p y, pop_entry pq ws now = Some (pq', ws', Some (p, y)) /\ pq_ok pq' /\ slots_ok pq' /\ weights pq' = weights pq /\
    ((p = c /\ y = x) \/ exists k', queued_at pq' c x k' /\ potential pq' c k' < potential pq c k).
Proof.
  intros Hok Hs Hc Hw Hx Hq. destruct (pop_entry_spec pq ws now Hok) as (pq' & ws' & r & -> & Hcases).
  assert (forall pq0 pq', weights pq' = weights pq0 -> longest pq' c = longest pq0 c) as Hlong by (intros ? ? E; unfold longest; by rewrite E).
  assert (forall pq0 p y, takes_turn pq0 (Some (p, y)) pq' -> weights pq0 = weights pq -> pq_ok pq0 -> slots_ok pq0 -> slots pq0 !!! p <> 0 ->
    wait pq0 c <= wait pq c -> ((p = c /\ y = x) \/ queued_at pq' c x (k - 1) \/ (queued_at pq' c x k /\ wait pq' c = wait pq0 c - 1)) ->
    exists pq1 ws1 p1 y1, Some (pq', ws', Some (p, y)) = Some (pq1, ws1, Some (p1, y1)) /\ pq_ok pq1 /\ slots_ok pq1 /\ weights pq1 = weights pq /\
    ((p1 = c /\ y1 = x) \/ exists k', queued_at pq1 c x k' /\ potential pq1 c k' < potential pq c k)) as Hdone.
  { intros pq0 p y Hsv Ew Hok0 Hs0 Hp Hle Hprog. pose proof (sv_weights _ _ _ Hsv) as Ew'. pose proof (served_slots_ok _ _ _ _ Hok0 Hs0 Hsv Hp) as Hs'.
    pose proof (sv_ok _ _ _ Hsv) as Hok'. exists pq', ws', p, y. split_and!; [done|done|done|congruence|].
    pose proof (wait_bounds pq' c Hs' Hc) as Hb'. pose proof (wait_bounds pq c Hs Hc) as Hb. unfold potential. rewrite (Hlong pq pq') in * by congruence.
    destruct Hprog as [?|[Hq'|[Hq' Hwait]]]; [by left|right; exists (k - 1); split; [done|nia]|right; exists k; split; [done|nia]]. }
  destruct Hcases as [[Hsv Hr]|(pq1 & Hok1 & Ht1 & Hpass1 & Hsv & Hr)].
  - destruct r as [[p y]|].
    + destruct Hr as [Hpass Hp]. apply (Hdone pq p y); try done. apply (serve_progress pq pq' p y c x k); try done. congruence.
    + exfalso. destruct (queued_thins _ _ _ _ _ Hq Hx (sv_queues _ _ _ Hsv c Hc)) as (l1 & l2 & E & _). rewrite (Hr c Hc) in E. by destruct l1.
  - destruct (queued_thins _ _ _ _ _ Hq Hx (pt_queues _ _ Ht1 c Hc)) as (l1 & l2 & E1 & Hk1). assert (queued_at (reset_round pq1) c x k) as Hq1 by (by exists l1, l2).
    pose proof (pt_weights _ _ Ht1) as Ew1. assert (slots pq !!! c = 0) as Hzero by (destruct (Hpass1 c ltac:(lia)) as [|Hnil]; [done|rewrite E1 in Hnil; by destruct l1]).
    assert (slots_ok (reset_round pq1)) as Hsr by (intros q Hlt; cbn; rewrite Ew1; specialize (Hs q Hlt); lia).
    destruct r as [[p y]|].
    + destruct Hr as [Hpass Hp]. apply (Hdone (reset_round pq1) p y); try done; [by apply reset_ok|cbn; by rewrite Ew1| |].
      * unfold wait. rewrite Hzero. cbn. rewrite Ew1. destruct (weights pq !!! c =? 0) eqn:E0; to_prop; [lia|].
        pose proof (sum_on_nonneg (fun q => slots pq !!! q) (others c)) as Hn. enough (0 <= sum_on (fun q => slots pq !!! q) (others c)) by lia.
        apply Hn. intros q Hin. apply elem_of_others in Hin as [Hlt _]; [|done]. by apply Hs.
      * apply (serve_progress _ _ _ _ _ _ _ (reset_ok _ Hok1) Hc Hx Hq1 Hsv); [done|]. cbn. rewrite Ew1. lia.
    + exfalso. destruct (queued_thins _ _ _ _ _ Hq1 Hx (sv_queues _ _ _ Hsv c Hc)) as (l1' & l2' & E & _).
      destruct (Hr c ltac:(lia)) as [Hz|Hnil]; [cbn in Hz; rewrite Ew1 in Hz; lia|]. rewrite Hnil in E. by destruct l1'.
Qed.

(** Pushes, pops of the rounds, local datagrams that leave, and decisions on work items. *)
Definition calm (op : QueueOp) : bool :=
  match op with
  | Push _ _ _ | Pop _ | Decide _ => true
  | PopLocal _ _ retry => negb retry
  | _ => false
  end.

Definition is_pop (op : QueueOp) : bool := match op with Pop _ => true | _ => false end.
Definition pops (ops : list QueueOp) : Z := zlen (filter (fun op => is_pop op = true) ops).

Lemma pops_cons op ops : pops (op :: ops) = (match op with Pop _ => 1 | _ => 0 end) + pops ops.
Proof. unfold pops. rewrite filter_cons. destruct op; case_decide; try done; rewrite ?zlen_cons; lia. Qed.

(** The operations between two pops neither move a durable entry back nor touch the round. *)
Lemma calm_step pq ws op : pq_ok pq -> op_ok op -> calm op = true -> (forall now, op <> Pop now) ->
  exists pq' ws' r, queue_step pq ws op = Some (pq', ws', r) /\ pq_ok pq' /\ weights pq' = weights pq /\ slots pq' = slots pq /\
    (forall c, (c < LOCAL_QUEUE_COUNT)%nat -> exists k, thins (queues pq !!! c ++ k) (queues pq' !!! c)).
Proof.
  intros Hok Hop Hcalm Hno. destruct op as [env lossy now|now|A predicate a now retry|predicate now retry|predicate now|f]; try done; cbn [queue_step].
  - destruct (push_envelope_spec pq ws env lossy now Hok Hop) as (pq' & ws' & -> & [Hok' Hw Hs Hd Hq] & _). cbn [mbind option_bind].
    eexists _, _, _. split_and!; try done. intros c Hc. eexists. by apply Hq.
  - exfalso. by apply (Hno now).
  - destruct (pop_local_spec predicate pq ws now Hok) as (pq' & ws' & r & -> & [Hm [Hw Hs _ Hq] _]). cbn [mbind option_bind]. destruct retry; [done|].
    assert (forall r, settle pq' ws' r now false = (pq', ws', option_map (fun e : Z * QueuedFrame => (queue_index e.1, e.2)) r)) as Es by (by intros [[]|]).
    rewrite Es. eexists _, _, _. split_and!; [done|apply Hm|done|done|]. intros c Hc. exists []. rewrite app_nil_r. by apply Hq.
  - eexists _, _, _. split_and!; try done. intros c Hc. exists []. rewrite app_nil_r. apply thins_refl.
Qed.

Lemma queued_app pq pq' c x k k' : queued_at pq c x k -> durable x = true -> thins (queues pq !!! c ++ k') (queues pq' !!! c) -> queued_at pq' c x k.
Proof.
  intros (l1 & l2 & E & Hk) Hx Ht. rewrite E, <- app_assoc in Ht. destruct (thins_before _ _ _ _ Ht Hx) as (l1' & l2' & E' & Hl). exists l1', l2'.
  split; [done|]. unfold zlen in *. lia.
Qed.

Lemma calm_run ops : forall pq ws, pq_ok pq -> slots_ok pq -> Forall op_ok ops -> forallb calm ops = true ->
  exists pq' ws' outs, queue_run pq ws ops = Some (pq', ws', outs) /\ pq_ok pq' /\ slots_ok pq' /\ weights pq' = weights pq.
Proof.
  induction ops as [|op ops IH]; intros pq ws Hok Hs Hops Hcalm; cbn [queue_run]; [by eexists _, _, _|].
  apply Forall_cons in Hops as [Hop Hops]. cbn in Hcalm. apply andb_true_iff in Hcalm as [Hcalm Hcalms].
  assert (exists pq1 ws1 r, queue_step pq ws op = Some (pq1, ws1, r) /\ pq_ok pq1 /\ slots_ok pq1 /\ weights pq1 = weights pq) as (pq1 & ws1 & r & -> & Hok1 & Hs1 & Hw1).
  { destruct (decide (pops [op] = 1)) as [Hpop|Hpop].
    - destruct op as [|now| | | |]; try done. cbn [queue_step]. destruct (pop_entry_spec pq ws now Hok) as (pq' & ws' & r & -> & Hcases). eexists _, _, _. split; [done|].
      destruct Hcases as [[Hsv Hr]|(pq1 & Hok1 & Ht1 & _ & Hsv & Hr)]; pose proof (sv_ok _ _ _ Hsv) as Hok'; pose proof (sv_weights _ _ _ Hsv) as Hw'; cbn in Hw'.
      + split_and!; [done| |done]. destruct r as [[p y]|]; [eapply served_slots_ok; [exact Hok|done|done|apply Hr]|].
        intros q Hq. rewrite Hw', (sv_slots _ _ _ Hsv). by apply Hs.
      + pose proof (pt_weights _ _ Ht1) as Ew. assert (slots_ok (reset_round pq1)) as Hsr by (intros q Hlt; cbn; rewrite Ew; specialize (Hs q Hlt); lia).
        split_and!; [done| |congruence]. destruct r as [[p y]|]; [apply (served_slots_ok (reset_round pq1) p y); [by apply reset_ok|done|done|cbn; rewrite Ew; apply Hr]|].
        intros q Hq. rewrite Hw', (sv_slots _ _ _ Hsv). by apply Hsr.
    - destruct (calm_step pq ws op Hok Hop Hcalm) as (pq' & ws' & r & -> & Hok' & Hw & Hsl & _); [intros now ->; by apply Hpop|].
      eexists _, _, _. split_and!; try done. intros q Hq. rewrite Hw, Hsl. by apply Hs. }
  cbn [mbind option_bind]. destruct (IH pq1 ws1 Hok1 Hs1 Hops Hcalms) as (pq2 & ws2 & outs & -> & Hok2 & Hs2 & Hw2). cbn [mbind option_bind].
  eexists _, _, _. split_and!; [done|done|done|congruence].
Qed.

(** After as many pops as its potential and one more, a durable entry is out. *)
Lemma durable_leaves ops c x : (c < LOCAL_QUEUE_COUNT)%nat -> durable x = true -> forall pq ws k, pq_ok pq -> slots_ok pq -> 0 < weights pq !!! c ->
  queued_at pq c x k -> Forall op_ok ops -> forallb calm ops = true -> potential pq c k < pops ops ->
  exists pq' ws' outs, queue_run pq ws ops = Some (pq', ws', outs) /\ (c, x) ∈ outs.
Proof.
  intros Hc Hx. induction ops as [|op ops IH]; intros pq ws k Hok Hs Hw Hq Hops Hcalm Hpot.
  { exfalso. destruct Hq as (l1 & l2 & _ & Hk). pose proof (wait_bounds pq c Hs Hc). unfold potential in Hpot. change (pops []) with 0 in Hpot.
    pose proof (zlen_nonneg l1). nia. }
  apply Forall_cons in Hops as [Hop Hops]. cbn in Hcalm. apply andb_true_iff in Hcalm as [Hcalm Hcalms]. rewrite pops_cons in Hpot. cbn [queue_run].
  destruct (decide (pops [op] = 1)) as [Hpop|Hpop].
  - destruct op as [|now| | | |]; try done. cbn [queue_step].
    destruct (pop_progress pq ws now c x k Hok Hs Hc Hw Hx Hq) as (pq1 & ws1 & p & y & -> & Hok1 & Hs1 & Hw1 & Hout). cbn [mbind option_bind].
    destruct Hout as [[-> ->]|(k' & Hq' & Hlt)].
    + destruct (calm_run ops pq1 ws1 Hok1 Hs1 Hops Hcalms) as (pq2 & ws2 & outs & -> & _). cbn [mbind option_bind]. eexists _, _, _. split; [done|by left].
    + destruct (IH pq1 ws1 k' Hok1 Hs1 ltac:(by rewrite Hw1) Hq' Hops Hcalms ltac:(lia)) as (pq2 & ws2 & outs & -> & Hin). cbn [mbind option_bind].
      eexists _, _, _. split; [done|by right].
  - destruct (calm_step pq ws op Hok Hop Hcalm) as (pq1 & ws1 & r & -> & Hok1 & Hw1 & Hsl & Hq1); [intros now ->; by apply Hpop|]. cbn [mbind option_bind].
    destruct (Hq1 c Hc) as [k' Ht]. assert (potential pq1 c k = potential pq c k) as Epot by (unfold potential, longest, wait; by rewrite Hw1, Hsl).
    destruct (IH pq1 ws1 k Hok1) as (pq2 & ws2 & outs & -> & Hin); [intros q Hlt; rewrite Hw1, Hsl; by apply Hs|by rewrite Hw1|by eapply queued_app|done|done|
      destruct op; try done; rewrite Epot; lia|]. cbn [mbind option_bind]. eexists _, _, _. split; [done|]. destruct r; [by right|done].
Qed.

(** The pops that may pass before a class is served once more: all slots of the other classes, and those of
    the classes before it once again, and its own. *)
Definition turn (w0 w1 w2 w3 : Z) (c : nat) : Z := longest (with_capacity w0 w1 w2 w3 0) c + 1.



Module Demo.

(** A work item of two cells of which one is queued; a reliable frame; frames of three classes. *)
Definition works : Works := {[ 1 := mkWork [100; 100] 200 None DecisionPending ]}.
Definition cell (index : Z) : FrameEnvelope := mkEnvelope (Some (mkCell 1 index)) BULK [x63] None 0 None None None.
Definition reliable : FrameEnvelope := mkEnvelope None BACKGROUND [x72] None 0 None (Some 9) None.
Definition ops : list QueueOp :=
  [Push (cell 0) true 0; Push (envelope_from REALTIME [x61] 0) true 0; Push (envelope_from INTERACTIVE [x62] 0) false 0;
   PopLocal (fun _ _ => true) 5 true; Pop 5; Decide (fun ws => cell_reject ws (mkCell 1 1)); PopAdmitted unit (fun a ws _ _ _ _ => (a, ws, Allow)) tt 6 false;
   PopRealtime (fun _ => true) 7].
Definition calm_ops : list QueueOp := [Push (cell 0) true 0; Push (envelope_from INTERACTIVE [x62] 0) false 0; Push (envelope_from BACKGROUND [x64] 0) false 0].

Lemma ops_ok : Forall op_ok ops.
Proof. repeat constructor; cbn; unfold BULK, REALTIME, INTERACTIVE; lia. Qed.

Lemma queue_robust_witness : exists pq ws' outs, queue_run (with_capacity 8 4 2 1 2) works ops = Some (pq, ws', outs) /\
  ordinary_len pq <= 2 /\ lossy_count (queues pq !!! 2%nat) <= LOSSY_REALTIME_MAX_DEPTH.
Proof.
  destruct (queue_robust 8 4 2 1 2 works ops ltac:(lia) ops_ok) as (pq & ws' & outs & E & Ho & Hl & _).
  exact (ex_intro _ pq (ex_intro _ ws' (ex_intro _ outs (conj E (conj Ho (Hl 2%nat ltac:(unfold LOCAL_QUEUE_COUNT; lia))))))).
Defined.

Lemma queue_in_order_witness : exists pq ws' outs, queue_run (with_capacity 8 4 2 1 2) works ops = Some (pq, ws', outs) /\
  durables (of_class 3 outs) ++ durables (queues pq !!! 3%nat) = durables (of_class 3 (pushed ops)).
Proof.
  destruct (queue_in_order 8 4 2 1 2 works ops ops_ok) as (pq & ws' & outs & E & Hq).
  exact (ex_intro _ pq (ex_intro _ ws' (ex_intro _ outs (conj E (proj2 (Hq 3%nat ltac:(unfold LOCAL_QUEUE_COUNT; lia))))))).
Defined.


End Demo.
