(* ===== verification/SessionCipher.v ===== *)
(** * The keys and the cipher of a session

    crates/veil-crypto/src/session_cipher.rs, kex.rs and session_kdf.rs: the counter-driven AEAD of one
    direction of a session, the ephemeral key exchange, and the derivation of the keys of both directions
    from a shared secret. *)

From S2P Require Import Prelude Crypto OMap FrameCodec.
From stdpp Require Import strings.
#[local] Open Scope Z_scope.
#[local] Open Scope list_scope.

Definition AEAD_OVERHEAD : Z := 16.

Inductive CipherError := DecryptFailed | EncryptFailed | NonceOverflow.

(** [cipher] is the key the AEAD was made with. *)
Record SessionCipher := mkCipher {
  cipher : Key;
  counter : Z;
  dir_salt : list byte
}.

#[export] Instance eta_SessionCipher : Settable SessionCipher := fun c =>
  mkCipher (cipher c) (counter c) (dir_salt c).

Definition cipher_new (key : Key) (is_tx : bool) : SessionCipher :=
  mkCipher key 0 (if is_tx then [x00; x00; x00; x01] else [x00; x00; x00; x02]).

Definition frames_processed (self : SessionCipher) : Z := counter self.

(** The nonce of frame [c]: the salt, then the counter in little-endian order. *)
Definition frame_nonce (self : SessionCipher) (c : Z) : Key := dir_salt self ++ rev (be_bytes 8 c).

(** [counter.checked_add(1)]. *)
Definition candidate (self : SessionCipher) : option Z :=
  if counter self + 1 <=? U64_MAX then Some (counter self + 1) else None.

Definition next_nonce (self : SessionCipher) : (CipherError + Key) * SessionCipher :=
  match candidate self with
  | None => (inl NonceOverflow, self)
  | Some c => (inr (frame_nonce self c), self <| counter := c |>)
  end.

Section aead.
Context `{Aead}.

Definition seal (self : SessionCipher) (plaintext aad : list byte) : (CipherError + list byte) * SessionCipher :=
  match next_nonce self with
  | (inl e, self) => (inl e, self)
  | (inr nonce, self) =>
      match aead_seal (cipher self) nonce aad plaintext with
      | Some ct => (inr ct, self)
      | None => (inl EncryptFailed, self)
      end
  end.

(** The buffer and the detached tag. *)
Definition seal_in_place_detached (self : SessionCipher) (buf aad : list byte) :
    (CipherError + list byte * list byte) * SessionCipher :=
  match next_nonce self with
  | (inl e, self) => (inl e, self)
  | (inr nonce, self) =>
      match aead_seal (cipher self) nonce aad buf with
      | Some ct => (inr (ztake (zlen buf) ct, zdrop (zlen buf) ct), self)
      | None => (inl EncryptFailed, self)
      end
  end.

Definition open (self : SessionCipher) (ciphertext aad : list byte) : (CipherError + list byte) * SessionCipher :=
  match candidate self with
  | None => (inl NonceOverflow, self)
  | Some c =>
      match aead_open (cipher self) (frame_nonce self c) aad ciphertext with
      | None => (inl DecryptFailed, self)
      | Some plaintext => (inr plaintext, self <| counter := c |>)
      end
  end.

(** The result, the buffer and the cipher.  The AEAD leaves the buffer in an unspecified state when it
    fails: [scramble] is what it does to it. *)
Definition open_in_place (scramble : list byte -> list byte) (self : SessionCipher) (buf aad : list byte) :
    (CipherError + unit) * list byte * SessionCipher :=
  match candidate self with
  | None => (inl NonceOverflow, buf, self)
  | Some c =>
      match aead_open (cipher self) (frame_nonce self c) aad buf with
      | None => (inl DecryptFailed, scramble buf, self)
      | Some plaintext => (inr tt, plaintext, self <| counter := c |>)
      end
  end.

End aead.

(** ** The ephemeral key exchange *)

Record EphemeralKeypair := mkKeypair { secret : Key; public_key : Key }.

Inductive KexError := NonContributory.

Section kex.
Context `{X25519} {R : Type} `{Rng R}.

Definition generate_ephemeral (r : R) : EphemeralKeypair * R :=
  let '(secret, r) := fill_bytes r 32 in (mkKeypair secret (x25519_public secret), r).

Definition compute_shared_secret (keypair : EphemeralKeypair) (remote_pubkey : Key) : KexError + Key :=
  let shared := x25519_dh (secret keypair) remote_pubkey in
  if negb (x25519_contributory shared) then inl NonContributory else inr shared.

End kex.

(** ** The keys of a session *)

Record SessionKeys := mkKeys { tx_key : Key; rx_key : Key; keys_session_id : Key }.

Definition HKDF_INFO : list byte := ascii "ovl1-session-v1".
Definition HKDF_REKEY_INFO : list byte := ascii "ovl1-session-rekey-v1".
Definition SESSION_OKM_LEN : Z := 96.

(** The slices of the output block; the smaller node id sends under the first key. *)
Definition split_okm (okm local_node_id remote_node_id : list byte) : SessionKeys :=
  let key_a := range 0 32 okm in
  let key_b := range 32 64 okm in
  let session_id := range 64 96 okm in
  if negb (ltb remote_node_id local_node_id) then mkKeys key_a key_b session_id else mkKeys key_b key_a session_id.

Section kdf.
Context `{Hkdf}.

Definition derive_session_keys (shared_secret local_node_id remote_node_id : list byte) : SessionKeys :=
  let salt := zip_with xor_byte local_node_id remote_node_id in
  split_okm (hkdf salt shared_secret HKDF_INFO SESSION_OKM_LEN) local_node_id remote_node_id.

Definition derive_rekey_keys (new_shared_secret session_id local_node_id remote_node_id : list byte) : SessionKeys :=
  let salt := zip_with xor_byte (zip_with xor_byte session_id local_node_id) remote_node_id in
  split_okm (hkdf salt new_shared_secret HKDF_REKEY_INFO SESSION_OKM_LEN) local_node_id remote_node_id.

End kdf.

(** ** The payload of a rekey (veil-proto/src/session.rs) *)

Definition REKEY_WIRE_SIZE : Z := 32.

Definition rekey_payload_encode (ephemeral_pubkey : Key) : list byte := ephemeral_pubkey.

Definition rekey_payload_decode (buf : list byte) : ProtoError + Key :=
  if zlen buf <? REKEY_WIRE_SIZE then inl (BufferTooShort REKEY_WIRE_SIZE (zlen buf)) else inr (ztake 32 buf).

(** ** Lemmas *)

Lemma xor_bytes_comm a b : zip_with xor_byte a b = zip_with xor_byte b a.
Proof.
  revert b. induction a as [|x a IH]; intros [|y b]; try done. cbn. rewrite IH. f_equal.
  unfold xor_byte. by rewrite Z.lxor_comm.
Qed.

Lemma xor_bytes_swap a b c : zip_with xor_byte (zip_with xor_byte a b) c = zip_with xor_byte (zip_with xor_byte a c) b.
Proof.
  revert b c. induction a as [|x a IH]; intros [|y b] [|z c]; try done. cbn. rewrite IH. f_equal. apply xor_byte_swap.
Qed.

(** The keys of the two ends of an exchange mirror each other. *)
Definition mirrored (k k' : SessionKeys) : Prop :=
  tx_key k = rx_key k' /\ rx_key k = tx_key k' /\ keys_session_id k = keys_session_id k'.

Lemma split_okm_mirrored okm a b : a <> b -> mirrored (split_okm okm a b) (split_okm okm b a).
Proof.
  intros Hab. unfold split_okm, ltb. rewrite (cmp_antisym a b).
  destruct (cmp a b) eqn:E; [|done|done]. by apply cmp_eq in E.
Qed.

Lemma derive_session_mirrored `{Hkdf} shared a b : a <> b ->
  mirrored (derive_session_keys shared a b) (derive_session_keys shared b a).
Proof. intros Hab. unfold derive_session_keys. rewrite (xor_bytes_comm b a). by apply split_okm_mirrored. Qed.

Lemma derive_rekey_mirrored `{Hkdf} shared sid a b : a <> b ->
  mirrored (derive_rekey_keys shared sid a b) (derive_rekey_keys shared sid b a).
Proof. intros Hab. unfold derive_rekey_keys. rewrite (xor_bytes_swap sid b a). by apply split_okm_mirrored. Qed.

(** The cipher after [n] frames. *)
Definition after (c : SessionCipher) (n : Z) : SessionCipher := c <| counter := counter c + n |>.

Section laws.
Context `{Aead} `{!AeadLaws} `{!AeadTotal}.

(** A sealed frame opens at the other end when the counters agree, and both advance by one. *)
Lemma seal_opens c buf aad : counter c + 1 <= U64_MAX -> zlen buf <= 2 ^ 32 ->
  exists ct tag, seal_in_place_detached c buf aad = (inr (ct, tag), after c 1) /\ zlen (ct ++ tag) = zlen buf + 16 /\
    open c (ct ++ tag) aad = (inr buf, after c 1) /\
    forall scramble, open_in_place scramble c (ct ++ tag) aad = (inr tt, buf, after c 1).
Proof.
  intros Hc Hb. destruct (aead_total (cipher c) (frame_nonce c (counter c + 1)) aad buf Hb) as [s Es].
  exists (ztake (zlen buf) s), (zdrop (zlen buf) s). rewrite ztake_zdrop.
  unfold seal_in_place_detached, open, open_in_place, next_nonce, candidate.
  rewrite (proj2 (Z.leb_le _ _) Hc). cbn [cipher set_field].
  change (cipher (c <| counter := counter c + 1 |>)) with (cipher c). rewrite Es.
  rewrite (aead_correct _ _ _ _ _ Es), (aead_tag _ _ _ _ _ Es). done.
Qed.

End laws.
