(* ===== verification/Rekey.v ===== *)
(** * Rekeying a session

    crates/veil-session/src/rekey_context.rs, rekey_rx_grace_buffer.rs, and the handlers of runner.rs that
    seal and open frames and replace the keys of a live session: a side that crosses a threshold sends its
    ephemeral key (RekeyInit), the other answers with its own (RekeyAck) and switches at once, the first
    switches when the answer arrives; if both start, the smaller node id keeps its attempt and says so
    (RekeyKeptInit).  The previous receiving ciphers are kept for a while, for the frames still in flight.

    Instants are in nanoseconds, and a handler reads the clock once.  What a handler does to the rest of
    the process (the writer, the queue of frames, the registries and the datagram lane) is the list of its
    [Effect]s, in order; logs and metrics are left out. *)

From S2P Require Import Prelude Crypto OMap Float FrameCodec SessionCipher.
#[local] Open Scope Z_scope.
#[local] Open Scope list_scope.

(** ** The state of the exchange *)

Inductive RekeyState :=
| Idle
| AwaitingAck (keypair : EphemeralKeypair) (since : Z).

Inductive RekeyTrigger := BytesThreshold | TimeThreshold | NonceWatermark.

Record RekeyContext := mkContext {
  state : RekeyState;
  bytes_since_rekey : Z;
  last_rekey_at : Z;
  bytes_threshold : Z;
  time_threshold : Z;
  generation : Z
}.

#[export] Instance eta_RekeyContext : Settable RekeyContext := fun c =>
  mkContext (state c) (bytes_since_rekey c) (last_rekey_at c) (bytes_threshold c) (time_threshold c) (generation c).

Definition context_new (bytes_threshold time_threshold_secs now : Z) : RekeyContext :=
  mkContext Idle 0 now bytes_threshold (time_threshold_secs * NANOS) 0.

Definition is_idle (self : RekeyContext) : bool := match state self with Idle => true | _ => false end.
Definition is_awaiting_ack (self : RekeyContext) : bool := match state self with AwaitingAck _ _ => true | _ => false end.

Definition record_bytes (self : RekeyContext) (n : Z) : RekeyContext :=
  self <| bytes_since_rekey := sat_add64 (bytes_since_rekey self) n |>.

Definition should_initiate_rekey (self : RekeyContext) (now : Z) (nonce_pressure : bool) : option RekeyTrigger :=
  if nonce_pressure then Some NonceWatermark
  else if bytes_threshold self <=? bytes_since_rekey self then Some BytesThreshold
  else if time_threshold self <=? sat_sub now (last_rekey_at self) then Some TimeThreshold
  else None.

Definition enter_awaiting_ack (self : RekeyContext) (keypair : EphemeralKeypair) (now : Z) : RekeyContext :=
  self <| state := AwaitingAck keypair now |>.

Definition awaiting_ack_timed_out (self : RekeyContext) (now timeout : Z) : bool :=
  match state self with
  | AwaitingAck _ since => timeout <=? sat_sub now since
  | Idle => false
  end.

Definition take_initiator_keypair (self : RekeyContext) : option EphemeralKeypair * RekeyContext :=
  (match state self with AwaitingAck keypair _ => Some keypair | Idle => None end, self <| state := Idle |>).

Definition reset_to_idle (self : RekeyContext) : RekeyContext := self <| state := Idle |>.

Definition touch_last_rekey_at (self : RekeyContext) (now : Z) : RekeyContext := self <| last_rekey_at := now |>.

Definition record_rekey_complete (self : RekeyContext) (now : Z) : RekeyContext :=
  self <| bytes_since_rekey := 0 |> <| last_rekey_at := now |> <| generation := sat_add64 (generation self) 1 |>.

(** ** The previous receiving ciphers *)

Record FallbackHit := mkHit { slot_from_newest : Z; age_ms : Z; plaintext : list byte }.

Record RekeyRxGraceBuffer := mkGrace {
  entries : list (SessionCipher * Z);
  capacity : Z;
  grace_duration : Z
}.

#[export] Instance eta_RekeyRxGraceBuffer : Settable RekeyRxGraceBuffer := fun g =>
  mkGrace (entries g) (capacity g) (grace_duration g).

Definition grace_new (capacity grace_duration : Z) : RekeyRxGraceBuffer := mkGrace [] capacity grace_duration.

Definition prune_expired (self : RekeyRxGraceBuffer) (now : Z) : RekeyRxGraceBuffer :=
  self <| entries ::= drop_front (fun e => e.2 <=? now) |>.

(** Whether the oldest cipher was dropped to make room. *)
Definition grace_push (self : RekeyRxGraceBuffer) (c : SessionCipher) (now : Z) : bool * RekeyRxGraceBuffer :=
  let evicted := zlen (entries self) =? capacity self in
  let kept := if evicted then drop 1 (entries self) else entries self in
  (evicted, self <| entries := kept ++ [(c, now + grace_duration self)] |>).

Section aead.
Context `{Aead}.

(** [find_map] over the entries, newest first; the entry that opens keeps its advanced counter. *)
Fixpoint try_open_from (slot : Z) (newest_first : list (SessionCipher * Z)) (body aad : list byte) (now grace : Z) :
    option FallbackHit * list (SessionCipher * Z) :=
  match newest_first with
  | [] => (None, [])
  | (prev, deadline) :: older =>
      match open prev body aad with
      | (inr plaintext, prev) =>
          let age := if now <? deadline then sat_sub grace (deadline - now) / 1000000 else grace / 1000000 in
          (Some (mkHit slot age plaintext), (prev, deadline) :: older)
      | (inl _, prev) =>
          let '(hit, older) := try_open_from (slot + 1) older body aad now grace in (hit, (prev, deadline) :: older)
      end
  end.

Definition try_open (self : RekeyRxGraceBuffer) (body aad : list byte) (now : Z) :
    option FallbackHit * RekeyRxGraceBuffer :=
  let '(hit, l) := try_open_from 0 (rev (entries self)) body aad now (grace_duration self) in
  (hit, self <| entries := rev l |>).

(** ** Sealing a frame *)

(** The frame on the wire, or [None] when the session must close. *)
Definition apply_tx_cipher (frame : list byte) (c : SessionCipher) : option (list byte) * SessionCipher :=
  if zlen frame <? HEADER_SIZE then (Some frame, c)
  else
    let plaintext_body := zdrop HEADER_SIZE frame in
    match decode_header frame with
    | inl _ => (None, c)
    | inr h =>
        let ct_total := zlen plaintext_body + AEAD_OVERHEAD in
        let out_hdr := h <| body_len := wrap32 ct_total |> in
        match seal_in_place_detached c plaintext_body (frame_aad out_hdr) with
        | (inl _, c) => (None, c)
        | (inr (ct, tag), c) => (Some (encode_header out_hdr ++ ct ++ tag), c)
        end
    end.

End aead.

(** ** The runner of a session *)

(** The datagram lane: whether it has a sender and parallel channels, and whether the peer rotates too. *)
Record Lane := mkLane { lane_sender : bool; lane_parallel : bool; peer_rotates : bool }.

(** [rekey] and [rx_cipher_prev] are locals of [run]. *)
Record Runner := mkRunner {
  tx_cipher : option SessionCipher;
  rx_cipher : option SessionCipher;
  session_id : Key;
  local_node_id : Key;
  peer_id : Key;
  swap_registry : bool;
  lane : option Lane;
  lane_receiver : bool;
  rekey : RekeyContext;
  rx_cipher_prev : RekeyRxGraceBuffer
}.

#[export] Instance eta_Runner : Settable Runner := fun r =>
  mkRunner (tx_cipher r) (rx_cipher r) (session_id r) (local_node_id r) (peer_id r) (swap_registry r) (lane r)
    (lane_receiver r) (rekey r) (rx_cipher_prev r).

Inductive Effect :=
| PushWire (wire : list byte)
| PushQueue (priority : Z) (frame : list byte)
| PrimaryWriteError
| Violation
| SwapRekey (session_id : Key)
| LaneTxRekey (tx_key session_id : Key)
| LaneParallelRekey (tx_key rx_key session_id : Key)
| LaneRxRekey (rx_key session_id : Key).

Inductive ControlFlow := Continue | Break.

Definition FAMILY_SESSION : Z := 0.
Definition MSG_REKEY_INIT : Z := 8.
Definition MSG_REKEY_ACK : Z := 9.
Definition MSG_REKEY_KEPT_INIT : Z := 20.
Definition PRIORITY_INTERACTIVE : Z := 1.
Definition REKEY_ACK_TIMEOUT : Z := 60 * NANOS.
Definition NONCE_REKEY_WATERMARK : Z := 2 ^ 62.
Definition REKEY_RX_PREV_CAP : Z := 16.
Definition REKEY_RX_GRACE_DURATION : Z := 30 * NANOS.

(** [encode_header(&hdr)] then the body, [hdr.body_len] being the body's length. *)
Definition session_frame (msg : Z) (body : list byte) : list byte :=
  encode_frame (header_new FAMILY_SESSION msg <| body_len := zlen body |>) body.

(** Installing the keys of a finished exchange: the old receiving cipher joins the grace buffer, both
    ciphers start afresh, and the registry and the datagram lane follow. *)
Definition lane_rekey (lane : option Lane) (receiver : bool) (k : SessionKeys) : list Effect :=
  match lane with
  | Some l =>
      if peer_rotates l then
        (if lane_sender l then [LaneTxRekey (tx_key k) (keys_session_id k)] else []) ++
        (if lane_parallel l then [LaneParallelRekey (tx_key k) (rx_key k) (keys_session_id k)] else []) ++
        (if receiver then [LaneRxRekey (rx_key k) (keys_session_id k)] else [])
      else []
  | None => []
  end.

Definition switch_keys (self : Runner) (k : SessionKeys) (now : Z) : Runner * list Effect :=
  let prev :=
    match rx_cipher self with
    | Some old => (grace_push (rx_cipher_prev self) old now).2
    | None => rx_cipher_prev self
    end in
  let self := self <| rx_cipher_prev := prev |>
                   <| tx_cipher := Some (cipher_new (tx_key k) true) |>
                   <| rx_cipher := Some (cipher_new (rx_key k) true) |>
                   <| session_id := keys_session_id k |> in
  let effects := (if swap_registry self then [SwapRekey (session_id self)] else []) ++
                 lane_rekey (lane self) (lane_receiver self) k in
  (self <| rekey ::= fun c => record_rekey_complete c now |>, effects).

Section handlers.
Context `{Aead} `{Hkdf} `{X25519} {R : Type} `{Rng R}.

(** What [push_wire] does: [room] says whether the writer takes the bytes. *)
Definition push_wire (room : bool) (wire : list byte) : ControlFlow * list Effect :=
  if room then (Continue, [PushWire wire]) else (Break, [PrimaryWriteError]).

Definition nonce_pressure (c : option SessionCipher) : bool :=
  is_some_and c (fun c => NONCE_REKEY_WATERMARK <=? frames_processed c).

Definition maybe_initiate_x25519_rekey (self : Runner) (now : Z) (r : R) : Runner * list Effect * R :=
  let self := if awaiting_ack_timed_out (rekey self) now REKEY_ACK_TIMEOUT
              then self <| rekey ::= reset_to_idle |> else self in
  if negb (is_some (tx_cipher self) && negb (bool_decide (session_id self = repeat x00 32)) && is_idle (rekey self))
  then (self, [], r)
  else
    match should_initiate_rekey (rekey self) now (nonce_pressure (tx_cipher self) || nonce_pressure (rx_cipher self)) with
    | None => (self, [], r)
    | Some _ =>
        let '(kp, r) := generate_ephemeral r in
        let frame := session_frame MSG_REKEY_INIT (rekey_payload_encode (public_key kp)) in
        (self <| rekey ::= fun c => enter_awaiting_ack c kp now |>, [PushQueue PRIORITY_INTERACTIVE frame], r)
    end.

Definition handle_rekey_init_arm (self : Runner) (body : list byte) (now : Z) (room : bool) (r : R) :
    ControlFlow * Runner * list Effect * R :=
  match tx_cipher self, rx_cipher self, rekey_payload_decode body with
  | Some tx, Some _, inr peer_pubkey =>
      if is_awaiting_ack (rekey self) && ltb (local_node_id self) (peer_id self) then
        match apply_tx_cipher (encode_header (header_new FAMILY_SESSION MSG_REKEY_KEPT_INIT)) tx with
        | (None, tx) => (Continue, self <| tx_cipher := Some tx |>, [], r)
        | (Some wire, tx) =>
            let '(flow, effects) := push_wire room wire in
            (flow, self <| tx_cipher := Some tx |>, effects, r)
        end
      else
        let self := if is_awaiting_ack (rekey self) then self <| rekey ::= reset_to_idle |> else self in
        let '(our_kp, r) := generate_ephemeral r in
        match compute_shared_secret our_kp peer_pubkey with
        | inl _ => (Break, self, [], r)
        | inr shared =>
            let new_keys := derive_rekey_keys shared (session_id self) (local_node_id self) (peer_id self) in
            match apply_tx_cipher (session_frame MSG_REKEY_ACK (rekey_payload_encode (public_key our_kp))) tx with
            | (None, tx) => (Break, self <| tx_cipher := Some tx |>, [], r)
            | (Some wire, tx) =>
                match push_wire room wire with
                | (Break, effects) => (Break, self <| tx_cipher := Some tx |>, effects, r)
                | (Continue, effects) =>
                    let '(self, effects') := switch_keys self new_keys now in
                    (Continue, self, effects ++ effects', r)
                end
            end
        end
  | _, _, _ => (Continue, self, [], r)
  end.

Definition handle_rekey_ack_arm (self : Runner) (body : list byte) (now : Z) : ControlFlow * Runner * list Effect :=
  if negb (is_awaiting_ack (rekey self)) then (Continue, self, [])
  else
    match rekey_payload_decode body with
    | inl _ => (Continue, self, [])
    | inr peer_pubkey =>
        let '(keypair, ctx) := take_initiator_keypair (rekey self) in
        let self := self <| rekey := ctx |> in
        match keypair with
        | None => (Continue, self, [])
        | Some keypair =>
            match compute_shared_secret keypair peer_pubkey with
            | inl _ => (Break, self, [])
            | inr shared =>
                let new_keys := derive_rekey_keys shared (session_id self) (local_node_id self) (peer_id self) in
                let '(self, effects) := switch_keys self new_keys now in
                (Continue, self, effects)
            end
        end
    end.

Definition handle_rekey_kept_init_arm (self : Runner) (now : Z) : Runner :=
  let self := if is_awaiting_ack (rekey self) then self <| rekey ::= reset_to_idle |> else self in
  self <| rekey ::= fun c => touch_last_rekey_at c now |>.

(** ** Opening a frame *)

Inductive DecryptInPlaceOutcome :=
| Passthrough (raw_body : list byte)
| InPlace (raw_body : list byte)
| GracePlaintext (body : list byte).

Definition outcome_body (o : DecryptInPlaceOutcome) : list byte :=
  match o with Passthrough b | InPlace b | GracePlaintext b => b end.

(** [None]: the session is torn down. *)
Definition decrypt_frame_body_in_place (scramble : list byte -> list byte) (self : Runner) (raw_body : list byte)
    (header : FrameHeader) (now : Z) : option DecryptInPlaceOutcome * Runner * list Effect :=
  match rx_cipher self with
  | None => (Some (Passthrough raw_body), self, [])
  | Some rx =>
      if is_nil raw_body then (None, self, [])
      else
        let aad := frame_aad header in
        let prev := prune_expired (rx_cipher_prev self) now in
        let self := self <| rx_cipher_prev := prev |> in
        let grace_snapshot := if negb (is_nil (entries prev)) then Some raw_body else None in
        match open_in_place scramble rx raw_body aad with
        | (inr _, raw_body, rx) => (Some (InPlace raw_body), self <| rx_cipher := Some rx |>, [])
        | (inl NonceOverflow, _, _) => (None, self, [])
        | (inl _, _, _) =>
            match grace_snapshot with
            | None => (None, self, [Violation])
            | Some snapshot =>
                match try_open prev snapshot aad now with
                | (Some hit, prev) => (Some (GracePlaintext (plaintext hit)), self <| rx_cipher_prev := prev |>, [])
                | (None, prev) => (None, self <| rx_cipher_prev := prev |>, [Violation])
                end
            end
        end
  end.

(** The session frames the loop intercepts; [None]: the frame goes on to the dispatcher. *)
Definition intercept (self : Runner) (header : FrameHeader) (body : list byte) (now : Z) (room : bool) (r : R) :
    option (ControlFlow * Runner * list Effect * R) :=
  if family header =? FAMILY_SESSION then
    if msg_type header =? MSG_REKEY_INIT then Some (handle_rekey_init_arm self body now room r)
    else if msg_type header =? MSG_REKEY_ACK then Some (handle_rekey_ack_arm self body now, r)
    else if msg_type header =? MSG_REKEY_KEPT_INIT then Some (Continue, handle_rekey_kept_init_arm self now, [], r)
    else None
  else None.

End handlers.
