(* ===== verification/RekeyNet.v ===== *)
(** * Two sides of a session that rekeys

    The runners of [Rekey] at both ends of an ordered, reliable connection: each side sends frames, starts
    rekeys, and receives what the other sent, while time passes.  [exec] runs one operation of the pair;
    [allowed] says what is assumed of the environment.  The side [true] has the smaller node id. *)

From S2P Require Import Prelude Crypto OMap FrameCodec SessionCipher Rekey.
#[local] Open Scope Z_scope.
#[local] Open Scope list_scope.

(** A frame before it is sealed: its header and its body. *)
Abbreviation Frame := (FrameHeader * list byte)%type (only parsing).

Section world.
Context `{Aead} `{Hkdf} `{X25519} {R : Type} `{Rng R}.
Context (scramble : list byte -> list byte).

(** A sealed frame in flight: its bytes, when it was sent, and (for the statements only) how many times
    its sender had rekeyed. *)
Record Item := mkItem { wire : list byte; sent_at : Z; item_gen : Z }.

(** One side: its runner, its source of randomness, the frames it was given to send, the frames it passed
    on to its dispatcher, and whether its session is still up. *)
Record Side := mkSide { node : Runner; rng : R; sent : list Frame; got : list Frame; live : bool }.

Record World := mkWorld { lo : Side; hi : Side; from_lo : list Item; from_hi : list Item; clock : Z }.

#[export] Instance eta_Side : Settable Side := fun s => mkSide (node s) (rng s) (sent s) (got s) (live s).

Definition side (w : World) (b : bool) : Side := if b then lo w else hi w.
Definition link (w : World) (b : bool) : list Item := if b then from_lo w else from_hi w.

Definition set_side (w : World) (b : bool) (s : Side) : World :=
  if b then mkWorld s (hi w) (from_lo w) (from_hi w) (clock w) else mkWorld (lo w) s (from_lo w) (from_hi w) (clock w).
Definition set_link (w : World) (b : bool) (l : list Item) : World :=
  if b then mkWorld (lo w) (hi w) l (from_hi w) (clock w) else mkWorld (lo w) (hi w) (from_lo w) l (clock w).

Definition gen (s : Side) : Z := generation (rekey (node s)).

(** The header a frame has on the wire: its body carries the tag. *)
Definition sealed_header (f : Frame) : FrameHeader := f.1 <| body_len := zlen f.2 + AEAD_OVERHEAD |>.

(** The loop drains its queue: the frame is sealed under the current cipher and written. *)
Definition seal_out (s : Side) (frame : list byte) : option (list byte) * Side :=
  match tx_cipher (node s) with
  | Some tx => let '(out, tx) := apply_tx_cipher frame tx in (out, s <| node ::= fun n => n <| tx_cipher := Some tx |> |>)
  | None => (Some frame, s)
  end.

Definition transmit (w : World) (b : bool) (frame : list byte) : World :=
  match seal_out (side w b) frame with
  | (Some bytes, s) => set_link (set_side w b s) b (link w b ++ [mkItem bytes (clock w) (gen (side w b))])
  | (None, s) => set_side w b (s <| live := false |>)
  end.

(** The effects of a handler that reach the wire; [g] is the sender's generation when it sealed. *)
Definition flush (g : Z) (b : bool) (w : World) (e : Effect) : World :=
  match e with
  | PushWire bytes => set_link w b (link w b ++ [mkItem bytes (clock w) g])
  | PushQueue _ frame => transmit w b frame
  | _ => w
  end.

(** An opened frame is counted, and either intercepted or passed on; the parallel streams, which could
    refuse it, are not negotiated. *)
Definition dispatch (s : Side) (h : FrameHeader) (body : list byte) (now : Z) : Side * list Effect :=
  let n := node s <| rekey ::= fun c => record_bytes c (HEADER_SIZE + zlen body) |> in
  match intercept n h body now true (rng s) with
  | Some (flow, n, effects, r) =>
      (mkSide n r (sent s) (got s) (match flow with Continue => live s | Break => false end), effects)
  | None => (mkSide n (rng s) (sent s) (got s ++ [(h, body)]) (live s), [])
  end.

(** A frame arrives: it is opened and dispatched, or the session ends. *)
Definition receive (s : Side) (bytes : list byte) (now : Z) : Side * list Effect :=
  match decode_header bytes with
  | inl _ => (s <| live := false |>, [])
  | inr h =>
      match decrypt_frame_body_in_place scramble (node s) (zdrop HEADER_SIZE bytes) h now with
      | (None, n, effects) => (s <| node := n |> <| live := false |>, effects)
      | (Some o, n, _) => dispatch (s <| node := n |>) h (outcome_body o) now
      end
  end.

(** Send a frame, the connection carrying [n] more bytes (padding included); check the thresholds and
    drain the queue; take the next frame from side [b] off the connection; let time pass. *)
Inductive Op :=
| Send (b : bool) (f : Frame) (n : Z)
| Start (b : bool)
| Deliver (b : bool)
| Tick (d : Z).

Definition exec (w : World) (op : Op) : World :=
  match op with
  | Send b f n =>
      let w := set_side w b (side w b <| sent ::= fun l => l ++ [(sealed_header f, f.2)] |>) in
      let w := transmit w b (encode_frame f.1 f.2) in
      set_side w b (side w b <| node ::= fun r => r <| rekey ::= fun c => record_bytes c n |> |>)
  | Start b =>
      let '(n, effects, r) := maybe_initiate_x25519_rekey (node (side w b)) (clock w) (rng (side w b)) in
      let w' := set_side w b (side w b <| node := n |> <| rng := r |>) in
      fold_left (flush (gen (side w b)) b) effects w'
  | Deliver b =>
      match link w b with
      | [] => w
      | it :: rest =>
          let '(s, effects) := receive (side w (negb b)) (wire it) (clock w) in
          fold_left (flush (gen (side w (negb b))) (negb b)) effects (set_side (set_link w b rest) (negb b) s)
      end
  | Tick d => mkWorld (lo w) (hi w) (from_lo w) (from_hi w) (clock w + d)
  end.

(** ** The environment *)

(** The frames of a rekey. *)
Definition control (f : Frame) : bool :=
  (family f.1 =? FAMILY_SESSION) &&
  ((msg_type f.1 =? MSG_REKEY_INIT) || (msg_type f.1 =? MSG_REKEY_ACK) || (msg_type f.1 =? MSG_REKEY_KEPT_INIT)).

(** A frame the codec can carry. *)
Definition frame_ok (f : Frame) : Prop :=
  header_ok f.1 /\ body_len f.1 = zlen f.2 /\ zlen f.2 + AEAD_OVERHEAD <= MAX_FRAME_BODY.

(** The frame does not open as the next frame of the cipher. *)
Definition foreign (c : SessionCipher) (bytes : list byte) : Prop :=
  match decode_header bytes with
  | inr h => aead_open (cipher c) (frame_nonce c (counter c + 1)) (frame_aad h) (zdrop HEADER_SIZE bytes) = None
  | inl _ => True
  end.

(** Neither the nonces of a key nor the generations run out. *)
Definition room (s : Side) : Prop :=
  match tx_cipher (node s) with Some c => counter c < U64_MAX | None => True end /\ gen s < U64_MAX.

(** What is assumed, the connection having a delay of at most [D]: nobody but the runner sends the frames
    of a rekey; a side starts a rekey, if it does, more than [2 D] after its last one (and [exec] drains the
    queue at once: an attempt is neither held back by other frames nor dropped by the operator's bandwidth
    limit); a frame sealed with
    the keys of one generation does not open under those of another; and no frame is late. *)
Definition allowed (D : Z) (w : World) (op : Op) : Prop :=
  match op with
  | Send b f n => frame_ok f /\ control f = false /\ 0 <= n /\ room (side w b)
  | Start b =>
      room (side w b) /\
      (is_idle (rekey (node (side w b))) = true ->
       is_some (should_initiate_rekey (rekey (node (side w b))) (clock w)
                  (nonce_pressure (tx_cipher (node (side w b))) || nonce_pressure (rx_cipher (node (side w b))))) = true ->
       last_rekey_at (rekey (node (side w b))) + 2 * D < clock w)
  | Deliver b =>
      room (side w (negb b)) /\
      match link w b, rx_cipher (node (side w (negb b))) with
      | it :: _, Some rx => item_gen it <> gen (side w (negb b)) -> foreign rx (wire it)
      | _, _ => True
      end
  | Tick d => 0 <= d /\ Forall (fun it => clock w + d <= sent_at it + D) (from_lo w ++ from_hi w)
  end.

Definition step (D : Z) (w w' : World) : Prop := exists op, allowed D w op /\ w' = exec w op.

(** A side after the handshake: the keys come from the shared secret and the node ids. *)
Definition side_start (bytes_threshold time_threshold_secs now : Z) (registry : bool) (l : option Lane) (receiver : bool)
    (shared local peer : Key) (r : R) : Side :=
  let k := derive_session_keys shared local peer in
  mkSide (mkRunner (Some (cipher_new (tx_key k) true)) (Some (cipher_new (rx_key k) true)) (keys_session_id k) local peer
            registry l receiver (context_new bytes_threshold time_threshold_secs now)
            (grace_new REKEY_RX_PREV_CAP REKEY_RX_GRACE_DURATION)) r [] [] true.

End world.

#[global] Arguments Side : clear implicits.
#[global] Arguments World : clear implicits.
#[export] Existing Instance eta_Side.

(** ** The world, read *)

Section views.
Context {R : Type}.
Implicit Types (w : World R) (b : bool).

Lemma side_set w b s : side (set_side w b s) b = s.
Proof. by destruct b. Qed.
Lemma side_set_other w b s : side (set_side w b s) (negb b) = side w (negb b).
Proof. by destruct b. Qed.
Lemma side_set_other' w b s : side (set_side w (negb b) s) b = side w b.
Proof. by destruct b. Qed.
Lemma side_set_link w b b' l : side (set_link w b l) b' = side w b'.
Proof. by destruct b, b'. Qed.
Lemma link_set w b l : link (set_link w b l) b = l.
Proof. by destruct b. Qed.
Lemma link_set_other w b l : link (set_link w b l) (negb b) = link w (negb b).
Proof. by destruct b. Qed.
Lemma link_set_other' w b l : link (set_link w (negb b) l) b = link w b.
Proof. by destruct b. Qed.
Lemma link_set_side w b b' s : link (set_side w b s) b' = link w b'.
Proof. by destruct b, b'. Qed.
Lemma clock_set_side w b s : clock (set_side w b s) = clock w.
Proof. by destruct b. Qed.
Lemma clock_set_link w b l : clock (set_link w b l) = clock w.
Proof. by destruct b. Qed.

End views.

Create Rewrite HintDb world.
#[export] Hint Rewrite @side_set @side_set_other @side_set_other' @side_set_link @link_set @link_set_other @link_set_other'
  @link_set_side @clock_set_side @clock_set_link negb_involutive : world.

(** ** Sealed frames *)

Section sealing.
Context `{Aead} `{!AeadLaws} `{!AeadTotal}.

(** The bytes are frame [f], sealed as the next frame of [c]. *)
Definition seals (c : SessionCipher) (f : Frame) (bytes : list byte) : Prop :=
  decode_header bytes = inr (sealed_header f) /\ zdrop HEADER_SIZE bytes <> [] /\
  open c (zdrop HEADER_SIZE bytes) (frame_aad (sealed_header f)) = (inr f.2, after c 1) /\
  forall scramble, open_in_place scramble c (zdrop HEADER_SIZE bytes) (frame_aad (sealed_header f)) = (inr tt, f.2, after c 1).

Lemma zlen_encode_header h : zlen (encode_header h) = HEADER_SIZE.
Proof. unfold encode_header. rewrite !zlen_app, !zlen_be_bytes. done. Qed.

Lemma sealed_header_ok f : frame_ok f -> header_ok (sealed_header f) /\ body_len (sealed_header f) <= MAX_FRAME_BODY.
Proof.
  intros (Hh & Hb & Hl). pose proof (zlen_nonneg f.2). unfold AEAD_OVERHEAD, MAX_FRAME_BODY in *.
  split; [|exact Hl]. destruct Hh as (? & ? & ? & ? & ? & ? & ? & ?).
  repeat (split; [done|]). split; [|done]. change (is_u32 (zlen f.2 + 16)). unfold is_u32. lia.
Qed.

(** Sealing an encodable frame succeeds while the counter has room. *)
Lemma apply_tx_ok c f : counter c < U64_MAX -> frame_ok f ->
  exists bytes, apply_tx_cipher (encode_frame f.1 f.2) c = (Some bytes, after c 1) /\ seals c f bytes.
Proof.
  intros Hc Hf. pose proof Hf as (Hh & Hb & Hl). pose proof (zlen_nonneg f.2). unfold AEAD_OVERHEAD in Hl.
  destruct (sealed_header_ok f Hf) as [Hs Hsl].
  destruct (seal_opens c f.2 (frame_aad (sealed_header f))) as (ct & tag & Es & Et & Eo & Ep);
    [lia|unfold MAX_FRAME_BODY in Hl; lia|].
  exists (encode_header (sealed_header f) ++ ct ++ tag).
  assert (zdrop HEADER_SIZE (encode_header (sealed_header f) ++ ct ++ tag) = ct ++ tag) as Ed
    by apply zdrop_app_len, zlen_encode_header.
  split.
  - unfold apply_tx_cipher, encode_frame. rewrite zlen_app, zlen_encode_header.
    rewrite (proj2 (Z.ltb_ge _ _)) by lia. rewrite zdrop_app_len by apply zlen_encode_header.
    unfold decode_header. rewrite header_decode_encode by (first [done|lia]). cbv zeta.
    assert (wrap32 (zlen f.2 + AEAD_OVERHEAD) = zlen f.2 + AEAD_OVERHEAD) as ->.
    { apply wrap32_id. unfold is_u32, AEAD_OVERHEAD, MAX_FRAME_BODY in *. lia. }
    fold (sealed_header f). by rewrite Es.
  - unfold seals. rewrite Ed. split; [by apply header_decode_encode|].
    split; [|done]. intros E. rewrite E in Et. change (zlen []) with 0 in Et. lia.
Qed.

(** The items [l] carry the frames [fs], sealed in generation [g] from cipher [c] on; [c'] is the cipher
    that sends next. *)
Inductive carries (g : Z) : SessionCipher -> list Frame -> list Item -> SessionCipher -> Prop :=
| carries_nil c : carries g c [] [] c
| carries_cons c f it fs l c' : seals c f (wire it) -> item_gen it = g -> carries g (after c 1) fs l c' ->
    carries g c (f :: fs) (it :: l) c'.

Lemma carries_snoc g c fs l c' f it : carries g c fs l c' -> seals c' f (wire it) -> item_gen it = g ->
  carries g c (fs ++ [f]) (l ++ [it]) (after c' 1).
Proof.
  induction 1 as [c|c f' it' fs l c' Hs Hg Hc IH]; intros Hs' Hg'; cbn.
  - constructor; [done..|constructor].
  - constructor; auto.
Qed.

Lemma carries_nil_inv g c fs c' : carries g c fs [] c' -> fs = [] /\ c' = c.
Proof. by inversion 1. Qed.

Lemma carries_frames_nil g c l c' : carries g c [] l c' -> l = [] /\ c' = c.
Proof. by inversion 1. Qed.

Lemma carries_cons_inv g c fs it l c' : carries g c fs (it :: l) c' ->
  exists f fs', fs = f :: fs' /\ seals c f (wire it) /\ item_gen it = g /\ carries g (after c 1) fs' l c'.
Proof. inversion 1; subst. by eexists _, _. Qed.

End sealing.
