(* ===== verification/RekeyInv.v ===== *)
(** * What a runner does with a frame of a rekeying session

    The handlers of [Rekey] on the frames an honest peer sends, as equations on the part of a side that
    the exchange depends on. *)

From S2P Require Import Prelude Crypto OMap FrameCodec SessionCipher Rekey RekeyNet.
#[local] Open Scope Z_scope.
#[local] Open Scope list_scope.

(** What the exchange depends on. *)
Record View := mkView {
  vtx : option SessionCipher;
  vrx : option SessionCipher;
  vsid : Key;
  vstate : RekeyState;
  vlast : Z;
  vgen : Z;
  vprev : list (SessionCipher * Z);
  vsent : list Frame;
  vgot : list Frame;
  vlive : bool
}.

#[export] Instance eta_View : Settable View := fun v =>
  mkView (vtx v) (vrx v) (vsid v) (vstate v) (vlast v) (vgen v) (vprev v) (vsent v) (vgot v) (vlive v).

Definition view {R} (s : Side R) : View :=
  let n := node s in
  mkView (tx_cipher n) (rx_cipher n) (session_id n) (state (rekey n)) (last_rekey_at (rekey n)) (generation (rekey n))
    (entries (rx_cipher_prev n)) (sent s) (got s) (live s).

(** What never changes: the node ids and how long a previous cipher is kept. *)
Definition placed {R} (local peer : Key) (s : Side R) : Prop :=
  local_node_id (node s) = local /\ peer_id (node s) = peer /\
  grace_duration (rx_cipher_prev (node s)) = REKEY_RX_GRACE_DURATION.

Definition honest_pair `{X25519} (kp : EphemeralKeypair) : Prop := public_key kp = x25519_public (secret kp).

Definition rekey_frame (msg : Z) (body : list byte) : Frame := (header_new FAMILY_SESSION msg <| body_len := zlen body |>, body).
Definition init_frame (kp : EphemeralKeypair) : Frame := rekey_frame MSG_REKEY_INIT (public_key kp).
Definition ack_frame (kp : EphemeralKeypair) : Frame := rekey_frame MSG_REKEY_ACK (public_key kp).
Definition kept_frame : Frame := rekey_frame MSG_REKEY_KEPT_INIT [].

Lemma rekey_frame_ok msg body : is_u16 msg -> zlen body <= 32 -> frame_ok (rekey_frame msg body).
Proof.
  intros Hm Hb. pose proof (zlen_nonneg body). unfold frame_ok, rekey_frame, AEAD_OVERHEAD, MAX_FRAME_BODY. cbn [fst snd].
  split; [|split; [done|lia]]. repeat (split; [done|]). split; [|done]. change (is_u32 (zlen body)). unfold is_u32. lia.
Qed.

(** The frames of the exchange other than answers. *)
Definition is_init (f : Frame) : Prop := family f.1 = FAMILY_SESSION /\ msg_type f.1 = MSG_REKEY_INIT /\ zlen f.2 = 32.
Definition is_kept (f : Frame) : Prop := family f.1 = FAMILY_SESSION /\ msg_type f.1 = MSG_REKEY_KEPT_INIT.

(** An effect that does not reach the connection. *)
Definition inert (e : Effect) : bool := match e with PushWire _ | PushQueue _ _ => false | _ => true end.

Lemma lane_rekey_inert l receiver k : forallb inert (lane_rekey l receiver k) = true.
Proof. destruct l as [[[] [] []]|], receiver; done. Qed.

Lemma switch_keys_inert n k now : forallb inert (switch_keys n k now).2 = true.
Proof.
  unfold switch_keys. cbn [snd]. rewrite forallb_app, lane_rekey_inert.
  by destruct (swap_registry _).
Qed.

(** ** The grace buffer *)

Lemma prune_last g now c deadline : last (entries g) = Some (c, deadline) -> now < deadline ->
  last (entries (prune_expired g now)) = Some (c, deadline).
Proof.
  unfold prune_expired. change (entries (g <| entries ::= drop_front (fun e => e.2 <=? now) |>))
    with (drop_front (fun e : SessionCipher * Z => e.2 <=? now) (entries g)).
  generalize (entries g) as l. intros l Hl Hd. induction l as [|[c' d'] l IH]; [done|]. cbn [drop_front snd].
  destruct (Z.leb_spec d' now) as [Hle|]; [|done]. destruct l as [|e l]; [|by apply IH].
  cbn in Hl. injection Hl as -> ->. lia.
Qed.

Lemma last_rev_cons {A} (l : list A) x : last l = Some x -> exists l', rev l = x :: l'.
Proof. intros (l' & ->)%last_Some. exists (rev l'). by rewrite rev_app_distr. Qed.

Section handlers.
Context `{Aead} `{!AeadLaws} `{!AeadTotal} `{Hkdf} `{X25519} `{!X25519Laws} `{!X25519Honest}.
Context {R : Type} `{Rng R}.
Context (scramble : list byte -> list byte).
Implicit Types (s : Side R) (f : Frame) (c : SessionCipher).

Lemma try_open_newest g f bytes now c deadline : last (entries g) = Some (c, deadline) -> seals c f bytes ->
  exists hit es, try_open g (zdrop HEADER_SIZE bytes) (frame_aad (sealed_header f)) now = (Some hit, g <| entries := es |>) /\
    plaintext hit = f.2 /\ last es = Some (after c 1, deadline).
Proof.
  intros Hl (_ & _ & Eo & _). apply last_rev_cons in Hl as [older Er]. unfold try_open. rewrite Er. cbn [try_open_from].
  rewrite Eo. eexists _, _. split; [done|]. split; [done|]. cbn [rev]. by rewrite last_snoc.
Qed.

(** ** Opening *)

(** A frame sealed for the current cipher is opened with it. *)
Lemma receive_current s rx f bytes now : rx_cipher (node s) = Some rx -> seals rx f bytes ->
  receive scramble s bytes now =
    dispatch (s <| node := node s <| rx_cipher_prev := prune_expired (rx_cipher_prev (node s)) now |>
                                  <| rx_cipher := Some (after rx 1) |> |>) (sealed_header f) f.2 now.
Proof.
  intros Er (Ed & Hn & _ & Ep). unfold receive. rewrite Ed. unfold decrypt_frame_body_in_place. rewrite Er.
  destruct (zdrop HEADER_SIZE bytes) as [|x l] eqn:Ez; [done|]. rewrite <- Ez in *. cbv zeta.
  replace (is_nil (zdrop HEADER_SIZE bytes)) with false by (by rewrite Ez). by rewrite Ep.
Qed.

(** A frame sealed for the cipher before the last switch is opened with the newest entry of the buffer. *)
Lemma receive_grace s rx f bytes now c deadline : rx_cipher (node s) = Some rx -> counter rx < U64_MAX ->
  foreign rx bytes -> last (entries (rx_cipher_prev (node s))) = Some (c, deadline) -> now < deadline -> seals c f bytes ->
  exists es, last es = Some (after c 1, deadline) /\
    receive scramble s bytes now =
      dispatch (s <| node := node s <| rx_cipher_prev := rx_cipher_prev (node s) <| entries := es |> |> |>) (sealed_header f) f.2 now.
Proof.
  intros Er Hc Hf Hl Hd Hs. pose proof Hs as (Ed & Hn & _ & _). unfold foreign in Hf. rewrite Ed in Hf.
  pose proof (prune_last _ _ _ _ Hl Hd) as Hp.
  destruct (try_open_newest (prune_expired (rx_cipher_prev (node s)) now) f bytes now c deadline Hp Hs) as (hit & es & Et & Eh & El).
  exists es. split; [done|]. unfold receive. rewrite Ed. unfold decrypt_frame_body_in_place. rewrite Er.
  destruct (zdrop HEADER_SIZE bytes) as [|x l] eqn:Ez; [done|]. rewrite <- Ez in *. cbv zeta.
  replace (is_nil (zdrop HEADER_SIZE bytes)) with false by (by rewrite Ez).
  destruct (entries (prune_expired (rx_cipher_prev (node s)) now)) as [|e es'] eqn:Ee; [done|]. cbn [is_nil negb].
  unfold open_in_place, candidate. rewrite (proj2 (Z.leb_le _ _)) by lia. rewrite Hf, Et, <- Eh. done.
Qed.

(** ** Dispatching *)

Lemma dispatch_other s f now local peer : placed local peer s -> control f = false ->
  exists s', dispatch s (sealed_header f) f.2 now = (s', []) /\ placed local peer s' /\
    view s' = view s <| vgot := got s ++ [(sealed_header f, f.2)] |>.
Proof.
  intros Hp Hc. unfold dispatch, intercept. unfold control in Hc.
  change (family (sealed_header f)) with (family f.1). change (msg_type (sealed_header f)) with (msg_type f.1).
  destruct (family f.1 =? FAMILY_SESSION); cbn [andb] in Hc |- *; [|by eexists].
  destruct (msg_type f.1 =? MSG_REKEY_INIT); [done|]. destruct (msg_type f.1 =? MSG_REKEY_ACK); [done|].
  destruct (msg_type f.1 =? MSG_REKEY_KEPT_INIT); [done|]. by eexists.
Qed.

Lemma dispatch_kept s f now local peer : placed local peer s -> is_kept f ->
  exists s', dispatch s (sealed_header f) f.2 now = (s', []) /\ placed local peer s' /\
    view s' = view s <| vstate := Idle |> <| vlast := now |>.
Proof.
  intros Hp [Ef Em]. unfold dispatch, intercept.
  change (family (sealed_header f)) with (family f.1). change (msg_type (sealed_header f)) with (msg_type f.1).
  rewrite Ef, Em. cbn -[view]. eexists. split; [done|].
  destruct s as [[tx rx sid l p sw la lr [st by_ lra bt tt_ ge] pv] r se go li]. unfold placed in *. cbn in Hp |- *.
  unfold handle_rekey_kept_init_arm. by destruct st.
Qed.

Lemma payload_32 body : zlen body = 32 -> rekey_payload_decode body = inr body.
Proof.
  intros E. unfold rekey_payload_decode, REKEY_WIRE_SIZE. rewrite E. cbn. unfold ztake, zlen in *. rewrite take_ge by lia. done.
Qed.

(** The smaller id keeps its own attempt and says so. *)
Lemma dispatch_keep s f now tx rx kp since local peer : placed local peer s -> is_init f -> ltb local peer = true ->
  tx_cipher (node s) = Some tx -> rx_cipher (node s) = Some rx -> state (rekey (node s)) = AwaitingAck kp since ->
  counter tx < U64_MAX ->
  exists s' bytes, dispatch s (sealed_header f) f.2 now = (s', [PushWire bytes]) /\ seals tx kept_frame bytes /\
    placed local peer s' /\ view s' = view s <| vtx := Some (after tx 1) |>.
Proof.
  intros (Hl & Hr & Hg) (Ef & Em & Eb) Hlt Et Er Es Hc.
  destruct (apply_tx_ok tx kept_frame Hc (rekey_frame_ok MSG_REKEY_KEPT_INIT [] ltac:(done) ltac:(done))) as (bytes & Ea & Hs).
  unfold dispatch, intercept.
  change (family (sealed_header f)) with (family f.1). change (msg_type (sealed_header f)) with (msg_type f.1).
  rewrite Ef, Em. rewrite Z.eqb_refl. change (MSG_REKEY_INIT =? MSG_REKEY_INIT) with true. cbv match.
  destruct s as [[tx0 rx0 sid l p sw la lr [st by_ lra bt tt_ ge] pv] r se go li]. cbn in Hl, Hr, Hg, Et, Er, Es. subst.
  unfold handle_rekey_init_arm. cbn [tx_cipher rx_cipher rekey set_field node rng].
  rewrite (payload_32 _ Eb). cbn -[apply_tx_cipher view placed ltb encode_header header_new]. rewrite Hlt.
  unfold encode_frame in Ea. cbn [kept_frame rekey_frame fst snd] in Ea. rewrite app_nil_r in Ea.
  change (header_new FAMILY_SESSION MSG_REKEY_KEPT_INIT <| body_len := zlen [] |>) with (header_new FAMILY_SESSION MSG_REKEY_KEPT_INIT) in Ea.
  rewrite Ea. by eexists _, bytes.
Qed.

(** A side after switching to the keys [k], having received with [rx]. *)
Definition switched (v : View) (k : SessionKeys) (prev : list (SessionCipher * Z)) (now : Z) : View :=
  v <| vtx := Some (cipher_new (tx_key k) true) |> <| vrx := Some (cipher_new (rx_key k) true) |>
    <| vsid := keys_session_id k |> <| vstate := Idle |> <| vlast := now |> <| vgen := vgen v + 1 |> <| vprev := prev |>.

Lemma grace_push_last g c now : last (entries (grace_push g c now).2) = Some (c, now + grace_duration g).
Proof. apply last_snoc. Qed.

Lemma switch_keys_view n k now rx local peer : rx_cipher n = Some rx -> state (rekey n) = Idle -> generation (rekey n) < U64_MAX ->
  local_node_id n = local -> peer_id n = peer -> grace_duration (rx_cipher_prev n) = REKEY_RX_GRACE_DURATION ->
  exists n' es prev, switch_keys n k now = (n', es) /\ forallb inert es = true /\
    last prev = Some (rx, now + REKEY_RX_GRACE_DURATION) /\
    forall (r : R) se go li, placed local peer (mkSide n' r se go li) /\
      view (mkSide n' r se go li) = switched (view (mkSide n r se go li)) k prev now.
Proof.
  intros Er Es Hg Hl Hp Hd. pose proof (switch_keys_inert n k now) as Hi.
  destruct n as [tx0 rx0 sid l p sw la lr [st by_ lra bt tt_ ge] pv]. cbn in Er, Es, Hg, Hl, Hp, Hd. subst.
  pose proof (grace_push_last pv rx now) as Hlast. rewrite Hd in Hlast.
  assert (sat_add64 ge 1 = ge + 1) as Ege by (unfold sat_add64; lia).
  destruct (switch_keys _ k now) as [n' es] eqn:Esw. exists n', es, (entries (grace_push pv rx now).2).
  split; [done|]. split; [done|]. split; [done|]. intros r se go li.
  unfold switch_keys in Esw. injection Esw as <- _. unfold placed, view, switched. cbn. rewrite Ege. done.
Qed.

Lemma generate_honest (r : R) : honest_pair (generate_ephemeral r).1.
Proof. unfold generate_ephemeral. by destruct (fill_bytes r 32). Qed.

(** Any other side that takes an attempt answers it and switches. *)
Lemma dispatch_respond s now tx rx kp local peer : placed local peer s -> honest_pair kp ->
  (is_awaiting_ack (rekey (node s)) && ltb local peer = false) ->
  tx_cipher (node s) = Some tx -> rx_cipher (node s) = Some rx -> counter tx < U64_MAX -> gen s < U64_MAX ->
  exists s' bytes es kpr prev, dispatch s (sealed_header (init_frame kp)) (public_key kp) now = (s', PushWire bytes :: es) /\
    forallb inert es = true /\ honest_pair kpr /\ seals tx (ack_frame kpr) bytes /\ placed local peer s' /\
    last prev = Some (rx, now + REKEY_RX_GRACE_DURATION) /\
    view s' = switched (view s) (derive_rekey_keys (x25519_dh (secret kpr) (public_key kp)) (session_id (node s)) local peer) prev now.
Proof.
  intros (Hl & Hr & Hg) Hk Hno Et Er Hc Hgen.
  assert (zlen (public_key kp) = 32) as Eb by (rewrite Hk; apply x25519_public_len).
  pose proof (generate_honest (rng s)) as Hkr. unfold dispatch, intercept.
  change (family (sealed_header (init_frame kp))) with FAMILY_SESSION. change (msg_type (sealed_header (init_frame kp))) with MSG_REKEY_INIT.
  rewrite !Z.eqb_refl.
  destruct s as [[tx0 rx0 sid l p sw la lr [st by_ lra bt tt_ ge] pv] r se go li]. cbn in Hl, Hr, Hg, Et, Er, Hgen, Hno, Hkr. subst.
  unfold handle_rekey_init_arm. cbn [tx_cipher rx_cipher rekey set_field node rng]. rewrite (payload_32 _ Eb).
  destruct (generate_ephemeral r) as [kpr r'] eqn:Eg. cbn [fst] in Hkr.
  assert (zlen (public_key kpr) = 32) as Ebr by (rewrite Hkr; apply x25519_public_len).
  destruct (apply_tx_ok tx (ack_frame kpr) Hc (rekey_frame_ok MSG_REKEY_ACK (public_key kpr) ltac:(done) ltac:(lia))) as (bytes & Ea & Hs).
  change (encode_frame (ack_frame kpr).1 (ack_frame kpr).2) with (session_frame MSG_REKEY_ACK (rekey_payload_encode (public_key kpr))) in Ea.
  assert (compute_shared_secret kpr (public_key kp) = inr (x25519_dh (secret kpr) (public_key kp))) as Esh.
  { unfold honest_pair in Hk. unfold compute_shared_secret. cbv zeta. rewrite !Hk, x25519_honest. done. }
  set (k := derive_rekey_keys (x25519_dh (secret kpr) (public_key kp)) sid local peer).
  set (n0 := mkRunner (Some tx) (Some rx) sid local peer sw la lr
    (mkContext Idle (sat_add64 by_ (HEADER_SIZE + zlen (public_key kp))) lra bt tt_ ge) pv).
  destruct (switch_keys_view n0 k now rx local peer)
    as (n' & es & prev & Esw & Hi & Hlast & Hv); [done..|].
  exists (mkSide n' r' se go li), bytes, es, kpr, prev. destruct (Hv r' se go li) as [Hp Hview].
  split; [|by rewrite Hview].
  destruct st as [|kp' since]; cbn [is_awaiting_ack state andb] in Hno;
    cbn -[apply_tx_cipher switch_keys ltb session_frame rekey_payload_encode compute_shared_secret derive_rekey_keys]; rewrite ?Hno; cbn -[apply_tx_cipher switch_keys ltb session_frame rekey_payload_encode compute_shared_secret derive_rekey_keys];
    rewrite Esh, Ea; cbn -[switch_keys derive_rekey_keys]; fold k;
    match goal with |- context [switch_keys ?n k now] => change (switch_keys n k now) with (switch_keys n0 k now) end;
    by rewrite Esw.
Qed.

(** The side that started takes the answer and switches. *)
Lemma dispatch_ack s now rx kp kpr since local peer : placed local peer s -> honest_pair kp -> honest_pair kpr ->
  state (rekey (node s)) = AwaitingAck kp since -> rx_cipher (node s) = Some rx -> gen s < U64_MAX ->
  exists s' es prev, dispatch s (sealed_header (ack_frame kpr)) (public_key kpr) now = (s', es) /\ forallb inert es = true /\
    placed local peer s' /\ last prev = Some (rx, now + REKEY_RX_GRACE_DURATION) /\
    view s' = switched (view s) (derive_rekey_keys (x25519_dh (secret kp) (public_key kpr)) (session_id (node s)) local peer) prev now.
Proof.
  intros (Hl & Hr & Hg) Hk Hkr Es Er Hgen.
  assert (zlen (public_key kpr) = 32) as Eb by (rewrite Hkr; apply x25519_public_len). unfold dispatch, intercept.
  change (family (sealed_header (ack_frame kpr))) with FAMILY_SESSION. change (msg_type (sealed_header (ack_frame kpr))) with MSG_REKEY_ACK.
  change (FAMILY_SESSION =? FAMILY_SESSION) with true. change (MSG_REKEY_ACK =? MSG_REKEY_INIT) with false.
  change (MSG_REKEY_ACK =? MSG_REKEY_ACK) with true. cbv match.
  destruct s as [[tx0 rx0 sid l p sw la lr [st by_ lra bt tt_ ge] pv] r se go li]. cbn in Hl, Hr, Hg, Er, Es, Hgen. subst.
  assert (compute_shared_secret kp (public_key kpr) = inr (x25519_dh (secret kp) (public_key kpr))) as Esh.
  { unfold honest_pair in Hkr. unfold compute_shared_secret. cbv zeta. rewrite !Hkr, x25519_honest. done. }
  set (k := derive_rekey_keys (x25519_dh (secret kp) (public_key kpr)) sid local peer).
  set (n0 := mkRunner tx0 (Some rx) sid local peer sw la lr
    (mkContext Idle (sat_add64 by_ (HEADER_SIZE + zlen (public_key kpr))) lra bt tt_ ge) pv).
  destruct (switch_keys_view n0 k now rx local peer) as (n' & es & prev & Esw & Hi & Hlast & Hv); [done..|].
  exists (mkSide n' r se go li), es, prev. destruct (Hv r se go li) as [Hp Hview].
  split; [|by rewrite Hview]. unfold handle_rekey_ack_arm.
  cbn -[switch_keys rekey_payload_decode compute_shared_secret derive_rekey_keys].
  rewrite (payload_32 _ Eb), Esh. fold k.
  match goal with |- context [switch_keys ?n k now] => change (switch_keys n k now) with (switch_keys n0 k now) end.
  by rewrite Esw.
Qed.

(** ** Sending and starting *)

Lemma transmit_ok (w : World R) b f tx : tx_cipher (node (side w b)) = Some tx -> counter tx < U64_MAX -> frame_ok f ->
  exists bytes s', transmit w b (encode_frame f.1 f.2) = set_link (set_side w b s') b (link w b ++ [mkItem bytes (clock w) (gen (side w b))]) /\
    seals tx f bytes /\ view s' = view (side w b) <| vtx := Some (after tx 1) |> /\
    (forall local peer, placed local peer (side w b) -> placed local peer s').
Proof.
  intros Et Hc Hf. destruct (apply_tx_ok tx f Hc Hf) as (bytes & Ea & Hs). unfold transmit, seal_out. rewrite Et, Ea.
  by eexists bytes, _.
Qed.

(** A side that does not start a rekey stays as it is; one that does waits, its attempt in the queue. *)
Lemma start_cases s now tx : tx_cipher (node s) = Some tx ->
  (forall kp since, state (rekey (node s)) = AwaitingAck kp since -> now < since + REKEY_ACK_TIMEOUT) ->
  maybe_initiate_x25519_rekey (node s) now (rng s) = (node s, [], rng s) \/
  (state (rekey (node s)) = Idle /\
   is_some (should_initiate_rekey (rekey (node s)) now (nonce_pressure (tx_cipher (node s)) || nonce_pressure (rx_cipher (node s)))) = true /\
   exists n kp r', maybe_initiate_x25519_rekey (node s) now (rng s) =
       (n, [PushQueue PRIORITY_INTERACTIVE (encode_frame (init_frame kp).1 (init_frame kp).2)], r') /\ honest_pair kp /\
     (forall local peer, placed local peer s -> placed local peer (s <| node := n |> <| rng := r' |>)) /\
     tx_cipher n = tx_cipher (node s) /\ view (s <| node := n |> <| rng := r' |>) = view s <| vstate := AwaitingAck kp now |>).
Proof.
  intros Et Hto. unfold maybe_initiate_x25519_rekey.
  assert (awaiting_ack_timed_out (rekey (node s)) now REKEY_ACK_TIMEOUT = false) as ->.
  { unfold awaiting_ack_timed_out. destruct (state (rekey (node s))) as [|kp since] eqn:Est; [done|].
    specialize (Hto _ _ eq_refl). apply Z.leb_gt. unfold sat_sub, REKEY_ACK_TIMEOUT, Float.NANOS in *. lia. }
  destruct (negb _) eqn:En; [by left|]. apply negb_false_iff, andb_true_iff in En as [_ Hi].
  destruct (should_initiate_rekey _ _ _) eqn:Es; [|by left]. right.
  split; [by unfold is_idle in Hi; destruct (state (rekey (node s)))|]. split; [done|].
  pose proof (generate_honest (rng s)) as Hk. destruct (generate_ephemeral (rng s)) as [kp r']. cbn [fst] in Hk.
  by eexists _, kp, r'.
Qed.

End handlers.
