(* ===== verification/RekeyRuns.v ===== *)
(** * A session survives its rekeys

    The invariant of the two sides of [RekeyNet], by the phase the exchange is in, and its preservation by
    every operation; the theorem of the end-to-end behaviour of a session that rekeys. *)

From S2P Require Import Prelude Crypto OMap FrameCodec SessionCipher Rekey RekeyNet RekeyInv.
#[local] Open Scope Z_scope.
#[local] Open Scope list_scope.

(** No frame of an exchange, or only those that satisfy [Q]. *)
Definition only (Q : Frame -> Prop) (fs : list Frame) : Prop := Forall (fun f => control f = false \/ Q f) fs.
Abbreviation none := (only (fun _ => False)).

(** The frames of the dispatchers, as they appear on the wire. *)
Definition apps (fs : list Frame) : list Frame := (fun f => (sealed_header f, f.2)) <$> filter (fun f => control f = false) fs.

Lemma apps_cons_app f fs : control f = false -> apps (f :: fs) = (sealed_header f, f.2) :: apps fs.
Proof. intros Hc. unfold apps. by rewrite filter_cons_True. Qed.

Lemma apps_cons_control f fs : control f = true -> apps (f :: fs) = apps fs.
Proof. intros Hc. unfold apps. rewrite filter_cons_False; [done|]. by rewrite Hc. Qed.

Lemma apps_snoc_app fs f : control f = false -> apps (fs ++ [f]) = apps fs ++ [(sealed_header f, f.2)].
Proof. intros Hc. unfold apps. rewrite filter_app, fmap_app, filter_cons_True by done. done. Qed.

Lemma apps_snoc_control fs f : control f = true -> apps (fs ++ [f]) = apps fs.
Proof. intros Hc. unfold apps. rewrite filter_app, filter_cons_False by (by rewrite Hc). by rewrite app_nil_r. Qed.

Lemma only_weaken (Q Q' : Frame -> Prop) fs : (forall f, Q f -> Q' f) -> only Q fs -> only Q' fs.
Proof. intros HQ Hf. eapply Forall_impl; [exact Hf|]. intros f [?|?]; auto. Qed.

Lemma kept_control f : is_kept f -> control f = true.
Proof. intros [E1 E2]. unfold control. by rewrite E1, E2. Qed.

Lemma init_control f : is_init f -> control f = true.
Proof. intros (E1 & E2 & _). unfold control. by rewrite E1, E2. Qed.

Section inv.
Context `{Aead} `{!AeadLaws} `{!AeadTotal} `{Hkdf} `{X25519} `{!X25519Laws} `{!X25519Honest}.
Context {R : Type} `{Rng R}.
Context (scramble : list byte -> list byte) (ids : bool -> Key) (D : Z).
Context (Hids : ltb (ids true) (ids false) = true) (HD : 0 <= D) (HD2 : 2 * D < REKEY_RX_GRACE_DURATION).

(** The frames from [x] to [y] are sealed with the cipher [y] opens with. *)
Definition aligned (x y : View) (fs : list Frame) (l : list Item) : Prop :=
  exists tx rx, vtx x = Some tx /\ vrx y = Some rx /\ carries (vgen y) rx fs l tx.

(** The sides agree on the session, its generation and, both ways, on the ciphers. *)
Definition agreed (vi vr : View) (li lr : list Item) (pi pr : list Frame) : Prop :=
  vgen vi = vgen vr /\ vsid vi = vsid vr /\ aligned vi vr pi li /\ aligned vr vi pr lr.

(** The phases of the exchange that side [i] started, [r] being the other side; [pi] and [pr] are the
    frames in flight from either. *)
Inductive phase (i : bool) (vi vr : View) (li lr : list Item) (pi pr : list Frame) : Prop :=
| PIdle :
    agreed vi vr li lr pi pr -> vstate vi = Idle -> vstate vr = Idle -> none pi -> none pr -> phase i vi vr li lr pi pr
| PInit kp since p1 p2 l1 it l2 :
    (* the attempt of [i] is on its way; [r] may have started too, if its id is the larger *)
    agreed vi vr li lr pi pr -> vstate vi = AwaitingAck kp since -> honest_pair kp ->
    pi = p1 ++ init_frame kp :: p2 -> li = l1 ++ it :: l2 -> length p1 = length l1 -> sent_at it = since ->
    none p1 -> only is_kept p2 -> only is_init pr ->
    (i = false -> none p2 /\ none pr /\ vstate vr = Idle) ->
    (forall kp' since', vstate vr = AwaitingAck kp' since' -> since <= since' + D) ->
    phase i vi vr li lr pi pr
| PAck kp since kpr p1 p2 l1 it l2 k rx c' tx txr c deadline :
    (* [r] has answered and switched; its answer is on its way *)
    vgen vr = vgen vi + 1 -> vstate vi = AwaitingAck kp since -> vstate vr = Idle -> honest_pair kp -> honest_pair kpr ->
    k = derive_rekey_keys (x25519_dh (secret kpr) (public_key kp)) (vsid vi) (ids (negb i)) (ids i) -> vsid vr = keys_session_id k ->
    pr = p1 ++ ack_frame kpr :: p2 -> lr = l1 ++ it :: l2 ->
    vrx vi = Some rx -> carries (vgen vi) rx (p1 ++ [ack_frame kpr]) (l1 ++ [it]) c' ->
    vtx vr = Some txr -> carries (vgen vr) (cipher_new (tx_key k) true) p2 l2 txr ->
    only is_init p1 -> (i = false -> none p1) -> none p2 ->
    vtx vi = Some tx -> carries (vgen vi) c pi li tx -> last (vprev vr) = Some (c, deadline) ->
    vrx vr = Some (cipher_new (rx_key k) true) -> only is_kept pi ->
    sent_at it + REKEY_RX_GRACE_DURATION = deadline -> sent_at it <= since + D -> sent_at it <= vlast vr ->
    phase i vi vr li lr pi pr
| PDone p1 p2 l1 l2 rx c' tx c deadline :
    (* both have switched; frames that [i] sealed with the old cipher may still be on their way *)
    vgen vi = vgen vr -> vsid vi = vsid vr -> vstate vi = Idle -> vstate vr = Idle -> aligned vr vi pr lr -> none pr ->
    pi = p1 ++ p2 -> li = l1 ++ l2 -> carries (vgen vr - 1) c p1 l1 c' -> last (vprev vr) = Some (c, deadline) ->
    vrx vr = Some rx -> counter rx = 0 -> vtx vi = Some tx -> carries (vgen vr) rx p2 l2 tx -> only is_kept p1 -> none p2 ->
    Forall (fun it => sent_at it <= deadline - REKEY_RX_GRACE_DURATION + D /\ sent_at it <= vlast vi /\ sent_at it <= vlast vr + D) l1 ->
    phase i vi vr li lr pi pr.

(** On its way at [t]: sent, and not late. *)
Definition timely (t : Z) (l : list Item) : Prop := Forall (fun it => sent_at it <= t <= sent_at it + D) l.

(** The invariant of the two sides, [i] being the one that may have started an exchange. *)
Definition pair_inv (i : bool) (vi vr : View) (li lr : list Item) (t : Z) : Prop :=
  vlive vi = true /\ vlive vr = true /\ timely t li /\ timely t lr /\
  exists pi pr, vsent vi = vgot vr ++ apps pi /\ vsent vr = vgot vi ++ apps pr /\ phase i vi vr li lr pi pr.

(** The same, seen from side [b], whoever may have started. *)
Definition sides_inv (b : bool) (v v' : View) (l l' : list Item) (t : Z) : Prop :=
  pair_inv b v v' l l' t \/ pair_inv (negb b) v' v l' l t.

Definition inv (w : World R) : Prop :=
  (forall b, placed (ids b) (ids (negb b)) (side w b)) /\
  forall b, sides_inv b (view (side w b)) (view (side w (negb b))) (link w b) (link w (negb b)) (clock w).

Lemma sides_flip b v v' l l' t : sides_inv b v v' l l' t -> sides_inv (negb b) v' v l' l t.
Proof. intros [Hp|Hp]; [right; by rewrite negb_involutive|by left]. Qed.

(** It is enough to look from one side. *)
Lemma inv_from b w : placed (ids b) (ids (negb b)) (side w b) -> placed (ids (negb b)) (ids b) (side w (negb b)) ->
  sides_inv b (view (side w b)) (view (side w (negb b))) (link w b) (link w (negb b)) (clock w) -> inv w.
Proof.
  intros Hb Hb' Hs. split; intros b'; destruct b, b'; try done; exact (sides_flip _ _ _ _ _ _ Hs).
Qed.

(** ** Phases *)

(** Where no exchange is under way, either side can be the one that starts next. *)
Lemma agreed_sym vi vr li lr pi pr : agreed vi vr li lr pi pr -> agreed vr vi lr li pr pi.
Proof. by intros (? & ? & ? & ?). Qed.

Lemma idle_swap i vi vr li lr pi pr : agreed vi vr li lr pi pr -> vstate vi = Idle -> vstate vr = Idle -> none pi -> none pr ->
  phase (negb i) vr vi lr li pr pi.
Proof. intros Ha. intros. apply PIdle; try done. by apply agreed_sym. Qed.

(** Case analysis on the phase, every part of it named. *)
Ltac phase_cases Hp :=
  destruct Hp as [(Eg & Es & Hi & Hr) Si Sr Ni Nr
    |kp since p1 p2 l1 it0 l2 (Eg & Es & Hi & Hr) Si Hk -> -> Hlen Hat Np1 Kp2 Ipr Hfalse Hboth
    |kp since kpr p1 p2 l1 it0 l2 k rx c' tx' txr c deadline Eg Si Sr Hk Hkr -> Es -> -> Er Hc1 Etr Hc2 Ip1 Hfalse Np2 Eti Hci Hlast Erx Kpi Hdl Hsince Hvl
    |p1 p2 l1 l2 rx c' tx' c deadline Eg Es Si Sr Hr Nr -> -> Hc1 Hlast Er Hz Eti Hc2 Kp1 Np2 Hl1].

(** The same where a link is not a variable. *)
Ltac phase_inv Hp :=
  inversion Hp as [(Eg & Es & Hi & Hr) Si Sr Ni Nr
    |kp since p1 p2 l1 it0 l2 Ha Si Hk Epi Eli Hlen Hat Np1 Kp2 Ipr Hfalse Hboth
    |kp since kpr p1 p2 l1 it0 l2 k rx c' tx' txr c deadline Eg Si Sr Hk Hkr Ek Es Epr Elr Er Hc1 Etr Hc2 Ip1 Hfalse Np2 Eti Hci Hlast Erx Kpi Hdl Hsince Hvl
    |p1 p2 l1 l2 rx c' tx' c deadline Eg Es Si Sr Hr Nr Epi Eli Hc1 Hlast Er Hz Eti Hc2 Kp1 Np2 Hl1].

Lemma aligned_send x y fs l tx f it : aligned x y fs l -> vtx x = Some tx -> seals tx f (wire it) -> item_gen it = vgen y ->
  aligned (x <| vtx := Some (after tx 1) |>) y (fs ++ [f]) (l ++ [it]).
Proof.
  intros (tx' & rx & Et & Er & Hc) Et' Hs Hg. rewrite Et in Et'. injection Et' as ->.
  exists (after tx 1), rx. split; [done|]. split; [done|]. by apply carries_snoc.
Qed.

Lemma only_snoc Q fs f : only Q fs -> control f = false \/ Q f -> only Q (fs ++ [f]).
Proof. intros Hf Hq. by apply Forall_snoc. Qed.

(** Side [i] sends: a frame of its own, or the word that it keeps its attempt. *)
Lemma phase_send_i i vi vr li lr pi pr tx f it : phase i vi vr li lr pi pr -> vtx vi = Some tx -> seals tx f (wire it) ->
  item_gen it = vgen vi -> control f = false \/ is_kept f /\ vstate vi <> Idle /\ i = true ->
  phase i (vi <| vtx := Some (after tx 1) |>) vr (li ++ [it]) lr (pi ++ [f]) pr.
Proof.
  intros Hp Et Hs Hg Hf. phase_cases Hp.
  - destruct Hf as [Hf|(_ & [] & _)]; [|done]. apply PIdle; try done; [|by apply only_snoc; auto].
    split; [done|]. split; [done|]. split; [|done]. eapply aligned_send; [done..|]. congruence.
  - apply (PInit _ _ _ _ _ _ _ kp since p1 (p2 ++ [f]) l1 it0 (l2 ++ [it])); try done.
    + split; [done|]. split; [done|]. split; [|done]. eapply aligned_send; [done..|]. congruence.
    + by rewrite <- app_assoc.
    + by rewrite <- app_assoc.
    + apply only_snoc; [done|]. tauto.
    + intros Hi'. destruct (Hfalse Hi') as (? & ? & ?). split; [|done]. apply only_snoc; [done|]. left.
      destruct Hf as [|(_ & _ & ->)]; done.
  - rewrite Et in Eti. injection Eti as <-.
    eapply (PAck _ _ _ _ _ _ _ kp since kpr p1 p2 l1 it0 l2 _ rx c' (after tx 1) txr c deadline); try done.
    + by apply carries_snoc.
    + apply only_snoc; [done|]. tauto.
  - destruct Hf as [Hf|(_ & [] & _)]; [|done]. rewrite Et in Eti. injection Eti as <-.
    apply (PDone _ _ _ _ _ _ _ p1 (p2 ++ [f]) l1 (l2 ++ [it]) rx c' (after tx 1) c deadline); try done.
    + by rewrite <- app_assoc.
    + by rewrite <- app_assoc.
    + apply carries_snoc; [done..|]. congruence.
    + apply only_snoc; auto.
Qed.

(** The other side sends a frame of its own. *)
Lemma phase_send_r i vi vr li lr pi pr tx f it : phase i vi vr li lr pi pr -> vtx vr = Some tx -> seals tx f (wire it) ->
  item_gen it = vgen vr -> control f = false ->
  phase i vi (vr <| vtx := Some (after tx 1) |>) li (lr ++ [it]) pi (pr ++ [f]).
Proof.
  intros Hp Et Hs Hg Hf. phase_cases Hp.
  - apply PIdle; try done; [|by apply only_snoc; auto].
    split; [done|]. split; [done|]. split; [done|]. eapply aligned_send; [done..|]. congruence.
  - apply (PInit _ _ _ _ _ _ _ kp since p1 p2 l1 it0 l2); try done.
    + split; [done|]. split; [done|]. split; [done|]. eapply aligned_send; [done..|]. congruence.
    + apply only_snoc; auto.
    + intros Hi'. destruct (Hfalse Hi') as (? & ? & ?). split; [done|]. split; [apply only_snoc; auto|done].
  - rewrite Et in Etr. injection Etr as <-.
    eapply (PAck _ _ _ _ _ _ _ kp since kpr p1 (p2 ++ [f]) l1 it0 (l2 ++ [it]) _ rx c' tx' (after tx 1) c deadline); try done.
    + by rewrite <- app_assoc.
    + by rewrite <- app_assoc.
    + by apply carries_snoc.
    + apply only_snoc; auto.
  - apply (PDone _ _ _ _ _ _ _ p1 p2 l1 l2 rx c' tx' c deadline); try done.
    + eapply aligned_send; [done..|]. congruence.
    + apply only_snoc; auto.
Qed.

Lemma timely_snoc t l it : timely t l -> sent_at it = t -> timely t (l ++ [it]).
Proof. intros Hl Ht. apply Forall_snoc. split; [done|]. lia. Qed.

Lemma timely_app t l l' : timely t (l ++ l') <-> timely t l /\ timely t l'.
Proof. apply Forall_app. Qed.

Lemma timely_at t l it l' : timely t (l ++ it :: l') -> sent_at it <= t <= sent_at it + D.
Proof. intros Ht. apply timely_app in Ht as [_ Ht]. by inversion Ht. Qed.

(** Once nothing sealed with the old cipher is on its way, the exchange is over. *)
Lemma done_idle i vi vr li lr pi pr rx tx : vgen vi = vgen vr -> vsid vi = vsid vr -> vstate vi = Idle -> vstate vr = Idle ->
  aligned vr vi pr lr -> none pr -> vrx vr = Some rx -> vtx vi = Some tx -> carries (vgen vr) rx pi li tx -> none pi ->
  phase i vi vr li lr pi pr.
Proof. intros. apply PIdle; try done. split; [done|]. split; [done|]. split; [|done]. by exists tx, rx. Qed.

(** More than [2 D] after its last rekey, an idle side is not in the middle of an exchange: none is under
    way, or only the other side's attempt. *)
Lemma settled_i i vi vr li lr pi pr t : phase i vi vr li lr pi pr -> timely t li -> vstate vi = Idle -> vlast vi + 2 * D < t ->
  agreed vi vr li lr pi pr /\ vstate vr = Idle /\ none pi /\ none pr.
Proof.
  intros Hp Ht Hidle Hlate. phase_cases Hp; [done|congruence|congruence|].
  assert (l1 = []) as ->.
  { destruct l1 as [|it l1]; [done|]. apply timely_app in Ht as [Ht _]. inversion Ht; inversion Hl1; subst. lia. }
  apply carries_nil_inv in Hc1 as [-> _]. split; [|done]. split; [done|]. split; [done|]. split; [|done]. by exists tx', rx.
Qed.

Lemma settled_r i vi vr li lr pi pr t : phase i vi vr li lr pi pr -> timely t li -> timely t lr -> vstate vr = Idle -> vlast vr + 2 * D < t ->
  agreed vi vr li lr pi pr /\ (vstate vi = Idle -> none pi /\ none pr) /\ (vstate vi <> Idle -> phase i vi vr li lr pi pr).
Proof.
  intros Hp Ht Ht' Hidle Hlate. pose proof Hp as Hphase. phase_cases Hp.
  - done.
  - split; [done|]. split; [congruence|done].
  - apply timely_at in Ht'. lia.
  - assert (l1 = []) as ->.
    { destruct l1 as [|it l1]; [done|]. apply timely_app in Ht as [Ht _]. inversion Ht; inversion Hl1; subst. lia. }
    apply carries_nil_inv in Hc1 as [-> _]. split; [|done]. split; [done|]. split; [done|]. split; [|done]. by exists tx', rx.
Qed.

(** ** Starting a rekey *)

Lemma init_is_init kp : honest_pair kp -> is_init (init_frame kp).
Proof. intros Hk. split; [done|]. split; [done|]. cbn. rewrite Hk. apply x25519_public_len. Qed.

(** The view of a side that starts. *)
Definition starting (v : View) (kp : EphemeralKeypair) (t : Z) (tx : SessionCipher) : View :=
  v <| vstate := AwaitingAck kp t |> <| vtx := Some (after tx 1) |>.

Section start.
Context (kq : EphemeralKeypair) (Hkq : honest_pair kq) (tx : SessionCipher) (it : Item) (t : Z).
Context (Hs : seals tx (init_frame kq) (wire it)) (Ht : sent_at it = t).

Lemma agreed_start vi vr li lr pi pr : agreed vi vr li lr pi pr -> vtx vi = Some tx -> item_gen it = vgen vi ->
  agreed (starting vi kq t tx) vr (li ++ [it]) lr (pi ++ [init_frame kq]) pr.
Proof.
  intros (Eg & Es & Hi & Hr) Et Hg. split; [done|]. split; [done|]. split; [|done].
  eapply (aligned_send (vi <| vstate := AwaitingAck kq t |>)); try done. congruence.
Qed.

(** No exchange is under way. *)
Lemma start_alone i vi vr li lr pi pr : agreed vi vr li lr pi pr -> vstate vr = Idle -> none pi -> none pr ->
  vtx vi = Some tx -> item_gen it = vgen vi -> phase i (starting vi kq t tx) vr (li ++ [it]) lr (pi ++ [init_frame kq]) pr.
Proof.
  intros Ha Sr Ni Nr Et Hg. pose proof Ha as (_ & _ & (? & ? & _ & _ & Hc) & _).
  apply (PInit _ _ _ _ _ _ _ kq t pi [] li it []); try done.
  - by apply agreed_start.
  - clear -Hc. induction Hc; cbn; congruence.
  - constructor.
  - eapply only_weaken; [|done]. done.
  - intros _. split; [constructor|done].
  - congruence.
Qed.

(** The larger id starts while the attempt of the smaller is on its way. *)
Lemma start_second vi vr li lr pi pr : phase true vi vr li lr pi pr -> vstate vi <> Idle -> agreed vi vr li lr pi pr ->
  vstate vr = Idle -> timely t li -> vtx vr = Some tx -> item_gen it = vgen vr ->
  phase true vi (starting vr kq t tx) li (lr ++ [it]) pi (pr ++ [init_frame kq]).
Proof.
  intros Hp Sn Ha Sr0 Hli Et Hg. phase_cases Hp; [done| | |done].
  - apply (PInit _ _ _ _ _ _ _ kp since p1 p2 l1 it0 l2); try done.
    + apply agreed_sym, agreed_start; [by apply agreed_sym|done..].
    + apply only_snoc; [done|]. right. by apply init_is_init.
    + intros kq' since' [= <- <-]. apply timely_at in Hli. lia.
  - destruct Ha as (Eg' & _). lia.
Qed.

(** The smaller id starts while the attempt of the larger is on its way: its own prevails. *)
Lemma start_over vi vr li lr pi pr : phase false vi vr li lr pi pr -> vstate vi <> Idle -> agreed vi vr li lr pi pr ->
  timely t li -> vtx vr = Some tx -> item_gen it = vgen vr ->
  phase true (starting vr kq t tx) vi (lr ++ [it]) li (pr ++ [init_frame kq]) pi.
Proof.
  intros Hp Sn Ha Hli Et Hg. phase_cases Hp; [done| | |done].
  - destruct (Hfalse eq_refl) as (Np2 & Npr & Sr). pose proof Hr as (? & ? & _ & _ & Hc).
    apply (PInit _ _ _ _ _ _ _ kq t pr [] lr it []); try done.
    + apply agreed_start; [by apply agreed_sym|done..].
    + clear -Hc. induction Hc; cbn; congruence.
    + constructor.
    + apply Forall_app. split; [eapply only_weaken; [|done]; done|]. constructor; [right; by apply init_is_init|].
      eapply only_weaken; [|done]. done.
    + intros kq' since' E. rewrite Si in E. injection E as <- <-. apply timely_at in Hli. lia.
  - destruct Ha as (Eg' & _). lia.
Qed.

Lemma init_not_app : control (init_frame kq) = true.
Proof. done. Qed.

Lemma sides_start b v v' l l' : sides_inv b v v' l l' t -> vstate v = Idle -> vlast v + 2 * D < t -> vtx v = Some tx ->
  item_gen it = vgen v -> sides_inv b (starting v kq t tx) v' (l ++ [it]) l' t.
Proof.
  intros [(Li & Lr & Ti & Tr & pi & pr & Si & Sr & Hp)|(Li & Lr & Ti & Tr & pi & pr & Si & Sr & Hp)] Hidle Hlate Et Hg.
  - destruct (settled_i _ _ _ _ _ _ _ t Hp Ti Hidle Hlate) as (Ha & Hr & Ni & Nr). left.
    split; [done|]. split; [done|]. split; [by apply timely_snoc|]. split; [done|].
    exists (pi ++ [init_frame kq]), pr. rewrite (apps_snoc_control pi _ init_not_app). split; [done|]. split; [done|]. by apply start_alone.
  - destruct (settled_r _ _ _ _ _ _ _ t Hp Ti Tr Hidle Hlate) as (Ha & Hi & Hw).
    destruct (vstate v') as [|kq' since'] eqn:Es.
    + destruct (Hi eq_refl) as [Ni Nr]. left. split; [done|]. split; [done|]. split; [by apply timely_snoc|]. split; [done|].
      exists (pr ++ [init_frame kq]), pi. rewrite (apps_snoc_control pr _ init_not_app). split; [done|]. split; [done|].
      apply start_alone; try done. by apply agreed_sym.
    + specialize (Hw ltac:(done)). destruct b; cbn [negb] in *.
      * left. split; [done|]. split; [done|]. split; [by apply timely_snoc|]. split; [done|].
        exists (pr ++ [init_frame kq]), pi. rewrite (apps_snoc_control pr _ init_not_app). split; [done|]. split; [done|].
        apply start_over; try done. by rewrite Es.
      * right. split; [done|]. split; [done|]. split; [done|]. split; [by apply timely_snoc|].
        exists pi, (pr ++ [init_frame kq]). rewrite (apps_snoc_control pr _ init_not_app). split; [done|]. split; [done|].
        apply start_second; try done. by rewrite Es.
Qed.

End start.

(** ** Sending *)

(** What a phase depends on. *)
Lemma phase_same i vi vr vi' vr' li lr pi pr : phase i vi vr li lr pi pr ->
  vtx vi' = vtx vi -> vrx vi' = vrx vi -> vsid vi' = vsid vi -> vstate vi' = vstate vi -> vlast vi' = vlast vi -> vgen vi' = vgen vi ->
  vtx vr' = vtx vr -> vrx vr' = vrx vr -> vsid vr' = vsid vr -> vstate vr' = vstate vr -> vlast vr' = vlast vr -> vgen vr' = vgen vr ->
  vprev vr' = vprev vr -> phase i vi' vr' li lr pi pr.
Proof.
  destruct vi, vr, vi', vr'. cbn. intros Hp. intros. subst.
  destruct Hp; [eapply PIdle|eapply PInit|eapply PAck|eapply PDone]; eauto.
Qed.

Lemma sides_send b v v' l l' t tx f it : sides_inv b v v' l l' t -> vtx v = Some tx -> seals tx f (wire it) ->
  item_gen it = vgen v -> sent_at it = t -> control f = false ->
  sides_inv b (v <| vtx := Some (after tx 1) |> <| vsent := vsent v ++ [(sealed_header f, f.2)] |>) v' (l ++ [it]) l' t.
Proof.
  intros [(Li & Lr & Ti & Tr & pi & pr & Si & Sr & Hp)|(Li & Lr & Ti & Tr & pi & pr & Si & Sr & Hp)] Et Hs Hg Ht Hf.
  - left. split; [done|]. split; [done|]. split; [by apply timely_snoc|]. split; [done|].
    exists (pi ++ [f]), pr. rewrite (apps_snoc_app pi f Hf), app_assoc, <- Si. split; [done|]. split; [done|].
    eapply phase_same; [apply phase_send_i; eauto|done..].
  - right. split; [done|]. split; [done|]. split; [done|]. split; [by apply timely_snoc|].
    exists pi, (pr ++ [f]). rewrite (apps_snoc_app pr f Hf), app_assoc, <- Sr. split; [done|]. split; [done|].
    eapply phase_same; [apply phase_send_r; eauto|done..].
Qed.

(** Time passes while nothing is late. *)
Lemma sides_tick b v v' l l' t d : sides_inv b v v' l l' t -> 0 <= d -> Forall (fun it => t + d <= sent_at it + D) (l ++ l') ->
  sides_inv b v v' l l' (t + d).
Proof.
  intros Hs Hd [Hl Hl']%Forall_app.
  assert (forall k, timely t k -> Forall (fun it => t + d <= sent_at it + D) k -> timely (t + d) k) as Hk.
  { intros k Ht Hf. apply Forall_forall. intros it Hit. unfold timely in Ht. rewrite Forall_forall in Ht, Hf.
    specialize (Ht _ Hit). specialize (Hf _ Hit). cbn in *. lia. }
  destruct Hs as [(Li & Lr & Ti & Tr & Hp)|(Li & Lr & Ti & Tr & Hp)]; [left|right]; repeat (split; [by auto|]); done.
Qed.

(** ** Receiving *)

Lemma aligned_next x y y' fs it l rx : aligned x y fs (it :: l) -> vrx y = Some rx -> vrx y' = Some (after rx 1) -> vgen y' = vgen y ->
  exists f fs', fs = f :: fs' /\ seals rx f (wire it) /\ aligned x y' fs' l.
Proof.
  intros (tx & rx' & Et & Er & Hc) Er' Ey Eg. rewrite Er in Er'. injection Er' as ->.
  apply carries_cons_inv in Hc as (f & fs' & -> & Hs & Hg & Hc). exists f, fs'. split; [done|]. split; [done|].
  exists tx, (after rx 1). by rewrite Eg.
Qed.

(** From one view of a side to a later one: its generation does not go back, and an attempt of its own is
    given up only for a new generation. *)
Definition moves (v v' : View) : Prop := vgen v <= vgen v' /\ (vstate v <> Idle -> vstate v' <> Idle \/ vgen v < vgen v').

Lemma moves_same v v' : vgen v' = vgen v -> vstate v' = vstate v -> moves v v'.
Proof. intros Eg Es. unfold moves. rewrite Eg, Es. split; [lia|auto]. Qed.

Lemma moves_trans v1 v2 v3 : moves v1 v2 -> moves v2 v3 -> moves v1 v3.
Proof.
  intros [Hg1 Hs1] [Hg2 Hs2]. split; [lia|]. intros Hn. destruct (Hs1 Hn) as [Hn2|]; [|right; lia].
  destruct (Hs2 Hn2); [by left|right; lia].
Qed.

Lemma moves_switched v v' k prev t : vgen v' = vgen v -> moves v (switched v' k prev t).
Proof. intros E. unfold moves, switched. cbn. rewrite E. split; [lia|]. right. lia. Qed.

Lemma moves_idle v v' : vstate v = Idle -> vgen v' = vgen v -> moves v v'.
Proof. intros Es Eg. unfold moves. rewrite Es, Eg. split; [lia|done]. Qed.

(** What a received frame leads to: the side after it, and at most one frame on the wire, [P] holding then. *)
Definition outcome (local peer : Key) (s : Side R) (bytes : list byte) (t : Z) (P : View -> list Item -> Prop) : Prop :=
  exists s' effects, receive scramble s bytes t = (s', effects) /\ placed local peer s' /\
    (forallb inert effects = true /\ P (view s') [] \/
     exists reply es, effects = PushWire reply :: es /\ forallb inert es = true /\ P (view s') [mkItem reply t (gen s)]).

Section receiving.
Context (local peer : Key) (s : Side R) (Hplaced : placed local peer s) (t : Z).
Context (rx : SessionCipher) (Hrx : vrx (view s) = Some rx).

(** The side that dispatches the opened frame. *)
Ltac opened_side s1 Hp1 :=
  match goal with |- context [dispatch ?x _ _ _] => set (s1 := x) end;
  assert (placed local peer s1) as Hp1 by exact Hplaced.

(** The frame is the next of the current cipher. *)
Definition opened (prev : list (SessionCipher * Z)) : View := view s <| vrx := Some (after rx 1) |> <| vprev := prev |>.

Lemma current_app f bytes P : seals rx f bytes -> control f = false ->
  (forall prev, P (opened prev <| vgot := got s ++ [(sealed_header f, f.2)] |>) []) -> outcome local peer s bytes t P.
Proof.
  intros Hs Hc HP. unfold outcome. rewrite (receive_current _ _ _ _ _ _ Hrx Hs).
  opened_side s1 Hp1.
  destruct (dispatch_other s1 f t local peer Hp1 Hc) as (s' & E & Hp & Hv). exists s', []. split; [exact E|].
  split; [done|]. left. split; [done|]. rewrite Hv. apply HP.
Qed.

Lemma current_keep f bytes P tx kp since : seals rx f bytes -> is_init f -> ltb local peer = true -> vtx (view s) = Some tx ->
  vstate (view s) = AwaitingAck kp since -> counter tx < U64_MAX ->
  (forall prev reply, seals tx kept_frame reply -> P (opened prev <| vtx := Some (after tx 1) |>) [mkItem reply t (gen s)]) ->
  outcome local peer s bytes t P.
Proof.
  intros Hs Hi Hlt Et Est Hc HP. unfold outcome. rewrite (receive_current _ _ _ _ _ _ Hrx Hs).
  opened_side s1 Hp1.
  destruct (dispatch_keep s1 f t tx (after rx 1) kp since local peer Hp1 Hi Hlt Et eq_refl Est Hc) as (s' & reply & E & Hr & Hp & Hv).
  exists s', [PushWire reply]. split; [exact E|]. split; [done|]. right. exists reply, []. split; [done|]. split; [done|].
  rewrite Hv. by apply HP.
Qed.

Lemma current_respond kp bytes P tx : seals rx (init_frame kp) bytes -> honest_pair kp ->
  is_awaiting_ack (rekey (node s)) && ltb local peer = false -> vtx (view s) = Some tx -> counter tx < U64_MAX -> gen s < U64_MAX ->
  (forall kpr prev prev' reply, honest_pair kpr -> seals tx (ack_frame kpr) reply -> last prev' = Some (after rx 1, t + REKEY_RX_GRACE_DURATION) ->
    P (switched (opened prev) (derive_rekey_keys (x25519_dh (secret kpr) (public_key kp)) (vsid (view s)) local peer) prev' t) [mkItem reply t (gen s)]) ->
  outcome local peer s bytes t P.
Proof.
  intros Hs Hk Hno Et Hc Hg HP. unfold outcome. rewrite (receive_current _ _ _ _ _ _ Hrx Hs).
  opened_side s1 Hp1.
  destruct (dispatch_respond s1 t tx (after rx 1) kp local peer Hp1 Hk Hno Et eq_refl Hc Hg)
    as (s' & reply & es & kpr & prev' & E & Hi & Hkr & Hr & Hp & Hl & Hv).
  exists s', (PushWire reply :: es). split; [exact E|]. split; [done|]. right. exists reply, es. split; [done|]. split; [done|].
  rewrite Hv. by apply HP.
Qed.

Lemma current_ack kp kpr since bytes P : seals rx (ack_frame kpr) bytes -> honest_pair kp -> honest_pair kpr ->
  vstate (view s) = AwaitingAck kp since -> gen s < U64_MAX ->
  (forall prev prev', P (switched (opened prev) (derive_rekey_keys (x25519_dh (secret kp) (public_key kpr)) (vsid (view s)) local peer) prev' t) []) ->
  outcome local peer s bytes t P.
Proof.
  intros Hs Hk Hkr Est Hg HP. unfold outcome. rewrite (receive_current _ _ _ _ _ _ Hrx Hs).
  opened_side s1 Hp1.
  destruct (dispatch_ack s1 t (after rx 1) kp kpr since local peer Hp1 Hk Hkr Est eq_refl Hg) as (s' & es & prev' & E & Hi & Hp & Hl & Hv).
  exists s', es. split; [exact E|]. split; [done|]. left. split; [done|]. rewrite Hv. apply HP.
Qed.

(** The frame is the next of the cipher before the last switch. *)
Context (c : SessionCipher) (deadline : Z) (Hlast : last (vprev (view s)) = Some (c, deadline)) (Hdl : t < deadline).
Context (Hcount : counter rx < U64_MAX).

Lemma grace_app f bytes P : seals c f bytes -> foreign rx bytes -> control f = false ->
  (forall prev, last prev = Some (after c 1, deadline) -> P (view s <| vprev := prev |> <| vgot := got s ++ [(sealed_header f, f.2)] |>) []) ->
  outcome local peer s bytes t P.
Proof.
  intros Hs Hf Hc HP. destruct (receive_grace scramble s rx f bytes t c deadline) as (prev & Hl & E); [done..|].
  unfold outcome. rewrite E. opened_side s1 Hp1. destruct (dispatch_other s1 f t local peer Hp1 Hc) as (s' & E' & Hp & Hv).
  exists s', []. split; [exact E'|]. split; [done|]. left. split; [done|]. rewrite Hv. by apply HP.
Qed.

Lemma grace_kept f bytes P : seals c f bytes -> foreign rx bytes -> is_kept f ->
  (forall prev, last prev = Some (after c 1, deadline) -> P (view s <| vprev := prev |> <| vstate := Idle |> <| vlast := t |>) []) ->
  outcome local peer s bytes t P.
Proof.
  intros Hs Hf Hc HP. destruct (receive_grace scramble s rx f bytes t c deadline) as (prev & Hl & E); [done..|].
  unfold outcome. rewrite E. opened_side s1 Hp1. destruct (dispatch_kept s1 f t local peer Hp1 Hc) as (s' & E' & Hp & Hv).
  exists s', []. split; [exact E'|]. split; [done|]. left. split; [done|]. rewrite Hv. by apply HP.
Qed.

End receiving.

Lemma ids_asym : ltb (ids false) (ids true) = false.
Proof. unfold ltb in *. rewrite (cmp_antisym (ids true) (ids false)). by destruct (cmp (ids true) (ids false)). Qed.

Lemma ids_apart i : ids i <> ids (negb i).
Proof. destruct i; cbn [negb]; intros E; unfold ltb in Hids; [rewrite <- E in Hids|rewrite E in Hids]; by rewrite cmp_refl in Hids. Qed.

Lemma timely_tail t it l : timely t (it :: l) -> timely t l /\ sent_at it <= t <= sent_at it + D.
Proof. by inversion 1. Qed.

Lemma only_cons Q f fs : only Q (f :: fs) -> (control f = false \/ Q f) /\ only Q fs.
Proof. by inversion 1. Qed.

Lemma none_cons f fs : none (f :: fs) -> control f = false /\ none fs.
Proof. intros Hn. apply only_cons in Hn as [[?|[]] ?]. done. Qed.

(** The logs after a frame was passed on, and after one that was not. *)
Lemma log_app (snt gt : list Frame) f fs : snt = gt ++ apps (f :: fs) -> control f = false -> snt = (gt ++ [(sealed_header f, f.2)]) ++ apps fs.
Proof. intros -> Hc. rewrite (apps_cons_app f fs Hc), <- app_assoc. done. Qed.

Lemma log_control (snt gt : list Frame) f fs : snt = gt ++ apps (f :: fs) -> control f = true -> snt = gt ++ apps fs.
Proof. intros -> Hc. by rewrite (apps_cons_control f fs Hc). Qed.

Section deliver_r.
Context (i : bool) (vi : View) (sr : Side R) (it : Item) (li lr : list Item) (t : Z).
Context (Hplaced : placed (ids (negb i)) (ids i) sr) (Hroom : room sr) (Li : vlive vi = true) (Lr : vlive (view sr) = true).
Context (Ti : timely t (it :: li)) (Tr : timely t lr).
Context (Hforeign : forall rx, vrx (view sr) = Some rx -> item_gen it <> gen sr -> foreign rx (wire it)).

Let P (v : View) (new : list Item) : Prop := moves (view sr) v /\ pair_inv i vi v li (lr ++ new) t.

(** The other side's answer: the exchange moves on. *)
Lemma respond_case kp since p2 pr rx : agreed vi (view sr) (it :: li) lr (init_frame kp :: p2) pr ->
  vstate vi = AwaitingAck kp since -> honest_pair kp -> sent_at it = since -> only is_kept p2 -> only is_init pr ->
  (i = false -> none pr /\ vstate (view sr) = Idle) -> vrx (view sr) = Some rx ->
  vsent vi = vgot (view sr) ++ apps (init_frame kp :: p2) -> vsent (view sr) = vgot vi ++ apps pr ->
  outcome (ids (negb i)) (ids i) sr (wire it) t P.
Proof.
  intros (Eg & Es & Hi & (txr & rxi & Etr & Eri & Hcr)) Si Hk Hat Kp2 Ipr Hfalse Erx Sl Slr.
  destruct (timely_tail _ _ _ Ti) as [Ti' Hit].
  destruct (aligned_next _ _ (opened sr rx []) _ _ _ rx Hi Erx eq_refl eq_refl) as (f & fs & [= <- <-] & Hs & (tx & rx' & Et & Er' & Hc)).
  injection Er' as <-. destruct Hroom as [Hroom1 Hroom2]. change (tx_cipher (node sr)) with (vtx (view sr)) in Hroom1. rewrite Etr in Hroom1.
  eapply current_respond; [exact Hplaced|exact Erx|exact Hs|exact Hk| |exact Etr|exact Hroom1|exact Hroom2|].
  { destruct i; cbn [negb]; [rewrite ids_asym; apply andb_false_r|]. destruct (Hfalse eq_refl) as [_ Hidle].
    unfold is_awaiting_ack. change (state (rekey (node sr))) with (vstate (view sr)). by rewrite Hidle. }
  intros kpr prev prev' reply Hkr Hack Hlast. rewrite <- Es. unfold P. split; [by apply moves_switched|]. split; [done|]. split; [done|]. split; [done|].
  split; [by apply timely_snoc|]. exists p2, (pr ++ [ack_frame kpr]).
  split; [exact (log_control _ _ _ _ Sl eq_refl)|]. split; [by rewrite apps_snoc_control|].
  eapply (PAck _ _ _ _ _ _ _ kp since kpr pr [] lr (mkItem reply t (gen sr)) [] _ rxi (after txr 1) tx _ (after rx 1) (t + REKEY_RX_GRACE_DURATION));
    try done.
  - change (vgen (view sr) + 1 = vgen vi + 1). by rewrite Eg.
  - apply carries_snoc; [done..|]. cbn. by rewrite Eg.
  - constructor.
  - intros Hf. by destruct (Hfalse Hf).
  - constructor.
  - by rewrite Eg.
  - cbn. lia.
Qed.

Lemma deliver_r pi pr : vsent vi = vgot (view sr) ++ apps pi -> vsent (view sr) = vgot vi ++ apps pr ->
  phase i vi (view sr) (it :: li) lr pi pr -> outcome (ids (negb i)) (ids i) sr (wire it) t P.
Proof.
  intros Sl Slr Hp. destruct (timely_tail _ _ _ Ti) as [Ti' Hit].
  phase_inv Hp.
  - destruct Hi as (tx & rx & Et & Er & Hc). assert (aligned vi (view sr) pi (it :: li)) as Hi by by exists tx, rx.
    destruct (aligned_next _ _ (opened sr rx []) _ _ _ rx Hi Er eq_refl eq_refl) as (f & fs & -> & Hs & Hi').
    apply none_cons in Ni as [Hf Ni]. eapply current_app; [exact Hplaced|exact Er|exact Hs|exact Hf|]. intros prev. unfold P.
    rewrite app_nil_r. split; [by apply moves_same|]. split; [done|]. split; [done|]. split; [done|]. split; [done|]. exists fs, pr.
    split; [exact (log_app _ _ _ _ Sl Hf)|]. split; [done|]. by apply PIdle.
  - pose proof Ha as (Eg & Es & Hi & Hr). destruct Hi as (tx & rx & Et & Er & Hc).
    assert (aligned vi (view sr) pi (it :: li)) as Hi by by exists tx, rx.
    destruct p1 as [|f p1], l1 as [|it1 l1]; try done; cbn in Epi, Eli; injection Eli as <- El2; subst pi.
    { subst l2. eapply respond_case; eauto. intros Hf. by destruct (Hfalse Hf) as (_ & ? & ?). }
    destruct (aligned_next _ _ (opened sr rx []) _ _ _ rx Hi Er eq_refl eq_refl) as (f' & fs & [= <- <-] & Hs & Hi').
    apply none_cons in Np1 as [Hf Np1]. eapply current_app; [exact Hplaced|exact Er|exact Hs|exact Hf|]. intros prev. unfold P.
    rewrite app_nil_r. split; [by apply moves_same|]. split; [done|]. split; [done|]. split; [done|]. split; [done|]. exists (p1 ++ init_frame kp :: p2), pr.
    split; [exact (log_app _ _ _ _ Sl Hf)|]. split; [done|].
    apply (PInit _ _ _ _ _ _ _ kp since p1 p2 l1 it0 l2); try done. cbn in Hlen. lia.
  - apply carries_cons_inv in Hci as (f & fs & -> & Hs & Hg & Hci). apply only_cons in Kpi as [Hf Kpi]. subst lr.
    pose proof (timely_at _ _ _ _ Tr) as Hit0.
    assert (foreign (cipher_new (rx_key k) true) (wire it)) as Hfor.
    { apply Hforeign; [done|]. change (gen sr) with (vgen (view sr)). lia. }
    assert (t < deadline) as Hd by lia.
    assert (forall v, vstate v = Idle -> vgen v = vgen (view sr) -> vsid v = vsid (view sr) -> vtx v = vtx (view sr) -> vrx v = vrx (view sr) ->
      sent_at it0 <= vlast v -> last (vprev v) = Some (after c 1, deadline) -> phase i vi v li (l1 ++ it0 :: l2) fs pr) as Hnext.
    { intros v E1 E2 E3 E4 E5 E6 E7.
      apply (PAck _ _ _ _ _ _ _ kp since kpr p1 p2 l1 it0 l2 k rx c' tx' txr (after c 1) deadline); try done; congruence || lia || idtac. }
    destruct Hf as [Hf|Hf].
    + eapply grace_app; [exact Hplaced|exact Erx|exact Hlast|exact Hd|done|exact Hs|exact Hfor|exact Hf|]. intros prev Hprev. unfold P.
      rewrite app_nil_r. split; [by apply moves_idle|]. split; [done|]. split; [done|]. split; [done|]. split; [done|]. exists fs, pr.
      split; [exact (log_app _ _ _ _ Sl Hf)|]. split; [done|]. by apply Hnext.
    + eapply grace_kept; [exact Hplaced|exact Erx|exact Hlast|exact Hd|done|exact Hs|exact Hfor|exact Hf|]. intros prev Hprev. unfold P.
      rewrite app_nil_r. split; [by apply moves_idle|]. split; [done|]. split; [done|]. split; [done|]. split; [done|]. exists fs, pr.
      split; [exact (log_control _ _ _ _ Sl (kept_control _ Hf))|]. split; [done|]. apply Hnext; try done. cbn. lia.
  - destruct l1 as [|it1 l1]; cbn in Eli.
    + subst l2. apply carries_nil_inv in Hc1 as [-> ->]. cbn in Epi. subst pi.
      apply carries_cons_inv in Hc2 as (f & fs & -> & Hs & Hg & Hc2). apply none_cons in Np2 as [Hf Np2].
      eapply current_app; [exact Hplaced|exact Er|exact Hs|exact Hf|]. intros prev. unfold P.
      rewrite app_nil_r. split; [by apply moves_same|]. split; [done|]. split; [done|]. split; [done|]. split; [done|]. exists fs, pr.
      split; [exact (log_app _ _ _ _ Sl Hf)|]. split; [done|]. by eapply done_idle.
    + injection Eli as <- ->. apply carries_cons_inv in Hc1 as (f & fs & -> & Hs & Hg & Hc1). cbn in Epi. subst pi.
      apply only_cons in Kp1 as [Hf Kp1]. inversion Hl1 as [|? ? (Hold & _ & _) Hl1']; subst.
      assert (foreign rx (wire it)) as Hfor.
      { apply Hforeign; [done|]. change (gen sr) with (vgen (view sr)). lia. }
      assert (t < deadline) as Hd by lia. assert (counter rx < U64_MAX) as Hcount by (rewrite Hz; done).
      assert (forall v, vstate v = Idle -> vgen v = vgen (view sr) -> vsid v = vsid (view sr) -> vtx v = vtx (view sr) -> vrx v = vrx (view sr) ->
        Forall (fun it => sent_at it <= vlast v + D) l1 -> last (vprev v) = Some (after c 1, deadline) -> phase i vi v (l1 ++ l2) lr (fs ++ p2) pr) as Hnext.
      { intros v E1 E2 E3 E4 E5 E6 E7.
        apply (PDone _ _ _ _ _ _ _ fs p2 l1 l2 rx c' tx' (after c 1) deadline); try done; try congruence.
        - destruct Hr as (? & ? & ? & ? & ?). eexists _, _. by rewrite E4.
        - apply Forall_and. split; [|apply Forall_and; split; [|done]]; (eapply Forall_impl; [exact Hl1'|]); intros it1 (? & ? & ?); done. }
      destruct Hf as [Hf|Hf].
      * eapply grace_app; [exact Hplaced|exact Er|exact Hlast|exact Hd|exact Hcount|exact Hs|exact Hfor|exact Hf|]. intros prev Hprev. unfold P.
        rewrite app_nil_r. split; [by apply moves_idle|]. split; [done|]. split; [done|]. split; [done|]. split; [done|]. exists (fs ++ p2), pr.
        split; [exact (log_app _ _ _ _ Sl Hf)|]. split; [done|]. apply Hnext; try done.
        eapply Forall_impl; [exact Hl1'|]. intros it1 (? & ? & ?). done.
      * eapply grace_kept; [exact Hplaced|exact Er|exact Hlast|exact Hd|exact Hcount|exact Hs|exact Hfor|exact Hf|]. intros prev Hprev. unfold P.
        rewrite app_nil_r. split; [by apply moves_idle|]. split; [done|]. split; [done|]. split; [done|]. split; [done|]. exists (fs ++ p2), pr.
        split; [exact (log_control _ _ _ _ Sl (kept_control _ Hf))|]. split; [done|]. apply Hnext; try done.
        apply timely_app in Ti' as [Ti' _]. eapply Forall_impl; [exact Ti'|]. intros it1 Hit1. cbn in *. lia.
Qed.

End deliver_r.

Section deliver_i.
Context (i : bool) (si : Side R) (vr : View) (it : Item) (li lr : list Item) (t : Z).
Context (Hplaced : placed (ids i) (ids (negb i)) si) (Hroom : room si) (Li : vlive (view si) = true) (Lr : vlive vr = true).
Context (Ti : timely t li) (Tr : timely t (it :: lr)).
Context (rxs : SessionCipher) (Erxs : vrx (view si) = Some rxs).

Let P (v : View) (new : list Item) : Prop := moves (view si) v /\ pair_inv i v vr (li ++ new) lr t.

(** A frame passed on, whatever the phase is then. *)
Lemma app_case_i f pi pr : seals rxs f (wire it) -> control f = false -> vsent (view si) = vgot vr ++ apps pi ->
  vsent vr = vgot (view si) ++ apps (f :: pr) -> (forall prev, phase i (opened si rxs prev) vr li lr pi pr) ->
  outcome (ids i) (ids (negb i)) si (wire it) t P.
Proof.
  intros Hs Hf Sl Slr Hp. destruct (timely_tail _ _ _ Tr) as [Tr' _].
  eapply current_app; [exact Hplaced|exact Erxs|exact Hs|exact Hf|]. intros prev. unfold P. rewrite app_nil_r. split; [by apply moves_same|].
  split; [done|]. split; [done|]. split; [done|]. split; [done|]. exists pi, pr. split; [done|].
  split; [exact (log_app _ _ _ _ Slr Hf)|]. eapply phase_same; [exact (Hp prev)|done..].
Qed.

(** The peer's attempt, while the side keeps its own. *)
Lemma keep_case_i f pi pr kp since tx : seals rxs f (wire it) -> is_init f -> i = true -> vstate (view si) = AwaitingAck kp since ->
  vtx (view si) = Some tx -> vsent (view si) = vgot vr ++ apps pi -> vsent vr = vgot (view si) ++ apps (f :: pr) ->
  (forall prev, phase i (opened si rxs prev) vr li lr pi pr) -> outcome (ids i) (ids (negb i)) si (wire it) t P.
Proof.
  intros Hs Hf Ei Est Et Sl Slr Hp. destruct (timely_tail _ _ _ Tr) as [Tr' _].
  destruct Hroom as [Hroom1 Hroom2]. change (tx_cipher (node si)) with (vtx (view si)) in Hroom1. rewrite Et in Hroom1.
  eapply current_keep; [exact Hplaced|exact Erxs|exact Hs|exact Hf|by subst i|exact Et|exact Est|exact Hroom1|].
  intros prev reply Hk. unfold P. split; [by apply moves_same|]. split; [done|]. split; [done|]. split; [by apply timely_snoc|]. split; [done|].
  exists (pi ++ [kept_frame]), pr. rewrite apps_snoc_control by done. split; [done|].
  split; [exact (log_control _ _ _ _ Slr (init_control _ Hf))|].
  apply phase_send_i; [exact (Hp prev)|exact Et|exact Hk|done|]. right. split; [done|]. split; [|exact Ei].
  change (vstate (opened si rxs prev)) with (vstate (view si)). by rewrite Est.
Qed.

(** The answer: the side switches too, and both hold the same keys. *)
Lemma ack_case_i pi kp since kpr p2 k c' tx txr c deadline : vgen vr = vgen (view si) + 1 ->
  vstate (view si) = AwaitingAck kp since -> vstate vr = Idle -> honest_pair kp -> honest_pair kpr ->
  k = derive_rekey_keys (x25519_dh (secret kpr) (public_key kp)) (vsid (view si)) (ids (negb i)) (ids i) -> vsid vr = keys_session_id k ->
  carries (vgen (view si)) rxs [ack_frame kpr] [it] c' -> vtx vr = Some txr -> carries (vgen vr) (cipher_new (tx_key k) true) p2 lr txr ->
  none p2 -> vtx (view si) = Some tx -> carries (vgen (view si)) c pi li tx -> last (vprev vr) = Some (c, deadline) ->
  vrx vr = Some (cipher_new (rx_key k) true) -> only is_kept pi -> sent_at it + REKEY_RX_GRACE_DURATION = deadline -> sent_at it <= vlast vr ->
  vsent (view si) = vgot vr ++ apps pi -> vsent vr = vgot (view si) ++ apps (ack_frame kpr :: p2) ->
  outcome (ids i) (ids (negb i)) si (wire it) t P.
Proof.
  intros Eg Est Sr Hk Hkr Ek Es Hc1 Etr Hc2 Np2 Et Hci Hlast Err Kpi Hdl Hvl Sl Slr. destruct (timely_tail _ _ _ Tr) as [Tr' Hit].
  apply carries_cons_inv in Hc1 as (f & fs & [= <- <-] & Hs & _ & _). destruct Hroom as [_ Hroom2].
  eapply current_ack; [exact Hplaced|exact Erxs|exact Hs|exact Hk|exact Hkr|exact Est|exact Hroom2|]. intros prev prev'.
  set (k' := derive_rekey_keys (x25519_dh (secret kp) (public_key kpr)) (vsid (view si)) (ids i) (ids (negb i))).
  assert (mirrored k' k) as (E1 & E2 & E3).
  { unfold k'. rewrite Ek. replace (x25519_dh (secret kpr) (public_key kp)) with (x25519_dh (secret kp) (public_key kpr))
      by (rewrite Hk, Hkr; apply x25519_agree). apply derive_rekey_mirrored, ids_apart. }
  unfold P. rewrite app_nil_r. split; [by apply moves_switched|]. split; [done|]. split; [done|]. split; [done|]. split; [done|]. exists pi, p2.
  split; [done|]. split; [exact (log_control _ _ _ _ Slr eq_refl)|].
  apply (PDone _ _ _ _ _ _ _ pi [] li [] (cipher_new (rx_key k) true) tx (cipher_new (tx_key k') true) c deadline); try done.
  - change (keys_session_id k' = vsid vr). congruence.
  - exists txr, (cipher_new (rx_key k') true). split; [done|]. split; [done|]. rewrite E2.
    change (carries (vgen (view si) + 1) (cipher_new (tx_key k) true) p2 lr txr). by rewrite <- Eg.
  - by rewrite app_nil_r.
  - by rewrite app_nil_r.
  - rewrite Eg. by replace (vgen (view si) + 1 - 1) with (vgen (view si)) by lia.
  - rewrite E1. constructor.
  - constructor.
  - eapply Forall_impl; [exact Ti|]. intros it1 Hit1. cbn in *. lia.
Qed.

Lemma deliver_i pi pr : vsent (view si) = vgot vr ++ apps pi -> vsent vr = vgot (view si) ++ apps pr ->
  phase i (view si) vr li (it :: lr) pi pr -> outcome (ids i) (ids (negb i)) si (wire it) t P.
Proof.
  intros Sl Slr Hp. phase_inv Hp.
  - destruct (aligned_next _ _ (opened si rxs []) _ _ _ rxs Hr Erxs eq_refl eq_refl) as (f & fs & -> & Hs & Hr').
    apply none_cons in Nr as [Hf Nr]. eapply app_case_i; eauto. intros prev. by apply PIdle.
  - destruct Ha as (Eg & Es & Hi & Hr).
    destruct (aligned_next _ _ (opened si rxs []) _ _ _ rxs Hr Erxs eq_refl eq_refl) as (f & fs & -> & Hs & Hr').
    apply only_cons in Ipr as [Hf Ipr].
    assert (forall prev, phase i (opened si rxs prev) vr li lr pi fs) as Hnext.
    { intros prev. apply (PInit _ _ _ _ _ _ _ kp since p1 p2 l1 it0 l2); try done.
      intros Hi'. destruct (Hfalse Hi') as (? & Hn & ?). by apply none_cons in Hn as [_ Hn]. }
    destruct Hf as [Hf|Hf]; [eapply app_case_i; eauto|]. destruct Hi as (tx & ? & Et & _). eapply keep_case_i; eauto.
    destruct i; [done|]. destruct (Hfalse eq_refl) as (_ & Hn & _). apply none_cons in Hn as [Hn _]. by rewrite init_control in Hn.
  - rewrite Erxs in Er. injection Er as <-. destruct p1 as [|f p1], l1 as [|it1 l1]; cbn in Epr, Elr; injection Elr as <- Elr; subst pr.
    + subst l2. eapply ack_case_i; eauto.
    + inversion Hc1 as [|? ? ? ? ? ? _ _ Hc]. by apply carries_frames_nil in Hc as [? _]; destruct l1.
    + inversion Hc1 as [|? ? ? ? ? ? _ _ Hc]. by apply carries_nil_inv in Hc as [? _]; destruct p1.
    + apply carries_cons_inv in Hc1 as (f' & fs & [= <- <-] & Hs & Hg & Hc1). apply only_cons in Ip1 as [Hf Ip1].
      assert (forall prev, phase i (opened si rxs prev) vr li lr pi (p1 ++ ack_frame kpr :: p2)) as Hnext.
      { intros prev. apply (PAck _ _ _ _ _ _ _ kp since kpr p1 p2 l1 it0 l2 k (after rxs 1) c' tx' txr c deadline); try done.
        intros Hi'. specialize (Hfalse Hi'). by apply none_cons in Hfalse as [_ Hn]. }
      destruct Hf as [Hf|Hf]; [eapply app_case_i; eauto|]. eapply keep_case_i; eauto.
      destruct i; [done|]. specialize (Hfalse eq_refl). apply none_cons in Hfalse as [Hn _]. by rewrite init_control in Hn.
  - destruct (aligned_next _ _ (opened si rxs []) _ _ _ rxs Hr Erxs eq_refl eq_refl) as (f & fs & -> & Hs & Hr').
    apply none_cons in Nr as [Hf Nr]. eapply app_case_i; eauto. intros prev. by eapply PDone.
Qed.

End deliver_i.

(** A phase has a cipher for either direction of either side. *)
Lemma phase_ciphers i vi vr li lr pi pr : phase i vi vr li lr pi pr ->
  is_Some (vtx vi) /\ is_Some (vrx vi) /\ is_Some (vtx vr) /\ is_Some (vrx vr).
Proof.
  intros Hp. phase_cases Hp; [destruct Hi as (? & ? & ? & ? & _), Hr as (? & ? & ? & ? & _); eauto..| |].
  - eauto 8.
  - destruct Hr as (? & ? & ? & ? & _). eauto 8.
Qed.

Lemma sides_ciphers b v v' l l' t : sides_inv b v v' l l' t ->
  is_Some (vtx v) /\ is_Some (vrx v) /\ is_Some (vtx v') /\ is_Some (vrx v').
Proof.
  intros [(_ & _ & _ & _ & pi & pr & _ & _ & Hp)|(_ & _ & _ & _ & pi & pr & _ & _ & Hp)]; apply phase_ciphers in Hp; tauto.
Qed.

(** An answer never takes longer than a round trip. *)
Lemma sides_waiting b v v' l l' t kq since' : sides_inv b v v' l l' t -> vstate v = AwaitingAck kq since' -> t <= since' + 2 * D.
Proof.
  intros [(_ & _ & Ti & Tr & pi & pr & _ & _ & Hp)|(_ & _ & Ti & Tr & pi & pr & _ & _ & Hp)] Hs; phase_cases Hp; try congruence.
  - rewrite Hs in Si. injection Si as <- <-. apply timely_at in Ti. lia.
  - rewrite Hs in Si. injection Si as <- <-. apply timely_at in Tr. lia.
  - specialize (Hboth _ _ Hs). apply timely_at in Ti. lia.
Qed.

(** Where nothing is on its way from a side, nothing it sent is missing; where nothing is on its way at
    all, no exchange is under way and the sides agree. *)
Lemma phase_link_i i vi vr lr pi pr : phase i vi vr [] lr pi pr -> pi = [].
Proof.
  intros Hp. phase_inv Hp.
  - destruct Hi as (? & ? & _ & _ & Hc). by apply carries_nil_inv in Hc as [-> _].
  - by destruct l1.
  - by apply carries_nil_inv in Hci as [-> _].
  - symmetry in Eli. apply app_nil in Eli as [-> ->]. apply carries_nil_inv in Hc1 as [-> _]. by apply carries_nil_inv in Hc2 as [-> _].
Qed.

Lemma phase_link_r i vi vr li pi pr : phase i vi vr li [] pi pr -> pr = [].
Proof.
  intros Hp. phase_inv Hp.
  - destruct Hr as (? & ? & _ & _ & Hc). by apply carries_nil_inv in Hc as [-> _].
  - destruct Ha as (_ & _ & _ & ? & ? & _ & _ & Hc). by apply carries_nil_inv in Hc as [-> _].
  - by destruct l1.
  - destruct Hr as (? & ? & _ & _ & Hc). by apply carries_nil_inv in Hc as [-> _].
Qed.

Lemma phase_quiet i vi vr pi pr : phase i vi vr [] [] pi pr ->
  vstate vi = Idle /\ vstate vr = Idle /\ vgen vi = vgen vr /\ vsid vi = vsid vr /\ vtx vi = vrx vr /\ vtx vr = vrx vi.
Proof.
  intros Hp. pose proof (phase_link_i _ _ _ _ _ _ Hp) as ->. pose proof (phase_link_r _ _ _ _ _ _ Hp) as ->. phase_inv Hp.
  - destruct Hi as (? & ? & Ei & Ei' & Hc), Hr as (? & ? & Er & Er' & Hc').
    apply carries_nil_inv in Hc as [_ ->]. apply carries_nil_inv in Hc' as [_ ->]. repeat split; congruence.
  - by destruct l1.
  - by destruct l1.
  - symmetry in Eli. apply app_nil in Eli as [-> ->]. destruct Hr as (? & ? & E1 & E2 & Hc').
    apply carries_nil_inv in Hc' as [_ ->]. apply carries_nil_inv in Hc2 as [_ ->]. repeat split; congruence.
Qed.

End inv.
