(* ===== verification/RekeySafe.v ===== *)
(** * Rekeys neither lose frames nor end the session

    The theorems about two runners that rekey over a connection of bounded delay, a run that shows their
    hypotheses can hold, and runs that show which of them the code does not ensure. *)

From S2P Require Import Prelude Crypto OMap Float FrameCodec SessionCipher Rekey RekeyNet RekeyInv RekeyRuns.
#[local] Open Scope Z_scope.
#[local] Open Scope list_scope.

Section safe.
Context `{Aead} `{!AeadLaws} `{!AeadTotal} `{Hkdf} `{X25519} `{!X25519Laws} `{!X25519Honest}.
Context {R : Type} `{Rng R}.
Context (scramble : list byte -> list byte) (ids : bool -> Key) (D : Z).
Context (Hids : ltb (ids true) (ids false) = true) (HD : 0 <= D) (HD2 : 2 * D < REKEY_RX_GRACE_DURATION).
Implicit Types (w : World R).

Lemma flush_inert g b es w : forallb inert es = true -> fold_left (flush g b) es w = w.
Proof.
  revert w. induction es as [|e es IH]; intros w He; [done|]. cbn in He. apply andb_true_iff in He as [He Hes].
  cbn. rewrite <- (IH w Hes) at 2. by destruct e.
Qed.

(** ** Every operation *)

(** The invariant, and how a side's view moves, from the views after an operation of side [b]. *)
Lemma step_from b w w' : inv ids D w -> placed (ids b) (ids (negb b)) (side w' b) -> side w' (negb b) = side w (negb b) ->
  moves (view (side w b)) (view (side w' b)) ->
  sides_inv ids D b (view (side w' b)) (view (side w (negb b))) (link w' b) (link w' (negb b)) (clock w') ->
  inv ids D w' /\ forall b', moves (view (side w b')) (view (side w' b')).
Proof.
  intros [Hpl _] Hb Eo Hm Hs. split.
  - apply (inv_from _ _ b); rewrite ?Eo; [done| |done]. specialize (Hpl (negb b)). by rewrite negb_involutive in Hpl.
  - intros b'. destruct (Bool.bool_dec b' b) as [->|Hb']; [done|]. assert (b' = negb b) as -> by (by destruct b, b').
    rewrite Eo. by apply moves_same.
Qed.

Lemma send_inv w b f n : inv ids D w -> allowed D w (Send b f n) ->
  inv ids D (exec scramble w (Send b f n)) /\ forall b', moves (view (side w b')) (view (side (exec scramble w (Send b f n)) b')).
Proof.
  intros Hinv (Hf & Hc & Hn & Hroom1 & _). pose proof Hinv as [Hpl Hs]. specialize (Hs b).
  pose proof Hs as Hci. apply sides_ciphers in Hci as ([tx Et] & _).
  change (tx_cipher (node (side w b)) = Some tx) in Et. rewrite Et in Hroom1. unfold exec.
  set (w1 := set_side w b (side w b <| sent ::= fun l => l ++ [(sealed_header f, f.2)] |>)).
  destruct (transmit_ok w1 b f tx) as (bytes & s' & -> & Hseal & Hv & Hp'); [unfold w1; by rewrite side_set|done..|].
  unfold w1 in *. autorewrite with world in *. apply (step_from b); autorewrite with world; [done| |done| |].
  - apply (Hp' _ _ (Hpl b)).
  - apply moves_same; [exact (f_equal vgen Hv)|exact (f_equal vstate Hv)].
  - match goal with |- sides_inv _ _ _ ?v _ _ _ _ => change v with (view s') end. rewrite Hv.
    by apply (sides_send ids D HD b _ _ _ _ _ tx f (mkItem bytes (clock w) (gen (side w b))) Hs).
Qed.

Lemma rekey_start_inv w b : inv ids D w -> allowed D w (Start b) ->
  inv ids D (exec scramble w (Start b)) /\ forall b', moves (view (side w b')) (view (side (exec scramble w (Start b)) b')).
Proof.
  intros Hinv ([Hroom1 _] & Hspace). pose proof Hinv as [Hpl Hs]. specialize (Hs b).
  pose proof Hs as Hci. apply sides_ciphers in Hci as ([tx Et] & _).
  change (tx_cipher (node (side w b)) = Some tx) in Et. rewrite Et in Hroom1. unfold exec.
  destruct (start_cases (side w b) (clock w) tx Et) as [->|(Hidle & Hdue & nd & kp & r' & -> & Hk & Hpl' & Etx & Hv)].
  - intros kp since Hst. pose proof (sides_waiting ids D b _ _ _ _ _ kp since Hs Hst).
    unfold REKEY_RX_GRACE_DURATION, REKEY_ACK_TIMEOUT, NANOS in *. lia.
  - cbn [fold_left]. apply (step_from b); autorewrite with world; [done|exact (Hpl b)|done|by apply moves_same|exact Hs].
  - cbn [fold_left flush]. set (s1 := side w b <| node := nd |> <| rng := r' |>) in *.
    destruct (transmit_ok (set_side w b s1) b (init_frame kp) tx) as (bytes & s' & -> & Hseal & Hv' & Hp'); [..|].
    + rewrite side_set. change (tx_cipher nd = Some tx). by rewrite Etx.
    + done.
    + apply rekey_frame_ok; [done|]. rewrite Hk, x25519_public_len. done.
    + autorewrite with world in *. rewrite Hv in Hv'. apply (step_from b); autorewrite with world; [done| |done| |].
      * apply Hp', Hpl', Hpl.
      * rewrite Hv'. split; [done|]. intros Hn. by destruct Hn.
      * rewrite Hv'. assert (gen s1 = gen (side w b)) as -> by exact (f_equal vgen Hv).
        apply (sides_start ids D HD kp Hk tx (mkItem bytes (clock w) (gen (side w b)))); try done.
        apply Hspace; [|done]. unfold is_idle. by rewrite Hidle.
Qed.

Lemma tick_inv w d : inv ids D w -> allowed D w (Tick d) ->
  inv ids D (exec scramble w (Tick d)) /\ forall b', moves (view (side w b')) (view (side (exec scramble w (Tick d)) b')).
Proof.
  intros [Hpl Hs] [Hd Hlate]. split; [|intros []; by apply moves_same]. split; [intros b; exact (Hpl b)|].
  intros b. specialize (Hs b). destruct b; apply sides_tick; try done.
  by rewrite Permutation_app_comm.
Qed.

(** A frame is taken off the connection: the reply, if any, goes on it. *)
Lemma deliver_outcome w b it rest : inv ids D w -> link w b = it :: rest ->
  outcome scramble (ids (negb b)) (ids b) (side w (negb b)) (wire it) (clock w)
    (fun v new => moves (view (side w (negb b))) v /\ sides_inv ids D b (view (side w b)) v rest (link w (negb b) ++ new) (clock w)) ->
  inv ids D (exec scramble w (Deliver b)) /\ forall b', moves (view (side w b')) (view (side (exec scramble w (Deliver b)) b')).
Proof.
  intros Hinv El (s' & effects & Er & Hp & Hout). unfold exec. rewrite El, Er.
  destruct Hout as [(Hi & Hm & Hs)|(reply & es & -> & Hi & Hm & Hs)].
  - rewrite flush_inert by done. apply (step_from (negb b)); autorewrite with world; try done.
    rewrite app_nil_r in Hs. by apply sides_flip.
  - cbn [fold_left flush]. rewrite flush_inert by done. apply (step_from (negb b)); autorewrite with world; try done.
    by apply sides_flip.
Qed.

Lemma deliver_inv w b : inv ids D w -> allowed D w (Deliver b) ->
  inv ids D (exec scramble w (Deliver b)) /\ forall b', moves (view (side w b')) (view (side (exec scramble w (Deliver b)) b')).
Proof.
  intros Hinv [Hroom Hauth]. destruct (link w b) as [|it rest] eqn:El.
  { unfold exec. rewrite El. split; [done|]. intros b'. by apply moves_same. }
  apply (deliver_outcome w b it rest Hinv El). pose proof Hinv as [Hpl Hs]. specialize (Hs b). rewrite El in Hs.
  pose proof (Hpl (negb b)) as Hplr. rewrite negb_involutive in Hplr.
  pose proof Hs as Hci. apply sides_ciphers in Hci as (_ & _ & _ & [rx Erx]).
  destruct Hs as [(Li & Lr & Ti & Tr & pi & pr & Si & Sr & Hp)|(Li & Lr & Ti & Tr & pi & pr & Si & Sr & Hp)].
  - destruct (deliver_r scramble ids D Hids HD HD2 b (view (side w b)) (side w (negb b)) it rest (link w (negb b)) (clock w))
      with (pi := pi) (pr := pr) as (s' & es & E & Hp' & Hout); try done.
    { intros rx' Erx'. change (rx_cipher (node (side w (negb b))) = Some rx') in Erx'. by rewrite Erx' in Hauth. }
    exists s', es. split; [done|]. split; [done|]. unfold sides_inv. destruct Hout as [(? & ? & ?)|(? & ? & ? & ? & ? & ?)]; eauto 12.
  - destruct (deliver_i scramble ids D Hids HD (negb b) (side w (negb b)) (view (side w b)) it (link w (negb b)) rest (clock w))
      with (rxs := rx) (pi := pi) (pr := pr) as (s' & es & E & Hp' & Hout); rewrite ?negb_involutive; try done.
    rewrite negb_involutive in Hp'. exists s', es. split; [done|]. split; [done|]. unfold sides_inv.
    destruct Hout as [(? & ? & ?)|(? & ? & ? & ? & ? & ?)]; eauto 12.
Qed.

Lemma run_inv w w' : rtc (step scramble D) w w' -> inv ids D w -> inv ids D w' /\ forall b, moves (view (side w b)) (view (side w' b)).
Proof.
  induction 1 as [w|w w1 w2 (op & Hop & ->) _ IH]; intros Hinv; [split; [done|]; intros b; by apply moves_same|].
  assert (inv ids D (exec scramble w op) /\ forall b, moves (view (side w b)) (view (side (exec scramble w op) b))) as [Hi Hm].
  { destruct op; [by apply send_inv|by apply rekey_start_inv|by apply deliver_inv|by apply tick_inv]. }
  destruct (IH Hi) as [Hi' Hm']. split; [done|]. intros b. by eapply moves_trans.
Qed.

(** ** The theorems *)

(** Both sides after the handshake, each with its own configuration. *)
Definition started (shared : Key) (cfg cfg' : Z * Z * bool * option Lane * bool) (r r' : R) (now : Z) : World R :=
  let '(bt, tt_, reg, l, rec) := cfg in
  let '(bt', tt', reg', l', rec') := cfg' in
  mkWorld (side_start bt tt_ now reg l rec shared (ids true) (ids false) r)
    (side_start bt' tt' now reg' l' rec' shared (ids false) (ids true) r') [] [] now.

Lemma handshake_inv shared cfg cfg' r r' now : inv ids D (started shared cfg cfg' r r' now).
Proof.
  destruct cfg as [[[[bt tt_] reg] l] rec], cfg' as [[[[bt' tt'] reg'] l'] rec'].
  destruct (derive_session_mirrored shared (ids true) (ids false) (ids_apart ids Hids true)) as (E1 & E2 & E3).
  apply (inv_from ids D true); [done..|]. left. split; [done|]. split; [done|]. split; [constructor|]. split; [constructor|].
  exists [], []. split; [done|]. split; [done|]. apply PIdle; try done; try constructor.
  - done.
  - split; [exact E3|]. cbn [link started]. split.
    + eexists _, _. split; [done|]. split; [done|]. cbn. rewrite E1. constructor.
    + eexists _, _. split; [done|]. split; [done|]. cbn. rewrite E2. constructor.
Qed.

(** C4.  A session survives its rekeys.  Two sides start from the keys of one handshake and then send
    frames, cross their thresholds, start rekeys (also both at once), answer them, switch keys and receive,
    in any order, over an ordered connection that delays a frame by at most [D], a round trip being shorter
    than the thirty seconds a previous cipher is kept.  Neither side ever tears the session down; what
    either side's dispatcher got is what the other was given to send, in order, without loss or repetition,
    and complete when nothing is on its way; and when nothing is on its way in either direction no exchange
    is pending, and the sides agree on the session, on its generation and on the cipher of each direction.
    The environment's part ([allowed]): a side starts a rekey more than [2 D] after its last one, a started
    attempt leaves the queue at once, and a frame of one generation does not open under another's key. *)
Theorem session_survives_rekeys shared cfg cfg' r r' now w (Hrun : rtc (step scramble D) (started shared cfg cfg' r r' now) w) :
  (forall b, live (side w b) = true) /\
  (forall b, exists rest, sent (side w b) = got (side w (negb b)) ++ rest /\ (link w b = [] -> rest = [])) /\
  (link w true = [] -> link w false = [] ->
   forall b, is_idle (rekey (node (side w b))) = true /\ session_id (node (side w b)) = session_id (node (side w (negb b))) /\
     gen (side w b) = gen (side w (negb b)) /\ tx_cipher (node (side w b)) = rx_cipher (node (side w (negb b)))).
Proof.
  destruct (run_inv _ _ Hrun (handshake_inv _ _ _ _ _ _)) as [[_ Hs] _].
  split; [|split].
  - intros b. destruct (Hs b) as [(Li & _)|(_ & Lr & _)]; done.
  - intros b. destruct (Hs b) as [(_ & _ & _ & _ & pi & pr & Si & _ & Hp)|(_ & _ & _ & _ & pi & pr & _ & Sr & Hp)].
    + exists (apps pi). split; [done|]. intros El. rewrite El in Hp. by rewrite (phase_link_i _ _ _ _ _ _ _ _ Hp).
    + exists (apps pr). split; [done|]. intros El. rewrite El in Hp. by rewrite (phase_link_r _ _ _ _ _ _ _ _ Hp).
  - intros E1 E2 b. assert (forall b, link w b = []) as El by (by intros []). specialize (Hs b). rewrite !El in Hs.
    destruct Hs as [(_ & _ & _ & _ & pi & pr & _ & _ & Hp)|(_ & _ & _ & _ & pi & pr & _ & _ & Hp)];
      apply phase_quiet in Hp as (S1 & S2 & Eg & Es & T1 & T2); unfold is_idle.
    + change (state (rekey (node (side w b)))) with (vstate (view (side w b))). by rewrite S1.
    + change (state (rekey (node (side w b)))) with (vstate (view (side w b))). by rewrite S2.
Qed.

(** C5.  Every attempt is decided by a rekey.  In the same runs, a side that waits for an answer has, once
    nothing is on its way, moved on to a later generation: an attempt is never given up for nothing, neither
    by the collision of two nor by the timeout. *)
Theorem rekey_completes shared cfg cfg' r r' now w w' b
    (Hrun : rtc (step scramble D) (started shared cfg cfg' r r' now) w) (Hrun' : rtc (step scramble D) w w')
    (Hwait : is_awaiting_ack (rekey (node (side w b))) = true) (Hquiet : link w' true = [] /\ link w' false = []) :
  forall b', gen (side w b) < gen (side w' b').
Proof.
  destruct (run_inv _ _ Hrun (handshake_inv _ _ _ _ _ _)) as [Hi _]. destruct (run_inv _ _ Hrun' Hi) as [[_ Hs] Hm].
  assert (forall b, link w' b = []) as El by (by intros []; apply Hquiet).
  assert (vstate (view (side w b)) <> Idle) as Hn.
  { intros E. unfold is_awaiting_ack in Hwait. change (vstate (view (side w b)) ) with (state (rekey (node (side w b)))) in E. by rewrite E in Hwait. }
  specialize (Hs b). rewrite !El in Hs.
  assert (vstate (view (side w' b)) = Idle /\ gen (side w' b) = gen (side w' (negb b))) as [Hidle Eg].
  { destruct Hs as [(_ & _ & _ & _ & pi & pr & _ & _ & Hp)|(_ & _ & _ & _ & pi & pr & _ & _ & Hp)];
      apply phase_quiet in Hp as (S1 & S2 & Eg & _); done. }
  destruct (Hm b) as [_ Hd]. destruct (Hd Hn) as [|Hlt]; [done|]. change (gen (side w b) < gen (side w' b)) in Hlt.
  intros b'. destruct (Bool.bool_dec b' b) as [->|]; [done|]. assert (b' = negb b) as -> by (by destruct b, b'). by rewrite <- Eg.
Qed.

End safe.

(** ** Runs *)

(** [allowed], as a test. *)
Section check.
Context `{Aead} `{Hkdf} `{X25519} {R : Type} `{Rng R}.

Definition within (x bound : Z) : bool := (0 <=? x) && (x <? bound).

Definition frame_okb (f : Frame) : bool :=
  let h := f.1 in
  (version h =? VERSION) && (header_len h =? HEADER_SIZE) && within (family h) 256 && within (msg_type h) 65536 &&
  within (flags h) 65536 && within (stream_id h) 4294967296 && within (request_id h) 4294967296 && (body_len h =? zlen f.2) &&
  (zlen f.2 + AEAD_OVERHEAD <=? MAX_FRAME_BODY).

Lemma within_ok x bound : within x bound = true -> 0 <= x < bound.
Proof. unfold within. intros E. to_prop. lia. Qed.

Lemma frame_ok_checked f : frame_okb f = true -> frame_ok f.
Proof.
  unfold frame_okb, frame_ok, header_ok. intros E. repeat (apply andb_true_iff in E as [E ?]).
  repeat match goal with E : within _ _ = true |- _ => apply within_ok in E end. to_prop.
  pose proof (zlen_nonneg f.2). unfold is_u8, is_u16, is_u32, AEAD_OVERHEAD, MAX_FRAME_BODY in *. lia.
Qed.

Definition roomb (s : Side R) : bool :=
  match tx_cipher (node s) with Some c => counter c <? U64_MAX | None => true end && (gen s <? U64_MAX).

Lemma room_checked s : roomb s = true -> room s.
Proof. unfold roomb, room. intros [E1 E2]%andb_true_iff. destruct (tx_cipher (node s)); to_prop; done. Qed.

Definition foreignb (c : SessionCipher) (bytes : list byte) : bool :=
  match decode_header bytes with
  | inr h => is_none (aead_open (cipher c) (frame_nonce c (counter c + 1)) (frame_aad h) (zdrop HEADER_SIZE bytes))
  | inl _ => true
  end.

Lemma foreign_checked c bytes : foreignb c bytes = true -> foreign c bytes.
Proof. unfold foreignb, foreign. destruct (decode_header bytes); [done|]. by destruct (aead_open _ _ _ _). Qed.

Definition allowedb (D : Z) (w : World R) (op : Op) : bool :=
  match op with
  | Send b f n => frame_okb f && negb (control f) && (0 <=? n) && roomb (side w b)
  | Start b => roomb (side w b) && (last_rekey_at (rekey (node (side w b))) + 2 * D <? clock w)
  | Deliver b =>
      roomb (side w (negb b)) &&
      match link w b, rx_cipher (node (side w (negb b))) with
      | it :: _, Some rx => (item_gen it =? gen (side w (negb b))) || foreignb rx (wire it)
      | _, _ => true
      end
  | Tick d => (0 <=? d) && forallb (fun it => clock w + d <=? sent_at it + D) (from_lo w ++ from_hi w)
  end.

Lemma allowed_checked D w op : allowedb D w op = true -> allowed D w op.
Proof.
  destruct op as [b f n|b|b|d]; unfold allowedb, allowed; intros E.
  - apply andb_true_iff in E as [[[E ?]%andb_true_iff ?]%andb_true_iff ?]. split; [by apply frame_ok_checked|]. split; [by apply negb_true_iff|].
    split; [by apply Z.leb_le|]. by apply room_checked.
  - apply andb_true_iff in E as [E ?]. split; [by apply room_checked|]. intros _ _. by apply Z.ltb_lt.
  - apply andb_true_iff in E as [E E']. split; [by apply room_checked|].
    destruct (link w b) as [|it l]; [done|]. destruct (rx_cipher _) as [rx|]; [|done]. intros Hg.
    apply orb_true_iff in E' as [E'|E']; [by apply Z.eqb_eq in E'|by apply foreign_checked].
  - apply andb_true_iff in E as [E E']. split; [by apply Z.leb_le|]. apply Forall_forall. intros it Hit.
    rewrite forallb_forall in E'. apply Z.leb_le, E'. by apply list_elem_of_In.
Qed.

(** A run whose every operation is allowed; [None] if one is not. *)
Fixpoint run_checked (scramble : list byte -> list byte) (D : Z) (w : World R) (ops : list Op) : option (World R) :=
  match ops with
  | [] => Some w
  | op :: ops => if allowedb D w op then run_checked scramble D (exec scramble w op) ops else None
  end.

Lemma run_checked_ok scramble D w ops w' : run_checked scramble D w ops = Some w' -> rtc (step scramble D) w w'.
Proof.
  revert w. induction ops as [|op ops IH]; intros w E; cbn in E; [injection E as <-; apply rtc_refl|].
  destruct (allowedb D w op) eqn:Ea; [|done]. eapply rtc_l; [|by apply IH]. exists op. split; [by apply allowed_checked|done].
Qed.

End check.

(** Instances whose keys tell themselves apart: a tag is the last half of the key. *)
Module Runs.

Definition aead_tagged : Aead := {|
  aead_seal := fun k n aad m => Some (m ++ Toy.pad 16 (drop 16 k));
  aead_open := fun k n aad c =>
    let m := take (length c - 16) c in
    if decide (16 <= length c)%nat then if decide (drop (length c - 16) c = Toy.pad 16 (drop 16 k)) then Some m else None else None
|}.

Lemma aead_tagged_laws : @AeadLaws aead_tagged.
Proof.
  constructor; intros k n aad m c E; cbn -[Toy.pad] in E; injection E as <-;
    assert (length (m ++ Toy.pad 16 (drop 16 k)) = (length m + 16)%nat) as El by (rewrite length_app, Toy.length_pad; lia).
  - unfold aead_open, aead_tagged. rewrite El. replace (length m + 16 - 16)%nat with (length m) by lia.
    rewrite decide_True by lia. rewrite drop_app_length, take_app_length. by rewrite decide_True.
  - unfold zlen. rewrite El. lia.
Qed.

Lemma aead_tagged_total : @AeadTotal aead_tagged.
Proof. intros k n aad m _. by eexists. Qed.

Definition hkdf_spread : Hkdf := {|
  hkdf := fun salt ikm info n => let k := be_bytes 32 (5 * from_be salt + 3 * from_be ikm + from_be info) in take (Z.to_nat n) (k ++ k ++ k);
  hkdf_expand := fun prk info n => be_bytes (Z.to_nat n) (3 * from_be prk + from_be info)
|}.

#[local] Existing Instance aead_tagged.
#[local] Existing Instance aead_tagged_laws.
#[local] Existing Instance aead_tagged_total.
#[local] Existing Instance hkdf_spread.
#[local] Existing Instance Toy.x25519_toy.
#[local] Existing Instance Toy.x25519_toy_laws.
#[local] Existing Instance Toy.x25519_toy_honest.
#[local] Existing Instance Toy.rng_toy.

Definition node_ids (b : bool) : Key := be_bytes 32 (if b then 1 else 2).

(** Thresholds that are always crossed: a side starts whenever it may. *)
Definition eager : Z * Z * bool * option Lane * bool := (0, 0, true, Some (mkLane true true true), true).

Definition opening : World Z := started node_ids (be_bytes 32 77) eager eager 1000 2000 0.

Definition text (n : Z) : Frame := (header_new 4 1 <| body_len := 1 |>, [byte_of n]).

Definition scrambled (l : list byte) : list byte := rev l.

(** Both sides start at once; then frames are on their way under the old and the new keys. *)
Definition both_start : list Op := [Tick (3 * NANOS); Send true (text 1) 0; Start true; Send false (text 2) 0; Start false].
Definition both_switch : list Op :=
  [Deliver true; Deliver true; Deliver false; Deliver false; Send true (text 3) 0; Deliver false; Send true (text 4) 0;
   Send false (text 5) 0; Tick NANOS; Deliver true; Deliver true; Deliver true; Deliver false].

Definition waiting : World Z := Eval vm_compute in default opening (run_checked scrambled NANOS opening both_start).
Definition settled : World Z := Eval vm_compute in default opening (run_checked scrambled NANOS waiting both_switch).

Lemma waiting_run : run_checked scrambled NANOS opening both_start = Some waiting.
Proof. vm_compute. reflexivity. Qed.

Lemma settled_run : run_checked scrambled NANOS waiting both_switch = Some settled.
Proof. vm_compute. reflexivity. Qed.

Lemma node_ids_ordered : ltb (node_ids true) (node_ids false) = true.
Proof. reflexivity. Qed.

Lemma session_survives_rekeys_witness :
  live (side settled true) = true /\ live (side settled false) = true /\ gen (side settled true) = 1 /\ gen (side settled false) = 1 /\
  snd <$> got (side settled true) = [[x02]; [x05]] /\ snd <$> got (side settled false) = [[x01]; [x03]; [x04]] /\
  tx_cipher (node (side settled true)) = rx_cipher (node (side settled false)).
Proof.
  destruct (session_survives_rekeys scrambled node_ids NANOS node_ids_ordered ltac:(done) ltac:(done) (be_bytes 32 77) eager eager
    1000 2000 0 settled) as (Hlive & _ & Hquiet).
  - transitivity waiting; [exact (run_checked_ok _ _ _ _ _ waiting_run)|exact (run_checked_ok _ _ _ _ _ settled_run)].
  - split; [apply Hlive|]. split; [apply Hlive|]. split; [reflexivity|]. split; [reflexivity|]. split; [reflexivity|].
    split; [reflexivity|]. apply (Hquiet eq_refl eq_refl true).
Defined.

Lemma rekey_completes_witness :
  is_awaiting_ack (rekey (node (side waiting false))) = true /\ gen (side waiting false) < gen (side settled true).
Proof.
  split; [reflexivity|].
  exact (rekey_completes scrambled node_ids NANOS node_ids_ordered ltac:(done) ltac:(done) (be_bytes 32 77) eager eager
    1000 2000 0 waiting settled false (run_checked_ok _ _ _ _ _ waiting_run) (run_checked_ok _ _ _ _ _ settled_run)
    eq_refl (conj eq_refl eq_refl) true).
Defined.

(** ** What the code does not ensure *)

Definition exec_all (w : World Z) (ops : list Op) : World Z := fold_left (exec scrambled) ops w.

(** The larger id crosses a threshold, and its attempt stays in the queue (a pass of the loop writes at most
    [ENCRYPTED_BATCH_BYTES_CAP] bytes, and nothing while the writer has no room) until the smaller id's
    attempt has been answered; then the queue drains. *)
Definition queued_attempt : World Z := Eval vm_compute in
  let w := exec_all opening [Tick (3 * NANOS); Start true] in
  let '(n, effects, r) := maybe_initiate_x25519_rekey (node (hi w)) (clock w) (rng (hi w)) in
  let w := set_side w false (hi w <| node := n |> <| rng := r |>) in
  let w := exec_all w [Deliver true] in
  let w := fold_left (flush (gen (hi w)) false) effects w in
  exec_all w [Deliver false; Deliver false; Deliver true; Send true (text 1) 0].

(** Both start at once, and the larger id crosses a threshold again before it hears that the smaller kept its
    attempt: within a round trip, which takes low thresholds and much traffic. *)
Definition early_attempt : World Z := Eval vm_compute in
  exec_all opening [Tick (3 * NANOS); Start true; Start false; Deliver true; Start false; Deliver false; Deliver false;
                    Deliver true; Deliver false; Deliver true; Send true (text 1) 0].


End Runs.
